(* ===== verification/_CoqProject ===== *)
-Q . S2P
Prelude.v
Float64.v
Limbs.v
LimbSpecs.v
LimbDiv.v
BigInt.v
BigIntMul.v
BigIntDivRem.v
BigIntBits.v
BigIntPow.v
BigIntFloatSpecs.v
BigIntFloatCmp.v
Numbers.v
NumberSpecs.v
BigIntInterface.v
Operators.v
OperatorSpecs.v
AsIntN.v
BigIntString.v
BigIntParse.v
BigIntToString.v
BigIntTheorems.v
OperatorTheorems.v
Cutils.v
Utf8.v
JSString.v
StringBuffers.v
JSStringSpecs.v
Rope.v
RopeBalance.v
RopeSpecs.v
StringTheorems.v
GC.v
GCTheorems.v
Sort.v
SortSpecs.v
SortTheorems.v
Atoms.v
AtomSpecs.v
AtomRemove.v
AtomOps.v
AtomIntern.v
AtomAdd.v
Dtoa.v
AtomKeys.v
AtomTheorems.v
DtoaTheorems.v
CharRange.v
CharRangeOps.v
CharRangeTheorems.v
Shapes.v
ShapeTables.v
ShapeChains.v
ShapeRefs.v
ShapeAdd.v
ShapeObjects.v
ShapeUpdate.v
ShapeProps.v
ShapeTheorems.v
Promise.v
PromiseOps.v
PromiseTheorems.v
Maps.v
MapSpecs.v
MapOps.v
MapSteps.v
MapKeys.v
MapTheorems.v
Date.v
DateSpecs.v
DateParseSpecs.v
DateTheorems.v
LreExec.v
LreSpecs.v
LreDen.v
LreCode.v
LreSteps.v
LreLoops.v
LreMatch.v
LreTheorems.v
