(* ===== verification/Prelude.v ===== *)
(** * QuickJS (6over3/quickjs): a verification of the engine's data layer

    QuickJS is a JavaScript engine in C.  [src/quickjs.c] holds the runtime: values,
    strings, BigInts, atoms, objects, the garbage collector, the parser, the bytecode
    compiler, the interpreter and the built-in objects.  It rests on [src/cutils.c]
    (byte buffers, UTF-8, sorting), [src/list.h] (intrusive lists), [src/dtoa.c]
    (numbers and text), [src/libunicode.c] and [src/libregexp.c]; [src/hako.c] exports
    it.  This library models the layer under the interpreter, where the values of the
    language are represented, computed with, converted, stored and reclaimed, and the
    built-in objects that are data structures of their own: maps, promises, dates; and
    the matcher of regular expressions with its code generator.

    ** Conventions

    A definition keeps the name of the C function it translates.  A [w]-bit integer
    is a [Z] and every operation that can leave its range is followed by [wrap w] or
    [swrap w].  A C array is a list and every access is checked.  Code that
    allocates, throws or accesses arrays is in the monad [M] (this file): its state
    is the sequence of answers the allocator will give, so that every theorem covers
    every pattern of refused allocations, and its outcomes are a value, an exception
    or [Undefined] for an access outside an array, a failed assert or a loop without
    fuel.  [mspec m Q E] says that [m] is never [Undefined], that a result satisfies
    [Q], and that an exception satisfies [E] or is an out-of-memory after a refusal;
    a specification therefore always includes memory safety and termination.  Maps,
    dates and regular expressions, which need the allocator at two places or not at
    all, are in [option] instead: [None] is a use of freed memory, an access outside a
    buffer, a failed assert, a loop without fuel, and for dates a number that [double]
    would round.

    What the code leaves to the platform or to JavaScript code is a class: the limb
    width 32 or 64 ([LimbConfig]), the width of [size_t] ([SizeConfig]) and of pointers
    ([PointerConfig]), the content of fresh memory ([RawMemory], [FreshMemory],
    [RawPoints]), the slack [js_realloc2] reports ([MallocSlack]), [pow] of the C
    library ([LibM]), the time zone ([TimeZone]), the values of properties
    ([ObjectConfig]), the JavaScript functions that promises call ([PromiseHost]), and
    case folding, time outs and memory for regular expressions ([LreHost]).
    Theorems hold for all of them.  Two classes are contracts between components:
    [BigIntArith] between the arithmetic and the operators, [MapKeys] with
    [MapKeyLaws] between the comparison of values and the maps; each has the instance
    that quickjs.c implements.

    ** Files

    - [Prelude]: machine integers, the monad, arrays, counted loops.
    - Limbs ([mp_*]): [Limbs] and [LimbDiv] define the linear routines and the
      division with its precomputed inverse and prove the division; [LimbSpecs].
    - BigInts ([js_bigint_*]): [BigInt] defines them, the integer an array denotes and
      the normal form; [BigIntMul], [BigIntDivRem], [BigIntBits], [BigIntPow] prove the
      operations.
    - float64: [Float64] (bit patterns), [BigIntFloatSpecs] and [BigIntFloatCmp]; [Numbers] and [NumberSpecs] are the tagged numbers and
      [JS_ToInt32Free], [JS_ToInt64Free], their saturating and clamping variants and
      [JS_NewFloat64].
    - BigInts and text: [BigIntString], [BigIntParse], [BigIntToString]
      ([js_bigint_from_string], [js_bigint_to_string1]).
    - operators: [BigIntInterface] is the contract [BigIntArith] and the proof that
      quickjs.c keeps it; [Operators] and [OperatorSpecs] are
      [js_binary_arith_slow], [js_binary_logic_slow], [js_unary_arith_slow],
      [js_compare_bigint] and their helpers, written and proved against the contract;
      [AsIntN] is [BigInt.asIntN], [BigInt.asUintN] and the 64-bit conversions.
    - cutils: [Cutils], [Utf8] (bounded string copies, [DynBuf], UTF-8,
      surrogates).
    - strings: [JSString] defines 8-bit and 16-bit strings, [StringBuffer] and the
      conversions from and to UTF-8; [StringBuffers], [JSStringSpecs].
    - ropes: [Rope] defines [JSStringRope], its iterator, comparison, linearization,
      rebalancing and [JS_ConcatString]; [RopeBalance], [RopeSpecs].
    - collector: [GC] defines the GC objects, [mark_children], [gc_decref] and
      [gc_scan] on the intrusive lists; [GCTheorems].
    - sorting: [Sort] defines [rqsort] and [heapsortx]; [SortSpecs], [SortTheorems].
    - atoms: [Atoms] defines the table of [JSAtomStruct] with its chains, free list,
      growth, rehashing and reference counts ([__JS_NewAtom], [JS_FreeAtomStruct],
      [JS_ResizeAtomHash], [JS_InitAtoms]); [AtomSpecs] is its invariant;
      [AtomRemove], [AtomOps], [AtomIntern], [AtomAdd] prove the operations;
      [AtomKeys] is the keys of integers, [JS_AtomIsArrayIndex], [__JS_AtomToValue] and
      [JS_NewSymbol].
    - integers to text: [Dtoa] ([u32toa] to [i64toa_radix]), [DtoaTheorems].
    - sets of code points: [CharRange] defines [cr_op], [cr_invert] and the rest of
      [CharRange] of libunicode; [CharRangeOps].
    - objects: [Shapes] defines [JSShape] with its property table, the table of
      shapes, and creation, lookup, addition and deletion of properties on ordinary
      objects; [ShapeTables], [ShapeChains], [ShapeRefs] are the three parts of the
      invariant; [ShapeAdd], [ShapeObjects], [ShapeUpdate], [ShapeProps] the operations
      and the abstract objects, ordered maps.
    - promises and jobs: [Promise] defines the states, the resolving functions, the
      reactions, the queue of jobs and [HAKO_ExecutePendingJob], with arbitrary
      JavaScript code between them; [PromiseOps] is the invariant and its proof.
    - maps and sets: [Maps] defines [JSMapState] with its hash table, the list of
      records, iterators and [forEach]; [MapSpecs] is the abstract map and the
      invariant, [MapOps] the operations on records, [MapSteps] the methods, [MapKeys]
      the hash and the comparison of the engine's values.
    - dates: [Date] is the calendar, the fields of a date, their setting and printing,
      and [Date.parse]; [DateSpecs], [DateParseSpecs].
    - regular expressions: [LreExec] defines the bytecode, [lre_exec_backtrack] as the
      rounds [round] on configurations with the stack of states, and the code generator
      ([emit], [emit_quantifier], [lre_compile]); [LreSpecs] relates the stack of states
      to a recursive search; [LreDen] is what an expression matches; [LreCode] reads
      emitted code back, [LreSteps] and [LreLoops] run it, [LreMatch] puts them together.
    - [BigIntTheorems], [OperatorTheorems], [StringTheorems], [GCTheorems],
      [SortTheorems], [AtomTheorems], [DtoaTheorems], [CharRangeTheorems],
      [ShapeTheorems], [PromiseTheorems], [MapTheorems], [DateTheorems],
      [LreTheorems]: the properties and a concrete instance of each.

    ** What the theorems show

    - Objects: programs of operations on objects that share shapes refine operations
      on ordered maps, with the counts of the shapes and their table consistent, and
      a lookup in the table of shapes finds a shape exactly when there is one.
    - Maps and sets: programs of methods, iterators and [forEach] calls refine a list
      of entries in insertion order with positions in it, without a use of freed
      records; iteration visits what stays, once; keys are compared by value, and
      equal keys have equal hashes.
    - Promises and jobs: a promise settles at most once, the jobs run in the order of
      the queue, and, with every allocation granted, what the first call of a resolving
      function decides is done: every reaction is queued exactly once, in order, or one
      thenable job is.
    - Dates: the calendar is the Gregorian one, fields and time values are inverse,
      [toISOString] and [Date.parse] round trip, and [Date.parse] ends on every string.
    - Regular expressions: the loop with the stack of states implements backtracking on
      any bytecode; compiled expressions, with their jumps, counters, checks of advance
      and simple quantifiers, find the first match of what the expression denotes, and
      its captures are in the string, those of a group together and in order; a search
      in a class is membership.
    - Collector: on a heap with right reference counts the marking finds exactly the
      unreachable objects, restores every count and leaves the rest unmarked.
    - Sorting: [rqsort] ends within its stack of 50 segments and permutes the array
      whatever the comparison answers, and sorts when it is consistent.
    - Atoms: the table holds each string once, references are conserved, an atom is
      removed exactly with its last reference, and property keys are equal exactly
      when their texts are, which [__JS_AtomToValue] gives back.
    - BigInt arithmetic: every operation returns the normal form of the integer
      result, or throws for division by zero, a negative exponent or the size limit.
      The division estimates are right, the rounding to float64 is to nearest even,
      printing stays in its buffer and parsing inverts it.
    - Integers to text: the digits are the canonical ones, inside the buffers.
    - Sets of code points: the operations compute the set and its only canonical array.
    - Operators: on short and heap BigInts they refine the operations of the
      integers; mixing BigInts and numbers throws.  The conversions of numbers to
      integers are modular, saturating or clamping as their names say.
    - Strings: the UTF-8 codec and the conversion of strings round trip; a string
      buffer refines a list of code units as long as its [int] lengths do not wrap
      around; the error flag of a [DynBuf] tells exactly whether bytes were lost, while
      the sizes stay far from the end of [size_t]; comparison and concatenation depend on the
      units only, in both widths and on ropes.
    - Ropes: linearization, concatenation and rebalancing keep the units, the cached
      fields and the depth bound, for strings that are [balanced] and with every
      allocation granted.

    Some theorems state where the code differs from its intention:
    [bigint_float64_cmp_inverts] (the order of a negative BigInt and a negative
    float64 of different exponents is inverted), [asN_correct] ([BigInt.asUintN] of a
    negative short BigInt can be negative), [rebalance_diverges] (a rope whose
    rebalancing asks for its own rebalancing), [rebalance_ignores_failure] (a
    refused allocation while rebalancing loses the content), [dbuf_overflow_unreported]
    (an append that overflows [size_t] is lost without setting the error flag),
    [atom_limit_overflows]
    (the growth of the atom table overflows before it is compared with the limit),
    [property_link_truncated] (the links of a property table have 26 bits),
    [reaction_lost_without_memory] (the result of [JS_EnqueueJob] is ignored),
    [hako_zero_runs_nothing] (a limit of 0 jobs runs none), [map_clear_uses_freed_record]
    and [forEach_uses_freed_record] (freeing a value can free the record the loop goes
    to next), [date_parse_clips_early] (the range of a date is checked before its zone
    offset is subtracted), and [captures_kept_between_rounds] (the captures of an atom
    are not reset at each round of its quantifier).

    ** Fuel

    Loops that are not counted take fuel, and running out of it is [Undefined] or
    [None], which no specification allows.  Digit loops have one unit per digit or
    limb; the add-back loop of [mp_divnorm] needs at most three rounds; the UTF-8 loop
    has one unit per byte; the passes over a list of the collector have one per
    object; the rounds of [rqsort] on a segment are bounded by the depth 50 and the
    segments by the number of elements; the comparison of ropes has one unit per
    string; the chains of the atom table have at most the length of its array, those
    of a shape the number of its properties, those of the table of shapes and of a map
    the number of shapes and records; the size of a property table doubles at most 32
    times; a walk on the list of a map has one unit per
    record; the loop of [year_from_days] needs two rounds; the loops of [Date.parse]
    have one unit per byte of the buffer; the scans of bytecode have one per byte, the
    loops of a back reference and of a class more than one per character and per range.
    The rounds of a match are not bounded by the code: [lre_exec_matches] says that some
    fuel is enough, and that more gives the same.  The number of jobs run by
    [HAKO_ExecutePendingJob] is not bounded by the code, and is an argument.  The
    recursion of rebalancing has no bound in the code either: [js_new_string_rope]
    takes its depth as an argument and the theorems hold for every value of it, under
    the condition [balanced], without which [rebalance_diverges] shows that no depth
    is enough.

    ** Not modelled

    Reference counts of BigInts, of strings outside the atom table and of map values,
    and [js_free] of them.  Of the collector, what follows the marking
    ([gc_free_cycles], weak references), which runs finalizers.  Of the operators,
    operands that are strings or objects, which run user code.  Of sorting, the
    choice of the width in which the bytes of two elements are exchanged
    ([exchange_func]).  [dbuf_printf].  Of atoms, [JS_NewAtomLen] with its lookup
    before decoding, [JS_AtomIsNumericIndex] and the weak references of symbols.  Of
    objects, exotic classes, accessors, the global object, the walk along the
    prototypes and the checks of [JS_DefineProperty].  Of promises, the combinators,
    [finally], async functions and the contexts of jobs.  Of maps, the weak variants,
    the constructor's loop over an iterable, [groupBy], the operations of sets and the
    finalizer of a map.  Of dates, the constructor and numbers beyond 2^53.  The rest of
    [dtoa.c] (float64 and text) and of [libunicode.c] (the tables).  Of [libregexp.c], the
    parser of expressions, character classes and lists of strings, and the names of
    groups.  The parser, the compiler and the interpreter with the other built-in objects, which
    need the whole of the heap; the files that are input and output or glue
    ([quickjs-libc.c], [hako.c] but for its loop over the jobs, [qjs.c], [qjsc.c],
    [run-test262.c], [unicode_gen.c], [ts_strip.c]) and the generated parsers under
    [ts_strip]. *)
From stdpp Require Import base tactics list numbers strings.
From Stdlib Require Import ZArith Lia Btauto.

Open Scope Z_scope.

(** * Machine integers

    A [w]-bit unsigned integer is a [Z] in [0, 2^w); arithmetic that may leave
    the range is followed by [wrap w].  A signed integer is read back from its
    two's complement pattern with [swrap w]. *)

Definition wrap (w x : Z) : Z := x mod 2 ^ w.

Definition swrap (w x : Z) : Z := (x + 2 ^ (w - 1)) mod 2 ^ w - 2 ^ (w - 1).

(** The value of a C comparison used as an integer. *)
Definition c_bool (b : bool) : Z := if b then 1 else 0.

Lemma wrap_range w x : 0 <= w -> 0 <= wrap w x < 2 ^ w.
Proof. intros. apply Z.mod_pos_bound. lia. Qed.

Lemma wrap_small w x : 0 <= x < 2 ^ w -> wrap w x = x.
Proof. intros. apply Z.mod_small. lia. Qed.

Lemma swrap_range w x : 0 < w -> - 2 ^ (w - 1) <= swrap w x < 2 ^ (w - 1).
Proof.
  intros Hw. unfold swrap.
  pose proof (Z.mod_pos_bound (x + 2 ^ (w - 1)) (2 ^ w) ltac:(lia)).
  assert (2 ^ w = 2 * 2 ^ (w - 1)) by (rewrite <- Z.pow_succ_r by lia; f_equal; lia).
  lia.
Qed.

Lemma swrap_small w x : 0 < w -> - 2 ^ (w - 1) <= x < 2 ^ (w - 1) -> swrap w x = x.
Proof.
  intros Hw Hx. unfold swrap.
  assert (2 ^ w = 2 * 2 ^ (w - 1)) by (rewrite <- Z.pow_succ_r by lia; f_equal; lia).
  rewrite Z.mod_small; lia.
Qed.

(** Two's complement reading of an unsigned pattern. *)
Lemma swrap_pattern w x :
  0 < w -> 0 <= x < 2 ^ w ->
  swrap w x = if x <? 2 ^ (w - 1) then x else x - 2 ^ w.
Proof.
  intros Hw Hx. unfold swrap.
  assert (2 ^ w = 2 * 2 ^ (w - 1)) by (rewrite <- Z.pow_succ_r by lia; f_equal; lia).
  destruct (Z.ltb_spec x (2 ^ (w - 1))).
  - rewrite Z.mod_small; lia.
  - rewrite (Z.mod_eq _ (2 ^ w)) by lia.
    replace ((x + 2 ^ (w - 1)) / 2 ^ w) with 1; [lia|].
    apply (Z.div_unique _ _ _ (x + 2 ^ (w - 1) - 2 ^ w)); lia.
Qed.

Lemma c_bool_bounds b : 0 <= c_bool b <= 1.
Proof. destruct b; simpl; lia. Qed.

Lemma lor_c_bool a b : Z.lor (c_bool a) (c_bool b) = c_bool (a || b).
Proof. destruct a, b; reflexivity. Qed.

(** Products of bounded factors. *)
Lemma mul_bounds x y a b : 0 <= x <= a -> 0 <= y <= b -> 0 <= x * y <= a * b.
Proof. intros Hx Hy. split; [apply Z.mul_nonneg_nonneg; lia|apply Z.mul_le_mono_nonneg; lia]. Qed.

(** Bit-level facts used to read shifts and masks arithmetically. *)
Lemma lor_add_disjoint a b : Z.land a b = 0 -> Z.lor a b = a + b.
Proof.
  intros H. rewrite <- Z.lxor_lor by exact H.
  symmetry. apply Z.add_nocarry_lxor. exact H.
Qed.

Lemma land_low_shifted k a b :
  0 <= k -> 0 <= b < 2 ^ k -> Z.land (a * 2 ^ k) b = 0.
Proof.
  intros Hk Hb. rewrite <- Z.shiftl_mul_pow2 by lia.
  apply Z.bits_inj'. intros i Hi. rewrite Z.land_spec, Z.bits_0.
  destruct (Z.lt_ge_cases i k).
  - rewrite Z.shiftl_spec_low by lia. reflexivity.
  - rewrite <- (Z.mod_small b (2 ^ k)) by lia.
    rewrite Z.mod_pow2_bits_high by lia. apply andb_false_r.
Qed.

(** [(a << k) | b] is [a * 2^k + b] when [b] fits below the shift. *)
Lemma shl_lor_add k a b :
  0 <= k -> 0 <= b < 2 ^ k -> Z.lor (Z.shiftl a k) b = a * 2 ^ k + b.
Proof.
  intros Hk Hb. rewrite Z.shiftl_mul_pow2 by lia.
  apply lor_add_disjoint, land_low_shifted; lia.
Qed.

(** A mask of [k] low ones is a remainder. *)
Lemma land_mask k a : 0 <= k -> Z.land a (2 ^ k - 1) = a mod 2 ^ k.
Proof. intros Hk. rewrite <- Z.land_ones by lia. f_equal. rewrite Z.ones_equiv. lia. Qed.

Lemma shiftr_range k w x :
  0 <= k <= w -> 0 <= x < 2 ^ w -> 0 <= Z.shiftr x k < 2 ^ (w - k).
Proof.
  intros Hk Hx. rewrite Z.shiftr_div_pow2 by lia. split.
  - apply Z.div_pos; lia.
  - apply Z.div_lt_upper_bound; [lia|].
    rewrite <- Z.pow_add_r by lia. replace (k + (w - k)) with w by lia. lia.
Qed.

(** The sign bit of a [w]-bit pattern. *)
Lemma shiftr_top_bit w x :
  0 < w -> 0 <= x < 2 ^ w -> Z.shiftr x (w - 1) = c_bool (2 ^ (w - 1) <=? x).
Proof.
  intros Hw Hx. rewrite Z.shiftr_div_pow2 by lia.
  assert (2 ^ w = 2 * 2 ^ (w - 1)) by (rewrite <- Z.pow_succ_r by lia; f_equal; lia).
  destruct (Z.leb_spec (2 ^ (w - 1)) x); simpl.
  - symmetry. apply (Z.div_unique _ _ _ (x - 2 ^ (w - 1))); lia.
  - apply Z.div_small. lia.
Qed.

(** * Effects

    The runtime code allocates, throws JavaScript exceptions and reads and
    writes C arrays.  [M] is a state and error monad: the state is the list of
    answers the allocator will give to the next requests, an outcome is a value,
    a thrown exception, or [Undefined] for an access outside an array, a failed
    assert, or a loop that ran out of the fuel its definition gives it. *)

Inductive exn : Type :=
| OutOfMemory
| RangeError (msg : string)
| TypeError (msg : string)
| InternalError (msg : string).

Inductive outcome (A : Type) : Type :=
| Ok (a : A)
| Throw (e : exn)
| Undefined.
Arguments Ok {A} a.
Arguments Throw {A} e.
Arguments Undefined {A}.

(** [o n] tells whether the [n]-th allocation from now on succeeds. *)
Definition allocator : Type := nat -> bool.

Definition M (A : Type) : Type := allocator -> outcome A * allocator.

#[export] Instance M_ret : MRet M := fun A a o => (Ok a, o).
#[export] Instance M_bind : MBind M := fun A B f m o =>
  match m o with
  | (Ok a, o') => f a o'
  | (Throw e, o') => (Throw e, o')
  | (Undefined, o') => (Undefined, o')
  end.

Definition throw {A} (e : exn) : M A := fun o => (Throw e, o).
Definition undefined {A} : M A := fun o => (Undefined, o).

(** One allocation request: consumes one answer, throws when it is negative. *)
Definition alloc : M unit := fun o =>
  (if o 0%nat then Ok tt else Throw OutOfMemory, fun n => o (S n)).

(** One allocation request whose failure the caller handles itself. *)
Definition try_alloc : M bool := fun o => (Ok (o 0%nat), fun n => o (S n)).

(** An allocator that never fails, and one that fails at the first request. *)
Definition alloc_all : allocator := fun _ => true.
Definition alloc_none : allocator := fun _ => false.

Definition grants (o : allocator) : Prop := forall n, o n = true.

(** [mspec m Q E]: the computation is defined whatever the allocator answers; a
    result satisfies [Q]; an exception is either out-of-memory, and then some
    request was refused, or satisfies [E]. *)
Definition mspec {A} (m : M A) (Q : A -> Prop) (E : exn -> Prop) : Prop :=
  forall o, match m o with
            | (Ok a, o') => Q a /\ (grants o -> grants o')
            | (Throw e, _) => (e = OutOfMemory /\ ~ grants o) \/ E e
            | (Undefined, _) => False
            end.

Definition no_exn (e : exn) : Prop := False.

Create HintDb mspec discriminated.

Lemma mspec_ret {A} (a : A) (Q : A -> Prop) E : Q a -> mspec (mret a) Q E.
Proof. intros HQ o. simpl. auto. Qed.

Lemma mspec_throw {A} e (Q : A -> Prop) (E : exn -> Prop) : E e -> mspec (throw e) Q E.
Proof. intros HE o. simpl. auto. Qed.

Lemma mspec_bind {A B} (m : M A) (f : A -> M B) Q R E :
  mspec m R E -> (forall a, R a -> mspec (f a) Q E) -> mspec (mbind f m) Q E.
Proof.
  intros Hm Hf o. specialize (Hm o). unfold mbind, M_bind.
  destruct (m o) as [[a|e|] o']; [|exact Hm|exact Hm].
  destruct Hm as [HR Hg]. specialize (Hf a HR o').
  destruct (f a o') as [[b|e|] o'']; [| |exact Hf].
  - destruct Hf as [HQ Hg']. split; [exact HQ|]. intros Ho. apply Hg', Hg, Ho.
  - destruct Hf as [[-> Hn]|HE]; [left|right; exact HE].
    split; [reflexivity|]. intros Ho. apply Hn, Hg, Ho.
Qed.

Lemma mspec_mono {A} (m : M A) (Q Q' : A -> Prop) (E E' : exn -> Prop) :
  mspec m Q E -> (forall a, Q a -> Q' a) -> (forall e, E e -> E' e) -> mspec m Q' E'.
Proof.
  intros Hm HQ HE o. specialize (Hm o).
  destruct (m o) as [[a|e|] o']; [| |exact Hm].
  - destruct Hm as [H1 H2]. auto.
  - destruct Hm as [H1|H1]; auto.
Qed.

Lemma mspec_alloc E : mspec alloc (fun _ => True) E.
Proof.
  intros o. unfold alloc. destruct (o 0%nat) eqn:Ho.
  - split; [exact I|]. intros Hg n. apply Hg.
  - left. split; [reflexivity|]. intros Hg. specialize (Hg 0%nat). congruence.
Qed.

Lemma mspec_try_alloc E : mspec try_alloc (fun _ => True) E.
Proof. intros o. unfold try_alloc. split; [exact I|]. intros Hg n. apply Hg. Qed.

(** What an [mspec] says of a run in which every allocation is granted. *)
Lemma mspec_run {A} (m : M A) Q E :
  mspec m Q E ->
  (exists a, fst (m alloc_all) = Ok a /\ Q a) \/ (exists e, fst (m alloc_all) = Throw e /\ E e).
Proof.
  intros Hm. specialize (Hm alloc_all). destruct (m alloc_all) as [[a|e|] o']; simpl.
  - left. exists a. intuition.
  - right. exists e. split; [reflexivity|].
    destruct Hm as [[-> Hn]|HE]; [|exact HE]. destruct Hn. intros n. reflexivity.
  - contradiction.
Qed.

(** An [int] result. *)
Definition int_of (x : Z) : M Z := if (- 2 ^ 31 <=? x) && (x <? 2 ^ 31) then mret x else undefined.

(** * C arrays

    An array is a list; an index is an [int], so a [Z], and an access outside
    the array is [Undefined]. *)

Definition len {A} (t : list A) : Z := Z.of_nat (length t).

Definition tab_get {A} (t : list A) (i : Z) : M A :=
  if 0 <=? i then
    match t !! Z.to_nat i with Some x => mret x | None => undefined end
  else undefined.

Definition tab_set {A} (t : list A) (i : Z) (x : A) : M (list A) :=
  if (0 <=? i) && (i <? len t) then mret (<[Z.to_nat i := x]> t) else undefined.

(** Read [n] elements from [off] on; write the elements [xs] from [off] on. *)
Definition tab_slice {A} (t : list A) (off n : Z) : M (list A) :=
  if (0 <=? off) && (0 <=? n) && (off + n <=? len t)
  then mret (take (Z.to_nat n) (drop (Z.to_nat off) t)) else undefined.

Definition tab_blit {A} (t : list A) (off : Z) (xs : list A) : M (list A) :=
  if (0 <=? off) && (off + len xs <=? len t)
  then mret (take (Z.to_nat off) t ++ xs ++ drop (Z.to_nat off + length xs) t) else undefined.

Lemma len_nonneg {A} (t : list A) : 0 <= len t.
Proof. unfold len. lia. Qed.

Lemma len_app {A} (a b : list A) : len (a ++ b) = len a + len b.
Proof. unfold len. rewrite length_app. lia. Qed.

Lemma len_cons {A} (x : A) l : len (x :: l) = 1 + len l.
Proof. unfold len. simpl length. lia. Qed.

Lemma len_replicate {A} n (x : A) : len (replicate n x) = Z.of_nat n.
Proof. unfold len. rewrite length_replicate. lia. Qed.

Lemma mspec_tab_get {A} (t : list A) i x (Q : A -> Prop) E :
  0 <= i -> t !! Z.to_nat i = Some x -> Q x -> mspec (tab_get t i) Q E.
Proof.
  intros Hi Hx HQ. unfold tab_get.
  rewrite (proj2 (Z.leb_le _ _) Hi), Hx. apply mspec_ret, HQ.
Qed.

Lemma mspec_tab_set {A} (t : list A) i x (Q : list A -> Prop) E :
  0 <= i < len t -> Q (<[Z.to_nat i := x]> t) -> mspec (tab_set t i x) Q E.
Proof.
  intros Hi HQ. unfold tab_set.
  rewrite (proj2 (Z.leb_le _ _)), (proj2 (Z.ltb_lt _ _)) by lia. apply mspec_ret, HQ.
Qed.

Lemma mspec_tab_slice {A} (t : list A) off n (Q : list A -> Prop) E :
  0 <= off -> 0 <= n -> off + n <= len t ->
  Q (take (Z.to_nat n) (drop (Z.to_nat off) t)) -> mspec (tab_slice t off n) Q E.
Proof.
  intros H1 H2 H3 HQ. unfold tab_slice.
  rewrite !(proj2 (Z.leb_le _ _)) by lia. apply mspec_ret, HQ.
Qed.

Lemma mspec_tab_blit {A} (t : list A) off xs (Q : list A -> Prop) E :
  0 <= off -> off + len xs <= len t ->
  Q (take (Z.to_nat off) t ++ xs ++ drop (Z.to_nat off + length xs) t) ->
  mspec (tab_blit t off xs) Q E.
Proof.
  intros H1 H2 HQ. unfold tab_blit.
  rewrite !(proj2 (Z.leb_le _ _)) by lia. apply mspec_ret, HQ.
Qed.

(** Accesses to an array whose decomposition around the index is known. *)
Lemma tab_get_app {A} (lo : list A) x hi i :
  i = len lo -> tab_get (lo ++ x :: hi) i = mret x.
Proof.
  intros ->. unfold tab_get, len. rewrite (proj2 (Z.leb_le _ _)) by lia.
  rewrite Nat2Z.id, list_lookup_middle by reflexivity. reflexivity.
Qed.

Lemma tab_set_app {A} (lo : list A) x y hi i :
  i = len lo -> tab_set (lo ++ x :: hi) i y = mret (lo ++ y :: hi).
Proof.
  intros ->. unfold tab_set. rewrite len_app, len_cons.
  pose proof (len_nonneg lo). pose proof (len_nonneg hi).
  rewrite (proj2 (Z.leb_le _ _)), (proj2 (Z.ltb_lt _ _)) by lia. simpl.
  unfold len. rewrite Nat2Z.id, insert_app_r_alt, Nat.sub_diag by lia. reflexivity.
Qed.

Lemma tab_slice_app {A} (lo win hi : list A) off n :
  off = len lo -> n = len win -> tab_slice (lo ++ win ++ hi) off n = mret win.
Proof.
  intros -> ->. unfold tab_slice. rewrite !len_app.
  pose proof (len_nonneg lo). pose proof (len_nonneg win). pose proof (len_nonneg hi).
  rewrite !(proj2 (Z.leb_le _ _)) by lia. simpl. unfold len.
  rewrite !Nat2Z.id, drop_app_length, take_app_length. reflexivity.
Qed.

Lemma tab_blit_app {A} (lo win xs hi : list A) off :
  off = len lo -> length xs = length win ->
  tab_blit (lo ++ win ++ hi) off xs = mret (lo ++ xs ++ hi).
Proof.
  intros -> Hl. unfold tab_blit. rewrite !len_app.
  pose proof (len_nonneg lo). pose proof (len_nonneg hi).
  assert (len xs = len win) as E by (unfold len; lia).
  rewrite !(proj2 (Z.leb_le _ _)) by (pose proof (len_nonneg xs); lia). simpl. unfold len.
  rewrite Nat2Z.id, take_app_length, Hl, <- length_app, (app_assoc lo win hi), drop_app_length.
  reflexivity.
Qed.

Lemma tab_get_lookup {A} (t : list A) i x :
  0 <= i -> t !! Z.to_nat i = Some x -> tab_get t i = mret x.
Proof. intros Hi Hx. unfold tab_get. rewrite (proj2 (Z.leb_le _ _) Hi), Hx. reflexivity. Qed.

(** Binding a returned value is a substitution. *)
Lemma ret_bind {A B} (a : A) (f : A -> M B) : mbind f (mret a : M A) = f a.
Proof. reflexivity. Qed.

#[export] Hint Resolve mspec_alloc mspec_try_alloc mspec_ret : mspec.

(** ** Code that carries on after a refused allocation

    Some of the code records a failure in its state and goes on.  [gspec G] is
    [mspec] with a proposition [G], "every request is granted", that the
    assertions may mention: a recorded out-of-memory error implies [~ G]. *)
Definition gspec (G : Prop) {A} (m : M A) (Q : A -> Prop) (E : exn -> Prop) : Prop :=
  forall o, (G -> grants o) ->
    match m o with
    | (Ok a, o') => Q a /\ (G -> grants o')
    | (Throw e, _) => E e
    | (Undefined, _) => False
    end.

Lemma mspec_of_gspec {A} (m : M A) (Q : A -> Prop) (E : exn -> Prop) :
  (forall G : Prop, gspec G m Q (fun e => (e = OutOfMemory /\ ~ G) \/ E e)) -> mspec m Q E.
Proof. intros H o. specialize (H (grants o) o (fun x => x)). exact H. Qed.

Lemma gspec_of_mspec (G : Prop) {A} (m : M A) (Q : A -> Prop) (E : exn -> Prop) :
  mspec m Q E -> gspec G m Q (fun e => (e = OutOfMemory /\ ~ G) \/ E e).
Proof.
  intros H o Ho. specialize (H o). destruct (m o) as [[a|e|] o']; [| |exact H].
  - destruct H as [HQ Hg]. split; [exact HQ|]. auto.
  - destruct H as [[-> Hn]|HE]; [left|right; exact HE]. split; [reflexivity|]. auto.
Qed.

(** The run of a computation that does not throw. *)
Lemma gspec_run {A} (m : M A) (Q : A -> Prop) o :
  gspec (grants o) m Q no_exn -> exists a o', m o = (Ok a, o') /\ Q a.
Proof.
  intros H. specialize (H o (fun g => g)). destruct (m o) as [[a|e|] o']; [|contradiction..]. exists a, o'. split; [reflexivity|apply H].
Qed.

Lemma gspec_ret (G : Prop) {A} (a : A) (Q : A -> Prop) E : Q a -> gspec G (mret a) Q E.
Proof. intros HQ o Ho. simpl. auto. Qed.

Lemma gspec_throw (G : Prop) {A} e (Q : A -> Prop) (E : exn -> Prop) : E e -> gspec G (throw e) Q E.
Proof. intros HE o Ho. exact HE. Qed.

Lemma gspec_bind (G : Prop) {A B} (m : M A) (f : A -> M B) Q R E :
  gspec G m R E -> (forall a, R a -> gspec G (f a) Q E) -> gspec G (mbind f m) Q E.
Proof.
  intros Hm Hf o Ho. specialize (Hm o Ho). unfold mbind, M_bind.
  destruct (m o) as [[a|e|] o']; [|exact Hm|exact Hm]. destruct Hm as [HR Hg]. exact (Hf a HR o' Hg).
Qed.

Lemma gspec_mono (G : Prop) {A} (m : M A) (Q Q' : A -> Prop) (E E' : exn -> Prop) :
  gspec G m Q E -> (forall a, Q a -> Q' a) -> (forall e, E e -> E' e) -> gspec G m Q' E'.
Proof.
  intros Hm HQ HE o Ho. specialize (Hm o Ho). destruct (m o) as [[a|e|] o']; [| |exact Hm]; [|auto].
  destruct Hm as [H1 H2]. auto.
Qed.

Lemma gspec_and (G : Prop) {A} (m : M A) (Q Q' : A -> Prop) (E : exn -> Prop) :
  gspec G m Q E -> gspec G m Q' E -> gspec G m (fun a => Q a /\ Q' a) E.
Proof.
  intros H1 H2 o Ho. specialize (H1 o Ho). specialize (H2 o Ho).
  destruct (m o) as [[a|e|] o']; [|exact H1|exact H1]. destruct H1, H2. auto.
Qed.

Lemma gspec_try_alloc (G : Prop) E : gspec G try_alloc (fun ok => ok = false -> ~ G) E.
Proof.
  intros o Ho. unfold try_alloc. split; [|intros HG n; apply (Ho HG)]. intros Hf HG. specialize (Ho HG 0%nat). congruence.
Qed.

Lemma gspec_alloc (G : Prop) (E : exn -> Prop) : (~ G -> E OutOfMemory) -> gspec G alloc (fun _ => True) E.
Proof.
  intros HE o Ho. unfold alloc. destruct (o 0%nat) eqn:E0.
  - split; [exact I|]. intros HG n. apply (Ho HG).
  - apply HE. intros HG. specialize (Ho HG 0%nat). congruence.
Qed.

(** * Counted loops *)

Section Loops.
Context {S : Type}.

(** [for (j = i; j < i + n; j++) s = f(j, s);] *)
Fixpoint for_up (n : nat) (i : Z) (f : Z -> S -> M S) (s : S) : M S :=
  match n with
  | O => mret s
  | Datatypes.S n' => s' ← f i s; for_up n' (i + 1) f s'
  end.

Lemma mspec_for_up (I : Z -> S -> Prop) E f n i s :
  I i s ->
  (forall j s, i <= j < i + Z.of_nat n -> I j s -> mspec (f j s) (I (j + 1)) E) ->
  mspec (for_up n i f s) (I (i + Z.of_nat n)) E.
Proof.
  revert i s. induction n as [|n IH]; intros i s Hi Hf; simpl.
  - apply mspec_ret. replace (i + Z.of_nat 0) with i by lia. exact Hi.
  - apply mspec_bind with (R := I (i + 1)).
    + apply Hf; [lia|exact Hi].
    + intros s' Hs'. replace (i + Z.of_nat (Datatypes.S n)) with ((i + 1) + Z.of_nat n) by lia.
      apply IH; [exact Hs'|]. intros j t Hj. apply Hf. lia.
Qed.
End Loops.

(** * Tactics *)

(** One monadic step: [mstep R] splits a bind with the intermediate assertion
    [R], leaving the first computation and the continuation. *)
Ltac mstep R := eapply (mspec_bind _ _ _ R).

(** Split the boolean tests of the goal into their propositional cases. *)
Ltac case_tests :=
  repeat match goal with
  | |- context [?a <? ?b] => destruct (Z.ltb_spec a b)
  | |- context [?a <=? ?b] => destruct (Z.leb_spec a b)
  | |- context [?a =? ?b] => destruct (Z.eqb_spec a b)
  end.

(** The same in one hypothesis. *)
Ltac case_tests_in H :=
  repeat match type of H with
  | context [?a <? ?b] => destruct (Z.ltb_spec a b)
  | context [?a <=? ?b] => destruct (Z.leb_spec a b)
  | context [?a =? ?b] => destruct (Z.eqb_spec a b)
  end.
