(* ===== verification/Float64.v ===== *)
(** IEEE 754 binary64 numbers as the C code handles them: a [double] is its 64-bit
    pattern, as [float64_as_uint64] gives it. *)
From stdpp Require Import base tactics list numbers.
From Stdlib Require Import ZArith Lia.
From S2P Require Import Prelude.

Open Scope Z_scope.

(** The fields of a float64 pattern. *)
Definition float64_sign (b : Z) : Z := Z.shiftr b 63.
Definition float64_exp (b : Z) : Z := Z.land (Z.shiftr b 52) (2 ^ 11 - 1).
Definition float64_mant (b : Z) : Z := Z.land b (2 ^ 52 - 1).

(** [x / 2^k] rounded to the nearest integer, ties to even. *)
Definition rne (x k : Z) : Z :=
  let q := x / 2 ^ k in
  let r := x mod 2 ^ k in
  if (2 ^ (k - 1) <? r) || ((r =? 2 ^ (k - 1)) && Z.odd q) then q + 1 else q.

(** The float64 nearest to the integer [v], ties to even, infinity when [v] is
    out of range: the rounding IEEE 754 prescribes for a conversion. *)
Definition float64_round (v : Z) : Z :=
  if v =? 0 then 0 else
  let m := Z.abs v in
  let e := Z.log2 m in
  let q := if e <=? 52 then m * 2 ^ (52 - e) else rne m (e - 52) in
  let '(q, e) := if q =? 2 ^ 53 then (2 ^ 52, e + 1) else (q, e) in
  let sgn := Z.shiftl (c_bool (v <? 0)) 63 in
  if 1023 <? e then Z.lor (Z.lor sgn (Z.shiftl 2047 52)) 0
  else Z.lor (Z.lor sgn (Z.shiftl (e + 1023) 52)) (q - 2 ^ 52).

(** A magnitude with the sign bit [s]. *)
Definition signed (s : Z) (v : Z) : Z := if s =? 0 then v else - v.

(** The magnitude of a finite float64 in units of [2^-1074], the smallest
    positive float64, and the signed value in the same unit. *)
Definition float64_scaled_abs (b : Z) : Z :=
  if float64_exp b =? 0 then float64_mant b
  else (float64_mant b + 2 ^ 52) * 2 ^ (float64_exp b - 1).

Definition float64_scaled (b : Z) : Z := signed (float64_sign b) (float64_scaled_abs b).

(** ** C operations

    [isnan], comparisons with an integer constant, truncation and [lrint], on the
    64-bit pattern.  An infinity compares like a number above every finite one. *)
Definition isnan (d : Z) : bool := (float64_exp d =? 2047) && negb (float64_mant d =? 0).
Definition isfinite (d : Z) : bool := negb (float64_exp d =? 2047).

Definition float64_lt_int (d c : Z) : bool := negb (isnan d) && (float64_scaled d <? c * 2 ^ 1074).
Definition float64_gt_int (d c : Z) : bool := negb (isnan d) && (c * 2 ^ 1074 <? float64_scaled d).
Definition float64_ge_int (d c : Z) : bool := negb (isnan d) && (c * 2 ^ 1074 <=? float64_scaled d).
Definition float64_le_int (d c : Z) : bool := negb (isnan d) && (float64_scaled d <=? c * 2 ^ 1074).

(** [(int)d] and [(int64_t)d], for a result in range: the integral part. *)
Definition float64_trunc (d : Z) : Z := signed (float64_sign d) (float64_scaled_abs d / 2 ^ 1074).

(** [lrint(d)] in the default rounding mode. *)
Definition lrint (d : Z) : Z := signed (float64_sign d) (rne (float64_scaled_abs d) 1074).

(** [floor(d) == d] *)
Definition is_integral (d : Z) : bool := float64_scaled_abs d mod 2 ^ 1074 =? 0.

(** ** Lemmas *)

Lemma float64_fields b :
  0 <= b < 2 ^ 64 ->
  (float64_sign b = 0 \/ float64_sign b = 1) /\ 0 <= float64_exp b < 2048 /\ 0 <= float64_mant b < 2 ^ 52.
Proof.
  intros Hb. unfold float64_sign, float64_exp, float64_mant. rewrite !land_mask, Z.shiftr_div_pow2 by lia.
  split; [|split; apply Z.mod_pos_bound; lia].
  assert (0 <= b / 2 ^ 63) by (apply Z.div_pos; lia).
  assert (b / 2 ^ 63 < 2) by (apply Z.div_lt_upper_bound; lia). lia.
Qed.

Lemma scale_pos (k : Z) : 0 <= k -> 0 < 2 ^ k.
Proof. intros. apply Z.pow_pos_nonneg; lia. Qed.
