(* ===== verification/Limbs.v ===== *)
(** Multi-precision limb arrays (quickjs.c, "bigint support", the [mp_*] functions).

    A limb array is the list of its limbs, least significant first; the array
    argument and its length [n] in the C code are one list here.  Every routine
    reads [op[i]] before it writes [res[i]] and never reads [res[i]] again, so a
    call with overlapping source and destination returns the same list.  The limb
    width is the build option [JS_LIMB_BITS], 32 on wasm32 and 64 on 64-bit hosts;
    the development is generic in it. *)
From stdpp Require Import base tactics list numbers.
From Stdlib Require Import ZArith Lia.
From S2P Require Import Prelude.

Open Scope Z_scope.

(** The two configurations of quickjs.h. *)
Class LimbConfig := {
  JS_LIMB_BITS : Z;
  limb_bits_cases : JS_LIMB_BITS = 32 \/ JS_LIMB_BITS = 64
}.

Definition limb32 : LimbConfig := {| JS_LIMB_BITS := 32; limb_bits_cases := or_introl eq_refl |}.
Definition limb64 : LimbConfig := {| JS_LIMB_BITS := 64; limb_bits_cases := or_intror eq_refl |}.

(** ** Count leading zeros *)

Definition clz (w a : Z) : Z := w - 1 - Z.log2 a.
Definition clz32 (a : Z) : Z := clz 32 a.
Definition clz64 (a : Z) : Z := clz 64 a.

Lemma clz_spec w a :
  0 < a < 2 ^ w -> 0 <= clz w a < w /\ 2 ^ (w - 1) <= a * 2 ^ clz w a < 2 ^ w.
Proof.
  intros Ha. assert (0 < w) by (destruct (Z.lt_ge_cases 0 w); [lia|];
    pose proof (Z.pow_le_mono_r 2 w 0 ltac:(lia) ltac:(lia)); simpl in *; lia).
  unfold clz. pose proof (Z.log2_spec a ltac:(lia)) as [H1 H2].
  assert (Z.log2 a < w) by (apply Z.log2_lt_pow2; lia).
  pose proof (Z.log2_nonneg a). split; [lia|].
  assert (2 ^ (w - 1) = 2 ^ Z.log2 a * 2 ^ (w - 1 - Z.log2 a)) as E1
    by (rewrite <- Z.pow_add_r by lia; f_equal; lia).
  assert (2 ^ w = 2 ^ Z.succ (Z.log2 a) * 2 ^ (w - 1 - Z.log2 a)) as E2
    by (rewrite <- Z.pow_add_r by lia; f_equal; lia).
  assert (0 < 2 ^ (w - 1 - Z.log2 a)) by lia.
  rewrite E1, E2. split; [nia|]. apply Z.mul_lt_mono_pos_r; lia.
Qed.

Section Limbs.
Context `{LC : LimbConfig}.

(** ** Single limbs *)

Definition limb_base : Z := 2 ^ JS_LIMB_BITS.
Definition js_limb (x : Z) : Z := wrap JS_LIMB_BITS x.
Definition js_slimb (x : Z) : Z := swrap JS_LIMB_BITS x.
Definition js_dlimb (x : Z) : Z := wrap (2 * JS_LIMB_BITS) x.

Definition js_limb_clz (a : Z) : Z :=
  if JS_LIMB_BITS =? 32 then clz32 a else clz64 a.

Definition js_limb_safe_clz (a : Z) : Z :=
  if a =? 0 then JS_LIMB_BITS else js_limb_clz a.

(** The ADDC macro: sum limb and carry out. *)
Definition ADDC (op1 op2 carry_in : Z) : Z * Z :=
  let v := op1 in
  let a := js_limb (v + op2) in
  let k1 := c_bool (a <? v) in
  let k := carry_in in
  let a := js_limb (a + k) in
  (a, Z.lor (c_bool (a <? k)) k1).

(** ** Linear routines *)

Fixpoint mp_add (op1 op2 : list Z) (carry : Z) : list Z * Z :=
  match op1, op2 with
  | a :: op1', b :: op2' =>
      let '(r, carry) := ADDC a b carry in
      let '(rs, carry) := mp_add op1' op2' carry in
      (r :: rs, carry)
  | _, _ => ([], carry)
  end.

Fixpoint mp_sub (op1 op2 : list Z) (k : Z) : list Z * Z :=
  match op1, op2 with
  | v :: op1', b :: op2' =>
      let a := js_limb (v - b) in
      let k1 := c_bool (v <? a) in
      let v := js_limb (a - k) in
      let k := Z.lor (c_bool (a <? v)) k1 in
      let '(rs, k) := mp_sub op1' op2' k in
      (v :: rs, k)
  | _, _ => ([], k)
  end.

Fixpoint mp_neg_loop (op2 : list Z) (carry : Z) : list Z * Z :=
  match op2 with
  | b :: op2' =>
      let v := js_limb (js_limb (Z.lnot b) + carry) in
      let carry := c_bool (v <? carry) in
      let '(rs, carry) := mp_neg_loop op2' carry in
      (v :: rs, carry)
  | [] => ([], carry)
  end.

Definition mp_neg (op2 : list Z) : list Z * Z := mp_neg_loop op2 1.

Fixpoint mp_mul1 (taba : list Z) (b l : Z) : list Z * Z :=
  match taba with
  | a :: taba' =>
      let t := js_dlimb (a * b + l) in
      let '(rs, l') := mp_mul1 taba' b (js_limb (Z.shiftr t JS_LIMB_BITS)) in
      (js_limb t :: rs, l')
  | [] => ([], l)
  end.

(** The loop runs from the most significant limb down. *)
Fixpoint mp_div1 (taba : list Z) (b r : Z) : list Z * Z :=
  match taba with
  | a :: taba' =>
      let '(qs, r) := mp_div1 taba' b r in
      let a1 := Z.lor (Z.shiftl r JS_LIMB_BITS) a in
      (js_limb (a1 / b) :: qs, a1 mod b)
  | [] => ([], r)
  end.

Fixpoint mp_add_mul1_loop (tabr taba : list Z) (b l : Z) : list Z * Z :=
  match tabr, taba with
  | r :: tabr', a :: taba' =>
      let t := js_dlimb (a * b + l + r) in
      let '(rs, l') := mp_add_mul1_loop tabr' taba' b (js_limb (Z.shiftr t JS_LIMB_BITS)) in
      (js_limb t :: rs, l')
  | _, _ => ([], l)
  end.

Definition mp_add_mul1 (tabr taba : list Z) (b : Z) : list Z * Z :=
  mp_add_mul1_loop tabr taba b 0.

Fixpoint mp_sub_mul1_loop (tabr taba : list Z) (b l : Z) : list Z * Z :=
  match tabr, taba with
  | r :: tabr', a :: taba' =>
      let t := js_dlimb (r - a * b - l) in
      let '(rs, l') :=
        mp_sub_mul1_loop tabr' taba' b (js_limb (- Z.shiftr t JS_LIMB_BITS)) in
      (js_limb t :: rs, l')
  | _, _ => ([], l)
  end.

Definition mp_sub_mul1 (tabr taba : list Z) (b : Z) : list Z * Z :=
  mp_sub_mul1_loop tabr taba b 0.

Fixpoint mp_shl_loop (taba : list Z) (shift l : Z) : list Z * Z :=
  match taba with
  | v :: taba' =>
      let r := Z.lor (js_limb (Z.shiftl v shift)) l in
      let '(rs, l') := mp_shl_loop taba' shift (Z.shiftr v (JS_LIMB_BITS - shift)) in
      (r :: rs, l')
  | [] => ([], l)
  end.

Definition mp_shl (taba : list Z) (shift : Z) : list Z * Z := mp_shl_loop taba shift 0.

(** The loop runs from the most significant limb down; the limb it carries is
    the one it read last. *)
Fixpoint mp_shr_loop (tab : list Z) (shift high : Z) : list Z * Z :=
  match tab with
  | a :: tab' =>
      let '(rs, l) := mp_shr_loop tab' shift high in
      (Z.lor (Z.shiftr a shift) (js_limb (Z.shiftl l (JS_LIMB_BITS - shift))) :: rs, a)
  | [] => ([], high)
  end.

Definition mp_shr (tab : list Z) (shift high : Z) : list Z * Z :=
  let '(rs, l) := mp_shr_loop tab shift high in
  (rs, Z.land l (js_limb (Z.shiftl 1 shift) - 1)).

(** The rows of the schoolbook product: row [i] adds [op1 * op2[i]] at limb [i]
    and stores its carry in the limb above.  [res] is the part of the result
    array from limb [i] on, whose first [length op1] limbs are initialised. *)
Fixpoint mp_mul_rows (res op1 op2 : list Z) : list Z :=
  match op2 with
  | b :: op2' =>
      let n := length op1 in
      let '(lo, r) := mp_add_mul1 (take n res) op1 b in
      let res := lo ++ r :: drop (S n) res in
      match res with
      | x :: res' => x :: mp_mul_rows res' op1 op2'
      | [] => []
      end
  | [] => res
  end.

(** [result] has [length op1 + length op2] limbs, of arbitrary content. *)
Definition mp_mul_basecase (result op1 op2 : list Z) : list Z :=
  match op2 with
  | [] => result
  | b0 :: op2' =>
      let n := length op1 in
      let '(lo, r) := mp_mul1 op1 b0 0 in
      let result := lo ++ r :: drop (S n) result in
      match result with
      | x :: res' => x :: mp_mul_rows res' op1 op2'
      | [] => []
      end
  end.

(** * Values *)

Definition limb_ok (x : Z) : Prop := 0 <= x < limb_base.
Definition limbs_ok (l : list Z) : Prop := Forall limb_ok l.

Fixpoint mp_val (l : list Z) : Z :=
  match l with
  | [] => 0
  | x :: l' => x + limb_base * mp_val l'
  end.

(** [limb_base ^ n] for a list of [n] limbs. *)
Definition mp_base (l : list Z) : Z := limb_base ^ len l.

Lemma limb_bits_pos : 32 <= JS_LIMB_BITS.
Proof. destruct limb_bits_cases as [-> | ->]; lia. Qed.

Lemma limb_base_half : limb_base = 2 * 2 ^ (JS_LIMB_BITS - 1).
Proof.
  unfold limb_base. rewrite <- Z.pow_succ_r by (pose proof limb_bits_pos; lia).
  f_equal. lia.
Qed.

Lemma limb_half_big : 2 ^ 31 <= 2 ^ (JS_LIMB_BITS - 1).
Proof. apply Z.pow_le_mono_r; pose proof limb_bits_pos; lia. Qed.

Lemma limb_base_big : 2 ^ 32 <= limb_base.
Proof. apply Z.pow_le_mono_r; pose proof limb_bits_pos; lia. Qed.

Lemma limb_base_sq : 2 ^ (2 * JS_LIMB_BITS) = limb_base * limb_base.
Proof.
  unfold limb_base. rewrite <- Z.pow_add_r by (pose proof limb_bits_pos; lia).
  f_equal. lia.
Qed.

Lemma js_limb_eq x : js_limb x = x mod limb_base.
Proof. reflexivity. Qed.

Lemma js_dlimb_eq x : js_dlimb x = x mod (limb_base * limb_base).
Proof. unfold js_dlimb, wrap. rewrite limb_base_sq. reflexivity. Qed.

Lemma js_limb_ok x : limb_ok (js_limb x).
Proof. apply wrap_range. pose proof limb_bits_pos. lia. Qed.

Lemma js_limb_small x : limb_ok x -> js_limb x = x.
Proof. intros H. apply wrap_small. exact H. Qed.

Lemma shiftr_limb x : Z.shiftr x JS_LIMB_BITS = x / limb_base.
Proof. apply Z.shiftr_div_pow2. pose proof limb_bits_pos. lia. Qed.

Lemma shl_limb_lor a b : limb_ok b -> Z.lor (Z.shiftl a JS_LIMB_BITS) b = a * limb_base + b.
Proof. intros H. apply shl_lor_add; [pose proof limb_bits_pos; lia|exact H]. Qed.

(** The first borrow or carry out of a wrapped sum is the comparison of the code. *)
Lemma js_limb_add_carry a b :
  limb_ok a -> limb_ok b -> js_limb (a + b) + limb_base * c_bool (js_limb (a + b) <? a) = a + b.
Proof.
  intros Ha Hb. unfold limb_ok in *. rewrite js_limb_eq.
  destruct (Z.lt_ge_cases (a + b) limb_base).
  - rewrite Z.mod_small by lia. destruct (Z.ltb_spec (a + b) a); simpl; lia.
  - replace ((a + b) mod limb_base) with (a + b - limb_base).
    + destruct (Z.ltb_spec (a + b - limb_base) a); simpl; lia.
    + apply (Z.mod_unique _ _ 1); lia.
Qed.

Lemma js_limb_sub_borrow a b :
  limb_ok a -> limb_ok b -> js_limb (a - b) - limb_base * c_bool (a <? js_limb (a - b)) = a - b.
Proof.
  intros Ha Hb. unfold limb_ok in *. rewrite js_limb_eq.
  destruct (Z.lt_ge_cases (a - b) 0).
  - replace ((a - b) mod limb_base) with (a - b + limb_base).
    + destruct (Z.ltb_spec a (a - b + limb_base)); simpl; lia.
    + apply (Z.mod_unique _ _ (-1)); lia.
  - rewrite Z.mod_small by lia. destruct (Z.ltb_spec a (a - b)); simpl; lia.
Qed.

Lemma c_bool_limb b : limb_ok (c_bool b).
Proof. unfold limb_ok. pose proof limb_base_big. pose proof (c_bool_bounds b). lia. Qed.

Lemma ADDC_spec a b k :
  limb_ok a -> limb_ok b -> 0 <= k <= 1 ->
  let '(r, c) := ADDC a b k in
  limb_ok r /\ 0 <= c <= 1 /\ r + limb_base * c = a + b + k.
Proof.
  intros Ha Hb Hk. unfold ADDC. cbv zeta.
  pose proof (js_limb_add_carry a b Ha Hb) as E1.
  set (s := js_limb (a + b)) in *.
  assert (limb_ok s) as Hs by apply js_limb_ok.
  assert (limb_ok k) as Hk' by (unfold limb_ok; pose proof limb_base_big; lia).
  pose proof (js_limb_add_carry k s Hk' Hs) as E2.
  replace (k + s) with (s + k) in E2 by lia.
  pose proof (js_limb_ok (s + k)) as Hr.
  rewrite lor_c_bool. unfold limb_ok in *. pose proof limb_base_big.
  destruct (js_limb (s + k) <? k), (s <? a); simpl in *; repeat split; lia.
Qed.

(** ** Value lemmas *)

Lemma mp_base_nil : mp_base [] = 1.
Proof. reflexivity. Qed.

Lemma mp_base_cons x l : mp_base (x :: l) = limb_base * mp_base l.
Proof.
  unfold mp_base. rewrite len_cons, Z.pow_add_r by (pose proof (len_nonneg l); lia).
  rewrite Z.pow_1_r. reflexivity.
Qed.

Lemma mp_base_app a b : mp_base (a ++ b) = mp_base a * mp_base b.
Proof.
  unfold mp_base. rewrite len_app. apply Z.pow_add_r; apply len_nonneg.
Qed.

Lemma mp_base_pos l : 0 < mp_base l.
Proof. apply Z.pow_pos_nonneg; [pose proof limb_base_big; lia|apply len_nonneg]. Qed.

Lemma mp_base_length l l' : length l = length l' -> mp_base l = mp_base l'.
Proof. intros H. unfold mp_base, len. rewrite H. reflexivity. Qed.

Lemma mp_val_app a b : mp_val (a ++ b) = mp_val a + mp_base a * mp_val b.
Proof.
  induction a as [|x a IH]; simpl.
  - rewrite mp_base_nil. lia.
  - rewrite IH, mp_base_cons. lia.
Qed.

Lemma mp_val_bounds l : limbs_ok l -> 0 <= mp_val l < mp_base l.
Proof.
  induction 1 as [|x l Hx Hl IH]; simpl.
  - rewrite mp_base_nil. lia.
  - rewrite mp_base_cons. unfold limb_ok in Hx. nia.
Qed.

Lemma mp_val_replicate_0 n : mp_val (replicate n 0) = 0.
Proof. induction n as [|n IH]; simpl; lia. Qed.

Lemma mp_val_replicate_max n : mp_val (replicate n (limb_base - 1)) = limb_base ^ Z.of_nat n - 1.
Proof.
  induction n as [|n IH]; [reflexivity|].
  cbn [replicate mp_val]. rewrite IH, Nat2Z.inj_succ, Z.pow_succ_r by lia. lia.
Qed.

Lemma limbs_ok_app a b : limbs_ok (a ++ b) <-> limbs_ok a /\ limbs_ok b.
Proof. apply Forall_app. Qed.

Lemma limbs_ok_take n l : limbs_ok l -> limbs_ok (take n l).
Proof. apply Forall_take. Qed.

Lemma limbs_ok_drop n l : limbs_ok l -> limbs_ok (drop n l).
Proof. apply Forall_drop. Qed.

Lemma limbs_ok_replicate n x : limb_ok x -> limbs_ok (replicate n x).
Proof. intros. apply Forall_replicate. assumption. Qed.

Lemma limb_ok_0 : limb_ok 0.
Proof. unfold limb_ok. pose proof limb_base_big. lia. Qed.

Lemma limb_ok_max : limb_ok (limb_base - 1).
Proof. unfold limb_ok. pose proof limb_base_big. lia. Qed.

(** Two arrays of the same length with the same value are equal. *)
Lemma mp_val_inj a b :
  limbs_ok a -> limbs_ok b -> length a = length b -> mp_val a = mp_val b -> a = b.
Proof.
  intros Ha. revert b. induction Ha as [|x a Hx Ha IH]; intros [|y b] Hb Hl Hv;
    try discriminate; [reflexivity|].
  inversion Hb as [|? ? Hy Hb']; subst. simpl in *.
  unfold limb_ok in *. pose proof limb_base_big.
  destruct (Z.div_mod_unique limb_base (mp_val a) (mp_val b) x y) as [Hv' ->]; [lia..|].
  f_equal. apply IH; [assumption|lia|exact Hv'].
Qed.

End Limbs.

#[export] Hint Resolve js_limb_ok limb_ok_0 limb_ok_max c_bool_limb : limbs.
#[export] Hint Resolve limbs_ok_take limbs_ok_drop limbs_ok_replicate : limbs.
