(* ===== verification/LimbSpecs.v ===== *)
(** What the linear [mp_*] routines compute, in terms of the value of an array. *)
From stdpp Require Import base tactics list numbers.
From Stdlib Require Import ZArith Lia.
From S2P Require Import Prelude Limbs.

Open Scope Z_scope.

Section LimbSpecs.
Context `{LC : LimbConfig}.

Lemma mp_add_spec a b c :
  limbs_ok a -> limbs_ok b -> length a = length b -> 0 <= c <= 1 ->
  let '(r, c') := mp_add a b c in
  limbs_ok r /\ length r = length a /\ 0 <= c' <= 1 /\
  mp_val r + mp_base a * c' = mp_val a + mp_val b + c.
Proof.
  intros Ha. revert b c. induction Ha as [|x a Hx Ha IH]; intros [|y b] c Hb Hl Hc;
    try discriminate; cbn [mp_add].
  - change (mp_base []) with 1. cbn [mp_val length]. repeat split; [constructor|lia..].
  - inversion Hb as [|? ? Hy Hb']; subst.
    pose proof (ADDC_spec x y c Hx Hy Hc) as H1.
    destruct (ADDC x y c) as [r c1]. destruct H1 as (Hr & Hc1 & E1).
    specialize (IH b c1 Hb' ltac:(simpl in Hl; lia) Hc1).
    destruct (mp_add a b c1) as [rs c2]. destruct IH as (Hrs & Hlen & Hc2 & E2).
    rewrite mp_base_cons. cbn [mp_val length]. repeat split.
    + constructor; assumption.
    + lia.
    + lia.
    + lia.
    + transitivity (r + limb_base * (mp_val rs + mp_base a * c2)); [ring|]. rewrite E2. lia.
Qed.

Lemma mp_sub_spec a b k :
  limbs_ok a -> limbs_ok b -> length a = length b -> 0 <= k <= 1 ->
  let '(r, k') := mp_sub a b k in
  limbs_ok r /\ length r = length a /\ 0 <= k' <= 1 /\
  mp_val r - mp_base a * k' = mp_val a - mp_val b - k.
Proof.
  intros Ha. revert b k. induction Ha as [|x a Hx Ha IH]; intros [|y b] k Hb Hl Hk;
    try discriminate; cbn [mp_sub].
  - change (mp_base []) with 1. cbn [mp_val length]. repeat split; [constructor|lia..].
  - inversion Hb as [|? ? Hy Hb']; subst. cbv zeta.
    pose proof (js_limb_sub_borrow x y Hx Hy) as E1.
    set (s := js_limb (x - y)) in *.
    assert (limb_ok s) as Hs by apply js_limb_ok.
    assert (limb_ok k) as Hk' by (unfold limb_ok; pose proof limb_base_big; lia).
    pose proof (js_limb_sub_borrow s k Hs Hk') as E2.
    pose proof (js_limb_ok (s - k)) as Hr.
    set (v := js_limb (s - k)) in *.
    rewrite lor_c_bool.
    assert (v - limb_base * c_bool ((s <? v) || (x <? s)) = x - y - k) as E3.
    { unfold limb_ok in *. pose proof limb_base_big.
      destruct (s <? v), (x <? s); simpl in *; lia. }
    specialize (IH b (c_bool ((s <? v) || (x <? s))) Hb' ltac:(simpl in Hl; lia) (c_bool_bounds _)).
    destruct (mp_sub a b (c_bool ((s <? v) || (x <? s)))) as [rs k2].
    destruct IH as (Hrs & Hlen & Hk2 & E4).
    rewrite mp_base_cons. cbn [mp_val length]. repeat split.
    + constructor; assumption.
    + lia.
    + lia.
    + lia.
    + transitivity (v + limb_base * (mp_val rs - mp_base a * k2)); [ring|]. rewrite E4. lia.
Qed.

Lemma js_limb_lnot b : limb_ok b -> js_limb (Z.lnot b) = limb_base - 1 - b.
Proof.
  intros Hb. unfold limb_ok in Hb. rewrite js_limb_eq. unfold Z.lnot, Z.pred.
  symmetry. apply (Z.mod_unique _ _ (-1)); lia.
Qed.

Lemma mp_neg_loop_spec a c :
  limbs_ok a -> 0 <= c <= 1 ->
  let '(r, c') := mp_neg_loop a c in
  limbs_ok r /\ length r = length a /\ 0 <= c' <= 1 /\
  mp_val r + mp_base a * c' = mp_base a - 1 - mp_val a + c.
Proof.
  intros Ha. revert c. induction Ha as [|x a Hx Ha IH]; intros c Hc; cbn [mp_neg_loop].
  - change (mp_base []) with 1. cbn [mp_val length]. repeat split; [constructor|lia..].
  - cbv zeta. rewrite (js_limb_lnot x Hx).
    assert (limb_ok (limb_base - 1 - x)) as Hn by (unfold limb_ok in *; lia).
    assert (limb_ok c) as Hc' by (unfold limb_ok; pose proof limb_base_big; lia).
    pose proof (js_limb_add_carry c _ Hc' Hn) as E1.
    replace (c + (limb_base - 1 - x)) with (limb_base - 1 - x + c) in E1 by lia.
    pose proof (js_limb_ok (limb_base - 1 - x + c)) as Hr.
    set (v := js_limb (limb_base - 1 - x + c)) in *.
    specialize (IH (c_bool (v <? c)) (c_bool_bounds _)).
    destruct (mp_neg_loop a (c_bool (v <? c))) as [rs c2].
    destruct IH as (Hrs & Hlen & Hc2 & E2).
    rewrite mp_base_cons. cbn [mp_val length]. repeat split.
    + constructor; assumption.
    + lia.
    + lia.
    + lia.
    + transitivity (v + limb_base * (mp_val rs + mp_base a * c2)); [ring|]. rewrite E2. lia.
Qed.

Lemma mp_neg_spec a :
  limbs_ok a ->
  let '(r, c') := mp_neg a in
  limbs_ok r /\ length r = length a /\ mp_val r = (- mp_val a) mod mp_base a.
Proof.
  intros Ha. unfold mp_neg. pose proof (mp_neg_loop_spec a 1 Ha ltac:(lia)) as H.
  destruct (mp_neg_loop a 1) as [r c]. destruct H as (Hr & Hl & Hc & E).
  repeat split; [exact Hr|exact Hl|].
  pose proof (mp_val_bounds r Hr) as Hb. rewrite (mp_base_length r a Hl) in Hb.
  apply (Z.mod_unique _ _ (c - 1)); lia.
Qed.

(** The product of two limbs plus two limbs fits in a double limb. *)
Lemma limb_muladd_dlimb a b l r :
  limb_ok a -> limb_ok b -> limb_ok l -> limb_ok r ->
  js_dlimb (a * b + l + r) = a * b + l + r /\
  js_limb (a * b + l + r) + limb_base * ((a * b + l + r) / limb_base) = a * b + l + r /\
  limb_ok ((a * b + l + r) / limb_base).
Proof.
  intros Ha Hb Hl Hr. unfold limb_ok in *. rewrite js_dlimb_eq, js_limb_eq.
  assert (0 <= a * b + l + r < limb_base * limb_base) by nia.
  repeat split.
  - apply Z.mod_small. lia.
  - rewrite (Z.div_mod (a * b + l + r) limb_base) at 3 by lia. lia.
  - apply Z.div_pos; lia.
  - apply Z.div_lt_upper_bound; lia.
Qed.

Lemma mp_add_mul1_loop_spec r a b l :
  limbs_ok r -> limbs_ok a -> length r = length a -> limb_ok b -> limb_ok l ->
  let '(r', l') := mp_add_mul1_loop r a b l in
  limbs_ok r' /\ length r' = length a /\ limb_ok l' /\
  mp_val r' + mp_base a * l' = mp_val r + mp_val a * b + l.
Proof.
  intros Hr Ha. revert r l Hr. induction Ha as [|x a Hx Ha IH]; intros [|y r] l Hr Hl Hb Hl0;
    try discriminate; cbn [mp_add_mul1_loop].
  - change (mp_base []) with 1. cbn [mp_val length]. repeat split; [constructor|apply Hl0|apply Hl0|lia].
  - inversion Hr as [|? ? Hy Hr']; subst. cbv zeta.
    destruct (limb_muladd_dlimb x b l y Hx Hb Hl0 Hy) as (E1 & E2 & Hq).
    rewrite E1, shiftr_limb, (js_limb_small _ Hq).
    specialize (IH r ((x * b + l + y) / limb_base) Hr' ltac:(simpl in Hl; lia) Hb Hq).
    destruct (mp_add_mul1_loop r a b ((x * b + l + y) / limb_base)) as [rs l2].
    destruct IH as (Hrs & Hlen & Hl2 & E3).
    rewrite mp_base_cons. cbn [mp_val length]. repeat split; auto with limbs.
    + constructor; auto with limbs.
    + apply Hl2.
    + apply Hl2.
    + transitivity (js_limb (x * b + l + y) + limb_base * (mp_val rs + mp_base a * l2)); [ring|].
      rewrite E3. lia.
Qed.

Lemma mp_add_mul1_spec r a b :
  limbs_ok r -> limbs_ok a -> length r = length a -> limb_ok b ->
  let '(r', l') := mp_add_mul1 r a b in
  limbs_ok r' /\ length r' = length a /\ limb_ok l' /\
  mp_val r' + mp_base a * l' = mp_val r + mp_val a * b.
Proof.
  intros Hr Ha Hl Hb. unfold mp_add_mul1.
  pose proof (mp_add_mul1_loop_spec r a b 0 Hr Ha Hl Hb limb_ok_0) as H.
  destruct (mp_add_mul1_loop r a b 0) as [r' l']. intuition lia.
Qed.

(** [mp_mul1] is [mp_add_mul1] on a zero array. *)
Lemma mp_mul1_add_mul1 a b l :
  mp_mul1 a b l = mp_add_mul1_loop (replicate (length a) 0) a b l.
Proof.
  revert l. induction a as [|x a IH]; intros l; [reflexivity|].
  cbn [mp_mul1 mp_add_mul1_loop length replicate]. rewrite IH, Z.add_0_r. reflexivity.
Qed.

Lemma mp_mul1_spec a b l :
  limbs_ok a -> limb_ok b -> limb_ok l ->
  let '(r, l') := mp_mul1 a b l in
  limbs_ok r /\ length r = length a /\ limb_ok l' /\
  mp_val r + mp_base a * l' = mp_val a * b + l.
Proof.
  intros Ha Hb Hl. rewrite mp_mul1_add_mul1.
  pose proof (mp_add_mul1_loop_spec (replicate (length a) 0) a b l) as H.
  destruct (mp_add_mul1_loop (replicate (length a) 0) a b l) as [r l'].
  rewrite mp_val_replicate_0 in H. apply H; auto with limbs.
  rewrite length_replicate. reflexivity.
Qed.

Lemma mp_sub_mul1_loop_spec r a b l :
  limbs_ok r -> limbs_ok a -> length r = length a -> limb_ok b -> limb_ok l ->
  let '(r', l') := mp_sub_mul1_loop r a b l in
  limbs_ok r' /\ length r' = length a /\ limb_ok l' /\
  mp_val r' - mp_base a * l' = mp_val r - mp_val a * b - l.
Proof.
  intros Hr Ha. revert r l Hr. induction Ha as [|x a Hx Ha IH]; intros [|y r] l Hr Hl Hb Hl0;
    try discriminate; cbn [mp_sub_mul1_loop].
  - change (mp_base []) with 1. cbn [mp_val length]. repeat split; [constructor|apply Hl0|apply Hl0|lia].
  - inversion Hr as [|? ? Hy Hr']; subst. cbv zeta.
    set (t := y - x * b - l).
    assert (0 <= - (t / limb_base) < limb_base /\
            js_limb t - limb_base * (- (t / limb_base)) = t /\
            js_limb (js_dlimb t) = js_limb t /\
            js_limb (- Z.shiftr (js_dlimb t) JS_LIMB_BITS) = - (t / limb_base))
      as (Hq & E1 & E0 & E2).
    { unfold limb_ok in *. pose proof limb_base_big as HB.
      assert (- ((limb_base - 1) * limb_base) <= t < limb_base) by (unfold t; nia).
      rewrite shiftr_limb, !js_limb_eq, js_dlimb_eq.
      assert (t mod limb_base = t - limb_base * (t / limb_base)) as Em by (apply Z.mod_eq; lia).
      assert (0 <= - (t / limb_base) < limb_base) as Hq.
      { split.
        - enough (t / limb_base < 1) by lia. apply Z.div_lt_upper_bound; lia.
        - enough (- (limb_base - 1) <= t / limb_base) by lia. apply Z.div_le_lower_bound; lia. }
      repeat split; try lia.
      - apply Z.mod_mod_divide. exists limb_base. reflexivity.
      - destruct (Z.lt_ge_cases t 0).
        + replace (t mod (limb_base * limb_base)) with (t + limb_base * limb_base)
            by (apply (Z.mod_unique _ _ (-1)); nia).
          rewrite Z.div_add by lia.
          symmetry. apply (Z.mod_unique _ _ (-1)); lia.
        + rewrite (Z.mod_small t) by nia. rewrite !(Z.div_small t) by lia. reflexivity. }
    rewrite E0, E2.
    specialize (IH r (- (t / limb_base)) Hr' ltac:(simpl in Hl; lia) Hb Hq).
    destruct (mp_sub_mul1_loop r a b (- (t / limb_base))) as [rs l2].
    destruct IH as (Hrs & Hlen & Hl2 & E3).
    rewrite mp_base_cons. cbn [mp_val length]. repeat split; auto with limbs.
    + constructor; auto with limbs.
    + apply Hl2.
    + apply Hl2.
    + transitivity (js_limb t + limb_base * (mp_val rs - mp_base a * l2)); [ring|].
      rewrite E3. unfold t in *. lia.
Qed.

Lemma mp_sub_mul1_spec r a b :
  limbs_ok r -> limbs_ok a -> length r = length a -> limb_ok b ->
  let '(r', l') := mp_sub_mul1 r a b in
  limbs_ok r' /\ length r' = length a /\ limb_ok l' /\
  mp_val r' - mp_base a * l' = mp_val r - mp_val a * b.
Proof.
  intros Hr Ha Hl Hb. unfold mp_sub_mul1.
  pose proof (mp_sub_mul1_loop_spec r a b 0 Hr Ha Hl Hb limb_ok_0) as H.
  destruct (mp_sub_mul1_loop r a b 0) as [r' l']. intuition lia.
Qed.

Lemma div_2by1 r a b :
  limb_ok a -> limb_ok b -> 0 <= r < b ->
  limb_ok ((r * limb_base + a) / b) /\
  (r * limb_base + a) / b * b + (r * limb_base + a) mod b = r * limb_base + a /\
  0 <= (r * limb_base + a) mod b < b.
Proof.
  intros Ha Hb Hr. unfold limb_ok in *. repeat split.
  - apply Z.div_pos; nia.
  - apply Z.div_lt_upper_bound; nia.
  - rewrite (Z.div_mod (r * limb_base + a) b) at 3 by lia. lia.
  - apply Z.mod_pos_bound. lia.
  - apply Z.mod_pos_bound. lia.
Qed.

Lemma mp_div1_spec a b r :
  limbs_ok a -> limb_ok b -> 0 <= r < b ->
  let '(q, r') := mp_div1 a b r in
  limbs_ok q /\ length q = length a /\ 0 <= r' < b /\
  mp_val q * b + r' = r * mp_base a + mp_val a.
Proof.
  intros Ha Hb Hr. induction Ha as [|x a Hx Ha IH]; cbn [mp_div1].
  - change (mp_base []) with 1. cbn [mp_val length]. repeat split; [constructor|lia..].
  - destruct (mp_div1 a b r) as [qs r1]. destruct IH as (Hq & Hlen & Hr1 & E1).
    cbv zeta. rewrite (shl_limb_lor r1 x Hx).
    destruct (div_2by1 r1 x b Hx Hb Hr1) as (Hq1 & E2 & Hr2).
    rewrite (js_limb_small _ Hq1), mp_base_cons. cbn [mp_val length]. repeat split; try lia.
    constructor; assumption.
Qed.

(** ** Shifts *)

Lemma mul_low_range k s p l :
  0 <= k * s < p * s -> 0 <= l < s -> 0 <= k * s + l < p * s.
Proof. intros Hk Hl. assert (0 <= k < p) by nia. nia. Qed.

Lemma shl_split v shift :
  limb_ok v -> 1 <= shift < JS_LIMB_BITS ->
  js_limb (Z.shiftl v shift) + limb_base * Z.shiftr v (JS_LIMB_BITS - shift) = v * 2 ^ shift /\
  0 <= Z.shiftr v (JS_LIMB_BITS - shift) < 2 ^ shift /\
  (exists k, js_limb (Z.shiftl v shift) = k * 2 ^ shift).
Proof.
  intros Hv Hs. unfold limb_ok in Hv.
  rewrite Z.shiftl_mul_pow2, js_limb_eq, Z.shiftr_div_pow2 by lia.
  assert (limb_base = 2 ^ (JS_LIMB_BITS - shift) * 2 ^ shift) as EB
    by (unfold limb_base; rewrite <- Z.pow_add_r by lia; f_equal; lia).
  assert (0 < 2 ^ shift) by lia. assert (0 < 2 ^ (JS_LIMB_BITS - shift)) by lia.
  pose proof (Z_div_mod_eq_full v (2 ^ (JS_LIMB_BITS - shift))) as E.
  assert (0 <= v mod 2 ^ (JS_LIMB_BITS - shift) < 2 ^ (JS_LIMB_BITS - shift)) as Hm
    by (apply Z.mod_pos_bound; lia).
  assert ((v * 2 ^ shift) mod limb_base = v mod 2 ^ (JS_LIMB_BITS - shift) * 2 ^ shift) as E1.
  { rewrite EB. apply Z.mul_mod_distr_r; lia. }
  repeat split.
  - rewrite E1, EB. rewrite E at 3. ring.
  - apply Z.div_pos; lia.
  - apply Z.div_lt_upper_bound; lia.
  - exists (v mod 2 ^ (JS_LIMB_BITS - shift)). exact E1.
Qed.

Lemma mp_shl_loop_spec a shift l :
  limbs_ok a -> 1 <= shift < JS_LIMB_BITS -> 0 <= l < 2 ^ shift ->
  let '(r, l') := mp_shl_loop a shift l in
  limbs_ok r /\ length r = length a /\ 0 <= l' < 2 ^ shift /\
  mp_val r + mp_base a * l' = mp_val a * 2 ^ shift + l.
Proof.
  intros Ha Hs. revert l. induction Ha as [|x a Hx Ha IH]; intros l Hl; cbn [mp_shl_loop].
  - change (mp_base []) with 1. cbn [mp_val length]. repeat split; [constructor|lia..].
  - cbv zeta. destruct (shl_split x shift Hx Hs) as (E1 & Hh & k & Ek).
    specialize (IH _ Hh).
    destruct (mp_shl_loop a shift (Z.shiftr x (JS_LIMB_BITS - shift))) as [rs l2].
    destruct IH as (Hrs & Hlen & Hl2 & E2).
    assert (Z.lor (js_limb (Z.shiftl x shift)) l = js_limb (Z.shiftl x shift) + l) as E3.
    { rewrite Ek. apply lor_add_disjoint, land_low_shifted; lia. }
    pose proof (js_limb_ok (Z.shiftl x shift)) as Hj.
    assert (limb_ok (js_limb (Z.shiftl x shift) + l)) as Ho.
    { unfold limb_ok in *.
      assert (limb_base = 2 ^ (JS_LIMB_BITS - shift) * 2 ^ shift) as EB
        by (unfold limb_base; rewrite <- Z.pow_add_r by lia; f_equal; lia).
      rewrite Ek, EB in *. apply mul_low_range; lia. }
    rewrite E3, mp_base_cons. cbn [mp_val length]. repeat split; try lia.
    constructor; assumption.
Qed.

Lemma mp_shl_spec a shift :
  limbs_ok a -> 1 <= shift < JS_LIMB_BITS ->
  let '(r, l') := mp_shl a shift in
  limbs_ok r /\ length r = length a /\ 0 <= l' < 2 ^ shift /\
  mp_val r + mp_base a * l' = mp_val a * 2 ^ shift.
Proof.
  intros Ha Hs. unfold mp_shl. pose proof (mp_shl_loop_spec a shift 0 Ha Hs ltac:(lia)) as H.
  destruct (mp_shl_loop a shift 0) as [r l']. intuition lia.
Qed.

Lemma shr_join a l shift :
  limb_ok a -> 1 <= shift < JS_LIMB_BITS ->
  let r := Z.lor (Z.shiftr a shift) (js_limb (Z.shiftl l (JS_LIMB_BITS - shift))) in
  limb_ok r /\ r * 2 ^ shift + a mod 2 ^ shift = a + limb_base * (l mod 2 ^ shift).
Proof.
  intros Ha Hs. cbv zeta. unfold limb_ok in *.
  assert (limb_base = 2 ^ (JS_LIMB_BITS - shift) * 2 ^ shift) as EB
    by (unfold limb_base; rewrite <- Z.pow_add_r by lia; f_equal; lia).
  assert (0 < 2 ^ shift) by lia. assert (0 < 2 ^ (JS_LIMB_BITS - shift)) by lia.
  assert (js_limb (Z.shiftl l (JS_LIMB_BITS - shift)) = (l mod 2 ^ shift) * 2 ^ (JS_LIMB_BITS - shift)) as E1.
  { rewrite js_limb_eq, Z.shiftl_mul_pow2 by lia.
    rewrite EB, (Z.mul_comm (2 ^ (JS_LIMB_BITS - shift))). apply Z.mul_mod_distr_r; lia. }
  assert (0 <= a / 2 ^ shift < 2 ^ (JS_LIMB_BITS - shift)) as Hd.
  { split; [apply Z.div_pos; lia|apply Z.div_lt_upper_bound; lia]. }
  rewrite Z.shiftr_div_pow2, E1 by lia.
  rewrite Z.lor_comm, lor_add_disjoint by (apply land_low_shifted; lia).
  pose proof (Z.mod_pos_bound l (2 ^ shift) ltac:(lia)).
  pose proof (Z_div_mod_eq_full a (2 ^ shift)) as Ea.
  split; [rewrite EB; nia|]. rewrite EB. rewrite Ea at 3. ring.
Qed.

Lemma mp_shr_loop_spec a shift high :
  limbs_ok a -> 1 <= shift < JS_LIMB_BITS ->
  let '(r, l) := mp_shr_loop a shift high in
  limbs_ok r /\ length r = length a /\
  mp_val r * 2 ^ shift + l mod 2 ^ shift = mp_val a + mp_base a * (high mod 2 ^ shift).
Proof.
  intros Ha Hs. induction Ha as [|x a Hx Ha IH]; cbn [mp_shr_loop].
  - change (mp_base []) with 1. cbn [mp_val length]. repeat split; [constructor|lia].
  - destruct (mp_shr_loop a shift high) as [rs l1]. destruct IH as (Hrs & Hlen & E1).
    destruct (shr_join x l1 shift Hx Hs) as (Ho & E2).
    rewrite mp_base_cons. cbn [mp_val length]. repeat split; [constructor; assumption|lia|].
    set (r := Z.lor (Z.shiftr x shift) (js_limb (Z.shiftl l1 (JS_LIMB_BITS - shift)))) in *.
    transitivity ((r * 2 ^ shift + x mod 2 ^ shift) + limb_base * (mp_val rs * 2 ^ shift)); [ring|].
    rewrite E2.
    transitivity (x + limb_base * (mp_val rs * 2 ^ shift + l1 mod 2 ^ shift)); [ring|].
    rewrite E1. ring.
Qed.

Lemma mp_shr_spec a shift high :
  limbs_ok a -> 1 <= shift < JS_LIMB_BITS ->
  let '(r, m) := mp_shr a shift high in
  limbs_ok r /\ length r = length a /\ 0 <= m < 2 ^ shift /\
  mp_val r * 2 ^ shift + m = mp_val a + mp_base a * (high mod 2 ^ shift).
Proof.
  intros Ha Hs. unfold mp_shr. pose proof (mp_shr_loop_spec a shift high Ha Hs) as H.
  destruct (mp_shr_loop a shift high) as [r l]. destruct H as (Hr & Hl & E).
  assert (js_limb (Z.shiftl 1 shift) = 2 ^ shift) as E1.
  { rewrite Z.shiftl_1_l. apply js_limb_small. unfold limb_ok, limb_base.
    split; [lia|]. apply Z.pow_lt_mono_r; lia. }
  rewrite E1, land_mask by lia.
  pose proof (Z.mod_pos_bound l (2 ^ shift) ltac:(lia)). repeat split; auto; lia.
Qed.

(** ** Schoolbook multiplication *)

Lemma mp_mul_rows_spec res op1 op2 :
  limbs_ok (take (length op1) res) -> limbs_ok op1 -> limbs_ok op2 ->
  length res = (length op1 + length op2)%nat ->
  let r := mp_mul_rows res op1 op2 in
  limbs_ok r /\ length r = length res /\
  mp_val r = mp_val (take (length op1) res) + mp_val op1 * mp_val op2.
Proof.
  intros Hres H1 H2. revert res Hres.
  induction H2 as [|b op2 Hb H2 IH]; intros res Hres Hl; cbn [mp_mul_rows]; cbv zeta.
  - simpl in Hl. rewrite take_ge in * by lia. cbn [mp_val]. repeat split; auto. lia.
  - simpl in Hl.
    pose proof (mp_add_mul1_spec (take (length op1) res) op1 b Hres H1) as H.
    destruct (mp_add_mul1 (take (length op1) res) op1 b) as [lo r].
    destruct H as (Hlo & Hlen & Hr & E1); [rewrite length_take; lia|exact Hb|].
    set (res1 := lo ++ r :: drop (S (length op1)) res).
    assert (length res1 = length res) as Hlen1.
    { unfold res1. rewrite length_app. simpl. rewrite length_drop. lia. }
    assert (take (length op1) (drop 1 res1) = drop 1 (lo ++ [r])) as Htk.
    { unfold res1. rewrite (cons_middle r), app_assoc.
      rewrite drop_app_le by (rewrite length_app; simpl; lia).
      rewrite take_app_length'; [reflexivity|].
      rewrite length_drop, length_app; simpl; lia. }
    assert (limbs_ok (lo ++ [r])) as Hlor.
    { apply limbs_ok_app. split; [exact Hlo|]. constructor; [exact Hr|constructor]. }
    assert (mp_val (lo ++ [r]) = mp_val (take (length op1) res) + mp_val op1 * b) as Ev.
    { rewrite mp_val_app. cbn [mp_val]. rewrite (mp_base_length lo op1) by lia. lia. }
    destruct res1 as [|x res2] eqn:Er; [simpl in *; lia|].
    assert (lo ++ [r] = x :: drop 1 (lo ++ [r])) as Ex.
    { destruct lo; unfold res1 in *; simpl in *; injection Er; intros; subst; reflexivity. }
    change (drop 1 (x :: res2)) with res2 in Htk.
    specialize (IH res2). rewrite Htk in IH.
    rewrite Ex in Ev, Hlor. inversion Hlor as [|? ? Hx Hd]; subst.
    destruct IH as (Hok & Hlr & Evr); [exact Hd|simpl in *; lia|].
    cbn [mp_val length] in *. repeat split; [constructor; assumption|lia|].
    rewrite Evr. lia.
Qed.

Lemma mp_mul_basecase_spec result op1 op2 :
  limbs_ok op1 -> limbs_ok op2 -> op2 <> [] ->
  length result = (length op1 + length op2)%nat ->
  let r := mp_mul_basecase result op1 op2 in
  limbs_ok r /\ length r = length result /\ mp_val r = mp_val op1 * mp_val op2.
Proof.
  intros H1 H2 Hne Hl. cbv zeta.
  assert (mp_mul_basecase result op1 op2 =
          mp_mul_rows (replicate (length op1) 0 ++ drop (length op1) result) op1 op2) as ->.
  { destruct op2 as [|b op2]; [congruence|]. cbn [mp_mul_basecase mp_mul_rows].
    rewrite take_app_length' by (rewrite length_replicate; reflexivity).
    unfold mp_add_mul1. rewrite <- mp_mul1_add_mul1.
    destruct (mp_mul1 op1 b 0) as [lo r].
    rewrite drop_app_ge by (rewrite length_replicate; lia).
    rewrite length_replicate, drop_drop. do 4 f_equal.
    replace (length op1 + (S (length op1) - length op1))%nat with (S (length op1)) by lia.
    reflexivity. }
  pose proof (mp_mul_rows_spec (replicate (length op1) 0 ++ drop (length op1) result) op1 op2) as H.
  rewrite take_app_length' in H by (rewrite length_replicate; reflexivity).
  rewrite mp_val_replicate_0 in H.
  destruct H as (Hok & Hlen & Ev); auto with limbs.
  { rewrite length_app, length_replicate, length_drop. lia. }
  repeat split; [exact Hok| |lia].
  rewrite Hlen, length_app, length_replicate, length_drop. lia.
Qed.

End LimbSpecs.
