(* ===== verification/LimbDiv.v ===== *)
(** Limb division (quickjs.c: [udiv1norm_init] to [mp_divnorm]): division by an
    invariant limb through a precomputed reciprocal, and the schoolbook long
    division with its quotient estimate and add-back loop.

    Correctness of the long division [mp_divnorm]. *)
From stdpp Require Import base tactics list numbers.
From Stdlib Require Import ZArith Lia.
From S2P Require Import Prelude Limbs LimbSpecs.

Open Scope Z_scope.

Section LimbDiv.
Context `{LC : LimbConfig}.

Definition udiv1norm_init (d : Z) : Z :=
  let a1 := js_limb (- d - 1) in
  let a0 := js_limb (-1) in
  js_limb (Z.lor (Z.shiftl a1 JS_LIMB_BITS) a0 / d).

(** Quotient and remainder of [a1 * 2^JS_LIMB_BITS + a0] by [d]. *)
Definition udiv1norm (a1 a0 d d_inv : Z) : Z * Z :=
  let n1m := js_limb (Z.shiftr (js_slimb a0) (JS_LIMB_BITS - 1)) in
  let n_adj := js_limb (a0 + Z.land n1m d) in
  let a := js_dlimb (d_inv * js_limb (a1 - n1m) + n_adj) in
  let q := js_limb (Z.shiftr a JS_LIMB_BITS + a1) in
  let a := Z.lor (Z.shiftl a1 JS_LIMB_BITS) a0 in
  let a := js_dlimb (a - q * d - d) in
  let ah := js_limb (Z.shiftr a JS_LIMB_BITS) in
  let q := js_limb (q + (1 + ah)) in
  let r := js_limb (js_limb a + Z.land ah d) in
  (q, r).

Definition UDIV1NORM_THRESHOLD : Z := 3.

Fixpoint mp_div1norm_inv (taba : list Z) (b b_inv r : Z) : list Z * Z :=
  match taba with
  | a :: taba' =>
      let '(qs, r) := mp_div1norm_inv taba' b b_inv r in
      let '(q, r) := udiv1norm r a b b_inv in
      (q :: qs, r)
  | [] => ([], r)
  end.

(** Below the threshold the loop is the one of [mp_div1]. *)
Definition mp_div1norm (taba : list Z) (b r : Z) : list Z * Z :=
  if UDIV1NORM_THRESHOLD <=? len taba
  then mp_div1norm_inv taba b (udiv1norm_init b) r
  else mp_div1 taba b r.

(** First iteration: compare [taba[n..]] with [tabb] from limb [j - 1] down. *)
Fixpoint mp_divnorm_first (taba tabb : list Z) (n : Z) (j : nat) : M Z :=
  match j with
  | O => mret 1
  | S j' =>
      x ← tab_get taba (n + Z.of_nat j');
      y ← tab_get tabb (Z.of_nat j');
      if x =? y then mp_divnorm_first taba tabb n j'
      else mret (if x <? y then 0 else 1)
  end.

(** The add-back loop; at most two rounds are needed (see [addback_spec]). *)
Fixpoint mp_divnorm_addback (fuel : nat) (q : Z) (taba tabb : list Z) (i nb : Z) :
    M (Z * list Z) :=
  match fuel with
  | O => undefined
  | S fuel =>
      let q := js_limb (q - 1) in
      win ← tab_slice taba i nb;
      let '(win', c) := mp_add win tabb 0 in
      taba ← tab_blit taba i win';
      if negb (c =? 0) then
        v ← tab_get taba (i + nb);
        let v := js_limb (v + 1) in
        taba ← tab_set taba (i + nb) v;
        if v =? 0 then mret (q, taba)
        else mp_divnorm_addback fuel q taba tabb i nb
      else mp_divnorm_addback fuel q taba tabb i nb
  end.

Definition ADDBACK_ROUNDS : nat := 3.

(** One quotient limb: estimate, multiply and subtract, correct. *)
Definition mp_divnorm_step (taba tabb : list Z) (i nb b1 b1_inv : Z) : M (Z * list Z) :=
  ah ← tab_get taba (i + nb);
  q ← (if b1 <=? ah then mret (js_limb (-1))
       else if negb (b1_inv =? 0) then
         al ← tab_get taba (i + nb - 1);
         mret (fst (udiv1norm ah al b1 b1_inv))
       else
         al ← tab_get taba (i + nb - 1);
         mret (js_limb (Z.lor (Z.shiftl ah JS_LIMB_BITS) al / b1)));
  win ← tab_slice taba i nb;
  let '(win', r) := mp_sub_mul1 win tabb q in
  taba ← tab_blit taba i win';
  v ← tab_get taba (i + nb);
  let a := js_limb (v - r) in
  taba ← tab_set taba (i + nb) a;
  if v <? a then mp_divnorm_addback ADDBACK_ROUNDS q taba tabb i nb
  else mret (q, taba).

(** [for (i = n - 1; i >= 0; i--)] *)
Fixpoint mp_divnorm_loop (i : nat) (tabq taba tabb : list Z) (nb b1 b1_inv : Z) :
    M (list Z * list Z) :=
  match i with
  | O => mret (tabq, taba)
  | S i =>
      '(q, taba) ← mp_divnorm_step taba tabb (Z.of_nat i) nb b1 b1_inv;
      tabq ← tab_set tabq (Z.of_nat i) q;
      mp_divnorm_loop i tabq taba tabb nb b1 b1_inv
  end.

(** [tabb] is the array [tabb[0..nb-1]]; [tabq] and [taba] may be longer than
    the [na - nb + 1] and [na] limbs in use.  Returns the new [tabq], [taba]. *)
Definition mp_divnorm (tabq taba : list Z) (na : Z) (tabb : list Z) : M (list Z * list Z) :=
  let nb := len tabb in
  b1 ← tab_get tabb (nb - 1);
  if nb =? 1 then
    a ← tab_slice taba 0 na;
    let '(qs, r) := mp_div1norm a b1 0 in
    tabq ← tab_blit tabq 0 qs;
    taba ← tab_set taba 0 r;
    mret (tabq, taba)
  else
    let n := na - nb in
    let b1_inv := if UDIV1NORM_THRESHOLD <=? n then udiv1norm_init b1 else 0 in
    q ← mp_divnorm_first taba tabb n (length tabb);
    tabq ← tab_set tabq n q;
    taba ← (if negb (q =? 0) then
              win ← tab_slice taba n nb;
              tab_blit taba n (fst (mp_sub win tabb 0))
            else mret taba);
    mp_divnorm_loop (Z.to_nat n) tabq taba tabb nb b1 b1_inv.

(** * The reciprocal *)

(** [d] has its top bit set. *)
Definition normalized (d : Z) : Prop := 2 ^ (JS_LIMB_BITS - 1) <= d < limb_base.

Lemma udiv1norm_init_spec d :
  normalized d ->
  let m := udiv1norm_init d in
  limb_ok m /\ 0 < m /\
  exists e, 0 <= e < d /\ (limb_base + m) * d + e = limb_base * limb_base - 1.
Proof.
  intros Hd. unfold normalized in Hd. cbv zeta. unfold udiv1norm_init.
  pose proof limb_base_half as Eh. pose proof limb_base_big as HB.
  assert (js_limb (- d - 1) = limb_base - d - 1) as E1
    by (rewrite js_limb_eq; symmetry; apply (Z.mod_unique _ _ (-1)); lia).
  assert (js_limb (-1) = limb_base - 1) as E0
    by (rewrite js_limb_eq; symmetry; apply (Z.mod_unique _ _ (-1)); lia).
  rewrite E1, E0, shl_limb_lor by auto with limbs.
  set (N := (limb_base - d - 1) * limb_base + (limb_base - 1)).
  assert (N = limb_base * limb_base - limb_base * d - 1) as EN by (unfold N; ring).
  assert (d <= N) by nia.
  assert (0 < N / d) by (apply Z.div_str_pos; lia).
  assert (N / d < limb_base) by (apply Z.div_lt_upper_bound; nia).
  assert (js_limb (N / d) = N / d) as -> by (apply js_limb_small; unfold limb_ok; lia).
  split; [unfold limb_ok; lia|]. split; [lia|].
  exists (N mod d). split; [apply Z.mod_pos_bound; lia|].
  pose proof (Z_div_mod_eq_full N d). nia.
Qed.

Lemma slimb_sign_mask a0 :
  limb_ok a0 ->
  js_limb (Z.shiftr (js_slimb a0) (JS_LIMB_BITS - 1)) =
    if a0 <? 2 ^ (JS_LIMB_BITS - 1) then 0 else limb_base - 1.
Proof.
  intros Ha. unfold limb_ok in Ha. pose proof limb_bits_pos as HW.
  pose proof limb_base_half as Eh. pose proof limb_half_big as Hh.
  unfold js_slimb. rewrite swrap_pattern by (unfold limb_base in *; lia).
  rewrite Z.shiftr_div_pow2 by lia.
  fold limb_base. set (h := 2 ^ (JS_LIMB_BITS - 1)) in *.
  destruct (Z.ltb_spec a0 h).
  - rewrite Z.div_small by lia. reflexivity.
  - replace ((a0 - limb_base) / h) with (-1)
      by (apply (Z.div_unique _ _ _ (a0 - limb_base + h)); lia).
    rewrite js_limb_eq. symmetry. apply (Z.mod_unique _ _ (-1)); lia.
Qed.

Lemma land_all_ones d : limb_ok d -> Z.land (limb_base - 1) d = d.
Proof.
  intros Hd. rewrite Z.land_comm. unfold limb_base. rewrite land_mask by (pose proof limb_bits_pos; lia).
  apply Z.mod_small. exact Hd.
Qed.

(** The quotient estimate read off the reciprocal is the quotient or one less. *)
Lemma udiv1norm_estimate a1 a0 d m e :
  normalized d -> 0 <= a1 < d -> limb_ok a0 -> limb_ok m -> 0 <= e < d ->
  (limb_base + m) * d + e = limb_base * limb_base - 1 ->
  let top := negb (a0 <? 2 ^ (JS_LIMB_BITS - 1)) in
  let adj := if top then m + (a0 + d - limb_base) else a0 in
  let q := a1 + (m * a1 + adj) / limb_base in
  0 <= a1 * limb_base + a0 - q * d < 2 * d.
Proof.
  intros Hd Ha1 Ha0 Hm He Ed. cbv zeta. unfold normalized, limb_ok in *.
  pose proof limb_base_half as Eh. pose proof limb_base_big as HB.
  set (h := 2 ^ (JS_LIMB_BITS - 1)) in *. set (B := limb_base) in *.
  set (adj := if negb (a0 <? h) then m + (a0 + d - B) else a0).
  pose proof (Z_div_mod_eq_full (m * a1 + adj) B) as Eq.
  pose proof (Z.mod_pos_bound (m * a1 + adj) B ltac:(lia)) as Ht.
  set (q1 := (m * a1 + adj) / B) in *. set (t := (m * a1 + adj) mod B) in *.
  assert (B * (a1 * B + a0 - (a1 + q1) * d) =
          a1 * (B * B - B * d) + a0 * B - (m * a1 + adj) * d + d * t) as E1.
  { rewrite Eq. ring. }
  assert (B * B - B * d = m * d + e + 1) as E2 by lia.
  enough (0 <= B * (a1 * B + a0 - (a1 + q1) * d) < B * (2 * d)) as [Hl Hu].
  { split; [apply (Z.mul_le_mono_pos_l _ _ B)|apply (Z.mul_lt_mono_pos_l B)]; lia. }
  rewrite E1, E2. unfold adj. destruct (Z.ltb_spec a0 h) as [Hlo|Hhi]; cbn [negb].
  - replace (a1 * (m * d + e + 1) + a0 * B - (m * a1 + a0) * d + d * t)
      with (a1 * (e + 1) + a0 * (B - d) + d * t) by ring.
    assert (0 <= a1 * (e + 1) <= (d - 1) * d) by (apply mul_bounds; lia).
    assert (0 <= a0 * (B - d) <= d * (B - d)) by (apply mul_bounds; lia).
    assert (0 <= d * t <= d * (B - 1)) by (apply mul_bounds; lia). lia.
  - replace (a1 * (m * d + e + 1) + a0 * B - (m * a1 + (m + (a0 + d - B))) * d + d * t)
      with ((a1 + 1) * (e + 1) + (a0 - (B - d)) * (B - d) + d * t
            + (B * B - B * d - (m * d + e + 1))) by ring.
    rewrite E2.
    assert (0 <= (a1 + 1) * (e + 1) <= d * d) by (apply mul_bounds; lia).
    assert (0 <= (a0 - (B - d)) * (B - d) <= (d - 1) * (B - d)) by (apply mul_bounds; lia).
    assert (0 <= d * t <= d * (B - 1)) by (apply mul_bounds; lia). lia.
Qed.

Lemma udiv1norm_spec a1 a0 d :
  normalized d -> 0 <= a1 < d -> limb_ok a0 ->
  udiv1norm a1 a0 d (udiv1norm_init d) =
    ((a1 * limb_base + a0) / d, (a1 * limb_base + a0) mod d).
Proof.
  intros Hd Ha1 Ha0.
  destruct (udiv1norm_init_spec d Hd) as (Hm & Hmp & e & He & Ee).
  set (m := udiv1norm_init d) in *.
  pose proof (udiv1norm_estimate a1 a0 d m e Hd Ha1 Ha0 Hm He Ee) as Hq. cbv zeta in Hq.
  unfold udiv1norm. rewrite (slimb_sign_mask a0 Ha0).
  unfold normalized, limb_ok in *.
  pose proof limb_base_half as Eh. pose proof limb_base_big as HB.
  assert (limb_base <= limb_base * limb_base) as HBB by (clear - HB; nia).
  assert (0 <= a1 * limb_base <= (d - 1) * limb_base) as HN by (apply mul_bounds; lia).
  assert (js_dlimb (m * js_limb (a1 - (if a0 <? 2 ^ (JS_LIMB_BITS - 1) then 0 else limb_base - 1))
            + js_limb (a0 + Z.land (if a0 <? 2 ^ (JS_LIMB_BITS - 1) then 0 else limb_base - 1) d))
          = m * a1 + (if negb (a0 <? 2 ^ (JS_LIMB_BITS - 1)) then m + (a0 + d - limb_base) else a0)) as Ea.
  { destruct (Z.ltb_spec a0 (2 ^ (JS_LIMB_BITS - 1))); cbn [negb].
    - rewrite Z.land_0_l, Z.add_0_r, Z.sub_0_r, !js_limb_small by (unfold limb_ok; lia).
      rewrite js_dlimb_eq. apply Z.mod_small.
      assert (0 <= m * a1 <= (limb_base - 1) * (limb_base - 1)) by (apply mul_bounds; lia). lia.
    - rewrite land_all_ones by (unfold limb_ok; lia).
      replace (js_limb (a1 - (limb_base - 1))) with (a1 + 1)
        by (rewrite js_limb_eq; apply (Z.mod_unique _ _ (-1)); lia).
      replace (js_limb (a0 + d)) with (a0 + d - limb_base)
        by (rewrite js_limb_eq; apply (Z.mod_unique _ _ 1); lia).
      assert (0 <= m * (a1 + 1) <= (limb_base - 1) * (limb_base - 1)) by (apply mul_bounds; lia).
      rewrite js_dlimb_eq, Z.mod_small by lia. ring. }
  rewrite Ea. clear Ea.
  set (adj := if negb (a0 <? 2 ^ (JS_LIMB_BITS - 1)) then m + (a0 + d - limb_base) else a0) in *.
  rewrite !shiftr_limb, shl_limb_lor by exact Ha0.
  set (q1 := (m * a1 + adj) / limb_base) in *.
  set (N := a1 * limb_base + a0) in *.
  assert (0 <= adj) by (unfold adj; destruct (a0 <? _) eqn:E; cbn [negb];
    [|apply Z.ltb_ge in E]; lia).
  assert (0 <= q1).
  { apply Z.div_pos; [|lia]. assert (0 <= m * a1 <= m * a1) by (apply mul_bounds; lia). lia. }
  assert (a1 + q1 < limb_base) as Hqr
    by (apply (Z.mul_lt_mono_pos_r d); unfold N in *; lia).
  rewrite (js_limb_small (q1 + a1)) by (unfold limb_ok; lia).
  replace (q1 + a1) with (a1 + q1) by lia. set (q := a1 + q1) in *.
  rewrite js_dlimb_eq.
  destruct (Z.lt_ge_cases (N - q * d - d) 0) as [Hneg|Hpos].
  - replace ((N - q * d - d) mod (limb_base * limb_base))
      with (N - q * d - d + limb_base * limb_base) by (apply (Z.mod_unique _ _ (-1)); lia).
    rewrite Z.div_add by lia.
    replace ((N - q * d - d) / limb_base) with (-1)
      by (apply (Z.div_unique _ _ _ (N - q * d - d + limb_base)); lia).
    rewrite (js_limb_small (-1 + limb_base)) by (unfold limb_ok; lia).
    replace (-1 + limb_base) with (limb_base - 1) by lia.
    rewrite land_all_ones by (unfold limb_ok; lia).
    assert (N / d = q) as Eq by (symmetry; apply (Z.div_unique _ _ _ (N - q * d)); lia).
    assert (N mod d = N - q * d) as Er by (rewrite Z.mod_eq by lia; rewrite Eq; lia).
    rewrite Eq, Er. f_equal; rewrite !js_limb_eq.
    + symmetry. apply (Z.mod_unique _ _ 1); lia.
    + rewrite Z.mod_add by lia. symmetry. apply (Z.mod_unique _ _ (1)); [lia|].
      replace ((N - q * d - d) mod limb_base) with (N - q * d - d + limb_base)
        by (apply (Z.mod_unique _ _ (-1)); lia). lia.
  - rewrite Z.mod_small by lia.
    assert (N / d = q + 1) as Eq by (symmetry; apply (Z.div_unique _ _ _ (N - q * d - d)); lia).
    assert (N mod d = N - q * d - d) as Er by (rewrite Z.mod_eq by lia; rewrite Eq; lia).
    assert (N / d < limb_base) by (apply Z.div_lt_upper_bound; unfold N; lia).
    rewrite (Z.div_small (N - q * d - d)) by lia.
    rewrite (js_limb_small 0), Z.land_0_l, !Z.add_0_r by auto with limbs.
    rewrite Eq, Er, !js_limb_small; [reflexivity|..]; try (unfold limb_ok; lia).
    apply js_limb_ok.
Qed.

(** * Division by one limb *)

Lemma mp_div1norm_inv_eq a b r :
  limbs_ok a -> normalized b -> 0 <= r < b ->
  mp_div1norm_inv a b (udiv1norm_init b) r = mp_div1 a b r.
Proof.
  intros Ha Hb Hr. induction Ha as [|x a Hx Ha IH]; [reflexivity|].
  assert (limb_ok b) as Hb' by (unfold normalized, limb_ok in *; pose proof limb_half_big; lia).
  pose proof (mp_div1_spec a b r Ha Hb' Hr) as Hs.
  cbn [mp_div1norm_inv mp_div1]. rewrite IH. destruct (mp_div1 a b r) as [qs r1].
  destruct Hs as (_ & _ & Hr1 & _).
  rewrite (udiv1norm_spec r1 x b Hb Hr1 Hx), (shl_limb_lor r1 x Hx).
  rewrite js_limb_small; [reflexivity|]. apply div_2by1; assumption.
Qed.

(** The reciprocal version and the plain loop compute the same array. *)
Lemma mp_div1norm_eq a b r :
  limbs_ok a -> normalized b -> 0 <= r < b -> mp_div1norm a b r = mp_div1 a b r.
Proof.
  intros. unfold mp_div1norm.
  destruct (UDIV1NORM_THRESHOLD <=? len a); [apply mp_div1norm_inv_eq; assumption|reflexivity].
Qed.

(** * Long division *)

Lemma addback_spec fuel q lo win h hi tabb T :
  limbs_ok win -> limb_ok h -> limbs_ok tabb -> length win = length tabb -> limb_ok q ->
  mp_val win + mp_base tabb * h - mp_base tabb * limb_base = T ->
  - Z.of_nat fuel * mp_val tabb <= T < 0 -> 0 <= q * mp_val tabb + T ->
  exists q' win',
    mp_divnorm_addback fuel q (lo ++ win ++ h :: hi) tabb (len lo) (len tabb) =
      mret (q', lo ++ win' ++ 0 :: hi) /\
    limbs_ok win' /\ length win' = length tabb /\ limb_ok q' /\
    q' * mp_val tabb + mp_val win' = q * mp_val tabb + T /\
    0 <= mp_val win' < mp_val tabb.
Proof.
  intros Hwin Hh Hb Hlen. revert q win h T Hwin Hh Hlen.
  induction fuel as [|fuel IH]; intros q win h T Hwin Hh Hlen Hq ET HT HN; [lia|].
  cbn [mp_divnorm_addback]. cbv zeta.
  rewrite tab_slice_app by (unfold len; lia). rewrite ret_bind.
  pose proof (mp_add_spec win tabb 0 Hwin Hb Hlen ltac:(lia)) as Hs.
  destruct (mp_add win tabb 0) as [win1 c]. destruct Hs as (Hw1 & Hl1 & Hc & E1).
  rewrite (mp_base_length win tabb Hlen) in E1.
  rewrite tab_blit_app by (unfold len; lia). rewrite ret_bind.
  pose proof (mp_val_bounds win1 Hw1) as Hv1. rewrite (mp_base_length win1 tabb) in Hv1 by lia.
  pose proof (mp_base_pos tabb) as HBp. pose proof (mp_val_bounds tabb Hb) as Hvb.
  pose proof limb_base_big as HB.
  assert (q <> 0) as Hq0 by (intros ->; lia).
  assert (js_limb (q - 1) = q - 1) as Eq by (apply js_limb_small; unfold limb_ok in *; lia).
  rewrite Eq. unfold limb_ok in *.
  assert (c = 0 \/ c = 1) as [-> | ->] by lia; cbn [Z.eqb negb].
  - (* no carry: still negative *)
    assert (mp_base tabb * h <= mp_base tabb * (limb_base - 1)) by (apply Z.mul_le_mono_nonneg_l; lia).
    destruct (IH (q - 1) win1 h (T + mp_val tabb)) as (q' & win' & E & Hw' & Hl' & Hq' & Ev & Hr);
      try assumption; try lia.
    exists q', win'. repeat split; try assumption; lia.
  - rewrite (app_assoc lo win1), tab_get_app by (rewrite len_app; unfold len; lia).
    rewrite ret_bind, tab_set_app by (rewrite len_app; unfold len; lia).
    rewrite ret_bind, <- app_assoc.
    destruct (Z.eq_dec h (limb_base - 1)) as [->|Hne].
    + replace (js_limb (limb_base - 1 + 1)) with 0
        by (rewrite js_limb_eq; apply (Z.mod_unique _ _ 1); lia).
      cbn [Z.eqb]. exists (q - 1), win1. repeat split; try assumption; lia.
    + rewrite (js_limb_small (h + 1)) by (unfold limb_ok; lia).
      rewrite (proj2 (Z.eqb_neq (h + 1) 0)) by lia.
      assert (mp_base tabb * (h + 1) <= mp_base tabb * (limb_base - 1)) by (apply Z.mul_le_mono_nonneg_l; lia).
      destruct (IH (q - 1) win1 (h + 1) (T + mp_val tabb)) as (q' & win' & E & Hw' & Hl' & Hq' & Ev & Hr);
        try assumption; try lia.
      exists q', win'. repeat split; try assumption; lia.
Qed.

(** Knuth's bound on the quotient estimate, for any base [B] and [P = B^(nb-1)]. *)
Lemma quotient_estimate B P N Nlo h al b b1 blo q :
  0 < P -> 0 <= Nlo < P -> 0 <= blo < P -> 0 <= al < B -> 0 <= h ->
  2 * b1 >= B -> 1 < B -> N = Nlo + P * (al + B * h) -> b = blo + P * b1 -> N < B * b ->
  q = (if b1 <=? h then B - 1 else (h * B + al) / b1) ->
  0 <= q < B /\ - 2 * b <= N - q * b < b.
Proof.
  intros HP HNlo Hblo Hal Hh Hb1 HB -> -> HN ->.
  set (u := h * B + al). replace (al + B * h) with u in * by (unfold u; ring).
  assert (0 <= u) by (unfold u; nia).
  assert (forall q, 0 <= q < B -> q * b1 <= u -> - 2 * (blo + P * b1) <= Nlo + P * u - q * (blo + P * b1))
    as Hlow.
  { intros q Hq Hqu.
    assert (0 <= P * (u - q * b1)) by (apply Z.mul_nonneg_nonneg; lia).
    enough (0 <= (2 - q) * blo + 2 * P * b1) by lia.
    destruct (Z.lt_ge_cases 2 q).
    - assert (0 <= (q - 2) * blo <= (B - 2) * P) by (apply mul_bounds; lia).
      assert (0 <= P * (2 * b1 - B)) by (apply Z.mul_nonneg_nonneg; lia). lia.
    - assert (0 <= (2 - q) * blo) by (apply Z.mul_nonneg_nonneg; lia).
      assert (0 <= P * b1) by (apply Z.mul_nonneg_nonneg; lia). lia. }
  destruct (Z.leb_spec b1 h) as [Hle|Hlt].
  - split; [lia|]. split; [|lia]. apply Hlow; [lia|]. unfold u.
    assert (0 <= (h - b1) * B) by (apply Z.mul_nonneg_nonneg; lia). lia.
  - assert (0 <= u / b1) by (apply Z.div_pos; lia).
    assert (u / b1 < B).
    { apply Z.div_lt_upper_bound; [lia|]. unfold u.
      assert (0 <= (b1 - 1 - h) * B) by (apply Z.mul_nonneg_nonneg; lia). lia. }
    pose proof (Z_div_mod_eq_full u b1). pose proof (Z.mod_pos_bound u b1 ltac:(lia)).
    split; [lia|]. split; [apply Hlow; lia|].
    assert (0 <= (u / b1) * blo) by (apply Z.mul_nonneg_nonneg; lia).
    assert (P * (u - b1 * (u / b1)) <= P * (b1 - 1)) by (apply Z.mul_le_mono_nonneg_l; lia). lia.
Qed.

End LimbDiv.

Section LimbDivSpecs.
Context `{LC : LimbConfig}.

(** A divisor as [mp_divnorm] wants it: its top limb [b1] has its top bit set. *)
Definition norm_divisor (tabb : list Z) (blo : list Z) (b1 : Z) : Prop :=
  tabb = blo ++ [b1] /\ limbs_ok tabb /\ normalized b1.

Lemma norm_divisor_val tabb blo b1 :
  norm_divisor tabb blo b1 ->
  mp_val tabb = mp_val blo + mp_base blo * b1 /\ 0 <= mp_val blo < mp_base blo /\
  mp_base tabb = mp_base blo * limb_base /\ 0 < mp_base blo /\
  limb_base <= 2 * b1 < 2 * limb_base /\ limb_ok b1 /\ 0 < mp_val tabb < mp_base tabb.
Proof.
  intros (-> & Hok & Hn). apply limbs_ok_app in Hok as Hok'. destruct Hok' as [Hblo _].
  rewrite mp_val_app, mp_base_app. cbn [mp_val]. rewrite mp_base_cons.
  change (mp_base []) with 1. rewrite Z.mul_0_r, Z.mul_1_r, Z.add_0_r.
  pose proof (mp_val_bounds _ Hblo). pose proof (mp_base_pos blo).
  unfold normalized, limb_ok in *. pose proof limb_base_half. pose proof limb_half_big.
  assert (mp_base blo * 1 <= mp_base blo * b1 <= mp_base blo * (limb_base - 1))
    by (split; apply Z.mul_le_mono_nonneg_l; lia).
  repeat split; lia.
Qed.

Lemma low_cons x v V :
  limb_ok x -> 0 <= v < V -> 0 <= x + limb_base * v < limb_base * V.
Proof.
  unfold limb_ok. intros Hx Hv.
  assert (limb_base * v <= limb_base * (V - 1)) by (apply Z.mul_le_mono_nonneg_l; lia).
  assert (0 <= limb_base * v) by (apply Z.mul_nonneg_nonneg; lia). lia.
Qed.

Lemma b1_inv_quotient h al b1 b1_inv :
  normalized b1 -> 0 <= h < b1 -> limb_ok al -> b1_inv = 0 \/ b1_inv = udiv1norm_init b1 ->
  (if negb (b1_inv =? 0) then fst (udiv1norm h al b1 b1_inv)
   else js_limb (Z.lor (Z.shiftl h JS_LIMB_BITS) al / b1)) = (h * limb_base + al) / b1.
Proof.
  intros Hn Hh Hal Hinv. destruct (udiv1norm_init_spec b1 Hn) as (_ & Hpos & _).
  assert (limb_ok b1) as Hb1 by (unfold normalized, limb_ok in *; pose proof limb_half_big; lia).
  destruct Hinv as [-> | ->].
  - cbn [Z.eqb negb]. rewrite shl_limb_lor by exact Hal.
    apply js_limb_small. apply div_2by1; assumption.
  - rewrite (proj2 (Z.eqb_neq _ _)) by lia. cbn [negb].
    rewrite (udiv1norm_spec h al b1 Hn Hh Hal). reflexivity.
Qed.

(** One step divides the window [x :: R] by [tabb]: it leaves the remainder in
    the low limbs, a zero limb above, and returns the quotient limb. *)
Lemma step_spec lo x R al h hi tabb blo b1 b1_inv :
  norm_divisor tabb blo b1 -> limb_ok x -> limbs_ok (R ++ [al; h]) ->
  (length R + 2 = length tabb)%nat -> mp_val (R ++ [al; h]) < mp_val tabb ->
  b1_inv = 0 \/ b1_inv = udiv1norm_init b1 ->
  exists q win,
    mp_divnorm_step (lo ++ x :: R ++ al :: h :: hi) tabb (len lo) (len tabb) b1 b1_inv =
      mret (q, lo ++ win ++ 0 :: hi) /\
    limbs_ok win /\ length win = length tabb /\ limb_ok q /\
    q * mp_val tabb + mp_val win = x + limb_base * mp_val (R ++ [al; h]) /\
    0 <= mp_val win < mp_val tabb.
Proof.
  intros Hnd Hx HR Hlen HRb Hinv. destruct Hnd as (Eb & Hb & Hn) eqn:E'.
  destruct (norm_divisor_val tabb blo b1 Hnd) as (Ebv & Hblo & Ebase & HP & Hb1 & Hb1ok & Hbv).
  apply limbs_ok_app in HR as HR'. destruct HR' as [HRok HR2].
  inversion HR2 as [|? ? Hal HR3]; subst. inversion HR3 as [|? ? Hh _]; subst.
  set (tabb := blo ++ [b1]) in *. set (win := x :: R ++ [al]).
  assert (limbs_ok win) as Hwin
    by (constructor; [exact Hx|apply limbs_ok_app; split; [exact HRok|constructor; [exact Hal|constructor]]]).
  assert (length win = length tabb) as Hlw by (unfold win; simpl; rewrite length_app; simpl; lia).
  assert (mp_val (R ++ [al; h]) = mp_val R + mp_base R * (al + limb_base * h)) as ER
    by (rewrite mp_val_app; cbn [mp_val]; ring).
  assert (mp_base blo = limb_base * mp_base R) as EP.
  { rewrite <- (mp_base_cons 0 R). apply mp_base_length. unfold tabb in *.
    rewrite length_app in Hlen. simpl in *. lia. }
  pose proof (mp_val_bounds R HRok) as HvR.
  assert (mp_val win = x + limb_base * mp_val R + mp_base blo * al) as Ewin.
  { unfold win. cbn [mp_val]. rewrite mp_val_app. cbn [mp_val]. rewrite EP. ring. }
  set (N := x + limb_base * mp_val (R ++ [al; h])).
  assert (N = x + limb_base * mp_val R + mp_base blo * (al + limb_base * h)) as EN
    by (unfold N; rewrite ER, EP; ring).
  pose proof limb_base_big as HB. unfold limb_ok in *.
  assert (0 <= x + limb_base * mp_val R < mp_base blo) as HNlo
    by (rewrite EP; apply low_cons; assumption).
  assert (N < limb_base * mp_val tabb) as HNlt.
  { unfold N. apply low_cons; [assumption|]. pose proof (mp_val_bounds _ HR). lia. }
  set (q := if b1 <=? h then limb_base - 1 else (h * limb_base + al) / b1).
  destruct (quotient_estimate limb_base (mp_base blo) N (x + limb_base * mp_val R) h al
              (mp_val tabb) b1 (mp_val blo) q) as [Hq HT]; try assumption; try lia; try reflexivity.
  unfold mp_divnorm_step.
  replace (lo ++ x :: R ++ al :: h :: hi) with ((lo ++ win) ++ h :: hi)
    by (unfold win; rewrite <- !app_assoc; simpl; rewrite <- app_assoc; reflexivity).
  assert (len lo + len tabb = len (lo ++ win)) as El by (rewrite len_app; unfold len; lia).
  rewrite (tab_get_app (lo ++ win) h hi _ El), ret_bind.
  assert ((if b1 <=? h then mret (js_limb (-1))
           else if negb (b1_inv =? 0)
             then al ← tab_get ((lo ++ win) ++ h :: hi) (len lo + len tabb - 1);
                  mret (fst (udiv1norm h al b1 b1_inv))
             else al ← tab_get ((lo ++ win) ++ h :: hi) (len lo + len tabb - 1);
                  mret (js_limb (Z.lor (Z.shiftl h JS_LIMB_BITS) al / b1))) = (mret q : M Z)) as Equo.
  { unfold q. destruct (Z.leb_spec b1 h) as [Hle|Hlt].
    - f_equal. rewrite js_limb_eq. symmetry. apply (Z.mod_unique _ _ (-1)); lia.
    - rewrite <- (b1_inv_quotient h al b1 b1_inv) by (unfold limb_ok; auto; lia).
      replace ((lo ++ win) ++ h :: hi) with ((lo ++ x :: R) ++ al :: h :: hi)
        by (unfold win; rewrite <- !app_assoc; simpl; rewrite <- app_assoc; reflexivity).
      rewrite tab_get_app by (rewrite El, !len_app; unfold win; rewrite !len_cons, len_app; unfold len; simpl; lia).
      destruct (negb (b1_inv =? 0)); reflexivity. }
  rewrite Equo, ret_bind. clear Equo. rewrite <- app_assoc.
  rewrite tab_slice_app by (unfold len; lia). rewrite ret_bind.
  pose proof (mp_sub_mul1_spec win tabb q Hwin Hb Hlw Hq) as Hs.
  destruct (mp_sub_mul1 win tabb q) as [win1 r]. destruct Hs as (Hw1 & Hl1 & Hr & E1).
  rewrite tab_blit_app by lia. rewrite ret_bind, (app_assoc lo).
  rewrite tab_get_app by (rewrite len_app; unfold len; lia). rewrite ret_bind.
  rewrite tab_set_app by (rewrite len_app; unfold len; lia). rewrite ret_bind, <- app_assoc.
  pose proof (js_limb_sub_borrow h r Hh Hr) as E2.
  pose proof (js_limb_ok (h - r)) as Ha. set (a := js_limb (h - r)) in *.
  pose proof (mp_val_bounds win1 Hw1) as Hv1. rewrite (mp_base_length win1 tabb) in Hv1 by lia.
  assert (mp_val win1 + mp_base tabb * a - mp_base tabb * limb_base * c_bool (h <? a)
          = N - q * mp_val tabb) as ET.
  { assert (mp_base tabb * (a - limb_base * c_bool (h <? a)) = mp_base tabb * (h - r)) by (rewrite E2; reflexivity).
    assert (mp_base tabb * h = mp_base blo * (limb_base * h)) by (rewrite Ebase; ring). lia. }
  unfold limb_ok in *.
  assert (mp_base tabb * 0 <= mp_base tabb * a <= mp_base tabb * (limb_base - 1))
    by (split; apply Z.mul_le_mono_nonneg_l; lia).
  destruct (h <? a); cbn [c_bool] in ET.
  - destruct (addback_spec ADDBACK_ROUNDS q lo win1 a hi tabb (N - q * mp_val tabb))
      as (q' & win' & E & Hw' & Hl' & Hq' & Ev & Hv'); try assumption; try (unfold limb_ok; lia).
    { unfold ADDBACK_ROUNDS. lia. }
    exists q', win'. unfold limb_ok in *. repeat split; try assumption; lia.
  - assert (a = 0) as ->.
    { destruct (Z.eq_dec a 0) as [|Hne]; [assumption|exfalso].
      assert (mp_base tabb * 1 <= mp_base tabb * a) by (apply Z.mul_le_mono_nonneg_l; lia). lia. }
    exists q, win1. repeat split; try assumption; lia.
Qed.

Lemma loop_spec tabb blo b1 b1_inv ql qh lo R hi :
  norm_divisor tabb blo b1 -> (2 <= length tabb)%nat -> limbs_ok lo -> limbs_ok R ->
  length R = length tabb -> mp_val R < mp_val tabb -> length ql = length lo ->
  b1_inv = 0 \/ b1_inv = udiv1norm_init b1 ->
  exists qs R' hi',
    mp_divnorm_loop (length lo) (ql ++ qh) (lo ++ R ++ hi) tabb (len tabb) b1 b1_inv =
      mret (qs ++ qh, R' ++ hi') /\
    limbs_ok qs /\ length qs = length lo /\ limbs_ok R' /\ length R' = length tabb /\
    length hi' = (length lo + length hi)%nat /\
    mp_val qs * mp_val tabb + mp_val R' = mp_val lo + mp_base lo * mp_val R /\
    0 <= mp_val R' < mp_val tabb.
Proof.
  intros Hnd Hnb Hlo. revert ql qh R hi.
  induction lo as [|x lo IH] using rev_ind; intros ql qh R hi HR HlR HRb Hql Hinv.
  - destruct ql; [|discriminate]. exists [], R, hi. cbn [length mp_divnorm_loop app mp_val].
    change (mp_base []) with 1. pose proof (mp_val_bounds R HR).
    repeat split; try assumption; try constructor; lia.
  - apply limbs_ok_app in Hlo as Hlo'. destruct Hlo' as [Hlo1 Hx].
    inversion Hx as [|? ? Hx0 _]; subst.
    rewrite length_app in *. cbn [length] in *. rewrite Nat.add_1_r in *. cbn [mp_divnorm_loop].
    assert (exists R0 al h, R = R0 ++ [al; h]) as (R0 & al & h & ->).
    { destruct R as [|h R1 _] using rev_ind; [simpl in HlR; lia|].
      rewrite length_app in HlR. simpl in HlR.
      destruct R1 as [|al R2 _] using rev_ind; [simpl in HlR; lia|].
      exists R2, al, h. rewrite <- app_assoc. reflexivity. }
    rewrite length_app in HlR. simpl in HlR.
    destruct (step_spec lo x R0 al h hi tabb blo b1 b1_inv) as (q & win & E & Hw & Hlw & Hq & Ev & Hvw);
      try assumption; try lia.
    replace ((lo ++ [x]) ++ (R0 ++ [al; h]) ++ hi) with (lo ++ x :: R0 ++ al :: h :: hi)
      by (rewrite <- !app_assoc; reflexivity).
    change (Z.of_nat (length lo)) with (len lo). rewrite E, ret_bind.
    destruct ql as [|q0 ql _] using rev_ind; [simpl in Hql; lia|].
    rewrite length_app in Hql. simpl in Hql. rewrite <- app_assoc.
    cbn [app]. rewrite tab_set_app by (unfold len; lia). rewrite ret_bind.
    destruct (IH Hlo1 ql (q :: qh) win (0 :: hi)) as
      (qs & R' & hi' & E2 & Hqs & Hlqs & HR' & HlR' & Hlh & Ev2 & Hv2); try assumption; try lia.
    rewrite E2. exists (qs ++ [q]), R', hi'. rewrite <- app_assoc.
    rewrite mp_val_app, (mp_val_app lo), length_app, mp_base_app, mp_base_cons.
    rewrite (mp_base_length qs lo Hlqs). change (mp_base []) with 1. cbn [mp_val length].
    repeat split; try assumption; try lia.
    + apply limbs_ok_app. split; [exact Hqs|]. constructor; [exact Hq|constructor].
    + simpl in Hlh. lia.
Qed.

Lemma first_spec lo win hi tabb j :
  limbs_ok win -> limbs_ok tabb -> length win = length tabb -> (j <= length tabb)%nat ->
  mp_divnorm_first (lo ++ win ++ hi) tabb (len lo) j =
    mret (c_bool (mp_val (take j tabb) <=? mp_val (take j win))).
Proof.
  intros Hw Hb Hl. induction j as [|j IH]; intros Hj; [reflexivity|]. cbn [mp_divnorm_first].
  destruct (lookup_lt_is_Some_2 win j ltac:(lia)) as [x Hx].
  destruct (lookup_lt_is_Some_2 tabb j ltac:(lia)) as [y Hy].
  rewrite (tab_get_lookup (lo ++ win ++ hi) _ x), ret_bind;
    [|unfold len; lia|].
  2:{ unfold len. rewrite <- Nat2Z.inj_add, Nat2Z.id, lookup_app_r by lia.
      replace (length lo + j - length lo)%nat with j by lia.
      rewrite lookup_app_l by (apply lookup_lt_Some in Hx; lia). exact Hx. }
  rewrite (tab_get_lookup tabb _ y), ret_bind by (rewrite ?Nat2Z.id; first [lia|exact Hy]).
  rewrite (take_S_r win j x Hx), (take_S_r tabb j y Hy), !mp_val_app.
  rewrite (mp_base_length (take j win) (take j tabb)) by (rewrite !length_take; lia).
  cbn [mp_val]. rewrite !Z.mul_0_r, !Z.add_0_r.
  pose proof (mp_val_bounds _ (limbs_ok_take j _ Hw)) as V1.
  pose proof (mp_val_bounds _ (limbs_ok_take j _ Hb)) as V2.
  rewrite (mp_base_length (take j win) (take j tabb)) in V1 by (rewrite !length_take; lia).
  destruct (Z.eqb_spec x y) as [->|Hne].
  - rewrite IH by lia. f_equal. f_equal. case_tests; try reflexivity; lia.
  - f_equal. unfold c_bool. set (P := mp_base (take j tabb)) in *.
    destruct (Z.ltb_spec x y).
    + assert (P * x <= P * (y - 1)) by (apply Z.mul_le_mono_nonneg_l; lia).
      rewrite (proj2 (Z.leb_gt _ _)) by lia. reflexivity.
    + assert (P * y <= P * (x - 1)) by (apply Z.mul_le_mono_nonneg_l; lia).
      rewrite (proj2 (Z.leb_le _ _)) by lia. reflexivity.
Qed.

Lemma mp_divnorm_single taba a junk na b1 tabq :
  taba = a ++ junk -> na = len a -> limbs_ok a -> normalized b1 -> a <> [] ->
  na <= len tabq ->
  exists qs r rest,
    mp_divnorm tabq taba na [b1] = mret (qs ++ drop (length qs) tabq, [r] ++ rest) /\
    limbs_ok qs /\ length qs = length a /\ limb_ok r /\ S (length rest) = length taba /\
    mp_val qs * b1 + r = mp_val a /\ 0 <= r < b1.
Proof.
  intros -> -> Ha Hn Hne Hq. unfold mp_divnorm. cbv zeta.
  change (len [b1]) with 1. change (1 - 1) with 0. change (1 =? 1) with true. cbv iota.
  rewrite (tab_get_app [] b1 [] 0 eq_refl : tab_get [b1] 0 = mret b1), ret_bind.
  rewrite (tab_slice_app [] a junk 0 (len a) eq_refl eq_refl
           : tab_slice (a ++ junk) 0 (len a) = mret a), ret_bind.
  assert (limb_ok b1) as Hb1 by (unfold normalized, limb_ok in *; pose proof limb_half_big; lia).
  assert (0 < b1) by (unfold normalized in *; pose proof limb_half_big; lia).
  rewrite mp_div1norm_eq by (auto; lia).
  pose proof (mp_div1_spec a b1 0 Ha Hb1 ltac:(lia)) as Hs.
  destruct (mp_div1 a b1 0) as [qs r]. destruct Hs as (Hqs & Hlq & Hr & Ev).
  assert (tab_blit tabq 0 qs = mret (qs ++ drop (length qs) tabq)) as Eb.
  { rewrite <- (take_drop (length qs) tabq) at 1.
    apply (tab_blit_app [] (take (length qs) tabq)); [reflexivity|].
    rewrite length_take. unfold len in *. lia. }
  rewrite Eb, ret_bind.
  destruct a as [|a0 a]; [congruence|].
  change ((a0 :: a) ++ junk) with ([] ++ a0 :: (a ++ junk)).
  rewrite tab_set_app by reflexivity. rewrite ret_bind.
  exists qs, r, (a ++ junk). simpl in *. unfold limb_ok in *.
  repeat split; try assumption; lia.
Qed.

(** [mp_divnorm] divides: quotient in [tabq[0..na-nb]], remainder in the low
    [nb] limbs of [taba], no access outside the arrays. *)
Lemma mp_divnorm_spec tabq a junk na tabb blo b1 :
  norm_divisor tabb blo b1 -> limbs_ok a -> na = len a ->
  (length tabb <= length a)%nat -> (length a + 1 <= length tabq + length tabb)%nat ->
  exists qs r rest,
    mp_divnorm tabq (a ++ junk) na tabb = mret (qs ++ drop (length qs) tabq, r ++ rest) /\
    limbs_ok qs /\ (length qs + length tabb = S (length a))%nat /\
    limbs_ok r /\ length r = length tabb /\ length (r ++ rest) = length (a ++ junk) /\
    mp_val qs * mp_val tabb + mp_val r = mp_val a /\ 0 <= mp_val r < mp_val tabb.
Proof.
  intros Hnd Ha -> Hnb Hq.
  destruct (norm_divisor_val tabb blo b1 Hnd) as (Ebv & Hblo & Ebase & HP & Hb1 & Hb1ok & Hbv).
  destruct Hnd as (Eb & Hb & Hn) eqn:E'.
  destruct blo as [|b0 blo'].
  { subst tabb. cbn [app length] in *.
    destruct (mp_divnorm_single (a ++ junk) a junk (len a) b1 tabq) as
      (qs & r & rest & E & Hqs & Hlq & Hr & Hlr & Ev & Hv); auto.
    { destruct a; [simpl in *; lia|discriminate]. }
    { unfold len. lia. }
    exists qs, [r], rest. cbn [mp_val app length] in *.
    repeat split; try assumption; try lia. constructor; [exact Hr|constructor]. }
  set (lo := take (length a - length tabb) a). set (win := drop (length a - length tabb) a).
  assert (a = lo ++ win) as Ea by (symmetry; apply take_drop).
  assert (length lo = (length a - length tabb)%nat) as Hll by (unfold lo; rewrite length_take; lia).
  assert (length win = length tabb) as Hlw by (unfold win; rewrite length_drop; lia).
  assert (limbs_ok lo) as Hlo by (unfold lo; auto with limbs).
  assert (limbs_ok win) as Hwin by (unfold win; auto with limbs).
  clearbody lo win. subst a. rewrite <- app_assoc.
  unfold mp_divnorm.
  assert (len tabb <> 1) as Hne1 by (subst tabb; rewrite len_app, len_cons; unfold len; simpl; lia).
  assert (tab_get tabb (len tabb - 1) = mret b1) as Eg.
  { rewrite Eb at 1. apply tab_get_app. rewrite Eb, len_app. unfold len. simpl. lia. }
  rewrite Eg, ret_bind, (proj2 (Z.eqb_neq _ _) Hne1). cbv zeta.
  assert (len (lo ++ win) - len tabb = len lo) as En by (rewrite len_app; unfold len; lia).
  rewrite En. rewrite first_spec by (auto; lia). rewrite ret_bind.
  rewrite (take_ge tabb), (take_ge win) by lia.
  rewrite length_app in *.
  assert (exists ql q0 qt, tabq = ql ++ q0 :: qt /\ length ql = length lo) as (ql & q0 & qt & -> & Hql).
  { exists (take (length lo) tabq).
    destruct (drop (length lo) tabq) as [|q0 qt] eqn:Ed.
    - apply (f_equal length) in Ed. rewrite length_drop in Ed. simpl in Ed. lia.
    - exists q0, qt. rewrite <- Ed, take_drop, length_take. split; [reflexivity|lia]. }
  rewrite tab_set_app by (unfold len; lia). rewrite ret_bind.
  set (ge := mp_val tabb <=? mp_val win).
  assert (exists R, (if negb (c_bool ge =? 0) then
                       win0 ← tab_slice (lo ++ win ++ junk) (len lo) (len tabb);
                       tab_blit (lo ++ win ++ junk) (len lo) (fst (mp_sub win0 tabb 0))
                     else mret (lo ++ win ++ junk)) = (mret (lo ++ R ++ junk) : M (list Z)) /\
             limbs_ok R /\ length R = length tabb /\ mp_val R = mp_val win - c_bool ge * mp_val tabb)
    as (R & ER & HR & HlR & EvR).
  { destruct ge eqn:Ege; cbn [c_bool Z.eqb negb].
    - rewrite tab_slice_app by (unfold len; lia). rewrite ret_bind.
      pose proof (mp_sub_spec win tabb 0 Hwin Hb Hlw ltac:(lia)) as Hs.
      destruct (mp_sub win tabb 0) as [R k]. destruct Hs as (HR & HlR & Hk & EvR). cbn [fst].
      exists R. rewrite tab_blit_app by lia. split; [reflexivity|]. repeat split; [exact HR|lia|].
      unfold ge in Ege. apply Z.leb_le in Ege.
      pose proof (mp_val_bounds R HR). pose proof (mp_base_pos win).
      rewrite (mp_base_length R win) in * by lia.
      assert (k = 0 \/ k = 1) as [-> | ->] by lia; lia.
    - exists win. repeat split; try assumption. lia. }
  rewrite ER, ret_bind. clear ER.
  assert (mp_val R < mp_val tabb) as HRb.
  { pose proof (mp_val_bounds win Hwin) as Hvw. rewrite (mp_base_length win tabb Hlw) in Hvw.
    rewrite EvR. unfold ge in *. destruct (Z.leb_spec (mp_val tabb) (mp_val win)); cbn [c_bool]; [|lia].
    assert (mp_base (b0 :: blo') * limb_base <= mp_base (b0 :: blo') * (2 * b1))
      by (apply Z.mul_le_mono_nonneg_l; lia). lia. }
  unfold len at 1. rewrite Nat2Z.id.
  destruct (loop_spec tabb (b0 :: blo') b1
             (if UDIV1NORM_THRESHOLD <=? len lo then udiv1norm_init b1 else 0)
             ql (c_bool ge :: qt) lo R junk)
    as (qs & R' & hi' & E2 & Hqs & Hlqs & HR' & HlR' & Hlh & Ev2 & Hv2); try assumption; try lia.
  { unfold len in Hne1. destruct tabb as [|? [|? ?]]; simpl in *; [|lia|lia]. destruct blo'; discriminate. }
  { destruct (UDIV1NORM_THRESHOLD <=? len lo); auto. }
  rewrite E2. exists (qs ++ [c_bool ge]), R', hi'.
  rewrite !length_app, mp_val_app, mp_val_app, (mp_base_length qs lo Hlqs). cbn [mp_val length].
  assert (drop (length qs + 1) (ql ++ q0 :: qt) = qt) as ->.
  { rewrite drop_app_ge by lia. replace (length qs + 1 - length ql)%nat with 1%nat by lia. reflexivity. }
  rewrite <- app_assoc. repeat split; try assumption; try lia.
  apply limbs_ok_app. split; [exact Hqs|]. constructor; [apply c_bool_limb|constructor].
Qed.

End LimbDivSpecs.
