(* ===== verification/BigInt.v ===== *)
(** BigInt arithmetic (quickjs.c, [js_bigint_*]): definitions, the integer a limb
    array denotes in two's complement, and the operations that do not change it: sign
    extension and normalisation.

    A [JSBigInt] is its limb array in two's complement, least significant limb
    first; [len] is the number of limbs.  [js_malloc] hands out memory of unknown
    content, [fresh_limb]; nothing proved depends on it. *)
From stdpp Require Import base tactics list numbers strings.
From Stdlib Require Import ZArith Lia.
From S2P Require Import Prelude Limbs LimbSpecs LimbDiv.

Open Scope Z_scope.

Record JSBigInt : Type := MkBigInt { tab : list Z }.

Class FreshMemory := { fresh_limb : nat -> Z }.

Inductive OPCodeLogic : Type := OP_or | OP_and | OP_xor.

Section BigInt.
Context `{LC : LimbConfig} `{FM : FreshMemory}.

Definition JS_BIGINT_MAX_SIZE : Z := 1024 * 1024 / JS_LIMB_BITS.

Definition bi_len (a : JSBigInt) : Z := len (tab a).

Definition err_alloc : exn := RangeError "BigInt is too large to allocate".
Definition err_div0 : exn := RangeError "BigInt division by zero".
Definition err_negexp : exn := RangeError "BigInt negative exponent".
Definition err_large : exn := RangeError "BigInt is too large".

(** ** Allocation and small values *)

Definition fresh (n : Z) : list Z := fresh_limb <$> seq 0 (Z.to_nat n).

Definition js_bigint_new (n : Z) : M JSBigInt :=
  if JS_BIGINT_MAX_SIZE <? n then throw err_alloc
  else _ ← alloc; mret (MkBigInt (fresh n)).

(** Buffers on the stack: no allocation. *)
Definition js_bigint_set_si (a : Z) : JSBigInt := MkBigInt [js_limb a].

Definition INT32_MIN : Z := - 2 ^ 31.
Definition INT32_MAX : Z := 2 ^ 31 - 1.
Definition INT64_MAX : Z := 2 ^ 63 - 1.

Definition js_bigint_set_si64 (a : Z) : JSBigInt :=
  if JS_LIMB_BITS =? 64 then js_bigint_set_si a
  else if (INT32_MIN <=? a) && (a <=? INT32_MAX) then MkBigInt [js_limb a]
  else MkBigInt [js_limb a; js_limb (Z.shiftr a JS_LIMB_BITS)].

Definition js_bigint_new_si (a : Z) : M JSBigInt :=
  r ← js_bigint_new 1;
  t ← tab_set (tab r) 0 (js_limb a);
  mret (MkBigInt t).

Definition js_bigint_new_si64 (a : Z) : M JSBigInt :=
  if JS_LIMB_BITS =? 64 then js_bigint_new_si a
  else if (INT32_MIN <=? a) && (a <=? INT32_MAX) then js_bigint_new_si a
  else
    r ← js_bigint_new 2;
    t ← tab_set (tab r) 0 (js_limb a);
    t ← tab_set t 1 (js_limb (Z.shiftr a 32));
    mret (MkBigInt t).

Definition js_bigint_new_ui64 (a : Z) : M JSBigInt :=
  if a <=? INT64_MAX then js_bigint_new_si64 a
  else
    r ← js_bigint_new ((65 + JS_LIMB_BITS - 1) / JS_LIMB_BITS);
    if JS_LIMB_BITS =? 64 then
      t ← tab_set (tab r) 0 (js_limb a);
      t ← tab_set t 1 0;
      mret (MkBigInt t)
    else
      t ← tab_set (tab r) 0 (js_limb a);
      t ← tab_set t 1 (js_limb (Z.shiftr a 32));
      t ← tab_set t 2 0;
      mret (MkBigInt t).

(** [a] is a [js_sdlimb_t]. *)
Definition js_bigint_new_di (a : Z) : M JSBigInt :=
  if a =? js_slimb a then
    r ← js_bigint_new 1;
    t ← tab_set (tab r) 0 (js_limb a);
    mret (MkBigInt t)
  else
    r ← js_bigint_new 2;
    t ← tab_set (tab r) 0 (js_limb a);
    t ← tab_set t 1 (js_limb (Z.shiftr a JS_LIMB_BITS));
    mret (MkBigInt t).

(** ** Normalisation and sign *)

(** The test shared by [js_bigint_normalize1] and [js_bigint_extend]: the limb
    [v] above a limb [u] carries more than the sign of [u]. *)
Definition limb_needed (v u : Z) : bool :=
  (negb (v =? 0) && negb (v =? js_limb (-1)))
  || negb (Z.land v 1 =? Z.shiftr u (JS_LIMB_BITS - 1)).

Fixpoint normalize_len (t : list Z) (l : nat) : nat :=
  match l with
  | S ((S l2) as l1) =>
      if limb_needed (t !!! l1) (t !!! l2) then l else normalize_len t l1
  | _ => l
  end.

(** Shrinking the block may fail; the code then keeps the larger block. *)
Definition js_bigint_normalize1 (a : JSBigInt) (l : Z) : M JSBigInt :=
  let l' := normalize_len (tab a) (Z.to_nat l) in
  if Z.of_nat l' =? bi_len a then mret a
  else _ ← try_alloc; mret (MkBigInt (take l' (tab a))).

Definition js_bigint_normalize (a : JSBigInt) : M JSBigInt :=
  js_bigint_normalize1 a (bi_len a).

Definition top_limb (a : JSBigInt) : Z := tab a !!! (length (tab a) - 1)%nat.

Definition js_bigint_sign (a : JSBigInt) : Z := Z.shiftr (top_limb a) (JS_LIMB_BITS - 1).

Definition js_bigint_get_si_sat (a : JSBigInt) : Z :=
  if bi_len a =? 1 then js_slimb (tab a !!! 0%nat)
  else if js_bigint_sign a =? 0 then 2 ^ (JS_LIMB_BITS - 1) - 1 else - 2 ^ (JS_LIMB_BITS - 1).

Definition js_bigint_extend (r : JSBigInt) (op1 : Z) : M JSBigInt :=
  if limb_needed op1 (top_limb r) then
    _ ← alloc;
    mret (MkBigInt (tab r ++ [op1]))
  else js_bigint_normalize r.

(** ** Addition, subtraction, negation *)

Definition js_bigint_add (a b : JSBigInt) (b_neg : Z) : M JSBigInt :=
  let n2 := Z.max (bi_len a) (bi_len b) in
  let n1 := Z.min (bi_len a) (bi_len b) in
  r ← js_bigint_new n2;
  let neg_mask := js_limb (- b_neg) in
  (* common part *)
  op1 ← tab_slice (tab a) 0 n1;
  op2 ← tab_slice (tab b) 0 n1;
  let '(rs, carry) := mp_add op1 ((fun x => Z.lxor x neg_mask) <$> op2) b_neg in
  t ← tab_blit (tab r) 0 rs;
  let a_sign := js_limb (- js_bigint_sign a) in
  let b_sign := Z.lxor (js_limb (- js_bigint_sign b)) neg_mask in
  (* part with sign extension of one operand *)
  '(t, carry) ←
    (if bi_len b <? bi_len a then
       op1 ← tab_slice (tab a) n1 (n2 - n1);
       let '(rs, carry) := mp_add op1 (replicate (length op1) b_sign) carry in
       t ← tab_blit t n1 rs; mret (t, carry)
     else if bi_len a <? bi_len b then
       op2 ← tab_slice (tab b) n1 (n2 - n1);
       let '(rs, carry) :=
         mp_add (replicate (length op2) a_sign) ((fun x => Z.lxor x neg_mask) <$> op2) carry in
       t ← tab_blit t n1 rs; mret (t, carry)
     else mret (t, carry));
  js_bigint_extend (MkBigInt t) (js_limb (a_sign + b_sign + carry)).

Definition js_bigint_neg (a : JSBigInt) : M JSBigInt :=
  js_bigint_add (js_bigint_set_si 0) a 1.

(** ** Multiplication *)

Definition js_bigint_mul (a b : JSBigInt) : M JSBigInt :=
  r ← js_bigint_new (bi_len a + bi_len b);
  let t := mp_mul_basecase (tab r) (tab a) (tab b) in
  t ← (if negb (js_bigint_sign a =? 0) then
         w ← tab_slice t (bi_len a) (bi_len b);
         tab_blit t (bi_len a) (fst (mp_sub w (tab b) 0))
       else mret t);
  t ← (if negb (js_bigint_sign b =? 0) then
         w ← tab_slice t (bi_len b) (bi_len a);
         tab_blit t (bi_len b) (fst (mp_sub w (tab a) 0))
       else mret t);
  js_bigint_normalize (MkBigInt t).

(** ** Division *)

(** [while (n > 1 && t[n - 1] == 0) n--;] *)
Fixpoint strip_zeros (t : list Z) (n : nat) : nat :=
  match n with
  | S ((S _) as n1) => if t !!! n1 =? 0 then strip_zeros t n1 else n
  | _ => n
  end.

(** The magnitude of an operand, as the code computes it in place. *)
Definition abs_limbs (sign : Z) (t : list Z) : list Z :=
  if negb (sign =? 0) then fst (mp_neg t) else t.

Definition js_bigint_divrem (a b : JSBigInt) (is_rem : bool) : M JSBigInt :=
  if (bi_len b =? 1) && (tab b !!! 0%nat =? 0) then throw err_div0 else
  let a_sign := js_bigint_sign a in
  let b_sign := js_bigint_sign b in
  r ← js_bigint_new (bi_len a + 2);
  rt ← tab_blit (tab r) 0 (abs_limbs a_sign (tab a));
  let na := Z.of_nat (strip_zeros rt (length (tab a))) in
  _ ← alloc;
  let tabb := abs_limbs b_sign (tab b) in
  let nb := Z.of_nat (strip_zeros tabb (length (tab b))) in
  if na <? nb then
    if is_rem then
      r ← js_bigint_new (bi_len a);
      t ← tab_blit (tab r) 0 (tab a);
      mret (MkBigInt t)
    else js_bigint_new_si 0
  else
    tabb ← tab_slice tabb 0 nb;
    top ← tab_get tabb (nb - 1);
    let shift := js_limb_clz top in
    '(tabb, rt, na) ←
      (if negb (shift =? 0) then
         let tabb := fst (mp_shl tabb shift) in
         w ← tab_slice rt 0 na;
         let '(w, h) := mp_shl w shift in
         rt ← tab_blit rt 0 w;
         if negb (h =? 0) then
           rt ← tab_set rt na h; mret (tabb, rt, na + 1)
         else mret (tabb, rt, na)
       else mret (tabb, rt, na));
    q ← js_bigint_new (na - nb + 2);
    '(qt, rt) ← mp_divnorm (tab q) rt na tabb;
    if is_rem then
      rt ← (if negb (shift =? 0) then
              w ← tab_slice rt 0 nb;
              tab_blit rt 0 (fst (mp_shr w shift 0))
            else mret rt);
      rt ← tab_set rt nb 0;
      let nb := nb + 1 in
      rt ← (if negb (a_sign =? 0) then
              w ← tab_slice rt 0 nb;
              tab_blit rt 0 (fst (mp_neg w))
            else mret rt);
      js_bigint_normalize1 (MkBigInt rt) nb
    else
      qt ← tab_set qt (na - nb + 1) 0;
      let qt := if negb (Z.lxor a_sign b_sign =? 0) then fst (mp_neg qt) else qt in
      js_bigint_normalize (MkBigInt qt).

(** ** Bitwise operations *)

Definition logic_op (op : OPCodeLogic) : Z -> Z -> Z :=
  match op with OP_or => Z.lor | OP_and => Z.land | OP_xor => Z.lxor end.

Definition js_bigint_logic (a b : JSBigInt) (op : OPCodeLogic) : M JSBigInt :=
  let '(a, b) := if bi_len a <? bi_len b then (b, a) else (a, b) in
  let b_sign := js_limb (- js_bigint_sign b) in
  r ← js_bigint_new (bi_len a);
  lo ← tab_slice (tab a) 0 (bi_len b);
  hi ← tab_slice (tab a) (bi_len b) (bi_len a - bi_len b);
  t ← tab_blit (tab r) 0 (zip_with (logic_op op) lo (tab b));
  t ← tab_blit t (bi_len b) ((fun x => logic_op op x b_sign) <$> hi);
  js_bigint_normalize (MkBigInt t).

Definition js_bigint_not (a : JSBigInt) : M JSBigInt :=
  r ← js_bigint_new (bi_len a);
  t ← tab_blit (tab r) 0 ((fun x => js_limb (Z.lnot x)) <$> tab a);
  mret (MkBigInt t).

(** ** Shifts *)

Definition js_bigint_shl (a : JSBigInt) (shift1 : Z) : M JSBigInt :=
  if (bi_len a =? 1) && (tab a !!! 0%nat =? 0) then js_bigint_new_si 0 else
  let d := shift1 / JS_LIMB_BITS in
  let shift := shift1 mod JS_LIMB_BITS in
  r ← js_bigint_new (bi_len a + d);
  t ← tab_blit (tab r) 0 (replicate (Z.to_nat d) 0);
  if shift =? 0 then
    t ← tab_blit t d (tab a);
    mret (MkBigInt t)
  else
    let '(rs, l) := mp_shl (tab a) shift in
    t ← tab_blit t d rs;
    let l := if negb (js_bigint_sign a =? 0)
             then Z.lor l (js_limb (Z.shiftl (js_limb (-1)) shift)) else l in
    js_bigint_extend (MkBigInt t) l.

Definition js_bigint_shr (a : JSBigInt) (shift1 : Z) : M JSBigInt :=
  let d := shift1 / JS_LIMB_BITS in
  let shift := shift1 mod JS_LIMB_BITS in
  let a_sign := js_bigint_sign a in
  if bi_len a <=? d then js_bigint_new_si (- a_sign) else
  let n1 := bi_len a - d in
  r ← js_bigint_new n1;
  src ← tab_slice (tab a) d n1;
  if shift =? 0 then
    t ← tab_blit (tab r) 0 src;
    mret (MkBigInt t)
  else
    t ← tab_blit (tab r) 0 (fst (mp_shr src shift (js_limb (- a_sign))));
    js_bigint_normalize (MkBigInt t).

(** ** Exponentiation *)

(** [for (i = n_bits - 2; i >= 0; i--)]: square, multiply by [a] on a set bit. *)
Fixpoint pow_loop (i : nat) (e : Z) (a r : JSBigInt) : M JSBigInt :=
  match i with
  | O => mret r
  | S i =>
      r ← js_bigint_mul r r;
      r ← (if negb (Z.land (Z.shiftr e (Z.of_nat i)) 1 =? 0)
           then js_bigint_mul r a else mret r);
      pow_loop i e a r
  end.

(** The exponent limb as an [uint32_t], or the "too large" exception. *)
Definition pow_exponent (b : JSBigInt) : M Z :=
  if 1 <? bi_len b then throw err_large
  else if INT32_MAX <? tab b !!! 0%nat then throw err_large
  else mret (tab b !!! 0%nat).

Definition pow_general (a b : JSBigInt) : M JSBigInt :=
  e ← pow_exponent b;
  let n_bits := 32 - clz32 e in
  r ← js_bigint_new (bi_len a);
  t ← tab_blit (tab r) 0 (tab a);
  pow_loop (Z.to_nat (n_bits - 1)) e a (MkBigInt t).

(** [v = 2^n]: the result is a single shifted limb. *)
Definition pow_power_of_two (v : Z) (is_neg : bool) (b : JSBigInt) : M JSBigInt :=
  let n := JS_LIMB_BITS - 1 - js_limb_clz v in
  e ← pow_exponent b;
  let e1 := wrap 64 (e * n) in
  if JS_BIGINT_MAX_SIZE * JS_LIMB_BITS <? e1 then throw err_large
  else
    let is_neg := if is_neg then Z.land (tab b !!! 0%nat) 1 else 0 in
    r ← js_bigint_new ((e1 + JS_LIMB_BITS + 1 - is_neg) / JS_LIMB_BITS);
    t ← tab_set (replicate (length (tab r)) 0) (e1 / JS_LIMB_BITS)
          (js_limb (Z.shiftl (js_limb (1 - 2 * is_neg)) (e1 mod JS_LIMB_BITS)));
    mret (MkBigInt t).

Definition js_bigint_pow (a b : JSBigInt) : M JSBigInt :=
  if negb (js_bigint_sign b =? 0) then throw err_negexp
  else if (bi_len b =? 1) && (tab b !!! 0%nat =? 0) then js_bigint_new_si 1
  else if bi_len a =? 1 then
    let v := tab a !!! 0%nat in
    if v <=? 1 then js_bigint_new_si v
    else if v =? js_limb (-1) then js_bigint_new_si (1 - 2 * Z.land (tab b !!! 0%nat) 1)
    else
      let is_neg := js_slimb v <? 0 in
      let v := if is_neg then js_limb (- v) else v in
      if Z.land v (js_limb (v - 1)) =? 0 then pow_power_of_two v is_neg b
      else pow_general a b
  else pow_general a b.

(** ** Comparison *)

(** The scan from the most significant limb down. *)
Fixpoint cmp_limbs (a b : list Z) (i : nat) : Z :=
  match i with
  | O => 0
  | S i =>
      let x := a !!! i in
      let y := b !!! i in
      if negb (x =? y) then (if x <? y then -1 else 1) else cmp_limbs a b i
  end.

Definition js_bigint_cmp (a b : JSBigInt) : Z :=
  let a_sign := js_bigint_sign a in
  let b_sign := js_bigint_sign b in
  if negb (a_sign =? b_sign) then 1 - 2 * a_sign
  else if negb (bi_len a =? bi_len b) then
    if bi_len a <? bi_len b then 2 * a_sign - 1 else 1 - 2 * a_sign
  else cmp_limbs (tab a) (tab b) (length (tab a)).

End BigInt.

Section BigIntValue.
Context `{LC : LimbConfig} `{FM : FreshMemory}.

(** Two's complement value of an array. *)
Definition sval (t : list Z) : Z :=
  if mp_base t <=? 2 * mp_val t then mp_val t - mp_base t else mp_val t.

Definition bi_val (a : JSBigInt) : Z := sval (tab a).

(** Well-formed: at least one limb, every limb in range. *)
Definition bi_ok (a : JSBigInt) : Prop := limbs_ok (tab a) /\ tab a <> [].

(** No shorter array has the value: it does not fit in one limb less. *)
Definition minimal (t : list Z) : Prop :=
  length t = 1%nat \/
  (2 * sval t < - limb_base ^ (len t - 1) \/ limb_base ^ (len t - 1) <= 2 * sval t).

Definition bi_norm (a : JSBigInt) : Prop := bi_ok a /\ minimal (tab a).

(** ** Range and uniqueness *)

Lemma sval_range t : limbs_ok t -> - mp_base t <= 2 * sval t < mp_base t.
Proof.
  intros Ht. pose proof (mp_val_bounds t Ht). unfold sval.
  destruct (Z.leb_spec (mp_base t) (2 * mp_val t)); lia.
Qed.


(** The value is the representative of [mp_val t] modulo [mp_base t] in the
    signed range. *)
Lemma sval_unique t v k :
  limbs_ok t -> mp_val t = v + k * mp_base t -> - mp_base t <= 2 * v < mp_base t -> sval t = v.
Proof.
  intros Ht E Hv. pose proof (mp_val_bounds t Ht) as Hb. unfold sval.
  assert (k = 0 \/ k = 1) as [-> | ->] by nia;
    destruct (Z.leb_spec (mp_base t) (2 * mp_val t)); lia.
Qed.

Lemma sval_neg_iff t : limbs_ok t -> sval t < 0 <-> mp_base t <= 2 * mp_val t.
Proof.
  intros Ht. pose proof (mp_val_bounds t Ht). unfold sval.
  destruct (Z.leb_spec (mp_base t) (2 * mp_val t)); lia.
Qed.

Lemma mp_val_sval t : limbs_ok t -> mp_val t = sval t + c_bool (sval t <? 0) * mp_base t.
Proof.
  intros Ht. pose proof (sval_neg_iff t Ht) as Hn. pose proof (mp_val_bounds t Ht). unfold sval in *.
  destruct (Z.leb_spec (mp_base t) (2 * mp_val t));
    match goal with |- context [?x <? 0] => destruct (Z.ltb_spec x 0) end; cbn [c_bool]; lia.
Qed.

(** ** The sign *)

Lemma base_snoc lo (h : Z) : mp_base (lo ++ [h]) = mp_base lo * limb_base.
Proof. rewrite mp_base_app, mp_base_cons. change (mp_base []) with 1. ring. Qed.

Lemma val_snoc lo h : mp_val (lo ++ [h]) = mp_val lo + mp_base lo * h.
Proof. rewrite mp_val_app. cbn [mp_val]. ring. Qed.

Lemma sval_snoc_neg lo h :
  limbs_ok lo -> limb_ok h -> (sval (lo ++ [h]) <? 0) = (2 ^ (JS_LIMB_BITS - 1) <=? h).
Proof.
  intros Hlo Hh.
  assert (limbs_ok (lo ++ [h])) as Ht by (apply limbs_ok_app; split; [|constructor; [|constructor]]; assumption).
  pose proof (sval_neg_iff _ Ht) as Hn. rewrite base_snoc, val_snoc in Hn.
  pose proof (mp_val_bounds lo Hlo). pose proof limb_base_half as Eh.
  set (hb := 2 ^ (JS_LIMB_BITS - 1)) in *. set (P := mp_base lo) in *.
  destruct (Z.leb_spec hb h) as [Hle|Hlt].
  - apply Z.ltb_lt, Hn. rewrite Eh.
    assert (P * hb <= P * h) by (apply Z.mul_le_mono_nonneg_l; lia). lia.
  - apply Z.ltb_ge. destruct (Z.lt_ge_cases (sval (lo ++ [h])) 0) as [Hs|Hs]; [|lia].
    apply Hn in Hs. rewrite Eh in Hs.
    assert (P * h <= P * (hb - 1)) by (apply Z.mul_le_mono_nonneg_l; lia). lia.
Qed.

Lemma tab_snoc (t : list Z) : t <> [] -> exists lo h, t = lo ++ [h].
Proof.
  intros Hne. destruct t as [|h lo _] using rev_ind; [congruence|]. exists lo, h. reflexivity.
Qed.

Lemma top_limb_snoc lo h : top_limb (MkBigInt (lo ++ [h])) = h.
Proof.
  unfold top_limb. cbn [tab]. rewrite length_app. simpl.
  replace (length lo + 1 - 1)%nat with (length lo + 0)%nat by lia.
  rewrite lookup_total_app_r by lia. replace (length lo + 0 - length lo)%nat with 0%nat by lia.
  reflexivity.
Qed.

Lemma js_bigint_sign_spec a : bi_ok a -> js_bigint_sign a = c_bool (bi_val a <? 0).
Proof.
  destruct a as [t]. unfold bi_ok, bi_val, js_bigint_sign. cbn [tab]. intros [Hok Hne].
  destruct (tab_snoc t Hne) as (lo & h & ->). rewrite top_limb_snoc.
  apply limbs_ok_app in Hok. destruct Hok as [Hlo Hh]. inversion Hh; subst.
  rewrite sval_snoc_neg by assumption.
  apply shiftr_top_bit; [pose proof limb_bits_pos; lia|assumption].
Qed.

(** The limb that extends an array of the given sign. *)
Definition ext_limb (neg : bool) : Z := if neg then limb_base - 1 else 0.

Lemma ext_limb_ok neg : limb_ok (ext_limb neg).
Proof. destruct neg; simpl; auto with limbs. Qed.

Lemma js_limb_neg_bool b : js_limb (- c_bool b) = ext_limb b.
Proof.
  destruct b; cbn [c_bool ext_limb]; [|apply js_limb_small; auto with limbs].
  rewrite js_limb_eq. symmetry. pose proof limb_base_big. apply (Z.mod_unique _ _ (-1)); lia.
Qed.

Lemma js_limb_m1 : js_limb (-1) = limb_base - 1.
Proof. exact (js_limb_neg_bool true). Qed.

Lemma ext_limb_eq neg : ext_limb neg = c_bool neg * (limb_base - 1).
Proof. destruct neg; simpl; lia. Qed.

Lemma mp_val_ext t n :
  limbs_ok t ->
  mp_val (t ++ replicate n (ext_limb (sval t <? 0))) =
    sval t + c_bool (sval t <? 0) * (mp_base t * limb_base ^ Z.of_nat n).
Proof.
  intros Ht. rewrite mp_val_app. rewrite (mp_val_sval t Ht) at 1.
  destruct (sval t <? 0); cbn [ext_limb c_bool].
  - rewrite mp_val_replicate_max. ring.
  - rewrite mp_val_replicate_0. ring.
Qed.

(** Sign extension keeps the value. *)
Lemma sval_ext t n :
  limbs_ok t -> sval (t ++ replicate n (ext_limb (sval t <? 0))) = sval t.
Proof.
  intros Ht. pose proof (mp_val_ext t n Ht) as E.
  assert (mp_base (t ++ replicate n (ext_limb (sval t <? 0))) = mp_base t * limb_base ^ Z.of_nat n) as Eb
    by (rewrite mp_base_app; unfold mp_base at 2; rewrite len_replicate; reflexivity).
  apply (sval_unique _ _ (c_bool (sval t <? 0))).
  - apply limbs_ok_app. split; [exact Ht|]. apply limbs_ok_replicate, ext_limb_ok.
  - rewrite Eb. exact E.
  - rewrite Eb. pose proof (sval_range t Ht). pose proof (mp_base_pos t).
    assert (1 <= limb_base ^ Z.of_nat n) by (pose proof limb_base_big; lia).
    assert (mp_base t * 1 <= mp_base t * limb_base ^ Z.of_nat n) by (apply Z.mul_le_mono_nonneg_l; lia).
    lia.
Qed.

(** ** Redundant top limbs *)

Lemma land_1 v : Z.land v 1 = v mod 2.
Proof. apply (land_mask 1). lia. Qed.

(** The code's test recognises exactly the sign-extension limb. *)
Lemma limb_needed_spec v u :
  limb_ok v -> limb_ok u ->
  limb_needed v u = negb (v =? ext_limb (2 ^ (JS_LIMB_BITS - 1) <=? u)).
Proof.
  intros Hv Hu. unfold limb_needed. rewrite js_limb_m1, land_1.
  rewrite (shiftr_top_bit JS_LIMB_BITS u) by (try exact Hu; pose proof limb_bits_pos; lia).
  pose proof limb_base_big as HB. pose proof limb_base_half as Eh.
  assert ((limb_base - 1) mod 2 = 1) as Em.
  { rewrite Eh. symmetry. apply (Z.mod_unique _ _ (2 ^ (JS_LIMB_BITS - 1) - 1)); lia. }
  destruct (2 ^ (JS_LIMB_BITS - 1) <=? u); cbn [ext_limb c_bool];
    (destruct (Z.eq_dec v 0) as [E0|E0]; [|destruct (Z.eq_dec v (limb_base - 1)) as [E1|E1]]);
    try subst v; rewrite ?Em, ?Z.eqb_refl;
    repeat (rewrite (proj2 (Z.eqb_neq _ _)) by lia); reflexivity.
Qed.

Lemma minimal_snoc lo u v :
  limbs_ok (lo ++ [u]) -> limb_ok v ->
  (minimal ((lo ++ [u]) ++ [v]) <-> limb_needed v u = true) /\
  (limb_needed v u = false -> sval ((lo ++ [u]) ++ [v]) = sval (lo ++ [u])).
Proof.
  intros Hlu Hv. apply limbs_ok_app in Hlu as Hlu'. destruct Hlu' as [Hlo Hu1].
  inversion Hu1 as [|? ? Hu _]; subst.
  rewrite limb_needed_spec by assumption.
  rewrite <- (sval_snoc_neg lo u) by assumption.
  set (t := lo ++ [u]) in *.
  assert (sval (t ++ [v]) = sval t -> ~ minimal (t ++ [v])) as Hnm.
  { intros E [Hl|Hm].
    - rewrite length_app in Hl. unfold t in Hl. rewrite length_app in Hl. simpl in Hl. lia.
    - rewrite E, len_app in Hm. change (len [v]) with 1 in Hm.
      replace (len t + 1 - 1) with (len t) in Hm by lia. fold (mp_base t) in Hm.
      pose proof (sval_range t Hlu). lia. }
  destruct (Z.eqb_spec v (ext_limb (sval t <? 0))) as [Ev|Hne]; cbn [negb].
  - pose proof (sval_ext t 1 Hlu) as Es. cbn [replicate] in Es. rewrite <- Ev in Es.
    split; [|intros _; exact Es]. split; [intros Hm; destruct (Hnm Es Hm)|discriminate].
  - split; [|discriminate]. split; [reflexivity|]. intros _. right.
    rewrite len_app. change (len [v]) with 1. replace (len t + 1 - 1) with (len t) by lia.
    fold (mp_base t).
    assert (limbs_ok (t ++ [v])) as Htv by (apply limbs_ok_app; split; [|constructor; [|constructor]]; assumption).
    destruct (Z.lt_ge_cases (2 * sval (t ++ [v])) (- mp_base t)) as [|H1]; [left; assumption|].
    destruct (Z.lt_ge_cases (2 * sval (t ++ [v])) (mp_base t)) as [H2|]; [|right; assumption].
    exfalso. apply Hne.
    pose proof (mp_val_sval (t ++ [v]) Htv) as E. rewrite val_snoc, base_snoc in E.
    pose proof (mp_val_bounds t Hlu) as Hb. pose proof limb_base_big as HB.
    set (s := sval (t ++ [v])) in *. set (P := mp_base t) in *.
    assert (sval t = s) as ->.
    { apply (sval_unique t s (c_bool (s <? 0) * limb_base - v)); [exact Hlu|fold P; lia|fold P; lia]. }
    unfold limb_ok in Hv. destruct (Z.ltb_spec s 0); cbn [c_bool ext_limb] in *; nia.
Qed.

(** ** Normalisation *)

Lemma lookup_snoc2 (lo : list Z) u v :
  ((lo ++ [u]) ++ [v]) !!! (length lo + 1)%nat = v /\ ((lo ++ [u]) ++ [v]) !!! length lo = u.
Proof.
  split.
  - rewrite lookup_total_app_r by (rewrite length_app; simpl; lia).
    rewrite length_app. simpl. replace (length lo + 1 - (length lo + 1))%nat with 0%nat by lia. reflexivity.
  - rewrite lookup_total_app_l by (rewrite length_app; simpl; lia).
    rewrite lookup_total_app_r by lia. rewrite Nat.sub_diag. reflexivity.
Qed.

Lemma normalize_len_spec t l :
  limbs_ok (take l t) -> (1 <= l <= length t)%nat ->
  let l' := normalize_len t l in
  (1 <= l' <= l)%nat /\ sval (take l' t) = sval (take l t) /\ minimal (take l' t).
Proof.
  induction l as [|l IH]; intros Hok Hl; [lia|].
  destruct l as [|l].
  - cbn [normalize_len]. cbv zeta. repeat split; try lia. left. rewrite length_take. lia.
  - change (normalize_len t (S (S l)))
      with (if limb_needed (t !!! S l) (t !!! l) then S (S l) else normalize_len t (S l)).
    destruct (lookup_lt_is_Some_2 t l ltac:(lia)) as [u Hu].
    destruct (lookup_lt_is_Some_2 t (S l) ltac:(lia)) as [v Hv].
    rewrite (list_lookup_total_correct _ _ _ Hu), (list_lookup_total_correct _ _ _ Hv).
    rewrite (take_S_r t (S l) v Hv) in *. rewrite (take_S_r t l u Hu) in *.
    apply limbs_ok_app in Hok as Hok'. destruct Hok' as [Hlu Hv1]. inversion Hv1 as [|? ? Hvok _]; subst.
    destruct (minimal_snoc (take l t) u v Hlu Hvok) as [Hmin Hsame].
    destruct (limb_needed v u); cbv zeta.
    + repeat split; try lia.
      * rewrite (take_S_r t (S l) v Hv), (take_S_r t l u Hu). reflexivity.
      * rewrite (take_S_r t (S l) v Hv), (take_S_r t l u Hu). apply Hmin. reflexivity.
    + destruct (IH Hlu ltac:(lia)) as (H1 & H2 & H3). rewrite Hsame by reflexivity.
      repeat split; try lia; assumption.
Qed.

Lemma js_bigint_normalize1_spec a l E :
  limbs_ok (take (Z.to_nat l) (tab a)) -> 1 <= l <= bi_len a ->
  mspec (js_bigint_normalize1 a l)
    (fun r => bi_norm r /\ bi_val r = sval (take (Z.to_nat l) (tab a)) /\ bi_len r <= l) E.
Proof.
  intros Hok Hl. unfold js_bigint_normalize1, bi_len, len in *.
  destruct (normalize_len_spec (tab a) (Z.to_nat l) Hok ltac:(lia)) as (H1 & H2 & H3).
  set (l' := normalize_len (tab a) (Z.to_nat l)) in *.
  assert (bi_norm (MkBigInt (take l' (tab a))) /\
          bi_val (MkBigInt (take l' (tab a))) = sval (take (Z.to_nat l) (tab a)) /\
          Z.of_nat (length (tab (MkBigInt (take l' (tab a))))) <= l) as HQ.
  { unfold bi_norm, bi_ok, bi_val. cbn [tab]. repeat split.
    - replace (take l' (tab a)) with (take l' (take (Z.to_nat l) (tab a))); [auto with limbs|].
      rewrite take_take. f_equal. lia.
    - intros E0. apply (f_equal length) in E0. rewrite length_take in E0. simpl in E0. lia.
    - exact H3.
    - exact H2.
    - rewrite length_take. lia. }
  destruct (Z.eqb_spec (Z.of_nat l') (Z.of_nat (length (tab a)))) as [El|_].
  - apply mspec_ret. rewrite take_ge in HQ by lia. destruct a. exact HQ.
  - mstep (fun _ : bool => True); [apply mspec_try_alloc|]. intros _ _. apply mspec_ret. exact HQ.
Qed.

Lemma js_bigint_normalize_spec a E :
  bi_ok a ->
  mspec (js_bigint_normalize a)
    (fun r => bi_norm r /\ bi_val r = bi_val a /\ bi_len r <= bi_len a) E.
Proof.
  intros [Hok Hne]. unfold js_bigint_normalize.
  assert (take (Z.to_nat (bi_len a)) (tab a) = tab a) as Et
    by (unfold bi_len, len; rewrite Nat2Z.id, take_ge by lia; reflexivity).
  eapply mspec_mono; [apply js_bigint_normalize1_spec| |intros e He; exact He].
  - rewrite Et. exact Hok.
  - unfold bi_len, len. destruct (tab a); [congruence|]. simpl. lia.
  - rewrite Et. intros r Hr. exact Hr.
Qed.

Lemma js_bigint_extend_spec r op1 E :
  bi_ok r -> limb_ok op1 ->
  mspec (js_bigint_extend r op1)
    (fun r' => bi_norm r' /\ bi_val r' = sval (tab r ++ [op1]) /\ bi_len r' <= bi_len r + 1) E.
Proof.
  intros Hr Hop. destruct r as [t]. destruct Hr as [Hok Hne]. cbn [tab] in *.
  destruct (tab_snoc t Hne) as (lo & u & ->).
  destruct (minimal_snoc lo u op1 Hok Hop) as [Hmin Hsame].
  unfold js_bigint_extend. rewrite top_limb_snoc. cbn [tab].
  destruct (limb_needed op1 u) eqn:En.
  - mstep (fun _ : unit => True); [apply mspec_alloc|]. intros _ _. apply mspec_ret.
    unfold bi_norm, bi_ok, bi_val, bi_len. cbn [tab]. rewrite !len_app. repeat split.
    + apply limbs_ok_app. split; [exact Hok|]. constructor; [exact Hop|constructor].
    + intros E0. apply (f_equal length) in E0. rewrite !length_app in E0. simpl in E0. lia.
    + apply Hmin. reflexivity.
    + change (len [op1]) with 1. lia.
  - eapply mspec_mono; [apply js_bigint_normalize_spec; split; assumption| |intros e He; exact He].
    intros r (H1 & H2 & H3). rewrite Hsame by reflexivity. unfold bi_val in *. cbn [tab] in *.
    repeat split; try apply H1; [exact H2|lia].
Qed.

(** ** Allocation *)

Lemma len_fresh n : 0 <= n -> len (fresh n) = n.
Proof. intros. unfold fresh, len. rewrite length_fmap, length_seq. lia. Qed.

Lemma js_bigint_new_fits n :
  0 <= n ->
  mspec (js_bigint_new n) (fun r => len (tab r) = n /\ n <= JS_BIGINT_MAX_SIZE)
    (fun e => e = err_alloc /\ JS_BIGINT_MAX_SIZE < n).
Proof.
  intros Hn. unfold js_bigint_new. destruct (Z.ltb_spec JS_BIGINT_MAX_SIZE n).
  - apply mspec_throw. split; [reflexivity|assumption].
  - mstep (fun _ : unit => True); [apply mspec_alloc|]. intros _ _. apply mspec_ret.
    split; [apply len_fresh, Hn|assumption].
Qed.

Lemma js_bigint_new_spec n :
  0 <= n ->
  mspec (js_bigint_new n) (fun r => len (tab r) = n) (fun e => e = err_alloc /\ JS_BIGINT_MAX_SIZE < n).
Proof.
  intros Hn. eapply mspec_mono; [apply (js_bigint_new_fits n Hn)|intros r [Hr _]; exact Hr|intros e He; exact He].
Qed.

(** Overwriting a whole array. *)
Lemma blit_all (t xs : list Z) : len t = len xs -> tab_blit t 0 xs = mret xs.
Proof.
  intros Hl. rewrite <- (app_nil_l t), <- (app_nil_r t).
  rewrite (tab_blit_app [] t xs []); [rewrite app_nil_r; reflexivity|reflexivity|unfold len in *; lia].
Qed.

End BigIntValue.
