(* ===== verification/BigIntMul.v ===== *)
(** Correctness of BigInt construction, addition, subtraction, negation and
    multiplication. *)
From stdpp Require Import base tactics list numbers strings.
From Stdlib Require Import ZArith Lia.
From S2P Require Import Prelude Limbs LimbSpecs LimbDiv BigInt.

Open Scope Z_scope.

Section BigIntAdd.
Context `{LC : LimbConfig} `{FM : FreshMemory}.

(** ** Complementing an operand *)

Definition flip_limbs (neg : bool) (t : list Z) : list Z :=
  (fun x => Z.lxor x (ext_limb neg)) <$> t.

Lemma lxor_ext x neg :
  limb_ok x -> Z.lxor x (ext_limb neg) = if neg then limb_base - 1 - x else x.
Proof.
  intros Hx. destruct neg; cbn [ext_limb]; [|apply Z.lxor_0_r].
  pose proof limb_bits_pos. unfold limb_ok, limb_base in *.
  assert (forall i, 0 <= i -> Z.testbit x i = Z.testbit x i && (i <? JS_LIMB_BITS)) as Hbit.
  { intros i Hi. destruct (Z.ltb_spec i JS_LIMB_BITS); [rewrite andb_true_r; reflexivity|].
    rewrite andb_false_r, <- (Z.mod_small x (2 ^ JS_LIMB_BITS)) by lia.
    apply Z.mod_pow2_bits_high. lia. }
  replace (2 ^ JS_LIMB_BITS - 1) with (Z.ones JS_LIMB_BITS) by (rewrite Z.ones_equiv; lia).
  rewrite Z.sub_nocarry_ldiff.
  - apply Z.bits_inj'. intros i Hi. rewrite Z.lxor_spec, Z.ldiff_spec, Z.testbit_ones_nonneg by lia.
    rewrite (Hbit i Hi). destruct (Z.testbit x i), (i <? JS_LIMB_BITS); reflexivity.
  - apply Z.bits_inj'. intros i Hi. rewrite Z.ldiff_spec, Z.testbit_ones_nonneg, Z.bits_0 by lia.
    rewrite (Hbit i Hi). destruct (Z.testbit x i), (i <? JS_LIMB_BITS); reflexivity.
Qed.

Lemma flip_limbs_ok neg t : limbs_ok t -> limbs_ok (flip_limbs neg t).
Proof.
  intros Ht. apply Forall_fmap. eapply Forall_impl; [exact Ht|]. intros x Hx. cbn.
  rewrite lxor_ext by exact Hx. unfold limb_ok in *. destruct neg; lia.
Qed.

Lemma flip_limbs_val t : limbs_ok t -> mp_val (flip_limbs true t) = mp_base t - 1 - mp_val t.
Proof.
  induction 1 as [|x t Hx Ht IH]; [reflexivity|].
  cbn [flip_limbs fmap list_fmap mp_val]. fold (flip_limbs true t).
  rewrite IH, (lxor_ext x true Hx), mp_base_cons. cbn. ring.
Qed.

Lemma flip_limbs_len neg t : length (flip_limbs neg t) = length t.
Proof. apply length_fmap. Qed.

Lemma flip_false t : flip_limbs false t = t.
Proof.
  unfold flip_limbs. cbn [ext_limb]. induction t as [|x t IH]; [reflexivity|].
  cbn. rewrite Z.lxor_0_r. f_equal. exact IH.
Qed.

Lemma sval_flip neg t :
  limbs_ok t -> t <> [] -> sval (flip_limbs neg t) = if neg then - sval t - 1 else sval t.
Proof.
  intros Ht Hne. destruct neg; [|rewrite flip_false; reflexivity].
  assert (mp_base (flip_limbs true t) = mp_base t) as Eb by (apply mp_base_length, flip_limbs_len).
  pose proof (mp_val_sval t Ht) as Ev. pose proof (sval_range t Ht).
  apply (sval_unique _ _ (1 - c_bool (sval t <? 0))).
  - apply flip_limbs_ok, Ht.
  - rewrite Eb, flip_limbs_val by exact Ht. rewrite Ev. ring.
  - rewrite Eb. assert (exists k, mp_base t = 2 * k) as [k Ek].
    { destruct t as [|x t]; [congruence|]. rewrite mp_base_cons, limb_base_half.
      exists (2 ^ (JS_LIMB_BITS - 1) * mp_base t). ring. }
    lia.
Qed.

Lemma flip_neg neg t :
  limbs_ok t -> t <> [] -> (sval (flip_limbs neg t) <? 0) = xorb (sval t <? 0) neg.
Proof.
  intros Ht Hne. rewrite sval_flip by assumption.
  destruct neg, (Z.ltb_spec (sval t) 0); cbn [xorb]; [apply Z.ltb_ge; lia|apply Z.ltb_lt; lia|reflexivity..].
Qed.

Lemma ext_limb_xor x neg : Z.lxor (ext_limb x) (ext_limb neg) = ext_limb (xorb x neg).
Proof.
  rewrite lxor_ext by apply ext_limb_ok. destruct x, neg; cbn; lia.
Qed.

(** ** The carry chain *)

Lemma mp_add_app a1 a2 b1 b2 c :
  length a1 = length b1 ->
  mp_add (a1 ++ a2) (b1 ++ b2) c =
    (let '(r1, c1) := mp_add a1 b1 c in
     let '(r2, c2) := mp_add a2 b2 c1 in (r1 ++ r2, c2)).
Proof.
  revert b1 c. induction a1 as [|x a1 IH]; intros [|y b1] c Hl; try discriminate.
  - cbn. destruct (mp_add a2 b2 c). reflexivity.
  - cbn [app mp_add]. destruct (ADDC x y c) as [r c1]. rewrite IH by (simpl in Hl; lia).
    destruct (mp_add a1 b1 c1) as [r1 c2]. destruct (mp_add a2 b2 c2). reflexivity.
Qed.

Lemma mp_add_length a b c : length a = length b -> length (fst (mp_add a b c)) = length a.
Proof.
  revert b c. induction a as [|x a IH]; intros [|y b] c Hl; try discriminate; [reflexivity|].
  cbn [mp_add]. destruct (ADDC x y c) as [r c1]. specialize (IH b c1 ltac:(simpl in Hl; lia)).
  destruct (mp_add a b c1). cbn in *. lia.
Qed.

(** Adding two sign-extended arrays and extending the sum by one more limb gives
    the exact sum of the values. *)
Lemma sum_extended t1 t2 n1 n2 c :
  limbs_ok t1 -> limbs_ok t2 -> 0 <= c <= 1 -> (length t1 + n1 = length t2 + n2)%nat ->
  let s1 := ext_limb (sval t1 <? 0) in
  let s2 := ext_limb (sval t2 <? 0) in
  let '(r, carry) := mp_add (t1 ++ replicate n1 s1) (t2 ++ replicate n2 s2) c in
  limbs_ok r /\ length r = (length t1 + n1)%nat /\
  sval (r ++ [js_limb (s1 + s2 + carry)]) = sval t1 + sval t2 + c.
Proof.
  intros H1 H2 Hc Hl. cbv zeta.
  pose proof (mp_val_ext t1 n1 H1) as E1. pose proof (mp_val_ext t2 n2 H2) as E2.
  set (s1 := ext_limb (sval t1 <? 0)) in *. set (s2 := ext_limb (sval t2 <? 0)) in *.
  assert (limbs_ok (t1 ++ replicate n1 s1)) as Ho1
    by (apply limbs_ok_app; split; [exact H1|apply limbs_ok_replicate, ext_limb_ok]).
  assert (limbs_ok (t2 ++ replicate n2 s2)) as Ho2
    by (apply limbs_ok_app; split; [exact H2|apply limbs_ok_replicate, ext_limb_ok]).
  pose proof (mp_add_spec _ _ c Ho1 Ho2 ltac:(rewrite !length_app, !length_replicate; lia) Hc) as Hs.
  assert (mp_base (t1 ++ replicate n1 s1) = mp_base t1 * limb_base ^ Z.of_nat n1) as B1
    by (rewrite mp_base_app; unfold mp_base at 2; rewrite len_replicate; reflexivity).
  assert (mp_base (t2 ++ replicate n2 s2) = mp_base t2 * limb_base ^ Z.of_nat n2) as B2
    by (rewrite mp_base_app; unfold mp_base at 2; rewrite len_replicate; reflexivity).
  assert (mp_base (t1 ++ replicate n1 s1) = mp_base (t2 ++ replicate n2 s2)) as B12
    by (apply mp_base_length; rewrite !length_app, !length_replicate; lia).
  pose proof (sval_range _ Ho1) as R1. pose proof (sval_range _ Ho2) as R2.
  rewrite (sval_ext t1 n1 H1 : sval (t1 ++ replicate n1 s1) = _) in R1.
  rewrite (sval_ext t2 n2 H2 : sval (t2 ++ replicate n2 s2) = _) in R2.
  rewrite <- B12 in R2. rewrite <- B1 in E1. rewrite <- B2, <- B12 in E2.
  destruct (mp_add (t1 ++ replicate n1 s1) (t2 ++ replicate n2 s2) c) as [r carry].
  destruct Hs as (Hr & Hlen & Hcy & Ev).
  set (P := mp_base (t1 ++ replicate n1 s1)) in *.
  assert (mp_base r = P) as Br by (apply mp_base_length; exact Hlen).
  split; [exact Hr|]. split; [rewrite Hlen, length_app, length_replicate; lia|].
  pose proof limb_base_big as HB.
  set (v := s1 + s2 + carry) in *.
  apply (sval_unique _ _ ((c_bool (sval t1 <? 0) + c_bool (sval t2 <? 0)) - v / limb_base)).
  - apply limbs_ok_app. split; [exact Hr|]. constructor; [apply js_limb_ok|constructor].
  - rewrite val_snoc, base_snoc, Br, js_limb_eq, Z.mod_eq by lia.
    assert (P * v = P * ((c_bool (sval t1 <? 0) + c_bool (sval t2 <? 0)) * (limb_base - 1) + carry))
      by (unfold v, s1, s2; rewrite !ext_limb_eq; ring).
    lia.
  - rewrite base_snoc, Br.
    assert (P * 4 <= P * limb_base) by (apply Z.mul_le_mono_nonneg_l; pose proof (mp_base_pos r); lia).
    assert (1 <= P) by (pose proof (mp_base_pos r); lia). lia.
Qed.

(** ** Constructors *)

Lemma sval_one x : sval [js_limb x] = js_slimb x.
Proof.
  unfold sval, js_slimb, swrap, js_limb, wrap. pose proof limb_bits_pos.
  rewrite mp_base_cons. change (mp_base []) with 1. cbn [mp_val].
  rewrite Z.mul_0_r, Z.add_0_r, Z.mul_1_r. pose proof limb_base_half as Eh. unfold limb_base in *.
  set (h := 2 ^ (JS_LIMB_BITS - 1)) in *. rewrite Eh.
  pose proof (Z_div_mod_eq_full x (2 * h)) as Ex.
  assert (0 < h) by (unfold h; lia).
  pose proof (Z.mod_pos_bound x (2 * h) ltac:(lia)) as Hx.
  destruct (Z.leb_spec (2 * h) (2 * (x mod (2 * h)))).
  - replace ((x + h) mod (2 * h)) with (x mod (2 * h) - h); [lia|].
    apply (Z.mod_unique _ _ (x / (2 * h) + 1)); lia.
  - replace ((x + h) mod (2 * h)) with (x mod (2 * h) + h); [lia|].
    apply (Z.mod_unique _ _ (x / (2 * h))); lia.
Qed.

Lemma bi_norm_one x : bi_norm (MkBigInt [js_limb x]).
Proof.
  repeat split; cbn [tab]; try discriminate.
  - constructor; [apply js_limb_ok|constructor].
  - left. reflexivity.
Qed.

Lemma bi_norm_one_limb x : limb_ok x -> bi_norm (MkBigInt [x]).
Proof. intros Hx. rewrite <- (js_limb_small x Hx). apply bi_norm_one. Qed.

Lemma js_bigint_set_si_spec x :
  - 2 ^ (JS_LIMB_BITS - 1) <= x < 2 ^ (JS_LIMB_BITS - 1) ->
  bi_norm (js_bigint_set_si x) /\ bi_val (js_bigint_set_si x) = x.
Proof.
  intros Hx. split; [apply bi_norm_one|]. unfold bi_val, js_bigint_set_si. cbn [tab].
  rewrite sval_one. apply swrap_small; [pose proof limb_bits_pos; lia|exact Hx].
Qed.

Lemma fresh_one (r : JSBigInt) : len (tab r) = 1 -> exists x, tab r = [x].
Proof.
  unfold len. destruct (tab r) as [|x [|? ?]]; simpl; try lia. eauto.
Qed.

Lemma max_size_big : 16384 <= JS_BIGINT_MAX_SIZE.
Proof. unfold JS_BIGINT_MAX_SIZE. destruct limb_bits_cases as [-> | ->]; vm_compute; discriminate. Qed.

Lemma js_bigint_new_si_spec x E :
  mspec (js_bigint_new_si x) (fun r => bi_norm r /\ bi_val r = js_slimb x /\ bi_len r = 1) E.
Proof.
  unfold js_bigint_new_si. eapply mspec_bind.
  { eapply mspec_mono; [apply (js_bigint_new_spec 1); lia|intros r Hr; exact Hr|].
    intros e [-> Hm]. pose proof max_size_big. lia. }
  intros r Hr. destruct (fresh_one r Hr) as [y ->].
  rewrite (tab_set_app [] y (js_limb x) [] 0 eq_refl : tab_set [y] 0 (js_limb x) = mret [js_limb x]), ret_bind.
  apply mspec_ret. repeat split; try apply bi_norm_one. apply sval_one.
Qed.

Lemma fresh_two (r : JSBigInt) : len (tab r) = 2 -> exists x y, tab r = [x; y].
Proof.
  unfold len. destruct (tab r) as [|x [|y [|? ?]]]; simpl; try lia. eauto.
Qed.

(** Two limbs hold a double limb. *)
Lemma sval_two x :
  - (limb_base * limb_base) <= 2 * x < limb_base * limb_base ->
  sval [js_limb x; js_limb (Z.shiftr x JS_LIMB_BITS)] = x.
Proof.
  intros Hx. pose proof limb_base_big as HB.
  apply (sval_unique _ _ (- (x / limb_base / limb_base))).
  - constructor; [apply js_limb_ok|]. constructor; [apply js_limb_ok|constructor].
  - rewrite shiftr_limb, !js_limb_eq, !mp_base_cons. change (mp_base []) with 1. cbn [mp_val].
    rewrite !Z.mod_eq by lia. ring.
  - rewrite !mp_base_cons. change (mp_base []) with 1. lia.
Qed.

(** [js_bigint_new_di] makes a normalised BigInt of any double limb. *)
Lemma js_bigint_new_di_spec x E :
  - (limb_base * limb_base) <= 2 * x < limb_base * limb_base ->
  mspec (js_bigint_new_di x) (fun r => bi_norm r /\ bi_val r = x) E.
Proof.
  intros Hx. unfold js_bigint_new_di. pose proof max_size_big as Hms.
  destruct (Z.eqb_spec x (js_slimb x)) as [Ex|Hne]; eapply mspec_bind.
  - eapply mspec_mono; [apply (js_bigint_new_spec 1); lia|intros r Hr; exact Hr|].
    intros e [-> Hm]. lia.
  - intros r Hr. destruct (fresh_one r Hr) as [y ->].
    rewrite (tab_set_app [] y (js_limb x) [] 0 eq_refl : tab_set [y] 0 (js_limb x) = mret [js_limb x]), ret_bind.
    apply mspec_ret. split; [apply bi_norm_one|]. unfold bi_val. cbn [tab]. rewrite sval_one. congruence.
  - eapply mspec_mono; [apply (js_bigint_new_spec 2); lia|intros r Hr; exact Hr|].
    intros e [-> Hm]. lia.
  - intros r Hr. destruct (fresh_two r Hr) as (y & z & ->). cbv beta in *.
    rewrite (tab_set_app [] y (js_limb x) [z] 0 eq_refl
             : tab_set [y; z] 0 (js_limb x) = mret [js_limb x; z]), ret_bind.
    rewrite (tab_set_app [js_limb x] z (js_limb (Z.shiftr x JS_LIMB_BITS)) [] 1 eq_refl
             : tab_set [js_limb x; z] 1 _ = mret [js_limb x; js_limb (Z.shiftr x JS_LIMB_BITS)]), ret_bind.
    apply mspec_ret. unfold bi_val. cbn [tab]. rewrite (sval_two x Hx).
    split; [|reflexivity]. repeat split; cbn [tab]; try discriminate.
    + constructor; [apply js_limb_ok|]. constructor; [apply js_limb_ok|constructor].
    + right. rewrite (sval_two x Hx). change (len _ - 1) with 1. rewrite Z.pow_1_r.
      unfold js_slimb in Hne. pose proof limb_bits_pos.
      destruct (Z.lt_ge_cases (2 * x) (- limb_base)); [left; assumption|].
      destruct (Z.lt_ge_cases (2 * x) limb_base); [|right; assumption].
      exfalso. apply Hne. symmetry. pose proof limb_base_half. apply swrap_small; lia.
Qed.

(** ** Addition *)

(** A slice of a prefix, or of the rest. *)
Lemma slice_prefix (t : list Z) n :
  0 <= n <= len t -> tab_slice t 0 n = mret (take (Z.to_nat n) t).
Proof.
  intros Hn. rewrite <- (take_drop (Z.to_nat n) t) at 1.
  apply (tab_slice_app []); [reflexivity|]. unfold len in *. rewrite length_take. lia.
Qed.

Lemma slice_suffix (t : list Z) n m :
  0 <= n <= len t -> m = len t - n -> tab_slice t n m = mret (drop (Z.to_nat n) t).
Proof.
  intros Hn ->. rewrite <- (take_drop (Z.to_nat n) t) at 1.
  rewrite <- (app_nil_r (drop (Z.to_nat n) t)) at 1.
  apply tab_slice_app; unfold len in *; [rewrite length_take|rewrite length_drop]; lia.
Qed.

(** Writing a prefix, then the rest. *)
Lemma blit_prefix (t r1 : list Z) :
  len r1 <= len t -> tab_blit t 0 r1 = mret (r1 ++ drop (length r1) t).
Proof.
  intros Hl. rewrite <- (take_drop (length r1) t) at 1.
  apply (tab_blit_app []); [reflexivity|]. unfold len in *. rewrite length_take. lia.
Qed.

Lemma blit_suffix (r1 w r2 : list Z) n :
  length w = length r2 -> n = len r1 -> tab_blit (r1 ++ w) n r2 = mret (r1 ++ r2).
Proof.
  intros Hl ->. rewrite <- (app_nil_r w). rewrite tab_blit_app by (try reflexivity; lia).
  rewrite app_nil_r. reflexivity.
Qed.

(** What the three loops of [js_bigint_add] leave in the result array. *)
Definition add_limbs (a b : list Z) (neg : bool) : list Z * Z :=
  let n2 := Nat.max (length a) (length b) in
  mp_add (a ++ replicate (n2 - length a) (ext_limb (sval a <? 0)))
         (flip_limbs neg b ++
          replicate (n2 - length b) (ext_limb (sval (flip_limbs neg b) <? 0)))
         (c_bool neg).


Lemma js_bigint_add_loops a b neg r {R} (k : list Z * Z -> M R) :
  bi_ok a -> bi_ok b -> len r = Z.max (bi_len a) (bi_len b) ->
  let n1 := Z.min (bi_len a) (bi_len b) in
  let n2 := Z.max (bi_len a) (bi_len b) in
  let mask := ext_limb neg in
  let a_sign := ext_limb (bi_val a <? 0) in
  let b_sign := ext_limb (sval (flip_limbs neg (tab b)) <? 0) in
  (op1 ← tab_slice (tab a) 0 n1;
   op2 ← tab_slice (tab b) 0 n1;
   let '(rs, carry) := mp_add op1 ((fun x => Z.lxor x mask) <$> op2) (c_bool neg) in
   t ← tab_blit r 0 rs;
   tc ← (if bi_len b <? bi_len a then
           op1 ← tab_slice (tab a) n1 (n2 - n1);
           let '(rs, carry) := mp_add op1 (replicate (length op1) b_sign) carry in
           t ← tab_blit t n1 rs; mret (t, carry)
         else if bi_len a <? bi_len b then
           op2 ← tab_slice (tab b) n1 (n2 - n1);
           let '(rs, carry) :=
             mp_add (replicate (length op2) a_sign) ((fun x => Z.lxor x mask) <$> op2) carry in
           t ← tab_blit t n1 rs; mret (t, carry)
         else mret (t, carry));
   k tc) = k (add_limbs (tab a) (tab b) neg).
Proof.
  intros [Ha Hna] [Hb Hnb] Hr. cbv zeta. unfold bi_len, bi_val in *.
  set (ta := tab a) in *. set (tb := tab b) in *. unfold add_limbs.
  rewrite !slice_prefix by (unfold len; lia). rewrite !ret_bind.
  set (n1 := Z.to_nat (Z.min (len ta) (len tb))).
  fold (flip_limbs neg (take n1 tb)).
  pose proof (mp_add_length (take n1 ta) (flip_limbs neg (take n1 tb)) (c_bool neg)
      ltac:(rewrite flip_limbs_len, !length_take; unfold n1, len; lia)) as L1.
  rewrite length_take in L1.
  assert (n1 <= length ta /\ n1 <= length tb)%nat as [Hn1 Hn2] by (unfold n1, len; lia).
  set (bs := ext_limb (sval (flip_limbs neg tb) <? 0)) in *.
  set (as_ := ext_limb (sval ta <? 0)) in *.
  assert (flip_limbs neg tb = flip_limbs neg (take n1 tb) ++ flip_limbs neg (drop n1 tb)) as Eb
    by (unfold flip_limbs; rewrite <- fmap_app, take_drop; reflexivity).
  set (m := (Nat.max (length ta) (length tb))).
  replace (ta ++ replicate (m - length ta) as_) with ((take n1 ta ++ drop n1 ta) ++ replicate (m - length ta) as_)
    by (rewrite take_drop; reflexivity).
  rewrite Eb.
  rewrite <- !app_assoc, mp_add_app by (rewrite flip_limbs_len, !length_take; lia).
  destruct (mp_add (take n1 ta) (flip_limbs neg (take n1 tb)) (c_bool neg)) as [r1 c1].
  cbn [fst] in L1. rewrite blit_prefix by (unfold len in *; lia). rewrite ret_bind.
  destruct (Z.ltb_spec (len tb) (len ta)) as [Hlt|Hge];
    [|destruct (Z.ltb_spec (len ta) (len tb)) as [Hlt|Hge2]]; unfold len in *.
  - rewrite slice_suffix by (unfold len; lia). fold n1.
    replace (m - length ta)%nat with 0%nat by lia.
    rewrite (drop_ge tb) by (unfold n1; lia). cbn [replicate flip_limbs fmap list_fmap app].
    rewrite app_nil_r, ret_bind.
    assert (length (drop n1 ta) = (m - length tb)%nat) as Ed by (rewrite length_drop; unfold n1, m; lia).
    rewrite Ed.
    pose proof (mp_add_length (drop n1 ta) (replicate (m - length tb) bs) c1
      ltac:(rewrite length_replicate; lia)) as L2.
    destruct (mp_add (drop n1 ta) (replicate (m - length tb) bs) c1) as [r2 c2]. cbn [fst] in L2.
    rewrite blit_suffix by (unfold len; rewrite ?length_drop; lia). reflexivity.
  - rewrite slice_suffix by (unfold len; lia). fold n1.
    replace (m - length tb)%nat with 0%nat by lia.
    rewrite (drop_ge ta) by (unfold n1; lia). cbn [replicate app].
    rewrite app_nil_r, ret_bind. fold (flip_limbs neg (drop n1 tb)).
    assert (length (drop n1 tb) = (m - length ta)%nat) as Ed by (rewrite length_drop; unfold n1, m; lia).
    rewrite Ed.
    pose proof (mp_add_length (replicate (m - length ta) as_) (flip_limbs neg (drop n1 tb)) c1
      ltac:(rewrite length_replicate, flip_limbs_len; lia)) as L2.
    destruct (mp_add (replicate (m - length ta) as_) (flip_limbs neg (drop n1 tb)) c1) as [r2 c2].
    cbn [fst] in L2. rewrite length_replicate in L2.
    rewrite blit_suffix by (unfold len; rewrite ?length_drop; lia). reflexivity.
  - replace (m - length ta)%nat with 0%nat by lia. replace (m - length tb)%nat with 0%nat by lia.
    rewrite (drop_ge ta), (drop_ge tb) by (unfold n1; lia). cbn [replicate flip_limbs fmap list_fmap app mp_add].
    rewrite (drop_ge r) by lia. rewrite ret_bind. reflexivity.
Qed.

Lemma js_bigint_add_spec a b neg :
  bi_ok a -> bi_ok b ->
  mspec (js_bigint_add a b (c_bool neg))
    (fun r => bi_norm r /\ bi_val r = (if neg then bi_val a - bi_val b else bi_val a + bi_val b) /\
              bi_len r <= Z.max (bi_len a) (bi_len b) + 1)
    (fun e => e = err_alloc /\ JS_BIGINT_MAX_SIZE < Z.max (bi_len a) (bi_len b)).
Proof.
  intros Ha Hb. unfold js_bigint_add. cbv zeta.
  rewrite !(js_bigint_sign_spec _ Ha), !(js_bigint_sign_spec _ Hb), !js_limb_neg_bool, ext_limb_xor.
  assert (xorb (bi_val b <? 0) neg = (sval (flip_limbs neg (tab b)) <? 0)) as ->
    by (symmetry; apply flip_neg; apply Hb).
  eapply mspec_bind; [apply js_bigint_new_spec; unfold bi_len; pose proof (len_nonneg (tab a)); lia|].
  intros r Hr. cbv beta in Hr.
  pose proof (js_bigint_add_loops a b neg (tab r)
    (fun tc => let '(t, carry) := tc in
       js_bigint_extend (MkBigInt t)
         (js_limb (ext_limb (bi_val a <? 0) + ext_limb (sval (flip_limbs neg (tab b)) <? 0) + carry)))
    Ha Hb Hr) as E. cbv zeta in E. rewrite E. clear E.
  pose proof (sum_extended (tab a) (flip_limbs neg (tab b))
    (Nat.max (length (tab a)) (length (tab b)) - length (tab a))
    (Nat.max (length (tab a)) (length (tab b)) - length (tab b)) (c_bool neg)
    (proj1 Ha) (flip_limbs_ok neg _ (proj1 Hb)) (c_bool_bounds neg)
    ltac:(rewrite flip_limbs_len; lia)) as Hs. cbv zeta in Hs.
  fold (add_limbs (tab a) (tab b) neg) in Hs.
  destruct (add_limbs (tab a) (tab b) neg) as [t carry]. destruct Hs as (Ht & Hl & Ev).
  rewrite sval_flip in Ev at 2 by apply Hb.
  assert (1 <= length (tab a))%nat by (destruct Ha as [_ Ha]; destruct (tab a); [congruence|simpl; lia]).
  eapply mspec_mono; [apply js_bigint_extend_spec| |].
  - split; [exact Ht|]. cbn [tab]. intros E0. rewrite E0 in Hl. simpl in Hl. lia.
  - apply js_limb_ok.
  - intros r' (H1 & H2 & H3). unfold bi_val in *. cbn [tab] in *. repeat split; try apply H1.
    + rewrite H2, Ev. destruct neg; cbn; lia.
    + unfold bi_len, len in *. cbn [tab] in *. lia.
  - intros e He. exact He.
Qed.

Lemma js_bigint_neg_spec a :
  bi_ok a ->
  mspec (js_bigint_neg a)
    (fun r => bi_norm r /\ bi_val r = - bi_val a /\ bi_len r <= bi_len a + 1)
    (fun e => e = err_alloc /\ JS_BIGINT_MAX_SIZE < bi_len a).
Proof.
  intros Ha. unfold js_bigint_neg.
  destruct (js_bigint_set_si_spec 0) as [H0 E0]; [pose proof limb_half_big; lia|].
  assert (1 <= bi_len a) by (destruct Ha as [_ Ha]; unfold bi_len, len; destruct (tab a); [congruence|simpl; lia]).
  change 1 with (c_bool true). eapply mspec_mono; [apply js_bigint_add_spec; [apply H0|exact Ha]| |].
  - intros r (H1 & H2 & H3). rewrite E0 in H2. change (bi_len (js_bigint_set_si 0)) with 1 in H3.
    repeat split; try apply H1; [lia|cbn [c_bool] in *; lia].
  - intros e [-> He]. change (bi_len (js_bigint_set_si 0)) with 1 in He. split; [reflexivity|lia].
Qed.

End BigIntAdd.

Section BigIntMul.
Context `{LC : LimbConfig} `{FM : FreshMemory}.

Lemma bi_len_pos a : bi_ok a -> 1 <= bi_len a.
Proof.
  intros [_ Ha]. unfold bi_len, len. destruct (tab a); [congruence|]. simpl. lia.
Qed.

Lemma mp_base_bi a : mp_base (tab a) = limb_base ^ bi_len a.
Proof. reflexivity. Qed.

(** ** Multiplication *)

(** Subtracting [y] from the high limbs, the borrow out dropped. *)
Lemma sub_high t x y :
  limbs_ok t -> limbs_ok y -> length t = (length x + length y)%nat ->
  exists t', (w ← tab_slice t (len x) (len y);
              tab_blit t (len x) (fst (mp_sub w y 0))) = (mret t' : M (list Z)) /\
    limbs_ok t' /\ length t' = length t /\
    exists k, mp_val t' = mp_val t - mp_base x * mp_val y + k * mp_base t.
Proof.
  intros Ht Hy Hl. rewrite slice_suffix by (unfold len; lia). rewrite ret_bind.
  unfold len. rewrite Nat2Z.id.
  assert (length (drop (length x) t) = length y) as Hld by (rewrite length_drop; lia).
  pose proof (mp_sub_spec (drop (length x) t) y 0 (limbs_ok_drop _ _ Ht) Hy Hld ltac:(lia)) as Hs.
  destruct (mp_sub (drop (length x) t) y 0) as [w k]. destruct Hs as (Hw & Hlw & Hk & Ev). cbn [fst].
  exists (take (length x) t ++ w).
  rewrite <- (take_drop (length x) t) at 1.
  rewrite blit_suffix by (unfold len; rewrite ?length_take; lia).
  split; [reflexivity|]. split; [apply limbs_ok_app; auto with limbs|].
  split; [rewrite length_app, length_take; lia|].
  exists k. rewrite <- (take_drop (length x) t) at 2 3.
  rewrite !mp_val_app, mp_base_app.
  rewrite (mp_base_length (take (length x) t) x) by (rewrite length_take; lia).
  set (v := mp_val (drop (length x) t)) in *. set (P := mp_base (drop (length x) t)) in *.
  assert (mp_base x * (mp_val w - P * k) = mp_base x * (v - mp_val y)) by (rewrite Ev; ring). lia.
Qed.

Lemma sub_high_if (c : bool) t x y :
  limbs_ok t -> limbs_ok y -> length t = (length x + length y)%nat ->
  exists t', (if negb (c_bool c =? 0) then
                w ← tab_slice t (len x) (len y);
                tab_blit t (len x) (fst (mp_sub w y 0))
              else mret t) = (mret t' : M (list Z)) /\
    limbs_ok t' /\ length t' = length t /\
    exists k, mp_val t' = mp_val t - c_bool c * (mp_base x * mp_val y) + k * mp_base t.
Proof.
  intros Ht Hy Hl. destruct c; cbn [c_bool Z.eqb negb].
  - destruct (sub_high t x y Ht Hy Hl) as (t' & E & H1 & H2 & k & H3).
    exists t'. repeat split; try assumption. exists k. lia.
  - exists t. repeat split; try assumption. exists 0. lia.
Qed.

Lemma js_bigint_mul_spec a b :
  bi_ok a -> bi_ok b ->
  mspec (js_bigint_mul a b)
    (fun r => bi_norm r /\ bi_val r = bi_val a * bi_val b /\ bi_len r <= bi_len a + bi_len b)
    (fun e => e = err_alloc /\ JS_BIGINT_MAX_SIZE < bi_len a + bi_len b).
Proof.
  intros Ha Hb. unfold js_bigint_mul.
  rewrite !(js_bigint_sign_spec _ Ha), !(js_bigint_sign_spec _ Hb).
  pose proof (bi_len_pos a Ha). pose proof (bi_len_pos b Hb).
  eapply mspec_bind; [apply js_bigint_new_spec; lia|]. intros r Hr. cbv beta zeta in *.
  destruct Ha as [Ha Hna], Hb as [Hb Hnb]. unfold bi_len, bi_val in *.
  set (ta := tab a) in *. set (tb := tab b) in *.
  destruct (mp_mul_basecase_spec (tab r) ta tb Ha Hb Hnb) as (Ht & Hl & Ev); [unfold len in *; lia|].
  set (t := mp_mul_basecase (tab r) ta tb) in *.
  assert (length t = (length ta + length tb)%nat) as Hlt by (unfold len in *; lia).
  destruct (sub_high_if (sval ta <? 0) t ta tb Ht Hb Hlt) as (t1 & E1 & Ht1 & Hl1 & k1 & V1).
  rewrite E1, ret_bind.
  destruct (sub_high_if (sval tb <? 0) t1 tb ta Ht1 Ha ltac:(lia)) as (t2 & E2 & Ht2 & Hl2 & k2 & V2).
  rewrite E2, ret_bind.
  assert (mp_base t2 = mp_base ta * mp_base tb) as Bt2
    by (rewrite <- mp_base_app; apply mp_base_length; rewrite length_app; lia).
  assert (mp_base t1 = mp_base ta * mp_base tb) as Bt1
    by (rewrite <- mp_base_app; apply mp_base_length; rewrite length_app; lia).
  assert (mp_base t = mp_base ta * mp_base tb) as Bt
    by (rewrite <- mp_base_app; apply mp_base_length; rewrite length_app; lia).
  assert (sval t2 = sval ta * sval tb) as Es.
  { pose proof (mp_val_sval ta Ha) as Ea. pose proof (mp_val_sval tb Hb) as Eb.
    pose proof (sval_range ta Ha) as Ra. pose proof (sval_range tb Hb) as Rb.
    pose proof (mp_base_pos ta). pose proof (mp_base_pos tb).
    set (ca := c_bool (sval ta <? 0)) in *. set (cb := c_bool (sval tb <? 0)) in *.
    set (Pa := mp_base ta) in *. set (Pb := mp_base tb) in *.
    apply (sval_unique _ _ (k1 + k2 - ca * cb)); [exact Ht2| |].
    - rewrite V2, V1, Ev, Bt1, Bt2, Bt, Ea, Eb. ring.
    - rewrite Bt2.
      assert (Z.abs (sval ta) * Z.abs (sval tb) * 4 <= Pa * Pb).
      { assert (0 <= (2 * Z.abs (sval ta)) * (2 * Z.abs (sval tb)) <= Pa * Pb)
          by (apply mul_bounds; lia). lia. }
      assert (1 * 1 <= Pa * Pb) by (apply Z.mul_le_mono_nonneg; lia).
      rewrite <- Z.abs_mul in *. lia. }
  eapply mspec_mono; [apply js_bigint_normalize_spec| |intros e He; exact He].
  - split; [exact Ht2|]. cbn [tab]. intros E0. rewrite E0 in *. simpl in *. unfold len in *. lia.
  - intros r' (H1 & H2 & H3). unfold bi_val, bi_len in *. cbn [tab] in *.
    repeat split; try apply H1; [congruence|unfold len in *; lia].
Qed.

(** ** Division: preparing the operands *)

Lemma abs_limbs_spec a :
  bi_ok a ->
  let t := abs_limbs (js_bigint_sign a) (tab a) in
  limbs_ok t /\ length t = length (tab a) /\ mp_val t = Z.abs (bi_val a).
Proof.
  intros Ha. cbv zeta. rewrite (js_bigint_sign_spec a Ha). destruct Ha as [Ha Hne].
  unfold abs_limbs, bi_val. pose proof (mp_val_sval (tab a) Ha) as Ev.
  pose proof (mp_val_bounds (tab a) Ha) as Hb.
  destruct (Z.ltb_spec (sval (tab a)) 0) as [Hs|Hs]; cbn [c_bool Z.eqb negb] in *.
  - pose proof (mp_neg_spec (tab a) Ha) as Hn. destruct (mp_neg (tab a)) as [r c].
    destruct Hn as (H1 & H2 & H3). cbn [fst]. repeat split; [exact H1|exact H2|].
    rewrite H3. pose proof (sval_range (tab a) Ha).
    symmetry. apply (Z.mod_unique _ _ (-1)); lia.
  - repeat split; [exact Ha|]. lia.
Qed.

Lemma strip_zeros_spec t n :
  (1 <= n <= length t)%nat ->
  let m := strip_zeros t n in
  (1 <= m <= n)%nat /\ mp_val (take m t) = mp_val (take n t) /\
  (m = 1%nat \/ t !!! (m - 1)%nat <> 0).
Proof.
  induction n as [|n IH]; intros Hn; [lia|].
  destruct n as [|n]; [cbn; auto with lia|].
  change (strip_zeros t (S (S n))) with
    (if t !!! S n =? 0 then strip_zeros t (S n) else S (S n)).
  cbv zeta. destruct (lookup_lt_is_Some_2 t (S n) ltac:(lia)) as [v Hv].
  rewrite (list_lookup_total_correct _ _ _ Hv).
  destruct (Z.eqb_spec v 0) as [->|Hne].
  - destruct (IH ltac:(lia)) as (H1 & H2 & H3). cbv zeta in *.
    split; [lia|]. split; [|exact H3].
    rewrite H2, (take_S_r t (S n) 0 Hv), mp_val_app. cbn [mp_val]. lia.
  - split; [lia|]. split; [reflexivity|]. right.
    replace (S (S n) - 1)%nat with (S n) by lia.
    rewrite (list_lookup_total_correct _ _ _ Hv). exact Hne.
Qed.

Lemma js_limb_clz_spec v :
  limb_ok v -> v <> 0 ->
  let s := js_limb_clz v in
  0 <= s < JS_LIMB_BITS /\ limb_base <= 2 * (v * 2 ^ s) < 2 * limb_base.
Proof.
  intros Hv Hne. cbv zeta. unfold limb_ok in Hv.
  assert (js_limb_clz v = clz JS_LIMB_BITS v) as ->.
  { unfold js_limb_clz, clz32, clz64. destruct limb_bits_cases as [E|E]; rewrite E; reflexivity. }
  destruct (clz_spec JS_LIMB_BITS v) as [H1 H2]; [unfold limb_base in *; lia|].
  pose proof limb_base_half. unfold limb_base in *. lia.
Qed.

Lemma top_bit_normalized lo h :
  limbs_ok (lo ++ [h]) -> mp_base (lo ++ [h]) <= 2 * mp_val (lo ++ [h]) ->
  norm_divisor (lo ++ [h]) lo h.
Proof.
  intros Hok Hv. apply limbs_ok_app in Hok as Hok'. destruct Hok' as [Hlo Hh]. inversion Hh; subst.
  pose proof (proj2 (sval_neg_iff _ Hok) Hv) as Hs. apply Z.ltb_lt in Hs.
  rewrite sval_snoc_neg in Hs by assumption. apply Z.leb_le in Hs.
  repeat split; [exact Hok|exact Hs|]. unfold limb_ok in *. lia.
Qed.

(** Shifting the divisor left until its top bit is set loses no bit. *)
Lemma shift_divisor t lo h s :
  t = lo ++ [h] -> limbs_ok t -> h <> 0 -> s = js_limb_clz h ->
  let t' := if negb (s =? 0) then fst (mp_shl t s) else t in
  exists blo b1, norm_divisor t' blo b1 /\ length t' = length t /\ mp_val t' = mp_val t * 2 ^ s.
Proof.
  intros -> Hok Hh ->. apply limbs_ok_app in Hok as Hok'. destruct Hok' as [Hlo Hh1]. inversion Hh1; subst.
  destruct (js_limb_clz_spec h) as [Hs Hb]; [assumption..|].
  set (s := js_limb_clz h) in *. cbv zeta.
  pose proof (mp_val_bounds lo Hlo) as Vlo.
  assert (mp_base (lo ++ [h]) <= 2 * (mp_val (lo ++ [h]) * 2 ^ s) < 2 * mp_base (lo ++ [h])) as Hv.
  { rewrite val_snoc, base_snoc. set (P := mp_base lo) in *. set (v := mp_val lo) in *.
    assert (0 < 2 ^ s) by lia.
    assert (P * limb_base <= P * (2 * (h * 2 ^ s))) by (apply Z.mul_le_mono_nonneg_l; lia).
    assert (0 <= v * 2 ^ s <= (P - 1) * 2 ^ s) by (apply mul_bounds; lia).
    assert (exists k, limb_base = k * 2 ^ s) as [k Ek].
    { exists (2 ^ (JS_LIMB_BITS - s)). unfold limb_base. rewrite <- Z.pow_add_r by lia. f_equal. lia. }
    assert (h + 1 <= k) by (rewrite Ek in Hb; nia).
    assert (P * ((h + 1) * 2 ^ s) <= P * (k * 2 ^ s))
      by (apply Z.mul_le_mono_nonneg_l; [lia|]; apply Z.mul_le_mono_nonneg_r; lia).
    rewrite Ek. lia. }
  destruct (Z.eqb_spec s 0) as [E0|Hne]; cbn [negb].
  - exists lo, h. rewrite E0, Z.pow_0_r, Z.mul_1_r in *. split; [|split; reflexivity].
    apply top_bit_normalized; [exact Hok|lia].
  - pose proof (mp_shl_spec (lo ++ [h]) s Hok ltac:(lia)) as Hsh.
    destruct (mp_shl (lo ++ [h]) s) as [r l]. destruct Hsh as (Hr & Hl & Hl2 & Ev). cbn [fst].
    pose proof (mp_val_bounds r Hr) as Vr. rewrite (mp_base_length r (lo ++ [h]) Hl) in Vr.
    assert (l = 0) as -> by nia.
    destruct (tab_snoc r) as (blo & b1 & ->).
    { intros ->. rewrite length_app in Hl. simpl in Hl. lia. }
    exists blo, b1. split; [|split; [exact Hl|lia]].
    apply top_bit_normalized; [exact Hr|]. rewrite (mp_base_length (blo ++ [b1]) (lo ++ [h]) Hl). lia.
Qed.

(** The block that normalises the divisor and shifts the dividend with it. *)
Lemma shift_dividend tabb A x junk s {R} (k : list Z * list Z * Z -> M R) :
  limbs_ok A -> 0 <= s < JS_LIMB_BITS ->
  exists A' junk',
    (tr ← (if negb (s =? 0) then
             w ← tab_slice (A ++ x :: junk) 0 (len A);
             let '(w, h) := mp_shl w s in
             rt ← tab_blit (A ++ x :: junk) 0 w;
             if negb (h =? 0) then
               rt ← tab_set rt (len A) h; mret (fst (mp_shl tabb s), rt, len A + 1)
             else mret (fst (mp_shl tabb s), rt, len A)
           else mret (tabb, A ++ x :: junk, len A));
     k tr) = k (if negb (s =? 0) then fst (mp_shl tabb s) else tabb, A' ++ junk', len A') /\
    limbs_ok A' /\ mp_val A' = mp_val A * 2 ^ s /\
    (length A <= length A' <= length A + 1)%nat /\
    length (A' ++ junk') = length (A ++ x :: junk).
Proof.
  intros HA Hs. destruct (Z.eqb_spec s 0) as [->|Hne]; cbn [negb].
  - exists A, (x :: junk). repeat split; try assumption; lia.
  - rewrite (tab_slice_app [] A (x :: junk) 0 (len A) eq_refl eq_refl
             : tab_slice (A ++ x :: junk) 0 (len A) = mret A), ret_bind.
    pose proof (mp_shl_spec A s HA ltac:(lia)) as Hsh.
    destruct (mp_shl A s) as [w h]. destruct Hsh as (Hw & Hl & Hh & Ev).
    rewrite (tab_blit_app [] A w (x :: junk) 0 eq_refl Hl
             : tab_blit (A ++ x :: junk) 0 w = mret (w ++ x :: junk)), ret_bind.
    assert (len A = len w) as El by (unfold len; lia).
    destruct (Z.eqb_spec h 0) as [->|Hh0]; cbn [negb].
    + exists w, (x :: junk). rewrite El. repeat split; try assumption; try lia.
      rewrite !length_app. simpl. lia.
    + rewrite El, tab_set_app, ret_bind by reflexivity.
      exists (w ++ [h]), junk. rewrite <- app_assoc. cbn [app]. rewrite !len_app, !length_app.
      cbn [length]. change (len [h]) with 1. repeat split; try lia.
      * apply limbs_ok_app. split; [exact Hw|]. constructor; [|constructor].
        unfold limb_ok, limb_base. split; [lia|].
        apply Z.lt_le_trans with (2 ^ s); [lia|]. apply Z.pow_le_mono_r; lia.
      * rewrite val_snoc, (mp_base_length w A Hl). exact Ev.
Qed.

(** ** Division: the signs of the results *)

Lemma mp_neg_value t :
  limbs_ok t -> 2 * mp_val t < mp_base t ->
  let r := fst (mp_neg t) in
  limbs_ok r /\ length r = length t /\ sval r = - mp_val t.
Proof.
  intros Ht Hv. cbv zeta. pose proof (mp_neg_spec t Ht) as Hn. destruct (mp_neg t) as [r c].
  destruct Hn as (H1 & H2 & H3). cbn [fst]. repeat split; [exact H1|exact H2|].
  pose proof (mp_val_bounds t Ht) as Hb. pose proof (mp_base_length r t H2) as Br.
  rewrite Z.mod_eq in H3 by lia.
  apply (sval_unique _ _ (- (- mp_val t / mp_base t))); [exact H1| |]; rewrite Br; lia.
Qed.

Lemma neg_if_value (neg : bool) t :
  limbs_ok t -> 2 * mp_val t < mp_base t ->
  let r := if neg then fst (mp_neg t) else t in
  limbs_ok r /\ length r = length t /\ sval r = (if neg then - mp_val t else mp_val t).
Proof.
  intros Ht Hv. destruct neg; [apply mp_neg_value; assumption|]. cbv zeta.
  pose proof (mp_val_bounds t Ht).
  repeat split; [exact Ht|]. apply (sval_unique _ _ 0); [exact Ht|lia|lia].
Qed.

(** An array whose top limb is zero is below half its base. *)
Lemma top_zero_value t :
  limbs_ok t -> limbs_ok (t ++ [0]) /\ mp_val (t ++ [0]) = mp_val t /\
  2 * mp_val (t ++ [0]) < mp_base (t ++ [0]).
Proof.
  intros Ht. rewrite val_snoc, base_snoc, Z.mul_0_r, Z.add_0_r.
  pose proof (mp_val_bounds t Ht). pose proof limb_base_big.
  repeat split.
  - apply limbs_ok_app. split; [exact Ht|]. constructor; [apply limb_ok_0|constructor].
  - assert (mp_base t * 2 <= mp_base t * limb_base) by (apply Z.mul_le_mono_nonneg_l; lia). lia.
Qed.

End BigIntMul.
