(* ===== verification/BigIntDivRem.v ===== *)
(** Correctness of [js_bigint_divrem]. *)
From stdpp Require Import base tactics list numbers strings.
From Stdlib Require Import ZArith Lia.
From S2P Require Import Prelude Limbs LimbSpecs LimbDiv BigInt BigIntMul.

Open Scope Z_scope.

Section BigIntDivRem.
Context `{LC : LimbConfig} `{FM : FreshMemory}.

Definition signed_if (neg : bool) (v : Z) : Z := if neg then - v else v.

(** The remainder: shift back, append a zero limb, give it the dividend's sign. *)
Lemma finish_rem r rest s (a_neg : bool) v E :
  limbs_ok r -> r <> [] -> rest <> [] -> 0 <= s < JS_LIMB_BITS -> mp_val r = v * 2 ^ s ->
  mspec (rt ← (if negb (s =? 0) then
                 w ← tab_slice (r ++ rest) 0 (len r);
                 tab_blit (r ++ rest) 0 (fst (mp_shr w s 0))
               else mret (r ++ rest));
         rt ← tab_set rt (len r) 0;
         rt ← (if negb (c_bool a_neg =? 0) then
                 w ← tab_slice rt 0 (len r + 1);
                 tab_blit rt 0 (fst (mp_neg w))
               else mret rt);
         js_bigint_normalize1 (MkBigInt rt) (len r + 1))
    (fun q => bi_norm q /\ bi_val q = signed_if a_neg v) E.
Proof.
  intros Hr Hne Hrest Hs Ev. destruct rest as [|y rest]; [congruence|].
  assert (exists r1, (if negb (s =? 0) then
                 w ← tab_slice (r ++ y :: rest) 0 (len r);
                 tab_blit (r ++ y :: rest) 0 (fst (mp_shr w s 0))
               else mret (r ++ y :: rest)) = (mret (r1 ++ y :: rest) : M (list Z)) /\
            limbs_ok r1 /\ length r1 = length r /\ mp_val r1 = v) as (r1 & -> & Hr1 & Hl1 & V1).
  { destruct (Z.eqb_spec s 0) as [->|Hs0]; cbn [negb].
    - exists r. rewrite Z.pow_0_r in Ev. repeat split; try assumption. lia.
    - rewrite (tab_slice_app [] r (y :: rest) 0 (len r) eq_refl eq_refl
               : tab_slice (r ++ y :: rest) 0 (len r) = mret r), ret_bind.
      pose proof (mp_shr_spec r s 0 Hr ltac:(lia)) as Hsh.
      destruct (mp_shr r s 0) as [w m]. destruct Hsh as (Hw & Hlw & Hm & Ew). cbn [fst].
      rewrite (tab_blit_app [] r w (y :: rest) 0 eq_refl Hlw
               : tab_blit (r ++ y :: rest) 0 w = mret (w ++ y :: rest)).
      exists w. rewrite Z.mod_0_l, Z.mul_0_r, Z.add_0_r in Ew by lia.
      repeat split; try assumption. rewrite Ev in Ew.
      destruct (Z.div_mod_unique (2 ^ s) (mp_val w) v m 0) as [Ew' _]; lia. }
  rewrite ret_bind. assert (len r = len r1) as El by (unfold len; lia).
  rewrite El, tab_set_app, ret_bind by reflexivity.
  destruct (top_zero_value r1 Hr1) as (Hz & Vz & Hhalf).
  destruct (neg_if_value a_neg (r1 ++ [0]) Hz Hhalf) as (Hn & Hln & Vn). cbv zeta in *.
  assert ((if negb (c_bool a_neg =? 0) then
             w ← tab_slice (r1 ++ 0 :: rest) 0 (len r1 + 1);
             tab_blit (r1 ++ 0 :: rest) 0 (fst (mp_neg w))
           else mret (r1 ++ 0 :: rest)) =
          (mret ((if a_neg then fst (mp_neg (r1 ++ [0])) else r1 ++ [0]) ++ rest) : M (list Z))) as ->.
  { change (r1 ++ 0 :: rest) with (r1 ++ [0] ++ rest). rewrite app_assoc.
    destruct a_neg; cbn [c_bool Z.eqb negb]; [|reflexivity].
    rewrite (tab_slice_app [] (r1 ++ [0]) rest 0 (len r1 + 1) eq_refl
      ltac:(rewrite len_app; reflexivity) : tab_slice ((r1 ++ [0]) ++ rest) 0 (len r1 + 1) = mret (r1 ++ [0])), ret_bind.
    rewrite (tab_blit_app [] (r1 ++ [0]) (fst (mp_neg (r1 ++ [0]))) rest 0 eq_refl Hln
      : tab_blit ((r1 ++ [0]) ++ rest) 0 (fst (mp_neg (r1 ++ [0]))) = _). reflexivity. }
  rewrite ret_bind.
  set (t := if a_neg then fst (mp_neg (r1 ++ [0])) else r1 ++ [0]) in *.
  assert (Z.to_nat (len r1 + 1) = length t) as Et by (rewrite Hln, length_app; unfold len; simpl; lia).
  eapply mspec_mono; [apply js_bigint_normalize1_spec| |intros e He; exact He]; cbn [tab].
  - rewrite Et, take_app_length. exact Hn.
  - unfold bi_len, len. cbn [tab]. rewrite length_app. unfold len in Et. lia.
  - intros q (H1 & H2 & _). cbn [tab] in H2. rewrite Et, take_app_length in H2.
    split; [exact H1|]. rewrite H2, Vn, Vz, V1. reflexivity.
Qed.

(** The quotient: a zero limb on top, then the sign. *)
Lemma finish_quot qs x n (neg : bool) E :
  limbs_ok qs -> n = len qs ->
  mspec (qt ← tab_set (qs ++ [x]) n 0;
         let qt := if neg then fst (mp_neg qt) else qt in
         js_bigint_normalize (MkBigInt qt))
    (fun q => bi_norm q /\ bi_val q = signed_if neg (mp_val qs)) E.
Proof.
  intros Hqs ->. rewrite tab_set_app, ret_bind by reflexivity. cbv zeta.
  destruct (top_zero_value qs Hqs) as (Hz & Vz & Hhalf).
  destruct (neg_if_value neg (qs ++ [0]) Hz Hhalf) as (Hn & Hln & Vn). cbv zeta in *.
  eapply mspec_mono; [apply js_bigint_normalize_spec| |intros e He; exact He].
  - split; [exact Hn|]. cbn [tab]. intros E0. rewrite E0, length_app in Hln. simpl in Hln. lia.
  - intros q (H1 & H2 & _). split; [exact H1|]. rewrite H2. unfold bi_val. cbn [tab].
    rewrite Vn, Vz. reflexivity.
Qed.

(** From the stripped magnitudes [A] and [tb = lo ++ [h]] on. *)
Definition divrem_tail (A : list Z) (rt : list Z) (tb : list Z) (a_sign b_sign : Z) (is_rem : bool) :
    M JSBigInt :=
  let na := len A in
  let nb := len tb in
  top ← tab_get tb (nb - 1);
  let shift := js_limb_clz top in
  '(tabb, rt, na) ←
    (if negb (shift =? 0) then
       w ← tab_slice rt 0 na;
       let '(w, h) := mp_shl w shift in
       rt ← tab_blit rt 0 w;
       if negb (h =? 0) then
         rt ← tab_set rt na h; mret (fst (mp_shl tb shift), rt, na + 1)
       else mret (fst (mp_shl tb shift), rt, na)
     else mret (tb, rt, na));
  q ← js_bigint_new (na - nb + 2);
  '(qt, rt) ← mp_divnorm (tab q) rt na tabb;
  if is_rem then
    rt ← (if negb (shift =? 0) then
            w ← tab_slice rt 0 nb;
            tab_blit rt 0 (fst (mp_shr w shift 0))
          else mret rt);
    rt ← tab_set rt nb 0;
    rt ← (if negb (a_sign =? 0) then
            w ← tab_slice rt 0 (nb + 1);
            tab_blit rt 0 (fst (mp_neg w))
          else mret rt);
    js_bigint_normalize1 (MkBigInt rt) (nb + 1)
  else
    qt ← tab_set qt (na - nb + 1) 0;
    let qt := if negb (Z.lxor a_sign b_sign =? 0) then fst (mp_neg qt) else qt in
    js_bigint_normalize (MkBigInt qt).

Lemma divrem_tail_spec A x junk lo h a_neg b_neg is_rem :
  limbs_ok A -> limbs_ok (lo ++ [h]) -> h <> 0 -> (length (lo ++ [h]) <= length A)%nat ->
  junk <> [] ->
  mspec (divrem_tail A (A ++ x :: junk) (lo ++ [h]) (c_bool a_neg) (c_bool b_neg) is_rem)
    (fun r => bi_norm r /\
       bi_val r = if is_rem then signed_if a_neg (mp_val A mod mp_val (lo ++ [h]))
                  else signed_if (xorb a_neg b_neg) (mp_val A / mp_val (lo ++ [h])))
    (fun e => e = err_alloc /\ JS_BIGINT_MAX_SIZE < len A - len (lo ++ [h]) + 3).
Proof.
  intros HA Hb Hh Hlen Hjunk. unfold divrem_tail. cbv zeta.
  rewrite (tab_get_app lo h []) by (rewrite len_app; change (len [h]) with 1; lia). rewrite ret_bind.
  apply limbs_ok_app in Hb as Hb'. destruct Hb' as [_ Hh1]. inversion Hh1 as [|? ? Hhok _]; subst.
  destruct (js_limb_clz_spec h Hhok Hh) as [Hs _].
  destruct (shift_divisor (lo ++ [h]) lo h (js_limb_clz h) eq_refl Hb Hh eq_refl)
    as (blo & b1 & Hnd & Hlb & Vb). cbv zeta in *.
  set (s := js_limb_clz h) in *. set (tb := lo ++ [h]) in *.
  match goal with |- mspec (mbind ?k _) _ _ =>
    destruct (shift_dividend tb A x junk s k HA Hs) as (A' & junk' & E & HA' & VA' & HlA' & Hlj) end.
  unfold mbind in E at 1. unfold mbind at 1. rewrite E. clear E.
  set (tabb := if negb (s =? 0) then fst (mp_shl tb s) else tb) in *.
  rewrite !length_app in Hlj. simpl in Hlj.
  assert (junk' <> []) as Hj' by (intros ->; destruct junk; [congruence|]; simpl in *; lia).
  assert (len A' <= len A + 1) by (unfold len; lia).
  eapply mspec_bind.
  { eapply mspec_mono; [apply js_bigint_new_spec; unfold len; lia|intros q Hq; exact Hq|].
    intros e [-> He]. split; [reflexivity|lia]. }
  intros q Hq. cbv beta in Hq.
  destruct (mp_divnorm_spec (tab q) A' junk' (len A') tabb blo b1 Hnd HA' eq_refl)
    as (qs & r & rest & Ed & Hqs & Hlqs & Hr & Hlr & Hlrr & Ev & Hrb); [unfold len in *; lia..|].
  rewrite Ed, ret_bind. clear Ed.
  assert (0 < mp_val tb) as Hbpos.
  { destruct (norm_divisor_val _ _ _ Hnd) as (_ & _ & _ & _ & _ & _ & Hp). nia. }
  assert (mp_val qs = mp_val A / mp_val tb /\ mp_val r = mp_val A mod mp_val tb * 2 ^ s) as [Eq Er].
  { rewrite VA', Vb in Ev. rewrite Vb in Hrb. assert (0 < 2 ^ s) by lia.
    assert (exists m, mp_val r = m * 2 ^ s) as [m Em].
    { exists (mp_val A - mp_val qs * mp_val tb). lia. }
    rewrite Em in *. assert (0 <= m < mp_val tb) by nia.
    assert (mp_val A = mp_val tb * mp_val qs + m) by nia.
    split; [apply (Z.div_unique _ _ _ m); lia|]. f_equal. apply (Z.mod_unique _ _ (mp_val qs)); lia. }
  assert (len tb = len r) as Elr by (unfold len; lia).
  destruct is_rem.
  - rewrite Elr. apply finish_rem; try assumption.
    + intros ->. unfold tb in Hlr. simpl in Hlr. rewrite Hlb in Hlr. unfold tb in Hlr. rewrite length_app in Hlr. simpl in Hlr. lia.
    + intros ->. rewrite !length_app in Hlrr. simpl in Hlrr. destruct junk'; [congruence|].
      simpl in *. unfold len in *. lia.
  - assert (exists y, drop (length qs) (tab q) = [y]) as [y ->].
    { destruct (drop (length qs) (tab q)) as [|y [|? ?]] eqn:Edq;
        apply (f_equal length) in Edq; rewrite length_drop in Edq; simpl in Edq;
        [unfold len in *; lia|eauto|unfold len in *; lia]. }
    rewrite <- Eq.
    assert (negb (Z.lxor (c_bool a_neg) (c_bool b_neg) =? 0) = xorb a_neg b_neg) as ->
      by (destruct a_neg, b_neg; reflexivity).
    apply finish_quot; [exact Hqs|]. unfold len in *. lia.
Qed.

Lemma bi_zero_iff b :
  bi_norm b -> ((bi_len b =? 1) && (tab b !!! 0%nat =? 0)) = (bi_val b =? 0).
Proof.
  intros [[Hok Hne] Hm]. unfold bi_len, bi_val, len in *.
  destruct (tab b) as [|x [|y t]] eqn:Et; [congruence| |].
  - cbn. inversion Hok as [|? ? Hx _]; subst. rewrite <- (js_limb_small x Hx) at 2. rewrite sval_one.
    unfold limb_ok in Hx. unfold js_slimb. pose proof limb_bits_pos. pose proof limb_half_big.
    rewrite swrap_pattern by (unfold limb_base in *; lia). unfold limb_base in *.
    destruct (Z.ltb_spec x (2 ^ (JS_LIMB_BITS - 1))); case_tests; try reflexivity; lia.
  - rewrite (proj2 (Z.eqb_neq _ 1)) by (simpl; lia). cbn [andb]. symmetry. apply Z.eqb_neq.
    destruct Hm as [Hm|Hm]; [simpl in Hm; lia|]. intros E0. rewrite E0 in Hm.
    assert (0 < limb_base ^ (len (x :: y :: t) - 1)); [|lia].
    apply Z.pow_pos_nonneg; [pose proof limb_base_big; lia|]. unfold len. simpl. lia.
Qed.

(** A magnitude stripped to [n] limbs with a non-zero top limb. *)
Lemma stripped_lower t n :
  limbs_ok t -> (1 <= n <= length t)%nat -> n = 1%nat \/ t !!! (n - 1)%nat <> 0 -> 0 < mp_val (take n t) ->
  exists lo h, take n t = lo ++ [h] /\ h <> 0 /\ limb_base ^ Z.of_nat (n - 1) <= mp_val (take n t).
Proof.
  intros Ht Hn Htop Hpos.
  destruct (lookup_lt_is_Some_2 t (n - 1) ltac:(lia)) as [h Hh].
  exists (take (n - 1) t), h.
  assert (take n t = take (n - 1) t ++ [h]) as Et
    by (rewrite <- (take_S_r t (n - 1) h Hh); f_equal; lia).
  assert (h <> 0) as Hne.
  { destruct Htop as [->|Htop].
    - intros ->. rewrite Et, val_snoc, Z.mul_0_r in Hpos.
      change (take (1 - 1) t) with (@nil Z) in Hpos. cbn [mp_val] in Hpos. lia.
    - rewrite (list_lookup_total_correct _ _ _ Hh) in Htop. exact Htop. }
  split; [exact Et|]. split; [exact Hne|]. rewrite Et, val_snoc.
  assert (mp_base (take (n - 1) t) = limb_base ^ Z.of_nat (n - 1)) as ->
    by (unfold mp_base, len; rewrite length_take; do 2 f_equal; lia).
  pose proof (mp_val_bounds _ (limbs_ok_take (n - 1) t Ht)).
  assert (limb_ok h) as Hho by (eapply Forall_lookup_1; [exact Ht|exact Hh]). unfold limb_ok in Hho.
  assert (0 < limb_base ^ Z.of_nat (n - 1)) by (apply Z.pow_pos_nonneg; pose proof limb_base_big; lia).
  assert (limb_base ^ Z.of_nat (n - 1) * 1 <= limb_base ^ Z.of_nat (n - 1) * h)
    by (apply Z.mul_le_mono_nonneg_l; lia). lia.
Qed.

Lemma js_bigint_divrem_spec a b is_rem :
  bi_norm a -> bi_norm b ->
  mspec (js_bigint_divrem a b is_rem)
    (fun r => bi_norm r /\
       bi_val r = if is_rem then Z.rem (bi_val a) (bi_val b) else Z.quot (bi_val a) (bi_val b))
    (fun e => (e = err_div0 /\ bi_val b = 0) \/
              (e = err_alloc /\ JS_BIGINT_MAX_SIZE < bi_len a + 2)).
Proof.
  intros Ha Hb. unfold js_bigint_divrem. rewrite (bi_zero_iff b Hb).
  destruct (Z.eqb_spec (bi_val b) 0) as [Eb0|Hb0]; [apply mspec_throw; auto|]. cbv zeta.
  destruct (abs_limbs_spec a (proj1 Ha)) as (HA & HlA & VA).
  destruct (abs_limbs_spec b (proj1 Hb)) as (HB & HlB & VB). cbv zeta in *.
  pose proof (bi_len_pos a (proj1 Ha)) as Hla. pose proof (bi_len_pos b (proj1 Hb)) as Hlb.
  set (tA := abs_limbs (js_bigint_sign a) (tab a)) in *.
  set (tB := abs_limbs (js_bigint_sign b) (tab b)) in *.
  eapply mspec_bind.
  { eapply mspec_mono; [apply js_bigint_new_spec; lia|intros r Hr; exact Hr|].
    intros e [-> He]. right. split; [reflexivity|lia]. }
  intros r Hr. cbv beta in Hr.
  rewrite blit_prefix by (unfold bi_len, len in *; lia). rewrite ret_bind.
  set (junk0 := drop (length tA) (tab r)).
  assert (length junk0 = 2%nat) as Hj0 by (unfold junk0; rewrite length_drop; unfold bi_len, len in *; lia).
  unfold bi_len, len in *.
  destruct (strip_zeros_spec (tA ++ junk0) (length (tab a))) as (Hna & VnA & HtA);
    [rewrite length_app; lia|]. cbv zeta in *.
  set (na := strip_zeros (tA ++ junk0) (length (tab a))) in *.
  destruct (strip_zeros_spec tB (length (tab b))) as (Hnb & VnB & HtB); [lia|]. cbv zeta in *.
  set (nb := strip_zeros tB (length (tab b))) in *.
  rewrite !take_app_le in VnA by lia. rewrite (take_ge tA (length (tab a))) in VnA by lia.
  rewrite (take_ge tB (length (tab b))) in VnB by lia.
  clearbody na nb. assert (0 < mp_val (take nb tB)) as HposB by (rewrite VnB, VB; clear - Hb0; lia).
  destruct (stripped_lower tB nb HB ltac:(lia) HtB HposB) as (lo & h & Elo & Hh & Hlow).
  assert (mp_val (take na tA) < limb_base ^ Z.of_nat na) as Hup.
  { pose proof (mp_val_bounds _ (limbs_ok_take na tA HA)) as Hv. unfold mp_base, len in Hv.
    rewrite length_take in Hv. rewrite Nat.min_l in Hv by (rewrite HlA; apply Hna). apply Hv. }
  mstep (fun _ : unit => True); [apply mspec_alloc|]. intros _ _.
  destruct (Z.ltb_spec (Z.of_nat na) (Z.of_nat nb)) as [Hlt|Hge].
  - assert (Z.abs (bi_val a) < Z.abs (bi_val b)) as Hab.
    { rewrite <- VA, <- VB, <- VnA, <- VnB.
      eapply Z.lt_le_trans; [exact Hup|]. etransitivity; [|exact Hlow].
      apply Z.pow_le_mono_r; [pose proof limb_base_big|clear - Hlt]; lia. }
    destruct is_rem.
    + eapply mspec_bind.
      { eapply mspec_mono; [apply js_bigint_new_spec; lia|intros q Hq; exact Hq|].
        intros e [-> He]. right. split; [reflexivity|lia]. }
      intros q Hq. cbv beta in Hq. rewrite blit_all by exact Hq. rewrite ret_bind. apply mspec_ret.
      destruct a as [ta]. cbn [tab] in *. split; [exact Ha|]. symmetry. apply Z.rem_small_iff; lia.
    + eapply mspec_mono; [apply js_bigint_new_si_spec| |intros e He; exact He].
      intros q (H1 & H2 & _). split; [exact H1|]. rewrite H2.
      rewrite (proj2 (Z.quot_small_iff (bi_val a) (bi_val b) Hb0) Hab).
      apply swrap_small; [pose proof limb_bits_pos; lia|]. pose proof limb_half_big. lia.
  - rewrite (slice_prefix tB), Nat2Z.id, ret_bind by (unfold len; lia). rewrite Elo.
    rewrite !(js_bigint_sign_spec _ (proj1 Ha)), !(js_bigint_sign_spec _ (proj1 Hb)).
    set (A := take na tA).
    assert (length A = na) as HlenA
      by (unfold A; rewrite length_take, HlA; apply Nat.min_l, Hna).
    assert (length (lo ++ [h]) = nb) as Hlenb
      by (rewrite <- Elo, length_take, HlB; apply Nat.min_l, Hnb).
    assert (exists x junk, tA ++ junk0 = A ++ x :: junk /\ junk <> []) as (x & junk & Ert & Hjunk).
    { clearbody junk0. destruct junk0 as [|j1 [|j2 [|? ?]]]; try discriminate Hj0.
      assert (tA = A ++ drop na tA) as -> by (symmetry; apply take_drop). rewrite <- app_assoc.
      destruct (drop na tA) as [|d dl]; [exists j1, [j2]|exists d, (dl ++ [j1; j2])];
        (split; [reflexivity|]); [discriminate|destruct dl; discriminate]. }
    rewrite Ert.
    eapply mspec_mono.
    + pose proof (divrem_tail_spec A x junk lo h (bi_val a <? 0) (bi_val b <? 0) is_rem
        (limbs_ok_take na tA HA)) as Ht. unfold divrem_tail in Ht. cbv zeta in Ht.
      unfold len in Ht. rewrite HlenA, Hlenb in Ht.
      apply Ht; [rewrite <- Elo; auto with limbs|exact Hh|lia|exact Hjunk].
    + intros q [H1 H2]. split; [exact H1|]. rewrite H2. unfold A.
      rewrite <- Elo, VnA, VnB, VA, VB.
      rewrite Z.rem_mod, Z.quot_div by exact Hb0.
      assert (forall v, Z.sgn (bi_val a) * v = signed_if (bi_val a <? 0) v \/ bi_val a = 0) as Hsa.
      { clear. intros v. unfold signed_if. destruct (Z.ltb_spec (bi_val a) 0); lia. }
      destruct is_rem.
      * destruct (Hsa (Z.abs (bi_val a) mod Z.abs (bi_val b))) as [->|E0]; [reflexivity|].
        rewrite E0. cbn. rewrite Z.mod_0_l by lia. reflexivity.
      * destruct (Z.eq_dec (bi_val a) 0) as [E0|Ha0].
        { rewrite E0. cbn. rewrite Z.div_0_l by lia. destruct (bi_val b <? 0); reflexivity. }
        unfold signed_if. destruct (Z.ltb_spec (bi_val a) 0), (Z.ltb_spec (bi_val b) 0); cbn [xorb];
          rewrite ?(Z.sgn_neg (bi_val a)), ?(Z.sgn_pos (bi_val a)), ?(Z.sgn_neg (bi_val b)), ?(Z.sgn_pos (bi_val b)) by lia; lia.
    + intros e [-> He]. right. split; [reflexivity|]. clear - He Hna Hnb. lia.
Qed.

End BigIntDivRem.
