(* ===== verification/BigIntBits.v ===== *)
(** Bitwise operations and shifts of BigInts: the results are the infinite
    two's complement operations on the values.

    Shifts of BigInts: multiplication by a power of two and floor division by
    one, whatever the sign. *)
From stdpp Require Import base tactics list numbers.
From Stdlib Require Import ZArith Lia.
From S2P Require Import Prelude Limbs LimbSpecs BigInt BigIntMul BigIntDivRem.

Open Scope Z_scope.

Section BigIntBits.
Context `{LC : LimbConfig} `{FM : FreshMemory}.

(** ** Bitwise operators on values split at a bit position *)

Lemma logic_op_shiftr op x y k : 0 <= k ->
  Z.shiftr (logic_op op x y) k = logic_op op (Z.shiftr x k) (Z.shiftr y k).
Proof. intros _. destruct op; cbn; [apply Z.shiftr_lor|apply Z.shiftr_land|apply Z.shiftr_lxor]. Qed.

Lemma logic_op_mod op x y k : 0 <= k ->
  logic_op op x y mod 2 ^ k = logic_op op (x mod 2 ^ k) (y mod 2 ^ k).
Proof.
  intros Hk. apply Z.bits_inj'. intros i Hi.
  destruct (Z.lt_ge_cases i k); destruct op; cbn [logic_op];
    rewrite ?Z.lor_spec, ?Z.land_spec, ?Z.lxor_spec;
    rewrite ?Z.mod_pow2_bits_low, ?Z.mod_pow2_bits_high by lia;
    rewrite ?Z.lor_spec, ?Z.land_spec, ?Z.lxor_spec; reflexivity.
Qed.

Lemma logic_op_limb_ok op x y : limb_ok x -> limb_ok y -> limb_ok (logic_op op x y).
Proof.
  unfold limb_ok, limb_base. intros Hx Hy. pose proof limb_bits_pos.
  rewrite <- (Z.mod_small x (2 ^ JS_LIMB_BITS)), <- (Z.mod_small y (2 ^ JS_LIMB_BITS)) by lia.
  rewrite <- logic_op_mod by lia. apply Z.mod_pos_bound. lia.
Qed.

Lemma logic_op_split op x y u v :
  limb_ok x -> limb_ok y ->
  logic_op op (x + limb_base * u) (y + limb_base * v) = logic_op op x y + limb_base * logic_op op u v.
Proof.
  intros Hx Hy. pose proof limb_bits_pos as Hp. pose proof (logic_op_limb_ok op x y Hx Hy) as Ho.
  assert (forall p q, limb_ok p -> (p + limb_base * q) mod 2 ^ JS_LIMB_BITS = p /\
                      Z.shiftr (p + limb_base * q) JS_LIMB_BITS = q) as Hsplit.
  { unfold limb_ok. intros p q Hpq. fold limb_base. rewrite shiftr_limb. split.
    - symmetry. apply (Z.mod_unique_pos _ _ q); lia.
    - symmetry. apply (Z.div_unique_pos _ _ _ p); lia. }
  destruct (Hsplit x u Hx) as [Ex Eu]. destruct (Hsplit y v Hy) as [Ey Ev].
  rewrite (Z.div_mod (logic_op op (x + limb_base * u) (y + limb_base * v)) limb_base)
    by (pose proof limb_base_big; lia).
  rewrite <- shiftr_limb, logic_op_shiftr, Eu, Ev by lia.
  assert (logic_op op (x + limb_base * u) (y + limb_base * v) mod limb_base = logic_op op x y) as ->
    by (unfold limb_base at 3; rewrite logic_op_mod by lia; rewrite Ex, Ey; reflexivity). ring.
Qed.

(** Limb by limb, with a common part above the arrays. *)
Lemma logic_limbs op a b u v :
  limbs_ok a -> limbs_ok b -> length a = length b ->
  limbs_ok (zip_with (logic_op op) a b) /\
  mp_val (zip_with (logic_op op) a b) + mp_base a * logic_op op u v =
    logic_op op (mp_val a + mp_base a * u) (mp_val b + mp_base b * v).
Proof.
  revert b. induction a as [|x a IH]; intros [|y b] Ha Hb Hl; try discriminate.
  - change (mp_base []) with 1. cbn [zip_with mp_val]. rewrite !Z.mul_1_l. split; [constructor|reflexivity].
  - inversion Ha as [|? ? Hx Ha']; inversion Hb as [|? ? Hy Hb']; subst.
    destruct (IH b Ha' Hb' ltac:(simpl in Hl; lia)) as [Hok E].
    cbn [zip_with mp_val]. split; [constructor; [apply logic_op_limb_ok; assumption|exact Hok]|].
    rewrite !mp_base_cons.
    replace (x + limb_base * mp_val a + limb_base * mp_base a * u)
      with (x + limb_base * (mp_val a + mp_base a * u)) by ring.
    replace (y + limb_base * mp_val b + limb_base * mp_base b * v)
      with (y + limb_base * (mp_val b + mp_base b * v)) by ring.
    rewrite logic_op_split, <- E by assumption. ring.
Qed.

Definition logic_bool (op : OPCodeLogic) : bool -> bool -> bool :=
  match op with OP_or => orb | OP_and => andb | OP_xor => xorb end.

Lemma logic_op_sign op p q : logic_op op (- c_bool p) (- c_bool q) = - c_bool (logic_bool op p q).
Proof. destruct op, p, q; reflexivity. Qed.

(** A two's complement range is closed under the operators. *)
Lemma logic_op_range op x y k :
  0 <= k -> - 2 ^ k <= x < 2 ^ k -> - 2 ^ k <= y < 2 ^ k -> - 2 ^ k <= logic_op op x y < 2 ^ k.
Proof.
  assert (forall z, 0 <= k -> - 2 ^ k <= z < 2 ^ k <-> exists c, Z.shiftr z k = - c_bool c) as Hiff.
  { intros z Hk. rewrite Z.shiftr_div_pow2 by lia. pose proof (Z.mod_pos_bound z (2 ^ k) ltac:(lia)).
    pose proof (Z.div_mod z (2 ^ k) ltac:(lia)) as Ed. split.
    - intros Hz. exists (z <? 0). destruct (Z.ltb_spec z 0); cbn [c_bool].
      + symmetry. apply (Z.div_unique_pos _ _ _ (z + 2 ^ k)); lia.
      + apply Z.div_small. lia.
    - intros [[] E]; rewrite E in Ed; cbn [c_bool] in Ed; lia. }
  intros Hk Hx Hy. apply Hiff in Hx as [p Hp]; [|exact Hk]. apply Hiff in Hy as [q Hq]; [|exact Hk].
  apply Hiff; [exact Hk|]. exists (logic_bool op p q).
  rewrite logic_op_shiftr, Hp, Hq by exact Hk. apply logic_op_sign.
Qed.

Lemma half_base t : t <> [] -> mp_base t = 2 * 2 ^ (JS_LIMB_BITS * len t - 1).
Proof.
  intros Hne. pose proof limb_bits_pos. assert (1 <= len t) by (destruct t; [congruence|unfold len; simpl; lia]).
  unfold mp_base, limb_base. rewrite <- Z.pow_mul_r by lia. rewrite <- Z.pow_succ_r; [f_equal; lia|].
  assert (32 * 1 <= JS_LIMB_BITS * len t) by (apply Z.mul_le_mono_nonneg; lia). lia.
Qed.

Lemma sval_logic op a b :
  limbs_ok a -> limbs_ok b -> length a = length b -> a <> [] ->
  sval (zip_with (logic_op op) a b) = logic_op op (sval a) (sval b).
Proof.
  intros Ha Hb Hl Hne.
  assert (mp_base b = mp_base a) as Eb by (apply mp_base_length; lia).
  assert (mp_base (zip_with (logic_op op) a b) = mp_base a) as Ez
    by (apply mp_base_length; rewrite length_zip_with; lia).
  destruct (logic_limbs op a b (- c_bool (sval a <? 0)) (- c_bool (sval b <? 0)) Ha Hb Hl) as [Hok E].
  rewrite logic_op_sign in E. rewrite (mp_val_sval a Ha), (mp_val_sval b Hb) in E.
  replace (sval a + c_bool (sval a <? 0) * mp_base a + mp_base a * - c_bool (sval a <? 0)) with (sval a) in E by ring.
  replace (sval b + c_bool (sval b <? 0) * mp_base b + mp_base b * - c_bool (sval b <? 0)) with (sval b) in E by ring.
  eapply (sval_unique _ _ (c_bool (logic_bool op (sval a <? 0) (sval b <? 0)))); [exact Hok|rewrite Ez; lia|].
  rewrite Ez, (half_base a Hne).
  assert (- 2 ^ (JS_LIMB_BITS * len a - 1) <= logic_op op (sval a) (sval b) < 2 ^ (JS_LIMB_BITS * len a - 1)); [|lia].
  pose proof (sval_range a Ha) as Ra. pose proof (sval_range b Hb) as Rb. rewrite Eb in Rb.
  rewrite (half_base a Hne) in Ra, Rb.
  apply logic_op_range; [|lia..].
  pose proof limb_bits_pos. assert (1 <= len a) by (destruct a; [congruence|unfold len; simpl; lia]).
  assert (32 * 1 <= JS_LIMB_BITS * len a) by (apply Z.mul_le_mono_nonneg; lia). lia.
Qed.

(** ** [js_bigint_logic] *)

Lemma zip_with_ext_split (f : Z -> Z -> Z) a b s :
  (length b <= length a)%nat ->
  zip_with f (take (length b) a) b ++ ((fun x => f x s) <$> drop (length b) a) =
    zip_with f a (b ++ replicate (length a - length b) s).
Proof.
  revert a. induction b as [|y b IH]; intros a Hl.
  - cbn [length take zip_with drop app]. rewrite Nat.sub_0_r. induction a as [|x a IHa]; [reflexivity|].
    cbn. f_equal. apply IHa. simpl. lia.
  - destruct a as [|x a]; simpl in Hl; [lia|]. cbn. f_equal. apply IH. lia.
Qed.

Lemma logic_op_comm op x y : logic_op op x y = logic_op op y x.
Proof. destruct op; [apply Z.lor_comm|apply Z.land_comm|apply Z.lxor_comm]. Qed.

Lemma js_bigint_logic_ordered a b op :
  bi_ok a -> bi_ok b -> bi_len b <= bi_len a ->
  mspec (r ← js_bigint_new (bi_len a);
         lo ← tab_slice (tab a) 0 (bi_len b);
         hi ← tab_slice (tab a) (bi_len b) (bi_len a - bi_len b);
         t ← tab_blit (tab r) 0 (zip_with (logic_op op) lo (tab b));
         t ← tab_blit t (bi_len b) ((fun x => logic_op op x (js_limb (- js_bigint_sign b))) <$> hi);
         js_bigint_normalize (MkBigInt t))
    (fun r => bi_norm r /\ bi_val r = logic_op op (bi_val a) (bi_val b) /\ bi_len r <= bi_len a)
    (fun e => e = err_alloc /\ JS_BIGINT_MAX_SIZE < bi_len a).
Proof.
  intros Ha Hb Hl. pose proof (bi_len_pos a Ha). pose proof (bi_len_pos b Hb).
  rewrite (js_bigint_sign_spec _ Hb), js_limb_neg_bool.
  eapply mspec_bind; [apply js_bigint_new_spec; lia|]. intros r Hr. cbv beta in Hr.
  unfold bi_len in *. rewrite slice_prefix, slice_suffix, !ret_bind by lia.
  unfold len in *. rewrite Nat2Z.id.
  rewrite blit_prefix by (unfold len; rewrite length_zip_with, length_take; lia). rewrite ret_bind.
  rewrite blit_suffix.
  2:{ rewrite length_drop, length_zip_with, length_fmap, length_drop, length_take. lia. }
  2:{ unfold len. rewrite length_zip_with, length_take. lia. }
  rewrite ret_bind, zip_with_ext_split by lia.
  set (be := tab b ++ replicate (length (tab a) - length (tab b)) (ext_limb (bi_val b <? 0))).
  assert (limbs_ok be) as Hbe by (apply limbs_ok_app; split; [apply Hb|apply limbs_ok_replicate, ext_limb_ok]).
  assert (length be = length (tab a)) as Hlb by (unfold be; rewrite length_app, length_replicate; lia).
  destruct (logic_limbs op (tab a) be 0 0 (proj1 Ha) Hbe ltac:(lia)) as [Hok _].
  eapply mspec_mono; [apply js_bigint_normalize_spec| |intros e He; exact He].
  - split; [exact Hok|]. cbn [tab]. intros E0. apply (f_equal length) in E0.
    rewrite length_zip_with in E0. simpl in E0. lia.
  - intros q (H1 & H2 & H3). split; [exact H1|]. split.
    + rewrite H2. unfold bi_val. cbn [tab]. rewrite sval_logic; [|apply Ha|exact Hbe|lia|apply Ha].
      unfold be, bi_val. rewrite sval_ext by apply Hb. reflexivity.
    + unfold bi_len, len in *. cbn [tab] in *. rewrite length_zip_with in H3. lia.
Qed.

Lemma js_bigint_logic_spec a b op :
  bi_ok a -> bi_ok b ->
  mspec (js_bigint_logic a b op)
    (fun r => bi_norm r /\ bi_val r = logic_op op (bi_val a) (bi_val b) /\
              bi_len r <= Z.max (bi_len a) (bi_len b))
    (fun e => e = err_alloc /\ JS_BIGINT_MAX_SIZE < Z.max (bi_len a) (bi_len b)).
Proof.
  intros Ha Hb. unfold js_bigint_logic. destruct (Z.ltb_spec (bi_len a) (bi_len b)) as [Hlt|Hge]; cbv zeta.
  - rewrite Z.max_r by lia. eapply mspec_mono; [apply (js_bigint_logic_ordered b a op Hb Ha); lia| |intros e He; exact He].
    intros r (H1 & H2 & H3). rewrite logic_op_comm. auto.
  - rewrite Z.max_l by lia. apply js_bigint_logic_ordered; assumption.
Qed.

(** ** [js_bigint_not] *)

Lemma js_bigint_not_spec a :
  bi_norm a ->
  mspec (js_bigint_not a)
    (fun r => bi_norm r /\ bi_val r = Z.lnot (bi_val a) /\ bi_len r = bi_len a)
    (fun e => e = err_alloc /\ JS_BIGINT_MAX_SIZE < bi_len a).
Proof.
  intros [Ha Hm]. pose proof (bi_len_pos a Ha). unfold js_bigint_not.
  eapply mspec_bind; [apply js_bigint_new_spec; lia|]. intros r Hr. cbv beta in Hr.
  assert ((fun x => js_limb (Z.lnot x)) <$> tab a = flip_limbs true (tab a)) as ->.
  { destruct Ha as [Hok _]. unfold flip_limbs. apply list_fmap_ext. intros i x Hx.
    assert (limb_ok x) by (eapply Forall_lookup_1; eassumption).
    rewrite js_limb_lnot, lxor_ext by assumption. reflexivity. }
  rewrite blit_all by (rewrite Hr; unfold bi_len, len; rewrite flip_limbs_len; reflexivity).
  rewrite ret_bind. apply mspec_ret. unfold bi_norm, bi_ok, bi_val, bi_len, minimal, len. cbn [tab].
  rewrite flip_limbs_len, sval_flip, Z.lnot_eq_pred_opp by apply Ha.
  repeat split.
  - apply flip_limbs_ok, Ha.
  - intros E0. apply (f_equal length) in E0. rewrite flip_limbs_len in E0. unfold bi_len, len in *. simpl in E0. lia.
  - unfold minimal, len in Hm. destruct Hm as [Hm|Hm]; [left; exact Hm|].
    destruct (Nat.eq_dec (length (tab a)) 1) as [E1|Hne]; [left; exact E1|right].
    assert (limb_base ^ (Z.of_nat (length (tab a)) - 1) =
            2 * (2 ^ (JS_LIMB_BITS - 1) * limb_base ^ (Z.of_nat (length (tab a)) - 2))) as Eh.
    { rewrite Z.mul_assoc, <- limb_base_half, <- Z.pow_succ_r by (unfold bi_len, len in *; lia). f_equal. lia. }
    lia.
Qed.

End BigIntBits.

Section BigIntShift.
Context `{LC : LimbConfig} `{FM : FreshMemory}.

(** ** Values of concatenations *)

Lemma sval_app lo hi :
  limbs_ok lo -> limbs_ok hi -> hi <> [] -> sval (lo ++ hi) = mp_val lo + mp_base lo * sval hi.
Proof.
  intros Hlo Hhi Hne. pose proof (mp_val_bounds lo Hlo) as Hb. pose proof (sval_range hi Hhi) as Hr.
  apply (sval_unique _ _ (c_bool (sval hi <? 0))).
  - apply limbs_ok_app. auto.
  - rewrite mp_val_app, mp_base_app, (mp_val_sval hi Hhi). ring.
  - rewrite mp_base_app. pose proof (half_base hi Hne) as Eh. rewrite Eh in *.
    set (h := 2 ^ _) in *.
    assert (mp_base lo * - h <= mp_base lo * sval hi) by (apply Z.mul_le_mono_nonneg_l; lia).
    assert (mp_base lo * sval hi <= mp_base lo * (h - 1)) by (apply Z.mul_le_mono_nonneg_l; lia).
    lia.
Qed.

Lemma sval_zeros n hi :
  limbs_ok hi -> hi <> [] -> sval (replicate n 0 ++ hi) = limb_base ^ Z.of_nat n * sval hi.
Proof.
  intros Hhi Hne. rewrite sval_app; [|apply limbs_ok_replicate, limb_ok_0|exact Hhi|exact Hne].
  rewrite mp_val_replicate_0. unfold mp_base. rewrite len_replicate. ring.
Qed.

Lemma sval_drop t n :
  limbs_ok t -> (n < length t)%nat -> sval (drop n t) = sval t / limb_base ^ Z.of_nat n.
Proof.
  intros Ht Hn. assert (drop n t <> []) as Hne
    by (intros E0; apply (f_equal length) in E0; rewrite length_drop in E0; simpl in E0; lia).
  pose proof (sval_app (take n t) (drop n t) (limbs_ok_take n t Ht) (limbs_ok_drop n t Ht) Hne) as E.
  rewrite take_drop in E. pose proof (mp_val_bounds _ (limbs_ok_take n t Ht)) as Hb.
  assert (mp_base (take n t) = limb_base ^ Z.of_nat n) as Eb
    by (unfold mp_base, len; rewrite length_take, Nat.min_l by lia; reflexivity).
  rewrite Eb in *. apply (Z.div_unique_pos _ _ _ (mp_val (take n t))); lia.
Qed.

Lemma pow2_split s :
  0 <= s -> 2 ^ s = limb_base ^ (s / JS_LIMB_BITS) * 2 ^ (s mod JS_LIMB_BITS).
Proof.
  intros Hs. pose proof limb_bits_pos. unfold limb_base.
  assert (0 <= s mod JS_LIMB_BITS < JS_LIMB_BITS) by (apply Z.mod_pos_bound; lia).
  assert (0 <= s / JS_LIMB_BITS) by (apply Z.div_pos; lia).
  assert (0 <= JS_LIMB_BITS * (s / JS_LIMB_BITS)) by (apply Z.mul_nonneg_nonneg; lia).
  rewrite <- Z.pow_mul_r, <- Z.pow_add_r by lia. f_equal. apply Z.div_mod. lia.
Qed.

(** The sign bits or-ed into the limb that [mp_shl] shifts out. *)
Lemma shl_sign_limb l s :
  1 <= s < JS_LIMB_BITS -> 0 <= l < 2 ^ s ->
  Z.lor l (js_limb (Z.shiftl (js_limb (-1)) s)) = l + (limb_base - 2 ^ s).
Proof.
  intros Hs Hl. pose proof limb_bits_pos.
  assert (js_limb (Z.shiftl (js_limb (-1)) s) = Z.shiftl (2 ^ (JS_LIMB_BITS - s) - 1) s) as ->.
  { rewrite js_limb_m1, !Z.shiftl_mul_pow2, js_limb_eq by lia. unfold limb_base.
    assert (2 ^ JS_LIMB_BITS = 2 ^ (JS_LIMB_BITS - s) * 2 ^ s) as E
      by (rewrite <- Z.pow_add_r by lia; f_equal; lia).
    symmetry. apply (Z.mod_unique_pos _ _ (2 ^ s - 1)); [|rewrite E; ring].
    rewrite E. assert (0 < 2 ^ (JS_LIMB_BITS - s)) by lia. assert (0 < 2 ^ s) by lia.
    assert (0 <= (2 ^ (JS_LIMB_BITS - s) - 1) * 2 ^ s) by (apply Z.mul_nonneg_nonneg; lia). lia. }
  rewrite Z.lor_comm, shl_lor_add by lia. unfold limb_base.
  replace (2 ^ JS_LIMB_BITS) with (2 ^ (JS_LIMB_BITS - s) * 2 ^ s)
    by (rewrite <- Z.pow_add_r by lia; f_equal; lia). ring.
Qed.

(** ** [js_bigint_shl] *)

Lemma zeros_norm a n :
  bi_norm a -> bi_val a <> 0 -> bi_norm (MkBigInt (replicate n 0 ++ tab a)).
Proof.
  intros [[Hok Hne] Hm] Hnz. unfold bi_val in Hnz. split.
  - split; cbn [tab]; [|intros E0; apply app_eq_nil in E0; destruct E0; contradiction].
    apply limbs_ok_app. split; [apply limbs_ok_replicate, limb_ok_0|exact Hok].
  - unfold minimal in *. cbn [tab]. right. rewrite sval_zeros, len_app, len_replicate by assumption.
    assert (1 <= len (tab a)) by (destruct (tab a); [congruence|unfold len; simpl; lia]).
    replace (Z.of_nat n + len (tab a) - 1) with (Z.of_nat n + (len (tab a) - 1)) by lia.
    rewrite Z.pow_add_r by lia. pose proof limb_base_big as HB.
    assert (0 < limb_base ^ Z.of_nat n) as HP by (apply Z.pow_pos_nonneg; lia).
    set (P := limb_base ^ Z.of_nat n) in *. set (Q := limb_base ^ (len (tab a) - 1)) in *.
    assert (2 * sval (tab a) + 1 <= - Q \/ Q <= 2 * sval (tab a)) as [Hc|Hc].
    { destruct Hm as [Hm|Hm]; [|lia]. unfold Q, len. rewrite Hm. change (Z.of_nat 1 - 1) with 0.
      rewrite Z.pow_0_r. lia. }
    + left. assert (P * (2 * sval (tab a) + 1) <= P * - Q) by (apply Z.mul_le_mono_nonneg_l; lia). lia.
    + right. assert (P * Q <= P * (2 * sval (tab a))) by (apply Z.mul_le_mono_nonneg_l; lia). lia.
Qed.

Lemma shl_value a d s rs l :
  bi_ok a -> 0 <= d -> 1 <= s < JS_LIMB_BITS -> mp_shl (tab a) s = (rs, l) ->
  let l' := if negb (c_bool (bi_val a <? 0) =? 0)
            then Z.lor l (js_limb (Z.shiftl (js_limb (-1)) s)) else l in
  limb_ok l' /\ sval ((replicate (Z.to_nat d) 0 ++ rs) ++ [l']) = bi_val a * (limb_base ^ d * 2 ^ s).
Proof.
  intros [Ha Hne] Hd Hs E. pose proof (mp_shl_spec (tab a) s Ha Hs) as H. rewrite E in H.
  destruct H as (Hrs & Hl & Hlo & Ev). cbv zeta. pose proof limb_bits_pos.
  assert (2 ^ s < limb_base) as H2s by (unfold limb_base; apply Z.pow_lt_mono_r; lia).
  assert (2 * 2 ^ s <= limb_base) as H2s'
    by (rewrite limb_base_half; apply Z.mul_le_mono_nonneg_l; [lia|apply Z.pow_le_mono_r; lia]).
  set (l' := if _ : bool then _ else _).
  assert (l' = l + c_bool (bi_val a <? 0) * (limb_base - 2 ^ s)) as El'.
  { unfold l'. destruct (bi_val a <? 0); cbn [c_bool Z.eqb negb]; [rewrite shl_sign_limb by assumption|]; lia. }
  assert (limb_ok l') as Hl'.
  { rewrite El'. unfold limb_ok. destruct (bi_val a <? 0); cbn [c_bool]; lia. }
  split; [exact Hl'|]. rewrite <- app_assoc.
  assert (limbs_ok (rs ++ [l'])) as Hok by (apply limbs_ok_app; split; [exact Hrs|repeat constructor; apply Hl']).
  rewrite sval_zeros; [|exact Hok|intros E0; apply app_eq_nil in E0; destruct E0; discriminate].
  rewrite Z2Nat.id by lia. rewrite (Z.mul_comm (bi_val a)), <- Z.mul_assoc, (Z.mul_comm (2 ^ s)). f_equal.
  assert (mp_base rs = mp_base (tab a)) as Eb by (apply mp_base_length; lia).
  apply (sval_unique _ _ (c_bool (bi_val a <? 0)) Hok).
  - rewrite val_snoc, base_snoc, Eb, El'. rewrite (mp_val_sval _ Ha) in Ev. fold (bi_val a) in Ev.
    rewrite Z.mul_add_distr_l. rewrite Z.add_assoc, Ev. ring.
  - rewrite base_snoc, Eb. pose proof (sval_range (tab a) Ha) as Hr. fold (bi_val a) in Hr.
    pose proof (mp_base_pos (tab a)).
    assert (mp_base (tab a) * (2 * 2 ^ s) <= mp_base (tab a) * limb_base) by (apply Z.mul_le_mono_nonneg_l; lia).
    assert (2 ^ s * (- mp_base (tab a)) <= 2 ^ s * (2 * bi_val a)) by (apply Z.mul_le_mono_nonneg_l; lia).
    assert (2 ^ s * (2 * bi_val a) <= 2 ^ s * (mp_base (tab a) - 1)) by (apply Z.mul_le_mono_nonneg_l; lia).
    lia.
Qed.

Lemma js_bigint_shl_spec a shift1 :
  bi_norm a -> 0 <= shift1 ->
  mspec (js_bigint_shl a shift1)
    (fun r => bi_norm r /\ bi_val r = bi_val a * 2 ^ shift1 /\
              (bi_val a = 0 \/ bi_len a + shift1 / JS_LIMB_BITS <= JS_BIGINT_MAX_SIZE))
    (fun e => e = err_alloc /\ JS_BIGINT_MAX_SIZE < bi_len a + shift1 / JS_LIMB_BITS).
Proof.
  intros Ha Hs1. pose proof (bi_len_pos a (proj1 Ha)) as Hla. pose proof limb_bits_pos as HL.
  unfold js_bigint_shl. rewrite (bi_zero_iff a Ha).
  destruct (Z.eqb_spec (bi_val a) 0) as [E0|Hnz].
  { eapply mspec_mono; [apply (js_bigint_new_si_spec 0)| |intros e He; exact He].
    intros r (H1 & H2 & _). split; [exact H1|]. split; [|left; exact E0]. rewrite H2, E0.
    apply swrap_small; [lia|]. pose proof limb_half_big. lia. }
  cbv zeta. set (d := shift1 / JS_LIMB_BITS). set (s := shift1 mod JS_LIMB_BITS).
  assert (0 <= d) as Hd by (apply Z.div_pos; lia).
  assert (0 <= s < JS_LIMB_BITS) as Hs by (apply Z.mod_pos_bound; lia).
  rewrite (pow2_split shift1 Hs1). fold d. fold s.
  eapply mspec_bind; [apply js_bigint_new_fits; lia|]. intros r [Hr Hfit].
  assert (len (replicate (Z.to_nat d) 0) = d) as Hlz by (rewrite len_replicate; lia).
  rewrite blit_prefix by lia. rewrite ret_bind, length_replicate.
  assert (length (drop (Z.to_nat d) (tab r)) = length (tab a)) as Hld
    by (rewrite length_drop; unfold bi_len, len in *; lia).
  destruct (Z.eqb_spec s 0) as [Es|Hsnz].
  - rewrite blit_suffix by (try exact Hld; lia). rewrite ret_bind. apply mspec_ret.
    split; [apply zeros_norm; assumption|]. split; [|right; exact Hfit]. unfold bi_val at 1. cbn [tab].
    rewrite sval_zeros by apply Ha. rewrite Z2Nat.id, Es by lia. fold (bi_val a). ring.
  - rewrite (js_bigint_sign_spec _ (proj1 Ha)).
    destruct (mp_shl (tab a) s) as [rs l] eqn:E.
    pose proof (mp_shl_spec (tab a) s (proj1 (proj1 Ha)) ltac:(lia)) as H. rewrite E in H.
    destruct H as (Hrs & Hl & _).
    rewrite blit_suffix by (try (rewrite Hld; lia); lia). rewrite ret_bind.
    destruct (shl_value a d s rs l (proj1 Ha) Hd ltac:(lia) E) as [Hl' Ev]. cbv zeta in Hl', Ev.
    eapply mspec_mono; [apply js_bigint_extend_spec; [|exact Hl']| |intros e He; exact He].
    + split; cbn [tab].
      * apply limbs_ok_app. split; [apply limbs_ok_replicate, limb_ok_0|exact Hrs].
      * intros E0. apply app_eq_nil in E0. destruct E0 as [_ E0]. rewrite E0 in Hl. simpl in Hl.
        unfold bi_len, len in Hla. lia.
    + intros q (H1 & H2 & _). split; [exact H1|]. split; [rewrite H2; exact Ev|right; exact Hfit].
Qed.

(** ** [js_bigint_shr] *)

Lemma drop_norm a n : bi_norm a -> (n < length (tab a))%nat -> bi_norm (MkBigInt (drop n (tab a))).
Proof.
  intros [[Hok Hne] Hm] Hn.
  assert (drop n (tab a) <> []) as Hdn
    by (intros E0; apply (f_equal length) in E0; rewrite length_drop in E0; simpl in E0; lia).
  split; [split; [apply limbs_ok_drop, Hok|exact Hdn]|]. unfold minimal in *. cbn [tab].
  destruct (Nat.eq_dec (length (drop n (tab a))) 1) as [E1|Hl1]; [left; exact E1|right].
  rewrite length_drop in Hl1. rewrite sval_drop by assumption. unfold len in *. rewrite length_drop.
  destruct Hm as [Hm|Hm]; [lia|].
  assert (limb_base ^ (Z.of_nat (length (tab a)) - 1) =
          limb_base ^ Z.of_nat n * (2 * (2 ^ (JS_LIMB_BITS - 1) *
            limb_base ^ (Z.of_nat (length (tab a) - n) - 2)))) as E.
  { rewrite (Z.mul_assoc 2), <- limb_base_half, <- Z.pow_succ_r, <- Z.pow_add_r by lia. f_equal. lia. }
  assert (limb_base ^ (Z.of_nat (length (tab a) - n) - 1) =
          2 * (2 ^ (JS_LIMB_BITS - 1) * limb_base ^ (Z.of_nat (length (tab a) - n) - 2))) as E'.
  { rewrite (Z.mul_assoc 2), <- limb_base_half, <- Z.pow_succ_r by lia. f_equal. lia. }
  rewrite E'. rewrite E in Hm. set (Q := 2 ^ (JS_LIMB_BITS - 1) * _) in *.
  assert (0 < limb_base ^ Z.of_nat n) as HP by (apply Z.pow_pos_nonneg; pose proof limb_base_big; lia).
  set (P := limb_base ^ Z.of_nat n) in *. destruct Hm as [Hm|Hm].
  - left. assert (sval (tab a) / P < - Q); [|lia]. apply Z.div_lt_upper_bound; lia.
  - right. assert (Q <= sval (tab a) / P); [|lia]. apply Z.div_le_lower_bound; lia.
Qed.

Lemma shr_value src s neg :
  limbs_ok src -> src <> [] -> 1 <= s < JS_LIMB_BITS -> (sval src <? 0) = neg ->
  let rs := fst (mp_shr src s (js_limb (- c_bool neg))) in
  limbs_ok rs /\ length rs = length src /\ sval rs = sval src / 2 ^ s.
Proof.
  intros Hok Hne Hs Hneg. cbv zeta.
  pose proof (mp_shr_spec src s (js_limb (- c_bool neg)) Hok Hs) as H.
  destruct (mp_shr src s (js_limb (- c_bool neg))) as [rs m]. cbn [fst].
  destruct H as (Hrs & Hl & Hm & Ev). split; [exact Hrs|]. split; [exact Hl|].
  assert (js_limb (- c_bool neg) mod 2 ^ s = c_bool neg * (2 ^ s - 1)) as Eh.
  { rewrite js_limb_neg_bool. destruct neg; cbn [ext_limb c_bool]; [|apply Z.mod_0_l; lia].
    symmetry. apply (Z.mod_unique_pos _ _ (2 ^ (JS_LIMB_BITS - s) - 1)); [lia|].
    unfold limb_base. replace (2 ^ JS_LIMB_BITS) with (2 ^ s * 2 ^ (JS_LIMB_BITS - s))
      by (rewrite <- Z.pow_add_r by lia; f_equal; lia). ring. }
  rewrite Eh, (mp_val_sval src Hok), Hneg in Ev.
  assert (mp_base rs = mp_base src) as Eb by (apply mp_base_length, Hl).
  assert (mp_val rs - c_bool neg * mp_base src = sval src / 2 ^ s) as Eq
    by (apply (Z.div_unique_pos _ _ _ m); lia).
  pose proof (sval_range src Hok) as Hr. pose proof (half_base src Hne) as Eh2.
  apply (sval_unique _ _ (c_bool neg) Hrs); rewrite Eb; [lia|]. rewrite Eh2 in *. set (h := 2 ^ (_ - 1)) in *.
  assert (0 < 2 ^ s) as HP by lia. assert (0 < h) by (unfold h; lia). set (P := 2 ^ s) in *.
  assert (h <= P * h) by (rewrite <- (Z.mul_1_l h) at 1; apply Z.mul_le_mono_nonneg_r; lia).
  assert (- h <= sval src / P) by (apply Z.div_le_lower_bound; lia).
  assert (sval src / P < h) by (apply Z.div_lt_upper_bound; lia). lia.
Qed.

Lemma js_bigint_shr_spec a shift1 :
  bi_norm a -> 0 <= shift1 ->
  mspec (js_bigint_shr a shift1)
    (fun r => bi_norm r /\ bi_val r = bi_val a / 2 ^ shift1)
    (fun e => e = err_alloc /\ JS_BIGINT_MAX_SIZE < bi_len a).
Proof.
  intros Ha Hs1. pose proof (bi_len_pos a (proj1 Ha)) as Hla. pose proof limb_bits_pos as HL.
  unfold js_bigint_shr. cbv zeta. set (d := shift1 / JS_LIMB_BITS). set (s := shift1 mod JS_LIMB_BITS).
  assert (0 <= d) as Hd by (apply Z.div_pos; lia).
  assert (0 <= s < JS_LIMB_BITS) as Hs by (apply Z.mod_pos_bound; lia).
  rewrite (js_bigint_sign_spec _ (proj1 Ha)). rewrite (pow2_split shift1 Hs1). fold d. fold s.
  pose proof limb_base_big as HB. assert (0 < limb_base ^ d) as HP by (apply Z.pow_pos_nonneg; lia).
  assert (0 < 2 ^ s) as HPs by lia.
  destruct (Z.leb_spec (bi_len a) d) as [Hge|Hlt].
  { eapply mspec_mono; [apply js_bigint_new_si_spec| |intros e He; exact He].
    intros r (H1 & H2 & _). split; [exact H1|]. rewrite H2. unfold js_slimb.
    rewrite swrap_small by (try lia; pose proof limb_half_big; destruct (bi_val a <? 0); cbn; lia).
    pose proof (sval_range (tab a) (proj1 (proj1 Ha))) as Hr. fold (bi_val a) in Hr.
    rewrite mp_base_bi in Hr.
    assert (limb_base ^ bi_len a <= limb_base ^ d) by (apply Z.pow_le_mono_r; lia).
    assert (limb_base ^ d * 1 <= limb_base ^ d * 2 ^ s) by (apply Z.mul_le_mono_nonneg_l; lia).
    destruct (Z.ltb_spec (bi_val a) 0); cbn [c_bool].
    - apply (Z.div_unique_pos _ _ _ (bi_val a + limb_base ^ d * 2 ^ s)); lia.
    - symmetry. apply Z.div_small. lia. }
  eapply mspec_bind.
  { eapply mspec_mono; [apply js_bigint_new_spec; lia|intros r Hr; exact Hr|].
    intros e [-> He]. split; [reflexivity|lia]. }
  intros r Hr. cbv beta in Hr. unfold bi_len in *. rewrite slice_suffix, ret_bind by lia.
  pose proof (drop_norm a (Z.to_nat d) Ha ltac:(unfold len in *; lia)) as Hn.
  pose proof (sval_drop (tab a) (Z.to_nat d) (proj1 (proj1 Ha)) ltac:(unfold len in *; lia)) as Ev.
  rewrite Z2Nat.id in Ev by lia. rewrite <- Z.div_div by lia. fold (bi_val a) in Ev. rewrite <- Ev.
  assert (len (drop (Z.to_nat d) (tab a)) = len (tab a) - d) as Hld
    by (unfold len in *; rewrite length_drop; lia).
  destruct (Z.eqb_spec s 0) as [Es|Hsnz].
  - rewrite blit_all, ret_bind by lia. apply mspec_ret. split; [exact Hn|].
    rewrite Es, Z.pow_0_r, Z.div_1_r. reflexivity.
  - destruct (shr_value (drop (Z.to_nat d) (tab a)) s (bi_val a <? 0)) as (H1 & H2 & H3);
      [apply Hn|apply Hn|lia| |].
    { rewrite Ev. destruct (Z.ltb_spec (bi_val a) 0), (Z.ltb_spec (bi_val a / limb_base ^ d) 0); try reflexivity.
      - assert (bi_val a / limb_base ^ d < 0) by (apply Z.div_lt_upper_bound; lia). lia.
      - assert (0 <= bi_val a / limb_base ^ d) by (apply Z.div_pos; lia). lia. }
    rewrite blit_all, ret_bind by (unfold len in *; lia).
    eapply mspec_mono; [apply js_bigint_normalize_spec| |intros e He; exact He].
    + split; [exact H1|]. cbn [tab]. intros E0. rewrite E0 in H2. unfold len in *. simpl in H2. lia.
    + intros q (H4 & H5 & _). split; [exact H4|]. rewrite H5. exact H3.
Qed.

End BigIntShift.
