(* ===== verification/BigIntPow.v ===== *)
(** Comparison and exponentiation of BigInts. *)
From stdpp Require Import base tactics list numbers.
From Stdlib Require Import ZArith Lia.
From S2P Require Import Prelude Limbs LimbSpecs BigInt BigIntMul BigIntDivRem BigIntBits.

Open Scope Z_scope.

Section BigIntPow.
Context `{LC : LimbConfig} `{FM : FreshMemory}.

(** ** [js_bigint_cmp] *)

Lemma norm_lower a : bi_norm a -> bi_val a <> 0 -> limb_base ^ (bi_len a - 1) <= 2 * Z.abs (bi_val a).
Proof.
  intros [[Hok Hne] Hm] Hnz. unfold bi_val, bi_len, minimal in *. destruct Hm as [Hm|Hm]; [|lia].
  unfold len. rewrite Hm. change (Z.of_nat 1 - 1) with 0. rewrite Z.pow_0_r. lia.
Qed.

Lemma norm_upper a : bi_ok a -> 2 * Z.abs (bi_val a) <= limb_base ^ bi_len a.
Proof. intros [Hok _]. pose proof (sval_range _ Hok) as H. rewrite mp_base_bi in H. unfold bi_val. lia. Qed.

Lemma sgn_pos x : 0 < x -> Z.sgn x = 1.
Proof. lia. Qed.

Lemma sgn_neg x : x < 0 -> Z.sgn x = -1.
Proof. lia. Qed.

Lemma cmp_limbs_spec a b i :
  limbs_ok a -> limbs_ok b -> length a = length b -> (i <= length a)%nat ->
  cmp_limbs a b i = Z.sgn (mp_val (take i a) - mp_val (take i b)).
Proof.
  intros Ha Hb Hl. induction i as [|i IH]; intros Hi; [reflexivity|]. cbn [cmp_limbs]. cbv zeta.
  destruct (lookup_lt_is_Some_2 a i ltac:(lia)) as [x Hx].
  destruct (lookup_lt_is_Some_2 b i ltac:(lia)) as [y Hy].
  rewrite (list_lookup_total_correct _ _ _ Hx), (list_lookup_total_correct _ _ _ Hy).
  rewrite (take_S_r _ _ _ Hx), (take_S_r _ _ _ Hy), !val_snoc.
  assert (mp_base (take i b) = mp_base (take i a)) as Eb
    by (apply mp_base_length; rewrite !length_take, Hl; reflexivity).
  pose proof (mp_val_bounds _ (limbs_ok_take i a Ha)). pose proof (mp_val_bounds _ (limbs_ok_take i b Hb)).
  rewrite Eb in *. rewrite IH by lia. set (P := mp_base (take i a)) in *.
  destruct (Z.eqb_spec x y) as [->|Hne]; cbn [negb]; [f_equal; lia|].
  destruct (Z.ltb_spec x y).
  - assert (P * (x + 1) <= P * y) by (apply Z.mul_le_mono_nonneg_l; lia). symmetry. apply sgn_neg. lia.
  - assert (P * (y + 1) <= P * x) by (apply Z.mul_le_mono_nonneg_l; lia). symmetry. apply sgn_pos. lia.
Qed.

Lemma longer_is_larger a b : bi_norm a -> bi_norm b -> bi_len a < bi_len b ->
  Z.abs (bi_val a) < Z.abs (bi_val b) \/ (bi_val a < 0 <= bi_val b).
Proof.
  intros Ha Hb Hl. pose proof (bi_len_pos a (proj1 Ha)). pose proof limb_base_big.
  assert (limb_base ^ bi_len a <= limb_base ^ (bi_len b - 1)) as Hp by (apply Z.pow_le_mono_r; lia).
  destruct Ha as [[Ha _] _], Hb as [_ Hm]. pose proof (sval_range _ Ha) as Hr. rewrite mp_base_bi in Hr.
  unfold minimal, bi_val, bi_len in *. destruct Hm as [Hm|Hm]; [unfold len in *; lia|]. lia.
Qed.

Lemma js_bigint_cmp_spec a b :
  bi_norm a -> bi_norm b -> js_bigint_cmp a b = Z.sgn (bi_val a - bi_val b).
Proof.
  intros Ha Hb. unfold js_bigint_cmp.
  rewrite (js_bigint_sign_spec _ (proj1 Ha)), (js_bigint_sign_spec _ (proj1 Hb)). cbv zeta.
  assert (forall p q, negb (c_bool p =? c_bool q) = xorb p q) as Ex by (intros [] []; reflexivity).
  rewrite Ex.
  destruct (xorb (bi_val a <? 0) (bi_val b <? 0)) eqn:Es.
  { destruct (Z.ltb_spec (bi_val a) 0), (Z.ltb_spec (bi_val b) 0); cbn [xorb c_bool] in *; try discriminate; lia. }
  destruct (Z.eqb_spec (bi_len a) (bi_len b)) as [El|Hl]; cbn [negb].
  - unfold bi_len, len in El. rewrite cmp_limbs_spec by (try apply Ha; try apply Hb; lia).
    rewrite !take_ge by lia. f_equal. unfold bi_val in *.
    rewrite (mp_val_sval _ (proj1 (proj1 Ha))), (mp_val_sval _ (proj1 (proj1 Hb))).
    rewrite (mp_base_length (tab a) (tab b)) by lia.
    destruct (sval (tab a) <? 0), (sval (tab b) <? 0); try discriminate; lia.
  - destruct (Z.ltb_spec (bi_len a) (bi_len b)) as [Hlt|Hge].
    + pose proof (longer_is_larger a b Ha Hb Hlt).
      destruct (Z.ltb_spec (bi_val a) 0), (Z.ltb_spec (bi_val b) 0); cbn [xorb c_bool] in *; try discriminate; lia.
    + pose proof (longer_is_larger b a Hb Ha ltac:(lia)).
      destruct (Z.ltb_spec (bi_val a) 0), (Z.ltb_spec (bi_val b) 0); cbn [xorb c_bool] in *; try discriminate; lia.
Qed.

(** ** Exponents *)

Lemma max_size_bits : JS_BIGINT_MAX_SIZE * JS_LIMB_BITS = 2 ^ 20.
Proof. unfold JS_BIGINT_MAX_SIZE. destruct limb_bits_cases as [-> | ->]; reflexivity. Qed.

(** What the size exceptions of [js_bigint_pow] mean: the exact result needs at
    least [JS_BIGINT_MAX_SIZE - 1] limbs. *)
Definition pow_too_large (x : Z) : Prop := limb_base ^ (JS_BIGINT_MAX_SIZE - 1) <= 4 * Z.abs x.

Lemma pow_too_large_pow2 k : 2 ^ 20 - 1 <= k -> pow_too_large (2 ^ k).
Proof.
  intros Hk. unfold pow_too_large, limb_base. pose proof limb_bits_pos. pose proof max_size_big.
  rewrite <- Z.pow_mul_r by lia. rewrite Z.abs_eq by (apply Z.pow_nonneg; lia).
  assert (2 ^ (JS_LIMB_BITS * (JS_BIGINT_MAX_SIZE - 1)) <= 2 ^ k).
  { apply Z.pow_le_mono_r; [lia|]. pose proof max_size_bits. lia. }
  assert (0 <= 2 ^ k) by (apply Z.pow_nonneg; lia). lia.
Qed.

Lemma pow_too_large_mono x y : Z.abs x <= Z.abs y -> pow_too_large x -> pow_too_large y.
Proof. unfold pow_too_large. lia. Qed.

Lemma abs_pow_mono x j k : 1 <= Z.abs x -> 0 <= j <= k -> Z.abs (x ^ j) <= Z.abs (x ^ k).
Proof. intros Hx Hj. rewrite !Z.abs_pow. apply Z.pow_le_mono_r; lia. Qed.

Lemma big_exponent_too_large x e : 2 <= Z.abs x -> 2 ^ 31 <= e -> pow_too_large (x ^ e).
Proof.
  intros Hx He. eapply pow_too_large_mono; [|apply (pow_too_large_pow2 e); lia].
  rewrite Z.abs_eq by (apply Z.pow_nonneg; lia). rewrite Z.abs_pow. apply Z.pow_le_mono_l. lia.
Qed.

(** A product too long to allocate is too large. *)
Lemma product_too_large a b :
  bi_norm a -> bi_norm b -> bi_val a <> 0 -> bi_val b <> 0 ->
  JS_BIGINT_MAX_SIZE < bi_len a + bi_len b -> pow_too_large (bi_val a * bi_val b).
Proof.
  intros Ha Hb Hza Hzb Hl. unfold pow_too_large.
  pose proof (norm_lower a Ha Hza) as H1. pose proof (norm_lower b Hb Hzb) as H2.
  pose proof (bi_len_pos a (proj1 Ha)). pose proof (bi_len_pos b (proj1 Hb)). pose proof limb_base_big.
  assert (limb_base ^ (JS_BIGINT_MAX_SIZE - 1) <= limb_base ^ (bi_len a - 1) * limb_base ^ (bi_len b - 1)).
  { rewrite <- Z.pow_add_r by lia. apply Z.pow_le_mono_r; lia. }
  assert (limb_base ^ (bi_len a - 1) * limb_base ^ (bi_len b - 1) <=
          (2 * Z.abs (bi_val a)) * (2 * Z.abs (bi_val b))).
  { apply Z.mul_le_mono_nonneg; try assumption; apply Z.pow_nonneg; lia. }
  rewrite Z.abs_mul. lia.
Qed.

Lemma single_limb_val b : bi_norm b -> 0 <= bi_val b -> bi_len b = 1 -> bi_val b = tab b !!! 0%nat.
Proof.
  intros [[Hok Hne] _] Hpos Hl. unfold bi_val, bi_len, len in *.
  destruct (tab b) as [|x [|y t]]; simpl in Hl; try lia.
  cbn in *. inversion Hok as [|? ? Hx _]; subst. unfold sval in *.
  rewrite mp_base_cons in *. change (mp_base []) with 1 in *. cbn [mp_val] in *. unfold limb_ok in Hx.
  destruct (Z.leb_spec (limb_base * 1) (2 * (x + limb_base * 0))); lia.
Qed.

Lemma pow_exponent_spec b x :
  bi_norm b -> 0 <= bi_val b -> 2 <= Z.abs x ->
  mspec (pow_exponent b) (fun e => e = bi_val b /\ e = tab b !!! 0%nat /\ e <= INT32_MAX)
    (fun e => e = err_large /\ pow_too_large (x ^ bi_val b)).
Proof.
  intros Hb Hpos Hx. pose proof (bi_len_pos b (proj1 Hb)). unfold pow_exponent, INT32_MAX.
  destruct (Z.ltb_spec 1 (bi_len b)) as [Hl|Hl].
  - apply mspec_throw. split; [reflexivity|]. apply big_exponent_too_large; [exact Hx|].
    destruct (proj2 Hb) as [Hm|Hm]; [unfold bi_len, len in Hl; lia|].
    assert (limb_base ^ 1 <= limb_base ^ (len (tab b) - 1)) as Hp
      by (apply Z.pow_le_mono_r; [pose proof limb_base_big|unfold bi_len in *]; lia).
    rewrite Z.pow_1_r in Hp. pose proof limb_base_big. unfold bi_val in *. lia.
  - pose proof (single_limb_val b Hb Hpos ltac:(lia)) as Ev. rewrite <- Ev.
    destruct (Z.ltb_spec (2 ^ 31 - 1) (bi_val b)).
    + apply mspec_throw. split; [reflexivity|]. apply big_exponent_too_large; [exact Hx|lia].
    + apply mspec_ret. auto.
Qed.

(** ** Repeated squaring *)

Lemma pow_square_step e i : 0 <= e ->
  e / 2 ^ Z.of_nat i = 2 * (e / 2 ^ Z.of_nat (S i)) + Z.land (Z.shiftr e (Z.of_nat i)) 1.
Proof.
  intros He. rewrite land_1, Z.shiftr_div_pow2, Nat2Z.inj_succ by lia.
  assert (e / 2 ^ Z.succ (Z.of_nat i) = e / 2 ^ Z.of_nat i / 2) as ->
    by (rewrite Z.pow_succ_r, (Z.mul_comm 2), Z.div_div by lia; reflexivity).
  apply Z.div_mod. lia.
Qed.

Lemma pow_loop_spec i e a r :
  bi_norm a -> bi_norm r -> 2 <= Z.abs (bi_val a) -> 0 <= e ->
  1 <= e / 2 ^ Z.of_nat i -> bi_val r = bi_val a ^ (e / 2 ^ Z.of_nat i) ->
  mspec (pow_loop i e a r) (fun q => bi_norm q /\ bi_val q = bi_val a ^ e)
    (fun ex => ex = err_alloc /\ pow_too_large (bi_val a ^ e)).
Proof.
  revert r. induction i as [|i IH]; intros r Ha Hr Hbig He Hge Ev.
  - apply mspec_ret. split; [exact Hr|]. rewrite Ev. f_equal. apply Z.div_1_r.
  - cbn [pow_loop]. pose proof (pow_square_step e i He) as Estep.
    assert (Z.land (Z.shiftr e (Z.of_nat i)) 1 = 0 \/ Z.land (Z.shiftr e (Z.of_nat i)) 1 = 1) as Hbit
      by (rewrite land_1; pose proof (Z.mod_pos_bound (Z.shiftr e (Z.of_nat i)) 2 ltac:(lia)); lia).
    set (k := e / 2 ^ Z.of_nat (S i)) in *. set (bit := Z.land _ 1) in *.
    assert (e / 2 ^ Z.of_nat i <= e) as Hle by (apply Z.div_le_upper_bound; nia).
    assert (bi_val r <> 0) as Hrz by (rewrite Ev; apply Z.pow_nonzero; lia).
    assert (bi_val r * bi_val r = bi_val a ^ (2 * k)) as Esq
      by (rewrite Ev, <- Z.pow_add_r by lia; f_equal; lia).
    eapply mspec_bind.
    { eapply mspec_mono; [apply (js_bigint_mul_spec r r); apply Hr|intros q Hq; exact Hq|].
      intros ex [-> Hl]. split; [reflexivity|].
      eapply pow_too_large_mono; [|apply (product_too_large r r); eassumption].
      rewrite Esq. apply abs_pow_mono; lia. }
    intros r1 (Hr1 & Ev1 & _). rewrite Esq in Ev1.
    assert (bi_val r1 <> 0) as Hr1z by (rewrite Ev1; apply Z.pow_nonzero; lia).
    apply (mspec_bind _ _ _ (fun q => bi_norm q /\ bi_val q = bi_val a ^ (e / 2 ^ Z.of_nat i))).
    + destruct (Z.eqb_spec bit 0) as [E0|E1]; cbn [negb].
      * apply mspec_ret. split; [exact Hr1|]. rewrite Ev1. f_equal. lia.
      * assert (bi_val r1 * bi_val a = bi_val a ^ (e / 2 ^ Z.of_nat i)) as Em.
        { rewrite Ev1, Z.mul_comm, <- Z.pow_succ_r by lia. f_equal. lia. }
        eapply mspec_mono; [apply (js_bigint_mul_spec r1 a); [apply Hr1|apply Ha]| |].
        -- intros q (H1 & H2 & _). split; [exact H1|]. rewrite H2. exact Em.
        -- intros ex [-> Hl]. split; [reflexivity|].
           eapply pow_too_large_mono; [|apply (product_too_large r1 a); [assumption..|lia|exact Hl]].
           rewrite Em. apply abs_pow_mono; lia.
    + intros r2 [Hr2 Ev2]. apply IH; try assumption. lia.
Qed.

Lemma pow_general_spec a b :
  bi_norm a -> bi_norm b -> 2 <= Z.abs (bi_val a) -> 1 <= bi_val b ->
  mspec (pow_general a b) (fun q => bi_norm q /\ bi_val q = bi_val a ^ bi_val b)
    (fun ex => (ex = err_large \/ ex = err_alloc) /\ pow_too_large (bi_val a ^ bi_val b)).
Proof.
  intros Ha Hb Hbig Hpos. unfold pow_general.
  eapply mspec_bind.
  { eapply mspec_mono; [apply (pow_exponent_spec b (bi_val a) Hb); lia|intros e He; exact He|].
    intros ex [-> H]. auto. }
  intros e (Ee & _ & Hmax). cbv zeta. unfold INT32_MAX in Hmax.
  eapply mspec_bind.
  { eapply mspec_mono; [apply js_bigint_new_spec; apply len_nonneg|intros r Hr; exact Hr|].
    intros ex [-> Hl]. split; [auto|]. apply (pow_too_large_mono (bi_val a ^ 1)); [apply abs_pow_mono; lia|].
    rewrite Z.pow_1_r. unfold pow_too_large. pose proof (norm_lower a Ha ltac:(lia)) as Hlow.
    assert (limb_base ^ (JS_BIGINT_MAX_SIZE - 1) <= limb_base ^ (bi_len a - 1)); [|lia].
    apply Z.pow_le_mono_r; [pose proof limb_base_big|]; lia. }
  intros r Hr. cbv beta in Hr. rewrite blit_all, ret_bind by exact Hr.
  assert (Z.to_nat (32 - clz32 e - 1) = Z.to_nat (Z.log2 e)) as -> by (unfold clz32, clz; f_equal; lia).
  pose proof (Z.log2_spec e ltac:(lia)) as [Hlo Hhi]. pose proof (Z.log2_nonneg e).
  assert (e / 2 ^ Z.of_nat (Z.to_nat (Z.log2 e)) = 1) as Eq.
  { rewrite Z2Nat.id by lia. rewrite Z.pow_succ_r in Hhi by lia.
    symmetry. apply (Z.div_unique_pos _ _ _ (e - 2 ^ Z.log2 e)); lia. }
  rewrite <- Ee. destruct a as [ta].
  eapply mspec_mono; [apply (pow_loop_spec _ e (MkBigInt ta) (MkBigInt ta)); try assumption; try lia| |].
  - rewrite Eq, Z.pow_1_r. reflexivity.
  - intros q Hq. exact Hq.
  - intros ex [-> H']. auto.
Qed.

(** ** Powers of powers of two *)

Lemma land_pred_pow2 v : 0 < v -> Z.land v (v - 1) = 0 -> v = 2 ^ Z.log2 v.
Proof.
  intros Hv Hl. pose proof (Z.log2_spec v Hv) as [H1 H2]. pose proof (Z.log2_nonneg v).
  destruct (Z.eq_dec v (2 ^ Z.log2 v)) as [E|Hne]; [exact E|exfalso].
  assert (Z.log2 (v - 1) = Z.log2 v) as El by (apply Z.log2_unique; lia).
  assert (Z.testbit (Z.land v (v - 1)) (Z.log2 v) = true) as Hb.
  { rewrite Z.land_spec, Z.bit_log2 by lia. rewrite <- El, Z.bit_log2 by lia. reflexivity. }
  rewrite Hl, Z.bits_0 in Hb. discriminate.
Qed.

(** The array that [js_bigint_pow] builds for [+-2^(q * JS_LIMB_BITS + s)]. *)
Lemma pow2_limbs q s neg :
  0 <= s < JS_LIMB_BITS ->
  let x := js_limb (Z.shiftl (js_limb (1 - 2 * c_bool neg)) s) in
  let r := MkBigInt (replicate q 0 ++ x :: replicate (Z.to_nat ((s + 1 - c_bool neg) / JS_LIMB_BITS)) 0) in
  bi_norm r /\ bi_val r = (1 - 2 * c_bool neg) * (limb_base ^ Z.of_nat q * 2 ^ s).
Proof.
  intros Hs. cbv zeta. pose proof limb_bits_pos as HL. pose proof limb_base_half as EB.
  pose proof limb_base_big as HB.
  assert (2 ^ s <= 2 ^ (JS_LIMB_BITS - 1)) as H2s by (apply Z.pow_le_mono_r; lia).
  assert (0 < 2 ^ s) as Hpos by lia.
  set (x := js_limb _). set (hi := x :: _).
  assert (limbs_ok hi /\ sval hi = (1 - 2 * c_bool neg) * 2 ^ s /\ minimal hi) as (Hok & Ev & Hmin).
  { unfold hi. destruct neg; cbn [c_bool] in *.
    - rewrite Z.div_small by lia. change (replicate (Z.to_nat 0) 0) with (@nil Z).
      assert (x = limb_base - 2 ^ s) as Ex.
      { unfold x. change (1 - 2 * 1) with (-1). rewrite js_limb_m1, Z.shiftl_mul_pow2, js_limb_eq by lia.
        symmetry. apply (Z.mod_unique_pos _ _ (2 ^ s - 1)); lia. }
      clearbody x. assert (limb_ok x) by (unfold limb_ok; lia).
      assert (limbs_ok [x]) by (constructor; [assumption|constructor]).
      split; [assumption|]. split; [|left; reflexivity].
      apply (sval_unique _ _ 1); [assumption|..]; rewrite mp_base_cons; change (mp_base []) with 1;
        cbn [mp_val]; lia.
    - assert (x = 2 ^ s) as Ex.
      { unfold x. change (1 - 2 * 0) with 1. rewrite (js_limb_small 1), Z.shiftl_1_l by (unfold limb_ok; lia).
        apply js_limb_small. unfold limb_ok. lia. }
      clearbody x. assert (limb_ok x) by (unfold limb_ok; lia).
      destruct (Z.eq_dec s (JS_LIMB_BITS - 1)) as [Es|Hne].
      + replace ((s + 1 - 0) / JS_LIMB_BITS) with 1 by (rewrite Es; apply (Z.div_unique_pos _ _ _ 0); lia).
        change (replicate (Z.to_nat 1) 0) with [0].
        assert (limbs_ok [x; 0]) by (constructor; [assumption|constructor; [apply limb_ok_0|constructor]]).
        assert (sval [x; 0] = 2 ^ s) as Esv.
        { apply (sval_unique _ _ 0); [assumption|..]; rewrite ?mp_base_cons; change (mp_base []) with 1;
          cbn [mp_val]; [lia|]. assert (2 ^ 32 * limb_base <= limb_base * limb_base) by (apply Z.mul_le_mono_nonneg_r; lia). lia. }
        split; [assumption|]. split; [lia|]. right. right. rewrite Esv.
        change (len [x; 0] - 1) with 1. rewrite Z.pow_1_r, Es. lia.
      + assert (s + 1 < JS_LIMB_BITS) by lia. rewrite Z.div_small by lia. change (replicate (Z.to_nat 0) 0) with (@nil Z).
        assert (2 ^ s <= 2 ^ (JS_LIMB_BITS - 2)) by (apply Z.pow_le_mono_r; lia).
        assert (2 ^ (JS_LIMB_BITS - 1) = 2 * 2 ^ (JS_LIMB_BITS - 2)) by (rewrite <- Z.pow_succ_r by lia; f_equal; lia).
        assert (limbs_ok [x]) by (constructor; [assumption|constructor]).
        split; [assumption|]. split; [|left; reflexivity].
        apply (sval_unique _ _ 0); [assumption|..]; rewrite mp_base_cons; change (mp_base []) with 1;
          cbn [mp_val]; lia. }
  assert (hi <> []) as Hne by discriminate.
  split.
  - apply (zeros_norm (MkBigInt hi) q); [split; [split; assumption|exact Hmin]|].
    unfold bi_val. cbn [tab]. rewrite Ev. destruct neg; cbn [c_bool]; lia.
  - unfold bi_val. cbn [tab]. rewrite sval_zeros, Ev by assumption. ring.
Qed.

Lemma sign_pow neg n e :
  0 <= n -> 0 <= e ->
  ((1 - 2 * c_bool neg) * 2 ^ n) ^ e = (1 - 2 * c_bool (neg && Z.odd e)) * 2 ^ (e * n).
Proof.
  intros Hn He. rewrite Z.pow_mul_l, <- Z.pow_mul_r, (Z.mul_comm n) by lia. f_equal.
  destruct neg; cbn [c_bool andb]; [|change (1 - 2 * 0) with 1; apply Z.pow_1_l; exact He].
  change (1 - 2 * 1) with (- (1)). destruct (Z.odd e) eqn:Eo; cbn [c_bool].
  - rewrite Z.pow_opp_odd by (apply Z.odd_spec, Eo). rewrite Z.pow_1_l by exact He. reflexivity.
  - rewrite Z.pow_opp_even by (apply Z.even_spec; rewrite <- Z.negb_odd, Eo; reflexivity).
    rewrite Z.pow_1_l by exact He. reflexivity.
Qed.

Lemma pow2_limb_count e1 neg :
  0 <= e1 ->
  (e1 + JS_LIMB_BITS + 1 - c_bool neg) / JS_LIMB_BITS =
    e1 / JS_LIMB_BITS + 1 + (e1 mod JS_LIMB_BITS + 1 - c_bool neg) / JS_LIMB_BITS.
Proof.
  intros He. pose proof limb_bits_pos. rewrite (Z.div_mod e1 JS_LIMB_BITS) at 1 by lia.
  rewrite <- Z.div_add_l by lia. f_equal. ring.
Qed.

Lemma replicate_set_mid q m x (t : list Z) :
  len t = Z.of_nat q + 1 + Z.of_nat m ->
  tab_set (replicate (length t) 0) (Z.of_nat q) x = mret (replicate q 0 ++ x :: replicate m 0).
Proof.
  intros Hl. assert (replicate (length t) 0 = replicate q 0 ++ 0 :: replicate m 0) as ->.
  { replace (length t) with (q + S m)%nat by (unfold len in Hl; lia). rewrite replicate_add. reflexivity. }
  apply tab_set_app. rewrite len_replicate. reflexivity.
Qed.

Lemma pow_power_of_two_spec v is_neg b :
  bi_norm b -> 1 <= bi_val b -> 2 <= v <= 2 ^ (JS_LIMB_BITS - 1) -> Z.land v (v - 1) = 0 ->
  let x := ((1 - 2 * c_bool is_neg) * v) ^ bi_val b in
  mspec (pow_power_of_two v is_neg b) (fun q => bi_norm q /\ bi_val q = x)
    (fun ex => (ex = err_large \/ ex = err_alloc) /\ pow_too_large x).
Proof.
  intros Hb Hpos Hv Hland x. subst x. unfold pow_power_of_two. pose proof limb_bits_pos as HL.
  assert (JS_LIMB_BITS <= 64) as HL' by (destruct limb_bits_cases; lia).
  pose proof (land_pred_pow2 v ltac:(lia) Hland) as Ev.
  assert (JS_LIMB_BITS - 1 - js_limb_clz v = Z.log2 v) as ->.
  { unfold js_limb_clz, clz32, clz64, clz. destruct limb_bits_cases as [E|E]; rewrite E; cbn [Z.eqb Pos.eqb]; lia. }
  set (n := Z.log2 v) in *. assert (0 <= n) as Hn by apply Z.log2_nonneg.
  assert (n <= JS_LIMB_BITS - 1) as HnL
    by (apply (Z.pow_le_mono_r_iff 2); [lia|lia|rewrite <- Ev; apply Hv]).
  rewrite Ev. cbv zeta. rewrite (sign_pow is_neg n (bi_val b)) by lia.
  eapply mspec_bind.
  { eapply mspec_mono; [apply (pow_exponent_spec b ((1 - 2 * c_bool is_neg) * 2 ^ n) Hb);
      [lia|rewrite <- Ev; destruct is_neg; cbn [c_bool]; lia]|intros e He; exact He|].
    intros ex [-> H]. split; [auto|]. rewrite sign_pow in H by lia. exact H. }
  intros e (Ee & Et & Hmax). unfold INT32_MAX in Hmax. rewrite <- Et, <- Ee.
  assert (0 <= e * n <= 2 ^ 31 * 63) as Hen by (apply mul_bounds; lia).
  assert (wrap 64 (e * n) = e * n) as -> by (apply wrap_small; lia).
  set (e1 := e * n) in *. clearbody e1.
  set (neg := is_neg && Z.odd e).
  assert ((if is_neg then Z.land e 1 else 0) = c_bool neg) as ->.
  { unfold neg. destruct is_neg; [|reflexivity]. cbn [andb]. rewrite land_1, Zmod_odd.
    destruct (Z.odd e); reflexivity. }
  assert (forall k, 2 ^ 20 - 1 <= k -> pow_too_large ((1 - 2 * c_bool neg) * 2 ^ k)) as Hlarge.
  { intros k Hk. eapply pow_too_large_mono; [|apply (pow_too_large_pow2 k Hk)].
    destruct neg; cbn [c_bool]; lia. }
  pose proof max_size_bits as Emax. rewrite Emax.
  destruct (Z.ltb_spec (2 ^ 20) e1) as [Hgt|Hle].
  { apply mspec_throw. split; [auto|]. apply Hlarge. lia. }
  assert (0 <= e1 mod JS_LIMB_BITS < JS_LIMB_BITS) as Hs by (apply Z.mod_pos_bound; lia).
  assert (0 <= e1 / JS_LIMB_BITS) as Hq by (apply Z.div_pos; lia).
  pose proof (c_bool_bounds neg) as Hcb.
  assert (0 <= (e1 mod JS_LIMB_BITS + 1 - c_bool neg) / JS_LIMB_BITS) as Hm by (apply Z.div_pos; lia).
  eapply mspec_bind.
  { eapply mspec_mono; [apply js_bigint_new_spec; rewrite pow2_limb_count; lia|intros r Hr; exact Hr|].
    intros ex [-> Hl]. split; [auto|]. apply Hlarge.
    assert (JS_BIGINT_MAX_SIZE + 1 <= (e1 + JS_LIMB_BITS + 1 - c_bool neg) / JS_LIMB_BITS) as Hl' by lia.
    apply (Z.mul_le_mono_nonneg_r _ _ JS_LIMB_BITS) in Hl'; [|lia].
    assert (JS_LIMB_BITS * ((e1 + JS_LIMB_BITS + 1 - c_bool neg) / JS_LIMB_BITS) <=
            e1 + JS_LIMB_BITS + 1 - c_bool neg) by (apply Z.mul_div_le; lia). lia. }
  intros r Hr. cbv beta in Hr. rewrite pow2_limb_count in Hr by lia.
  rewrite <- (Z2Nat.id (e1 / JS_LIMB_BITS)) at 1 by lia.
  rewrite (replicate_set_mid _ (Z.to_nat ((e1 mod JS_LIMB_BITS + 1 - c_bool neg) / JS_LIMB_BITS)))
    by (rewrite !Z2Nat.id by lia; exact Hr).
  rewrite ret_bind. apply mspec_ret.
  destruct (pow2_limbs (Z.to_nat (e1 / JS_LIMB_BITS)) (e1 mod JS_LIMB_BITS) neg Hs) as [H1 H2].
  split; [exact H1|]. rewrite H2, Z2Nat.id, <- pow2_split by lia. reflexivity.
Qed.

(** ** [js_bigint_pow] *)

Definition pow_result (a b q : JSBigInt) : Prop := bi_norm q /\ bi_val q = bi_val a ^ bi_val b.

Definition pow_exn (a b : JSBigInt) (ex : exn) : Prop :=
  (ex = err_negexp /\ bi_val b < 0) \/
  (0 <= bi_val b /\ (ex = err_large \/ ex = err_alloc) /\ pow_too_large (bi_val a ^ bi_val b)).

Lemma new_si_pow a b x :
  - 2 ^ 31 <= x < 2 ^ 31 -> bi_val a ^ bi_val b = x ->
  mspec (js_bigint_new_si x) (pow_result a b) (pow_exn a b).
Proof.
  intros Hx Ex. eapply mspec_mono; [apply js_bigint_new_si_spec| |intros e He; exact He].
  intros q (H1 & H2 & _). split; [exact H1|]. rewrite H2, Ex. apply swrap_small; [pose proof limb_bits_pos; lia|].
  pose proof limb_half_big. lia.
Qed.

Lemma odd_val b : bi_ok b -> Z.land (tab b !!! 0%nat) 1 = c_bool (Z.odd (bi_val b)).
Proof.
  intros [_ Hne]. unfold bi_val. destruct (tab b) as [|y t]; [congruence|].
  cbn [lookup_total list_lookup_total]. rewrite land_1, Zmod_odd.
  assert (Z.odd (sval (y :: t)) = Z.odd y) as ->; [|destruct (Z.odd y); reflexivity].
  unfold sval. rewrite mp_base_cons, limb_base_half. cbn [mp_val].
  case_tests; rewrite ?limb_base_half, <- ?Z.mul_assoc, ?Z.odd_sub, ?Z.odd_add, ?Z.odd_mul;
    cbn [Z.odd andb]; rewrite ?xorb_false_r; reflexivity.
Qed.

Lemma pow_general_case a b :
  bi_norm a -> bi_norm b -> 2 <= Z.abs (bi_val a) -> 1 <= bi_val b ->
  mspec (pow_general a b) (pow_result a b) (pow_exn a b).
Proof.
  intros Ha Hb Hbig Hpos.
  eapply mspec_mono; [apply (pow_general_spec a b Ha Hb Hbig Hpos)|intros q Hq; exact Hq|].
  intros ex He. right. split; [lia|exact He].
Qed.

(** The magnitude of a one-limb operand, as [js_bigint_pow] computes it. *)
Lemma single_limb_abs a v :
  bi_norm a -> tab a = [v] ->
  bi_val a = js_slimb v /\ limb_ok v /\
  (if bi_val a <? 0 then js_limb (- v) else v) = Z.abs (bi_val a) /\
  Z.abs (bi_val a) <= 2 ^ (JS_LIMB_BITS - 1) /\ (v <= 1 -> bi_val a = v) /\
  (2 <= v -> v <> limb_base - 1 -> 2 <= Z.abs (bi_val a)) /\ (v = limb_base - 1 -> bi_val a = -1).
Proof.
  intros [[Hok _] _] Et. rewrite Et in Hok. inversion Hok as [|? ? Hv _]; subst.
  pose proof limb_bits_pos as HL. pose proof limb_half_big as HH. pose proof limb_base_half as EB.
  assert (bi_val a = js_slimb v) as Ev'
    by (unfold bi_val; rewrite Et; rewrite <- (js_limb_small v Hv) at 1; apply sval_one).
  split; [exact Ev'|]. split; [exact Hv|]. unfold limb_ok in Hv.
  unfold js_slimb in Ev'. rewrite swrap_pattern in Ev' by (unfold limb_base in Hv; lia). fold limb_base in Ev'.
  destruct (Z.ltb_spec v (2 ^ (JS_LIMB_BITS - 1))); rewrite Ev'.
  - rewrite (proj2 (Z.ltb_ge _ _)) by lia. lia.
  - rewrite (proj2 (Z.ltb_lt _ _)) by lia. rewrite js_limb_eq.
    assert ((- v) mod limb_base = limb_base - v) as -> by (symmetry; apply (Z.mod_unique_pos _ _ (-1)); lia).
    lia.
Qed.

Lemma js_bigint_pow_spec a b :
  bi_norm a -> bi_norm b -> mspec (js_bigint_pow a b) (pow_result a b) (pow_exn a b).
Proof.
  intros Ha Hb. unfold js_bigint_pow. rewrite (js_bigint_sign_spec _ (proj1 Hb)), (bi_zero_iff b Hb).
  destruct (Z.ltb_spec (bi_val b) 0) as [Hbneg|Hbpos]; cbn [c_bool Z.eqb negb];
    [apply mspec_throw; left; auto|].
  destruct (Z.eqb_spec (bi_val b) 0) as [Eb|Hbnz].
  { apply new_si_pow; [lia|]. rewrite Eb. apply Z.pow_0_r. }
  destruct (Z.eqb_spec (bi_len a) 1) as [El|Hl].
  2:{ apply pow_general_case; [assumption..| |lia].
      pose proof (bi_len_pos a (proj1 Ha)). pose proof limb_base_big.
      destruct (proj2 Ha) as [Hm|Hm]; unfold bi_len in *; [unfold len in Hl; lia|].
      assert (limb_base ^ 1 <= limb_base ^ (len (tab a) - 1)) as Hp by (apply Z.pow_le_mono_r; lia).
      rewrite Z.pow_1_r in Hp. unfold bi_val. lia. }
  assert (exists v, tab a = [v]) as (v & Et).
  { unfold bi_len, len in El. destruct (tab a) as [|v [|? ?]]; simpl in El; try lia. exists v. reflexivity. }
  destruct (single_limb_abs a v Ha Et) as (Ev & Hv & Ew & Hw & Hsmall & Hbig & Hm1). unfold limb_ok in Hv.
  rewrite Et. cbn [lookup_total list_lookup_total]. cbv zeta.
  destruct (Z.leb_spec v 1) as [Hv1|Hv1].
  { apply new_si_pow; [lia|]. rewrite (Hsmall Hv1).
    assert (v = 0 \/ v = 1) as [-> | ->] by lia; [apply Z.pow_0_l; lia|apply Z.pow_1_l; lia]. }
  rewrite js_limb_m1. destruct (Z.eqb_spec v (limb_base - 1)) as [Em1|Hnm1].
  { rewrite (odd_val b (proj1 Hb)). apply new_si_pow; [destruct (Z.odd _); cbn; lia|].
    rewrite (Hm1 Em1). change (-1) with ((1 - 2 * c_bool true) * 2 ^ 0).
    rewrite sign_pow by lia. rewrite Z.mul_0_r, Z.pow_0_r, Z.mul_1_r. reflexivity. }
  rewrite <- Ev, Ew. specialize (Hbig ltac:(lia) Hnm1). pose proof limb_base_half.
  assert (js_limb (Z.abs (bi_val a) - 1) = Z.abs (bi_val a) - 1) as -> by (apply js_limb_small; unfold limb_ok; lia).
  destruct (Z.eqb_spec (Z.land (Z.abs (bi_val a)) (Z.abs (bi_val a) - 1)) 0) as [Hland|_];
    [|apply pow_general_case; auto; lia].
  assert (bi_val a = (1 - 2 * c_bool (bi_val a <? 0)) * Z.abs (bi_val a)) as Ea
    by (destruct (Z.ltb_spec (bi_val a) 0); cbn [c_bool]; lia).
  eapply mspec_mono; [apply pow_power_of_two_spec; try assumption; lia| |].
  - intros q [H1 H2]. split; [exact H1|]. rewrite <- Ea in H2. exact H2.
  - intros ex [H1 H2]. right. rewrite <- Ea in H2. auto.
Qed.

End BigIntPow.
