(* ===== verification/BigIntFloatSpecs.v ===== *)
(** Conversions between BigInts and float64 (quickjs.c, [js_bigint_to_float64],
    [js_bigint_from_float64], [js_bigint_float64_cmp]): definitions and proofs.

    A [double] is its 64-bit pattern, as [float64_as_uint64] gives it to the code. *)
From stdpp Require Import base tactics list numbers.
From Stdlib Require Import ZArith Lia.
From S2P Require Import Prelude Float64 Limbs LimbSpecs BigInt BigIntMul BigIntDivRem BigIntBits BigIntPow.

Open Scope Z_scope.

(** [(double)v] for a [js_slimb_t]: the conversion of the C language. *)
Definition slimb_to_float64 (v : Z) : Z := float64_round v.

(** Shift right with round to nearest, ties to even; [n >= 1]. *)
Definition shr_rndn (a n : Z) : Z :=
  let addend := Z.land (Z.shiftr a n) 1 + (Z.shiftl 1 (n - 1) - 1) in
  Z.shiftr (wrap 64 (a + addend)) n.

(** The "normalize" step of [js_bigint_get_mant_exp]: the shift and the two
    shifted words. *)
Definition mant_normalize (a1 a0 : Z) : Z * Z * Z :=
  if a1 =? 0 then (64, a0, 0)
  else
    let shift := clz64 a1 in
    if negb (shift =? 0)
    then (shift, Z.lor (wrap 64 (Z.shiftl a1 shift)) (Z.shiftr a0 (64 - shift)), wrap 64 (Z.shiftl a0 shift))
    else (shift, a1, a0).

Section BigIntFloat.
Context `{LC : LimbConfig} `{FM : FreshMemory}.

(** One pass of [v = (a->tab[i] ^ (-sgn)) + carry; carry = v < carry]. *)
Fixpoint abs_loop (sgn carry : Z) (t : list Z) : list Z * Z :=
  match t with
  | [] => ([], carry)
  | x :: t =>
      let v := js_limb (Z.lxor x (js_limb (- sgn)) + carry) in
      let '(vs, c) := abs_loop sgn (c_bool (v <? carry)) t in
      (v :: vs, c)
  end.

(** Returns the mantissa and the exponent. *)
Definition js_bigint_get_mant_exp (a : JSBigInt) : Z * Z :=
  let n2 := 4 - JS_LIMB_BITS / 32 in
  let n1 := bi_len a - n2 in
  let sgn := js_bigint_sign a in
  let '(los, carry) := abs_loop sgn sgn (take (Z.to_nat n1) (tab a)) in
  let low_bits := fold_left Z.lor los 0 in
  let '(his, _) := abs_loop sgn carry (drop (Z.to_nat n1) (tab a)) in
  let t := replicate (Z.to_nat (- n1)) 0 ++ his in
  let '(a1, a0) :=
    if JS_LIMB_BITS =? 32
    then (Z.lor (Z.shiftl (t !!! 2%nat) 32) (t !!! 1%nat), Z.shiftl (t !!! 0%nat) 32)
    else (t !!! 1%nat, t !!! 0%nat) in
  let a0 := Z.lor a0 (c_bool (negb (low_bits =? 0))) in
  let '(shift, a1, a0) := mant_normalize a1 a0 in
  let a1 := Z.lor a1 (c_bool (negb (a0 =? 0))) in
  (a1, bi_len a * JS_LIMB_BITS - shift - 1).

Definition js_bigint_to_float64 (a : JSBigInt) : Z :=
  if bi_len a =? 1 then slimb_to_float64 (js_slimb (tab a !!! 0%nat))
  else
    let sgn := js_bigint_sign a in
    let '(mant, e) := js_bigint_get_mant_exp a in
    let '(mant, e) :=
      if 1023 <? e then (0, 1024)
      else
        let mant := Z.lor (Z.shiftr mant 1) (Z.land mant 1) in
        let mant := shr_rndn mant 10 in
        let '(mant, e) := if 2 ^ 53 <=? mant then (Z.shiftr mant 1, e + 1) else (mant, e) in
        (Z.land mant (2 ^ 52 - 1), e) in
    Z.lor (Z.lor (Z.shiftl sgn 63) (Z.shiftl (e + 1023) 52)) mant.

(** The result and [*pres]: 0 for an integer, 1 for a number with a fractional
    part, 2 for NaN and the infinities. *)
Definition js_bigint_from_float64 (a : Z) : M (option JSBigInt * Z) :=
  let sgn := float64_sign a in
  let e := float64_exp a in
  let mant := float64_mant a in
  if e =? 2047 then mret (None, 2)
  else if (e =? 0) && (mant =? 0) then
    r ← js_bigint_new_si 0; mret (Some r, 0)
  else
    let e := e - 1023 in
    if e <? 0 then mret (None, 1)
    else
      let mant := Z.lor mant (Z.shiftl 1 52) in
      let frac := (e <? 52) && negb (Z.land mant (Z.shiftl 1 (52 - e) - 1) =? 0) in
      if frac then mret (None, 1)
      else
        let '(mant, e) := if e <? 52 then (Z.shiftr mant (52 - e), 0) else (mant, e - 52) in
        let mant := if negb (sgn =? 0) then wrap 64 (- mant) else mant in
        let r := js_bigint_set_si64 (swrap 64 mant) in
        r ← js_bigint_shl r e;
        mret (Some r, 0).

Definition js_bigint_float64_cmp (a : JSBigInt) (b1 : Z) : Z :=
  let b_sign := float64_sign b1 in
  let e := float64_exp b1 in
  let mant := float64_mant b1 in
  let a_sign := js_bigint_sign a in
  let a_zero := (bi_len a =? 1) && (tab a !!! 0%nat =? 0) in
  if e =? 2047 then
    if negb (mant =? 0) then 2 else 2 * b_sign - 1
  else if (e =? 0) && (mant =? 0) then
    if a_zero then 0 else 1 - 2 * a_sign
  else if a_zero then 2 * b_sign - 1
  else if negb (a_sign =? b_sign) then 1 - 2 * a_sign
  else
    let e := e - 1023 in
    let '(a_mant, f) := js_bigint_get_mant_exp a in
    if negb (f =? e) then (if f <? e then -1 else 1)
    else
      let mant := wrap 64 (Z.shiftl (Z.lor mant (Z.shiftl 1 52)) 11) in
      if a_mant <? mant then 2 * a_sign - 1
      else if mant <? a_mant then 1 - 2 * a_sign
      else 0.

End BigIntFloat.

(** ** The 128-bit window *)

Lemma lor_zero_iff x y : (Z.lor x y =? 0) = (x =? 0) && (y =? 0).
Proof.
  pose proof (Z.lor_eq_0_iff x y).
  destruct (Z.eqb_spec (Z.lor x y) 0), (Z.eqb_spec x 0), (Z.eqb_spec y 0); cbn; try reflexivity; exfalso; tauto.
Qed.

Lemma c_bool_zero b : (c_bool b =? 0) = negb b.
Proof. destruct b; reflexivity. Qed.

(** [mant_normalize] on [a1 : (a0 | s)], the sticky bit [s] standing for lower
    bits: the 64 leading bits of the window and whether anything is left. *)
Lemma mant_normalize_spec a1 a0 s :
  0 <= a1 < 2 ^ 64 -> 0 <= a0 < 2 ^ 64 -> (a1 = 0 -> 2 ^ 63 <= a0) ->
  exists shift hi lo,
    0 <= shift <= 64 /\ (shift = 64 <-> a1 = 0) /\ 2 ^ 63 <= hi < 2 ^ 64 /\ 0 <= lo < 2 ^ 64 /\
    (a1 * 2 ^ 64 + a0) * 2 ^ shift = hi * 2 ^ 64 + lo /\
    let '(sh, b1, b0) := mant_normalize a1 (Z.lor a0 (c_bool s)) in
    sh = shift /\ Z.lor b1 (c_bool (negb (b0 =? 0))) = Z.lor hi (c_bool (negb (lo =? 0) || s)).
Proof.
  intros H1 H0 Hz. unfold mant_normalize. destruct (Z.eqb_spec a1 0) as [E1|Hnz].
  { exists 64, a0, 0. split; [lia|]. split; [tauto|]. split; [lia|]. split; [lia|]. split; [lia|].
    split; [reflexivity|]. cbn [Z.eqb negb orb c_bool]. apply Z.lor_0_r. }
  pose proof (clz_spec 64 a1 ltac:(lia)) as [Hc Hn]. change (clz 64 a1) with (clz64 a1) in *.
  set (k := clz64 a1) in *. clearbody k. change (2 ^ (64 - 1)) with (2 ^ 63) in Hn. cbv zeta.
  destruct (Z.eqb_spec k 0) as [->|Hk]; cbn [negb].
  - exists 0, a1, a0. rewrite Z.pow_0_r in *. repeat split; try lia.
    rewrite lor_zero_iff, c_bool_zero. destruct (a0 =? 0), s; reflexivity.
  - assert (2 ^ 64 = 2 ^ (64 - k) * 2 ^ k) as E64 by (rewrite <- Z.pow_add_r by lia; f_equal; lia).
    assert (0 < 2 ^ k) as Pk by lia. assert (0 < 2 ^ (64 - k)) as Pk' by lia.
    assert (0 <= a0 / 2 ^ (64 - k) < 2 ^ k) as Hq
      by (split; [apply Z.div_pos; lia|apply Z.div_lt_upper_bound; lia]).
    assert (0 <= a0 mod 2 ^ (64 - k) < 2 ^ (64 - k)) as Hr by (apply Z.mod_pos_bound; lia).
    pose proof (Z.div_mod a0 (2 ^ (64 - k)) ltac:(lia)) as Ed.
    assert (wrap 64 (Z.shiftl a0 k) = a0 mod 2 ^ (64 - k) * 2 ^ k) as El.
    { unfold wrap. rewrite Z.shiftl_mul_pow2 by lia. symmetry.
      apply (Z.mod_unique_pos _ _ (a0 / 2 ^ (64 - k))).
      - split; [apply Z.mul_nonneg_nonneg; lia|]. rewrite E64. apply Z.mul_lt_mono_pos_r; lia.
      - rewrite Ed at 1. rewrite E64. ring. }
    exists k, (a1 * 2 ^ k + a0 / 2 ^ (64 - k)), (wrap 64 (Z.shiftl a0 k)).
    assert (a1 * 2 ^ k + 2 ^ k <= 2 ^ 64) as Hroom.
    { rewrite E64. assert (a1 * 2 ^ k < 2 ^ (64 - k) * 2 ^ k) as Hlt by lia.
      apply Z.mul_lt_mono_pos_r in Hlt; [|lia].
      replace (a1 * 2 ^ k + 2 ^ k) with ((a1 + 1) * 2 ^ k) by ring. apply Z.mul_le_mono_nonneg_r; lia. }
    split; [lia|]. split; [lia|]. split; [lia|]. split; [apply wrap_range; lia|].
    split; [rewrite El; rewrite Ed at 1; rewrite E64; ring|]. split; [reflexivity|].
    assert (Z.shiftr (Z.lor a0 (c_bool s)) (64 - k) = a0 / 2 ^ (64 - k)) as ->.
    { rewrite Z.shiftr_lor, Z.shiftr_div_pow2, (Z.shiftr_div_pow2 (c_bool s)) by lia.
      rewrite (Z.div_small (c_bool s)), Z.lor_0_r; [reflexivity|].
      pose proof (c_bool_bounds s). assert (2 ^ 1 <= 2 ^ (64 - k)) by (apply Z.pow_le_mono_r; lia). lia. }
    assert (wrap 64 (Z.shiftl a1 k) = Z.shiftl a1 k) as ->
      by (apply wrap_small; rewrite Z.shiftl_mul_pow2 by lia; lia).
    rewrite shl_lor_add by lia. f_equal. f_equal.
    rewrite Z.shiftl_lor. unfold wrap.
    pose proof (logic_op_mod OP_or (Z.shiftl a0 k) (Z.shiftl (c_bool s) k) 64 ltac:(lia)) as Em.
    cbn [logic_op] in Em. rewrite Em, lor_zero_iff, negb_andb. f_equal.
    destruct s; cbn [c_bool]; [|rewrite Z.shiftl_0_l; reflexivity].
    rewrite Z.shiftl_1_l, Z.mod_small; [|split; [lia|apply Z.pow_lt_mono_r; lia]].
    destruct (Z.eqb_spec (2 ^ k) 0); [lia|reflexivity].
Qed.

Lemma mant_exp_arith A T k1 k2 p low shift hi lo :
  0 < A -> 0 <= k1 -> 0 <= k2 -> 0 <= p -> 0 <= shift -> 0 <= low < 2 ^ k2 ->
  A * 2 ^ k1 = T * 2 ^ k2 + low -> T * 2 ^ p * 2 ^ shift = hi * 2 ^ 64 + lo ->
  2 ^ 63 <= hi < 2 ^ 64 -> 0 <= lo < 2 ^ 64 -> k2 = 0 \/ (k1 = 0 /\ p + shift <= 64) ->
  let e := k2 - k1 + 127 - p - shift in
  0 <= e /\ exists r, A * 2 ^ 63 = hi * 2 ^ e + r /\ 0 <= r < 2 ^ e /\ (r =? 0) = (lo =? 0) && (low =? 0).
Proof.
  intros HA Hk1 Hk2 Hp Hsh Hlow EA ET Hhi Hlo Hcase e.
  set (S := 2 ^ (k1 + p + shift)). assert (0 < S) as HS by (apply Z.pow_pos_nonneg; lia).
  assert (0 <= e) as He.
  { destruct Hcase as [E2|[E1 Hps]]; [|lia]. subst k2. rewrite Z.pow_0_r in *.
    assert (A * S = hi * 2 ^ 64 + lo) as E.
    { rewrite <- ET. replace T with (A * 2 ^ k1) by lia. unfold S. rewrite !Z.pow_add_r by lia. ring. }
    assert (1 * S <= A * S) by (apply Z.mul_le_mono_nonneg_r; lia).
    assert (k1 + p + shift < 128); [|lia]. apply (Z.pow_lt_mono_r_iff 2); [lia|lia|]. fold S. lia. }
  split; [exact He|].
  assert (2 ^ e * S = 2 ^ k2 * 2 ^ 127) as EeS by (unfold S; rewrite <- !Z.pow_add_r by lia; f_equal; lia).
  assert (A * 2 ^ 63 * S = hi * (2 ^ e * S) + (lo * 2 ^ 63 * 2 ^ k2 + low * (2 ^ 63 * 2 ^ (p + shift)))) as EX.
  { transitivity ((A * 2 ^ k1) * (2 ^ 63 * 2 ^ (p + shift))).
    - unfold S. rewrite <- Z.add_assoc, (Z.pow_add_r 2 k1) by lia. ring.
    - rewrite EA, EeS. transitivity ((T * 2 ^ p * 2 ^ shift) * (2 ^ 63 * 2 ^ k2) + low * (2 ^ 63 * 2 ^ (p + shift))).
      + rewrite (Z.pow_add_r 2 p) by lia. ring.
      + rewrite ET. change (2 ^ 127) with (2 ^ 63 * 2 ^ 64). ring. }
  set (R := lo * 2 ^ 63 * 2 ^ k2 + low * (2 ^ 63 * 2 ^ (p + shift))) in *.
  assert (0 < 2 ^ k2) as Pk2 by lia. assert (0 < 2 ^ (p + shift)) as Pps by (apply Z.pow_pos_nonneg; lia).
  assert (0 <= R) as HR0
    by (unfold R; apply Z.add_nonneg_nonneg; repeat (apply Z.mul_nonneg_nonneg); lia).
  assert (R < 2 ^ e * S) as HR.
  { rewrite EeS. unfold R. destruct Hcase as [E2|[E1 Hps]].
    - subst k2. rewrite Z.pow_0_r in *. replace low with 0 by lia. lia.
    - assert (exists m, lo = 2 ^ (p + shift) * m) as [m Em].
      { exists (T - hi * 2 ^ (64 - (p + shift))). rewrite Z.mul_sub_distr_l.
        replace (2 ^ (p + shift) * (hi * 2 ^ (64 - (p + shift)))) with (hi * 2 ^ 64).
        - rewrite (Z.pow_add_r 2 p) by lia. lia.
        - rewrite Z.mul_assoc, (Z.mul_comm (2 ^ (p + shift))), <- Z.mul_assoc, <- Z.pow_add_r by lia. do 2 f_equal. lia. }
      assert (2 ^ 64 = 2 ^ (p + shift) * 2 ^ (64 - (p + shift))) as E64
        by (rewrite <- Z.pow_add_r by lia; f_equal; lia).
      rewrite Em in *. set (Q := 2 ^ (p + shift)) in *. set (Y := 2 ^ (64 - (p + shift))) in *.
      assert (m + 1 <= Y) as Hm by nia.
      assert (Q * 2 ^ k2 * (m + 1) <= Q * 2 ^ k2 * Y) by (apply Z.mul_le_mono_nonneg_l; nia).
      assert (low * Q < 2 ^ k2 * Q) by (apply Z.mul_lt_mono_pos_r; lia).
      change (2 ^ 127) with (2 ^ 63 * 2 ^ 64). rewrite E64. lia. }
  exists (A * 2 ^ 63 - hi * 2 ^ e).
  assert ((A * 2 ^ 63 - hi * 2 ^ e) * S = R) as ErS by (rewrite Z.mul_sub_distr_r, EX; ring).
  split; [lia|]. set (r := A * 2 ^ 63 - hi * 2 ^ e) in *. clearbody r.
  split; [split; [apply (Z.mul_le_mono_pos_r _ _ S)|apply (Z.mul_lt_mono_pos_r S)]; lia|].
  assert (r = 0 <-> R = 0) as Hrz by (split; [intros ->; lia|intros E0; rewrite E0 in ErS; nia]).
  assert (R = 0 <-> lo = 0 /\ low = 0) as HRz.
  { unfold R. split; [|intros [-> ->]; reflexivity]. intros E0.
    assert (0 <= lo * 2 ^ 63 * 2 ^ k2) by (repeat (apply Z.mul_nonneg_nonneg); lia).
    assert (0 <= low * (2 ^ 63 * 2 ^ (p + shift))) by (repeat (apply Z.mul_nonneg_nonneg); lia).
    split; [apply (Z.mul_eq_0_l _ (2 ^ 63 * 2 ^ k2))|apply (Z.mul_eq_0_l _ (2 ^ 63 * 2 ^ (p + shift)))]; lia. }
  destruct (Z.eqb_spec r 0), (Z.eqb_spec lo 0), (Z.eqb_spec low 0); cbn; try reflexivity; exfalso; tauto.
Qed.

Section BigIntFloatSpecs.
Context `{LC : LimbConfig} `{FM : FreshMemory}.

(** ** The magnitude, limb by limb *)

Lemma abs_loop_eq neg carry t :
  limbs_ok t -> 0 <= carry <= 1 ->
  abs_loop (c_bool neg) carry t = mp_add (flip_limbs neg t) (replicate (length t) 0) carry.
Proof.
  intros Ht. revert carry. induction Ht as [|x t Hx Ht IH]; intros carry Hc; [reflexivity|].
  cbn [abs_loop flip_limbs fmap list_fmap length replicate mp_add]. fold (flip_limbs neg t).
  rewrite js_limb_neg_bool. set (y := Z.lxor x (ext_limb neg)).
  assert (limb_ok y) as Hy by (unfold y; rewrite lxor_ext by exact Hx; unfold limb_ok in *; destruct neg; lia).
  assert (ADDC y 0 carry = (js_limb (y + carry), c_bool (js_limb (y + carry) <? carry))) as ->.
  { unfold ADDC. cbv zeta. rewrite Z.add_0_r, (js_limb_small y Hy).
    assert ((y <? y) = false) as E0 by (apply Z.ltb_ge; lia). rewrite ?E0.
    rewrite lor_c_bool, orb_false_r. reflexivity. }
  rewrite IH by apply c_bool_bounds.
  destruct (mp_add (flip_limbs neg t) (replicate (length t) 0) _). reflexivity.
Qed.

Lemma abs_split a n :
  bi_ok a -> (n <= length (tab a))%nat ->
  let sgn := js_bigint_sign a in
  let '(los, carry) := abs_loop sgn sgn (take n (tab a)) in
  let '(his, _) := abs_loop sgn carry (drop n (tab a)) in
  limbs_ok los /\ limbs_ok his /\ length los = n /\ length his = (length (tab a) - n)%nat /\
  mp_val los + limb_base ^ Z.of_nat n * mp_val his = Z.abs (bi_val a).
Proof.
  intros Ha Hn. cbv zeta. rewrite (js_bigint_sign_spec a Ha). set (neg := bi_val a <? 0).
  destruct Ha as [Hok Hne].
  pose proof (mp_add_spec (flip_limbs neg (tab a)) (replicate (length (tab a)) 0) (c_bool neg)
    (flip_limbs_ok neg _ Hok) (limbs_ok_replicate _ _ limb_ok_0)
    ltac:(rewrite flip_limbs_len, length_replicate; reflexivity) (c_bool_bounds neg)) as H.
  rewrite abs_loop_eq by (try apply limbs_ok_take, Hok; apply c_bool_bounds).
  assert (flip_limbs neg (tab a) = flip_limbs neg (take n (tab a)) ++ flip_limbs neg (drop n (tab a))) as Ef
    by (unfold flip_limbs; rewrite <- fmap_app, take_drop; reflexivity).
  assert (length (take n (tab a)) = n) as Ht by (rewrite length_take; lia).
  assert (replicate (length (tab a)) 0 = replicate (length (take n (tab a))) 0 ++
            replicate (length (drop n (tab a))) 0) as Er
    by (rewrite <- replicate_add, <- length_app, take_drop; reflexivity).
  rewrite Ef, Er, mp_add_app in H by (rewrite flip_limbs_len, length_replicate; reflexivity).
  rewrite <- Ef, <- Er in H.
  pose proof (mp_add_spec (flip_limbs neg (take n (tab a))) (replicate (length (take n (tab a))) 0) (c_bool neg)
    (flip_limbs_ok neg _ (limbs_ok_take n _ Hok)) (limbs_ok_replicate _ _ limb_ok_0)
    ltac:(rewrite flip_limbs_len, length_replicate; reflexivity) (c_bool_bounds neg)) as H1.
  destruct (mp_add (flip_limbs neg (take n (tab a))) _ (c_bool neg)) as [los c1].
  destruct H1 as (Hlos & Hll & Hc1 & _). rewrite flip_limbs_len in Hll.
  rewrite abs_loop_eq by (try apply limbs_ok_drop, Hok; exact Hc1).
  destruct (mp_add (flip_limbs neg (drop n (tab a))) _ c1) as [his c2].
  destruct H as (Hr & Hlr & Hc2 & Ev). apply limbs_ok_app in Hr as [_ Hhis].
  rewrite length_app, flip_limbs_len in Hlr.
  split; [exact Hlos|]. split; [exact Hhis|]. split; [lia|]. split; [lia|].
  rewrite mp_val_replicate_0, mp_val_app in Ev.
  assert (mp_base (flip_limbs neg (tab a)) = mp_base (tab a)) as Eb by apply mp_base_length, flip_limbs_len.
  assert (mp_base los = limb_base ^ Z.of_nat n) as El by (unfold mp_base, len; f_equal; lia).
  pose proof (mp_val_sval (tab a) Hok) as Es. fold (bi_val a) in Es. fold neg in Es.
  pose proof (sval_range (tab a) Hok) as Hrg. fold (bi_val a) in Hrg. pose proof (mp_base_pos (tab a)).
  assert (limbs_ok (los ++ his)) as Hall by (apply limbs_ok_app; auto).
  pose proof (mp_val_bounds _ Hall) as Hb. rewrite mp_val_app in Hb.
  rewrite (mp_base_length (los ++ his) (tab a)) in Hb by (rewrite length_app; lia).
  rewrite Eb in Ev. rewrite El in *. assert (0 <= bi_val a \/ bi_val a < 0) as [Hs|Hs] by lia.
  - assert (neg = false) as En by (apply Z.ltb_ge; lia). rewrite En in *. rewrite flip_false in Ev.
    cbn [c_bool] in *. assert (c2 = 0 \/ c2 = 1) as [-> | ->] by lia; lia.
  - assert (neg = true) as En by (apply Z.ltb_lt; lia). rewrite En in *.
    rewrite flip_limbs_val in Ev by exact Hok.
    cbn [c_bool] in *. assert (c2 = 0 \/ c2 = 1) as [-> | ->] by lia; lia.
Qed.

(** [low_bits] is zero exactly when the limbs are. *)
Lemma low_bits_zero los :
  limbs_ok los -> (fold_left Z.lor los 0 =? 0) = (mp_val los =? 0).
Proof.
  intros Hok. assert (forall x, 0 <= x -> (fold_left Z.lor los x =? 0) = (x =? 0) && (mp_val los =? 0)) as H.
  { induction Hok as [|y t Hy Ht IH]; intros x Hx; cbn [fold_left mp_val]; [rewrite andb_true_r; reflexivity|].
    rewrite IH by (apply Z.lor_nonneg; unfold limb_ok in Hy; lia).
    pose proof (mp_val_bounds t Ht). unfold limb_ok in Hy.
    assert (Z.lor x y = 0 <-> x = 0 /\ y = 0) as Hlor by apply Z.lor_eq_0_iff.
    destruct (Z.eqb_spec (Z.lor x y) 0), (Z.eqb_spec x 0), (Z.eqb_spec (mp_val t) 0),
      (Z.eqb_spec (y + limb_base * mp_val t) 0); cbn [andb]; try reflexivity; exfalso; try lia; nia. }
  rewrite (H 0) by lia. reflexivity.
Qed.

Lemma window_words t :
  limbs_ok t -> len t = 4 - JS_LIMB_BITS / 32 ->
  exists a1 a0,
    (if JS_LIMB_BITS =? 32
     then (Z.lor (Z.shiftl (t !!! 2%nat) 32) (t !!! 1%nat), Z.shiftl (t !!! 0%nat) 32)
     else (t !!! 1%nat, t !!! 0%nat)) = (a1, a0) /\
    0 <= a1 < 2 ^ 64 /\ 0 <= a0 < 2 ^ 64 /\
    a1 * 2 ^ 64 + a0 = mp_val t * 2 ^ (128 - (4 - JS_LIMB_BITS / 32) * JS_LIMB_BITS).
Proof.
  unfold limbs_ok, limb_ok, limb_base. intros Hok Hl.
  destruct limb_bits_cases as [E|E]; rewrite E in *.
  - change (4 - 32 / 32) with 3 in *. destruct t as [|x [|y [|z [|? ?]]]]; unfold len in Hl; simpl length in Hl; try lia.
    inversion Hok as [|? ? Hx Hok']; inversion Hok' as [|? ? Hy Hok'']; inversion Hok'' as [|? ? Hz _]; subst.
    cbn [Z.eqb Pos.eqb lookup_total list_lookup_total]. do 2 eexists. split; [reflexivity|].
    rewrite shl_lor_add, Z.shiftl_mul_pow2 by lia. cbn [mp_val]. unfold limb_base. rewrite E. lia.
  - change (4 - 64 / 32) with 2 in *. destruct t as [|x [|y [|? ?]]]; unfold len in Hl; simpl length in Hl; try lia.
    inversion Hok as [|? ? Hx Hok']; inversion Hok' as [|? ? Hy _]; subst.
    cbn [Z.eqb Pos.eqb lookup_total list_lookup_total]. do 2 eexists. split; [reflexivity|].
    cbn [mp_val]. unfold limb_base. rewrite E. lia.
Qed.

(** The leading part of the magnitude of a normalised number. *)
Lemma window_lower A T low n1 n2 :
  0 <= n1 -> 2 <= n2 -> 0 <= low < limb_base ^ n1 -> A = low + limb_base ^ n1 * T ->
  limb_base ^ (n1 + n2 - 1) <= 2 * A ->
  2 ^ (JS_LIMB_BITS * (n2 - 1) - 1) <= T.
Proof.
  intros H1 H2 Hlow EA HA. pose proof limb_bits_pos. pose proof limb_base_big.
  assert (32 * 1 <= JS_LIMB_BITS * (n2 - 1)) by (apply Z.mul_le_mono_nonneg; lia).
  replace (n1 + n2 - 1) with (n1 + (n2 - 1)) in HA by lia. rewrite Z.pow_add_r in HA by lia.
  assert (limb_base ^ (n2 - 1) = 2 * 2 ^ (JS_LIMB_BITS * (n2 - 1) - 1)) as E.
  { unfold limb_base. rewrite <- Z.pow_mul_r, <- Z.pow_succ_r by lia. f_equal. lia. }
  rewrite E in HA. set (H2' := 2 ^ (JS_LIMB_BITS * (n2 - 1) - 1)) in *.
  set (P := limb_base ^ n1) in *. assert (0 < P) by lia.
  assert (P * H2' < P * (T + 1)) as Hlt by lia. apply Z.mul_lt_mono_pos_l in Hlt; lia.
Qed.

(** What the mantissa and the exponent of [js_bigint_get_mant_exp] are: the 64
    leading bits of the magnitude, the last one or-ed with "something is below". *)
Definition mant_exp_of (A m e : Z) : Prop :=
  0 <= e /\ exists hi r, 2 ^ 63 <= hi < 2 ^ 64 /\ A * 2 ^ 63 = hi * 2 ^ e + r /\ 0 <= r < 2 ^ e /\
    m = Z.lor hi (c_bool (negb (r =? 0))).

Lemma get_mant_exp_limbs a :
  bi_norm a -> bi_val a <> 0 ->
  let n2 := 4 - JS_LIMB_BITS / 32 in
  let n1 := bi_len a - n2 in
  exists los carry his c,
    let sgn := js_bigint_sign a in
    abs_loop sgn sgn (take (Z.to_nat n1) (tab a)) = (los, carry) /\
    abs_loop sgn carry (drop (Z.to_nat n1) (tab a)) = (his, c) /\
    limbs_ok los /\ limbs_ok (replicate (Z.to_nat (- n1)) 0 ++ his) /\
    len (replicate (Z.to_nat (- n1)) 0 ++ his) = n2 /\
    0 <= mp_val los < 2 ^ (JS_LIMB_BITS * Z.max 0 n1) /\
    Z.abs (bi_val a) * 2 ^ (JS_LIMB_BITS * Z.max 0 (- n1)) =
      mp_val (replicate (Z.to_nat (- n1)) 0 ++ his) * 2 ^ (JS_LIMB_BITS * Z.max 0 n1) + mp_val los.
Proof.
  intros Ha Hnz n2 n1. pose proof (bi_len_pos a (proj1 Ha)) as Hl. pose proof limb_bits_pos as HL.
  assert (2 <= n2 <= 3) as Hn2.
  { unfold n2. destruct limb_bits_cases as [-> | ->]; [change (4 - 32 / 32) with 3|change (4 - 64 / 32) with 2]; lia. }
  pose proof (abs_split a (Z.to_nat n1) (proj1 Ha) ltac:(unfold n1, bi_len, len in *; lia)) as H. cbv zeta in H.
  destruct (abs_loop (js_bigint_sign a) (js_bigint_sign a) (take (Z.to_nat n1) (tab a))) as [los carry] eqn:E1.
  destruct (abs_loop (js_bigint_sign a) carry (drop (Z.to_nat n1) (tab a))) as [his c] eqn:E2.
  destruct H as (Hlos & Hhis & Hll & Hlh & Ev).
  exists los, carry, his, c. cbv zeta. split; [exact E1|]. split; [exact E2|]. split; [exact Hlos|].
  split; [apply limbs_ok_app; split; [apply limbs_ok_replicate, limb_ok_0|exact Hhis]|].
  split; [rewrite len_app, len_replicate; unfold len; rewrite Hlh; unfold n1, bi_len, len in *; lia|].
  assert (forall k, 2 ^ (JS_LIMB_BITS * Z.max 0 k) = limb_base ^ Z.of_nat (Z.to_nat k)) as Epow.
  { intros k. unfold limb_base. rewrite <- Z.pow_mul_r by lia. do 2 f_equal. lia. }
  rewrite !Epow. split.
  - pose proof (mp_val_bounds _ Hlos) as Hb. unfold mp_base, len in Hb. rewrite Hll in Hb. exact Hb.
  - rewrite mp_val_app, mp_val_replicate_0, <- Ev. unfold mp_base. rewrite len_replicate.
    destruct (Z.le_gt_cases 0 n1).
    + replace (Z.to_nat (- n1)) with 0%nat by lia. rewrite Z.pow_0_r. ring.
    + replace (Z.to_nat n1) with 0%nat in * by lia. destruct los; [|discriminate]. rewrite Z.pow_0_r. cbn [mp_val]. ring.
Qed.

Lemma get_mant_exp_spec a :
  bi_norm a -> bi_val a <> 0 ->
  let '(m, e) := js_bigint_get_mant_exp a in mant_exp_of (Z.abs (bi_val a)) m e.
Proof.
  intros Ha Hnz. pose proof (bi_len_pos a (proj1 Ha)) as Hl. pose proof limb_bits_pos as HL.
  destruct (get_mant_exp_limbs a Ha Hnz) as (los & carry & his & c & E1 & E2 & Hlos & Ht & Hlt & Hlow & EA).
  unfold js_bigint_get_mant_exp. cbv zeta. rewrite E1, E2. clear E1 E2.
  set (n2 := 4 - JS_LIMB_BITS / 32) in *. set (n1 := bi_len a - n2) in *.
  set (t := replicate (Z.to_nat (- n1)) 0 ++ his) in *. clearbody t.
  destruct (window_words t Ht Hlt) as (a1 & a0 & Ew & H1 & H0 & EW). rewrite Ew. clear Ew.
  rewrite (low_bits_zero los Hlos). fold n2 in EW.
  assert (2 <= n2 <= 3 /\ 0 <= 128 - n2 * JS_LIMB_BITS /\ 128 - n2 * JS_LIMB_BITS + JS_LIMB_BITS = 64) as (Hn2 & Hp & HpL).
  { unfold n2. destruct limb_bits_cases as [-> | ->]; [change (4 - 32 / 32) with 3|change (4 - 64 / 32) with 2]; lia. }
  set (p := 128 - n2 * JS_LIMB_BITS) in *.
  set (k1 := JS_LIMB_BITS * Z.max 0 (- n1)) in *. set (k2 := JS_LIMB_BITS * Z.max 0 n1) in *.
  assert (0 <= k1 /\ 0 <= k2) as [Hk1 Hk2] by (split; apply Z.mul_nonneg_nonneg; lia).
  set (W := a1 * 2 ^ 64 + a0) in *.
  assert (0 <= n1 -> 2 ^ (127 - JS_LIMB_BITS) <= W) as HWpos.
  { intros Hn1. rewrite EW. pose proof (norm_lower a Ha Hnz) as Hlo.
    assert (2 ^ (JS_LIMB_BITS * (n2 - 1) - 1) <= mp_val t) as HT.
    { assert (limb_base ^ n1 = 2 ^ k2) as Ek
        by (unfold limb_base, k2; rewrite <- Z.pow_mul_r by lia; do 2 f_equal; lia).
      apply (window_lower (Z.abs (bi_val a)) _ (mp_val los) n1 n2); [lia|lia|rewrite Ek; exact Hlow| |].
      - rewrite Ek. unfold k1 in EA. rewrite Z.max_l, Z.mul_0_r, Z.pow_0_r in EA by lia. lia.
      - replace (n1 + n2 - 1) with (bi_len a - 1) by (unfold n1; lia). exact Hlo. }
    replace (127 - JS_LIMB_BITS) with ((JS_LIMB_BITS * (n2 - 1) - 1) + p) by (unfold p; ring).
    rewrite Z.pow_add_r; [apply Z.mul_le_mono_nonneg_r; lia| |lia].
    assert (32 * 1 <= JS_LIMB_BITS * (n2 - 1)) by (apply Z.mul_le_mono_nonneg; lia). lia. }
  assert (n1 < 0 -> 2 ^ 64 <= W) as HWneg.
  { intros Hn1. rewrite EW. unfold k2 in EA, Hlow. rewrite Z.max_l, Z.mul_0_r, Z.pow_0_r in EA, Hlow by lia.
    assert (mp_val t = Z.abs (bi_val a) * 2 ^ k1) as -> by lia.
    assert (JS_LIMB_BITS * 1 <= k1) by (unfold k1; apply Z.mul_le_mono_nonneg_l; lia).
    rewrite <- Z.mul_assoc, <- Z.pow_add_r by lia.
    assert (2 ^ 64 <= 2 ^ (k1 + p)) by (apply Z.pow_le_mono_r; lia).
    assert (1 * 2 ^ (k1 + p) <= Z.abs (bi_val a) * 2 ^ (k1 + p)) by (apply Z.mul_le_mono_nonneg_r; lia). lia. }
  assert (2 ^ 63 <= 2 ^ (127 - JS_LIMB_BITS)) as H63 by (apply Z.pow_le_mono_r; lia).
  destruct (mant_normalize_spec a1 a0 (negb (mp_val los =? 0)) H1 H0) as (shift & hi & lo & Hs & Hs64 & Hhi & Hlo & ES & Hnorm).
  { intros E0. destruct (Z.le_gt_cases 0 n1) as [Hn1|Hn1]; [specialize (HWpos Hn1)|specialize (HWneg Hn1)]; lia. }
  destruct (mant_normalize a1 _) as [[sh b1] b0]. destruct Hnorm as [-> ->].
  fold W in ES. rewrite EW in ES.
  destruct (mant_exp_arith (Z.abs (bi_val a)) (mp_val t) k1 k2 p (mp_val los) shift hi lo) as [He (r & Er & Hr & Erz)];
    try assumption; try lia.
  { destruct (Z.le_gt_cases 0 n1) as [Hn1|Hn1]; [right|left].
    - split; [unfold k1; rewrite Z.max_l by lia; lia|]. specialize (HWpos Hn1). rewrite EW in HWpos.
      assert (127 - JS_LIMB_BITS + shift < 128); [|lia]. apply (Z.pow_lt_mono_r_iff 2); [lia|lia|].
      rewrite Z.pow_add_r by lia.
      assert (2 ^ (127 - JS_LIMB_BITS) * 2 ^ shift <= mp_val t * 2 ^ p * 2 ^ shift) by (apply Z.mul_le_mono_nonneg_r; lia).
      lia.
    - unfold k2. rewrite Z.max_l by lia. lia. }
  assert (k2 - k1 + 127 - p - shift = bi_len a * JS_LIMB_BITS - shift - 1) as Ee.
  { unfold k1, k2, p, n1. destruct (Z.le_gt_cases 0 (bi_len a - n2)); lia. }
  rewrite Ee in *. split; [exact He|]. exists hi, r. repeat split; try assumption; try lia.
  rewrite Erz. do 2 f_equal. destruct (lo =? 0), (mp_val los =? 0); reflexivity.
Qed.

End BigIntFloatSpecs.
