(* ===== verification/BigIntFloatCmp.v ===== *)
(** [js_bigint_to_float64] rounds to nearest, [js_bigint_from_float64] is exact,
    and what [js_bigint_float64_cmp] decides.

    Comparison of a BigInt with a float64 ([js_bigint_float64_cmp]). *)
From stdpp Require Import base tactics list numbers.
From Stdlib Require Import ZArith Lia.
From S2P Require Import Prelude Float64 Limbs LimbSpecs BigInt BigIntMul BigIntDivRem BigIntBits BigIntPow BigIntFloatSpecs.

Open Scope Z_scope.

(** ** Rounding the mantissa *)

(** Divisions by constants in [lia]. *)
#[local] Ltac Zify.zify_post_hook ::= Z.to_euclidean_division_equations.

Lemma sticky_shr m :
  0 <= m -> Z.lor (Z.shiftr m 1) (Z.land m 1) = 2 * (m / 4) + c_bool (negb (m mod 4 =? 0)).
Proof.
  intros Hm. rewrite (land_mask 1) by lia. rewrite Z.shiftr_div_pow2 by lia. change (2 ^ 1) with 2.
  assert (forall k b, Z.lor (2 * k + c_bool b) 0 = 2 * k + c_bool b) as E0 by (intros; apply Z.lor_0_r).
  assert (forall k b, 0 <= k -> Z.lor (2 * k + c_bool b) 1 = 2 * k + 1) as E1.
  { intros k b Hk. replace (2 * k) with (Z.shiftl k 1) by (rewrite Z.shiftl_mul_pow2; lia).
    pose proof (c_bool_bounds b). pose proof (shl_lor_add 1 k (c_bool b) ltac:(lia) ltac:(lia)) as E.
    rewrite Z.shiftl_mul_pow2 in * by lia. rewrite <- E, <- Z.lor_assoc.
    replace (Z.lor (c_bool b) 1) with 1 by (destruct b; reflexivity).
    pose proof (shl_lor_add 1 k 1 ltac:(lia) ltac:(lia)) as E'. rewrite Z.shiftl_mul_pow2 in E' by lia. exact E'. }
  assert (exists k j, m = 4 * k + j /\ 0 <= k /\ 0 <= j < 4) as (k & j & -> & Hk & Hj)
    by (exists (m / 4), (m mod 4); lia).
  replace ((4 * k + j) / 4) with k by lia. replace ((4 * k + j) mod 4) with j by lia.
  assert (j = 0 \/ j = 1 \/ j = 2 \/ j = 3) as [-> | [-> | [-> | ->]]] by lia; cbn [Z.eqb Pos.eqb negb c_bool].
  - replace ((4 * k + 0) / 2) with (2 * k + c_bool false) by (cbn; lia).
    replace ((4 * k + 0) mod 2) with 0 by lia. rewrite E0. reflexivity.
  - replace ((4 * k + 1) / 2) with (2 * k + c_bool false) by (cbn; lia).
    replace ((4 * k + 1) mod 2) with 1 by lia. apply E1, Hk.
  - replace ((4 * k + 2) / 2) with (2 * k + c_bool true) by (cbn; lia).
    replace ((4 * k + 2) mod 2) with 0 by lia. rewrite E0. reflexivity.
  - replace ((4 * k + 3) / 2) with (2 * k + c_bool true) by (cbn; lia).
    replace ((4 * k + 3) mod 2) with 1 by lia. apply E1, Hk.
Qed.

Lemma lor_sticky hi s : 0 <= hi -> Z.lor hi (c_bool s) = 2 * (hi / 2) + c_bool (Z.odd hi || s).
Proof.
  intros Hhi. assert (hi = Z.lor (Z.shiftl (hi / 2) 1) (c_bool (Z.odd hi))) as E.
  { pose proof (c_bool_bounds (Z.odd hi)). rewrite shl_lor_add by lia.
    pose proof (Zmod_odd hi). destruct (Z.odd hi); cbn [c_bool]; lia. }
  rewrite E at 1. rewrite <- Z.lor_assoc, lor_c_bool. pose proof (c_bool_bounds (Z.odd hi || s)).
  rewrite shl_lor_add; lia.
Qed.

Lemma shr_rndn_spec x : 0 <= x < 2 ^ 63 -> shr_rndn x 10 = rne x 10.
Proof.
  intros Hx. unfold shr_rndn. rewrite (land_mask 1), !Z.shiftr_div_pow2 by lia.
  change (Z.shiftl 1 (10 - 1) - 1) with 511. change (2 ^ 1) with 2.
  rewrite wrap_small by (change (2 ^ 10) with 1024; change (2 ^ 63) with 9223372036854775808 in Hx; lia).
  unfold rne. cbv zeta. change (2 ^ (10 - 1)) with 512. change (2 ^ 10) with 1024.
  pose proof (Zmod_odd (x / 1024)). destruct (Z.odd (x / 1024));
    destruct (Z.ltb_spec 512 (x mod 1024)), (Z.eqb_spec (x mod 1024) 512); cbn [orb andb]; lia.
Qed.

(** The code's rounding of the 64 leading bits and the sticky bit is the rounding
    of the number itself. *)
Lemma mant_round A m e :
  0 < A -> mant_exp_of A m e ->
  e = Z.log2 A /\
  shr_rndn (Z.lor (Z.shiftr m 1) (Z.land m 1)) 10 = (if e <=? 52 then A * 2 ^ (52 - e) else rne A (e - 52)).
Proof.
  intros HA (He & hi & r & Hhi & EA & Hr & Em).
  assert (0 < 2 ^ e) as Pe by lia.
  assert (e = Z.log2 A) as Ee.
  { symmetry. apply Z.log2_unique; [exact He|]. rewrite Z.pow_succ_r by exact He. nia. }
  split; [exact Ee|]. clear Ee.
  set (s := negb (r =? 0)) in *.
  assert (0 <= m < 2 ^ 64 /\ m / 4 = hi / 4 /\ (m mod 4 =? 0) = (hi mod 4 =? 0) && negb s) as (Hm & Hm4 & Hm0).
  { rewrite Em, lor_sticky by lia. pose proof (Zmod_odd hi). change (2 ^ 64) with 18446744073709551616 in *.
    destruct (Z.odd hi), s; cbn [orb c_bool negb]; (split; [lia|]; split; [lia|]);
      destruct (Z.eqb_spec (hi mod 4) 0); cbn [andb]; first [apply Z.eqb_eq; lia|apply Z.eqb_neq; lia]. }
  rewrite sticky_shr by lia. rewrite Hm4, Hm0.
  set (x := 2 * (hi / 4) + _).
  assert (0 <= x < 2 ^ 63) as Hx.
  { unfold x. pose proof (c_bool_bounds (negb ((hi mod 4 =? 0) && negb s))).
    change (2 ^ 63) with 9223372036854775808. change (2 ^ 64) with 18446744073709551616 in *. lia. }
  rewrite shr_rndn_spec by exact Hx. clear Hm Hm4 Hm0 Em m.
  destruct (Z.leb_spec e 52) as [Hle|Hgt].
  - assert (hi = A * 2 ^ (63 - e) /\ r = 0) as [Ehi Er0].
    { assert (2 ^ 63 = 2 ^ (63 - e) * 2 ^ e) as E63 by (rewrite <- Z.pow_add_r by lia; f_equal; lia).
      rewrite E63 in EA. assert (r = (A * 2 ^ (63 - e) - hi) * 2 ^ e) by lia.
      assert (A * 2 ^ (63 - e) - hi = 0) by nia. split; [lia|]. nia. }
    assert (2 ^ (63 - e) = 2 ^ (52 - e) * 2048) as E11 by (change 2048 with (2 ^ 11); rewrite <- Z.pow_add_r by lia; f_equal; lia).
    set (y := A * 2 ^ (52 - e)) in *. assert (hi = y * 2048) as Ey by (unfold y; lia).
    unfold x, s. rewrite Er0, Ey. cbn [Z.eqb negb]. rewrite andb_true_r.
    assert ((y * 2048) mod 4 = 0) as -> by lia. cbn [Z.eqb negb c_bool].
    unfold rne. cbv zeta. change (2 ^ 10) with 1024. change (2 ^ (10 - 1)) with 512.
    replace ((2 * (y * 2048 / 4) + 0) mod 1024) with 0 by lia. cbn. lia.
  - set (P := 2 ^ (e - 53)). assert (0 < P) as HP by (unfold P; lia).
    assert (2 ^ (e - 52) = 2 * P) as E2P by (unfold P; rewrite <- Z.pow_succ_r by lia; f_equal; lia).
    assert (2 ^ e = P * 2 ^ 53) as EP by (unfold P; rewrite <- Z.pow_add_r by lia; f_equal; lia).
    rewrite EP in *.
    assert (exists r', r = 2 ^ 53 * r') as [r' Er'] by (exists (A * 2 ^ 10 - hi * P); lia).
    assert (0 <= r' < P) as Hr' by lia.
    assert (A * 1024 = hi * P + r') as EA' by lia.
    assert (s = negb (r' =? 0)) as Es.
    { unfold s. f_equal. destruct (Z.eqb_spec r 0), (Z.eqb_spec r' 0); try reflexivity; lia. }
    set (q := hi / 2048). set (hr := hi mod 2048).
    assert (hi = q * 2048 + hr /\ 0 <= hr < 2048) as [Ehi Hhr] by (unfold q, hr; lia).
    assert (A / (2 * P) = q /\ A mod (2 * P) * 1024 = hr * P + r') as [EqA ErA].
    { assert (A * 1024 = (2 * P) * 1024 * q + (hr * P + r')) as EA2 by (rewrite EA', Ehi; ring).
      assert (0 <= hr * P + r' < 2048 * P) as Hb.
      { assert (0 <= hr * P) by (apply Z.mul_nonneg_nonneg; lia).
        assert (hr * P <= 2047 * P) by (apply Z.mul_le_mono_nonneg_r; lia). lia. }
      assert (A / (2 * P) = q) as Eq.
      { symmetry. apply (Z.div_unique_pos _ _ _ (A - 2 * P * q)); lia. }
      split; [exact Eq|]. rewrite Z.mod_eq, Eq by lia. lia. }
    assert (x = q * 1024 + (2 * (hr / 4) + c_bool (negb ((hr mod 4 =? 0) && negb s)))) as Ex.
    { unfold x. rewrite Ehi. replace ((q * 2048 + hr) / 4) with (q * 512 + hr / 4) by lia.
      replace ((q * 2048 + hr) mod 4) with (hr mod 4) by lia. ring. }
    set (xr := 2 * (hr / 4) + _) in Ex.
    assert (0 <= xr < 1024) as Hxr
      by (unfold xr; pose proof (c_bool_bounds (negb ((hr mod 4 =? 0) && negb s))); lia).
    unfold rne. cbv zeta. rewrite E2P, EqA.
    replace (e - 52 - 1) with (e - 53) by lia. fold P. change (2 ^ 10) with 1024. change (2 ^ (10 - 1)) with 512.
    replace (x / 1024) with q by lia. replace (x mod 1024) with xr by lia.
    set (rr := A mod (2 * P)) in *.
    assert ((512 <? xr) = (P <? rr)) as ->.
    { unfold xr. rewrite Es. destruct (Z.ltb_spec P rr) as [Hlt|Hge].
      - apply Z.ltb_lt. assert (1024 <= hr) by nia.
        destruct (Z.eqb_spec (hr mod 4) 0), (Z.eqb_spec r' 0); cbn [negb andb c_bool]; try lia.
        assert (1024 < hr) by nia. lia.
      - apply Z.ltb_ge. assert (hr <= 1024) by nia.
        destruct (Z.eqb_spec (hr mod 4) 0), (Z.eqb_spec r' 0); cbn [negb andb c_bool]; try lia.
        assert (hr < 1024) by nia. lia. }
    assert ((xr =? 512) = (rr =? P)) as ->; [|reflexivity].
    unfold xr. rewrite Es. destruct (Z.eqb_spec rr P) as [Heq|Hne].
    + apply Z.eqb_eq. assert (hr = 1024) by nia. assert (r' = 0) as -> by nia. subst hr.
      cbn [Z.eqb negb]. rewrite andb_true_r.
      destruct (Z.eqb_spec ((hi mod 2048) mod 4) 0); cbn [negb c_bool]; lia.
    + apply Z.eqb_neq. intros E. apply Hne.
      destruct (Z.eqb_spec (hr mod 4) 0), (Z.eqb_spec r' 0); cbn [negb andb c_bool] in E; lia.
Qed.

#[local] Ltac Zify.zify_post_hook ::= idtac.

Section BigIntFloatRound.
Context `{LC : LimbConfig} `{FM : FreshMemory}.

(** ** [js_bigint_to_float64] *)

Lemma mask_mant q : 2 ^ 52 <= q < 2 ^ 53 -> Z.land q (2 ^ 52 - 1) = q - 2 ^ 52.
Proof.
  intros Hq. rewrite land_mask by lia. symmetry. apply (Z.mod_unique_pos _ _ 1); lia.
Qed.

Lemma rne_bounds x k : 1 <= k -> 0 <= x -> x / 2 ^ k <= rne x k <= x / 2 ^ k + 1.
Proof. intros Hk Hx. unfold rne. cbv zeta. destruct (_ || _); lia. Qed.

Lemma round_mant_range A :
  0 < A ->
  let e := Z.log2 A in
  2 ^ 52 <= (if e <=? 52 then A * 2 ^ (52 - e) else rne A (e - 52)) <= 2 ^ 53.
Proof.
  intros HA e. pose proof (Z.log2_spec A HA) as [H1 H2]. fold e in H1, H2.
  assert (0 <= e) as He by apply Z.log2_nonneg. rewrite Z.pow_succ_r in H2 by exact He.
  destruct (Z.leb_spec e 52) as [Hle|Hgt].
  - assert (2 ^ 52 = 2 ^ e * 2 ^ (52 - e)) as E by (rewrite <- Z.pow_add_r by lia; f_equal; lia).
    assert (0 < 2 ^ (52 - e)) by lia.
    assert (2 ^ e * 2 ^ (52 - e) <= A * 2 ^ (52 - e)) by (apply Z.mul_le_mono_nonneg_r; lia).
    assert (A * 2 ^ (52 - e) <= (2 * 2 ^ e) * 2 ^ (52 - e)) by (apply Z.mul_le_mono_nonneg_r; lia).
    change (2 ^ 53) with (2 * 2 ^ 52). lia.
  - assert (2 ^ e = 2 ^ (e - 52) * 2 ^ 52) as E by (rewrite <- Z.pow_add_r by lia; f_equal; lia).
    assert (0 < 2 ^ (e - 52)) by lia.
    pose proof (rne_bounds A (e - 52) ltac:(lia) ltac:(lia)).
    assert (2 ^ 52 <= A / 2 ^ (e - 52)) by (apply Z.div_le_lower_bound; lia).
    assert (A / 2 ^ (e - 52) < 2 ^ 53) by (apply Z.div_lt_upper_bound; [lia|]; change (2 ^ 53) with (2 * 2 ^ 52); lia).
    lia.
Qed.

Lemma js_bigint_to_float64_spec a : bi_norm a -> js_bigint_to_float64 a = float64_round (bi_val a).
Proof.
  intros Ha. unfold js_bigint_to_float64. destruct (Z.eqb_spec (bi_len a) 1) as [El|Hl].
  { assert (exists v, tab a = [v]) as (v & Et).
    { unfold bi_len, len in El. destruct (tab a) as [|v [|? ?]]; simpl in El; try lia. exists v. reflexivity. }
    destruct (single_limb_abs a v Ha Et) as (Ev & _). rewrite Et, Ev. reflexivity. }
  pose proof (bi_len_pos a (proj1 Ha)) as Hpos.
  assert (bi_val a <> 0) as Hnz.
  { intros E0. pose proof (bi_zero_iff a Ha) as Hz. rewrite E0, (proj2 (Z.eqb_neq _ _) Hl) in Hz. discriminate. }
  assert (0 < Z.abs (bi_val a)) as Habs by lia.
  pose proof (get_mant_exp_spec a Ha Hnz) as Hme. cbv zeta.
  destruct (js_bigint_get_mant_exp a) as [m e].
  destruct (mant_round (Z.abs (bi_val a)) m e Habs Hme) as [Ee Er]. rewrite Er.
  pose proof (round_mant_range (Z.abs (bi_val a)) Habs) as Hq. cbv zeta in Hq. rewrite <- Ee in Hq.
  rewrite (js_bigint_sign_spec a (proj1 Ha)). unfold float64_round.
  rewrite (proj2 (Z.eqb_neq _ _) Hnz). cbv zeta. rewrite <- Ee.
  set (q := if e <=? 52 then _ else _) in *. clearbody q. clear Er Hme m.
  destruct (Z.ltb_spec 1023 e) as [Hbig|Hsmall].
  - change (1024 + 1023) with 2047. destruct (Z.eqb_spec q (2 ^ 53));
      [rewrite (proj2 (Z.ltb_lt 1023 (e + 1))) by lia|rewrite (proj2 (Z.ltb_lt 1023 e)) by lia]; reflexivity.
  - destruct (Z.eqb_spec q (2 ^ 53)) as [->|Hne].
    + rewrite (proj2 (Z.leb_le _ _)) by lia. change (Z.land (Z.shiftr (2 ^ 53) 1) (2 ^ 52 - 1)) with 0.
      change (2 ^ 52 - 2 ^ 52) with 0.
      destruct (Z.ltb_spec 1023 (e + 1)); [|reflexivity]. replace (e + 1 + 1023) with 2047 by lia. reflexivity.
    + rewrite (proj2 (Z.leb_gt _ _)) by lia. rewrite mask_mant by lia.
      rewrite (proj2 (Z.ltb_ge 1023 e)) by lia. reflexivity.
Qed.

(** ** [js_bigint_set_si64] *)

Lemma norm_two x :
  - (limb_base * limb_base) <= 2 * x < limb_base * limb_base -> x < - 2 ^ (JS_LIMB_BITS - 1) \/ 2 ^ (JS_LIMB_BITS - 1) <= x ->
  let r := MkBigInt [js_limb x; js_limb (Z.shiftr x JS_LIMB_BITS)] in bi_norm r /\ bi_val r = x.
Proof.
  intros Hx Hbig r. unfold bi_val. cbn [r tab]. rewrite (sval_two x Hx). split; [|reflexivity].
  repeat split; cbn [tab]; try discriminate.
  - constructor; [apply js_limb_ok|]. constructor; [apply js_limb_ok|constructor].
  - right. cbn [r tab]. rewrite (sval_two x Hx). change (len _ - 1) with 1. rewrite Z.pow_1_r, limb_base_half. lia.
Qed.

Lemma js_bigint_set_si64_spec x :
  - 2 ^ 63 <= x < 2 ^ 63 -> bi_norm (js_bigint_set_si64 x) /\ bi_val (js_bigint_set_si64 x) = x.
Proof.
  intros Hx. unfold js_bigint_set_si64. destruct limb_bits_cases as [E|E]; rewrite E; cbn [Z.eqb Pos.eqb].
  - unfold INT32_MIN, INT32_MAX.
    destruct (Z.leb_spec (- 2 ^ 31) x), (Z.leb_spec x (2 ^ 31 - 1)); cbn [andb];
      [apply (js_bigint_set_si_spec x); rewrite E; lia|..];
      rewrite <- E; apply norm_two; unfold limb_base; rewrite E; lia.
  - apply js_bigint_set_si_spec. rewrite E. lia.
Qed.

(** ** [js_bigint_from_float64] *)

(** What a float64 pattern denotes, for a conversion to an integer. *)
Inductive float64_class : Type := FNotFinite | FFraction | FInteger (v : Z).

Definition classify (b : Z) : float64_class :=
  let e := float64_exp b in
  let m := float64_mant b in
  if e =? 2047 then FNotFinite
  else if e =? 0 then (if m =? 0 then FInteger 0 else FFraction)
  else
    let m := m + 2 ^ 52 in
    if 1075 <=? e then FInteger (signed (float64_sign b) (m * 2 ^ (e - 1075)))
    else if m mod 2 ^ (1075 - e) =? 0 then FInteger (signed (float64_sign b) (m / 2 ^ (1075 - e)))
    else FFraction.

Lemma max_size_shl : 2 + 971 / JS_LIMB_BITS <= JS_BIGINT_MAX_SIZE.
Proof. unfold JS_BIGINT_MAX_SIZE. destruct limb_bits_cases as [-> | ->]; vm_compute; discriminate. Qed.

Lemma from_float64_shl neg m k E :
  0 < m < 2 ^ 53 -> 0 <= k <= 971 ->
  mspec (r ← js_bigint_shl (js_bigint_set_si64 (swrap 64 (if negb (neg =? 0) then wrap 64 (- m) else m))) k;
         mret (Some r, 0))
    (fun q => exists r, q = (Some r, 0) /\ bi_norm r /\ bi_val r = signed neg (m * 2 ^ k)) E.
Proof.
  intros Hm Hk.
  assert (swrap 64 (if negb (neg =? 0) then wrap 64 (- m) else m) = signed neg m) as ->.
  { unfold signed, wrap. destruct (neg =? 0); cbn [negb]; [apply swrap_small; lia|].
    assert ((- m) mod 2 ^ 64 = 2 ^ 64 - m) as -> by (symmetry; apply (Z.mod_unique_pos _ _ (-1)); lia).
    rewrite swrap_pattern by lia. rewrite (proj2 (Z.ltb_ge _ _)) by lia. lia. }
  assert (- 2 ^ 63 <= signed neg m < 2 ^ 63) as Hr by (unfold signed; destruct (neg =? 0); lia).
  destruct (js_bigint_set_si64_spec _ Hr) as [H1 H2].
  eapply mspec_bind.
  - eapply mspec_mono; [apply (js_bigint_shl_spec _ k H1); lia|intros r Hr'; exact Hr'|].
    intros e [-> Hl]. exfalso. pose proof max_size_shl. pose proof limb_bits_pos.
    assert (k / JS_LIMB_BITS <= 971 / JS_LIMB_BITS) by (apply Z.div_le_mono; lia).
    assert (bi_len (js_bigint_set_si64 (signed neg m)) <= 2); [|lia].
    unfold js_bigint_set_si64, js_bigint_set_si, bi_len, len.
    destruct (JS_LIMB_BITS =? 64); [simpl length; lia|].
    destruct (INT32_MIN <=? signed neg m), (signed neg m <=? INT32_MAX); simpl length; lia.
  - intros r (Hn & Hv & _). apply mspec_ret. exists r. split; [reflexivity|]. split; [exact Hn|].
    rewrite Hv, H2. unfold signed. destruct (neg =? 0); ring.
Qed.

Lemma js_bigint_from_float64_spec b E :
  0 <= b < 2 ^ 64 ->
  mspec (js_bigint_from_float64 b)
    (fun q => match classify b with
              | FNotFinite => q = (None, 2)
              | FFraction => q = (None, 1)
              | FInteger v => exists r, q = (Some r, 0) /\ bi_norm r /\ bi_val r = v
              end) E.
Proof.
  intros Hb. destruct (float64_fields b Hb) as (_ & He & Hm).
  unfold js_bigint_from_float64, classify. cbv zeta.
  set (sgn := float64_sign b). set (e := float64_exp b) in *. set (m := float64_mant b) in *.
  clearbody sgn e m. destruct (Z.eqb_spec e 2047) as [_|H2047]; [apply mspec_ret; reflexivity|].
  destruct (Z.eqb_spec e 0) as [E0|Hne]; cbn [andb].
  { subst e. destruct (Z.eqb_spec m 0) as [_|Hm0].
    - eapply mspec_bind; [apply js_bigint_new_si_spec|]. intros r (H1 & H2 & _). apply mspec_ret.
      exists r. split; [reflexivity|]. split; [exact H1|]. rewrite H2. apply swrap_small; [pose proof limb_bits_pos; lia|].
      pose proof limb_half_big. lia.
    - change (0 - 1023 <? 0) with true. apply mspec_ret. reflexivity. }
  assert (Z.lor m (Z.shiftl 1 52) = m + 2 ^ 52) as ->
    by (rewrite Z.lor_comm, shl_lor_add by lia; lia).
  set (m' := m + 2 ^ 52). assert (2 ^ 52 <= m' < 2 ^ 53) as Hm' by (unfold m'; lia).
  destruct (Z.ltb_spec (e - 1023) 0) as [Hlt|Hge].
  { rewrite (proj2 (Z.leb_gt 1075 e)) by lia. rewrite Z.mod_small.
    - rewrite (proj2 (Z.eqb_neq m' 0)) by lia. apply mspec_ret. reflexivity.
    - split; [lia|]. assert (2 ^ 53 <= 2 ^ (1075 - e)) by (apply Z.pow_le_mono_r; lia). lia. }
  destruct (Z.ltb_spec (e - 1023) 52) as [Hlt|Hge']; cbn [andb].
  - rewrite (proj2 (Z.leb_gt 1075 e)) by lia. replace (52 - (e - 1023)) with (1075 - e) by lia.
    rewrite Z.shiftl_1_l, land_mask, Z.shiftr_div_pow2 by lia.
    destruct (Z.eqb_spec (m' mod 2 ^ (1075 - e)) 0) as [Em|Hne']; cbn [negb]; [|apply mspec_ret; reflexivity].
    assert (0 < m' / 2 ^ (1075 - e)) as Hp.
    { apply Z.div_str_pos. split; [lia|]. assert (2 ^ (1075 - e) <= 2 ^ 52) by (apply Z.pow_le_mono_r; lia). lia. }
    assert (m' / 2 ^ (1075 - e) <= m') by (apply Z.div_le_upper_bound; [lia|]; nia).
    eapply mspec_mono; [apply (from_float64_shl sgn (m' / 2 ^ (1075 - e)) 0); lia| |intros ex Hex; exact Hex].
    intros q (r & -> & H1 & H2). exists r. rewrite Z.pow_0_r, Z.mul_1_r in H2. auto.
  - rewrite (proj2 (Z.leb_le 1075 e)) by lia. replace (e - 1023 - 52) with (e - 1075) by lia.
    apply from_float64_shl; lia.
Qed.

End BigIntFloatRound.

(** The order of an integer and a finite float64. *)
Definition float64_order (v b : Z) : Z := Z.sgn (v * 2 ^ 1074 - float64_scaled b).

(** A number whose exponent differs from the float's is ordered by it. *)
Lemma exponent_order A b e :
  0 <= b < 2 ^ 64 -> float64_exp b <> 2047 -> 0 < float64_scaled_abs b ->
  0 <= e -> 2 ^ e <= A < 2 ^ (e + 1) ->
  (e < float64_exp b - 1023 -> A * 2 ^ 1074 < float64_scaled_abs b) /\
  (float64_exp b - 1023 < e -> float64_scaled_abs b < A * 2 ^ 1074).
Proof.
  intros Hb Hfin Hpos He HA. destruct (float64_fields b Hb) as (_ & Hex & Hm).
  unfold float64_scaled_abs in *. set (x := float64_exp b) in *. set (m := float64_mant b) in *. clearbody x m.
  pose proof (scale_pos 1074 ltac:(lia)) as P.
  destruct (Z.eqb_spec x 0) as [->|Hx].
  { split; [lia|]. intros _. assert (2 ^ 52 <= 2 ^ 1074) by (apply Z.pow_le_mono_r; lia).
    assert (1 * 2 ^ 1074 <= A * 2 ^ 1074) by (apply Z.mul_le_mono_nonneg_r; lia). lia. }
  pose proof (scale_pos (x - 1) ltac:(lia)) as Px. split; intros Hlt.
  - assert (2 ^ (e + 1) * 2 ^ 1074 <= 2 ^ 52 * 2 ^ (x - 1)).
    { rewrite <- !Z.pow_add_r by lia. apply Z.pow_le_mono_r; lia. }
    assert (A * 2 ^ 1074 < 2 ^ (e + 1) * 2 ^ 1074) by (apply Z.mul_lt_mono_pos_r; lia).
    assert (2 ^ 52 * 2 ^ (x - 1) <= (m + 2 ^ 52) * 2 ^ (x - 1)) by (apply Z.mul_le_mono_nonneg_r; lia). lia.
  - assert (2 ^ 53 * 2 ^ (x - 1) <= 2 ^ e * 2 ^ 1074).
    { rewrite <- !Z.pow_add_r by lia. apply Z.pow_le_mono_r; lia. }
    assert (2 ^ e * 2 ^ 1074 <= A * 2 ^ 1074) by (apply Z.mul_le_mono_nonneg_r; lia).
    assert ((m + 2 ^ 52) * 2 ^ (x - 1) < 2 ^ 53 * 2 ^ (x - 1)) by (apply Z.mul_lt_mono_pos_r; lia). lia.
Qed.

(** With equal exponents the aligned mantissas decide. *)
Lemma mantissa_order A b m e :
  0 <= b < 2 ^ 64 -> 0 < A -> mant_exp_of A m e -> float64_exp b - 1023 = e -> float64_exp b <> 0 ->
  let M := wrap 64 (Z.shiftl (Z.lor (float64_mant b) (Z.shiftl 1 52)) 11) in
  Z.sgn (m - M) = Z.sgn (A * 2 ^ 1074 - float64_scaled_abs b).
Proof.
  intros Hb HA (He & hi & r & Hhi & EA & Hr & Em) Ex Hx0 M. destruct (float64_fields b Hb) as (_ & Hex & Hm).
  unfold float64_scaled_abs. rewrite (proj2 (Z.eqb_neq _ _) Hx0).
  subst M. set (x := float64_exp b) in *. set (fm := float64_mant b) in *. clearbody x fm.
  assert (wrap 64 (Z.shiftl (Z.lor fm (Z.shiftl 1 52)) 11) = (fm + 2 ^ 52) * 2 ^ 11) as ->.
  { rewrite Z.lor_comm, shl_lor_add by lia. rewrite Z.shiftl_mul_pow2 by lia.
    rewrite wrap_small; [f_equal; lia|]. change (2 ^ 64) with (2 ^ 53 * 2 ^ 11). lia. }
  set (M := fm + 2 ^ 52) in *.
  pose proof (scale_pos e He) as Pe. pose proof (scale_pos 1011 ltac:(lia)) as P11.
  assert (A * 2 ^ 1074 - M * 2 ^ (x - 1) = ((hi - M * 2 ^ 11) * 2 ^ e + r) * 2 ^ 1011) as ->.
  { replace (2 ^ 1074) with (2 ^ 63 * 2 ^ 1011) by (rewrite <- Z.pow_add_r by lia; reflexivity).
    rewrite Z.mul_assoc, EA.
    replace (2 ^ (x - 1)) with (2 ^ 11 * 2 ^ e * 2 ^ 1011) by (rewrite <- !Z.pow_add_r by lia; f_equal; lia).
    ring. }
  set (D := hi - M * 2 ^ 11) in *.
  assert (Z.sgn ((D * 2 ^ e + r) * 2 ^ 1011) = Z.sgn (D * 2 ^ e + r)) as ->
    by (rewrite Z.sgn_mul, (sgn_pos (2 ^ 1011)) by exact P11; lia).
  rewrite Em, lor_sticky by lia. change (2 ^ 11) with 2048 in *.
  pose proof (Zmod_odd hi) as Hodd. pose proof (Z.div_mod hi 2 ltac:(lia)) as Ed.
  assert (hi = 2 * (hi / 2) + c_bool (Z.odd hi)) as Eh by (destruct (Z.odd hi); cbn [c_bool]; lia).
  set (h := hi / 2) in *. clearbody h.
  destruct (Z.lt_trichotomy D 0) as [Hn|[Hz|Hp]].
  - assert (D * 2 ^ e <= -1 * 2 ^ e) by (apply Z.mul_le_mono_nonneg_r; lia).
    rewrite (sgn_neg (D * 2 ^ e + r)) by lia. apply sgn_neg.
    destruct (Z.odd hi), (r =? 0); cbn [negb orb c_bool] in *; lia.
  - replace (D * 2 ^ e + r) with r by (rewrite Hz; ring).
    destruct (Z.eqb_spec r 0) as [->|Hr0]; cbn [negb orb c_bool].
    + rewrite orb_false_r. cbn. lia.
    + rewrite (sgn_pos r) by lia. rewrite orb_true_r. cbn [c_bool]. apply sgn_pos.
      destruct (Z.odd hi); cbn [c_bool] in Eh; lia.
  - assert (1 * 2 ^ e <= D * 2 ^ e) by (apply Z.mul_le_mono_nonneg_r; lia).
    rewrite (sgn_pos (D * 2 ^ e + r)) by lia. apply sgn_pos.
    destruct (Z.odd hi), (r =? 0); cbn [negb orb c_bool] in *; lia.
Qed.

Section BigIntFloatCmp.
Context `{LC : LimbConfig} `{FM : FreshMemory}.

(** The branch of the code that ignores the common sign: both operands negative,
    different binary exponents. *)
Definition cmp_inverted (v b : Z) : bool :=
  (v <? 0) && negb (float64_sign b =? 0) && negb (float64_scaled_abs b =? 0) &&
  negb (Z.log2 (Z.abs v) =? float64_exp b - 1023).

Lemma log2_of_mant_exp A m e : 0 < A -> mant_exp_of A m e -> 2 ^ e <= A < 2 ^ (e + 1) /\ Z.log2 A = e /\ 0 <= e.
Proof.
  intros HA (He & hi & r & Hhi & EA & Hr & Em). pose proof (scale_pos e He) as Pe.
  assert (2 ^ e <= A < 2 ^ (e + 1)) as H by (rewrite Z.pow_add_r, Z.pow_1_r by lia; nia).
  split; [exact H|]. split; [|exact He]. apply Z.log2_unique; [exact He|]. rewrite <- Z.add_1_r. exact H.
Qed.

Lemma float64_zero_iff b :
  0 <= b < 2 ^ 64 -> (float64_exp b =? 0) && (float64_mant b =? 0) = (float64_scaled_abs b =? 0).
Proof.
  intros Hb. destruct (float64_fields b Hb) as (_ & Hex & Hm). unfold float64_scaled_abs.
  destruct (Z.eqb_spec (float64_exp b) 0) as [E|Hne]; cbn [andb]; [reflexivity|]. symmetry. apply Z.eqb_neq.
  pose proof (scale_pos (float64_exp b - 1) ltac:(lia)). nia.
Qed.

(** Both operands have the same sign and are not zero. *)
Lemma float64_cmp_same_sign a b :
  bi_norm a -> 0 <= b < 2 ^ 64 -> float64_exp b <> 2047 -> 0 < float64_scaled_abs b ->
  bi_val a <> 0 -> js_bigint_sign a = float64_sign b ->
  (let '(a_mant, f) := js_bigint_get_mant_exp a in
   if negb (f =? float64_exp b - 1023) then (if f <? float64_exp b - 1023 then -1 else 1)
   else
     let mant := wrap 64 (Z.shiftl (Z.lor (float64_mant b) (Z.shiftl 1 52)) 11) in
     if a_mant <? mant then 2 * js_bigint_sign a - 1
     else if mant <? a_mant then 1 - 2 * js_bigint_sign a else 0) =
  (if cmp_inverted (bi_val a) b then - float64_order (bi_val a) b else float64_order (bi_val a) b).
Proof.
  intros Ha Hb Hfin Hbpos Hnz Hsign.
  assert (0 < Z.abs (bi_val a)) as Habs by lia.
  pose proof (get_mant_exp_spec a Ha Hnz) as Hme. destruct (js_bigint_get_mant_exp a) as [m e].
  destruct (log2_of_mant_exp _ _ _ Habs Hme) as (Hbd & Hlog & He).
  destruct (exponent_order _ b e Hb Hfin Hbpos He Hbd) as [Hlow Hhigh].
  assert (float64_exp b = 0 -> float64_exp b - 1023 < e) as Hsub by lia.
  unfold cmp_inverted, float64_order, float64_scaled. rewrite Hlog.
  rewrite (js_bigint_sign_spec a (proj1 Ha)) in *.
  rewrite (proj2 (Z.eqb_neq (float64_scaled_abs b) 0)) by lia. cbv zeta. cbn [negb].
  destruct (Z.eqb_spec e (float64_exp b - 1023)) as [Ee|Hne]; cbn [negb].
  - rewrite !andb_false_r.
    pose proof (mantissa_order _ b m e Hb Habs Hme (eq_sym Ee) ltac:(lia)) as Hmo. cbv zeta in Hmo.
    set (M := wrap 64 _) in *. clearbody M. rewrite <- Hsign. clear Hlow Hhigh Hbd Hme.
    destruct (Z.ltb_spec (bi_val a) 0) as [Hn|Hn]; cbn [c_bool Z.mul Z.sub Z.add Z.opp Z.pos_sub signed Z.eqb].
    + replace (bi_val a * 2 ^ 1074 - - float64_scaled_abs b)
        with (- (Z.abs (bi_val a) * 2 ^ 1074 - float64_scaled_abs b)) by (rewrite Z.abs_neq by lia; ring).
      rewrite Z.sgn_opp, <- Hmo. case_tests; lia.
    + replace (bi_val a * 2 ^ 1074 - float64_scaled_abs b)
        with (Z.abs (bi_val a) * 2 ^ 1074 - float64_scaled_abs b) by (rewrite Z.abs_eq by lia; ring).
      rewrite <- Hmo. case_tests; lia.
  - rewrite !andb_true_r. rewrite <- Hsign.
    set (Y := float64_scaled_abs b) in *. set (x := float64_exp b) in *. clearbody Y x.
    destruct (Z.ltb_spec (bi_val a) 0) as [Hn|Hn]; cbn [c_bool Z.eqb negb andb signed].
    + rewrite Z.abs_neq in Hlow, Hhigh by lia.
      destruct (Z.ltb_spec e (x - 1023)) as [Hlt|Hge]; [specialize (Hlow Hlt)|specialize (Hhigh ltac:(lia))].
      * rewrite sgn_pos by lia. reflexivity.
      * rewrite sgn_neg by lia. reflexivity.
    + rewrite Z.abs_eq in Hlow, Hhigh by lia.
      destruct (Z.ltb_spec e (x - 1023)) as [Hlt|Hge]; [specialize (Hlow Hlt)|specialize (Hhigh ltac:(lia))].
      * symmetry. apply sgn_neg. lia.
      * symmetry. apply sgn_pos. lia.
Qed.

Lemma js_bigint_float64_cmp_spec a b :
  bi_norm a -> 0 <= b < 2 ^ 64 ->
  js_bigint_float64_cmp a b =
    if float64_exp b =? 2047 then
      (if float64_mant b =? 0 then 2 * float64_sign b - 1 else 2)
    else if cmp_inverted (bi_val a) b then - float64_order (bi_val a) b
    else float64_order (bi_val a) b.
Proof.
  intros Ha Hb. unfold js_bigint_float64_cmp. cbv zeta. rewrite (bi_zero_iff a Ha), (float64_zero_iff b Hb).
  destruct (float64_fields b Hb) as (Hs & Hex & Hm).
  destruct (Z.eqb_spec (float64_exp b) 2047) as [E|Hfin].
  { destruct (float64_mant b =? 0); reflexivity. }
  pose proof (scale_pos 1074 ltac:(lia)) as P.
  assert (0 <= float64_scaled_abs b) as Hnn.
  { unfold float64_scaled_abs. destruct (Z.eqb_spec (float64_exp b) 0); [lia|].
    apply Z.mul_nonneg_nonneg; [lia|]. apply Z.pow_nonneg. lia. }
  assert (forall v, 0 < v -> 0 < v * 2 ^ 1074) as Hpos by (intros; apply Z.mul_pos_pos; lia).
  destruct (Z.eqb_spec (float64_scaled_abs b) 0) as [Eb|Hbnz].
  { assert (cmp_inverted (bi_val a) b = false) as ->
      by (unfold cmp_inverted; rewrite Eb; cbn [Z.eqb negb]; rewrite andb_false_r; reflexivity).
    unfold float64_order, float64_scaled, signed. rewrite Eb.
    replace (bi_val a * 2 ^ 1074 - (if float64_sign b =? 0 then 0 else - 0)) with (bi_val a * 2 ^ 1074)
      by (destruct (float64_sign b =? 0); lia).
    rewrite Z.sgn_mul, (sgn_pos (2 ^ 1074)), Z.mul_1_r by exact P.
    rewrite (js_bigint_sign_spec a (proj1 Ha)).
    destruct (Z.eqb_spec (bi_val a) 0) as [->|Hne]; [reflexivity|].
    destruct (Z.ltb_spec (bi_val a) 0); cbn [c_bool]; lia. }
  destruct (Z.eqb_spec (bi_val a) 0) as [Ea|Hanz].
  { rewrite Ea. unfold cmp_inverted, float64_order, float64_scaled, signed. cbn [Z.ltb andb Z.mul].
    change (0 <? 0) with false. cbn [andb].
    destruct Hs as [-> | ->]; cbn [Z.eqb]; [rewrite sgn_neg by lia|rewrite sgn_pos by lia]; reflexivity. }
  destruct (Z.eqb_spec (js_bigint_sign a) (float64_sign b)) as [Hsign|Hsign]; cbn [negb].
  - apply float64_cmp_same_sign; try assumption. lia.
  - rewrite (js_bigint_sign_spec a (proj1 Ha)) in *. unfold cmp_inverted, float64_order, float64_scaled, signed.
    destruct (Z.ltb_spec (bi_val a) 0) as [Hn|Hn]; cbn [c_bool] in *.
    + assert (float64_sign b = 0) as -> by lia. cbn [Z.eqb negb andb].
      assert (0 < - bi_val a * 2 ^ 1074) by (apply Hpos; lia). rewrite sgn_neg by lia. reflexivity.
    + assert (float64_sign b = 1) as -> by lia. cbn [Z.eqb negb andb].
      assert (0 < bi_val a * 2 ^ 1074) by (apply Hpos; lia). rewrite sgn_pos by lia. reflexivity.
Qed.

End BigIntFloatCmp.
