(* ===== verification/Numbers.v ===== *)
(** Numbers: the tagged values of the engine that are not strings, symbols or
    objects, the float64 operations the C code uses, and the conversions of
    quickjs.c between the number types ([JS_ToInt32Free], [JS_ToInt64Free], the
    saturating and clamping variants, [JS_ToNumberHintFree]). *)
From stdpp Require Import base tactics list numbers strings.
From Stdlib Require Import ZArith Lia.
From Stdlib Require Import SpecFloat.
From S2P Require Import Prelude Float64 BigInt.

Open Scope Z_scope.

(** ** Values *)

Inductive JSValue : Type :=
| JS_TAG_INT (v : Z)
| JS_TAG_BOOL (v : Z)
| JS_TAG_NULL
| JS_TAG_UNDEFINED
| JS_TAG_FLOAT64 (d : Z)
| JS_TAG_SHORT_BIG_INT (v : Z)
| JS_TAG_BIG_INT (p : JSBigInt).

(** [JSFloat64Union]: the pattern and the IEEE 754 number it stands for. *)
Definition uint64_as_float64 (d : Z) : spec_float :=
  let s := negb (float64_sign d =? 0) in
  let m := float64_mant d in
  let e := float64_exp d in
  if e =? 2047 then (if m =? 0 then S754_infinity s else S754_nan)
  else if e =? 0 then (if m =? 0 then S754_zero s else S754_finite s (Z.to_pos m) (-1074))
  else S754_finite s (Z.to_pos (m + 2 ^ 52)) (e - 1075).

Definition JS_FLOAT64_NAN : Z := 2047 * 2 ^ 52 + 2 ^ 51.

Definition float64_as_uint64 (f : spec_float) : Z :=
  match f with
  | S754_zero s => c_bool s * 2 ^ 63
  | S754_infinity s => c_bool s * 2 ^ 63 + 2047 * 2 ^ 52
  | S754_nan => JS_FLOAT64_NAN
  | S754_finite s m e =>
      c_bool s * 2 ^ 63 +
      (if Z.pos m <? 2 ^ 52 then Z.pos m else (e + 1075) * 2 ^ 52 + (Z.pos m - 2 ^ 52))
  end.

Definition float64_op2 (f : spec_float -> spec_float -> spec_float) (a b : Z) : Z :=
  float64_as_uint64 (f (uint64_as_float64 a) (uint64_as_float64 b)).

Definition float64_add : Z -> Z -> Z := float64_op2 (SFadd 53 1024).
Definition float64_sub : Z -> Z -> Z := float64_op2 (SFsub 53 1024).
Definition float64_mul : Z -> Z -> Z := float64_op2 (SFmul 53 1024).
Definition float64_div : Z -> Z -> Z := float64_op2 (SFdiv 53 1024).
Definition float64_neg (a : Z) : Z := Z.lxor a (2 ^ 63).

(** [fmod]: the exact remainder, with the sign of the dividend. *)
Definition fmod (x y : Z) : Z :=
  if isnan x || isnan y || negb (isfinite x) || (float64_scaled_abs y =? 0) then JS_FLOAT64_NAN
  else if negb (isfinite y) then x
  else
    let r := Z.rem (float64_scaled_abs x) (float64_scaled_abs y) in
    let s := negb (float64_sign x =? 0) in
    float64_as_uint64 (match r with Zpos m => binary_normalize 53 1024 (if s then Zneg m else Zpos m) (-1074) s
                                  | _ => S754_zero s end).

Definition INT64_MIN : Z := - 2 ^ 63.
Definition UINT32_MAX : Z := 2 ^ 32 - 1.
Definition MAX_SAFE_INTEGER : Z := 2 ^ 53 - 1.

(** ** Boxing (quickjs.h) *)

Definition JS_NewInt32 (v : Z) : JSValue := JS_TAG_INT (swrap 32 v).
Definition __JS_NewFloat64 (d : Z) : JSValue := JS_TAG_FLOAT64 d.

Definition JS_NewInt64 (val : Z) : JSValue :=
  if val =? swrap 32 val then JS_NewInt32 val else __JS_NewFloat64 (float64_round val).

Definition JS_NewUint32 (val : Z) : JSValue :=
  if val <=? 2 ^ 31 - 1 then JS_NewInt32 val else __JS_NewFloat64 (float64_round val).

Definition JS_NewFloat64 (d : Z) : JSValue :=
  if float64_ge_int d INT32_MIN && float64_le_int d INT32_MAX then
    let val := float64_trunc d in
    if d =? float64_round val then JS_TAG_INT val else __JS_NewFloat64 d
  else __JS_NewFloat64 d.

(** ** [ToNumber] and [ToNumeric] *)

Inductive JSToNumberHintEnum : Type := TON_FLAG_NUMBER | TON_FLAG_NUMERIC.

Definition err_bigint_number : exn := TypeError "cannot convert bigint to number".

Definition JS_ToNumberHintFree (val : JSValue) (flag : JSToNumberHintEnum) : M JSValue :=
  match val with
  | JS_TAG_BIG_INT _ | JS_TAG_SHORT_BIG_INT _ =>
      match flag with
      | TON_FLAG_NUMBER => throw err_bigint_number
      | TON_FLAG_NUMERIC => mret val
      end
  | JS_TAG_FLOAT64 _ | JS_TAG_INT _ => mret val
  | JS_TAG_BOOL v => mret (JS_NewInt32 v)
  | JS_TAG_NULL => mret (JS_NewInt32 0)
  | JS_TAG_UNDEFINED => mret (__JS_NewFloat64 JS_FLOAT64_NAN)
  end.

Definition JS_ToNumberFree (val : JSValue) : M JSValue := JS_ToNumberHintFree val TON_FLAG_NUMBER.
Definition JS_ToNumericFree (val : JSValue) : M JSValue := JS_ToNumberHintFree val TON_FLAG_NUMERIC.

Definition __JS_ToFloat64Free (val : JSValue) : M Z :=
  val ← JS_ToNumberFree val;
  match val with
  | JS_TAG_INT v => mret (float64_round v)
  | JS_TAG_FLOAT64 d => mret d
  | _ => undefined
  end.

Definition JS_ToFloat64Free (val : JSValue) : M Z :=
  match val with
  | JS_TAG_INT v | JS_TAG_BOOL v => mret (float64_round v)
  | JS_TAG_NULL => mret (float64_round 0)
  | JS_TAG_FLOAT64 d => mret d
  | _ => __JS_ToFloat64Free val
  end.

(** ** Conversions to integers

    [goto redo] is reached once, with the number that [JS_ToNumberFree] returned:
    [via_number on_int on_float] runs the numeric cases of a conversion on it. *)
Definition via_number (on_int on_float : Z -> Z) (val : JSValue) : M Z :=
  val ← JS_ToNumberFree val;
  match val with
  | JS_TAG_INT v => mret (on_int v)
  | JS_TAG_FLOAT64 d => mret (on_float d)
  | _ => undefined
  end.

Definition float64_to_int32_sat (d : Z) : Z :=
  if isnan d then 0
  else if float64_lt_int d INT32_MIN then INT32_MIN
  else if float64_gt_int d INT32_MAX then INT32_MAX
  else float64_trunc d.

Definition JS_ToInt32SatFree (val : JSValue) : M Z :=
  match val with
  | JS_TAG_INT v | JS_TAG_BOOL v => mret v
  | JS_TAG_NULL | JS_TAG_UNDEFINED => mret 0
  | JS_TAG_FLOAT64 d => mret (float64_to_int32_sat d)
  | _ => via_number id float64_to_int32_sat val
  end.

Definition JS_ToInt32Clamp (val : JSValue) (min max min_offset : Z) : M Z :=
  res ← JS_ToInt32SatFree val;
  mret (if res <? min then
          let res := swrap 32 (res + min_offset) in
          if res <? min then min else res
        else if max <? res then max else res).

Definition float64_to_int64_sat (d : Z) : Z :=
  if isnan d then 0
  else if float64_lt_int d INT64_MIN then INT64_MIN
  else if float64_ge_int d (2 ^ 63) then INT64_MAX
  else float64_trunc d.

Definition JS_ToInt64SatFree (val : JSValue) : M Z :=
  match val with
  | JS_TAG_INT v | JS_TAG_BOOL v => mret v
  | JS_TAG_NULL | JS_TAG_UNDEFINED => mret 0
  | JS_TAG_FLOAT64 d => mret (float64_to_int64_sat d)
  | _ => via_number id float64_to_int64_sat val
  end.

Definition JS_ToInt64Clamp (val : JSValue) (min max neg_offset : Z) : M Z :=
  res ← JS_ToInt64SatFree val;
  let res := if res <? 0 then swrap 64 (res + neg_offset) else res in
  mret (if res <? min then min else if max <? res then max else res).

Definition float64_to_int64 (d : Z) : Z :=
  let e := float64_exp d in
  if e <=? 1023 + 62 then float64_trunc d
  else if e <=? 1023 + 62 + 53 then
    let v := Z.lor (float64_mant d) (Z.shiftl 1 52) in
    let ret := swrap 64 (wrap 64 (Z.shiftl v (e - 1023 - 52))) in
    if negb (float64_sign d =? 0) then swrap 64 (- ret) else ret
  else 0.

Definition JS_ToInt64Free (val : JSValue) : M Z :=
  match val with
  | JS_TAG_INT v | JS_TAG_BOOL v => mret v
  | JS_TAG_NULL | JS_TAG_UNDEFINED => mret 0
  | JS_TAG_FLOAT64 d => mret (float64_to_int64 d)
  | _ => via_number id float64_to_int64 val
  end.

Definition float64_to_int32 (d : Z) : Z :=
  let e := float64_exp d in
  if e <=? 1023 + 30 then float64_trunc d
  else if e <=? 1023 + 30 + 53 then
    let v := Z.lor (float64_mant d) (Z.shiftl 1 52) in
    let v := wrap 64 (Z.shiftl v (e - 1023 - 52 + 32)) in
    let ret := swrap 32 (Z.shiftr v 32) in
    if negb (float64_sign d =? 0) then swrap 32 (- ret) else ret
  else 0.

Definition JS_ToInt32Free (val : JSValue) : M Z :=
  match val with
  | JS_TAG_INT v | JS_TAG_BOOL v => mret v
  | JS_TAG_NULL | JS_TAG_UNDEFINED => mret 0
  | JS_TAG_FLOAT64 d => mret (float64_to_int32 d)
  | _ => via_number id float64_to_int32 val
  end.

Definition JS_ToUint32Free (val : JSValue) : M Z := v ← JS_ToInt32Free val; mret (wrap 32 v).

Definition float64_to_uint8_clamp (d : Z) : Z :=
  if isnan d then 0
  else if float64_lt_int d 0 then 0
  else if float64_gt_int d 255 then 255
  else lrint d.

Definition JS_ToUint8ClampFree (val : JSValue) : M Z :=
  match val with
  | JS_TAG_INT v | JS_TAG_BOOL v => mret (Z.max 0 (Z.min 255 v))
  | JS_TAG_NULL | JS_TAG_UNDEFINED => mret (Z.max 0 (Z.min 255 0))
  | JS_TAG_FLOAT64 d => mret (float64_to_uint8_clamp d)
  | _ => via_number (fun v => Z.max 0 (Z.min 255 v)) float64_to_uint8_clamp val
  end.

Definition err_index : exn := RangeError "invalid array index".

Definition JS_ToIndex (val : JSValue) : M Z :=
  v ← JS_ToInt64SatFree val;
  if (v <? 0) || (MAX_SAFE_INTEGER <? v) then throw err_index else mret v.

Definition JS_ToLengthFree (val : JSValue) : M Z := JS_ToInt64Clamp val 0 MAX_SAFE_INTEGER 0.

Definition is_safe_integer (d : Z) : bool :=
  isfinite d && is_integral d && (float64_scaled_abs d <=? MAX_SAFE_INTEGER * 2 ^ 1074).
