(* ===== verification/NumberSpecs.v ===== *)
(** The number conversions compute what their names say: [ToInt32] and [ToInt64]
    are the integral part modulo a power of two, the saturating and clamping
    variants the integral part forced into a range, and boxing keeps the value. *)
From stdpp Require Import base tactics list numbers strings.
From Stdlib Require Import ZArith Lia.
From S2P Require Import Prelude Float64 BigInt Numbers.

Open Scope Z_scope.

(** ** Two's complement *)

Lemma swrap_add_mul w x k : 0 < w -> swrap w (x + k * 2 ^ w) = swrap w x.
Proof.
  intros Hw. unfold swrap. f_equal.
  replace (x + k * 2 ^ w + 2 ^ (w - 1)) with (x + 2 ^ (w - 1) + k * 2 ^ w) by ring.
  apply Z.mod_add. pose proof (scale_pos w). lia.
Qed.

Lemma swrap_eq w x : 0 < w -> exists k, swrap w x = x + k * 2 ^ w.
Proof.
  intros Hw. pose proof (scale_pos w ltac:(lia)). exists (- ((x + 2 ^ (w - 1)) / 2 ^ w)). unfold swrap.
  rewrite Z.mod_eq by lia. ring.
Qed.

Lemma swrap_mod w x : 0 < w -> swrap w (x mod 2 ^ w) = swrap w x.
Proof.
  intros Hw. pose proof (scale_pos w ltac:(lia)). rewrite Z.mod_eq by lia.
  rewrite <- (swrap_add_mul w x (- (x / 2 ^ w))) by exact Hw. f_equal. ring.
Qed.

Lemma swrap_opp w x : 0 < w -> swrap w (- swrap w x) = swrap w (- x).
Proof.
  intros Hw. destruct (swrap_eq w x Hw) as [k ->].
  rewrite <- (swrap_add_mul w (- x) (- k)) by exact Hw. f_equal. ring.
Qed.

Lemma swrap_0 w : 0 < w -> swrap w 0 = 0.
Proof. intros Hw. pose proof (scale_pos (w - 1) ltac:(lia)). apply swrap_small; lia. Qed.

(** The sign of a float64 applied after reduction modulo [2^w]. *)
Lemma signed_swrap w s x :
  0 < w -> (if negb (s =? 0) then swrap w (- swrap w x) else swrap w x) = swrap w (signed s x).
Proof. intros Hw. unfold signed. destruct (s =? 0); cbn [negb]; [reflexivity|apply swrap_opp, Hw]. Qed.

(** ** Magnitudes *)

Lemma scaled_abs_normal d :
  float64_exp d <> 0 -> float64_scaled_abs d = (float64_mant d + 2 ^ 52) * 2 ^ (float64_exp d - 1).
Proof. intros H. unfold float64_scaled_abs. rewrite (proj2 (Z.eqb_neq _ _) H). reflexivity. Qed.

Lemma scaled_abs_nonneg d : 0 <= d < 2 ^ 64 -> 0 <= float64_scaled_abs d.
Proof.
  intros Hd. destruct (float64_fields d Hd) as (_ & He & Hm). unfold float64_scaled_abs.
  destruct (Z.eqb_spec (float64_exp d) 0); [lia|].
  pose proof (scale_pos (float64_exp d - 1) ltac:(lia)). apply Z.mul_nonneg_nonneg; lia.
Qed.

(** The integral part of a number with exponent field [e]. *)
Lemma trunc_abs_small d k :
  0 <= d < 2 ^ 64 -> 0 <= k -> float64_exp d <= 1022 + k ->
  0 <= float64_scaled_abs d / 2 ^ 1074 < 2 ^ k.
Proof.
  intros Hd Hk He. pose proof (scaled_abs_nonneg d Hd) as Hnn. pose proof (scale_pos 1074 ltac:(lia)) as P.
  split; [apply Z.div_pos; lia|]. apply Z.div_lt_upper_bound; [exact P|].
  destruct (float64_fields d Hd) as (_ & Hex & Hm). rewrite <- Z.pow_add_r by lia.
  destruct (Z.eq_dec (float64_exp d) 0) as [E0|Hne].
  - unfold float64_scaled_abs. rewrite E0. cbn [Z.eqb].
    assert (2 ^ 52 <= 2 ^ (1074 + k)) by (apply Z.pow_le_mono_r; lia). lia.
  - rewrite scaled_abs_normal by exact Hne. pose proof (scale_pos (float64_exp d - 1) ltac:(lia)).
    assert ((float64_mant d + 2 ^ 52) * 2 ^ (float64_exp d - 1) < 2 ^ 53 * 2 ^ (float64_exp d - 1))
      by (apply Z.mul_lt_mono_pos_r; lia).
    rewrite <- Z.pow_add_r in * by lia.
    assert (2 ^ (53 + (float64_exp d - 1)) <= 2 ^ (1074 + k)) by (apply Z.pow_le_mono_r; lia). lia.
Qed.

Lemma trunc_abs_shift d k :
  0 <= d < 2 ^ 64 -> 0 <= k -> 1075 - k <= float64_exp d -> float64_exp d <> 0 ->
  float64_scaled_abs d / 2 ^ 1074 = (float64_mant d + 2 ^ 52) * 2 ^ (float64_exp d - 1075 + k) / 2 ^ k.
Proof.
  intros Hd Hk He Hne. rewrite scaled_abs_normal by exact Hne.
  destruct (float64_fields d Hd) as (_ & Hex & Hm).
  set (x := float64_exp d) in *. set (m := float64_mant d + 2 ^ 52). clearbody x m.
  pose proof (scale_pos k Hk). pose proof (scale_pos 1074 ltac:(lia)).
  rewrite <- (Z.div_mul_cancel_r _ _ (2 ^ k)) by lia.
  rewrite <- (Z.div_mul_cancel_r (m * 2 ^ (x - 1075 + k)) _ (2 ^ 1074)) by lia.
  f_equal; [|ring]. rewrite <- !Z.mul_assoc, <- !Z.pow_add_r by lia. do 2 f_equal. lia.
Qed.

(** ** [ToInt32], [ToInt64] *)

Lemma float64_to_int32_spec d :
  0 <= d < 2 ^ 64 -> isfinite d = true -> float64_to_int32 d = swrap 32 (float64_trunc d).
Proof.
  intros Hd Hfin. destruct (float64_fields d Hd) as (_ & Hex & Hm). unfold float64_to_int32, float64_trunc. cbv zeta.
  destruct (Z.leb_spec (float64_exp d) (1023 + 30)) as [Hle|Hgt].
  { pose proof (trunc_abs_small d 31 Hd ltac:(lia) ltac:(lia)). symmetry. apply swrap_small; [lia|].
    unfold signed. destruct (float64_sign d =? 0); lia. }
  destruct (Z.leb_spec (float64_exp d) (1023 + 30 + 53)) as [Hle2|Hgt2].
  - rewrite Z.lor_comm, shl_lor_add by lia. rewrite (Z.add_comm (1 * _)), Z.mul_1_l.
    rewrite (trunc_abs_shift d 32 Hd) by lia.
    replace (float64_exp d - 1023 - 52 + 32) with (float64_exp d - 1075 + 32) by lia.
    rewrite Z.shiftl_mul_pow2 by lia. set (y := (float64_mant d + 2 ^ 52) * _).
    assert (swrap 32 (Z.shiftr (wrap 64 y) 32) = swrap 32 (y / 2 ^ 32)) as ->.
    { unfold wrap. rewrite Z.shiftr_div_pow2 by lia. rewrite <- (swrap_mod 32 (y / 2 ^ 32)) by lia. f_equal.
      change (2 ^ 64) with (2 ^ 32 * 2 ^ 32). rewrite Z.rem_mul_r by lia.
      rewrite Z.mul_comm, Z.div_add by lia. rewrite Z.div_small by (apply Z.mod_pos_bound; lia). lia. }
    apply signed_swrap. lia.
  - rewrite (trunc_abs_shift d 0 Hd), Z.pow_0_r, Z.div_1_r by lia.
    set (t := float64_exp d - 1075 + 0). assert (32 <= t) by (unfold t; lia).
    assert (exists k, signed (float64_sign d) ((float64_mant d + 2 ^ 52) * 2 ^ t) = 0 + k * 2 ^ 32) as [k ->].
    { replace (2 ^ t) with (2 ^ (t - 32) * 2 ^ 32) by (rewrite <- Z.pow_add_r by lia; f_equal; lia).
      unfold signed. destruct (float64_sign d =? 0);
        [exists ((float64_mant d + 2 ^ 52) * 2 ^ (t - 32))|exists (- ((float64_mant d + 2 ^ 52) * 2 ^ (t - 32)))]; ring. }
    rewrite swrap_add_mul, swrap_0 by lia. reflexivity.
Qed.

Lemma float64_to_int32_not_finite d : isfinite d = false -> float64_to_int32 d = 0.
Proof.
  unfold isfinite, float64_to_int32. intros H. apply negb_false_iff, Z.eqb_eq in H. rewrite H. reflexivity.
Qed.

Lemma float64_to_int64_spec d :
  0 <= d < 2 ^ 64 -> isfinite d = true -> float64_to_int64 d = swrap 64 (float64_trunc d).
Proof.
  intros Hd Hfin. destruct (float64_fields d Hd) as (_ & Hex & Hm). unfold float64_to_int64, float64_trunc. cbv zeta.
  destruct (Z.leb_spec (float64_exp d) (1023 + 62)) as [Hle|Hgt].
  { pose proof (trunc_abs_small d 63 Hd ltac:(lia) ltac:(lia)). symmetry. apply swrap_small; [lia|].
    unfold signed. destruct (float64_sign d =? 0); lia. }
  rewrite (trunc_abs_shift d 0 Hd), Z.pow_0_r, Z.div_1_r by lia.
  replace (float64_exp d - 1023 - 52) with (float64_exp d - 1075 + 0) by lia.
  set (t := float64_exp d - 1075 + 0). assert (0 <= t) as Ht by (unfold t; lia).
  destruct (Z.leb_spec (float64_exp d) (1023 + 62 + 53)) as [Hle2|Hgt2].
  - rewrite Z.lor_comm, shl_lor_add by lia. rewrite (Z.add_comm (1 * _)), Z.mul_1_l, Z.shiftl_mul_pow2 by lia.
    unfold wrap. rewrite swrap_mod by lia. apply signed_swrap. lia.
  - assert (64 <= t) by (unfold t; lia).
    assert (exists k, signed (float64_sign d) ((float64_mant d + 2 ^ 52) * 2 ^ t) = 0 + k * 2 ^ 64) as [k ->].
    { replace (2 ^ t) with (2 ^ (t - 64) * 2 ^ 64) by (rewrite <- Z.pow_add_r by lia; f_equal; lia).
      unfold signed. destruct (float64_sign d =? 0);
        [exists ((float64_mant d + 2 ^ 52) * 2 ^ (t - 64))|exists (- ((float64_mant d + 2 ^ 52) * 2 ^ (t - 64)))]; ring. }
    rewrite swrap_add_mul, swrap_0 by lia. reflexivity.
Qed.

(** ** Saturation *)

Definition clamp (lo hi x : Z) : Z := Z.max lo (Z.min hi x).

Lemma trunc_bounds d :
  0 <= d < 2 ^ 64 ->
  let t := float64_trunc d in
  (0 <= float64_scaled d -> t * 2 ^ 1074 <= float64_scaled d < (t + 1) * 2 ^ 1074 /\ 0 <= t) /\
  (float64_scaled d < 0 -> (t - 1) * 2 ^ 1074 < float64_scaled d <= t * 2 ^ 1074 /\ t <= 0).
Proof.
  intros Hd. cbv zeta. pose proof (scaled_abs_nonneg d Hd) as Hnn. unfold float64_trunc, float64_scaled.
  set (P := 2 ^ 1074). assert (0 < P) as HP by (apply scale_pos; lia). clearbody P.
  set (x := float64_scaled_abs d) in *. clearbody x.
  pose proof (Z.div_mod x P ltac:(lia)) as E. pose proof (Z.mod_pos_bound x P HP).
  assert (0 <= x / P) by (apply Z.div_pos; lia).
  unfold signed. destruct (float64_sign d =? 0); split; intros Hs; lia.
Qed.

Lemma sat_of_order d lo hi t :
  0 <= d < 2 ^ 64 -> isnan d = false -> lo <= 0 <= hi -> t = float64_trunc d ->
  (float64_lt_int d lo = true -> clamp lo hi t = lo) /\
  (float64_gt_int d hi = true \/ float64_ge_int d (hi + 1) = true -> clamp lo hi t = hi) /\
  (float64_lt_int d lo = false -> float64_gt_int d hi = false \/ float64_ge_int d (hi + 1) = false ->
   clamp lo hi t = t).
Proof.
  intros Hd Hn Hb ->. unfold float64_lt_int, float64_gt_int, float64_ge_int, clamp. rewrite Hn. cbn [negb andb].
  destruct (trunc_bounds d Hd) as [Hp Hq]. set (t := float64_trunc d) in *. set (v := float64_scaled d) in *.
  set (P := 2 ^ 1074) in *. assert (0 < P) as HP by (apply scale_pos; lia). clearbody t v P.
  rewrite Z.ltb_lt, !Z.ltb_ge, Z.ltb_lt, Z.leb_le, Z.leb_gt.
  assert (0 <= v \/ v < 0) as [Hv|Hv] by lia; [specialize (Hp Hv); clear Hq|specialize (Hq Hv); clear Hp].
  - split; [intros H1|split; [intros H1|intros H1 H2]].
    + nia.
    + assert (hi <= t); [|lia]. destruct H1 as [H1|H1]; nia.
    + assert (t <= hi); [|lia]. destruct H2 as [H2|H2]; nia.
  - split; [intros H1|split; [intros H1|intros H1 H2]].
    + assert (t <= lo) by nia. lia.
    + nia.
    + assert (lo <= t); [|lia]. nia.
Qed.

Lemma float64_to_int32_sat_spec d :
  0 <= d < 2 ^ 64 -> isnan d = false -> float64_to_int32_sat d = clamp INT32_MIN INT32_MAX (float64_trunc d).
Proof.
  intros Hd Hn. unfold float64_to_int32_sat. rewrite Hn.
  destruct (sat_of_order d INT32_MIN INT32_MAX _ Hd Hn ltac:(unfold INT32_MIN, INT32_MAX; lia) eq_refl) as (H1 & H2 & H3).
  destruct (float64_lt_int d INT32_MIN); [symmetry; apply H1; reflexivity|].
  destruct (float64_gt_int d INT32_MAX); [symmetry; apply H2; auto|symmetry; apply H3; auto].
Qed.

Lemma float64_to_int64_sat_spec d :
  0 <= d < 2 ^ 64 -> isnan d = false -> float64_to_int64_sat d = clamp INT64_MIN INT64_MAX (float64_trunc d).
Proof.
  intros Hd Hn. unfold float64_to_int64_sat. rewrite Hn.
  destruct (sat_of_order d INT64_MIN INT64_MAX _ Hd Hn ltac:(unfold INT64_MIN, INT64_MAX; lia) eq_refl) as (H1 & H2 & H3).
  change (INT64_MAX + 1) with (2 ^ 63) in *.
  destruct (float64_lt_int d INT64_MIN); [symmetry; apply H1; reflexivity|].
  destruct (float64_ge_int d (2 ^ 63)); [symmetry; apply H2; auto|symmetry; apply H3; auto].
Qed.

Lemma rne_range x k lo hi : 1 <= k -> lo * 2 ^ k <= x <= hi * 2 ^ k -> lo <= rne x k <= hi.
Proof.
  intros Hk Hx. pose proof (scale_pos k ltac:(lia)) as P. pose proof (scale_pos (k - 1) ltac:(lia)) as P'.
  assert (2 ^ k = 2 * 2 ^ (k - 1)) as E by (rewrite <- Z.pow_succ_r by lia; f_equal; lia).
  unfold rne. cbv zeta. pose proof (Z.div_mod x (2 ^ k) ltac:(lia)) as Ed.
  pose proof (Z.mod_pos_bound x (2 ^ k) P) as Hm.
  assert (lo <= x / 2 ^ k) by (apply Z.div_le_lower_bound; lia).
  assert (x / 2 ^ k <= hi) by (apply Z.div_le_upper_bound; lia).
  destruct ((2 ^ (k - 1) <? x mod 2 ^ k) || _) eqn:Eup; [|lia].
  split; [lia|]. destruct (Z.eq_dec (x / 2 ^ k) hi) as [Eh|]; [exfalso|lia].
  rewrite Eh in *. assert (x mod 2 ^ k = 0) as E0 by lia. rewrite E0 in Eup.
  apply orb_true_iff in Eup as [Eup|Eup]; [apply Z.ltb_lt in Eup; lia|].
  apply andb_true_iff in Eup as [Eup _]. apply Z.eqb_eq in Eup. lia.
Qed.

Lemma float64_to_uint8_clamp_spec d :
  0 <= d < 2 ^ 64 -> isnan d = false -> float64_to_uint8_clamp d = clamp 0 255 (lrint d).
Proof.
  intros Hd Hn. unfold float64_to_uint8_clamp, float64_lt_int, float64_gt_int, lrint, clamp. rewrite Hn. cbn [negb andb].
  pose proof (scaled_abs_nonneg d Hd) as Hnn. unfold float64_scaled, signed in *.
  set (x := float64_scaled_abs d) in *. clearbody x. pose proof (scale_pos 1074 ltac:(lia)) as P.
  destruct (float64_sign d =? 0).
  - rewrite (proj2 (Z.ltb_ge x (0 * 2 ^ 1074))) by lia.
    destruct (Z.ltb_spec (255 * 2 ^ 1074) x) as [Hgt|Hle].
    + pose proof (rne_range x 1074 255 (x / 2 ^ 1074 + 1) ltac:(lia)) as Hr.
      assert (255 <= rne x 1074); [|lia]. apply Hr. split; [lia|].
      pose proof (Z.div_mod x (2 ^ 1074) ltac:(lia)). pose proof (Z.mod_pos_bound x (2 ^ 1074) P). lia.
    + pose proof (rne_range x 1074 0 255 ltac:(lia) ltac:(lia)). lia.
  - rewrite Z.mul_0_l. destruct (Z.ltb_spec (- x) 0) as [Hlt|Hge].
    + pose proof (rne_range x 1074 0 (x / 2 ^ 1074 + 1) ltac:(lia)) as Hr.
      assert (0 <= rne x 1074); [|lia]. apply Hr. split; [lia|].
      pose proof (Z.div_mod x (2 ^ 1074) ltac:(lia)). pose proof (Z.mod_pos_bound x (2 ^ 1074) P). lia.
    + assert (x = 0) by lia. subst x. rewrite (proj2 (Z.ltb_ge (255 * 2 ^ 1074) (- 0))) by lia.
      pose proof (rne_range 0 1074 0 0 ltac:(lia) ltac:(lia)). lia.
Qed.

(** ** Encoding *)

Lemma encode_fields s E m :
  0 <= E < 2048 -> 0 <= m < 2 ^ 52 ->
  let b := Z.lor (Z.lor (Z.shiftl (c_bool s) 63) (Z.shiftl E 52)) m in
  0 <= b < 2 ^ 64 /\ float64_sign b = c_bool s /\ float64_exp b = E /\ float64_mant b = m.
Proof.
  intros HE Hm b. pose proof (c_bool_bounds s) as Hs.
  assert (b = (c_bool s * 2 ^ 11 + E) * 2 ^ 52 + m) as Eb.
  { unfold b. replace (Z.shiftl (c_bool s) 63) with (Z.shiftl (Z.shiftl (c_bool s) 11) 52)
      by (rewrite Z.shiftl_shiftl by lia; reflexivity).
    rewrite <- Z.shiftl_lor, shl_lor_add by lia. rewrite shl_lor_add by lia. reflexivity. }
  clearbody b. subst b. unfold float64_sign, float64_exp, float64_mant.
  rewrite !land_mask, !Z.shiftr_div_pow2 by lia.
  assert (((c_bool s * 2 ^ 11 + E) * 2 ^ 52 + m) / 2 ^ 52 = c_bool s * 2 ^ 11 + E) as E52
    by (symmetry; apply (Z.div_unique_pos _ _ _ m); lia).
  split; [lia|]. split; [|split].
  - symmetry. apply (Z.div_unique_pos _ _ _ (E * 2 ^ 52 + m)); lia.
  - rewrite E52. symmetry. apply (Z.mod_unique_pos _ _ (c_bool s)); lia.
  - symmetry. apply (Z.mod_unique_pos _ _ (c_bool s * 2 ^ 11 + E)); lia.
Qed.

(** Integers below [2^53] are float64 numbers. *)
Lemma float64_round_exact v :
  Z.abs v < 2 ^ 53 ->
  0 <= float64_round v < 2 ^ 64 /\ isfinite (float64_round v) = true /\
  float64_scaled (float64_round v) = v * 2 ^ 1074.
Proof.
  intros Hv. unfold float64_round. destruct (Z.eqb_spec v 0) as [->|Hnz]; [split; [lia|]; split; reflexivity|].
  cbv zeta. set (m := Z.abs v) in *. assert (0 < m) as Hm by (unfold m; lia).
  pose proof (Z.log2_spec m Hm) as [H1 H2]. assert (0 <= Z.log2 m) as He by apply Z.log2_nonneg.
  assert (Z.log2 m <= 52) as Hle by (assert (Z.log2 m < 53); [apply Z.log2_lt_pow2; lia|lia]).
  set (e := Z.log2 m) in *. clearbody e. rewrite (proj2 (Z.leb_le e 52)) by lia.
  rewrite Z.pow_succ_r in H2 by lia. pose proof (scale_pos (52 - e) ltac:(lia)) as P.
  assert (2 ^ 52 = 2 ^ e * 2 ^ (52 - e)) as E52 by (rewrite <- Z.pow_add_r by lia; f_equal; lia).
  assert (2 ^ e * 2 ^ (52 - e) <= m * 2 ^ (52 - e)) by (apply Z.mul_le_mono_nonneg_r; lia).
  assert (m * 2 ^ (52 - e) < (2 * 2 ^ e) * 2 ^ (52 - e)) by (apply Z.mul_lt_mono_pos_r; lia).
  set (q := m * 2 ^ (52 - e)) in *. assert (2 ^ 52 <= q < 2 ^ 53) as Hq by lia.
  rewrite (proj2 (Z.eqb_neq q (2 ^ 53))) by lia. rewrite (proj2 (Z.ltb_ge 1023 e)) by lia.
  destruct (encode_fields (v <? 0) (e + 1023) (q - 2 ^ 52)) as (Hb & Es & Ee & Em); [lia..|].
  set (b := Z.lor _ _) in *. clearbody b. split; [exact Hb|]. unfold isfinite, float64_scaled, float64_scaled_abs.
  rewrite Es, Ee, Em, (proj2 (Z.eqb_neq (e + 1023) 2047)), (proj2 (Z.eqb_neq (e + 1023) 0)) by lia.
  split; [reflexivity|].
  replace ((q - 2 ^ 52 + 2 ^ 52) * 2 ^ (e + 1023 - 1)) with (m * 2 ^ 1074).
  - unfold signed, m. destruct (Z.ltb_spec v 0); cbn [c_bool Z.eqb].
    + rewrite Z.abs_neq by lia. ring.
    + rewrite Z.abs_eq by lia. ring.
  - unfold q. rewrite Z.sub_add, <- Z.mul_assoc, <- Z.pow_add_r by lia. do 2 f_equal. lia.
Qed.

(** ** Boxing *)

(** The number a numeric value stands for, in units of [2^-1074]. *)
Definition num_scaled (v : JSValue) : option Z :=
  match v with
  | JS_TAG_INT v => Some (v * 2 ^ 1074)
  | JS_TAG_FLOAT64 d => if isfinite d then Some (float64_scaled d) else None
  | _ => None
  end.

Lemma JS_NewFloat64_spec d :
  0 <= d < 2 ^ 64 ->
  num_scaled (JS_NewFloat64 d) = num_scaled (JS_TAG_FLOAT64 d) /\
  (forall v, JS_NewFloat64 d = JS_TAG_INT v -> d = float64_round v /\ INT32_MIN <= v <= INT32_MAX).
Proof.
  intros Hd. unfold JS_NewFloat64, float64_ge_int, float64_le_int, __JS_NewFloat64. cbv zeta.
  destruct (isnan d) eqn:En; cbn [negb andb]; [split; [reflexivity|discriminate]|].
  destruct (Z.leb_spec (INT32_MIN * 2 ^ 1074) (float64_scaled d)) as [H1|_]; cbn [andb]; [|split; [reflexivity|discriminate]].
  destruct (Z.leb_spec (float64_scaled d) (INT32_MAX * 2 ^ 1074)) as [H2|_]; [|split; [reflexivity|discriminate]].
  destruct (Z.eqb_spec d (float64_round (float64_trunc d))) as [Ed|_]; [|split; [reflexivity|discriminate]].
  assert (INT32_MIN <= float64_trunc d <= INT32_MAX) as Ht.
  { destruct (trunc_bounds d Hd) as [Hp Hq]. pose proof (scale_pos 1074 ltac:(lia)) as P.
    set (P1074 := 2 ^ 1074) in *. clearbody P1074. unfold INT32_MIN, INT32_MAX in *.
    destruct (Z.le_gt_cases 0 (float64_scaled d)) as [Hs|Hs]; [specialize (Hp Hs)|specialize (Hq Hs)]; nia. }
  destruct (float64_round_exact (float64_trunc d)) as (_ & Hf & Es); [unfold INT32_MIN, INT32_MAX in Ht; lia|].
  rewrite <- Ed in Hf, Es. split.
  - unfold num_scaled. rewrite Hf, Es. reflexivity.
  - intros v Hv. injection Hv as <-. split; [exact Ed|exact Ht].
Qed.

Lemma JS_NewInt64_spec v :
  Z.abs v < 2 ^ 53 ->
  num_scaled (JS_NewInt64 v) = Some (v * 2 ^ 1074) /\
  (INT32_MIN <= v <= INT32_MAX <-> exists w, JS_NewInt64 v = JS_TAG_INT w).
Proof.
  intros Hv. unfold JS_NewInt64, JS_NewInt32, __JS_NewFloat64, INT32_MIN, INT32_MAX.
  destruct (Z.eqb_spec v (swrap 32 v)) as [E|Hne].
  - rewrite <- E. split; [reflexivity|]. pose proof (swrap_range 32 v ltac:(lia)). split; [eauto|]. intros _. lia.
  - destruct (float64_round_exact v Hv) as (_ & Hf & Es). unfold num_scaled. rewrite Hf, Es. split; [reflexivity|].
    split; [|intros [w Hw]; discriminate]. intros Hr. destruct Hne. symmetry. apply swrap_small; lia.
Qed.
