(* ===== verification/BigIntInterface.v ===== *)
(** The contract between the BigInt arithmetic and its callers: every operation
    returns a normalised number with the value of the corresponding operation on
    the integers, or throws for one of the documented reasons.  [BigIntArith] is
    the contract; [quickjs_bigint] shows that the functions of quickjs.c keep it. *)
From stdpp Require Import base tactics list numbers.
From Stdlib Require Import ZArith Lia.
From S2P Require Import Prelude Limbs BigInt BigIntMul BigIntDivRem BigIntBits BigIntPow.

Open Scope Z_scope.

Section Contract.
Context `{LC : LimbConfig} `{FM : FreshMemory}.

(** [r] is a normalised BigInt of value [v]. *)
Definition is_big (v : Z) (r : JSBigInt) : Prop := bi_norm r /\ bi_val r = v.

(** The size exceptions. *)
Definition size_exn (e : exn) : Prop := e = err_alloc \/ e = err_large.

Class BigIntArith := {
  big_add : JSBigInt -> JSBigInt -> Z -> M JSBigInt;
  big_neg : JSBigInt -> M JSBigInt;
  big_mul : JSBigInt -> JSBigInt -> M JSBigInt;
  big_divrem : JSBigInt -> JSBigInt -> bool -> M JSBigInt;
  big_pow : JSBigInt -> JSBigInt -> M JSBigInt;
  big_logic : JSBigInt -> JSBigInt -> OPCodeLogic -> M JSBigInt;
  big_not : JSBigInt -> M JSBigInt;
  big_shl : JSBigInt -> Z -> M JSBigInt;
  big_shr : JSBigInt -> Z -> M JSBigInt;
  big_cmp : JSBigInt -> JSBigInt -> Z;
  big_add_law a b neg : bi_norm a -> bi_norm b ->
    mspec (big_add a b (c_bool neg)) (is_big (if neg then bi_val a - bi_val b else bi_val a + bi_val b)) size_exn;
  big_neg_law a : bi_norm a -> mspec (big_neg a) (is_big (- bi_val a)) size_exn;
  big_mul_law a b : bi_norm a -> bi_norm b -> mspec (big_mul a b) (is_big (bi_val a * bi_val b)) size_exn;
  big_divrem_law a b is_rem : bi_norm a -> bi_norm b ->
    mspec (big_divrem a b is_rem)
      (fun r => bi_val b <> 0 /\
         is_big (if is_rem : bool then Z.rem (bi_val a) (bi_val b) else Z.quot (bi_val a) (bi_val b)) r)
      (fun e => size_exn e \/ (e = err_div0 /\ bi_val b = 0));
  big_pow_law a b : bi_norm a -> bi_norm b ->
    mspec (big_pow a b) (fun r => 0 <= bi_val b /\ is_big (bi_val a ^ bi_val b) r)
      (fun e => size_exn e \/ (e = err_negexp /\ bi_val b < 0));
  big_logic_law a b op : bi_norm a -> bi_norm b ->
    mspec (big_logic a b op) (is_big (logic_op op (bi_val a) (bi_val b))) size_exn;
  big_not_law a : bi_norm a -> mspec (big_not a) (is_big (Z.lnot (bi_val a))) size_exn;
  big_shl_law a n : bi_norm a -> 0 <= n ->
    mspec (big_shl a n)
      (fun r => is_big (bi_val a * 2 ^ n) r /\
         (bi_val a = 0 \/ n / JS_LIMB_BITS < JS_BIGINT_MAX_SIZE)) size_exn;
  big_shr_law a n : bi_norm a -> 0 <= n -> mspec (big_shr a n) (is_big (bi_val a / 2 ^ n)) size_exn;
  big_cmp_law a b : bi_norm a -> bi_norm b -> big_cmp a b = Z.sgn (bi_val a - bi_val b)
}.

(** ** The functions of quickjs.c keep the contract *)

Lemma divrem_nonzero a b is_rem :
  bi_norm a -> bi_norm b ->
  mspec (js_bigint_divrem a b is_rem)
    (fun r => bi_val b <> 0 /\
       is_big (if is_rem then Z.rem (bi_val a) (bi_val b) else Z.quot (bi_val a) (bi_val b)) r)
    (fun e => size_exn e \/ (e = err_div0 /\ bi_val b = 0)).
Proof.
  intros Ha Hb. destruct (Z.eq_dec (bi_val b) 0) as [E0|Hne].
  - unfold js_bigint_divrem. rewrite (bi_zero_iff b Hb), E0. apply mspec_throw. auto.
  - eapply mspec_mono; [apply (js_bigint_divrem_spec a b is_rem Ha Hb)| |].
    + intros r Hr. split; [exact Hne|exact Hr].
    + intros e [[-> E]|[-> _]]; [contradiction|]. left. left. reflexivity.
Qed.

Lemma pow_nonneg a b :
  bi_norm a -> bi_norm b ->
  mspec (js_bigint_pow a b) (fun r => 0 <= bi_val b /\ is_big (bi_val a ^ bi_val b) r)
    (fun e => size_exn e \/ (e = err_negexp /\ bi_val b < 0)).
Proof.
  intros Ha Hb. destruct (Z.lt_ge_cases (bi_val b) 0) as [Hn|Hn].
  - unfold js_bigint_pow. rewrite (js_bigint_sign_spec b (proj1 Hb)), (proj2 (Z.ltb_lt _ _) Hn).
    apply mspec_throw. auto.
  - eapply mspec_mono; [apply (js_bigint_pow_spec a b Ha Hb)| |].
    + intros r Hr. split; [exact Hn|exact Hr].
    + intros e [[-> H]|(_ & [-> | ->] & _)]; [lia|left; right; reflexivity|left; left; reflexivity].
Qed.

#[export, refine] Instance quickjs_bigint : BigIntArith := {|
  big_add := js_bigint_add; big_neg := js_bigint_neg; big_mul := js_bigint_mul;
  big_divrem := js_bigint_divrem; big_pow := js_bigint_pow; big_logic := js_bigint_logic;
  big_not := js_bigint_not; big_shl := js_bigint_shl; big_shr := js_bigint_shr; big_cmp := js_bigint_cmp
|}.
Proof.
  - intros a b neg Ha Hb. eapply mspec_mono; [apply (js_bigint_add_spec a b neg); [apply Ha|apply Hb]| |].
    + intros r (H1 & H2 & _). split; assumption.
    + intros e [-> _]. left. reflexivity.
  - intros a Ha. eapply mspec_mono; [apply (js_bigint_neg_spec a), Ha| |].
    + intros r (H1 & H2 & _). split; assumption.
    + intros e [-> _]. left. reflexivity.
  - intros a b Ha Hb. eapply mspec_mono; [apply (js_bigint_mul_spec a b); [apply Ha|apply Hb]| |].
    + intros r (H1 & H2 & _). split; assumption.
    + intros e [-> _]. left. reflexivity.
  - intros a b is_rem Ha Hb. apply divrem_nonzero; assumption.
  - intros a b Ha Hb. apply pow_nonneg; assumption.
  - intros a b op Ha Hb. eapply mspec_mono; [apply (js_bigint_logic_spec a b op); [apply Ha|apply Hb]| |].
    + intros r (H1 & H2 & _). split; assumption.
    + intros e [-> _]. left. reflexivity.
  - intros a Ha. eapply mspec_mono; [apply (js_bigint_not_spec a Ha)| |].
    + intros r (H1 & H2 & _). split; assumption.
    + intros e [-> _]. left. reflexivity.
  - intros a n Ha Hn. eapply mspec_mono; [apply (js_bigint_shl_spec a n Ha Hn)| |].
    + intros r (H1 & H2 & H3). split; [split; assumption|]. pose proof (bi_len_pos a (proj1 Ha)). lia.
    + intros e [-> _]. left. reflexivity.
  - intros a n Ha Hn. eapply mspec_mono; [apply (js_bigint_shr_spec a n Ha Hn)| |].
    + intros r [H1 H2]. split; assumption.
    + intros e [-> _]. left. reflexivity.
  - apply js_bigint_cmp_spec.
Defined.

End Contract.
