(* ===== verification/Operators.v ===== *)
(** The operators on BigInts and numbers ([js_unary_arith_slow], [js_not_slow],
    [js_binary_arith_slow], [js_add_slow], [js_binary_logic_slow],
    [js_compare_bigint] and the BigInt constructors of quickjs.c): definitions.

    The operands are on the interpreter stack; a definition takes them as
    arguments and returns the value stored back.  The operators call the BigInt
    arithmetic through its contract, [BigIntArith]. *)
From stdpp Require Import base tactics list numbers strings.
From Stdlib Require Import ZArith Lia.
From S2P Require Import Prelude Float64 Limbs BigInt BigIntFloatSpecs Numbers BigIntInterface.

Open Scope Z_scope.

Inductive OPCodeUnary : Type := OP_inc | OP_dec | OP_plus | OP_neg | OP_bnot.
Inductive OPCodeArith : Type := OP_add | OP_sub | OP_mul | OP_div | OP_mod | OP_pow.
Inductive OPCodeBits : Type := OP_logic (op : OPCodeLogic) | OP_shl | OP_sar.
Inductive OPCodeRel : Type := OP_lt | OP_lte | OP_gt | OP_gte | OP_eq.

(** [pow] of the C library. *)
Class LibM := { libm_pow : Z -> Z -> Z }.

Definition err_unary_plus : exn := TypeError "bigint argument with unary +".

Definition js_pow `{LibM} (a b : Z) : Z :=
  if negb (isfinite b) && (float64_scaled_abs a =? 2 ^ 1074) then JS_FLOAT64_NAN else libm_pow a b.

Section Operators.
Context `{LC : LimbConfig} `{FM : FreshMemory} `{BA : !BigIntArith} `{LM : LibM}.

Definition JS_SHORT_BIG_INT_BITS : Z := JS_LIMB_BITS.
Definition JS_SHORT_BIG_INT_MIN : Z := - 2 ^ (JS_LIMB_BITS - 1).
Definition JS_SHORT_BIG_INT_MAX : Z := 2 ^ (JS_LIMB_BITS - 1) - 1.

Definition __JS_NewShortBigInt (v : Z) : JSValue := JS_TAG_SHORT_BIG_INT (js_slimb v).

Definition js_bigint_set_short (v : Z) : JSBigInt := js_bigint_set_si v.

Definition JS_CompactBigInt (p : JSBigInt) : JSValue :=
  if bi_len p =? 1 then __JS_NewShortBigInt (js_slimb (tab p !!! 0%nat)) else JS_TAG_BIG_INT p.

Definition JS_NewBigInt64 (v : Z) : M JSValue :=
  if JS_SHORT_BIG_INT_BITS =? 64 then mret (__JS_NewShortBigInt v)
  else if (JS_SHORT_BIG_INT_MIN <=? v) && (v <=? JS_SHORT_BIG_INT_MAX) then mret (__JS_NewShortBigInt v)
  else p ← js_bigint_new_si64 v; mret (JS_TAG_BIG_INT p).

Definition JS_NewBigUint64 (v : Z) : M JSValue :=
  if v <=? JS_SHORT_BIG_INT_MAX then mret (__JS_NewShortBigInt v)
  else p ← js_bigint_new_ui64 v; mret (JS_TAG_BIG_INT p).

(** The value modulo [2^64], for an argument that is a BigInt. *)
Definition JS_ToBigInt64Free (val : JSValue) : M Z :=
  match val with
  | JS_TAG_SHORT_BIG_INT v => mret (swrap 64 v)
  | JS_TAG_BIG_INT p =>
      res ← tab_get (tab p) 0;
      if JS_LIMB_BITS =? 32 then
        if 2 <=? bi_len p then
          hi ← tab_get (tab p) 1;
          mret (swrap 64 (Z.lor res (Z.shiftl hi 32)))
        else mret (swrap 64 res)
      else mret (swrap 64 res)
  | _ => undefined
  end.

(** ** Unary operators *)

(** [bigint_slow_case1] *)
Definition bigint_unary (p1 : JSBigInt) (op : OPCodeUnary) : M JSValue :=
  r ← match op with
      | OP_plus => throw err_unary_plus
      | OP_inc => big_add p1 (js_bigint_set_si 1) 0
      | OP_dec => big_add p1 (js_bigint_set_si (-1)) 0
      | OP_neg => big_neg p1
      | OP_bnot => big_not p1
      end;
  mret (JS_CompactBigInt r).

Definition float64_unary (d : Z) (op : OPCodeUnary) : M JSValue :=
  match op with
  | OP_inc => mret (__JS_NewFloat64 (float64_add d (float64_round 1)))
  | OP_dec => mret (__JS_NewFloat64 (float64_add d (float64_round (-1))))
  | OP_plus => mret (__JS_NewFloat64 d)
  | OP_neg => mret (__JS_NewFloat64 (float64_neg d))
  | OP_bnot => undefined
  end.

Definition js_unary_arith_slow (op1 : JSValue) (op : OPCodeUnary) : M JSValue :=
  op1 ← JS_ToNumericFree op1;
  match op1 with
  | JS_TAG_INT v64 =>
      match op with
      | OP_inc => mret (JS_NewInt64 (v64 + 1))
      | OP_dec => mret (JS_NewInt64 (v64 - 1))
      | OP_plus => mret (JS_NewInt64 v64)
      | OP_neg => mret (if v64 =? 0 then __JS_NewFloat64 (2 ^ 63) else JS_NewInt64 (- v64))
      | OP_bnot => undefined
      end
  | JS_TAG_SHORT_BIG_INT v =>
      match op with
      | OP_plus => throw err_unary_plus
      | OP_inc =>
          if v =? JS_SHORT_BIG_INT_MAX then bigint_unary (js_bigint_set_short v) op
          else mret (__JS_NewShortBigInt (v + 1))
      | OP_dec =>
          if v =? JS_SHORT_BIG_INT_MIN then bigint_unary (js_bigint_set_short v) op
          else mret (__JS_NewShortBigInt (v - 1))
      | OP_neg =>
          if v =? JS_SHORT_BIG_INT_MIN then bigint_unary (js_bigint_set_short v) op
          else mret (__JS_NewShortBigInt (- v))
      | OP_bnot => undefined
      end
  | JS_TAG_BIG_INT p1 => bigint_unary p1 op
  | JS_TAG_FLOAT64 d => float64_unary d op
  | _ => undefined
  end.

Definition js_not_slow (op1 : JSValue) : M JSValue :=
  op1 ← JS_ToNumericFree op1;
  match op1 with
  | JS_TAG_SHORT_BIG_INT v => mret (__JS_NewShortBigInt (Z.lnot v))
  | JS_TAG_BIG_INT p => r ← big_not p; mret (JS_CompactBigInt r)
  | _ => v1 ← JS_ToInt32Free op1; mret (JS_NewInt32 (Z.lnot v1))
  end.

(** ** Binary arithmetic *)

(** [slow_big_int] *)
Definition bigint_arith (p1 p2 : JSBigInt) (op : OPCodeArith) : M JSValue :=
  r ← match op with
      | OP_add => big_add p1 p2 0
      | OP_sub => big_add p1 p2 1
      | OP_mul => big_mul p1 p2
      | OP_div => big_divrem p1 p2 false
      | OP_mod => big_divrem p1 p2 true
      | OP_pow => big_pow p1 p2
      end;
  mret (JS_CompactBigInt r).

(** A double limb as a short or a two-limb BigInt. *)
Definition short_or_di (v : Z) : M JSValue :=
  if (JS_SHORT_BIG_INT_MIN <=? v) && (v <=? JS_SHORT_BIG_INT_MAX)
  then mret (__JS_NewShortBigInt v)
  else r ← js_bigint_new_di v; mret (JS_TAG_BIG_INT r).

Definition short_arith (v1 v2 : Z) (op : OPCodeArith) : M JSValue :=
  let slow := bigint_arith (js_bigint_set_short v1) (js_bigint_set_short v2) op in
  let div_slow := (v2 =? 0) || ((js_limb v1 =? js_limb (Z.shiftl 1 (JS_LIMB_BITS - 1))) && (v2 =? -1)) in
  match op with
  | OP_add => undefined
  | OP_sub => short_or_di (v1 - v2)
  | OP_mul => short_or_di (v1 * v2)
  | OP_div => if div_slow then slow else mret (__JS_NewShortBigInt (Z.quot v1 v2))
  | OP_mod => if div_slow then slow else mret (__JS_NewShortBigInt (Z.rem v1 v2))
  | OP_pow => slow
  end.

Definition int_arith (v1 v2 : Z) (op : OPCodeArith) : M JSValue :=
  match op with
  | OP_add => undefined
  | OP_sub => mret (JS_NewInt64 (v1 - v2))
  | OP_mul =>
      let v := v1 * v2 in
      mret (if (v =? 0) && (Z.lor v1 v2 <? 0) then __JS_NewFloat64 (2 ^ 63) else JS_NewInt64 v)
  | OP_div => mret (JS_NewFloat64 (float64_div (float64_round v1) (float64_round v2)))
  | OP_mod =>
      mret (if (v1 <? 0) || (v2 <=? 0) then JS_NewFloat64 (fmod (float64_round v1) (float64_round v2))
            else JS_NewInt64 (Z.rem v1 v2))
  | OP_pow => mret (JS_NewFloat64 (js_pow (float64_round v1) (float64_round v2)))
  end.

(** [handle_float64] *)
Definition float64_arith (d1 d2 : Z) (op : OPCodeArith) : M JSValue :=
  match op with
  | OP_add => undefined
  | OP_sub => mret (__JS_NewFloat64 (float64_sub d1 d2))
  | OP_mul => mret (__JS_NewFloat64 (float64_mul d1 d2))
  | OP_div => mret (__JS_NewFloat64 (float64_div d1 d2))
  | OP_mod => mret (__JS_NewFloat64 (fmod d1 d2))
  | OP_pow => mret (__JS_NewFloat64 (js_pow d1 d2))
  end.

(** [p1 = js_bigint_set_short(&buf1, op1)] or [p1 = JS_VALUE_GET_PTR(op1)]. *)
Definition bigint_operand (v : JSValue) : option JSBigInt :=
  match v with
  | JS_TAG_SHORT_BIG_INT v => Some (js_bigint_set_short v)
  | JS_TAG_BIG_INT p => Some p
  | _ => None
  end.

Definition js_binary_arith_slow (op1 op2 : JSValue) (op : OPCodeArith) : M JSValue :=
  match op1, op2 with
  | JS_TAG_FLOAT64 d1, JS_TAG_FLOAT64 d2 => float64_arith d1 d2 op
  | JS_TAG_SHORT_BIG_INT v1, JS_TAG_SHORT_BIG_INT v2 => short_arith v1 v2 op
  | _, _ =>
      op1 ← JS_ToNumericFree op1;
      op2 ← JS_ToNumericFree op2;
      match op1, op2 with
      | JS_TAG_INT v1, JS_TAG_INT v2 => int_arith v1 v2 op
      | _, _ =>
          match bigint_operand op1, bigint_operand op2 with
          | Some p1, Some p2 => bigint_arith p1 p2 op
          | _, _ =>
              d1 ← JS_ToFloat64Free op1;
              d2 ← JS_ToFloat64Free op2;
              float64_arith d1 d2 op
          end
      end
  end.

Definition js_add_slow (op1 op2 : JSValue) : M JSValue :=
  match op1, op2 with
  | JS_TAG_FLOAT64 d1, JS_TAG_FLOAT64 d2 => mret (__JS_NewFloat64 (float64_add d1 d2))
  | JS_TAG_SHORT_BIG_INT v1, JS_TAG_SHORT_BIG_INT v2 => short_or_di (v1 + v2)
  | _, _ =>
      op1 ← JS_ToNumericFree op1;
      op2 ← JS_ToNumericFree op2;
      match op1, op2 with
      | JS_TAG_INT v1, JS_TAG_INT v2 => mret (JS_NewInt64 (v1 + v2))
      | _, _ =>
          match bigint_operand op1, bigint_operand op2 with
          | Some p1, Some p2 => r ← big_add p1 p2 0; mret (JS_CompactBigInt r)
          | _, _ =>
              d1 ← JS_ToFloat64Free op1;
              d2 ← JS_ToFloat64Free op2;
              mret (__JS_NewFloat64 (float64_add d1 d2))
          end
      end
  end.

(** ** Bitwise operators and shifts *)

(** The shift count of a BigInt shift, saturated to [+-INT32_MAX]. *)
Definition shift_count (p2 : JSBigInt) : Z :=
  let shift := js_bigint_get_si_sat p2 in
  if INT32_MAX <? shift then INT32_MAX else if shift <? - INT32_MAX then - INT32_MAX else shift.

Definition bigint_shift (p1 : JSBigInt) (shift : Z) : M JSBigInt :=
  if 0 <=? shift then big_shl p1 shift else big_shr p1 (- shift).

(** [slow_big_int] *)
Definition bigint_bits (p1 p2 : JSBigInt) (op : OPCodeBits) : M JSValue :=
  r ← match op with
      | OP_logic op => big_logic p1 p2 op
      | OP_shl => bigint_shift p1 (shift_count p2)
      | OP_sar => bigint_shift p1 (- shift_count p2)
      end;
  mret (JS_CompactBigInt r).

(** [bigint_shl]: [vd = (js_dlimb_t)v1 << v2], read back as a signed double limb. *)
Definition short_shl (v1 v2 : Z) : M JSValue :=
  short_or_di (swrap (2 * JS_LIMB_BITS) (js_dlimb (Z.shiftl (js_dlimb v1) v2))).

Definition short_bits (v1 v2 : Z) (op : OPCodeBits) : M JSValue :=
  let slow := bigint_bits (js_bigint_set_short v1) (js_bigint_set_short v2) op in
  match op with
  | OP_logic op => mret (__JS_NewShortBigInt (logic_op op v1 v2))
  | OP_sar =>
      if JS_LIMB_BITS - 1 <? v2 then slow
      else if v2 <? 0 then
        if v2 <? - (JS_LIMB_BITS - 1) then slow else short_shl v1 (- v2)
      else mret (__JS_NewShortBigInt (Z.shiftr v1 v2))
  | OP_shl =>
      if JS_LIMB_BITS - 1 <? v2 then slow
      else if v2 <? 0 then
        if v2 <? - (JS_LIMB_BITS - 1) then slow else mret (__JS_NewShortBigInt (Z.shiftr v1 (- v2)))
      else short_shl v1 v2
  end.

(** [v1], [v2] are [uint32_t]. *)
Definition int_bits (v1 v2 : Z) (op : OPCodeBits) : Z :=
  match op with
  | OP_logic op => logic_op op v1 v2
  | OP_shl => wrap 32 (Z.shiftl v1 (Z.land v2 31))
  | OP_sar => wrap 32 (Z.shiftr (swrap 32 v1) (Z.land v2 31))
  end.

Definition js_binary_logic_slow (op1 op2 : JSValue) (op : OPCodeBits) : M JSValue :=
  match op1, op2 with
  | JS_TAG_SHORT_BIG_INT v1, JS_TAG_SHORT_BIG_INT v2 => short_bits v1 v2 op
  | _, _ =>
      op1 ← JS_ToNumericFree op1;
      op2 ← JS_ToNumericFree op2;
      match bigint_operand op1, bigint_operand op2 with
      | Some p1, Some p2 => bigint_bits p1 p2 op
      | _, _ =>
          v1 ← JS_ToUint32Free op1;
          v2 ← JS_ToUint32Free op2;
          mret (JS_NewInt32 (int_bits v1 v2 op))
      end
  end.

(** ** Comparison *)

Definition JS_ToBigIntBuf (op1 : JSValue) : M JSBigInt :=
  match op1 with
  | JS_TAG_INT v => mret (js_bigint_set_si v)
  | JS_TAG_SHORT_BIG_INT v => mret (js_bigint_set_short v)
  | JS_TAG_BIG_INT p => mret p
  | _ => undefined
  end.

(** The operand of the fast path of [js_compare_bigint]. *)
Definition short_operand (v : JSValue) : option Z :=
  match v with JS_TAG_SHORT_BIG_INT v | JS_TAG_INT v => Some v | _ => None end.

Definition rel_result (op : OPCodeRel) (val : Z) : bool :=
  match op with
  | OP_lt => val <? 0
  | OP_lte => val <=? 0
  | OP_gt => 0 <? val
  | OP_gte => 0 <=? val
  | OP_eq => val =? 0
  end.

Definition js_compare_bigint (op : OPCodeRel) (op1 op2 : JSValue) : M bool :=
  match short_operand op1, short_operand op2 with
  | Some v1, Some v2 => mret (rel_result op (c_bool (v2 <? v1) - c_bool (v1 <? v2)))
  | _, _ =>
      match op1, op2 with
      | JS_TAG_FLOAT64 d, _ =>
          p2 ← JS_ToBigIntBuf op2;
          let val := js_bigint_float64_cmp p2 d in
          mret (if val =? 2 then false else rel_result op (- val))
      | _, JS_TAG_FLOAT64 d =>
          p1 ← JS_ToBigIntBuf op1;
          let val := js_bigint_float64_cmp p1 d in
          mret (if val =? 2 then false else rel_result op val)
      | _, _ =>
          p1 ← JS_ToBigIntBuf op1;
          p2 ← JS_ToBigIntBuf op2;
          mret (rel_result op (big_cmp p1 p2))
      end
  end.

(** ** [BigInt.asUintN] and [BigInt.asIntN], after the conversion of the arguments *)

Definition js_bigint_asUintN (bits : Z) (a : JSValue) (asIntN : bool) : M JSValue :=
  if bits =? 0 then mret (__JS_NewShortBigInt 0) else
  match a with
  | JS_TAG_SHORT_BIG_INT v =>
      if JS_SHORT_BIG_INT_BITS <=? bits then mret a
      else
        let shift := 64 - bits in
        let v := wrap 64 (Z.shiftl (wrap 64 v) shift) in
        let v := if asIntN then wrap 64 (Z.shiftr (swrap 64 v) shift) else Z.shiftr v shift in
        mret (__JS_NewShortBigInt v)
  | JS_TAG_BIG_INT p =>
      if bi_len p * JS_LIMB_BITS <=? bits then mret a
      else
        let l := (bits + JS_LIMB_BITS - 1) / JS_LIMB_BITS in
        r ← js_bigint_new l;
        lo ← tab_slice (tab p) 0 (l - 1);
        t ← tab_blit (tab r) 0 lo;
        let shift := Z.land (wrap 64 (- bits)) (JS_LIMB_BITS - 1) in
        x ← tab_get (tab p) (l - 1);
        let v := js_limb (Z.shiftl x shift) in
        let v := if asIntN then js_limb (Z.shiftr (js_slimb v) shift) else Z.shiftr v shift in
        t ← tab_set t (l - 1) v;
        r ← js_bigint_normalize (MkBigInt t);
        mret (JS_CompactBigInt r)
  | _ => undefined
  end.

End Operators.
