(* ===== verification/OperatorSpecs.v ===== *)
(** The operators on BigInts compute the integer operations, on the short and on
    the heap representation alike, and keep the representation canonical: a heap
    BigInt is used exactly for the values that do not fit a short one. *)
From stdpp Require Import base tactics list numbers strings.
From Stdlib Require Import ZArith Lia.
From S2P Require Import Prelude Float64 Limbs BigInt BigIntMul BigIntDivRem BigIntBits BigIntPow BigIntFloatCmp Numbers NumberSpecs BigIntInterface Operators.

Open Scope Z_scope.

Section OperatorSpecs.
Context `{LC : LimbConfig} `{FM : FreshMemory} `{BA : !BigIntArith} `{LM : LibM}.

(** ** Representation *)

Definition short_range (v : Z) : Prop := JS_SHORT_BIG_INT_MIN <= v <= JS_SHORT_BIG_INT_MAX.

(** [v] is the canonical representation of the BigInt [z]. *)
Definition is_bigint (z : Z) (v : JSValue) : Prop :=
  match v with
  | JS_TAG_SHORT_BIG_INT x => x = z /\ short_range x
  | JS_TAG_BIG_INT p => bi_norm p /\ bi_val p = z /\ 2 <= bi_len p
  | _ => False
  end.

Lemma short_slimb v : short_range v -> js_slimb v = v.
Proof.
  unfold short_range, JS_SHORT_BIG_INT_MIN, JS_SHORT_BIG_INT_MAX. intros H.
  apply swrap_small; [pose proof limb_bits_pos|]; lia.
Qed.

Lemma new_short_spec v : short_range v -> is_bigint v (__JS_NewShortBigInt v).
Proof. intros H. unfold __JS_NewShortBigInt. rewrite (short_slimb v H). split; [reflexivity|exact H]. Qed.

Lemma slimb_short x : short_range (js_slimb x).
Proof.
  unfold short_range, JS_SHORT_BIG_INT_MIN, JS_SHORT_BIG_INT_MAX, js_slimb.
  pose proof (swrap_range JS_LIMB_BITS x) as H. pose proof limb_bits_pos. lia.
Qed.

Lemma set_short_spec v : short_range v -> is_big v (js_bigint_set_short v).
Proof.
  unfold short_range, JS_SHORT_BIG_INT_MIN, JS_SHORT_BIG_INT_MAX. intros H. apply js_bigint_set_si_spec. lia.
Qed.

Lemma one_limb a : bi_norm a -> bi_len a = 1 -> bi_val a = js_slimb (tab a !!! 0%nat).
Proof.
  intros Ha El. assert (exists v, tab a = [v]) as (v & Et).
  { unfold bi_len, len in El. destruct (tab a) as [|v [|? ?]]; simpl in El; try lia. exists v. reflexivity. }
  destruct (single_limb_abs a v Ha Et) as (Ev & _). rewrite Et, Ev. reflexivity.
Qed.

Lemma compact_spec z r : is_big z r -> is_bigint z (JS_CompactBigInt r).
Proof.
  intros [Hn Hv]. unfold JS_CompactBigInt. destruct (Z.eqb_spec (bi_len r) 1) as [E1|Hne].
  - rewrite <- (one_limb r Hn E1), Hv. apply new_short_spec. rewrite <- Hv, (one_limb r Hn E1). apply slimb_short.
  - pose proof (bi_len_pos r (proj1 Hn)). repeat split; try apply Hn; [exact Hv|lia].
Qed.

(** The representation is unique: only a value out of the short range is on the heap. *)
Lemma heap_not_short z p : is_bigint z (JS_TAG_BIG_INT p) -> ~ short_range z.
Proof.
  intros (Hn & Hv & Hl) Hs. destruct (proj2 Hn) as [Hm|Hm]; [unfold bi_len, len in Hl; lia|].
  unfold bi_len in Hl. pose proof limb_base_big. pose proof limb_base_half.
  assert (limb_base ^ 1 <= limb_base ^ (len (tab p) - 1)) as Hp by (apply Z.pow_le_mono_r; lia).
  rewrite Z.pow_1_r in Hp. unfold bi_val in Hv.
  unfold short_range, JS_SHORT_BIG_INT_MIN, JS_SHORT_BIG_INT_MAX in Hs. lia.
Qed.

Lemma operand_spec z v : is_bigint z v -> exists p, bigint_operand v = Some p /\ is_big z p.
Proof.
  destruct v; cbn; try contradiction.
  - intros [-> Hs]. eexists. split; [reflexivity|]. apply set_short_spec, Hs.
  - intros (Hn & Hv & _). eexists. split; [reflexivity|]. split; assumption.
Qed.

Lemma short_or_di_spec v E :
  - (limb_base * limb_base) <= 2 * v < limb_base * limb_base -> mspec (short_or_di v) (is_bigint v) E.
Proof.
  intros Hv. unfold short_or_di.
  destruct ((JS_SHORT_BIG_INT_MIN <=? v) && (v <=? JS_SHORT_BIG_INT_MAX)) eqn:Es.
  - apply mspec_ret, new_short_spec. unfold short_range. apply andb_true_iff in Es as [H1 H2].
    apply Z.leb_le in H1, H2. lia.
  - eapply mspec_bind; [apply (js_bigint_new_di_spec v _ Hv)|]. intros r [Hn Hr]. apply mspec_ret.
    repeat split; try apply Hn; [exact Hr|]. pose proof (bi_len_pos r (proj1 Hn)) as Hl.
    assert (bi_len r <> 1); [|lia]. intros E1. pose proof (one_limb r Hn E1) as Eo.
    pose proof (slimb_short (tab r !!! 0%nat)) as Hs. rewrite <- Eo, Hr in Hs. unfold short_range in Hs.
    apply andb_false_iff in Es. rewrite !Z.leb_gt in Es. lia.
Qed.

Lemma short_sum_range v1 v2 k :
  short_range v1 -> short_range v2 -> k = v1 + v2 \/ k = v1 - v2 \/ k = v1 * v2 ->
  - (limb_base * limb_base) <= 2 * k < limb_base * limb_base.
Proof.
  unfold short_range, JS_SHORT_BIG_INT_MIN, JS_SHORT_BIG_INT_MAX. intros H1 H2 Hk.
  pose proof limb_half_big as Hh. rewrite limb_base_half. set (h := 2 ^ (JS_LIMB_BITS - 1)) in *. clearbody h.
  assert (2 ^ 31 * h <= h * h) by (apply Z.mul_le_mono_nonneg_r; lia).
  destruct Hk as [->|[->| ->]]; [lia|lia|].
  assert (Z.abs v1 * Z.abs v2 <= h * h) by (apply Z.mul_le_mono_nonneg; lia).
  rewrite <- Z.abs_mul in *. lia.
Qed.

(** Results of the contract, boxed. *)
Lemma boxed {A} (m : M A) (f : A -> JSValue) Q R E E' :
  mspec m Q E -> (forall a, Q a -> R (f a)) -> (forall e, E e -> E' e) ->
  mspec (r ← m; mret (f r)) R E'.
Proof.
  intros Hm HQ HE. eapply mspec_bind; [eapply mspec_mono; [exact Hm|intros a Ha; exact Ha|exact HE]|].
  intros a Ha. apply mspec_ret, HQ, Ha.
Qed.

(** ** Unary operators *)

Definition z_unary (op : OPCodeUnary) (x : Z) : Z :=
  match op with OP_inc => x + 1 | OP_dec => x - 1 | OP_plus => x | OP_neg => - x | OP_bnot => Z.lnot x end.

Lemma bigint_unary_spec z p op :
  is_big z p -> op <> OP_plus -> mspec (bigint_unary p op) (is_bigint (z_unary op z)) size_exn.
Proof.
  intros [Hn Hv] Hop. unfold bigint_unary.
  assert (forall v, - 2 ^ 31 <= v < 2 ^ 31 -> is_big v (js_bigint_set_si v)) as Hsi
    by (intros v Hr; apply js_bigint_set_si_spec; pose proof limb_half_big; lia).
  destruct (Hsi 1 ltac:(lia)) as [H1 V1]. destruct (Hsi (-1) ltac:(lia)) as [H2 V2].
  destruct op; [| |congruence| |].
  - eapply boxed; [apply (big_add_law p _ false Hn H1)| |intros e He; exact He].
    intros r Hr. apply compact_spec. cbn [z_unary]. rewrite V1, Hv in Hr. exact Hr.
  - eapply boxed; [apply (big_add_law p _ false Hn H2)| |intros e He; exact He].
    intros r Hr. apply compact_spec. cbn [z_unary]. rewrite V2, Hv in Hr. exact Hr.
  - eapply boxed; [apply (big_neg_law p Hn)| |intros e He; exact He].
    intros r Hr. apply compact_spec. rewrite Hv in Hr. exact Hr.
  - eapply boxed; [apply (big_not_law p Hn)| |intros e He; exact He].
    intros r Hr. apply compact_spec. rewrite Hv in Hr. exact Hr.
Qed.

Lemma js_unary_bigint_spec z v op :
  is_bigint z v -> op = OP_inc \/ op = OP_dec \/ op = OP_neg ->
  mspec (js_unary_arith_slow v op) (is_bigint (z_unary op z)) size_exn.
Proof.
  intros Hv Hop. assert (op <> OP_plus) as Hnp by (destruct Hop as [->|[->| ->]]; discriminate).
  destruct v; cbn in Hv; try contradiction; unfold js_unary_arith_slow; cbn [JS_ToNumericFree JS_ToNumberHintFree];
    rewrite ret_bind.
  - destruct Hv as [-> Hs]. pose proof (bigint_unary_spec _ _ op (set_short_spec _ Hs) Hnp) as Hslow.
    unfold short_range in Hs.
    destruct Hop as [->|[->| ->]]; cbn [z_unary] in *;
      match goal with |- context [?a =? ?b] => destruct (Z.eqb_spec a b) as [_|Hne] end;
      try exact Hslow; apply mspec_ret, new_short_spec; unfold short_range;
      unfold JS_SHORT_BIG_INT_MIN, JS_SHORT_BIG_INT_MAX in *; lia.
  - destruct Hv as (Hn & Hv & _). apply bigint_unary_spec; [split; assumption|exact Hnp].
Qed.

Lemma js_unary_plus_bigint z v (Q : JSValue -> Prop) :
  is_bigint z v -> mspec (js_unary_arith_slow v OP_plus) Q (fun e => e = err_unary_plus).
Proof.
  intros Hv. destruct v; cbn in Hv; try contradiction; unfold js_unary_arith_slow;
    cbn [JS_ToNumericFree JS_ToNumberHintFree]; rewrite ret_bind; [apply mspec_throw; reflexivity|].
  unfold bigint_unary. eapply mspec_bind; [apply (mspec_throw err_unary_plus (fun _ => False)); reflexivity|].
  intros a [].
Qed.

Lemma js_not_bigint_spec z v :
  is_bigint z v -> mspec (js_not_slow v) (is_bigint (Z.lnot z)) size_exn.
Proof.
  intros Hv. destruct v; cbn in Hv; try contradiction; unfold js_not_slow;
    cbn [JS_ToNumericFree JS_ToNumberHintFree]; rewrite ret_bind.
  - destruct Hv as [-> Hs]. apply mspec_ret, new_short_spec. unfold short_range in *.
    unfold JS_SHORT_BIG_INT_MIN, JS_SHORT_BIG_INT_MAX in *. rewrite Z.lnot_eq_pred_opp. lia.
  - destruct Hv as (Hn & Hv & _). eapply boxed; [apply (big_not_law p Hn)| |intros e He; exact He].
    intros r Hr. apply compact_spec. rewrite Hv in Hr. exact Hr.
Qed.

(** ** Arithmetic *)

Definition z_arith (op : OPCodeArith) (x y : Z) : Z :=
  match op with
  | OP_add => x + y | OP_sub => x - y | OP_mul => x * y
  | OP_div => Z.quot x y | OP_mod => Z.rem x y | OP_pow => x ^ y
  end.

(** When the operation has a value, and what is thrown otherwise. *)
Definition arith_defined (op : OPCodeArith) (y : Z) : Prop :=
  match op with OP_div | OP_mod => y <> 0 | OP_pow => 0 <= y | _ => True end.

Definition arith_exn (op : OPCodeArith) (y : Z) (e : exn) : Prop :=
  size_exn e \/
  match op with
  | OP_div | OP_mod => e = err_div0 /\ y = 0
  | OP_pow => e = err_negexp /\ y < 0
  | _ => False
  end.

Lemma bigint_arith_spec x y p1 p2 op :
  is_big x p1 -> is_big y p2 ->
  mspec (bigint_arith p1 p2 op) (fun r => arith_defined op y /\ is_bigint (z_arith op x y) r) (arith_exn op y).
Proof.
  intros [N1 V1] [N2 V2]. unfold bigint_arith, arith_exn. subst x y.
  destruct op; cbn [arith_defined z_arith].
  - eapply boxed; [apply (big_add_law p1 p2 false N1 N2)| |intros e He; left; exact He].
    intros r Hr. split; [exact I|apply compact_spec, Hr].
  - eapply boxed; [apply (big_add_law p1 p2 true N1 N2)| |intros e He; left; exact He].
    intros r Hr. split; [exact I|apply compact_spec, Hr].
  - eapply boxed; [apply (big_mul_law p1 p2 N1 N2)| |intros e He; left; exact He].
    intros r Hr. split; [exact I|apply compact_spec, Hr].
  - eapply boxed; [apply (big_divrem_law p1 p2 false N1 N2)| |intros e He; exact He].
    intros r [H0 Hr]. split; [exact H0|apply compact_spec, Hr].
  - eapply boxed; [apply (big_divrem_law p1 p2 true N1 N2)| |intros e He; exact He].
    intros r [H0 Hr]. split; [exact H0|apply compact_spec, Hr].
  - eapply boxed; [apply (big_pow_law p1 p2 N1 N2)| |intros e He; exact He].
    intros r [H0 Hr]. split; [exact H0|apply compact_spec, Hr].
Qed.

(** The guard of the short division: the one quotient that does not fit. *)
Lemma short_div_guard v1 v2 :
  short_range v1 -> short_range v2 ->
  (v2 =? 0) || ((js_limb v1 =? js_limb (Z.shiftl 1 (JS_LIMB_BITS - 1))) && (v2 =? -1)) = false ->
  v2 <> 0 /\ short_range (Z.quot v1 v2) /\ short_range (Z.rem v1 v2).
Proof.
  intros H1 H2 Hg. apply orb_false_iff in Hg as [Hz Hg]. apply Z.eqb_neq in Hz. split; [exact Hz|].
  assert (v2 = -1 -> v1 <> JS_SHORT_BIG_INT_MIN) as Hm.
  { intros -> ->. rewrite Z.eqb_refl, andb_true_r in Hg. apply Z.eqb_neq in Hg. apply Hg.
    unfold JS_SHORT_BIG_INT_MIN. rewrite Z.shiftl_1_l, !js_limb_eq. pose proof limb_base_half.
    rewrite (Z.mod_small (2 ^ (JS_LIMB_BITS - 1))) by (pose proof limb_half_big; lia).
    symmetry. apply (Z.mod_unique_pos _ _ (-1)); pose proof limb_half_big; lia. }
  unfold short_range, JS_SHORT_BIG_INT_MIN, JS_SHORT_BIG_INT_MAX in *.
  set (h := 2 ^ (JS_LIMB_BITS - 1)) in *. clearbody h.
  pose proof (Z.rem_bound_abs v1 v2 Hz). pose proof (Z.quot_rem' v1 v2) as E.
  split; [|lia].
  assert (Z.abs (Z.quot v1 v2) * Z.abs v2 <= Z.abs v1).
  { pose proof (Z.mul_quot_le (Z.abs v1) (Z.abs v2) ltac:(lia) ltac:(lia)) as Hq.
    rewrite (Z.quot_abs v1 v2 Hz) in Hq. lia. }
  destruct (Z.eq_dec v2 1) as [->|H1']; [rewrite Z.quot_1_r; lia|].
  destruct (Z.eq_dec v2 (-1)) as [->|Hm1].
  - specialize (Hm eq_refl). replace (-1) with (- (1)) by reflexivity. rewrite Z.quot_opp_r, Z.quot_1_r by lia. lia.
  - assert (Z.abs (Z.quot v1 v2) * 2 <= Z.abs (Z.quot v1 v2) * Z.abs v2) by (apply Z.mul_le_mono_nonneg_l; lia). lia.
Qed.

Lemma short_arith_spec v1 v2 op :
  short_range v1 -> short_range v2 -> op <> OP_add ->
  mspec (short_arith v1 v2 op) (fun r => arith_defined op v2 /\ is_bigint (z_arith op v1 v2) r) (arith_exn op v2).
Proof.
  intros H1 H2 Hop. unfold short_arith. cbv zeta.
  pose proof (bigint_arith_spec v1 v2 _ _ op (set_short_spec _ H1) (set_short_spec _ H2)) as Hslow.
  destruct op; [congruence|..|exact Hslow].
  - eapply mspec_mono; [apply short_or_di_spec, (short_sum_range v1 v2); auto| |intros e He; exact He].
    intros r Hr. split; [exact I|exact Hr].
  - eapply mspec_mono; [apply short_or_di_spec, (short_sum_range v1 v2); auto| |intros e He; exact He].
    intros r Hr. split; [exact I|exact Hr].
  - destruct (_ || _) eqn:Eg; [exact Hslow|]. destruct (short_div_guard v1 v2 H1 H2 Eg) as (Hz & Hq & _).
    apply mspec_ret. split; [exact Hz|apply new_short_spec, Hq].
  - destruct (_ || _) eqn:Eg; [exact Hslow|]. destruct (short_div_guard v1 v2 H1 H2 Eg) as (Hz & _ & Hr).
    apply mspec_ret. split; [exact Hz|apply new_short_spec, Hr].
Qed.

Lemma js_binary_arith_bigint_spec x y a b op :
  is_bigint x a -> is_bigint y b -> op <> OP_add ->
  mspec (js_binary_arith_slow a b op) (fun r => arith_defined op y /\ is_bigint (z_arith op x y) r) (arith_exn op y).
Proof.
  intros Ha Hb Hop. destruct (operand_spec x a Ha) as (p1 & E1 & H1). destruct (operand_spec y b Hb) as (p2 & E2 & H2).
  pose proof (bigint_arith_spec x y p1 p2 op H1 H2) as Hslow.
  destruct a; cbn in Ha; try contradiction; destruct b; cbn in Hb; try contradiction;
    unfold js_binary_arith_slow; cbn [JS_ToNumericFree JS_ToNumberHintFree]; rewrite ?ret_bind;
    [|rewrite E1, E2; exact Hslow..].
  destruct Ha as [-> Hs1], Hb as [-> Hs2]. apply short_arith_spec; assumption.
Qed.

Lemma js_add_bigint_spec x y a b :
  is_bigint x a -> is_bigint y b -> mspec (js_add_slow a b) (is_bigint (x + y)) size_exn.
Proof.
  intros Ha Hb. destruct (operand_spec x a Ha) as (p1 & E1 & [N1 V1]). destruct (operand_spec y b Hb) as (p2 & E2 & [N2 V2]).
  assert (mspec (r ← big_add p1 p2 0; mret (JS_CompactBigInt r)) (is_bigint (x + y)) size_exn) as Hslow.
  { eapply boxed; [apply (big_add_law p1 p2 false N1 N2)| |intros e He; exact He].
    intros r Hr. apply compact_spec. subst. exact Hr. }
  destruct a; cbn in Ha; try contradiction; destruct b; cbn in Hb; try contradiction;
    unfold js_add_slow; cbn [JS_ToNumericFree JS_ToNumberHintFree]; rewrite ?ret_bind;
    [|rewrite E1, E2; exact Hslow..].
  destruct Ha as [-> Hs1], Hb as [-> Hs2]. apply short_or_di_spec, (short_sum_range x y); auto.
Qed.

(** ** Bitwise operators and shifts *)

Definition z_bits (op : OPCodeBits) (x y : Z) : Z :=
  match op with OP_logic op => logic_op op x y | OP_shl => Z.shiftl x y | OP_sar => Z.shiftr x y end.

Lemma shift_count_spec y p : is_big y p -> shift_count p = Z.max (- INT32_MAX) (Z.min INT32_MAX y).
Proof.
  intros [Hn Hv]. unfold shift_count, js_bigint_get_si_sat. pose proof limb_half_big as Hh.
  assert (INT32_MAX = 2 ^ 31 - 1) as E32 by reflexivity.
  destruct (Z.eqb_spec (bi_len p) 1) as [E1|Hne].
  - rewrite <- (one_limb p Hn E1), Hv. case_tests; lia.
  - assert (is_bigint y (JS_TAG_BIG_INT p)) as Hb
      by (pose proof (bi_len_pos p (proj1 Hn)); repeat split; try apply Hn; [exact Hv|lia]).
    apply heap_not_short in Hb. unfold short_range, JS_SHORT_BIG_INT_MIN, JS_SHORT_BIG_INT_MAX in Hb.
    rewrite (js_bigint_sign_spec p (proj1 Hn)), Hv.
    destruct (Z.ltb_spec y 0); cbn [c_bool Z.eqb]; case_tests; lia.
Qed.

Lemma max_size_shift : JS_BIGINT_MAX_SIZE <= INT32_MAX / JS_LIMB_BITS.
Proof. unfold JS_BIGINT_MAX_SIZE, INT32_MAX. destruct limb_bits_cases as [-> | ->]; vm_compute; discriminate. Qed.

Lemma div_saturated x s n : 0 <= s <= n -> Z.abs x < 2 ^ s -> x / 2 ^ s = x / 2 ^ n.
Proof.
  intros Hs Hx. assert (2 ^ s <= 2 ^ n) by (apply Z.pow_le_mono_r; lia).
  destruct (Z.lt_ge_cases x 0).
  - transitivity (-1); [symmetry; apply (Z.div_unique_pos _ _ _ (x + 2 ^ s)); lia|].
    apply (Z.div_unique_pos _ _ _ (x + 2 ^ n)); lia.
  - rewrite !Z.div_small by lia. reflexivity.
Qed.

Lemma bigint_shift_spec x p1 y :
  is_big x p1 -> Z.abs x < 2 ^ INT32_MAX ->
  mspec (bigint_shift p1 (Z.max (- INT32_MAX) (Z.min INT32_MAX y))) (is_big (Z.shiftl x y)) size_exn.
Proof.
  intros [Hn Hv] Hx. unfold bigint_shift. set (s := Z.max _ _).
  assert (0 < INT32_MAX) as HM by (unfold INT32_MAX; lia).
  destruct (Z.leb_spec 0 s) as [Hs|Hs].
  - eapply mspec_mono; [apply (big_shl_law p1 s Hn Hs)| |intros e He; exact He].
    intros r [Hr Hfit]. rewrite Hv in *. rewrite Z.shiftl_mul_pow2 by lia.
    destruct (Z.le_gt_cases y INT32_MAX) as [Hy|Hy].
    + replace y with s by lia. exact Hr.
    + assert (s = INT32_MAX) as Es by lia. pose proof max_size_shift.
      assert (x = 0) as -> by (destruct Hfit as [H0|H0]; [exact H0|rewrite Es in H0; lia]). exact Hr.
  - eapply mspec_mono; [apply (big_shr_law p1 (- s) Hn); lia| |intros e He; exact He].
    intros r Hr. rewrite Hv in Hr. rewrite <- (Z.opp_involutive y), Z.shiftl_opp_r, Z.shiftr_div_pow2 by lia.
    destruct (Z.le_gt_cases (- INT32_MAX) y) as [Hy|Hy].
    + replace (- y) with (- s) by lia. exact Hr.
    + rewrite <- (div_saturated x INT32_MAX (- y)) by lia. replace INT32_MAX with (- s) by lia. exact Hr.
Qed.

Lemma bigint_bits_spec x y p1 p2 op :
  is_big x p1 -> is_big y p2 -> Z.abs x < 2 ^ INT32_MAX ->
  mspec (bigint_bits p1 p2 op) (is_bigint (z_bits op x y)) size_exn.
Proof.
  intros H1 H2 Hx. unfold bigint_bits. destruct op as [op| |]; cbn [z_bits].
  - destruct H1 as [N1 V1], H2 as [N2 V2].
    eapply boxed; [apply (big_logic_law p1 p2 op N1 N2)| |intros e He; exact He].
    intros r Hr. apply compact_spec. subst. exact Hr.
  - rewrite (shift_count_spec y p2 H2).
    eapply boxed; [apply (bigint_shift_spec x p1 y H1 Hx)|apply compact_spec|intros e He; exact He].
  - rewrite (shift_count_spec y p2 H2). rewrite <- (Z.opp_involutive y), Z.shiftr_opp_r.
    replace (- Z.max (- INT32_MAX) (Z.min INT32_MAX (- - y)))
      with (Z.max (- INT32_MAX) (Z.min INT32_MAX (- y))) by (unfold INT32_MAX; lia).
    eapply boxed; [apply (bigint_shift_spec x p1 (- y) H1 Hx)|apply compact_spec|intros e He; exact He].
Qed.

Lemma short_shl_spec v1 n E :
  short_range v1 -> 0 <= n <= JS_LIMB_BITS - 1 -> mspec (short_shl v1 n) (is_bigint (Z.shiftl v1 n)) E.
Proof.
  intros Hv Hn. unfold short_shl. pose proof limb_bits_pos as HL. pose proof limb_half_big as Hh.
  rewrite (Z.shiftl_mul_pow2 v1 n) by lia. pose proof (scale_pos n ltac:(lia)) as P.
  assert (2 ^ n <= 2 ^ (JS_LIMB_BITS - 1)) as Hp by (apply Z.pow_le_mono_r; lia).
  unfold short_range, JS_SHORT_BIG_INT_MIN, JS_SHORT_BIG_INT_MAX in Hv.
  assert (Z.abs v1 * 2 ^ n <= 2 ^ (JS_LIMB_BITS - 1) * 2 ^ (JS_LIMB_BITS - 1)) as Hb
    by (apply Z.mul_le_mono_nonneg; lia).
  assert (2 ^ (2 * JS_LIMB_BITS - 1) = 2 * (2 ^ (JS_LIMB_BITS - 1) * 2 ^ (JS_LIMB_BITS - 1))) as E2.
  { rewrite <- Z.pow_add_r, <- Z.pow_succ_r by lia. f_equal. lia. }
  rewrite <- (Z.abs_eq (2 ^ n)) in Hb by lia. rewrite <- Z.abs_mul in Hb.
  assert (swrap (2 * JS_LIMB_BITS) (js_dlimb (Z.shiftl (js_dlimb v1) n)) = v1 * 2 ^ n) as ->.
  { unfold js_dlimb, wrap. rewrite swrap_mod, Z.shiftl_mul_pow2 by lia.
    rewrite <- swrap_mod, Z.mul_mod_idemp_l, swrap_mod by lia. apply swrap_small; [lia|].
    set (h := 2 ^ (JS_LIMB_BITS - 1)) in *. assert (0 < h * h) by (apply Z.mul_pos_pos; lia). lia. }
  apply short_or_di_spec. rewrite limb_base_half.
  set (h := 2 ^ (JS_LIMB_BITS - 1)) in *. assert (0 < h * h) by (apply Z.mul_pos_pos; lia). lia.
Qed.

Lemma shiftr_short v n : short_range v -> 0 <= n -> short_range (Z.shiftr v n).
Proof.
  unfold short_range. intros Hv Hn. rewrite Z.shiftr_div_pow2 by exact Hn. pose proof (scale_pos n Hn) as P.
  unfold JS_SHORT_BIG_INT_MIN, JS_SHORT_BIG_INT_MAX in *. pose proof limb_half_big as Hh.
  set (h := 2 ^ (JS_LIMB_BITS - 1)) in *. clearbody h.
  assert (1 * h <= 2 ^ n * h) by (apply Z.mul_le_mono_nonneg_r; lia).
  assert (1 * (h - 1) <= 2 ^ n * (h - 1)) by (apply Z.mul_le_mono_nonneg_r; lia).
  split; [apply Z.div_le_lower_bound; lia|]. apply Z.div_le_upper_bound; lia.
Qed.

Lemma short_bits_spec v1 v2 op :
  short_range v1 -> short_range v2 ->
  mspec (short_bits v1 v2 op) (is_bigint (z_bits op v1 v2)) size_exn.
Proof.
  intros H1 H2. unfold short_bits. cbv zeta. pose proof limb_bits_pos as HL.
  assert (mspec (bigint_bits (js_bigint_set_short v1) (js_bigint_set_short v2) op)
            (is_bigint (z_bits op v1 v2)) size_exn) as Hslow.
  { apply bigint_bits_spec; [apply set_short_spec, H1|apply set_short_spec, H2|].
    unfold short_range, JS_SHORT_BIG_INT_MIN, JS_SHORT_BIG_INT_MAX in H1.
    assert (2 ^ JS_LIMB_BITS <= 2 ^ INT32_MAX).
    { apply Z.pow_le_mono_r; [lia|]. unfold INT32_MAX. destruct limb_bits_cases; lia. }
    pose proof limb_base_half as E. unfold limb_base in E. pose proof limb_half_big. lia. }
  destruct op as [op| |]; cbn [z_bits] in *.
  - apply mspec_ret, new_short_spec. pose proof (logic_op_range op v1 v2 (JS_LIMB_BITS - 1)) as Hr.
    unfold short_range, JS_SHORT_BIG_INT_MIN, JS_SHORT_BIG_INT_MAX in *. lia.
  - destruct (Z.ltb_spec (JS_LIMB_BITS - 1) v2); [exact Hslow|].
    destruct (Z.ltb_spec v2 0); [|apply short_shl_spec; [exact H1|lia]].
    destruct (Z.ltb_spec v2 (- (JS_LIMB_BITS - 1))); [exact Hslow|].
    rewrite <- (Z.opp_involutive v2) at 2. rewrite Z.shiftl_opp_r.
    apply mspec_ret, new_short_spec, shiftr_short; [exact H1|lia].
  - destruct (Z.ltb_spec (JS_LIMB_BITS - 1) v2); [exact Hslow|].
    destruct (Z.ltb_spec v2 0); [|apply mspec_ret, new_short_spec, shiftr_short; [exact H1|lia]].
    destruct (Z.ltb_spec v2 (- (JS_LIMB_BITS - 1))); [exact Hslow|].
    rewrite <- (Z.opp_involutive v2) at 2. rewrite Z.shiftr_opp_r. apply short_shl_spec; [exact H1|lia].
Qed.

Lemma js_binary_logic_bigint_spec x y a b op :
  is_bigint x a -> is_bigint y b -> Z.abs x < 2 ^ INT32_MAX ->
  mspec (js_binary_logic_slow a b op) (is_bigint (z_bits op x y)) size_exn.
Proof.
  intros Ha Hb Hx. destruct (operand_spec x a Ha) as (p1 & E1 & H1). destruct (operand_spec y b Hb) as (p2 & E2 & H2).
  pose proof (bigint_bits_spec x y p1 p2 op H1 H2 Hx) as Hslow.
  destruct a; cbn in Ha; try contradiction; destruct b; cbn in Hb; try contradiction;
    unfold js_binary_logic_slow; cbn [JS_ToNumericFree JS_ToNumberHintFree]; rewrite ?ret_bind;
    [|rewrite E1, E2; exact Hslow..].
  destruct Ha as [-> Hs1], Hb as [-> Hs2]. apply short_bits_spec; assumption.
Qed.

(** ** Mixed operands *)

Definition is_number (v : JSValue) : Prop :=
  match v with JS_TAG_INT _ | JS_TAG_FLOAT64 _ | JS_TAG_BOOL _ | JS_TAG_NULL | JS_TAG_UNDEFINED => True | _ => False end.

(** The function that evaluates an operator: addition has its own. *)
Definition arith_slow (a b : JSValue) (op : OPCodeArith) : M JSValue := match op with OP_add => js_add_slow a b | _ => js_binary_arith_slow a b op end.

(** A BigInt and a number do not mix, neither in arithmetic nor in bitwise operators. *)
Lemma js_binary_arith_mixed z a n op :
  is_bigint z a -> is_number n ->
  mspec (arith_slow a n op) (fun _ => False) (fun e => e = err_bigint_number) /\
  mspec (arith_slow n a op) (fun _ => False) (fun e => e = err_bigint_number).
Proof.
  intros Ha Hn. split; destruct a; cbn in Ha; try contradiction; destruct n; cbn in Hn; try contradiction; destruct op;
    unfold arith_slow, js_add_slow, js_binary_arith_slow; cbn [JS_ToNumericFree JS_ToNumberHintFree JS_NewInt32]; rewrite ?ret_bind;
    cbn [bigint_operand JS_ToFloat64Free __JS_ToFloat64Free JS_ToNumberFree JS_ToNumberHintFree];
    rewrite ?ret_bind; intros o; right; reflexivity.
Qed.

Lemma js_binary_logic_mixed z a n op :
  is_bigint z a -> is_number n ->
  mspec (js_binary_logic_slow a n op) (fun _ => False) (fun e => e = err_bigint_number) /\
  mspec (js_binary_logic_slow n a op) (fun _ => False) (fun e => e = err_bigint_number).
Proof.
  intros Ha Hn. split; destruct a; cbn in Ha; try contradiction; destruct n; cbn in Hn; try contradiction;
    unfold js_binary_logic_slow; cbn [JS_ToNumericFree JS_ToNumberHintFree JS_NewInt32]; rewrite ?ret_bind;
    cbn [bigint_operand]; intros o; right; reflexivity.
Qed.

(** ** Comparison *)

Definition z_rel (op : OPCodeRel) (x y : Z) : bool :=
  match op with
  | OP_lt => x <? y | OP_lte => x <=? y | OP_gt => y <? x | OP_gte => y <=? x | OP_eq => x =? y
  end.

Lemma rel_result_sgn op x y : rel_result op (Z.sgn (x - y)) = z_rel op x y.
Proof. destruct op; cbn [rel_result z_rel]; case_tests; lia. Qed.

Lemma js_compare_bigint_spec op x y a b :
  is_bigint x a -> is_bigint y b -> mspec (js_compare_bigint op a b) (fun r => r = z_rel op x y) no_exn.
Proof.
  intros Ha Hb. assert (forall v z, is_bigint z v -> exists p, JS_ToBigIntBuf v = mret p /\ is_big z p) as Hbuf.
  { intros v z Hv. destruct (operand_spec z v Hv) as (p & E & Hp). exists p. split; [|exact Hp].
    destruct v; cbn in Hv; try contradiction; cbn in E |- *; congruence. }
  destruct (Hbuf a x Ha) as (p1 & E1 & [N1 V1]). destruct (Hbuf b y Hb) as (p2 & E2 & [N2 V2]).
  assert (mspec (p1 ← JS_ToBigIntBuf a; p2 ← JS_ToBigIntBuf b; mret (rel_result op (big_cmp p1 p2)))
            (fun r => r = z_rel op x y) no_exn) as Hslow.
  { rewrite E1, ret_bind, E2, ret_bind. apply mspec_ret.
    rewrite (big_cmp_law p1 p2 N1 N2), V1, V2. apply rel_result_sgn. }
  destruct a; cbn in Ha; try contradiction; destruct b; cbn in Hb; try contradiction;
    unfold js_compare_bigint; cbn [short_operand]; try exact Hslow.
  destruct Ha as [-> _], Hb as [-> _]. apply mspec_ret. rewrite <- rel_result_sgn. f_equal.
  case_tests; cbn [c_bool]; lia.
Qed.

End OperatorSpecs.
