(* ===== verification/AsIntN.v ===== *)
(** [BigInt.asIntN] and [BigInt.asUintN] ([js_bigint_asUintN]), the 64-bit
    constructors and [JS_ToBigInt64Free]. *)
From stdpp Require Import base tactics list numbers strings.
From Stdlib Require Import ZArith Lia.
From S2P Require Import Prelude Float64 Limbs BigInt BigIntMul BigIntBits BigIntPow BigIntFloatCmp Numbers NumberSpecs BigIntInterface Operators OperatorSpecs.

Open Scope Z_scope.

(** ** Residues *)

Lemma swrap_unique w x y k : 0 < w -> - 2 ^ (w - 1) <= y < 2 ^ (w - 1) -> x = y + k * 2 ^ w -> swrap w x = y.
Proof. intros Hw Hy ->. rewrite swrap_add_mul by exact Hw. apply swrap_small; assumption. Qed.

(** Shifting up and back down keeps the [w - s] low bits. *)
Lemma shl_sar w s x :
  0 <= s < w -> Z.shiftr (swrap w (wrap w (Z.shiftl x s))) s = swrap (w - s) x.
Proof.
  intros Hs. unfold wrap. rewrite swrap_mod, Z.shiftl_mul_pow2, Z.shiftr_div_pow2 by lia.
  destruct (swrap_eq (w - s) x ltac:(lia)) as [k Ek]. pose proof (swrap_range (w - s) x ltac:(lia)) as Hr.
  pose proof (scale_pos s ltac:(lia)) as P.
  assert (2 ^ w = 2 ^ (w - s) * 2 ^ s) as Ew by (rewrite <- Z.pow_add_r by lia; f_equal; lia).
  assert (2 ^ (w - 1) = 2 ^ (w - s - 1) * 2 ^ s) as Ew1 by (rewrite <- Z.pow_add_r by lia; f_equal; lia).
  rewrite (swrap_unique w (x * 2 ^ s) (swrap (w - s) x * 2 ^ s) (- k)); [apply Z.div_mul; lia|lia| |rewrite Ek, Ew; ring].
  rewrite Ew1.
  assert (- 2 ^ (w - s - 1) * 2 ^ s <= swrap (w - s) x * 2 ^ s) by (apply Z.mul_le_mono_nonneg_r; lia).
  assert (swrap (w - s) x * 2 ^ s < 2 ^ (w - s - 1) * 2 ^ s) by (apply Z.mul_lt_mono_pos_r; lia). lia.
Qed.

Lemma shl_shr w s x :
  0 <= s < w -> Z.shiftr (wrap w (Z.shiftl x s)) s = wrap (w - s) x.
Proof.
  intros Hs. unfold wrap. rewrite Z.shiftl_mul_pow2, Z.shiftr_div_pow2 by lia.
  pose proof (scale_pos s ltac:(lia)). pose proof (scale_pos (w - s) ltac:(lia)).
  replace (2 ^ w) with (2 ^ (w - s) * 2 ^ s) by (rewrite <- Z.pow_add_r by lia; f_equal; lia).
  rewrite Z.mul_mod_distr_r by lia. apply Z.div_mul. lia.
Qed.

Section AsIntN.
Context `{LC : LimbConfig} `{FM : FreshMemory} `{BA : !BigIntArith} `{LM : LibM}.

(** ** The last limb and the shift *)

(** Truncating below limb [l]: the low limbs and the residue of limb [l]. *)
Lemma pow_limbs l b : 0 <= l -> 0 <= b -> 2 ^ (l * JS_LIMB_BITS + b) = limb_base ^ l * 2 ^ b.
Proof.
  intros Hl Hb. pose proof limb_bits_pos. unfold limb_base. assert (0 <= l * JS_LIMB_BITS) by (apply Z.mul_nonneg_nonneg; lia).
  rewrite Z.pow_add_r, <- Z.pow_mul_r by lia. do 2 f_equal. ring.
Qed.

Lemma asN_shift bits :
  1 <= bits ->
  let l := (bits + JS_LIMB_BITS - 1) / JS_LIMB_BITS in
  let shift := Z.land (wrap 64 (- bits)) (JS_LIMB_BITS - 1) in
  1 <= l /\ 0 <= shift < JS_LIMB_BITS /\ bits = (l - 1) * JS_LIMB_BITS + (JS_LIMB_BITS - shift).
Proof.
  intros Hb l shift. pose proof limb_bits_pos as HL.
  assert (exists k, JS_LIMB_BITS = 2 ^ k /\ 0 <= k <= 6) as (k & Ek & Hk)
    by (destruct limb_bits_cases as [-> | ->]; [exists 5|exists 6]; split; lia || reflexivity).
  assert (shift = (- bits) mod JS_LIMB_BITS) as Es.
  { unfold shift, wrap. rewrite Ek, land_mask by lia.
    replace (2 ^ 64) with (2 ^ k * 2 ^ (64 - k)) by (rewrite <- Z.pow_add_r by lia; f_equal; lia).
    rewrite Z.rem_mul_r by lia. rewrite (Z.mul_comm (2 ^ k)), Z.mod_add by lia. apply Z.mod_mod. lia. }
  assert (0 <= shift < JS_LIMB_BITS) as Hs by (rewrite Es; apply Z.mod_pos_bound; lia).
  assert ((- bits) = JS_LIMB_BITS * ((- bits) / JS_LIMB_BITS) + shift) as Ed by (rewrite Es; apply Z.div_mod; lia).
  set (q := (- bits) / JS_LIMB_BITS) in *.
  assert (l = - q) as El.
  { unfold l. symmetry. apply (Z.div_unique_pos _ _ _ (JS_LIMB_BITS - 1 - shift)); lia. }
  assert (1 <= l). { rewrite El. assert (q < 0); [|lia]. unfold q. apply Z.div_lt_upper_bound; lia. }
  split; [assumption|]. split; [exact Hs|]. rewrite El. lia.
Qed.

(** The value modulo the truncation point. *)
Lemma truncate_limbs p l x :
  bi_ok p -> 1 <= l <= bi_len p -> tab p !! Z.to_nat (l - 1) = Some x ->
  let lo := take (Z.to_nat (l - 1)) (tab p) in
  limb_ok x /\ limbs_ok lo /\ 0 <= mp_val lo < limb_base ^ (l - 1) /\ mp_base lo = limb_base ^ (l - 1) /\
  exists k, bi_val p = mp_val lo + limb_base ^ (l - 1) * x + k * limb_base ^ l.
Proof.
  intros [Hok Hne] Hl Hx lo. unfold bi_len, len in Hl.
  assert (limb_ok x) as Hxok by (eapply Forall_lookup_1; eassumption).
  assert (limbs_ok lo) as Hlo by apply limbs_ok_take, Hok.
  assert (length lo = Z.to_nat (l - 1)) as Hll by (unfold lo; rewrite length_take; lia).
  assert (mp_base lo = limb_base ^ (l - 1)) as Eb by (unfold mp_base, len; rewrite Hll, Z2Nat.id by lia; reflexivity).
  pose proof (mp_val_bounds lo Hlo) as Hb. rewrite Eb in Hb.
  split; [exact Hxok|]. split; [exact Hlo|]. split; [exact Hb|]. split; [exact Eb|].
  pose proof (take_drop_middle _ _ _ Hx) as Em. set (hi := drop (S (Z.to_nat (l - 1))) (tab p)) in *. fold lo in Em.
  assert (mp_val (tab p) = mp_val lo + limb_base ^ (l - 1) * x + limb_base ^ l * mp_val hi) as Ev.
  { rewrite <- Em, mp_val_app, Eb. cbn [mp_val].
    replace (limb_base ^ l) with (limb_base ^ (l - 1) * limb_base); [ring|].
    rewrite Z.mul_comm, <- Z.pow_succ_r by lia. f_equal. lia. }
  assert (mp_base (tab p) = limb_base ^ l * mp_base hi) as Ebp.
  { unfold mp_base, len. rewrite <- Z.pow_add_r by lia. f_equal. unfold hi. rewrite length_drop. lia. }
  pose proof (mp_val_sval (tab p) Hok) as Es. fold (bi_val p) in Es. rewrite Ebp in Es.
  exists (mp_val hi - c_bool (bi_val p <? 0) * mp_base hi). lia.
Qed.

Definition asN_limb (asIntN : bool) (shift x : Z) : Z :=
  let v := js_limb (Z.shiftl x shift) in
  if asIntN then js_limb (Z.shiftr (js_slimb v) shift) else Z.shiftr v shift.

(** The array written by the code: the low limbs and the last one. *)
Lemma asN_run p l asIntN shift (r : JSBigInt) x {R} (k : list Z -> M R) :
  1 <= l <= bi_len p -> len (tab r) = l -> tab p !! Z.to_nat (l - 1) = Some x ->
  (lo ← tab_slice (tab p) 0 (l - 1);
   t ← tab_blit (tab r) 0 lo;
   x ← tab_get (tab p) (l - 1);
   t ← tab_set t (l - 1) (asN_limb asIntN shift x);
   k t) = k (take (Z.to_nat (l - 1)) (tab p) ++ [asN_limb asIntN shift x]).
Proof.
  intros Hl Hr Hx. unfold bi_len, len in *. rewrite slice_prefix, ret_bind by (unfold len; lia).
  assert (length (take (Z.to_nat (l - 1)) (tab p)) = Z.to_nat (l - 1)) as Hll by (rewrite length_take; lia).
  rewrite blit_prefix, ret_bind by (unfold len; lia). rewrite (tab_get_lookup _ _ x) by (lia || exact Hx). rewrite ret_bind.
  assert (exists y, drop (length (take (Z.to_nat (l - 1)) (tab p))) (tab r) = [y]) as [y ->].
  { rewrite Hll. assert (length (drop (Z.to_nat (l - 1)) (tab r)) = 1%nat) as H1 by (rewrite length_drop; lia).
    destruct (drop _ (tab r)) as [|y [|? ?]]; simpl in H1; try lia. eauto. }
  rewrite tab_set_app by (unfold len; lia). rewrite ret_bind. reflexivity.
Qed.

Lemma asN_heap_spec p bits asIntN :
  bi_ok p -> 1 <= bits < bi_len p * JS_LIMB_BITS ->
  mspec (js_bigint_asUintN bits (JS_TAG_BIG_INT p) asIntN)
    (fun r =>
       let l := (bits + JS_LIMB_BITS - 1) / JS_LIMB_BITS in
       let shift := Z.land (wrap 64 (- bits)) (JS_LIMB_BITS - 1) in
       exists x, tab p !! Z.to_nat (l - 1) = Some x /\ 1 <= l <= bi_len p /\
         is_bigint (sval (take (Z.to_nat (l - 1)) (tab p) ++ [asN_limb asIntN shift x])) r)
    size_exn.
Proof.
  intros Hp Hbits. destruct (asN_shift bits ltac:(lia)) as (Hl1 & Hs & Eb). pose proof limb_bits_pos as HL.
  unfold js_bigint_asUintN. rewrite (proj2 (Z.eqb_neq bits 0)) by lia.
  rewrite (proj2 (Z.leb_gt (bi_len p * JS_LIMB_BITS) bits)) by lia. cbv zeta.
  set (l := (bits + JS_LIMB_BITS - 1) / JS_LIMB_BITS) in *.
  set (shift := Z.land (wrap 64 (- bits)) (JS_LIMB_BITS - 1)) in *.
  assert (l <= bi_len p) as Hl.
  { assert ((l - 1) * JS_LIMB_BITS < bi_len p * JS_LIMB_BITS) as Hlt by lia.
    apply Z.mul_lt_mono_pos_r in Hlt; lia. }
  destruct (lookup_lt_is_Some_2 (tab p) (Z.to_nat (l - 1))) as [x Hx]; [unfold bi_len, len in Hl; lia|].
  assert (limb_ok x) as Hxok by (destruct Hp as [Hok _]; eapply Forall_lookup_1; eassumption).
  assert (limb_ok (asN_limb asIntN shift x)) as Hv.
  { unfold asN_limb. destruct asIntN; [apply js_limb_ok|]. unfold js_limb. rewrite shl_shr by lia.
    assert (0 <= wrap (JS_LIMB_BITS - shift) x < 2 ^ (JS_LIMB_BITS - shift)) by (apply wrap_range; lia). unfold limb_ok, limb_base.
    assert (2 ^ (JS_LIMB_BITS - shift) <= 2 ^ JS_LIMB_BITS) by (apply Z.pow_le_mono_r; lia). lia. }
  eapply mspec_bind.
  { eapply mspec_mono; [apply (js_bigint_new_spec l); lia|intros r Hr; exact Hr|]. intros e [-> _]. left. reflexivity. }
  intros r Hr. cbv beta in Hr.
  assert (1 <= l <= bi_len p) as Hlr by lia.
  pose proof (asN_run p l asIntN shift r x
    (fun t => r ← js_bigint_normalize (MkBigInt t); mret (JS_CompactBigInt r)) Hlr Hr Hx) as Erun.
  unfold asN_limb in Erun at 1. cbv zeta in Erun. rewrite Erun.
  eapply boxed; [apply (js_bigint_normalize_spec (MkBigInt _) size_exn)| |intros e He; exact He].
  - split; cbn [tab]; [|intros E0; apply app_eq_nil in E0; destruct E0; discriminate].
    apply limbs_ok_app. split; [apply limbs_ok_take, Hp|constructor; [exact Hv|constructor]].
  - intros q (H1 & H2 & _). exists x. split; [exact Hx|]. split; [lia|]. apply compact_spec. split; [exact H1|exact H2].
Qed.

(** ** Results *)

Lemma sval_last lo v :
  limbs_ok lo -> - 2 ^ (JS_LIMB_BITS - 1) <= v < 2 ^ (JS_LIMB_BITS - 1) ->
  sval (lo ++ [js_limb v]) = mp_val lo + mp_base lo * v.
Proof.
  intros Hlo Hv. rewrite sval_app; [|exact Hlo|constructor; [apply js_limb_ok|constructor]|discriminate].
  rewrite sval_one. unfold js_slimb. rewrite swrap_small; [reflexivity|pose proof limb_bits_pos; lia|exact Hv].
Qed.

Lemma asIntN_short bits x :
  short_range x -> 1 <= bits ->
  mspec (js_bigint_asUintN bits (JS_TAG_SHORT_BIG_INT x) true) (is_bigint (swrap bits x)) size_exn.
Proof.
  intros Hs Hb. pose proof limb_bits_pos as HL.
  unfold js_bigint_asUintN, JS_SHORT_BIG_INT_BITS. rewrite (proj2 (Z.eqb_neq bits 0)) by lia.
  unfold short_range, JS_SHORT_BIG_INT_MIN, JS_SHORT_BIG_INT_MAX in Hs.
  destruct (Z.leb_spec JS_LIMB_BITS bits).
  + apply mspec_ret. assert (2 ^ (JS_LIMB_BITS - 1) <= 2 ^ (bits - 1)) by (apply Z.pow_le_mono_r; lia).
    rewrite swrap_small by lia. split; [reflexivity|exact Hs].
  + assert (JS_LIMB_BITS <= 64) by (destruct limb_bits_cases; lia). cbv zeta. apply mspec_ret.
    rewrite shl_sar by lia. replace (64 - (64 - bits)) with bits by lia.
    assert (swrap bits (wrap 64 x) = swrap bits x) as ->.
    { destruct (swrap_eq bits x ltac:(lia)) as [k Ek]. pose proof (swrap_range bits x ltac:(lia)).
      unfold wrap. rewrite Z.mod_eq by lia.
      apply (swrap_unique _ _ _ (- (k + 2 ^ (64 - bits) * (x / 2 ^ 64)))); [lia|lia|].
      replace (2 ^ 64) with (2 ^ (64 - bits) * 2 ^ bits) at 1 by (rewrite <- Z.pow_add_r by lia; f_equal; lia).
      rewrite Ek. ring. }
    pose proof (swrap_range bits x ltac:(lia)) as Hr.
    assert (2 ^ (bits - 1) <= 2 ^ (JS_LIMB_BITS - 1)) by (apply Z.pow_le_mono_r; lia).
    unfold __JS_NewShortBigInt, wrap. assert (js_slimb (swrap bits x mod 2 ^ 64) = swrap bits x) as ->.
    { unfold js_slimb. rewrite Z.mod_eq by lia.
      apply (swrap_unique _ _ _ (- (2 ^ (64 - JS_LIMB_BITS) * (swrap bits x / 2 ^ 64)))); [lia|lia|].
      replace (2 ^ 64) with (2 ^ (64 - JS_LIMB_BITS) * 2 ^ JS_LIMB_BITS) at 1 by (rewrite <- Z.pow_add_r by lia; f_equal; lia).
      ring. }
    split; [reflexivity|]. unfold short_range, JS_SHORT_BIG_INT_MIN, JS_SHORT_BIG_INT_MAX. lia.
Qed.

(** A value that already fits. *)
Lemma asN_unchanged p bits asIntN :
  1 <= bits -> bi_len p * JS_LIMB_BITS <= bits ->
  js_bigint_asUintN bits (JS_TAG_BIG_INT p) asIntN = mret (JS_TAG_BIG_INT p).
Proof.
  intros Hb Hge. unfold js_bigint_asUintN.
  rewrite (proj2 (Z.eqb_neq bits 0)), (proj2 (Z.leb_le _ bits)) by lia. reflexivity.
Qed.

Lemma heap_range x p bits :
  is_bigint x (JS_TAG_BIG_INT p) -> 1 <= bits -> bi_len p * JS_LIMB_BITS <= bits ->
  - 2 ^ (bits - 1) <= x < 2 ^ (bits - 1).
Proof.
  intros (Hn & Hv & Hl) Hb Hge. pose proof limb_bits_pos as HL.
  pose proof (sval_range _ (proj1 (proj1 Hn))) as Hr. fold (bi_val p) in Hr. rewrite mp_base_bi, Hv in Hr.
  assert (2 * 2 ^ (bits - 1) = 2 ^ bits) as E2 by (rewrite <- Z.pow_succ_r by lia; f_equal; lia).
  assert (limb_base ^ bi_len p <= 2 ^ bits); [|lia].
  unfold limb_base. rewrite <- Z.pow_mul_r by lia. apply Z.pow_le_mono_r; lia.
Qed.

(** The powers of two around the truncation point. *)
Lemma asN_powers bits :
  1 <= bits ->
  let l := (bits + JS_LIMB_BITS - 1) / JS_LIMB_BITS in
  let shift := Z.land (wrap 64 (- bits)) (JS_LIMB_BITS - 1) in
  2 ^ bits = limb_base ^ (l - 1) * 2 ^ (JS_LIMB_BITS - shift) /\
  2 ^ (bits - 1) = limb_base ^ (l - 1) * 2 ^ (JS_LIMB_BITS - shift - 1) /\
  limb_base ^ l = limb_base ^ (l - 1) * 2 ^ (JS_LIMB_BITS - shift) * 2 ^ shift.
Proof.
  intros Hb. destruct (asN_shift bits Hb) as (Hl & Hs & Eb). cbv zeta in *.
  set (l := (bits + JS_LIMB_BITS - 1) / JS_LIMB_BITS) in *. set (shift := Z.land _ _) in *.
  split; [rewrite Eb at 1; apply pow_limbs; lia|]. split.
  - replace (bits - 1) with ((l - 1) * JS_LIMB_BITS + (JS_LIMB_BITS - shift - 1)) by lia. apply pow_limbs; lia.
  - rewrite <- Z.mul_assoc, <- Z.pow_add_r by lia. replace (JS_LIMB_BITS - shift + shift) with JS_LIMB_BITS by lia.
    fold limb_base. rewrite Z.mul_comm, <- Z.pow_succ_r by lia. f_equal. lia.
Qed.

Lemma asIntN_heap bits x p :
  is_bigint x (JS_TAG_BIG_INT p) -> 1 <= bits ->
  mspec (js_bigint_asUintN bits (JS_TAG_BIG_INT p) true) (is_bigint (swrap bits x)) size_exn.
Proof.
  intros Ha Hb. pose proof limb_bits_pos as HL.
  destruct (Z.le_gt_cases (bi_len p * JS_LIMB_BITS) bits) as [Hge|Hlt].
  { rewrite asN_unchanged by assumption. apply mspec_ret.
    rewrite swrap_small; [exact Ha|lia|apply (heap_range x p); assumption]. }
  destruct Ha as (Hn & Hv & Hl).
  eapply mspec_mono; [apply (asN_heap_spec p bits true (proj1 Hn)); lia| |intros e He; exact He].
  intros r (y & Hy & Hlb & Hr). destruct (asN_shift bits Hb) as (_ & Hs & _).
  destruct (asN_powers bits Hb) as (Ebits & Ebits1 & El). cbv zeta in *.
  set (l := (bits + JS_LIMB_BITS - 1) / JS_LIMB_BITS) in *. set (shift := Z.land _ _) in *.
  destruct (truncate_limbs p l y (proj1 Hn) Hlb Hy) as (_ & Hlo & Hlov & Ebase & k & Ek).
  unfold asN_limb, js_limb at 2, js_slimb in Hr. cbv zeta in Hr. rewrite shl_sar in Hr by lia.
  assert (0 < JS_LIMB_BITS - shift) as Hpos by lia.
  pose proof (swrap_range (JS_LIMB_BITS - shift) y Hpos) as Hsr.
  destruct (swrap_eq (JS_LIMB_BITS - shift) y Hpos) as [k' Ek'].
  assert (2 ^ (JS_LIMB_BITS - shift - 1) <= 2 ^ (JS_LIMB_BITS - 1)) by (apply Z.pow_le_mono_r; lia).
  rewrite sval_last in Hr by (try exact Hlo; lia). set (lo := take _ (tab p)) in *. rewrite Ebase in Hr.
  set (B := limb_base ^ (l - 1)) in *. set (S := swrap (JS_LIMB_BITS - shift) y) in *.
  assert (swrap bits x = mp_val lo + B * S) as ->; [|exact Hr].
  apply (swrap_unique _ _ _ (k * 2 ^ shift - k')); [lia| |rewrite <- Hv, Ek, Ebits, El, Ek'; ring].
  rewrite Ebits1. set (h := 2 ^ (JS_LIMB_BITS - shift - 1)) in *.
  assert (B * - h <= B * S) by (apply Z.mul_le_mono_nonneg_l; lia).
  assert (B * S <= B * (h - 1)) by (apply Z.mul_le_mono_nonneg_l; lia). lia.
Qed.

Lemma asIntN_spec bits x a :
  is_bigint x a -> 1 <= bits -> mspec (js_bigint_asUintN bits a true) (is_bigint (swrap bits x)) size_exn.
Proof.
  intros Ha Hb. destruct a; cbn in Ha; try contradiction; [|apply asIntN_heap; assumption].
  destruct Ha as [-> Hs]. apply asIntN_short; assumption.
Qed.

(** ** [asUintN]

    The residue is returned when it can be: a negative number is returned as it is
    when it is shorter than [bits], and the top limb of the residue is read as a
    sign when [bits] is a multiple of the limb size. *)
Definition asUintN_ok (bits x : Z) (a : JSValue) : Prop :=
  match a with
  | JS_TAG_SHORT_BIG_INT _ => bits < JS_LIMB_BITS \/ 0 <= x
  | JS_TAG_BIG_INT p =>
      (bits < bi_len p * JS_LIMB_BITS /\ bits mod JS_LIMB_BITS <> 0) \/ (bi_len p * JS_LIMB_BITS <= bits /\ 0 <= x)
  | _ => False
  end.

Lemma asUintN_short bits x :
  short_range x -> 1 <= bits -> bits < JS_LIMB_BITS \/ 0 <= x ->
  mspec (js_bigint_asUintN bits (JS_TAG_SHORT_BIG_INT x) false) (is_bigint (wrap bits x)) size_exn.
Proof.
  intros Hs Hb Hok. pose proof limb_bits_pos as HL. unfold js_bigint_asUintN, JS_SHORT_BIG_INT_BITS.
  rewrite (proj2 (Z.eqb_neq bits 0)) by lia.
  unfold short_range, JS_SHORT_BIG_INT_MIN, JS_SHORT_BIG_INT_MAX in Hs.
  destruct (Z.leb_spec JS_LIMB_BITS bits).
  - apply mspec_ret. assert (2 ^ (JS_LIMB_BITS - 1) <= 2 ^ bits) by (apply Z.pow_le_mono_r; lia).
    rewrite wrap_small by lia. split; [reflexivity|exact Hs].
  - assert (JS_LIMB_BITS <= 64) by (destruct limb_bits_cases; lia). cbv zeta. apply mspec_ret.
    rewrite shl_shr by lia. replace (64 - (64 - bits)) with bits by lia.
    assert (wrap bits (wrap 64 x) = wrap bits x) as ->.
    { unfold wrap. replace (2 ^ 64) with (2 ^ bits * 2 ^ (64 - bits)) by (rewrite <- Z.pow_add_r by lia; f_equal; lia).
      rewrite Z.rem_mul_r, (Z.mul_comm (2 ^ bits)), Z.mod_add, Z.mod_mod by lia. reflexivity. }
    apply new_short_spec. pose proof (wrap_range bits x ltac:(lia)).
    assert (2 ^ bits <= 2 ^ (JS_LIMB_BITS - 1)) by (apply Z.pow_le_mono_r; lia).
    unfold short_range, JS_SHORT_BIG_INT_MIN, JS_SHORT_BIG_INT_MAX. lia.
Qed.

Lemma asUintN_heap bits x p :
  is_bigint x (JS_TAG_BIG_INT p) -> 1 <= bits -> asUintN_ok bits x (JS_TAG_BIG_INT p) ->
  mspec (js_bigint_asUintN bits (JS_TAG_BIG_INT p) false) (is_bigint (wrap bits x)) size_exn.
Proof.
  intros Ha Hb Hok. pose proof limb_bits_pos as HL.
  destruct Hok as [[Hlt Hmod]|[Hge Hpos]].
  2:{ rewrite asN_unchanged by assumption. apply mspec_ret. pose proof (heap_range x p bits Ha Hb Hge).
      rewrite wrap_small; [exact Ha|]. assert (2 ^ (bits - 1) <= 2 ^ bits) by (apply Z.pow_le_mono_r; lia). lia. }
  destruct Ha as (Hn & Hv & Hl).
  eapply mspec_mono; [apply (asN_heap_spec p bits false (proj1 Hn)); lia| |intros e He; exact He].
  intros r (y & Hy & Hlb & Hr). destruct (asN_shift bits Hb) as (_ & Hs & Eb).
  destruct (asN_powers bits Hb) as (Ebits & _ & El). cbv zeta in *.
  set (l := (bits + JS_LIMB_BITS - 1) / JS_LIMB_BITS) in *. set (shift := Z.land _ _) in *.
  assert (shift <> 0) as Hs0.
  { intros E0. apply Hmod. rewrite Eb, E0. replace ((l - 1) * JS_LIMB_BITS + (JS_LIMB_BITS - 0)) with (l * JS_LIMB_BITS) by ring.
    apply Z.mod_mul. lia. }
  destruct (truncate_limbs p l y (proj1 Hn) Hlb Hy) as (_ & Hlo & Hlov & Ebase & k & Ek).
  unfold asN_limb, js_limb in Hr. cbv zeta in Hr. rewrite shl_shr in Hr by lia.
  assert (0 <= wrap (JS_LIMB_BITS - shift) y < 2 ^ (JS_LIMB_BITS - shift)) as Hw by (apply wrap_range; lia).
  assert (2 ^ (JS_LIMB_BITS - shift) <= 2 ^ (JS_LIMB_BITS - 1)) by (apply Z.pow_le_mono_r; lia).
  pose proof limb_base_half as Eh. pose proof limb_half_big as Hh.
  rewrite <- (js_limb_small (wrap (JS_LIMB_BITS - shift) y)) in Hr by (unfold limb_ok; lia).
  rewrite sval_last in Hr by (try exact Hlo; lia). set (lo := take _ (tab p)) in *. rewrite Ebase in Hr.
  set (B := limb_base ^ (l - 1)) in *. set (W := wrap (JS_LIMB_BITS - shift) y) in *.
  assert (wrap bits x = mp_val lo + B * W) as ->; [|exact Hr].
  unfold wrap. symmetry. apply (Z.mod_unique_pos _ _ (k * 2 ^ shift + y / 2 ^ (JS_LIMB_BITS - shift))).
  - rewrite Ebits. set (h := 2 ^ (JS_LIMB_BITS - shift)) in *.
    assert (0 <= B * W) by (apply Z.mul_nonneg_nonneg; lia).
    assert (B * W <= B * (h - 1)) by (apply Z.mul_le_mono_nonneg_l; lia). lia.
  - rewrite <- Hv, Ek, Ebits, El. unfold W, wrap. rewrite (Z.mod_eq y) by lia. ring.
Qed.

Lemma asUintN_spec bits x a :
  is_bigint x a -> 1 <= bits -> asUintN_ok bits x a ->
  mspec (js_bigint_asUintN bits a false) (is_bigint (wrap bits x)) size_exn.
Proof.
  intros Ha Hb Hok. destruct a; cbn in Ha; try contradiction; [|apply asUintN_heap; assumption].
  destruct Ha as [-> Hs]. apply asUintN_short; assumption.
Qed.

(** ** 64-bit constructors and [JS_ToBigInt64Free] *)

Lemma new_fits_small n E :
  0 <= n <= 3 -> mspec (js_bigint_new n) (fun r => len (tab r) = n) E.
Proof.
  intros Hn. eapply mspec_mono; [apply (js_bigint_new_spec n); lia|intros r Hr; exact Hr|].
  intros e [-> H]. pose proof max_size_big. lia.
Qed.

Lemma js_bigint_new_si64_spec v E :
  - 2 ^ 63 <= v < 2 ^ 63 -> mspec (js_bigint_new_si64 v) (is_big v) E.
Proof.
  intros Hv. unfold js_bigint_new_si64.
  assert (js_slimb v = v -> mspec (js_bigint_new_si v) (is_big v) E) as Hone.
  { intros Es. eapply mspec_mono; [apply js_bigint_new_si_spec| |intros e He; exact He].
    intros r (H1 & H2 & _). split; [exact H1|]. rewrite H2. exact Es. }
  destruct limb_bits_cases as [E32|E64].
  - rewrite E32. cbn [Z.eqb Pos.eqb]. unfold INT32_MIN, INT32_MAX.
    destruct ((- 2 ^ 31 <=? v) && (v <=? 2 ^ 31 - 1)) eqn:Es.
    + apply andb_true_iff in Es as [H1 H2]. apply Z.leb_le in H1, H2. apply Hone. unfold js_slimb. rewrite E32.
      apply swrap_small; lia.
    + eapply mspec_bind; [apply (new_fits_small 2); lia|]. intros r Hr. destruct (fresh_two r Hr) as (y & z & ->).
      rewrite (tab_set_app [] y (js_limb v) [z] 0 eq_refl : tab_set [y; z] 0 (js_limb v) = mret [js_limb v; z]), ret_bind.
      rewrite (tab_set_app [js_limb v] z (js_limb (Z.shiftr v 32)) [] 1 eq_refl
               : tab_set [js_limb v; z] 1 _ = mret [js_limb v; js_limb (Z.shiftr v 32)]), ret_bind.
      apply mspec_ret. rewrite <- E32. apply norm_two; unfold limb_base; rewrite E32; [lia|].
      apply andb_false_iff in Es. rewrite !Z.leb_gt in Es. lia.
  - rewrite E64. cbn [Z.eqb Pos.eqb]. apply Hone. unfold js_slimb. rewrite E64. apply swrap_small; lia.
Qed.

(** An unsigned number with a zero limb above its top bit. *)
Lemma zero_top t :
  limbs_ok t -> t <> [] -> mp_base t <= 2 * mp_val t -> is_big (mp_val t) (MkBigInt (t ++ [0])).
Proof.
  intros Ht Hne Htop. pose proof (mp_val_bounds t Ht) as Hb. pose proof limb_base_big as HB.
  assert (limbs_ok (t ++ [0])) as Hok by (apply limbs_ok_app; split; [exact Ht|constructor; [apply limb_ok_0|constructor]]).
  assert (sval (t ++ [0]) = mp_val t) as Es.
  { apply (sval_unique _ _ 0 Hok); [rewrite val_snoc; ring|]. rewrite base_snoc.
    assert (mp_base t * 2 <= mp_base t * limb_base) by (apply Z.mul_le_mono_nonneg_l; lia). lia. }
  split; [|exact Es]. split; [split; [exact Hok|intros E0; apply app_eq_nil in E0; destruct E0; discriminate]|].
  right. right. cbn [tab]. rewrite Es, len_app. change (len [0]) with 1. unfold mp_base in Htop.
  replace (len t + 1 - 1) with (len t) by lia. exact Htop.
Qed.

Lemma js_bigint_new_ui64_spec v E :
  0 <= v < 2 ^ 64 -> mspec (js_bigint_new_ui64 v) (is_big v) E.
Proof.
  intros Hv. unfold js_bigint_new_ui64, INT64_MAX. destruct (Z.leb_spec v (2 ^ 63 - 1)) as [Hle|Hgt].
  { apply js_bigint_new_si64_spec. lia. }
  assert (limb_ok 0) as H0 by apply limb_ok_0.
  destruct limb_bits_cases as [E32|E64].
  - rewrite E32. change ((65 + 32 - 1) / 32) with 3. cbn [Z.eqb Pos.eqb].
    eapply mspec_bind; [apply (new_fits_small 3); lia|]. intros r Hr.
    assert (exists a b c, tab r = [a; b; c]) as (a & b & c & ->).
    { unfold len in Hr. destruct (tab r) as [|a [|b [|c [|? ?]]]]; simpl in Hr; try lia. eauto. }
    set (x := js_limb v). set (y := js_limb (Z.shiftr v 32)).
    rewrite (tab_set_app [] a x [b; c] 0 eq_refl : tab_set [a; b; c] 0 x = mret [x; b; c]), ret_bind.
    rewrite (tab_set_app [x] b y [c] 1 eq_refl : tab_set [x; b; c] 1 y = mret [x; y; c]), ret_bind.
    rewrite (tab_set_app [x; y] c 0 [] 2 eq_refl : tab_set [x; y; c] 2 0 = mret [x; y; 0]), ret_bind.
    apply mspec_ret. assert (mp_val [x; y] = v) as Ev.
    { cbn [mp_val]. unfold x, y. rewrite !js_limb_eq, Z.shiftr_div_pow2 by lia. unfold limb_base. rewrite E32.
      rewrite (Z.mod_small (v / 2 ^ 32)).
      - pose proof (Z.div_mod v (2 ^ 32) ltac:(lia)). lia.
      - split; [apply Z.div_pos; lia|apply Z.div_lt_upper_bound; lia]. }
    assert (limbs_ok [x; y]) as Hok by (constructor; [apply js_limb_ok|constructor; [apply js_limb_ok|constructor]]).
    rewrite <- Ev. apply (zero_top [x; y]); [exact Hok|discriminate|]. rewrite Ev, !mp_base_cons.
    change (mp_base []) with 1. unfold limb_base. rewrite E32. lia.
  - rewrite E64. change ((65 + 64 - 1) / 64) with 2. cbn [Z.eqb Pos.eqb].
    eapply mspec_bind; [apply (new_fits_small 2); lia|]. intros r Hr. destruct (fresh_two r Hr) as (a & b & ->).
    assert (limb_ok v) as Hok by (unfold limb_ok, limb_base; rewrite E64; lia). rewrite (js_limb_small v Hok).
    rewrite (tab_set_app [] a v [b] 0 eq_refl : tab_set [a; b] 0 v = mret [v; b]), ret_bind.
    rewrite (tab_set_app [v] b 0 [] 1 eq_refl : tab_set [v; b] 1 0 = mret [v; 0]), ret_bind.
    apply mspec_ret. assert (mp_val [v] = v) as Ev by (cbn [mp_val]; lia).
    rewrite <- Ev at 1. apply (zero_top [v]); [constructor; [exact Hok|constructor]|discriminate|].
    rewrite Ev, mp_base_cons. change (mp_base []) with 1. unfold limb_base. rewrite E64. lia.
Qed.

Lemma big_not_short v r : is_big v r -> ~ short_range v -> is_bigint v (JS_TAG_BIG_INT r).
Proof.
  intros [Hn Hv] Hs. pose proof (bi_len_pos r (proj1 Hn)). repeat split; try apply Hn; [exact Hv|].
  assert (bi_len r <> 1); [|lia]. intros E1. apply Hs. rewrite <- Hv, (one_limb r Hn E1). apply slimb_short.
Qed.

Lemma JS_NewBigInt64_spec v E :
  - 2 ^ 63 <= v < 2 ^ 63 -> mspec (JS_NewBigInt64 v) (is_bigint v) E.
Proof.
  intros Hv. unfold JS_NewBigInt64, JS_SHORT_BIG_INT_BITS. destruct (Z.eqb_spec JS_LIMB_BITS 64) as [E64|_].
  - apply mspec_ret, new_short_spec. unfold short_range, JS_SHORT_BIG_INT_MIN, JS_SHORT_BIG_INT_MAX. rewrite E64. lia.
  - destruct (_ && _) eqn:Es.
    + apply mspec_ret, new_short_spec. apply andb_true_iff in Es as [H1 H2]. apply Z.leb_le in H1, H2. split; assumption.
    + eapply boxed; [apply (js_bigint_new_si64_spec v _ Hv)| |intros e He; exact He].
      intros r Hr. apply big_not_short; [exact Hr|]. intros [H1 H2].
      apply Z.leb_le in H1, H2. rewrite H1, H2 in Es. discriminate.
Qed.

Lemma JS_NewBigUint64_spec v E :
  0 <= v < 2 ^ 64 -> mspec (JS_NewBigUint64 v) (is_bigint v) E.
Proof.
  intros Hv. unfold JS_NewBigUint64. destruct (Z.leb_spec v JS_SHORT_BIG_INT_MAX) as [Hle|Hgt].
  - apply mspec_ret, new_short_spec. unfold short_range. split; [|exact Hle]. unfold JS_SHORT_BIG_INT_MIN.
    pose proof limb_half_big. lia.
  - eapply boxed; [apply (js_bigint_new_ui64_spec v _ Hv)| |intros e He; exact He].
    intros r Hr. apply big_not_short; [exact Hr|]. unfold short_range. lia.
Qed.

Lemma swrap_congr w x y k : 0 < w -> x = y + k * 2 ^ w -> swrap w x = swrap w y.
Proof. intros Hw ->. apply swrap_add_mul, Hw. Qed.

Lemma JS_ToBigInt64_spec x a E :
  is_bigint x a -> mspec (JS_ToBigInt64Free a) (fun r => r = swrap 64 x) E.
Proof.
  intros Ha. destruct a as [| | | | |v|p]; cbn in Ha; try contradiction.
  - destruct Ha as [-> _]. apply mspec_ret. reflexivity.
  - destruct Ha as (Hn & Hv & Hl). cbn [JS_ToBigInt64Free].
    assert (2 <= length (tab p))%nat as Hl' by (unfold bi_len, len in Hl; lia).
    destruct (lookup_lt_is_Some_2 (tab p) 0 ltac:(lia)) as [y Hy].
    destruct (lookup_lt_is_Some_2 (tab p) 1 ltac:(lia)) as [z Hz].
    rewrite (tab_get_lookup (tab p) 0 y), ret_bind by (lia || exact Hy).
    destruct limb_bits_cases as [E32|E64].
    + rewrite E32. cbn [Z.eqb Pos.eqb]. rewrite (proj2 (Z.leb_le 2 (bi_len p)) Hl).
      rewrite (tab_get_lookup (tab p) 1 z), ret_bind by (lia || exact Hz). apply mspec_ret.
      destruct (truncate_limbs p 2 z (proj1 Hn) ltac:(lia) Hz) as (Hzok & _ & _ & _ & k & Ek).
      change (Z.to_nat (2 - 1)) with 1%nat in Ek. rewrite (take_S_r _ _ _ Hy), take_0 in Ek. cbn [app mp_val] in Ek.
      assert (limb_ok y) as Hyok by (eapply Forall_lookup_1; [apply Hn|exact Hy]).
      unfold limb_ok, limb_base in Hyok. rewrite E32 in Hyok.
      rewrite Z.lor_comm, shl_lor_add by lia. symmetry. apply (swrap_congr _ _ _ k); [lia|].
      rewrite <- Hv, Ek. unfold limb_base. rewrite E32. change ((2 ^ 32) ^ (2 - 1)) with (2 ^ 32).
      change ((2 ^ 32) ^ 2) with (2 ^ 64). lia.
    + rewrite E64. cbn [Z.eqb Pos.eqb]. apply mspec_ret.
      destruct (truncate_limbs p 1 y (proj1 Hn) ltac:(lia) Hy) as (_ & _ & _ & _ & k & Ek).
      change (take (Z.to_nat (1 - 1)) (tab p)) with (@nil Z) in Ek. cbn [mp_val] in Ek.
      symmetry. apply (swrap_congr _ _ _ k); [lia|]. rewrite <- Hv, Ek. unfold limb_base. rewrite E64.
      change ((2 ^ 64) ^ (1 - 1)) with 1. change ((2 ^ 64) ^ 1) with (2 ^ 64). ring.
Qed.

End AsIntN.
