(* ===== verification/BigIntString.v ===== *)
(** BigInts and strings of digits (quickjs.c, [js_bigint_from_string] and
    [js_bigint_to_string1]): definitions.

    A C string is the list of its characters without the final zero byte. *)
From stdpp Require Import base tactics list numbers.
From Stdlib Require Import ZArith Lia.
From S2P Require Import Prelude Limbs BigInt.

Open Scope Z_scope.

Definition CHAR_0 : Z := 48.
Definition CHAR_MINUS : Z := 45.

Definition to_digit (c : Z) : Z :=
  if (48 <=? c) && (c <=? 57) then c - 48
  else if (65 <=? c) && (c <=? 90) then c - 65 + 10
  else if (97 <=? c) && (c <=? 122) then c - 97 + 10
  else 36.

(** [digits], "0123456789abcdefghijklmnopqrstuvwxyz". *)
Definition digits : list Z :=
  [48; 49; 50; 51; 52; 53; 54; 55; 56; 57; 97; 98; 99; 100; 101; 102; 103; 104; 105; 106; 107; 108; 109;
   110; 111; 112; 113; 114; 115; 116; 117; 118; 119; 120; 121; 122].

(** The loop that skips the leading zeros. *)
Fixpoint skip_zeros (p : list Z) : list Z :=
  match p with
  | c :: p' => if c =? CHAR_0 then skip_zeros p' else p
  | [] => []
  end.

Section BigIntString.
Context `{LC : LimbConfig} `{FM : FreshMemory}.

Definition JS_LIMB_DIGITS : Z := if JS_LIMB_BITS =? 32 then 9 else 19.

Definition js_pow_dec : list Z :=
  [1; 10; 100; 1000; 10000; 100000; 1000000; 10000000; 100000000; 1000000000] ++
  (if JS_LIMB_BITS =? 64 then
     [10000000000; 100000000000; 1000000000000; 10000000000000; 100000000000000; 1000000000000000;
      10000000000000000; 100000000000000000; 1000000000000000000; 10000000000000000000]
   else []).

(** ** [js_bigint_from_string] *)

(** [for(i = 0; i < digits_per_limb; i++)]: the value, the number of digits and
    the rest of the string. *)
Fixpoint read_digits (fuel : nat) (radix v i : Z) (p : list Z) : Z * Z * list Z :=
  match fuel with
  | O => (v, i, p)
  | S fuel =>
      match p with
      | [] => (v, i, p)
      | x :: p' =>
          let c := to_digit x in
          if radix <=? c then (v, i, p)
          else read_digits fuel radix (js_limb (v * 10 + c)) (i + 1) p'
      end
  end.

(** The [for(;;)] loop of the decimal case; every round but the last consumes a
    character, so the length of the string plus one is enough fuel. *)
Fixpoint decimal_loop (fuel : nat) (t : list Z) (l : Z) (p : list Z) : M (list Z * Z) :=
  match fuel with
  | O => undefined
  | S fuel =>
      let '(v, i, p) := read_digits (Z.to_nat JS_LIMB_DIGITS) 10 0 0 p in
      if i =? 0 then mret (t, l)
      else
        t0 ← tab_get t 0;
        if (l =? 1) && (t0 =? 0) then
          t ← tab_set t 0 v;
          decimal_loop fuel t l p
        else
          b ← tab_get js_pow_dec i;
          w ← tab_slice t 0 l;
          let '(w, h) := mp_mul1 w b v in
          t ← tab_blit t 0 w;
          if negb (h =? 0) then
            t ← tab_set t l h;
            decimal_loop fuel t (l + 1) p
          else decimal_loop fuel t l p
  end.

(** One round of the loop of the power-of-two case. *)
Definition binary_digit (p : list Z) (n_digits log2_radix radix i : Z) (t : list Z) : M (list Z) :=
  x ← tab_get p (n_digits - 1 - i);
  let c := to_digit x in
  if radix <=? c then undefined
  else
    let bit_pos := i * log2_radix in
    let shift := Z.land bit_pos (JS_LIMB_BITS - 1) in
    let pos := bit_pos / JS_LIMB_BITS in
    y ← tab_get t pos;
    t ← tab_set t pos (Z.lor y (js_limb (Z.shiftl c shift)));
    if JS_LIMB_BITS <? shift + log2_radix then
      z ← tab_get t (pos + 1);
      tab_set t (pos + 1) (Z.lor z (Z.shiftr c (JS_LIMB_BITS - shift)))
    else mret t.

Definition js_bigint_from_string (str : list Z) (radix : Z) : M JSBigInt :=
  let '(is_neg, p) := match str with c :: p => if c =? CHAR_MINUS then (true, p) else (false, str) | [] => (false, str) end in
  let p := skip_zeros p in
  let n_digits := len p in
  if JS_BIGINT_MAX_SIZE * JS_LIMB_BITS <? n_digits then throw err_alloc
  else
    let log2_radix := 32 - clz32 (radix - 1) in
    let n_bits := if radix =? 10 then (n_digits * 27 + 7) / 8 else n_digits * log2_radix in
    let n_limbs := Z.max 1 (n_bits / JS_LIMB_BITS + 1) in
    r ← js_bigint_new n_limbs;
    t ← (if radix =? 10 then
           t ← tab_set (tab r) 0 0;
           '(t, l) ← decimal_loop (S (length p)) t 1 p;
           top ← tab_get t (l - 1);
           if negb (Z.shiftr top (JS_LIMB_BITS - 1) =? 0) then
             t ← tab_set t l 0; tab_slice t 0 (l + 1)
           else tab_slice t 0 l
         else
           for_up (Z.to_nat n_digits) 0 (binary_digit p n_digits log2_radix radix)
             (replicate (Z.to_nat n_limbs) 0));
    r ← js_bigint_normalize (MkBigInt t);
    if is_neg then js_bigint_neg r else mret r.

(** ** [js_bigint_to_string1]

    The buffer is filled from its end: [room] bytes are left before [q] and [q]
    holds what was written. *)
Definition put (c : Z) (q : Z * list Z) : M (Z * list Z) :=
  let '(room, s) := q in
  if 0 <? room then mret (room - 1, c :: s) else undefined.

(** [do ... while (n != 0)] writes at most 64 digits. *)
Fixpoint u64toa_loop (fuel : nat) (n base : Z) (q : Z * list Z) : M (Z * list Z) :=
  match fuel with
  | O => undefined
  | S fuel =>
      d ← tab_get digits (n mod base);
      q ← put d q;
      if negb (n / base =? 0) then u64toa_loop fuel (n / base) base q else mret q
  end.

Definition js_u64toa (q : Z * list Z) (n base : Z) : M (Z * list Z) := u64toa_loop 64 n base q.

Fixpoint limb_to_a (q : Z * list Z) (n radix : Z) (l : nat) : M (Z * list Z) :=
  match l with
  | O => mret q
  | S l =>
      d ← tab_get digits (n mod radix);
      q ← put d q;
      limb_to_a q (n / radix) radix l
  end.

Definition digits_per_limb_table : list Z :=
  if JS_LIMB_BITS =? 32 then
    [32; 20; 16; 13; 12; 11; 10; 10; 9; 9; 8; 8; 8; 8; 8; 7; 7; 7; 7; 7; 7; 7; 6; 6; 6; 6; 6; 6; 6; 6; 6; 6; 6; 6; 6]
  else
    [64; 40; 32; 27; 24; 22; 21; 20; 19; 18; 17; 17; 16; 16; 16; 15; 15; 15; 14; 14; 14; 14; 13; 13; 13; 13; 13; 13; 13;
     12; 12; 12; 12; 12; 12].

Definition radix_base_table : list Z :=
  if JS_LIMB_BITS =? 32 then
    [0x00000000; 0xcfd41b91; 0x00000000; 0x48c27395;
     0x81bf1000; 0x75db9c97; 0x40000000; 0xcfd41b91;
     0x3b9aca00; 0x8c8b6d2b; 0x19a10000; 0x309f1021;
     0x57f6c100; 0x98c29b81; 0x00000000; 0x18754571;
     0x247dbc80; 0x3547667b; 0x4c4b4000; 0x6b5a6e1d;
     0x94ace180; 0xcaf18367; 0x0b640000; 0x0e8d4a51;
     0x1269ae40; 0x17179149; 0x1cb91000; 0x23744899;
     0x2b73a840; 0x34e63b41; 0x40000000; 0x4cfa3cc1;
     0x5c13d840; 0x6d91b519; 0x81bf1000]
  else
    [0x0000000000000000; 0xa8b8b452291fe821; 0x0000000000000000; 0x6765c793fa10079d;
     0x41c21cb8e1000000; 0x3642798750226111; 0x8000000000000000; 0xa8b8b452291fe821;
     0x8ac7230489e80000; 0x4d28cb56c33fa539; 0x1eca170c00000000; 0x780c7372621bd74d;
     0x1e39a5057d810000; 0x5b27ac993df97701; 0x0000000000000000; 0x27b95e997e21d9f1;
     0x5da0e1e53c5c8000; 0xd2ae3299c1c4aedb; 0x16bcc41e90000000; 0x2d04b7fdd9c0ef49;
     0x5658597bcaa24000; 0xa0e2073737609371; 0x0c29e98000000000; 0x14adf4b7320334b9;
     0x226ed36478bfa000; 0x383d9170b85ff80b; 0x5a3c23e39c000000; 0x8e65137388122bcd;
     0xdd41bb36d259e000; 0x0aee5720ee830681; 0x1000000000000000; 0x172588ad4f5f0981;
     0x211e44f7d02c1000; 0x2ee56725f06e5c71; 0x41c21cb8e1000000].

(** The loop of the radices that are not powers of two: every round but the last
    divides the number by at least two, so its number of bits is enough fuel. *)
Fixpoint radix_loop (fuel : nat) (t : list Z) (radix radix_base per_limb : Z) (q : Z * list Z) : M (Z * list Z) :=
  match fuel with
  | O => undefined
  | S fuel =>
      let t := take (strip_zeros t (length t)) t in
      t0 ← tab_get t 0;
      if (len t =? 1) && (t0 <? radix_base) then
        if negb (t0 =? 0) then js_u64toa q t0 radix else mret q
      else
        let '(t, v) := mp_div1 t radix_base 0 in
        q ← limb_to_a q v radix (Z.to_nat per_limb);
        radix_loop fuel t radix radix_base per_limb q
  end.

(** One round of the loop of the power-of-two radices. *)
Definition binary_char (t : list Z) (log2_radix radix i : Z) (q : Z * list Z) : M (Z * list Z) :=
  let bit_pos := i * log2_radix in
  let pos := bit_pos / JS_LIMB_BITS in
  let shift := bit_pos mod JS_LIMB_BITS in
  x ← tab_get t pos;
  let c := wrap 32 (Z.shiftr x shift) in
  c ← (if (JS_LIMB_BITS <? shift + log2_radix) && (pos + 1 <? len t) then
         y ← tab_get t (pos + 1);
         mret (Z.lor c (wrap 32 (js_limb (Z.shiftl y (JS_LIMB_BITS - shift)))))
       else mret c);
  d ← tab_get digits (Z.land c (radix - 1));
  put d q.

(** A new string object holding the bytes; the empty string is preallocated. *)
Definition js_new_string8_len (buf : list Z) : M (list Z) :=
  if len buf <=? 0 then mret [] else _ ← alloc; mret buf.

(** The case of a heap BigInt. *)
Definition js_bigint_to_string1 (a : JSBigInt) (radix : Z) : M (list Z) :=
  if (bi_len a =? 1) && (tab a !!! 0%nat =? 0) then js_new_string8_len [CHAR_0]
  else
    let is_binary_radix := Z.land radix (radix - 1) =? 0 in
    let is_neg := js_bigint_sign a in
    r ← (if negb (is_neg =? 0) then js_bigint_neg a
         else if negb is_binary_radix then
           tmp ← js_bigint_new (bi_len a);
           t ← tab_blit (tab tmp) 0 (tab a);
           mret (MkBigInt t)
         else mret a);
    let log2_radix := 31 - clz32 radix in
    let n_bits := bi_len r * JS_LIMB_BITS - js_limb_safe_clz (top_limb r) in
    let n_digits := (n_bits + log2_radix - 1) / log2_radix in
    _ ← alloc;
    let q := (n_digits + is_neg, []) in
    q ← (if negb is_binary_radix then
           radix_base ← tab_get radix_base_table (radix - 2);
           per_limb ← tab_get digits_per_limb_table (radix - 2);
           radix_loop (S (Z.to_nat (bi_len r * JS_LIMB_BITS))) (tab r) radix radix_base per_limb q
         else for_up (Z.to_nat n_digits) 0 (binary_char (tab r) log2_radix radix) q);
    q ← (if negb (is_neg =? 0) then put CHAR_MINUS q else mret q);
    js_new_string8_len (snd q).

End BigIntString.
