(* ===== verification/BigIntParse.v ===== *)
(** Parsing digits into a BigInt: [js_bigint_from_string] reads the number the
    string denotes, within the array it allocated.

    [js_bigint_from_string] returns the number its argument denotes. *)
From stdpp Require Import base tactics list numbers.
From Stdlib Require Import ZArith Lia.
From S2P Require Import Prelude Float64 Limbs LimbSpecs BigInt BigIntMul BigIntBits BigIntPow BigIntInterface BigIntString.

Open Scope Z_scope.

(** ** Digit strings *)

Definition valid (radix : Z) (ds : list Z) : Prop := Forall (fun c => to_digit c < radix) ds.

Fixpoint digits_val (radix acc : Z) (ds : list Z) : Z :=
  match ds with
  | [] => acc
  | c :: ds => digits_val radix (acc * radix + to_digit c) ds
  end.

Lemma to_digit_nonneg c : 0 <= to_digit c.
Proof. unfold to_digit. case_tests; cbn [andb]; lia. Qed.

Lemma digits_val_acc radix acc ds :
  digits_val radix acc ds = acc * radix ^ len ds + digits_val radix 0 ds.
Proof.
  revert acc. induction ds as [|c ds IH]; intros acc; cbn [digits_val];
    [change (len (@nil Z)) with 0; rewrite Z.pow_0_r; ring|].
  rewrite IH, (IH (0 * radix + to_digit c)), len_cons.
  replace (1 + len ds) with (Z.succ (len ds)) by lia. rewrite Z.pow_succ_r by apply len_nonneg. ring.
Qed.

Lemma digits_val_app radix acc a b :
  digits_val radix acc (a ++ b) = digits_val radix (digits_val radix acc a) b.
Proof. revert acc. induction a as [|c a IH]; intros acc; [reflexivity|apply IH]. Qed.

Lemma digits_val_bounds radix ds :
  1 < radix -> valid radix ds -> 0 <= digits_val radix 0 ds < radix ^ len ds.
Proof.
  intros Hr. induction 1 as [|c ds Hc Hds IH]; [change (len (@nil Z)) with 0; rewrite Z.pow_0_r; cbn; lia|].
  cbn [digits_val]. rewrite digits_val_acc, len_cons.
  replace (1 + len ds) with (Z.succ (len ds)) by lia. rewrite Z.pow_succ_r by apply len_nonneg.
  pose proof (to_digit_nonneg c). assert (0 < radix ^ len ds) by lia.
  assert (0 <= to_digit c * radix ^ len ds) by (apply Z.mul_nonneg_nonneg; lia).
  assert (to_digit c * radix ^ len ds <= (radix - 1) * radix ^ len ds) by (apply Z.mul_le_mono_nonneg_r; lia). lia.
Qed.

Lemma skip_zeros_spec radix p :
  valid radix p -> valid radix (skip_zeros p) /\ digits_val radix 0 (skip_zeros p) = digits_val radix 0 p.
Proof.
  induction 1 as [|c p Hc Hp IH]; [split; [constructor|reflexivity]|]. cbn [skip_zeros].
  unfold CHAR_0. destruct (Z.eqb_spec c 48) as [->|_]; [|split; [constructor; assumption|reflexivity]].
  destruct IH as [H1 H2]. split; [exact H1|]. cbn [digits_val]. change (to_digit 48) with 0. exact H2.
Qed.

Section BigIntParse.
Context `{LC : LimbConfig} `{FM : FreshMemory}.

(** ** Decimal digits *)

Lemma limb_digits_fit : 1 <= JS_LIMB_DIGITS /\ 10 ^ JS_LIMB_DIGITS <= limb_base.
Proof.
  unfold JS_LIMB_DIGITS, limb_base. destruct limb_bits_cases as [-> | ->]; split; vm_compute; discriminate.
Qed.

Lemma read_digits_spec n v i p :
  valid 10 p -> 0 <= v < 10 ^ i -> 0 <= i -> i + Z.of_nat n <= JS_LIMB_DIGITS ->
  let k := Nat.min n (length p) in
  read_digits n 10 v i p = (digits_val 10 v (take k p), i + Z.of_nat k, drop k p).
Proof.
  revert v i p. induction n as [|n IH]; intros v i p Hp Hv Hi Hn; cbv zeta.
  - cbn [Nat.min read_digits]. rewrite take_0, drop_0. cbn [digits_val]. f_equal. f_equal. lia.
  - destruct Hp as [|c p Hc Hp]; cbn [read_digits length].
    + rewrite Nat.min_0_r. cbn. f_equal. f_equal. lia.
    + rewrite (proj2 (Z.leb_gt 10 (to_digit c))) by lia. cbn [Nat.min take drop digits_val].
      pose proof (to_digit_nonneg c).
      assert (0 <= v * 10 + to_digit c < 10 ^ (i + 1)) as Hv'
        by (rewrite Z.add_1_r, Z.pow_succ_r by lia; lia).
      assert (js_limb (v * 10 + to_digit c) = v * 10 + to_digit c) as ->.
      { apply js_limb_small. destruct limb_digits_fit as [_ Hf]. unfold limb_ok.
        assert (10 ^ (i + 1) <= 10 ^ JS_LIMB_DIGITS) by (apply Z.pow_le_mono_r; lia). lia. }
      rewrite IH; [|exact Hp|exact Hv'|lia|lia]. f_equal. f_equal. lia.
Qed.

Lemma pow_dec_spec i : 0 <= i <= JS_LIMB_DIGITS -> tab_get js_pow_dec i = mret (10 ^ i).
Proof.
  intros Hi. assert (forall t n, (forall k, (k < n)%nat -> t !! k = Some (10 ^ Z.of_nat k)) ->
    0 <= i < Z.of_nat n -> tab_get t i = mret (10 ^ i)) as H.
  { intros t n Ht Hr. rewrite (tab_get_lookup t i (10 ^ i)); [reflexivity|lia|].
    rewrite Ht by lia. do 2 f_equal. lia. }
  unfold JS_LIMB_DIGITS, js_pow_dec in *. destruct limb_bits_cases as [E|E]; rewrite E in *; cbn [Z.eqb Pos.eqb] in *.
  - apply (H _ 10%nat); [|lia]. intros k Hk. do 10 (destruct k as [|k]; [reflexivity|]). lia.
  - apply (H _ 20%nat); [|lia]. intros k Hk. do 20 (destruct k as [|k]; [reflexivity|]). lia.
Qed.

(** The number in the first [l] limbs has no superfluous top limb. *)
Definition tight (l : Z) (V : Z) : Prop := l = 1 \/ limb_base ^ (l - 1) <= V.

(** One accumulation step: multiply by a power of ten and add. *)
Lemma mul1_step t l b v :
  limbs_ok (take (Z.to_nat l) t) -> 1 <= l <= len t -> limb_ok b -> limb_ok v -> 1 <= b ->
  tight l (mp_val (take (Z.to_nat l) t)) ->
  let V := mp_val (take (Z.to_nat l) t) in
  V * b + v < limb_base ^ len t ->
  exists t' l',
    (forall {R} (k : list Z * Z -> M R),
      (w ← tab_slice t 0 l;
       let '(w, h) := mp_mul1 w b v in
       t ← tab_blit t 0 w;
       if negb (h =? 0) then t ← tab_set t l h; k (t, l + 1) else k (t, l)) = k (t', l')) /\
    len t' = len t /\ 1 <= l' <= len t /\ limbs_ok (take (Z.to_nat l') t') /\
    mp_val (take (Z.to_nat l') t') = V * b + v /\ tight l' (V * b + v).
Proof.
  intros Hok Hl Hb Hv Hb1 Htight V Hlt. rewrite slice_prefix by lia.
  set (w := take (Z.to_nat l) t) in *. assert (length w = Z.to_nat l) as Hw by (unfold w, len in *; rewrite length_take; lia).
  pose proof (mp_mul1_spec w b v Hok Hb Hv) as H. destruct (mp_mul1 w b v) as [w' h] eqn:Em.
  destruct H as (Hok' & Hlw & Hh & Ev). fold V in Ev.
  assert (mp_base w = limb_base ^ l) as Ebw by (unfold mp_base, len; rewrite Hw, Z2Nat.id by lia; reflexivity).
  assert (mp_base w' = limb_base ^ l) as Ebw' by (unfold mp_base, len; rewrite Hlw, Hw, Z2Nat.id by lia; reflexivity).
  pose proof (mp_val_bounds w Hok) as HV. fold V in HV. pose proof (mp_val_bounds w' Hok') as HV'.
  pose proof limb_base_big as HB. unfold limb_ok in Hv, Hh, Hb.
  assert (V <= V * b) as Hmono by (rewrite <- (Z.mul_1_r V) at 1; apply Z.mul_le_mono_nonneg_l; lia).
  assert (t = w ++ drop (Z.to_nat l) t) as Et by (symmetry; apply take_drop).
  destruct (Z.eqb_spec h 0) as [E0|Hh0].
  - exists (w' ++ drop (Z.to_nat l) t), l. split.
    + intros R k. rewrite ret_bind, Em. rewrite blit_prefix by (unfold len in *; lia).
      rewrite ret_bind, Hlw, Hw, E0. reflexivity.
    + assert (take (Z.to_nat l) (w' ++ drop (Z.to_nat l) t) = w') as Ew
        by (rewrite take_app_le, take_ge by lia; reflexivity).
      rewrite Ew. split; [unfold len in *; rewrite length_app, length_drop; lia|]. split; [lia|].
      split; [exact Hok'|]. rewrite E0 in Ev. split; [lia|].
      destruct Htight as [H1|H1]; [left; exact H1|right; fold V in H1; lia].
  - assert (l < len t) as Hlt'.
    { apply (Z.pow_lt_mono_r_iff limb_base); [lia|lia|].
      assert (limb_base ^ l * 1 <= limb_base ^ l * h) by (apply Z.mul_le_mono_nonneg_l; lia). lia. }
    destruct (drop (Z.to_nat l) t) as [|y rest] eqn:Ed.
    { apply (f_equal length) in Ed. rewrite length_drop in Ed. unfold len in *. simpl in Ed. lia. }
    exists (w' ++ h :: rest), (l + 1). split.
    + intros R k. rewrite ret_bind, Em. rewrite blit_prefix by (unfold len in *; lia).
      rewrite ret_bind, Hlw, Hw, Ed, (proj2 (Z.eqb_neq h 0) Hh0). cbn [negb]. rewrite tab_set_app by (unfold len; lia). rewrite ret_bind. reflexivity.
    + assert (take (Z.to_nat (l + 1)) (w' ++ h :: rest) = w' ++ [h]) as Ew.
      { rewrite take_app_ge by lia. replace (Z.to_nat (l + 1) - length w')%nat with 1%nat by lia. cbn [take]. rewrite take_0. reflexivity. }
      rewrite Ew, val_snoc, Ebw'. split; [|split; [lia|split; [|split]]].
      * unfold len in *. rewrite Et, !length_app. cbn [length]. lia.
      * apply limbs_ok_app. split; [exact Hok'|]. constructor; [exact Hh|constructor].
      * rewrite Ebw in Ev. lia.
      * right. replace (l + 1 - 1) with l by lia.
        assert (limb_base ^ l * 1 <= limb_base ^ l * h) by (apply Z.mul_le_mono_nonneg_l; lia). lia.
Qed.

Lemma decimal_loop_spec fuel t l p :
  valid 10 p -> (length p < fuel)%nat -> 1 <= l <= len t -> limbs_ok (take (Z.to_nat l) t) ->
  let V := mp_val (take (Z.to_nat l) t) in
  tight l V -> (V + 1) * 10 ^ len p <= limb_base ^ len t ->
  exists t' l', decimal_loop fuel t l p = mret (t', l') /\
    len t' = len t /\ 1 <= l' <= len t /\ limbs_ok (take (Z.to_nat l') t') /\
    mp_val (take (Z.to_nat l') t') = digits_val 10 V p /\ tight l' (digits_val 10 V p).
Proof.
  revert t l p. induction fuel as [|fuel IH]; intros t l p Hp Hfuel Hl Hok V Htight HN; [lia|].
  cbn [decimal_loop]. destruct limb_digits_fit as [HLD HLDB].
  rewrite (read_digits_spec (Z.to_nat JS_LIMB_DIGITS) 0 0 p Hp) by lia. cbv zeta.
  set (k := Nat.min (Z.to_nat JS_LIMB_DIGITS) (length p)). rewrite Z.add_0_l.
  destruct (Z.eqb_spec (Z.of_nat k) 0) as [Ek|Hk].
  { assert (p = []) as -> by (destruct p; [reflexivity|unfold k in Ek; simpl in Ek; lia]).
    exists t, l. repeat split; try assumption; lia. }
  assert (valid 10 (take k p)) as Hc by (apply Forall_take, Hp). assert (valid 10 (drop k p)) as Hd by (apply Forall_drop, Hp).
  pose proof (digits_val_bounds 10 (take k p) ltac:(lia) Hc) as Hcv.
  assert (len (take k p) = Z.of_nat k) as Hlk by (unfold len; rewrite length_take; unfold k; lia). rewrite Hlk in Hcv.
  assert (len p = Z.of_nat k + len (drop k p)) as Hlp by (unfold len; rewrite length_drop; unfold k; lia).
  set (v := digits_val 10 0 (take k p)) in *.
  assert (10 ^ Z.of_nat k <= 10 ^ JS_LIMB_DIGITS) as Hpk by (apply Z.pow_le_mono_r; unfold k; lia).
  pose proof (mp_val_bounds _ Hok) as HV. fold V in HV.
  assert (digits_val 10 V p = digits_val 10 (V * 10 ^ Z.of_nat k + v) (drop k p)) as Ep.
  { rewrite <- (take_drop k p) at 1. rewrite digits_val_app. f_equal. rewrite digits_val_acc, Hlk. reflexivity. }
  rewrite Hlp, Z.pow_add_r in HN by (apply len_nonneg || lia).
  assert (0 < 10 ^ len (drop k p)) as Hpd by (apply Z.pow_pos_nonneg; [lia|apply len_nonneg]).
  assert (forall W, W + 1 <= (V + 1) * 10 ^ Z.of_nat k -> (W + 1) * 10 ^ len (drop k p) <= limb_base ^ len t) as HW.
  { intros W HW. assert ((W + 1) * 10 ^ len (drop k p) <= (V + 1) * 10 ^ Z.of_nat k * 10 ^ len (drop k p))
      by (apply Z.mul_le_mono_nonneg_r; lia). lia. }
  assert (length (drop k p) < fuel)%nat as Hf' by (rewrite length_drop; unfold k in *; lia).
  destruct (take (Z.to_nat l) t) as [|t0 tr] eqn:Etk.
  { apply (f_equal length) in Etk. rewrite length_take in Etk. unfold len in *. simpl in Etk. lia. }
  destruct t as [|t00 tt]; [rewrite take_nil in Etk; discriminate|].
  assert (t00 = t0) as -> by (destruct (Z.to_nat l) eqn:El; [discriminate|]; injection Etk; auto).
  rewrite (tab_get_app [] t0 tt 0 eq_refl : tab_get (t0 :: tt) 0 = mret t0), ret_bind.
  destruct ((l =? 1) && (t0 =? 0)) eqn:Ez.
  - apply andb_true_iff in Ez as [E1 E2]. apply Z.eqb_eq in E1, E2. subst l t0.
    change (Z.to_nat 1) with 1%nat in Etk. cbn [take] in Etk. rewrite take_0 in Etk. injection Etk as <-.
    assert (V = 0) as EV by (unfold V; cbn; lia).
    rewrite (tab_set_app [] 0 v tt 0 eq_refl : tab_set (0 :: tt) 0 v = mret (v :: tt)), ret_bind.
    assert (mp_val (take (Z.to_nat 1) (v :: tt)) = v) as Ev
      by (change (Z.to_nat 1) with 1%nat; cbn [take]; rewrite take_0; cbn [mp_val]; lia).
    destruct (IH (v :: tt) 1 (drop k p) Hd Hf') as (t' & l' & H1 & H2 & H3 & H4 & H5 & H6).
    + exact Hl.
    + change (Z.to_nat 1) with 1%nat. cbn [take]. rewrite take_0. constructor; [unfold limb_ok; lia|constructor].
    + left. reflexivity.
    + rewrite Ev. change (len (v :: tt)) with (len (0 :: tt)). apply HW. lia.
    + rewrite Ev in H5, H6. change (len (v :: tt)) with (len (0 :: tt)) in H2, H3. exists t', l'. rewrite Ep, EV, Z.mul_0_l, Z.add_0_l.
      repeat (split; [assumption|]). assumption.
  - rewrite pow_dec_spec, ret_bind by (unfold k; lia).
    assert (1 <= 10 ^ Z.of_nat k) by lia.
    assert (V * 10 ^ Z.of_nat k + v + 1 <= (V + 1) * 10 ^ Z.of_nat k) as Hstep by lia.
    destruct (mul1_step (t0 :: tt) l (10 ^ Z.of_nat k) v) as (t' & l' & Hrun & H2 & H3 & H4 & H5 & H6);
      rewrite ?Etk; try assumption; try (unfold limb_ok; lia).
    + unfold limb_ok. split; [lia|].
      assert (10 ^ JS_LIMB_DIGITS < limb_base); [|lia].
      unfold JS_LIMB_DIGITS, limb_base. destruct limb_bits_cases as [-> | ->]; reflexivity.
    + fold V. specialize (HW _ Hstep). fold V in HW.
      assert (1 * (V * 10 ^ Z.of_nat k + v + 1) <= 10 ^ len (drop k p) * (V * 10 ^ Z.of_nat k + v + 1))
        by (apply Z.mul_le_mono_nonneg_r; lia). lia.
    + rewrite Etk in H5, H6. fold V in H5, H6.
      destruct (IH t' l' (drop k p) Hd Hf') as (t2 & l2 & G1 & G2 & G3 & G4 & G5 & G6);
        rewrite ?H5, ?H2; try assumption; try (apply HW, Hstep).
      rewrite H5 in G5, G6. rewrite H2 in G2, G3. exists t2, l2.
      specialize (Hrun _ (fun tl => let '(t, l) := tl in decimal_loop fuel t l (drop k p))). cbn beta iota in Hrun.
      rewrite Ep. split; [rewrite <- G1, <- Hrun; reflexivity|]. repeat (split; [assumption|]). assumption.
Qed.

(** ** Digits of a power-of-two radix *)

Lemma limb_split t i x :
  limbs_ok t -> t !! i = Some x ->
  exists hi, mp_val t = mp_val (take i t) + limb_base ^ Z.of_nat i * (x + limb_base * hi) /\ 0 <= hi /\
    0 <= mp_val (take i t) < limb_base ^ Z.of_nat i /\ limb_ok x /\
    forall y, mp_val (<[i := y]> t) = mp_val t + limb_base ^ Z.of_nat i * (y - x).
Proof.
  intros Hok Hx. exists (mp_val (drop (S i) t)).
  assert (i < length t)%nat as Hi by (apply lookup_lt_Some in Hx; exact Hx).
  assert (mp_base (take i t) = limb_base ^ Z.of_nat i) as Eb
    by (unfold mp_base, len; rewrite length_take, Nat.min_l by lia; reflexivity).
  assert (forall y, mp_val (<[i := y]> t) = mp_val (take i t) + limb_base ^ Z.of_nat i * (y + limb_base * mp_val (drop (S i) t))) as Hy.
  { intros y. rewrite insert_take_drop by exact Hi. rewrite mp_val_app, Eb. reflexivity. }
  assert (mp_val t = mp_val (take i t) + limb_base ^ Z.of_nat i * (x + limb_base * mp_val (drop (S i) t))) as Ex
    by (rewrite <- Hy, list_insert_id by exact Hx; reflexivity).
  split; [exact Ex|]. split; [apply mp_val_bounds, limbs_ok_drop, Hok|].
  split; [rewrite <- Eb; apply mp_val_bounds, limbs_ok_take, Hok|].
  split; [eapply Forall_lookup_1; [exact Hok|exact Hx]|]. intros y. rewrite Hy, Ex. ring.
Qed.

(** A number below [2^(L i + s)] leaves the bits from [s] on of limb [i] free. *)
Lemma free_bits t i x s :
  limbs_ok t -> t !! i = Some x -> 0 <= s -> mp_val t < limb_base ^ Z.of_nat i * 2 ^ s -> 0 <= x < 2 ^ s.
Proof.
  intros Hok Hx Hs Hlt. destruct (limb_split t i x Hok Hx) as (hi & Ev & Hhi & Hlo & Hxok & _).
  unfold limb_ok in Hxok. split; [lia|]. pose proof limb_base_big as HB.
  assert (0 < limb_base ^ Z.of_nat i) as HP by (apply Z.pow_pos_nonneg; lia).
  assert (x + limb_base * hi < 2 ^ s) as H.
  { apply (Z.mul_lt_mono_pos_l (limb_base ^ Z.of_nat i)); [exact HP|]. lia. }
  assert (0 <= limb_base * hi) by (apply Z.mul_nonneg_nonneg; lia). lia.
Qed.

Lemma limb_mask_mod b : Z.land b (JS_LIMB_BITS - 1) = b mod JS_LIMB_BITS.
Proof.
  destruct limb_bits_cases as [-> | ->]; [apply (land_mask 5)|apply (land_mask 6)]; lia.
Qed.

Lemma tab_set_insert {A} (t : list A) i x :
  0 <= i < len t -> tab_set t i x = mret (<[Z.to_nat i := x]> t).
Proof.
  intros Hi. unfold tab_set. rewrite (proj2 (Z.leb_le _ _)), (proj2 (Z.ltb_lt _ _)) by lia. reflexivity.
Qed.

(** The two parts of a digit shifted across a limb boundary. *)
Lemma shifted_digit c shift :
  0 <= c -> 0 <= shift < JS_LIMB_BITS ->
  let x := js_limb (Z.shiftl c shift) in
  0 <= x /\ x + 2 ^ shift <= limb_base /\ (forall y, 0 <= y < 2 ^ shift -> Z.lor y x = y + x) /\
  x + limb_base * (c / 2 ^ (JS_LIMB_BITS - shift)) = c * 2 ^ shift.
Proof.
  intros Hc Hs x. set (k := JS_LIMB_BITS - shift).
  assert (limb_base = 2 ^ k * 2 ^ shift) as EB by (unfold limb_base, k; rewrite <- Z.pow_add_r by lia; f_equal; lia).
  pose proof (scale_pos shift ltac:(lia)) as Ps. assert (0 < 2 ^ k) as Pk by (apply scale_pos; unfold k; lia).
  assert (x = c mod 2 ^ k * 2 ^ shift) as Ex.
  { unfold x. rewrite Z.shiftl_mul_pow2, js_limb_eq, EB by lia. apply Z.mul_mod_distr_r; lia. }
  pose proof (Z.mod_pos_bound c (2 ^ k) Pk) as Hm.
  assert (0 <= c mod 2 ^ k * 2 ^ shift) by (apply Z.mul_nonneg_nonneg; lia).
  assert ((c mod 2 ^ k + 1) * 2 ^ shift <= 2 ^ k * 2 ^ shift) by (apply Z.mul_le_mono_nonneg_r; lia).
  rewrite Ex, EB. split; [lia|]. split; [lia|]. split.
  - intros y Hy. rewrite <- Z.shiftl_mul_pow2 by lia. rewrite Z.lor_comm, shl_lor_add by lia.
    rewrite Z.shiftl_mul_pow2 by lia. ring.
  - rewrite (Z.div_mod c (2 ^ k)) at 3 by lia. ring.
Qed.

Lemma or_digit t bit_pos c lr :
  limbs_ok t -> 0 <= bit_pos -> 1 <= lr <= 32 -> 0 <= c < 2 ^ lr -> mp_val t < 2 ^ bit_pos ->
  bit_pos + lr < len t * JS_LIMB_BITS ->
  let shift := Z.land bit_pos (JS_LIMB_BITS - 1) in
  let pos := bit_pos / JS_LIMB_BITS in
  exists t',
    (y ← tab_get t pos;
     t ← tab_set t pos (Z.lor y (js_limb (Z.shiftl c shift)));
     if JS_LIMB_BITS <? shift + lr then
       z ← tab_get t (pos + 1);
       tab_set t (pos + 1) (Z.lor z (Z.shiftr c (JS_LIMB_BITS - shift)))
     else mret t : M (list Z)) = mret t' /\
    limbs_ok t' /\ len t' = len t /\ mp_val t' = mp_val t + c * 2 ^ bit_pos.
Proof.
  intros Hok Hbp Hlr Hc Hlt Hfit. cbv zeta. rewrite limb_mask_mod. pose proof limb_bits_pos as HL.
  set (shift := bit_pos mod JS_LIMB_BITS). set (pos := bit_pos / JS_LIMB_BITS).
  assert (0 <= shift < JS_LIMB_BITS) as Hsh by (apply Z.mod_pos_bound; lia).
  assert (0 <= pos) as Hpos by (apply Z.div_pos; lia).
  assert (bit_pos = JS_LIMB_BITS * pos + shift) as Ebp by (apply Z.div_mod; lia).
  assert (2 ^ bit_pos = limb_base ^ pos * 2 ^ shift) as Epow by (unfold pos, shift; apply pow2_split; lia).
  assert (pos < len t) as Hpl by (apply (Z.mul_lt_mono_pos_r JS_LIMB_BITS); lia).
  destruct (lookup_lt_is_Some_2 t (Z.to_nat pos)) as [y Hy]; [unfold len in Hpl; lia|].
  destruct (limb_split t (Z.to_nat pos) y Hok Hy) as (_ & _ & _ & _ & _ & Hset). rewrite Z2Nat.id in Hset by lia.
  assert (0 <= y < 2 ^ shift) as Hys.
  { apply (free_bits t (Z.to_nat pos) y shift Hok Hy); [lia|]. rewrite Z2Nat.id, <- Epow by lia. exact Hlt. }
  destruct (shifted_digit c shift ltac:(lia) Hsh) as (Hx0 & Hxb & Hor & Ex). cbv zeta in *.
  set (x := js_limb (Z.shiftl c shift)) in *. specialize (Hor y Hys).
  rewrite (tab_get_lookup t pos y), ret_bind, tab_set_insert, ret_bind, Hor by (lia || exact Hy).
  set (t1 := <[Z.to_nat pos := y + x]> t).
  assert (limbs_ok t1) as Hok1 by (apply Forall_insert; [exact Hok|unfold limb_ok; lia]).
  assert (len t1 = len t) as Hl1 by (unfold len, t1; rewrite length_insert; reflexivity).
  assert (mp_val t1 = mp_val t + limb_base ^ pos * x) as Ev1 by (unfold t1; rewrite Hset; ring).
  rewrite Epow in Hlt |- *. assert (0 < limb_base ^ pos) as HPp by (apply Z.pow_pos_nonneg; pose proof limb_base_big; lia).
  destruct (Z.ltb_spec JS_LIMB_BITS (shift + lr)) as [Hsplit|Hwhole].
  - assert (pos + 1 < len t) as Hpl2 by (apply (Z.mul_lt_mono_pos_r JS_LIMB_BITS); lia).
    destruct (lookup_lt_is_Some_2 t1 (Z.to_nat (pos + 1))) as [z Hz]; [unfold len in *; lia|].
    destruct (limb_split t1 (Z.to_nat (pos + 1)) z Hok1 Hz) as (_ & _ & _ & _ & _ & Hset2). rewrite Z2Nat.id in Hset2 by lia.
    assert (limb_base ^ (pos + 1) = limb_base ^ pos * limb_base) as Ep1 by (rewrite Z.pow_add_r, Z.pow_1_r by lia; ring).
    assert (z = 0) as ->.
    { assert (0 <= z < 2 ^ 0); [|lia]. apply (free_bits t1 (Z.to_nat (pos + 1)) z 0 Hok1 Hz); [lia|].
      rewrite Z2Nat.id, Ev1, Z.pow_0_r, Z.mul_1_r, Ep1 by lia.
      assert (limb_base ^ pos * (x + 2 ^ shift) <= limb_base ^ pos * limb_base) by (apply Z.mul_le_mono_nonneg_l; lia). lia. }
    rewrite (tab_get_lookup t1 (pos + 1) 0), ret_bind, tab_set_insert by (lia || exact Hz).
    eexists. split; [reflexivity|]. rewrite Z.lor_0_l, Z.shiftr_div_pow2 by lia.
    assert (0 < 2 ^ (JS_LIMB_BITS - shift)) as Pd by (apply scale_pos; lia).
    assert (0 <= c / 2 ^ (JS_LIMB_BITS - shift) <= c) as Hq
      by (split; [apply Z.div_pos; lia|apply Z.div_le_upper_bound; [lia|]; nia]).
    split; [apply Forall_insert; [exact Hok1|]|split; [unfold len; rewrite length_insert; exact Hl1|]].
    { unfold limb_ok, limb_base. assert (2 ^ lr <= 2 ^ JS_LIMB_BITS) by (apply Z.pow_le_mono_r; lia). lia. }
    rewrite Hset2, Ev1, Ep1, Z.sub_0_r.
    replace (c * (limb_base ^ pos * 2 ^ shift)) with (limb_base ^ pos * (c * 2 ^ shift)) by ring. rewrite <- Ex. ring.
  - eexists. split; [reflexivity|]. split; [exact Hok1|]. split; [exact Hl1|]. rewrite Ev1.
    rewrite Z.div_small in Ex; [transitivity (mp_val t + limb_base ^ pos * (c * 2 ^ shift)); [rewrite <- Ex|]; ring|].
    split; [lia|]. assert (2 ^ lr <= 2 ^ (JS_LIMB_BITS - shift)) by (apply Z.pow_le_mono_r; lia). lia.
Qed.

End BigIntParse.

(** ** Sizes *)

(** The bit count used for decimal digits is an upper bound. *)
Lemma ten_bits n : 0 <= n -> 10 ^ n <= 2 ^ ((n * 27 + 7) / 8).
Proof.
  intros Hn. set (b := (n * 27 + 7) / 8).
  assert (27 * n <= 8 * b) as Hb.
  { unfold b. pose proof (Z.div_mod (n * 27 + 7) 8 ltac:(lia)). pose proof (Z.mod_pos_bound (n * 27 + 7) 8 ltac:(lia)). lia. }
  assert (0 <= b) as Hb0 by lia. destruct (Z.le_gt_cases (10 ^ n) (2 ^ b)) as [H|H]; [exact H|exfalso].
  assert ((2 ^ b) ^ 8 < (10 ^ n) ^ 8) as Hlt by (apply Z.pow_lt_mono_l; lia).
  rewrite <- !Z.pow_mul_r in Hlt by lia.
  assert (10 ^ (n * 8) <= 2 ^ (b * 8)); [|lia].
  rewrite (Z.mul_comm n), Z.pow_mul_r by lia.
  transitivity ((2 ^ 27) ^ n); [apply Z.pow_le_mono_l; vm_compute; split; discriminate|].
  rewrite <- Z.pow_mul_r by lia. apply Z.pow_le_mono_r; lia.
Qed.

Section BigIntFromString.
Context `{LC : LimbConfig} `{FM : FreshMemory}.

(** One bit is left for the sign. *)
Lemma limbs_for_bits n_bits :
  0 <= n_bits -> Z.max 1 (n_bits / JS_LIMB_BITS + 1) = n_bits / JS_LIMB_BITS + 1 /\
  2 * 2 ^ n_bits <= limb_base ^ (n_bits / JS_LIMB_BITS + 1) /\ n_bits < (n_bits / JS_LIMB_BITS + 1) * JS_LIMB_BITS.
Proof.
  intros Hn. pose proof limb_bits_pos as HL. assert (0 <= n_bits / JS_LIMB_BITS) by (apply Z.div_pos; lia).
  split; [lia|].
  assert (n_bits = JS_LIMB_BITS * (n_bits / JS_LIMB_BITS) + n_bits mod JS_LIMB_BITS) as Ed by (apply Z.div_mod; lia).
  assert (0 <= n_bits mod JS_LIMB_BITS < JS_LIMB_BITS) as Hm by (apply Z.mod_pos_bound; lia).
  split; [|lia]. rewrite <- Z.pow_succ_r by lia. unfold limb_base. rewrite <- Z.pow_mul_r by lia.
  apply Z.pow_le_mono_r; lia.
Qed.

(** A number below half the base of its array is not negative. *)
Lemma sval_small_nonneg t : limbs_ok t -> 2 * mp_val t < mp_base t -> sval t = mp_val t.
Proof. intros Hok H. unfold sval. rewrite (proj2 (Z.leb_gt (mp_base t) (2 * mp_val t))) by lia. reflexivity. Qed.

(** ** The decimal case *)

Lemma decimal_limbs p (t : list Z) :
  valid 10 p -> 1 <= len t -> 2 * 10 ^ len p <= limb_base ^ len t ->
  exists t',
    (t ← tab_set t 0 0;
     '(t, l) ← decimal_loop (S (length p)) t 1 p;
     top ← tab_get t (l - 1);
     if negb (Z.shiftr top (JS_LIMB_BITS - 1) =? 0) then t ← tab_set t l 0; tab_slice t 0 (l + 1)
     else tab_slice t 0 l : M (list Z)) = mret t' /\
    limbs_ok t' /\ t' <> [] /\ sval t' = digits_val 10 0 p.
Proof.
  intros Hp Hl HN. destruct t as [|t0 tr]; [unfold len in Hl; simpl in Hl; lia|].
  rewrite (tab_set_app [] t0 0 tr 0 eq_refl : tab_set (t0 :: tr) 0 0 = mret (0 :: tr)), ret_bind.
  change (len (t0 :: tr)) with (len (0 :: tr)) in *. set (t := 0 :: tr) in *.
  assert (take (Z.to_nat 1) t = [0]) as Et1 by reflexivity.
  destruct (decimal_loop_spec (S (length p)) t 1 p Hp ltac:(lia)) as (t' & l & -> & H2 & H3 & H4 & H5 & H6).
  { lia. } { rewrite Et1. constructor; [apply limb_ok_0|constructor]. } { left. reflexivity. }
  { rewrite Et1. cbn [mp_val]. lia. }
  rewrite Et1 in H5, H6. cbn [mp_val] in H5, H6. replace (0 + limb_base * 0) with 0 in * by ring. rewrite ret_bind.
  set (V := digits_val 10 0 p) in *. pose proof (digits_val_bounds 10 p ltac:(lia) Hp) as HV. fold V in HV.
  set (w := take (Z.to_nat l) t') in *.
  assert (length w = Z.to_nat l) as Hw by (unfold w, len in *; rewrite length_take; lia).
  assert (w <> []) as Hwne by (intros E0; rewrite E0 in Hw; simpl in Hw; lia).
  destruct (tab_snoc w Hwne) as (lo & h & Elh).
  assert (t' = lo ++ h :: drop (Z.to_nat l) t') as Et'
    by (rewrite <- (take_drop (Z.to_nat l) t') at 1; fold w; rewrite Elh, <- app_assoc; reflexivity).
  assert (len lo = l - 1) as Hlo.
  { apply (f_equal length) in Elh. rewrite length_app in Elh. simpl in Elh. unfold len. lia. }
  assert (tab_get t' (l - 1) = mret h) as -> by (rewrite Et'; apply tab_get_app; lia). rewrite ret_bind.
  rewrite Elh in H4. pose proof H4 as Hok. apply limbs_ok_app in H4 as [Hlook Hh1]. inversion Hh1 as [|? ? Hh _]; subst.
  rewrite shiftr_top_bit by (try exact Hh; pose proof limb_bits_pos; lia).
  assert (mp_base w = limb_base ^ l) as Ebw by (unfold mp_base, len; rewrite Hw, Z2Nat.id by lia; reflexivity).
  pose proof (sval_snoc_neg lo h Hlook Hh) as Hneg. rewrite <- Elh in Hneg, Hok.
  pose proof (sval_neg_iff w Hok) as Hiff. rewrite H5, Ebw in Hiff.
  destruct (Z.leb_spec (2 ^ (JS_LIMB_BITS - 1)) h) as [Htop|Htop]; cbn [c_bool Z.eqb negb].
  - apply Z.ltb_lt in Hneg. apply Hiff in Hneg.
    assert (l < len t).
    { apply (Z.pow_lt_mono_r_iff limb_base); [pose proof limb_base_big; lia|apply len_nonneg|lia]. }
    rewrite tab_set_insert, ret_bind by lia. rewrite slice_prefix by (unfold len; rewrite length_insert; unfold len in *; lia).
    exists (w ++ [0]). split.
    + f_equal. replace (Z.to_nat (l + 1)) with (S (Z.to_nat l)) by lia.
      rewrite (take_S_r _ _ 0) by (apply list_lookup_insert_eq; unfold len in *; lia).
      rewrite take_insert_ge by lia. reflexivity.
    + split; [apply limbs_ok_app; split; [exact Hok|constructor; [apply limb_ok_0|constructor]]|].
      split; [intros E0; apply app_eq_nil in E0; destruct E0; discriminate|].
      rewrite sval_small_nonneg, val_snoc, H5; [ring| |].
      * apply limbs_ok_app. split; [exact Hok|constructor; [apply limb_ok_0|constructor]].
      * rewrite val_snoc, base_snoc, H5. pose proof (mp_val_bounds w Hok). pose proof limb_base_big.
        assert (mp_base w * 2 <= mp_base w * limb_base) by (apply Z.mul_le_mono_nonneg_l; lia). lia.
  - rewrite slice_prefix by lia. exists w. split; [reflexivity|]. split; [exact Hok|]. split; [exact Hwne|].
    apply Z.ltb_ge in Hneg. rewrite sval_small_nonneg, H5; [reflexivity|exact Hok|]. rewrite Ebw, H5.
    destruct (Z.lt_ge_cases (2 * V) (limb_base ^ l)) as [Hd|Hd]; [exact Hd|apply Hiff in Hd; lia].
Qed.

(** ** The power-of-two case *)

Lemma binary_limbs p lr n_limbs E :
  valid (2 ^ lr) p -> 1 <= lr <= 5 -> 1 <= n_limbs -> len p * lr < n_limbs * JS_LIMB_BITS ->
  mspec (for_up (Z.to_nat (len p)) 0 (binary_digit p (len p) lr (2 ^ lr)) (replicate (Z.to_nat n_limbs) 0))
    (fun t => limbs_ok t /\ len t = n_limbs /\ mp_val t = digits_val (2 ^ lr) 0 p) E.
Proof.
  intros Hp Hlr Hn Hfit. pose proof (len_nonneg p) as Hlp.
  assert (1 < 2 ^ lr) as Hr by (apply (Z.pow_lt_mono_r 2 0 lr); lia).
  eapply mspec_mono.
  - apply (mspec_for_up (fun i t => limbs_ok t /\ len t = n_limbs /\
      mp_val t = digits_val (2 ^ lr) 0 (drop (Z.to_nat (len p - i)) p)) E).
    + split; [apply limbs_ok_replicate, limb_ok_0|]. split; [rewrite len_replicate; lia|].
      rewrite mp_val_replicate_0, drop_ge by (unfold len; lia). reflexivity.
    + intros i t Hi (Hok & Hl & Ev). rewrite Z2Nat.id in Hi by lia. unfold binary_digit.
      destruct (lookup_lt_is_Some_2 p (Z.to_nat (len p - 1 - i))) as [x Hx]; [unfold len in *; lia|].
      rewrite (tab_get_lookup p _ x), ret_bind by (lia || exact Hx). cbv zeta.
      assert (to_digit x < 2 ^ lr) as Hd by (exact (Forall_lookup_1 _ _ _ _ Hp Hx)).
      pose proof (to_digit_nonneg x) as Hd0.
      rewrite (proj2 (Z.leb_gt (2 ^ lr) (to_digit x))) by lia.
      set (rest := drop (Z.to_nat (len p - i)) p) in *.
      assert (len rest = i) as Hlr' by (unfold rest, len in *; rewrite length_drop; lia).
      assert (drop (Z.to_nat (len p - (i + 1))) p = x :: rest) as Edrop.
      { replace (Z.to_nat (len p - (i + 1))) with (Z.to_nat (len p - 1 - i)) by (f_equal; lia).
        rewrite (drop_S p x _ Hx). unfold rest. do 2 f_equal. lia. }
      assert (valid (2 ^ lr) rest) as Hvr by (apply Forall_drop, Hp).
      pose proof (digits_val_bounds (2 ^ lr) rest Hr Hvr) as Hb. rewrite Hlr', <- Z.pow_mul_r, (Z.mul_comm lr) in Hb by lia.
      assert (0 <= i * lr) by (apply Z.mul_nonneg_nonneg; lia).
      assert ((i + 1) * lr <= len p * lr) by (apply Z.mul_le_mono_nonneg_r; lia).
      destruct (or_digit t (i * lr) (to_digit x) lr Hok) as (t' & Erun & Hok' & Hl' & Ev'); try lia.
      cbv zeta in Erun. rewrite Erun. apply mspec_ret. split; [exact Hok'|]. split; [lia|].
      rewrite Edrop. cbn [digits_val]. rewrite digits_val_acc, Hlr', Ev', Ev, <- Z.pow_mul_r, (Z.mul_comm lr) by lia. ring.
  - intros t (Hok & Hl & Ev). rewrite Z2Nat.id in Ev by lia. split; [exact Hok|]. split; [exact Hl|].
    rewrite Ev. f_equal. replace (Z.to_nat (len p - (0 + len p))) with 0%nat by lia. reflexivity.
  - intros e He. exact He.
Qed.

(** ** The whole function *)

Definition radix_ok (radix : Z) : Prop := radix = 10 \/ exists lr, radix = 2 ^ lr /\ 1 <= lr <= 5.

(** What a string of digits with an optional sign denotes. *)
Definition signed_digits (neg : bool) (ds : list Z) : list Z := if neg then CHAR_MINUS :: ds else ds.
Definition signed_val (neg : bool) (radix : Z) (ds : list Z) : Z :=
  if neg then - digits_val radix 0 ds else digits_val radix 0 ds.

Lemma strip_sign neg radix ds :
  valid radix ds -> radix <= 36 ->
  match signed_digits neg ds with
  | c :: p => if c =? CHAR_MINUS then (true, p) else (false, signed_digits neg ds)
  | [] => (false, signed_digits neg ds)
  end = (neg, ds).
Proof.
  intros Hv Hr. destruct neg; [reflexivity|]. cbn [signed_digits]. destruct Hv as [|c ds Hc _]; [reflexivity|].
  destruct (Z.eqb_spec c CHAR_MINUS) as [->|_]; [|reflexivity]. change (to_digit CHAR_MINUS) with 36 in Hc. lia.
Qed.

Lemma finish_parse (neg : bool) v t (E : exn -> Prop) :
  limbs_ok t -> t <> [] -> sval t = v -> (forall e, e = err_alloc -> E e) ->
  mspec (r ← js_bigint_normalize (MkBigInt t); if neg then js_bigint_neg r else mret r)
    (is_big (if neg then - v else v)) E.
Proof.
  intros Hok Hne Hv HE. eapply mspec_bind; [apply js_bigint_normalize_spec; split; assumption|].
  intros r (H1 & H2 & _). unfold bi_val at 2 in H2. cbn [tab] in H2. destruct neg.
  - eapply mspec_mono; [apply js_bigint_neg_spec, H1| |].
    + intros q (G1 & G2 & _). split; [exact G1|]. rewrite G2, H2, Hv. reflexivity.
    + intros e [-> _]. apply HE. reflexivity.
  - apply mspec_ret. split; [exact H1|]. rewrite H2. exact Hv.
Qed.

Lemma log2_radix_spec lr : 1 <= lr <= 5 -> 32 - clz32 (2 ^ lr - 1) = lr.
Proof.
  intros H. assert (lr = 1 \/ lr = 2 \/ lr = 3 \/ lr = 4 \/ lr = 5) as [->|[->|[->|[->| ->]]]] by lia; reflexivity.
Qed.

Lemma radix_ok_range radix : radix_ok radix -> 2 <= radix <= 36.
Proof.
  intros [->|(lr & -> & Hlr)]; [lia|]. assert (2 ^ lr <= 2 ^ 5) by (apply Z.pow_le_mono_r; lia).
  assert (2 ^ 1 <= 2 ^ lr) by (apply Z.pow_le_mono_r; lia). lia.
Qed.

Lemma js_bigint_from_string_spec neg ds radix :
  radix_ok radix -> valid radix ds ->
  mspec (js_bigint_from_string (signed_digits neg ds) radix)
    (is_big (signed_val neg radix ds)) (fun e => e = err_alloc).
Proof.
  intros Hr Hv. pose proof (radix_ok_range radix Hr) as [Hr2 Hr36].
  unfold js_bigint_from_string. rewrite (strip_sign neg radix ds Hv Hr36).
  destruct (skip_zeros_spec radix ds Hv) as [Hvp Ep]. set (p := skip_zeros ds) in *. unfold signed_val. rewrite <- Ep.
  clear Ep Hv. cbv zeta. pose proof (len_nonneg p) as Hlp.
  destruct (_ <? len p); [apply mspec_throw; reflexivity|].
  destruct Hr as [->|(lr & -> & Hlr)].
  - cbn [Z.eqb Pos.eqb]. set (n_bits := (len p * 27 + 7) / 8).
    assert (0 <= n_bits) as Hnb by (apply Z.div_pos; lia).
    destruct (limbs_for_bits n_bits Hnb) as (-> & Hsize & _).
    eapply mspec_bind.
    { eapply mspec_mono; [apply js_bigint_new_spec|intros r Hr; exact Hr|intros e [-> _]; reflexivity].
      pose proof limb_bits_pos. assert (0 <= n_bits / JS_LIMB_BITS) by (apply Z.div_pos; lia). lia. }
    intros r Hr. cbv beta in Hr. pose proof (ten_bits (len p) Hlp) as Hten. fold n_bits in Hten.
    assert (0 <= n_bits / JS_LIMB_BITS) by (pose proof limb_bits_pos; apply Z.div_pos; lia).
    destruct (decimal_limbs p (tab r) Hvp) as (t & Erun & Hok & Hne & Es); [lia|rewrite Hr; lia|].
    rewrite Erun, ret_bind. apply finish_parse; [assumption..|auto].
  - rewrite (proj2 (Z.eqb_neq (2 ^ lr) 10)), log2_radix_spec
      by (try exact Hlr; assert (lr = 1 \/ lr = 2 \/ lr = 3 \/ lr = 4 \/ lr = 5) as [->|[->|[->|[->| ->]]]] by lia; discriminate).
    assert (0 <= len p * lr) as Hnb by (apply Z.mul_nonneg_nonneg; lia).
    destruct (limbs_for_bits (len p * lr) Hnb) as (-> & Hsize & Hfit).
    assert (0 <= len p * lr / JS_LIMB_BITS) by (pose proof limb_bits_pos; apply Z.div_pos; lia).
    eapply mspec_bind.
    { eapply mspec_mono; [apply js_bigint_new_spec; lia|intros r Hr; exact Hr|intros e [-> _]; reflexivity]. }
    intros r Hr. cbv beta in Hr.
    eapply mspec_bind; [apply (binary_limbs p lr); [exact Hvp|exact Hlr|lia|exact Hfit]|].
    intros t (Hok & Hl & Ev).
    assert (1 < 2 ^ lr) as H1r by lia.
    pose proof (digits_val_bounds (2 ^ lr) p H1r Hvp) as Hb. rewrite <- Z.pow_mul_r, (Z.mul_comm lr) in Hb by lia.
    apply finish_parse; [exact Hok| | |auto].
    + intros E0. rewrite E0 in Hl. change (len (@nil Z)) with 0 in Hl. lia.
    + rewrite sval_small_nonneg; [exact Ev|exact Hok|]. unfold mp_base. rewrite Hl, Ev. lia.
Qed.

End BigIntFromString.
