(* ===== verification/BigIntToString.v ===== *)
(** [js_bigint_to_string1] prints the digits of the number, inside the buffer it
    allocated, and [js_bigint_from_string] reads them back.

    [js_bigint_to_string1]: the power-of-two radices, the whole function, and
    the round trip with [js_bigint_from_string]. *)
From stdpp Require Import base tactics list numbers.
From Stdlib Require Import ZArith Lia.
From S2P Require Import Prelude Float64 Limbs LimbSpecs BigInt BigIntMul BigIntDivRem BigIntBits BigIntPow BigIntInterface BigIntString BigIntParse.

Open Scope Z_scope.

(** ** Characters *)

Lemma digit_char d : 0 <= d < 36 -> exists c, tab_get digits d = mret c /\ to_digit c = d.
Proof.
  intros Hd. assert (forall k, (k < 36)%nat -> exists c, digits !! k = Some c /\ to_digit c = Z.of_nat k) as H.
  { intros k Hk. do 36 (destruct k as [|k]; [eexists; split; reflexivity|]). lia. }
  destruct (H (Z.to_nat d) ltac:(lia)) as (c & Hc & Ec). exists c. split; [|lia].
  apply tab_get_lookup; [lia|exact Hc].
Qed.

Lemma put_room c room s : 1 <= room -> put c (room, s) = mret (room - 1, c :: s).
Proof. intros H. unfold put. rewrite (proj2 (Z.ltb_lt 0 room)) by lia. reflexivity. Qed.

(** [ds] are the digits of [N] without leading zero. *)
Definition canonical_digits (radix N : Z) (ds : list Z) : Prop :=
  valid radix ds /\ digits_val radix 0 ds = N /\ exists c ds', ds = c :: ds' /\ to_digit c <> 0.

(** The output [q] is the digits of [N] in front of [s], with [res] bytes left. *)
Definition printed (radix res N : Z) (s : list Z) (q : Z * list Z) : Prop :=
  exists ds room', q = (room', ds ++ s) /\ canonical_digits radix N ds /\ res <= room'.

Lemma digits_val_snoc radix ds c : digits_val radix 0 (ds ++ [c]) = digits_val radix 0 ds * radix + to_digit c.
Proof. rewrite digits_val_app. reflexivity. Qed.

Lemma canonical_snoc radix N ds c :
  canonical_digits radix N ds -> to_digit c < radix -> canonical_digits radix (N * radix + to_digit c) (ds ++ [c]).
Proof.
  intros (H1 & H2 & d & ds' & -> & Hd) Hc. split; [|split].
  - apply Forall_app. split; [exact H1|constructor; [exact Hc|constructor]].
  - rewrite digits_val_snoc, H2. reflexivity.
  - exists d, (ds' ++ [c]). split; [reflexivity|exact Hd].
Qed.

(** Room for the remaining digits. *)
Lemma room_step radix N room res k :
  2 <= radix -> 0 <= k -> radix ^ k <= N < radix ^ (room - res) -> 0 <= room - res ->
  k < room - res /\ 0 <= N / radix ^ k < radix ^ (room - k - res) /\ 1 <= N / radix ^ k.
Proof.
  intros Hr Hk HN Hroom. assert (k < room - res) as Hlt by (apply (Z.pow_lt_mono_r_iff radix); lia).
  assert (0 < radix ^ k) by (apply Z.pow_pos_nonneg; lia).
  split; [exact Hlt|]. split; [split|].
  - apply Z.div_pos; lia.
  - apply Z.div_lt_upper_bound; [lia|]. rewrite <- Z.pow_add_r by lia. replace (k + (room - k - res)) with (room - res) by lia. lia.
  - apply Z.div_le_lower_bound; lia.
Qed.

Lemma u64toa_loop_spec fuel n base res room s :
  2 <= base <= 36 -> 1 <= n < 2 ^ Z.of_nat fuel -> n < base ^ (room - res) -> 0 <= room - res -> 0 <= res ->
  exists q, u64toa_loop fuel n base (room, s) = mret q /\ printed base res n s q.
Proof.
  intros Hb. revert n room s. induction fuel as [|fuel IH]; intros n room s Hn Hroom Hrr Hres;
    [simpl Z.of_nat in Hn; rewrite Z.pow_0_r in Hn; lia|].
  cbn [u64toa_loop]. pose proof (Z.mod_pos_bound n base ltac:(lia)) as Hm.
  destruct (digit_char (n mod base)) as (c & -> & Ec); [lia|]. rewrite ret_bind.
  assert (0 < room - res) as Hpos by (apply (Z.pow_lt_mono_r_iff base); [lia|lia|rewrite Z.pow_0_r; lia]).
  rewrite put_room, ret_bind by lia.
  pose proof (Z.div_mod n base ltac:(lia)) as Ed.
  destruct (Z.eqb_spec (n / base) 0) as [E0|Hne]; cbn [negb].
  - eexists. split; [reflexivity|]. exists [c], (room - 1). split; [reflexivity|]. split; [|lia].
    split; [constructor; [lia|constructor]|]. split; [cbn [digits_val]; lia|]. exists c, []. split; [reflexivity|lia].
  - assert (0 <= n / base) by (apply Z.div_pos; lia).
    destruct (IH (n / base) (room - 1) (c :: s)) as (q & Eq & ds & room' & -> & Hds & Hr'); try lia.
    + split; [lia|]. apply Z.div_lt_upper_bound; [lia|]. rewrite Nat2Z.inj_succ, Z.pow_succ_r in Hn by lia.
      assert (2 * 2 ^ Z.of_nat fuel <= base * 2 ^ Z.of_nat fuel) by (apply Z.mul_le_mono_nonneg_r; lia). lia.
    + apply Z.div_lt_upper_bound; [lia|]. rewrite <- Z.pow_succ_r by lia. replace (Z.succ (room - 1 - res)) with (room - res) by lia. lia.
    + eexists. split; [exact Eq|]. exists (ds ++ [c]), room'. split; [rewrite <- app_assoc; reflexivity|]. split; [|exact Hr'].
      replace n with (n / base * base + to_digit c) by lia. apply canonical_snoc; [exact Hds|lia].
Qed.

Lemma limb_to_a_spec k v radix room s :
  2 <= radix <= 36 -> 0 <= v -> Z.of_nat k <= room ->
  exists ds, limb_to_a (room, s) v radix k = mret (room - Z.of_nat k, ds ++ s) /\
    length ds = k /\ valid radix ds /\ digits_val radix 0 ds = v mod radix ^ Z.of_nat k.
Proof.
  intros Hr. revert v room s. induction k as [|k IH]; intros v room s Hv Hroom; cbn [limb_to_a].
  - exists []. split; [f_equal; f_equal; lia|]. split; [reflexivity|]. split; [constructor|].
    rewrite Z.pow_0_r, Z.mod_1_r. reflexivity.
  - pose proof (Z.mod_pos_bound v radix ltac:(lia)) as Hm. destruct (digit_char (v mod radix)) as (c & -> & Ec); [lia|].
    rewrite ret_bind, put_room, ret_bind by lia.
    destruct (IH (v / radix) (room - 1) (c :: s)) as (ds & E & H1 & H2 & H3); [apply Z.div_pos; lia|lia|].
    exists (ds ++ [c]). rewrite E, <- app_assoc. split; [f_equal; f_equal; lia|].
    split; [rewrite length_app; simpl; lia|]. split; [apply Forall_app; split; [exact H2|constructor; [lia|constructor]]|].
    rewrite digits_val_snoc, H3, Nat2Z.inj_succ, Z.pow_succ_r, Ec by lia.
    rewrite Z.rem_mul_r by (try apply Z.pow_pos_nonneg; lia). ring.
Qed.

Section BigIntToString.
Context `{LC : LimbConfig} `{FM : FreshMemory}.

(** ** Radices that are not powers of two *)

Definition general_radix (radix : Z) : Prop := 2 <= radix <= 36 /\ Z.land radix (radix - 1) <> 0.

(** The tables: a limb holds [per_limb] digits and the base is their number. *)
Lemma radix_tables radix :
  general_radix radix ->
  exists b k, tab_get radix_base_table (radix - 2) = mret b /\ tab_get digits_per_limb_table (radix - 2) = mret k /\
    1 <= k /\ b = radix ^ k /\ limb_ok b.
Proof.
  intros [Hr Hl].
  assert (forall n, (n < 35)%nat -> Z.land (Z.of_nat n + 2) (Z.of_nat n + 2 - 1) <> 0 ->
    exists b k, radix_base_table !! n = Some b /\ digits_per_limb_table !! n = Some k /\
      1 <= k /\ b = (Z.of_nat n + 2) ^ k /\ 0 <= b < 2 ^ JS_LIMB_BITS) as H.
  { intros n Hn Hln. unfold radix_base_table, digits_per_limb_table.
    destruct limb_bits_cases as [-> | ->]; cbn [Z.eqb Pos.eqb];
      do 35 (destruct n as [|n]; [first [exfalso; apply Hln; reflexivity
        | do 2 eexists; split; [reflexivity|]; split; [reflexivity|]; split; [lia|]; split; [reflexivity|lia]]|]); lia. }
  destruct (H (Z.to_nat (radix - 2))) as (b & k & Hb & Hk & H1 & H2 & H3); [lia|rewrite Z2Nat.id by lia; replace (radix - 2 + 2) with radix by lia; exact Hl|].
  exists b, k. rewrite Z2Nat.id in H2 by lia. replace (radix - 2 + 2) with radix in H2 by lia.
  split; [apply tab_get_lookup; [lia|exact Hb]|]. split; [apply tab_get_lookup; [lia|exact Hk]|].
  split; [exact H1|]. split; [exact H2|exact H3].
Qed.

Lemma strip_take t :
  limbs_ok t -> t <> [] ->
  let t' := take (strip_zeros t (length t)) t in
  limbs_ok t' /\ mp_val t' = mp_val t /\ (1 <= length t')%nat /\ (length t' = 1%nat \/ limb_base ^ (len t' - 1) <= mp_val t).
Proof.
  intros Hok Hne t'. assert (1 <= length t)%nat as Hl by (destruct t; [congruence|simpl; lia]).
  destruct (strip_zeros_spec t (length t)) as (H1 & H2 & H3); [lia|]. cbv zeta in *.
  set (n := strip_zeros t (length t)) in *. rewrite (take_ge t (length t)) in H2 by lia.
  assert (length t' = n) as Hn by (unfold t'; rewrite length_take; lia).
  split; [apply limbs_ok_take, Hok|]. split; [exact H2|]. split; [lia|].
  destruct H3 as [H3|H3]; [left; lia|]. destruct (Nat.eq_dec n 1) as [E1|Hn1]; [left; lia|right].
  destruct (lookup_lt_is_Some_2 t (n - 1) ltac:(lia)) as [h Hh]. rewrite (list_lookup_total_correct _ _ _ Hh) in H3.
  destruct (limb_split t (n - 1) h Hok Hh) as (hi & Ev & Hhi & Hlo & Hho & _). unfold limb_ok in Hho.
  unfold len. rewrite Hn, Ev. replace (Z.of_nat n - 1) with (Z.of_nat (n - 1)) by lia.
  pose proof limb_base_big. assert (0 < limb_base ^ Z.of_nat (n - 1)) by (apply Z.pow_pos_nonneg; lia).
  assert (0 <= limb_base * hi) by (apply Z.mul_nonneg_nonneg; lia).
  assert (limb_base ^ Z.of_nat (n - 1) * 1 <= limb_base ^ Z.of_nat (n - 1) * (h + limb_base * hi)) by (apply Z.mul_le_mono_nonneg_l; lia).
  lia.
Qed.

Lemma single_value (t : list Z) : length t = 1%nat -> exists x, t = [x] /\ mp_val t = x.
Proof. intros H. destruct t as [|x [|? ?]]; simpl in H; try lia. exists x. split; [reflexivity|cbn; lia]. Qed.

Lemma radix_loop_spec fuel t radix b k room s res :
  2 <= radix <= 36 -> 1 <= k -> b = radix ^ k -> limb_ok b -> limbs_ok t -> t <> [] ->
  1 <= mp_val t < 2 ^ Z.of_nat fuel -> mp_val t < radix ^ (room - res) -> 0 <= room - res -> 0 <= res ->
  exists q, radix_loop fuel t radix b k (room, s) = mret q /\ printed radix res (mp_val t) s q.
Proof.
  intros Hr Hk Eb Hbok. revert t room s. induction fuel as [|fuel IH]; intros t room s Hok Hne HN Hroom Hrr Hres;
    [simpl Z.of_nat in HN; rewrite Z.pow_0_r in HN; lia|].
  cbn [radix_loop]. destruct (strip_take t Hok Hne) as (Hok' & Ev' & Hl' & Htop). cbv zeta in *.
  set (t' := take (strip_zeros t (length t)) t) in *. clearbody t'. rewrite <- Ev' in *. clear Ev' Hok Hne t.
  pose proof limb_base_big as HB. unfold limb_ok in Hbok.
  assert (2 <= b) as Hb2.
  { rewrite Eb. assert (radix ^ 1 <= radix ^ k) by (apply Z.pow_le_mono_r; lia). rewrite Z.pow_1_r in *. lia. }
  assert (exists x, t' !! 0%nat = Some x) as [x Hx] by (apply lookup_lt_is_Some_2; lia).
  rewrite (tab_get_lookup t' 0 x), ret_bind by (lia || exact Hx).
  destruct ((len t' =? 1) && (x <? b)) eqn:Elast.
  - apply andb_true_iff in Elast as [E1 E2]. apply Z.eqb_eq in E1. apply Z.ltb_lt in E2.
    destruct (single_value t') as (y & -> & Ey); [unfold len in E1; lia|]. injection Hx as ->. rewrite Ey in *.
    rewrite (proj2 (Z.eqb_neq x 0)) by lia. cbn [negb]. unfold js_u64toa.
    apply u64toa_loop_spec; try assumption; try lia. split; [lia|].
    inversion Hok' as [|? ? Hxok _]; subst. unfold limb_ok, limb_base in Hxok.
    assert (2 ^ JS_LIMB_BITS <= 2 ^ Z.of_nat 64) by (apply Z.pow_le_mono_r; [lia|destruct limb_bits_cases; lia]). lia.
  - assert (b <= mp_val t') as HNb.
    { destruct (Nat.eq_dec (length t') 1) as [E1|Hn1].
      - destruct (single_value t' E1) as (y & -> & Ey). injection Hx as ->. rewrite Ey.
        change (len [x] =? 1) with true in Elast. cbn [andb] in Elast. apply Z.ltb_ge in Elast. exact Elast.
      - destruct Htop as [Htop|Htop]; [contradiction|].
        assert (limb_base ^ 1 <= limb_base ^ (len t' - 1)) by (apply Z.pow_le_mono_r; unfold len; lia).
        rewrite Z.pow_1_r in *. lia. }
    pose proof (mp_div1_spec t' b 0 Hok' Hbok ltac:(lia)) as Hdiv. destruct (mp_div1 t' b 0) as [tq v].
    destruct Hdiv as (Hqok & Hql & Hv & Eq). rewrite Z.mul_0_l, Z.add_0_l in Eq.
    assert (mp_val tq = mp_val t' / b) as Equot by (apply (Z.div_unique_pos _ _ _ v); lia).
    rewrite Eb in HNb. destruct (room_step radix (mp_val t') room res k) as (Hkr & Hq1 & Hq2); [lia|lia|split; [exact HNb|exact Hroom]|exact Hrr|].
    rewrite <- Eb, <- Equot in Hq1, Hq2.
    destruct (limb_to_a_spec (Z.to_nat k) v radix room s Hr ltac:(lia) ltac:(lia)) as (ds & -> & Hlds & Hvds & Eds).
    rewrite ret_bind. rewrite Z2Nat.id in * by lia. rewrite <- Eb, Z.mod_small in Eds by lia.
    destruct (IH tq (room - k) (ds ++ s)) as (q & Erun & ds' & room' & -> & (Hc1 & Hc2 & Hc3) & Hr'); try assumption; try lia.
    { intros E0. rewrite E0 in Hql. simpl in Hql. lia. }
    { split; [lia|]. rewrite Equot. apply Z.div_lt_upper_bound; [lia|]. rewrite Nat2Z.inj_succ, Z.pow_succ_r in HN by lia.
      assert (2 * 2 ^ Z.of_nat fuel <= b * 2 ^ Z.of_nat fuel) by (apply Z.mul_le_mono_nonneg_r; lia). lia. }
    eexists. split; [exact Erun|]. exists (ds' ++ ds), room'. split; [rewrite <- app_assoc; reflexivity|]. split; [|exact Hr'].
    split; [apply Forall_app; split; assumption|]. split.
    + rewrite digits_val_app, Hc2, digits_val_acc, Eds. unfold len. rewrite Hlds, Z2Nat.id, <- Eb by lia. lia.
    + destruct Hc3 as (c & dc & -> & Hc). exists c, (dc ++ ds). split; [reflexivity|exact Hc].
Qed.

End BigIntToString.

Section BigIntPrint.
Context `{LC : LimbConfig} `{FM : FreshMemory}.

(** ** Bits of an array *)

Lemma testbit_limb t pos x b :
  limbs_ok t -> 0 <= pos -> t !! Z.to_nat pos = Some x -> 0 <= b < JS_LIMB_BITS ->
  Z.testbit (mp_val t) (pos * JS_LIMB_BITS + b) = Z.testbit x b.
Proof.
  intros Hok Hp Hx Hb. destruct (limb_split t _ x Hok Hx) as (hi & Ev & Hhi & Hlo & Hxok & _).
  rewrite Z2Nat.id in * by lia. pose proof limb_bits_pos.
  assert (limb_base ^ pos = 2 ^ (pos * JS_LIMB_BITS)) as Ep by (unfold limb_base; rewrite <- Z.pow_mul_r by lia; f_equal; lia).
  rewrite Z.add_comm, <- Z.div_pow2_bits by lia.
  assert (mp_val t / 2 ^ (pos * JS_LIMB_BITS) = x + limb_base * hi) as ->
    by (symmetry; apply (Z.div_unique_pos _ _ _ (mp_val (take (Z.to_nat pos) t))); lia).
  rewrite <- (Z.mod_pow2_bits_low (x + limb_base * hi) JS_LIMB_BITS) by lia.
  fold limb_base. rewrite (Z.mul_comm limb_base hi), Z.mod_add by (pose proof limb_base_big; lia).
  rewrite Z.mod_small by exact Hxok. reflexivity.
Qed.

Lemma testbit_above t i : limbs_ok t -> len t * JS_LIMB_BITS <= i -> Z.testbit (mp_val t) i = false.
Proof.
  intros Hok Hi. pose proof (mp_val_bounds t Hok) as Hb. pose proof limb_bits_pos. pose proof (len_nonneg t).
  assert (0 <= len t * JS_LIMB_BITS) by (apply Z.mul_nonneg_nonneg; lia).
  assert (mp_base t = 2 ^ (len t * JS_LIMB_BITS)) as E
    by (unfold mp_base, limb_base; rewrite <- Z.pow_mul_r by lia; f_equal; lia).
  rewrite E in Hb. rewrite <- (Z.mod_small (mp_val t) (2 ^ (len t * JS_LIMB_BITS))) by lia.
  apply Z.mod_pow2_bits_high. lia.
Qed.

Lemma testbit_limb_above x b : limb_ok x -> JS_LIMB_BITS <= b -> Z.testbit x b = false.
Proof.
  intros Hx Hb. pose proof limb_bits_pos. unfold limb_ok, limb_base in Hx.
  rewrite <- (Z.mod_small x (2 ^ JS_LIMB_BITS)) by lia. apply Z.mod_pow2_bits_high. lia.
Qed.

Lemma testbit_low32 x i : 0 <= i < 32 -> Z.testbit (wrap 32 x) i = Z.testbit x i.
Proof. intros Hi. unfold wrap. apply Z.mod_pow2_bits_low. lia. Qed.

Lemma testbit_limb_low x i : 0 <= i < JS_LIMB_BITS -> Z.testbit (js_limb x) i = Z.testbit x i.
Proof. intros Hi. rewrite js_limb_eq. apply Z.mod_pow2_bits_low. lia. Qed.

(** ** Power-of-two radices *)

(** The character written in round [i] is the digit of weight [radix^i]. *)
Lemma binary_char_spec t lr i room s :
  limbs_ok t -> 1 <= lr <= 5 -> 0 <= i -> i * lr < len t * JS_LIMB_BITS -> 1 <= room ->
  exists c, binary_char t lr (2 ^ lr) i (room, s) = mret (room - 1, c :: s) /\
    to_digit c = mp_val t / 2 ^ (i * lr) mod 2 ^ lr.
Proof.
  intros Hok Hlr Hi Hin Hroom. unfold binary_char. cbv zeta. pose proof limb_bits_pos as HL.
  assert (0 <= i * lr) as Hbp by (apply Z.mul_nonneg_nonneg; lia).
  set (bp := i * lr) in *. assert (JS_LIMB_BITS <> 0 /\ 0 < JS_LIMB_BITS) as [HL0 HL1] by lia. pose proof (Z.div_mod bp JS_LIMB_BITS HL0) as Ebp.
  pose proof (Z.mod_pos_bound bp JS_LIMB_BITS HL1) as Hsh.
  set (pos := bp / JS_LIMB_BITS) in *. set (sh := bp mod JS_LIMB_BITS) in *.
  assert (0 <= pos) as Hpos by (apply Z.div_pos; lia).
  assert (pos < len t) as Hpl by (apply (Z.mul_lt_mono_pos_r JS_LIMB_BITS); lia).
  destruct (lookup_lt_is_Some_2 t (Z.to_nat pos)) as [x Hx]; [unfold len in Hpl; lia|].
  assert (limb_ok x) as Hxok by (apply (Forall_lookup_1 _ _ _ _ Hok Hx)).
  rewrite (tab_get_lookup t pos x), ret_bind by (lia || exact Hx).
  assert (exists c, (if (JS_LIMB_BITS <? sh + lr) && (pos + 1 <? len t) then
         y ← tab_get t (pos + 1);
         mret (Z.lor (wrap 32 (Z.shiftr x sh)) (wrap 32 (js_limb (Z.shiftl y (JS_LIMB_BITS - sh)))))
       else mret (wrap 32 (Z.shiftr x sh))) = (mret c : M Z) /\
       forall k, 0 <= k < lr -> Z.testbit c k = Z.testbit (mp_val t) (bp + k)) as (c & -> & Hc).
  { destruct (Z.ltb_spec JS_LIMB_BITS (sh + lr)) as [Hx1|Hx1]; [destruct (Z.ltb_spec (pos + 1) (len t)) as [Hx2|Hx2]|]; cbn [andb].
    - destruct (lookup_lt_is_Some_2 t (Z.to_nat (pos + 1))) as [y Hy]; [unfold len in Hx2; lia|].
      rewrite (tab_get_lookup t (pos + 1) y), ret_bind by (lia || exact Hy).
      eexists. split; [reflexivity|]. intros k Hk.
      rewrite Z.lor_spec, !testbit_low32, testbit_limb_low, Z.shiftr_spec by lia.
      rewrite Z.shiftl_spec by lia. destruct (Z.lt_ge_cases (k + sh) JS_LIMB_BITS) as [Hk1|Hk1].
      + rewrite (Z.testbit_neg_r y) by lia. rewrite orb_false_r, <- (testbit_limb t pos x (k + sh) Hok Hpos Hx) by lia. f_equal. lia.
      + rewrite (testbit_limb_above x) by assumption. cbn [orb].
        rewrite <- (testbit_limb t (pos + 1) y (k - (JS_LIMB_BITS - sh)) Hok) by (lia || exact Hy). f_equal. lia.
    - eexists. split; [reflexivity|]. intros k Hk. rewrite testbit_low32, Z.shiftr_spec by lia.
      assert (pos + 1 = len t) as Epl by lia. destruct (Z.lt_ge_cases (k + sh) JS_LIMB_BITS) as [Hk1|Hk1].
      + rewrite <- (testbit_limb t pos x (k + sh) Hok Hpos Hx) by lia. f_equal. lia.
      + rewrite (testbit_limb_above x) by assumption. symmetry. apply testbit_above; [exact Hok|]. rewrite <- Epl. lia.
    - eexists. split; [reflexivity|]. intros k Hk. rewrite testbit_low32, Z.shiftr_spec by lia.
      rewrite <- (testbit_limb t pos x (k + sh) Hok Hpos Hx) by lia. f_equal. lia. }
  rewrite ret_bind, land_mask by lia.
  assert (c mod 2 ^ lr = mp_val t / 2 ^ bp mod 2 ^ lr) as Ec.
  { apply Z.bits_inj'. intros k Hk. destruct (Z.lt_ge_cases k lr).
    - rewrite !Z.mod_pow2_bits_low, Z.div_pow2_bits by lia. rewrite Hc by lia. f_equal. lia.
    - rewrite !Z.mod_pow2_bits_high by lia. reflexivity. }
  rewrite Ec. assert (2 ^ lr <= 2 ^ 5) by (apply Z.pow_le_mono_r; lia).
  pose proof (Z.mod_pos_bound (mp_val t / 2 ^ bp) (2 ^ lr) ltac:(lia)) as Hm.
  destruct (digit_char (mp_val t / 2 ^ bp mod 2 ^ lr)) as (d & -> & Ed); [lia|].
  exists d. rewrite ret_bind, put_room by exact Hroom. split; [reflexivity|exact Ed].
Qed.

(** A nonzero number without room for fewer digits starts with a nonzero digit. *)
Lemma leading_digit radix N ds :
  1 < radix -> valid radix ds -> digits_val radix 0 ds = N -> 1 <= len ds -> radix ^ (len ds - 1) <= N ->
  canonical_digits radix N ds.
Proof.
  intros Hr Hv Ev Hl HN. split; [exact Hv|]. split; [exact Ev|].
  destruct ds as [|c ds]; [change (len (@nil Z)) with 0 in Hl; lia|]. exists c, ds. split; [reflexivity|]. intros E0.
  inversion Hv as [|? ? _ Hv']; subst. rewrite len_cons in HN. cbn [digits_val] in HN. rewrite E0 in HN.
  pose proof (digits_val_bounds radix ds Hr Hv') as Hb. replace (1 + len ds - 1) with (len ds) in HN by lia.
  change (0 * radix + 0) with 0 in HN. lia.
Qed.

Lemma binary_run t lr n room :
  limbs_ok t -> 1 <= lr <= 5 -> 1 <= n -> n <= room -> (n - 1) * lr < len t * JS_LIMB_BITS ->
  (2 ^ lr) ^ (n - 1) <= mp_val t < (2 ^ lr) ^ n ->
  mspec (for_up (Z.to_nat n) 0 (binary_char t lr (2 ^ lr)) (room, []))
    (printed (2 ^ lr) (room - n) (mp_val t) []) no_exn.
Proof.
  intros Hok Hlr Hn Hroom Hlen HN. assert (2 ^ 1 <= 2 ^ lr) as H2 by (apply Z.pow_le_mono_r; lia). change (2 ^ 1) with 2 in H2.
  eapply mspec_mono.
  - apply (mspec_for_up (fun i q => exists ds, q = (room - i, ds) /\ valid (2 ^ lr) ds /\ len ds = i /\
      digits_val (2 ^ lr) 0 ds = mp_val t mod (2 ^ lr) ^ i)).
    + exists []. rewrite Z.pow_0_r, Z.mod_1_r. split; [f_equal; lia|]. split; [constructor|]. split; reflexivity.
    + intros j q Hj (ds & -> & Hv & Hl & Ev). rewrite Z2Nat.id in Hj by lia.
      destruct (binary_char_spec t lr j (room - j) ds) as (c & -> & Ec); try assumption; try lia.
      { assert (j * lr <= (n - 1) * lr) by (apply Z.mul_le_mono_nonneg_r; lia). lia. }
      apply mspec_ret. exists (c :: ds). split; [f_equal; lia|].
      pose proof (Z.mod_pos_bound (mp_val t / 2 ^ (j * lr)) (2 ^ lr) ltac:(lia)) as Hm.
      split; [constructor; [lia|exact Hv]|]. split; [rewrite len_cons; lia|].
      cbn [digits_val]. rewrite digits_val_acc, Ev, Hl, Z.mul_0_l, Z.add_0_l, Ec.
      rewrite Z.pow_add_r, Z.pow_1_r by lia. rewrite Z.rem_mul_r by (try apply Z.pow_pos_nonneg; lia).
      rewrite <- Z.pow_mul_r, (Z.mul_comm lr j) by lia. ring.
  - intros q (ds & -> & Hv & Hl & Ev). rewrite Z.add_0_l, Z2Nat.id in * by lia.
    exists ds, (room - n). rewrite app_nil_r. split; [reflexivity|]. split; [|lia].
    pose proof (digits_val_bounds (2 ^ lr) ds ltac:(lia) Hv). rewrite Z.mod_small in Ev by lia.
    apply leading_digit; [lia|exact Hv|exact Ev|lia|rewrite Hl; lia].
  - intros e He. exact He.
Qed.

(** ** Size of the buffer *)

Definition n_bits_of (r : JSBigInt) : Z := bi_len r * JS_LIMB_BITS - js_limb_safe_clz (top_limb r).

Lemma n_bits_spec r :
  bi_norm r -> 1 <= bi_val r ->
  mp_val (tab r) = bi_val r /\ 1 <= n_bits_of r <= bi_len r * JS_LIMB_BITS /\
  2 ^ (n_bits_of r - 1) <= bi_val r < 2 ^ n_bits_of r.
Proof.
  intros Hn Hv. pose proof (norm_lower r Hn ltac:(lia)) as Hlow. destruct r as [t]. destruct Hn as [[Hok Hne] _].
  unfold n_bits_of, bi_val, bi_len in *. cbn [tab] in *. pose proof (mp_val_sval t Hok) as Ev.
  rewrite (proj2 (Z.ltb_ge (sval t) 0)) in Ev by lia. cbn [c_bool] in Ev. rewrite Z.mul_0_l, Z.add_0_r in Ev.
  split; [exact Ev|]. rewrite <- Ev in *. clear Ev. destruct (tab_snoc t Hne) as (lo & h & ->).
  apply limbs_ok_app in Hok. destruct Hok as [Hlo Hh]. inversion Hh as [|? ? Hhok _]; subst. clear Hh Hne.
  rewrite top_limb_snoc, val_snoc in *. rewrite len_app in *. change (len [h]) with 1 in *.
  pose proof (mp_val_bounds lo Hlo) as Hb. pose proof limb_bits_pos as HL. pose proof (len_nonneg lo) as Hll.
  unfold mp_base in *. replace (len lo + 1 - 1) with (len lo) in Hlow by lia.
  assert (limb_base ^ len lo = 2 ^ (len lo * JS_LIMB_BITS)) as Ep by (unfold limb_base; rewrite <- Z.pow_mul_r by lia; f_equal; lia).
  assert (0 <= len lo * JS_LIMB_BITS) by (apply Z.mul_nonneg_nonneg; lia).
  unfold js_limb_safe_clz. destruct (Z.eqb_spec h 0) as [->|Hh0].
  - rewrite Z.mul_0_r, Z.add_0_r in *. replace ((len lo + 1) * JS_LIMB_BITS - JS_LIMB_BITS) with (len lo * JS_LIMB_BITS) by lia.
    rewrite Ep in *. set (n := len lo * JS_LIMB_BITS) in *.
    assert (n <> 0) by (intros E0; rewrite E0, Z.pow_0_r in Hb; lia).
    replace n with (Z.succ (n - 1)) in Hlow by lia. rewrite Z.pow_succ_r in Hlow by lia. lia.
  - destruct (js_limb_clz_spec h Hhok Hh0) as [Hs Hc]. cbv zeta in *. set (s := js_limb_clz h) in *. clearbody s.
    replace ((len lo + 1) * JS_LIMB_BITS - s) with (len lo * JS_LIMB_BITS + (JS_LIMB_BITS - s)) by lia.
    replace (len lo * JS_LIMB_BITS + (JS_LIMB_BITS - s) - 1) with (len lo * JS_LIMB_BITS + (JS_LIMB_BITS - s - 1)) by lia.
    rewrite !Z.pow_add_r, <- Ep by lia.
    assert (limb_base = 2 ^ s * (2 * 2 ^ (JS_LIMB_BITS - s - 1))) as EB.
    { unfold limb_base. rewrite <- Z.pow_succ_r, <- Z.pow_add_r by lia. f_equal. lia. }
    assert (2 ^ (JS_LIMB_BITS - s) = 2 * 2 ^ (JS_LIMB_BITS - s - 1)) as E2 by (rewrite <- Z.pow_succ_r by lia; f_equal; lia).
    assert (2 ^ (JS_LIMB_BITS - s - 1) <= h < 2 * 2 ^ (JS_LIMB_BITS - s - 1)) as Hhb.
    { rewrite EB in Hc. assert (0 < 2 ^ s) by (apply Z.pow_pos_nonneg; lia).
      split; [apply (Z.mul_le_mono_pos_l _ _ (2 ^ s)); lia|apply (Z.mul_lt_mono_pos_l (2 ^ s)); lia]. }
    rewrite E2. split; [lia|].
    assert (limb_base ^ len lo * 2 ^ (JS_LIMB_BITS - s - 1) <= limb_base ^ len lo * h) by (apply Z.mul_le_mono_nonneg_l; lia).
    assert (limb_base ^ len lo * (h + 1) <= limb_base ^ len lo * (2 * 2 ^ (JS_LIMB_BITS - s - 1))) by (apply Z.mul_le_mono_nonneg_l; lia).
    lia.
Qed.

Lemma ceil_div n k : 1 <= k -> let d := (n + k - 1) / k in k * (d - 1) < n <= k * d.
Proof.
  intros Hk d. pose proof (Z.div_mod (n + k - 1) k ltac:(lia)) as E. fold d in E.
  pose proof (Z.mod_pos_bound (n + k - 1) k ltac:(lia)). lia.
Qed.

(** [31 - clz32(radix)] is the logarithm of the radix, rounded down. *)
Lemma log2_radix_floor radix :
  2 <= radix <= 36 ->
  let lr := 31 - clz32 radix in
  1 <= lr <= 5 /\ 2 ^ lr <= radix /\ (Z.land radix (radix - 1) = 0 -> radix = 2 ^ lr).
Proof.
  intros Hr. assert (exists n, (n < 35)%nat /\ radix = Z.of_nat n + 2) as (n & Hn & ->) by (exists (Z.to_nat (radix - 2)); lia).
  clear Hr. do 35 (destruct n as [|n]; [cbv zeta; split; [|split]; [split; vm_compute; discriminate|vm_compute; discriminate|intros E; vm_compute in E |- *; (reflexivity || discriminate)]|]).
  lia.
Qed.

(** The digits of [r] are printed, with [res] bytes left. *)
Lemma print_digits r radix res (E : exn -> Prop) :
  bi_norm r -> 1 <= bi_val r -> 2 <= radix <= 36 -> 0 <= res ->
  let lr := 31 - clz32 radix in
  let n_digits := (n_bits_of r + lr - 1) / lr in
  mspec (if negb (Z.land radix (radix - 1) =? 0) then
           radix_base ← tab_get radix_base_table (radix - 2);
           per_limb ← tab_get digits_per_limb_table (radix - 2);
           radix_loop (S (Z.to_nat (bi_len r * JS_LIMB_BITS))) (tab r) radix radix_base per_limb (n_digits + res, [])
         else for_up (Z.to_nat n_digits) 0 (binary_char (tab r) lr radix) (n_digits + res, []))
    (printed radix res (bi_val r) []) E.
Proof.
  intros Hn Hv Hr Hres lr nd. destruct (n_bits_spec r Hn Hv) as (Em & Hnb & HN).
  destruct (log2_radix_floor radix Hr) as (Hlr & Hle & Hpow). cbv zeta in *. fold lr in Hlr, Hle, Hpow.
  pose proof (ceil_div (n_bits_of r) lr ltac:(lia)) as Hnd. cbv zeta in Hnd. fold nd in Hnd. clearbody lr nd.
  assert (1 <= nd) as Hnd1 by (assert (0 < nd); [apply (Z.mul_lt_mono_pos_l lr); lia|lia]).
  destruct Hn as [[Hok Hne] _].
  destruct (Z.eqb_spec (Z.land radix (radix - 1)) 0) as [Hbin|Hgen]; cbn [negb].
  - rewrite (Hpow Hbin). rewrite <- Em in *. eapply mspec_mono.
    + apply (binary_run (tab r) lr nd (nd + res)); try assumption; try lia.
      * change (len (tab r)) with (bi_len r). lia.
      * rewrite <- !Z.pow_mul_r by lia. split.
        -- apply (Z.le_trans _ (2 ^ (n_bits_of r - 1))); [apply Z.pow_le_mono_r|]; lia.
        -- apply (Z.lt_le_trans _ (2 ^ n_bits_of r)); [|apply Z.pow_le_mono_r]; lia.
    + intros q. replace (nd + res - nd) with res by lia. intros Hq. exact Hq.
    + intros e [].
  - destruct (radix_tables radix (conj Hr Hgen)) as (b & k & -> & -> & Hk & Eb & Hbok). rewrite !ret_bind.
    assert (0 <= bi_len r * JS_LIMB_BITS) by lia. rewrite <- Em in *.
    destruct (radix_loop_spec (S (Z.to_nat (bi_len r * JS_LIMB_BITS))) (tab r) radix b k (nd + res) [] res) as (q & -> & Hq);
      try assumption; try lia.
    + split; [lia|]. apply (Z.lt_le_trans _ (2 ^ n_bits_of r)); [lia|]. apply Z.pow_le_mono_r; lia.
    + apply (Z.lt_le_trans _ (2 ^ n_bits_of r)); [lia|]. apply (Z.le_trans _ ((2 ^ lr) ^ nd)).
      * rewrite <- Z.pow_mul_r by lia. apply Z.pow_le_mono_r; lia.
      * replace (nd + res - res) with nd by lia. apply Z.pow_le_mono_l. lia.
    + apply mspec_ret. exact Hq.
Qed.

(** The string is the sign and the digits of the absolute value, with no leading
    zero: ["0"] only for zero. *)
Definition printed_bigint (radix v : Z) (s : list Z) : Prop :=
  exists ds, s = signed_digits (v <? 0) ds /\
    ((v = 0 /\ ds = [CHAR_0]) \/ canonical_digits radix (Z.abs v) ds).

Lemma zero_test a : bi_norm a -> (bi_len a =? 1) && (tab a !!! 0%nat =? 0) = (bi_val a =? 0).
Proof.
  intros Hn. destruct (Z.eqb_spec (bi_val a) 0) as [E0|Hnz].
  - destruct a as [t]. destruct Hn as [[Hok Hne] Hm]. unfold bi_val, bi_len, minimal in *. cbn [tab] in *.
    assert (length t = 1%nat) as Hl.
    { destruct Hm as [Hm|Hm]; [exact Hm|]. pose proof limb_base_big. pose proof (len_nonneg t).
      assert (0 <= limb_base ^ (len t - 1)) by (apply Z.pow_nonneg; lia).
      assert (1 <= len t) by (destruct t; [congruence|rewrite len_cons; pose proof (len_nonneg t); lia]).
      assert (0 < limb_base ^ (len t - 1)) by (apply Z.pow_pos_nonneg; lia). lia. }
    destruct t as [|x [|? ?]]; simpl in Hl; try lia. change (len [x] =? 1) with true. cbn [andb].
    pose proof (mp_val_sval [x] Hok) as Ev. rewrite E0 in Ev. cbn in Ev. apply Z.eqb_eq. cbn. lia.
  - destruct (bi_len a =? 1) eqn:E1; [|reflexivity]. cbn [andb]. apply Z.eqb_neq. intros Hx. apply Hnz. clear Hnz.
    apply Z.eqb_eq in E1. destruct a as [t]. unfold bi_len, bi_val, len in *. cbn [tab] in *.
    destruct t as [|x [|? ?]]; simpl in E1; try lia. cbn in Hx. subst x. pose proof (mp_base_pos [0]).
    assert (mp_val [0] = 0) as E0 by (cbn [mp_val]; lia). unfold sval. rewrite E0.
    destruct (Z.leb_spec (mp_base [0]) (2 * 0)); lia.
Qed.

Lemma new_string8_spec (s : list Z) (Q : list Z -> Prop) E : Q s -> mspec (js_new_string8_len s) Q E.
Proof.
  intros HQ. unfold js_new_string8_len. destruct (Z.leb_spec (len s) 0) as [Hl|_].
  - apply mspec_ret. destruct s as [|c s]; [exact HQ|]. rewrite len_cons in Hl. pose proof (len_nonneg s). lia.
  - eapply mspec_bind; [apply mspec_alloc|]. intros _ _. apply mspec_ret, HQ.
Qed.

Lemma js_bigint_to_string1_spec a radix :
  bi_norm a -> 2 <= radix <= 36 ->
  mspec (js_bigint_to_string1 a radix) (printed_bigint radix (bi_val a)) (fun e => e = err_alloc).
Proof.
  intros Hn Hr. pose proof (proj1 Hn) as Hok. unfold js_bigint_to_string1. rewrite zero_test by exact Hn.
  destruct (Z.eqb_spec (bi_val a) 0) as [E0|Hnz].
  { apply new_string8_spec. exists [CHAR_0]. rewrite E0. split; [reflexivity|left; auto]. }
  cbv zeta. rewrite (js_bigint_sign_spec a Hok). set (neg := bi_val a <? 0).
  apply mspec_bind with (R := fun r => bi_norm r /\ bi_val r = Z.abs (bi_val a)).
  - unfold neg. destruct (Z.ltb_spec (bi_val a) 0) as [Hlt|Hge]; cbn [c_bool Z.eqb negb].
    + eapply mspec_mono; [apply (js_bigint_neg_spec a Hok)| |].
      * intros r (H1 & H2 & _). split; [exact H1|]. rewrite H2. lia.
      * intros e [-> _]. reflexivity.
    + destruct (Z.land radix (radix - 1) =? 0); cbn [negb]; [apply mspec_ret; split; [exact Hn|lia]|].
      eapply mspec_bind.
      { eapply mspec_mono; [apply (js_bigint_new_spec (bi_len a)), len_nonneg|intros r Hr'; exact Hr'|intros e [-> _]; reflexivity]. }
      intros tmp Htmp. cbv beta in Htmp. rewrite blit_all, ret_bind by exact Htmp. apply mspec_ret. destruct a. split; [exact Hn|cbn in *; lia].
  - intros r [Hrn Ev]. assert (1 <= bi_val r) as Hv1 by lia.
    apply mspec_bind with (R := fun _ => True); [apply mspec_alloc|]. intros _ _.
    pose proof (c_bool_bounds neg) as Hcb.
    eapply mspec_bind; [apply (print_digits r radix (c_bool neg) _ Hrn Hv1 Hr); lia|].
    intros q (ds & room & -> & Hds & Hroom). rewrite app_nil_r.
    assert (printed_bigint radix (bi_val a) (signed_digits neg ds)) as Hp.
    { exists ds. split; [reflexivity|]. right. rewrite <- Ev. exact Hds. }
    destruct neg; cbn [c_bool Z.eqb negb signed_digits] in *; [rewrite put_room by lia|]; rewrite ret_bind; apply new_string8_spec; exact Hp.
Qed.

(** ** Round trip *)

(** A normalised number is the shortest of its value. *)
Lemma norm_shortest a b : bi_norm a -> bi_ok b -> bi_val a = bi_val b -> bi_len a <= bi_len b.
Proof.
  intros [[Hoa _] Hm] [Hob Hneb] E. unfold bi_val, bi_len in *. pose proof (sval_range _ Hob) as Hr. rewrite <- E in Hr.
  unfold mp_base in Hr. destruct (Z.le_gt_cases (len (tab a)) (len (tab b))) as [H|H]; [exact H|exfalso].
  pose proof limb_base_big. pose proof (len_nonneg (tab b)).
  assert (limb_base ^ len (tab b) <= limb_base ^ (len (tab a) - 1)) by (apply Z.pow_le_mono_r; lia).
  destruct Hm as [Hm|Hm]; [|lia]. assert (len (tab a) = 1) as E1 by (unfold len; rewrite Hm; reflexivity).
  assert (len (tab b) = 0) as E2 by lia. destruct b as [t]. cbn [tab] in *.
  destruct t; [congruence|rewrite len_cons in E2; pose proof (len_nonneg t); lia].
Qed.

(** The representation is canonical. *)
Lemma norm_unique a b : bi_norm a -> bi_norm b -> bi_val a = bi_val b -> a = b.
Proof.
  intros Ha Hb E. assert (bi_len a = bi_len b) as Hl.
  { apply Z.le_antisymm; apply norm_shortest; (assumption || apply Ha || apply Hb || congruence). }
  destruct a as [s], b as [t]. destruct Ha as [[Hs _] _], Hb as [[Ht _] _]. unfold bi_val, bi_len, len in *. cbn [tab] in *.
  f_equal. apply mp_val_inj; [exact Hs|exact Ht|lia|].
  rewrite (mp_val_sval s Hs), (mp_val_sval t Ht), E. unfold mp_base, len. rewrite Hl. reflexivity.
Qed.

Lemma printed_parses a radix s :
  radix_ok radix -> bi_norm a -> printed_bigint radix (bi_val a) s ->
  mspec (js_bigint_from_string s radix) (fun b => b = a) (fun e => e = err_alloc).
Proof.
  intros Hr Ha (ds & -> & Hds).
  assert (valid radix ds /\ signed_val (bi_val a <? 0) radix ds = bi_val a) as [Hv Ev].
  { destruct Hds as [[E0 ->]|(Hv & Hd & _)].
    - rewrite E0. split; [|reflexivity]. constructor; [|constructor]. change (to_digit CHAR_0) with 0.
      destruct Hr as [->|(lr & -> & Hlr)]; lia.
    - split; [exact Hv|]. unfold signed_val. rewrite Hd. destruct (Z.ltb_spec (bi_val a) 0); lia. }
  eapply mspec_mono; [apply js_bigint_from_string_spec; assumption| |auto].
  intros b [Hb1 Hb2]. apply norm_unique; [exact Hb1|exact Ha|]. rewrite Hb2. exact Ev.
Qed.

End BigIntPrint.
