(* ===== verification/BigIntTheorems.v ===== *)
(** The theorems on the BigInt arithmetic of quickjs.c, with a witness each.

    [mspec m Q E] reads: whatever the allocator answers, the call does not access
    memory outside its arrays, and ends with a result in [Q], with the exception
    [OutOfMemory] after a refused allocation, or with an exception in [E]. *)
From stdpp Require Import base tactics list numbers.
From Stdlib Require Import ZArith Lia.
From S2P Require Import Prelude Float64 Limbs LimbSpecs LimbDiv BigInt BigIntMul BigIntDivRem BigIntBits BigIntPow BigIntFloatSpecs BigIntFloatCmp BigIntInterface BigIntString BigIntParse BigIntToString.

Open Scope Z_scope.

(** ** Deciding well-formedness, for the witnesses *)

Section Deciding.
Context `{LC : LimbConfig}.

Definition limbs_okb (t : list Z) : bool := forallb (fun x => (0 <=? x) && (x <? limb_base)) t.

Definition bi_normb (a : JSBigInt) : bool :=
  limbs_okb (tab a) && (1 <=? bi_len a) &&
  ((bi_len a =? 1) || (2 * bi_val a <? - limb_base ^ (bi_len a - 1)) || (limb_base ^ (bi_len a - 1) <=? 2 * bi_val a)).

Lemma limbs_okb_ok t : limbs_okb t = true -> limbs_ok t.
Proof.
  unfold limbs_okb, limbs_ok. rewrite forallb_forall, Forall_forall. intros H x Hx.
  specialize (H x Hx). unfold limb_ok. lia.
Qed.

Lemma bi_normb_ok a : bi_normb a = true -> bi_norm a.
Proof.
  unfold bi_normb. rewrite !andb_true_iff, !orb_true_iff. intros [[H1 H2] H3]. split; [split|].
  - apply limbs_okb_ok, H1.
  - intros E. unfold bi_len in H2. rewrite E in H2. change (len (@nil Z)) with 0 in H2. lia.
  - unfold minimal. unfold bi_len, bi_val, len in *. destruct H3 as [[H3|H3]|H3]; [left; lia|right; left; lia|right; right; lia].
Qed.

End Deciding.

(** ** Arithmetic *)

Section Theorems.
Context `{LC : LimbConfig} `{FM : FreshMemory}.

(** [js_bigint_add] computes the sum, or the difference when [b_neg] is set,
    of the two's complement numbers, as a normalised number with at most one
    more limb; it throws only when the operands exceed the size limit. *)
Theorem bigint_add_correct a b neg :
  bi_ok a -> bi_ok b ->
  mspec (js_bigint_add a b (c_bool neg))
    (fun r => bi_norm r /\ bi_val r = (if neg then bi_val a - bi_val b else bi_val a + bi_val b) /\
              bi_len r <= Z.max (bi_len a) (bi_len b) + 1)
    (fun e => e = err_alloc /\ JS_BIGINT_MAX_SIZE < Z.max (bi_len a) (bi_len b)).
Proof. apply js_bigint_add_spec. Qed.

(** [js_bigint_mul] computes the product. *)
Theorem bigint_mul_correct a b :
  bi_ok a -> bi_ok b ->
  mspec (js_bigint_mul a b)
    (fun r => bi_norm r /\ bi_val r = bi_val a * bi_val b /\ bi_len r <= bi_len a + bi_len b)
    (fun e => e = err_alloc /\ JS_BIGINT_MAX_SIZE < bi_len a + bi_len b).
Proof. apply js_bigint_mul_spec. Qed.

(** C23: [js_bigint_divrem] computes the quotient rounded toward zero and the
    remainder with the sign of the dividend, and throws on a zero divisor; a
    result implies the divisor is not zero. *)
Theorem bigint_divrem_correct a b is_rem :
  bi_norm a -> bi_norm b ->
  mspec (js_bigint_divrem a b is_rem)
    (fun r => bi_val b <> 0 /\
       is_big (if is_rem then Z.rem (bi_val a) (bi_val b) else Z.quot (bi_val a) (bi_val b)) r)
    (fun e => size_exn e \/ (e = err_div0 /\ bi_val b = 0)).
Proof. apply divrem_nonzero. Qed.

(** C24: [js_bigint_pow] computes the power; it throws on a negative exponent, and
    refuses for its size only a power of at least 2^(2^20 - L) / 4 where [L] is the limb
    size. *)
Theorem bigint_pow_correct a b :
  bi_norm a -> bi_norm b -> mspec (js_bigint_pow a b) (pow_result a b) (pow_exn a b).
Proof. apply js_bigint_pow_spec. Qed.

(** The bitwise operators are those of the infinite two's complement
    representation. *)
Theorem bigint_bitwise_correct a b op :
  bi_norm a -> bi_norm b ->
  mspec (js_bigint_logic a b op) (is_big (logic_op op (bi_val a) (bi_val b))) (fun e => e = err_alloc) /\
  mspec (js_bigint_not a) (is_big (Z.lnot (bi_val a))) (fun e => e = err_alloc).
Proof.
  intros Ha Hb. split; (eapply mspec_mono;
    [apply js_bigint_logic_spec; [apply Ha|apply Hb] || apply js_bigint_not_spec, Ha
    |intros r (H1 & H2 & _); exact (conj H1 H2)|intros e [-> _]; reflexivity]).
Qed.

(** The shifts multiply by a power of two and divide by it rounding down. *)
Theorem bigint_shift_correct a n :
  bi_norm a -> 0 <= n ->
  mspec (js_bigint_shl a n) (is_big (bi_val a * 2 ^ n))
    (fun e => e = err_alloc /\ JS_BIGINT_MAX_SIZE < bi_len a + n / JS_LIMB_BITS) /\
  mspec (js_bigint_shr a n) (is_big (bi_val a / 2 ^ n)) (fun e => e = err_alloc /\ JS_BIGINT_MAX_SIZE < bi_len a).
Proof.
  intros Ha Hn. split.
  - eapply mspec_mono; [apply (js_bigint_shl_spec a n Ha Hn)|intros r (H1 & H2 & _); exact (conj H1 H2)|auto].
  - apply (js_bigint_shr_spec a n Ha Hn).
Qed.

(** [js_bigint_normalize] returns the one normalised number of the value: any
    two normalised numbers of one value are the same limb array, and no
    well-formed array of that value is shorter. *)
Theorem bigint_normalize_canonical a b :
  bi_ok a -> bi_norm b -> bi_val b = bi_val a ->
  mspec (js_bigint_normalize a) (fun r => r = b) no_exn /\ bi_len b <= bi_len a.
Proof.
  intros Ha Hb E. split; [|apply norm_shortest; assumption].
  eapply mspec_mono; [apply (js_bigint_normalize_spec a no_exn Ha)| |auto].
  intros r (H1 & H2 & _). apply norm_unique; [exact H1|exact Hb|congruence].
Qed.

(** [js_bigint_cmp] orders normalised numbers by value. *)
Theorem bigint_cmp_correct a b :
  bi_norm a -> bi_norm b -> js_bigint_cmp a b = Z.sgn (bi_val a - bi_val b).
Proof. apply js_bigint_cmp_spec. Qed.

(** C26: schoolbook division of limb arrays ([mp_divnorm], Knuth's algorithm D):
    the quotient limbs are written to [tabq], the remainder replaces the low limbs
    of [taba], no access leaves the arrays and the add-back loop ends. *)
Theorem mp_divnorm_correct tabq a junk tabb blo b1 :
  norm_divisor tabb blo b1 -> limbs_ok a ->
  (length tabb <= length a)%nat -> (length a + 1 <= length tabq + length tabb)%nat ->
  exists qs r rest,
    mp_divnorm tabq (a ++ junk) (len a) tabb = mret (qs ++ drop (length qs) tabq, r ++ rest) /\
    (length qs + length tabb = S (length a))%nat /\ limbs_ok qs /\ limbs_ok r /\ length r = length tabb /\
    mp_val qs = mp_val a / mp_val tabb /\ mp_val r = mp_val a mod mp_val tabb.
Proof.
  intros Hd Ha H1 H2. destruct (mp_divnorm_spec tabq a junk (len a) tabb blo b1 Hd Ha eq_refl H1 H2)
    as (qs & r & rest & E & Hq & Hql & Hr & Hrl & _ & Ev & Hrb).
  exists qs, r, rest. repeat (split; [assumption|]).
  split; [apply (Z.div_unique_pos _ _ _ (mp_val r))|apply (Z.mod_unique_pos _ _ (mp_val qs))]; lia.
Qed.

(** The division of two limbs by one with a precomputed inverse
    ([udiv1norm], [udiv1norm_init]) equals the plain division it replaces. *)
Theorem udiv1norm_correct a1 a0 d :
  normalized d -> 0 <= a1 < d -> limb_ok a0 ->
  udiv1norm a1 a0 d (udiv1norm_init d) = ((a1 * limb_base + a0) / d, (a1 * limb_base + a0) mod d).
Proof. apply udiv1norm_spec. Qed.

(** ** Conversions *)

(** C27: [js_bigint_to_float64] rounds to the nearest float64, ties to even, and
    overflows to an infinity; [js_bigint_from_float64] converts exactly the integral
    float64s and reports which others are fractions and which not finite. *)
Theorem bigint_float64_conversions a d :
  bi_norm a -> 0 <= d < 2 ^ 64 ->
  js_bigint_to_float64 a = float64_round (bi_val a) /\
  mspec (js_bigint_from_float64 d)
    (fun q => match classify d with
              | FNotFinite => q = (None, 2)
              | FFraction => q = (None, 1)
              | FInteger v => exists r, q = (Some r, 0) /\ is_big v r
              end) no_exn.
Proof. intros Ha Hd. split; [apply js_bigint_to_float64_spec, Ha|apply js_bigint_from_float64_spec, Hd]. Qed.

(** [js_bigint_float64_cmp] is the order of the reals, except that two
    negative numbers of different binary exponents compare the wrong way round. *)
Theorem bigint_float64_cmp_inverts a d :
  bi_norm a -> 0 <= d < 2 ^ 64 -> isfinite d = true ->
  js_bigint_float64_cmp a d =
    if cmp_inverted (bi_val a) d then - float64_order (bi_val a) d else float64_order (bi_val a) d.
Proof.
  intros Ha Hd Hf. rewrite (js_bigint_float64_cmp_spec a d Ha Hd). unfold isfinite in Hf.
  destruct (float64_exp d =? 2047); [discriminate|reflexivity].
Qed.

(** [js_bigint_from_string] reads a string of digits with an optional sign
    in radix 10 or a power of two up to 32. *)
Theorem bigint_from_string_correct neg ds radix :
  radix_ok radix -> valid radix ds ->
  mspec (js_bigint_from_string (signed_digits neg ds) radix)
    (is_big (signed_val neg radix ds)) (fun e => e = err_alloc).
Proof. apply js_bigint_from_string_spec. Qed.

(** [js_bigint_to_string1] prints, for every radix from 2 to 36, a minus sign
    for negative numbers and the digits of the absolute value without leading
    zeros, inside the buffer it sized before printing. *)
Theorem bigint_to_string_correct a radix :
  bi_norm a -> 2 <= radix <= 36 ->
  mspec (js_bigint_to_string1 a radix) (printed_bigint radix (bi_val a)) (fun e => e = err_alloc).
Proof. apply js_bigint_to_string1_spec. Qed.

(** C28: parsing a printed BigInt gives the same limb array back. *)
Theorem bigint_string_roundtrip a radix :
  radix_ok radix -> bi_norm a ->
  mspec (s ← js_bigint_to_string1 a radix; js_bigint_from_string s radix) (fun b => b = a) (fun e => e = err_alloc).
Proof.
  intros Hr Ha. eapply mspec_bind.
  - apply js_bigint_to_string1_spec; [exact Ha|]. apply radix_ok_range, Hr.
  - intros s Hs. apply printed_parses; assumption.
Qed.

End Theorems.

(** ** Witnesses, on 32-bit limbs *)

#[local] Existing Instance limb32.
#[local] Instance stale_memory : FreshMemory := {| fresh_limb n := Z.of_nat n + 7 |}.

Ltac norm_ok := apply bi_normb_ok; vm_compute; reflexivity.

(** -1 (one limb) and 2^63 (three limbs). *)
Definition minus_one : JSBigInt := MkBigInt [0xffffffff].
Definition two_63 : JSBigInt := MkBigInt [0; 0x80000000; 0].

Lemma minus_one_norm : bi_norm minus_one.
Proof. norm_ok. Qed.

Lemma two_63_norm : bi_norm two_63.
Proof. norm_ok. Qed.

Lemma bigint_add_witness :
  mspec (js_bigint_add minus_one two_63 1)
    (fun r => bi_norm r /\ bi_val r = bi_val minus_one - bi_val two_63 /\ bi_len r <= 4)
    (fun e => e = err_alloc /\ JS_BIGINT_MAX_SIZE < 3).
Proof. exact (bigint_add_correct minus_one two_63 true (proj1 minus_one_norm) (proj1 two_63_norm)). Defined.

Lemma bigint_mul_witness :
  mspec (js_bigint_mul minus_one two_63)
    (fun r => bi_norm r /\ bi_val r = - 2 ^ 63 /\ bi_len r <= 4) (fun e => e = err_alloc /\ JS_BIGINT_MAX_SIZE < 4).
Proof. exact (bigint_mul_correct minus_one two_63 (proj1 minus_one_norm) (proj1 two_63_norm)). Defined.

Lemma bigint_divrem_witness :
  mspec (js_bigint_divrem two_63 minus_one false)
    (fun r => bi_val minus_one <> 0 /\ is_big (Z.quot (2 ^ 63) (-1)) r)
    (fun e => size_exn e \/ (e = err_div0 /\ bi_val minus_one = 0)).
Proof. exact (bigint_divrem_correct two_63 minus_one false two_63_norm minus_one_norm). Defined.

Lemma bigint_pow_witness :
  mspec (js_bigint_pow (MkBigInt [3]) (MkBigInt [40]))
    (pow_result (MkBigInt [3]) (MkBigInt [40])) (pow_exn (MkBigInt [3]) (MkBigInt [40])).
Proof. apply bigint_pow_correct; norm_ok. Defined.

Lemma bigint_bitwise_witness :
  mspec (js_bigint_logic minus_one two_63 OP_xor) (is_big (Z.lxor (-1) (2 ^ 63))) (fun e => e = err_alloc) /\
  mspec (js_bigint_not minus_one) (is_big 0) (fun e => e = err_alloc).
Proof. exact (bigint_bitwise_correct minus_one two_63 OP_xor minus_one_norm two_63_norm). Defined.

Lemma bigint_shift_witness :
  mspec (js_bigint_shl minus_one 33) (is_big (-1 * 2 ^ 33)) (fun e => e = err_alloc /\ JS_BIGINT_MAX_SIZE < 1 + 33 / 32) /\
  mspec (js_bigint_shr minus_one 33) (is_big (-1 / 2 ^ 33)) (fun e => e = err_alloc /\ JS_BIGINT_MAX_SIZE < 1).
Proof. exact (bigint_shift_correct minus_one 33 minus_one_norm ltac:(lia)). Defined.

Lemma bigint_normalize_witness :
  mspec (js_bigint_normalize (MkBigInt [0; 0x80000000; 0; 0; 0])) (fun r => r = two_63) no_exn /\ 3 <= 5.
Proof.
  apply (bigint_normalize_canonical (MkBigInt [0; 0x80000000; 0; 0; 0]) two_63); [|norm_ok|vm_compute; reflexivity].
  split; [apply limbs_okb_ok; vm_compute; reflexivity|discriminate].
Defined.

Lemma bigint_cmp_witness : js_bigint_cmp minus_one two_63 = Z.sgn (-1 - 2 ^ 63).
Proof. exact (bigint_cmp_correct minus_one two_63 minus_one_norm two_63_norm). Defined.

Lemma mp_divnorm_witness :
  exists qs r rest,
    mp_divnorm [9; 9; 9] ([1; 2; 3] ++ [5]) (len [1; 2; 3]) [7; 0x80000001] = mret (qs ++ drop (length qs) [9; 9; 9], r ++ rest) /\
    (length qs + 2 = 4)%nat /\ limbs_ok qs /\ limbs_ok r /\ length r = 2%nat /\
    mp_val qs = mp_val [1; 2; 3] / mp_val [7; 0x80000001] /\ mp_val r = mp_val [1; 2; 3] mod mp_val [7; 0x80000001].
Proof.
  apply (mp_divnorm_correct [9; 9; 9] [1; 2; 3] [5] [7; 0x80000001] [7] 0x80000001).
  - split; [reflexivity|]. split; [apply limbs_okb_ok; vm_compute; reflexivity|vm_compute; split; congruence].
  - apply limbs_okb_ok. vm_compute. reflexivity.
  - simpl. lia.
  - simpl. lia.
Defined.

Lemma udiv1norm_witness :
  udiv1norm 5 7 0x80000001 (udiv1norm_init 0x80000001) = ((5 * limb_base + 7) / 0x80000001, (5 * limb_base + 7) mod 0x80000001).
Proof. apply udiv1norm_correct; [vm_compute; split; congruence|lia|vm_compute; split; congruence]. Defined.

(** 0x4340000000000000 is 2^53. *)
Lemma bigint_float64_conversions_witness :
  js_bigint_to_float64 two_63 = float64_round (2 ^ 63) /\
  mspec (js_bigint_from_float64 0x4340000000000000) (fun q => exists r, q = (Some r, 0) /\ is_big (2 ^ 53) r) no_exn.
Proof. exact (bigint_float64_conversions two_63 0x4340000000000000 two_63_norm ltac:(lia)). Defined.

(** -1n compared with -4.0 (0xc010000000000000): the answer is "less". *)
Lemma bigint_float64_cmp_witness : js_bigint_float64_cmp minus_one 0xc010000000000000 = - float64_order (-1) 0xc010000000000000.
Proof. exact (bigint_float64_cmp_inverts minus_one 0xc010000000000000 minus_one_norm ltac:(lia) eq_refl). Defined.

(** "-255" and "-ff" *)
Lemma bigint_from_string_witness :
  mspec (js_bigint_from_string [45; 102; 102] 16) (is_big (-255)) (fun e => e = err_alloc).
Proof.
  apply (bigint_from_string_correct true [102; 102] 16); [right; exists 4; lia|].
  constructor; [vm_compute; reflexivity|]. constructor; [vm_compute; reflexivity|constructor].
Defined.

Lemma bigint_to_string_witness :
  mspec (js_bigint_to_string1 two_63 7) (printed_bigint 7 (bi_val two_63)) (fun e => e = err_alloc).
Proof. apply bigint_to_string_correct; [exact two_63_norm|lia]. Defined.

Lemma bigint_string_roundtrip_witness :
  mspec (s ← js_bigint_to_string1 minus_one 10; js_bigint_from_string s 10) (fun b => b = minus_one) (fun e => e = err_alloc).
Proof. apply bigint_string_roundtrip; [left; reflexivity|exact minus_one_norm]. Defined.
