(* ===== verification/OperatorTheorems.v ===== *)
(** The theorems on the operators and the number conversions, with a witness
    each.  The operators run on the BigInt arithmetic of quickjs.c
    ([quickjs_bigint]); [is_bigint z v] says that the value [v] is the canonical
    representation of the integer [z]: a short BigInt when it fits in a limb, a
    normalised heap BigInt otherwise. *)
From stdpp Require Import base tactics list numbers.
From Stdlib Require Import ZArith Lia.
From S2P Require Import Prelude Float64 Limbs BigInt BigIntFloatSpecs Numbers NumberSpecs BigIntInterface Operators OperatorSpecs AsIntN BigIntTheorems.

Open Scope Z_scope.

Section Theorems.
Context `{LC : LimbConfig} `{FM : FreshMemory} `{LM : LibM}.

#[local] Existing Instance quickjs_bigint.

(** C29: [js_binary_arith_slow] and [js_add_slow] refine the arithmetic of the
    integers on BigInt operands, short or heap allocated: the result is the
    canonical representation of the exact result, division and remainder truncate
    toward zero, and the exceptions are those of the specification. *)
Theorem binary_arith_bigint_refines x y a b op :
  is_bigint x a -> is_bigint y b ->
  mspec (match op with OP_add => js_add_slow a b | _ => js_binary_arith_slow a b op end)
    (fun r => arith_defined op y /\ is_bigint (z_arith op x y) r) (arith_exn op y).
Proof.
  intros Ha Hb. destruct op; try (apply js_binary_arith_bigint_spec; [exact Ha|exact Hb|discriminate]).
  eapply mspec_mono; [apply (js_add_bigint_spec x y a b Ha Hb)|intros r Hr; split; [exact I|exact Hr]|intros e He; left; exact He].
Qed.

(** C30: the other operators on BigInts.  [js_binary_logic_slow] refines the
    bitwise operators and the arithmetic shifts of the integers (a shift by a
    negative count shifts the other way), the unary operators compute on the
    integers except unary plus, which throws a TypeError, [js_compare_bigint]
    decides the relational operators, and an arithmetic operator, addition
    ([js_add_slow]) included, or a bitwise one on a BigInt and a number throws a
    TypeError in either order. *)
Theorem bigint_operators_refine x y a b lop uop rop aop n :
  is_bigint x a -> is_bigint y b -> is_number n ->
  (Z.abs x < 2 ^ INT32_MAX -> mspec (js_binary_logic_slow a b lop) (is_bigint (z_bits lop x y)) size_exn) /\
  mspec (match uop with OP_bnot => js_not_slow a | _ => js_unary_arith_slow a uop end)
    (fun r => uop <> OP_plus /\ is_bigint (z_unary uop x) r)
    (fun e => if uop is OP_plus then e = err_unary_plus else size_exn e) /\
  mspec (js_compare_bigint rop a b) (fun r => r = z_rel rop x y) no_exn /\
  mspec (match aop with OP_add => js_add_slow a n | _ => js_binary_arith_slow a n aop end) (fun _ => False) (fun e => e = err_bigint_number) /\
  mspec (match aop with OP_add => js_add_slow n a | _ => js_binary_arith_slow n a aop end) (fun _ => False) (fun e => e = err_bigint_number) /\
  mspec (js_binary_logic_slow a n lop) (fun _ => False) (fun e => e = err_bigint_number) /\
  mspec (js_binary_logic_slow n a lop) (fun _ => False) (fun e => e = err_bigint_number).
Proof.
  intros Ha Hb Hn. split; [apply js_binary_logic_bigint_spec; assumption|]. split; [|split; [apply js_compare_bigint_spec; assumption|]]. 2: { destruct (js_binary_arith_mixed x a n aop Ha Hn), (js_binary_logic_mixed x a n lop Ha Hn). auto. }
  destruct uop.
  1,2,4: eapply mspec_mono; [apply (js_unary_bigint_spec x a _ Ha); auto|intros r Hr; split; [discriminate|exact Hr]|auto].
  - eapply mspec_mono; [apply (js_unary_plus_bigint x a (fun _ => False) Ha)|intros r []|auto].
  - eapply mspec_mono; [apply (js_not_bigint_spec x a Ha)|intros r Hr; split; [discriminate|exact Hr]|auto].
Qed.

(** C31: [BigInt.asIntN] returns the signed residue modulo 2^bits, and
    [BigInt.asUintN] the residue modulo 2^bits under [asUintN_ok]; a negative short
    BigInt and a count of at least the limb size are outside it, and there the
    argument comes back unchanged, which is not the residue. *)
Theorem asN_correct bits x a :
  is_bigint x a -> 1 <= bits ->
  mspec (js_bigint_asUintN bits a true) (is_bigint (swrap bits x)) size_exn /\
  (asUintN_ok bits x a -> mspec (js_bigint_asUintN bits a false) (is_bigint (wrap bits x)) size_exn) /\
  (a = JS_TAG_SHORT_BIG_INT x -> x < 0 -> JS_LIMB_BITS <= bits ->
   mspec (js_bigint_asUintN bits a false) (fun r => r = a /\ ~ is_bigint (wrap bits x) r) no_exn).
Proof.
  intros Ha Hb. split; [apply asIntN_spec; assumption|]. split; [apply asUintN_spec; assumption|]. intros -> Hx HL. unfold js_bigint_asUintN, JS_SHORT_BIG_INT_BITS.
  rewrite (proj2 (Z.eqb_neq bits 0)), (proj2 (Z.leb_le JS_LIMB_BITS bits)) by lia. apply mspec_ret. split; [reflexivity|].
  intros [E _]. pose proof (wrap_range bits x). lia.
Qed.

(** A 64-bit integer survives the trip through a BigInt, signed
    ([JS_NewBigInt64]) or unsigned ([JS_NewBigUint64]). *)
Theorem bigint64_roundtrip v :
  (- 2 ^ 63 <= v < 2 ^ 63 -> mspec (b ← JS_NewBigInt64 v; JS_ToBigInt64Free b) (fun r => r = v) no_exn) /\
  (0 <= v < 2 ^ 64 -> mspec (b ← JS_NewBigUint64 v; JS_ToBigInt64Free b) (fun r => wrap 64 r = v) no_exn).
Proof.
  split; intros Hv; (eapply mspec_bind; [apply JS_NewBigInt64_spec, Hv || apply JS_NewBigUint64_spec, Hv|]);
    intros b Hb; (eapply mspec_mono; [apply (JS_ToBigInt64_spec v b no_exn Hb)| |auto]); intros r ->.
  - apply swrap_small; lia.
  - rewrite <- (wrap_small 64 v Hv) at 2. unfold wrap, swrap. rewrite Zminus_mod_idemp_l. f_equal. lia.
Qed.

End Theorems.

(** ** Numbers *)

(** C32: [ToInt32] and [ToInt64] of a finite float64 are its integral part modulo
    2^32 and 2^64, and zero for NaN and the infinities (ToInt32); the saturating
    conversions clamp the integral part, [ToUint8Clamp] clamps the nearest integer,
    ties to even. *)
Theorem float64_to_int_correct d :
  0 <= d < 2 ^ 64 ->
  (isfinite d = true -> float64_to_int32 d = swrap 32 (float64_trunc d) /\ float64_to_int64 d = swrap 64 (float64_trunc d)) /\
  (isfinite d = false -> float64_to_int32 d = 0) /\
  (isnan d = false ->
   float64_to_int32_sat d = clamp INT32_MIN INT32_MAX (float64_trunc d) /\
   float64_to_int64_sat d = clamp INT64_MIN INT64_MAX (float64_trunc d) /\
   float64_to_uint8_clamp d = clamp 0 255 (lrint d)).
Proof.
  intros Hd. split; [intros Hf; split; [apply float64_to_int32_spec|apply float64_to_int64_spec]; assumption|].
  split; [apply float64_to_int32_not_finite|]. intros Hn.
  split; [apply float64_to_int32_sat_spec|split; [apply float64_to_int64_sat_spec|apply float64_to_uint8_clamp_spec]]; assumption.
Qed.

(** C33: [JS_NewFloat64] keeps the number, and chooses the integer tag only for the
    float64 that is exactly that integer, so never for -0. *)
Theorem new_float64_faithful d :
  0 <= d < 2 ^ 64 ->
  num_scaled (JS_NewFloat64 d) = num_scaled (JS_TAG_FLOAT64 d) /\
  (forall v, JS_NewFloat64 d = JS_TAG_INT v -> d = float64_round v /\ INT32_MIN <= v <= INT32_MAX).
Proof. apply JS_NewFloat64_spec. Qed.

(** ** Witnesses *)

#[local] Existing Instance limb32.
#[local] Existing Instance quickjs_bigint.
#[local] Instance junk_memory : FreshMemory := {| fresh_limb n := Z.of_nat n + 7 |}.
#[local] Instance libm_unused : LibM := {| libm_pow _ _ := 0 |}.

Lemma short_minus_one : is_bigint (-1) (JS_TAG_SHORT_BIG_INT (-1)).
Proof. split; [reflexivity|vm_compute; split; congruence]. Qed.

Lemma heap_two_63 : is_bigint (2 ^ 63) (JS_TAG_BIG_INT two_63).
Proof. split; [exact two_63_norm|]. split; [reflexivity|vm_compute; congruence]. Qed.

Lemma binary_arith_bigint_witness :
  mspec (js_binary_arith_slow (JS_TAG_BIG_INT two_63) (JS_TAG_SHORT_BIG_INT (-1)) OP_div)
    (fun r => -1 <> 0 /\ is_bigint (Z.quot (2 ^ 63) (-1)) r) (arith_exn OP_div (-1)).
Proof. exact (binary_arith_bigint_refines (2 ^ 63) (-1) _ _ OP_div heap_two_63 short_minus_one). Defined.

Lemma bigint_operators_witness :
  mspec (js_binary_logic_slow (JS_TAG_SHORT_BIG_INT (-1)) (JS_TAG_BIG_INT two_63) (OP_logic OP_and))
    (is_bigint (Z.land (-1) (2 ^ 63))) size_exn /\
  mspec (js_unary_arith_slow (JS_TAG_SHORT_BIG_INT (-1)) OP_neg) (fun r => OP_neg <> OP_plus /\ is_bigint 1 r) size_exn /\
  mspec (js_compare_bigint OP_lt (JS_TAG_SHORT_BIG_INT (-1)) (JS_TAG_BIG_INT two_63)) (fun r => r = true) no_exn /\
  mspec (js_add_slow (JS_TAG_SHORT_BIG_INT (-1)) (JS_TAG_INT 3)) (fun _ => False) (fun e => e = err_bigint_number) /\
  mspec (js_add_slow (JS_TAG_INT 3) (JS_TAG_SHORT_BIG_INT (-1))) (fun _ => False) (fun e => e = err_bigint_number).
Proof.
  destruct (bigint_operators_refine (-1) (2 ^ 63) _ _ (OP_logic OP_and) OP_neg OP_lt OP_add (JS_TAG_INT 3) short_minus_one heap_two_63 I)
    as (H1 & H2 & H3 & H4 & H5 & _).
  split; [|exact (conj H2 (conj H3 (conj H4 H5)))]. apply H1.
  apply (Z.lt_le_trans _ (2 ^ 1)); [reflexivity|]. apply Z.pow_le_mono_r; [reflexivity|vm_compute; discriminate].
Defined.

Lemma asN_witness :
  mspec (js_bigint_asUintN 64 (JS_TAG_SHORT_BIG_INT (-1)) true) (is_bigint (-1)) size_exn /\
  (asUintN_ok 64 (-1) (JS_TAG_SHORT_BIG_INT (-1)) ->
   mspec (js_bigint_asUintN 64 (JS_TAG_SHORT_BIG_INT (-1)) false) (is_bigint (wrap 64 (-1))) size_exn) /\
  (JS_TAG_SHORT_BIG_INT (-1) = JS_TAG_SHORT_BIG_INT (-1) -> -1 < 0 -> JS_LIMB_BITS <= 64 ->
   mspec (js_bigint_asUintN 64 (JS_TAG_SHORT_BIG_INT (-1)) false)
     (fun r => r = JS_TAG_SHORT_BIG_INT (-1) /\ ~ is_bigint (wrap 64 (-1)) r) no_exn).
Proof. apply (asN_correct 64 (-1)); [exact short_minus_one|lia]. Defined.

Lemma bigint64_roundtrip_witness :
  mspec (b ← JS_NewBigInt64 (- 2 ^ 63); JS_ToBigInt64Free b) (fun r => r = - 2 ^ 63) no_exn.
Proof. apply bigint64_roundtrip. lia. Defined.

(** 0x4004000000000000 is 2.5: the integral part is 2, and the tie rounds to 2. *)
Lemma float64_to_int_witness :
  float64_to_int32 0x4004000000000000 = swrap 32 2 /\
  float64_to_int32_sat 0x4004000000000000 = clamp INT32_MIN INT32_MAX 2 /\
  float64_to_uint8_clamp 0x4004000000000000 = clamp 0 255 2.
Proof.
  destruct (float64_to_int_correct 0x4004000000000000 ltac:(lia)) as (H1 & _ & H3).
  destruct (H1 eq_refl) as [H _]. destruct (H3 eq_refl) as (H4 & _ & H5). exact (conj H (conj H4 H5)).
Defined.

(** -0 *)
Lemma new_float64_witness :
  num_scaled (JS_NewFloat64 (2 ^ 63)) = num_scaled (JS_TAG_FLOAT64 (2 ^ 63)) /\
  (forall v, JS_NewFloat64 (2 ^ 63) = JS_TAG_INT v -> 2 ^ 63 = float64_round v /\ INT32_MIN <= v <= INT32_MAX).
Proof. apply new_float64_faithful. lia. Defined.
