(* ===== verification/Cutils.v ===== *)
(** The C utilities (cutils.c, cutils.h): bounded string copies, dynamic buffers,
    UTF-8, surrogate pairs and unaligned little-endian accesses: definitions and their
    correctness.

    A C string argument is the list of its bytes without the final zero byte; a
    buffer is the list of its bytes.  [size_t] has 32 bits on wasm32 and 64 bits
    on 64-bit hosts; the development is generic in it. *)
From stdpp Require Import base tactics list numbers.
From Stdlib Require Import ZArith Lia.
From S2P Require Import Prelude.

Open Scope Z_scope.

Class SizeConfig := {
  SIZE_BITS : Z;
  size_bits_cases : SIZE_BITS = 32 \/ SIZE_BITS = 64
}.

(** The content of the bytes that [realloc] adds. *)
Class RawMemory := { raw_byte : nat -> Z }.

(** ** Strings *)

(** [pstrcpy(buf, buf_size, str)] on the bytes from [buf] on: one [char] is
    written per round until the string or the room ends, then the zero. *)
Fixpoint pstrcpy_loop (buf : list Z) (q room : Z) (str : list Z) : M (list Z) :=
  match str with
  | c :: str' =>
      if (c =? 0) || (room <=? q) then tab_set buf q 0
      else buf ← tab_set buf q c; pstrcpy_loop buf (q + 1) room str'
  | [] => tab_set buf q 0
  end.

Definition pstrcpy (buf : list Z) (buf_size : Z) (str : list Z) : M (list Z) :=
  if buf_size <=? 0 then mret buf else pstrcpy_loop buf 0 (buf_size - 1) str.

(** [strlen] of the bytes of a buffer: the search for the zero stays inside it. *)
Fixpoint strlen (buf : list Z) : M Z :=
  match buf with
  | [] => undefined
  | c :: buf' => if c =? 0 then mret 0 else n ← strlen buf'; mret (n + 1)
  end.

Definition pstrcat (buf : list Z) (buf_size : Z) (s : list Z) : M (list Z) :=
  l ← strlen buf;
  if l <? buf_size then
    tail ← pstrcpy (drop (Z.to_nat l) buf) (buf_size - l) s;
    mret (take (Z.to_nat l) buf ++ tail)
  else mret buf.

(** The rest of the string after the prefix, or nothing. *)
Fixpoint strstart (str val : list Z) {struct val} : option (list Z) :=
  match val with
  | [] => Some str
  | q :: val' =>
      match str with
      | p :: str' => if p =? q then strstart str' val' else None
      | [] => None
      end
  end.

Definition has_suffix (str suffix : list Z) : bool :=
  let l := len str in
  let slen := len suffix in
  (slen <=? l) && bool_decide (take (Z.to_nat slen) (drop (Z.to_nat (l - slen)) str) = suffix).

(** ** Little-endian accesses *)

Fixpoint le_bytes (n : nat) (v : Z) : list Z :=
  match n with O => [] | S n => v mod 256 :: le_bytes n (v / 256) end.

Fixpoint le_value (l : list Z) : Z :=
  match l with [] => 0 | b :: l => b + 256 * le_value l end.

Definition get_u16 (tab : list Z) : M Z := b ← tab_slice tab 0 2; mret (le_value b).
Definition get_u32 (tab : list Z) : M Z := b ← tab_slice tab 0 4; mret (le_value b).
Definition get_u64 (tab : list Z) : M Z := b ← tab_slice tab 0 8; mret (le_value b).
Definition get_i16 (tab : list Z) : M Z := v ← get_u16 tab; mret (swrap 16 v).
Definition get_i32 (tab : list Z) : M Z := v ← get_u32 tab; mret (swrap 32 v).
Definition get_i64 (tab : list Z) : M Z := v ← get_u64 tab; mret (swrap 64 v).
Definition put_u16 (tab : list Z) (off val : Z) : M (list Z) := tab_blit tab off (le_bytes 2 val).
Definition put_u32 (tab : list Z) (off val : Z) : M (list Z) := tab_blit tab off (le_bytes 4 val).
Definition put_u64 (tab : list Z) (off val : Z) : M (list Z) := tab_blit tab off (le_bytes 8 val).

Definition bswap16 (x : Z) : Z := wrap 16 (Z.lor (Z.shiftr x 8) (Z.shiftl x 8)).
Definition bswap32 (v : Z) : Z :=
  Z.lor (Z.lor (Z.shiftr (Z.land v 0xff000000) 24) (Z.shiftr (Z.land v 0x00ff0000) 8))
        (Z.lor (wrap 32 (Z.shiftl (Z.land v 0x0000ff00) 8)) (wrap 32 (Z.shiftl (Z.land v 0x000000ff) 24))).

(** ** Dynamic buffers *)

Record DynBuf : Type := MkDynBuf {
  buf : list Z;           (* the allocated block, empty for NULL *)
  size : Z;
  allocated_size : Z;
  error : bool
}.

Definition dbuf_init : DynBuf := MkDynBuf [] 0 0 false.

Section DynBuf.
Context `{SC : SizeConfig} `{RM : RawMemory}.

(** [realloc] to a larger size keeps the old bytes. *)
Definition grow (b : list Z) (n : Z) : list Z :=
  b ++ (raw_byte <$> seq (length b) (Z.to_nat n - length b)).

Definition dbuf_claim (s : DynBuf) (l : Z) : M (Z * DynBuf) :=
  let new_size := wrap SIZE_BITS (size s + l) in
  if new_size <? l then mret (-1, s)
  else if allocated_size s <? new_size then
    if error s then mret (-1, s)
    else
      let sz := wrap SIZE_BITS (allocated_size s + allocated_size s / 2) in
      if sz <? allocated_size s then mret (-1, s)
      else
        let new_size := if new_size <? sz then sz else new_size in
        ok ← try_alloc;
        if negb ok then mret (-1, MkDynBuf (buf s) (size s) (allocated_size s) true)
        else mret (0, MkDynBuf (grow (buf s) new_size) (size s) new_size (error s))
  else mret (0, s).

(** The common start of the functions that append: enough room or a claim. *)
Definition dbuf_room (s : DynBuf) (l : Z) : M (Z * DynBuf) :=
  if wrap SIZE_BITS (allocated_size s - size s) <? l then dbuf_claim s l else mret (0, s).

Definition dbuf_put (s : DynBuf) (data : list Z) : M (Z * DynBuf) :=
  '(ret, s) ← dbuf_room s (len data);
  if negb (ret =? 0) then mret (-1, s)
  else
    b ← tab_blit (buf s) (size s) data;
    mret (0, MkDynBuf b (size s + len data) (allocated_size s) (error s)).

Definition dbuf_put_self (s : DynBuf) (offset l : Z) : M (Z * DynBuf) :=
  '(ret, s) ← dbuf_room s l;
  if negb (ret =? 0) then mret (-1, s)
  else if (offset <? size s + l) && (size s <? offset + l) then undefined   (* overlapping memcpy *)
  else
    data ← tab_slice (buf s) offset l;
    b ← tab_blit (buf s) (size s) data;
    mret (0, MkDynBuf b (size s + l) (allocated_size s) (error s)).

Definition __dbuf_putc (s : DynBuf) (c : Z) : M (Z * DynBuf) := dbuf_put s (le_bytes 1 c).
Definition __dbuf_put_u16 (s : DynBuf) (val : Z) : M (Z * DynBuf) := dbuf_put s (le_bytes 2 val).
Definition __dbuf_put_u32 (s : DynBuf) (val : Z) : M (Z * DynBuf) := dbuf_put s (le_bytes 4 val).
Definition __dbuf_put_u64 (s : DynBuf) (val : Z) : M (Z * DynBuf) := dbuf_put s (le_bytes 8 val).
Definition dbuf_putstr (s : DynBuf) (str : list Z) : M (Z * DynBuf) := dbuf_put s str.

(** The inline versions with a fast path. *)
Definition dbuf_putc (s : DynBuf) (val : Z) : M (Z * DynBuf) :=
  if wrap SIZE_BITS (allocated_size s - size s) <? 1 then __dbuf_putc s val
  else
    b ← tab_set (buf s) (size s) (wrap 8 val);
    mret (0, MkDynBuf b (size s + 1) (allocated_size s) (error s)).

Definition dbuf_put_u16 (s : DynBuf) (val : Z) : M (Z * DynBuf) :=
  if wrap SIZE_BITS (allocated_size s - size s) <? 2 then __dbuf_put_u16 s val
  else
    b ← put_u16 (buf s) (size s) val;
    mret (0, MkDynBuf b (size s + 2) (allocated_size s) (error s)).

Definition dbuf_put_u32 (s : DynBuf) (val : Z) : M (Z * DynBuf) :=
  if wrap SIZE_BITS (allocated_size s - size s) <? 4 then __dbuf_put_u32 s val
  else
    b ← put_u32 (buf s) (size s) val;
    mret (0, MkDynBuf b (size s + 4) (allocated_size s) (error s)).

Definition dbuf_put_u64 (s : DynBuf) (val : Z) : M (Z * DynBuf) :=
  if wrap SIZE_BITS (allocated_size s - size s) <? 8 then __dbuf_put_u64 s val
  else
    b ← put_u64 (buf s) (size s) val;
    mret (0, MkDynBuf b (size s + 8) (allocated_size s) (error s)).

Definition dbuf_free (s : DynBuf) : DynBuf := dbuf_init.
Definition dbuf_error (s : DynBuf) : bool := error s.
Definition dbuf_set_error (s : DynBuf) : DynBuf := MkDynBuf (buf s) (size s) (allocated_size s) true.

End DynBuf.

(** ** UTF-8 *)

Definition unicode_to_utf8 (c : Z) : list Z :=
  if c <? 0x80 then [c]
  else
    let b6 := [Z.lor (Z.land c 0x3f) 0x80] in
    if c <? 0x800 then Z.lor (Z.shiftr c 6) 0xc0 :: b6
    else
      let b12 := Z.lor (Z.land (Z.shiftr c 6) 0x3f) 0x80 :: b6 in
      if c <? 0x10000 then Z.lor (Z.shiftr c 12) 0xe0 :: b12
      else
        let b18 := Z.lor (Z.land (Z.shiftr c 12) 0x3f) 0x80 :: b12 in
        if c <? 0x00200000 then Z.lor (Z.shiftr c 18) 0xf0 :: b18
        else
          let b24 := Z.lor (Z.land (Z.shiftr c 18) 0x3f) 0x80 :: b18 in
          if c <? 0x04000000 then Z.lor (Z.shiftr c 24) 0xf8 :: b24
          else if c <? 0x80000000 then
            Z.lor (Z.shiftr c 30) 0xfc :: Z.lor (Z.land (Z.shiftr c 24) 0x3f) 0x80 :: b24
          else [].

Definition utf8_min_code : list Z := [0x80; 0x800; 0x10000; 0x00200000; 0x04000000].
Definition utf8_first_code_mask : list Z := [0x1f; 0xf; 0x7; 0x3; 0x1].

(** The [switch] on the first byte: the number of continuation bytes. *)
Definition utf8_cont_len (c : Z) : option nat :=
  if (0xc0 <=? c) && (c <=? 0xdf) then Some 1%nat
  else if (0xe0 <=? c) && (c <=? 0xef) then Some 2%nat
  else if (0xf0 <=? c) && (c <=? 0xf7) then Some 3%nat
  else if (0xf8 <=? c) && (c <=? 0xfb) then Some 4%nat
  else if (0xfc <=? c) && (c <=? 0xfd) then Some 5%nat
  else None.

(** [for(i = 0; i < l; i++)]: the code point, or -1, and where the reading stops. *)
Fixpoint utf8_cont (l : nat) (c : Z) (p : list Z) : M (Z * list Z) :=
  match l with
  | O => mret (c, p)
  | S l =>
      match p with
      | [] => undefined
      | b :: p =>
          if (b <? 0x80) || (0xc0 <=? b) then mret (-1, p)
          else utf8_cont l (Z.lor (Z.shiftl c 6) (Z.land b 0x3f)) p
      end
  end.

(** The code point, or -1, and the new value of the pointer. *)
Definition unicode_from_utf8 (p : list Z) (max_len : Z) : M (Z * list Z) :=
  match p with
  | [] => undefined
  | c :: p1 =>
      if c <? 0x80 then mret (c, p1)
      else
        match utf8_cont_len c with
        | None => mret (-1, p)
        | Some l =>
            if max_len - 1 <? Z.of_nat l then mret (-1, p)
            else
              mask ← tab_get utf8_first_code_mask (Z.of_nat l - 1);
              '(c, p2) ← utf8_cont l (Z.land c mask) p1;
              if c =? -1 then mret (-1, p)
              else
                min_code ← tab_get utf8_min_code (Z.of_nat l - 1);
                if c <? min_code then mret (-1, p) else mret (c, p2)
        end
  end.

(** ** Surrogate pairs *)

Definition is_surrogate (c : Z) : bool := Z.shiftr c 11 =? Z.shiftr 0xD800 11.
Definition is_hi_surrogate (c : Z) : bool := Z.shiftr c 10 =? Z.shiftr 0xD800 10.
Definition is_lo_surrogate (c : Z) : bool := Z.shiftr c 10 =? Z.shiftr 0xDC00 10.
Definition get_hi_surrogate (c : Z) : Z := wrap 32 (Z.shiftr c 10 - Z.shiftr 0x10000 10 + 0xD800).
Definition get_lo_surrogate (c : Z) : Z := Z.lor (Z.land c 0x3FF) 0xDC00.
Definition from_surrogate (hi lo : Z) : Z := wrap 32 (0x10000 + 0x400 * (hi - 0xD800) + (lo - 0xDC00)).

Definition from_hex (c : Z) : Z :=
  if (48 <=? c) && (c <=? 57) then c - 48
  else if (65 <=? c) && (c <=? 70) then c - 65 + 10
  else if (97 <=? c) && (c <=? 102) then c - 97 + 10
  else -1.

(** ** Strings *)

Lemma strstart_spec str val rest : strstart str val = Some rest <-> str = val ++ rest.
Proof.
  revert str. induction val as [|q val IH]; intros str; cbn [strstart app].
  - split; [intros E; injection E; auto|intros ->; reflexivity].
  - destruct str as [|p str]; [split; discriminate|]. destruct (Z.eqb_spec p q) as [->|Hne].
    + rewrite IH. split; [intros ->; reflexivity|intros E; injection E; auto].
    + split; [discriminate|intros E; injection E; congruence].
Qed.

(** ** Little-endian integers *)

Lemma le_bytes_length n v : length (le_bytes n v) = n.
Proof. revert v. induction n as [|n IH]; intros v; cbn; [reflexivity|]. rewrite IH. reflexivity. Qed.

Lemma le_value_bytes n v : le_value (le_bytes n v) = v mod 256 ^ Z.of_nat n.
Proof.
  revert v. induction n as [|n IH]; intros v; cbn [le_bytes le_value].
  - rewrite Z.pow_0_r, Z.mod_1_r. reflexivity.
  - rewrite IH, Nat2Z.inj_succ, Z.pow_succ_r, Z.rem_mul_r by lia. reflexivity.
Qed.

(** ** Dynamic buffers *)

Section DynBufSpecs.
Context `{SC : SizeConfig} `{RM : RawMemory} (G : Prop).

Definition SIZE_LIMIT : Z := 2 ^ SIZE_BITS.

Definition dbuf_ok (s : DynBuf) : Prop :=
  0 <= size s <= allocated_size s /\ len (buf s) = allocated_size s /\ allocated_size s < SIZE_LIMIT.

(** The bytes written so far. *)
Definition content (s : DynBuf) : list Z := take (Z.to_nat (size s)) (buf s).

(** A request for [l] more bytes leaves [size_t], or the next growth does. *)
Definition dbuf_overflows (s : DynBuf) (l : Z) : Prop :=
  SIZE_LIMIT <= size s + l \/ SIZE_LIMIT <= allocated_size s + allocated_size s / 2.

(** What a claim leaves unchanged: the bytes, and the error flag unless it fails. *)
Definition claimed (s : DynBuf) (l : Z) (r : Z * DynBuf) : Prop :=
  let '(ret, s') := r in
  dbuf_ok s' /\ size s' = size s /\ content s' = content s /\
  ((ret = 0 /\ size s + l <= allocated_size s' /\ error s' = error s /\
    (allocated_size s' = allocated_size s \/ 2 * allocated_size s' <= 3 * (size s + l))) \/
   (ret = -1 /\ allocated_size s < size s + l /\ allocated_size s' = allocated_size s /\ (error s' = true \/ dbuf_overflows s l) /\ (G -> error s = true \/ dbuf_overflows s l))).

Lemma size_limit_big : 2 ^ 32 <= SIZE_LIMIT.
Proof. unfold SIZE_LIMIT. destruct size_bits_cases as [-> | ->]; lia. Qed.

Lemma wrap_size x : 0 <= x < SIZE_LIMIT -> wrap SIZE_BITS x = x.
Proof. apply wrap_small. Qed.

Lemma content_grow s n :
  dbuf_ok s -> allocated_size s <= n ->
  len (grow (buf s) n) = n /\ take (Z.to_nat (size s)) (grow (buf s) n) = content s.
Proof.
  intros (H1 & H2 & H3) Hn. unfold grow, content, len in *. split.
  - rewrite length_app, length_fmap, length_seq. lia.
  - apply take_app_le. lia.
Qed.

Lemma dbuf_claim_spec s l E :
  dbuf_ok s -> 0 <= l < SIZE_LIMIT -> gspec G (dbuf_claim s l) (claimed s l) E.
Proof.
  intros Hs Hl. pose proof Hs as (H1 & H2 & H3). unfold dbuf_claim.
  assert (forall e, allocated_size s < size s + l -> claimed s l (-1, MkDynBuf (buf s) (size s) (allocated_size s) e) <-> (e = true \/ dbuf_overflows s l) /\ (G -> error s = true \/ dbuf_overflows s l)) as Hfail.
  { intros e Hbig. unfold claimed, content, dbuf_ok. cbn [buf size allocated_size error]. intuition lia. }
  assert (forall e, allocated_size s < size s + l -> error s = e -> claimed s l (-1, s) <-> e = true \/ dbuf_overflows s l) as Hsame.
  { intros e Hbig He. specialize (Hfail e Hbig). replace (MkDynBuf (buf s) (size s) (allocated_size s) e) with s in Hfail by (rewrite <- He; destruct s; reflexivity).
    rewrite Hfail, <- He. clear. intuition. }
  destruct (Z.lt_ge_cases (size s + l) SIZE_LIMIT) as [Hov|Hov].
  - rewrite wrap_size by lia. rewrite (proj2 (Z.ltb_ge (size s + l) l)) by lia.
    destruct (Z.ltb_spec (allocated_size s) (size s + l)) as [Hbig|Hfit].
    + destruct (error s) eqn:Eerr; [apply gspec_ret, (Hsame true Hbig); auto|].
      pose proof (Z.div_mod (allocated_size s) 2 ltac:(lia)) as Ed.
      pose proof (Z.mod_pos_bound (allocated_size s) 2 ltac:(lia)) as Hm.
      destruct (Z.lt_ge_cases (allocated_size s + allocated_size s / 2) SIZE_LIMIT) as [Hov2|Hov2].
      * rewrite wrap_size, (proj2 (Z.ltb_ge _ (allocated_size s))) by lia.
        set (n := if _ <? _ then _ else _). assert (size s + l <= n /\ 2 * n <= 3 * (size s + l) /\ n < SIZE_LIMIT) as (Hn1 & Hn2 & Hn3).
        { unfold n. case_tests; lia. }
        clearbody n. eapply gspec_bind; [apply gspec_try_alloc|]. intros ok Hgr. destruct ok; cbn [negb]; apply gspec_ret.
        -- destruct (content_grow s n Hs ltac:(lia)) as [G1 G2]. unfold claimed, dbuf_ok, content. cbn [buf size allocated_size error]. rewrite G2.
           repeat split; try lia. left. repeat split; [lia|congruence|right; lia].
        -- apply (Hfail _ Hbig). split; [auto|]. intros HG. destruct (Hgr eq_refl HG).
      * assert (claimed s l (-1, s)) as Hc by (apply (Hsame false Hbig eq_refl); right; right; exact Hov2).
        assert (wrap SIZE_BITS (allocated_size s + allocated_size s / 2) < allocated_size s) as Hlt.
        { unfold wrap. rewrite Z.mod_eq by (pose proof size_limit_big; unfold SIZE_LIMIT in *; lia). fold SIZE_LIMIT.
          assert ((allocated_size s + allocated_size s / 2) / SIZE_LIMIT = 1) as -> by (symmetry; apply (Z.div_unique_pos _ _ _ (allocated_size s + allocated_size s / 2 - SIZE_LIMIT)); lia).
          lia. }
        rewrite (proj2 (Z.ltb_lt _ _) Hlt). apply gspec_ret, Hc.
    + apply gspec_ret. unfold claimed. intuition lia.
  - assert (wrap SIZE_BITS (size s + l) < l) as Hlt.
    { unfold wrap. rewrite Z.mod_eq by (pose proof size_limit_big; unfold SIZE_LIMIT in *; lia). fold SIZE_LIMIT.
      assert ((size s + l) / SIZE_LIMIT = 1) as -> by (symmetry; apply (Z.div_unique_pos _ _ _ (size s + l - SIZE_LIMIT)); lia). lia. }
    rewrite (proj2 (Z.ltb_lt _ _) Hlt). apply gspec_ret, (Hsame _ ltac:(lia) eq_refl). right. left. exact Hov.
Qed.

Lemma dbuf_room_spec s l E :
  dbuf_ok s -> 0 <= l < SIZE_LIMIT -> gspec G (dbuf_room s l) (claimed s l) E.
Proof.
  intros Hs Hl. pose proof Hs as (H1 & H2 & H3). unfold dbuf_room. rewrite wrap_size by lia.
  destruct (Z.ltb_spec (allocated_size s - size s) l); [apply dbuf_claim_spec; assumption|].
  apply gspec_ret. unfold claimed. intuition lia.
Qed.

(** What an append does: the bytes are added, or nothing is and the failure is
    recorded in the error flag unless the size overflows. *)
Definition appended (s : DynBuf) (data : list Z) (r : Z * DynBuf) : Prop :=
  let '(ret, s') := r in
  dbuf_ok s' /\
  ((ret = 0 /\ content s' = content s ++ data /\ size s' = size s + len data /\ error s' = error s /\
    (allocated_size s' = allocated_size s \/ 2 * allocated_size s' <= 3 * (size s + len data))) \/
   (ret = -1 /\ 0 < len data /\ content s' = content s /\ size s' = size s /\ allocated_size s' = allocated_size s /\
    (error s' = true \/ dbuf_overflows s (len data)) /\ (G -> error s = true \/ dbuf_overflows s (len data)))).

Lemma content_blit s data :
  dbuf_ok s -> size s + len data <= allocated_size s ->
  exists b, tab_blit (buf s) (size s) data = mret b /\ len b = allocated_size s /\
    take (Z.to_nat (size s + len data)) b = content s ++ data.
Proof.
  intros (H1 & H2 & H3) Hfit. pose proof (len_nonneg data). unfold len in *.
  assert (buf s = content s ++ take (length data) (drop (Z.to_nat (size s)) (buf s)) ++ drop (length data) (drop (Z.to_nat (size s)) (buf s))) as Eb.
  { unfold content. rewrite take_drop, take_drop. reflexivity. }
  set (w := take _ (drop _ _)) in Eb. set (tl := drop (length data) _) in Eb.
  assert (length (content s) = Z.to_nat (size s)) as Hc by (unfold content; rewrite length_take; lia).
  assert (length w = length data) as Hw by (unfold w; rewrite length_take, length_drop; lia).
  exists (content s ++ data ++ tl). split; [|split].
  - rewrite Eb. apply tab_blit_app; [unfold len; lia|lia].
  - rewrite !length_app. rewrite Eb, !length_app in H2. lia.
  - rewrite app_assoc. apply take_app_length'. rewrite length_app. lia.
Qed.

(** Appending after a claim that succeeded, and a claim that failed. *)
Lemma append_claimed s s' data E :
  claimed s (len data) (0, s') ->
  gspec G (b ← tab_blit (buf s') (size s') data; mret (0, MkDynBuf b (size s' + len data) (allocated_size s') (error s')))
    (appended s data) E.
Proof.
  intros (Hok & Hsz & Hc & [(_ & Hfit & He & Ha)|(? & _)]); [|lia].
  destruct (content_blit s' data Hok) as (b & -> & Hb1 & Hb2); [lia|]. rewrite ret_bind. apply gspec_ret.
  split; [pose proof Hok as (? & ? & ?); unfold dbuf_ok; cbn [buf size allocated_size error]; pose proof (len_nonneg data); lia|].
  left. unfold content at 1. cbn [buf size allocated_size error]. rewrite Hb2, Hc. intuition lia.
Qed.

Lemma append_refused s s' data ret :
  claimed s (len data) (ret, s') -> ret <> 0 -> appended s data (-1, s').
Proof. intros (Hok & Hsz & Hc & [(? & _)|(_ & Hb & Ha & He)]) Hr; [lia|]. split; [exact Hok|]. right. pose proof Hok as (H1 & _). intuition lia. Qed.

Lemma dbuf_put_spec s data E :
  dbuf_ok s -> len data < SIZE_LIMIT -> gspec G (dbuf_put s data) (appended s data) E.
Proof.
  intros Hs Hl. eapply gspec_bind; [apply (dbuf_room_spec s (len data) E Hs); pose proof (len_nonneg data); lia|].
  intros [ret s'] Hc. destruct (Z.eqb_spec ret 0) as [->|Hr]; cbn [negb].
  - apply append_claimed, Hc.
  - apply gspec_ret, (append_refused _ _ _ _ Hc Hr).
Qed.

(** An inline append with a fast path is the general one. *)
Lemma fast_append_spec s data l E (m : M (list Z)) :
  dbuf_ok s -> l = len data -> l < SIZE_LIMIT -> m = tab_blit (buf s) (size s) data \/ allocated_size s - size s < l ->
  gspec G (if wrap SIZE_BITS (allocated_size s - size s) <? l then dbuf_put s data
         else b ← m; mret (0, MkDynBuf b (size s + l) (allocated_size s) (error s)))
    (appended s data) E.
Proof.
  intros Hs -> Hl Hm. pose proof Hs as (H1 & H2 & H3). rewrite wrap_size by lia.
  destruct (Z.ltb_spec (allocated_size s - size s) (len data)) as [Hlt|Hge]; [apply dbuf_put_spec; assumption|].
  destruct Hm as [-> | Hm]; [|lia]. destruct (content_blit s data Hs) as (b & -> & Hb1 & Hb2); [lia|].
  rewrite ret_bind. apply gspec_ret. pose proof (len_nonneg data). split; [unfold dbuf_ok; cbn [buf size allocated_size error]; lia|]. left.
  unfold content at 1. cbn [buf size allocated_size error]. rewrite Hb2. intuition lia.
Qed.

(** ** A buffer written by a sequence of appends

    The writers of the engine append without looking at the return codes and test
    [dbuf_error] once, at the end. *)

Inductive dbuf_op : Type :=
| OpPutc (c : Z) | OpPutU16 (v : Z) | OpPutU32 (v : Z) | OpPutU64 (v : Z) | OpPut (data : list Z) | OpPutstr (str : list Z).

Definition dbuf_step (s : DynBuf) (op : dbuf_op) : M (Z * DynBuf) :=
  match op with
  | OpPutc c => dbuf_putc s c
  | OpPutU16 v => dbuf_put_u16 s v
  | OpPutU32 v => dbuf_put_u32 s v
  | OpPutU64 v => dbuf_put_u64 s v
  | OpPut data => dbuf_put s data
  | OpPutstr str => dbuf_putstr s str
  end.

Definition op_bytes (op : dbuf_op) : list Z :=
  match op with
  | OpPutc c => le_bytes 1 c
  | OpPutU16 v => le_bytes 2 v
  | OpPutU32 v => le_bytes 4 v
  | OpPutU64 v => le_bytes 8 v
  | OpPut data | OpPutstr data => data
  end.

Fixpoint dbuf_run (s : DynBuf) (ops : list dbuf_op) : M DynBuf :=
  match ops with
  | [] => mret s
  | op :: ops => '(_, s) ← dbuf_step s op; dbuf_run s ops
  end.

Definition all_bytes (ops : list dbuf_op) : list Z := concat (op_bytes <$> ops).

Lemma dbuf_step_spec s op E :
  dbuf_ok s -> len (op_bytes op) < SIZE_LIMIT -> gspec G (dbuf_step s op) (appended s (op_bytes op)) E.
Proof.
  intros Hs Hl. pose proof size_limit_big. destruct op; cbn [op_bytes dbuf_step] in *; try (apply dbuf_put_spec; assumption);
    (apply fast_append_spec; [exact Hs|reflexivity|lia|]).
  - destruct (Z.lt_ge_cases (allocated_size s - size s) 1) as [H1|H1]; [right; exact H1|left].
    pose proof Hs as (Hsz & Hb & _). destruct (lookup_lt_is_Some_2 (buf s) (Z.to_nat (size s))) as [x Hx]; [unfold len in Hb; lia|].
    assert (size s = len (take (Z.to_nat (size s)) (buf s))) as Esz by (unfold len in *; rewrite length_take; lia).
    rewrite <- (take_drop_middle _ _ _ Hx) at 1 2. etransitivity; [apply tab_set_app, Esz|].
    symmetry. apply (tab_blit_app _ [x] (le_bytes 1 c)); [exact Esz|reflexivity].
  - left. reflexivity.
  - left. reflexivity.
  - left. reflexivity.
Qed.

(** The state of a run: everything appended, or the error flag set and something lost. *)
Definition run_ok (total : Z) (s : DynBuf) (bytes : list Z) (s' : DynBuf) : Prop :=
  dbuf_ok s' /\ (error s = true -> error s' = true) /\ (G -> error s = false -> error s' = false) /\ 2 * allocated_size s' <= 3 * total /\
  (error s' = false -> content s' = content s ++ bytes) /\
  len (content s') <= len (content s) + len bytes /\ (error s = false -> error s' = true -> len (content s') < len (content s) + len bytes).

Lemma dbuf_run_spec total s ops E :
  dbuf_ok s -> 4 * total <= SIZE_LIMIT -> size s + len (all_bytes ops) <= total -> 2 * allocated_size s <= 3 * total ->
  gspec G (dbuf_run s ops) (run_ok total s (all_bytes ops)) E.
Proof.
  intros Hs Ht. revert s Hs. induction ops as [|op ops IH]; intros s Hs Hsize Ha; cbn [dbuf_run].
  - apply gspec_ret. split; [exact Hs|]. split; [auto|]. split; [auto|]. split; [exact Ha|]. change (all_bytes []) with (@nil Z). rewrite app_nil_r. change (len (@nil Z)) with 0. split; [auto|]. split; [lia|congruence].
  - assert (all_bytes (op :: ops) = op_bytes op ++ all_bytes ops) as Eb by reflexivity. rewrite Eb in *. rewrite len_app in Hsize.
    pose proof (len_nonneg (op_bytes op)). pose proof (len_nonneg (all_bytes ops)). pose proof Hs as (Hsz & _). pose proof size_limit_big.
    eapply gspec_bind; [apply dbuf_step_spec; [exact Hs|lia]|].
    intros [ret s'] (Hok & Hcase). cbn [appended] in *.
    destruct Hcase as [(-> & Hc & Hs' & He & Ha')|(-> & Hpos & Hc & Hs' & Ha' & He & Hg)].
    + eapply gspec_mono; [apply IH; [exact Hok|lia|lia]| |auto]. intros s2 (G1 & G2 & G5 & G3 & G4 & G6 & G7). rewrite Hc, len_app in G6, G7. unfold run_ok. rewrite len_app.
      split; [exact G1|]. split; [rewrite <- He; exact G2|]. split; [rewrite <- He; exact G5|]. split; [exact G3|]. split; [intros Hf; rewrite (G4 Hf), Hc, <- app_assoc; reflexivity|]. split; [lia|]. intros Hf He2. specialize (G7 ltac:(congruence) He2). lia.
    + assert (~ dbuf_overflows s (len (op_bytes op))) as Hno.
      { intros [H'|H']; [lia|]. pose proof (Z.div_mod (allocated_size s) 2 ltac:(lia)). pose proof (Z.mod_pos_bound (allocated_size s) 2 ltac:(lia)). lia. }
      assert (error s' = true) as He' by (destruct He; [assumption|contradiction]).
      eapply gspec_mono; [apply IH; [exact Hok|lia|lia]| |auto]. intros s2 (G1 & G2 & _ & G3 & G4 & G6 & _). rewrite Hc in G6. unfold run_ok. rewrite len_app.
      specialize (G2 He'). split; [exact G1|]. split; [auto|]. split; [|split; [exact G3|split; [congruence|split; lia]]].
      intros HG Hf. destruct (Hg HG); [congruence|contradiction].
Qed.

Lemma dbuf_init_ok : dbuf_ok dbuf_init.
Proof. pose proof size_limit_big. unfold dbuf_ok, dbuf_init. cbn [buf size allocated_size]. change (len (@nil Z)) with 0. lia. Qed.

(** Copying bytes already written. *)
Lemma dbuf_put_self_spec s offset l E :
  dbuf_ok s -> 0 <= offset -> 0 <= l -> offset + l <= size s ->
  gspec G (dbuf_put_self s offset l) (appended s (take (Z.to_nat l) (drop (Z.to_nat offset) (content s)))) E.
Proof.
  intros Hs Ho Hl Hin. pose proof Hs as (H1 & H2 & H3). set (data := take _ _).
  assert (len data = l) as El by (unfold data, content, len in *; rewrite length_take, length_drop, length_take; lia).
  eapply gspec_bind; [apply (dbuf_room_spec s l E Hs); lia|]. rewrite <- El.
  intros [ret s'] Hc. destruct (Z.eqb_spec ret 0) as [->|Hr]; cbn [negb]; [|apply gspec_ret, (append_refused _ _ _ _ Hc Hr)].
  pose proof Hc as ((G1 & G2 & G3) & Hsz & Ec & _). rewrite El.
  rewrite (proj2 (Z.ltb_ge (size s') (offset + l))), andb_false_r by lia.
  unfold tab_slice. rewrite !(proj2 (Z.leb_le _ _)) by lia. cbn [andb]. rewrite ret_bind.
  assert (take (Z.to_nat l) (drop (Z.to_nat offset) (buf s')) = data) as ->.
  { unfold data. rewrite <- Ec. unfold content. rewrite Hsz, skipn_firstn_comm, take_take. f_equal. lia. }
  rewrite <- El. apply append_claimed, Hc.
Qed.

End DynBufSpecs.
