(* ===== verification/Utf8.v ===== *)
(** UTF-8 and UTF-16: [unicode_to_utf8] and [unicode_from_utf8] are inverse to
    each other on the 31-bit code points and the shortest encodings, and
    surrogate pairs encode the supplementary planes. *)
From stdpp Require Import base tactics list numbers.
From Stdlib Require Import ZArith Lia.
From S2P Require Import Prelude Cutils.

Open Scope Z_scope.

(** ** Bit fields *)

Lemma lor_field k a x : 0 <= k -> 0 <= x < 2 ^ k -> Z.lor x (a * 2 ^ k) = a * 2 ^ k + x.
Proof. intros Hk Hx. rewrite Z.lor_comm. rewrite <- Z.shiftl_mul_pow2, shl_lor_add, Z.shiftl_mul_pow2 by lia. reflexivity. Qed.

Definition cont_byte (c : Z) : Z := Z.lor (Z.land c 0x3f) 0x80.

Lemma cont_byte_eq c : cont_byte c = 128 + c mod 64.
Proof.
  unfold cont_byte. change 0x3f with (2 ^ 6 - 1). rewrite land_mask by lia.
  change 0x80 with (2 * 2 ^ 6). rewrite lor_field; [reflexivity|lia|]. apply Z.mod_pos_bound. lia.
Qed.

(** The [n] continuation bytes of a code point. *)
Fixpoint cont_bytes (n : nat) (c : Z) : list Z :=
  match n with
  | O => []
  | S n => cont_byte (Z.shiftr c (6 * Z.of_nat n)) :: cont_bytes n c
  end.

Lemma cont_bytes_length n c : length (cont_bytes n c) = n.
Proof. induction n as [|n IH]; cbn; congruence. Qed.

Lemma shiftr_6 c n : Z.shiftr c (6 * Z.of_nat n) = c / 64 ^ Z.of_nat n.
Proof. rewrite Z.shiftr_div_pow2, Z.pow_mul_r by lia. reflexivity. Qed.

(** Only the low bits matter. *)
Lemma cont_bytes_low n a c : 0 <= c < 64 ^ Z.of_nat n -> cont_bytes n (a * 64 ^ Z.of_nat n + c) = cont_bytes n c.
Proof.
  revert a c. induction n as [|n IH]; intros a c Hc; [reflexivity|]. cbn [cont_bytes].
  rewrite Nat2Z.inj_succ, Z.pow_succ_r in * by lia. set (P := 64 ^ Z.of_nat n) in *.
  assert (0 < P) as HP by (apply Z.pow_pos_nonneg; lia).
  replace (a * (64 * P) + c) with ((a * 64) * P + c) by ring. f_equal.
  - rewrite !cont_byte_eq, !shiftr_6. fold P. rewrite Z.div_add_l, (Z.add_comm (a * 64)), Z.mod_add by lia. reflexivity.
  - rewrite (Z.div_mod c P) at 1 2 by lia. replace (a * 64 * P + (P * (c / P) + c mod P)) with ((a * 64 + c / P) * P + c mod P) by ring.
    replace (P * (c / P) + c mod P) with (c / P * P + c mod P) by ring.
    rewrite !IH by (apply Z.mod_pos_bound; lia). reflexivity.
Qed.

(** A continuation byte adds six bits. *)
Lemma cont_step c b : 0 <= c -> 0x80 <= b < 0xc0 -> Z.lor (Z.shiftl c 6) (Z.land b 0x3f) = c * 64 + (b - 0x80).
Proof.
  intros Hc Hb. change 0x3f with (2 ^ 6 - 1). rewrite land_mask by lia.
  replace (b mod 2 ^ 6) with (b - 128) by (apply (Z.mod_unique_pos _ _ 2); lia).
  rewrite shl_lor_add by lia. reflexivity.
Qed.

Lemma utf8_cont_encode n acc c rest :
  0 <= acc -> 0 <= c < 64 ^ Z.of_nat n ->
  utf8_cont n acc (cont_bytes n c ++ rest) = mret (acc * 64 ^ Z.of_nat n + c, rest).
Proof.
  revert acc c. induction n as [|n IH]; intros acc c Ha Hc; cbn [cont_bytes app utf8_cont].
  - rewrite Z.pow_0_r in *. f_equal. f_equal. lia.
  - rewrite Nat2Z.inj_succ, Z.pow_succ_r in * by lia. set (P := 64 ^ Z.of_nat n) in *.
    assert (0 < P) as HP by (apply Z.pow_pos_nonneg; lia).
    rewrite cont_byte_eq, shiftr_6. fold P.
    assert (0 <= c / P < 64) as Hq by (split; [apply Z.div_pos; lia|apply Z.div_lt_upper_bound; lia]).
    rewrite (Z.mod_small (c / P) 64) by lia.
    rewrite (proj2 (Z.ltb_ge (128 + c / P) 128)), (proj2 (Z.leb_gt 192 (128 + c / P))) by lia. cbn [orb].
    rewrite cont_step by lia. pose proof (Z.div_mod c P ltac:(lia)) as Ed. pose proof (Z.mod_pos_bound c P HP) as Hm.
    assert (cont_bytes n c = cont_bytes n (c mod P)) as ->.
    { rewrite <- (cont_bytes_low n (c / P) (c mod P)) by exact Hm. f_equal. fold P. lia. }
    rewrite IH by lia. f_equal. f_equal. lia.
Qed.

(** What the loop accepts is an encoding. *)
Lemma utf8_cont_decode n acc p v rest o o' :
  0 <= acc -> utf8_cont n acc p o = (Ok (v, rest), o') ->
  v = -1 \/ exists c, 0 <= c < 64 ^ Z.of_nat n /\ v = acc * 64 ^ Z.of_nat n + c /\ p = cont_bytes n c ++ rest.
Proof.
  revert acc p. induction n as [|n IH]; intros acc p Ha H; cbn [utf8_cont] in H.
  - right. exists 0. rewrite Z.pow_0_r. injection H as <- <- <-. split; [lia|]. split; [lia|reflexivity].
  - destruct p as [|b p]; [discriminate|]. destruct ((b <? 0x80) || (0xc0 <=? b)) eqn:Eb; [injection H as <- <- <-; left; reflexivity|].
    apply orb_false_iff in Eb. destruct Eb as [Eb1 Eb2]. apply Z.ltb_ge in Eb1. apply Z.leb_gt in Eb2.
    rewrite cont_step in H by lia. apply IH in H; [|lia]. destruct H as [H|(c & Hc & -> & ->)]; [left; exact H|right].
    rewrite Nat2Z.inj_succ, Z.pow_succ_r by lia. set (P := 64 ^ Z.of_nat n) in *.
    exists ((b - 0x80) * P + c). assert ((b - 0x80) * P <= 63 * P) by (apply Z.mul_le_mono_nonneg_r; lia).
    assert (0 <= (b - 0x80) * P) by (apply Z.mul_nonneg_nonneg; lia). split; [lia|]. split; [ring|]. cbn [cont_bytes app]. f_equal.
    + rewrite cont_byte_eq, shiftr_6. fold P. rewrite Z.div_add_l, (Z.div_small c P), Z.add_0_r, Z.mod_small by lia. lia.
    + f_equal. symmetry. apply cont_bytes_low. exact Hc.
Qed.

(** ** Whole code points *)

(** Split the tests one after the other, dropping the impossible cases at once. *)
Ltac prune H :=
  repeat (match type of H with
          | context [?a <=? ?b] => destruct (Z.leb_spec a b); try (exfalso; lia)
          end; cbn [andb] in H).

(** The code points whose encoding has [n] continuation bytes. *)
Definition utf8_class (n : nat) (lo hi mask prefix : Z) : Prop :=
  (n, lo, hi, mask, prefix) ∈
    [(1%nat, 0x80, 0x800, 0x1f, 0xc0); (2%nat, 0x800, 0x10000, 0xf, 0xe0); (3%nat, 0x10000, 0x200000, 0x7, 0xf0);
     (4%nat, 0x200000, 0x4000000, 0x3, 0xf8); (5%nat, 0x4000000, 0x80000000, 0x1, 0xfc)].

Ltac classes H :=
  unfold utf8_class in H; rewrite !elem_of_cons in H; rewrite elem_of_nil in H;
  destruct H as [H|[H|[H|[H|[H|[]]]]]]; injection H as -> -> -> -> ->.

Lemma utf8_classes c : 0x80 <= c < 2 ^ 31 -> exists n lo hi mask prefix, utf8_class n lo hi mask prefix /\ lo <= c < hi.
Proof.
  intros Hc. unfold utf8_class.
  destruct (Z.lt_ge_cases c 0x800); [do 5 eexists; split; [constructor|lia]|].
  destruct (Z.lt_ge_cases c 0x10000); [do 5 eexists; split; [do 1 constructor; constructor|lia]|].
  destruct (Z.lt_ge_cases c 0x200000); [do 5 eexists; split; [do 2 constructor; constructor|lia]|].
  destruct (Z.lt_ge_cases c 0x4000000); [do 5 eexists; split; [do 3 constructor; constructor|lia]|].
  do 5 eexists; split; [do 4 constructor; constructor|lia].
Qed.

Lemma to_utf8_class n lo hi mask prefix c :
  utf8_class n lo hi mask prefix -> lo <= c < hi ->
  unicode_to_utf8 c = (prefix + c / 64 ^ Z.of_nat n) :: cont_bytes n c /\ 0 <= c / 64 ^ Z.of_nat n <= mask.
Proof.
  intros Hcl Hc. unfold unicode_to_utf8, cont_bytes, cont_byte.
  assert (forall k a, 0 <= k -> 0 <= c / 64 ^ Z.of_nat n < 2 ^ k -> Z.lor (Z.shiftr c (6 * Z.of_nat n)) (a * 2 ^ k) = a * 2 ^ k + c / 64 ^ Z.of_nat n) as Hlor.
  { intros k a Hk Hx. rewrite shiftr_6, lor_field by assumption. reflexivity. }
  classes Hcl; case_tests; try lia.
  - assert (0 <= c / 64 ^ Z.of_nat 1 < 2 ^ 5) as Hb by (split; [apply Z.div_pos; lia|apply Z.div_lt_upper_bound; lia]).
    split; [|lia]. f_equal. apply (Hlor 5 6); [lia|exact Hb].
  - assert (0 <= c / 64 ^ Z.of_nat 2 < 2 ^ 4) as Hb by (split; [apply Z.div_pos; lia|apply Z.div_lt_upper_bound; lia]).
    split; [|lia]. f_equal. apply (Hlor 4 14); [lia|exact Hb].
  - assert (0 <= c / 64 ^ Z.of_nat 3 < 2 ^ 3) as Hb by (split; [apply Z.div_pos; lia|apply Z.div_lt_upper_bound; lia]).
    split; [|lia]. f_equal. apply (Hlor 3 30); [lia|exact Hb].
  - assert (0 <= c / 64 ^ Z.of_nat 4 < 2 ^ 2) as Hb by (split; [apply Z.div_pos; lia|apply Z.div_lt_upper_bound; lia]).
    split; [|lia]. f_equal. apply (Hlor 2 62); [lia|exact Hb].
  - assert (0 <= c / 64 ^ Z.of_nat 5 < 2 ^ 1) as Hb by (split; [apply Z.div_pos; lia|apply Z.div_lt_upper_bound; lia]).
    split; [|lia]. f_equal. apply (Hlor 1 126); [lia|exact Hb].
Qed.

Lemma cont_len_range b :
  match utf8_cont_len b with
  | Some 1%nat => 0xc0 <= b <= 0xdf | Some 2%nat => 0xe0 <= b <= 0xef | Some 3%nat => 0xf0 <= b <= 0xf7
  | Some 4%nat => 0xf8 <= b <= 0xfb | Some 5%nat => 0xfc <= b <= 0xfd | Some _ => False
  | None => b < 0xc0 \/ 0xfd < b
  end.
Proof.
  destruct (utf8_cont_len b) as [m|] eqn:Em; unfold utf8_cont_len in Em; prune Em; try discriminate Em; try injection Em as <-; lia.
Qed.

(** The first byte tells the class and carries the top bits. *)
Lemma first_byte_class n lo hi mask prefix x :
  utf8_class n lo hi mask prefix -> 0 <= x <= mask ->
  utf8_cont_len (prefix + x) = Some n /\ Z.land (prefix + x) mask = x /\ 0x80 <= prefix + x /\
  tab_get utf8_first_code_mask (Z.of_nat n - 1) = mret mask /\ tab_get utf8_min_code (Z.of_nat n - 1) = mret lo /\
  hi = (mask + 1) * 64 ^ Z.of_nat n /\ 0 <= lo.
Proof.
  intros Hcl Hx.
  assert (forall k, mask = 2 ^ k - 1 -> 0 <= k -> (prefix mod 2 ^ k = 0) -> Z.land (prefix + x) mask = x) as Hland.
  { intros k -> Hk Hp. rewrite land_mask by lia. rewrite <- Z.add_mod_idemp_l, Hp, Z.add_0_l, Z.mod_small by lia. reflexivity. }
  pose proof (cont_len_range (prefix + x)) as Hlen.
  classes Hcl; (split; [destruct (utf8_cont_len _) as [[|[|[|[|[|[|m]]]]]]|]; (reflexivity || (exfalso; lia))|]);     (split; [first [apply (Hland 5); [reflexivity|lia|reflexivity]|apply (Hland 4); [reflexivity|lia|reflexivity]|apply (Hland 3); [reflexivity|lia|reflexivity]|apply (Hland 2); [reflexivity|lia|reflexivity]|apply (Hland 1); [reflexivity|lia|reflexivity]]|]);
    (split; [lia|]); (split; [reflexivity|]); (split; [reflexivity|]); split; (reflexivity || lia).
Qed.

Lemma cont_len_class b n : utf8_cont_len b = Some n -> exists lo hi mask prefix, utf8_class n lo hi mask prefix /\ 0 <= b - prefix <= mask.
Proof.
  intros H. pose proof (cont_len_range b) as Hr. rewrite H in Hr. unfold utf8_class.
  destruct n as [|[|[|[|[|[|n]]]]]]; try contradiction.
  - do 4 eexists. split; [do 0 apply list_elem_of_further; apply list_elem_of_here|lia].
  - do 4 eexists. split; [do 1 apply list_elem_of_further; apply list_elem_of_here|lia].
  - do 4 eexists. split; [do 2 apply list_elem_of_further; apply list_elem_of_here|lia].
  - do 4 eexists. split; [do 3 apply list_elem_of_further; apply list_elem_of_here|lia].
  - do 4 eexists. split; [do 4 apply list_elem_of_further; apply list_elem_of_here|lia].
Qed.

Lemma from_utf8_encode c rest max_len :
  0 <= c < 2 ^ 31 -> len (unicode_to_utf8 c) <= max_len ->
  unicode_from_utf8 (unicode_to_utf8 c ++ rest) max_len = mret (c, rest).
Proof.
  intros Hc Hmax. destruct (Z.lt_ge_cases c 0x80) as [Hlt|Hge].
  - unfold unicode_to_utf8. rewrite (proj2 (Z.ltb_lt c 0x80) Hlt). cbn [app unicode_from_utf8].
    rewrite (proj2 (Z.ltb_lt c 0x80) Hlt). reflexivity.
  - destruct (utf8_classes c ltac:(lia)) as (n & lo & hi & mask & prefix & Hcl & Hin).
    destruct (to_utf8_class _ _ _ _ _ c Hcl Hin) as [E Hx]. rewrite E in *. cbn [app unicode_from_utf8].
    destruct (first_byte_class _ _ _ _ _ _ Hcl Hx) as (-> & El & Hb & -> & -> & _ & Hlo).
    rewrite (proj2 (Z.ltb_ge _ 0x80) Hb), len_cons in *. unfold len in Hmax. rewrite cont_bytes_length in Hmax.
    rewrite (proj2 (Z.ltb_ge (max_len - 1) _)), ret_bind, El by lia.
    set (P := 64 ^ Z.of_nat n) in *. assert (0 < P) as HP by (apply Z.pow_pos_nonneg; lia).
    pose proof (Z.mod_pos_bound c P HP) as Hm. pose proof (Z.div_mod c P ltac:(lia)) as Ed.
    assert (cont_bytes n c = cont_bytes n (c mod P)) as ->.
    { rewrite <- (cont_bytes_low n (c / P) (c mod P)) by exact Hm. f_equal. fold P. lia. }
    rewrite utf8_cont_encode, ret_bind by (exact Hm || lia). fold P. replace (c / P * P + c mod P) with c by lia.
    rewrite (proj2 (Z.eqb_neq c (-1))) by lia. rewrite ret_bind, (proj2 (Z.ltb_ge c lo)) by lia. reflexivity.
Qed.

(** The decoder accepts only what the encoder writes: overlong forms, lone
    continuation bytes and truncated sequences are rejected, and then the pointer
    does not move. *)
Lemma from_utf8_decode p max_len c rest o o' :
  Forall (fun b => 0 <= b < 256) p ->
  unicode_from_utf8 p max_len o = (Ok (c, rest), o') ->
  (c = -1 /\ rest = p) \/ (0 <= c < 2 ^ 31 /\ p = unicode_to_utf8 c ++ rest).
Proof.
  intros Hp H. destruct p as [|b p1]; [discriminate|]. cbn [unicode_from_utf8] in H. inversion Hp as [|? ? Hb0 _]; subst.
  destruct (Z.ltb_spec b 0x80) as [Hb|Hb].
  - injection H as <- <- <-. right. split; [lia|]. unfold unicode_to_utf8. rewrite (proj2 (Z.ltb_lt b 0x80) Hb). reflexivity.
  - destruct (utf8_cont_len b) as [n|] eqn:En; [|injection H as <- <- <-; auto].
    destruct (cont_len_class b n En) as (lo & hi & mask & prefix & Hcl & Hx).
    destruct (first_byte_class _ _ _ _ _ _ Hcl Hx) as (_ & El & _ & Em & Emin & Ehi & Hlo).
    replace (prefix + (b - prefix)) with b in El by lia. rewrite Em, Emin, !ret_bind, El in H.
    destruct (max_len - 1 <? Z.of_nat n); [injection H as <- <- <-; auto|].
    unfold mbind, M_bind in H. destruct (utf8_cont n (b - prefix) p1 o) as [[[v p2]|e|] o2] eqn:Ec; [|discriminate|discriminate].
    apply utf8_cont_decode in Ec; [|lia]. destruct (Z.eqb_spec v (-1)) as [->|Hv]; [injection H as <- <- <-; auto|].
    destruct Ec as [Ec|(c' & Hc' & -> & ->)]; [contradiction|]. cbn [mret M_ret] in H.
    destruct (Z.ltb_spec ((b - prefix) * 64 ^ Z.of_nat n + c') lo) as [Hm|Hm]; injection H as <- <- <-; [auto|right].
    set (P := 64 ^ Z.of_nat n) in *. assert (0 < P) by (apply Z.pow_pos_nonneg; lia).
    assert ((b - prefix) * P + c' < hi) as Hhi.
    { rewrite Ehi. assert ((b - prefix) * P <= mask * P) by (apply Z.mul_le_mono_nonneg_r; lia). lia. }
    destruct (to_utf8_class _ _ _ _ _ _ Hcl (conj Hm Hhi)) as [E _]. rewrite E. fold P.
    rewrite Z.div_add_l, (Z.div_small c' P) by lia. split.
    + split; [lia|]. assert (hi <= 2 ^ 31) by (clear - Hcl; classes Hcl; lia). lia.
    + cbn [app]. f_equal; [lia|]. rewrite cont_bytes_low by exact Hc'. reflexivity.
Qed.

(** Reading is defined on [max_len] bytes. *)
Lemma utf8_cont_defined n acc p : (n <= length p)%nat -> exists v, utf8_cont n acc p = mret v.
Proof.
  revert acc p. induction n as [|n IH]; intros acc p Hl; cbn [utf8_cont]; [eexists; reflexivity|].
  destruct p as [|b p]; simpl in Hl; [lia|]. destruct (_ || _); [eexists; reflexivity|]. apply IH. lia.
Qed.

Lemma from_utf8_defined p max_len : 1 <= max_len <= len p -> exists v, unicode_from_utf8 p max_len = mret v.
Proof.
  intros Hl. destruct p as [|b p]; [change (len (@nil Z)) with 0 in Hl; lia|]. cbn [unicode_from_utf8].
  destruct (b <? 0x80); [eexists; reflexivity|]. destruct (utf8_cont_len b) as [n|] eqn:En; [|eexists; reflexivity].
  destruct (cont_len_class b n En) as (lo & hi & mask & prefix & Hcl & Hx).
  destruct (first_byte_class _ _ _ _ _ _ Hcl Hx) as (_ & _ & _ & -> & -> & _). rewrite len_cons in Hl. unfold len in Hl.
  destruct (Z.ltb_spec (max_len - 1) (Z.of_nat n)); [eexists; reflexivity|]. rewrite !ret_bind.
  destruct (utf8_cont_defined n (Z.land b mask) p) as [[c p2] ->]; [lia|]. rewrite ret_bind. destruct (c =? -1); [eexists; reflexivity|].
  rewrite ret_bind. destruct (c <? lo); eexists; reflexivity.
Qed.

(** ** Surrogates *)

Lemma lo_surrogate_eq c : get_lo_surrogate c = 0xDC00 + c mod 2 ^ 10.
Proof.
  unfold get_lo_surrogate. change 0x3FF with (2 ^ 10 - 1). rewrite land_mask by lia.
  change 0xDC00 with (55 * 2 ^ 10). apply lor_field; [lia|]. apply Z.mod_pos_bound. lia.
Qed.

Lemma surrogate_pair c :
  0x10000 <= c < 0x110000 ->
  let hi := get_hi_surrogate c in
  let lo := get_lo_surrogate c in
  is_hi_surrogate hi = true /\ is_lo_surrogate lo = true /\ 0xD800 <= hi < 0xDC00 /\ 0xDC00 <= lo < 0xE000 /\ from_surrogate hi lo = c.
Proof.
  intros Hc. cbv zeta. rewrite lo_surrogate_eq. unfold get_hi_surrogate.
  rewrite Z.shiftr_div_pow2 by lia. change (Z.shiftr 0x10000 10) with 64.
  pose proof (Z.div_mod c (2 ^ 10) ltac:(lia)) as E. pose proof (Z.mod_pos_bound c (2 ^ 10) ltac:(lia)) as Hm.
  assert (64 <= c / 2 ^ 10 < 1088) as Hq by (split; [apply Z.div_le_lower_bound|apply Z.div_lt_upper_bound]; lia).
  rewrite (wrap_small 32) by lia. unfold is_hi_surrogate, is_lo_surrogate, from_surrogate. rewrite !Z.shiftr_div_pow2 by lia.
  change (0xD800 / 2 ^ 10) with 54. change (0xDC00 / 2 ^ 10) with 55. rewrite wrap_small by lia. repeat split; try lia; apply Z.eqb_eq.
  - symmetry. apply (Z.div_unique_pos _ _ _ (c / 2 ^ 10 - 64)); lia.
  - symmetry. apply (Z.div_unique_pos _ _ _ (c mod 2 ^ 10)); lia.
Qed.

Lemma hi_surrogate_range c : 0 <= c -> is_hi_surrogate c = true <-> 0xD800 <= c < 0xDC00.
Proof.
  intros Hc. unfold is_hi_surrogate. rewrite Z.shiftr_div_pow2, Z.eqb_eq by lia. change (Z.shiftr 0xD800 10) with 54.
  pose proof (Z.div_mod c (2 ^ 10) ltac:(lia)). pose proof (Z.mod_pos_bound c (2 ^ 10) ltac:(lia)). lia.
Qed.

Lemma lo_surrogate_range c : 0 <= c -> is_lo_surrogate c = true <-> 0xDC00 <= c < 0xE000.
Proof.
  intros Hc. unfold is_lo_surrogate. rewrite Z.shiftr_div_pow2, Z.eqb_eq by lia. change (Z.shiftr 0xDC00 10) with 55.
  pose proof (Z.div_mod c (2 ^ 10) ltac:(lia)). pose proof (Z.mod_pos_bound c (2 ^ 10) ltac:(lia)). lia.
Qed.

(** Two surrogates that make a pair are the pair of the code point they make. *)
Lemma from_surrogate_spec hi lo :
  0xD800 <= hi < 0xDC00 -> 0xDC00 <= lo < 0xE000 ->
  let c := from_surrogate hi lo in
  0x10000 <= c < 0x110000 /\ get_hi_surrogate c = hi /\ get_lo_surrogate c = lo.
Proof.
  intros Hh Hl. cbv zeta. unfold from_surrogate. rewrite wrap_small by lia. split; [lia|].
  rewrite lo_surrogate_eq. unfold get_hi_surrogate. rewrite Z.shiftr_div_pow2 by lia. change (Z.shiftr 0x10000 10) with 64.
  replace (65536 + 1024 * (hi - 55296) + (lo - 56320)) with ((hi - 55232) * 2 ^ 10 + (lo - 56320)) by lia.
  rewrite Z.div_add_l, (Z.div_small (lo - 56320)), (Z.add_comm (_ * _)), Z.mod_add, Z.mod_small by lia.
  split; [rewrite wrap_small by lia; lia|lia].
Qed.
