(* ===== verification/JSString.v ===== *)
(** Strings of the engine (quickjs.c): 8-bit and 16-bit strings, comparison,
    concatenation, string buffers and the conversions from and to UTF-8:
    definitions.

    A [JSString] is its width flag and its code units.  Reference counts, hashes
    and the atom fields are not modelled.  [js_realloc2] reports how much larger
    than requested the block is, [slack]; nothing proved depends on it beyond its
    bounds. *)
From stdpp Require Import base tactics list numbers strings.
From Stdlib Require Import ZArith Lia.
From S2P Require Import Prelude Cutils BigIntString.

Open Scope Z_scope.

Definition JS_STRING_LEN_MAX : Z := Z.shiftl 1 30 - 1.

Definition err_too_long : exn := InternalError "string too long".

Record JSString : Type := MkString { is_wide_char : bool; chars : list Z }.

Definition str_len (p : JSString) : Z := len (chars p).

(** The width of a code unit in bits. *)
Definition char_bits (wide : bool) : Z := if wide then 16 else 8.

Definition string_get (p : JSString) (idx : Z) : M Z := tab_get (chars p) idx.

(** The code point at [idx] and the index after it. *)
Definition string_getc (p : JSString) (idx : Z) : M (Z * Z) :=
  c ← tab_get (chars p) idx;
  let idx := idx + 1 in
  if is_wide_char p then
    if is_hi_surrogate c && (idx <? str_len p) then
      c1 ← tab_get (chars p) idx;
      if is_lo_surrogate c1 then mret (from_surrogate c c1, idx + 1) else mret (c, idx)
    else mret (c, idx)
  else mret (c, idx).

(** ** Construction *)

Definition empty_string : JSString := MkString false [].

Definition js_new_string8 (buf : list Z) : M JSString :=
  s ← js_new_string8_len buf; mret (MkString false s).

Definition js_new_string16_len (buf : list Z) : M JSString := _ ← alloc; mret (MkString true buf).

Definition js_new_string_char (c : Z) : M JSString :=
  if c <? 0x100 then js_new_string8 [wrap 8 c] else js_new_string16_len [c].

Definition js_sub_string (p : JSString) (start stop : Z) : M JSString :=
  let l := stop - start in
  if (start =? 0) && (stop =? str_len p) then mret p
  else
    sub ← (if 0 <? l then tab_slice (chars p) start l else mret []);
    if is_wide_char p && (0 <? l) then
      let c := fold_left Z.lor sub 0 in
      if 0xFF <? c then js_new_string16_len sub
      else _ ← alloc; mret (MkString false (wrap 8 <$> sub))
    else js_new_string8 sub.

(** ** Comparison *)

(** [memcmp], [memcmp16_8] and [memcmp16] on [n] units: the sign of the first
    difference ([memcmp] only promises the sign). *)
Fixpoint memcmp (s1 s2 : list Z) : Z :=
  match s1, s2 with
  | a :: s1, b :: s2 => if a - b =? 0 then memcmp s1 s2 else a - b
  | _, _ => 0
  end.

Definition js_string_memcmp (p1 : JSString) (pos1 : Z) (p2 : JSString) (pos2 l : Z) : M Z :=
  s1 ← tab_slice (chars p1) pos1 l;
  s2 ← tab_slice (chars p2) pos2 l;
  mret (match is_wide_char p1, is_wide_char p2 with
        | false, false => memcmp s1 s2
        | false, true => - memcmp s2 s1
        | true, _ => memcmp s1 s2
        end).

Definition js_string_eq (p1 p2 : JSString) : M bool :=
  if negb (str_len p1 =? str_len p2) then mret false
  else r ← js_string_memcmp p1 0 p2 0 (str_len p1); mret (r =? 0).

Definition js_string_compare (p1 p2 : JSString) : M Z :=
  let l := Z.min (str_len p1) (str_len p2) in
  res ← js_string_memcmp p1 0 p2 0 l;
  mret (if res =? 0 then
          if str_len p1 =? str_len p2 then 0 else if str_len p1 <? str_len p2 then -1 else 1
        else res).

(** ** Concatenation *)

Definition JS_ConcatString1 (p1 p2 : JSString) : M JSString :=
  if JS_STRING_LEN_MAX <? str_len p1 + str_len p2 then throw err_too_long
  else
    let wide := is_wide_char p1 || is_wide_char p2 in
    _ ← alloc;
    mret (MkString wide (chars p1 ++ chars p2)).

(** Appending to the left operand when nobody else holds it and its block,
    [usable] bytes past the header, has room. *)
Definition JS_ConcatStringInPlace (p1 : JSString) (ref_count usable : Z) (p2 : JSString) : option JSString :=
  if str_len p2 =? 0 then Some p1
  else if negb (ref_count =? 1) then None
  else if is_wide_char p1 then
    if Z.shiftl (str_len p1 + str_len p2) 1 <=? usable then Some (MkString true (chars p1 ++ chars p2)) else None
  else if negb (is_wide_char p2) then
    if str_len p1 + str_len p2 + 1 <=? usable then Some (MkString false (chars p1 ++ chars p2)) else None
  else None.

Definition JS_ConcatString2 (p1 : JSString) (ref_count usable : Z) (p2 : JSString) : M JSString :=
  match JS_ConcatStringInPlace p1 ref_count usable p2 with
  | Some p => mret p
  | None => JS_ConcatString1 p1 p2
  end.

(** ** String buffers *)

Class MallocSlack := {
  slack : Z -> Z;
  slack_bounds n : 0 <= slack n < 2 ^ 29
}.

(** [sb_chars] is the block, [sb_size] units; [sb_error] is the exception that
    [error_status] announces. *)
Record StringBuffer : Type := MkSB {
  sb_chars : list Z;
  sb_len : Z;
  sb_size : Z;
  sb_wide : bool;
  sb_error : option exn
}.

Section StringBuffer.
Context `{MS : MallocSlack} `{RM : RawMemory}.

Definition raw_chars (n : Z) : list Z := raw_byte <$> seq 0 (Z.to_nat n).

(** [realloc] of a block of units to [n] units. *)
Definition regrow (l : list Z) (n : Z) : list Z :=
  take (Z.to_nat n) l ++ raw_chars (n - len (take (Z.to_nat n) l)).

Definition string_buffer_init2 (size : Z) (is_wide : bool) : M (Z * StringBuffer) :=
  ok ← try_alloc;
  if negb ok then mret (-1, MkSB [] 0 0 is_wide (Some OutOfMemory))
  else mret (0, MkSB (raw_chars size) 0 size is_wide None).

Definition string_buffer_init (size : Z) : M (Z * StringBuffer) := string_buffer_init2 size false.

Definition string_buffer_set_error (s : StringBuffer) (e : exn) : Z * StringBuffer :=
  (-1, MkSB [] 0 0 (sb_wide s) (Some e)).

Definition SIZEOF_JSSTRING : Z := 16.

Definition string_buffer_widen (s : StringBuffer) (size : Z) : M (Z * StringBuffer) :=
  match sb_error s with
  | Some _ => mret (-1, s)
  | None =>
      let bytes := SIZEOF_JSSTRING + Z.shiftl size 1 in
      ok ← try_alloc;
      if negb ok then mret (string_buffer_set_error s OutOfMemory)
      else
        let size := size + Z.shiftr (slack bytes) 1 in
        mret (0, MkSB (regrow (take (Z.to_nat (sb_len s)) (sb_chars s)) size) (sb_len s) size true None)
  end.

Definition string_buffer_realloc (s : StringBuffer) (new_len c : Z) : M (Z * StringBuffer) :=
  match sb_error s with
  | Some _ => mret (-1, s)
  | None =>
      if JS_STRING_LEN_MAX <? new_len then mret (string_buffer_set_error s err_too_long)
      else
        let new_size := Z.min (Z.max new_len (Z.quot (swrap 32 (sb_size s * 3)) 2)) JS_STRING_LEN_MAX in
        if negb (sb_wide s) && (0x100 <=? c) then string_buffer_widen s new_size
        else
          let w := c_bool (sb_wide s) in
          let bytes := SIZEOF_JSSTRING + Z.shiftl new_size w + 1 - w in
          ok ← try_alloc;
          if negb ok then mret (string_buffer_set_error s OutOfMemory)
          else
            let new_size := Z.min (new_size + Z.shiftr (slack bytes) w) JS_STRING_LEN_MAX in
            mret (0, MkSB (regrow (sb_chars s) new_size) (sb_len s) new_size (sb_wide s) None)
  end.

(** [s->str->u.str16[s->len++] = c] or the same on [str8]. *)
Definition sb_store (s : StringBuffer) (c : Z) : M (Z * StringBuffer) :=
  t ← tab_set (sb_chars s) (sb_len s) (wrap (char_bits (sb_wide s)) c);
  mret (0, MkSB t (sb_len s + 1) (sb_size s) (sb_wide s) (sb_error s)).

Definition string_buffer_putc16_slow (s : StringBuffer) (c : Z) : M (Z * StringBuffer) :=
  '(r, s) ← (if sb_size s <=? sb_len s then string_buffer_realloc s (sb_len s + 1) c else mret (0, s));
  if negb (r =? 0) then mret (-1, s)
  else if sb_wide s then sb_store s c
  else if c <? 0x100 then sb_store s c
  else
    '(r, s) ← string_buffer_widen s (sb_size s);
    if negb (r =? 0) then mret (-1, s) else sb_store s c.

Definition string_buffer_putc8 (s : StringBuffer) (c : Z) : M (Z * StringBuffer) :=
  '(r, s) ← (if sb_size s <=? sb_len s then string_buffer_realloc s (sb_len s + 1) c else mret (0, s));
  if negb (r =? 0) then mret (-1, s) else sb_store s c.

Definition string_buffer_putc16 (s : StringBuffer) (c : Z) : M (Z * StringBuffer) :=
  if (sb_len s <? sb_size s) && (sb_wide s || (c <? 0x100)) then sb_store s c
  else string_buffer_putc16_slow s c.

Definition string_buffer_putc_slow (s : StringBuffer) (c : Z) : M (Z * StringBuffer) :=
  if 0x10000 <=? c then
    '(r, s) ← string_buffer_putc16 s (get_hi_surrogate c);
    if negb (r =? 0) then mret (-1, s) else string_buffer_putc16 s (get_lo_surrogate c)
  else string_buffer_putc16 s c.

Definition string_buffer_putc (s : StringBuffer) (c : Z) : M (Z * StringBuffer) :=
  if sb_len s <? sb_size s then
    if sb_wide s then
      if c <? 0x10000 then sb_store s c
      else if sb_len s + 1 <? sb_size s then
        '(_, s) ← sb_store s (get_hi_surrogate c); sb_store s (get_lo_surrogate c)
      else string_buffer_putc_slow s c
    else if c <? 0x100 then sb_store s c
    else string_buffer_putc_slow s c
  else string_buffer_putc_slow s c.

(** Copying units into the block, cut to its width.  The new length is a sum of [int]s,
    which wraps around ([-fwrapv]): the block does not grow when it does. *)
Definition sb_write (s : StringBuffer) (p : list Z) : M (Z * StringBuffer) :=
  t ← tab_blit (sb_chars s) (sb_len s) (wrap (char_bits (sb_wide s)) <$> p);
  mret (0, MkSB t (sb_len s + len p) (sb_size s) (sb_wide s) (sb_error s)).

Definition string_buffer_write8 (s : StringBuffer) (p : list Z) : M (Z * StringBuffer) :=
  let new_len := swrap 32 (sb_len s + len p) in
  '(r, s) ← (if sb_size s <? new_len then string_buffer_realloc s new_len 0 else mret (0, s));
  if negb (r =? 0) then mret (-1, s) else sb_write s p.

Definition string_buffer_write16 (s : StringBuffer) (p : list Z) : M (Z * StringBuffer) :=
  let c := fold_left Z.lor p 0 in
  let new_len := swrap 32 (sb_len s + len p) in
  '(r, s) ← (if sb_size s <? new_len then string_buffer_realloc s new_len c
             else if negb (sb_wide s) && (0x100 <=? c) then string_buffer_widen s (sb_size s)
             else mret (0, s));
  if negb (r =? 0) then mret (-1, s) else sb_write s p.

Definition string_buffer_concat (s : StringBuffer) (p : JSString) (from to : Z) : M (Z * StringBuffer) :=
  if to <=? from then mret (0, s)
  else
    sub ← tab_slice (chars p) from (to - from);
    if is_wide_char p then string_buffer_write16 s sub else string_buffer_write8 s sub.

(** [while (count-- > 0)] *)
Fixpoint sb_fill_loop (s : StringBuffer) (c : Z) (count : nat) : M (Z * StringBuffer) :=
  match count with
  | O => mret (0, s)
  | S count =>
      '(r, s) ← string_buffer_putc16 s c;
      if negb (r =? 0) then mret (-1, s) else sb_fill_loop s c count
  end.

Definition string_buffer_fill (s : StringBuffer) (c count : Z) : M (Z * StringBuffer) :=
  let new_len := swrap 32 (sb_len s + count) in
  '(r, s) ← (if sb_size s <? new_len then string_buffer_realloc s new_len c else mret (0, s));
  if negb (r =? 0) then mret (-1, s) else sb_fill_loop s c (Z.to_nat count).

(** Shrinking the block may fail; the code then keeps the larger block. *)
Definition string_buffer_end (s : StringBuffer) : M JSString :=
  match sb_error s with
  | Some e => throw e
  | None =>
      if sb_len s =? 0 then mret empty_string
      else
        _ ← (if sb_len s <? sb_size s then try_alloc else mret true);
        mret (MkString (sb_wide s) (take (Z.to_nat (sb_len s)) (sb_chars s)))
  end.

(** ** UTF-8 *)

Fixpoint count_ascii (buf : list Z) : nat :=
  match buf with
  | c :: buf => if c <? 128 then S (count_ascii buf) else 0%nat
  | [] => 0%nat
  end.

(** [while (p < p_end && p[0] >= 0x80 && p[0] < 0xc0) p++;] *)
Fixpoint skip_cont (p : list Z) : list Z :=
  match p with
  | b :: p' => if (0x80 <=? b) && (b <? 0xc0) then skip_cont p' else p
  | [] => []
  end.

(** The loop of [JS_NewStringLen]; every round consumes a byte. *)
Fixpoint utf8_loop (fuel : nat) (b : StringBuffer) (p : list Z) : M StringBuffer :=
  match fuel with
  | O => undefined
  | S fuel =>
      match p with
      | [] => mret b
      | x :: p1 =>
          if x <? 128 then '(_, b) ← string_buffer_putc8 b x; utf8_loop fuel b p1
          else
            '(c, p_next) ← unicode_from_utf8 p (len p);
            let c := wrap 32 c in
            if c <? 0x10000 then '(_, b) ← string_buffer_putc16 b c; utf8_loop fuel b p_next
            else if c <=? 0x10FFFF then
              '(_, b) ← string_buffer_putc16 b (get_hi_surrogate c);
              '(_, b) ← string_buffer_putc16 b (get_lo_surrogate c);
              utf8_loop fuel b p_next
            else
              let p := skip_cont p in
              let p := match p with _ :: p => skip_cont p | [] => [] end in
              '(_, b) ← string_buffer_putc16 b 0xfffd;
              utf8_loop fuel b p
      end
  end.

Definition JS_NewStringLen (buf : list Z) : M JSString :=
  let len1 := count_ascii buf in
  if JS_STRING_LEN_MAX <? Z.of_nat len1 then throw err_too_long
  else if (len1 =? length buf)%nat then js_new_string8 buf
  else
    '(r, b) ← string_buffer_init (len buf);
    if negb (r =? 0) then throw OutOfMemory
    else
      '(_, b) ← string_buffer_write8 b (take len1 buf);
      b ← utf8_loop (S (length buf)) b (drop len1 buf);
      string_buffer_end b.

(** The 8-bit case of [JS_ToCStringLen2]: one or two bytes per unit. *)
Fixpoint latin1_to_utf8 (src : list Z) : list Z :=
  match src with
  | c :: src =>
      (if c <? 0x80 then [c] else [Z.lor (Z.shiftr c 6) 0xc0; Z.lor (Z.land c 0x3f) 0x80]) ++ latin1_to_utf8 src
  | [] => []
  end.

(** The 16-bit case. *)
Fixpoint utf16_to_utf8 (cesu8 : bool) (src : list Z) : list Z :=
  match src with
  | [] => []
  | c :: src =>
      if c <? 0x80 then c :: utf16_to_utf8 cesu8 src
      else
        match src with
        | c1 :: src' =>
            if is_hi_surrogate c && negb cesu8 && is_lo_surrogate c1
            then unicode_to_utf8 (from_surrogate c c1) ++ utf16_to_utf8 cesu8 src'
            else unicode_to_utf8 c ++ utf16_to_utf8 cesu8 src
        | [] => unicode_to_utf8 c
        end
  end.

(** Room for [n] bytes was allocated. *)
Definition fits (n : Z) (l : list Z) : M (list Z) := if len l <=? n then mret l else undefined.

Definition JS_ToCStringLen2 (str : JSString) (cesu8 : bool) : M (list Z) :=
  if negb (is_wide_char str) then
    let count := fold_left (fun n c => n + Z.shiftr c 7) (chars str) 0 in
    if count =? 0 then mret (chars str)
    else _ ← alloc; fits (str_len str + count) (latin1_to_utf8 (chars str))
  else _ ← alloc; fits (str_len str * 3) (utf16_to_utf8 cesu8 (chars str)).

End StringBuffer.
