(* ===== verification/StringBuffers.v ===== *)
(** String buffers refine appending to a sequence of code units: after any
    sequence of writes, [string_buffer_end] returns exactly the units written, or
    throws because an allocation was refused or the string became too long. *)
From stdpp Require Import base tactics list numbers.
From Stdlib Require Import ZArith Lia.
From S2P Require Import Prelude Cutils Utf8 JSString.

Open Scope Z_scope.

(** ** Code units *)

Definition unit_ok (c : Z) : Prop := 0 <= c < 2 ^ 16.
Definition units_ok (l : list Z) : Prop := Forall unit_ok l.

(** Units that fit in the width of the string; the length is a 31-bit field. *)
Definition width_ok (wide : bool) (l : list Z) : Prop := Forall (fun c => 0 <= c < 2 ^ char_bits wide) l.

Definition string_ok (p : JSString) : Prop := width_ok (is_wide_char p) (chars p) /\ str_len p < 2 ^ 31.

Lemma width_ok_wide w l : width_ok w l -> width_ok true l.
Proof. intros H. eapply Forall_impl; [|exact H]. intros c Hc. cbn in *. destruct w; cbn in *; lia. Qed.

Lemma width_ok_units w l : width_ok w l -> units_ok l.
Proof. apply width_ok_wide. Qed.

Lemma width_ok_wrap w l : width_ok w l -> wrap (char_bits w) <$> l = l.
Proof.
  induction 1 as [|c l Hc Hl IH]; [reflexivity|]. cbn [fmap list_fmap]. rewrite IH, wrap_small by exact Hc. reflexivity.
Qed.

Lemma lor_ge_l a b : 0 <= a -> 0 <= b -> a <= Z.lor a b.
Proof.
  intros Ha Hb. assert (Z.lor a b = a + Z.ldiff b a) as ->.
  { rewrite <- lor_add_disjoint; apply Z.bits_inj'; intros i Hi; rewrite ?Z.lor_spec, ?Z.land_spec, ?Z.ldiff_spec, ?Z.bits_0;
      destruct (Z.testbit a i), (Z.testbit b i); reflexivity. }
  assert (0 <= Z.ldiff b a) by (apply Z.ldiff_nonneg; lia). lia.
Qed.

(** Or-ing the units tells whether they all fit in 8 bits. *)
Lemma fold_lor_bound l acc : 0 <= acc -> units_ok l -> acc <= fold_left Z.lor l acc /\ Forall (fun c => c <= fold_left Z.lor l acc) l.
Proof.
  intros Ha Hl. revert acc Ha. induction Hl as [|c l Hc Hl IH]; intros acc Ha; cbn [fold_left]; [split; [lia|constructor]|].
  unfold unit_ok in Hc. pose proof (lor_ge_l acc c Ha ltac:(lia)) as H1. pose proof (lor_ge_l c acc ltac:(lia) Ha) as H2. rewrite Z.lor_comm in H2.
  destruct (IH (Z.lor acc c)) as [H3 H4]; [lia|]. split; [lia|]. constructor; [lia|exact H4].
Qed.

Lemma units_narrow l : units_ok l -> fold_left Z.lor l 0 < 0x100 -> width_ok false l.
Proof.
  intros Hl Hc. destruct (fold_lor_bound l 0 ltac:(lia) Hl) as [_ H].
  apply Forall_forall. intros c Hin. unfold units_ok in Hl. rewrite Forall_forall in H, Hl. specialize (H c Hin). specialize (Hl c Hin).
  unfold unit_ok in Hl. cbn. lia.
Qed.

Section StringBuffers.
Context `{MS : MallocSlack} `{RM : RawMemory} (G : Prop).

(** ** The state of a buffer *)

Definition sb_content (s : StringBuffer) : list Z := take (Z.to_nat (sb_len s)) (sb_chars s).

Definition sb_ok (s : StringBuffer) : Prop :=
  match sb_error s with
  | Some e => sb_chars s = [] /\ sb_len s = 0 /\ sb_size s = 0 /\ ((e = OutOfMemory /\ ~ G) \/ e = err_too_long)
  | None => 0 <= sb_len s <= sb_size s /\ len (sb_chars s) = sb_size s /\ sb_size s < 2 ^ 30 + 2 ^ 29 /\
            (sb_wide s = false -> sb_size s < 2 ^ 30) /\ width_ok (sb_wide s) (sb_content s)
  end.

(** The buffer was asked to hold [units]: it does, or it failed for a reason. *)
Definition sb_state (s : StringBuffer) (units : list Z) : Prop :=
  sb_ok s /\
  match sb_error s with
  | None => sb_content s = units
  | Some e => e = err_too_long -> JS_STRING_LEN_MAX < len units
  end.

(** A return code of an append: a failure is recorded. *)
Definition sb_post (units : list Z) (r : Z * StringBuffer) : Prop :=
  sb_state (snd r) units /\ (fst r = 0 \/ (fst r = -1 /\ sb_error (snd r) <> None)).

Lemma sb_state_more s units more : sb_state s units -> sb_error s <> None -> sb_state s (units ++ more).
Proof.
  intros [H1 H2] He. split; [exact H1|]. destruct (sb_error s); [|congruence].
  intros E. specialize (H2 E). rewrite len_app. pose proof (len_nonneg more). lia.
Qed.

Lemma len_content s : sb_ok s -> len (sb_content s) = sb_len s.
Proof.
  unfold sb_ok, sb_content, len. intros H. rewrite length_take. destruct (sb_error s).
  - destruct H as (-> & -> & _). reflexivity.
  - lia.
Qed.

Lemma len_raw n : 0 <= n -> len (raw_chars n) = n.
Proof. intros H. unfold raw_chars, len. rewrite length_fmap, length_seq. lia. Qed.

Lemma regrow_spec l n k :
  0 <= k <= n -> k <= len l -> len (regrow l n) = n /\ take (Z.to_nat k) (regrow l n) = take (Z.to_nat k) l.
Proof.
  intros Hk Hl. unfold regrow. unfold len in Hl. split.
  - rewrite len_app, len_raw; [lia|]. unfold len. rewrite length_take. lia.
  - rewrite take_app_le by (rewrite length_take; lia). rewrite take_take. f_equal. lia.
Qed.

Lemma set_error_post s e units :
  (e = OutOfMemory /\ ~ G) \/ (e = err_too_long /\ JS_STRING_LEN_MAX < len units) ->
  sb_post units (string_buffer_set_error s e).
Proof.
  intros He. unfold string_buffer_set_error, sb_post, sb_state, sb_ok. cbn [fst snd sb_error sb_chars sb_len sb_size].
  split; [split|right; split; [reflexivity|discriminate]].
  - repeat (split; [reflexivity|]). destruct He as [He|[He _]]; auto.
  - intros ->. destruct He as [[H _]|[_ H]]; [discriminate|exact H].
Qed.

(** ** Growing *)

(** [s'] holds the same units, in a block of at least [n] units. *)
Definition grown (s s' : StringBuffer) (n : Z) : Prop :=
  sb_ok s' /\ sb_error s' = None /\ sb_content s' = sb_content s /\ sb_len s' = sb_len s /\ n <= sb_size s' /\
  (sb_wide s = true -> sb_wide s' = true).

Definition grow_post (s : StringBuffer) (n : Z) (wide : bool) (total : Z) (r : Z * StringBuffer) : Prop :=
  (fst r = 0 /\ grown s (snd r) n /\ (wide = true -> sb_wide (snd r) = true)) \/
  (fst r = -1 /\ forall units, total <= len units -> sb_post units r).

Lemma shiftr_slack b w : 0 <= w <= 1 -> 0 <= Z.shiftr (slack b) w < 2 ^ 29.
Proof.
  intros Hw. pose proof (slack_bounds b). rewrite Z.shiftr_div_pow2 by lia. assert (w = 0 \/ w = 1) as [-> | ->] by lia.
  - rewrite Z.pow_0_r, Z.div_1_r. lia.
  - split; [apply Z.div_pos; lia|apply Z.div_lt_upper_bound; lia].
Qed.

Lemma widen_spec s n E :
  sb_ok s -> sb_error s = None -> sb_len s <= n < 2 ^ 30 ->
  gspec G (string_buffer_widen s n) (grow_post s n true (len (sb_content s))) E.
Proof.
  intros Hs He Hn. unfold string_buffer_widen. rewrite He. unfold sb_ok in Hs. rewrite He in Hs. destruct Hs as (H1 & H3 & H4 & H6 & H5).
  eapply gspec_bind; [apply gspec_try_alloc|]. intros ok Hok. destruct ok; cbn [negb]; apply gspec_ret.
  - left. cbn [fst snd sb_wide]. split; [reflexivity|]. split; [|auto].
    pose proof (shiftr_slack (SIZEOF_JSSTRING + Z.shiftl n 1) 1 ltac:(lia)) as Hsl. set (sl := Z.shiftr (slack _) 1) in *. clearbody sl.
    destruct (regrow_spec (take (Z.to_nat (sb_len s)) (sb_chars s)) (n + sl) (sb_len s)) as [G1 G2]; [lia|unfold len in *; rewrite length_take; lia|].
    rewrite take_take, Nat.min_id in G2.
    unfold grown, sb_ok, sb_content. cbn [sb_error sb_chars sb_len sb_size sb_wide]. rewrite G2.
    split; [|split; [reflexivity|]; split; [reflexivity|]; split; [reflexivity|]; split; [lia|auto]].
    split; [lia|]. split; [exact G1|]. split; [lia|]. split; [discriminate|]. apply (width_ok_wide _ _ H5).
  - right. split; [reflexivity|]. intros units _. apply set_error_post. left. auto.
Qed.

Lemma realloc_spec s n c E :
  sb_ok s -> sb_error s = None -> sb_len s <= n ->
  gspec G (string_buffer_realloc s n c) (grow_post s n (0x100 <=? c) n) E.
Proof.
  intros Hs He Hn. unfold string_buffer_realloc. rewrite He. pose proof Hs as Hs'. unfold sb_ok in Hs'. rewrite He in Hs'. destruct Hs' as (H1 & H3 & H4 & H6 & H5).
  destruct (Z.ltb_spec JS_STRING_LEN_MAX n) as [Hlong|Hfit].
  - apply gspec_ret. right. split; [reflexivity|]. intros units Hu. apply set_error_post. right. split; [reflexivity|lia].
  - set (ns := Z.min _ _). assert (n <= ns /\ ns <= JS_STRING_LEN_MAX) as [Hns1 Hns2] by (unfold ns; lia). clearbody ns.
    change JS_STRING_LEN_MAX with (2 ^ 30 - 1) in *.
    destruct (negb (sb_wide s) && (0x100 <=? c)) eqn:Ew.
    + apply andb_true_iff in Ew. destruct Ew as [Ew1 Ew2]. rewrite Ew2.
      eapply gspec_mono; [apply (widen_spec s ns E Hs He); lia| |auto].
      intros [r s']. unfold grow_post. cbn [fst snd]. intros [(-> & (G1 & G2 & G3 & G4 & G5 & G6) & G7)|(-> & Hu)].
      * left. split; [reflexivity|]. split; [|exact G7]. unfold grown. repeat (split; [assumption|]). split; [lia|exact G6].
      * right. split; [reflexivity|]. intros units Hlen. apply Hu. rewrite len_content by exact Hs. lia.
    + eapply gspec_bind; [apply gspec_try_alloc|]. intros ok Hok. destruct ok; cbn [negb]; apply gspec_ret.
      * left. cbn [fst snd sb_wide]. split; [reflexivity|].
        pose proof (shiftr_slack (SIZEOF_JSSTRING + Z.shiftl ns (c_bool (sb_wide s)) + 1 - c_bool (sb_wide s)) (c_bool (sb_wide s)) (c_bool_bounds _)) as Hsl.
        set (sl := Z.shiftr (slack _) _) in *. clearbody sl. set (k := Z.min (ns + sl) (2 ^ 30 - 1)). assert (ns <= k < 2 ^ 30) as Hk by (unfold k; lia). clearbody k.
        destruct (regrow_spec (sb_chars s) k (sb_len s)) as [G1 G2]; [lia|lia|].
        split.
        -- unfold grown, sb_ok, sb_content. cbn [sb_error sb_chars sb_len sb_size sb_wide]. rewrite G2. fold (sb_content s).
           change JS_STRING_LEN_MAX with (2 ^ 30 - 1).
           split; [|split; [reflexivity|]; split; [reflexivity|]; split; [reflexivity|]; split; [lia|auto]].
           split; [lia|]. split; [exact G1|]. split; [lia|]. split; [lia|exact H5].
        -- intros Ec. rewrite Ec, andb_true_r in Ew. apply negb_false_iff in Ew. exact Ew.
      * right. split; [reflexivity|]. intros units _. apply set_error_post. left. auto.
Qed.

(** ** Storing *)

Lemma sb_write_spec s units p E :
  sb_state s units -> sb_error s = None -> sb_len s + len p <= sb_size s -> width_ok (sb_wide s) p ->
  gspec G (sb_write s p) (sb_post (units ++ p)) E.
Proof.
  intros [Hs Hc] He Hfit Hp. rewrite He in Hc. pose proof (len_content s Hs) as Hlc. unfold sb_ok in Hs. rewrite He in Hs. destruct Hs as (H1 & H3 & H4 & H6 & H5).
  unfold sb_write. rewrite width_ok_wrap by exact Hp. pose proof (len_nonneg p). unfold len in *.
  assert (sb_chars s = sb_content s ++ take (length p) (drop (Z.to_nat (sb_len s)) (sb_chars s)) ++ drop (length p) (drop (Z.to_nat (sb_len s)) (sb_chars s))) as Eb
    by (unfold sb_content; rewrite take_drop, take_drop; reflexivity).
  set (w := take (length p) _) in Eb. set (tl := drop (length p) _) in Eb.
  assert (length w = length p) as Hw by (unfold w; rewrite length_take, length_drop; lia).
  set (ct := sb_content s) in *. clearbody ct w tl. rewrite Eb, (tab_blit_app ct w p tl), ret_bind by (unfold len; lia). apply gspec_ret.
  split; [|left; reflexivity]. cbn [snd].
  assert (take (Z.to_nat (sb_len s + Z.of_nat (length p))) (ct ++ p ++ tl) = ct ++ p) as Ht.
  { rewrite app_assoc. apply take_app_length'. rewrite length_app. lia. }
  unfold sb_state, sb_ok, sb_content. cbn [sb_error sb_chars sb_len sb_size sb_wide]. rewrite He, Ht, Hc. split; [|reflexivity].
  split; [lia|]. rewrite <- Hc. split; [unfold len; rewrite !length_app; rewrite Eb, !length_app in H3; lia|]. split; [lia|]. split; [exact H6|].
  apply Forall_app. split; [exact H5|exact Hp].
Qed.

Lemma sb_store_spec s units c E :
  sb_state s units -> sb_error s = None -> sb_len s < sb_size s -> 0 <= c < 2 ^ char_bits (sb_wide s) ->
  gspec G (sb_store s c) (sb_post (units ++ [c])) E.
Proof.
  intros Hs He Hfit Hc. pose proof (sb_write_spec s units [c] E Hs He) as Hw.
  assert (sb_store s c = sb_write s [c]) as ->.
  { unfold sb_store, sb_write. destruct Hs as [Hs _]. unfold sb_ok in Hs. rewrite He in Hs. destruct Hs as (H1 & H3 & H4 & H6 & H5).
    destruct (lookup_lt_is_Some_2 (sb_chars s) (Z.to_nat (sb_len s))) as [x Hx]; [unfold len in H3; lia|].
    assert (sb_len s = len (take (Z.to_nat (sb_len s)) (sb_chars s))) as El by (unfold len in *; rewrite length_take; lia).
    assert (forall y, tab_set (sb_chars s) (sb_len s) y = tab_blit (sb_chars s) (sb_len s) [y]) as Hset.
    { intros y. rewrite <- (take_drop_middle _ _ _ Hx) at 1 2. etransitivity; [apply tab_set_app, El|].
      symmetry. apply (tab_blit_app _ [x] [y]); [exact El|reflexivity]. }
    rewrite Hset. reflexivity. }
  apply Hw; [change (len [c]) with 1; lia|]. constructor; [exact Hc|constructor].
Qed.

Lemma sb_store_frame s c E :
  sb_ok s -> sb_error s = None -> sb_len s < sb_size s ->
  gspec G (sb_store s c) (fun r => sb_len (snd r) = sb_len s + 1 /\ sb_size (snd r) = sb_size s /\
    sb_wide (snd r) = sb_wide s /\ sb_error (snd r) = sb_error s) E.
Proof.
  intros Hs He Hlt. unfold sb_ok in Hs. rewrite He in Hs. destruct Hs as (H1 & H3 & _). unfold sb_store, tab_set.
  rewrite (proj2 (Z.leb_le _ _)), (proj2 (Z.ltb_lt _ _)) by lia. cbn [andb]. rewrite ret_bind. apply gspec_ret.
  cbn [snd sb_len sb_size sb_wide sb_error]. auto.
Qed.

(** An operation on a failed buffer, or after a failed growth. *)
Lemma failed_post s units more r : sb_state s units -> sb_error s <> None -> r = -1 -> sb_post (units ++ more) (r, s).
Proof. intros Hs He ->. split; [apply sb_state_more; assumption|right; split; [reflexivity|exact He]]. Qed.

(** Making room and then going on. *)
Lemma with_room s units p n c (f : StringBuffer -> M (Z * StringBuffer)) E (need : bool) :
  sb_state s units -> n = sb_len s + len p -> (need = false -> n <= sb_size s) ->
  (sb_error s <> None -> need = false -> gspec G (f s) (sb_post (units ++ p)) E) ->
  (forall s', sb_state s' units -> sb_error s' = None -> sb_len s' + len p <= sb_size s' ->
     (need = false -> s' = s) -> (need = true -> 0x100 <= c -> sb_wide s' = true) ->
     gspec G (f s') (sb_post (units ++ p)) E) ->
  gspec G ('(r, s) ← (if need then string_buffer_realloc s n c else mret (0, s));
           if negb (r =? 0) then mret (-1, s) else f s) (sb_post (units ++ p)) E.
Proof.
  intros Hs -> Hroom Herr Hf. pose proof Hs as [Hok Hc]. destruct (sb_error s) as [e|] eqn:He.
  - assert (sb_error s <> None) as He' by congruence. destruct need.
    + unfold string_buffer_realloc. rewrite He, ret_bind. cbn [Z.eqb negb]. apply gspec_ret, failed_post; [exact Hs|exact He'|reflexivity].
    + rewrite ret_bind. cbn [Z.eqb negb]. apply Herr; [discriminate|reflexivity].
  - destruct need.
    + eapply gspec_bind; [apply (realloc_spec s (sb_len s + len p) c E Hok He); pose proof (len_nonneg p); lia|].
      intros [r s']. unfold grow_post. cbn [fst snd].
      intros [(-> & (G1 & G2 & G3 & G4 & G5 & G6) & G7)|(-> & Hu)]; cbn [Z.eqb negb].
      * apply Hf; [split; [exact G1|rewrite G2, G3; exact Hc]|exact G2|rewrite G4; exact G5|discriminate|].
        intros _ Hc'. apply G7. apply Z.leb_le. exact Hc'.
      * apply gspec_ret, Hu. rewrite <- Hc, len_app, len_content by exact Hok. lia.
    + rewrite ret_bind. cbn [Z.eqb negb]. apply Hf; [exact Hs|exact He|auto|reflexivity|discriminate].
Qed.

(** ** The operations *)

Lemma error_empty s units : sb_state s units -> sb_error s <> None -> sb_chars s = [] /\ sb_len s = 0 /\ sb_size s = 0.
Proof. intros [Hs _] He. unfold sb_ok in Hs. destruct (sb_error s); [|congruence]. destruct Hs as (H1 & H2 & H3 & _). auto. Qed.

(** Writing nothing to a failed buffer. *)
Lemma write_nothing s units p E :
  sb_state s units -> sb_error s <> None -> sb_len s + len p <= sb_size s -> gspec G (sb_write s p) (sb_post (units ++ p)) E.
Proof.
  intros Hs He Hfit. destruct (error_empty s units Hs He) as (H1 & H2 & H3).
  destruct p as [|c p]; [|rewrite len_cons in Hfit; pose proof (len_nonneg p); lia].
  unfold sb_write. rewrite H1, H2. change (tab_blit [] 0 (wrap (char_bits (sb_wide s)) <$> [])) with (mret [] : M (list Z)). rewrite ret_bind.
  apply gspec_ret. split; [|left; reflexivity]. cbn [snd]. change (len (@nil Z)) with 0. rewrite app_nil_r.
  destruct s as [ch l sz w e]. cbn [sb_chars sb_len sb_size sb_wide sb_error] in *. subst. exact Hs.
Qed.

Lemma putc8_spec s units c E :
  sb_state s units -> 0 <= c < 0x100 -> gspec G (string_buffer_putc8 s c) (sb_post (units ++ [c])) E.
Proof.
  intros Hs Hc. unfold string_buffer_putc8.
  apply (with_room s units [c]); [exact Hs|reflexivity|intros Hn; apply Z.leb_gt in Hn; change (len [c]) with 1; lia| |].
  - intros He Hn. apply Z.leb_gt in Hn. destruct (error_empty s units Hs He) as (_ & H2 & H3). lia.
  - intros s' Hs' He' Hfit _ _. change (len [c]) with 1 in Hfit. apply sb_store_spec; [exact Hs'|exact He'|lia|].
    destruct (sb_wide s'); cbn; lia.
Qed.

Lemma putc16_slow_spec s units c E :
  sb_state s units -> unit_ok c -> gspec G (string_buffer_putc16_slow s c) (sb_post (units ++ [c])) E.
Proof.
  intros Hs Hc. unfold string_buffer_putc16_slow, unit_ok in *.
  apply (with_room s units [c] _ _ (fun s => if sb_wide s then sb_store s c else if c <? 0x100 then sb_store s c
    else '(r, s) ← string_buffer_widen s (sb_size s); if negb (r =? 0) then mret (-1, s) else sb_store s c));
    [exact Hs|reflexivity|intros Hn; apply Z.leb_gt in Hn; change (len [c]) with 1; lia| |].
  - intros He Hn. apply Z.leb_gt in Hn. destruct (error_empty s units Hs He) as (_ & H2 & H3). lia.
  - intros s' Hs' He' Hfit _ _. change (len [c]) with 1 in Hfit. destruct (sb_wide s') eqn:Ew.
    + apply sb_store_spec; [exact Hs'|exact He'|lia|rewrite Ew; exact Hc].
    + destruct (Z.ltb_spec c 0x100) as [Hn|Hn]; [apply sb_store_spec; [exact Hs'|exact He'|lia|rewrite Ew; cbn; lia]|].
      pose proof Hs' as [Hok Hcnt]. rewrite He' in Hcnt. unfold sb_ok in Hok. rewrite He' in Hok.
      destruct Hok as (H1 & _ & _ & H6 & _). specialize (H6 Ew).
      eapply gspec_bind; [apply (widen_spec s' (sb_size s') E (proj1 Hs') He'); lia|].
      intros [r s2]. unfold grow_post. cbn [fst snd].
      intros [(-> & (G1 & G2 & G3 & G4 & G5 & G6) & G7)|(-> & Hu)]; cbn [Z.eqb negb].
      * apply sb_store_spec; [split; [exact G1|rewrite G2, G3; exact Hcnt]|exact G2|lia|rewrite (G7 eq_refl); exact Hc].
      * apply gspec_ret, Hu. rewrite Hcnt, len_app. pose proof (len_nonneg [c]). lia.
Qed.

Lemma putc16_spec s units c E :
  sb_state s units -> unit_ok c -> gspec G (string_buffer_putc16 s c) (sb_post (units ++ [c])) E.
Proof.
  intros Hs Hc. unfold string_buffer_putc16. destruct (_ && _) eqn:Et; [|apply putc16_slow_spec; assumption].
  apply andb_true_iff in Et. destruct Et as [Et1 Et2]. apply Z.ltb_lt in Et1.
  destruct (sb_error s) as [e|] eqn:He; [destruct (error_empty s units Hs ltac:(congruence)) as (_ & H2 & H3); lia|].
  apply sb_store_spec; [exact Hs|exact He|exact Et1|]. unfold unit_ok in Hc.
  destruct (sb_wide s); [exact Hc|]. cbn [orb] in Et2. apply Z.ltb_lt in Et2. cbn. lia.
Qed.

(** Appending one more unit after an append. *)
Lemma then_putc16 units c1 c2 (m : M (Z * StringBuffer)) E :
  gspec G m (sb_post (units ++ [c1])) E -> unit_ok c2 ->
  gspec G ('(r, s) ← m; if negb (r =? 0) then mret (-1, s) else string_buffer_putc16 s c2) (sb_post (units ++ [c1; c2])) E.
Proof.
  intros Hm Hc. replace (units ++ [c1; c2]) with ((units ++ [c1]) ++ [c2]) by (rewrite <- app_assoc; reflexivity).
  eapply gspec_bind; [exact Hm|]. intros [r s'] [Hs' Hr]. cbn [fst snd] in *. destruct Hr as [->|[-> He]]; cbn [Z.eqb negb].
  - apply putc16_spec; assumption.
  - apply gspec_ret, failed_post; [exact Hs'|exact He|reflexivity].
Qed.

(** The units of a code point. *)
Definition utf16_units (c : Z) : list Z := if 0x10000 <=? c then [get_hi_surrogate c; get_lo_surrogate c] else [c].

Lemma surrogates_ok c : 0x10000 <= c < 0x110000 -> unit_ok (get_hi_surrogate c) /\ unit_ok (get_lo_surrogate c).
Proof. intros Hc. destruct (surrogate_pair c Hc) as (_ & _ & H1 & H2 & _). unfold unit_ok. lia. Qed.

Lemma putc_slow_spec s units c E :
  sb_state s units -> 0 <= c < 0x110000 -> gspec G (string_buffer_putc_slow s c) (sb_post (units ++ utf16_units c)) E.
Proof.
  intros Hs Hc. unfold string_buffer_putc_slow, utf16_units. destruct (Z.leb_spec 0x10000 c).
  - destruct (surrogates_ok c ltac:(lia)) as [H1 H2]. apply then_putc16; [apply putc16_spec; assumption|exact H2].
  - apply putc16_spec; [exact Hs|]. unfold unit_ok. lia.
Qed.

Lemma putc_spec s units c E :
  sb_state s units -> 0 <= c < 0x110000 -> gspec G (string_buffer_putc s c) (sb_post (units ++ utf16_units c)) E.
Proof.
  intros Hs Hc. unfold string_buffer_putc. destruct (Z.ltb_spec (sb_len s) (sb_size s)) as [Hlt|_]; [|apply putc_slow_spec; assumption].
  destruct (sb_error s) as [e|] eqn:He; [destruct (error_empty s units Hs ltac:(congruence)) as (_ & H2 & H3); lia|].
  destruct (sb_wide s) eqn:Ew.
  - unfold utf16_units. destruct (Z.ltb_spec c 0x10000) as [Hsm|Hbig].
    + rewrite (proj2 (Z.leb_gt 0x10000 c)) by lia. apply sb_store_spec; [exact Hs|exact He|exact Hlt|rewrite Ew; cbn; lia].
    + destruct (Z.ltb_spec (sb_len s + 1) (sb_size s)) as [Hlt2|_]; [|apply putc_slow_spec; assumption].
      rewrite (proj2 (Z.leb_le 0x10000 c)) by lia. destruct (surrogates_ok c ltac:(lia)) as [H1 H2]. unfold unit_ok in *.
      replace (units ++ [get_hi_surrogate c; get_lo_surrogate c]) with ((units ++ [get_hi_surrogate c]) ++ [get_lo_surrogate c]) by (rewrite <- app_assoc; reflexivity).
      eapply gspec_bind.
      { apply gspec_and; [apply sb_store_spec; [exact Hs|exact He|exact Hlt|rewrite Ew; cbn; lia]|].
        apply (sb_store_frame s (get_hi_surrogate c) E); [apply Hs|exact He|exact Hlt]. }
      intros [r s'] [[Hs' _] (F1 & F2 & F3 & F4)]. cbn [fst snd] in *.
      apply sb_store_spec; [exact Hs'|congruence|lia|rewrite F3, Ew; cbn; lia].
  - destruct (Z.ltb_spec c 0x100) as [Hsm|_]; [|apply putc_slow_spec; assumption].
    unfold utf16_units. rewrite (proj2 (Z.leb_gt 0x10000 c)) by lia. apply sb_store_spec; [exact Hs|exact He|exact Hlt|rewrite Ew; cbn; lia].
Qed.

(** The new length of a write is in the range of [int] if the number of units is. *)
Lemma new_length s units n : sb_state s units -> 0 <= n -> len units + n < 2 ^ 31 -> swrap 32 (sb_len s + n) = sb_len s + n.
Proof.
  intros Hs Hn Hl. pose proof Hs as [Hok Hc]. pose proof (len_content s Hok) as Hlc. pose proof (len_nonneg units). apply swrap_small; [lia|]. destruct (sb_error s) eqn:He; [|rewrite Hc in Hlc; lia].
  destruct (error_empty s units Hs ltac:(congruence)) as (_ & H2 & _). lia.
Qed.

Lemma write8_spec s units p E :
  sb_state s units -> width_ok false p -> len units + len p < 2 ^ 31 -> gspec G (string_buffer_write8 s p) (sb_post (units ++ p)) E.
Proof.
  intros Hs Hp Hl. unfold string_buffer_write8. cbv zeta. rewrite (new_length s units (len p) Hs (len_nonneg p) Hl).
  apply (with_room s units p); [exact Hs|reflexivity|intros Hn; apply Z.ltb_ge in Hn; exact Hn| |].
  - intros He Hn. apply Z.ltb_ge in Hn. apply write_nothing; assumption.
  - intros s' Hs' He' Hfit _ _. apply sb_write_spec; [exact Hs'|exact He'|exact Hfit|].
    destruct (sb_wide s'); [apply (width_ok_wide _ _ Hp)|exact Hp].
Qed.

Lemma write16_spec s units p E :
  sb_state s units -> units_ok p -> len units + len p < 2 ^ 31 -> gspec G (string_buffer_write16 s p) (sb_post (units ++ p)) E.
Proof.
  intros Hs Hp Hl. unfold string_buffer_write16. cbv zeta. rewrite (new_length s units (len p) Hs (len_nonneg p) Hl). clear Hl. set (c := fold_left Z.lor p 0).
  assert (forall w, (0x100 <= c -> w = true) -> width_ok w p) as Hw.
  { intros [|] Hw; [exact Hp|]. apply units_narrow; [exact Hp|]. fold c. destruct (Z.lt_ge_cases c 0x100); [assumption|]. discriminate (Hw ltac:(lia)). }
  destruct (Z.ltb_spec (sb_size s) (sb_len s + len p)) as [Hbig|Hfit].
  - apply (with_room s units p (sb_len s + len p) c (fun s => sb_write s p) E true); [exact Hs|reflexivity|discriminate|discriminate|].
    intros s' Hs' He' Hfit _ Hwide. apply sb_write_spec; [exact Hs'|exact He'|exact Hfit|]. apply Hw. apply Hwide. reflexivity.
  - destruct (sb_error s) as [e|] eqn:He.
    + assert (sb_error s <> None) as He' by congruence. destruct (negb (sb_wide s) && (0x100 <=? c)).
      * unfold string_buffer_widen. rewrite He, ret_bind. cbn [Z.eqb negb]. apply gspec_ret, failed_post; [exact Hs|exact He'|reflexivity].
      * rewrite ret_bind. cbn [Z.eqb negb]. apply write_nothing; assumption.
    + destruct (negb (sb_wide s) && (0x100 <=? c)) eqn:Ew.
      * apply andb_true_iff in Ew. destruct Ew as [Ew _]. apply negb_true_iff in Ew.
        pose proof Hs as [Hok Hcnt]. rewrite He in Hcnt. pose proof Hok as Hok'. unfold sb_ok in Hok'. rewrite He in Hok'.
        destruct Hok' as (H1 & _ & _ & H6 & _). specialize (H6 Ew).
        eapply gspec_bind; [apply (widen_spec s (sb_size s) E Hok He); lia|].
        intros [r s2]. unfold grow_post. cbn [fst snd].
        intros [(-> & (G1 & G2 & G3 & G4 & G5 & G6) & G7)|(-> & Hu)]; cbn [Z.eqb negb].
        -- apply sb_write_spec; [split; [exact G1|rewrite G2, G3; exact Hcnt]|exact G2|lia|]. apply Hw. auto.
        -- apply gspec_ret, Hu. rewrite Hcnt, len_app. pose proof (len_nonneg p). lia.
      * rewrite ret_bind. cbn [Z.eqb negb]. apply sb_write_spec; [exact Hs|exact He|exact Hfit|]. apply Hw.
        intros Hc. apply Z.leb_le in Hc. rewrite Hc, andb_true_r in Ew. apply negb_false_iff in Ew. exact Ew.
Qed.

Definition substring (p : JSString) (from to : Z) : list Z := take (Z.to_nat (to - from)) (drop (Z.to_nat from) (chars p)).

Lemma width_ok_sub w l n k : width_ok w l -> width_ok w (take n (drop k l)).
Proof. intros H. apply Forall_take, Forall_drop, H. Qed.

Lemma concat_spec s units p from to E :
  sb_state s units -> string_ok p -> 0 <= from -> to <= str_len p -> len units + len (substring p from to) < 2 ^ 31 ->
  gspec G (string_buffer_concat s p from to) (sb_post (units ++ substring p from to)) E.
Proof.
  intros Hs [Hp _] Hf Ht Hl. unfold string_buffer_concat. destruct (Z.leb_spec to from) as [Hle|Hlt].
  - apply gspec_ret. unfold substring. replace (Z.to_nat (to - from)) with 0%nat by lia. cbn [take firstn]. rewrite app_nil_r.
    split; [exact Hs|left; reflexivity].
  - unfold tab_slice. unfold str_len in Ht. rewrite !(proj2 (Z.leb_le _ _)) by lia. cbn [andb]. rewrite ret_bind. fold (substring p from to).
    assert (width_ok (is_wide_char p) (substring p from to)) as Hw by (apply width_ok_sub, Hp).
    destruct (is_wide_char p); [apply write16_spec; [exact Hs|exact Hw|exact Hl]|apply write8_spec; [exact Hs|exact Hw|exact Hl]].
Qed.

Lemma fill_loop_spec s units c n E :
  sb_state s units -> unit_ok c -> gspec G (sb_fill_loop s c n) (sb_post (units ++ replicate n c)) E.
Proof.
  intros Hs Hc. revert s units Hs. induction n as [|n IH]; intros s units Hs; cbn [sb_fill_loop replicate].
  - apply gspec_ret. rewrite app_nil_r. split; [exact Hs|left; reflexivity].
  - replace (units ++ c :: replicate n c) with ((units ++ [c]) ++ replicate n c) by (rewrite <- app_assoc; reflexivity).
    eapply gspec_bind; [apply (putc16_spec s units c E Hs Hc)|]. intros [r s'] [Hs' Hr]. cbn [fst snd] in *.
    destruct Hr as [->|[-> He]]; cbn [Z.eqb negb]; [apply IH, Hs'|]. apply gspec_ret, failed_post; [exact Hs'|exact He|reflexivity].
Qed.

Lemma fill_spec s units c count E :
  sb_state s units -> unit_ok c -> 0 <= count -> len units + count < 2 ^ 31 ->
  gspec G (string_buffer_fill s c count) (sb_post (units ++ replicate (Z.to_nat count) c)) E.
Proof.
  intros Hs Hc Hn Hl. unfold string_buffer_fill. cbv zeta. rewrite (new_length s units count Hs Hn Hl).
  apply (with_room s units (replicate (Z.to_nat count) c) _ _ (fun s => sb_fill_loop s c (Z.to_nat count)));
    [exact Hs|rewrite len_replicate; lia|intros Hr; apply Z.ltb_ge in Hr; exact Hr| |].
  - intros _ _. apply fill_loop_spec; assumption.
  - intros s' Hs' _ _ _ _. apply fill_loop_spec; assumption.
Qed.

Lemma init2_spec size wide E :
  0 <= size < 2 ^ 30 -> gspec G (string_buffer_init2 size wide) (sb_post []) E.
Proof.
  intros Hsz. unfold string_buffer_init2. eapply gspec_bind; [apply gspec_try_alloc|]. intros ok Hok.
  destruct ok; cbn [negb]; apply gspec_ret; (split; [|(left; reflexivity) || (right; split; [reflexivity|discriminate])]); cbn [snd].
  - unfold sb_state, sb_ok, sb_content. cbn [sb_error sb_chars sb_len sb_size sb_wide]. split; [|reflexivity].
    rewrite len_raw by lia. split; [lia|]. split; [reflexivity|]. split; [lia|]. split; [lia|constructor].
  - unfold sb_state, sb_ok. cbn [sb_error sb_chars sb_len sb_size]. split; [|discriminate]. repeat (split; [reflexivity|]). left. auto.
Qed.

(** What [string_buffer_end] throws: the recorded failure. *)
Definition sb_exn (units : list Z) (e : exn) : Prop :=
  (e = OutOfMemory /\ ~ G) \/ (e = err_too_long /\ JS_STRING_LEN_MAX < len units).

Lemma end_spec s units :
  sb_state s units -> gspec G (string_buffer_end s) (fun p => string_ok p /\ chars p = units) (sb_exn units).
Proof.
  intros [Hok Hc]. unfold string_buffer_end. pose proof (len_content s Hok) as Hlc. unfold sb_ok in Hok. destruct (sb_error s) as [e|] eqn:He.
  - apply gspec_throw. destruct Hok as (_ & _ & _ & [H|H]); [left; exact H|right; split; [exact H|apply Hc, H]].
  - destruct Hok as (H1 & H2 & H3 & H4 & H5). rewrite Hc in *. destruct (Z.eqb_spec (sb_len s) 0) as [E0|Hne].
    + apply gspec_ret. assert (units = []) as -> by (destruct units; [reflexivity|rewrite len_cons in Hlc; pose proof (len_nonneg units); lia]).
      split; [|reflexivity]. split; [apply Forall_nil_2|unfold str_len, len; cbn [chars empty_string length]; lia].
    + apply gspec_bind with (R := fun _ => True).
      { destruct (sb_len s <? sb_size s); [|apply gspec_ret; exact I].
        eapply gspec_mono; [apply (gspec_try_alloc G (sb_exn units))|intros ok _; exact I|intros e Hx; exact Hx]. }
      intros ok _. apply gspec_ret. unfold sb_content in Hc. rewrite Hc. split; [|reflexivity]. split; [exact H5|].
      unfold str_len. cbn [chars]. lia.
Qed.

End StringBuffers.

(** ** A buffer written by a sequence of operations *)

Inductive sb_op : Type :=
| SbPutc8 (c : Z) | SbPutc16 (c : Z) | SbPutc (c : Z) | SbWrite8 (p : list Z) | SbWrite16 (p : list Z)
| SbConcat (p : JSString) (from to : Z) | SbFill (c count : Z).

Definition sb_op_ok (op : sb_op) : Prop :=
  match op with
  | SbPutc8 c => 0 <= c < 0x100
  | SbPutc16 c => unit_ok c
  | SbPutc c => 0 <= c < 0x110000
  | SbWrite8 p => width_ok false p
  | SbWrite16 p => units_ok p
  | SbConcat p from to => string_ok p /\ 0 <= from /\ to <= str_len p
  | SbFill c count => unit_ok c /\ 0 <= count
  end.

Definition sb_op_units (op : sb_op) : list Z :=
  match op with
  | SbPutc8 c | SbPutc16 c => [c]
  | SbPutc c => utf16_units c
  | SbWrite8 p | SbWrite16 p => p
  | SbConcat p from to => substring p from to
  | SbFill c count => replicate (Z.to_nat count) c
  end.

Section Runs.
Context `{MS : MallocSlack} `{RM : RawMemory}.

Definition sb_step (s : StringBuffer) (op : sb_op) : M (Z * StringBuffer) :=
  match op with
  | SbPutc8 c => string_buffer_putc8 s c
  | SbPutc16 c => string_buffer_putc16 s c
  | SbPutc c => string_buffer_putc s c
  | SbWrite8 p => string_buffer_write8 s p
  | SbWrite16 p => string_buffer_write16 s p
  | SbConcat p from to => string_buffer_concat s p from to
  | SbFill c count => string_buffer_fill s c count
  end.

(** The callers do not look at the return codes. *)
Fixpoint sb_run (s : StringBuffer) (ops : list sb_op) : M StringBuffer :=
  match ops with
  | [] => mret s
  | op :: ops => '(_, s) ← sb_step s op; sb_run s ops
  end.

Definition sb_build (size : Z) (wide : bool) (ops : list sb_op) : M JSString :=
  '(_, s) ← string_buffer_init2 size wide;
  s ← sb_run s ops;
  string_buffer_end s.

Lemma sb_step_spec G s units op E :
  sb_state G s units -> sb_op_ok op -> len units + len (sb_op_units op) < 2 ^ 31 -> gspec G (sb_step s op) (sb_post G (units ++ sb_op_units op)) E.
Proof.
  intros Hs Hop Hl. destruct op; cbn [sb_step sb_op_ok sb_op_units] in *.
  - apply putc8_spec; assumption.
  - apply putc16_spec; assumption.
  - apply putc_spec; assumption.
  - apply write8_spec; assumption.
  - apply write16_spec; assumption.
  - destruct Hop as (H1 & H2 & H3). apply concat_spec; assumption.
  - destruct Hop as [H1 H2]. rewrite len_replicate in Hl. apply fill_spec; try assumption. lia.
Qed.

Definition sb_units (ops : list sb_op) : list Z := concat (sb_op_units <$> ops).

Lemma sb_run_spec G s units ops E :
  sb_state G s units -> Forall sb_op_ok ops -> len units + len (sb_units ops) < 2 ^ 31 ->
  gspec G (sb_run s ops) (fun s' => sb_state G s' (units ++ sb_units ops)) E.
Proof.
  intros Hs Hops. revert s units Hs. induction Hops as [|op ops Hop Hops IH]; intros s units Hs Hl; cbn [sb_run].
  - apply gspec_ret. unfold sb_units. cbn. rewrite app_nil_r. exact Hs.
  - change (sb_units (op :: ops)) with (sb_op_units op ++ sb_units ops) in *. rewrite len_app in Hl. pose proof (len_nonneg (sb_units ops)). eapply gspec_bind; [apply (sb_step_spec G s units op E Hs Hop); lia|]. intros [r s'] [Hs' _]. cbn [snd] in Hs'.
    rewrite app_assoc. apply IH; [exact Hs'|rewrite len_app; lia].
Qed.

Lemma sb_build_spec size wide ops :
  0 <= size < 2 ^ 30 -> Forall sb_op_ok ops -> len (sb_units ops) < 2 ^ 31 ->
  mspec (sb_build size wide ops) (fun p => string_ok p /\ chars p = sb_units ops)
    (fun e => e = err_too_long /\ JS_STRING_LEN_MAX < len (sb_units ops)).
Proof.
  intros Hsz Hops Hl. apply mspec_of_gspec. intros G.
  eapply gspec_bind; [apply init2_spec, Hsz|]. intros [r s] [Hs _]. cbn [snd] in Hs.
  eapply gspec_bind; [apply (sb_run_spec G s [] ops _ Hs Hops); change (len (@nil Z)) with 0; lia|]. intros s' Hs'. apply (end_spec G s' _ Hs').
Qed.

End Runs.
