(* ===== verification/JSStringSpecs.v ===== *)
(** Strings and UTF-8 ([JS_NewStringLen], [JS_ToCStringLen2]): encoding and then
    decoding gives the same code units, lone surrogates included, and decoding is
    defined on every byte sequence.

    Comparison, substrings and concatenation of strings do not depend on the
    width in which their units are stored. *)
From stdpp Require Import base tactics list numbers.
From Stdlib Require Import ZArith Lia.
From S2P Require Import Prelude BigIntString Cutils Utf8 JSString StringBuffers.

Open Scope Z_scope.

(** ** Encoding *)

Lemma to_utf8_ascii c : c < 0x80 -> unicode_to_utf8 c = [c].
Proof. intros H. unfold unicode_to_utf8. rewrite (proj2 (Z.ltb_lt c 0x80) H). reflexivity. Qed.

(** A code point from 0x80 on has a first byte from 0x80 on, and as many bytes as
    the three-bytes-per-unit estimate allows. *)
Lemma to_utf8_head c :
  0x80 <= c < 2 ^ 31 ->
  exists x t, unicode_to_utf8 c = x :: t /\ 0x80 <= x /\ 1 <= len t /\ (c < 0x10000 -> len t <= 2) /\ (0x10000 <= c < 0x110000 -> len t = 3).
Proof.
  intros Hc. destruct (utf8_classes c Hc) as (n & lo & hi & mask & prefix & Hcl & Hin).
  destruct (to_utf8_class _ _ _ _ _ c Hcl Hin) as [E Hx]. destruct (first_byte_class _ _ _ _ _ _ Hcl Hx) as (_ & _ & H & _).
  eexists _, _. split; [exact E|]. split; [exact H|]. unfold len. rewrite cont_bytes_length. classes Hcl; lia.
Qed.

Lemma latin1_utf16 cesu8 l : width_ok false l -> latin1_to_utf8 l = utf16_to_utf8 cesu8 l.
Proof.
  induction 1 as [|c l Hc Hl IH]; [reflexivity|]. cbn in Hc. cbn [latin1_to_utf8 utf16_to_utf8]. rewrite IH.
  destruct (Z.ltb_spec c 0x80) as [H|H]; [reflexivity|].
  assert (is_hi_surrogate c = false) as Hs.
  { destruct (is_hi_surrogate c) eqn:E; [|reflexivity]. apply hi_surrogate_range in E; lia. }
  assert (unicode_to_utf8 c = [Z.lor (Z.shiftr c 6) 0xc0; Z.lor (Z.land c 0x3f) 0x80]) as Eu.
  { unfold unicode_to_utf8. rewrite (proj2 (Z.ltb_ge c 0x80)), (proj2 (Z.ltb_lt c 0x800)) by lia. reflexivity. }
  rewrite <- Eu, Hs. cbn [andb]. destruct l; [apply app_nil_r|reflexivity].
Qed.

Lemma fold_count l n : width_ok false l -> fold_left (fun n c => n + Z.shiftr c 7) l n = n + (len (latin1_to_utf8 l) - len l).
Proof.
  intros H. revert n. induction H as [|c l Hc Hl IH]; intros n; cbn [fold_left latin1_to_utf8]; [change (len (@nil Z)) with 0; lia|].
  cbn in Hc. rewrite IH, len_app, len_cons, Z.shiftr_div_pow2 by lia. destruct (Z.ltb_spec c 0x80).
  - rewrite (Z.div_small c) by lia. change (len [c]) with 1. lia.
  - assert (c / 2 ^ 7 = 1) as -> by (symmetry; apply (Z.div_unique_pos _ _ _ (c - 128)); lia).
    rewrite !len_cons. change (len (@nil Z)) with 0. lia.
Qed.

(** Two-step induction on the units. *)
Lemma units_ind2 (P : list Z -> Prop) :
  P [] -> (forall c, P [c]) -> (forall c c1 l, P l -> P (c1 :: l) -> P (c :: c1 :: l)) -> forall l, P l.
Proof.
  intros H0 H1 H2 l. assert (P l /\ forall c, P (c :: l)) as [H _]; [|exact H].
  induction l as [|c l [IH1 IH2]]; [auto|]. split; [apply IH2|]. intros c'. apply H2; auto.
Qed.

(** One step of the encoder: an ASCII unit, a pair, or one other unit. *)
Lemma utf16_to_utf8_step cesu8 c l :
  units_ok (c :: l) -> 0x80 <= c ->
  exists cp l', utf16_to_utf8 cesu8 (c :: l) = unicode_to_utf8 cp ++ utf16_to_utf8 cesu8 l' /\
    utf16_units cp ++ l' = c :: l /\ 0x80 <= cp < 0x110000 /\ units_ok l' /\ (length l' <= length l)%nat.
Proof.
  intros Hok Hc. inversion Hok as [|? ? Hc16 Hl]; subst. unfold unit_ok in Hc16. cbn [utf16_to_utf8].
  rewrite (proj2 (Z.ltb_ge c 0x80)) by lia.
  assert (utf16_units c = [c]) as E1 by (unfold utf16_units; rewrite (proj2 (Z.leb_gt 0x10000 c)) by lia; reflexivity).
  destruct l as [|c1 l]; [exists c, []; rewrite E1, app_nil_r; repeat split; try lia; constructor|].
  destruct (is_hi_surrogate c && negb cesu8 && is_lo_surrogate c1) eqn:Ep.
  - apply andb_true_iff in Ep. destruct Ep as [Ep Elo]. apply andb_true_iff in Ep. destruct Ep as [Ehi _].
    inversion Hl as [|? ? Hc1 Hl']; subst. unfold unit_ok in Hc1.
    apply hi_surrogate_range in Ehi; [|lia]. apply lo_surrogate_range in Elo; [|lia].
    destruct (from_surrogate_spec c c1 Ehi Elo) as (Hr & H1 & H2). cbv zeta in *.
    exists (from_surrogate c c1), l. unfold utf16_units. rewrite (proj2 (Z.leb_le 0x10000 _)) by lia. rewrite H1, H2.
    repeat split; try lia; [exact Hl'|cbn; lia].
  - exists c, (c1 :: l). rewrite E1. repeat split; try lia. exact Hl.
Qed.

Lemma utf16_to_utf8_length cesu8 l : units_ok l -> len l <= len (utf16_to_utf8 cesu8 l) <= 3 * len l.
Proof.
  intros Hok. remember (length l) as n eqn:En. assert (length l <= n)%nat as Hn by lia. clear En.
  revert l Hok Hn. induction n as [|n IH]; intros l Hok Hn; (destruct l as [|c l]; [cbn [utf16_to_utf8]; change (len (@nil Z)) with 0; lia|]); [cbn in Hn; lia|].
  destruct (Z.lt_ge_cases c 0x80) as [H|H].
  - cbn [utf16_to_utf8]. rewrite (proj2 (Z.ltb_lt c 0x80) H), !len_cons. inversion Hok; subst. cbn in Hn.
    specialize (IH l ltac:(assumption) ltac:(lia)). lia.
  - destruct (utf16_to_utf8_step cesu8 c l Hok H) as (cp & l' & -> & Eu & Hcp & Hok' & Hl'). cbn in Hn.
    rewrite <- Eu, !len_app. specialize (IH l' Hok' ltac:(lia)).
    destruct (to_utf8_head cp ltac:(lia)) as (x & t & -> & _ & H3 & H1 & H2). rewrite len_cons.
    unfold utf16_units. destruct (Z.leb_spec 0x10000 cp); rewrite ?len_cons; change (len (@nil Z)) with 0; lia.
Qed.

Lemma to_cstring_spec p cesu8 (E : exn -> Prop) :
  string_ok p -> mspec (JS_ToCStringLen2 p cesu8) (fun bytes => bytes = utf16_to_utf8 cesu8 (chars p)) E.
Proof.
  intros [Hw _]. unfold JS_ToCStringLen2, fits, str_len. destruct (is_wide_char p) eqn:Ew; cbn [negb].
  - eapply mspec_bind; [apply mspec_alloc|]. intros _ _. pose proof (utf16_to_utf8_length cesu8 (chars p) Hw).
    rewrite (proj2 (Z.leb_le _ (len (chars p) * 3))) by lia. apply mspec_ret. reflexivity.
  - rewrite fold_count by exact Hw. rewrite <- (latin1_utf16 cesu8) by exact Hw.
    destruct (Z.eqb_spec (0 + (len (latin1_to_utf8 (chars p)) - len (chars p))) 0) as [E0|Hne].
    + apply mspec_ret. clear Ew. induction Hw as [|c l Hc Hl IH]; [reflexivity|]. cbn [latin1_to_utf8] in *.
      assert (len l <= len (latin1_to_utf8 l)) as Hge.
      { clear. induction l as [|c l IH]; [reflexivity|]. cbn [latin1_to_utf8]. rewrite len_app, len_cons.
        destruct (c <? 0x80); rewrite ?len_cons; change (len (@nil Z)) with 0; lia. }
      rewrite len_app, len_cons in E0. destruct (c <? 0x80); cbn [app].
      * f_equal. apply IH. change (len [c]) with 1 in E0. lia.
      * rewrite !len_cons in E0. change (len (@nil Z)) with 0 in E0. lia.
    + eapply mspec_bind; [apply mspec_alloc|]. intros _ _.
      rewrite (proj2 (Z.leb_le _ _)) by lia. apply mspec_ret. reflexivity.
Qed.

(** ** Decoding *)

Section Decoding.
Context `{MS : MallocSlack} `{RM : RawMemory}.

(** Appending the units of a code point, as the loop does it. *)
Lemma put_code_point G b units c p_next fuel (Q : StringBuffer -> Prop) E :
  sb_state G b units -> 0x80 <= c < 0x110000 ->
  (forall b', sb_state G b' (units ++ utf16_units c) -> gspec G (utf8_loop fuel b' p_next) Q E) ->
  gspec G (if c <? 0x10000 then '(_, b) ← string_buffer_putc16 b c; utf8_loop fuel b p_next
           else if c <=? 0x10FFFF then
             '(_, b) ← string_buffer_putc16 b (get_hi_surrogate c);
             '(_, b) ← string_buffer_putc16 b (get_lo_surrogate c);
             utf8_loop fuel b p_next
           else undefined) Q E.
Proof.
  intros Hb Hc Hk. unfold utf16_units in Hk. destruct (Z.ltb_spec c 0x10000) as [H|H].
  - rewrite (proj2 (Z.leb_gt 0x10000 c)) in Hk by lia.
    eapply gspec_bind; [apply (putc16_spec G b units c E Hb); unfold unit_ok; lia|]. intros [r b'] [Hb' _]. apply Hk, Hb'.
  - rewrite (proj2 (Z.leb_le 0x10000 c)) in Hk by lia. rewrite (proj2 (Z.leb_le c 0x10FFFF)) by lia.
    destruct (surrogates_ok c ltac:(lia)) as [H1 H2].
    eapply gspec_bind; [apply (putc16_spec G b units _ E Hb H1)|]. intros [r b1] [Hb1 _]. cbn [snd] in Hb1.
    eapply gspec_bind; [apply (putc16_spec G b1 _ _ E Hb1 H2)|]. intros [r2 b2] [Hb2 _]. cbn [snd] in Hb2.
    apply Hk. rewrite <- app_assoc in Hb2. exact Hb2.
Qed.

Lemma utf8_loop_roundtrip G cesu8 fuel l b units E :
  sb_state G b units -> units_ok l -> (length (utf16_to_utf8 cesu8 l) < fuel)%nat ->
  gspec G (utf8_loop fuel b (utf16_to_utf8 cesu8 l)) (fun b' => sb_state G b' (units ++ l)) E.
Proof.
  revert l b units. induction fuel as [|fuel IH]; intros l b units Hb Hok Hf; [lia|].
  destruct l as [|c l]; [cbn [utf16_to_utf8 utf8_loop]; apply gspec_ret; rewrite app_nil_r; exact Hb|].
  destruct (Z.lt_ge_cases c 0x80) as [H|H].
  - inversion Hok as [|? ? Hc Hl]; subst. unfold unit_ok in Hc. cbn [utf16_to_utf8] in *. rewrite (proj2 (Z.ltb_lt c 0x80) H) in *.
    cbn [utf8_loop]. rewrite (proj2 (Z.ltb_lt c 128) H). cbn [length] in Hf.
    eapply gspec_bind; [apply (putc8_spec G b units c E Hb); lia|]. intros [r b'] [Hb' _].
    replace (units ++ c :: l) with ((units ++ [c]) ++ l) by (rewrite <- app_assoc; reflexivity). apply IH; [exact Hb'|exact Hl|lia].
  - destruct (utf16_to_utf8_step cesu8 c l Hok H) as (cp & l' & Eb & Eu & Hcp & Hok' & _). rewrite Eb in *. rewrite <- Eu, app_assoc.
    destruct (to_utf8_head cp ltac:(lia)) as (x & t & Ex & Hx & _).
    assert (unicode_from_utf8 (unicode_to_utf8 cp ++ utf16_to_utf8 cesu8 l') (len (unicode_to_utf8 cp ++ utf16_to_utf8 cesu8 l')) =
      mret (cp, utf16_to_utf8 cesu8 l')) as Hdec.
    { apply from_utf8_encode; [lia|]. rewrite len_app. pose proof (len_nonneg (utf16_to_utf8 cesu8 l')). lia. }
    rewrite length_app, Ex in Hf. cbn [length] in Hf.
    rewrite Ex in Hdec |- *. cbn [app utf8_loop] in *. rewrite (proj2 (Z.ltb_ge x 128)) by lia.
    rewrite Hdec, ret_bind, wrap_small by lia.
    pose proof (put_code_point G b units cp (utf16_to_utf8 cesu8 l') fuel _ E Hb Hcp (fun b' Hb' => IH l' b' _ Hb' Hok' ltac:(lia))) as Hput.
    destruct (cp <? 0x10000); [exact Hput|]. rewrite (proj2 (Z.leb_le cp 0x10FFFF)) in * by lia. exact Hput.
Qed.

(** The ASCII prefix of the bytes is the ASCII prefix of the units. *)
Lemma count_ascii_utf16 cesu8 l :
  units_ok l ->
  let k := count_ascii (utf16_to_utf8 cesu8 l) in
  (k <= length l)%nat /\ take k (utf16_to_utf8 cesu8 l) = take k l /\ drop k (utf16_to_utf8 cesu8 l) = utf16_to_utf8 cesu8 (drop k l) /\
  Forall (fun c => 0 <= c < 128) (take k l).
Proof.
  induction l as [|c l IH]; intros Hok; cbv zeta; [cbn; repeat split; constructor|].
  destruct (Z.lt_ge_cases c 0x80) as [H|H].
  - inversion Hok as [|? ? Hc Hl]; subst. unfold unit_ok in Hc. destruct (IH Hl) as (H1 & H2 & H3 & H4).
    cbn [utf16_to_utf8]. rewrite (proj2 (Z.ltb_lt c 0x80) H). cbn [count_ascii]. rewrite (proj2 (Z.ltb_lt c 128) H).
    cbn [length take firstn drop skipn]. split; [lia|]. split; [f_equal; exact H2|]. split; [exact H3|]. constructor; [lia|exact H4].
  - destruct (utf16_to_utf8_step cesu8 c l Hok H) as (cp & l' & Eb & _ & Hcp & _).
    destruct (to_utf8_head cp ltac:(lia)) as (x & t & Ex & Hx & _). 
    assert (count_ascii (utf16_to_utf8 cesu8 (c :: l)) = 0%nat) as ->.
    { rewrite Eb, Ex. cbn [app count_ascii]. rewrite (proj2 (Z.ltb_ge x 128)) by lia. reflexivity. }
    split; [lia|]. split; [reflexivity|]. split; [reflexivity|constructor].
Qed.

Lemma utf16_to_utf8_nonempty cesu8 l : units_ok l -> utf16_to_utf8 cesu8 l = [] -> l = [].
Proof.
  intros Hok E. destruct l as [|c l]; [reflexivity|]. destruct (Z.lt_ge_cases c 0x80) as [H|H].
  - cbn [utf16_to_utf8] in E. rewrite (proj2 (Z.ltb_lt c 0x80) H) in E. discriminate.
  - destruct (utf16_to_utf8_step cesu8 c l Hok H) as (cp & l' & Eb & _ & Hcp & _).
    destruct (to_utf8_head cp ltac:(lia)) as (x & t & Ex & _). rewrite Eb, Ex in E. discriminate.
Qed.

Lemma new_string8_gspec G s (E : exn -> Prop) :
  (~ G -> E OutOfMemory) -> gspec G (js_new_string8 s) (fun p => is_wide_char p = false /\ chars p = s) E.
Proof.
  intros HE. unfold js_new_string8, js_new_string8_len. destruct (Z.leb_spec (len s) 0) as [Hl|_].
  - rewrite ret_bind. apply gspec_ret. split; [reflexivity|]. destruct s as [|c s]; [reflexivity|].
    rewrite len_cons in Hl. pose proof (len_nonneg s). lia.
  - eapply gspec_bind with (R := fun t => t = s).
    + eapply gspec_bind; [apply gspec_alloc, HE|]. intros _ _. apply gspec_ret. reflexivity.
    + intros t ->. apply gspec_ret. auto.
Qed.

(** The frame of [JS_NewStringLen]: the loop decides what is read. *)
Lemma new_string_frame G buf (k := count_ascii buf) (R : list Z -> Prop) :
  len buf < 2 ^ 30 -> Forall (fun c => 0 <= c < 128) (take k buf) -> (k = length buf -> R buf) ->
  (forall b, sb_state G b (take k buf) ->
     gspec G (utf8_loop (S (length buf)) b (drop k buf)) (fun b' => exists u, sb_state G b' u /\ R u /\ len u <= len buf)
       (fun e => e = OutOfMemory /\ ~ G)) ->
  gspec G (JS_NewStringLen buf) (fun p => string_ok p /\ R (chars p)) (fun e => (e = OutOfMemory /\ ~ G) \/ no_exn e).
Proof.
  intros Hlen Hasc Hall Hloop. unfold JS_NewStringLen. fold k. cbv zeta.
  assert (k <= length buf)%nat as Hk.
  { unfold k. clear. induction buf as [|c buf IH]; cbn; [lia|]. destruct (c <? 128); cbn; lia. }
  unfold len in Hlen. change JS_STRING_LEN_MAX with (2 ^ 30 - 1).
  rewrite (proj2 (Z.ltb_ge (2 ^ 30 - 1) (Z.of_nat k))) by lia.
  assert (width_ok false (take k buf)) as Hw by (eapply Forall_impl; [|exact Hasc]; intros c Hc; cbn in *; lia).
  destruct (Nat.eqb_spec k (length buf)) as [E|Hne].
  - eapply gspec_mono; [apply (new_string8_gspec G buf (fun e => (e = OutOfMemory /\ ~ G) \/ no_exn e)); intros HG; left; split; [reflexivity|exact HG]| |auto].
    intros p [Ep Ec]. split; [|rewrite Ec; apply Hall, E]. rewrite E, firstn_all in Hw. split; [rewrite Ep, Ec; exact Hw|].
    unfold str_len, len. rewrite Ec. lia.
  - eapply gspec_bind; [apply (init2_spec G (len buf) false); unfold len; lia|]. intros [r b] [Hb Hr]. cbn [fst snd] in *.
    destruct Hr as [->|[-> He]]; cbn [Z.eqb negb].
    + eapply gspec_bind; [apply (write8_spec G b [] (take k buf) _ Hb Hw); change (len (@nil Z)) with 0; unfold len; rewrite length_take; lia|]. intros [r2 b2] [Hb2 _]. cbn [fst snd app] in *.
      eapply gspec_bind; [eapply gspec_mono; [apply (Hloop b2 Hb2)|intros b' Hb'; exact Hb'|intros e He; left; exact He]|].
      intros b3 (u & Hb3 & HR & Hu). eapply gspec_mono; [apply (end_spec G b3 u Hb3)| |].
      * intros p [Hp ->]. auto.
      * intros e [He|[_ He]]; [left; exact He|]. change JS_STRING_LEN_MAX with (2 ^ 30 - 1) in He. unfold len in *. lia.
    + apply gspec_throw. left. split; [reflexivity|]. destruct Hb as [Hok Hlong]. unfold sb_ok in Hok.
      destruct (sb_error b) as [e|]; [|congruence]. destruct Hok as (_ & _ & _ & [[_ HG]|Ht]); [exact HG|].
      specialize (Hlong Ht). change (len (@nil Z)) with 0 in Hlong. change JS_STRING_LEN_MAX with (2 ^ 30 - 1) in Hlong. lia.
Qed.

(** Decoding what [JS_ToCStringLen2] wrote. *)
Lemma new_string_utf16 cesu8 l :
  units_ok l -> 3 * len l < 2 ^ 30 ->
  mspec (JS_NewStringLen (utf16_to_utf8 cesu8 l)) (fun p => string_ok p /\ chars p = l) no_exn.
Proof.
  intros Hok Hl. pose proof (utf16_to_utf8_length cesu8 l Hok) as Hlen. apply mspec_of_gspec. intros G.
  destruct (count_ascii_utf16 cesu8 l Hok) as (Hk & Ht & Hd & Hasc). cbv zeta in *.
  set (bytes := utf16_to_utf8 cesu8 l) in *. set (k := count_ascii bytes) in *.
  apply (new_string_frame G bytes (fun u => u = l)).
  - lia.
  - fold k. rewrite Ht. exact Hasc.
  - fold k. intros E. assert (drop k l = []) as E2.
    { apply (utf16_to_utf8_nonempty cesu8); [apply Forall_drop, Hok|]. rewrite <- Hd, E. apply drop_all. }
    rewrite <- (take_drop k l), E2, app_nil_r, <- Ht, E. symmetry. apply firstn_all.
  - fold k. intros b Hb. rewrite Hd. eapply gspec_mono.
    + apply (utf8_loop_roundtrip G cesu8 _ (drop k l) b (take k bytes) (fun e => e = OutOfMemory /\ ~ G)); [exact Hb|apply Forall_drop, Hok|].
      rewrite <- Hd, length_drop. lia.
    + intros b' Hb'. rewrite Ht, take_drop in Hb'. exists l. split; [exact Hb'|]. split; [reflexivity|lia].
    + auto.
Qed.

(** ** Decoding any bytes *)

Lemma skip_cont_length p : (length (skip_cont p) <= length p)%nat.
Proof. induction p as [|b p IH]; cbn; [lia|]. destruct (_ && _); cbn in *; lia. Qed.

Lemma skip_cont_bytes p : Forall (fun b => 0 <= b < 256) p -> Forall (fun b => 0 <= b < 256) (skip_cont p).
Proof. induction 1 as [|b p Hb Hp IH]; cbn; [constructor|]. destruct (_ && _); [exact IH|constructor; assumption]. Qed.

(** Skipping an invalid sequence consumes at least one byte. *)
Lemma skip_invalid p x p1 (p' := skip_cont p) (p'' := match p' with _ :: q => skip_cont q | [] => [] end) :
  p = x :: p1 -> Forall (fun b => 0 <= b < 256) p -> (length p'' < length p)%nat /\ Forall (fun b => 0 <= b < 256) p''.
Proof.
  intros -> Hp. pose proof (skip_cont_length (x :: p1)) as Hl. pose proof (skip_cont_bytes _ Hp) as Hb. fold p' in Hl, Hb.
  unfold p''. destruct p' as [|y q] eqn:Eq; [cbn; split; [lia|constructor]|]. inversion Hb; subst.
  pose proof (skip_cont_length q). cbn [length] in *. split; [lia|]. apply skip_cont_bytes. assumption.
Qed.

Lemma utf8_loop_total G fuel p b units E :
  sb_state G b units -> Forall (fun b => 0 <= b < 256) p -> (length p < fuel)%nat ->
  gspec G (utf8_loop fuel b p) (fun b' => exists u, sb_state G b' (units ++ u) /\ len u <= len p) E.
Proof.
  revert p b units. induction fuel as [|fuel IH]; intros p b units Hb Hp Hf; [lia|]. cbn [utf8_loop].
  destruct p as [|x p1]; [apply gspec_ret; exists []; rewrite app_nil_r; split; [exact Hb|lia]|]. cbn [length] in Hf.
  inversion Hp as [|? ? Hx Hp1]; subst.
  assert (forall u p' b', sb_state G b' (units ++ u) -> Forall (fun b => 0 <= b < 256) p' -> len u + len p' <= len (x :: p1) -> (length p' < fuel)%nat ->
    gspec G (utf8_loop fuel b' p') (fun b' => exists u, sb_state G b' (units ++ u) /\ len u <= len (x :: p1)) E) as Hnext.
  { intros u p' b' Hb' Hp' Hlen Hf'. eapply gspec_mono; [apply (IH p' b' _ Hb' Hp' Hf')| |intros e He; exact He].
    intros b2 (u2 & Hb2 & Hu2). exists (u ++ u2). rewrite app_assoc. split; [exact Hb2|]. rewrite len_app. lia. }
  destruct (Z.ltb_spec x 128) as [Hlt|Hge].
  - eapply gspec_bind; [apply (putc8_spec G b units x E Hb); lia|]. intros [r b'] [Hb' _].
    apply (Hnext [x] p1 b' Hb' Hp1); [rewrite !len_cons; change (len (@nil Z)) with 0; lia|lia].
  - destruct (from_utf8_defined (x :: p1) (len (x :: p1))) as [[c p'] Ed]; [rewrite len_cons; pose proof (len_nonneg p1); lia|].
    rewrite Ed, ret_bind. destruct (from_utf8_decode (x :: p1) (len (x :: p1)) c p' alloc_all alloc_all Hp) as [[-> ->]|[Hc Ep]]; [rewrite Ed; reflexivity| |].
    + change (wrap 32 (-1)) with 0xFFFFFFFF. cbn [Z.ltb Z.leb Z.compare Pos.compare Pos.compare_cont].
      destruct (skip_invalid (x :: p1) x p1 eq_refl Hp) as [Hl Hb']. cbv zeta. 
      eapply gspec_bind; [apply (putc16_spec G b units 0xfffd E Hb); unfold unit_ok; lia|]. intros [r b'] [Hbs _].
      apply (Hnext [0xfffd] _ b' Hbs Hb'); [unfold len; cbn [length] in *; lia|cbn [length] in *; lia].
    + rewrite wrap_small by lia. assert (0x80 <= c) as Hc80.
      { destruct (Z.lt_ge_cases c 0x80); [|assumption]. rewrite to_utf8_ascii in Ep by assumption. injection Ep as -> _. lia. }
      destruct (to_utf8_head c ltac:(lia)) as (y & t & Ey & _ & Ht1 & Ht2 & Ht3). rewrite Ey in Ep. injection Ep as <- Ep1. subst p1.
      apply Forall_app in Hp1. destruct Hp1 as [_ Hp']. cbn [app]. rewrite length_app in Hf. rewrite len_cons, len_app in *.
      destruct (Z.leb_spec c 0x10FFFF) as [Hin|Hout].
      * pose proof (put_code_point G b units c p' fuel (fun b' => exists u, sb_state G b' (units ++ u) /\ len u <= len (x :: t ++ p')) E Hb ltac:(lia)) as Hput.
        rewrite len_cons, len_app in Hput. rewrite (proj2 (Z.leb_le c 0x10FFFF) Hin) in Hput. apply Hput. intros b' Hb'.
        apply (Hnext (utf16_units c) p' b' Hb' Hp'); [|lia]. unfold utf16_units.
        destruct (Z.leb_spec 0x10000 c); rewrite ?len_cons; change (len (@nil Z)) with 0; lia.
      * rewrite (proj2 (Z.ltb_ge c 0x10000)) by lia.
        destruct (skip_invalid (x :: t ++ p') x (t ++ p') eq_refl Hp) as [Hl Hb']. cbv zeta.
        eapply gspec_bind; [apply (putc16_spec G b units 0xfffd E Hb); unfold unit_ok; lia|]. intros [r b'] [Hbs _].
        apply (Hnext [0xfffd] _ b' Hbs Hb'); [unfold len in *; cbn [length] in *; rewrite ?length_app in *; lia|cbn [length] in *; rewrite ?length_app in *; lia].
Qed.

Lemma count_ascii_prefix p : Forall (fun b => 0 <= b < 256) p -> Forall (fun c => 0 <= c < 128) (take (count_ascii p) p).
Proof.
  induction 1 as [|b p Hb Hp IH]; cbn [count_ascii]; [constructor|]. destruct (Z.ltb_spec b 128); cbn [take firstn]; constructor; [lia|exact IH].
Qed.

(** Any bytes make a string, no longer than they are. *)
Lemma new_string_total buf :
  Forall (fun b => 0 <= b < 256) buf -> len buf < 2 ^ 30 ->
  mspec (JS_NewStringLen buf) (fun p => string_ok p /\ str_len p <= len buf) no_exn.
Proof.
  intros Hb Hl. apply mspec_of_gspec. intros G. apply (new_string_frame G buf (fun u => len u <= len buf)).
  - exact Hl.
  - apply count_ascii_prefix, Hb.
  - lia.
  - intros b Hst. set (k := count_ascii buf) in *. assert (len (take k buf) + len (drop k buf) = len buf) as Hsplit by (rewrite <- len_app, take_drop; reflexivity).
    eapply gspec_mono; [apply (utf8_loop_total G _ (drop k buf) b (take k buf) (fun e => e = OutOfMemory /\ ~ G) Hst); [apply Forall_drop, Hb|rewrite length_drop; lia]| |auto].
    intros b' (u & Hb' & Hu). exists (take k buf ++ u). rewrite len_app. split; [exact Hb'|lia].
Qed.

End Decoding.

(** The lexicographic order on units, as a sign. *)
Fixpoint units_cmp (s1 s2 : list Z) : Z :=
  match s1, s2 with
  | [], [] => 0
  | [], _ :: _ => -1
  | _ :: _, [] => 1
  | a :: s1, b :: s2 => if a =? b then units_cmp s1 s2 else if a <? b then -1 else 1
  end.

Lemma units_cmp_eq s1 s2 : units_cmp s1 s2 = 0 <-> s1 = s2.
Proof.
  revert s2. induction s1 as [|a s1 IH]; intros [|b s2]; cbn [units_cmp]; [split; reflexivity|split; [lia|discriminate]|split; [lia|discriminate]|].
  destruct (Z.eqb_spec a b) as [->|Hne].
  - rewrite IH. split; [intros ->; reflexivity|intros E; injection E; auto].
  - split; [case_tests; lia|intros E; injection E; congruence].
Qed.

Lemma memcmp_anti s1 s2 : memcmp s2 s1 = - memcmp s1 s2.
Proof.
  revert s2. induction s1 as [|a s1 IH]; intros [|b s2]; cbn [memcmp]; [reflexivity..|].
  rewrite IH. case_tests; lia.
Qed.

(** [memcmp] on the common length and then the lengths decide the order. *)
Lemma memcmp_units s1 s2 (n := Nat.min (length s1) (length s2)) :
  let r := memcmp (take n s1) (take n s2) in
  (r <> 0 -> Z.sgn r = units_cmp s1 s2) /\
  (r = 0 -> units_cmp s1 s2 = if len s1 =? len s2 then 0 else if len s1 <? len s2 then -1 else 1).
Proof.
  cbv zeta. unfold n. clear n. revert s2. induction s1 as [|a s1 IH]; intros [|b s2].
  - cbn. split; [lia|reflexivity].
  - cbn [length Nat.min take firstn memcmp units_cmp]. split; [lia|]. intros _. rewrite len_cons. change (len (@nil Z)) with 0.
    pose proof (len_nonneg s2). case_tests; lia.
  - cbn [length Nat.min take firstn memcmp units_cmp]. split; [lia|]. intros _. rewrite len_cons. change (len (@nil Z)) with 0.
    pose proof (len_nonneg s1). case_tests; lia.
  - cbn [length Nat.min take firstn memcmp units_cmp]. rewrite !len_cons. destruct (IH s2) as [IH1 IH2].
    destruct (Z.eqb_spec (a - b) 0) as [E|Hne].
    + assert (a = b) as -> by lia. rewrite Z.eqb_refl. split; [exact IH1|]. intros Hr. rewrite (IH2 Hr). case_tests; lia.
    + rewrite (proj2 (Z.eqb_neq a b)) by lia. split; [intros _|intros E; contradiction]. clear - Hne. destruct (Z.ltb_spec a b); [apply Z.sgn_neg|apply Z.sgn_pos]; lia.
Qed.

Lemma string_memcmp_at p1 pos1 p2 pos2 n :
  0 <= n -> 0 <= pos1 -> 0 <= pos2 -> pos1 + n <= str_len p1 -> pos2 + n <= str_len p2 ->
  js_string_memcmp p1 pos1 p2 pos2 n =
  mret (memcmp (take (Z.to_nat n) (drop (Z.to_nat pos1) (chars p1))) (take (Z.to_nat n) (drop (Z.to_nat pos2) (chars p2)))).
Proof.
  intros Hn H1 H2 H3 H4. unfold js_string_memcmp, tab_slice, str_len in *. rewrite !(proj2 (Z.leb_le _ _)) by lia. cbn [andb]. rewrite !ret_bind.
  f_equal. destruct (is_wide_char p1), (is_wide_char p2); try reflexivity. rewrite memcmp_anti. apply Z.opp_involutive.
Qed.

Lemma string_memcmp_prefix p1 p2 n :
  0 <= n <= Z.min (str_len p1) (str_len p2) ->
  exists r, js_string_memcmp p1 0 p2 0 n = mret r /\ r = memcmp (take (Z.to_nat n) (chars p1)) (take (Z.to_nat n) (chars p2)).
Proof. intros Hn. eexists. split; [apply string_memcmp_at; lia|reflexivity]. Qed.

Lemma string_compare_spec p1 p2 : exists r, js_string_compare p1 p2 = mret r /\ Z.sgn r = units_cmp (chars p1) (chars p2).
Proof.
  unfold js_string_compare. pose proof (len_nonneg (chars p1)). pose proof (len_nonneg (chars p2)).
  destruct (string_memcmp_prefix p1 p2 (Z.min (str_len p1) (str_len p2))) as (r & -> & ->); [unfold str_len; lia|].
  rewrite ret_bind. eexists. split; [reflexivity|]. destruct (memcmp_units (chars p1) (chars p2)) as [H1 H2]. cbv zeta in *.
  unfold str_len, len in *. replace (Z.to_nat (Z.min (Z.of_nat (length (chars p1))) (Z.of_nat (length (chars p2))))) with (Nat.min (length (chars p1)) (length (chars p2))) by lia.
  set (r := memcmp _ _) in *. destruct (Z.eqb_spec r 0) as [E|Hne]; [|apply H1, Hne]. rewrite (H2 E). case_tests; reflexivity.
Qed.

Lemma string_eq_spec p1 p2 : js_string_eq p1 p2 = mret (bool_decide (chars p1 = chars p2)).
Proof.
  unfold js_string_eq. destruct (Z.eqb_spec (str_len p1) (str_len p2)) as [E|Hne]; cbn [negb].
  - destruct (string_compare_spec p1 p2) as (r & Er & Hr). unfold js_string_compare in Er.
    rewrite <- E, Z.min_id, Z.eqb_refl in Er. pose proof (len_nonneg (chars p1)).
    destruct (string_memcmp_prefix p1 p2 (str_len p1)) as (r' & Er' & _); [unfold str_len in *; lia|].
    rewrite Er' in Er |- *. rewrite ret_bind in Er. rewrite ret_bind. assert (r = r') as ->.
    { assert (fst ((mret (if r' =? 0 then 0 else r') : M Z) alloc_all) = Ok r) as Ho by (rewrite Er; reflexivity).
      cbn in Ho. injection Ho as <-. destruct (Z.eqb_spec r' 0); congruence. }
    f_equal. pose proof (units_cmp_eq (chars p1) (chars p2)) as Hiff. rewrite <- Hr in Hiff.
    destruct (Z.eqb_spec r' 0) as [->|Hn]; symmetry; [apply bool_decide_eq_true, Hiff; reflexivity|apply bool_decide_eq_false].
    intros Ec. apply Hiff in Ec. lia.
  - f_equal. symmetry. apply bool_decide_eq_false. intros Ec. apply Hne. unfold str_len. rewrite Ec. reflexivity.
Qed.

Lemma concat1_spec p1 p2 :
  string_ok p1 -> string_ok p2 ->
  mspec (JS_ConcatString1 p1 p2) (fun p => string_ok p /\ chars p = chars p1 ++ chars p2)
    (fun e => e = err_too_long /\ JS_STRING_LEN_MAX < str_len p1 + str_len p2).
Proof.
  intros [H1 _] [H2 _]. unfold JS_ConcatString1. destruct (Z.ltb_spec JS_STRING_LEN_MAX (str_len p1 + str_len p2)) as [Hl|Hl].
  - apply mspec_throw. auto.
  - eapply mspec_bind; [apply mspec_alloc|]. intros _ _. apply mspec_ret. split; [|reflexivity]. split.
    + cbn [is_wide_char chars]. apply Forall_app.
      destruct (is_wide_char p1), (is_wide_char p2); cbn [orb]; split; (assumption || (eapply width_ok_wide; eassumption)).
    + unfold str_len in *. cbn [chars]. rewrite len_app. change JS_STRING_LEN_MAX with (2 ^ 30 - 1) in Hl. lia.
Qed.

Lemma concat2_spec p1 rc usable p2 :
  string_ok p1 -> string_ok p2 -> str_len p1 + str_len p2 < 2 ^ 31 ->
  mspec (JS_ConcatString2 p1 rc usable p2) (fun p => string_ok p /\ chars p = chars p1 ++ chars p2)
    (fun e => e = err_too_long /\ JS_STRING_LEN_MAX < str_len p1 + str_len p2).
Proof.
  intros H1 H2 Hl. unfold JS_ConcatString2. destruct (JS_ConcatStringInPlace p1 rc usable p2) as [p|] eqn:E.
  - apply mspec_ret. unfold JS_ConcatStringInPlace in E. destruct (Z.eqb_spec (str_len p2) 0) as [E0|_].
    + injection E as <-. split; [exact H1|]. unfold str_len in E0. destruct (chars p2); [rewrite app_nil_r; reflexivity|].
      rewrite len_cons in E0. pose proof (len_nonneg l). lia.
    + destruct (negb (rc =? 1)); [discriminate|]. destruct H1 as [H1 _], H2 as [H2 _].
      assert (len (chars p1 ++ chars p2) < 2 ^ 31) as Hlen by (rewrite len_app; exact Hl).
      destruct (is_wide_char p1) eqn:W1; [|destruct (is_wide_char p2) eqn:W2; [discriminate|]; cbn [negb] in E];
        (destruct (_ <=? usable); [|discriminate]); injection E as <-; (split; [|reflexivity]); (split; [|exact Hlen]); cbn [is_wide_char chars];
        apply Forall_app; (split; [exact H1|]); [apply (width_ok_wide _ _ H2)|exact H2].
  - apply concat1_spec; assumption.
Qed.

(** A substring, narrowed when all its units fit in 8 bits. *)
Lemma sub_string_spec p start stop :
  string_ok p -> 0 <= start <= stop -> stop <= str_len p ->
  mspec (js_sub_string p start stop) (fun q => string_ok q /\ chars q = substring p start stop) no_exn.
Proof.
  intros Hp Hs Ht. pose proof Hp as [Hw Hlen]. unfold js_sub_string, substring, str_len in *. cbv zeta.
  destruct ((start =? 0) && (stop =? len (chars p))) eqn:Eall.
  - apply andb_true_iff in Eall. destruct Eall as [E1 E2]. apply Z.eqb_eq in E1, E2. apply mspec_ret. split; [exact Hp|].
    rewrite E1, E2. change (Z.to_nat 0) with 0%nat. rewrite Z.sub_0_r. unfold len. rewrite Nat2Z.id. cbn [drop skipn]. symmetry. apply firstn_all.
  - set (sub := take (Z.to_nat (stop - start)) (drop (Z.to_nat start) (chars p))).
    assert ((if 0 <? stop - start then tab_slice (chars p) start (stop - start) else mret []) = (mret sub : M (list Z))) as ->.
    { destruct (Z.ltb_spec 0 (stop - start)).
      - unfold tab_slice. rewrite !(proj2 (Z.leb_le _ _)) by lia. reflexivity.
      - unfold sub. replace (Z.to_nat (stop - start)) with 0%nat by lia. reflexivity. }
    rewrite ret_bind. assert (width_ok (is_wide_char p) sub) as Hsub by (apply width_ok_sub, Hw).
    assert (len sub < 2 ^ 31) as Hls by (unfold sub, len in *; rewrite length_take, length_drop; lia).
    destruct (is_wide_char p && (0 <? stop - start)) eqn:Ew.
    + apply andb_true_iff in Ew. destruct Ew as [Ew _]. rewrite Ew in *. destruct (Z.ltb_spec 0xFF (fold_left Z.lor sub 0)) as [Hc|Hc].
      * unfold js_new_string16_len. eapply mspec_bind; [apply mspec_alloc|]. intros _ _. apply mspec_ret. split; [split; assumption|reflexivity].
      * eapply mspec_bind; [apply mspec_alloc|]. intros _ _. apply mspec_ret. cbn [chars].
        assert (width_ok false sub) as Hn by (apply units_narrow; [exact Hsub|lia]). rewrite (width_ok_wrap false) by exact Hn.
        split; [split; assumption|reflexivity].
    + assert (width_ok false sub) as Hn.
      { apply andb_false_iff in Ew. destruct Ew as [Ew|Ew]; [rewrite Ew in Hsub; exact Hsub|]. apply Z.ltb_ge in Ew.
        unfold sub. replace (Z.to_nat (stop - start)) with 0%nat by lia. constructor. }
      unfold js_new_string8, js_new_string8_len. destruct (Z.leb_spec (len sub) 0) as [Hl0|_].
      * rewrite ret_bind. apply mspec_ret. destruct sub as [|c sub']; [|rewrite len_cons in Hl0; pose proof (len_nonneg sub'); lia].
        split; [split; assumption|reflexivity].
      * eapply mspec_bind with (R := fun t => t = sub).
        -- eapply mspec_bind; [apply mspec_alloc|]. intros _ _. apply mspec_ret. reflexivity.
        -- intros t ->. apply mspec_ret. split; [split; assumption|reflexivity].
Qed.
