(* ===== verification/Rope.v ===== *)
(** String ropes (quickjs.c): trees of strings that make concatenation cheap, their
    iteration and comparison, and the rebalancing of deep ropes: definitions.

    A value is a string or a rope; [r_len], [r_wide] and [r_depth] are the fields
    the code caches in a [JSStringRope].  The functions that only look at lengths
    are generic in the type of the leaves. *)
From stdpp Require Import base tactics list numbers.
From Stdlib Require Import ZArith Lia.
From S2P Require Import Prelude Cutils JSString.

Open Scope Z_scope.

Definition JS_STRING_ROPE_SHORT_LEN : Z := 512.
Definition JS_STRING_ROPE_SHORT2_LEN : Z := 8192.
Definition JS_STRING_ROPE_MAX_DEPTH : Z := 60.
Definition ROPE_N_BUCKETS : Z := 44.

Inductive rope (S : Type) : Type :=
| RStr (p : S)
| RRope (r_len : Z) (r_wide : bool) (r_depth : Z) (left right : rope S).
Arguments RStr {S} p.
Arguments RRope {S} r_len r_wide r_depth left right.

(** Fibonacci numbers starting from F_2 *)
Definition rope_bucket_len : list Z :=
  [1; 2; 3; 5; 8; 13; 21; 34; 55; 89; 144; 233; 377; 610; 987; 1597; 2584; 4181; 6765; 10946; 17711; 28657; 46368; 75025;
   121393; 196418; 317811; 514229; 832040; 1346269; 2178309; 3524578; 5702887; 9227465; 14930352; 24157817;
   39088169; 63245986; 102334155; 165580141; 267914296; 433494437; 701408733; 1134903170].

(** A call whose exception the caller looks at: the value or the exception. *)
Definition attempt {A} (m : M A) : M (A + exn) := fun o =>
  match m o with
  | (Ok a, o') => (Ok (inl a), o')
  | (Throw e, o') => (Ok (inr e), o')
  | (Undefined, o') => (Undefined, o')
  end.

Section Ropes.
Context {S : Type} (leaf_len : S -> Z) (leaf_wide : S -> bool) (empty : S).

Definition string_rope_get_len (v : rope S) : Z :=
  match v with RStr p => leaf_len p | RRope l _ _ _ _ => l end.

Definition rope_is_wide (v : rope S) : bool :=
  match v with RStr p => leaf_wide p | RRope _ w _ _ _ => w end.

Definition rope_depth (v : rope S) : Z :=
  match v with RStr _ => 0 | RRope _ _ d _ _ => d end.

(** ** Rebalancing

    [buckets] holds the pending ropes, [None] for [JS_NULL].  A failure is the
    exception that the code leaves pending when it returns -1. *)
Definition buckets : Type := list (option (rope S)).

Section Rebalance.
Context (new_rope : rope S -> rope S -> M (rope S)).

(** [a = js_new_string_rope(ctx, b, a)] when [a] is not null, [a = b] otherwise. *)
Definition join (b : rope S) (a : option (rope S)) : M (rope S + exn) :=
  match a with None => mret (inl b) | Some a => attempt (new_rope b a) end.

(** [while (len >= rope_bucket_len[i + 1])] *)
Fixpoint merge_smaller (fuel : nat) (l i : Z) (a : option (rope S)) (bs : buckets) :
  M (option (rope S) * Z * buckets + exn * buckets) :=
  match fuel with
  | O => undefined
  | Datatypes.S fuel =>
      next ← tab_get rope_bucket_len (i + 1);
      if next <=? l then
        b ← tab_get bs i;
        match b with
        | None => merge_smaller fuel l (i + 1) a bs
        | Some b =>
            bs ← tab_set bs i None;
            r ← join b a;
            match r with
            | inl a => merge_smaller fuel l (i + 1) (Some a) bs
            | inr e => mret (inr (e, bs))
            end
        end
      else mret (inl (a, i, bs))
  end.

(** [while (!JS_IsNull(buckets[i]))], then [buckets[i] = a] *)
Fixpoint merge_full (fuel : nat) (i : Z) (a : rope S) (bs : buckets) : M (option exn * buckets) :=
  match fuel with
  | O => undefined
  | Datatypes.S fuel =>
      b ← tab_get bs i;
      match b with
      | None => bs ← tab_set bs i (Some a); mret (None, bs)
      | Some b =>
          r ← attempt (new_rope b a);
          bs ← tab_set bs i None;
          match r with
          | inl a => merge_full fuel (i + 1) a bs
          | inr e => mret (Some e, bs)
          end
      end
  end.

(** The exception left pending, if any: the return code of the two recursive
    calls is not looked at. *)
Fixpoint js_rebalancee_string_rope_rec (v : rope S) (bs : buckets) : M (option exn * buckets) :=
  match v with
  | RStr p =>
      let l := leaf_len p in
      if l =? 0 then mret (None, bs)
      else
        r ← merge_smaller (Z.to_nat ROPE_N_BUCKETS) l 0 None bs;
        match r with
        | inr (e, bs) => mret (Some e, bs)
        | inl (None, i, bs) => merge_full (Datatypes.S (Z.to_nat ROPE_N_BUCKETS)) i v bs
        | inl (Some a, i, bs) =>
            r ← attempt (new_rope a v);
            match r with
            | inr e => mret (Some e, bs)
            | inl a => merge_full (Datatypes.S (Z.to_nat ROPE_N_BUCKETS)) i a bs
            end
        end
  | RRope _ _ _ rl rr =>
      '(_, bs) ← js_rebalancee_string_rope_rec rl bs;
      '(_, bs) ← js_rebalancee_string_rope_rec rr bs;
      mret (None, bs)
  end.

(** [for(i = 0; i < ROPE_N_BUCKETS; i++)] of the caller *)
Fixpoint collect (bs : buckets) (a : option (rope S)) : M (option (rope S)) :=
  match bs with
  | [] => mret a
  | None :: bs => collect bs a
  | Some b :: bs =>
      a ← match a with None => mret b | Some a => new_rope b a end;
      collect bs (Some a)
  end.

Definition rebalance_with (v : rope S) : M (rope S) :=
  '(e, bs) ← js_rebalancee_string_rope_rec v (replicate (Z.to_nat ROPE_N_BUCKETS) None);
  match e with
  | Some e => throw e
  | None =>
      a ← collect bs None;
      mret (match a with None => RStr empty | Some a => a end)
  end.

End Rebalance.

(** [js_new_string_rope] and [js_rebalancee_string_rope] call each other: the fuel
    bounds the depth of that recursion. *)
Fixpoint js_new_string_rope (fuel : nat) (op1 op2 : rope S) : M (rope S) :=
  let l := wrap 32 (string_rope_get_len op1 + string_rope_get_len op2) in
  let wide := rope_is_wide op1 || rope_is_wide op2 in
  let depth := Z.max (rope_depth op1) (rope_depth op2) in
  if JS_STRING_LEN_MAX <? l then throw err_too_long
  else
    _ ← alloc;
    let r := RRope l wide (wrap 8 (depth + 1)) op1 op2 in
    if JS_STRING_ROPE_MAX_DEPTH <? wrap 8 (depth + 1) then
      match fuel with
      | O => undefined
      | Datatypes.S fuel => rebalance_with (js_new_string_rope fuel) r
      end
    else mret r.

Definition js_rebalancee_string_rope (fuel : nat) (v : rope S) : M (rope S) :=
  rebalance_with (js_new_string_rope fuel) v.

End Ropes.

(** ** Ropes of strings *)

Notation JSRope := (rope JSString).

Notation rope_get_len := (string_rope_get_len str_len).
Notation new_string_rope := (js_new_string_rope str_len is_wide_char empty_string).
Notation rebalance_string_rope := (js_rebalancee_string_rope str_len is_wide_char empty_string).

Fixpoint string_rope_get (v : JSRope) (idx : Z) : M Z :=
  match v with
  | RStr p => string_get p idx
  | RRope _ _ _ rl rr =>
      let l := rope_get_len rl in
      if idx <? l then string_rope_get rl idx else string_rope_get rr (idx - l)
  end.

(** *** Iteration: the stack of [JSStringRopeIter], top first *)

Definition string_rope_iter_init (v : JSRope) : list JSRope := [v].

Fixpoint iter_descend (v : JSRope) (stack : list JSRope) : M (JSString * list JSRope) :=
  match v with
  | RStr p => mret (p, stack)
  | RRope _ _ _ rl rr =>
      if len stack <? JS_STRING_ROPE_MAX_DEPTH then iter_descend rl (rr :: stack) else undefined
  end.

Definition string_rope_iter_next (stack : list JSRope) : M (option (JSString * list JSRope)) :=
  match stack with
  | [] => mret None
  | v :: stack => r ← iter_descend v stack; mret (Some r)
  end.

(** The string under the iterator, the position in it and the rest. *)
Definition rope_cursor : Type := option (JSString * list JSRope) * Z.

Definition advance (c : JSString) (stack : list JSRope) (pos l : Z) : M rope_cursor :=
  if str_len c <=? pos + l then n ← string_rope_iter_next stack; mret (n, 0)
  else mret (Some (c, stack), pos + l).

Fixpoint rope_compare_loop (fuel : nat) (l : Z) (c1 c2 : rope_cursor) : M (option Z) :=
  if l =? 0 then mret None
  else
    match fuel with
    | O => undefined
    | Datatypes.S fuel =>
        match c1, c2 with
        | (Some (p1, st1), pos1), (Some (p2, st2), pos2) =>
            let k := Z.min (Z.min (str_len p1 - pos1) (str_len p2 - pos2)) l in
            res ← js_string_memcmp p1 pos1 p2 pos2 k;
            if negb (res =? 0) then mret (Some res)
            else
              c1 ← advance p1 st1 pos1 k;
              c2 ← advance p2 st2 pos2 k;
              rope_compare_loop fuel (l - k) c1 c2
        | _, _ => undefined
        end
    end.

(** The number of strings of a rope; every round of the loop ends one. *)
Fixpoint rope_leaves {S} (v : rope S) : nat :=
  match v with RStr _ => 1%nat | RRope _ _ _ l r => (rope_leaves l + rope_leaves r)%nat end.

Definition js_string_rope_compare (op1 op2 : JSRope) (eq_only : bool) : M Z :=
  let len1 := rope_get_len op1 in
  let len2 := rope_get_len op2 in
  if eq_only && negb (len1 =? len2) then mret 1
  else
    c1 ← string_rope_iter_next (string_rope_iter_init op1);
    c2 ← string_rope_iter_next (string_rope_iter_init op2);
    r ← rope_compare_loop (rope_leaves op1 + rope_leaves op2) (Z.min len1 len2) (c1, 0) (c2, 0);
    mret (match r with
          | Some res => res
          | None => if len1 =? len2 then 0 else if len1 <? len2 then -1 else 1
          end).

(** *** Linearization *)

Section Linearize.
Context `{MS : MallocSlack} `{RM : RawMemory}.

(** [string_buffer_concat_value] on a string or a rope. *)
Fixpoint string_buffer_concat_value (s : StringBuffer) (v : JSRope) : M (Z * StringBuffer) :=
  match sb_error s with
  | Some _ => mret (-1, s)
  | None =>
      match v with
      | RStr p => string_buffer_concat s p 0 (str_len p)
      | RRope _ _ _ rl rr =>
          '(r, s) ← string_buffer_concat_value s rl;
          if negb (r =? 0) then mret (-1, s) else string_buffer_concat_value s rr
      end
  end.

(** The string of a rope and the rope after the call: when others hold it
    ([shared]), its parts are replaced by the string and the empty string, so that
    it is not linearized again. *)
Definition js_linearize_string_rope (v : JSRope) (shared : bool) : M (JSRope * JSRope) :=
  match v with
  | RStr _ => undefined
  | RRope l wide depth rl rr =>
      if (match rr with RStr q => str_len q =? 0 | RRope _ _ _ _ _ => false end) then mret (rl, v)
      else
        '(r, s) ← string_buffer_init2 l wide;
        if negb (r =? 0) then throw (default OutOfMemory (sb_error s))
        else
          '(r, s) ← string_buffer_concat_value s v;
          if negb (r =? 0) then throw (default OutOfMemory (sb_error s))
          else
            ret ← string_buffer_end s;
            mret (RStr ret, if shared then RRope l wide depth (RStr ret) (RStr empty_string) else v)
  end.

End Linearize.

(** ** Concatenation

    [op1] and [op2] are strings or ropes; [rc] and [usable] are the reference count
    and the room of the block of a left string that [JS_ConcatString2] may extend.
    The right part of a rope is duplicated first, so its count is at least 2. *)
Definition JS_ConcatString (fuel : nat) (rc usable : Z) (op1 op2 : JSRope) : M JSRope :=
  match op2 with
  | RStr p2 =>
      if str_len p2 =? 0 then mret op1
      else if str_len p2 <=? JS_STRING_ROPE_SHORT_LEN then
        match op1 with
        | RStr p1 =>
            if str_len p1 <=? JS_STRING_ROPE_SHORT2_LEN
            then p ← JS_ConcatString2 p1 rc usable p2; mret (RStr p)
            else new_string_rope fuel op1 op2
        | RRope _ _ _ rl (RStr q) =>
            if str_len q <=? JS_STRING_ROPE_SHORT_LEN
            then val ← JS_ConcatString2 q 2 usable p2; new_string_rope fuel rl (RStr val)
            else new_string_rope fuel op1 op2
        | RRope _ _ _ _ (RRope _ _ _ _ _) => new_string_rope fuel op1 op2
        end
      else new_string_rope fuel op1 op2
  | RRope _ _ _ rl rr =>
      match op1 with
      | RStr p1 =>
          if str_len p1 =? 0 then mret op2
          else
            match rl with
            | RStr q =>
                if str_len q <=? JS_STRING_ROPE_SHORT_LEN
                then val ← JS_ConcatString2 p1 rc usable q; new_string_rope fuel (RStr val) rr
                else new_string_rope fuel op1 op2
            | RRope _ _ _ _ _ => new_string_rope fuel op1 op2
            end
      | RRope _ _ _ _ _ => new_string_rope fuel op1 op2
      end
  end.
