(* ===== verification/RopeBalance.v ===== *)
(** Rebalancing a rope keeps its strings in order and stays inside the bucket
    array; when the smallest string is not too small compared with the whole it
    also never rebalances recursively, so that it terminates. *)
From stdpp Require Import base tactics list numbers.
From Stdlib Require Import ZArith Lia.
From S2P Require Import Prelude Cutils JSString Rope.

Open Scope Z_scope.

(** ** The bucket lengths *)

Definition bucket_len (i : Z) : Z := nth (Z.to_nat i) rope_bucket_len 0.

Lemma bucket_len_table i : 0 <= i < 44 -> rope_bucket_len !! Z.to_nat i = Some (bucket_len i).
Proof.
  intros Hi. unfold bucket_len. destruct (lookup_lt_is_Some_2 rope_bucket_len (Z.to_nat i)) as [x Hx]; [cbn [length rope_bucket_len]; lia|].
  rewrite Hx. f_equal. symmetry. apply nth_lookup_Some, Hx.
Qed.

(** Consecutive lengths: they grow, and no more than twice. *)
Lemma bucket_len_step i : 0 <= i < 43 -> 0 < bucket_len i < bucket_len (i + 1) /\ bucket_len (i + 1) <= 2 * bucket_len i.
Proof.
  intros Hi. set (ok := fun i : Z => (0 <? bucket_len i) && (bucket_len i <? bucket_len (i + 1)) && (bucket_len (i + 1) <=? 2 * bucket_len i)).
  assert (forallb ok (Z.of_nat <$> seq 0 43) = true) as H by (vm_compute; reflexivity).
  rewrite forallb_forall in H. specialize (H i). unfold ok in H. rewrite !andb_true_iff, !Z.ltb_lt, Z.leb_le in H.
  destruct H as [[H1 H2] H3]; [|lia]. apply list_elem_of_In, list_elem_of_fmap. exists (Z.to_nat i). split; [lia|]. apply elem_of_seq. lia.
Qed.

Lemma bucket_len_mono i j : 0 <= i -> i <= j -> j <= 43 -> bucket_len i <= bucket_len j.
Proof.
  intros Hi Hij Hj. replace j with (i + Z.of_nat (Z.to_nat (j - i))) by lia. assert (i + Z.of_nat (Z.to_nat (j - i)) <= 43) as Hb by lia.
  induction (Z.to_nat (j - i)) as [|n IH]; [rewrite Z.add_0_r; lia|].
  replace (i + Z.of_nat (S n)) with (i + Z.of_nat n + 1) by lia. destruct (bucket_len_step (i + Z.of_nat n)); [lia|]. specialize (IH ltac:(lia)). lia.
Qed.

Lemma bucket_len_inj_lt i j : 0 <= i -> 0 <= j <= 43 -> bucket_len i < bucket_len j -> i <= 43 -> i < j.
Proof. intros Hi Hj Hlt Hi43. destruct (Z.lt_ge_cases i j); [assumption|]. pose proof (bucket_len_mono j i). lia. Qed.

(** ** Well-formed ropes *)

Lemma gspec_attempt (G : Prop) {A} (m : M A) Q E E' :
  gspec G m Q E -> (forall e, E e -> ~ G) ->
  gspec G (attempt m) (fun r => match r with inl a => Q a | inr e => E e end) E'.
Proof.
  intros Hm HE o Ho. specialize (Hm o Ho). unfold attempt. destruct (m o) as [[a|e|] o']; [exact Hm| |exact Hm].
  split; [exact Hm|]. intros HG. destruct (HE e Hm HG).
Qed.

Section Balance.
Context {S : Type} (leaf_len : S -> Z) (leaf_wide : S -> bool) (empty : S) (leaf_ok : S -> Prop).
Context (leaf_range : forall p, leaf_ok p -> 0 <= leaf_len p < 2 ^ 31) (empty_ok : leaf_ok empty) (empty_len : leaf_len empty = 0).

Notation rlen := (string_rope_get_len leaf_len).
Notation rwide := (rope_is_wide leaf_wide).
Notation new_string_rope := (js_new_string_rope leaf_len leaf_wide empty).

(** The cached fields: the length is exact, the depth bounds the depth, and a rope
    that is not marked wide has no wide string. *)
Fixpoint rope_wf (v : rope S) : Prop :=
  match v with
  | RStr p => leaf_ok p
  | RRope l w d rl rr =>
      rope_wf rl /\ rope_wf rr /\ l = rlen rl + rlen rr /\ l <= JS_STRING_LEN_MAX /\
      (rwide rl || rwide rr = true -> w = true) /\ rope_depth rl < d /\ rope_depth rr < d
  end.

(** The strings that hold something, in order. *)
Fixpoint rope_strings (v : rope S) : list S :=
  match v with
  | RStr p => if leaf_len p =? 0 then [] else [p]
  | RRope _ _ _ rl rr => rope_strings rl ++ rope_strings rr
  end.

Fixpoint total (ps : list S) : Z := match ps with [] => 0 | p :: ps => leaf_len p + total ps end.

Lemma total_app a b : total (a ++ b) = total a + total b.
Proof. induction a as [|p a IH]; cbn [app total]; lia. Qed.

Lemma rope_len_total v : rope_wf v -> rlen v = total (rope_strings v).
Proof.
  induction v as [p|l w d rl IHl rr IHr]; cbn [rope_wf rope_strings string_rope_get_len].
  - intros _. destruct (Z.eqb_spec (leaf_len p) 0); cbn [total]; lia.
  - intros (H1 & H2 & -> & _). rewrite total_app, IHl, IHr by assumption. reflexivity.
Qed.

Lemma rope_len_range v : rope_wf v -> 0 <= rlen v < 2 ^ 31.
Proof.
  destruct v as [p|l w d rl rr]; cbn [rope_wf string_rope_get_len]; [apply leaf_range|].
  intros (H1 & H2 & -> & H3 & _). change JS_STRING_LEN_MAX with (2 ^ 30 - 1) in H3. split; [|lia].
  assert (forall v, rope_wf v -> 0 <= rlen v) as Hn.
  { clear - leaf_range. induction v as [p|l w d rl IHl rr IHr]; cbn [rope_wf string_rope_get_len].
    - intros H. apply leaf_range, H.
    - intros (H1 & H2 & -> & _). specialize (IHl H1). specialize (IHr H2). lia. }
  pose proof (Hn rl H1). pose proof (Hn rr H2). lia.
Qed.

Lemma rope_depth_nonneg v : rope_wf v -> 0 <= rope_depth v.
Proof.
  induction v as [p|l w d rl IHl rr IHr]; cbn [rope_wf rope_depth]; [intros _; lia|].
  intros (H1 & _ & _ & _ & _ & H2 & _). specialize (IHl H1). lia.
Qed.

(** Joining two ropes whose depths leave room: no rebalancing, whatever the fuel. *)
Lemma new_rope_shallow (G : Prop) fuel a b (E : exn -> Prop) :
  rope_wf a -> rope_wf b -> rlen a + rlen b <= JS_STRING_LEN_MAX ->
  Z.max (rope_depth a) (rope_depth b) < JS_STRING_ROPE_MAX_DEPTH -> (~ G -> E OutOfMemory) ->
  gspec G (new_string_rope fuel a b)
    (fun r => rope_wf r /\ rlen r = rlen a + rlen b /\ rope_strings r = rope_strings a ++ rope_strings b /\
              rope_depth r = Z.max (rope_depth a) (rope_depth b) + 1) E.
Proof.
  intros Ha Hb Hl Hd HE. pose proof (rope_len_range a Ha). pose proof (rope_len_range b Hb).
  pose proof (rope_depth_nonneg a Ha). pose proof (rope_depth_nonneg b Hb). change JS_STRING_LEN_MAX with (2 ^ 30 - 1) in *.
  change JS_STRING_ROPE_MAX_DEPTH with 60 in *.
  destruct fuel; cbn [js_new_string_rope]; cbv zeta; rewrite wrap_small by lia; change JS_STRING_LEN_MAX with (2 ^ 30 - 1);
    change JS_STRING_ROPE_MAX_DEPTH with 60;
    rewrite (proj2 (Z.ltb_ge _ _)) by lia; (eapply gspec_bind; [apply gspec_alloc, HE|]); intros _ _;
    rewrite (wrap_small 8) by lia; rewrite (proj2 (Z.ltb_ge _ _)) by lia; apply gspec_ret;
    cbn [rope_wf string_rope_get_len rope_strings rope_depth]; change JS_STRING_LEN_MAX with (2 ^ 30 - 1); change JS_STRING_ROPE_MAX_DEPTH with 60;
    repeat split; auto; lia.
Qed.

(** ** The buckets

    [m] is the bucket of the smallest string, [K] the highest bucket a rope of
    [T] units can reach; [K - m] is small enough for depths to stay below the
    limit. *)
Section Buckets.
Context (G : Prop) (m K T : Z) (fuel : nat).
Context (Hm : 0 <= m <= K) (HK : K <= 42) (HmK : K <= m + 29) (HT : T <= JS_STRING_LEN_MAX) (HTK : T < bucket_len (K + 1)).

Notation new := (new_string_rope fuel).
Notation buckets := (@buckets S).

Definition opt_strings (a : option (rope S)) : list S := match a with None => [] | Some r => rope_strings r end.

Fixpoint bs_strings (bs : buckets) : list S :=
  match bs with [] => [] | b :: bs => bs_strings bs ++ opt_strings b end.

Definition bucket_ok (i : Z) (r : rope S) : Prop :=
  rope_wf r /\ bucket_len i <= rlen r /\ rope_depth r <= 2 * (i - m) /\ m <= i.

Fixpoint bs_ok (i : Z) (bs : buckets) : Prop :=
  match bs with
  | [] => True
  | b :: bs => (forall r, b = Some r -> bucket_ok i r) /\ bs_ok (i + 1) bs
  end.

(** The rope gathered from the buckets below [i]. *)
Definition acc_ok (i : Z) (a : option (rope S)) : Prop :=
  forall r, a = Some r -> rope_wf r /\ rope_depth r <= 2 * (i - m) - 1 /\ m < i.

(** A refused allocation. *)
Definition oom (e : exn) : Prop := e = OutOfMemory /\ ~ G.

Lemma oom_refused e : oom e -> ~ G.
Proof. intros [_ H]. exact H. Qed.

Lemma oom_intro : ~ G -> oom OutOfMemory.
Proof. split; [reflexivity|assumption]. Qed.

Hint Resolve oom_intro : core.

Definition rc_ok (e : option exn) : Prop := forall x, e = Some x -> oom x.

Lemma rc_none : rc_ok None.
Proof. intros x [=]. Qed.

Lemma rc_some e : oom e -> rc_ok (Some e).
Proof. intros H x [= <-]. exact H. Qed.

(** The strings [cur] are what is left of [ps]: all of them unless an allocation
    was refused. *)
Definition kept (cur ps : list S) : Prop := 0 <= total cur <= total ps /\ (G -> cur = ps).

Lemma rope_total v : rope_wf v -> 0 <= total (rope_strings v).
Proof. intros H. rewrite <- rope_len_total by exact H. apply rope_len_range, H. Qed.

Lemma bs_total i bs : bs_ok i bs -> 0 <= total (bs_strings bs).
Proof.
  revert i. induction bs as [|b bs IH]; intros i; cbn [bs_ok bs_strings total]; [lia|]. intros [Hb Hbs]. specialize (IH _ Hbs).
  rewrite total_app. destruct b as [r|]; cbn [opt_strings total]; [|lia]. pose proof (rope_total r (proj1 (Hb r eq_refl))). lia.
Qed.

Lemma opt_total i a : acc_ok i a -> 0 <= total (opt_strings a).
Proof. destruct a as [r|]; cbn [opt_strings total]; [|lia]. intros H. apply rope_total, (H r eq_refl). Qed.

Lemma bucket_index i r : 0 <= i <= 43 -> bucket_ok i r -> rlen r <= T -> i <= K.
Proof. intros Hi (_ & H & _) Hr. pose proof (bucket_len_inj_lt i (K + 1)). lia. Qed.

(** A bucket joined with what the smaller ones held. *)
Lemma join_spec i b a E :
  0 <= i <= 43 -> bucket_ok i b -> acc_ok i a -> rlen b + total (opt_strings a) <= T ->
  gspec G (join (new) b a)
    (fun r => match r with
              | inl a' => acc_ok (i + 1) (Some a') /\ rope_strings a' = rope_strings b ++ opt_strings a
              | inr e => oom e
              end) E.
Proof.
  intros Hi Hb Ha Hl. pose proof (opt_total i a Ha) as Hn. pose proof (bucket_index i b Hi Hb ltac:(lia)) as HiK.
  destruct Hb as (Hb1 & Hb2 & Hb3 & Hb4). destruct a as [a|]; cbn [join opt_strings] in *.
  - destruct (Ha a eq_refl) as (Ha1 & Ha2 & _). rewrite <- rope_len_total in Hl by exact Ha1.
    eapply gspec_mono with (E := E); [apply gspec_attempt with (E := oom); [apply new_rope_shallow|apply oom_refused]| |auto]; auto; [lia|unfold JS_STRING_ROPE_MAX_DEPTH; lia|].
    intros [r|e]; [|auto]. intros (H1 & _ & H2 & H3). split; [|exact H2]. intros r' [= <-]. split; [exact H1|lia].
  - apply gspec_ret. rewrite app_nil_r. split; [|reflexivity]. intros r [= <-]. split; [exact Hb1|lia].
Qed.

Definition none_then (i : Z) (rest : buckets) : buckets := replicate (Z.to_nat i) None ++ rest.

Lemma none_then_step i rest : 0 <= i -> none_then i (None :: rest) = none_then (i + 1) rest.
Proof.
  intros Hi. unfold none_then. replace (Z.to_nat (i + 1)) with (Z.to_nat i + 1)%nat by lia.
  rewrite replicate_add, <- app_assoc. reflexivity.
Qed.

Lemma none_then_get i b rest : 0 <= i -> tab_get (none_then i (b :: rest)) i = mret b.
Proof. intros Hi. apply tab_get_app. rewrite len_replicate. lia. Qed.

Lemma none_then_set i b b' rest : 0 <= i -> tab_set (none_then i (b :: rest)) i b' = mret (none_then i (b' :: rest)).
Proof. intros Hi. apply tab_set_app. rewrite len_replicate. lia. Qed.

(** All the buckets. *)
Definition bs_inv (bs : buckets) (ps : list S) : Prop := len bs = 44 /\ bs_ok 0 bs /\ kept (bs_strings bs) ps.

Lemma bs_none i bs : 0 <= i -> bs_ok i bs -> bs_ok 0 (none_then i bs) /\ bs_strings (none_then i bs) = bs_strings bs.
Proof.
  intros Hi. unfold none_then. replace i with (0 + Z.of_nat (Z.to_nat i)) at 1 by lia. clear Hi. generalize 0 as k.
  induction (Z.to_nat i) as [|n IH]; intros k Hk; cbn [replicate app bs_ok bs_strings opt_strings].
  - rewrite Z.add_0_r in Hk. auto.
  - destruct (IH (k + 1)) as [H1 H2]; [replace (k + 1 + Z.of_nat n) with (k + Z.of_nat (Datatypes.S n)) by lia; exact Hk|].
    split; [split; [discriminate|exact H1]|rewrite app_nil_r; exact H2].
Qed.

Lemma bs_inv_none i rest ps : 0 <= i -> i + len rest = 44 -> bs_ok i rest -> kept (bs_strings rest) ps -> bs_inv (none_then i rest) ps.
Proof.
  intros Hi Hl Hr Hk. destruct (bs_none i rest Hi Hr) as [H1 H2]. split; [|split; [exact H1|rewrite H2; exact Hk]].
  unfold none_then. rewrite len_app, len_replicate. lia.
Qed.

(** The state of the loops at bucket [i]. *)
Definition at_bucket (i : Z) (a : option (rope S)) (rest : buckets) (ps : list S) : Prop :=
  0 <= i <= 43 /\ i + len rest = 44 /\ bs_ok i rest /\ acc_ok i a /\ kept (bs_strings rest ++ opt_strings a) ps.

Lemma merge_smaller_spec n l i a rest ps E :
  at_bucket i a rest ps -> bucket_len i <= l -> l <= T -> total ps <= T -> K < i + Z.of_nat n ->
  gspec G (merge_smaller (new) n l i a (none_then i rest))
    (fun r => match r with
              | inl (a', i', bs) => exists rest', bs = none_then i' rest' /\ at_bucket i' a' rest' ps /\ bucket_len i' <= l < bucket_len (i' + 1)
              | inr (e, bs) => oom e /\ bs_inv bs ps
              end) E.
Proof.
  intros Hat Hl HlT Hps Hn. revert i a rest Hat Hl Hn. induction n as [|n IH]; intros i a rest Hat Hl Hn; destruct Hat as (Hi & Hlen & Hbs & Ha & Hk).
  - pose proof (bucket_len_inj_lt i (K + 1)). lia.
  - pose proof (len_nonneg rest) as Hr0. assert (i <= K) as HiK.
    { pose proof (bucket_len_inj_lt i (K + 1)). lia. }
    cbn [merge_smaller]. rewrite (tab_get_lookup _ _ (bucket_len (i + 1))) by (try apply bucket_len_table; lia). rewrite ret_bind.
    destruct (Z.leb_spec (bucket_len (i + 1)) l) as [Hle|Hgt].
    + destruct rest as [|b rest]; [change (len (@nil (option (rope S)))) with 0 in Hlen; lia|]. rewrite len_cons in Hlen.
      rewrite none_then_get, ret_bind by lia. destruct Hbs as [Hb Hbs]. destruct Hk as [Hk1 Hk2]. cbn [bs_strings] in Hk1, Hk2.
      destruct b as [b|]; cbn [opt_strings] in Hk1, Hk2.
      * rewrite none_then_set, ret_bind, none_then_step by lia. rewrite !total_app in Hk1. specialize (Hb b eq_refl).
        pose proof (bs_total _ _ Hbs). rewrite <- (rope_len_total b) in Hk1 by apply Hb.
        eapply gspec_bind; [apply (join_spec i b a); [lia|exact Hb|exact Ha|lia]|].
        intros [a'|e].
        -- intros [Ha' Hs]. apply IH; [|lia|lia]. repeat (split; [lia||assumption|]). split; cbn [opt_strings]; rewrite Hs.
           ++ rewrite !total_app, <- (rope_len_total b) by apply Hb. lia.
           ++ rewrite app_assoc. exact Hk2.
        -- intros Hng. apply gspec_ret. split; [exact Hng|]. apply bs_inv_none; [lia|lia|exact Hbs|]. split; [|destruct Hng; contradiction].
           pose proof (opt_total i a Ha). pose proof (rope_len_range b (proj1 Hb)). lia.
      * rewrite none_then_step by lia. rewrite app_nil_r in Hk1, Hk2. apply IH; [|lia|lia].
        repeat (split; [lia||assumption|]). split; [|split; assumption].
        intros r Hr. destruct (Ha r Hr) as (H1 & H2 & H3). split; [exact H1|lia].
    + apply gspec_ret. exists rest. split; [reflexivity|]. split; [|lia]. repeat (split; [lia||assumption|]). exact Hk.
Qed.

Lemma merge_full_spec n i a rest ps E :
  0 <= i <= 43 -> i + len rest = 44 -> bs_ok i rest -> bucket_ok i a -> kept (bs_strings rest ++ rope_strings a) ps -> total ps <= T ->
  43 < i + Z.of_nat n ->
  gspec G (merge_full (new) n i a (none_then i rest)) (fun r => bs_inv (snd r) ps /\ rc_ok (fst r)) E.
Proof.
  intros Hi Hlen Hbs Ha Hk Hps Hn. revert i a rest Hi Hlen Hbs Ha Hk Hn. induction n as [|n IH]; intros i a rest Hi Hlen Hbs Ha Hk Hn; [lia|].
  destruct rest as [|b rest]; [change (len (@nil (option (rope S)))) with 0 in Hlen; lia|]. rewrite len_cons in Hlen.
  cbn [merge_full]. rewrite none_then_get, ret_bind by lia. destruct Hbs as [Hb Hbs]. pose proof (bs_total _ _ Hbs) as Hr0.
  destruct Hk as [Hk1 Hk2]. cbn [bs_strings] in Hk1, Hk2. rewrite !total_app in Hk1. rewrite <- (rope_len_total a) in Hk1 by apply Ha.
  destruct b as [b|]; cbn [opt_strings total] in Hk1, Hk2.
  - specialize (Hb b eq_refl). rewrite <- (rope_len_total b) in Hk1 by apply Hb.
    pose proof (rope_len_range a (proj1 Ha)). pose proof (rope_len_range b (proj1 Hb)).
    pose proof (bucket_index i b Hi Hb ltac:(lia)) as HiK. destruct (bucket_len_step i ltac:(lia)) as [_ Hdbl].
    destruct Ha as (Ha1 & Ha2 & Ha3 & _), Hb as (Hb1 & Hb2 & Hb3 & Hb4).
    eapply gspec_bind; [apply gspec_attempt with (E := oom); [apply (new_rope_shallow G fuel b a); auto; [lia|unfold JS_STRING_ROPE_MAX_DEPTH; lia]|apply oom_refused]|].
    intros r Hr. rewrite none_then_set, ret_bind, none_then_step by lia. destruct r as [r|e].
    + destruct Hr as (H1 & H2 & H3 & H4). assert (bucket_len (i + 1) <= T) by lia.
      pose proof (bucket_len_inj_lt (i + 1) (K + 1)).
      apply IH; [lia|lia|exact Hbs|split; [exact H1|lia]| |lia].
      split; rewrite H3; [rewrite !total_app, <- !rope_len_total by assumption; lia|rewrite app_assoc; exact Hk2].
    + apply gspec_ret. cbn [fst snd]. split; [|apply rc_some, Hr]. apply bs_inv_none; [lia|lia|exact Hbs|]. split; [lia|]. destruct Hr. contradiction.
  - rewrite none_then_set, ret_bind by lia. apply gspec_ret. cbn [fst snd]. split; [|apply rc_none].
    apply bs_inv_none; [lia|rewrite len_cons; lia| |].
    + split; [intros r [= <-]; exact Ha|exact Hbs].
    + rewrite app_nil_r in Hk2. split; cbn [bs_strings opt_strings]; [rewrite total_app, <- (rope_len_total a) by apply Ha; lia|exact Hk2].
Qed.

(** One string goes into the buckets. *)
Lemma rebalance_leaf_spec p bs ps E :
  leaf_ok p -> bs_inv bs ps -> bucket_len m <= leaf_len p -> total ps + leaf_len p <= T ->
  gspec G (js_rebalancee_string_rope_rec leaf_len (new) (RStr p) bs)
    (fun r => bs_inv (snd r) (ps ++ [p]) /\ rc_ok (fst r)) E.
Proof.
  intros Hp (Hlen & Hbs & Hk) Hmp Hps. pose proof (bucket_len_step m ltac:(lia)) as [Hm0 _]. pose proof (proj1 Hk) as Hk0.
  assert (rope_strings (RStr p) = [p]) as Hs by (cbn [rope_strings]; rewrite (proj2 (Z.eqb_neq _ _)) by lia; reflexivity).
  cbn [js_rebalancee_string_rope_rec]. cbv zeta. rewrite (proj2 (Z.eqb_neq _ _)) by lia.
  eapply gspec_bind.
  { apply (merge_smaller_spec (Z.to_nat ROPE_N_BUCKETS) (leaf_len p) 0 None bs ps); [|change (bucket_len 0) with 1; lia|lia|lia|change (Z.of_nat (Z.to_nat ROPE_N_BUCKETS)) with 44; lia].
    split; [lia|]. split; [lia|]. split; [exact Hbs|]. split; [intros r; discriminate|]. cbn [opt_strings]. rewrite app_nil_r. exact Hk. }
  assert (forall ps' cur, kept cur ps' -> kept (cur ++ [p]) (ps' ++ [p])) as Happ.
  { intros ps' cur [H1 H2]. split; [rewrite !total_app; cbn [total]; lia|]. intros HG. rewrite (H2 HG). reflexivity. }
  assert (total (ps ++ [p]) <= T) as HpsT by (rewrite total_app; cbn [total]; lia).
  intros [[[a i] bs']|[e bs']].
  - intros (rest & -> & (Hi & Hlen' & Hbs' & Ha & Hk') & Hil). assert (m <= i) as Hmi by (pose proof (bucket_len_inj_lt m (i + 1)); lia).
    assert (i <= K) as HiK by (pose proof (bucket_len_inj_lt i (K + 1)); lia).
    change (Z.of_nat (Datatypes.S (Z.to_nat ROPE_N_BUCKETS))) with 45. destruct a as [a|].
    + destruct (Ha a eq_refl) as (Ha1 & Ha2 & Ha3). cbn [opt_strings] in Hk'.
      pose proof (rope_len_range a Ha1) as Hl0. pose proof (proj1 Hk') as Hk1. rewrite total_app, <- (rope_len_total a) in Hk1 by exact Ha1.
      pose proof (bs_total _ _ Hbs') as Hr0.
      eapply gspec_bind; [apply gspec_attempt with (E := oom); [apply (new_rope_shallow G fuel a (RStr p)); auto; [cbn [string_rope_get_len]; lia|cbn [rope_depth]; unfold JS_STRING_ROPE_MAX_DEPTH; lia]|apply oom_refused]|].
      intros [r|e].
      * intros (H1 & H2 & H3 & H4). cbn [string_rope_get_len rope_depth] in *.
        apply merge_full_spec; [lia|lia|exact Hbs'| | |exact HpsT|change (Z.of_nat (Datatypes.S (Z.to_nat ROPE_N_BUCKETS))) with 45; lia].
        -- split; [exact H1|lia].
        -- rewrite H3, Hs, app_assoc. apply Happ, Hk'.
      * intros Hng. apply gspec_ret. cbn [fst snd]. split; [|apply rc_some, Hng]. apply bs_inv_none; [lia|lia|exact Hbs'|].
        split; [rewrite total_app; cbn [total]; lia|destruct Hng; contradiction].
    + cbn [opt_strings] in Hk'. rewrite app_nil_r in Hk'.
      apply merge_full_spec; [lia|lia|exact Hbs'| | |exact HpsT|change (Z.of_nat (Datatypes.S (Z.to_nat ROPE_N_BUCKETS))) with 45; lia].
      * split; [exact Hp|]. cbn [string_rope_get_len rope_depth]. lia.
      * rewrite Hs. apply Happ, Hk'.
  - intros [Hng (H1 & H2 & H3 & _)]. apply gspec_ret. cbn [fst snd]. split; [|apply rc_some, Hng]. split; [exact H1|]. split; [exact H2|].
    split; [rewrite total_app; cbn [total]; lia|destruct Hng; contradiction].
Qed.

Lemma rebalance_rec_spec v bs ps E :
  rope_wf v -> bs_inv bs ps -> Forall (fun p => bucket_len m <= leaf_len p) (rope_strings v) -> total ps + rlen v <= T ->
  gspec G (js_rebalancee_string_rope_rec leaf_len (new) v bs)
    (fun r => bs_inv (snd r) (ps ++ rope_strings v) /\ rc_ok (fst r)) E.
Proof.
  revert bs ps. induction v as [p|l w d rl IHl rr IHr]; intros bs ps Hv Hbs Hmin Hps.
  - cbn [rope_strings string_rope_get_len] in *. destruct (Z.eqb_spec (leaf_len p) 0) as [E0|Hne].
    + cbn [js_rebalancee_string_rope_rec]. cbv zeta. rewrite E0. change (0 =? 0) with true. apply gspec_ret. rewrite app_nil_r. split; [exact Hbs|apply rc_none].
    + apply Forall_inv in Hmin. apply rebalance_leaf_spec; assumption.
  - pose proof (rope_len_total _ Hv) as Htot. destruct Hv as (Hl & Hr & _). cbn [rope_strings string_rope_get_len] in *.
    rewrite total_app in Htot. apply Forall_app in Hmin. destruct Hmin as [Hminl Hminr].
    pose proof (rope_len_total _ Hl) as Htl. pose proof (rope_len_total _ Hr) as Htr. pose proof (rope_len_range rr Hr) as Hrr.
    cbn [js_rebalancee_string_rope_rec]. eapply gspec_bind; [apply (IHl bs ps Hl Hbs Hminl); lia|].
    intros [e1 bs1] [H1 _]. cbn [snd] in H1. eapply gspec_bind; [apply (IHr bs1 (ps ++ rope_strings rl) Hr H1 Hminr); rewrite total_app; lia|].
    intros [e2 bs2] [H2 _]. cbn [snd] in H2. apply gspec_ret. cbn [fst snd]. rewrite app_assoc. split; [exact H2|apply rc_none].
Qed.

Lemma collect_spec i bs a ps (E : exn -> Prop) :
  (~ G -> E OutOfMemory) -> 0 <= i -> i + len bs = 44 -> bs_ok i bs -> acc_ok i a -> (forall r, a = Some r -> rope_depth r <= 2 * (K + 1 - m) - 1) ->
  kept (bs_strings bs ++ opt_strings a) ps -> total ps <= T ->
  gspec G (collect (new) bs a)
    (fun r => match r with
              | None => G -> ps = []
              | Some r => rope_wf r /\ rope_depth r <= 59 /\ rlen r <= total ps /\ (G -> rope_strings r = ps)
              end) E.
Proof.
  intros HE. revert i a. induction bs as [|b bs IH]; intros i a Hi Hlen Hbs Ha Hd [Hk1 Hk2] Hps.
  - cbn [collect]. apply gspec_ret. destruct a as [a|]; cbn [bs_strings opt_strings app] in *.
    + destruct (Ha a eq_refl) as (H1 & _). specialize (Hd a eq_refl). rewrite rope_len_total by exact H1. split; [exact H1|]. split; [lia|]. split; [lia|exact Hk2].
    + intros HG. symmetry. apply Hk2, HG.
  - rewrite len_cons in Hlen. pose proof (len_nonneg bs). destruct Hbs as [Hb Hbs]. pose proof (bs_total _ _ Hbs) as Hr0.
    cbn [bs_strings] in Hk1, Hk2. rewrite !total_app in Hk1. cbn [collect]. destruct b as [b|]; cbn [opt_strings total] in *.
    + specialize (Hb b eq_refl). pose proof Hb as (Hb1 & Hb2 & Hb3 & Hb4). rewrite <- (rope_len_total b) in Hk1 by exact Hb1.
      pose proof (opt_total i a Ha) as Ha0. pose proof (bucket_index i b ltac:(lia) Hb ltac:(lia)) as HiK.
      eapply gspec_bind with (R := fun r => acc_ok (i + 1) (Some r) /\ rope_strings r = rope_strings b ++ opt_strings a).
      * destruct a as [a|]; cbn [opt_strings] in *.
        -- destruct (Ha a eq_refl) as (Ha1 & Ha2 & _). rewrite <- (rope_len_total a) in Hk1 by exact Ha1.
           eapply gspec_mono with (E := E); [apply new_rope_shallow; auto; [lia|unfold JS_STRING_ROPE_MAX_DEPTH; lia]| |auto].
           intros r (H1 & _ & H2 & H3). split; [|exact H2]. intros r' [= <-]. split; [exact H1|lia].
        -- apply gspec_ret. rewrite app_nil_r. split; [|reflexivity]. intros r [= <-]. split; [exact Hb1|lia].
      * intros r [Hr1 Hr2]. destruct (Hr1 r eq_refl) as (Hr3 & Hr4 & _).
        apply (IH (i + 1)); [lia|lia|exact Hbs|exact Hr1|intros r' [= <-]; lia| |exact Hps].
        cbn [opt_strings]. rewrite Hr2. split; [rewrite !total_app, <- (rope_len_total b) by exact Hb1; lia|rewrite app_assoc; exact Hk2].
    + rewrite app_nil_r in Hk2. apply (IH (i + 1)); [lia|lia|exact Hbs| |exact Hd| |exact Hps].
      * intros r Hr. destruct (Ha r Hr) as (H1 & H2 & H3). split; [exact H1|lia].
      * split; [rewrite total_app; lia|exact Hk2].
Qed.

Lemma rebalance_spec v :
  rope_wf v -> Forall (fun p => bucket_len m <= leaf_len p) (rope_strings v) -> rlen v <= T ->
  gspec G (js_rebalancee_string_rope leaf_len leaf_wide empty fuel v)
    (fun r => rope_wf r /\ rope_depth r <= 59 /\ rlen r <= rlen v /\ (G -> rope_strings r = rope_strings v)) oom.
Proof.
  intros Hv Hmin Hl. pose proof (rope_len_total v Hv) as Htot. unfold js_rebalancee_string_rope, rebalance_with.
  eapply gspec_bind; [apply (rebalance_rec_spec v _ [] oom Hv)|].
  - change (replicate (Z.to_nat ROPE_N_BUCKETS) None) with (none_then 44 []). apply bs_inv_none; [lia|reflexivity|exact I|].
    split; [cbn [bs_strings total]; lia|reflexivity].
  - exact Hmin.
  - cbn [total]. lia.
  - cbn [app]. intros [e bs] [(Hlen & Hbs & Hk) Hrc]. cbn [fst snd] in *. destruct e as [e|]; [apply gspec_throw, Hrc; reflexivity|].
    eapply gspec_bind; [apply (collect_spec 0 bs None (rope_strings v) oom)|]; [exact oom_intro|lia|lia|exact Hbs|intros r [=]|intros r [=]| |lia|].
    + cbn [opt_strings]. rewrite app_nil_r. exact Hk.
    + intros [r|] Hr; apply gspec_ret; [rewrite Htot; exact Hr|]. cbn [rope_wf rope_depth string_rope_get_len rope_strings].
      rewrite empty_len. change (0 =? 0) with true. pose proof (rope_len_range v Hv). split; [exact empty_ok|]. split; [lia|]. split; [lia|].
      intros HG. rewrite (Hr HG). reflexivity.
Qed.

End Buckets.
End Balance.
