(* ===== verification/RopeSpecs.v ===== *)
(** Ropes of strings stand for the sequence of their units: access, comparison,
    linearization and concatenation; and the rebalancing that does not end: two ropes
    with strings of the same lengths are rebalanced alike, and there are lengths for
    which the rebalancing of a deep rope asks for the rebalancing of the same rope
    again. *)
From stdpp Require Import base tactics list numbers.
From Stdlib Require Import ZArith Lia.
From S2P Require Import Prelude Cutils JSString StringBuffers JSStringSpecs Rope RopeBalance.

Open Scope Z_scope.

(** ** Runs that do the same, with every allocation granted *)

Definition outcome_sim {A B} (Q : A -> B -> Prop) (r1 : outcome A) (r2 : outcome B) : Prop :=
  match r1, r2 with
  | Ok a, Ok b => Q a b
  | Throw e1, Throw e2 => e1 = e2
  | Undefined, Undefined => True
  | _, _ => False
  end.

Definition sim {A B} (Q : A -> B -> Prop) (m1 : M A) (m2 : M B) : Prop :=
  outcome_sim Q (fst (m1 alloc_all)) (fst (m2 alloc_all)) /\
  (fst (m1 alloc_all) = Undefined \/ (snd (m1 alloc_all) = alloc_all /\ snd (m2 alloc_all) = alloc_all)).

Lemma sim_ret {A B} (Q : A -> B -> Prop) a b : Q a b -> sim Q (mret a) (mret b).
Proof. intros H. split; [exact H|]. right. split; reflexivity. Qed.

Lemma sim_throw {A B} (Q : A -> B -> Prop) e : sim Q (throw e) (throw e).
Proof. split; [reflexivity|]. right. split; reflexivity. Qed.

Lemma sim_undefined {A B} (Q : A -> B -> Prop) : sim Q undefined undefined.
Proof. split; [exact I|]. left. reflexivity. Qed.

Lemma sim_alloc : sim eq alloc alloc.
Proof. split; [reflexivity|]. right. split; reflexivity. Qed.

Lemma sim_bind {A B A' B'} (Q : A -> B -> Prop) (R : A' -> B' -> Prop) m1 m2 (f1 : A' -> M A) (f2 : B' -> M B) :
  sim R m1 m2 -> (forall a b, R a b -> sim Q (f1 a) (f2 b)) -> sim Q (mbind f1 m1) (mbind f2 m2).
Proof.
  intros [Hm Hs] Hf. unfold sim, mbind, M_bind. destruct (m1 alloc_all) as [r1 o1], (m2 alloc_all) as [r2 o2]. cbn [fst snd] in *.
  destruct r1 as [a|e|], r2 as [b|e'|]; cbn [outcome_sim] in Hm; try contradiction.
  - destruct Hs as [H|[-> ->]]; [discriminate|]. apply Hf, Hm.
  - subst. destruct Hs as [H|[-> ->]]; [discriminate|]. split; [reflexivity|]. right. split; reflexivity.
  - split; [exact I|]. left. reflexivity.
Qed.

Definition sum_sim {A B} (Q : A -> B -> Prop) (r1 : A + exn) (r2 : B + exn) : Prop :=
  match r1, r2 with inl a, inl b => Q a b | inr e1, inr e2 => e1 = e2 | _, _ => False end.

Lemma sim_attempt {A B} (Q : A -> B -> Prop) m1 m2 : sim Q m1 m2 -> sim (sum_sim Q) (attempt m1) (attempt m2).
Proof.
  unfold sim, attempt. destruct (m1 alloc_all) as [r1 o1], (m2 alloc_all) as [r2 o2]. intros [Hm Hs]. cbn [fst snd] in *.
  destruct r1, r2; cbn [outcome_sim] in Hm; try contradiction; cbn [fst snd outcome_sim sum_sim]; (split; [assumption|]);
    destruct Hs as [[=]|Hs]; (right; assumption) || (left; reflexivity).
Qed.

Lemma sim_tab_get {A B} (Q : A -> B -> Prop) l1 l2 i : Forall2 Q l1 l2 -> sim Q (tab_get l1 i) (tab_get l2 i).
Proof.
  intros H. unfold tab_get. destruct (0 <=? i); [|apply sim_undefined].
  destruct (l1 !! Z.to_nat i) as [a|] eqn:E1.
  - destruct (Forall2_lookup_l _ _ _ _ _ H E1) as (b & E2 & Hab). rewrite E2. apply sim_ret, Hab.
  - assert (l2 !! Z.to_nat i = None) as -> by (apply lookup_ge_None; apply lookup_ge_None in E1; rewrite <- (Forall2_length H); exact E1).
    apply sim_undefined.
Qed.

Lemma sim_tab_set {A B} (Q : A -> B -> Prop) l1 l2 i a b :
  Forall2 Q l1 l2 -> Q a b -> sim (Forall2 Q) (tab_set l1 i a) (tab_set l2 i b).
Proof.
  intros H Hab. unfold tab_set, len. rewrite (Forall2_length H). destruct (_ && _); [|apply sim_undefined].
  apply sim_ret, Forall2_insert; assumption.
Qed.

(** ** Ropes of the same shape and lengths *)

Section Shapes.
Context {S1 S2 : Type} (len1 : S1 -> Z) (wide1 : S1 -> bool) (empty1 : S1) (len2 : S2 -> Z) (wide2 : S2 -> bool) (empty2 : S2).
Context (empties : len1 empty1 = len2 empty2).

Fixpoint vsim (v1 : rope S1) (v2 : rope S2) : Prop :=
  match v1, v2 with
  | RStr p, RStr q => len1 p = len2 q
  | RRope l _ d a b, RRope l' _ d' a' b' => l = l' /\ d = d' /\ vsim a a' /\ vsim b b'
  | _, _ => False
  end.

Lemma vsim_len v1 v2 : vsim v1 v2 -> string_rope_get_len len1 v1 = string_rope_get_len len2 v2.
Proof. destruct v1, v2; cbn [vsim string_rope_get_len]; try contradiction; [auto|intros (H & _); exact H]. Qed.

Lemma vsim_depth v1 v2 : vsim v1 v2 -> rope_depth v1 = rope_depth v2.
Proof. destruct v1, v2; cbn [vsim rope_depth]; try contradiction; [auto|intros (_ & H & _); exact H]. Qed.

Notation bsim := (Forall2 (option_Forall2 vsim)).

Section Step.
Context (new1 : rope S1 -> rope S1 -> M (rope S1)) (new2 : rope S2 -> rope S2 -> M (rope S2)).
Context (Hnew : forall a1 a2 b1 b2, vsim a1 a2 -> vsim b1 b2 -> sim vsim (new1 a1 b1) (new2 a2 b2)).

Lemma join_sim b1 b2 a1 a2 : vsim b1 b2 -> option_Forall2 vsim a1 a2 -> sim (sum_sim vsim) (join new1 b1 a1) (join new2 b2 a2).
Proof. intros Hb [x y Hxy|]; cbn [join]; [apply sim_attempt, Hnew; assumption|apply sim_ret, Hb]. Qed.

Definition smaller_sim (r1 : option (rope S1) * Z * @buckets S1 + exn * @buckets S1)
    (r2 : option (rope S2) * Z * @buckets S2 + exn * @buckets S2) : Prop :=
  match r1, r2 with
  | inl (a1, i1, bs1), inl (a2, i2, bs2) => option_Forall2 vsim a1 a2 /\ i1 = i2 /\ bsim bs1 bs2
  | inr (e1, bs1), inr (e2, bs2) => e1 = e2 /\ bsim bs1 bs2
  | _, _ => False
  end.

Lemma merge_smaller_sim n l i a1 a2 bs1 bs2 :
  option_Forall2 vsim a1 a2 -> bsim bs1 bs2 -> sim smaller_sim (merge_smaller new1 n l i a1 bs1) (merge_smaller new2 n l i a2 bs2).
Proof.
  revert i a1 a2 bs1 bs2. induction n as [|n IH]; intros i a1 a2 bs1 bs2 Ha Hbs; cbn [merge_smaller]; [apply sim_undefined|].
  eapply sim_bind; [apply (sim_tab_get eq), Forall_Forall2_diag, Forall_true; reflexivity|]. intros x ? <-. destruct (x <=? l).
  - eapply sim_bind; [apply sim_tab_get, Hbs|]. intros b1 b2 Hb. destruct Hb as [b1 b2 Hb|]; [|apply IH; assumption].
    eapply sim_bind; [apply sim_tab_set; [exact Hbs|constructor]|]. intros t1 t2 Ht.
    eapply sim_bind; [apply join_sim; eassumption|]. intros [r1|e1] [r2|e2]; cbn [sum_sim]; try contradiction.
    + intros Hr. apply IH; [constructor; exact Hr|exact Ht].
    + intros <-. apply sim_ret. split; [reflexivity|exact Ht].
  - apply sim_ret. split; [exact Ha|]. split; [reflexivity|exact Hbs].
Qed.

Definition rc_sim (r1 : option exn * @buckets S1) (r2 : option exn * @buckets S2) : Prop := fst r1 = fst r2 /\ bsim (snd r1) (snd r2).

Lemma merge_full_sim n i a1 a2 bs1 bs2 :
  vsim a1 a2 -> bsim bs1 bs2 -> sim rc_sim (merge_full new1 n i a1 bs1) (merge_full new2 n i a2 bs2).
Proof.
  revert i a1 a2 bs1 bs2. induction n as [|n IH]; intros i a1 a2 bs1 bs2 Ha Hbs; cbn [merge_full]; [apply sim_undefined|].
  eapply sim_bind; [apply sim_tab_get, Hbs|]. intros b1 b2 Hb. destruct Hb as [b1 b2 Hb|].
  - eapply sim_bind; [apply sim_attempt, Hnew; eassumption|]. intros r1 r2 Hr.
    eapply sim_bind; [apply sim_tab_set; [exact Hbs|constructor]|]. intros t1 t2 Ht.
    destruct r1 as [r1|e1], r2 as [r2|e2]; cbn [sum_sim] in Hr; try contradiction.
    + apply IH; assumption.
    + subst. apply sim_ret. split; [reflexivity|exact Ht].
  - eapply sim_bind; [apply sim_tab_set; [exact Hbs|constructor; exact Ha]|]. intros t1 t2 Ht. apply sim_ret. split; [reflexivity|exact Ht].
Qed.

Lemma rec_sim v1 v2 bs1 bs2 :
  vsim v1 v2 -> bsim bs1 bs2 ->
  sim rc_sim (js_rebalancee_string_rope_rec len1 new1 v1 bs1) (js_rebalancee_string_rope_rec len2 new2 v2 bs2).
Proof.
  revert v2 bs1 bs2. induction v1 as [p|l w d a IHa b IHb]; intros [q|l' w' d' a' b'] bs1 bs2 Hv Hbs; try contradiction;
    cbn [js_rebalancee_string_rope_rec]; cbv zeta.
  - pose proof Hv as Hl. cbn [vsim] in Hl. rewrite Hl. destruct (len2 q =? 0); [apply sim_ret; split; [reflexivity|exact Hbs]|].
    eapply sim_bind; [apply merge_smaller_sim; [constructor|exact Hbs]|].
    intros [[[a1 i1] t1]|[e1 t1]] [[[a2 i2] t2]|[e2 t2]]; cbn [smaller_sim]; try contradiction.
    + intros (Ha & <- & Ht). destruct Ha as [a1 a2 Ha|].
      * eapply sim_bind; [apply sim_attempt, Hnew; [exact Ha|exact Hv]|]. intros [r1|e1] [r2|e2]; cbn [sum_sim]; try contradiction.
        -- intros Hr. apply merge_full_sim; assumption.
        -- intros <-. apply sim_ret. split; [reflexivity|exact Ht].
      * apply merge_full_sim; assumption.
    + intros [<- Ht]. apply sim_ret. split; [reflexivity|exact Ht].
  - destruct Hv as (_ & _ & Ha & Hb). eapply sim_bind; [apply IHa; eassumption|]. intros [e1 t1] [e2 t2] [_ Ht]. cbn [snd] in Ht.
    eapply sim_bind; [apply IHb; eassumption|]. intros [e3 t3] [e4 t4] [_ Ht']. apply sim_ret. split; [reflexivity|exact Ht'].
Qed.

Lemma collect_sim bs1 bs2 a1 a2 :
  bsim bs1 bs2 -> option_Forall2 vsim a1 a2 -> sim (option_Forall2 vsim) (collect new1 bs1 a1) (collect new2 bs2 a2).
Proof.
  intros Hbs. revert a1 a2. induction Hbs as [|x y bs1 bs2 Hxy Hbs IH]; intros a1 a2 Ha; cbn [collect]; [apply sim_ret, Ha|].
  destruct Hxy as [x y Hxy|]; [|apply IH, Ha]. eapply sim_bind with (R := vsim).
  - destruct Ha; [apply Hnew; assumption|apply sim_ret, Hxy].
  - intros r1 r2 Hr. apply IH. constructor. exact Hr.
Qed.

Lemma rebalance_with_sim v1 v2 : vsim v1 v2 -> sim vsim (rebalance_with len1 empty1 new1 v1) (rebalance_with len2 empty2 new2 v2).
Proof.
  intros Hv. unfold rebalance_with. eapply sim_bind; [apply rec_sim; [exact Hv|apply Forall2_replicate; constructor]|].
  intros [[e1|] t1] [[e2|] t2] [He Ht]; cbn [fst snd] in *; try discriminate.
  - injection He as <-. apply sim_throw.
  - eapply sim_bind; [apply collect_sim; [exact Ht|constructor]|]. intros a b [x y Hxy|]; apply sim_ret; [exact Hxy|exact empties].
Qed.
End Step.

(** The body of [js_new_string_rope], [k] standing for the rebalancing. *)
Definition rope_body {S} (len : S -> Z) (wide : S -> bool) (k : rope S -> M (rope S)) (op1 op2 : rope S) : M (rope S) :=
  let l := wrap 32 (string_rope_get_len len op1 + string_rope_get_len len op2) in
  let depth := Z.max (rope_depth op1) (rope_depth op2) in
  if JS_STRING_LEN_MAX <? l then throw err_too_long
  else
    _ ← alloc;
    let r := RRope l (rope_is_wide wide op1 || rope_is_wide wide op2) (wrap 8 (depth + 1)) op1 op2 in
    if JS_STRING_ROPE_MAX_DEPTH <? wrap 8 (depth + 1) then k r else mret r.

Lemma rope_body_sim k1 k2 a1 a2 b1 b2 :
  (forall v1 v2, vsim v1 v2 -> sim vsim (k1 v1) (k2 v2)) -> vsim a1 a2 -> vsim b1 b2 ->
  sim vsim (rope_body len1 wide1 k1 a1 b1) (rope_body len2 wide2 k2 a2 b2).
Proof.
  intros Hk Ha Hb. unfold rope_body. rewrite (vsim_len _ _ Ha), (vsim_len _ _ Hb), (vsim_depth _ _ Ha), (vsim_depth _ _ Hb). cbv zeta.
  destruct (_ <? _); [apply sim_throw|]. eapply sim_bind; [apply sim_alloc|]. intros _ _ _.
  destruct (_ <? _); [apply Hk|apply sim_ret]; cbn [vsim]; auto.
Qed.

End Shapes.

Lemma new_string_rope_body {S} (len : S -> Z) wide empty fuel :
  js_new_string_rope len wide empty fuel =
  rope_body len wide (match fuel with O => fun _ => undefined | Datatypes.S fuel => js_rebalancee_string_rope len wide empty fuel end).
Proof. destruct fuel; reflexivity. Qed.

Lemma rebalance_sim {S1 S2} (len1 : S1 -> Z) wide1 empty1 (len2 : S2 -> Z) wide2 empty2 fuel v1 v2 :
  len1 empty1 = len2 empty2 -> vsim len1 len2 v1 v2 ->
  sim (vsim len1 len2) (js_rebalancee_string_rope len1 wide1 empty1 fuel v1) (js_rebalancee_string_rope len2 wide2 empty2 fuel v2).
Proof.
  intros He. revert v1 v2. induction fuel as [|fuel IH]; intros v1 v2 Hv; unfold js_rebalancee_string_rope; apply rebalance_with_sim; auto;
    intros a1 a2 b1 b2 Ha Hb; rewrite !new_string_rope_body; apply rope_body_sim; auto. intros; apply sim_undefined.
Qed.

(** ** A rope that is rebalanced into itself *)

(** 1, F_3, 1, F_4, 1, F_5, ...: every long string is preceded by a single unit. *)
Definition loop_lengths : list Z := concat ((fun n => [1; n]) <$> take 31 (drop 1 rope_bucket_len)).

(** The left-nested rope of strings of these lengths, as repeated concatenation
    builds it. *)
Definition nest {S} (len : S -> Z) (wide : S -> bool) (v : rope S) (p : S) : rope S :=
  RRope (string_rope_get_len len v + len p) (rope_is_wide wide v || wide p) (rope_depth v + 1) v (RStr p).

Definition left_nested {S} (len : S -> Z) (wide : S -> bool) (empty : S) (ps : list S) : rope S :=
  match ps with [] => RStr empty | p :: ps => fold_left (nest len wide) ps (RStr p) end.

Notation Zlen := (fun n : Z => n).
Notation Zwide := (fun _ : Z => false).

Definition loop_rope : rope Z := left_nested Zlen Zwide 0 loop_lengths.

Fixpoint rope_eqb (v1 v2 : rope Z) : bool :=
  match v1, v2 with
  | RStr p, RStr q => p =? q
  | RRope l w d a b, RRope l' w' d' a' b' => (l =? l') && eqb w w' && (d =? d') && rope_eqb a a' && rope_eqb b b'
  | _, _ => false
  end.

Lemma rope_eqb_eq v1 v2 : rope_eqb v1 v2 = true -> v1 = v2.
Proof.
  revert v2. induction v1 as [p|l w d a IHa b IHb]; intros [q|l' w' d' a' b']; cbn [rope_eqb]; try discriminate.
  - intros H. apply Z.eqb_eq in H. congruence.
  - rewrite !andb_true_iff, !Z.eqb_eq. intros [[[[-> Hw] ->] Ha] Hb]. rewrite (IHa _ Ha), (IHb _ Hb). apply eqb_prop in Hw. congruence.
Qed.

(** Whatever the rebalancing [k] of other ropes does. *)
Lemma loop_step k :
  fst (rebalance_with Zlen 0 (rope_body Zlen Zwide (fun r => if rope_eqb r loop_rope then undefined else k r)) loop_rope alloc_all) = Undefined.
Proof. vm_compute. reflexivity. Qed.

Lemma sim_undefined_l {A B} (Q : A -> B -> Prop) m1 m2 : sim Q m1 m2 -> fst (m2 alloc_all) = Undefined -> fst (m1 alloc_all) = Undefined.
Proof. intros [H _] E. rewrite E in H. destruct (fst (m1 alloc_all)); [contradiction|contradiction|reflexivity]. Qed.

Lemma loop_rebalance {S} (len : S -> Z) wide empty fuel v :
  len empty = 0 -> vsim len Zlen v loop_rope -> fst (js_rebalancee_string_rope len wide empty fuel v alloc_all) = Undefined.
Proof.
  intros He. revert v. induction fuel as [|fuel IH]; intros v Hv; unfold js_rebalancee_string_rope.
  - eapply sim_undefined_l; [eapply (rebalance_with_sim len empty Zlen 0 He); [|exact Hv]|apply (loop_step (fun _ => undefined))].
    intros a1 a2 b1 b2 Ha Hb. rewrite new_string_rope_body. apply rope_body_sim; [|exact Ha|exact Hb].
    intros v1 v2 _. destruct (rope_eqb v2 loop_rope); apply sim_undefined.
  - eapply sim_undefined_l; [eapply (rebalance_with_sim len empty Zlen 0 He); [|exact Hv]|apply (loop_step (js_rebalancee_string_rope Zlen Zwide 0 fuel))].
    intros a1 a2 b1 b2 Ha Hb. rewrite new_string_rope_body. apply rope_body_sim; [|exact Ha|exact Hb].
    intros v1 v2 Hv12. destruct (rope_eqb v2 loop_rope) eqn:Eq; [|apply rebalance_sim; assumption].
    apply rope_eqb_eq in Eq. subst. specialize (IH v1 Hv12). split; [|left; exact IH]. rewrite IH. exact I.
Qed.

Lemma nested_vsim {S} (len : S -> Z) wide empty ps :
  len empty = 0 -> vsim len Zlen (left_nested len wide empty ps) (left_nested Zlen Zwide 0 (len <$> ps)).
Proof.
  intros He. destruct ps as [|p ps]; [exact He|]. cbn [left_nested fmap list_fmap].
  assert (forall v1 v2, vsim len Zlen v1 v2 -> vsim len Zlen (fold_left (nest len wide) ps v1) (fold_left (nest Zlen Zwide) (len <$> ps) v2)) as H.
  { induction ps as [|q ps IH]; intros v1 v2 Hv; cbn [fold_left fmap list_fmap]; [exact Hv|]. apply IH. unfold nest. cbn [vsim].
    rewrite (vsim_len _ _ _ _ Hv), (vsim_depth _ _ _ _ Hv). auto. }
  apply H. reflexivity.
Qed.

Notation str_rope_wf := (rope_wf str_len is_wide_char string_ok).
Notation str_rope_strings := (rope_strings str_len).

(** A rope as the engine keeps it. *)
Definition rope_ok (v : JSRope) : Prop := str_rope_wf v /\ rope_depth v <= JS_STRING_ROPE_MAX_DEPTH.

(** What a rope stands for. *)
Fixpoint rope_units (v : JSRope) : list Z :=
  match v with RStr p => chars p | RRope _ _ _ rl rr => rope_units rl ++ rope_units rr end.

Lemma string_len_range p : string_ok p -> 0 <= str_len p < 2 ^ 31.
Proof. intros [_ H]. split; [apply len_nonneg|exact H]. Qed.

Lemma empty_string_ok : string_ok empty_string.
Proof. split; [apply Forall_nil_2|]. change (0 < 2 ^ 31). lia. Qed.

Lemma str_len_zero p : str_len p = 0 -> chars p = [].
Proof. unfold str_len, len. intros H. destruct (chars p); [reflexivity|cbn in H; lia]. Qed.

Lemma rope_units_len v : str_rope_wf v -> rope_get_len v = len (rope_units v).
Proof.
  induction v as [p|l w d rl IHl rr IHr]; [reflexivity|]. cbn [rope_wf rope_units string_rope_get_len].
  intros (H1 & H2 & -> & _). rewrite len_app, IHl, IHr by assumption. reflexivity.
Qed.

Lemma rope_units_strings v : rope_units v = concat (chars <$> str_rope_strings v).
Proof.
  induction v as [p|l w d rl IHl rr IHr]; cbn [rope_units rope_strings].
  - destruct (Z.eqb_spec (str_len p) 0) as [E|_]; [apply str_len_zero, E|]. cbn. rewrite app_nil_r. reflexivity.
  - rewrite IHl, IHr, fmap_app, concat_app. reflexivity.
Qed.

(** ** Access *)

Lemma rope_get_spec v idx :
  str_rope_wf v -> 0 <= idx < len (rope_units v) ->
  exists c, string_rope_get v idx = mret c /\ rope_units v !! Z.to_nat idx = Some c.
Proof.
  revert idx. induction v as [p|l w d rl IHl rr IHr]; intros idx Hv Hi; cbn [string_rope_get rope_units] in *.
  - unfold string_get. destruct (lookup_lt_is_Some_2 (chars p) (Z.to_nat idx)) as [c Hc]; [unfold len in Hi; lia|].
    exists c. split; [apply tab_get_lookup; [lia|exact Hc]|exact Hc].
  - destruct Hv as (Hl & Hr & _). rewrite len_app in Hi. cbv zeta. rewrite rope_units_len by exact Hl.
    destruct (Z.ltb_spec idx (len (rope_units rl))) as [H|H].
    + destruct (IHl idx Hl ltac:(lia)) as (c & E1 & E2). exists c. split; [exact E1|].
      rewrite lookup_app_l by (unfold len in H; lia). exact E2.
    + destruct (IHr (idx - len (rope_units rl)) Hr ltac:(lia)) as (c & E1 & E2). exists c. split; [exact E1|].
      rewrite lookup_app_r by (unfold len in H; lia). rewrite <- E2. f_equal. unfold len. lia.
Qed.

(** ** Comparison *)

(** The iterator's stack: an entry with [k] entries below it has depth at most
    [60 - k], so that the stack never overflows. *)
Fixpoint stack_ok (st : list JSRope) : Prop :=
  match st with
  | [] => True
  | v :: st => str_rope_wf v /\ rope_depth v + len st <= JS_STRING_ROPE_MAX_DEPTH /\ stack_ok st
  end.

Fixpoint stack_units (st : list JSRope) : list Z := match st with [] => [] | v :: st => rope_units v ++ stack_units st end.

Fixpoint stack_leaves (st : list JSRope) : nat := match st with [] => O | v :: st => (rope_leaves v + stack_leaves st)%nat end.

Lemma leaves_pos {S} (v : rope S) : (1 <= rope_leaves v)%nat.
Proof. induction v as [|l w d rl IHl rr IHr]; cbn [rope_leaves]; lia. Qed.

Lemma iter_descend_spec v st :
  stack_ok (v :: st) ->
  exists p st', iter_descend v st = mret (p, st') /\ string_ok p /\ stack_ok st' /\
    rope_units v ++ stack_units st = chars p ++ stack_units st' /\ (rope_leaves v + stack_leaves st = 1 + stack_leaves st')%nat.
Proof.
  revert st. induction v as [p|l w d rl IHl rr _]; intros st Hst.
  - destruct Hst as (Hp & _ & Hst). exists p, st. cbn [iter_descend rope_units rope_leaves rope_wf] in *. auto.
  - destruct Hst as ((Hl & Hr & _ & _ & _ & Hdl & Hdr) & Hd & Hst). cbn [rope_depth] in Hd. cbn [iter_descend].
    pose proof (rope_depth_nonneg str_len is_wide_char string_ok rl Hl). rewrite (proj2 (Z.ltb_lt _ _)) by lia.
    destruct (IHl (rr :: st)) as (p & st' & E & H1 & H2 & H3 & H4).
    + split; [exact Hl|]. rewrite len_cons. split; [lia|]. split; [exact Hr|]. split; [lia|exact Hst].
    + exists p, st'. split; [exact E|]. split; [exact H1|]. split; [exact H2|].
      cbn [stack_units stack_leaves rope_units rope_leaves] in *. split; [rewrite <- app_assoc; exact H3|lia].
Qed.

Definition cursor_units (c : rope_cursor) : list Z :=
  match c with (Some (p, st), pos) => drop (Z.to_nat pos) (chars p) ++ stack_units st | (None, _) => [] end.

Definition cursor_leaves (c : rope_cursor) : nat := match c with (Some (p, st), _) => S (stack_leaves st) | (None, _) => O end.

Definition cursor_ok (c : rope_cursor) : Prop :=
  match c with (Some (p, st), pos) => string_ok p /\ stack_ok st /\ 0 <= pos <= str_len p | (None, _) => True end.

Lemma iter_next_spec st :
  stack_ok st ->
  exists c, string_rope_iter_next st = mret c /\ cursor_ok (c, 0) /\ cursor_units (c, 0) = stack_units st /\ cursor_leaves (c, 0) = stack_leaves st.
Proof.
  destruct st as [|v st]; intros Hst; cbn [string_rope_iter_next].
  - exists None. repeat split.
  - destruct (iter_descend_spec v st Hst) as (p & st' & E & H1 & H2 & H3 & H4). rewrite E, ret_bind. exists (Some (p, st')).
    split; [reflexivity|]. split; [split; [exact H1|split; [exact H2|unfold str_len; pose proof (len_nonneg (chars p)); lia]]|].
    split; [symmetry; exact H3|symmetry; exact H4].
Qed.

(** Moving [n] units forward in the current string. *)
Lemma advance_spec p st pos n :
  cursor_ok (Some (p, st), pos) -> 0 <= n <= str_len p - pos ->
  exists c, advance p st pos n = mret c /\ cursor_ok c /\
    cursor_units c = drop (Z.to_nat n) (cursor_units (Some (p, st), pos)) /\
    (cursor_leaves c <= cursor_leaves (Some (p, st), pos))%nat /\
    (n = str_len p - pos -> (cursor_leaves c < cursor_leaves (Some (p, st), pos))%nat).
Proof.
  intros (Hp & Hst & Hpos) Hn. unfold advance. cbn [cursor_units cursor_leaves]. unfold str_len, len in *.
  rewrite drop_app. rewrite drop_drop, length_drop.
  destruct (Z.leb_spec (Z.of_nat (length (chars p))) (pos + n)) as [Hle|Hgt].
  - destruct (iter_next_spec st Hst) as (c & E & H1 & H2 & H3). rewrite E, ret_bind. exists (c, 0). split; [reflexivity|].
    split; [exact H1|]. split; [|lia]. rewrite H2, drop_ge by lia. replace (Z.to_nat n - _)%nat with 0%nat by lia. reflexivity.
  - exists (Some (p, st), pos + n). split; [reflexivity|]. split; [split; [exact Hp|split; [exact Hst|unfold str_len, len; lia]]|].
    cbn [cursor_units cursor_leaves]. split; [|lia]. replace (Z.to_nat n - _)%nat with 0%nat by lia. cbn [drop]. do 2 f_equal. lia.
Qed.

Lemma memcmp_app a b c d : length a = length c -> memcmp (a ++ b) (c ++ d) = if memcmp a c =? 0 then memcmp b d else memcmp a c.
Proof.
  revert c. induction a as [|x a IH]; intros [|y c] Hl; cbn [length] in Hl; try lia; [reflexivity|].
  cbn [app memcmp]. rewrite IH by lia. destruct (Z.eqb_spec (x - y) 0); [reflexivity|]. rewrite (proj2 (Z.eqb_neq _ _)) by assumption. reflexivity.
Qed.

Lemma compare_loop_spec fuel l c1 c2 :
  cursor_ok c1 -> cursor_ok c2 -> 0 <= l <= len (cursor_units c1) -> l <= len (cursor_units c2) ->
  (cursor_leaves c1 + cursor_leaves c2 <= fuel)%nat ->
  exists r, rope_compare_loop fuel l c1 c2 = mret r /\
    let m := memcmp (take (Z.to_nat l) (cursor_units c1)) (take (Z.to_nat l) (cursor_units c2)) in
    match r with None => m = 0 | Some res => res <> 0 /\ res = m end.
Proof.
  revert l c1 c2. induction fuel as [|fuel IH]; intros l c1 c2 H1 H2 Hl1 Hl2 Hf; cbn [rope_compare_loop].
  - destruct (Z.eqb_spec l 0) as [->|Hne]; [exists None; split; reflexivity|].
    destruct c1 as [[[p1 st1]|] pos1]; cbn [cursor_leaves cursor_units] in *; [lia|]. change (len (@nil Z)) with 0 in Hl1. lia.
  - destruct (Z.eqb_spec l 0) as [->|Hne]; [exists None; split; reflexivity|].
    destruct c1 as [[[p1 st1]|] pos1]; [|cbn [cursor_units] in Hl1; change (len (@nil Z)) with 0 in Hl1; lia].
    destruct c2 as [[[p2 st2]|] pos2]; [|cbn [cursor_units] in Hl2; change (len (@nil Z)) with 0 in Hl2; lia].
    cbv zeta. set (k := Z.min _ l). pose proof H1 as (_ & _ & Hp1). pose proof H2 as (_ & _ & Hp2).
    destruct (advance_spec p1 st1 pos1 k H1 ltac:(lia)) as (c1 & E1 & Hok1 & Hu1 & Hle1 & Hlt1).
    destruct (advance_spec p2 st2 pos2 k H2 ltac:(lia)) as (c2 & E2 & Hok2 & Hu2 & Hle2 & Hlt2).
    rewrite string_memcmp_at, ret_bind by lia.
    set (u1 := cursor_units (Some (p1, st1), pos1)) in *. set (u2 := cursor_units (Some (p2, st2), pos2)) in *.
    assert (forall p st pos, cursor_ok (Some (p, st), pos) -> k <= str_len p - pos ->
      take (Z.to_nat k) (drop (Z.to_nat pos) (chars p)) = take (Z.to_nat k) (cursor_units (Some (p, st), pos))) as Hpre.
    { intros p st pos (_ & _ & Hpos) Hk. cbn [cursor_units]. rewrite take_app_le; [reflexivity|]. rewrite length_drop. unfold str_len, len in *. lia. }
    rewrite (Hpre p1 st1 pos1 H1), (Hpre p2 st2 pos2 H2) by lia. fold u1 u2.
    assert (forall u : list Z, take (Z.to_nat l) u = take (Z.to_nat k) u ++ take (Z.to_nat (l - k)) (drop (Z.to_nat k) u)) as Hsplit.
    { intros u. rewrite take_take_drop. f_equal. lia. }
    assert (length (take (Z.to_nat k) u1) = length (take (Z.to_nat k) u2)) as Hlen by (rewrite !length_take; unfold len in *; lia).
    rewrite (Hsplit u1), (Hsplit u2), (memcmp_app _ _ _ _ Hlen). set (m := memcmp (take (Z.to_nat k) u1) (take (Z.to_nat k) u2)).
    destruct (Z.eqb_spec m 0) as [Hm|Hm]; cbn [negb].
    + rewrite E1, ret_bind, E2, ret_bind. rewrite <- Hu1, <- Hu2.
      assert (forall u c, cursor_units c = drop (Z.to_nat k) u -> l <= len u -> l - k <= len (cursor_units c)) as Hrest.
      { intros u c -> Hu. unfold len in *. rewrite length_drop. lia. }
      destruct (Z.eq_dec k l) as [Ek|Ek].
      * rewrite Ek, Z.sub_diag. exists None. split; [destruct fuel; reflexivity|reflexivity].
      * apply (IH (l - k) c1 c2 Hok1 Hok2); [split; [lia|eapply Hrest; [exact Hu1|apply Hl1]]|eapply Hrest; [exact Hu2|exact Hl2]|].
        unfold k in *. destruct (Z.min_dec (str_len p1 - pos1) (str_len p2 - pos2)) as [Em|Em].
        -- specialize (Hlt1 ltac:(lia)). lia.
        -- specialize (Hlt2 ltac:(lia)). lia.
    + exists (Some m). split; [reflexivity|]. split; [exact Hm|reflexivity].
Qed.

Lemma rope_compare_spec v1 v2 eq_only :
  rope_ok v1 -> rope_ok v2 ->
  exists r, js_string_rope_compare v1 v2 eq_only = mret r /\
    (r = 0 <-> rope_units v1 = rope_units v2) /\ (eq_only = false -> Z.sgn r = units_cmp (rope_units v1) (rope_units v2)).
Proof.
  intros H1 H2. unfold js_string_rope_compare. rewrite !rope_units_len by (apply H1 || apply H2). set (u1 := rope_units v1). set (u2 := rope_units v2).
  destruct (eq_only && negb (len u1 =? len u2)) eqn:Eeq.
  - apply andb_true_iff in Eeq. destruct Eeq as [-> Hne]. apply negb_true_iff, Z.eqb_neq in Hne. exists 1. split; [reflexivity|].
    split; [|discriminate]. split; [discriminate|]. intros E. rewrite E in Hne. congruence.
  - assert (forall v, rope_ok v -> stack_ok [v]) as Hst.
    { intros v [Hv H]. split; [exact Hv|]. split; [|exact I]. change (rope_depth v + 0 <= JS_STRING_ROPE_MAX_DEPTH). rewrite Z.add_0_r. apply H. }
    destruct (iter_next_spec [v1] (Hst v1 H1)) as (c1 & E1 & Hc1 & Hu1 & Hl1). destruct (iter_next_spec [v2] (Hst v2 H2)) as (c2 & E2 & Hc2 & Hu2 & Hl2).
    unfold string_rope_iter_init. cbv zeta. rewrite E1, ret_bind, E2, ret_bind.
    cbn [stack_units stack_leaves] in *. rewrite app_nil_r in Hu1, Hu2. fold u1 in Hu1. fold u2 in Hu2.
    pose proof (len_nonneg u1). pose proof (len_nonneg u2).
    destruct (compare_loop_spec (rope_leaves v1 + rope_leaves v2) (Z.min (len u1) (len u2)) (c1, 0) (c2, 0)) as (r & E & Hr);
      [assumption|assumption|rewrite Hu1; lia|rewrite Hu2; lia|lia|].
    rewrite E, ret_bind. eexists. split; [reflexivity|]. cbv zeta in Hr. rewrite Hu1, Hu2 in Hr.
    replace (Z.to_nat (Z.min (len u1) (len u2))) with (Nat.min (length u1) (length u2)) in Hr by (unfold len; lia).
    destruct (memcmp_units u1 u2) as [Hm1 Hm2]. cbv zeta in Hm1, Hm2.
    assert (Z.sgn (match r with Some res => res | None => if len u1 =? len u2 then 0 else if len u1 <? len u2 then -1 else 1 end) = units_cmp u1 u2) as Hs.
    { destruct r as [res|]; [destruct Hr as [Hne Er]; rewrite Er; apply Hm1; congruence|]. rewrite (Hm2 Hr). case_tests; reflexivity. }
    split; [|intros _; exact Hs]. rewrite <- units_cmp_eq, <- Hs. split; [intros ->; reflexivity|]. lia.
Qed.

(** ** Linearization *)

(** What holds of the result whenever there is one. *)
Definition whenever {A} (m : M A) (Q : A -> Prop) : Prop := forall o a o', m o = (Ok a, o') -> Q a.

Lemma whenever_bind {A B} (m : M A) (f : A -> M B) R Q :
  whenever m R -> (forall a, R a -> whenever (f a) Q) -> whenever (mbind f m) Q.
Proof. intros Hm Hf o b o'. unfold mbind, M_bind. destruct (m o) as [[a|e|] o1] eqn:E; [|discriminate..]. apply (Hf a (Hm _ _ _ E)). Qed.

Lemma whenever_ret {A} (a : A) (Q : A -> Prop) : Q a -> whenever (mret a) Q.
Proof. intros HQ o x o' [= <- _]. exact HQ. Qed.

Lemma whenever_any {A} (m : M A) : whenever m (fun _ => True).
Proof. intros o a o' _. exact I. Qed.

Lemma gspec_whenever (G : Prop) {A} (m : M A) Q R E : gspec G m Q E -> whenever m R -> gspec G m (fun a => Q a /\ R a) E.
Proof. intros Hm Hr o Ho. specialize (Hm o Ho). destruct (m o) as [[a|e|] o'] eqn:Eq; [|exact Hm|exact Hm]. destruct Hm. split; [split; [assumption|exact (Hr _ _ _ Eq)]|assumption]. Qed.

Section Linearize.
Context `{MS : MallocSlack} `{RM : RawMemory}.

(** Writing 8-bit units never widens a buffer. *)
Lemma write8_narrow s p : sb_wide s = false -> whenever (string_buffer_write8 s p) (fun r => sb_wide (snd r) = false).
Proof.
  intros Hw. unfold string_buffer_write8. apply whenever_bind with (R := fun r => sb_wide (snd r) = false).
  - destruct (_ <? swrap _ _); [|apply whenever_ret, Hw]. unfold string_buffer_realloc. destruct (sb_error s); [apply whenever_ret, Hw|].
    destruct (_ <? _); [apply whenever_ret, Hw|]. cbv zeta. rewrite Hw. change (0x100 <=? 0) with false. cbn [negb andb].
    eapply whenever_bind; [apply whenever_any|]. intros [|] _; apply whenever_ret; [reflexivity|exact Hw].
  - intros [r s'] Hs'. cbn [snd] in Hs'. destruct (negb (r =? 0)); [apply whenever_ret, Hs'|].
    unfold sb_write. eapply whenever_bind; [apply whenever_any|]. intros t _. apply whenever_ret, Hs'.
Qed.

Lemma concat_value_narrow s v :
  sb_wide s = false -> str_rope_wf v -> rope_is_wide is_wide_char v = false -> whenever (string_buffer_concat_value s v) (fun r => sb_wide (snd r) = false).
Proof.
  revert s. induction v as [p|l w d rl IHl rr IHr]; intros s Hs Hv Hw; cbn [string_buffer_concat_value rope_is_wide] in *;
    (destruct (sb_error s); [apply whenever_ret, Hs|]).
  - unfold string_buffer_concat. destruct (_ <=? _); [apply whenever_ret, Hs|]. eapply whenever_bind; [apply whenever_any|].
    intros sub _. rewrite Hw. apply write8_narrow, Hs.
  - destruct Hv as (Hl & Hr & _ & _ & Hlr & _). destruct (rope_is_wide is_wide_char rl) eqn:El; [rewrite Hlr in Hw by reflexivity; discriminate|].
    destruct (rope_is_wide is_wide_char rr) eqn:Er; [rewrite Hlr in Hw by reflexivity; discriminate|].
    eapply whenever_bind; [apply IHl; auto|]. intros [r s'] Hs'. cbn [snd] in Hs'.
    destruct (negb (r =? 0)); [apply whenever_ret, Hs'|apply IHr; auto].
Qed.

Lemma whole_substring p : substring p 0 (str_len p) = chars p.
Proof.
  unfold substring, str_len, len. change (Z.to_nat 0) with 0%nat. cbn [drop skipn]. replace (Z.to_nat _) with (length (chars p)) by lia. apply firstn_all.
Qed.

Lemma concat_value_spec (G : Prop) s units v E :
  sb_state G s units -> str_rope_wf v -> len units + len (rope_units v) < 2 ^ 31 -> gspec G (string_buffer_concat_value s v) (sb_post G (units ++ rope_units v)) E.
Proof.
  revert s units. induction v as [p|l w d rl IHl rr IHr]; intros s units Hs Hv Hlen; cbn [string_buffer_concat_value rope_units] in *;
    (destruct (sb_error s) as [e|] eqn:He; [apply gspec_ret, failed_post; [exact Hs|congruence|reflexivity]|]).
  - rewrite <- (whole_substring p). apply concat_spec; [exact Hs|exact Hv|lia|lia|rewrite whole_substring; exact Hlen].
  - destruct Hv as (Hl & Hr & _). rewrite len_app in Hlen. pose proof (len_nonneg (rope_units rr)). rewrite app_assoc. eapply gspec_bind; [apply (IHl s units Hs Hl); lia|].
    intros [r s'] [Hs' Hr']. cbn [fst snd] in *. destruct Hr' as [->|[-> He']]; cbn [Z.eqb negb]; [apply IHr; [exact Hs'|exact Hr|rewrite len_app; lia]|].
    apply gspec_ret, failed_post; [exact Hs'|exact He'|reflexivity].
Qed.

(** The string is wide only if the buffer became wide. *)
Lemma init2_wide size w : whenever (string_buffer_init2 size w) (fun r => sb_wide (snd r) = w).
Proof. unfold string_buffer_init2. eapply whenever_bind; [apply whenever_any|]. intros [|] _; apply whenever_ret; reflexivity. Qed.

Lemma concat_value_wide s v w :
  sb_wide s = w -> str_rope_wf v -> rope_is_wide is_wide_char v = w -> whenever (string_buffer_concat_value s v) (fun r => sb_wide (snd r) = true -> w = true).
Proof.
  destruct w; [intros _ _ _ o a o' _ _; reflexivity|]. intros Hs Hv Hw o a o' E. rewrite (concat_value_narrow s v Hs Hv Hw _ _ _ E). auto.
Qed.

Lemma end_wide s : whenever (string_buffer_end s) (fun p => is_wide_char p = true -> sb_wide s = true).
Proof.
  unfold string_buffer_end. destruct (sb_error s); [intros o a o'; discriminate|]. destruct (_ =? _); [apply whenever_ret; discriminate|].
  eapply whenever_bind; [apply whenever_any|]. intros b _. apply whenever_ret. auto.
Qed.

(** The exception recorded in a failed buffer of at most the maximal length. *)
Lemma failed_oom (G : Prop) s units : sb_state G s units -> sb_error s <> None -> len units <= JS_STRING_LEN_MAX -> oom G (default OutOfMemory (sb_error s)).
Proof.
  intros [Hok Hc] He Hl. unfold sb_ok in Hok. destruct (sb_error s) as [e|]; [|congruence].
  destruct Hok as (_ & _ & _ & [[-> H]| ->]); [split; [reflexivity|exact H]|]. specialize (Hc eq_refl). lia.
Qed.

Lemma linearize_gspec (G : Prop) v shared :
  rope_ok v -> (forall p, v <> RStr p) ->
  gspec G (js_linearize_string_rope v shared)
    (fun r => rope_ok (fst r) /\ rope_ok (snd r) /\ rope_units (fst r) = rope_units v /\ rope_units (snd r) = rope_units v) (oom G).
Proof.
  intros [Hv Hd] Hn. destruct v as [p|l w d rl rr]; [destruct (Hn p eq_refl)|]. pose proof (rope_units_len _ Hv) as Hlen.
  pose proof (rope_len_range str_len is_wide_char string_ok string_len_range _ Hv) as Hrng.
  pose proof Hv as (Hl & Hr & Hll & Hmax & Hw & Hdl & Hdr). cbn [rope_depth string_rope_get_len] in *.
  change JS_STRING_LEN_MAX with (2 ^ 30 - 1) in Hmax. cbn [js_linearize_string_rope].
  destruct (match rr with RStr q => str_len q =? 0 | RRope _ _ _ _ _ => false end) eqn:Eq.
  - apply gspec_ret. cbn [fst snd]. destruct rr as [q|]; [|discriminate]. apply Z.eqb_eq, str_len_zero in Eq.
    split; [split; [exact Hl|lia]|]. split; [split; [exact Hv|exact Hd]|]. cbn [rope_units]. rewrite Eq, app_nil_r. auto.
  - assert (len (rope_units (RRope l w d rl rr)) <= JS_STRING_LEN_MAX) as Hu by (rewrite <- Hlen; change JS_STRING_LEN_MAX with (2 ^ 30 - 1); lia).
    eapply gspec_bind; [apply (gspec_whenever _ _ _ _ _ (init2_spec G l w (oom G) ltac:(lia)) (init2_wide l w))|]. intros [r s] [[Hs Hrs] Hsw].
    cbn [fst snd] in *.
    destruct Hrs as [->|[-> He]]; cbn [Z.eqb negb]; [|apply gspec_throw; eapply failed_oom; [exact Hs|exact He|change (0 <= 2 ^ 30 - 1); lia]].
    eapply gspec_bind.
    { apply gspec_whenever; [apply (concat_value_spec G s [] _ (oom G) Hs Hv); change (len (@nil Z)) with 0; change JS_STRING_LEN_MAX with (2 ^ 30 - 1) in Hu; lia|apply (concat_value_wide s _ w Hsw Hv eq_refl)]. }
    cbn [app]. intros [r s'] [[Hs' Hrs'] Hsw']. cbn [fst snd] in *.
    destruct Hrs' as [->|[-> He]]; cbn [Z.eqb negb]; [|apply gspec_throw; eapply failed_oom; [exact Hs'|exact He|exact Hu]].
    eapply gspec_bind.
    { eapply gspec_mono with (E := sb_exn G _); [apply gspec_whenever; [apply (end_spec G s' _ Hs')|apply (end_wide s')]|intros p Hp; exact Hp|].
      intros e [He|[_ He]]; [exact He|lia]. }
    intros ret [[Hok Hch] Hwd]. apply gspec_ret. cbn [fst snd]. split; [split; [exact Hok|change (0 <= 60); lia]|].
    split; [|split; [exact Hch|destruct shared; cbn [rope_units] in *; rewrite ?Hch, ?app_nil_r; reflexivity]].
    destruct shared; [|split; assumption]. pose proof (rope_depth_nonneg _ _ _ _ Hl). split; [|exact Hd].
    cbn [rope_wf string_rope_get_len rope_is_wide rope_depth]. split; [exact Hok|]. split; [exact empty_string_ok|].
    split; [unfold str_len at 1; rewrite Hch, <- Hlen; change (str_len empty_string) with 0; lia|]. split; [change JS_STRING_LEN_MAX with (2 ^ 30 - 1); lia|].
    split; [|lia]. cbn [is_wide_char empty_string]. rewrite orb_false_r. auto.
Qed.

End Linearize.

(** ** Concatenation *)

(** The strings that a rebalancing would see: none shorter than the bucket length
    [m], and all together less than 30 buckets higher. *)
Definition balanced (m : Z) (ps : list JSString) : Prop :=
  0 <= m <= 42 /\ Forall (fun p => bucket_len m <= str_len p) ps /\ (m <= 13 -> total str_len ps < bucket_len (m + 30)).

Definition concat_exn (G : Prop) (n : Z) (e : exn) : Prop := oom G e \/ (e = err_too_long /\ JS_STRING_LEN_MAX < n).

Definition concat_post (G : Prop) (units : list Z) (r : JSRope) : Prop := rope_ok r /\ (G -> rope_units r = units).

Lemma strings_total v : str_rope_wf v -> total str_len (str_rope_strings v) = rope_get_len v.
Proof. intros H. symmetry. apply (rope_len_total _ _ _ v H). Qed.

Lemma rebalance_gspec (G : Prop) m fuel v :
  str_rope_wf v -> rope_get_len v <= JS_STRING_LEN_MAX -> balanced m (str_rope_strings v) ->
  gspec G (rebalance_string_rope fuel v) (fun r => str_rope_wf r /\ rope_depth r <= 59 /\ rope_get_len r <= rope_get_len v /\ (G -> str_rope_strings r = str_rope_strings v)) (oom G).
Proof.
  intros Hv Hl (Hm & Hmin & Htot). rewrite (strings_total v Hv) in Htot. set (K := Z.min 42 (m + 29)).
  assert (rope_get_len v < bucket_len (K + 1)) as HK.
  { unfold K. destruct (Z.le_gt_cases m 13) as [H|H].
    - replace (Z.min 42 (m + 29) + 1) with (m + 30) by lia. auto.
    - replace (Z.min 42 (m + 29) + 1) with 43 by lia. change JS_STRING_LEN_MAX with (2 ^ 30 - 1) in Hl. change (bucket_len 43) with 1134903170. lia. }
  apply (rebalance_spec str_len is_wide_char empty_string string_ok string_len_range empty_string_ok eq_refl G m K (rope_get_len v) fuel);
    [lia|lia|lia|exact Hl|exact HK|exact Hv|exact Hmin|lia].
Qed.

Lemma deep_rope_spec (G : Prop) m fuel v :
  str_rope_wf v -> rope_get_len v <= JS_STRING_LEN_MAX -> balanced m (str_rope_strings v) ->
  gspec G (rebalance_string_rope fuel v) (concat_post G (rope_units v)) (oom G).
Proof.
  intros Hv Hl Hbal. eapply gspec_mono with (E := oom G); [apply (rebalance_gspec G m fuel v Hv Hl Hbal)| |auto].
  intros r (H1 & H2 & _ & H3). split; [split; [exact H1|change JS_STRING_ROPE_MAX_DEPTH with 60; lia]|].
  intros HG. rewrite !rope_units_strings, (H3 HG). reflexivity.
Qed.

(** Strings joined one after the other make a rope. *)
Lemma nested_wf ps : forall v, str_rope_wf v -> Forall string_ok ps -> rope_get_len v + total str_len ps <= JS_STRING_LEN_MAX -> str_rope_wf (fold_left (nest str_len is_wide_char) ps v).
Proof.
  induction ps as [|p ps IH]; intros v Hv Hps Hl; cbn [fold_left]; [exact Hv|]. pose proof (Forall_inv Hps) as Hp. apply Forall_inv_tail in Hps. cbn [total] in Hl. pose proof (rope_depth_nonneg _ _ _ _ Hv) as Hd.
  assert (0 <= total str_len ps) by (clear; induction ps as [|q ps IH]; cbn [total]; [lia|]; assert (0 <= str_len q) by apply len_nonneg; lia).
  apply IH; [|exact Hps|cbn [nest string_rope_get_len]; lia]. unfold nest. cbn [rope_wf string_rope_get_len rope_is_wide rope_depth]. repeat split; auto; try lia; apply Hp.
Qed.

Lemma new_rope_spec (G : Prop) m fuel a b :
  rope_ok a -> rope_ok b -> balanced m (str_rope_strings a ++ str_rope_strings b) ->
  gspec G (new_string_rope (S fuel) a b) (concat_post G (rope_units a ++ rope_units b)) (concat_exn G (rope_get_len a + rope_get_len b)).
Proof.
  intros [Ha Hda] [Hb Hdb] Hbal. pose proof (rope_len_range _ _ _ string_len_range a Ha) as Hla. pose proof (rope_len_range _ _ _ string_len_range b Hb) as Hlb.
  destruct (Z.lt_ge_cases JS_STRING_LEN_MAX (rope_get_len a + rope_get_len b)) as [Hbig|Hfit].
  - cbn [js_new_string_rope]. cbv zeta. rewrite wrap_small by lia. rewrite (proj2 (Z.ltb_lt _ _)) by exact Hbig.
    apply gspec_throw. right. auto.
  - destruct (Z.lt_ge_cases (Z.max (rope_depth a) (rope_depth b)) JS_STRING_ROPE_MAX_DEPTH) as [Hsh|Hdeep].
    + eapply gspec_mono with (E := oom G); [apply (new_rope_shallow str_len is_wide_char empty_string string_ok string_len_range G (S fuel) a b (oom G)); auto; apply oom_intro| |intros e He; left; exact He].
      intros r (H1 & _ & H2 & H3). split; [split; [exact H1|lia]|]. intros _. rewrite !rope_units_strings, H2, fmap_app, concat_app. reflexivity.
    + assert (Z.max (rope_depth a) (rope_depth b) = JS_STRING_ROPE_MAX_DEPTH) as Hd by lia.
      cbn [js_new_string_rope]. cbv zeta. rewrite wrap_small by lia. rewrite (proj2 (Z.ltb_ge _ _)) by exact Hfit. rewrite Hd.
      change (wrap 8 (JS_STRING_ROPE_MAX_DEPTH + 1)) with 61. change (JS_STRING_ROPE_MAX_DEPTH <? 61) with true.
      eapply gspec_bind; [apply gspec_alloc; intros Hng; left; apply oom_intro, Hng|]. intros _ _.
      eapply gspec_mono with (E := oom G); [apply (deep_rope_spec G m fuel)| |intros e He; left; exact He].
      * cbn [rope_wf]. change JS_STRING_ROPE_MAX_DEPTH with 60 in *. repeat split; auto; lia.
      * exact Hfit.
      * exact Hbal.
      * intros r Hr. exact Hr.
Qed.

Lemma balanced_merge m ps ps' :
  balanced m ps -> total str_len ps' = total str_len ps -> Forall (fun p => bucket_len m <= str_len p) ps' -> balanced m ps'.
Proof. intros (H1 & _ & H3) Ht Hf. split; [exact H1|]. split; [exact Hf|]. rewrite Ht. exact H3. Qed.

(** Two strings became one. *)
Lemma concat_str_spec (G : Prop) p1 rc usable p2 :
  string_ok p1 -> string_ok p2 -> str_len p1 + str_len p2 < 2 ^ 31 ->
  gspec G (JS_ConcatString2 p1 rc usable p2) (fun p => string_ok p /\ chars p = chars p1 ++ chars p2) (concat_exn G (str_len p1 + str_len p2)).
Proof. intros H1 H2 Hl. apply gspec_of_mspec, concat2_spec; assumption. Qed.

Lemma concat_exn_mono G n n' e : concat_exn G n e -> n <= n' -> concat_exn G n' e.
Proof. intros [H|[H1 H2]] Hn; [left; exact H|right]. split; [exact H1|lia]. Qed.

Lemma merged_strings m q p val :
  chars val = chars q ++ chars p ->
  let at_least := Forall (fun p => bucket_len m <= str_len p) in
  at_least (str_rope_strings (RStr q)) -> at_least (str_rope_strings (RStr p)) ->
  total str_len (str_rope_strings (RStr val)) = total str_len (str_rope_strings (RStr q)) + total str_len (str_rope_strings (RStr p)) /\
  at_least (str_rope_strings (RStr val)).
Proof.
  intros Hch. cbv zeta. assert (str_len val = str_len q + str_len p) as Hl by (unfold str_len; rewrite Hch, len_app; reflexivity).
  pose proof (len_nonneg (chars q)) as Hq. pose proof (len_nonneg (chars p)) as Hp. fold (str_len q) in Hq. fold (str_len p) in Hp.
  cbn [rope_strings]. intros H1 H2. case_tests; cbn [total]; (split; [lia|]); try (apply Forall_nil_2); (apply Forall_cons; [|apply Forall_nil_2]);
    try apply Forall_inv in H1; try apply Forall_inv in H2; lia.
Qed.

Lemma concat_string_spec (G : Prop) m fuel rc usable a b :
  rope_ok a -> rope_ok b -> rope_get_len a <= JS_STRING_LEN_MAX -> rope_get_len b <= JS_STRING_LEN_MAX ->
  balanced m (str_rope_strings a ++ str_rope_strings b) ->
  gspec G (JS_ConcatString (S fuel) rc usable a b) (concat_post G (rope_units a ++ rope_units b)) (concat_exn G (rope_get_len a + rope_get_len b)).
Proof.
  intros Ha Hb Hla Hlb Hbal. pose proof (new_rope_spec G m fuel a b Ha Hb Hbal) as Hnew.
  change JS_STRING_LEN_MAX with (2 ^ 30 - 1) in Hla, Hlb. destruct Hbal as (Hm & Hmin & Htot).
  pose proof (len_nonneg (rope_units a)) as Hna. rewrite <- rope_units_len in Hna by apply Ha.
  assert (forall p, rope_ok (RStr p) <-> string_ok p) as Hstr by (intros p; split; [intros [H _]; exact H|intros H; split; [exact H|change (0 <= 60); lia]]).
  destruct b as [p2|l2 w2 d2 bl br]; cbn [JS_ConcatString].
  - destruct (Z.eqb_spec (str_len p2) 0) as [E0|Hne].
    { apply gspec_ret. split; [exact Ha|]. intros _. cbn [rope_units]. rewrite (str_len_zero p2 E0), app_nil_r. reflexivity. }
    destruct (_ <=? JS_STRING_ROPE_SHORT_LEN); [|exact Hnew]. destruct a as [p1|l1 w1 d1 al ar].
    + destruct (_ <=? JS_STRING_ROPE_SHORT2_LEN); [|exact Hnew]. eapply gspec_bind; [apply concat_str_spec; [apply Hstr, Ha|apply Hstr, Hb|cbn [string_rope_get_len] in *; lia]|].
      intros p [Hp Hch]. apply gspec_ret. split; [apply Hstr, Hp|]. intros _. exact Hch.
    + destruct ar as [q|]; [|exact Hnew]. destruct (_ <=? JS_STRING_ROPE_SHORT_LEN); [|exact Hnew].
      destruct Ha as [(Hal & Hq & Hll & _ & _ & Hdl & _) Hda]. cbn [string_rope_get_len rope_depth rope_wf] in *.
      pose proof (rope_len_range _ _ _ string_len_range al Hal) as Hral. pose proof (string_len_range q Hq) as Hrq.
      eapply gspec_bind; [eapply gspec_mono with (E := concat_exn G (str_len q + str_len p2)); [apply (concat_str_spec G q 2 usable p2); [exact Hq|apply Hstr, Hb|lia]|intros x Hx; exact Hx|intros e He; eapply concat_exn_mono; [exact He|lia]]|].
      intros val [Hval Hch]. cbn [rope_strings] in Hmin. rewrite !Forall_app in Hmin. destruct Hmin as [[Hm1 Hm2] Hm3].
      destruct (merged_strings m q p2 val Hch Hm2 Hm3) as [Ht Hmv].
      assert (rope_get_len (RStr val) = str_len q + str_len p2) as Hlv by (cbn [string_rope_get_len]; unfold str_len; rewrite Hch, len_app; reflexivity).
      replace (l1 + str_len p2) with (rope_get_len al + rope_get_len (RStr val)) by lia.
      cbn [rope_units]. rewrite <- app_assoc, <- Hch. apply (new_rope_spec G m fuel al (RStr val)); [split; [exact Hal|lia]|apply Hstr, Hval|].
      split; [exact Hm|]. split; [apply Forall_app; split; assumption|]. rewrite total_app, Ht. cbn [rope_strings] in Htot. rewrite !total_app in Htot. cbn [rope_strings]. intros H13. specialize (Htot H13). lia.
  - destruct a as [p1|l1 w1 d1 al ar]; [|exact Hnew]. destruct (Z.eqb_spec (str_len p1) 0) as [E0|Hne].
    { apply gspec_ret. split; [exact Hb|]. intros _. cbn [rope_units]. rewrite (str_len_zero p1 E0). reflexivity. }
    destruct bl as [q|]; [|exact Hnew]. destruct (Z.leb_spec (str_len q) JS_STRING_ROPE_SHORT_LEN) as [Hsh|_]; [|exact Hnew].
    destruct Hb as [(Hq & Hbr & Hll & _ & _ & _ & Hdr) Hdb]. cbn [string_rope_get_len rope_depth rope_wf] in *.
    pose proof (rope_len_range _ _ _ string_len_range br Hbr) as Hrbr. pose proof (string_len_range q Hq) as Hrq.
    eapply gspec_bind; [eapply gspec_mono with (E := concat_exn G (str_len p1 + str_len q)); [apply (concat_str_spec G p1 rc usable q); [apply Hstr, Ha|exact Hq|unfold JS_STRING_ROPE_SHORT_LEN in Hsh; lia]|intros x Hx; exact Hx|intros e He; eapply concat_exn_mono; [exact He|lia]]|].
    intros val [Hval Hch]. cbn [rope_strings] in Hmin. rewrite !Forall_app in Hmin. destruct Hmin as [Hm1 [Hm2 Hm3]].
    destruct (merged_strings m p1 q val Hch Hm1 Hm2) as [Ht Hmv].
    assert (rope_get_len (RStr val) = str_len p1 + str_len q) as Hlv by (cbn [string_rope_get_len]; unfold str_len; rewrite Hch, len_app; reflexivity).
    replace (str_len p1 + l2) with (rope_get_len (RStr val) + rope_get_len br) by lia.
    cbn [rope_units]. rewrite app_assoc, <- Hch. apply (new_rope_spec G m fuel (RStr val) br); [apply Hstr, Hval|split; [exact Hbr|lia]|].
    split; [exact Hm|]. split; [apply Forall_app; split; assumption|]. rewrite total_app, Ht. cbn [rope_strings] in Htot. rewrite !total_app in Htot. cbn [rope_strings]. intros H13. specialize (Htot H13). lia.
Qed.
