(* ===== verification/StringTheorems.v ===== *)
(** The theorems on the dynamic buffers, UTF-8, the strings and the ropes, with a
    witness each. *)
From stdpp Require Import base tactics list numbers.
From Stdlib Require Import ZArith Lia.
From S2P Require Import Prelude Cutils Utf8 BigIntString JSString StringBuffers JSStringSpecs Rope RopeBalance RopeSpecs.

Open Scope Z_scope.

Section Theorems.
Context `{SC : SizeConfig} `{RM : RawMemory} `{MS : MallocSlack}.

(** C34: a sequence of appends to a [DynBuf] whose return codes nobody looks at, of at
    most a quarter of the range of [size_t] in all, stays inside the block, and
    [dbuf_error] at the end tells exactly whether a byte was lost: it is clear if and
    only if the buffer holds all the bytes, and when it is set the buffer holds fewer;
    nothing is lost when no allocation is refused.  Beyond that size a loss can go unreported, see
    [dbuf_overflow_unreported]. *)
Theorem dbuf_error_detects_loss ops :
  4 * len (all_bytes ops) <= SIZE_LIMIT ->
  forall o, exists s o', dbuf_run dbuf_init ops o = (Ok s, o') /\ dbuf_ok s /\
    (dbuf_error s = false <-> content s = all_bytes ops) /\ (dbuf_error s = true -> len (content s) < len (all_bytes ops)) /\ (grants o -> dbuf_error s = false).
Proof.
  intros Hl o. pose proof (len_nonneg (all_bytes ops)). pose proof (dbuf_run_spec (grants o) (len (all_bytes ops)) dbuf_init ops no_exn dbuf_init_ok Hl) as H'.
  unfold dbuf_init in H'. cbn [size allocated_size] in H'. specialize (H' ltac:(lia) ltac:(lia) o (fun x => x)). fold dbuf_init in H'.
  destruct (dbuf_run dbuf_init ops o) as [[s|e|] o']; [|contradiction..]. exists s, o'. split; [reflexivity|].
  destruct H' as [(H1 & _ & H2 & _ & H3 & _ & H4) _]. assert (Hlt : dbuf_error s = true -> len (content s) < len (all_bytes ops)) by (intros He; exact (H4 eq_refl He)). split; [exact H1|]. split; [|split; [exact Hlt|intros Hg; apply H2; [exact Hg|reflexivity]]].
  split; [exact H3|]. intros Hc. destruct (dbuf_error s); [|reflexivity]. specialize (Hlt eq_refl). rewrite Hc in Hlt. lia.
Qed.

(** An append that makes the size, or the next size of the block, leave [size_t] is
    dropped and leaves the error flag clear. *)
Theorem dbuf_overflow_unreported s data :
  dbuf_ok s -> len data < SIZE_LIMIT -> error s = false -> allocated_size s < size s + len data -> dbuf_overflows s (len data) ->
  exists s', dbuf_put s data = mret (-1, s') /\ dbuf_error s' = false /\ content s' = content s.
Proof.
  intros (H1 & H2 & H3) Hl He Hbig Ho. exists s. split; [|split; [exact He|reflexivity]]. pose proof (len_nonneg data). pose proof size_limit_big.
  unfold dbuf_put, dbuf_room, dbuf_claim. rewrite (wrap_size (allocated_size s - size s)), (proj2 (Z.ltb_lt _ (len data))) by lia.
  assert (Hw : forall x, SIZE_LIMIT <= x < 2 * SIZE_LIMIT -> wrap SIZE_BITS x = x - SIZE_LIMIT) by (intros x Hx; unfold wrap; fold SIZE_LIMIT; symmetry; apply (Z.mod_unique_pos _ _ 1); lia).
  destruct (Z.le_gt_cases SIZE_LIMIT (size s + len data)) as [Hov|Hov]; [rewrite (Hw (size s + len data)), (proj2 (Z.ltb_lt _ (len data))) by lia; reflexivity|].
  destruct Ho as [Ho|Ho]; [lia|]. rewrite (wrap_size (size s + len data)), (proj2 (Z.ltb_ge _ (len data))), (proj2 (Z.ltb_lt _ (size s + len data))), He by lia.
  pose proof (Z.div_mod (allocated_size s) 2 ltac:(lia)). pose proof (Z.mod_pos_bound (allocated_size s) 2 ltac:(lia)). rewrite (Hw (allocated_size s + allocated_size s / 2)), (proj2 (Z.ltb_lt _ (allocated_size s))) by lia. reflexivity.
Qed.

(** C35: the UTF-8 encoder and decoder are inverse to each other: decoding the
    encoding of a code point of at most 31 bits gives it back and leaves the rest,
    and what the decoder accepts is the encoding of its result, so that overlong
    sequences are rejected. *)
Theorem utf8_codec c rest max_len p :
  (0 <= c < 2 ^ 31 -> len (unicode_to_utf8 c) <= max_len -> unicode_from_utf8 (unicode_to_utf8 c ++ rest) max_len = mret (c, rest)) /\
  (Forall (fun b => 0 <= b < 256) p -> 1 <= max_len <= len p ->
   exists c' rest', unicode_from_utf8 p max_len = mret (c', rest') /\
     ((c' = -1 /\ rest' = p) \/ (0 <= c' < 2 ^ 31 /\ p = unicode_to_utf8 c' ++ rest'))).
Proof.
  split; [apply from_utf8_encode|]. intros Hp Hl. destruct (from_utf8_defined p max_len Hl) as [[c' rest'] E]. exists c', rest'.
  split; [exact E|]. apply (from_utf8_decode p max_len c' rest' alloc_all alloc_all Hp). rewrite E. reflexivity.
Qed.

(** C36: a string buffer refines a list of code units: whatever appends it is
    given, of less than 2^31 units in all, so that the lengths, which are [int]s, do not
    wrap around, and in whichever width it holds its units, the string it ends with has
    exactly the appended units, and the only exception besides a refused
    allocation is that they are more than the maximal length. *)
Theorem string_buffer_refines size wide ops :
  0 <= size < 2 ^ 30 -> Forall sb_op_ok ops -> len (sb_units ops) < 2 ^ 31 ->
  mspec (sb_build size wide ops) (fun p => string_ok p /\ chars p = sb_units ops)
    (fun e => e = err_too_long /\ JS_STRING_LEN_MAX < len (sb_units ops)).
Proof. apply sb_build_spec. Qed.

(** The bound is needed: a write that makes the length wrap around does not grow the
    block and goes past its end. *)
Theorem write8_wraps s units p :
  sb_state True s units -> sb_error s = None -> 2 ^ 31 <= sb_len s + len p < 2 ^ 32 -> string_buffer_write8 s p = undefined.
Proof.
  intros [Hok _] He Hw. unfold sb_ok in Hok. rewrite He in Hok. destruct Hok as (H1 & H2 & H3 & _). unfold string_buffer_write8. cbv zeta.
  rewrite swrap_pattern, (proj2 (Z.ltb_ge (sb_len s + len p) (2 ^ (32 - 1)))), (proj2 (Z.ltb_ge (sb_size s) _)), ret_bind by lia. cbn [Z.eqb negb].
  unfold sb_write, tab_blit. assert (len (wrap (char_bits (sb_wide s)) <$> p) = len p) as -> by (unfold len; rewrite length_fmap; reflexivity).
  rewrite (proj2 (Z.leb_gt _ (len (sb_chars s)))), andb_false_r by lia. reflexivity.
Qed.

(** C37: converting a string to UTF-8 (or CESU-8) and back gives the same code
    units, unpaired surrogates included. *)
Theorem string_utf8_roundtrip p cesu8 :
  string_ok p -> 3 * str_len p < 2 ^ 30 ->
  mspec (bytes ← JS_ToCStringLen2 p cesu8; JS_NewStringLen bytes) (fun q => string_ok q /\ chars q = chars p) no_exn.
Proof.
  intros Hp Hl. eapply mspec_bind; [apply (to_cstring_spec p cesu8 _ Hp)|]. intros bytes ->.
  apply new_string_utf16; [|exact Hl]. destruct Hp as [Hw _]. exact (width_ok_units _ _ Hw).
Qed.

(** [JS_NewStringLen] accepts every byte sequence, ill-formed UTF-8
    included: it ends, reads inside the input and makes a well-formed string of no
    more units than there are bytes. *)
Theorem new_string_total_safe buf :
  Forall (fun b => 0 <= b < 256) buf -> len buf < 2 ^ 30 ->
  mspec (JS_NewStringLen buf) (fun p => string_ok p /\ str_len p <= len buf) no_exn.
Proof. apply new_string_total. Qed.

(** Comparison, equality and concatenation of strings depend only on the
    code units, not on the width in which they are stored. *)
Theorem string_ops_width_blind p1 p2 rc usable :
  string_ok p1 -> string_ok p2 -> str_len p1 + str_len p2 < 2 ^ 31 ->
  (exists r, js_string_compare p1 p2 = mret r /\ Z.sgn r = units_cmp (chars p1) (chars p2)) /\
  js_string_eq p1 p2 = mret (bool_decide (chars p1 = chars p2)) /\
  mspec (JS_ConcatString2 p1 rc usable p2) (fun p => string_ok p /\ chars p = chars p1 ++ chars p2)
    (fun e => e = err_too_long /\ JS_STRING_LEN_MAX < str_len p1 + str_len p2).
Proof. intros H1 H2 Hl. split; [apply string_compare_spec|]. split; [apply string_eq_spec|apply concat2_spec; assumption]. Qed.

(** C38: comparing ropes piece by piece is the lexicographic order of the units
    they stand for; the iterators' stacks do not overflow and the loop ends. *)
Theorem rope_compare_correct v1 v2 eq_only :
  rope_ok v1 -> rope_ok v2 ->
  exists r, js_string_rope_compare v1 v2 eq_only = mret r /\
    (r = 0 <-> rope_units v1 = rope_units v2) /\ (eq_only = false -> Z.sgn r = units_cmp (rope_units v1) (rope_units v2)).
Proof. apply rope_compare_spec. Qed.

(** Linearizing a rope gives a value with the same units, the rope that is
    updated in place keeps its units and stays well formed, and only a refused
    allocation throws. *)
Theorem linearize_correct v shared :
  rope_ok v -> (forall p, v <> RStr p) ->
  mspec (js_linearize_string_rope v shared)
    (fun r => rope_ok (fst r) /\ rope_ok (snd r) /\ rope_units (fst r) = rope_units v /\ rope_units (snd r) = rope_units v) no_exn.
Proof.
  intros Hv Hn. apply mspec_of_gspec. intros G. eapply gspec_mono with (E := oom G); [apply (linearize_gspec G v shared Hv Hn)|auto|].
  intros e He. left. exact He.
Qed.

(** C39: [JS_ConcatString] on well formed strings and ropes of at most the maximal length
    whose strings together are [balanced], with every allocation granted: the result
    stands for the concatenated units and is well formed, in particular not too deep,
    or the length limit is exceeded and it throws.  One level of rebalancing is enough,
    for every fuel.  Without the two conditions the result can be wrong or missing, see
    [rebalance_ignores_failure] and [rebalance_diverges]. *)
Theorem concat_string_correct m fuel rc usable a b o :
  rope_ok a -> rope_ok b -> rope_get_len a <= JS_STRING_LEN_MAX -> rope_get_len b <= JS_STRING_LEN_MAX ->
  balanced m (rope_strings str_len a ++ rope_strings str_len b) -> grants o ->
  match fst (JS_ConcatString (S fuel) rc usable a b o) with
  | Ok r => rope_ok r /\ rope_units r = rope_units a ++ rope_units b
  | Throw e => e = err_too_long /\ JS_STRING_LEN_MAX < len (rope_units a ++ rope_units b)
  | Undefined => False
  end.
Proof.
  intros Ha Hb Hla Hlb Hbal Ho. pose proof (concat_string_spec True m fuel rc usable a b Ha Hb Hla Hlb Hbal o (fun _ => Ho)) as H.
  destruct (JS_ConcatString (S fuel) rc usable a b o) as [[r|e|] o']; cbn [fst]; [| |contradiction].
  - destruct H as [[H1 H2] _]. auto.
  - destruct H as [[_ H]|[H1 H2]]; [contradiction|]. rewrite len_app, <- !rope_units_len by (apply Ha || apply Hb). auto.
Qed.

(** C40: when the strings of a rope are [balanced], rebalancing ends, whatever the fuel,
    with a well formed rope of a depth of at most 59 and no more units.  With every
    allocation granted it has the same non-empty strings in the same order; when
    allocations are refused it may lose strings ([rebalance_ignores_failure]), but
    still stays inside the bucket array.  Strings that are not [balanced] can make it
    recurse without end ([rebalance_diverges]). *)
Theorem rebalance_correct m fuel v :
  str_rope_wf v -> rope_get_len v <= JS_STRING_LEN_MAX -> balanced m (rope_strings str_len v) ->
  (forall o, grants o -> exists r o', rebalance_string_rope fuel v o = (Ok r, o') /\ str_rope_wf r /\ rope_depth r <= 59 /\
     rope_strings str_len r = rope_strings str_len v /\ rope_units r = rope_units v) /\
  mspec (rebalance_string_rope fuel v) (fun r => str_rope_wf r /\ rope_depth r <= 59 /\ rope_get_len r <= rope_get_len v) no_exn.
Proof.
  intros Hv Hl Hbal. split.
  - intros o Ho. pose proof (rebalance_gspec True m fuel v Hv Hl Hbal o (fun _ => Ho)) as H.
    destruct (rebalance_string_rope fuel v o) as [[r|e|] o']; [|destruct H as [_ []]; exact I|contradiction].
    exists r, o'. destruct H as [(H1 & H2 & _ & H4) _]. repeat (split; [auto; fail|]). rewrite !rope_units_strings, (H4 I). reflexivity.
  - apply mspec_of_gspec. intros G. eapply gspec_mono with (E := oom G); [apply (rebalance_gspec G m fuel v Hv Hl Hbal)|intros r (H1 & H2 & H3 & _); auto|].
    intros e He. left. exact He.
Qed.

(** Without that condition rebalancing may not end: strings of the lengths
    [loop_lengths] (1, 2, 1, 3, 1, 5, ..., 1, 3524578), joined one after the other,
    make a rope whose rebalancing asks for its own rebalancing, to any depth of
    recursion. *)
Theorem rebalance_diverges ps fuel :
  str_len <$> ps = loop_lengths ->
  fst (rebalance_string_rope fuel (left_nested str_len is_wide_char empty_string ps) alloc_all) = Undefined.
Proof.
  intros Hps. apply loop_rebalance; [reflexivity|]. unfold loop_rope. rewrite <- Hps. apply nested_vsim. reflexivity.
Qed.

End Theorems.

(** [js_rebalancee_string_rope_rec] does not look at the return codes of its
    recursive calls: when the one allocation that joins two strings is refused,
    the rebalancing of their rope returns the empty string instead of an
    exception. *)
Theorem rebalance_ignores_failure c d fuel :
  let leaf x := RStr (MkString false [x]) in
  fst (rebalance_string_rope fuel (RRope 2 false 1 (leaf c) (leaf d)) alloc_none) = Ok (RStr empty_string).
Proof. destruct fuel; reflexivity. Qed.

(** ** Witnesses *)

#[local] Instance size32 : SizeConfig := {| SIZE_BITS := 32; size_bits_cases := or_introl eq_refl |}.
#[local] Instance stale_bytes : RawMemory := {| raw_byte n := (Z.of_nat n + 7) mod 256 |}.

Lemma slack7_bounds (n : Z) : 0 <= (fun _ : Z => 7) n < 2 ^ 29.
Proof. cbn. lia. Qed.

#[local] Instance slack7 : MallocSlack := {| slack _ := 7; slack_bounds := slack7_bounds |}.

(** The second request is refused: the first byte is kept, the other four are lost. *)
Definition refuse_second : allocator := fun n => negb (Nat.eqb n 1).

Lemma dbuf_witness :
  exists s o', dbuf_run dbuf_init [OpPutc 255; OpPutU32 0x01020304] refuse_second = (Ok s, o') /\ dbuf_ok s /\
    (dbuf_error s = false <-> content s = [255; 4; 3; 2; 1]) /\ (dbuf_error s = true -> len (content s) < 5) /\ (grants refuse_second -> dbuf_error s = false).
Proof. apply (dbuf_error_detects_loss [OpPutc 255; OpPutU32 0x01020304]). vm_compute. discriminate. Defined.

Example dbuf_loss : (let '(r, _) := dbuf_run dbuf_init [OpPutc 255; OpPutU32 0x01020304] refuse_second in match r with Ok s => Some (dbuf_error s, content s) | _ => None end) = Some (true, [255]).
Proof. vm_compute. reflexivity. Qed.

Lemma utf8_codec_witness :
  unicode_from_utf8 (unicode_to_utf8 0x20ac ++ [0x41]) 4 = mret (0x20ac, [0x41]) /\
  (exists c' rest', unicode_from_utf8 [0xe2; 0x82; 0xac; 0x41] 4 = mret (c', rest') /\
     ((c' = -1 /\ rest' = [0xe2; 0x82; 0xac; 0x41]) \/ (0 <= c' < 2 ^ 31 /\ [0xe2; 0x82; 0xac; 0x41] = unicode_to_utf8 c' ++ rest'))).
Proof.
  destruct (utf8_codec 0x20ac [0x41] 4 [0xe2; 0x82; 0xac; 0x41]) as [H1 H2]. split.
  - apply H1; [lia|vm_compute; discriminate].
  - apply H2; [repeat constructor; lia|split; vm_compute; discriminate].
Defined.

Lemma string_buffer_witness :
  mspec (sb_build 1 false [SbPutc8 0x41; SbPutc 0x1f600; SbFill 0xe9 2])
    (fun p => string_ok p /\ chars p = [0x41; 0xd83d; 0xde00; 0xe9; 0xe9])
    (fun e => e = err_too_long /\ JS_STRING_LEN_MAX < 5).
Proof. apply (string_buffer_refines 1 false [SbPutc8 0x41; SbPutc 0x1f600; SbFill 0xe9 2]); [lia|repeat constructor; vm_compute; intuition congruence|vm_compute; reflexivity]. Defined.

(** A wide string with a lone surrogate, and a narrow one. *)
Definition wide_sample : JSString := MkString true [0x41; 0xd83d; 0x20ac].
Definition narrow_sample : JSString := MkString false [0x41; 0xe9].

Lemma wide_sample_ok : string_ok wide_sample.
Proof. split; [repeat constructor; lia|vm_compute; reflexivity]. Qed.

Lemma narrow_sample_ok : string_ok narrow_sample.
Proof. split; [repeat constructor; lia|vm_compute; reflexivity]. Qed.

Lemma string_utf8_witness :
  mspec (bytes ← JS_ToCStringLen2 wide_sample false; JS_NewStringLen bytes) (fun q => string_ok q /\ chars q = chars wide_sample) no_exn.
Proof. apply string_utf8_roundtrip; [exact wide_sample_ok|vm_compute; reflexivity]. Defined.

Lemma new_string_witness : mspec (JS_NewStringLen [0x41; 0xe2; 0x82; 0xff]) (fun p => string_ok p /\ str_len p <= 4) no_exn.
Proof. apply (new_string_total_safe [0x41; 0xe2; 0x82; 0xff]); [repeat constructor; lia|vm_compute; reflexivity]. Defined.

Lemma string_ops_witness :
  (exists r, js_string_compare narrow_sample wide_sample = mret r /\ Z.sgn r = -1) /\
  js_string_eq narrow_sample wide_sample = mret (bool_decide (chars narrow_sample = chars wide_sample)) /\
  mspec (JS_ConcatString2 narrow_sample 1 2 wide_sample) (fun p => string_ok p /\ chars p = chars narrow_sample ++ chars wide_sample)
    (fun e => e = err_too_long /\ JS_STRING_LEN_MAX < 5).
Proof. apply (string_ops_width_blind narrow_sample wide_sample 1 2); [exact narrow_sample_ok|exact wide_sample_ok|vm_compute; reflexivity]. Defined.

Definition rope_sample : JSRope := RRope 5 true 1 (RStr narrow_sample) (RStr wide_sample).

Lemma rope_sample_ok : rope_ok rope_sample.
Proof.
  split; [|vm_compute; discriminate]. cbn [rope_wf rope_sample]. split; [exact narrow_sample_ok|]. split; [exact wide_sample_ok|].
  repeat split; vm_compute; congruence.
Qed.

Lemma rope_compare_witness :
  exists r, js_string_rope_compare rope_sample (RStr narrow_sample) false = mret r /\
    (r = 0 <-> rope_units rope_sample = chars narrow_sample) /\ (false = false -> Z.sgn r = 1).
Proof.
  apply (rope_compare_correct rope_sample (RStr narrow_sample) false); [exact rope_sample_ok|].
  split; [exact narrow_sample_ok|vm_compute; discriminate].
Defined.

Lemma linearize_witness :
  mspec (js_linearize_string_rope rope_sample true)
    (fun r => rope_ok (fst r) /\ rope_ok (snd r) /\ rope_units (fst r) = [0x41; 0xe9; 0x41; 0xd83d; 0x20ac] /\ rope_units (snd r) = [0x41; 0xe9; 0x41; 0xd83d; 0x20ac]) no_exn.
Proof. apply (linearize_correct rope_sample true rope_sample_ok). intros p. discriminate. Defined.

(** [n] strings of two units joined one after the other: a rope of depth [n - 1]. *)
Definition deep_sample (n : nat) : JSRope := left_nested str_len is_wide_char empty_string (replicate n narrow_sample).

Lemma deep_sample_wf n : (0 < n <= 1000)%nat -> str_rope_wf (deep_sample n).
Proof.
  intros Hn. destruct n as [|n]; [lia|]. unfold deep_sample, left_nested. cbn [replicate]. assert (Ht : total str_len (replicate n narrow_sample) = 2 * Z.of_nat n) by (clear; induction n as [|n IH]; [reflexivity|]; cbn [replicate total]; rewrite IH; change (str_len narrow_sample) with 2; lia).
  apply nested_wf; [exact narrow_sample_ok|apply Forall_replicate, narrow_sample_ok|]. rewrite Ht. change (2 + 2 * Z.of_nat n <= 2 ^ 30 - 1). lia.
Qed.

Lemma deep_samples : rope_depth (deep_sample 71) = 70 /\ rope_depth (deep_sample 61) = 60 /\ rope_strings str_len (deep_sample 71) = replicate 71 narrow_sample /\ rope_strings str_len (deep_sample 61) = replicate 61 narrow_sample.
Proof. vm_compute. auto. Qed.

Lemma deep_sample_balanced n : (n <= 1000)%nat -> balanced 0 (replicate n narrow_sample ++ [narrow_sample; wide_sample]).
Proof.
  intros Hn. split; [lia|]. split; [apply Forall_app; split; [apply Forall_replicate; vm_compute; discriminate|repeat constructor; vm_compute; discriminate]|]. intros _.
  assert (Ht : total str_len (replicate n narrow_sample ++ [narrow_sample; wide_sample]) = 2 * Z.of_nat n + 5) by (clear; induction n as [|n IH]; [reflexivity|]; cbn [replicate app total]; rewrite IH; change (str_len narrow_sample) with 2; lia). rewrite Ht. change (2 * Z.of_nat n + 5 < 2178309). lia.
Qed.

(** A rope of the maximal depth and another one: the result is rebalanced. *)
Lemma concat_string_witness :
  match fst (JS_ConcatString 1 1 0 (deep_sample 61) rope_sample alloc_all) with
  | Ok r => rope_ok r /\ rope_units r = rope_units (deep_sample 61) ++ rope_units rope_sample
  | Throw e => e = err_too_long /\ JS_STRING_LEN_MAX < len (rope_units (deep_sample 61) ++ rope_units rope_sample)
  | Undefined => False
  end.
Proof.
  apply (concat_string_correct 0 0 1 0 (deep_sample 61) rope_sample alloc_all);
    [split; [apply deep_sample_wf; lia|rewrite (proj1 (proj2 deep_samples)); vm_compute; discriminate]|exact rope_sample_ok|vm_compute; discriminate|vm_compute; discriminate| |intros n; reflexivity].
  rewrite (proj2 (proj2 (proj2 deep_samples))). apply deep_sample_balanced. lia.
Defined.

(** A rope deeper than the limit. *)
Lemma rebalance_witness :
  rope_depth (deep_sample 71) = 70 /\
  (forall o, grants o -> exists r o', rebalance_string_rope 0 (deep_sample 71) o = (Ok r, o') /\ str_rope_wf r /\ rope_depth r <= 59 /\
     rope_strings str_len r = rope_strings str_len (deep_sample 71) /\ rope_units r = rope_units (deep_sample 71)) /\
  mspec (rebalance_string_rope 0 (deep_sample 71)) (fun r => str_rope_wf r /\ rope_depth r <= 59 /\ rope_get_len r <= rope_get_len (deep_sample 71)) no_exn.
Proof.
  split; [exact (proj1 deep_samples)|]. apply (rebalance_correct 0 0 (deep_sample 71)); [apply deep_sample_wf; lia|vm_compute; discriminate|].
  destruct (deep_sample_balanced 71 ltac:(lia)) as (H1 & H2 & H3). rewrite (proj1 (proj2 (proj2 deep_samples))). split; [exact H1|]. split; [apply Forall_app in H2; exact (proj1 H2)|]. intros H. vm_compute. reflexivity.
Defined.

(** Strings of the lengths of the loop, made of one letter. *)
Definition loop_strings : list JSString := (fun n => MkString false (replicate (Z.to_nat n) 97)) <$> loop_lengths.

Lemma loop_strings_lengths : str_len <$> loop_strings = loop_lengths.
Proof.
  unfold loop_strings. rewrite <- list_fmap_compose. assert (Forall (fun n => 0 <= n) loop_lengths) as H.
  { assert (forallb (Z.leb 0) loop_lengths = true) as E by (vm_compute; reflexivity). rewrite forallb_forall in E.
    apply List.Forall_forall. intros n Hn. apply Z.leb_le, E, Hn. }
  induction H as [|n l Hn Hl IH]; [reflexivity|]. cbn [fmap list_fmap]. rewrite IH. f_equal. unfold str_len. cbn [compose chars]. rewrite len_replicate. lia.
Qed.

Lemma rebalance_diverges_witness :
  fst (rebalance_string_rope 100 (left_nested str_len is_wide_char empty_string loop_strings) alloc_all) = Undefined.
Proof. exact (rebalance_diverges loop_strings 100 loop_strings_lengths). Defined.
