(* ===== verification/GC.v ===== *)
(** The cycle collector (quickjs.c): the headers of the GC objects, the references
    they hold, and the passes of [JS_RunGCInternal] that find the objects to free:
    definitions.

    An object is named by its address, a [positive].  The intrusive lists of
    [list.h] are lists of addresses; taking an object off a list it is not on, and
    following the link of an object that is not on the list, are [Undefined].  A
    reference count is an [int]; the collector only restores counts that existed
    before, so no overflow is possible. *)
From Stdlib Require Import ZArith Lia.
From stdpp Require Import base tactics list gmap numbers.
From S2P Require Import Prelude.

Open Scope Z_scope.

Notation ptr := positive.

(** ** The objects and their references *)

(** A value as the collector sees it: a pointer to a GC object (object, bytecode
    or module), or anything else. *)
Inductive gc_value : Type :=
| VGC (p : ptr)
| VOther.

Inductive JSProperty : Type :=
| PROP_NORMAL (v : gc_value)
| PROP_GETSET (getter setter : option ptr)
| PROP_VARREF (var_ref : ptr)
| PROP_AUTOINIT (realm : ptr).

(** What each type of GC object holds.  A property comes with whether its shape
    entry is in use ([prs->atom != JS_ATOM_NULL]); [class_refs] are the values that
    the [gc_mark] function of the class visits, if the class is not the plain
    object class and has one. *)
Inductive gc_data : Type :=
| GC_JS_OBJECT (shape : ptr) (props : list (bool * JSProperty)) (class_refs : list gc_value)
| GC_FUNCTION_BYTECODE (cpool : list gc_value) (realm : option ptr)
| GC_SHAPE (proto : option ptr)
| GC_VAR_REF (is_detached : bool) (pvalue : gc_value) (async_func : option ptr)
| GC_ASYNC_FUNCTION (is_completed : bool) (cur_func this_val : gc_value) (stack : option (list gc_value)) (resolve reject : gc_value)
| GC_JS_CONTEXT (loaded_modules : list ptr) (values : list gc_value) (array_shape : option ptr)
| GC_MODULE (attributes : list gc_value) (local_exports : list (option ptr)) (values : list gc_value).

Record gc_object : Type := MkGC { ref_count : Z; mark : bool; gc_data_of : gc_data }.

Record JSRuntime : Type := MkRT {
  heap : gmap ptr gc_object;
  gc_obj_list : list ptr;
  tmp_obj_list : list ptr
}.

(** The headers that [mark_func] is called on, in order. *)
Definition JS_MarkValue (v : gc_value) : list ptr := match v with VGC p => [p] | VOther => [] end.

Definition mark_opt (p : option ptr) : list ptr := match p with Some p => [p] | None => [] end.

Definition mark_property (pr : bool * JSProperty) : list ptr :=
  if fst pr then
    match snd pr with
    | PROP_GETSET getter setter => mark_opt getter ++ mark_opt setter
    | PROP_VARREF var_ref => [var_ref]
    | PROP_AUTOINIT realm => [realm]
    | PROP_NORMAL v => JS_MarkValue v
    end
  else [].

Definition JS_MarkContext (loaded_modules : list ptr) (values : list gc_value) (array_shape : option ptr) : list ptr :=
  loaded_modules ++ (values ≫= JS_MarkValue) ++ mark_opt array_shape.

Definition js_mark_module_def (attributes : list gc_value) (local_exports : list (option ptr)) (values : list gc_value) : list ptr :=
  (attributes ≫= JS_MarkValue) ++ (local_exports ≫= mark_opt) ++ (values ≫= JS_MarkValue).

Definition children (d : gc_data) : list ptr :=
  match d with
  | GC_JS_OBJECT shape props class_refs => shape :: (props ≫= mark_property) ++ (class_refs ≫= JS_MarkValue)
  | GC_FUNCTION_BYTECODE cpool realm => (cpool ≫= JS_MarkValue) ++ mark_opt realm
  | GC_VAR_REF is_detached pvalue async_func => if is_detached then JS_MarkValue pvalue else mark_opt async_func
  | GC_ASYNC_FUNCTION is_completed cur_func this_val stack resolve reject =>
      (if is_completed then []
       else JS_MarkValue cur_func ++ JS_MarkValue this_val ++ match stack with Some vs => vs ≫= JS_MarkValue | None => [] end) ++
      JS_MarkValue resolve ++ JS_MarkValue reject
  | GC_SHAPE proto => mark_opt proto
  | GC_JS_CONTEXT loaded_modules values array_shape => JS_MarkContext loaded_modules values array_shape
  | GC_MODULE attributes local_exports values => js_mark_module_def attributes local_exports values
  end.

(** ** Headers and lists *)

Definition gc_get (s : JSRuntime) (p : ptr) : M gc_object :=
  match heap s !! p with Some x => mret x | None => undefined end.

Definition set_ref_count (s : JSRuntime) (p : ptr) (n : Z) : M JSRuntime :=
  x ← gc_get s p; mret (MkRT (<[p := MkGC n (mark x) (gc_data_of x)]> (heap s)) (gc_obj_list s) (tmp_obj_list s)).

Definition set_mark (s : JSRuntime) (p : ptr) (b : bool) : M JSRuntime :=
  x ← gc_get s p; mret (MkRT (<[p := MkGC (ref_count x) b (gc_data_of x)]> (heap s)) (gc_obj_list s) (tmp_obj_list s)).

Definition del (p : ptr) (l : list ptr) : list ptr := filter (.≠ p) l.

(** [list_del] takes the object off the list it is on. *)
Definition list_del (s : JSRuntime) (p : ptr) : M JSRuntime :=
  if bool_decide (p ∈ gc_obj_list s) then mret (MkRT (heap s) (del p (gc_obj_list s)) (tmp_obj_list s))
  else if bool_decide (p ∈ tmp_obj_list s) then mret (MkRT (heap s) (gc_obj_list s) (del p (tmp_obj_list s)))
  else undefined.

Definition add_tail_tmp (s : JSRuntime) (p : ptr) : JSRuntime := MkRT (heap s) (gc_obj_list s) (tmp_obj_list s ++ [p]).
Definition add_tail_gc (s : JSRuntime) (p : ptr) : JSRuntime := MkRT (heap s) (gc_obj_list s ++ [p]) (tmp_obj_list s).

(** [el->next], [None] for the list head. *)
Fixpoint list_next (l : list ptr) (p : ptr) : M (option ptr) :=
  match l with
  | [] => undefined
  | x :: l => if bool_decide (x = p) then mret (head l) else list_next l p
  end.

Definition add_gc_object (s : JSRuntime) (p : ptr) (n : Z) (d : gc_data) : JSRuntime :=
  MkRT (<[p := MkGC n false d]> (heap s)) (gc_obj_list s ++ [p]) (tmp_obj_list s).

(** ** The passes *)

Fixpoint mark_list (f : JSRuntime -> ptr -> M JSRuntime) (s : JSRuntime) (cs : list ptr) : M JSRuntime :=
  match cs with
  | [] => mret s
  | c :: cs => s ← f s c; mark_list f s cs
  end.

Definition mark_children (f : JSRuntime -> ptr -> M JSRuntime) (s : JSRuntime) (p : ptr) : M JSRuntime :=
  x ← gc_get s p; mark_list f s (children (gc_data_of x)).

Definition gc_decref_child (s : JSRuntime) (p : ptr) : M JSRuntime :=
  x ← gc_get s p;
  if negb (0 <? ref_count x) then undefined
  else
    s ← set_ref_count s p (ref_count x - 1);
    if (ref_count x - 1 =? 0) && mark x then
      s ← list_del s p; mret (add_tail_tmp s p)
    else mret s.

(** The body of the loop of [gc_decref]. *)
Definition gc_decref_one (s : JSRuntime) (p : ptr) : M JSRuntime :=
  x ← gc_get s p;
  if mark x then undefined
  else
    s ← mark_children gc_decref_child s p;
    s ← set_mark s p true;
    x ← gc_get s p;
    if ref_count x =? 0 then s ← list_del s p; mret (add_tail_tmp s p) else mret s.

(** [list_for_each_safe]: [el1] is read before the body of [el] runs. *)
Fixpoint for_each_safe (fuel : nat) (body : JSRuntime -> ptr -> M JSRuntime) (s : JSRuntime) (el : option ptr) : M JSRuntime :=
  match el with
  | None => mret s
  | Some p =>
      match fuel with
      | O => undefined
      | S fuel => el1 ← list_next (gc_obj_list s) p; s ← body s p; for_each_safe fuel body s el1
      end
  end.

Definition gc_decref (s : JSRuntime) : M JSRuntime :=
  let s := MkRT (heap s) (gc_obj_list s) [] in
  for_each_safe (length (gc_obj_list s)) gc_decref_one s (head (gc_obj_list s)).

Definition gc_scan_incref_child (s : JSRuntime) (p : ptr) : M JSRuntime :=
  x ← gc_get s p;
  s ← set_ref_count s p (ref_count x + 1);
  if ref_count x + 1 =? 1 then
    s ← list_del s p; set_mark (add_tail_gc s p) p false
  else mret s.

Definition gc_scan_incref_child2 (s : JSRuntime) (p : ptr) : M JSRuntime :=
  x ← gc_get s p; set_ref_count s p (ref_count x + 1).

Definition gc_scan_one (s : JSRuntime) (p : ptr) : M JSRuntime :=
  x ← gc_get s p;
  if negb (0 <? ref_count x) then undefined
  else s ← set_mark s p false; mark_children gc_scan_incref_child s p.

(** [list_for_each]: the link is followed after the body, so objects added at the
    end are visited too. *)
Fixpoint for_each (fuel : nat) (lst : JSRuntime -> list ptr) (body : JSRuntime -> ptr -> M JSRuntime) (s : JSRuntime) (el : option ptr) : M JSRuntime :=
  match el with
  | None => mret s
  | Some p =>
      match fuel with
      | O => undefined
      | S fuel => s ← body s p; el ← list_next (lst s) p; for_each fuel lst body s el
      end
  end.

Definition gc_scan (s : JSRuntime) : M JSRuntime :=
  let n := (length (gc_obj_list s) + length (tmp_obj_list s))%nat in
  s ← for_each n gc_obj_list gc_scan_one s (head (gc_obj_list s));
  for_each n tmp_obj_list (mark_children gc_scan_incref_child2) s (head (tmp_obj_list s)).

(** The part of [JS_RunGCInternal] that decides which objects to free. *)
Definition gc_mark (s : JSRuntime) : M JSRuntime := s ← gc_decref s; gc_scan s.
