(* ===== verification/GCTheorems.v ===== *)
(** The cycle collector finds exactly the objects that are not reachable from an
    object with a reference from outside, and restores the reference counts.

    The theorem on the cycle collector, with its witness. *)
From Stdlib Require Import ZArith Lia.
From S2P Require Import Prelude GC.
From stdpp Require Import base tactics gmap numbers list.

Open Scope Z_scope.

(** ** Counting references *)

Fixpoint occ (o : ptr) (l : list ptr) : Z :=
  match l with [] => 0 | c :: l => (if decide (c = o) then 1 else 0) + occ o l end.

Lemma occ_app o a b : occ o (a ++ b) = occ o a + occ o b.
Proof. induction a as [|c a IH]; cbn [app occ]; lia. Qed.

Lemma occ_nonneg o l : 0 <= occ o l.
Proof. induction l as [|c l IH]; cbn [occ]; [lia|]. destruct (decide _); lia. Qed.

Lemma occ_pos o l : o ∈ l -> 0 < occ o l.
Proof. induction 1 as [o l|o c l H IH]; cbn [occ]; pose proof (occ_nonneg o l); destruct (decide _); try congruence; lia. Qed.

Lemma occ_perm o a b : a ≡ₚ b -> occ o a = occ o b.
Proof. induction 1; cbn [occ]; lia. Qed.

Lemma occ_snoc o l c : occ o (l ++ [c]) = occ o l + if decide (c = o) then 1 else 0.
Proof. rewrite occ_app. cbn [occ]. lia. Qed.

(** ** Lists without duplicates *)

Lemma filter_ext_in (P Q : ptr -> Prop) `{!forall x, Decision (P x)} `{!forall x, Decision (Q x)} (l : list ptr) :
  (forall x, x ∈ l -> P x <-> Q x) -> filter P l = filter Q l.
Proof.
  induction l as [|x l IH]; intros Hpq; [reflexivity|]. rewrite !filter_cons. destruct (Hpq x ltac:(set_solver)) as [H1 H2].
  rewrite IH by (intros y Hy; apply Hpq; set_solver). destruct (decide (P x)), (decide (Q x)); naive_solver.
Qed.

Lemma del_notin p (l : list ptr) : p ∉ l -> del p l = l.
Proof.
  intros H. unfold del. induction l as [|x l IH]; [reflexivity|]. apply not_elem_of_cons in H as [Hx Hl].
  rewrite filter_cons, decide_True by congruence. rewrite IH by exact Hl. reflexivity.
Qed.

Lemma del_filter (P Q : ptr -> Prop) `{!forall x, Decision (P x)} `{!forall x, Decision (Q x)} p (l r : list ptr) :
  p ∉ r -> (forall x, Q x <-> P x /\ x <> p) -> del p (filter P l ++ r) = filter Q l ++ r.
Proof.
  intros Hr HQ. unfold del. rewrite filter_app. fold (del p r). rewrite (del_notin p r Hr). f_equal.
  rewrite list_filter_filter. apply list_filter_iff. intros x. rewrite HQ. tauto.
Qed.

(** An element that enters a filtered list. *)
Lemma filter_enter (P Q : ptr -> Prop) `{!forall x, Decision (P x)} `{!forall x, Decision (Q x)} p (l : list ptr) :
  NoDup l -> p ∈ l -> ~ P p -> (forall x, Q x <-> P x \/ x = p) -> filter P l ++ [p] ≡ₚ filter Q l.
Proof.
  intros Hnd Hp HP HQ. apply NoDup_Permutation.
  - apply NoDup_app. split; [apply NoDup_filter, Hnd|]. split; [|apply NoDup_singleton]. intros x Hx ->%list_elem_of_singleton.
    apply list_elem_of_filter in Hx as [? _]. contradiction.
  - apply NoDup_filter, Hnd.
  - intros x. rewrite elem_of_app, !list_elem_of_filter, list_elem_of_singleton, HQ. naive_solver.
Qed.

Lemma list_next_app (l : list ptr) p r : p ∉ l -> list_next (l ++ p :: r) p = mret (head r).
Proof.
  induction l as [|x l IH]; intros Hp; cbn [app list_next].
  - rewrite bool_decide_true by reflexivity. reflexivity.
  - apply not_elem_of_cons in Hp as [Hx Hl]. rewrite bool_decide_false by congruence. apply IH, Hl.
Qed.

Section Collector.
Context (h0 : gmap ptr gc_object) (L : list ptr).

Definition rc0 (o : ptr) : Z := match h0 !! o with Some x => ref_count x | None => 0 end.
Definition kids (p : ptr) : list ptr := match h0 !! p with Some x => children (gc_data_of x) | None => [] end.
Definition refs (l : list ptr) : list ptr := l ≫= kids.

(** The references to an object that no GC object holds. *)
Definition ext (o : ptr) : Z := rc0 o - occ o (refs L).

(** The heap before a collection: the list holds every object once, references
    lead to objects, and every reference is counted. *)
Record gc_wf : Prop := {
  wf_nodup : NoDup L;
  wf_list o : o ∈ L <-> is_Some (h0 !! o);
  wf_closed p c : p ∈ L -> c ∈ kids p -> c ∈ L;
  wf_counts o : 0 <= ext o;
  wf_marks o x : h0 !! o = Some x -> mark x = false
}.

(** What must be kept. *)
Inductive reachable : ptr -> Prop :=
| reach_root o : o ∈ L -> 0 < ext o -> reachable o
| reach_step p c : reachable p -> c ∈ kids p -> reachable c.

Context (WF : gc_wf).

Lemma refs_app a b : refs (a ++ b) = refs a ++ refs b.
Proof. unfold refs. apply bind_app. Qed.

Lemma refs_in c l : c ∈ refs l <-> exists p, p ∈ l /\ c ∈ kids p.
Proof. unfold refs. rewrite list_elem_of_bind. naive_solver. Qed.

Lemma refs_L c : c ∈ refs L -> c ∈ L.
Proof. intros (p & Hp & Hc)%refs_in. exact (wf_closed WF p c Hp Hc). Qed.

Lemma refs_perm a b : a ≡ₚ b -> refs a ≡ₚ refs b.
Proof. intros H. unfold refs. rewrite H. reflexivity. Qed.

Lemma reachable_L o : reachable o -> o ∈ L.
Proof. induction 1 as [o H _|p c _ IH Hc]; [exact H|exact (wf_closed WF p c IH Hc)]. Qed.

(** The heap with other counts and marks. *)
Definition heap_is (h : gmap ptr gc_object) (rc : ptr -> Z) (mk : ptr -> bool) : Prop :=
  forall o, h !! o = (fun x => MkGC (rc o) (mk o) (gc_data_of x)) <$> h0 !! o.

Lemma heap_is_ext h rc mk rc' mk' :
  heap_is h rc mk -> (forall o, o ∈ L -> rc' o = rc o /\ mk' o = mk o) -> heap_is h rc' mk'.
Proof.
  intros H He o. rewrite H. destruct (h0 !! o) eqn:E; [|reflexivity]. cbn. destruct (He o) as [-> ->]; [apply (wf_list WF); eauto|reflexivity].
Qed.

Lemma gc_get_is s rc mk p :
  heap_is (heap s) rc mk -> p ∈ L -> exists x, gc_get s p = mret x /\ ref_count x = rc p /\ mark x = mk p /\ children (gc_data_of x) = kids p.
Proof.
  intros H Hp. apply (wf_list WF) in Hp as [x Hx]. unfold gc_get, kids. rewrite H, Hx. cbn. eexists. split; [reflexivity|]. auto.
Qed.

Definition upd {A} (f : ptr -> A) (p : ptr) (v : A) (o : ptr) : A := if decide (o = p) then v else f o.

Lemma set_ref_count_is s rc mk p n :
  heap_is (heap s) rc mk -> p ∈ L ->
  exists h, set_ref_count s p n = mret (MkRT h (gc_obj_list s) (tmp_obj_list s)) /\ heap_is h (upd rc p n) mk.
Proof.
  intros H Hp. apply (wf_list WF) in Hp as [x Hx]. unfold set_ref_count, gc_get. rewrite H, Hx. eexists. split; [reflexivity|].
  intros o. unfold upd. destruct (decide (o = p)) as [->|Hne]; [rewrite lookup_insert_eq, Hx; reflexivity|]. rewrite lookup_insert_ne by congruence. apply H.
Qed.

Lemma set_mark_is s rc mk p b :
  heap_is (heap s) rc mk -> p ∈ L ->
  exists h, set_mark s p b = mret (MkRT h (gc_obj_list s) (tmp_obj_list s)) /\ heap_is h rc (upd mk p b).
Proof.
  intros H Hp. apply (wf_list WF) in Hp as [x Hx]. unfold set_mark, gc_get. rewrite H, Hx. eexists. split; [reflexivity|].
  intros o. unfold upd. destruct (decide (o = p)) as [->|Hne]; [rewrite lookup_insert_eq, Hx; reflexivity|]. rewrite lookup_insert_ne by congruence. apply H.
Qed.

(** ** [gc_decref]

    [D] are the references already subtracted, [P] the objects already visited and
    [R] the others. *)
Definition left (D : list ptr) (o : ptr) : Z := rc0 o - occ o D.

Record decref_inv (D P R : list ptr) (s : JSRuntime) : Prop := {
  di_split : L = P ++ R;
  di_prefix : D `prefix_of` refs L;
  di_heap : heap_is (heap s) (left D) (fun o => bool_decide (o ∈ P));
  di_gc : gc_obj_list s = filter (fun o => left D o <> 0) P ++ R;
  di_tmp : tmp_obj_list s ≡ₚ filter (fun o => left D o = 0) P
}.

Lemma left_prefix D c : D ++ [c] `prefix_of` refs L -> 0 < left D c.
Proof.
  intros [D' E]. unfold left. pose proof (wf_counts WF c) as Hc. unfold ext in Hc. rewrite E, occ_app, occ_snoc in Hc.
  rewrite decide_True in Hc by reflexivity. pose proof (occ_nonneg c D'). lia.
Qed.

Lemma decref_child_spec D P R s c :
  decref_inv D P R s -> D ++ [c] `prefix_of` refs L ->
  exists s', gc_decref_child s c = mret s' /\ decref_inv (D ++ [c]) P R s'.
Proof.
  intros [Hsplit _ Hheap Hgc Htmp] Hpre. pose proof (left_prefix D c Hpre) as Hpos. pose proof (wf_nodup WF) as Hnd.
  assert (c ∈ L) as HcL by (apply refs_L; destruct Hpre as [D' ->]; set_solver).
  assert (forall o, left (D ++ [c]) o = upd (left D) c (left D c - 1) o) as Hleft.
  { intros o. unfold left, upd. rewrite occ_snoc. destruct (decide (o = c)) as [->|]; destruct (decide _); try congruence; lia. }
  unfold gc_decref_child. destruct (gc_get_is s _ _ c Hheap HcL) as (xc & -> & Hrc & Hmk & _). rewrite ret_bind, Hrc, Hmk.
  rewrite (proj2 (Z.ltb_lt _ _) Hpos). cbn [negb].
  destruct (set_ref_count_is s _ _ c (left D c - 1) Hheap HcL) as (h & -> & Hh). rewrite ret_bind.
  assert (heap_is h (left (D ++ [c])) (fun o => bool_decide (o ∈ P))) as Hh' by (eapply heap_is_ext; [exact Hh|intros o _; split; [apply Hleft|reflexivity]]).
  assert (forall o, o <> c -> left (D ++ [c]) o = left D o) as Hsame by (intros o Ho; rewrite Hleft; unfold upd; rewrite decide_False by exact Ho; reflexivity).
  assert (left (D ++ [c]) c = left D c - 1) as Hc by (rewrite Hleft; unfold upd; rewrite decide_True by reflexivity; reflexivity).
  destruct ((left D c - 1 =? 0) && bool_decide (c ∈ P)) eqn:Et.
  - apply andb_true_iff in Et as [E0 EP]. apply Z.eqb_eq in E0. apply bool_decide_eq_true in EP.
    assert (c ∈ gc_obj_list s) as Hin by (rewrite Hgc, elem_of_app, list_elem_of_filter; left; split; [lia|exact EP]).
    unfold list_del. cbn [gc_obj_list tmp_obj_list heap]. rewrite bool_decide_true by exact Hin. rewrite ret_bind. eexists. split; [reflexivity|].
    assert (c ∉ R) as HcR by (rewrite Hsplit in Hnd; apply NoDup_app in Hnd as (_ & Hd & _); apply Hd, EP).
    split; [exact Hsplit|exact Hpre|exact Hh'| |]; cbn [gc_obj_list tmp_obj_list add_tail_tmp].
    + rewrite Hgc. apply del_filter; [exact HcR|]. intros x. destruct (decide (x = c)) as [->|Hx]; [rewrite Hc; split; [intros; first [lia|split; [lia|congruence]|right; reflexivity]|intros; first [lia|tauto|(destruct_or?; lia)]]|rewrite (Hsame x Hx); tauto].
    + rewrite Htmp. apply filter_enter; [rewrite Hsplit in Hnd; apply NoDup_app in Hnd as (H & _); exact H|exact EP|lia|].
      intros x. destruct (decide (x = c)) as [->|Hx]; [rewrite Hc; split; [intros; first [lia|split; [lia|congruence]|right; reflexivity]|intros; first [lia|tauto|(destruct_or?; lia)]]|rewrite (Hsame x Hx); tauto].
  - eexists. split; [reflexivity|]. split; [exact Hsplit|exact Hpre|exact Hh'| |]; cbn [gc_obj_list tmp_obj_list].
    + rewrite Hgc. f_equal. apply filter_ext_in. intros x Hx. destruct (decide (x = c)) as [->|Hne]; [|rewrite (Hsame x Hne); tauto].
      rewrite bool_decide_true, andb_true_r in Et by exact Hx. apply Z.eqb_neq in Et. rewrite Hc. lia.
    + rewrite Htmp. apply Permutation_refl', filter_ext_in. intros x Hx. destruct (decide (x = c)) as [->|Hne]; [|rewrite (Hsame x Hne); tauto].
      rewrite bool_decide_true, andb_true_r in Et by exact Hx. apply Z.eqb_neq in Et. rewrite Hc. lia.
Qed.

Lemma decref_children_spec cs D P R s :
  decref_inv D P R s -> D ++ cs `prefix_of` refs L ->
  exists s', mark_list gc_decref_child s cs = mret s' /\ decref_inv (D ++ cs) P R s'.
Proof.
  revert D s. induction cs as [|c cs IH]; intros D s Hs Hpre; cbn [mark_list].
  - exists s. rewrite app_nil_r. auto.
  - replace (D ++ c :: cs) with ((D ++ [c]) ++ cs) in * by (rewrite <- app_assoc; reflexivity).
    destruct (decref_child_spec D P R s c Hs) as (s' & -> & Hs'); [etransitivity; [|exact Hpre]; eexists; reflexivity|].
    rewrite ret_bind. apply IH; assumption.
Qed.

Lemma decref_one_spec P p R s :
  decref_inv (refs P) P (p :: R) s ->
  exists s', gc_decref_one s p = mret s' /\ decref_inv (refs (P ++ [p])) (P ++ [p]) R s'.
Proof.
  intros Hs. pose proof Hs as [Hsplit _ Hheap _ _]. pose proof (wf_nodup WF) as Hnd. rewrite Hsplit in Hnd.
  apply NoDup_app in Hnd as (HndP & HdP & HndR). assert (p ∉ P) as HpP by (intros H; apply (HdP p H); set_solver).
  assert (p ∉ R) as HpR by (apply NoDup_cons in HndR as [H _]; exact H). assert (p ∈ L) as HpL by (rewrite Hsplit; set_solver).
  assert (refs (P ++ [p]) = refs P ++ kids p) as Hrefs by (rewrite refs_app; unfold refs at 2; cbn; rewrite app_nil_r; reflexivity).
  unfold gc_decref_one. destruct (gc_get_is s _ _ p Hheap HpL) as (x & -> & _ & Hmk & _). rewrite ret_bind, Hmk, bool_decide_false by exact HpP.
  unfold mark_children. destruct (gc_get_is s _ _ p Hheap HpL) as (y & -> & _ & _ & Hk). rewrite ret_bind, Hk.
  destruct (decref_children_spec (kids p) (refs P) P (p :: R) s Hs) as (s1 & -> & Hs1).
  { rewrite <- Hrefs, Hsplit. exists (refs R). replace (P ++ p :: R) with ((P ++ [p]) ++ R) by (rewrite <- app_assoc; reflexivity). apply refs_app. }
  rewrite <- Hrefs in Hs1. rewrite ret_bind. destruct Hs1 as [_ Hpre1 Hheap1 Hgc1 Htmp1].
  destruct (set_mark_is s1 _ _ p true Hheap1 HpL) as (h & -> & Hh). rewrite ret_bind.
  assert (heap_is h (left (refs (P ++ [p]))) (fun o => bool_decide (o ∈ P ++ [p]))) as Hh'.
  { eapply heap_is_ext; [exact Hh|]. intros o _. split; [reflexivity|]. unfold upd. destruct (decide (o = p)) as [->|Hne].
    - apply bool_decide_eq_true. set_solver.
    - apply bool_decide_ext. set_solver. }
  set (D := refs (P ++ [p])) in *.
  destruct (gc_get_is (MkRT h (gc_obj_list s1) (tmp_obj_list s1)) _ _ p Hh' HpL) as (z & -> & Hz & _). rewrite ret_bind, Hz.
  assert (L = (P ++ [p]) ++ R) as Hsplit' by (rewrite <- app_assoc; exact Hsplit).
  destruct (Z.eqb_spec (left D p) 0) as [E0|Hne].
  - assert (p ∈ gc_obj_list s1) as Hin by (rewrite Hgc1; set_solver). unfold list_del. cbn [gc_obj_list tmp_obj_list heap].
    rewrite bool_decide_true by exact Hin. rewrite ret_bind. eexists. split; [reflexivity|].
    split; [exact Hsplit'|exact Hpre1|exact Hh'| |]; cbn [gc_obj_list tmp_obj_list add_tail_tmp].
    + rewrite Hgc1, filter_app, filter_cons_False by lia. cbn. rewrite app_nil_r. unfold del. rewrite filter_app. f_equal.
      * apply (del_notin p). rewrite list_elem_of_filter. tauto.
      * rewrite filter_cons_False by congruence. apply (del_notin p), HpR.
    + rewrite Htmp1, filter_app, filter_cons_True by exact E0. reflexivity.
  - eexists. split; [reflexivity|]. split; [exact Hsplit'|exact Hpre1|exact Hh'| |]; cbn [gc_obj_list tmp_obj_list].
    + rewrite Hgc1, filter_app, filter_cons_True by exact Hne. rewrite <- app_assoc. reflexivity.
    + rewrite Htmp1, filter_app, filter_cons_False by exact Hne. cbn. rewrite app_nil_r. reflexivity.
Qed.

Lemma decref_loop_spec R P s :
  decref_inv (refs P) P R s ->
  exists s', for_each_safe (length R) gc_decref_one s (head R) = mret s' /\ decref_inv (refs L) L [] s'.
Proof.
  revert P s. induction R as [|p R IH]; intros P s Hs; cbn [length head for_each_safe].
  - exists s. split; [reflexivity|]. pose proof (di_split _ _ _ _ Hs) as E. rewrite app_nil_r in E. rewrite E. exact Hs.
  - pose proof Hs as [Hsplit _ _ Hgc _]. pose proof (wf_nodup WF) as Hnd. rewrite Hsplit in Hnd. apply NoDup_app in Hnd as (_ & HdP & _).
    rewrite Hgc, list_next_app, ret_bind; [|rewrite list_elem_of_filter; intros [_ H]; apply (HdP p H); set_solver].
    destruct (decref_one_spec P p R s Hs) as (s' & -> & Hs'). rewrite ret_bind. apply (IH (P ++ [p]) s' Hs').
Qed.

Lemma gc_decref_spec s :
  heap s = h0 -> gc_obj_list s = L -> exists s', gc_decref s = mret s' /\ decref_inv (refs L) L [] s'.
Proof.
  intros Hh HL. unfold gc_decref. cbn [gc_obj_list]. rewrite HL. apply (decref_loop_spec L []). split; cbn [heap gc_obj_list tmp_obj_list].
  - reflexivity.
  - eexists. reflexivity.
  - intros o. rewrite Hh. destruct (h0 !! o) as [[rc mk d]|] eqn:E; [|reflexivity]. cbn. unfold left, rc0. rewrite E. cbn [occ ref_count gc_data_of refs].
    pose proof (wf_marks WF o _ E) as Hm. cbn in Hm. rewrite Hm. rewrite bool_decide_false by (intros H; inversion H). do 2 f_equal. cbn. lia.
  - reflexivity.
  - reflexivity.
Qed.

(** ** [gc_scan]

    [D] are the references added back, [done] the kept objects whose children were
    visited, [todo] the other kept objects, [T] the objects still to be freed. *)
Definition back (D : list ptr) (o : ptr) : Z := ext o + occ o D.

Record scan_inv (D done todo T : list ptr) (mk : ptr -> bool) (s : JSRuntime) : Prop := {
  si_gc : gc_obj_list s = done ++ todo;
  si_tmp : tmp_obj_list s = T;
  si_all : (done ++ todo) ++ T ≡ₚ L;
  si_heap : heap_is (heap s) (back D) mk;
  si_kept o : o ∈ L -> 0 < back D o <-> o ∈ done ++ todo;
  si_reach o : o ∈ done ++ todo -> reachable o;
  si_done o : o ∈ done -> mk o = false;
  si_tmark o : o ∈ T -> mk o = true
}.

Lemma back_nonneg D o : 0 <= back D o.
Proof. unfold back. pose proof (wf_counts WF o). pose proof (occ_nonneg o D). lia. Qed.

Lemma back_snoc D c o : back (D ++ [c]) o = upd (back D) c (back D c + 1) o.
Proof. unfold back, upd. rewrite occ_snoc. destruct (decide (o = c)) as [->|]; destruct (decide _); try congruence; lia. Qed.

Lemma incref_child_spec D done todo T mk s c :
  scan_inv D done todo T mk s -> reachable c ->
  exists s' todo' T' mk', gc_scan_incref_child s c = mret s' /\ scan_inv (D ++ [c]) done todo' T' mk' s'.
Proof.
  intros Hs Hr. pose proof Hs as [Hgc Htmp Hall Hheap Hkept Hreach Hdone Htm]. pose proof (reachable_L c Hr) as HcL.
  assert (NoDup ((done ++ todo) ++ T)) as Hnd by (rewrite Hall; apply (wf_nodup WF)). apply NoDup_app in Hnd as (HndG & HdGT & HndT).
  unfold gc_scan_incref_child. destruct (gc_get_is s _ _ c Hheap HcL) as (x & -> & Hrc & _). rewrite ret_bind, Hrc.
  destruct (set_ref_count_is s _ _ c (back D c + 1) Hheap HcL) as (h & -> & Hh). rewrite ret_bind.
  assert (heap_is h (back (D ++ [c])) mk) as Hh' by (eapply heap_is_ext; [exact Hh|intros o _; split; [apply back_snoc|reflexivity]]).
  pose proof (back_nonneg D c) as Hn. destruct (Z.eqb_spec (back D c + 1) 1) as [E1|Hne].
  - assert (c ∉ done ++ todo) as HcG by (intros H; apply (Hkept c HcL) in H; lia).
    assert (c ∈ T) as HcT by (rewrite <- Hall in HcL; apply elem_of_app in HcL as [H|H]; [contradiction|exact H]).
    unfold list_del. cbn [gc_obj_list tmp_obj_list heap]. rewrite Hgc, Htmp. rewrite bool_decide_false by exact HcG.
    rewrite bool_decide_true by exact HcT. rewrite ret_bind. unfold add_tail_gc. cbn [gc_obj_list tmp_obj_list heap].
    destruct (set_mark_is (MkRT h ((done ++ todo) ++ [c]) (del c T)) _ _ c false Hh' HcL) as (h2 & E2 & Hh2). rewrite E2. cbn [gc_obj_list tmp_obj_list].
    exists (MkRT h2 ((done ++ todo) ++ [c]) (del c T)), (todo ++ [c]), (del c T), (upd mk c false). split; [reflexivity|].
    split; cbn [gc_obj_list tmp_obj_list heap].
    + rewrite <- app_assoc. reflexivity.
    + reflexivity.
    + rewrite <- Hall, (app_assoc done), <- (app_assoc _ [c]). apply Permutation_app_head. apply NoDup_Permutation.
      * apply NoDup_cons. split; [unfold del; rewrite list_elem_of_filter; tauto|apply NoDup_filter, HndT].
      * exact HndT.
      * intros y. rewrite elem_of_app, list_elem_of_singleton. unfold del. rewrite list_elem_of_filter. destruct (decide (y = c)); naive_solver.
    + exact Hh2.
    + intros o Ho. rewrite app_assoc, elem_of_app, list_elem_of_singleton, <- (Hkept o Ho), back_snoc. unfold upd.
      destruct (decide (o = c)) as [->|Hoc]; [split; [auto|lia]|]. split; [auto|intros [H|H]; [exact H|congruence]].
    + intros o. rewrite app_assoc, elem_of_app, list_elem_of_singleton. intros [H| ->]; auto.
    + intros o Ho. unfold upd. destruct (decide (o = c)); auto.
    + intros o. unfold del, upd. rewrite list_elem_of_filter. intros [H1 H2]. rewrite decide_False by exact H1. auto.
  - eexists _, todo, T, mk. split; [reflexivity|]. split; cbn [gc_obj_list tmp_obj_list heap]; auto.
    intros o Ho. rewrite <- (Hkept o Ho), back_snoc. unfold upd. destruct (decide (o = c)) as [->|]; [lia|reflexivity].
Qed.

Lemma incref_children_spec cs D done todo T mk s :
  scan_inv D done todo T mk s -> (forall c, c ∈ cs -> reachable c) ->
  exists s' todo' T' mk', mark_list gc_scan_incref_child s cs = mret s' /\ scan_inv (D ++ cs) done todo' T' mk' s'.
Proof.
  revert D todo T mk s. induction cs as [|c cs IH]; intros D todo T mk s Hs Hr; cbn [mark_list].
  - exists s, todo, T, mk. rewrite app_nil_r. auto.
  - destruct (incref_child_spec D done todo T mk s c Hs) as (s1 & todo1 & T1 & mk1 & -> & Hs1); [apply Hr; set_solver|]. rewrite ret_bind.
    replace (D ++ c :: cs) with ((D ++ [c]) ++ cs) by (rewrite <- app_assoc; reflexivity). eapply IH; [exact Hs1|]. intros y Hy. apply Hr. set_solver.
Qed.

Lemma refs_snoc P p : refs (P ++ [p]) = refs P ++ kids p.
Proof. rewrite refs_app. unfold refs at 2. cbn. rewrite app_nil_r. reflexivity. Qed.

Lemma scan_one_spec done p todo T mk s :
  scan_inv (refs done) done (p :: todo) T mk s ->
  exists s' todo' T' mk', gc_scan_one s p = mret s' /\ scan_inv (refs (done ++ [p])) (done ++ [p]) todo' T' mk' s'.
Proof.
  intros [Hgc Htmp Hall Hheap Hkept Hreach Hdone Htm]. assert (p ∈ done ++ p :: todo) as Hin by set_solver.
  pose proof (Hreach p Hin) as Hr. pose proof (reachable_L p Hr) as HpL.
  assert (NoDup ((done ++ p :: todo) ++ T)) as Hnd by (rewrite Hall; apply (wf_nodup WF)). apply NoDup_app in Hnd as (_ & HdGT & _).
  unfold gc_scan_one. destruct (gc_get_is s _ _ p Hheap HpL) as (x & -> & Hrc & _). rewrite ret_bind, Hrc.
  rewrite (proj2 (Z.ltb_lt _ _) (proj2 (Hkept p HpL) Hin)). cbn [negb].
  destruct (set_mark_is s _ _ p false Hheap HpL) as (h & -> & Hh). rewrite ret_bind. unfold mark_children.
  destruct (gc_get_is (MkRT h (gc_obj_list s) (tmp_obj_list s)) _ _ p Hh HpL) as (y & -> & _ & _ & Hk). rewrite ret_bind, Hk, refs_snoc.
  apply (incref_children_spec (kids p) (refs done) (done ++ [p]) todo T (upd mk p false)).
  - assert (done ++ p :: todo = (done ++ [p]) ++ todo) as E by (rewrite <- app_assoc; reflexivity). rewrite E in *.
    split; cbn [gc_obj_list tmp_obj_list heap]; auto.
    + intros o. rewrite elem_of_app, list_elem_of_singleton. unfold upd. destruct (decide (o = p)); [auto|]. intros [H|H]; [auto|congruence].
    + intros o Ho. unfold upd. rewrite decide_False by (intros ->; exact (HdGT p Hin Ho)). auto.
  - intros c Hc. exact (reach_step p c Hr Hc).
Qed.

Lemma scan_loop_spec fuel done todo T mk s :
  scan_inv (refs done) done todo T mk s -> (length L <= fuel + length done)%nat ->
  exists s' G T' mk', for_each fuel gc_obj_list gc_scan_one s (head todo) = mret s' /\ scan_inv (refs G) G [] T' mk' s'.
Proof.
  revert done todo T mk s. induction fuel as [|fuel IH]; intros done todo T mk s Hs Hf.
  - destruct todo as [|p todo]; [exists s, done, T, mk; split; [reflexivity|exact Hs]|].
    pose proof (Permutation_length (si_all _ _ _ _ _ _ Hs)) as Hl. rewrite !length_app in Hl. cbn [length] in Hl. lia.
  - destruct todo as [|p todo]; [exists s, done, T, mk; split; [reflexivity|exact Hs]|]. cbn [head for_each].
    destruct (scan_one_spec done p todo T mk s Hs) as (s1 & todo1 & T1 & mk1 & -> & Hs1). rewrite ret_bind.
    pose proof Hs1 as [Hgc1 _ Hall1 _ _ _ _ _]. assert (NoDup (((done ++ [p]) ++ todo1) ++ T1)) as Hnd by (rewrite Hall1; apply (wf_nodup WF)).
    apply NoDup_app in Hnd as (Hnd & _). rewrite <- app_assoc in Hnd. apply NoDup_app in Hnd as (_ & Hnp & _).
    rewrite Hgc1, <- app_assoc. cbn [app]. rewrite list_next_app by (intros H; apply (Hnp p H); set_solver). rewrite ret_bind.
    apply (IH (done ++ [p]) todo1 T1 mk1 s1 Hs1). rewrite length_app. cbn [length]. lia.
Qed.

(** The second loop only changes counts. *)
Lemma incref2_spec cs D mk s :
  heap_is (heap s) (back D) mk -> (forall c, c ∈ cs -> c ∈ L) ->
  exists h, mark_list gc_scan_incref_child2 s cs = mret (MkRT h (gc_obj_list s) (tmp_obj_list s)) /\ heap_is h (back (D ++ cs)) mk.
Proof.
  revert D s. induction cs as [|c cs IH]; intros D s Hs Hc; cbn [mark_list].
  - exists (heap s). rewrite app_nil_r. destruct s. auto.
  - assert (gc_scan_incref_child2 s c = (x ← gc_get s c; set_ref_count s c (ref_count x + 1))) as -> by reflexivity. destruct (gc_get_is s _ _ c Hs (Hc c ltac:(set_solver))) as (x & -> & Hrc & _). rewrite ret_bind, Hrc.
    destruct (set_ref_count_is s _ _ c (back D c + 1) Hs (Hc c ltac:(set_solver))) as (h & -> & Hh). rewrite ret_bind.
    destruct (IH (D ++ [c]) (MkRT h (gc_obj_list s) (tmp_obj_list s))) as (h' & E & Hh').
    + eapply heap_is_ext; [exact Hh|]. intros o _. split; [apply back_snoc|reflexivity].
    + intros y Hy. apply Hc. set_solver.
    + exists h'. split; [exact E|]. rewrite <- app_assoc in Hh'. exact Hh'.
Qed.

Lemma scan2_loop_spec fuel T2 T1 D mk s :
  tmp_obj_list s = T1 ++ T2 -> NoDup (T1 ++ T2) -> (forall o, o ∈ T2 -> o ∈ L) -> heap_is (heap s) (back D) mk -> (length T2 <= fuel)%nat ->
  exists h, for_each fuel tmp_obj_list (mark_children gc_scan_incref_child2) s (head T2) = mret (MkRT h (gc_obj_list s) (tmp_obj_list s)) /\
    heap_is h (back (D ++ refs T2)) mk.
Proof.
  revert T1 D s fuel. induction T2 as [|p T2 IH]; intros T1 D s fuel Ht Hnd HL Hh Hf.
  - exists (heap s). destruct fuel; (split; [destruct s; reflexivity|]); unfold refs; cbn; rewrite app_nil_r; exact Hh.
  - destruct fuel as [|fuel]; [cbn in Hf; lia|]. cbn [head for_each].
    assert (mark_children gc_scan_incref_child2 s p = (x ← gc_get s p; mark_list gc_scan_incref_child2 s (children (gc_data_of x)))) as -> by reflexivity.
    assert (p ∈ L) as HpL by (apply HL; set_solver).
    destruct (gc_get_is s _ _ p Hh HpL) as (x & -> & _ & _ & Hk). rewrite ret_bind, Hk.
    destruct (incref2_spec (kids p) D mk s Hh) as (h & -> & Hh'); [intros c Hc; exact (wf_closed WF p c HpL Hc)|]. rewrite ret_bind.
    cbn [tmp_obj_list]. rewrite Ht, list_next_app, ret_bind; [|apply NoDup_app in Hnd as (_ & Hd & _); intros H; apply (Hd p H); set_solver].
    destruct (IH (T1 ++ [p]) (D ++ kids p) (MkRT h (gc_obj_list s) (T1 ++ p :: T2)) fuel) as (h2 & E & Hh2).
    + cbn. rewrite <- app_assoc. reflexivity.
    + rewrite <- app_assoc. exact Hnd.
    + intros o Ho. apply HL. set_solver.
    + exact Hh'.
    + cbn in Hf. lia.
    + exists h2. cbn [gc_obj_list tmp_obj_list] in E. split; [exact E|]. replace (refs (p :: T2)) with (kids p ++ refs T2) by reflexivity.
      rewrite app_assoc. exact Hh2.
Qed.

(** After the first pass the counts are those from outside. *)
Lemma scan_start s :
  decref_inv (refs L) L [] s ->
  scan_inv (refs []) [] (gc_obj_list s) (tmp_obj_list s) (fun _ => true) s.
Proof.
  intros [_ _ Hheap Hgc Htmp]. rewrite app_nil_r in Hgc. split; cbn [app].
  - reflexivity.
  - reflexivity.
  - rewrite Htmp, Hgc. apply NoDup_Permutation.
    + apply NoDup_app. split; [apply NoDup_filter, (wf_nodup WF)|]. split; [|apply NoDup_filter, (wf_nodup WF)].
      intros x. rewrite !list_elem_of_filter. tauto.
    + apply (wf_nodup WF).
    + intros x. rewrite elem_of_app, !list_elem_of_filter. destruct (decide (left (refs L) x = 0)); tauto.
  - eapply heap_is_ext; [exact Hheap|]. intros o Ho. split; [unfold back, left; unfold ext; cbn; lia|]. symmetry. apply bool_decide_eq_true, Ho.
  - intros o Ho. rewrite Hgc, list_elem_of_filter. unfold back. change (left (refs L) o) with (ext o). change (occ o (refs [])) with 0. pose proof (wf_counts WF o).
    split; [intros H1; split; [lia|exact Ho]|intros [H1 _]; lia].
  - intros o. rewrite Hgc, list_elem_of_filter. change (left (refs L) o) with (ext o). intros [H1 H2]. apply reach_root; [exact H2|]. pose proof (wf_counts WF o). lia.
  - intros o H. inversion H.
  - reflexivity.
Qed.

(** The marking as a whole: counts are restored, the list of live objects holds
    the reachable ones, [tmp_obj_list] the others. *)
Record marked (s : JSRuntime) : Prop := {
  mk_live o : o ∈ gc_obj_list s <-> reachable o;
  mk_dead o : o ∈ tmp_obj_list s <-> o ∈ L /\ ~ reachable o;
  mk_nodup : NoDup (gc_obj_list s ++ tmp_obj_list s);
  mk_heap o : heap s !! o = (fun x => MkGC (ref_count x) (bool_decide (o ∈ tmp_obj_list s)) (gc_data_of x)) <$> h0 !! o
}.

Lemma gc_mark_spec s : heap s = h0 -> gc_obj_list s = L -> exists s', gc_mark s = mret s' /\ marked s'.
Proof.
  intros Hh HL. unfold gc_mark. destruct (gc_decref_spec s Hh HL) as (s1 & -> & Hs1). rewrite ret_bind. unfold gc_scan.
  pose proof (scan_start s1 Hs1) as Hs. set (n := (length (gc_obj_list s1) + length (tmp_obj_list s1))%nat).
  assert (n = length L) as Hn by (unfold n; pose proof (Permutation_length (si_all _ _ _ _ _ _ Hs)) as H; rewrite !length_app in H; cbn in H; lia).
  destruct (scan_loop_spec n [] (gc_obj_list s1) (tmp_obj_list s1) _ s1 Hs) as (s2 & G & T & mk & E & Hs2); [cbn; lia|].
  rewrite E, ret_bind. destruct Hs2 as [Hgc2 Htmp2 Hall Hheap2 Hkept Hreach Hdone Htm]. rewrite app_nil_r in *.
  assert (NoDup (G ++ T)) as Hnd by (rewrite Hall; apply (wf_nodup WF)).
  destruct (scan2_loop_spec n T [] (refs G) mk s2) as (h & E2 & Hh2); [exact Htmp2|apply NoDup_app in Hnd as (_ & _ & H); exact H| |exact Hheap2| |].
  { intros o Ho. rewrite <- Hall. set_solver. }
  { pose proof (Permutation_length Hall) as H. rewrite length_app in H. lia. }
  rewrite Htmp2, E2, Hgc2, ?Htmp2. eexists. split; [reflexivity|].
  assert (forall o, o ∈ G <-> reachable o) as Hlive.
  { intros o. split; [apply Hreach|]. induction 1 as [o Ho Hext|p c Hp IH Hc].
    - apply (Hkept o Ho). unfold back. pose proof (occ_nonneg o (refs G)). lia.
    - apply (Hkept c (wf_closed WF p c (reachable_L p Hp) Hc)). unfold back. pose proof (wf_counts WF c).
      assert (c ∈ refs G) as Hin by (apply refs_in; eauto). pose proof (occ_pos c _ Hin). lia. }
  apply NoDup_app in Hnd as Hnd'. destruct Hnd' as (_ & HdGT & _).
  split; cbn [gc_obj_list tmp_obj_list heap].
  - exact Hlive.
  - intros o. rewrite <- Hlive, <- Hall, elem_of_app. split; [intros H; split; [auto|intros H'; exact (HdGT o H' H)]|tauto].
  - exact Hnd.
  - intros o. rewrite Hh2. destruct (h0 !! o) as [x|] eqn:Eo; [|reflexivity]. cbn. do 2 f_equal.
    + unfold back, ext. rewrite <- refs_app, (occ_perm o _ _ (refs_perm _ _ Hall)). unfold rc0. rewrite Eo. lia.
    + assert (o ∈ L) as Ho by (apply (wf_list WF); eauto). rewrite <- Hall in Ho. apply elem_of_app in Ho as [Ho|Ho].
      * rewrite (Hdone o Ho). symmetry. apply bool_decide_eq_false. apply HdGT, Ho.
      * rewrite (Htm o Ho). symmetry. apply bool_decide_eq_true, Ho.
Qed.

End Collector.

(** C16: the marking of the collector ends and is exact: on a heap whose counts
    are right ([gc_wf]) it keeps in [gc_obj_list] the objects reachable from one
    that is referenced from outside, moves exactly the others to [tmp_obj_list] for
    freeing, restores every reference count and leaves only the objects to free
    marked. *)
Theorem gc_mark_exact s :
  gc_wf (heap s) (gc_obj_list s) ->
  exists s', gc_mark s = mret s' /\
    (forall o, o ∈ gc_obj_list s' <-> reachable (heap s) (gc_obj_list s) o) /\
    (forall o, o ∈ tmp_obj_list s' <-> o ∈ gc_obj_list s /\ ~ reachable (heap s) (gc_obj_list s) o) /\
    NoDup (gc_obj_list s' ++ tmp_obj_list s') /\
    (forall o, heap s' !! o = (fun x => MkGC (ref_count x) (bool_decide (o ∈ tmp_obj_list s')) (gc_data_of x)) <$> heap s !! o).
Proof.
  intros WF. destruct (gc_mark_spec (heap s) (gc_obj_list s) WF s eq_refl eq_refl) as (s' & E & [H1 H2 H3 H4]).
  exists s'. split; [exact E|]. auto.
Qed.

(** ** Witness

    A context (1) that the program holds, with a shape (2) and an object (3) of
    that shape; the objects 4 and 5 refer to each other and to the shape, and
    nobody else refers to them. *)
Definition sample_heap : gmap ptr gc_object :=
  list_to_map [(1%positive, MkGC 1 false (GC_JS_CONTEXT [] [VGC 3%positive; VOther] (Some 2%positive)));
               (2%positive, MkGC 4 false (GC_SHAPE None));
               (3%positive, MkGC 1 false (GC_JS_OBJECT 2 [(true, PROP_NORMAL VOther); (false, PROP_NORMAL (VGC 4%positive))] []));
               (4%positive, MkGC 1 false (GC_JS_OBJECT 2 [(true, PROP_NORMAL (VGC 5%positive))] []));
               (5%positive, MkGC 1 false (GC_JS_OBJECT 2 [(true, PROP_GETSET (Some 4%positive) None)] []))].

Definition sample_runtime : JSRuntime := MkRT sample_heap [5; 1; 4; 2; 3]%positive [].

Lemma sample_lookup o : o ∈ [5; 1; 4; 2; 3]%positive <-> is_Some (sample_heap !! o).
Proof.
  split.
  - rewrite !elem_of_cons, elem_of_nil. intros [->|[->|[->|[->|[->|[]]]]]]; eexists; reflexivity.
  - intros [x Hx]. apply elem_of_list_to_map_2 in Hx. rewrite !elem_of_cons, elem_of_nil in Hx. set_solver.
Qed.

Lemma sample_wf : gc_wf sample_heap [5; 1; 4; 2; 3]%positive.
Proof.
  split.
  - apply (bool_decide_unpack (NoDup [5; 1; 4; 2; 3]%positive)). vm_compute. exact I.
  - exact sample_lookup.
  - intros p c Hp. rewrite !elem_of_cons, elem_of_nil in Hp. destruct Hp as [->|[->|[->|[->|[->|[]]]]]]; vm_compute; set_solver.
  - intros o. destruct (decide (o ∈ [5; 1; 4; 2; 3]%positive)) as [Hin|Hout].
    + rewrite !elem_of_cons, elem_of_nil in Hin. destruct Hin as [->|[->|[->|[->|[->|[]]]]]]; vm_compute; discriminate.
    + assert (sample_heap !! o = None) as E by (destruct (sample_heap !! o) eqn:E; [destruct Hout; apply sample_lookup; eauto|reflexivity]).
      unfold ext, rc0. rewrite E. replace (refs sample_heap [5; 1; 4; 2; 3]%positive) with [2; 4; 3; 2; 2; 5; 2]%positive by (vm_compute; reflexivity).
      cbn [occ]. rewrite !elem_of_cons, elem_of_nil in Hout. repeat (rewrite decide_False by (intros <-; tauto)). lia.
  - intros o x Hx. apply elem_of_list_to_map_2 in Hx. rewrite !elem_of_cons, elem_of_nil in Hx.
    destruct Hx as [[= _ ->]|[[= _ ->]|[[= _ ->]|[[= _ ->]|[[= _ ->]|[]]]]]]; reflexivity.
Qed.

Lemma gc_mark_witness :
  exists s', gc_mark sample_runtime = mret s' /\
    (forall o, o ∈ gc_obj_list s' <-> reachable sample_heap [5; 1; 4; 2; 3]%positive o) /\
    (forall o, o ∈ tmp_obj_list s' <-> o ∈ [5; 1; 4; 2; 3]%positive /\ ~ reachable sample_heap [5; 1; 4; 2; 3]%positive o) /\
    NoDup (gc_obj_list s' ++ tmp_obj_list s') /\
    (forall o, heap s' !! o = (fun x => MkGC (ref_count x) (bool_decide (o ∈ tmp_obj_list s')) (gc_data_of x)) <$> sample_heap !! o).
Proof. exact (gc_mark_exact sample_runtime sample_wf). Defined.

(** On this heap the cycle is found. *)
Example sample_collected :
  match fst (gc_mark sample_runtime alloc_all) with
  | Ok s => gc_obj_list s = [1; 3; 2]%positive /\ tmp_obj_list s = [5; 4]%positive
  | _ => False
  end.
Proof. vm_compute. auto. Qed.
