(* ===== verification/Sort.v ===== *)
(** Sorting (cutils.c): [rqsort], a three-way quicksort with an explicit stack of
    50 segments, insertion sort below 7 elements and heap sort beyond depth 50:
    definitions.

    The array is a list of elements and a pointer is the index of the element it
    points to; the counters that the code keeps next to the pointers ([i] next to
    [pi], [lt] next to [plt], [gt] next to [pgt]) are the pointers minus [ptr].  The
    comparison is any computation: it may answer differently each time. *)
From stdpp Require Import base tactics list numbers.
From Stdlib Require Import ZArith Lia.
From S2P Require Import Prelude.

Open Scope Z_scope.

Section Sort.
Context {A : Type} (cmp : A -> A -> M Z).

Definition swap (t : list A) (a b : Z) : M (list A) :=
  x ← tab_get t a; y ← tab_get t b; t ← tab_set t a y; tab_set t b x.

Definition cmp_at (t : list A) (a b : Z) : M Z := x ← tab_get t a; y ← tab_get t b; cmp x y.

(** [swap_block(a, b, n)]: element after element. *)
Fixpoint swap_block (n : nat) (t : list A) (a b : Z) : M (list A) :=
  match n with
  | O => mret t
  | S n => t ← swap t a b; swap_block n t (a + 1) (b + 1)
  end.

(** ** Heap sort *)

(** [for (r = ...; (c = r * 2 + size) < n; r = c)] *)
Fixpoint sift (fuel : nat) (t : list A) (base r n : Z) : M (list A) :=
  let c := 2 * r + 1 in
  if c <? n then
    match fuel with
    | O => undefined
    | S fuel =>
        c ← (if c <? n - 1 then k ← cmp_at t (base + c) (base + c + 1); mret (if k <=? 0 then c + 1 else c) else mret c);
        k ← cmp_at t (base + r) (base + c);
        if 0 <? k then mret t
        else t ← swap t (base + r) (base + c); sift fuel t base c n
    end
  else mret t.

(** [while (i > 0)] *)
Fixpoint heapify (i : nat) (t : list A) (base n : Z) : M (list A) :=
  match i with
  | O => mret t
  | S i => t ← sift (Z.to_nat n) t base (Z.of_nat i) n; heapify i t base n
  end.

(** [for (i = n - size; i > 0; i -= size)] *)
Fixpoint drain (i : nat) (t : list A) (base : Z) : M (list A) :=
  match i with
  | O => mret t
  | S i' =>
      t ← swap t base (base + Z.of_nat i);
      t ← sift i t base 0 (Z.of_nat i);
      drain i' t base
  end.

Definition heapsortx (t : list A) (base nmemb : Z) : M (list A) :=
  if 1 <? nmemb then
    t ← heapify (Z.to_nat (nmemb / 2)) t base nmemb;
    drain (Z.to_nat (nmemb - 1)) t base
  else mret t.

(** ** Quick sort *)

Definition med3 (t : list A) (a b c : Z) : M Z :=
  k ← cmp_at t a b;
  if k <? 0 then
    k ← cmp_at t b c;
    if k <? 0 then mret b else k ← cmp_at t a c; mret (if k <? 0 then c else a)
  else
    k ← cmp_at t b c;
    if 0 <? k then mret b else k ← cmp_at t a c; mret (if k <? 0 then a else c).

(** [while (pi < pj && (c = cmp(ptr, pi)) >= 0)] *)
Fixpoint scan_up (fuel : nat) (t : list A) (ptr i lt j : Z) : M (list A * Z * Z) :=
  if i <? j then
    match fuel with
    | O => undefined
    | S fuel =>
        c ← cmp_at t ptr (ptr + i);
        if 0 <=? c then
          if c =? 0 then t ← swap t (ptr + lt) (ptr + i); scan_up fuel t ptr (i + 1) (lt + 1) j
          else scan_up fuel t ptr (i + 1) lt j
        else mret (t, i, lt)
    end
  else mret (t, i, lt).

(** [while (pi < (pj -= size) && (c = cmp(ptr, pj)) <= 0)] *)
Fixpoint scan_down (fuel : nat) (t : list A) (ptr i j gt : Z) : M (list A * Z * Z) :=
  let j := j - 1 in
  if i <? j then
    match fuel with
    | O => undefined
    | S fuel =>
        c ← cmp_at t ptr (ptr + j);
        if c <=? 0 then
          if c =? 0 then
            let gt := gt - 1 in
            t ← swap t (ptr + gt) (ptr + j); scan_down fuel t ptr i j gt
          else scan_down fuel t ptr i j gt
        else mret (t, j, gt)
    end
  else mret (t, j, gt).

(** [for (;;)] *)
Fixpoint partition_loop (fuel : nat) (t : list A) (ptr i lt j gt : Z) : M (list A * Z * Z * Z) :=
  match fuel with
  | O => undefined
  | S fuel' =>
      '(t, i, lt) ← scan_up fuel t ptr i lt j;
      '(t, j, gt) ← scan_down fuel t ptr i j gt;
      if j <=? i then mret (t, i, lt, gt)
      else
        t ← swap t (ptr + i) (ptr + j);
        partition_loop fuel' t ptr (i + 1) lt j gt
  end.

(** From the choice of the pivot to the three parts: the array and the new [lt]
    and [gt]. *)
Definition quick_partition (t : list A) (ptr nmemb : Z) : M (list A * Z * Z) :=
  let m4 := Z.shiftr nmemb 2 in
  m ← med3 t (ptr + m4) (ptr + 2 * m4) (ptr + 3 * m4);
  t ← swap t ptr m;
  '(t, i, lt, gt) ← partition_loop (Z.to_nat nmemb) t ptr 1 1 nmemb nmemb;
  let span := lt in
  let span2 := i - lt in
  let lt := i - lt in
  let span := if span2 <? span then span2 else span in
  t ← swap_block (Z.to_nat span) t ptr (ptr + i - span);
  let span := nmemb - gt in
  let span2 := gt - i in
  let gt := nmemb - (gt - i) in
  let span := if span2 <? span then span2 else span in
  t ← swap_block (Z.to_nat span) t (ptr + i) (ptr + nmemb - span);
  mret (t, lt, gt).

(** A segment to sort: first element, number of elements, depth. *)
Definition segment : Type := Z * Z * Z.

(** The entries of [stack], top first. *)
Definition push (stack : list segment) (s : segment) : M (list segment) :=
  if len stack <? 50 then mret (s :: stack) else undefined.

(** [while (nmemb > 6)]; the depth bounds the number of rounds. *)
Fixpoint quick_loop (fuel : nat) (t : list A) (ptr nmemb depth : Z) (stack : list segment) : M (list A * Z * Z * list segment) :=
  if 6 <? nmemb then
    match fuel with
    | O => undefined
    | S fuel =>
        let depth := depth + 1 in
        if 50 <? depth then t ← heapsortx t ptr nmemb; mret (t, ptr, 0, stack)
        else
          '(t, lt, gt) ← quick_partition t ptr nmemb;
          if nmemb - gt <? lt then
            stack ← push stack (ptr, lt, depth);
            quick_loop fuel t (ptr + gt) (nmemb - gt) depth stack
          else
            stack ← push stack (ptr + gt, nmemb - gt, depth);
            quick_loop fuel t ptr lt depth stack
    end
  else mret (t, ptr, nmemb, stack).

(** [for (pj = pi; pj > ptr && cmp(pj - size, pj) > 0; pj -= size)] *)
Fixpoint insert_down (k : nat) (t : list A) (ptr : Z) : M (list A) :=
  match k with
  | O => mret t
  | S k' =>
      c ← cmp_at t (ptr + Z.of_nat k') (ptr + Z.of_nat k);
      if 0 <? c then t ← swap t (ptr + Z.of_nat k) (ptr + Z.of_nat k'); insert_down k' t ptr else mret t
  end.

Definition insertion_sort (t : list A) (ptr nmemb : Z) : M (list A) :=
  for_up (Z.to_nat (nmemb - 1)) 1 (fun i t => insert_down (Z.to_nat i) t ptr) t.

(** [while (sp > stack)] *)
Fixpoint sort_loop (fuel : nat) (t : list A) (stack : list segment) : M (list A) :=
  match stack with
  | [] => mret t
  | (ptr, nmemb, depth) :: stack =>
      match fuel with
      | O => undefined
      | S fuel =>
          '(t, ptr, nmemb, stack) ← quick_loop 51 t ptr nmemb depth stack;
          t ← insertion_sort t ptr nmemb;
          sort_loop fuel t stack
      end
  end.

Definition rqsort (t : list A) : M (list A) :=
  if len t <? 2 then mret t else sort_loop (S (length t)) t [(0, len t, 0)].

End Sort.
