(* ===== verification/SortSpecs.v ===== *)
(** The parts of [rqsort]: partition, block exchange, insertion sort.

    The comparison may be any computation that tells nothing false about a preorder
    [le]: a result [<= 0] on [x] and [y] means [le x y], a result [>= 0] means
    [le y x].  When [le] holds always, that is every comparison. *)
From Stdlib Require Import ZArith Lia Sorting.Sorted.
From S2P Require Import Prelude Sort.
From stdpp Require Import base tactics numbers sorting list.

Open Scope Z_scope.

(** Normalize concatenations on both sides of an equation. *)
Ltac app_norm := repeat (rewrite <- app_assoc || cbn [app]); try reflexivity.

(** Equations between the lengths of concatenations. *)
Ltac lens := unfold len in *; repeat progress (rewrite ?length_app in *; cbn [length app] in *); lia.

Section SortSpecs.
Context {A : Type} (cmp : A -> A -> M Z) (le : A -> A -> Prop) `{!PreOrder le}.

Definition consistent : Prop := forall x y, mspec (cmp x y) (fun c => (c <= 0 -> le x y) /\ (0 <= c -> le y x)) no_exn.

Context (Hcmp : consistent).

(** ** Accesses *)

Lemma get_at (t a b : list A) x i : t = a ++ x :: b -> i = len a -> tab_get t i = mret x.
Proof. intros -> ->. apply tab_get_app. reflexivity. Qed.

Lemma swap_at (a m b : list A) x y i j :
  i = len a -> j = len a + 1 + len m -> swap (a ++ x :: m ++ y :: b) i j = mret (a ++ y :: m ++ x :: b).
Proof.
  intros -> ->. unfold swap. rewrite (tab_get_app a x _ (len a) eq_refl), ret_bind.
  rewrite (get_at _ (a ++ x :: m) b y); [|app_norm|rewrite len_app, len_cons; lia]. rewrite ret_bind.
  rewrite (tab_set_app a x y _ (len a) eq_refl), ret_bind. replace (a ++ y :: m ++ y :: b) with ((a ++ y :: m) ++ y :: b) by app_norm.
  rewrite tab_set_app by (rewrite len_app, len_cons; lia). app_norm.
Qed.

Lemma swap_self (a b : list A) x i : i = len a -> swap (a ++ x :: b) i i = mret (a ++ x :: b).
Proof. intros ->. unfold swap. rewrite tab_get_app, !ret_bind by reflexivity. rewrite tab_set_app, ret_bind by reflexivity. apply tab_set_app. reflexivity. Qed.

Lemma swap_sym (t : list A) i j x y :
  tab_get t i = mret x -> tab_get t j = mret y -> 0 <= i < len t -> 0 <= j < len t -> swap t i j = swap t j i.
Proof.
  intros Hx Hy Hi Hj. unfold swap. rewrite Hx, Hy, !ret_bind. unfold tab_set.
  rewrite !(proj2 (Z.leb_le _ _)), !(proj2 (Z.ltb_lt _ _)) by lia. cbn [andb]. rewrite !ret_bind. unfold len in *. rewrite !length_insert.
  rewrite !(proj2 (Z.ltb_lt _ _)) by lia. cbn [andb]. f_equal.
  destruct (decide (i = j)) as [->|Hne].
  - unfold tab_get in Hx, Hy. rewrite (proj2 (Z.leb_le _ _)) in Hx, Hy by lia.
    destruct (lookup_lt_is_Some_2 t (Z.to_nat j)) as [z Hz]; [lia|]. rewrite Hz in Hx, Hy.
    assert (Ok z = Ok x) as [= ->] by (pose proof (f_equal (fun m => fst (m alloc_all)) Hx) as H; exact H).
    assert (Ok x = Ok y) as [= ->] by (pose proof (f_equal (fun m => fst (m alloc_all)) Hy) as H; exact H). reflexivity.
  - rewrite list_insert_insert_ne by lia. reflexivity.
Qed.

Lemma cmp_spec (t : list A) i j x y (Q : Z -> Prop) E :
  tab_get t i = mret x -> tab_get t j = mret y -> (forall c, (c <= 0 -> le x y) -> (0 <= c -> le y x) -> Q c) ->
  mspec (cmp_at cmp t i j) Q E.
Proof.
  intros Hx Hy HQ. unfold cmp_at. rewrite Hx, ret_bind, Hy, ret_bind. eapply mspec_mono; [apply Hcmp|intros c [H1 H2]; auto|intros e []].
Qed.

(** ** Exchanging blocks *)

Lemma swap_block_at (X Y lo mid hi : list A) a b :
  length X = length Y -> a = len lo -> b = len lo + len X + len mid ->
  swap_block (length X) (lo ++ X ++ mid ++ Y ++ hi) a b = mret (lo ++ Y ++ mid ++ X ++ hi).
Proof.
  revert Y lo mid a b. induction X as [|x X IH]; intros [|y Y] lo mid a b Hl Ha Hb; cbn [length] in Hl; try lia; cbn [length swap_block app].
  - reflexivity.
  - rewrite len_cons in Hb. replace (lo ++ x :: X ++ mid ++ y :: Y ++ hi) with (lo ++ x :: (X ++ mid) ++ y :: Y ++ hi) by app_norm.
    rewrite swap_at, ret_bind by (rewrite ?len_app; lia).
    replace (lo ++ y :: (X ++ mid) ++ x :: Y ++ hi) with ((lo ++ [y]) ++ X ++ (mid ++ [x]) ++ Y ++ hi) by app_norm.
    rewrite (IH Y (lo ++ [y]) (mid ++ [x])); [f_equal; app_norm|lia|lens|lens].
Qed.

(** Two neighbouring blocks change places by exchanging as many elements as the
    smaller one has. *)
Lemma rotate_at (X Y lo hi : list A) a b n :
  a = len lo -> n = Z.min (len X) (len Y) -> b = len lo + len X + len Y - n ->
  exists X' Y', swap_block (Z.to_nat n) (lo ++ X ++ Y ++ hi) a b = mret (lo ++ Y' ++ X' ++ hi) /\ X' ≡ₚ X /\ Y' ≡ₚ Y.
Proof.
  intros Ha Hn Hb. unfold len in *. destruct (Z.le_gt_cases (len X) (len Y)) as [Hle|Hgt]; unfold len in *.
  - set (k := (length Y - length X)%nat). exists X, (drop k Y ++ take k Y).
    rewrite <- (take_drop k Y) at 1. rewrite <- app_assoc.
    replace (Z.to_nat n) with (length X) by lia. rewrite (swap_block_at X (drop k Y) lo (take k Y) hi); [|rewrite length_drop; lia|exact Ha|unfold len; rewrite length_take; lia].
    split; [f_equal; app_norm|]. split; [reflexivity|]. rewrite <- (take_drop k Y) at 3. apply Permutation_app_comm.
  - set (k := length Y). exists (drop k X ++ take k X), Y.
    rewrite <- (take_drop k X) at 1. rewrite <- app_assoc.
    replace (Z.to_nat n) with (length (take k X)) by (rewrite length_take; lia).
    rewrite (swap_block_at (take k X) Y lo (drop k X) hi); [|rewrite length_take; lia|exact Ha|unfold len; rewrite length_take, length_drop; lia].
    split; [f_equal; app_norm|]. split; [|reflexivity]. rewrite <- (take_drop k X) at 3. apply Permutation_app_comm.
Qed.

(** ** Insertion sort *)

Lemma sorted_app_inv (l1 l2 : list A) :
  StronglySorted le (l1 ++ l2) -> StronglySorted le l1 /\ StronglySorted le l2 /\ (forall x y, x ∈ l1 -> y ∈ l2 -> le x y).
Proof.
  induction l1 as [|z l1 IH]; cbn [app]; intros H.
  - split; [constructor|]. split; [exact H|]. intros x y Hx. inversion Hx.
  - apply StronglySorted_inv in H as [H1 H2]. destruct (IH H1) as (H3 & H4 & H5). apply Forall_app in H2 as [H6 H7].
    split; [constructor; assumption|]. split; [exact H4|]. intros x y Hx Hy. apply elem_of_cons in Hx as [->|Hx]; [|auto].
    rewrite Forall_forall in H7. auto.
Qed.

Lemma sorted_app (l1 l2 : list A) :
  StronglySorted le l1 -> StronglySorted le l2 -> (forall x y, x ∈ l1 -> y ∈ l2 -> le x y) -> StronglySorted le (l1 ++ l2).
Proof.
  induction l1 as [|z l1 IH]; cbn [app]; intros H1 H2 H3; [exact H2|]. apply StronglySorted_inv in H1 as [H4 H5]. constructor.
  - apply IH; auto. intros x y Hx Hy. apply H3; [right; exact Hx|exact Hy].
  - apply Forall_app. split; [exact H5|]. apply Forall_forall. intros y Hy. apply H3; [left|exact Hy].
Qed.

Lemma insert_down_spec (s1 s2 lo hi : list A) x E :
  StronglySorted le (s1 ++ s2) -> Forall (le x) s2 ->
  mspec (insert_down cmp (length s1) (lo ++ s1 ++ x :: s2 ++ hi) (len lo))
    (fun t => exists s, t = lo ++ s ++ hi /\ s ≡ₚ s1 ++ x :: s2 /\ StronglySorted le s) E.
Proof.
  revert s2. induction s1 as [|y s1 IH] using rev_ind; intros s2 Hs Hx.
  - cbn [length insert_down app]. apply mspec_ret. exists (x :: s2). split; [reflexivity|]. split; [reflexivity|]. constructor; assumption.
  - rewrite length_app. cbn [length]. rewrite Nat.add_1_r. cbn [insert_down].
    replace (lo ++ (s1 ++ [y]) ++ x :: s2 ++ hi) with ((lo ++ s1) ++ y :: [] ++ x :: s2 ++ hi) by app_norm.
    eapply mspec_bind.
    { eapply cmp_spec with (Q := fun c => (c <= 0 -> le y x) /\ (0 <= c -> le x y)); [eapply get_at; [reflexivity|lens]| |auto].
      eapply get_at with (a := (lo ++ s1) ++ [y]); [app_norm|lens]. }
    intros c [Hc1 Hc2]. destruct (Z.ltb_spec 0 c) as [Hc|Hc].
    + rewrite (swap_sym _ _ _ x y).
      * rewrite swap_at, ret_bind by (lens).
        replace ((lo ++ s1) ++ x :: [] ++ y :: s2 ++ hi) with (lo ++ s1 ++ x :: (y :: s2) ++ hi) by app_norm.
        eapply mspec_mono with (E := E); [apply (IH (y :: s2))|intros t (s & H1 & H2 & H3); exists s; split; [exact H1|]; split; [|exact H3]; rewrite H2; rewrite <- app_assoc; cbn; apply Permutation_app_head; constructor|auto].
        -- rewrite <- app_assoc in Hs. exact Hs.
        -- constructor; [apply Hc2; lia|exact Hx].
      * eapply get_at with (a := (lo ++ s1) ++ [y]); [app_norm|lens].
      * eapply get_at; [reflexivity|lens].
      * rewrite !len_app, len_cons. cbn [app]. rewrite len_cons. unfold len. lia.
      * rewrite !len_app, len_cons. cbn [app]. rewrite len_cons. unfold len. lia.
    + apply mspec_ret. exists ((s1 ++ [y]) ++ x :: s2). split; [app_norm|]. split; [reflexivity|].
      destruct (sorted_app_inv _ _ Hs) as (H1 & H2 & H3). apply sorted_app; [exact H1|constructor; assumption|].
      intros a b Ha Hb. apply elem_of_cons in Hb as [->|Hb]; [|auto]. transitivity y; [|apply Hc1; lia].
      apply elem_of_app in Ha as [Ha|Ha]; [|apply list_elem_of_singleton in Ha as ->; reflexivity].
      destruct (sorted_app_inv _ _ H1) as (_ & _ & H4). apply H4; [exact Ha|apply list_elem_of_singleton; reflexivity].
Qed.

Lemma insertion_sort_spec (w lo hi : list A) E :
  mspec (insertion_sort cmp (lo ++ w ++ hi) (len lo) (len w))
    (fun t => exists s, t = lo ++ s ++ hi /\ s ≡ₚ w /\ StronglySorted le s) E.
Proof.
  destruct w as [|x w]; [apply mspec_ret; exists []; split; [reflexivity|split; [reflexivity|constructor]]|].
  unfold insertion_sort. rewrite len_cons. replace (Z.to_nat (1 + len w - 1)) with (length w) by (unfold len; lia).
  set (I := fun (i : Z) t => exists s rest, t = lo ++ s ++ rest ++ hi /\ s ++ rest ≡ₚ x :: w /\ StronglySorted le s /\ len s = i).
  eapply mspec_mono with (E := E); [apply (mspec_for_up I)| |auto].
  - exists [x], w. split; [reflexivity|]. split; [reflexivity|]. split; [repeat constructor|reflexivity].
  - intros i t Hi (s & rest & -> & Hp & Hs & Hl). destruct rest as [|y rest].
    { apply Permutation_length in Hp. rewrite app_nil_r in Hp. cbn [length] in Hp. unfold len in *. lia. }
    replace (Z.to_nat i) with (length s) by (unfold len in Hl; lia). replace (lo ++ s ++ (y :: rest) ++ hi) with (lo ++ s ++ y :: [] ++ rest ++ hi) by app_norm.
    eapply mspec_mono with (E := E); [apply (insert_down_spec s [] lo (rest ++ hi) y); [rewrite app_nil_r; exact Hs|constructor]| |auto].
    intros t (s' & -> & Hp' & Hs'). exists s', rest. split; [app_norm|]. split; [rewrite Hp', <- Hp; app_norm|]. split; [exact Hs'|].
    apply Permutation_length in Hp'. rewrite length_app in Hp'. cbn in Hp'. unfold len in *. lia.
  - intros t (s & rest & -> & Hp & Hs & Hl). pose proof (Permutation_length Hp) as Hlen. rewrite length_app in Hlen. cbn in Hlen. unfold len in *.
    destruct rest as [|y rest]; [|cbn in Hlen; lia]. rewrite app_nil_r in Hp. exists s. auto.
Qed.

(** ** Partition

    From [ptr] on: the pivot [p], elements equal to it, smaller ones, unknown
    ones, greater ones, and again equal ones. *)

Definition same_key (p x : A) : Prop := le x p /\ le p x.

Lemma scan_up_spec fuel (lo E1 L U T : list A) p i lt j E :
  Forall (same_key p) E1 -> Forall (fun x => le x p) L ->
  lt = 1 + len E1 -> i = lt + len L -> j = i + len U -> (length U <= fuel)%nat ->
  mspec (scan_up cmp fuel (lo ++ p :: E1 ++ L ++ U ++ T) (len lo) i lt j)
    (fun '(t, i', lt') => exists E1' L' U', t = lo ++ p :: E1' ++ L' ++ U' ++ T /\ E1' ++ L' ++ U' ≡ₚ E1 ++ L ++ U /\
       Forall (same_key p) E1' /\ Forall (fun x => le x p) L' /\ lt' = 1 + len E1' /\ i' = lt' + len L' /\ j = i' + len U' /\
       (length U' <= length U)%nat /\ (forall x U'', U' = x :: U'' -> le p x)) E.
Proof.
  revert E1 L U i lt. induction fuel as [|fuel IH]; intros E1 L U i lt HE HL -> -> -> Hf; cbn [scan_up].
  - destruct U as [|x U]; [|cbn in Hf; lia]. change (len (@nil A)) with 0. rewrite (proj2 (Z.ltb_ge _ _)) by lia. apply mspec_ret.
    exists E1, L, []. change (len (@nil A)) with 0. split; [reflexivity|]. split; [reflexivity|]. do 5 (split; [assumption || lia|]). split; [lia|discriminate].
  - destruct U as [|x U].
    { change (len (@nil A)) with 0. rewrite (proj2 (Z.ltb_ge _ _)) by lia. apply mspec_ret.
      exists E1, L, []. change (len (@nil A)) with 0. split; [reflexivity|]. split; [reflexivity|]. do 5 (split; [assumption || lia|]). split; [lia|discriminate]. }
    rewrite (proj2 (Z.ltb_lt _ _)) by (rewrite len_cons; pose proof (len_nonneg U); lia). cbn [length] in Hf.
    eapply mspec_bind.
    { eapply cmp_spec with (x := p) (y := x) (Q := fun c => (c <= 0 -> le p x) /\ (0 <= c -> le x p)); [eapply get_at; [reflexivity|reflexivity]| |auto].
      eapply get_at with (a := lo ++ p :: E1 ++ L); [app_norm|lens]. }
    intros c [Hc1 Hc2]. destruct (Z.leb_spec 0 c) as [Hc|Hc]; [destruct (Z.eqb_spec c 0) as [->|Hne]|].
    + assert (same_key p x) as Hx by (split; [apply Hc2|apply Hc1]; lia).
      destruct L as [|y L].
      * replace (lo ++ p :: E1 ++ [] ++ (x :: U) ++ T) with ((lo ++ p :: E1) ++ x :: U ++ T) by app_norm.
        replace (len lo + (1 + len E1 + len (@nil A))) with (len lo + (1 + len E1)) by lens.
        rewrite swap_self, ret_bind by lens.
        replace ((lo ++ p :: E1) ++ x :: U ++ T) with (lo ++ p :: (E1 ++ [x]) ++ [] ++ U ++ T) by app_norm.
        eapply mspec_mono with (E := E); [apply (IH (E1 ++ [x]) [] U); [apply Forall_app; auto|constructor|lens|lens|lens|lia]| |auto].
        intros [[t i'] lt'] (E1' & L' & U' & H1 & H2 & H3 & H4 & H5 & H6 & H7 & H8 & H9). exists E1', L', U'. split; [exact H1|]. split; [rewrite H2; app_norm|do 5 (split; [assumption|]); split; [cbn; lia|exact H9]].
      * replace (lo ++ p :: E1 ++ (y :: L) ++ (x :: U) ++ T) with ((lo ++ p :: E1) ++ y :: L ++ x :: U ++ T) by app_norm.
        rewrite swap_at, ret_bind by lens.
        replace ((lo ++ p :: E1) ++ x :: L ++ y :: U ++ T) with (lo ++ p :: (E1 ++ [x]) ++ (L ++ [y]) ++ U ++ T) by app_norm.
        apply Forall_cons in HL as [Hy HL].
        eapply mspec_mono with (E := E); [apply (IH (E1 ++ [x]) (L ++ [y]) U); [apply Forall_app; auto|apply Forall_app; auto|lens|lens|lens|lia]| |auto].
        intros [[t i'] lt'] (E1' & L' & U' & H1 & H2 & H3 & H4 & H5 & H6 & H7 & H8 & H9). exists E1', L', U'. split; [exact H1|]. split; [|do 5 (split; [assumption|]); split; [cbn; lia|exact H9]].
        rewrite H2. app_norm. apply Permutation_app_head. rewrite (Permutation_middle L). cbn. solve_Permutation.
    + replace (lo ++ p :: E1 ++ L ++ (x :: U) ++ T) with (lo ++ p :: E1 ++ (L ++ [x]) ++ U ++ T) by app_norm.
      eapply mspec_mono with (E := E); [apply (IH E1 (L ++ [x]) U); [exact HE|apply Forall_app; split; [exact HL|repeat constructor; apply Hc2; lia]|lens|lens|lens|lia]| |auto].
      intros [[t i'] lt'] (E1' & L' & U' & H1 & H2 & H3 & H4 & H5 & H6 & H7 & H8 & H9). exists E1', L', U'. split; [exact H1|]. split; [rewrite H2; app_norm|do 5 (split; [assumption|]); split; [cbn; lia|exact H9]].
    + apply mspec_ret. exists E1, L, (x :: U). split; [reflexivity|]. split; [reflexivity|]. do 5 (split; [assumption || lia|]). split; [lia|].
      intros y U'' [= <- _]. apply Hc1. lia.
Qed.

Lemma get_prefix (lo r : list A) ptr p : lo !! Z.to_nat ptr = Some p -> 0 <= ptr -> tab_get (lo ++ r) ptr = mret p.
Proof. intros H Hp. apply tab_get_lookup; [exact Hp|]. apply lookup_app_l_Some, H. Qed.

(** [lo] holds everything before the unknown elements, the pivot included. *)
Lemma scan_down_spec fuel (lo U G E2 hi : list A) p ptr i j gt E :
  lo !! Z.to_nat ptr = Some p -> 0 <= ptr ->
  Forall (le p) G -> Forall (same_key p) E2 ->
  ptr + i = len lo -> j = i + len U -> gt = j + len G -> (length U <= fuel)%nat ->
  mspec (scan_down cmp fuel (lo ++ U ++ G ++ E2 ++ hi) ptr i j gt)
    (fun '(t, j', gt') => exists U' G' E2', t = lo ++ U' ++ G' ++ E2' ++ hi /\ U' ++ G' ++ E2' ≡ₚ U ++ G ++ E2 /\ U' `prefix_of` U /\
       Forall (le p) G' /\ Forall (same_key p) E2' /\ gt' = i + len U' + len G' /\
       ((j' <= i /\ (length U' <= 1)%nat) \/ (i < j' /\ j' = i + len U' - 1 /\ exists U1 y, U' = U1 ++ [y] /\ le y p))) E.
Proof.
  revert U G E2 j gt. induction fuel as [|fuel IH]; intros U G E2 j gt Hp Hptr HG HE Hi -> -> Hf; cbn [scan_down].
  - destruct U as [|x U]; [|cbn in Hf; lia]. change (len (@nil A)) with 0. cbv zeta. rewrite (proj2 (Z.ltb_ge _ _)) by lia. apply mspec_ret.
    exists [], G, E2. change (len (@nil A)) with 0. split; [reflexivity|]. split; [reflexivity|]. split; [reflexivity|].
    do 3 (split; [assumption || lia|]). left. cbn. lia.
  - cbv zeta. destruct (Z.ltb_spec i (i + len U - 1)) as [Hlt|Hge].
    + assert (exists U1 y, U = U1 ++ [y]) as (U1 & y & ->).
      { destruct U as [|z U _] using rev_ind; [change (len (@nil A)) with 0 in Hlt; lia|eauto]. }
      rewrite length_app in Hf. cbn [length] in Hf.
      eapply mspec_bind.
      { eapply cmp_spec with (x := p) (y := y) (Q := fun c => (c <= 0 -> le p y) /\ (0 <= c -> le y p)); [apply get_prefix; assumption| |auto].
        eapply get_at with (a := lo ++ U1); [app_norm|lens]. }
      intros c [Hc1 Hc2]. destruct (Z.leb_spec c 0) as [Hc|Hc]; [destruct (Z.eqb_spec c 0) as [->|Hne]|].
      * assert (same_key p y) as Hy by (split; [apply Hc2|apply Hc1]; lia).
        destruct G as [|g G _] using rev_ind.
        -- replace (lo ++ (U1 ++ [y]) ++ [] ++ E2 ++ hi) with ((lo ++ U1) ++ y :: E2 ++ hi) by app_norm.
           replace (ptr + (i + len (U1 ++ [y]) + len (@nil A) - 1)) with (ptr + (i + len (U1 ++ [y]) - 1)) by lens.
           rewrite swap_self, ret_bind by lens. replace ((lo ++ U1) ++ y :: E2 ++ hi) with (lo ++ U1 ++ [] ++ (y :: E2) ++ hi) by app_norm.
           eapply mspec_mono with (E := E); [apply (IH U1 [] (y :: E2)); [exact Hp|exact Hptr|constructor|constructor; assumption|exact Hi|lens|lens|lia]| |auto].
           intros [[t j'] gt'] (U' & G' & E2' & H1 & H2 & H3 & H4). exists U', G', E2'. split; [exact H1|]. split; [rewrite H2; app_norm|].
           split; [etransitivity; [exact H3|eexists; reflexivity]|exact H4].
        -- apply Forall_app in HG as [HG Hg]. rewrite (swap_sym _ _ _ g y).
           ++ replace (lo ++ (U1 ++ [y]) ++ (G ++ [g]) ++ E2 ++ hi) with ((lo ++ U1) ++ y :: G ++ g :: E2 ++ hi) by app_norm.
              rewrite swap_at, ret_bind by lens. replace ((lo ++ U1) ++ g :: G ++ y :: E2 ++ hi) with (lo ++ U1 ++ (g :: G) ++ (y :: E2) ++ hi) by app_norm.
              eapply mspec_mono with (E := E); [apply (IH U1 (g :: G) (y :: E2)); [exact Hp|exact Hptr|constructor; [apply Forall_inv in Hg; exact Hg|exact HG]|constructor; assumption|exact Hi|lens|lens|lia]| |auto].
              intros [[t j'] gt'] (U' & G' & E2' & H1 & H2 & H3 & H4). exists U', G', E2'. split; [exact H1|].
              split; [rewrite H2; app_norm; apply Permutation_app_head; rewrite (Permutation_middle G); solve_Permutation|].
              split; [etransitivity; [exact H3|eexists; reflexivity]|exact H4].
           ++ eapply get_at with (a := lo ++ U1 ++ [y] ++ G); [app_norm|lens].
           ++ eapply get_at with (a := lo ++ U1); [app_norm|lens].
           ++ lens.
           ++ lens.
      * replace (lo ++ (U1 ++ [y]) ++ G ++ E2 ++ hi) with (lo ++ U1 ++ (y :: G) ++ E2 ++ hi) by app_norm.
        eapply mspec_mono with (E := E); [apply (IH U1 (y :: G) E2); [exact Hp|exact Hptr|constructor; [apply Hc1; lia|exact HG]|exact HE|exact Hi|lens|lens|lia]| |auto].
        intros [[t j'] gt'] (U' & G' & E2' & H1 & H2 & H3 & H4). exists U', G', E2'. split; [exact H1|]. split; [rewrite H2; app_norm|].
        split; [etransitivity; [exact H3|eexists; reflexivity]|exact H4].
      * apply mspec_ret. exists (U1 ++ [y]), G, E2. split; [reflexivity|]. split; [reflexivity|]. split; [reflexivity|]. do 3 (split; [assumption || lia|]).
        right. split; [exact Hlt|]. split; [reflexivity|]. exists U1, y. split; [reflexivity|]. apply Hc2. lia.
    + apply mspec_ret. exists U, G, E2. split; [reflexivity|]. split; [reflexivity|]. split; [reflexivity|]. do 3 (split; [assumption || lia|]). left. lens.
Qed.

Lemma partition_loop_spec fuel (lo E1 L U G E2 hi : list A) p i lt j gt E :
  Forall (same_key p) E1 -> Forall (fun x => le x p) L -> Forall (le p) G -> Forall (same_key p) E2 ->
  lt = 1 + len E1 -> i = lt + len L -> j = i + len U -> gt = j + len G -> (length U < fuel)%nat ->
  mspec (partition_loop cmp fuel (lo ++ p :: E1 ++ L ++ U ++ G ++ E2 ++ hi) (len lo) i lt j gt)
    (fun '(t, i', lt', gt') => exists E1' L' G' E2', t = lo ++ p :: E1' ++ L' ++ G' ++ E2' ++ hi /\
       E1' ++ L' ++ G' ++ E2' ≡ₚ E1 ++ L ++ U ++ G ++ E2 /\
       Forall (same_key p) E1' /\ Forall (fun x => le x p) L' /\ Forall (le p) G' /\ Forall (same_key p) E2' /\
       lt' = 1 + len E1' /\ i' = lt' + len L' /\ gt' = i' + len G') E.
Proof.
  revert E1 L U G E2 i lt j gt. induction fuel as [|fuel IH]; intros E1 L U G E2 i lt j gt HE1 HL HG HE2 Hlt Hi Hj Hgt Hf; [lia|].
  cbn [partition_loop]. eapply mspec_bind; [apply (scan_up_spec (S fuel) lo E1 L U (G ++ E2 ++ hi) p i lt j E); try assumption; lia|].
  intros [[t i1] lt1] (E1a & La & Ua & -> & Hperm1 & HE1a & HLa & Hlta & Hia & Hja & HUa & Hhd).
  eapply mspec_bind.
  { replace (lo ++ p :: E1a ++ La ++ Ua ++ G ++ E2 ++ hi) with ((lo ++ p :: E1a ++ La) ++ Ua ++ G ++ E2 ++ hi) by app_norm.
    apply (scan_down_spec (S fuel) (lo ++ p :: E1a ++ La) Ua G E2 hi p (len lo) i1 j gt E);
      [rewrite lookup_app_r by (unfold len; lia); replace (Z.to_nat (len lo) - length lo)%nat with 0%nat by (unfold len; lia); reflexivity|apply len_nonneg|exact HG|exact HE2|lens|lia|lia|lia]. }
  intros [[t2 j2] gt2] (Ub & Gb & E2b & -> & Hperm2 & [Ur HUr] & HGb & HE2b & Hgt2 & Hcase).
  destruct Hcase as [[Hj2 Hlen]|(Hj2 & Ej2 & U1 & y & EU & Hy)].
  - rewrite (proj2 (Z.leb_le _ _)) by exact Hj2. apply mspec_ret. exists E1a, La, (Ub ++ Gb), E2b. split; [app_norm|].
    split; [|split; [exact HE1a|split; [exact HLa|split; [|split; [exact HE2b|lens]]]]].
    + rewrite <- (app_assoc Ub), Hperm2, !(app_assoc E1a), !(app_assoc (E1a ++ La)), <- (app_assoc E1a La Ua), Hperm1. app_norm.
    + apply Forall_app. split; [|exact HGb]. destruct Ub as [|x [|z Ub]]; [constructor| |cbn in Hlen; lia].
      constructor; [|constructor]. apply (Hhd x Ur). rewrite HUr. reflexivity.
  - rewrite (proj2 (Z.leb_gt _ _)) by lia. destruct U1 as [|x U1]; [subst Ub; lens|]. subst Ub.
    assert (le p x) as Hx by (apply (Hhd x (U1 ++ [y] ++ Ur)); rewrite HUr; app_norm).
    replace ((lo ++ p :: E1a ++ La) ++ ((x :: U1) ++ [y]) ++ Gb ++ E2b ++ hi) with ((lo ++ p :: E1a ++ La) ++ x :: U1 ++ y :: Gb ++ E2b ++ hi) by app_norm.
    rewrite swap_at, ret_bind by lens.
    replace ((lo ++ p :: E1a ++ La) ++ y :: U1 ++ x :: Gb ++ E2b ++ hi) with (lo ++ p :: E1a ++ (La ++ [y]) ++ U1 ++ (x :: Gb) ++ E2b ++ hi) by app_norm.
    eapply mspec_mono with (E := E); [apply (IH E1a (La ++ [y]) U1 (x :: Gb) E2b)| |auto];
      [exact HE1a|apply Forall_app; split; [exact HLa|repeat constructor; exact Hy]|constructor; assumption|exact HE2b|lia|lens|lens|lens| |].
    { assert (length Ua = length ((x :: U1) ++ [y]) + length Ur)%nat by (rewrite HUr, length_app; reflexivity). lens. }
    intros [[[t i'] lt'] gt'] (E1' & L' & G' & E2' & H1 & H2 & H3). exists E1', L', G', E2'. split; [exact H1|]. split; [|exact H3].
    rewrite H2. transitivity ((E1a ++ La) ++ ((x :: U1) ++ [y]) ++ Gb ++ E2b); [solve_Permutation|]. rewrite Hperm2.
    transitivity ((E1a ++ La ++ Ua) ++ G ++ E2); [app_norm|]. rewrite Hperm1. app_norm.
Qed.

Lemma get_in (t : list A) i : 0 <= i < len t -> exists x, tab_get t i = mret x /\ t !! Z.to_nat i = Some x.
Proof.
  intros Hi. destruct (lookup_lt_is_Some_2 t (Z.to_nat i)) as [x Hx]; [unfold len in Hi; lia|]. exists x. split; [|exact Hx].
  apply tab_get_lookup; [lia|exact Hx].
Qed.

Lemma med3_spec (t : list A) a b c E :
  0 <= a < len t -> 0 <= b < len t -> 0 <= c < len t -> mspec (med3 cmp t a b c) (fun m => m = a \/ m = b \/ m = c) E.
Proof.
  intros Ha Hb Hc. destruct (get_in t a Ha) as (x & Hx & _), (get_in t b Hb) as (y & Hy & _), (get_in t c Hc) as (z & Hz & _).
  assert (forall i j u v, tab_get t i = mret u -> tab_get t j = mret v -> mspec (cmp_at cmp t i j) (fun _ => True) E) as Hany
    by (intros; eapply cmp_spec; eauto).
  unfold med3. eapply mspec_bind; [eapply Hany; eassumption|]. intros k1 _. destruct (k1 <? 0);
    (eapply mspec_bind; [eapply Hany; eassumption|]); intros k2 _; (destruct (_ <? _); [apply mspec_ret; auto|]);
    (eapply mspec_bind; [eapply Hany; eassumption|]); intros k3 _; apply mspec_ret; destruct (k3 <? 0); auto.
Qed.

(** Exchanging two elements of a window. *)
Lemma split_at (l : list A) n x : l !! n = Some x -> exists l1 l2, l = l1 ++ x :: l2 /\ length l1 = n.
Proof.
  intros H. exists (take n l), (drop (S n) l). split; [symmetry; apply take_drop_middle, H|]. apply lookup_lt_Some in H. rewrite length_take. lia.
Qed.

Lemma swap_window (lo w hi : list A) i j :
  len lo <= i < j -> j < len lo + len w ->
  exists a x m y b, w = a ++ x :: m ++ y :: b /\ i = len lo + len a /\ j = i + 1 + len m /\
    swap (lo ++ w ++ hi) i j = mret (lo ++ (a ++ y :: m ++ x :: b) ++ hi).
Proof.
  intros Hi Hj. destruct (lookup_lt_is_Some_2 w (Z.to_nat (i - len lo))) as [x Hx]; [lens|].
  destruct (split_at _ _ _ Hx) as (a & r & -> & Hla).
  destruct (lookup_lt_is_Some_2 r (Z.to_nat (j - i - 1))) as [y Hy]; [lens|]. destruct (split_at _ _ _ Hy) as (m & b & -> & Hlm).
  exists a, x, m, y, b. split; [reflexivity|]. split; [lens|]. split; [lens|].
  replace (lo ++ (a ++ x :: m ++ y :: b) ++ hi) with ((lo ++ a) ++ x :: m ++ y :: b ++ hi) by app_norm. rewrite swap_at by lens. app_norm.
Qed.

Lemma partition_spec (lo w hi : list A) E :
  6 < len w ->
  mspec (quick_partition cmp (lo ++ w ++ hi) (len lo) (len w))
    (fun '(t, lt, gt) => exists p L B G, t = lo ++ (L ++ B ++ G) ++ hi /\ L ++ B ++ G ≡ₚ w /\
       Forall (fun x => le x p) L /\ Forall (same_key p) B /\ Forall (le p) G /\ (1 <= length B)%nat /\ lt = len L /\ gt = len L + len B) E.
Proof.
  intros Hw. unfold quick_partition. set (m4 := Z.shiftr (len w) 2). cbv zeta.
  assert (1 <= m4 /\ 4 * m4 <= len w) as [Hm1 Hm2].
  { unfold m4. rewrite Z.shiftr_div_pow2 by lia. change (2 ^ 2) with 4. pose proof (Z.div_mod (len w) 4 ltac:(lia)). pose proof (Z.mod_pos_bound (len w) 4 ltac:(lia)). lia. }
  clearbody m4. pose proof (len_nonneg lo). pose proof (len_nonneg hi).
  eapply mspec_bind; [apply med3_spec; rewrite !len_app; lia|]. intros m Hm. cbv beta in Hm.
  destruct (swap_window lo w hi (len lo) m) as (a & x & mid & p & b & Ew & Ha & _ & ->); [lia|lia|].
  destruct a as [|z a]; [|lens]. cbn [app] in *. rewrite ret_bind. set (U := mid ++ x :: b).
  assert (len w = 1 + len U) as Hlw by (subst w U; lens).
  replace (lo ++ (p :: mid ++ x :: b) ++ hi) with (lo ++ p :: [] ++ [] ++ U ++ [] ++ [] ++ hi) by (unfold U; app_norm).
  eapply mspec_bind; [apply (partition_loop_spec (Z.to_nat (len w)) lo [] [] U [] [] hi p); try apply Forall_nil_2; lens|].
  intros [[[t i] lt] gt] (E1 & L & G & E2 & -> & Hperm & HE1 & HL & HG & HE2 & Hlt & Hi & Hgt). cbn [app] in Hperm. rewrite !app_nil_r in Hperm.
  pose proof (Permutation_length Hperm) as Hlp. rewrite !length_app in Hlp.
  destruct (rotate_at (p :: E1) L lo (G ++ E2 ++ hi) (len lo) (len lo + i - (if i - lt <? lt then i - lt else lt)) (if i - lt <? lt then i - lt else lt)) as (X & L' & E1' & HX & HL').
  { reflexivity. } { rewrite len_cons. case_tests; lia. } { rewrite len_cons. lia. }
  replace (lo ++ p :: E1 ++ L ++ G ++ E2 ++ hi) with (lo ++ (p :: E1) ++ L ++ G ++ E2 ++ hi) by app_norm. rewrite E1', ret_bind.
  assert (length X = S (length E1) /\ length L' = length L) as [HlX HlL] by (split; [rewrite HX|rewrite HL']; reflexivity).
  destruct (rotate_at G E2 (lo ++ L' ++ X) hi (len lo + i) (len lo + len w - (if gt - i <? len w - gt then gt - i else len w - gt)) (if gt - i <? len w - gt then gt - i else len w - gt)) as (G' & E2' & E2s & HG' & HE2').
  { lens. } { assert (len w - gt = len E2) as -> by lens. assert (gt - i = len G) as -> by lens. case_tests; lia. } { assert (len w = len (p :: E1) + len L + len G + len E2) by lens. lens. }
  replace (lo ++ L' ++ X ++ G ++ E2 ++ hi) with ((lo ++ L' ++ X) ++ G ++ E2 ++ hi) by app_norm. rewrite E2s, ret_bind. apply mspec_ret.
  exists p, L', (X ++ E2'), G'. split; [app_norm|].
  assert (same_key p p) as Hpp by (split; reflexivity).
  split; [|split; [rewrite HL'; exact HL|split; [apply Forall_app; split; [rewrite HX; constructor; assumption|rewrite HE2'; exact HE2]|split; [rewrite HG'; exact HG|]]]].
  - rewrite HL', HX, HE2', HG', Ew. transitivity (p :: U); [rewrite <- Hperm; solve_Permutation|]. unfold U. solve_Permutation.
  - assert (length E2' = length E2) by (rewrite HE2'; reflexivity). assert (length G' = length G) by (rewrite HG'; reflexivity). lens.
Qed.

End SortSpecs.
