(* ===== verification/SortTheorems.v ===== *)
(** [heapsortx] sorts: the heap order and its preservation by the sift loop.

    The main loop of [rqsort]: the array is in order except inside the pending
    segments, the stack never overflows, and the loops end.

    The theorem on [rqsort], with its witness. *)
From Stdlib Require Import ZArith Lia Sorting.Sorted.
From S2P Require Import Prelude Sort SortSpecs.
From stdpp Require Import base tactics numbers sorting list.

Open Scope Z_scope.

Section HeapSort.
Context {A : Type} (cmp : A -> A -> M Z) (le : A -> A -> Prop) `{!PreOrder le}.
Context (Hcmp : consistent cmp le).

Definition child (k c : nat) : Prop := c = (2 * k + 1)%nat \/ c = (2 * k + 2)%nat.

(** Element [k] is not smaller than its children. *)
Definition node_ok (w : list A) (k : nat) : Prop :=
  forall c x y, child k c -> w !! k = Some x -> w !! c = Some y -> le y x.

Definition heap_from (a : nat) (w : list A) : Prop := forall k, (a <= k)%nat -> node_ok w k.

(** A heap but for the node [r], whose children are not above its parent. *)
Definition heap_but (a r : nat) (w : list A) : Prop :=
  (forall k, (a <= k)%nat -> k <> r -> node_ok w k) /\
  (forall q c x y, (a <= q)%nat -> child q r -> child r c -> w !! q = Some x -> w !! c = Some y -> le y x).

(** Exchanging the elements [r] and [c]. *)
Definition exchange (w : list A) (r c : nat) (x y : A) : list A := <[c := x]> (<[r := y]> w).

Lemma swap_window_lookup (lo w hi : list A) r c x y :
  w !! r = Some x -> w !! c = Some y -> r <> c ->
  swap (lo ++ w ++ hi) (len lo + Z.of_nat r) (len lo + Z.of_nat c) = mret (lo ++ exchange w r c x y ++ hi) /\ exchange w r c x y ≡ₚ w.
Proof.
  intros Hr Hc Hne. pose proof (lookup_lt_Some _ _ _ Hr) as Hr'. pose proof (lookup_lt_Some _ _ _ Hc) as Hc'. split.
  - assert (forall k z, w !! k = Some z -> tab_get (lo ++ w ++ hi) (len lo + Z.of_nat k) = mret z) as Hget.
    { intros k z Hk. apply tab_get_lookup; [unfold len; lia|]. rewrite lookup_app_r by (unfold len; lia).
      replace (Z.to_nat (len lo + Z.of_nat k) - length lo)%nat with k by (unfold len; lia). apply lookup_app_l_Some, Hk. }
    assert (forall (v : list A) k z, (k < length v)%nat -> tab_set (lo ++ v ++ hi) (len lo + Z.of_nat k) z = mret (lo ++ <[k := z]> v ++ hi)) as Hset.
    { intros v k z Hk. unfold tab_set. rewrite (proj2 (Z.leb_le _ _)), (proj2 (Z.ltb_lt _ _)) by (unfold len; rewrite ?length_app; lia). cbn [andb].
      rewrite insert_app_r_alt by (unfold len; lia). replace (Z.to_nat (len lo + Z.of_nat k) - length lo)%nat with k by (unfold len; lia).
      rewrite insert_app_l by exact Hk. reflexivity. }
    unfold swap, exchange. rewrite (Hget r x Hr), ret_bind, (Hget c y Hc), ret_bind, (Hset w r y Hr'), ret_bind. apply Hset. rewrite length_insert. exact Hc'.
  - apply Permutation_insert_swap; assumption.
Qed.

Lemma exchange_lookup (w : list A) r c x y i :
  (r < length w)%nat -> (c < length w)%nat ->
  exchange w r c x y !! i = if decide (i = c) then Some x else if decide (i = r) then Some y else w !! i.
Proof.
  intros Hr Hc. unfold exchange. destruct (decide (i = c)) as [->|H1].
  - apply list_lookup_insert_eq. rewrite length_insert. exact Hc.
  - rewrite list_lookup_insert_ne by congruence. destruct (decide (i = r)) as [->|H2]; [apply list_lookup_insert_eq, Hr|].
    rewrite list_lookup_insert_ne by congruence. reflexivity.
Qed.

Lemma child_lt k c : child k c -> (k < c)%nat.
Proof. intros [->| ->]; lia. Qed.

Lemma child_inj k k' c : child k c -> child k' c -> k = k'.
Proof. intros [->| ->] [H|H]; lia. Qed.

(** One step down: the greater child [c] changes places with its parent. *)
Lemma sift_step a r c (w : list A) x y :
  heap_but a r w -> (a <= r)%nat -> w !! r = Some x -> w !! c = Some y -> child r c ->
  (forall c' z, child r c' -> w !! c' = Some z -> le z y) -> le x y ->
  heap_but a c (exchange w r c x y).
Proof.
  intros [H1 H2] Har Hx Hy Hc Hmax Hxy. pose proof (lookup_lt_Some _ _ _ Hx) as Hr'. pose proof (lookup_lt_Some _ _ _ Hy) as Hc'.
  pose proof (child_lt _ _ Hc) as Hrc. split.
  - intros k Hk Hkc c' u v Hch. rewrite !exchange_lookup by assumption. rewrite decide_False by exact Hkc.
    pose proof (child_lt _ _ Hch). destruct (decide (k = r)) as [->|Hkr].
    + intros [= <-]. destruct (decide (c' = c)) as [->|Hne]; [intros [= <-]; exact Hxy|]. rewrite decide_False by lia. apply Hmax, Hch.
    + intros Hu. destruct (decide (c' = c)) as [->|Hne]; [destruct Hkr; exact (child_inj _ _ _ Hch Hc)|].
      destruct (decide (c' = r)) as [->|Hne']; [intros [= <-]; exact (H2 k c u y Hk Hch Hc Hu Hy)|]. intros Hv. exact (H1 k Hk Hkr c' u v Hch Hu Hv).
  - intros q d u v Hq Hqc Hcd. assert (q = r) as -> by exact (child_inj _ _ _ Hqc Hc). pose proof (child_lt _ _ Hcd).
    rewrite !exchange_lookup by assumption. rewrite decide_False by lia. rewrite decide_True by reflexivity. intros [= <-].
    rewrite !decide_False by lia. intros Hv. exact (H1 c ltac:(lia) ltac:(lia) d y v Hcd Hy Hv).
Qed.

Lemma get_window (lo w hi : list A) i k x : w !! k = Some x -> i = len lo + Z.of_nat k -> tab_get (lo ++ w ++ hi) i = mret x.
Proof.
  intros Hk ->. apply tab_get_lookup; [unfold len; lia|]. rewrite lookup_app_r by (unfold len; lia).
  replace (Z.to_nat (len lo + Z.of_nat k) - length lo)%nat with k by (unfold len; lia). apply lookup_app_l_Some, Hk.
Qed.

(** The choice of the greater child. *)
Lemma greater_child (lo w hi : list A) r E :
  (2 * r + 1 < length w)%nat ->
  mspec (if 2 * Z.of_nat r + 1 <? len w - 1
         then k ← cmp_at cmp (lo ++ w ++ hi) (len lo + (2 * Z.of_nat r + 1)) (len lo + (2 * Z.of_nat r + 1) + 1);
              mret (if k <=? 0 then 2 * Z.of_nat r + 1 + 1 else 2 * Z.of_nat r + 1)
         else mret (2 * Z.of_nat r + 1))
    (fun c => exists n y, c = Z.of_nat n /\ child r n /\ w !! n = Some y /\ forall c' z, child r c' -> w !! c' = Some z -> le z y) E.
Proof.
  intros Hr. destruct (lookup_lt_is_Some_2 w (2 * r + 1)%nat Hr) as [y Hy].
  destruct (Z.ltb_spec (2 * Z.of_nat r + 1) (len w - 1)) as [Hlt|Hge].
  - destruct (lookup_lt_is_Some_2 w (2 * r + 2)%nat) as [z Hz]; [unfold len in Hlt; lia|].
    eapply mspec_bind.
    { eapply (cmp_spec cmp le Hcmp _ _ _ y z (fun k => (k <= 0 -> le y z) /\ (0 <= k -> le z y)));
        [apply (get_window _ _ _ _ _ _ Hy); lia|apply (get_window _ _ _ _ _ _ Hz); lia|auto]. }
    intros k [Hk1 Hk2]. apply mspec_ret. destruct (Z.leb_spec k 0) as [Hk|Hk].
    + exists (2 * r + 2)%nat, z. split; [lia|]. split; [right; reflexivity|]. split; [exact Hz|].
      intros c' v [->| ->] Hv; [rewrite Hy in Hv|rewrite Hz in Hv]; injection Hv as <-; [auto|reflexivity].
    + exists (2 * r + 1)%nat, y. split; [lia|]. split; [left; reflexivity|]. split; [exact Hy|].
      intros c' v [->| ->] Hv; [rewrite Hy in Hv|rewrite Hz in Hv]; injection Hv as <-; [reflexivity|apply Hk2; lia].
  - apply mspec_ret. exists (2 * r + 1)%nat, y. split; [lia|]. split; [left; reflexivity|]. split; [exact Hy|].
    intros c' v [->| ->] Hv; [rewrite Hy in Hv; injection Hv as <-; reflexivity|].
    apply lookup_lt_Some in Hv. unfold len in Hge. lia.
Qed.

Lemma heap_all a r (w : list A) : heap_but a r w -> node_ok w r -> heap_from a w.
Proof. intros [H _] Hr k Hk. destruct (decide (k = r)) as [->|Hne]; auto. Qed.

Lemma sift_spec fuel a r (lo w hi : list A) E :
  heap_but a r w -> (a <= r < length w)%nat -> (length w <= fuel + r)%nat ->
  mspec (sift cmp fuel (lo ++ w ++ hi) (len lo) (Z.of_nat r) (len w))
    (fun t => exists w', t = lo ++ w' ++ hi /\ w' ≡ₚ w /\ heap_from a w') E.
Proof.
  revert r w. induction fuel as [|fuel IH]; intros r w Hh Hr Hf; cbn [sift]; cbv zeta; [lia|].
  destruct (lookup_lt_is_Some_2 w r) as [x Hx]; [lia|].
  destruct (Z.ltb_spec (2 * Z.of_nat r + 1) (len w)) as [Hlt|Hge].
  - 
    eapply mspec_bind; [apply (greater_child lo w hi r E); unfold len in Hlt; lia|]. intros c (n & y & -> & Hch & Hy & Hmax).
    pose proof (child_lt _ _ Hch) as Hrn. pose proof (lookup_lt_Some _ _ _ Hy) as Hn.
    eapply mspec_bind.
    { eapply (cmp_spec cmp le Hcmp _ _ _ x y (fun k => (k <= 0 -> le x y) /\ (0 <= k -> le y x)));
        [apply (get_window _ _ _ _ _ _ Hx); lia|apply (get_window _ _ _ _ _ _ Hy); lia|auto]. }
    intros k [Hk1 Hk2]. destruct (Z.ltb_spec 0 k) as [Hk|Hk].
    + apply mspec_ret. exists w. split; [reflexivity|]. split; [reflexivity|]. apply (heap_all a r w Hh).
      intros c' u v Hc' Hu Hv. rewrite Hx in Hu. injection Hu as <-. transitivity y; [exact (Hmax c' v Hc' Hv)|apply Hk2; lia].
    + destruct (swap_window_lookup lo w hi r n x y Hx Hy ltac:(lia)) as [-> Hp]. rewrite ret_bind.
      assert (length (exchange w r n x y) = length w) as Hl by (unfold exchange; rewrite !length_insert; reflexivity).
      replace (len w) with (len (exchange w r n x y)) by (unfold len; rewrite Hl; reflexivity).
      eapply mspec_mono with (E := E); [apply (IH n (exchange w r n x y)); [apply (sift_step a r n w x y); auto; lia|lia|lia]| |auto].
      intros t (w' & -> & Hp' & Hh'). exists w'. split; [reflexivity|]. split; [rewrite Hp'; exact Hp|exact Hh'].
  - apply mspec_ret. exists w. split; [reflexivity|]. split; [reflexivity|]. apply (heap_all a r w Hh).
    intros c u v Hc Hu Hv. apply lookup_lt_Some in Hv. unfold len in Hge. destruct Hc; lia.
Qed.

Lemma heap_but_next a (w : list A) : heap_from (S a) w -> heap_but a a w.
Proof.
  intros H. split; [intros k Hk Hne; apply H; lia|]. intros q c x y Hq Hqa. apply child_lt in Hqa. lia.
Qed.

Lemma heapify_spec i (lo w hi : list A) E :
  heap_from i w -> (i <= length w)%nat ->
  mspec (heapify cmp i (lo ++ w ++ hi) (len lo) (len w)) (fun t => exists w', t = lo ++ w' ++ hi /\ w' ≡ₚ w /\ heap_from 0 w') E.
Proof.
  revert w. induction i as [|i IH]; intros w Hh Hi; cbn [heapify].
  - apply mspec_ret. exists w. auto.
  - eapply mspec_bind; [apply (sift_spec (Z.to_nat (len w)) i i lo w hi E (heap_but_next i w Hh)); unfold len; lia|].
    intros t (w1 & -> & Hp1 & Hh1). replace (len w) with (len w1) by (unfold len; rewrite Hp1; reflexivity).
    eapply mspec_mono with (E := E); [apply (IH w1 Hh1); rewrite Hp1; lia| |auto].
    intros t (w' & -> & Hp & Hh'). exists w'. split; [reflexivity|]. split; [rewrite Hp; exact Hp1|exact Hh'].
Qed.

Lemma root_max (w : list A) x k y : heap_from 0 w -> w !! 0%nat = Some x -> w !! k = Some y -> le y x.
Proof.
  intros Hh Hx. revert y. induction k as [k IH] using lt_wf_ind; intros y Hy. destruct k as [|k]; [rewrite Hx in Hy; injection Hy as <-; reflexivity|].
  assert (child (k / 2) (S k)) as Hch.
  { unfold child. pose proof (Nat.div_mod_eq k 2). pose proof (Nat.mod_upper_bound k 2 ltac:(lia)). lia. }
  pose proof (child_lt _ _ Hch) as Hlt. destruct (lookup_lt_is_Some_2 w (k / 2)) as [u Hu]; [apply lookup_lt_Some in Hy; lia|].
  transitivity u; [exact (Hh _ ltac:(lia) _ _ _ Hch Hu Hy)|exact (IH _ Hlt u Hu)].
Qed.

Lemma drain_spec i (lo w hi : list A) E :
  heap_from 0 w -> length w = S i ->
  mspec (drain cmp i (lo ++ w ++ hi) (len lo)) (fun t => exists s, t = lo ++ s ++ hi /\ s ≡ₚ w /\ StronglySorted le s) E.
Proof.
  revert w hi. induction i as [|i IH]; intros w hi Hh Hl.
  - apply mspec_ret. exists w. destruct w as [|x [|y w]]; cbn in Hl; try lia. split; [reflexivity|]. split; [reflexivity|]. repeat constructor.
  - destruct w as [|x w]; [cbn in Hl; lia|]. destruct w as [|y mid _] using rev_ind; [cbn in Hl; lia|]. cbn [drain].
    assert (length mid = i) as Hmid by (cbn in Hl; rewrite length_app in Hl; cbn in Hl; lia).
    replace (lo ++ (x :: mid ++ [y]) ++ hi) with (lo ++ x :: mid ++ y :: hi) by app_norm.
    rewrite swap_at, ret_bind by (unfold len; lia).
    replace (lo ++ y :: mid ++ x :: hi) with (lo ++ (y :: mid) ++ x :: hi) by app_norm.
    assert (Z.of_nat (S i) = len (y :: mid)) as -> by lens.
    assert (forall k z, (y :: mid) !! k = Some z -> k <> 0%nat -> (x :: mid ++ [y]) !! k = Some z) as Hsame.
    { intros [|k] z Hz Hk; [congruence|]. cbn in Hz |- *. apply lookup_app_l_Some, Hz. }
    eapply mspec_bind.
    { apply (sift_spec (S i) 0 0 lo (y :: mid) (x :: hi) E); [|cbn; lia|cbn; lia]. split.
      - intros k _ Hk c u v Hch Hu Hv. pose proof (child_lt _ _ Hch). exact (Hh k ltac:(lia) c u v Hch (Hsame _ _ Hu Hk) (Hsame _ _ Hv ltac:(lia))).
      - intros q c u v _ Hq. apply child_lt in Hq. lia. }
    intros t (w1 & -> & Hp1 & Hh1). eapply mspec_mono with (E := E); [apply (IH w1 (x :: hi) Hh1); rewrite Hp1; cbn; lia| |auto].
    intros t (s & -> & Hp & Hs). exists (s ++ [x]). split; [app_norm|]. split; [rewrite Hp, Hp1; solve_Permutation|].
    apply sorted_app; [exact Hs|repeat constructor|]. intros a b Ha Hb. apply list_elem_of_singleton in Hb as ->.
    rewrite Hp, Hp1 in Ha. assert (a ∈ x :: mid ++ [y]) as Ha' by (rewrite elem_of_cons in Ha; rewrite elem_of_cons, elem_of_app, list_elem_of_singleton; tauto). apply list_elem_of_lookup in Ha' as [k Hk].
    exact (root_max _ x k a Hh eq_refl Hk).
Qed.

Lemma heapsortx_spec (lo w hi : list A) E :
  mspec (heapsortx cmp (lo ++ w ++ hi) (len lo) (len w)) (fun t => exists s, t = lo ++ s ++ hi /\ s ≡ₚ w /\ StronglySorted le s) E.
Proof.
  unfold heapsortx. destruct (Z.ltb_spec 1 (len w)) as [Hlt|Hge].
  - eapply mspec_bind.
    { apply (heapify_spec (Z.to_nat (len w / 2)) lo w hi E).
      - intros k Hk c x y Hch Hx Hy. apply lookup_lt_Some in Hy. unfold len in *.
        pose proof (Z.div_mod (Z.of_nat (length w)) 2 ltac:(lia)). pose proof (Z.mod_pos_bound (Z.of_nat (length w)) 2 ltac:(lia)). destruct Hch; lia.
      - unfold len. pose proof (Z.div_le_upper_bound (Z.of_nat (length w)) 2 (Z.of_nat (length w)) ltac:(lia) ltac:(lia)). lia. }
    intros t (w1 & -> & Hp1 & Hh1). assert (length w1 = length w) as Hl by (rewrite Hp1; reflexivity).
    eapply mspec_mono with (E := E); [apply (drain_spec (Z.to_nat (len w - 1)) lo w1 hi E Hh1); unfold len in *; lia| |auto].
    intros t (s & -> & Hp & Hs). exists s. split; [reflexivity|]. split; [rewrite Hp; exact Hp1|exact Hs].
  - apply mspec_ret. exists w. split; [reflexivity|]. split; [reflexivity|]. unfold len in Hge. destruct w as [|x [|y w]]; cbn in Hge; [constructor|repeat constructor|lia].
Qed.

End HeapSort.

Section SortLoop.
Context {A : Type} (cmp : A -> A -> M Z) (le : A -> A -> Prop) `{!PreOrder le}.
Context (Hcmp : consistent cmp le).

(** ** Segments *)

Definition seg_base (s : segment) : Z := fst (fst s).
Definition seg_count (s : segment) : Z := snd (fst s).
Definition seg_depth (s : segment) : Z := snd s.

Definition inside (s : segment) (i : nat) : Prop := seg_base s <= Z.of_nat i < seg_base s + seg_count s.

Definition disjoint (s s' : segment) : Prop := forall i, inside s i -> ~ inside s' i.

Fixpoint disjoint_all (segs : list segment) : Prop :=
  match segs with [] => True | s :: segs => Forall (disjoint s) segs /\ disjoint_all segs end.

Definition seg_wf (t : list A) (s : segment) : Prop := 0 <= seg_base s /\ 0 <= seg_count s /\ seg_base s + seg_count s <= len t.

(** In order, except for pairs inside the same segment. *)
Definition ordered_but (segs : list segment) (t : list A) : Prop :=
  forall i j x y, (i < j)%nat -> t !! i = Some x -> t !! j = Some y -> (forall s, s ∈ segs -> ~ (inside s i /\ inside s j)) -> le x y.

Lemma window_out (lo w w' hi : list A) d i :
  length w = length w' -> ~ inside (len lo, len w, d) i -> (lo ++ w ++ hi) !! i = (lo ++ w' ++ hi) !! i.
Proof.
  intros Hl Hi. unfold inside, seg_base, seg_count in Hi. cbn [fst snd] in Hi. unfold len in Hi.
  destruct (Nat.lt_ge_cases i (length lo)); [rewrite !lookup_app_l by assumption; reflexivity|]. rewrite !(lookup_app_r lo) by assumption.
  rewrite !lookup_app_r by lia. rewrite Hl. reflexivity.
Qed.

Lemma window_in (lo w hi : list A) d i x :
  inside (len lo, len w, d) i -> (lo ++ w ++ hi) !! i = Some x <-> w !! (i - length lo)%nat = Some x.
Proof.
  unfold inside, seg_base, seg_count, len. cbn [fst snd]. intros Hi. rewrite lookup_app_r, lookup_app_l by lia. reflexivity.
Qed.

Lemma window_elem (lo w hi : list A) d x : x ∈ w -> exists i, inside (len lo, len w, d) i /\ (lo ++ w ++ hi) !! i = Some x.
Proof.
  intros [k Hk]%list_elem_of_lookup. pose proof (lookup_lt_Some _ _ _ Hk). exists (length lo + k)%nat.
  assert (inside (len lo, len w, d) (length lo + k)) as Hin by (unfold inside, seg_base, seg_count, len; cbn [fst snd]; lia).
  split; [exact Hin|]. apply (window_in lo w hi d _ x Hin). replace (length lo + k - length lo)%nat with k by lia. exact Hk.
Qed.

(** Permuting the elements of a segment keeps the order outside. *)
Lemma ordered_permute (lo w w' hi : list A) d segs :
  w' ≡ₚ w -> Forall (disjoint (len lo, len w, d)) segs ->
  ordered_but ((len lo, len w, d) :: segs) (lo ++ w ++ hi) -> ordered_but ((len lo, len w, d) :: segs) (lo ++ w' ++ hi).
Proof.
  intros Hp Hd Ho i j x y Hij Hx Hy Hno. set (s := (len lo, len w, d)) in *. assert (length w' = length w) as Hl by (rewrite Hp; reflexivity).
  assert (s = (len lo, len w', d)) as Es by (unfold s, len; rewrite Hl; reflexivity).
  assert (forall k z, ~ inside s k -> (lo ++ w' ++ hi) !! k = Some z -> (lo ++ w ++ hi) !! k = Some z) as Hout.
  { intros k z Hk Hz. rewrite (window_out lo w w' hi d k); [exact Hz|lia|exact Hk]. }
  assert (forall k z, inside s k -> (lo ++ w' ++ hi) !! k = Some z -> exists k', inside s k' /\ (lo ++ w ++ hi) !! k' = Some z) as Hin.
  { intros k z Hk Hz. apply window_elem. rewrite <- Hp. rewrite Es in Hk. apply (window_in lo w' hi d k z Hk) in Hz.
    exact (list_elem_of_lookup_2 _ _ _ Hz). }
  assert (forall k l, inside s k -> ~ inside s l -> forall s', s' ∈ s :: segs -> ~ (inside s' k /\ inside s' l)) as Hcross.
  { intros k l Hk Hl' s' Hs' [H1 H2]. apply elem_of_cons in Hs' as [->|Hs']; [contradiction|].
    rewrite Forall_forall in Hd. exact (Hd s' Hs' k Hk H1). }
  destruct (decide (inside s i)) as [Hi|Hi]; destruct (decide (inside s j)) as [Hj|Hj].
  - destruct (Hno s ltac:(left) (conj Hi Hj)).
  - destruct (Hin i x Hi Hx) as (k & Hk & Hxk). apply (Ho k j x y); [|exact Hxk|apply Hout; assumption|apply (Hcross k j Hk Hj)].
    unfold inside in *. lia.
  - destruct (Hin j y Hj Hy) as (k & Hk & Hyk). apply (Ho i k x y); [unfold inside in *; lia|apply Hout; assumption|exact Hyk|].
    intros s' Hs' [H1 H2]. exact (Hcross k i Hk Hi s' Hs' (conj H2 H1)).
  - apply (Ho i j x y Hij); [apply Hout; assumption|apply Hout; assumption|exact Hno].
Qed.

Lemma sorted_lookup (w : list A) i j x y : StronglySorted le w -> (i < j)%nat -> w !! i = Some x -> w !! j = Some y -> le x y.
Proof.
  intros Hs Hij Hx Hy. destruct (split_at w i x Hx) as (w1 & w2 & -> & Hl). apply sorted_app_inv in Hs as (_ & Hs & _).
  apply StronglySorted_inv in Hs as [_ Hall]. rewrite lookup_app_r in Hy by lia. destruct (j - length w1)%nat as [|k] eqn:Ek; [lia|].
  cbn in Hy. rewrite Forall_forall in Hall. exact (Hall y (list_elem_of_lookup_2 _ _ _ Hy)).
Qed.

(** A sorted segment is done. *)
Lemma ordered_close (lo w hi : list A) d segs :
  StronglySorted le w -> ordered_but ((len lo, len w, d) :: segs) (lo ++ w ++ hi) -> ordered_but segs (lo ++ w ++ hi).
Proof.
  intros Hs Ho i j x y Hij Hx Hy Hno. set (s := (len lo, len w, d)).
  destruct (decide (inside s i /\ inside s j)) as [[Hi Hj]|Hn].
  - apply (window_in lo w hi d _ _ Hi) in Hx. apply (window_in lo w hi d _ _ Hj) in Hy.
    apply (sorted_lookup w (i - length lo) (j - length lo)); [exact Hs| |exact Hx|exact Hy]. unfold inside, s, seg_base, len in Hi. cbn in Hi. lia.
  - apply (Ho i j x y Hij Hx Hy). intros s' Hs'. apply elem_of_cons in Hs' as [->|Hs']; auto.
Qed.

(** A partitioned segment leaves two. *)
Lemma ordered_split (lo L B G hi : list A) p d d1 d2 segs :
  Forall (fun x => le x p) L -> Forall (same_key le p) B -> Forall (le p) G ->
  ordered_but ((len lo, len (L ++ B ++ G), d) :: segs) (lo ++ (L ++ B ++ G) ++ hi) ->
  ordered_but ((len lo, len L, d1) :: (len lo + len L + len B, len G, d2) :: segs) (lo ++ (L ++ B ++ G) ++ hi).
Proof.
  intros HL HB HG Ho i j x y Hij Hx Hy Hno. set (s := (len lo, len (L ++ B ++ G), d)).
  destruct (decide (inside s i /\ inside s j)) as [[Hi Hj]|Hn].
  - pose proof (Hno (len lo, len L, d1) ltac:(left)) as N1. pose proof (Hno (len lo + len L + len B, len G, d2) ltac:(right; left)) as N2.
    apply (window_in lo _ hi d _ _ Hi) in Hx. apply (window_in lo _ hi d _ _ Hj) in Hy.
    unfold inside, s, seg_base, seg_count, len in *. cbn [fst snd] in *. rewrite !length_app in *. rewrite Forall_forall in HL, HB, HG.
    assert (le x p) as Hxp.
    { apply lookup_app_Some in Hx as [Hx|[Hl Hx]]; [exact (HL x (list_elem_of_lookup_2 _ _ _ Hx))|].
      apply lookup_app_Some in Hx as [Hx|[Hl' Hx]]; [apply (HB x (list_elem_of_lookup_2 _ _ _ Hx))|]. apply lookup_lt_Some in Hx. lia. }
    transitivity p; [exact Hxp|]. apply lookup_app_Some in Hy as [Hy|[Hl Hy]].
    + apply lookup_lt_Some in Hy. lia.
    + apply lookup_app_Some in Hy as [Hy|[Hl' Hy]]; [apply (HB y (list_elem_of_lookup_2 _ _ _ Hy))|exact (HG y (list_elem_of_lookup_2 _ _ _ Hy))].
  - apply (Ho i j x y Hij Hx Hy). intros s' Hs'. apply elem_of_cons in Hs' as [->|Hs']; [exact Hn|]. apply Hno. right. right. exact Hs'.
Qed.

Lemma ordered_sub segs segs' t : (forall s, s ∈ segs -> s ∈ segs') -> ordered_but segs t -> ordered_but segs' t.
Proof. intros H Ho i j x y Hij Hx Hy Hno. apply (Ho i j x y Hij Hx Hy). auto. Qed.

Lemma ordered_sorted t : ordered_but [] t -> StronglySorted le t.
Proof.
  induction t as [|x t IH]; intros Ho; [constructor|]. constructor.
  - apply IH. intros i j a b Hij Ha Hb Hno. apply (Ho (S i) (S j) a b); [lia|exact Ha|exact Hb|]. intros s Hs. inversion Hs.
  - apply Forall_forall. intros y [k Hk]%list_elem_of_lookup. apply (Ho 0%nat (S k) x y); [lia|reflexivity|exact Hk|]. intros s Hs. inversion Hs.
Qed.

(** ** The loops *)

(** An entry with [k] entries below it has depth at least [k]. *)
Fixpoint depth_ok (stack : list segment) : Prop :=
  match stack with [] => True | s :: stack => len stack <= seg_depth s <= 50 /\ depth_ok stack end.

(** Every element and every segment still to look at. *)
Fixpoint weight (segs : list segment) : Z := match segs with [] => 0 | s :: segs => seg_count s + 1 + weight segs end.

Record sorting (t0 t : list A) (segs : list segment) : Prop := {
  so_perm : t ≡ₚ t0;
  so_wf : Forall (seg_wf t) segs;
  so_disjoint : disjoint_all segs;
  so_ordered : ordered_but segs t
}.

(** The elements of the first segment. *)
Lemma sorting_window t0 t s segs :
  sorting t0 t (s :: segs) -> exists lo w hi, t = lo ++ w ++ hi /\ seg_base s = len lo /\ seg_count s = len w /\ s = (len lo, len w, seg_depth s).
Proof.
  intros [_ Hwf _ _]. apply Forall_inv in Hwf as (H1 & H2 & H3). destruct s as [[b n] d]. unfold seg_base, seg_count, seg_depth in *. cbn [fst snd] in *.
  exists (take (Z.to_nat b) t), (take (Z.to_nat n) (drop (Z.to_nat b) t)), (drop (Z.to_nat n) (drop (Z.to_nat b) t)).
  rewrite take_drop, take_drop. split; [reflexivity|]. unfold len in *. rewrite !length_take, length_drop.
  split; [lia|]. split; [lia|]. f_equal. f_equal; lia.
Qed.

Lemma seg_wf_len t t' s : len t = len t' -> seg_wf t s -> seg_wf t' s.
Proof. unfold seg_wf. intros ->. auto. Qed.

(** The first segment was permuted. *)
Lemma sorting_permute t0 (lo w w' hi : list A) d segs :
  sorting t0 (lo ++ w ++ hi) ((len lo, len w, d) :: segs) -> w' ≡ₚ w -> sorting t0 (lo ++ w' ++ hi) ((len lo, len w, d) :: segs).
Proof.
  intros [Hp Hwf Hd Ho] Hw. assert (len (lo ++ w' ++ hi) = len (lo ++ w ++ hi)) as Hl by (unfold len; rewrite !length_app, Hw; reflexivity).
  split; [rewrite Hw; exact Hp|eapply Forall_impl; [exact Hwf|intros s; apply seg_wf_len; lia]|exact Hd|].
  apply (ordered_permute lo w w' hi d segs Hw); [apply Hd|exact Ho].
Qed.

(** The first segment was sorted. *)
Lemma sorting_close t0 (lo w w' hi : list A) d segs :
  sorting t0 (lo ++ w ++ hi) ((len lo, len w, d) :: segs) -> w' ≡ₚ w -> StronglySorted le w' -> sorting t0 (lo ++ w' ++ hi) segs.
Proof.
  intros Hs Hw Hsort. destruct (sorting_permute t0 lo w w' hi d segs Hs Hw) as [Hp Hwf Hd Ho].
  assert (len w = len w') as El by (unfold len; rewrite Hw; reflexivity). rewrite El in Ho.
  split; [exact Hp|apply Forall_inv_tail in Hwf; exact Hwf|apply Hd|exact (ordered_close lo w' hi d segs Hsort Ho)].
Qed.

(** The first segment was partitioned. *)
Lemma sorting_split t0 (lo L B G hi : list A) p d d1 d2 segs :
  sorting t0 (lo ++ (L ++ B ++ G) ++ hi) ((len lo, len (L ++ B ++ G), d) :: segs) ->
  Forall (fun x => le x p) L -> Forall (same_key le p) B -> Forall (le p) G ->
  sorting t0 (lo ++ (L ++ B ++ G) ++ hi) ((len lo, len L, d1) :: (len lo + len L + len B, len G, d2) :: segs).
Proof.
  intros [Hp Hwf Hd Ho] HL HB HG. apply Forall_cons in Hwf as [_ Hwf]. destruct Hd as [Hd1 Hd2].
  split; [exact Hp| | |exact (ordered_split lo L B G hi p d d1 d2 segs HL HB HG Ho)].
  - constructor; [|constructor; [|exact Hwf]]; unfold seg_wf, seg_base, seg_count; cbn [fst snd]; lens.
  - assert (forall s, (forall i, inside s i -> inside (len lo, len (L ++ B ++ G), d) i) -> Forall (disjoint s) segs) as Hsub.
    { intros s Hs. eapply Forall_impl; [exact Hd1|]. intros s' Hs' i Hi. apply Hs', Hs, Hi. }
    split; [constructor|split; [|exact Hd2]].
    + intros i. unfold inside, seg_base, seg_count. cbn [fst snd]. lens.
    + apply Hsub. intros i. unfold inside, seg_base, seg_count. cbn [fst snd]. lens.
    + apply Hsub. intros i. unfold inside, seg_base, seg_count. cbn [fst snd]. lens.
Qed.

(** The order of the first two segments does not matter. *)
Lemma sorting_swap t0 t s1 s2 segs : sorting t0 t (s1 :: s2 :: segs) -> sorting t0 t (s2 :: s1 :: segs).
Proof.
  intros [Hp Hwf (Hd1 & Hd2 & Hd) Ho]. apply Forall_cons in Hwf as [W1 Hwf]. apply Forall_cons in Hwf as [W2 Hwf]. apply Forall_cons in Hd1 as [D12 D1].
  split; [exact Hp|constructor; [exact W2|constructor; assumption]| |eapply ordered_sub; [|exact Ho]].
  - split; [constructor; [intros i H2 H1; exact (D12 i H1 H2)|exact Hd2]|]. split; [exact D1|exact Hd].
  - intros s. rewrite !elem_of_cons. tauto.
Qed.

Lemma quick_loop_spec fuel t0 t ptr nmemb depth stack E :
  sorting t0 t ((ptr, nmemb, depth) :: stack) -> depth_ok ((ptr, nmemb, depth) :: stack) -> 51 <= depth + Z.of_nat fuel ->
  mspec (quick_loop cmp fuel t ptr nmemb depth stack)
    (fun '(t', ptr', nmemb', stack') => exists d, sorting t0 t' ((ptr', nmemb', d) :: stack') /\ depth_ok stack' /\
       weight ((ptr', nmemb', d) :: stack') <= weight ((ptr, nmemb, depth) :: stack)) E.
Proof.
  revert t ptr nmemb depth stack. induction fuel as [|fuel IH]; intros t ptr nmemb depth stack Hs [Hd Hst] Hf;
    unfold seg_depth in Hd; cbn [snd] in Hd; [lia|]. cbn [quick_loop].
  destruct (Z.ltb_spec 6 nmemb) as [Hn|Hn]; [|apply mspec_ret; exists depth; split; [exact Hs|]; split; [exact Hst|lia]].
  cbv zeta. destruct (sorting_window _ _ _ _ Hs) as (lo & w & hi & -> & Eb & Ec & _). unfold seg_base, seg_count in Eb, Ec. cbn [fst snd] in Eb, Ec. subst ptr nmemb.
  destruct (Z.ltb_spec 50 (depth + 1)) as [Hdeep|Hshallow].
  - eapply mspec_bind; [apply (heapsortx_spec cmp le Hcmp lo w hi E)|]. intros t (s & -> & Hp & Hsort). apply mspec_ret. exists depth.
    pose proof (sorting_close _ _ _ _ _ _ _ Hs Hp Hsort) as [H1 H2 H3 H4]. pose proof (len_nonneg w). split; [|split; [exact Hst|unfold weight, seg_count; cbn [fst snd]; lia]].
    split; [exact H1| | |eapply ordered_sub; [|exact H4]].
    + constructor; [|exact H2]. unfold seg_wf, seg_base, seg_count. cbn [fst snd]. lens.
    + split; [|exact H3]. apply Forall_forall. intros s' _ i. unfold inside, seg_base, seg_count. cbn [fst snd]. lia.
    + intros s'. rewrite elem_of_cons. tauto.
  - eapply mspec_bind; [apply (partition_spec cmp le Hcmp lo w hi E Hn)|].
    intros [[t lt] gt] (p & L & B & G & -> & Hp & HL & HB & HG & HB1 & -> & ->).
    assert (len w = len L + len B + len G) as Hlw by (unfold len; rewrite <- Hp, !length_app; lia).
    pose proof (sorting_permute _ _ _ _ _ _ _ Hs Hp) as Hs1. replace (len w) with (len (L ++ B ++ G)) in Hs1 by (unfold len; rewrite Hp; reflexivity).
    pose proof (sorting_split _ _ _ _ _ _ _ _ (depth + 1) (depth + 1) _ Hs1 HL HB HG) as Hs2.
    assert (1 <= len B) as HlB by (unfold len; lia). pose proof (len_nonneg L). pose proof (len_nonneg G).
    replace (len w - (len L + len B)) with (len G) by lia. replace (len lo + (len L + len B)) with (len lo + len L + len B) by lia.
    assert (forall s, push stack s = mret (s :: stack)) as Hpush by (intros s; unfold push; rewrite (proj2 (Z.ltb_lt _ _)) by lia; reflexivity).
    destruct (len G <? len L); rewrite Hpush, ret_bind.
    + eapply mspec_mono with (E := E); [apply (IH _ _ _ (depth + 1) ((len lo, len L, depth + 1) :: stack)); [apply sorting_swap; exact Hs2| |lia]| |auto].
      { cbn [depth_ok]. rewrite len_cons. unfold seg_depth. cbn [snd]. split; [lia|]. split; [lia|exact Hst]. }
      intros [[[t' ptr'] nmemb'] stack'] (d & G1 & G2 & G3). exists d. split; [exact G1|]. split; [exact G2|]. cbn [weight] in *. unfold seg_count in *. cbn [fst snd] in *. lia.
    + eapply mspec_mono with (E := E); [apply (IH _ _ _ (depth + 1) ((len lo + len L + len B, len G, depth + 1) :: stack)); [exact Hs2| |lia]| |auto].
      { cbn [depth_ok]. rewrite len_cons. unfold seg_depth. cbn [snd]. split; [lia|]. split; [lia|exact Hst]. }
      intros [[[t' ptr'] nmemb'] stack'] (d & G1 & G2 & G3). exists d. split; [exact G1|]. split; [exact G2|]. cbn [weight] in *. unfold seg_count in *. cbn [fst snd] in *. lia.
Qed.

Lemma weight_nonneg t segs : Forall (seg_wf t) segs -> 0 <= weight segs.
Proof. induction 1 as [|s segs (_ & H & _) _ IH]; cbn [weight]; lia. Qed.

Lemma sort_loop_spec fuel t0 t stack E :
  sorting t0 t stack -> depth_ok stack -> Forall (fun s => 0 <= seg_depth s) stack -> weight stack <= Z.of_nat fuel ->
  mspec (sort_loop cmp fuel t stack) (fun t' => t' ≡ₚ t0 /\ StronglySorted le t') E.
Proof.
  revert t stack. induction fuel as [|fuel IH]; intros t stack Hs Hst Hdep Hf.
  - destruct stack as [|s stack]; [apply mspec_ret; split; [apply (so_perm _ _ _ Hs)|apply ordered_sorted, (so_ordered _ _ _ Hs)]|].
    pose proof (so_wf _ _ _ Hs) as Hwf. apply Forall_cons in Hwf as [(_ & Hc & _) Hwf]. pose proof (weight_nonneg _ _ Hwf). cbn [weight] in Hf. lia.
  - destruct stack as [|[[ptr nmemb] depth] stack]; [apply mspec_ret; split; [apply (so_perm _ _ _ Hs)|apply ordered_sorted, (so_ordered _ _ _ Hs)]|].
    cbn [sort_loop]. apply Forall_inv in Hdep as Hdep0. unfold seg_depth in Hdep0. cbn [snd] in Hdep0.
    eapply mspec_bind; [apply (quick_loop_spec 51 t0 t ptr nmemb depth stack E Hs Hst); lia|].
    intros [[[t1 ptr1] nmemb1] stack1] (d & Hs1 & Hst1 & Hw1).
    destruct (sorting_window _ _ _ _ Hs1) as (lo & w & hi & -> & Eb & Ec & _). unfold seg_base, seg_count in Eb, Ec. cbn [fst snd] in Eb, Ec. subst ptr1 nmemb1.
    eapply mspec_bind; [apply (insertion_sort_spec cmp le Hcmp w lo hi E)|]. intros t2 (s & -> & Hp & Hsort).
    apply IH; [exact (sorting_close _ _ _ _ _ _ _ Hs1 Hp Hsort)|exact Hst1| |].
    + clear - Hst1. induction stack1 as [|s1 stack1 IH]; [constructor|]. destruct Hst1 as [H1 H2]. pose proof (len_nonneg stack1). constructor; [lia|auto].
    + cbn [weight] in *. unfold seg_count in *. cbn [fst snd] in *. pose proof (len_nonneg w). lia.
Qed.

Lemma rqsort_spec t : mspec (rqsort cmp t) (fun t' => t' ≡ₚ t /\ StronglySorted le t') no_exn.
Proof.
  unfold rqsort. destruct (Z.ltb_spec (len t) 2) as [Hlt|Hge].
  - apply mspec_ret. split; [reflexivity|]. unfold len in Hlt. destruct t as [|x [|y t]]; cbn in Hlt; [constructor|repeat constructor|lia].
  - apply sort_loop_spec.
    + split; [reflexivity| | |].
      * repeat constructor; unfold seg_base, seg_count; cbn [fst snd]; lia.
      * repeat constructor.
      * intros i j x y _ Hx Hy Hno. destruct (Hno (0, len t, 0) ltac:(left)). apply lookup_lt_Some in Hx. apply lookup_lt_Some in Hy.
        unfold inside, seg_base, seg_count, len. cbn [fst snd]. lia.
    + split; [unfold len; cbn [length seg_depth snd]; lia|exact I].
    + repeat constructor. cbn. lia.
    + cbn [weight]. unfold seg_count, len. cbn [fst snd]. lia.
Qed.

End SortLoop.

(** C17: [rqsort] ends, stays inside the array and its stack of 50 segments, and
    permutes the array, whatever the comparison answers; the result is sorted for
    every preorder that the comparison respects.  A comparison that contradicts
    itself, or answers differently each time, respects the preorder that holds
    always. *)
Theorem rqsort_sorts {A} (cmp : A -> A -> M Z) (le : A -> A -> Prop) t :
  PreOrder le -> consistent cmp le ->
  mspec (rqsort cmp t) (fun t' => t' ≡ₚ t /\ StronglySorted le t') no_exn.
Proof. intros HP Hc. exact (rqsort_spec cmp le Hc t). Qed.

(** ** Witnesses *)

Definition cmp_ints (x y : Z) : M Z := mret (x - y).

Lemma cmp_ints_consistent : consistent cmp_ints Z.le.
Proof. intros x y. apply mspec_ret. split; intros; lia. Qed.

Lemma rqsort_witness :
  mspec (rqsort cmp_ints [5; 3; 9; 3; 1; 8; 2; 7; 3; 0]) (fun t => t ≡ₚ [5; 3; 9; 3; 1; 8; 2; 7; 3; 0] /\ StronglySorted Z.le t) no_exn.
Proof. apply (rqsort_sorts cmp_ints Z.le); [exact Z.le_preorder|exact cmp_ints_consistent]. Defined.

(** A comparison that answers at random, from the answers of the allocator. *)
Definition cmp_random (x y : Z) : M Z := mbind (fun b : bool => mret (if b then 1 else -1)) try_alloc.

#[local] Instance always_preorder : PreOrder (fun _ _ : Z => True).
Proof. split; repeat intro; exact I. Qed.

Example rqsort_random : mspec (rqsort cmp_random [5; 3; 9; 3; 1; 8; 2; 7; 3; 0]) (fun t => t ≡ₚ [5; 3; 9; 3; 1; 8; 2; 7; 3; 0]) no_exn.
Proof.
  eapply mspec_mono with (E := no_exn); [apply (rqsort_spec cmp_random (fun _ _ : Z => True))|intros t [H _]; exact H|auto].
  intros x y. eapply mspec_bind; [apply mspec_try_alloc|]. intros b _. apply mspec_ret. split; auto.
Qed.

Example rqsort_run : fst (rqsort cmp_ints [5; 3; 9; 3; 1; 8; 2; 7; 3; 0] alloc_all) = Ok [0; 1; 2; 3; 3; 3; 5; 7; 8; 9].
Proof. vm_compute. reflexivity. Qed.
