(* ===== verification/Atoms.v ===== *)
(** Atoms (quickjs.c): the table that interns the property names and symbols of the
    engine, with its hash chains, its list of free entries and the reference counts:
    definitions.

    A string object is named by its address; [strings] is the heap of the string
    objects, atoms and plain strings alike, so that a string that becomes an atom is
    one object.  [atom_array] holds either the address of an atom or, tagged in the
    low bit of the pointer, the index of the next free entry.  An [int] that
    overflows is [Undefined]. *)
From Stdlib Require Import ZArith Lia String.
From S2P Require Import Prelude Cutils BigIntString JSString.
From stdpp Require Import base tactics list gmap numbers strings.

Open Scope Z_scope.

Notation ptr := positive.

Definition JS_ATOM_NULL : Z := 0.
Definition JS_ATOM_TYPE_STRING : Z := 1.
Definition JS_ATOM_TYPE_GLOBAL_SYMBOL : Z := 2.
Definition JS_ATOM_TYPE_SYMBOL : Z := 3.
Definition JS_ATOM_TYPE_PRIVATE : Z := 4.

Definition JS_ATOM_HASH_MASK : Z := Z.shiftl 1 30 - 1.
Definition JS_ATOM_HASH_PRIVATE : Z := JS_ATOM_HASH_MASK.

Definition JS_ATOM_TAG_INT : Z := Z.shiftl 1 31.
Definition JS_ATOM_MAX_INT : Z := JS_ATOM_TAG_INT - 1.
Definition JS_ATOM_MAX : Z := Z.shiftl 1 30 - 1.

Definition JS_ATOM_COUNT_RESIZE (n : Z) : Z := n * 2.

(** The object behind a [JSString *]: [str_of] is its width and its units. *)
Record string_object : Type := MkStr {
  str_of : JSString;
  str_rc : Z;
  hash : Z;
  atom_type : Z;
  hash_next : Z
}.

Inductive atom_slot : Type :=
| SFree (next : Z)
| SAtom (p : ptr).

#[export] Instance atom_slot_eq_dec : EqDecision atom_slot.
Proof. solve_decision. Defined.

(** The fields of [JSRuntime] that hold the atoms, and the string heap. *)
Record JSAtoms : Type := MkAtoms {
  strings : gmap ptr string_object;
  atom_hash_size : Z;
  atom_count : Z;
  atom_size : Z;
  atom_count_resize : Z;
  atom_hash : list Z;
  atom_array : list atom_slot;
  atom_free_index : Z
}.

(** The predefined atoms (quickjs-atom.h), in the order of their indices. *)
Definition js_atom_init : list string :=
  ["null"; "false"; "true"; "if"; "else"; "return"; "var"; "this"; "delete"; "void"; "typeof";
   "new"; "in"; "instanceof"; "do"; "while"; "for"; "break"; "continue"; "switch"; "case";
   "default"; "throw"; "try"; "catch"; "finally"; "function"; "debugger"; "with"; "class"; "const";
   "enum"; "export"; "extends"; "import"; "super"; "implements"; "interface"; "let"; "package";
   "private"; "protected"; "public"; "static"; "yield"; "await"; ""; "keys"; "size"; "length";
   "fileName"; "lineNumber"; "columnNumber"; "message"; "cause"; "errors"; "stack"; "name";
   "toString"; "toLocaleString"; "valueOf"; "eval"; "prototype"; "constructor"; "configurable";
   "writable"; "enumerable"; "value"; "get"; "set"; "of"; "__proto__"; "undefined"; "number";
   "boolean"; "string"; "object"; "symbol"; "integer"; "unknown"; "arguments"; "callee"; "caller";
   "<eval>"; "<ret>"; "<var>"; "<arg_var>"; "<with>"; "lastIndex"; "target"; "index"; "input";
   "defineProperties"; "apply"; "join"; "concat"; "split"; "construct"; "getPrototypeOf";
   "setPrototypeOf"; "isExtensible"; "preventExtensions"; "has"; "deleteProperty";
   "defineProperty"; "getOwnPropertyDescriptor"; "ownKeys"; "add"; "done"; "next"; "values";
   "source"; "flags"; "global"; "unicode"; "raw"; "new.target"; "this.active_func";
   "<home_object>"; "<computed_field>"; "<static_computed_field>"; "<class_fields_init>";
   "<brand>"; "#constructor"; "as"; "from"; "meta"; "*default*"; "*"; "Module"; "then"; "resolve";
   "reject"; "promise"; "proxy"; "revoke"; "async"; "exec"; "groups"; "indices"; "status";
   "reason"; "globalThis"; "bigint"; "-0"; "Infinity"; "-Infinity"; "NaN"; "hasIndices";
   "ignoreCase"; "multiline"; "dotAll"; "sticky"; "unicodeSets"; "not-equal"; "timed-out"; "ok";
   "toJSON"; "maxByteLength"; "Object"; "Array"; "Error"; "Number"; "String"; "Boolean"; "Symbol";
   "Arguments"; "Math"; "JSON"; "Date"; "Function"; "GeneratorFunction"; "ForInIterator"; "RegExp";
   "ArrayBuffer"; "SharedArrayBuffer"; "Uint8ClampedArray"; "Int8Array"; "Uint8Array";
   "Int16Array"; "Uint16Array"; "Int32Array"; "Uint32Array"; "BigInt64Array"; "BigUint64Array";
   "Float16Array"; "Float32Array"; "Float64Array"; "DataView"; "BigInt"; "WeakRef";
   "FinalizationRegistry"; "Map"; "Set"; "WeakMap"; "WeakSet"; "Iterator"; "Iterator Helper";
   "Iterator Wrap"; "Map Iterator"; "Set Iterator"; "Array Iterator"; "String Iterator";
   "RegExp String Iterator"; "Generator"; "Proxy"; "Promise"; "PromiseResolveFunction";
   "PromiseRejectFunction"; "AsyncFunction"; "AsyncFunctionResolve"; "AsyncFunctionReject";
   "AsyncGeneratorFunction"; "AsyncGenerator"; "EvalError"; "RangeError"; "ReferenceError";
   "SyntaxError"; "TypeError"; "URIError"; "InternalError"; "AggregateError"; "<brand>";
   "Symbol.toPrimitive"; "Symbol.iterator"; "Symbol.match"; "Symbol.matchAll"; "Symbol.replace";
   "Symbol.search"; "Symbol.split"; "Symbol.toStringTag"; "Symbol.isConcatSpreadable";
   "Symbol.hasInstance"; "Symbol.species"; "Symbol.unscopables"; "Symbol.asyncIterator"]%string.

Definition JS_ATOM_empty_string : Z := 47.
Definition JS_ATOM_Private_brand : Z := 223.
Definition JS_ATOM_Symbol_toPrimitive : Z := 224.
Definition JS_ATOM_END : Z := 237.

Definition atom_get_free (x : atom_slot) : M Z := match x with SFree n => mret n | SAtom _ => undefined end.
Definition atom_is_free (x : atom_slot) : bool := match x with SFree _ => true | SAtom _ => false end.
Definition atom_set_free (v : Z) : atom_slot := SFree v.

Definition __JS_AtomIsConst (v : Z) : bool := swrap 32 v <? JS_ATOM_END.
Definition __JS_AtomIsTaggedInt (v : Z) : bool := negb (Z.land v JS_ATOM_TAG_INT =? 0).
Definition __JS_AtomFromUInt32 (v : Z) : Z := Z.lor v JS_ATOM_TAG_INT.
Definition __JS_AtomToUInt32 (atom : Z) : Z := Z.land atom (2 ^ 32 - 1 - JS_ATOM_TAG_INT).

(** ** The string heap *)

Definition with_strings (rt : JSAtoms) (h : gmap ptr string_object) : JSAtoms :=
  MkAtoms h (atom_hash_size rt) (atom_count rt) (atom_size rt) (atom_count_resize rt) (atom_hash rt) (atom_array rt) (atom_free_index rt).

Definition str_get (rt : JSAtoms) (p : ptr) : M string_object :=
  match strings rt !! p with Some s => mret s | None => undefined end.

Definition set_rc (s : string_object) (n : Z) : string_object := MkStr (str_of s) n (hash s) (atom_type s) (hash_next s).
Definition set_next (s : string_object) (n : Z) : string_object := MkStr (str_of s) (str_rc s) (hash s) (atom_type s) n.
Definition set_atom (s : string_object) (h ty n : Z) : string_object := MkStr (str_of s) (str_rc s) h ty n.

Definition str_set (rt : JSAtoms) (p : ptr) (s : string_object) : JSAtoms := with_strings rt (<[p := s]> (strings rt)).

(** [atom_array[i]] as a pointer that is dereferenced. *)
Definition atom_ptr (rt : JSAtoms) (i : Z) : M ptr :=
  x ← tab_get (atom_array rt) i; match x with SAtom p => mret p | SFree _ => undefined end.

(** An address that is not in use. *)
Definition new_ptr (rt : JSAtoms) : ptr := fresh (dom (strings rt) : gset ptr).

(** [js_alloc_string_rt] and the copy of the characters. *)
Definition js_alloc_string_rt (rt : JSAtoms) (s : JSString) : M (JSAtoms * option ptr) :=
  ok ← try_alloc;
  if ok : bool then let p := new_ptr rt in mret (str_set rt p (MkStr s 1 0 0 0), Some p) else mret (rt, None).

(** ** Hashing and numbers *)

Definition hash_units (l : list Z) (h : Z) : Z := fold_left (fun h c => wrap 32 (h * 263 + c)) l h.
Definition hash_string (s : JSString) (h : Z) : Z := hash_units (chars s) h.

Definition is_num (c : Z) : bool := (48 <=? c) && (c <=? 57).

(** The loop of [is_num_string] over the units after the first. *)
Fixpoint num_loop (l : list Z) (n : Z) : option Z :=
  match l with
  | [] => Some n
  | c :: l =>
      if is_num c then
        let n64 := wrap 64 (n * 10 + (c - 48)) in
        if Z.shiftr n64 32 =? 0 then num_loop l n64 else None
      else None
  end.

Definition is_num_string (s : JSString) : option Z :=
  if (str_len s =? 0) || (10 <? str_len s) then None
  else
    match chars s with
    | [] => None
    | c :: l =>
        if is_num c then
          if c =? 48 then if str_len s =? 1 then Some 0 else None
          else num_loop l (c - 48)
        else None
    end.

(** ** The table *)

(** The inner loop of [JS_ResizeAtomHash]. *)
Fixpoint rehash_chain (fuel : nat) (rt : JSAtoms) (new_hash_mask h : Z) (new_hash : list Z) : M (JSAtoms * list Z) :=
  if h =? 0 then mret (rt, new_hash)
  else
    match fuel with
    | O => undefined
    | S fuel =>
        p ← atom_ptr rt h;
        s ← str_get rt p;
        let hash_next1 := hash_next s in
        let j := Z.land (hash s) new_hash_mask in
        n ← tab_get new_hash j;
        let rt := str_set rt p (set_next s n) in
        new_hash ← tab_set new_hash j h;
        rehash_chain fuel rt new_hash_mask hash_next1 new_hash
    end.

Definition JS_ResizeAtomHash (rt : JSAtoms) (new_hash_size : Z) : M (JSAtoms * Z) :=
  if negb (Z.land new_hash_size (new_hash_size - 1) =? 0) then undefined
  else
    let new_hash_mask := new_hash_size - 1 in
    ok ← try_alloc;
    if negb ok then mret (rt, -1)
    else
      let new_hash := replicate (Z.to_nat new_hash_size) 0 in
      '(rt, new_hash) ← for_up (Z.to_nat (atom_hash_size rt)) 0
        (fun i '(rt, new_hash) =>
           h ← tab_get (atom_hash rt) i;
           rehash_chain (length (atom_array rt)) rt new_hash_mask h new_hash) (rt, new_hash);
      resize ← int_of (JS_ATOM_COUNT_RESIZE new_hash_size);
      mret (MkAtoms (strings rt) new_hash_size (atom_count rt) (atom_size rt) resize new_hash (atom_array rt) (atom_free_index rt), 0).

Definition JS_DupAtom (rt : JSAtoms) (v : Z) : M (JSAtoms * Z) :=
  if __JS_AtomIsConst v then mret (rt, v)
  else
    p ← atom_ptr rt v;
    s ← str_get rt p;
    n ← int_of (str_rc s + 1);
    mret (str_set rt p (set_rc s n), v).

(** The walk of [js_get_atom_index] to the entry of [p]. *)
Fixpoint index_loop (fuel : nat) (rt : JSAtoms) (p : ptr) (i : Z) : M Z :=
  p1 ← tab_get (atom_array rt) i;
  if bool_decide (p1 = SAtom p) then mret i
  else
    match fuel with
    | O => undefined
    | S fuel =>
        if i =? 0 then undefined
        else p1 ← atom_ptr rt i; s1 ← str_get rt p1; index_loop fuel rt p (hash_next s1)
    end.

Definition bucket (rt : JSAtoms) (h : Z) : Z := Z.land h (atom_hash_size rt - 1).

Definition js_get_atom_index (rt : JSAtoms) (p : ptr) : M Z :=
  s ← str_get rt p;
  if negb (atom_type s =? JS_ATOM_TYPE_SYMBOL) then
    i ← tab_get (atom_hash rt) (bucket rt (hash s));
    index_loop (length (atom_array rt)) rt p i
  else mret (hash_next s).

(** [for(;;)] of [JS_FreeAtomStruct]: the entry of [p], unlinked. *)
Fixpoint unlink_loop (fuel : nat) (rt : JSAtoms) (p : ptr) (i : Z) : M (JSAtoms * Z) :=
  match fuel with
  | O => undefined
  | S fuel =>
      if i =? 0 then undefined
      else
        p0 ← atom_ptr rt i;
        s0 ← str_get rt p0;
        let i := hash_next s0 in
        p1 ← tab_get (atom_array rt) i;
        if bool_decide (p1 = SAtom p) then
          s1 ← str_get rt p;
          mret (str_set rt p0 (set_next s0 (hash_next s1)), i)
        else unlink_loop fuel rt p i
  end.

Definition JS_FreeAtomStruct (rt : JSAtoms) (p : ptr) : M JSAtoms :=
  s ← str_get rt p;
  '(rt, i) ←
    (if negb (atom_type s =? JS_ATOM_TYPE_SYMBOL) then
       let h0 := bucket rt (hash s) in
       i ← tab_get (atom_hash rt) h0;
       p1 ← tab_get (atom_array rt) i;
       if bool_decide (p1 = SAtom p) then
         t ← tab_set (atom_hash rt) h0 (hash_next s);
         mret (MkAtoms (strings rt) (atom_hash_size rt) (atom_count rt) (atom_size rt) (atom_count_resize rt) t (atom_array rt) (atom_free_index rt), i)
       else unlink_loop (length (atom_array rt)) rt p i
     else mret (rt, hash_next s));
  t ← tab_set (atom_array rt) i (atom_set_free (atom_free_index rt));
  let keep := (atom_type s =? JS_ATOM_TYPE_SYMBOL) && negb (hash s =? JS_ATOM_HASH_PRIVATE) && negb (hash s =? 0) in
  let strs := if keep then strings rt else delete p (strings rt) in
  let count := atom_count rt - 1 in
  if count <? 0 then undefined
  else mret (MkAtoms strs (atom_hash_size rt) count (atom_size rt) (atom_count_resize rt) (atom_hash rt) t i).

Definition js_free_string (rt : JSAtoms) (p : ptr) : M JSAtoms :=
  s ← str_get rt p;
  let s := set_rc s (str_rc s - 1) in
  let rt := str_set rt p s in
  if str_rc s <=? 0 then
    if negb (atom_type s =? 0) then JS_FreeAtomStruct rt p
    else mret (with_strings rt (delete p (strings rt)))
  else mret rt.

Definition __JS_FreeAtom (rt : JSAtoms) (i : Z) : M JSAtoms :=
  p ← atom_ptr rt i;
  s ← str_get rt p;
  let s := set_rc s (str_rc s - 1) in
  let rt := str_set rt p s in
  if 0 <? str_rc s then mret rt else JS_FreeAtomStruct rt p.

Definition JS_FreeAtom (rt : JSAtoms) (v : Z) : M JSAtoms :=
  if __JS_AtomIsConst v then mret rt else __JS_FreeAtom rt v.

(** [while (i != 0)]: the first entry of the chain with the type and the units of
    [str], 0 if there is none. *)
Fixpoint find_loop (fuel : nat) (rt : JSAtoms) (h ty : Z) (str : JSString) (i : Z) : M Z :=
  if i =? 0 then mret 0
  else
    match fuel with
    | O => undefined
    | S fuel =>
        p ← atom_ptr rt i;
        s ← str_get rt p;
        if (hash s =? h) && (atom_type s =? ty) && (str_len (str_of s) =? str_len str) then
          r ← js_string_memcmp (str_of s) 0 str 0 (str_len str);
          if r =? 0 then mret i else find_loop fuel rt h ty str (hash_next s)
        else find_loop fuel rt h ty str (hash_next s)
    end.

(** The growth of [atom_array] when it has no free entry: whether it succeeded. *)
Definition grow_atoms (rt : JSAtoms) : M (JSAtoms * bool) :=
  if atom_free_index rt =? 0 then
    n3 ← int_of (atom_size rt * 3);
    let new_size := Z.max 711 (Z.quot n3 2) in
    if JS_ATOM_MAX <? new_size then mret (rt, false)
    else
      ok ← try_alloc;
      if negb ok then mret (rt, false)
      else
        let free_from start := (fun k => atom_set_free (if (start + Z.of_nat k =? new_size - 1) then 0 else start + Z.of_nat k + 1)) <$> seq 0 (Z.to_nat (new_size - start)) in
        if atom_size rt =? 0 then
          ok ← try_alloc;
          if negb ok then mret (rt, false)
          else
            let p := new_ptr rt in
            mret (MkAtoms (<[p := MkStr empty_string 1 0 JS_ATOM_TYPE_SYMBOL 0]> (strings rt)) (atom_hash_size rt) (atom_count rt + 1)
                    new_size (atom_count_resize rt) (atom_hash rt) (SAtom p :: free_from 1) 1, true)
        else
          let start := atom_size rt in
          mret (MkAtoms (strings rt) (atom_hash_size rt) (atom_count rt) new_size (atom_count_resize rt) (atom_hash rt)
                  (atom_array rt ++ free_from start) start, true)
  else mret (rt, true).

(** The object that becomes the atom: [str] itself, a copy of it, or an empty wide
    string when there is none. *)
Definition atom_object (rt : JSAtoms) (str : option ptr) : M (JSAtoms * option ptr) :=
  match str with
  | Some sp =>
      s ← str_get rt sp;
      if atom_type s =? 0 then mret (rt, Some sp)
      else
        '(rt, p) ← js_alloc_string_rt rt (str_of s);
        match p with
        | None => mret (rt, None)
        | Some p => rt ← js_free_string rt sp; mret (rt, Some p)
        end
  | None => js_alloc_string_rt rt (MkString true [])
  end.

(** The new atom takes the first free entry and, unless it is a symbol, goes to
    the front of its chain. *)
Definition link_atom (rt : JSAtoms) (p : ptr) (ty h h1 : Z) : M (JSAtoms * Z) :=
  let i := atom_free_index rt in
  x ← tab_get (atom_array rt) i;
  free ← atom_get_free x;
  t ← tab_set (atom_array rt) i (SAtom p);
  s ← str_get rt p;
  count ← int_of (atom_count rt + 1);
  let rt := MkAtoms (<[p := set_atom s h ty i]> (strings rt)) (atom_hash_size rt) count (atom_size rt) (atom_count_resize rt) (atom_hash rt) t free in
  if negb (ty =? JS_ATOM_TYPE_SYMBOL) then
    n ← tab_get (atom_hash rt) h1;
    t ← tab_set (atom_hash rt) h1 i;
    let rt := MkAtoms (<[p := set_atom s h ty n]> (strings rt)) (atom_hash_size rt) count (atom_size rt) (atom_count_resize rt) t (atom_array rt) free in
    if atom_count_resize rt <=? count then
      size ← int_of (atom_hash_size rt * 2);
      '(rt, _) ← JS_ResizeAtomHash rt size; mret (rt, i)
    else mret (rt, i)
  else mret (rt, i).

(** [js_free_string] on the paths that end with [fail] and [done]. *)
Definition free_opt (rt : JSAtoms) (str : option ptr) : M JSAtoms :=
  match str with Some sp => js_free_string rt sp | None => mret rt end.

(** [__JS_NewAtom] from the allocation of the entry on. *)
Definition add_atom (rt : JSAtoms) (str : option ptr) (ty h h1 : Z) : M (JSAtoms * Z) :=
  '(rt, ok) ← grow_atoms rt;
  if negb ok then rt ← free_opt rt str; mret (rt, JS_ATOM_NULL)
  else
    '(rt, p) ← atom_object rt str;
    match p with
    | None => rt ← free_opt rt str; mret (rt, JS_ATOM_NULL)
    | Some p => link_atom rt p ty h h1
    end.

Definition __JS_NewAtom (rt : JSAtoms) (str : option ptr) (ty : Z) : M (JSAtoms * Z) :=
  if ty <? JS_ATOM_TYPE_SYMBOL then
    match str with
    | None => undefined
    | Some sp =>
        s ← str_get rt sp;
        if atom_type s =? ty then
          i ← js_get_atom_index rt sp;
          if __JS_AtomIsConst i then mret (str_set rt sp (set_rc s (str_rc s - 1)), i) else mret (rt, i)
        else
          let h := Z.land (hash_string (str_of s) ty) JS_ATOM_HASH_MASK in
          let h1 := bucket rt h in
          i ← tab_get (atom_hash rt) h1;
          i ← find_loop (length (atom_array rt)) rt h ty (str_of s) i;
          if i =? 0 then add_atom rt str ty h h1
          else
            '(rt, _) ← JS_DupAtom rt i;
            rt ← js_free_string rt sp;
            mret (rt, i)
    end
  else add_atom rt str JS_ATOM_TYPE_SYMBOL (if ty =? JS_ATOM_TYPE_SYMBOL then 0 else JS_ATOM_HASH_PRIVATE) 0.

Definition __JS_NewAtomInit (rt : JSAtoms) (str : list Z) (ty : Z) : M (JSAtoms * Z) :=
  '(rt, p) ← js_alloc_string_rt rt (MkString false str);
  match p with
  | None => mret (rt, JS_ATOM_NULL)
  | Some p => __JS_NewAtom rt (Some p) ty
  end.

Definition bytes_of (s : string) : list Z := (fun c => Z.of_nat (Ascii.nat_of_ascii c)) <$> String.list_ascii_of_string s.

(** The loop of [JS_InitAtoms]: the return code. *)
Fixpoint init_loop (l : list string) (i : Z) (rt : JSAtoms) : M (JSAtoms * Z) :=
  match l with
  | [] => mret (rt, 0)
  | s :: l =>
      let ty := if i =? JS_ATOM_Private_brand then JS_ATOM_TYPE_PRIVATE
                else if JS_ATOM_Symbol_toPrimitive <=? i then JS_ATOM_TYPE_SYMBOL else JS_ATOM_TYPE_STRING in
      '(rt, a) ← __JS_NewAtomInit rt (bytes_of s) ty;
      if a =? JS_ATOM_NULL then mret (rt, -1) else init_loop l (i + 1) rt
  end.

Definition no_atoms (strs : gmap ptr string_object) : JSAtoms := MkAtoms strs 0 0 0 0 [] [] 0.

Definition JS_InitAtoms (strs : gmap ptr string_object) : M (JSAtoms * Z) :=
  '(rt, err) ← JS_ResizeAtomHash (no_atoms strs) 512;
  if negb (err =? 0) then mret (rt, -1) else init_loop js_atom_init 1 rt.

(** The string is the atom when it has its type, whoever made it first. *)
Definition JS_NewAtomStr (rt : JSAtoms) (p : ptr) : M (JSAtoms * Z) :=
  s ← str_get rt p;
  match is_num_string (str_of s) with
  | Some n =>
      if n <=? JS_ATOM_MAX_INT then rt ← js_free_string rt p; mret (rt, __JS_AtomFromUInt32 n)
      else __JS_NewAtom rt (Some p) JS_ATOM_TYPE_STRING
  | None => __JS_NewAtom rt (Some p) JS_ATOM_TYPE_STRING
  end.
