(* ===== verification/AtomSpecs.v ===== *)
(** The invariant of the atom table: every entry is free or an atom, the free
    entries form one list, the atoms that are not symbols are on the chain of their
    hash, and no two of them have the same type and the same units. *)
From Stdlib Require Import ZArith Lia String.
From S2P Require Import Prelude Cutils BigIntString JSString JSStringSpecs Atoms.
From stdpp Require Import base tactics list gmap numbers strings.

Open Scope Z_scope.

(** ** Lookup by index *)

Definition look {A} (t : list A) (i : Z) : option A := if 0 <=? i then t !! Z.to_nat i else None.

Lemma look_get {A} (t : list A) i x : look t i = Some x -> tab_get t i = mret x.
Proof. unfold look, tab_get. destruct (0 <=? i); [intros ->; reflexivity|discriminate]. Qed.

Lemma look_range {A} (t : list A) i x : look t i = Some x -> 0 <= i < len t.
Proof.
  unfold look, len. destruct (Z.leb_spec 0 i); [|discriminate]. intros H'. apply lookup_lt_Some in H'. lia.
Qed.

Lemma look_is_Some {A} (t : list A) i : 0 <= i < len t -> exists x, look t i = Some x.
Proof.
  unfold look, len. intros H. rewrite (proj2 (Z.leb_le _ _)) by lia. destruct (lookup_lt_is_Some_2 t (Z.to_nat i)) as [x Hx]; [lia|eauto].
Qed.

Lemma look_insert {A} (t : list A) i x j : 0 <= i < len t -> look (<[Z.to_nat i := x]> t) j = if decide (j = i) then Some x else look t j.
Proof.
  unfold look, len. intros H. case_decide as Hji; [subst j|].
  - rewrite (proj2 (Z.leb_le _ _)) by lia. apply list_lookup_insert_eq. lia.
  - destruct (Z.leb_spec 0 j); [|reflexivity]. apply list_lookup_insert_ne. lia.
Qed.

Lemma look_app {A} (t u : list A) i : look (t ++ u) i = if i <? len t then look t i else look u (i - len t).
Proof.
  unfold look, len. destruct (Z.ltb_spec i (Z.of_nat (length t))) as [H|H].
  - destruct (Z.leb_spec 0 i); [|reflexivity]. apply lookup_app_l. lia.
  - rewrite !(proj2 (Z.leb_le _ _)) by lia. rewrite lookup_app_r by lia.
    replace (Z.to_nat (i - Z.of_nat (length t))) with (Z.to_nat i - length t)%nat by lia. reflexivity.
Qed.

Lemma look_replicate {A} n (x : A) i : 0 <= i < Z.of_nat n -> look (replicate n x) i = Some x.
Proof. intros H. unfold look. rewrite (proj2 (Z.leb_le _ _)) by lia. apply lookup_replicate_2. lia. Qed.

Lemma len_insert {A} (t : list A) i x : len (<[i := x]> t) = len t.
Proof. unfold len. rewrite length_insert. reflexivity. Qed.

Lemma set_look {A} (t : list A) i x : 0 <= i < len t -> tab_set t i x = mret (<[Z.to_nat i := x]> t).
Proof. intros H. unfold tab_set. rewrite (proj2 (Z.leb_le _ _)), (proj2 (Z.ltb_lt _ _)) by lia. reflexivity. Qed.

Lemma int_of_ok x : - 2 ^ 31 <= x < 2 ^ 31 -> int_of x = mret x.
Proof. intros H. unfold int_of. rewrite (proj2 (Z.leb_le _ _)), (proj2 (Z.ltb_lt _ _)) by lia. reflexivity. Qed.

(** ** Linked lists through a partial function *)

Fixpoint chain (nx : Z -> option Z) (i : Z) (l : list Z) : Prop :=
  match l with
  | [] => i = 0
  | x :: l => x = i /\ i <> 0 /\ exists n, nx i = Some n /\ chain nx n l
  end.

Lemma chain_ext nx nx' i l : chain nx i l -> (forall x, x ∈ l -> nx' x = nx x) -> chain nx' i l.
Proof.
  revert i. induction l as [|x l IH]; intros i; [auto|]. cbn [chain]. intros (-> & H0 & n & Hn & Hl) E.
  split; [reflexivity|]. split; [exact H0|]. exists n. split; [rewrite E by left; exact Hn|]. apply IH; [exact Hl|]. intros y Hy. apply E. right. exact Hy.
Qed.

Lemma chain_det nx i l l' : chain nx i l -> chain nx i l' -> l = l'.
Proof.
  revert i l'. induction l as [|x l IH]; intros i [|y l']; cbn [chain]; [reflexivity| | |].
  - intros -> (_ & [] & _). reflexivity.
  - intros (_ & H & _) ->. contradiction.
  - intros (-> & _ & n & Hn & Hl) (-> & _ & n' & Hn' & Hl'). assert (n' = n) as -> by congruence. f_equal. eapply IH; eassumption.
Qed.

Lemma chain_suffix nx i l1 x l2 : chain nx i (l1 ++ x :: l2) -> chain nx x (x :: l2).
Proof. revert i. induction l1 as [|y l1 IH]; intros i; cbn [app chain]; [intros (-> & H); auto|]. intros (_ & _ & n & _ & H). exact (IH n H). Qed.

Lemma chain_nodup nx i l : chain nx i l -> NoDup l.
Proof.
  revert i. induction l as [|x l IH]; intros i Hc; [constructor|]. pose proof Hc as (_ & _ & n & _ & Hl).
  constructor; [|exact (IH n Hl)]. intros (l1 & l2 & ->)%list_elem_of_split.
  pose proof Hc as (<- & _). pose proof (chain_suffix nx x (x :: l1) x l2 Hc) as Hs.
  pose proof (f_equal length (chain_det _ _ _ _ Hc Hs)) as E. simpl in E. rewrite length_app in E. simpl in E. lia.
Qed.

Lemma chain_elem nx i l x : chain nx i l -> x ∈ l -> x <> 0 /\ is_Some (nx x).
Proof.
  intros Hc (l1 & l2 & ->)%list_elem_of_split. destruct (chain_suffix _ _ _ _ _ Hc) as (_ & H0 & n & Hn & _). eauto.
Qed.

(** Distinct indices of a table of [n] entries. *)
Lemma nodup_bound (l : list Z) n : NoDup l -> (forall x, x ∈ l -> 0 <= x < n) -> len l <= Z.max 0 n.
Proof.
  intros Hn Hr. assert (l ⊆+ (Z.of_nat <$> seq 0 (Z.to_nat n))) as Hs.
  { apply NoDup_submseteq; [exact Hn|]. intros x Hx. apply list_elem_of_fmap. exists (Z.to_nat x). pose proof (Hr x Hx).
    split; [lia|]. apply elem_of_seq. lia. }
  apply submseteq_length in Hs. rewrite length_fmap, length_seq in Hs. unfold len. lia.
Qed.

(** ** The table *)

Definition slot (rt : JSAtoms) (i : Z) : option atom_slot := look (atom_array rt) i.

Definition obj (rt : JSAtoms) (i : Z) : option string_object :=
  match slot rt i with Some (SAtom p) => strings rt !! p | _ => None end.

Definition next (rt : JSAtoms) (i : Z) : option Z := hash_next <$> obj rt i.

Definition free_next (rt : JSAtoms) (i : Z) : option Z := match slot rt i with Some (SFree n) => Some n | _ => None end.

(** Atoms that are found by their units. *)
Definition hashed (s : string_object) : Prop := atom_type s = JS_ATOM_TYPE_STRING \/ atom_type s = JS_ATOM_TYPE_GLOBAL_SYMBOL.

Definition atom_hash_of (l : list Z) (ty : Z) : Z := Z.land (hash_units l ty) JS_ATOM_HASH_MASK.

(** [chs j] is the chain of bucket [j] and [fr] the list of free entries. *)
Record core (rt : JSAtoms) (chs : Z -> list Z) (fr : list Z) : Prop := {
  c_size : len (atom_array rt) = atom_size rt;
  c_max : atom_size rt <= JS_ATOM_MAX;
  c_obj : forall i p, slot rt i = Some (SAtom p) -> exists s, strings rt !! p = Some s /\ 1 <= atom_type s <= 3;
  c_inj : forall i j p, slot rt i = Some (SAtom p) -> slot rt j = Some (SAtom p) -> i = j;
  c_null : atom_size rt = 0 \/ exists s, obj rt 0 = Some s /\ atom_type s = JS_ATOM_TYPE_SYMBOL;
  c_sym : forall i s, obj rt i = Some s -> atom_type s = JS_ATOM_TYPE_SYMBOL -> hash_next s = i;
  c_hash : forall i s, obj rt i = Some s -> hashed s -> hash s = atom_hash_of (chars (str_of s)) (atom_type s);
  c_uniq : forall i j s s', obj rt i = Some s -> obj rt j = Some s' -> hashed s -> atom_type s = atom_type s' ->
             chars (str_of s) = chars (str_of s') -> i = j;
  c_free : chain (free_next rt) (atom_free_index rt) fr;
  c_free_all : forall i n, slot rt i = Some (SFree n) -> i ∈ fr;
  c_pow : exists k, 0 <= k <= 29 /\ atom_hash_size rt = 2 ^ k;
  c_hlen : len (atom_hash rt) = atom_hash_size rt;
  c_table : forall j, 0 <= j < atom_hash_size rt -> exists n, look (atom_hash rt) j = Some n /\ chain (next rt) n (chs j);
  c_in : forall j x, 0 <= j < atom_hash_size rt -> x ∈ chs j -> exists s, obj rt x = Some s /\ hashed s /\ bucket rt (hash s) = j;
  c_all : forall x s, obj rt x = Some s -> hashed s -> x ∈ chs (bucket rt (hash s));
  c_count : atom_count rt = atom_size rt - len fr;
  c_resize : atom_count_resize rt = JS_ATOM_COUNT_RESIZE (atom_hash_size rt)
}.

(** The references: a plain string and an atom have one at least; a symbol that
    only weak references keep is not in the table. *)
Definition in_table (rt : JSAtoms) (p : ptr) : Prop := exists i, slot rt i = Some (SAtom p).

Definition live (rt : JSAtoms) (p : ptr) (s : string_object) : Prop :=
  1 <= str_rc s /\ (atom_type s <> 0 -> in_table rt p).

Definition weak_only (rt : JSAtoms) (p : ptr) (s : string_object) : Prop :=
  str_rc s <= 0 /\ atom_type s = JS_ATOM_TYPE_SYMBOL /\ ~ in_table rt p.

Definition heap_ok (rt : JSAtoms) : Prop := forall p s, strings rt !! p = Some s -> live rt p s \/ weak_only rt p s.

Definition atoms_ok (rt : JSAtoms) : Prop := (exists chs fr, core rt chs fr) /\ heap_ok rt.

Lemma obj_slot rt i s : obj rt i = Some s -> exists p, slot rt i = Some (SAtom p) /\ strings rt !! p = Some s.
Proof. unfold obj. destruct (slot rt i) as [[n|p]|]; [discriminate| |discriminate]. eauto. Qed.

Lemma slot_obj rt i p : slot rt i = Some (SAtom p) -> obj rt i = strings rt !! p.
Proof. unfold obj. intros ->. reflexivity. Qed.

Lemma atom_ptr_slot rt i p : slot rt i = Some (SAtom p) -> atom_ptr rt i = mret p.
Proof. unfold slot, atom_ptr. intros H. rewrite (look_get _ _ _ H). reflexivity. Qed.

Lemma str_get_some rt p s : strings rt !! p = Some s -> str_get rt p = mret s.
Proof. unfold str_get. intros ->. reflexivity. Qed.

(** Both steps at once. *)
Lemma obj_read {B} rt i s (f : ptr -> string_object -> M B) :
  obj rt i = Some s -> exists p, slot rt i = Some (SAtom p) /\ strings rt !! p = Some s /\
    (p ← atom_ptr rt i; s ← str_get rt p; f p s) = f p s.
Proof.
  intros H. destruct (obj_slot _ _ _ H) as (p & Hs & Hp). exists p. split; [exact Hs|]. split; [exact Hp|].
  rewrite (atom_ptr_slot _ _ _ Hs), ret_bind, (str_get_some _ _ _ Hp). reflexivity.
Qed.

Lemma hashed_not_sym s : hashed s -> atom_type s <> JS_ATOM_TYPE_SYMBOL.
Proof. unfold hashed, JS_ATOM_TYPE_STRING, JS_ATOM_TYPE_GLOBAL_SYMBOL, JS_ATOM_TYPE_SYMBOL. lia. Qed.

Lemma bucket_range k h : 0 <= k -> 0 <= Z.land h (2 ^ k - 1) < 2 ^ k.
Proof. intros Hk. rewrite land_mask by lia. apply Z.mod_pos_bound. lia. Qed.

Section Core.
Context (rt : JSAtoms) (chs : Z -> list Z) (fr : list Z) (C : core rt chs fr).

Lemma core_bucket h : 0 <= bucket rt h < atom_hash_size rt.
Proof. destruct (c_pow _ _ _ C) as (k & Hk & E). unfold bucket. rewrite E. apply bucket_range. lia. Qed.

Lemma obj_type i s : obj rt i = Some s -> atom_type s = JS_ATOM_TYPE_SYMBOL \/ hashed s.
Proof.
  intros (p & Hs & Hp)%obj_slot. destruct (c_obj _ _ _ C _ _ Hs) as (s' & Hs' & Ht). assert (s' = s) as -> by congruence.
  unfold hashed, JS_ATOM_TYPE_STRING, JS_ATOM_TYPE_GLOBAL_SYMBOL, JS_ATOM_TYPE_SYMBOL. lia.
Qed.

Lemma chain_range j x : 0 <= j < atom_hash_size rt -> x ∈ chs j -> 0 <= x < len (atom_array rt).
Proof. intros Hj Hx. destruct (c_in _ _ _ C _ _ Hj Hx) as (s & (p & Hs & _)%obj_slot & _). exact (look_range _ _ _ Hs). Qed.

Lemma chain_fuel j : 0 <= j < atom_hash_size rt -> (length (chs j) <= length (atom_array rt))%nat.
Proof.
  intros Hj. destruct (c_table _ _ _ C j Hj) as (n & _ & Hc). pose proof (nodup_bound _ _ (chain_nodup _ _ _ Hc) (fun x => chain_range j x Hj)).
  pose proof (len_nonneg (atom_array rt)). unfold len in *. lia.
Qed.

(** ** Looking up *)

Definition matches (ty : Z) (l : list Z) (s : string_object) : Prop := atom_type s = ty /\ chars (str_of s) = l.

Lemma memcmp_zero p1 p2 : str_len p1 = str_len p2 ->
  exists r, js_string_memcmp p1 0 p2 0 (str_len p2) = mret r /\ (r = 0 <-> chars p1 = chars p2).
Proof.
  intros Hl. pose proof (string_eq_spec p1 p2) as H. unfold js_string_eq in H. rewrite (proj2 (Z.eqb_eq _ _) Hl) in H. cbn [negb] in H.
  unfold js_string_memcmp in *. rewrite Hl in H.
  unfold tab_slice in *. assert ((0 <=? 0) && (0 <=? str_len p2) && (0 + str_len p2 <=? len (chars p2)) = true) as E2.
  { unfold str_len. pose proof (len_nonneg (chars p2)). rewrite !(proj2 (Z.leb_le _ _)) by lia. reflexivity. }
  assert (len (chars p1) = len (chars p2)) as El by exact Hl. rewrite El in *. rewrite E2 in *. cbn in H |- *. eexists. split; [reflexivity|].
  apply (f_equal (fun m => m alloc_all)) in H. cbn in H. injection H as H.
  case_bool_decide as Hb; [|split; [intros Hr; rewrite Hr in H; discriminate|contradiction]].
  split; [intros _; exact Hb|]. intros _. apply Z.eqb_eq. exact H.
Qed.

Lemma find_chain ty str h l fuel i :
  chain (next rt) i l -> (length l <= fuel)%nat ->
  (forall x, x ∈ l -> exists s, obj rt x = Some s) ->
  exists r, find_loop fuel rt h ty str i = mret r /\
    (r = 0 /\ (forall x s, x ∈ l -> obj rt x = Some s -> hash s = h -> ~ matches ty (chars str) s) \/
     r <> 0 /\ exists s, obj rt r = Some s /\ matches ty (chars str) s).
Proof.
  revert i fuel. induction l as [|x l IH]; intros i fuel.
  - cbn [chain]. intros -> _ _. exists 0. destruct fuel; (split; [reflexivity|left; split; [reflexivity|intros x s Hx; inversion Hx]]).
  - cbn [chain]. intros (-> & H0 & n & Hn & Hc) Hf Ho. destruct fuel as [|fuel]; [simpl in Hf; lia|]. cbn [find_loop].
    rewrite (proj2 (Z.eqb_neq _ _) H0). destruct (Ho i) as (s & Hs); [left|].
    destruct (obj_read rt i s (fun p s => if (hash s =? h) && (atom_type s =? ty) && (str_len (str_of s) =? str_len str)
      then r ← js_string_memcmp (str_of s) 0 str 0 (str_len str); if r =? 0 then mret i else find_loop fuel rt h ty str (hash_next s)
      else find_loop fuel rt h ty str (hash_next s)) Hs) as (p & _ & _ & ->).
    assert (n = hash_next s) as -> by (unfold next in Hn; rewrite Hs in Hn; cbn in Hn; congruence).
    destruct (IH (hash_next s) fuel Hc) as (r & Er & Hr); [simpl in Hf; lia|intros y Hy; apply Ho; right; exact Hy|].
    assert (forall Hno : ~ (hash s = h /\ matches ty (chars str) s), exists r, find_loop fuel rt h ty str (hash_next s) = mret r /\
      (r = 0 /\ (forall x s, x ∈ i :: l -> obj rt x = Some s -> hash s = h -> ~ matches ty (chars str) s) \/
       r <> 0 /\ exists s, obj rt r = Some s /\ matches ty (chars str) s)) as Hgo.
    { intros Hno. exists r. split; [exact Er|]. destruct Hr as [[-> Hr]|Hr]; [left|right; exact Hr]. split; [reflexivity|].
      intros x s' [->|Hx]%elem_of_cons Hs' Hh Hm; [|exact (Hr x s' Hx Hs' Hh Hm)]. assert (s' = s) as -> by congruence. tauto. }
    destruct (Z.eqb_spec (hash s) h); cbn [andb]; [|apply Hgo; tauto].
    destruct (Z.eqb_spec (atom_type s) ty); cbn [andb]; [|apply Hgo; unfold matches; tauto].
    destruct (Z.eqb_spec (str_len (str_of s)) (str_len str)) as [El|El]; [|apply Hgo; unfold matches, str_len in *; intros (_ & _ & E); rewrite E in El; contradiction].
    destruct (memcmp_zero _ _ El) as (c & -> & Hc'). rewrite ret_bind. destruct (Z.eqb_spec c 0) as [E0|E0]; [|apply Hgo; unfold matches; tauto].
    exists i. split; [reflexivity|]. right. split; [exact H0|]. exists s. unfold matches. tauto.
Qed.

Lemma find_spec ty str : ty = JS_ATOM_TYPE_STRING \/ ty = JS_ATOM_TYPE_GLOBAL_SYMBOL ->
  let h := atom_hash_of (chars str) ty in
  exists r, (i ← tab_get (atom_hash rt) (bucket rt h); find_loop (length (atom_array rt)) rt h ty str i) = mret r /\
    (r = 0 /\ (forall x s, obj rt x = Some s -> ~ matches ty (chars str) s) \/
     r <> 0 /\ exists s, obj rt r = Some s /\ matches ty (chars str) s).
Proof.
  intros Hty h. pose proof (core_bucket h) as Hb. destruct (c_table _ _ _ C _ Hb) as (n & Hn & Hc).
  destruct (find_chain ty str h _ (length (atom_array rt)) n Hc (chain_fuel _ Hb)) as (r & Er & Hr).
  { intros x Hx. destruct (c_in _ _ _ C _ _ Hb Hx) as (s & Hs & _). eauto. }
  exists r. rewrite (look_get _ _ _ Hn). split; [exact Er|]. destruct Hr as [[-> Hr]|Hr]; [left|right; exact Hr]. split; [reflexivity|].
  intros x s Hs Hm. assert (hashed s) as Hh by (destruct Hm as [<- _]; exact Hty).
  assert (hash s = h) as Eh by (rewrite (c_hash _ _ _ C _ _ Hs Hh); destruct Hm as [-> ->]; reflexivity).
  apply (Hr x s); [|exact Hs|exact Eh|exact Hm]. pose proof (c_all _ _ _ C _ _ Hs Hh) as Hin. rewrite Eh in Hin. exact Hin.
Qed.

(** ** The index of an atom *)

Lemma index_chain p i0 l fuel i :
  chain (next rt) i l -> (length l <= fuel)%nat -> slot rt i0 = Some (SAtom p) -> i0 ∈ l -> index_loop fuel rt p i = mret i0.
Proof.
  intros Hc Hf Hp Hin. revert i fuel Hc Hf. induction l as [|x l IH]; intros i fuel; [inversion Hin|].
  cbn [chain]. intros (-> & H0 & n & Hn & Hc) Hf. destruct fuel as [|fuel]; [simpl in Hf; lia|]. cbn [index_loop].
  assert (exists s, obj rt i = Some s /\ n = hash_next s) as (s & Hs & ->).
  { unfold next in Hn. destruct (obj rt i) as [s|]; [exists s; cbn in Hn; split; congruence|discriminate]. }
  destruct (obj_slot _ _ _ Hs) as (q & Hq & Hqs). rewrite (look_get _ _ _ Hq), ret_bind. case_bool_decide as Hb.
  - injection Hb as ->. rewrite (c_inj _ _ _ C _ _ _ Hp Hq). reflexivity.
  - rewrite (proj2 (Z.eqb_neq _ _) H0), (atom_ptr_slot _ _ _ Hq), ret_bind, (str_get_some _ _ _ Hqs), ret_bind.
    apply IH; [|exact Hc|simpl in Hf; lia]. apply elem_of_cons in Hin. destruct Hin as [->|Hin]; [|exact Hin].
    rewrite Hq in Hp. congruence.
Qed.

Lemma get_atom_index_spec p i : slot rt i = Some (SAtom p) -> js_get_atom_index rt p = mret i.
Proof.
  intros Hp. destruct (c_obj _ _ _ C _ _ Hp) as (s & Hs & _). assert (obj rt i = Some s) as Ho by (rewrite (slot_obj _ _ _ Hp); exact Hs).
  unfold js_get_atom_index. rewrite (str_get_some _ _ _ Hs), ret_bind.
  destruct (Z.eqb_spec (atom_type s) JS_ATOM_TYPE_SYMBOL) as [Ht|Ht]; cbn [negb].
  - rewrite (c_sym _ _ _ C _ _ Ho Ht). reflexivity.
  - destruct (obj_type _ _ Ho) as [|Hh]; [contradiction|]. pose proof (core_bucket (hash s)) as Hb.
    destruct (c_table _ _ _ C _ Hb) as (n & Hn & Hc). rewrite (look_get _ _ _ Hn), ret_bind.
    exact (index_chain p i _ _ n Hc (chain_fuel _ Hb) Hp (c_all _ _ _ C _ _ Ho Hh)).
Qed.

End Core.
