(* ===== verification/AtomRemove.v ===== *)
(** The operations on the atom table keep the invariant: rehashing
    ([JS_ResizeAtomHash]) moves every atom to its chain in the new table and changes
    nothing else; an atom is added to the table; a removed one ([JS_FreeAtomStruct]) is
    unlinked from its chain and its entry becomes the first free one; the table grows;
    and the operations on one reference. *)
From Stdlib Require Import ZArith Lia String.
From S2P Require Import Prelude Cutils BigIntString JSString Atoms AtomSpecs.
From stdpp Require Import base tactics list gmap numbers strings.

Open Scope Z_scope.

Lemma for_up_ret {S} (I : Z -> S -> Prop) (f : Z -> S -> M S) n i s :
  (forall j s, i <= j < i + Z.of_nat n -> I j s -> exists s', f j s = mret s' /\ I (j + 1) s') ->
  I i s -> exists s', for_up n i f s = mret s' /\ I (i + Z.of_nat n) s'.
Proof.
  revert i s. induction n as [|n IH]; intros i s Hf Hi.
  - exists s. split; [reflexivity|]. replace (i + Z.of_nat 0) with i by lia. exact Hi.
  - cbn [for_up]. destruct (Hf i s ltac:(lia) Hi) as (s' & -> & Hs'). rewrite ret_bind.
    destruct (IH (i + 1) s') as (s'' & E & H''); [intros j t Hj; apply Hf; lia|exact Hs'|].
    exists s''. split; [exact E|]. replace (i + Z.of_nat (Datatypes.S n)) with (i + 1 + Z.of_nat n) by lia. exact H''.
Qed.

(** Equality of string objects up to the link of the chain. *)
Definition strip (s : string_object) : string_object := set_next s 0.

Definition next_only (h h' : gmap ptr string_object) : Prop := forall p, strip <$> h' !! p = strip <$> h !! p.

Lemma next_only_refl h : next_only h h.
Proof. intros p. reflexivity. Qed.

Lemma next_only_trans h1 h2 h3 : next_only h1 h2 -> next_only h2 h3 -> next_only h1 h3.
Proof. intros H1 H2 p. rewrite H2. apply H1. Qed.

Lemma next_only_set h p s n : h !! p = Some s -> next_only h (<[p := set_next s n]> h).
Proof.
  intros Hp q. destruct (decide (q = p)) as [->|Hq].
  - rewrite lookup_insert_eq, Hp. reflexivity.
  - rewrite lookup_insert_ne by congruence. reflexivity.
Qed.

Lemma next_only_some h h' p s' : next_only h h' -> h' !! p = Some s' -> exists s, h !! p = Some s /\ strip s = strip s'.
Proof.
  intros H Hp. specialize (H p). rewrite Hp in H. destruct (h !! p) as [s|]; [|discriminate]. exists s. split; [reflexivity|]. injection H as H. unfold strip, set_next. congruence.
Qed.

Lemma next_only_some' h h' p s : next_only h h' -> h !! p = Some s -> exists s', h' !! p = Some s' /\ strip s = strip s'.
Proof.
  intros H Hp. specialize (H p). rewrite Hp in H. destruct (h' !! p) as [s'|]; [|discriminate]. exists s'. split; [reflexivity|]. injection H as H. unfold strip, set_next. congruence.
Qed.

Lemma strip_fields s s' : strip s = strip s' ->
  str_of s = str_of s' /\ str_rc s = str_rc s' /\ hash s = hash s' /\ atom_type s = atom_type s'.
Proof. intros [= ? ? ? ?]. auto. Qed.

Lemma strip_hashed s s' : strip s = strip s' -> hashed s -> hashed s'.
Proof. intros (_ & _ & _ & E)%strip_fields. unfold hashed. rewrite E. auto. Qed.

(** Updating the object of one entry. *)
Lemma obj_str_set rt i p s j :
  (forall k, slot rt k = Some (SAtom p) -> k = i) -> slot rt i = Some (SAtom p) ->
  obj (str_set rt p s) j = if decide (j = i) then Some s else obj rt j.
Proof.
  intros Hinj Hi. unfold obj, slot. cbn [atom_array strings str_set with_strings]. fold (slot rt j). case_decide as Hj.
  - subst j. rewrite Hi. apply lookup_insert_eq.
  - destruct (slot rt j) as [[n|q]|] eqn:E; [reflexivity| |reflexivity]. apply lookup_insert_ne. intros <-. apply Hj, Hinj, E.
Qed.

Section Rehash.
Context (rt0 : JSAtoms) (chs : Z -> list Z) (fr : list Z) (C : core rt0 chs fr) (k' : Z) (Hk' : 0 <= k' <= 29).

Notation mask := (2 ^ k' - 1).

Definition new_bucket (x : Z) : Z := match obj rt0 x with Some s => Z.land (hash s) mask | None => -1 end.

(** After the atoms [dn], the last one first, have been moved. *)
Record moved (st : JSAtoms * list Z) (dn : list Z) : Prop := {
  m_rt : exists h, fst st = with_strings rt0 h /\ next_only (strings rt0) h;
  m_obj : forall x, x ∉ dn -> obj (fst st) x = obj rt0 x;
  m_len : len (snd st) = 2 ^ k';
  m_table : forall j, 0 <= j < 2 ^ k' -> exists n, look (snd st) j = Some n /\ chain (next (fst st)) n (filter (fun x => new_bucket x = j) dn)
}.

Lemma rehash_step rt nh dn x s :
  moved (rt, nh) dn -> obj rt0 x = Some s -> x <> 0 -> x ∉ dn ->
  let j := Z.land (hash s) mask in
  exists p n, slot rt x = Some (SAtom p) /\ strings rt !! p = Some s /\ look nh j = Some n /\
    moved (str_set rt p (set_next s n), <[Z.to_nat j := x]> nh) (x :: dn).
Proof.
  intros [Hrt Hobj Hlen Htab] Hs Hx0 Hx j. cbn [fst snd] in *. assert (Hj : 0 <= j < 2 ^ k') by (apply bucket_range; lia).
  assert (new_bucket x = j) as Hb by (unfold new_bucket; rewrite Hs; reflexivity).
  rewrite <- (Hobj x Hx) in Hs. destruct (obj_slot _ _ _ Hs) as (p & Hp & Hps). destruct (Htab j Hj) as (n & Hn & Hc).
  exists p, n. split; [exact Hp|]. split; [exact Hps|]. split; [exact Hn|].
  destruct Hrt as (h & -> & Hh). pose proof (c_inj _ _ _ C) as Hinj.
  assert (Hset : forall y, obj (str_set (with_strings rt0 h) p (set_next s n)) y = if decide (y = x) then Some (set_next s n) else obj (with_strings rt0 h) y).
  { intros y. apply obj_str_set; [|exact Hp]. intros k Hk. exact (Hinj _ _ _ Hk Hp). }
  split; cbn [fst snd].
  - exists (<[p := set_next s n]> h). split; [reflexivity|]. eapply next_only_trans; [exact Hh|]. apply next_only_set. exact Hps.
  - intros y Hy. rewrite Hset. rewrite decide_False by (intros ->; apply Hy; left). apply Hobj. intros Hy'. apply Hy. right. exact Hy'.
  - rewrite len_insert. exact Hlen.
  - assert (Hold : forall i m l, chain (next (with_strings rt0 h)) m (filter (fun x => new_bucket x = i) dn) -> l = filter (fun x => new_bucket x = i) dn ->
      chain (next (str_set (with_strings rt0 h) p (set_next s n))) m l).
    { intros i m l Hc' ->. eapply chain_ext; [exact Hc'|]. intros y Hy. unfold next. rewrite Hset, decide_False; [reflexivity|].
      intros ->. apply list_elem_of_filter in Hy. tauto. }
    intros i Hi. rewrite look_insert by lia. case_decide as Hij.
    + subst i. exists x. split; [reflexivity|]. rewrite filter_cons_True by exact Hb. cbn [chain]. split; [reflexivity|]. split; [exact Hx0|].
      exists n. split; [unfold next; rewrite Hset, decide_True by reflexivity; reflexivity|]. exact (Hold j n _ Hc eq_refl).
    + destruct (Htab i Hi) as (m & Hm & Hc'). exists m. split; [exact Hm|]. rewrite filter_cons_False by congruence. exact (Hold i m _ Hc' eq_refl).
Qed.

Lemma rehash_chain_spec l : forall rt nh dn fuel h,
  moved (rt, nh) dn -> chain (next rt0) h l -> (forall x, x ∈ l -> x ∉ dn) -> (length l <= fuel)%nat ->
  exists st, rehash_chain fuel rt mask h nh = mret st /\ moved st (reverse l ++ dn).
Proof.
  induction l as [|x l IH]; intros rt nh dn fuel h Hm Hc Hd Hf.
  - cbn [chain] in Hc. subst h. exists (rt, nh). split; [destruct fuel; reflexivity|exact Hm].
  - pose proof (chain_nodup _ _ _ Hc) as Hnd. apply NoDup_cons in Hnd as [Hxl _].
    cbn [chain] in Hc. destruct Hc as (-> & H0 & n' & Hn' & Hc). destruct fuel as [|fuel]; [simpl in Hf; lia|]. cbn [rehash_chain].
    rewrite (proj2 (Z.eqb_neq _ _) H0). unfold next in Hn'. destruct (obj rt0 h) as [s|] eqn:Hs; [|discriminate]. cbn in Hn'. injection Hn' as <-.
    destruct (rehash_step rt nh dn h s Hm Hs H0 (Hd h (list_elem_of_here _ _))) as (p & n & Hp & Hps & Hn & Hm').
    rewrite (atom_ptr_slot _ _ _ Hp), ret_bind, (str_get_some _ _ _ Hps), ret_bind, (look_get _ _ _ Hn), ret_bind, set_look, ret_bind
      by (exact (look_range _ _ _ Hn)).
    destruct (IH _ _ _ fuel (hash_next s) Hm' Hc) as (st & -> & Hst); [|simpl in Hf; lia|].
    { intros y Hy [->|Hy']%elem_of_cons; [contradiction|]. exact (Hd y (list_elem_of_further _ _ _ Hy) Hy'). }
    exists st. split; [reflexivity|]. rewrite reverse_cons, <- app_assoc. exact Hst.
Qed.

(** All the buckets below [i] have been moved. *)
Definition moved_upto (i : Z) (st : JSAtoms * list Z) : Prop :=
  exists dn, moved st dn /\ forall x, x ∈ dn <-> exists j, 0 <= j < i /\ x ∈ chs j.

Lemma moved_all :
  exists st, for_up (Z.to_nat (atom_hash_size rt0)) 0
      (fun i '(rt, new_hash) => h ← tab_get (atom_hash rt) i; rehash_chain (length (atom_array rt)) rt mask h new_hash)
      (rt0, replicate (Z.to_nat (2 ^ k')) 0) = mret st /\ moved_upto (atom_hash_size rt0) st.
Proof.
  assert (Hhs : 0 <= atom_hash_size rt0) by (destruct (c_pow _ _ _ C) as (k & Hk & ->); lia).
  assert (H0 : moved_upto 0 (rt0, replicate (Z.to_nat (2 ^ k')) 0)).
  { exists []. split.
    - split; cbn [fst snd]; [|reflexivity|rewrite len_replicate; lia|].
      + exists (strings rt0). split; [destruct rt0; reflexivity|apply next_only_refl].
      + intros j Hj. exists 0. split; [apply look_replicate; lia|reflexivity].
    - intros x. split; [intros Hx; inversion Hx|intros (j & Hj & _); lia]. }
  destruct (for_up_ret moved_upto (fun i '(rt, new_hash) => h ← tab_get (atom_hash rt) i; rehash_chain (length (atom_array rt)) rt mask h new_hash)
    (Z.to_nat (atom_hash_size rt0)) 0 (rt0, replicate (Z.to_nat (2 ^ k')) 0)) as (st & E & Hst); [|exact H0|].
  - intros j [rt nh] Hj (dn & Hm & Hdn). destruct (c_table _ _ _ C j ltac:(lia)) as (n & Hn & Hc).
    pose proof Hm as [(h & Ert & _) _ _ _]. cbn [fst] in Ert. cbv beta iota.
    assert (atom_hash rt = atom_hash rt0) as -> by (rewrite Ert; reflexivity). rewrite (look_get _ _ _ Hn), ret_bind.
    destruct (rehash_chain_spec _ rt nh dn (length (atom_array rt)) n Hm Hc) as (st & Est & Hst).
    + intros x Hx (j' & Hj' & Hx')%Hdn. destruct (c_in _ _ _ C j x ltac:(lia) Hx) as (s & Hs & _ & Hb).
      destruct (c_in _ _ _ C j' x ltac:(lia) Hx') as (s' & Hs' & _ & Hb'). assert (s' = s) as -> by congruence. lia.
    + rewrite Ert. apply (chain_fuel _ _ _ C). lia.
    + exists st. split; [exact Est|]. exists (reverse (chs j) ++ dn). split; [exact Hst|]. intros x. rewrite elem_of_app, elem_of_reverse, Hdn. split.
      * intros [Hx|(j' & Hj' & Hx)]; [exists j|exists j']; (split; [lia|exact Hx]).
      * intros (j' & Hj' & Hx). destruct (decide (j' = j)) as [->|Hne]; [left; exact Hx|right]. exists j'. split; [lia|exact Hx].
  - exists st. split; [exact E|]. rewrite Z2Nat.id in Hst by lia. exact Hst.
Qed.

(** The objects after the move. *)
Lemma moved_obj st dn x : moved st dn -> strip <$> obj (fst st) x = strip <$> obj rt0 x.
Proof.
  intros [(h & -> & Hh) _ _ _]. unfold obj, slot. cbn [atom_array strings with_strings]. fold (slot rt0 x).
  destruct (slot rt0 x) as [[n|p]|]; [reflexivity|apply Hh|reflexivity].
Qed.

Lemma moved_some st dn x s' : moved st dn -> obj (fst st) x = Some s' -> exists s, obj rt0 x = Some s /\ strip s = strip s'.
Proof.
  intros Hm Hs'. pose proof (moved_obj st dn x Hm) as E. rewrite Hs' in E. destruct (obj rt0 x) as [s|]; [|discriminate].
  exists s. split; [reflexivity|]. injection E as E. unfold strip, set_next. congruence.
Qed.

Lemma moved_core st dn :
  moved st dn -> (forall x, x ∈ dn <-> exists j, 0 <= j < atom_hash_size rt0 /\ x ∈ chs j) ->
  core (MkAtoms (strings (fst st)) (2 ^ k') (atom_count rt0) (atom_size rt0) (JS_ATOM_COUNT_RESIZE (2 ^ k')) (snd st) (atom_array rt0) (atom_free_index rt0))
    (fun j => filter (fun x => new_bucket x = j) dn) fr.
Proof.
  intros Hm Hdn. set (rt := MkAtoms _ _ _ _ _ _ _ _). pose proof Hm as [(h & Ert & Hh) Hobj Hlen Htab].
  assert (Eo : forall x, obj rt x = obj (fst st) x) by (intros x; unfold rt; rewrite Ert; reflexivity).
  assert (En : forall x, next rt x = next (fst st) x) by (intros x; unfold next; rewrite Eo; reflexivity).
  assert (Hd : forall x, x ∈ dn -> exists s, obj rt0 x = Some s /\ hashed s).
  { intros x (j & Hj & Hx)%Hdn. destruct (c_in _ _ _ C _ _ Hj Hx) as (s & Hs & H1 & _). eauto. }
  assert (Hsome : forall x s', obj rt x = Some s' -> exists s, obj rt0 x = Some s /\ strip s = strip s').
  { intros x s'. rewrite Eo. apply (moved_some st dn). exact Hm. }
  pose proof C as [].
  split; try assumption; cbn [atom_hash_size atom_hash atom_array atom_size atom_count_resize rt].
  - intros i p Hp. destruct (c_obj i p Hp) as (s & Hs & Ht). destruct (next_only_some' _ h p s Hh Hs) as (s' & Hs' & Es).
    exists s'. split; [unfold rt; cbn [strings]; rewrite Ert; exact Hs'|]. apply strip_fields in Es as (_ & _ & _ & <-). exact Ht.
  - destruct c_null as [E|(s & Hs & Ht)]; [left; exact E|right]. exists s. split; [|exact Ht]. rewrite Eo. rewrite Hobj; [exact Hs|].
    intros Hin. destruct (Hd 0 Hin) as (s' & Hs' & Hh'). assert (s' = s) as -> by congruence. exact (hashed_not_sym s Hh' Ht).
  - intros i s' Hs' Ht. destruct (Hsome i s' Hs') as (s & Hs & Es). rewrite Eo, Hobj in Hs'; [exact (c_sym i s' Hs' Ht)|].
    intros Hin. destruct (Hd i Hin) as (s1 & Hs1 & Hh'). assert (s1 = s) as -> by congruence. apply (hashed_not_sym s' (strip_hashed _ _ Es Hh') Ht).
  - intros i s' Hs' Hs'h. destruct (Hsome i s' Hs') as (s & Hs & Es). pose proof (c_hash i s Hs (strip_hashed _ _ (eq_sym Es) Hs'h)) as E.
    apply strip_fields in Es as (<- & _ & <- & <-). exact E.
  - intros i j s s' Hs Hs' Hsh Ht Hc. destruct (Hsome i s Hs) as (s1 & Hs1 & E1). destruct (Hsome j s' Hs') as (s2 & Hs2 & E2).
    pose proof (strip_hashed _ _ (eq_sym E1) Hsh) as Hh1. apply strip_fields in E1 as (E1 & _ & _ & E1'). apply strip_fields in E2 as (E2 & _ & _ & E2').
    apply (c_uniq i j s1 s2); congruence.
  - exists k'. auto.
  - intros j Hj. destruct (Htab j Hj) as (n & Hn & Hc). exists n. split; [exact Hn|]. eapply chain_ext; [exact Hc|]. intros x _. apply En.
  - intros j x Hj [Hb Hin]%list_elem_of_filter. destruct (Hd x Hin) as (s & Hs & Hsh).
    pose proof (moved_obj st dn x Hm) as E. rewrite Hs, <- Eo in E. destruct (obj rt x) as [s'|]; [|discriminate]. exists s'. split; [reflexivity|].
    assert (strip s = strip s') as Es by (injection E; unfold strip, set_next; congruence).
    split; [exact (strip_hashed _ _ Es Hsh)|]. unfold new_bucket in Hb. rewrite Hs in Hb. apply strip_fields in Es as (_ & _ & <- & _). exact Hb.
  - intros x s' Hs' Hsh. destruct (Hsome x s' Hs') as (s & Hs & Es). pose proof (strip_hashed _ _ (eq_sym Es) Hsh) as Hsh'. apply list_elem_of_filter. split.
    + unfold new_bucket. rewrite Hs. apply strip_fields in Es as (_ & _ & -> & _). reflexivity.
    + apply Hdn. exists (bucket rt0 (hash s)). split; [apply (core_bucket _ _ _ C)|]. exact (c_all x s Hs Hsh').
  - reflexivity.
Qed.

Lemma resize_hash_spec (G : Prop) E :
  gspec G (JS_ResizeAtomHash rt0 (2 ^ k'))
    (fun r => (exists chs', core (fst r) chs' fr) /\ next_only (strings rt0) (strings (fst r)) /\ (snd r = 0 \/ ~ G) /\
              exists h n c t, fst r = MkAtoms h n (atom_count rt0) (atom_size rt0) c t (atom_array rt0) (atom_free_index rt0)) E.
Proof.
  unfold JS_ResizeAtomHash. rewrite land_mask, Z_mod_same_full by lia. cbn [Z.eqb negb].
  eapply gspec_bind; [apply gspec_try_alloc|]. intros [|] Hok; cbn [negb].
  - destruct moved_all as (st & -> & dn & Hm & Hdn). rewrite ret_bind. destruct st as [rt nh].
    pose proof (moved_core _ _ Hm Hdn) as Hcore. pose proof Hm as [(h & Ert & Hh) _ _ _]. cbn [fst snd] in *.
    assert (2 ^ k' <= 2 ^ 29) by (apply Z.pow_le_mono_r; lia). assert (0 < 2 ^ k') by lia.
    unfold JS_ATOM_COUNT_RESIZE. rewrite int_of_ok, ret_bind by lia.
    apply gspec_ret. cbn [fst snd strings]. rewrite Ert in Hcore |- *. cbn [strings atom_count atom_size atom_array atom_free_index with_strings] in *.
    split; [eauto|]. split; [exact Hh|]. split; [auto|]. repeat eexists.
  - apply gspec_ret. cbn [fst snd]. split; [eauto|]. split; [apply next_only_refl|]. split; [auto|]. destruct rt0. repeat eexists.
Qed.

End Rehash.

(** ** Reference counts *)

(** A heap in which only the reference counts of the atoms differ. *)
Lemma core_counts rt chs fr h :
  core rt chs fr ->
  (forall i p s, slot rt i = Some (SAtom p) -> strings rt !! p = Some s -> exists n, h !! p = Some (set_rc s n)) ->
  core (with_strings rt h) chs fr.
Proof.
  intros C H. set (rt' := with_strings rt h).
  assert (Hto : forall i s, obj rt i = Some s -> exists n, obj rt' i = Some (set_rc s n)).
  { intros i s (p & Hp & Hs)%obj_slot. destruct (H i p s Hp Hs) as (n & Hn). exists n. rewrite (slot_obj rt' i p Hp). exact Hn. }
  assert (Hfrom : forall i s', obj rt' i = Some s' -> exists s n, obj rt i = Some s /\ s' = set_rc s n).
  { intros i s' (p & Hp & Hs')%obj_slot. destruct (c_obj _ _ _ C i p Hp) as (s & Hs & _). destruct (H i p s Hp Hs) as (n & Hn).
    exists s, n. split; [rewrite (slot_obj rt i p Hp); exact Hs|]. change (h !! p = Some s') in Hs'. congruence. }
  assert (Hnext : forall x, next rt' x = next rt x).
  { intros x. unfold next. destruct (obj rt x) as [s|] eqn:E; [destruct (Hto x s E) as (n & ->); reflexivity|].
    destruct (obj rt' x) as [s'|] eqn:E'; [destruct (Hfrom x s' E') as (s & n & ? & _); congruence|reflexivity]. }
  pose proof C as []. split; try assumption.
  - intros i p Hp. destruct (c_obj i p Hp) as (s & Hs & Ht). destruct (H i p s Hp Hs) as (n & Hn). exists (set_rc s n). auto.
  - destruct c_null as [E|(s & Hs & Ht)]; [left; exact E|right]. destruct (Hto 0 s Hs) as (n & Hn). exists (set_rc s n). auto.
  - intros i s' (s & n & Hs & ->)%Hfrom. exact (c_sym i s Hs).
  - intros i s' (s & n & Hs & ->)%Hfrom. exact (c_hash i s Hs).
  - intros i j s1' s2' (s1 & n1 & Hs1 & ->)%Hfrom (s2 & n2 & Hs2 & ->)%Hfrom. exact (c_uniq i j s1 s2 Hs1 Hs2).
  - intros j Hj. destruct (c_table j Hj) as (n & Hn & Hc). exists n. split; [exact Hn|]. eapply chain_ext; [exact Hc|]. intros x _. apply Hnext.
  - intros j x Hj Hx. destruct (c_in j x Hj Hx) as (s & Hs & Hh & Hb). destruct (Hto x s Hs) as (n & Hn). exists (set_rc s n). auto.
  - intros x s' (s & n & Hs & ->)%Hfrom. exact (c_all x s Hs).
Qed.

Lemma core_set_rc rt chs fr p s n :
  core rt chs fr -> strings rt !! p = Some s -> core (str_set rt p (set_rc s n)) chs fr.
Proof.
  intros C Hp. apply core_counts; [exact C|]. intros i q sq Hq Hsq. destruct (decide (q = p)) as [->|Hne].
  - exists n. rewrite lookup_insert_eq. congruence.
  - exists (str_rc sq). rewrite lookup_insert_ne by congruence. rewrite Hsq. destruct sq. reflexivity.
Qed.

(** Changing the heap away from the table. *)
Lemma core_other rt chs fr h :
  core rt chs fr -> (forall p, in_table rt p -> h !! p = strings rt !! p) -> core (with_strings rt h) chs fr.
Proof.
  intros C H. apply core_counts; [exact C|]. intros i p s Hp Hs. exists (str_rc s). rewrite H by (exists i; exact Hp). rewrite Hs. destruct s. reflexivity.
Qed.

(** ** Adding *)

Section Add.
Context (rt : JSAtoms) (chs : Z -> list Z) (i : Z) (fr : list Z) (C : core rt chs (i :: fr)).
Context (p : ptr) (s : string_object) (Hs : strings rt !! p = Some s) (Hp : ~ in_table rt p).
Context (ty h : Z).

Definition is_sym : bool := ty =? JS_ATOM_TYPE_SYMBOL.

(** What a new atom that is not a symbol must satisfy. *)
Context (Hty : 1 <= ty <= 3).
Context (Hnew : is_sym = false -> h = atom_hash_of (chars (str_of s)) ty /\ forall x s', obj rt x = Some s' -> ~ matches ty (chars (str_of s)) s').

Notation b := (bucket rt h).

Definition added_chs (j : Z) : list Z := if is_sym then chs j else if decide (j = b) then i :: chs j else chs j.

Lemma free_slot : exists f, slot rt i = Some (SFree f) /\ i <> 0 /\ atom_free_index rt = i /\ chain (free_next rt) f fr /\ i ∉ fr.
Proof.
  pose proof (chain_nodup _ _ _ (c_free _ _ _ C)) as Hnd. apply NoDup_cons in Hnd as [Hi _].
  destruct (c_free _ _ _ C) as (E & H0 & f & Hf & Hc). exists f. rewrite <- E in *. unfold free_next in Hf.
  destruct (slot rt i) as [[f'|]|]; [|discriminate..]. injection Hf as ->. auto.
Qed.

Lemma added_core f nx t :
  slot rt i = Some (SFree f) ->
  (if is_sym then nx = i /\ t = atom_hash rt else look (atom_hash rt) b = Some nx /\ t = <[Z.to_nat b := i]> (atom_hash rt)) ->
  core (MkAtoms (<[p := set_atom s h ty nx]> (strings rt)) (atom_hash_size rt) (atom_count rt + 1) (atom_size rt) (atom_count_resize rt) t
          (<[Z.to_nat i := SAtom p]> (atom_array rt)) f) added_chs fr.
Proof.
  intros Hf Ht. destruct free_slot as (f' & Hf' & H0 & Ei & Hc & Hifr). assert (f' = f) as -> by congruence.
  set (rt' := MkAtoms _ _ _ _ _ _ _ _). set (s2 := set_atom s h ty nx).
  assert (Hi : 0 <= i < len (atom_array rt)) by exact (look_range _ _ _ Hf).
  assert (Hsl : forall j, slot rt' j = if decide (j = i) then Some (SAtom p) else slot rt j) by (intros j; apply look_insert, Hi).
  assert (Hob : forall j, obj rt' j = if decide (j = i) then Some s2 else obj rt j).
  { intros j. unfold obj. rewrite Hsl. case_decide; [apply lookup_insert_eq|]. destruct (slot rt j) as [[|q]|] eqn:E; [reflexivity| |reflexivity].
    apply lookup_insert_ne. intros ->. apply Hp. exists j. exact E. }
  assert (Hoi : obj rt i = None) by (unfold obj; rewrite Hf; reflexivity).
  assert (Hne : forall j x, 0 <= j < atom_hash_size rt -> x ∈ chs j -> x <> i).
  { intros j x Hj Hx ->. destruct (c_in _ _ _ C j i Hj Hx) as (s' & Hs' & _). congruence. }
  assert (Hch : forall j n, 0 <= j < atom_hash_size rt -> chain (next rt) n (chs j) -> chain (next rt') n (chs j)).
  { intros j n Hj Hc'. eapply chain_ext; [exact Hc'|]. intros x Hx. unfold next. rewrite Hob, decide_False; [reflexivity|exact (Hne j x Hj Hx)]. }
  assert (Hold : forall x s', x <> i -> obj rt' x = Some s' -> obj rt x = Some s') by (intros x s' Hx; rewrite Hob, decide_False by exact Hx; auto).
  assert (Hs2 : hashed s2 -> is_sym = false).
  { unfold is_sym. intros Hh. apply Z.eqb_neq. exact (hashed_not_sym s2 Hh). }
  pose proof (core_bucket _ _ _ C h) as Hb. pose proof C as [].
  split; try assumption; cbn [atom_hash_size atom_hash atom_array atom_size atom_count atom_count_resize rt'].
  - rewrite len_insert. exact c_size.
  - intros j q. rewrite Hsl. case_decide as Hj; [intros [= <-]; exists s2; split; [apply lookup_insert_eq|exact Hty]|].
    intros Hq. destruct (c_obj j q Hq) as (s' & Hs' & Ht'). exists s'. split; [|exact Ht']. cbn [strings rt']. rewrite lookup_insert_ne; [exact Hs'|].
    intros ->. apply Hp. exists j. exact Hq.
  - intros j k q. rewrite !Hsl. case_decide as Hj; case_decide as Hk; [congruence| | |exact (c_inj j k q)].
    + intros [= <-] H2. destruct Hp. exists k. exact H2.
    + intros H1 [= <-]. destruct Hp. exists j. exact H1.
  - destruct c_null as [E|(s' & Hs' & Ht')]; [lia|right]. exists s'. rewrite Hob, decide_False by congruence. auto.
  - intros j s' Hs' Ht'. destruct (decide (j = i)) as [->|Hj]; [|exact (c_sym j s' (Hold j s' Hj Hs') Ht')].
    rewrite Hob, decide_True in Hs' by reflexivity. injection Hs' as <-. change (is_sym) with (ty =? JS_ATOM_TYPE_SYMBOL) in Ht.
    cbn in Ht'. rewrite Ht', Z.eqb_refl in Ht. exact (proj1 Ht).
  - intros j s' Hs' Hh'. destruct (decide (j = i)) as [->|Hj]; [|exact (c_hash j s' (Hold j s' Hj Hs') Hh')].
    rewrite Hob, decide_True in Hs' by reflexivity. injection Hs' as <-. exact (proj1 (Hnew (Hs2 Hh'))).
  - intros j k s1 s' H1 H' Hh Et Ec. destruct (decide (j = i)) as [->|Hj], (decide (k = i)) as [->|Hk]; [reflexivity|exfalso..|].
    + rewrite Hob, decide_True in H1 by reflexivity. injection H1 as <-. apply (proj2 (Hnew (Hs2 Hh)) k s' (Hold k s' Hk H')). split; symmetry; [exact Et|exact Ec].
    + rewrite Hob, decide_True in H' by reflexivity. injection H' as <-.
      assert (hashed s2) as Hh2 by (unfold hashed in *; rewrite <- Et; exact Hh).
      apply (proj2 (Hnew (Hs2 Hh2)) j s1 (Hold j s1 Hj H1)). split; [exact Et|exact Ec].
    + exact (c_uniq j k s1 s' (Hold _ _ Hj H1) (Hold _ _ Hk H') Hh Et Ec).
  - eapply chain_ext; [exact Hc|]. intros x Hx. unfold free_next. rewrite Hsl, decide_False by (intros ->; contradiction). reflexivity.
  - intros j n. rewrite Hsl. case_decide as Hj; [discriminate|]. intros Hn. apply c_free_all in Hn. apply elem_of_cons in Hn as [?|?]; [contradiction|assumption].
  - destruct is_sym; destruct Ht as [_ ->]; [exact c_hlen|]. rewrite len_insert. exact c_hlen.
  - intros j Hj. destruct (c_table j Hj) as (n & Hn & Hc'). unfold added_chs. destruct is_sym eqn:Esym; destruct Ht as [Enx ->]; [eauto|].
    rewrite look_insert by lia. case_decide as Hjb; [subst j|eauto].
    exists i. split; [reflexivity|]. cbn [chain]. split; [reflexivity|]. split; [exact H0|]. exists nx.
    split; [unfold next; rewrite Hob, decide_True by reflexivity; reflexivity|]. apply Hch; [exact Hj|]. congruence.
  - intros j x Hj Hx. assert (x ∈ chs j \/ (is_sym = false /\ j = b /\ x = i)) as [Hx'|(Es & -> & ->)].
    { unfold added_chs in Hx. destruct is_sym; [left; exact Hx|]. case_decide as Hjb; [|left; exact Hx]. apply elem_of_cons in Hx as [->|Hx]; auto. }
    + destruct (c_in j x Hj Hx') as (s' & Hs' & H1 & H2). exists s'. rewrite Hob, decide_False by exact (Hne j x Hj Hx'). auto.
    + exists s2. rewrite Hob, decide_True by reflexivity. split; [reflexivity|]. split; [|reflexivity].
      unfold is_sym, JS_ATOM_TYPE_SYMBOL in Es. unfold hashed, JS_ATOM_TYPE_STRING, JS_ATOM_TYPE_GLOBAL_SYMBOL. cbn. lia.
  - intros x s' Hs' Hh'. destruct (decide (x = i)) as [->|Hx].
    + rewrite Hob, decide_True in Hs' by reflexivity. injection Hs' as <-. unfold added_chs. rewrite (Hs2 Hh'). cbn [hash s2 set_atom].
      rewrite decide_True by reflexivity. left.
    + pose proof (c_all x s' (Hold x s' Hx Hs') Hh') as Hin. unfold added_chs. destruct is_sym; [exact Hin|]. case_decide; [right; exact Hin|exact Hin].
  - rewrite c_count, len_cons. lia.
Qed.

End Add.

Lemma chain_unlink nx nx' l1 : forall a y i l2,
  chain nx a (l1 ++ y :: i :: l2) -> (forall x, x ∈ l1 ++ y :: i :: l2 -> x <> y -> nx' x = nx x) -> nx' y = nx i ->
  chain nx' a (l1 ++ y :: l2).
Proof.
  induction l1 as [|x l1 IH]; intros a y i l2 Hc Hx Hy; pose proof (chain_nodup _ _ _ Hc) as Hnd; apply NoDup_cons in Hnd as [Hin _].
  - cbn [app chain] in Hc |- *. destruct Hc as (-> & H0 & n & Hn & -> & Hn0 & m & Hm & Hc). split; [reflexivity|]. split; [exact H0|].
    exists m. split; [congruence|]. eapply chain_ext; [exact Hc|]. intros x Hxl. apply Hx; [right; right; exact Hxl|].
    intros ->. apply Hin. right. exact Hxl.
  - cbn [app chain] in Hc |- *. destruct Hc as (-> & H0 & n & Hn & Hc). split; [reflexivity|]. split; [exact H0|]. exists n. split.
    + rewrite Hx; [exact Hn|left|]. intros ->. apply Hin, elem_of_app. right. left.
    + apply (IH n y i l2 Hc); [|exact Hy]. intros z Hz. apply Hx. right. exact Hz.
Qed.

Lemma filter_ne_notin (l : list Z) i : i ∉ l -> filter (.≠ i) l = l.
Proof.
  induction l as [|x l IH]; intros Hi; [reflexivity|]. apply not_elem_of_cons in Hi as [Hx Hi].
  rewrite filter_cons_True by congruence. rewrite IH by exact Hi. reflexivity.
Qed.

Lemma filter_ne_split (l1 l2 : list Z) i : NoDup (l1 ++ i :: l2) -> filter (.≠ i) (l1 ++ i :: l2) = l1 ++ l2.
Proof.
  intros Hnd. apply NoDup_app in Hnd as (_ & H1 & H2). apply NoDup_cons in H2 as [H2 _].
  rewrite filter_app, filter_cons_False, !filter_ne_notin; [reflexivity|exact H2| |tauto]. intros Hin. exact (H1 i Hin (list_elem_of_here _ _)).
Qed.

Section Remove.
Context (rt : JSAtoms) (chs : Z -> list Z) (fr : list Z) (C : core rt chs fr).
Context (p : ptr) (i : Z) (s : string_object) (Hi : slot rt i = Some (SAtom p)) (Hs : strings rt !! p = Some s).

Lemma removed_obj : obj rt i = Some s.
Proof. rewrite (slot_obj _ _ _ Hi). exact Hs. Qed.

Lemma next_some x n : next rt x = Some n -> exists q sq, slot rt x = Some (SAtom q) /\ strings rt !! q = Some sq /\ hash_next sq = n.
Proof.
  unfold next. destruct (obj rt x) as [sq|] eqn:E; [|discriminate]. intros [= <-]. destruct (obj_slot _ _ _ E) as (q & Hq & Hsq). eauto.
Qed.

Lemma unlink_loop_spec l2 y l1 : forall fuel a,
  chain (next rt) a (l1 ++ y :: i :: l2) -> i ∉ l1 -> (length l1 < fuel)%nat ->
  exists q sq, slot rt y = Some (SAtom q) /\ strings rt !! q = Some sq /\
    unlink_loop fuel rt p a = mret (str_set rt q (set_next sq (hash_next s)), i).
Proof.
  induction l1 as [|x l1 IH]; intros fuel a Hc Hl Hf; (destruct fuel as [|fuel]; [simpl in Hf; lia|]); cbn [unlink_loop].
  - cbn [app chain] in Hc. destruct Hc as (-> & H0 & n & Hn & <- & _). rewrite (proj2 (Z.eqb_neq _ _) H0).
    destruct (next_some _ _ Hn) as (q & sq & Hq & Hsq & Enx). exists q, sq. split; [exact Hq|]. split; [exact Hsq|].
    rewrite (atom_ptr_slot _ _ _ Hq), ret_bind, (str_get_some _ _ _ Hsq), ret_bind. cbv zeta. rewrite Enx, (look_get _ _ _ Hi), ret_bind.
    rewrite bool_decide_true, (str_get_some _ _ _ Hs), ret_bind by reflexivity. reflexivity.
  - cbn [app chain] in Hc. destruct Hc as (-> & H0 & n & Hn & Hc). rewrite (proj2 (Z.eqb_neq _ _) H0).
    destruct (next_some _ _ Hn) as (q & sq & Hq & Hsq & Enx). rewrite (atom_ptr_slot _ _ _ Hq), ret_bind, (str_get_some _ _ _ Hsq), ret_bind.
    cbv zeta. rewrite Enx. destruct (IH fuel n Hc) as (q' & sq' & Hq' & Hsq' & E'); [intros Hin; apply Hl; right; exact Hin|simpl in Hf; lia|].
    exists q', sq'. split; [exact Hq'|]. split; [exact Hsq'|].
    assert (exists q2, slot rt n = Some (SAtom q2) /\ n <> i) as (q2 & Hq2 & Hni).
    { destruct (l1 ++ y :: i :: l2) as [|z l] eqn:El; [destruct l1; discriminate|]. pose proof (chain_nodup _ _ _ Hc) as Hnd. destruct Hc as (-> & _ & m & Hm & _).
      destruct (next_some _ _ Hm) as (q2 & _ & Hq2 & _). exists q2. split; [exact Hq2|]. intros ->. destruct l1 as [|w l1].
      - injection El as -> <-. apply NoDup_cons in Hnd as [Hnd _]. apply Hnd. left.
      - injection El as -> _. apply Hl. right. left. }
    rewrite (look_get _ _ _ Hq2), ret_bind, bool_decide_false; [exact E'|]. intros [= ->]. apply Hni. exact (c_inj _ _ _ C _ _ _ Hq2 Hi).
Qed.

(** The table after the atom has been taken off its chain. *)
Record unlinked (rt1 : JSAtoms) : Prop := {
  u_fields : exists h t, rt1 = MkAtoms h (atom_hash_size rt) (atom_count rt) (atom_size rt) (atom_count_resize rt) t (atom_array rt) (atom_free_index rt);
  u_len : len (atom_hash rt1) = atom_hash_size rt;
  u_strings : next_only (strings rt) (strings rt1);
  u_sym : forall x s', obj rt x = Some s' -> ~ hashed s' -> obj rt1 x = Some s';
  u_table : forall j, 0 <= j < atom_hash_size rt -> exists n, look (atom_hash rt1) j = Some n /\ chain (next rt1) n (filter (.≠ i) (chs j))
}.

Lemma other_chain j : 0 <= j < atom_hash_size rt -> j <> bucket rt (hash s) -> i ∉ chs j.
Proof.
  intros Hj Hne Hin. destruct (c_in _ _ _ C j i Hj Hin) as (s' & Hs' & _ & Hb). pose proof removed_obj. assert (s' = s) as -> by congruence. congruence.
Qed.

Lemma unlink_symbol : ~ hashed s -> unlinked rt.
Proof.
  intros Hh. split; [destruct rt; repeat eexists|exact (c_hlen _ _ _ C)|apply next_only_refl|auto|].
  intros j Hj. destruct (c_table _ _ _ C j Hj) as (n & Hn & Hc). exists n. split; [exact Hn|]. rewrite filter_ne_notin; [exact Hc|].
  intros Hin. destruct (c_in _ _ _ C j i Hj Hin) as (s' & Hs' & Hh' & _). pose proof removed_obj. assert (s' = s) as -> by congruence. contradiction.
Qed.

Lemma unlink_head l2 :
  hashed s -> chs (bucket rt (hash s)) = i :: l2 ->
  unlinked (MkAtoms (strings rt) (atom_hash_size rt) (atom_count rt) (atom_size rt) (atom_count_resize rt)
              (<[Z.to_nat (bucket rt (hash s)) := hash_next s]> (atom_hash rt)) (atom_array rt) (atom_free_index rt)).
Proof.
  intros Hh El. pose proof (core_bucket _ _ _ C (hash s)) as Hb. pose proof (c_hlen _ _ _ C) as Hlen.
  split; cbn [atom_hash strings]; [repeat eexists|rewrite len_insert; exact Hlen|apply next_only_refl|auto|].
  intros j Hj. rewrite look_insert by lia. destruct (c_table _ _ _ C j Hj) as (n & Hn & Hc). case_decide as Hjb.
  - subst j. exists (hash_next s). split; [reflexivity|]. rewrite El in *. pose proof (chain_nodup _ _ _ Hc) as Hnd. pose proof (filter_ne_split [] l2 i Hnd) as Ef. cbn [app] in Ef. rewrite Ef.
    destruct Hc as (<- & _ & m & Hm & Hc). unfold next in Hm. rewrite removed_obj in Hm. injection Hm as <-. exact Hc.
  - exists n. split; [exact Hn|]. rewrite filter_ne_notin by (apply other_chain; assumption). exact Hc.
Qed.

Lemma unlink_inner l1 y l2 q sq :
  hashed s -> chs (bucket rt (hash s)) = l1 ++ y :: i :: l2 -> slot rt y = Some (SAtom q) -> strings rt !! q = Some sq ->
  unlinked (str_set rt q (set_next sq (hash_next s))).
Proof.
  intros Hh El Hy Hsq. pose proof (core_bucket _ _ _ C (hash s)) as Hb.
  assert (Hset : forall x, obj (str_set rt q (set_next sq (hash_next s))) x = if decide (x = y) then Some (set_next sq (hash_next s)) else obj rt x).
  { intros x. apply obj_str_set; [|exact Hy]. intros k Hk. exact (c_inj _ _ _ C _ _ _ Hk Hy). }
  assert (Hyin : y ∈ chs (bucket rt (hash s))) by (rewrite El; apply elem_of_app; right; left).
  destruct (c_in _ _ _ C _ _ Hb Hyin) as (sy & Hsy & Hyh & Hyb). assert (sy = sq) as -> by (rewrite (slot_obj _ _ _ Hy) in Hsy; congruence).
  split; cbn [atom_hash strings str_set with_strings]; [destruct rt; repeat eexists|exact (c_hlen _ _ _ C)|apply next_only_set; exact Hsq| |].
  - intros x s' Hs' Hn. rewrite Hset, decide_False; [exact Hs'|]. intros ->. congruence.
  - intros j Hj. destruct (c_table _ _ _ C j Hj) as (n & Hn & Hc). exists n. split; [exact Hn|]. destruct (decide (j = bucket rt (hash s))) as [->|Hjb].
    + rewrite El in *. pose proof (chain_nodup _ _ _ Hc) as Hnd. replace (l1 ++ y :: i :: l2) with ((l1 ++ [y]) ++ i :: l2) in Hnd by (rewrite <- app_assoc; reflexivity).
      replace (l1 ++ y :: i :: l2) with ((l1 ++ [y]) ++ i :: l2) by (rewrite <- app_assoc; reflexivity).
      rewrite (filter_ne_split _ _ _ Hnd), <- app_assoc. apply (chain_unlink (next rt) _ l1 n y i l2 Hc).
      * intros x _ Hx. unfold next. rewrite Hset, decide_False by exact Hx. reflexivity.
      * unfold next. rewrite Hset, decide_True, removed_obj by reflexivity. reflexivity.
    + rewrite filter_ne_notin by (apply other_chain; assumption). eapply chain_ext; [exact Hc|]. intros x Hx. unfold next.
      rewrite Hset, decide_False; [reflexivity|]. intros ->. destruct (c_in _ _ _ C j y Hj Hx) as (s' & Hs' & _ & Hb'). congruence.
Qed.

Lemma removed_core rt1 h :
  unlinked rt1 -> i <> 0 -> (forall q, q <> p -> h !! q = strings rt1 !! q) ->
  core (MkAtoms h (atom_hash_size rt1) (atom_count rt1 - 1) (atom_size rt1) (atom_count_resize rt1) (atom_hash rt1)
          (<[Z.to_nat i := atom_set_free (atom_free_index rt1)]> (atom_array rt1)) i) (fun j => filter (.≠ i) (chs j)) (i :: fr).
Proof.
  intros [(h1 & t & E) Hlen Hstr Hsym Htab] H0 Hh. set (rt' := MkAtoms h _ _ _ _ _ _ _).
  pose proof (look_range _ _ _ Hi) as Hr.
  assert (Hsl : forall j, slot rt' j = if decide (j = i) then Some (SFree (atom_free_index rt)) else slot rt j).
  { intros j. unfold slot, rt'. rewrite E. cbn [atom_array]. apply look_insert, Hr. }
  assert (Hp : forall j q, j <> i -> slot rt j = Some (SAtom q) -> q <> p) by (intros j q Hj Hq ->; apply Hj; exact (c_inj _ _ _ C _ _ _ Hq Hi)).
  assert (Hob : forall j, obj rt' j = if decide (j = i) then None else obj rt1 j).
  { intros j. unfold obj. rewrite Hsl. case_decide as Hj; [reflexivity|]. replace (slot rt1 j) with (slot rt j) by (rewrite E; reflexivity).
    destruct (slot rt j) as [[|q]|] eqn:Eq; [reflexivity| |reflexivity]. apply Hh. exact (Hp j q Hj Eq). }
  assert (Hstrip : forall j, strip <$> obj rt1 j = strip <$> obj rt j).
  { intros j. unfold obj. replace (slot rt1 j) with (slot rt j) by (rewrite E; reflexivity). destruct (slot rt j) as [[|q]|]; [reflexivity|apply Hstr|reflexivity]. }
  assert (Hsome : forall j s', obj rt' j = Some s' -> j <> i /\ exists s0, obj rt j = Some s0 /\ strip s0 = strip s').
  { intros j s'. rewrite Hob. case_decide as Hj; [discriminate|]. intros Hs'. split; [exact Hj|]. specialize (Hstrip j). rewrite Hs' in Hstrip.
    destruct (obj rt j) as [s0|]; [|discriminate]. exists s0. split; [reflexivity|]. injection Hstrip. unfold strip, set_next. congruence. }
  assert (Hin : forall j x, x ∈ filter (.≠ i) (chs j) <-> x ∈ chs j /\ x <> i) by (intros j x; rewrite list_elem_of_filter; tauto).
  assert (Hbk : forall x, bucket rt' x = bucket rt x) by (intros x; unfold bucket, rt'; rewrite E; reflexivity).
  pose proof C as [].
  split; cbn [atom_hash_size atom_hash atom_array atom_size atom_count atom_count_resize atom_free_index rt' ]; rewrite ?E; cbn [atom_hash_size atom_array atom_size atom_count atom_count_resize].
  - rewrite len_insert. exact c_size.
  - exact c_max.
  - intros j q. rewrite Hsl. case_decide as Hj; [discriminate|]. intros Hq. destruct (c_obj j q Hq) as (s' & Hs' & Ht').
    destruct (next_only_some' _ _ q s' Hstr Hs') as (s2 & Hs2 & Es). exists s2. split; [cbn [strings]; rewrite Hh by exact (Hp j q Hj Hq); exact Hs2|].
    apply strip_fields in Es as (_ & _ & _ & <-). exact Ht'.
  - intros j k q. rewrite !Hsl. case_decide; [discriminate|]. case_decide; [discriminate|]. apply c_inj.
  - destruct c_null as [Ez|(s' & Hs' & Ht')]; [left; exact Ez|right]. exists s'. rewrite Hob, decide_False by lia. split; [|exact Ht'].
    apply Hsym; [exact Hs'|]. intros Hh'. exact (hashed_not_sym s' Hh' Ht').
  - intros j s' Hs' Ht'. destruct (Hsome j s' Hs') as (Hj & s0 & Hs0 & Es). rewrite Hob, decide_False in Hs' by exact Hj.
    apply strip_fields in Es as (_ & _ & _ & Et). assert (obj rt1 j = Some s0) as E1.
    { apply Hsym; [exact Hs0|]. intros Hh'. apply (hashed_not_sym s0 Hh'). congruence. }
    assert (s' = s0) as -> by congruence. exact (c_sym j s0 Hs0 Ht').
  - intros j s' Hs' Hh'. destruct (Hsome j s' Hs') as (Hj & s0 & Hs0 & Es). pose proof (c_hash j s0 Hs0 (strip_hashed _ _ (eq_sym Es) Hh')) as Ec.
    apply strip_fields in Es as (<- & _ & <- & <-). exact Ec.
  - intros j k s1 s2 H1 H2 Hh' Et Ec. destruct (Hsome j s1 H1) as (_ & s3 & H3 & E3). destruct (Hsome k s2 H2) as (_ & s4 & H4 & E4).
    pose proof (strip_hashed _ _ (eq_sym E3) Hh') as Hh3. apply strip_fields in E3 as (E3 & _ & _ & E3'). apply strip_fields in E4 as (E4 & _ & _ & E4').
    apply (c_uniq j k s3 s4); congruence.
  - cbn [chain]. split; [reflexivity|]. split; [exact H0|]. exists (atom_free_index rt). split; [unfold free_next; rewrite Hsl, decide_True by reflexivity; reflexivity|].
    eapply chain_ext; [exact c_free|]. intros x Hx. unfold free_next. rewrite Hsl, decide_False; [reflexivity|]. intros ->.
    destruct (chain_elem _ _ _ _ c_free Hx) as [_ [n Hn]]. unfold free_next in Hn. rewrite Hi in Hn. discriminate.
  - intros j n. rewrite Hsl. case_decide as Hj; [intros _; subst j; left|]. intros Hn. right. exact (c_free_all j n Hn).
  - exact c_pow.
  - rewrite E in Hlen. exact Hlen.
  - intros j Hj. destruct (Htab j Hj) as (n & Hn & Hc). exists n. split; [rewrite <- E in *; exact Hn|]. eapply chain_ext; [exact Hc|].
    intros x [Hx Hxi]%Hin. unfold next. rewrite Hob, decide_False by exact Hxi. reflexivity.
  - intros j x Hj [Hx Hxi]%Hin. destruct (c_in j x Hj Hx) as (s' & Hs' & Hh' & Hb). specialize (Hstrip x). rewrite Hs' in Hstrip.
    destruct (obj rt1 x) as [s1|] eqn:E1; [|discriminate]. exists s1. rewrite Hob, decide_False by exact Hxi. split; [exact E1|].
    assert (strip s' = strip s1) as Es by (injection Hstrip; unfold strip, set_next; congruence). split; [exact (strip_hashed _ _ Es Hh')|].
    apply strip_fields in Es as (_ & _ & <- & _). rewrite Hbk. exact Hb.
  - intros x s' Hs' Hh'. destruct (Hsome x s' Hs') as (Hx & s0 & Hs0 & Es). apply Hin. split; [|exact Hx].
    pose proof (c_all x s0 Hs0 (strip_hashed _ _ (eq_sym Es) Hh')) as Hc. apply strip_fields in Es as (_ & _ & Eh & _). rewrite Hbk, <- Eh. exact Hc.
  - rewrite c_count, len_cons. lia.
  - exact c_resize.
Qed.

End Remove.

(** ** Growth *)

Definition free_from (start new_size : Z) : list atom_slot :=
  (fun k => atom_set_free (if (start + Z.of_nat k =? new_size - 1) then 0 else start + Z.of_nat k + 1)) <$> seq 0 (Z.to_nat (new_size - start)).

Lemma look_free_from start n j : 0 <= j < n - start ->
  look (free_from start n) j = Some (SFree (if start + j =? n - 1 then 0 else start + j + 1)).
Proof.
  intros Hj. unfold look, free_from. rewrite (proj2 (Z.leb_le _ _)) by lia. rewrite list_lookup_fmap, lookup_seq_lt by lia.
  cbn. rewrite Z2Nat.id by lia. reflexivity.
Qed.

Lemma len_free_from start n : start <= n -> len (free_from start n) = n - start.
Proof. intros H. unfold len, free_from. rewrite length_fmap, length_seq. lia. Qed.

Lemma chain_up nx n m : forall a, 0 < a -> m = Z.to_nat (n - a) ->
  (forall x, a <= x < n -> nx x = Some (if x =? n - 1 then 0 else x + 1)) -> a < n ->
  chain nx a (Z.of_nat <$> seq (Z.to_nat a) m).
Proof.
  induction m as [|m IH]; intros a Ha Hm Hx Hn; [lia|]. cbn [seq fmap list_fmap chain]. split; [lia|]. split; [lia|].
  rewrite Hx by lia. eexists. split; [reflexivity|]. destruct (Z.eqb_spec a (n - 1)) as [E|E].
  - replace m with 0%nat by lia. reflexivity.
  - replace (S (Z.to_nat a)) with (Z.to_nat (a + 1)) by lia. apply IH; [lia|lia|intros x Hx'; apply Hx; lia|lia].
Qed.

Lemma grown_core rt chs n :
  core rt chs [] -> 0 < atom_size rt < n -> n <= JS_ATOM_MAX ->
  let rt' := MkAtoms (strings rt) (atom_hash_size rt) (atom_count rt) n (atom_count_resize rt) (atom_hash rt)
               (atom_array rt ++ free_from (atom_size rt) n) (atom_size rt) in
  core rt' chs (Z.of_nat <$> seq (Z.to_nat (atom_size rt)) (Z.to_nat (n - atom_size rt))) /\
  (forall j q, slot rt' j = Some (SAtom q) <-> slot rt j = Some (SAtom q)).
Proof.
  intros C Hn Hmax rt'. pose proof (c_size _ _ _ C) as Hsz.
  assert (Hsl : forall j, slot rt' j = if j <? atom_size rt then slot rt j else look (free_from (atom_size rt) n) (j - atom_size rt)).
  { intros j. unfold slot, rt'. cbn [atom_array]. rewrite look_app, Hsz. reflexivity. }
  assert (Hin : forall j, 0 <= j < atom_size rt -> slot rt' j = slot rt j).
  { intros j Hj. rewrite Hsl, (proj2 (Z.ltb_lt _ _)) by lia. reflexivity. }
  assert (Hout : forall j, atom_size rt <= j < n -> slot rt' j = Some (SFree (if j =? n - 1 then 0 else j + 1))).
  { intros j Hj. rewrite Hsl, (proj2 (Z.ltb_ge _ _)) by lia. rewrite look_free_from by lia.
    replace (atom_size rt + (j - atom_size rt)) with j by lia. reflexivity. }
  assert (Hrng : forall j x, slot rt' j = Some x -> 0 <= j < n).
  { intros j x Hx. apply look_range in Hx. unfold rt' in Hx. cbn [atom_array] in Hx. rewrite len_app, len_free_from in Hx by lia. lia. }
  assert (Hat : forall j q, slot rt' j = Some (SAtom q) <-> slot rt j = Some (SAtom q)).
  { intros j q. split; intros Hq.
    - pose proof (Hrng _ _ Hq). destruct (Z_lt_le_dec j (atom_size rt)); [rewrite <- Hin by lia; exact Hq|]. rewrite Hout in Hq by lia. discriminate.
    - pose proof (look_range _ _ _ Hq). rewrite Hin by lia. exact Hq. }
  assert (Hob : forall j, obj rt' j = obj rt j).
  { intros j. unfold obj. destruct (slot rt' j) as [[f|q]|] eqn:E; destruct (slot rt j) as [[f'|q']|] eqn:E'; try reflexivity.
    - apply Hat in E'. congruence.
    - apply Hat in E. congruence.
    - apply Hat in E. assert (q' = q) as -> by congruence. reflexivity.
    - apply Hat in E. congruence.
    - apply Hat in E'. congruence. }
  assert (Hnx : forall j, next rt' j = next rt j) by (intros j; unfold next; rewrite Hob; reflexivity).
  split; [|exact Hat]. pose proof C as [].
  split; cbn [atom_hash_size atom_hash atom_array atom_size atom_count atom_count_resize atom_free_index rt']; try assumption.
  - rewrite len_app, len_free_from by lia. lia.
  - intros j q Hq%Hat. exact (c_obj j q Hq).
  - intros j k q Hj%Hat Hk%Hat. exact (c_inj j k q Hj Hk).
  - right. rewrite Hob. destruct c_null; [lia|assumption].
  - intros j s. rewrite Hob. apply c_sym.
  - intros j s. rewrite Hob. apply c_hash.
  - intros j k s s'. rewrite !Hob. apply c_uniq.
  - apply (chain_up _ n); [lia|reflexivity| |lia]. intros x Hx. unfold free_next. rewrite Hout by lia. reflexivity.
  - intros j f Hf. pose proof (Hrng _ _ Hf). destruct (Z_lt_le_dec j (atom_size rt)).
    + rewrite Hin in Hf by lia. apply c_free_all in Hf. inversion Hf.
    + apply list_elem_of_fmap. exists (Z.to_nat j). split; [lia|]. apply elem_of_seq. lia.
  - intros j Hj. destruct (c_table j Hj) as (m & Hm & Hc). exists m. split; [exact Hm|]. eapply chain_ext; [exact Hc|]. intros x _. apply Hnx.
  - intros j x Hj Hx. rewrite Hob. exact (c_in j x Hj Hx).
  - intros x s. rewrite Hob. apply c_all.
  - rewrite c_count. unfold len. rewrite length_fmap, length_seq. simpl length. lia.
Qed.

(** The entry 0, when the table is created. *)
Definition null_object : string_object := MkStr empty_string 1 0 JS_ATOM_TYPE_SYMBOL 0.

Lemma null_core rt chs p :
  core rt chs [] -> atom_size rt = 0 -> strings rt !! p = None ->
  core (MkAtoms (<[p := null_object]> (strings rt)) (atom_hash_size rt) (atom_count rt + 1) 1 (atom_count_resize rt) (atom_hash rt) [SAtom p] 0) chs [].
Proof.
  intros C H0 Hp. set (rt' := MkAtoms _ _ _ _ _ _ _ _). pose proof (c_size _ _ _ C) as Hsz.
  assert (Hno : forall j x, slot rt j <> Some x) by (intros j x Hx; apply look_range in Hx; lia).
  assert (Hoo : forall j s, obj rt j <> Some s) by (intros j s (q & Hq & _)%obj_slot; exact (Hno _ _ Hq)).
  assert (Hsl : forall j x, slot rt' j = Some x -> j = 0 /\ x = SAtom p).
  { intros j x Hx. pose proof (look_range _ _ _ Hx) as Hr. unfold rt', len in Hr. simpl in Hr. assert (j = 0) as -> by lia. injection Hx as <-. auto. }
  assert (Hob : forall j s, obj rt' j = Some s -> j = 0 /\ s = null_object).
  { intros j s (q & Hq & Hs)%obj_slot. apply Hsl in Hq as [-> [= ->]]. cbn in Hs. rewrite lookup_insert_eq in Hs. split; congruence. }
  assert (Hn : ~ hashed null_object) by (intros [H|H]; discriminate).
  assert (Hc0 : forall j, 0 <= j < atom_hash_size rt -> chs j = []).
  { intros j Hj. destruct (chs j) as [|x l] eqn:E; [reflexivity|]. destruct (c_in _ _ _ C j x Hj) as (s & Hs & _); [rewrite E; left|]. destruct (Hoo _ _ Hs). }
  pose proof C as []. split; cbn [atom_hash_size atom_hash atom_array atom_size atom_count atom_count_resize atom_free_index rt']; try assumption.
  - reflexivity.
  - unfold JS_ATOM_MAX. rewrite Z.shiftl_mul_pow2 by lia. lia.
  - intros j q Hq. apply Hsl in Hq as [-> [= ->]]. exists null_object. split; [apply lookup_insert_eq|cbn; unfold JS_ATOM_TYPE_SYMBOL; lia].
  - intros j k q [-> _]%Hsl [-> _]%Hsl. reflexivity.
  - right. exists null_object. split; [|reflexivity]. unfold obj. cbn. apply lookup_insert_eq.
  - intros j s Hs _. apply Hob in Hs as [-> ->]. reflexivity.
  - intros j s Hs Hh. apply Hob in Hs as [-> ->]. contradiction.
  - intros j k s s' [-> _]%Hob [-> _]%Hob. reflexivity.
  - reflexivity.
  - intros j f [_ [=]]%Hsl.
  - intros j Hj. destruct (c_table j Hj) as (m & Hm & Hc). exists m. split; [exact Hm|]. rewrite Hc0 in * by exact Hj. exact Hc.
  - intros j x Hj Hx. rewrite Hc0 in Hx by exact Hj. inversion Hx.
  - intros x s Hs Hh. apply Hob in Hs as [-> ->]. contradiction.
  - rewrite c_count, H0. reflexivity.
Qed.

(** ** What an operation leaves alone *)

(** The objects outside [P] keep their text, type, count and entry. *)
Definition frame (rt rt' : JSAtoms) (P : ptr -> Prop) : Prop :=
  forall q, is_Some (strings rt !! q) -> ~ P q ->
    strip <$> strings rt' !! q = strip <$> strings rt !! q /\ (forall j, slot rt' j = Some (SAtom q) <-> slot rt j = Some (SAtom q)).

Lemma frame_refl rt P : frame rt rt P.
Proof. intros q _ _. tauto. Qed.

Lemma frame_weaken rt rt' (P Q : ptr -> Prop) : frame rt rt' P -> (forall q, P q -> Q q) -> frame rt rt' Q.
Proof. intros H HPQ q Hq Hn. apply H; auto. Qed.

Lemma frame_some rt rt' P q s : frame rt rt' P -> strings rt !! q = Some s -> ~ P q -> exists s', strings rt' !! q = Some s' /\ strip s' = strip s.
Proof.
  intros H Hs Hn. destruct (H q) as [E _]; [rewrite Hs; eauto|exact Hn|]. rewrite Hs in E. destruct (strings rt' !! q) as [s'|]; [|discriminate].
  exists s'. split; [reflexivity|]. injection E. unfold strip, set_next. congruence.
Qed.

Lemma frame_trans rt1 rt2 rt3 P : frame rt1 rt2 P -> frame rt2 rt3 P -> frame rt1 rt3 P.
Proof.
  intros H1 H2 q Hq Hn. pose proof Hq as [s Hs]. destruct (frame_some _ _ _ _ _ H1 Hs Hn) as (s' & Hs' & _). destruct (H1 q Hq Hn) as [E1 F1].
  destruct (H2 q) as [E2 F2]; [rewrite Hs'; eauto|exact Hn|]. split; [congruence|]. intros j. rewrite F2. apply F1.
Qed.

Lemma frame_set rt p s (P : ptr -> Prop) : P p -> frame rt (str_set rt p s) P.
Proof.
  intros HP q _ Hn. split; [|tauto]. cbn [strings str_set with_strings]. rewrite lookup_insert_ne by (intros ->; contradiction). reflexivity.
Qed.

Lemma new_ptr_fresh rt : strings rt !! new_ptr rt = None.
Proof. unfold new_ptr. apply not_elem_of_dom, is_fresh. Qed.

(** The largest size whose growth does not overflow an [int]. *)
Definition MAX_GROW : Z := 715827882.

Lemma grow_spec (G : Prop) E rt chs fr :
  core rt chs fr -> atom_size rt <= MAX_GROW ->
  gspec G (grow_atoms rt)
    (fun r => (snd r = false -> ~ G /\ fst r = rt) /\
      (snd r = true -> (exists i fr', core (fst r) chs (i :: fr')) /\ atom_hash_size (fst r) = atom_hash_size rt /\
         (fst r = rt \/ (forall j q, slot (fst r) j = Some (SAtom q) <-> slot rt j = Some (SAtom q)) /\ strings (fst r) = strings rt \/
          (forall j, slot rt j = None) /\
          exists p, strings rt !! p = None /\ strings (fst r) = <[p := null_object]> (strings rt) /\ forall j q, slot (fst r) j = Some (SAtom q) <-> j = 0 /\ q = p))) E.
Proof.
  intros C Hsz. unfold MAX_GROW in Hsz. unfold grow_atoms. pose proof (c_size _ _ _ C) as Hlen. pose proof (len_nonneg (atom_array rt)).
  destruct (Z.eqb_spec (atom_free_index rt) 0) as [Hf|Hf].
  2: { apply gspec_ret. cbn [fst snd]. split; [discriminate|]. intros _. split; [|split; [reflexivity|left; reflexivity]]. exists (atom_free_index rt).
       pose proof (c_free _ _ _ C) as Hc. destruct fr as [|x fr]; [contradiction|]. pose proof Hc as (-> & _). eauto. }
  assert (fr = []) as ->. { pose proof (c_free _ _ _ C) as Hc. destruct fr as [|x fr]; [reflexivity|]. destruct Hc as (-> & ? & _). contradiction. }
  rewrite int_of_ok, ret_bind by lia.
  rewrite Z.quot_div_nonneg by lia. set (n := Z.max 711 (atom_size rt * 3 / 2)). cbv zeta.
  assert (Hn : atom_size rt < n <= JS_ATOM_MAX).
  { unfold n, JS_ATOM_MAX. rewrite Z.shiftl_mul_pow2 by lia. pose proof (Z.div_mod (atom_size rt * 3) 2 ltac:(lia)). pose proof (Z.mod_pos_bound (atom_size rt * 3) 2 ltac:(lia)). lia. }
  rewrite (proj2 (Z.ltb_ge _ _)) by lia. eapply gspec_bind; [apply gspec_try_alloc|]. intros [|] Hok; cbn [negb].
  2: { apply gspec_ret. cbn [fst snd]. split; [auto|discriminate]. }
  destruct (Z.eqb_spec (atom_size rt) 0) as [Hz|Hz].
  - eapply gspec_bind; [apply gspec_try_alloc|]. intros [|] Hok'; cbn [negb].
    2: { apply gspec_ret. cbn [fst snd]. split; [auto|discriminate]. }
    pose proof (null_core rt chs _ C Hz (new_ptr_fresh rt)) as C1. destruct (grown_core _ _ n C1) as [C2 Hat]; [cbn [atom_size]; unfold n; lia|lia|].
    cbn [strings atom_hash_size atom_count atom_size atom_count_resize atom_hash atom_array] in C2, Hat.
    apply gspec_ret. cbn [fst snd]. split; [discriminate|]. intros _. split.
    + eexists _, _. replace (Z.to_nat (n - 1)) with (S (Z.to_nat (n - 2))) in C2 by lia. cbn [seq fmap list_fmap] in C2. exact C2.
    + split; [reflexivity|]. right. right. split.
      { intros j. destruct (slot rt j) eqn:Es; [apply look_range in Es; lia|reflexivity]. }
      exists (new_ptr rt). split; [apply new_ptr_fresh|]. split; [reflexivity|].
      intros j q. change (slot _ j) with (look (SAtom (new_ptr rt) :: free_from 1 n) j). unfold slot in Hat. cbn [atom_array app] in Hat. rewrite Hat. split.
      * intros Hj. pose proof (look_range _ _ _ Hj) as Hr. unfold len in Hr. simpl in Hr. assert (j = 0) as -> by lia. injection Hj as <-. auto.
      * intros [-> ->]. reflexivity.
  - destruct (grown_core rt chs n C) as [C2 Hat]; [lia|lia|]. apply gspec_ret. cbn [fst snd]. split; [discriminate|]. intros _. split.
    + eexists _, _. replace (Z.to_nat (n - atom_size rt)) with (S (Z.to_nat (n - atom_size rt - 1))) in C2 by lia. cbn [seq fmap list_fmap] in C2. exact C2.
    + split; [reflexivity|]. right. left. split; [exact Hat|reflexivity].
Qed.
