(* ===== verification/AtomOps.v ===== *)
(** The operations on atoms keep the invariant and change only the references they
    are given: releasing a string or an atom, and making an atom of a string.

    [__JS_NewAtom]: the atom of a string is the one with its units if there is one,
    and a new one otherwise. *)
From Stdlib Require Import ZArith Lia String.
From S2P Require Import Prelude Cutils BigIntString JSString Atoms AtomSpecs AtomRemove.
From stdpp Require Import base tactics list gmap numbers strings.

Open Scope Z_scope.

(** ** Freeing *)

Lemma free_fits rt chs fr i p : core rt chs fr -> slot rt i = Some (SAtom p) -> 1 <= atom_count rt.
Proof.
  intros C Hi. pose proof (look_range _ _ _ Hi) as Hr. rewrite (c_count _ _ _ C), <- (c_size _ _ _ C).
  assert (i ∉ fr) as Hn. { intros Hin. destruct (chain_elem _ _ _ _ (c_free _ _ _ C) Hin) as [_ [n Hx]]. unfold free_next in Hx. rewrite Hi in Hx. discriminate. }
  pose proof (nodup_bound (i :: fr) (len (atom_array rt))) as H. rewrite len_cons in H. cut (1 + len fr <= Z.max 0 (len (atom_array rt))); [lia|]. apply H.
  - constructor; [exact Hn|exact (chain_nodup _ _ _ (c_free _ _ _ C))].
  - intros x [->|Hx]%elem_of_cons; [exact Hr|]. destruct (chain_elem _ _ _ _ (c_free _ _ _ C) Hx) as [_ [n Hx']]. unfold free_next in Hx'.
    destruct (slot rt x) as [[|]|] eqn:Es; [|discriminate..]. exact (look_range _ _ _ Es).
Qed.

(** The state after [JS_FreeAtomStruct] of the atom [p] at [i]. *)
Record removed (rt rt' : JSAtoms) (p : ptr) (i : Z) (s : string_object) : Prop := {
  r_slot : forall j, slot rt' j = if decide (j = i) then Some (SFree (atom_free_index rt)) else slot rt j;
  r_other : forall q, q <> p -> strip <$> strings rt' !! q = strip <$> strings rt !! q;
  r_gone : strings rt' !! p = None \/ (exists s', strings rt' !! p = Some s' /\ strip s' = strip s) /\ atom_type s = JS_ATOM_TYPE_SYMBOL;
  r_hash : atom_hash_size rt' = atom_hash_size rt;
  r_size : atom_size rt' = atom_size rt
}.

(** The first part of [JS_FreeAtomStruct]. *)
Definition unlink_part (rt : JSAtoms) (p : ptr) (s : string_object) : M (JSAtoms * Z) :=
  if negb (atom_type s =? JS_ATOM_TYPE_SYMBOL) then
    let h0 := bucket rt (hash s) in
    i ← tab_get (atom_hash rt) h0;
    p1 ← tab_get (atom_array rt) i;
    if bool_decide (p1 = SAtom p) then
      t ← tab_set (atom_hash rt) h0 (hash_next s);
      mret (MkAtoms (strings rt) (atom_hash_size rt) (atom_count rt) (atom_size rt) (atom_count_resize rt) t (atom_array rt) (atom_free_index rt), i)
    else unlink_loop (length (atom_array rt)) rt p i
  else mret (rt, hash_next s).

Lemma unlink_part_spec rt chs fr p i s :
  core rt chs fr -> slot rt i = Some (SAtom p) -> strings rt !! p = Some s ->
  exists rt1, unlink_part rt p s = mret (rt1, i) /\ unlinked rt chs i rt1.
Proof.
  intros C Hi Hs. pose proof (removed_obj _ _ _ _ Hi Hs) as Ho. unfold unlink_part.
  destruct (Z.eqb_spec (atom_type s) JS_ATOM_TYPE_SYMBOL) as [Ht|Ht]; cbn [negb].
  - exists rt. rewrite (c_sym _ _ _ C _ _ Ho Ht). split; [reflexivity|]. apply (unlink_symbol rt chs fr C p i s Hi Hs). intros Hh. exact (hashed_not_sym s Hh Ht).
  - destruct (obj_type _ _ _ C _ _ Ho) as [|Hh]; [contradiction|]. pose proof (core_bucket _ _ _ C (hash s)) as Hb. cbv zeta.
    destruct (c_table _ _ _ C _ Hb) as (a & Ha & Hc). rewrite (look_get _ _ _ Ha), ret_bind.
    destruct (list_elem_of_split _ _ (c_all _ _ _ C _ _ Ho Hh)) as (l1 & l2 & El). pose proof (chain_fuel _ _ _ C _ Hb) as Hf. rewrite El in Hc, Hf.
    pose proof (chain_nodup _ _ _ Hc) as Hnd. destruct l1 as [|y0 l1] using rev_ind.
    + cbn [app chain] in Hc. destruct Hc as (<- & _). rewrite (look_get _ _ _ Hi), ret_bind, bool_decide_true by reflexivity.
      rewrite set_look, ret_bind by (rewrite (c_hlen _ _ _ C); exact Hb). eexists. split; [reflexivity|]. exact (unlink_head rt chs fr C p i s Hi Hs l2 Hh El).
    + clear IHl1. rewrite <- app_assoc in *. cbn [app] in *.
      assert (i ∉ l1 /\ i <> y0) as [Hl Hy].
      { apply NoDup_app in Hnd as (_ & H1 & H2). apply NoDup_cons in H2 as [H2 _]. split.
        - intros Hin. apply (H1 i Hin). right. left.
        - intros ->. apply H2. left. }
      rewrite length_app in Hf. simpl in Hf.
      destruct (unlink_loop_spec rt chs fr C p i s Hi Hs l2 y0 l1 (length (atom_array rt)) a Hc Hl ltac:(lia)) as (q & sq & Hq & Hsq & E).
      exists (str_set rt q (set_next sq (hash_next s))). split; [|exact (unlink_inner rt chs fr C p i s Hi Hs l1 y0 l2 q sq Hh El Hq Hsq)].
      assert (exists qa, slot rt a = Some (SAtom qa) /\ a <> i) as (qa & Hqa & Hai).
      { assert (exists a' l, l1 ++ y0 :: i :: l2 = a' :: l /\ a' <> i) as (a' & l & Ea & Hne).
        { destruct l1 as [|z l1]; [exists y0, (i :: l2); auto|]. exists z, (l1 ++ y0 :: i :: l2). split; [reflexivity|]. intros ->. apply Hl. left. }
        rewrite Ea in Hc. destruct Hc as (-> & _ & n & Hn & _). destruct (next_some _ _ _ Hn) as (qa & _ & Hqa & _). eauto. }
      rewrite (look_get _ _ _ Hqa), ret_bind, bool_decide_false; [exact E|]. intros [= ->]. apply Hai. exact (c_inj _ _ _ C _ _ _ Hqa Hi).
Qed.

Lemma free_struct_spec rt chs fr p i s :
  core rt chs fr -> slot rt i = Some (SAtom p) -> i <> 0 -> strings rt !! p = Some s ->
  exists rt', JS_FreeAtomStruct rt p = mret rt' /\ core rt' (fun j => filter (.≠ i) (chs j)) (i :: fr) /\ removed rt rt' p i s.
Proof.
  intros C Hi H0 Hs. destruct (unlink_part_spec rt chs fr p i s C Hi Hs) as (rt1 & E1 & U).
  pose proof (free_fits _ _ _ _ _ C Hi) as Hcnt. pose proof (look_range _ _ _ Hi) as Hr.
  unfold JS_FreeAtomStruct. rewrite (str_get_some _ _ _ Hs), ret_bind. fold (unlink_part rt p s). rewrite E1, ret_bind.
  pose proof U as [(h & t & Ert) Hlen Hstr Hsym Htab].
  assert (atom_array rt1 = atom_array rt) as Ea by (rewrite Ert; reflexivity). assert (atom_count rt1 = atom_count rt) as Ec by (rewrite Ert; reflexivity).
  assert (atom_free_index rt1 = atom_free_index rt) as Ef by (rewrite Ert; reflexivity).
  rewrite set_look, ret_bind by (rewrite Ea; exact Hr). cbv zeta. rewrite (proj2 (Z.ltb_ge _ _)) by lia.
  set (keep := (atom_type s =? JS_ATOM_TYPE_SYMBOL) && negb (hash s =? JS_ATOM_HASH_PRIVATE) && negb (hash s =? 0)).
  set (strs := if keep then strings rt1 else delete p (strings rt1)).
  assert (Hstrs : forall q, q <> p -> strs !! q = strings rt1 !! q) by (intros q Hq; unfold strs; destruct keep; [reflexivity|apply lookup_delete_ne; congruence]).
  eexists. split; [reflexivity|]. split; [exact (removed_core rt chs fr C p i Hi rt1 strs U H0 Hstrs)|]. split; cbn [atom_hash_size atom_size strings].
  - intros j. unfold slot. cbn [atom_array]. rewrite Ea, Ef. apply look_insert, Hr.
  - intros q Hq. rewrite Hstrs by exact Hq. apply Hstr.
  - unfold strs. destruct keep eqn:Ek; [right|left; apply lookup_delete_eq]. split.
    + destruct (next_only_some' _ _ p s Hstr Hs) as (s' & Hs' & Es). eauto.
    + apply andb_true_iff in Ek as [Ek _]. apply andb_true_iff in Ek as [Ek _]. apply Z.eqb_eq. exact Ek.
  - rewrite Ert. reflexivity.
  - rewrite Ert. reflexivity.
Qed.

(** ** References *)

Lemma removed_in_table rt chs fr rt' p i s : core rt chs fr -> slot rt i = Some (SAtom p) -> removed rt rt' p i s ->
  forall j q, slot rt' j = Some (SAtom q) <-> slot rt j = Some (SAtom q) /\ q <> p.
Proof.
  intros C Hi R j q. rewrite (r_slot _ _ _ _ _ R). case_decide as Hj; [subst j|].
  - split; [discriminate|]. rewrite Hi. intros [[= ->] []]. reflexivity.
  - split; [|tauto]. intros Hq. split; [exact Hq|]. intros ->. apply Hj. exact (c_inj _ _ _ C _ _ _ Hq Hi).
Qed.

(** Dropping one reference to [p]: the object is there with one reference less, or
    it is gone from the table when it was the last one. *)
Record dropped (rt rt' : JSAtoms) (p : ptr) (s : string_object) : Prop := {
  d_frame : frame rt rt' (eq p);
  d_new : forall q, strings rt !! q = None -> strings rt' !! q = None;
  d_slot : forall j q, slot rt' j = Some (SAtom q) -> slot rt j = Some (SAtom q);
  d_more : 1 < str_rc s -> strings rt' !! p = Some (set_rc s (str_rc s - 1)) /\ forall j, slot rt' j = slot rt j;
  d_last : str_rc s <= 1 -> ~ in_table rt' p /\ (forall s', strings rt' !! p = Some s' -> str_rc s' <= 0 /\ atom_type s = JS_ATOM_TYPE_SYMBOL);
  d_hash : atom_hash_size rt' = atom_hash_size rt;
  d_size : atom_size rt' = atom_size rt;
  d_free : atom_free_index rt <> 0 -> atom_free_index rt' <> 0
}.

Lemma str_set_slot rt p s j : slot (str_set rt p s) j = slot rt j.
Proof. reflexivity. Qed.

Lemma heap_ok_counts rt p s : heap_ok rt -> live rt p s -> heap_ok (str_set rt p s).
Proof.
  intros H Hl q sq. cbn [strings str_set with_strings]. destruct (decide (q = p)) as [->|Hq].
  - rewrite lookup_insert_eq. intros [= <-]. left. exact Hl.
  - rewrite lookup_insert_ne by congruence. exact (H q sq).
Qed.

(** The last reference to an atom. *)
Lemma drop_last rt p i s n :
  atoms_ok rt -> strings rt !! p = Some s -> slot rt i = Some (SAtom p) -> i <> 0 -> str_rc s <= 1 -> n <= 0 ->
  exists rt', JS_FreeAtomStruct (str_set rt p (set_rc s n)) p = mret rt' /\ atoms_ok rt' /\ dropped rt rt' p s.
Proof.
  intros [(chs & fr & C) Hok] Hs Hi H0 H1 Hn. pose proof (core_set_rc _ _ _ p s n C Hs) as C1.
  destruct (free_struct_spec _ _ _ p i (set_rc s n) C1 Hi H0) as (rt' & E & C2 & R); [apply lookup_insert_eq|].
  pose proof (removed_in_table _ _ _ _ _ _ _ C1 Hi R) as Hin. exists rt'. split; [exact E|].
  assert (Hother : forall q, q <> p -> strip <$> strings rt' !! q = strip <$> strings rt !! q).
  { intros q Hq. rewrite (r_other _ _ _ _ _ R q Hq). cbn [strings str_set with_strings]. rewrite lookup_insert_ne by congruence. reflexivity. }
  assert (Hgone : ~ in_table rt' p) by (intros [j Hj]; apply Hin in Hj; tauto).
  assert (Hps : forall s', strings rt' !! p = Some s' -> strip s' = strip (set_rc s n) /\ atom_type s = JS_ATOM_TYPE_SYMBOL).
  { intros s' Hs'. destruct (r_gone _ _ _ _ _ R) as [Hn'|[(s1 & Hs1 & Es) Ht]]; [congruence|]. split; [congruence|exact Ht]. }
  split; [split; [eauto|]|].
  - intros q sq Hsq. destruct (decide (q = p)) as [->|Hq].
    + right. destruct (Hps sq Hsq) as [Es Ht]. apply strip_fields in Es as (_ & Er & _ & Et). cbn in Er, Et. split; [lia|]. split; [congruence|exact Hgone].
    + pose proof (Hother q Hq) as Es. rewrite Hsq in Es. destruct (strings rt !! q) as [s0|] eqn:E0; [|discriminate].
      assert (strip sq = strip s0) as Es' by (injection Es; unfold strip, set_next; congruence). apply strip_fields in Es' as (_ & Er & _ & Et).
      destruct (Hok q s0 E0) as [[Hl1 Hl2]|(Hw1 & Hw2 & Hw3)]; [left|right]; [split|split; [|split]]; [lia| |lia|congruence|].
      * intros Hne. destruct (Hl2 ltac:(congruence)) as [j Hj]. exists j. apply Hin. auto.
      * intros [j Hj]. apply Hw3. exists j. apply Hin in Hj. tauto.
  - split.
    + intros q _ Hq. split; [apply Hother; congruence|]. intros j. rewrite Hin. split; [tauto|]. intros Hj. split; [exact Hj|congruence].
    + intros q Hq. destruct (decide (q = p)) as [->|Hqp]; [congruence|]. pose proof (Hother q Hqp) as Es. rewrite Hq in Es. destruct (strings rt' !! q); [discriminate|reflexivity].
    + intros j q Hj. apply Hin in Hj. tauto.
    + lia.
    + intros _. split; [exact Hgone|]. intros s' Hs'. destruct (Hps s' Hs') as [Es Ht]. apply strip_fields in Es as (_ & Er & _). cbn in Er. split; [lia|exact Ht].
    + exact (r_hash _ _ _ _ _ R).
    + exact (r_size _ _ _ _ _ R).
    + intros _. pose proof (c_free _ _ _ C2) as (<- & Hx & _). exact Hx.
Qed.

(** One reference of several. *)
Lemma drop_one rt p s :
  atoms_ok rt -> strings rt !! p = Some s -> 1 < str_rc s ->
  atoms_ok (str_set rt p (set_rc s (str_rc s - 1))) /\ dropped rt (str_set rt p (set_rc s (str_rc s - 1))) p s.
Proof.
  intros [(chs & fr & C) Hok] Hs H1. split; [split|].
  - exists chs, fr. exact (core_set_rc _ _ _ p s _ C Hs).
  - apply heap_ok_counts; [exact Hok|]. destruct (Hok p s Hs) as [[_ Hl]|[Hw _]]; [|lia]. split; [cbn; lia|]. exact Hl.
  - split; try reflexivity; try auto.
    + apply frame_set. reflexivity.
    + intros q Hq. cbn [strings str_set with_strings]. rewrite lookup_insert_ne; [exact Hq|]. intros ->. congruence.
    + intros _. split; [apply lookup_insert_eq|reflexivity].
    + lia.
Qed.

(** The references of the table to its constant atoms are not for others to drop. *)
Definition spare (rt : JSAtoms) (p : ptr) (s : string_object) : Prop :=
  forall i, slot rt i = Some (SAtom p) -> __JS_AtomIsConst i = true -> 2 <= str_rc s.

Lemma const_zero : __JS_AtomIsConst 0 = true.
Proof. reflexivity. Qed.

Lemma free_string_spec rt p s :
  atoms_ok rt -> strings rt !! p = Some s -> live rt p s -> spare rt p s ->
  exists rt', js_free_string rt p = mret rt' /\ atoms_ok rt' /\ dropped rt rt' p s.
Proof.
  intros Hrt Hs [Hl1 Hl2] Hsp. unfold js_free_string. rewrite (str_get_some _ _ _ Hs), ret_bind. cbv zeta. cbn [str_rc set_rc atom_type].
  destruct (Z.leb_spec (str_rc s - 1) 0) as [H1|H1].
  2: { eexists. split; [reflexivity|]. apply drop_one; [exact Hrt|exact Hs|lia]. }
  destruct (Z.eqb_spec (atom_type s) 0) as [Ht|Ht]; cbn [negb].
  - set (rt' := with_strings rt (delete p (<[p := set_rc s (str_rc s - 1)]> (strings rt)))).
    exists rt'. split; [reflexivity|]. destruct Hrt as [(chs & fr & C) Hok].
    assert (Hnt : ~ in_table rt p) by (intros [i Hi]; destruct (c_obj _ _ _ C _ _ Hi) as (s' & Hs' & Ht'); assert (s' = s) as -> by congruence; lia).
    assert (Hd : forall q, delete p (<[p := set_rc s (str_rc s - 1)]> (strings rt)) !! q = if decide (q = p) then None else strings rt !! q).
    { intros q. case_decide as Hq; [subst q; apply lookup_delete_eq|]. rewrite lookup_delete_ne, lookup_insert_ne by congruence. reflexivity. }
    assert (C' : core rt' chs fr).
    { apply (core_other rt chs fr _ C). intros q Hq. rewrite Hd, decide_False; [reflexivity|]. intros ->. contradiction. }
    split; [split; [eauto|]|].
    + intros q sq. cbn [strings with_strings rt']. rewrite Hd. case_decide; [discriminate|]. exact (Hok q sq).
    + split; try reflexivity; try auto; cbn [strings with_strings rt'].
      * intros q _ Hq. rewrite Hd, decide_False by congruence. split; [reflexivity|tauto].
      * intros q Hq. rewrite Hd. case_decide; auto.
      * lia.
      * intros _. split; [exact Hnt|]. intros s'. rewrite Hd, decide_True by reflexivity. discriminate.
  - destruct (Hl2 Ht) as [i Hi]. apply (drop_last rt p i s (str_rc s - 1) Hrt Hs Hi); [|lia|lia].
    intros ->. pose proof (Hsp 0 Hi const_zero). lia.
Qed.

Lemma free_atom_spec rt i p s :
  atoms_ok rt -> slot rt i = Some (SAtom p) -> strings rt !! p = Some s -> __JS_AtomIsConst i = false ->
  exists rt', JS_FreeAtom rt i = mret rt' /\ atoms_ok rt' /\ dropped rt rt' p s.
Proof.
  intros Hrt Hi Hs Hc. unfold JS_FreeAtom, __JS_FreeAtom. rewrite Hc, (atom_ptr_slot _ _ _ Hi), ret_bind, (str_get_some _ _ _ Hs), ret_bind.
  cbv zeta. cbn [str_rc set_rc]. destruct (Z.ltb_spec 0 (str_rc s - 1)) as [H1|H1].
  - eexists. split; [reflexivity|]. apply drop_one; [exact Hrt|exact Hs|lia].
  - apply (drop_last rt p i s (str_rc s - 1) Hrt Hs Hi); [|lia|lia]. intros ->. discriminate.
Qed.

(** ** Linking *)

Lemma heap_ok_same rt rt' : (forall j, slot rt' j = slot rt j) -> next_only (strings rt) (strings rt') -> heap_ok rt -> heap_ok rt'.
Proof.
  intros Hsl Hn H q s' Hs'. destruct (next_only_some _ _ _ _ Hn Hs') as (s & Hs & Es). apply strip_fields in Es as (_ & Er & _ & Et).
  assert (Hin : in_table rt' q <-> in_table rt q) by (unfold in_table; split; intros [j Hj]; exists j; [rewrite <- Hsl|rewrite Hsl]; exact Hj).
  destruct (H q s Hs) as [[H1 H2]|(H1 & H2 & H3)]; [left|right].
  - split; [lia|]. intros Ht. apply Hin, H2. congruence.
  - split; [lia|]. split; [congruence|]. rewrite Hin. exact H3.
Qed.

Lemma frame_same rt rt' P : (forall j, slot rt' j = slot rt j) -> next_only (strings rt) (strings rt') -> frame rt rt' P.
Proof. intros Hsl Hn q _ _. split; [apply Hn|]. intros j. rewrite Hsl. reflexivity. Qed.

(** The state after the atom [p] has been entered at [i]. *)
Record linked (rt rt' : JSAtoms) (p : ptr) (s : string_object) (i ty h : Z) : Prop := {
  l_ok : atoms_ok rt';
  l_frame : frame rt rt' (eq p);
  l_slot : slot rt' i = Some (SAtom p);
  l_obj : exists s', strings rt' !! p = Some s' /\ strip s' = strip (set_atom s h ty 0);
  l_new : forall q, strings rt !! q = None -> strings rt' !! q = None;
  l_only : forall j q, slot rt' j = Some (SAtom q) -> j = i \/ slot rt j = Some (SAtom q)
}.

Lemma linked_resize rt rt1 rt2 p s i ty h :
  linked rt rt1 p s i ty h -> (exists chs fr, core rt2 chs fr) -> next_only (strings rt1) (strings rt2) -> (forall j, slot rt2 j = slot rt1 j) ->
  linked rt rt2 p s i ty h.
Proof.
  intros [[_ Hh] Hf Hs (s' & Hs' & Es) Hn Ho] C Hnx Hsl. split.
  - split; [exact C|]. exact (heap_ok_same _ _ Hsl Hnx Hh).
  - eapply frame_trans; [exact Hf|]. exact (frame_same _ _ _ Hsl Hnx).
  - rewrite Hsl. exact Hs.
  - destruct (next_only_some' _ _ _ _ Hnx Hs') as (s2 & Hs2 & E2). exists s2. split; [exact Hs2|]. congruence.
  - intros q Hq. specialize (Hnx q). rewrite (Hn q Hq) in Hnx. destruct (strings rt2 !! q); [discriminate|reflexivity].
  - intros j q. rewrite Hsl. apply Ho.
Qed.

Section Link.
Context (rt : JSAtoms) (chs : Z -> list Z) (i : Z) (fr : list Z) (C : core rt chs (i :: fr)) (Hok : heap_ok rt).
Context (p : ptr) (s : string_object) (Hs : strings rt !! p = Some s) (Hp : ~ in_table rt p) (Hrc : 1 <= str_rc s).
Context (ty h : Z) (Hty : 1 <= ty <= 3).
Context (Hnew : is_sym ty = false -> h = atom_hash_of (chars (str_of s)) ty /\ forall x s', obj rt x = Some s' -> ~ matches ty (chars (str_of s)) s').

Lemma linked_state f nx t :
  slot rt i = Some (SFree f) ->
  (if is_sym ty then nx = i /\ t = atom_hash rt else look (atom_hash rt) (bucket rt h) = Some nx /\ t = <[Z.to_nat (bucket rt h) := i]> (atom_hash rt)) ->
  linked rt (MkAtoms (<[p := set_atom s h ty nx]> (strings rt)) (atom_hash_size rt) (atom_count rt + 1) (atom_size rt) (atom_count_resize rt) t
          (<[Z.to_nat i := SAtom p]> (atom_array rt)) f) p s i ty h.
Proof.
  intros Hf Ht. pose proof (added_core rt chs i fr C p s Hs Hp ty h Hty Hnew f nx t Hf Ht) as C1. set (rt' := MkAtoms _ _ _ _ _ _ _ _) in *.
  pose proof (look_range _ _ _ Hf) as Hr.
  assert (Hsl : forall j, slot rt' j = if decide (j = i) then Some (SAtom p) else slot rt j) by (intros j; apply look_insert, Hr).
  assert (Hq : forall j q, q <> p -> slot rt' j = Some (SAtom q) <-> slot rt j = Some (SAtom q)).
  { intros j q Hne. rewrite Hsl. case_decide as Hj; [subst j; rewrite Hf; split; congruence|tauto]. }
  assert (Hip : slot rt' i = Some (SAtom p)) by (rewrite Hsl, decide_True by reflexivity; reflexivity).
  split.
  - split; [eauto|]. intros q sq. cbn [strings rt']. destruct (decide (q = p)) as [->|Hne].
    + rewrite lookup_insert_eq. intros [= <-]. left. split; [exact Hrc|]. intros _. exists i. exact Hip.
    + rewrite lookup_insert_ne by congruence. intros Hsq. destruct (Hok q sq Hsq) as [[H1 H2]|(H1 & H2 & H3)]; [left|right].
      * split; [exact H1|]. intros Ht'. destruct (H2 Ht') as [j Hj]. exists j. apply Hq; assumption.
      * split; [exact H1|]. split; [exact H2|]. intros [j Hj]. apply H3. exists j. apply Hq in Hj; assumption.
  - intros q _ Hne. split; [cbn [strings rt']; rewrite lookup_insert_ne by congruence; reflexivity|]. intros j. apply Hq. congruence.
  - exact Hip.
  - exists (set_atom s h ty nx). split; [apply lookup_insert_eq|reflexivity].
  - intros q Hn. cbn [strings rt']. rewrite lookup_insert_ne; [exact Hn|]. intros ->. congruence.
  - intros j q. rewrite Hsl. case_decide; auto.
Qed.

Lemma link_spec (G : Prop) E h1 : (is_sym ty = false -> h1 = bucket rt h) ->
  gspec G (link_atom rt p ty h h1) (fun r => snd r = i /\ i <> 0 /\ linked rt (fst r) p s i ty h) E.
Proof.
  intros Hh1. destruct (free_slot rt chs i fr C) as (f & Hf & H0 & Ei & _ & _). pose proof (look_range _ _ _ Hf) as Hr.
  unfold link_atom. rewrite Ei, (look_get _ _ _ Hf), ret_bind. cbn [atom_get_free]. rewrite ret_bind, set_look, ret_bind by exact Hr.
  rewrite (str_get_some _ _ _ Hs), ret_bind. pose proof (c_count _ _ _ C) as Hcnt. pose proof (c_max _ _ _ C) as Hmax. pose proof (c_size _ _ _ C) as Hsz.
  pose proof (len_nonneg fr). rewrite len_cons in Hcnt. assert (JS_ATOM_MAX = 2 ^ 30 - 1) as Emax by reflexivity.
  assert (- 2 ^ 30 <= atom_count rt).
  { pose proof (nodup_bound (i :: fr) (atom_size rt) (chain_nodup _ _ _ (c_free _ _ _ C))) as Hb. rewrite len_cons in Hb.
    cut (1 + len fr <= Z.max 0 (atom_size rt)); [lia|]. apply Hb. intros x Hx. destruct (chain_elem _ _ _ _ (c_free _ _ _ C) Hx) as [_ [n Hn]].
    unfold free_next in Hn. destruct (slot rt x) as [[|]|] eqn:Es; [|discriminate..]. apply look_range in Es. lia. }
  cbv zeta. rewrite int_of_ok, ret_bind by lia.
  cbn [atom_hash strings atom_hash_size atom_size atom_count_resize atom_array]. change (ty =? JS_ATOM_TYPE_SYMBOL) with (is_sym ty).
  pose proof (linked_state f) as HL. pose proof (added_core rt chs i fr C p s Hs Hp ty h Hty Hnew f) as HC.
  destruct (is_sym ty) eqn:Es; cbn [negb].
  - apply gspec_ret. cbn [fst snd]. split; [reflexivity|]. split; [exact H0|]. apply HL; [exact Hf|auto].
  - rewrite (Hh1 eq_refl). pose proof (core_bucket _ _ _ C h) as Hb. destruct (look_is_Some (atom_hash rt) (bucket rt h)) as [nx Hnx]; [rewrite (c_hlen _ _ _ C); exact Hb|].
    rewrite (look_get _ _ _ Hnx), ret_bind, set_look, ret_bind by exact (look_range _ _ _ Hnx). rewrite insert_insert_eq.
    assert (Hl : linked rt (MkAtoms (<[p := set_atom s h ty nx]> (strings rt)) (atom_hash_size rt) (atom_count rt + 1) (atom_size rt) (atom_count_resize rt)
      (<[Z.to_nat (bucket rt h) := i]> (atom_hash rt)) (<[Z.to_nat i := SAtom p]> (atom_array rt)) f) p s i ty h).
    { apply HL; [exact Hf|auto]. }
    destruct (Z.leb_spec (atom_count_resize rt) (atom_count rt + 1)) as [Hre|Hre].
    2: { apply gspec_ret. auto. }
    rewrite (c_resize _ _ _ C) in Hre. unfold JS_ATOM_COUNT_RESIZE in Hre. pose proof (c_pow _ _ _ C) as (k & Hk & Ek).
    assert (k < 29). { destruct (Z_lt_le_dec k 29); [assumption|]. replace k with 29 in Ek by lia. rewrite Ek in Hre. lia. }
    assert (atom_hash_size rt * 2 = 2 ^ (k + 1)) as E2 by (rewrite Ek, Z.pow_add_r by lia; reflexivity).
    assert (2 ^ (k + 1) <= 2 ^ 29) by (apply Z.pow_le_mono_r; lia). assert (0 < 2 ^ (k + 1)) by lia.
    rewrite E2, int_of_ok, ret_bind by lia.
    pose proof (HC nx _ Hf (conj Hnx eq_refl)) as C1.
    eapply gspec_bind; [apply (resize_hash_spec _ _ _ C1 (k + 1) ltac:(lia) G)|]. intros [rt2 e] ((chs2 & C2) & Hnx2 & _ & (hh & nn & cc & tt & Ert)).
    cbn [fst snd] in *. apply gspec_ret. cbn [fst snd]. split; [reflexivity|]. split; [exact H0|].
    apply (linked_resize _ _ _ _ _ _ _ _ Hl); [eauto|exact Hnx2|]. intros j. rewrite Ert. reflexivity.
Qed.

End Link.
