(* ===== verification/AtomIntern.v ===== *)
(** The balance of references of an operation on atoms, and [__JS_NewAtom] as a
    whole. *)
From Stdlib Require Import ZArith Lia String.
From S2P Require Import Prelude Cutils BigIntString JSString Atoms AtomSpecs AtomRemove AtomOps.
From stdpp Require Import base tactics list gmap numbers strings.

Open Scope Z_scope.

(** The references to the object at [q], 0 when it is not in use. *)
Definition refs (rt : JSAtoms) (q : ptr) : Z := match strings rt !! q with Some s => Z.max 0 (str_rc s) | None => 0 end.

Definition lost (str : option ptr) (q : ptr) : Z := if decide (str = Some q) then 1 else 0.

(** An object with references keeps its text and, when it is an atom, its type and
    its index. *)
Definition keeps (rt rt' : JSAtoms) : Prop :=
  forall q s, strings rt !! q = Some s -> 1 <= refs rt' q ->
    exists s', strings rt' !! q = Some s' /\ str_of s' = str_of s /\
      (atom_type s <> 0 -> atom_type s' = atom_type s /\ forall j, slot rt' j = Some (SAtom q) <-> slot rt j = Some (SAtom q)).

(** The operation takes one reference to [str] and gives [gain]; the only new
    entries are the null atom and the object it gives a reference to. *)
Record settles (rt rt' : JSAtoms) (str : option ptr) (gain : ptr -> Z) : Prop := {
  o_ok : atoms_ok rt';
  o_refs : forall q s, strings rt !! q = Some s -> refs rt' q = refs rt q - lost str q + gain q;
  o_keeps : keeps rt rt';
  o_only : forall j q, slot rt' j = Some (SAtom q) -> slot rt j = Some (SAtom q) \/ j = 0 \/ gain q = 1
}.

Lemma frame_object rt rt' P q s : frame rt rt' P -> strings rt !! q = Some s -> ~ P q ->
  refs rt' q = refs rt q /\ exists s', strings rt' !! q = Some s' /\ str_of s' = str_of s /\ atom_type s' = atom_type s /\
    (forall j, slot rt' j = Some (SAtom q) <-> slot rt j = Some (SAtom q)).
Proof.
  intros F Hs Hn. destruct (frame_some _ _ _ _ _ F Hs Hn) as (s' & Hs' & Es). apply strip_fields in Es as (E1 & E2 & _ & E4). split.
  - unfold refs. rewrite Hs, Hs', E2. reflexivity.
  - exists s'. destruct (F q) as [_ Hj]; [rewrite Hs; eauto|exact Hn|]. auto.
Qed.

Lemma dropped_settles rt rt' p s :
  atoms_ok rt' -> dropped rt rt' p s -> strings rt !! p = Some s -> 1 <= str_rc s -> settles rt rt' (Some p) (fun _ => 0).
Proof.
  intros Hok D Hs Hrc. assert (Hp : refs rt' p = refs rt p - 1).
  { unfold refs. rewrite Hs. destruct (Z_lt_le_dec 1 (str_rc s)) as [H1|H1].
    - destruct (d_more _ _ _ _ D H1) as [-> _]. cbn. lia.
    - destruct (d_last _ _ _ _ D H1) as [_ Hl]. destruct (strings rt' !! p) as [s'|]; [destruct (Hl s' eq_refl)|]; lia. }
  split; [exact Hok| | |].
  - intros q sq Hsq. unfold lost. case_decide as Hq; [injection Hq as <-; lia|].
    destruct (frame_object _ _ _ q sq (d_frame _ _ _ _ D) Hsq) as [-> _]; [congruence|lia].
  - intros q sq Hsq Hr. destruct (decide (q = p)) as [->|Hq].
    + assert (sq = s) as -> by congruence. assert (1 < str_rc s) as H1 by (unfold refs in Hp, Hr; rewrite Hs in Hp; lia).
      destruct (d_more _ _ _ _ D H1) as [Hs' Hj]. exists (set_rc s (str_rc s - 1)). split; [exact Hs'|]. split; [reflexivity|]. intros _. split; [reflexivity|].
      intros j. rewrite Hj. reflexivity.
    + destruct (frame_object _ _ _ q sq (d_frame _ _ _ _ D) Hsq) as (_ & s' & H1 & H2 & H3 & H4); [congruence|]. exists s'. auto.
  - intros j q Hq. left. exact (d_slot _ _ _ _ D j q Hq).
Qed.

(** ** Growth as a step *)

Record grown (rt rt' : JSAtoms) : Prop := {
  g_ok : heap_ok rt';
  g_str : forall q s, strings rt !! q = Some s -> strings rt' !! q = Some s;
  g_slot : forall q s j, strings rt !! q = Some s -> slot rt' j = Some (SAtom q) <-> slot rt j = Some (SAtom q);
  g_obj : forall x s, obj rt' x = Some s -> obj rt x = Some s \/ s = null_object;
  g_new : forall j q, slot rt j = Some (SAtom q) -> slot rt' j = Some (SAtom q);
  g_only : forall j q, slot rt' j = Some (SAtom q) -> slot rt j = Some (SAtom q) \/ j = 0
}.

Lemma grow_step rt rt' : heap_ok rt ->
  (rt' = rt \/ (forall j q, slot rt' j = Some (SAtom q) <-> slot rt j = Some (SAtom q)) /\ strings rt' = strings rt \/
   (forall j, slot rt j = None) /\
   exists p, strings rt !! p = None /\ strings rt' = <[p := null_object]> (strings rt) /\ forall j q, slot rt' j = Some (SAtom q) <-> j = 0 /\ q = p) ->
  grown rt rt'.
Proof.
  intros Hok [->|[[Hsl Hstr]|(Hno & p & Hp & Hstr & Hsl)]].
  - split; auto.
  - assert (Hin : forall q, in_table rt' q <-> in_table rt q) by (intros q; unfold in_table; split; intros [j Hj]; exists j; apply Hsl; exact Hj).
    split.
    + intros q s. rewrite Hstr. intros Hs. destruct (Hok q s Hs) as [[H1 H2]|(H1 & H2 & H3)]; [left|right].
      * split; [exact H1|]. rewrite Hin. exact H2.
      * split; [exact H1|]. split; [exact H2|]. rewrite Hin. exact H3.
    + intros q s Hs. rewrite Hstr. exact Hs.
    + intros q s j _. apply Hsl.
    + intros x s (q & Hq & Hs)%obj_slot. left. apply Hsl in Hq. rewrite (slot_obj _ _ _ Hq), <- Hstr. exact Hs.
    + intros j q. apply Hsl.
    + intros j q Hq. left. apply Hsl. exact Hq.
  - assert (Hnin : forall q, ~ in_table rt q) by (intros q [j Hj]; rewrite Hno in Hj; discriminate). split.
    + intros q s. rewrite Hstr. destruct (decide (q = p)) as [->|Hq].
      * rewrite lookup_insert_eq. intros [= <-]. left. split; [cbn; lia|]. intros _. exists 0. apply Hsl. auto.
      * rewrite lookup_insert_ne by congruence. intros Hs. destruct (Hok q s Hs) as [[H1 H2]|(H1 & H2 & H3)]; [left|right].
        -- split; [exact H1|]. intros Ht. destruct (Hnin q). exact (H2 Ht).
        -- split; [exact H1|]. split; [exact H2|]. intros [j Hj]. apply Hsl in Hj. tauto.
    + intros q s Hs. rewrite Hstr, lookup_insert_ne by congruence. exact Hs.
    + intros q s j Hs. rewrite Hsl, Hno. split; [|discriminate]. intros [_ ->]. congruence.
    + intros x s (q & Hq & Hs)%obj_slot. right. apply Hsl in Hq as [_ ->]. rewrite Hstr, lookup_insert_eq in Hs. congruence.
    + intros j q. rewrite Hno. discriminate.
    + intros j q Hq. right. apply Hsl in Hq. tauto.
Qed.

Lemma settles_grown rt rt1 rt2 str gain : grown rt rt1 -> settles rt1 rt2 str gain -> settles rt rt2 str gain.
Proof.
  intros Gr [H1 H2 H3 H4]. split; [exact H1| | |].
  - intros q s Hs. rewrite (H2 q s (g_str _ _ Gr q s Hs)). unfold refs. rewrite Hs, (g_str _ _ Gr q s Hs). reflexivity.
  - intros q s Hs Hr. destruct (H3 q s (g_str _ _ Gr q s Hs) Hr) as (s' & Hs' & Et & Ha). exists s'. split; [exact Hs'|]. split; [exact Et|].
    intros Hty. destruct (Ha Hty) as [E Hj]. split; [exact E|]. intros j. rewrite Hj. apply (g_slot _ _ Gr q s j Hs).
  - intros j q Hq. destruct (H4 j q Hq) as [Hq1|Hq1]; [|auto]. destruct (g_only _ _ Gr j q Hq1); auto.
Qed.

(** ** A new atom *)

Definition gained (rt' : JSAtoms) (a : Z) (q : ptr) : Z := if decide (a <> 0 /\ slot rt' a = Some (SAtom q)) then 1 else 0.

(** What a fresh atom looks like. *)
Record fresh_atom (rt rt' : JSAtoms) (str : option ptr) (a ty h : Z) (text : JSString) : Prop := {
  f_nz : a <> 0;
  f_obj : exists s', obj rt' a = Some s' /\ str_of s' = text /\ atom_type s' = ty /\ hash s' = h;
  f_index : forall q, slot rt a = Some (SAtom q) -> str = Some q
}.

Lemma obj_linked rt rt' p s i ty h : linked rt rt' p s i ty h ->
  exists s', obj rt' i = Some s' /\ str_of s' = str_of s /\ atom_type s' = ty /\ hash s' = h /\ str_rc s' = str_rc s.
Proof.
  intros L. destruct (l_obj _ _ _ _ _ _ _ L) as (s' & Hs' & Es). apply strip_fields in Es as (E1 & E2 & E3 & E4). exists s'.
  rewrite (slot_obj _ _ _ (l_slot _ _ _ _ _ _ _ L)). auto.
Qed.

Lemma linked_unique rt rt' p s i ty h q : linked rt rt' p s i ty h -> slot rt' i = Some (SAtom q) -> q = p.
Proof. intros L Hq. rewrite (l_slot _ _ _ _ _ _ _ L) in Hq. congruence. Qed.

(** The string itself became the atom. *)
Lemma linked_settles rt rt' p s i ty h : i <> 0 -> strings rt !! p = Some s -> atom_type s = 0 ->
  linked rt rt' p s i ty h -> settles rt rt' (Some p) (gained rt' i).
Proof.
  intros H0 Hs Ht L. pose proof (l_slot _ _ _ _ _ _ _ L) as Hi. destruct (obj_linked _ _ _ _ _ _ _ L) as (s' & Ho & E1 & E2 & E3 & E4).
  rewrite (slot_obj _ _ _ Hi) in Ho. split; [exact (l_ok _ _ _ _ _ _ _ L)| | |].
  - intros q sq Hsq. unfold lost, gained. destruct (decide (q = p)) as [->|Hq].
    + rewrite !decide_True by auto. unfold refs. rewrite Hs, Ho, E4. lia.
    + rewrite decide_False by congruence. rewrite decide_False by (rewrite Hi; intros [_ [=]]; congruence).
      destruct (frame_object _ _ _ q sq (l_frame _ _ _ _ _ _ _ L) Hsq) as [-> _]; [congruence|lia].
  - intros q sq Hsq Hr. destruct (decide (q = p)) as [->|Hq].
    + assert (sq = s) as -> by congruence. exists s'. split; [exact Ho|]. split; [exact E1|]. intros Hne. contradiction.
    + destruct (frame_object _ _ _ q sq (l_frame _ _ _ _ _ _ _ L) Hsq) as (_ & sx & H1 & H2 & H3 & H4); [congruence|]. exists sx. auto.
  - intros j q Hq. destruct (l_only _ _ _ _ _ _ _ L j q Hq) as [->|Hq']; [|auto]. right. right. unfold gained. rewrite decide_True by auto. reflexivity.
Qed.

Lemma settles_link rt rt3 rt4 str p sc i ty h :
  settles rt rt3 str (fun _ => 0) -> strings rt !! p = None -> linked rt3 rt4 p sc i ty h -> settles rt rt4 str (gained rt4 i).
Proof.
  intros [H1 H2 H3 Ho] Hp L. pose proof (l_slot _ _ _ _ _ _ _ L) as Hi. split; [exact (l_ok _ _ _ _ _ _ _ L)| | |].
  - intros q sq Hsq. assert (q <> p) by congruence. unfold gained. rewrite decide_False by (rewrite Hi; intros [_ [=]]; congruence).
    rewrite <- (H2 q sq Hsq). destruct (strings rt3 !! q) as [s3|] eqn:E3.
    + destruct (frame_object _ _ _ q s3 (l_frame _ _ _ _ _ _ _ L) E3) as [-> _]; [congruence|reflexivity].
    + unfold refs. rewrite E3, (l_new _ _ _ _ _ _ _ L q E3). reflexivity.
  - intros q sq Hsq Hr. assert (q <> p) by congruence. destruct (strings rt3 !! q) as [s3|] eqn:E3.
    2: { unfold refs in Hr. rewrite (l_new _ _ _ _ _ _ _ L q E3) in Hr. lia. }
    destruct (frame_object _ _ _ q s3 (l_frame _ _ _ _ _ _ _ L) E3) as (Er & s4 & Hs4 & T4 & A4 & J4); [congruence|]. rewrite Er in Hr.
    destruct (H3 q sq Hsq Hr) as (s3' & Hs3' & T3 & A3). assert (s3' = s3) as -> by congruence. exists s4. split; [exact Hs4|]. split; [congruence|].
    intros Ht. destruct (A3 Ht) as [Et Hj]. split; [congruence|]. intros j. rewrite J4. apply Hj.
  - intros j q Hq. destruct (l_only _ _ _ _ _ _ _ L j q Hq) as [->|Hq']; [|destruct (Ho j q Hq') as [|[|]]; auto; lia].
    destruct (decide (i = 0)) as [->|Hi0]; [auto|]. right. right. unfold gained. rewrite decide_True by auto. reflexivity.
Qed.

Lemma settles_ext rt rt' str g g' : settles rt rt' str g -> (forall q, g q = g' q) -> settles rt rt' str g'.
Proof.
  intros [H1 H2 H3 H4] Hg. split; [exact H1| |exact H3|]; [intros q s Hs; rewrite (H2 q s Hs), Hg; reflexivity|].
  intros j q. rewrite <- Hg. apply H4.
Qed.

Lemma settles_none rt rt' str : settles rt rt' str (fun _ => 0) -> settles rt rt' str (gained rt' 0).
Proof. intros H. apply (settles_ext _ _ _ _ _ H). intros q. unfold gained. rewrite decide_False by tauto. reflexivity. Qed.

(** Allocating a plain string. *)
Lemma alloc_grown rt s : atoms_ok rt -> let rt' := str_set rt (new_ptr rt) (MkStr s 1 0 0 0) in atoms_ok rt' /\ grown rt rt'.
Proof.
  intros [(chs & fr & C) Hok] rt'. pose proof (new_ptr_fresh rt) as Hp. set (p := new_ptr rt) in *.
  assert (Hnt : forall j, slot rt j <> Some (SAtom p)) by (intros j Hj; destruct (c_obj _ _ _ C _ _ Hj) as (s' & Hs' & _); congruence).
  assert (Hh : heap_ok rt') by (apply heap_ok_counts; [exact Hok|]; split; [cbn; lia|]; intros Hx; destruct Hx; reflexivity).
  split.
  - split; [|exact Hh]. exists chs, fr. apply core_other; [exact C|]. intros q [j Hj]. apply lookup_insert_ne. intros <-. exact (Hnt j Hj).
  - split; [exact Hh| |intros q sq j _; reflexivity| |auto|auto].
    + intros q sq Hq. cbn [strings str_set with_strings rt']. rewrite lookup_insert_ne by congruence. exact Hq.
    + intros x sx (q & Hq & Hs)%obj_slot. left. rewrite (slot_obj rt x q Hq). cbn [strings str_set with_strings rt'] in Hs. rewrite lookup_insert_ne in Hs; [exact Hs|].
      intros <-. exact (Hnt x Hq).
Qed.

(** The new string is a plain one that nobody else holds. *)
Lemma alloc_plain rt s : atoms_ok rt -> let p := new_ptr rt in let x := MkStr s 1 0 0 0 in let rt' := str_set rt p x in
  strings rt' !! p = Some x /\ live rt' p x /\ spare rt' p x /\ (forall j, slot rt' j <> Some (SAtom p)) /\
  (forall j sj, obj rt' j = Some sj -> obj rt j = Some sj).
Proof.
  intros Hok p x rt'. assert (Hs : strings rt' !! p = Some x) by apply lookup_insert_eq.
  assert (Hnt : forall j, slot rt' j <> Some (SAtom p)).
  { intros j Hj. destruct (alloc_grown rt s Hok) as [[(chs & fr & C) _] _]. destruct (c_obj _ _ _ C _ _ Hj) as (s' & Hs' & Ht).
    change (strings rt' !! p = Some s') in Hs'. rewrite Hs in Hs'. injection Hs' as <-. cbn in Ht. lia. }
  split; [exact Hs|]. split; [split; [cbn; lia|]; intros []; reflexivity|]. split; [intros i Hi; destruct (Hnt i Hi)|]. split; [exact Hnt|].
  intros j sj (q & Hq & Hsj)%obj_slot. rewrite (slot_obj rt j q Hq). cbn [strings str_set with_strings rt'] in Hsj.
  rewrite lookup_insert_ne in Hsj; [exact Hsj|]. intros <-. exact (Hnt j Hq).
Qed.

Lemma grown_settles rt rt' : atoms_ok rt' -> grown rt rt' -> settles rt rt' None (fun _ => 0).
Proof.
  intros Hok Gr. split; [exact Hok| | |].
  - intros q s Hs. unfold lost, refs. rewrite decide_False by discriminate. rewrite Hs, (g_str _ _ Gr q s Hs). lia.
  - intros q s Hs _. exists s. split; [exact (g_str _ _ Gr q s Hs)|]. split; [reflexivity|]. intros _. split; [reflexivity|]. intros j. exact (g_slot _ _ Gr q s j Hs).
  - intros j q Hq. destruct (g_only _ _ Gr j q Hq); auto.
Qed.

(** The string an operation is given. *)
Definition given (rt : JSAtoms) (str : option ptr) (text : JSString) : Prop :=
  match str with
  | Some sp => exists s, strings rt !! sp = Some s /\ str_of s = text /\ live rt sp s /\ spare rt sp s
  | None => text = MkString true []
  end.

Lemma given_grown rt rt' str text : grown rt rt' -> given rt str text -> given rt' str text.
Proof.
  intros Gr. destruct str as [sp|]; [|auto]. intros (s & Hs & Et & [Hl1 Hl2] & Hsp). exists s. split; [exact (g_str _ _ Gr _ _ Hs)|]. split; [exact Et|]. split.
  - split; [exact Hl1|]. intros Ht. destruct (Hl2 Ht) as [j Hj]. exists j. exact (g_new _ _ Gr _ _ Hj).
  - intros i Hi. apply (Hsp i). apply (g_slot _ _ Gr sp s i Hs). exact Hi.
Qed.

(** No atom of the table has the type [ty] and the units of [text]. *)
Definition no_match (rt : JSAtoms) (ty : Z) (text : JSString) : Prop := forall x s, obj rt x = Some s -> ~ matches ty (chars text) s.

Lemma no_match_grown rt rt' ty text : grown rt rt' -> is_sym ty = false -> no_match rt ty text -> no_match rt' ty text.
Proof.
  intros Gr Hty H x s Hs. destruct (g_obj _ _ Gr x s Hs) as [Ho| ->]; [exact (H x s Ho)|]. intros [E _]. rewrite <- E in Hty. discriminate.
Qed.

Lemma no_match_settles rt rt' str ty text :
  settles rt rt' str (fun _ => 0) -> (forall j q, slot rt' j = Some (SAtom q) -> slot rt j = Some (SAtom q)) -> atoms_ok rt ->
  no_match rt ty text -> no_match rt' ty text.
Proof.
  intros [[(chs' & fr' & C') Hok'] _ Hk _] Hsl [(chs & fr & C) _] H x s' Hs' Hm. destruct (obj_slot _ _ _ Hs') as (q & Hq & Hqs). apply Hsl in Hq as Hq0.
  destruct (c_obj _ _ _ C _ _ Hq0) as (s & Hs & Ht).
  assert (1 <= refs rt' q) as Hr.
  { unfold refs. rewrite Hqs. destruct (Hok' q s' Hqs) as [[Hl _]|(_ & _ & Hn)]; [lia|]. destruct Hn. exists x. exact Hq. }
  destruct (Hk q s Hs Hr) as (s2 & Hs2 & Et & Ha). assert (s2 = s') as -> by congruence. destruct (Ha ltac:(lia)) as [Ety _].
  apply (H x s); [rewrite (slot_obj _ _ _ Hq0); exact Hs|]. destruct Hm as [E1 E2]. split; congruence.
Qed.

(** [link_atom] in a state with a free entry. *)
Lemma link_step (G : Prop) E rt p s ty h h1 :
  atoms_ok rt -> atom_free_index rt <> 0 -> strings rt !! p = Some s -> atom_type s = 0 -> 1 <= ty <= 3 ->
  (is_sym ty = false -> h = atom_hash_of (chars (str_of s)) ty /\ h1 = bucket rt h /\ no_match rt ty (str_of s)) ->
  gspec G (link_atom rt p ty h h1)
    (fun r => snd r <> 0 /\ linked rt (fst r) p s (snd r) ty h /\ forall q, slot rt (snd r) <> Some (SAtom q)) E.
Proof.
  intros [(chs & fr & C) Hok] Hf Hs Ht Hty Hnew. pose proof (c_free _ _ _ C) as Hc. destruct fr as [|i fr]; [contradiction|].
  assert (Hp : ~ in_table rt p) by (intros [j Hj]; destruct (c_obj _ _ _ C _ _ Hj) as (s' & Hs' & Ht'); assert (s' = s) as -> by congruence; lia).
  assert (Hrc : 1 <= str_rc s) by (destruct (Hok p s Hs) as [[H _]|(_ & H & _)]; [exact H|rewrite Ht in H; discriminate]).
  destruct (free_slot rt chs i fr C) as (f & Hfs & _).
  eapply gspec_mono with (E := E); [apply (link_spec rt chs i fr C Hok p s Hs Hp Hrc ty h Hty)| |auto].
  - intros Hsym. destruct (Hnew Hsym) as (H1 & _ & H2). auto.
  - intros Hsym. destruct (Hnew Hsym) as (_ & H1 & _). exact H1.
  - intros [rt' a]. cbn [fst snd]. intros (-> & H0 & L). split; [exact H0|]. split; [exact L|]. intros q Hq. congruence.
Qed.

Lemma alloc_string_spec (G : Prop) E rt s : atoms_ok rt ->
  gspec G (js_alloc_string_rt rt s)
    (fun r => (snd r = None /\ ~ G /\ fst r = rt) \/
              (snd r = Some (new_ptr rt) /\ fst r = str_set rt (new_ptr rt) (MkStr s 1 0 0 0) /\ atoms_ok (fst r) /\ grown rt (fst r))) E.
Proof.
  intros Hok. unfold js_alloc_string_rt. eapply gspec_bind; [apply gspec_try_alloc|]. intros [|] Hal; apply gspec_ret; cbn [fst snd]; [right|left; auto].
  destruct (alloc_grown rt s Hok). auto.
Qed.
