(* ===== verification/AtomAdd.v ===== *)
(** [__JS_NewAtom] with all its paths, and the predefined atoms.

    Symbols, and the table of the predefined atoms ([JS_InitAtoms]). *)
From Stdlib Require Import ZArith Lia String.
From S2P Require Import Prelude Cutils BigIntString JSString Atoms AtomSpecs AtomRemove AtomOps AtomIntern.
From stdpp Require Import base tactics list gmap numbers strings.

Open Scope Z_scope.

Lemma free_given rt sp text : atoms_ok rt -> given rt (Some sp) text ->
  exists rt' s, js_free_string rt sp = mret rt' /\ strings rt !! sp = Some s /\ dropped rt rt' sp s /\ settles rt rt' (Some sp) (fun _ => 0).
Proof.
  intros Hok (s & Hs & _ & Hl & Hsp). destruct (free_string_spec rt sp s Hok Hs Hl Hsp) as (rt' & E & Hok' & D). exists rt', s.
  split; [exact E|]. split; [exact Hs|]. split; [exact D|]. apply (dropped_settles rt rt' sp s Hok' D Hs). apply Hl.
Qed.

Lemma free_opt_spec rt str text : atoms_ok rt -> given rt str text ->
  exists rt', free_opt rt str = mret rt' /\ settles rt rt' str (fun _ => 0).
Proof.
  intros Hok Hg. destruct str as [sp|].
  - destruct (free_given rt sp text Hok Hg) as (rt' & s & E & _ & _ & H). eauto.
  - exists rt. split; [reflexivity|]. apply grown_settles; [exact Hok|]. apply grow_step; [apply Hok|left; reflexivity].
Qed.

(** The result of adding an atom. *)
Definition added (G : Prop) (rt : JSAtoms) (str : option ptr) (ty h : Z) (text : JSString) (r : JSAtoms * Z) : Prop :=
  settles rt (fst r) str (gained (fst r) (snd r)) /\ (snd r = 0 /\ ~ G \/ fresh_atom rt (fst r) str (snd r) ty h text).

Lemma added_grown G rt rt1 str ty h text r : grown rt rt1 -> added G rt1 str ty h text r -> added G rt str ty h text r.
Proof.
  intros Gr [H1 H2]. split; [exact (settles_grown _ _ _ _ _ Gr H1)|]. destruct H2 as [H2|[F1 F2 F3]]; [left; exact H2|right].
  split; [exact F1|exact F2|]. intros q Hq. apply F3, (g_new _ _ Gr), Hq.
Qed.

Lemma linked_fresh rt rt' p s a ty h str :
  a <> 0 -> linked rt rt' p s a ty h -> (forall q, slot rt a <> Some (SAtom q)) -> fresh_atom rt rt' str a ty h (str_of s).
Proof.
  intros H0 L Hf. destruct (obj_linked _ _ _ _ _ _ _ L) as (s' & Ho & E1 & E2 & E3 & _). split; [exact H0|eauto|]. intros q Hq. destruct (Hf q Hq).
Qed.

Section Add.
Context (G : Prop) (E : exn -> Prop) (rt : JSAtoms) (str : option ptr) (text : JSString) (ty h h1 : Z).
Context (Hok : atoms_ok rt) (Hgiven : given rt str text) (Hty : 1 <= ty <= 3).
Context (Hnew : is_sym ty = false -> h = atom_hash_of (chars text) ty /\ h1 = bucket rt h /\ no_match rt ty text).

(** The string becomes the atom. *)
Lemma add_plain sp s : atom_free_index rt <> 0 -> str = Some sp -> strings rt !! sp = Some s -> str_of s = text -> atom_type s = 0 ->
  gspec G (link_atom rt sp ty h h1) (added G rt str ty h text) E.
Proof.
  intros Hf Hstr Hs Et Ht. rewrite <- Et in Hnew. eapply gspec_mono with (E := E); [exact (link_step G E rt sp s ty h h1 Hok Hf Hs Ht Hty Hnew)| |auto].
  intros [rt' a]. cbn [fst snd]. intros (H0 & L & Hfr). rewrite Hstr. split; cbn [fst snd].
  - exact (linked_settles _ _ _ _ _ _ _ H0 Hs Ht L).
  - right. rewrite <- Et. exact (linked_fresh _ _ _ _ _ _ _ _ H0 L Hfr).
Qed.

(** A new object [p] is ready to become the atom, and the references have been
    settled. *)
Record readied (rt3 : JSAtoms) (p : ptr) : Prop := {
  y_settles : settles rt rt3 str (fun _ => 0);
  y_fresh : strings rt !! p = None;
  y_obj : exists sc, strings rt3 !! p = Some sc /\ str_of sc = text /\ atom_type sc = 0;
  y_free : atom_free_index rt3 <> 0;
  y_hash : atom_hash_size rt3 = atom_hash_size rt;
  y_match : is_sym ty = false -> no_match rt ty text -> no_match rt3 ty text;
  y_slot : forall j q, slot rt j = Some (SAtom q) -> slot rt3 j = Some (SAtom q) \/ str = Some q
}.

Lemma add_object rt3 p : readied rt3 p -> gspec G (link_atom rt3 p ty h h1) (added G rt str ty h text) E.
Proof.
  intros [Hset Hp (sc & Hsc & Et & Ht) Hf Hhs Hnm Hsl].
  eapply gspec_mono with (E := E); [apply (link_step G E rt3 p sc ty h h1 (o_ok _ _ _ _ Hset) Hf Hsc Ht Hty)| |auto].
  - intros Hsym. destruct (Hnew Hsym) as (H1 & H2 & H3). rewrite Et. split; [exact H1|]. split; [unfold bucket in *; rewrite Hhs; exact H2|]. exact (Hnm Hsym H3).
  - intros [rt' a]. cbn [fst snd]. intros (H0 & L & Hfr). split; cbn [fst snd].
    + exact (settles_link _ _ _ _ _ _ _ _ _ Hset Hp L).
    + right. destruct (linked_fresh _ _ _ _ _ _ _ str H0 L Hfr) as [F1 F2 _]. rewrite Et in F2. split; [exact F1|exact F2|]. intros q Hq.
      destruct (Hsl a q Hq) as [Hq3|]; [|assumption]. destruct (Hfr q Hq3).
Qed.

(** The copy of a string that is an atom of another type already. *)
Lemma ready_copy sp s rt2 : str = Some sp -> strings rt !! sp = Some s -> atom_free_index rt <> 0 ->
  rt2 = str_set rt (new_ptr rt) (MkStr text 1 0 0 0) -> atoms_ok rt2 -> grown rt rt2 ->
  exists rt3, js_free_string rt2 sp = mret rt3 /\ readied rt3 (new_ptr rt).
Proof.
  intros Hstr Hs Hf E2 Hok2 Gr. pose proof (given_grown _ _ str text Gr Hgiven) as Hg2. rewrite Hstr in Hg2.
  destruct (free_given rt2 sp text Hok2 Hg2) as (rt3 & s2 & E3 & Hs2 & D & Hset). exists rt3. split; [exact E3|].
  assert (new_ptr rt <> sp) as Hne by (intros E'; pose proof (new_ptr_fresh rt); congruence).
  assert (strings rt2 !! new_ptr rt = Some (MkStr text 1 0 0 0)) as Hp2 by (rewrite E2; apply lookup_insert_eq).
  pose proof Hok2 as [(chs2 & fr2 & C2) _]. split.
  - rewrite Hstr. exact (settles_grown _ _ _ _ _ Gr Hset).
  - apply new_ptr_fresh.
  - destruct (frame_object _ _ _ _ _ (d_frame _ _ _ _ D) Hp2) as (_ & sc & H1 & H2 & H3 & _); [congruence|]. exists sc. auto.
  - apply (d_free _ _ _ _ D). rewrite E2. exact Hf.
  - rewrite (d_hash _ _ _ _ D), E2. reflexivity.
  - intros Hsym Hn. exact (no_match_settles rt2 rt3 (Some sp) ty text Hset (d_slot _ _ _ _ D) Hok2 (no_match_grown _ _ _ _ Gr Hsym Hn)).
  - intros j q Hq. destruct (decide (q = sp)) as [->|Hq']; [right; exact Hstr|left]. apply (g_new _ _ Gr) in Hq.
    destruct (c_obj _ _ _ C2 _ _ Hq) as (sq & Hsq & _). destruct (d_frame _ _ _ _ D q) as [_ Hj]; [rewrite Hsq; eauto|congruence|]. apply Hj. exact Hq.
Qed.

(** The object of a symbol without description. *)
Lemma ready_none rt2 : str = None -> atom_free_index rt <> 0 ->
  rt2 = str_set rt (new_ptr rt) (MkStr text 1 0 0 0) -> atoms_ok rt2 -> grown rt rt2 -> readied rt2 (new_ptr rt).
Proof.
  intros Hstr Hf E2 Hok2 Gr. split.
  - rewrite Hstr. exact (grown_settles _ _ Hok2 Gr).
  - apply new_ptr_fresh.
  - exists (MkStr text 1 0 0 0). rewrite E2. split; [apply lookup_insert_eq|auto].
  - rewrite E2. exact Hf.
  - rewrite E2. reflexivity.
  - intros Hsym Hn. exact (no_match_grown _ _ _ _ Gr Hsym Hn).
  - intros j q Hq. left. exact (g_new _ _ Gr _ _ Hq).
Qed.

Lemma add_failed rt' : settles rt rt' str (fun _ => 0) -> ~ G -> added G rt str ty h text (rt', JS_ATOM_NULL).
Proof. intros H HG. split; [exact (settles_none _ _ _ H)|left; auto]. Qed.

Lemma fail_spec : ~ G -> gspec G (rt' ← free_opt rt str; mret (rt', JS_ATOM_NULL)) (added G rt str ty h text) E.
Proof.
  intros HG. destruct (free_opt_spec rt str text Hok Hgiven) as (rt' & -> & H). rewrite ret_bind. apply gspec_ret. exact (add_failed rt' H HG).
Qed.

(** [add_atom] when the table has a free entry. *)
Lemma add_free : atom_free_index rt <> 0 ->
  gspec G ('(rt, p) ← atom_object rt str;
           match p with
           | None => rt ← free_opt rt str; mret (rt, JS_ATOM_NULL)
           | Some p => link_atom rt p ty h h1
           end) (added G rt str ty h text) E.
Proof.
  intros Hf. assert (Hobj : forall sp s, str = Some sp -> strings rt !! sp = Some s -> str_of s = text ->
    gspec G (atom_object rt str) (fun r => (snd r = None /\ ~ G /\ fst r = rt) \/ (snd r = Some sp /\ fst r = rt /\ atom_type s = 0) \/
      exists p, snd r = Some p /\ readied (fst r) p) E).
  { intros sp s Hstr Hs Et. rewrite Hstr. cbn [atom_object]. rewrite (str_get_some _ _ _ Hs), ret_bind.
    destruct (Z.eqb_spec (atom_type s) 0) as [Ht|Ht]; [apply gspec_ret; right; left; auto|].
    eapply gspec_bind; [apply (alloc_string_spec G E rt (str_of s) Hok)|]. intros [rt2 p]. cbn [fst snd].
    intros [(-> & HG & ->)|(-> & E2 & Hok2 & Gr)]; [apply gspec_ret; left; auto|]. rewrite Et in E2.
    destruct (ready_copy sp s rt2 Hstr Hs Hf E2 Hok2 Gr) as (rt3 & -> & HR). rewrite ret_bind. apply gspec_ret. right. right. eauto. }
  assert ((exists sp, str = Some sp) \/ str = None) as [[sp Estr]|Estr] by (case str; eauto).
  - pose proof Hgiven as Hg. rewrite Estr in Hg. destruct Hg as (s & Hs & Et & _ & _).
    eapply gspec_bind; [exact (Hobj sp s Estr Hs Et)|]. intros [rt2 p]. cbn [fst snd]. intros [(-> & HG & ->)|[(-> & -> & Ht)|(p' & -> & HR)]].
    + exact (fail_spec HG).
    + exact (add_plain sp s Hf Estr Hs Et Ht).
    + exact (add_object rt2 p' HR).
  - pose proof Hgiven as Hg. rewrite Estr in Hg. cbn [given] in Hg.
    assert (atom_object rt str = js_alloc_string_rt rt text) as -> by (rewrite Estr, Hg; reflexivity).
    eapply gspec_bind; [apply (alloc_string_spec G E rt text Hok)|]. intros [rt2 p]. cbn [fst snd].
    intros [(-> & HG & ->)|(-> & E2 & Hok2 & Gr)].
    + exact (fail_spec HG).
    + exact (add_object rt2 (new_ptr rt) (ready_none rt2 Estr Hf E2 Hok2 Gr)).
Qed.

End Add.

Lemma add_spec (G : Prop) E rt str text ty h h1 :
  atoms_ok rt -> atom_size rt <= MAX_GROW -> given rt str text -> 1 <= ty <= 3 ->
  (is_sym ty = false -> h = atom_hash_of (chars text) ty /\ h1 = bucket rt h /\ no_match rt ty text) ->
  gspec G (add_atom rt str ty h h1) (added G rt str ty h text) E.
Proof.
  intros Hok Hsz Hg Hty Hnew. unfold add_atom. pose proof Hok as [(chs & fr & C) Hh].
  eapply gspec_bind; [exact (grow_spec G E rt chs fr C Hsz)|]. intros [rt1 ok]. cbn [fst snd]. intros [Hno Hyes]. destruct ok; cbn [negb].
  2: { destruct (Hno eq_refl) as [HG ->]. exact (fail_spec G E rt str text ty h Hok Hg HG). }
  destruct (Hyes eq_refl) as ((i & fr' & C1) & Ehs & Hstep). apply (grow_step rt rt1 Hh) in Hstep as Gr.
  eapply gspec_mono with (E := E); [|intros r; apply (added_grown G rt rt1); exact Gr|auto].
  apply add_free; [split; [eauto|exact (g_ok _ _ Gr)]|exact (given_grown _ _ _ _ Gr Hg)|exact Hty| |].
  - intros Hsym. destruct (Hnew Hsym) as (H1 & H2 & H3). split; [exact H1|]. split; [unfold bucket in *; rewrite Ehs; exact H2|].
    exact (no_match_grown _ _ _ _ Gr Hsym H3).
  - pose proof (c_free _ _ _ C1) as (<- & Hx & _). exact Hx.
Qed.

(** ** An atom for a string *)

(** The three outcomes: the atom that exists, a new atom, or a refused allocation. *)
Definition interns (G : Prop) (rt : JSAtoms) (sp : ptr) (ty : Z) (text : JSString) (r : JSAtoms * Z) : Prop :=
  (exists s0, obj rt (snd r) = Some s0 /\ matches ty (chars text) s0 /\ snd r <> 0 /\
     settles rt (fst r) (Some sp) (fun q => if __JS_AtomIsConst (snd r) then 0 else gained (fst r) (snd r) q) /\
     exists s', obj (fst r) (snd r) = Some s' /\ str_of s' = str_of s0 /\ atom_type s' = atom_type s0) \/
  (no_match rt ty text /\ fresh_atom rt (fst r) (Some sp) (snd r) ty (atom_hash_of (chars text) ty) text /\
     settles rt (fst r) (Some sp) (gained (fst r) (snd r))) \/
  (snd r = 0 /\ ~ G /\ settles rt (fst r) (Some sp) (fun _ => 0)).

Lemma dup_ok rt q s n : atoms_ok rt -> strings rt !! q = Some s -> 1 <= str_rc s -> 1 <= n -> atoms_ok (str_set rt q (set_rc s n)).
Proof.
  intros [(chs & fr & C) Hok] Hs Hrc Hn. split; [exists chs, fr; exact (core_set_rc _ _ _ q s _ C Hs)|]. apply heap_ok_counts; [exact Hok|].
  destruct (Hok q s Hs) as [[_ Hl]|[Hw _]]; [|lia]. split; [cbn; lia|exact Hl].
Qed.

Lemma settles_dup rt rt2 q0 s0 str : strings rt !! q0 = Some s0 -> 1 <= str_rc s0 ->
  settles (str_set rt q0 (set_rc s0 (str_rc s0 + 1))) rt2 str (fun _ => 0) ->
  settles rt rt2 str (fun q => if decide (q = q0) then 1 else 0).
Proof.
  intros Hs0 Hrc [H1 H2 H3 H4]. set (rt1 := str_set rt q0 _) in *.
  assert (Hstr : forall q s, strings rt !! q = Some s -> exists s1, strings rt1 !! q = Some s1 /\ str_of s1 = str_of s /\ atom_type s1 = atom_type s /\
    refs rt1 q = refs rt q + if decide (q = q0) then 1 else 0).
  { intros q s Hs. unfold refs. cbn [strings rt1 str_set with_strings]. case_decide as Hq; [subst q|].
    - assert (s = s0) as -> by congruence. exists (set_rc s0 (str_rc s0 + 1)). rewrite lookup_insert_eq, Hs0. cbn. repeat split; lia.
    - rewrite lookup_insert_ne by congruence. exists s. rewrite Hs. repeat split; lia. }
  split; [exact H1| | |].
  - intros q s Hs. destruct (Hstr q s Hs) as (s1 & Hs1 & _ & _ & Er). rewrite (H2 q s1 Hs1), Er. lia.
  - intros q s Hs Hr. destruct (Hstr q s Hs) as (s1 & Hs1 & Et & Ea & _). destruct (H3 q s1 Hs1 Hr) as (s2 & Hs2 & E2 & A2).
    exists s2. split; [exact Hs2|]. split; [congruence|]. intros Hne. destruct (A2 ltac:(congruence)) as [E3 Hj]. split; [congruence|]. exact Hj.
  - intros j q Hq. destruct (H4 j q Hq) as [|[|]]; auto; lia.
Qed.

Lemma settles_self rt p i : atoms_ok rt -> slot rt i = Some (SAtom p) -> i <> 0 -> settles rt rt (Some p) (gained rt i).
Proof.
  intros Hok Hi H0. split; [exact Hok| | |auto].
  - intros q s Hs. unfold lost, gained. rewrite Hi. destruct (decide (q = p)) as [->|Hq]; [rewrite !decide_True by auto; lia|].
    rewrite !decide_False; [lia|intros [_ [=]]; congruence|congruence].
  - intros q s Hs _. exists s. split; [exact Hs|]. split; [reflexivity|]. intros _. split; [reflexivity|]. tauto.
Qed.

Section New.
Context (G : Prop) (E : exn -> Prop) (rt : JSAtoms) (sp : ptr) (s : string_object) (ty : Z).
Context (Hok : atoms_ok rt) (Hs : strings rt !! sp = Some s) (Hl : live rt sp s) (Hsp : spare rt sp s).
Context (Hty : ty = JS_ATOM_TYPE_STRING \/ ty = JS_ATOM_TYPE_GLOBAL_SYMBOL).

Lemma not_sym : is_sym ty = false.
Proof. destruct Hty as [-> | ->]; reflexivity. Qed.

Lemma ty_range : 1 <= ty <= 3.
Proof. destruct Hty as [-> | ->]; unfold JS_ATOM_TYPE_STRING, JS_ATOM_TYPE_GLOBAL_SYMBOL; lia. Qed.

Lemma given_string : given rt (Some sp) (str_of s).
Proof. exists s. auto. Qed.

(** An atom that is found is not the null atom. *)
Lemma match_nonzero x s0 : obj rt x = Some s0 -> atom_type s0 = ty -> x <> 0.
Proof.
  intros Hx Ht ->. destruct Hok as [(chs & fr & C) _]. destruct (c_null _ _ _ C) as [E0|(s1 & Hs1 & Et)].
  - destruct (obj_slot _ _ _ Hx) as (q & Hq & _). apply look_range in Hq. pose proof (c_size _ _ _ C). lia.
  - assert (s1 = s0) as -> by congruence. pose proof not_sym as Hn. unfold is_sym in Hn. rewrite <- Ht, Et in Hn. discriminate.
Qed.

(** The string is the atom. *)
Lemma new_self : atom_type s = ty ->
  gspec G (i ← js_get_atom_index rt sp; if __JS_AtomIsConst i then mret (str_set rt sp (set_rc s (str_rc s - 1)), i) else mret (rt, i))
    (interns G rt sp ty (str_of s)) E.
Proof.
  intros Ht. pose proof ty_range as Hr. destruct Hl as [Hl1 Hl2]. destruct (Hl2 ltac:(lia)) as [i Hi]. pose proof Hok as [(chs & fr & C) _].
  rewrite (get_atom_index_spec _ _ _ C sp i Hi), ret_bind. assert (Ho : obj rt i = Some s) by (rewrite (slot_obj _ _ _ Hi); exact Hs).
  pose proof (match_nonzero i s Ho Ht) as H0.
  destruct (__JS_AtomIsConst i) eqn:Ec; apply gspec_ret; left; exists s; cbn [fst snd]; rewrite Ec; (split; [exact Ho|]; split; [split; [exact Ht|reflexivity]|]; split; [exact H0|]).
  - pose proof (Hsp i Hi Ec) as H2. destruct (drop_one rt sp s Hok Hs ltac:(lia)) as [Hok' D]. split; [exact (dropped_settles _ _ _ _ Hok' D Hs Hl1)|].
    exists (set_rc s (str_rc s - 1)). split; [|auto]. rewrite (slot_obj (str_set rt sp _) i sp Hi). apply lookup_insert_eq.
  - split; [exact (settles_self rt sp i Hok Hi H0)|]. exists s. auto.
Qed.

(** Another object is the atom. *)
Lemma new_found x s0 : obj rt x = Some s0 -> matches ty (chars (str_of s)) s0 -> atom_type s <> ty -> str_rc s0 < 2 ^ 31 - 1 ->
  gspec G ('(rt, _) ← JS_DupAtom rt x; rt ← js_free_string rt sp; mret (rt, x)) (interns G rt sp ty (str_of s)) E.
Proof.
  intros Hx Hm Hne Hroom. pose proof (match_nonzero x s0 Hx (proj1 Hm)) as H0. destruct (obj_slot _ _ _ Hx) as (q0 & Hq0 & Hs0).
  assert (Hqs : q0 <> sp) by (intros ->; assert (s0 = s) as -> by congruence; destruct Hm; contradiction).
  pose proof Hok as [_ Hheap]. assert (Hrc : 1 <= str_rc s0) by (destruct (Hheap q0 s0 Hs0) as [[H _]|(_ & _ & H)]; [exact H|destruct H; exists x; exact Hq0]).
  unfold JS_DupAtom. destruct (__JS_AtomIsConst x) eqn:Ec.
  - rewrite ret_bind. destruct (free_given rt sp _ Hok given_string) as (rt2 & s2 & -> & _ & D & Hset). rewrite ret_bind. apply gspec_ret.
    left. exists s0. cbn [fst snd]. rewrite Ec. split; [exact Hx|]. split; [exact Hm|]. split; [exact H0|]. split; [exact Hset|].
    destruct (frame_object _ _ _ _ _ (d_frame _ _ _ _ D) Hs0) as (_ & s' & H1 & H2 & H3 & H4); [congruence|]. exists s'.
    rewrite (slot_obj rt2 x q0) by (apply H4; exact Hq0). auto.
  - rewrite (atom_ptr_slot _ _ _ Hq0), ret_bind, (str_get_some _ _ _ Hs0), ret_bind, int_of_ok, !ret_bind by lia.
    set (rt1 := str_set rt q0 _). assert (Hok1 : atoms_ok rt1) by (apply dup_ok; [exact Hok|exact Hs0|lia|lia]).
    assert (Hg1 : given rt1 (Some sp) (str_of s)).
    { exists s. cbn [strings rt1 str_set with_strings]. rewrite lookup_insert_ne by congruence. auto. }
    destruct (free_given rt1 sp _ Hok1 Hg1) as (rt2 & s2 & -> & _ & D & Hset). rewrite ret_bind. apply gspec_ret.
    assert (Hs1 : strings rt1 !! q0 = Some (set_rc s0 (str_rc s0 + 1))) by apply lookup_insert_eq.
    destruct (frame_object _ _ _ _ _ (d_frame _ _ _ _ D) Hs1) as (_ & s' & H1 & H2 & H3 & H4); [congruence|].
    assert (Hx2 : slot rt2 x = Some (SAtom q0)) by (apply H4; exact Hq0).
    left. exists s0. cbn [fst snd]. rewrite Ec. split; [exact Hx|]. split; [exact Hm|]. split; [exact H0|]. split.
    + apply (settles_ext _ _ _ _ _ (settles_dup rt rt2 q0 s0 (Some sp) Hs0 Hrc Hset)). intros q. unfold gained. rewrite Hx2.
      destruct (decide (q = q0)) as [->|Hq]; [rewrite decide_True by auto; reflexivity|]. rewrite decide_False by (intros [_ [=]]; congruence). reflexivity.
    + exists s'. rewrite (slot_obj rt2 x q0 Hx2). auto.
Qed.

Lemma new_atom_spec : atom_size rt <= MAX_GROW -> (forall x s0, obj rt x = Some s0 -> str_rc s0 < 2 ^ 31 - 1) ->
  gspec G (__JS_NewAtom rt (Some sp) ty) (interns G rt sp ty (str_of s)) E.
Proof.
  intros Hsz Hroom. pose proof ty_range as Hr. pose proof not_sym as Hns. unfold __JS_NewAtom.
  assert (ty <? JS_ATOM_TYPE_SYMBOL = true) as -> by (destruct Hty as [-> | ->]; reflexivity).
  rewrite (str_get_some _ _ _ Hs), ret_bind. destruct (Z.eqb_spec (atom_type s) ty) as [Ht|Ht]; [exact (new_self Ht)|]. cbv zeta.
  change (Z.land (hash_string (str_of s) ty) JS_ATOM_HASH_MASK) with (atom_hash_of (chars (str_of s)) ty). set (h := atom_hash_of (chars (str_of s)) ty).
  pose proof Hok as [(chs & fr & C) _]. destruct (find_spec rt chs fr C ty (str_of s) Hty) as (x & Ex & Hx). fold h in Ex.
  pose proof (core_bucket _ _ _ C h) as Hb. destruct (c_table _ _ _ C _ Hb) as (a & Ha & _). rewrite (look_get _ _ _ Ha) in Ex |- *. rewrite ret_bind.
  assert (find_loop (length (atom_array rt)) rt h ty (str_of s) a = mret x) as -> by exact Ex. rewrite ret_bind. destruct Hx as [[-> Hno]|[H0 (s0 & Hs0 & Hm)]].
  - cbn [Z.eqb]. eapply gspec_mono with (E := E); [apply (add_spec G E rt (Some sp) (str_of s) ty h (bucket rt h) Hok Hsz given_string Hr)| |auto].
    + intros _. auto.
    + intros [rt' i] [Hset [[Hz HG]|Hf]]; cbn [fst snd] in *; right; [right|left; auto]. split; [exact Hz|]. split; [exact HG|].
      subst i. apply (settles_ext _ _ _ _ _ Hset). intros q. unfold gained. rewrite decide_False by tauto. reflexivity.
  - rewrite (proj2 (Z.eqb_neq _ _) H0). exact (new_found x s0 Hs0 Hm Ht (Hroom x s0 Hs0)).
Qed.

End New.

(** ** Symbols *)

Definition symbol_hash (ty : Z) : Z := if ty =? JS_ATOM_TYPE_SYMBOL then 0 else JS_ATOM_HASH_PRIVATE.

Lemma new_symbol_spec (G : Prop) E rt str text ty :
  atoms_ok rt -> atom_size rt <= MAX_GROW -> given rt str text -> ty = JS_ATOM_TYPE_SYMBOL \/ ty = JS_ATOM_TYPE_PRIVATE ->
  gspec G (__JS_NewAtom rt str ty) (added G rt str JS_ATOM_TYPE_SYMBOL (symbol_hash ty) text) E.
Proof.
  intros Hok Hsz Hg Hty. unfold __JS_NewAtom. assert (ty <? JS_ATOM_TYPE_SYMBOL = false) as -> by (destruct Hty as [-> | ->]; reflexivity).
  apply (add_spec G E rt str text JS_ATOM_TYPE_SYMBOL _ 0 Hok Hsz Hg); [unfold JS_ATOM_TYPE_SYMBOL; lia|discriminate].
Qed.

(** ** The predefined atoms *)

(** No count and no size is near its limit. *)
Definition room (rt : JSAtoms) : bool :=
  (atom_size rt <=? MAX_GROW) && bool_decide (map_Forall (fun _ s => str_rc s < 2 ^ 31 - 1) (strings rt)).

Lemma room_spec rt : room rt = true -> atom_size rt <= MAX_GROW /\ forall p s, strings rt !! p = Some s -> str_rc s < 2 ^ 31 - 1.
Proof.
  unfold room. intros [H1 H2]%andb_true_iff. apply bool_decide_eq_true in H2. split; [apply Z.leb_le; exact H1|]. intros p s Hs. exact (H2 p s Hs).
Qed.

Lemma new_atom_init_ok (G : Prop) E rt str ty :
  atoms_ok rt -> room rt = true -> 1 <= ty <= 4 -> gspec G (__JS_NewAtomInit rt str ty) (fun r => atoms_ok (fst r)) E.
Proof.
  intros Hok Hroom Hty. apply room_spec in Hroom as [Hsz Hrc]. unfold __JS_NewAtomInit.
  eapply gspec_bind; [apply (alloc_string_spec G E rt _ Hok)|]. intros [rt1 p]. cbn [fst snd].
  intros [(-> & _ & ->)|(-> & E1 & Hok1 & Gr)]; [apply gspec_ret; exact Hok|].
  destruct (alloc_plain rt (MkString false str) Hok) as (Hs & Hl & Hsp & _ & Hob). rewrite <- E1 in Hs, Hl, Hsp, Hob.
  assert (Hsz1 : atom_size rt1 <= MAX_GROW) by (rewrite E1; exact Hsz).
  assert (ty = JS_ATOM_TYPE_STRING \/ ty = JS_ATOM_TYPE_GLOBAL_SYMBOL \/ ty = JS_ATOM_TYPE_SYMBOL \/ ty = JS_ATOM_TYPE_PRIVATE) as Hcase
    by (unfold JS_ATOM_TYPE_STRING, JS_ATOM_TYPE_GLOBAL_SYMBOL, JS_ATOM_TYPE_SYMBOL, JS_ATOM_TYPE_PRIVATE; lia).
  assert ((ty = JS_ATOM_TYPE_STRING \/ ty = JS_ATOM_TYPE_GLOBAL_SYMBOL) \/ (ty = JS_ATOM_TYPE_SYMBOL \/ ty = JS_ATOM_TYPE_PRIVATE)) as [Ht|Ht] by tauto.
  - eapply gspec_mono with (E := E); [apply (new_atom_spec G E rt1 _ _ ty Hok1 Hs Hl Hsp Ht Hsz1)| |auto].
    + intros x s0 (q & _ & Hq)%Hob%obj_slot. exact (Hrc q s0 Hq).
    + intros r [(s0 & _ & _ & _ & [H _ _ _] & _)|[(_ & _ & [H _ _ _])|(_ & _ & [H _ _ _])]]; exact H.
  - eapply gspec_mono with (E := E); [apply (new_symbol_spec G E rt1 (Some (new_ptr rt)) (MkString false str) ty Hok1 Hsz1); [eexists; eauto|exact Ht]| |auto].
    intros r [[H _ _ _] _]. exact H.
Qed.

(** The type [JS_InitAtoms] gives to the atom [i]. *)
Definition init_type (i : Z) : Z :=
  if i =? JS_ATOM_Private_brand then JS_ATOM_TYPE_PRIVATE else if JS_ATOM_Symbol_toPrimitive <=? i then JS_ATOM_TYPE_SYMBOL else JS_ATOM_TYPE_STRING.

(** [room] holds in every state of the loop. *)
Fixpoint run_room (l : list string) (i : Z) (rt : JSAtoms) (o : allocator) : bool :=
  match l with
  | [] => true
  | s :: l => room rt && match __JS_NewAtomInit rt (bytes_of s) (init_type i) o with (Ok (rt', _), o') => run_room l (i + 1) rt' o' | _ => true end
  end.

Lemma init_loop_ok l : forall i rt o, atoms_ok rt -> run_room l i rt o = true ->
  match fst (init_loop l i rt o) with Ok r => atoms_ok (fst r) | _ => False end.
Proof.
  induction l as [|s l IH]; intros i rt o Hok Hrun; [exact Hok|]. cbn [run_room] in Hrun. apply andb_true_iff in Hrun as [Hroom Hrun].
  assert (1 <= init_type i <= 4) as Hty.
  { unfold init_type, JS_ATOM_TYPE_PRIVATE, JS_ATOM_TYPE_SYMBOL, JS_ATOM_TYPE_STRING. destruct (i =? _); [lia|]. destruct (_ <=? i); lia. }
  cbn [init_loop]. fold (init_type i). unfold mbind, M_bind at 1.
  pose proof (new_atom_init_ok False no_exn rt (bytes_of s) (init_type i) Hok Hroom Hty o ltac:(tauto)) as H.
  destruct (__JS_NewAtomInit rt (bytes_of s) (init_type i) o) as [[[rt' a]|e|] o']; [|contradiction..].
  destruct H as [Hok' _]. cbn [fst] in Hok'. destruct (a =? JS_ATOM_NULL); [exact Hok'|]. exact (IH (i + 1) rt' o' Hok' Hrun).
Qed.

(** The table before the first atom. *)
Definition empty_table : JSAtoms := MkAtoms ∅ 512 0 0 1024 (replicate 512 0) [] 0.

Lemma empty_table_ok : atoms_ok empty_table.
Proof.
  assert (Hsl : forall j, slot empty_table j = None) by (intros j; unfold slot, look; cbn; destruct (0 <=? j); reflexivity).
  assert (Hob : forall j, obj empty_table j = None) by (intros j; unfold obj; rewrite Hsl; reflexivity).
  split; [|intros p s; cbn; rewrite lookup_empty; discriminate]. exists (fun _ => []), []. split; try reflexivity.
  - cbn. unfold JS_ATOM_MAX. rewrite Z.shiftl_mul_pow2 by lia. lia.
  - intros i p. rewrite Hsl. discriminate.
  - intros i j p. rewrite Hsl. discriminate.
  - left. reflexivity.
  - intros i s. rewrite Hob. discriminate.
  - intros i s. rewrite Hob. discriminate.
  - intros i j s s'. rewrite Hob. discriminate.
  - intros i n. rewrite Hsl. discriminate.
  - exists 9. split; [lia|reflexivity].
  - intros j Hj. exists 0. split; [|reflexivity]. apply (look_replicate 512). cbn in Hj. lia.
  - intros j x _ Hx. inversion Hx.
  - intros x s. rewrite Hob. discriminate.
Qed.

(** ** The run of [JS_InitAtoms] when every allocation is granted *)

Lemma first_resize : JS_ResizeAtomHash (no_atoms ∅) 512 alloc_all = (Ok (empty_table, 0), alloc_all).
Proof. vm_compute. reflexivity. Qed.

Lemma init_run : JS_InitAtoms ∅ alloc_all = init_loop js_atom_init 1 empty_table alloc_all.
Proof. unfold JS_InitAtoms, mbind, M_bind at 1. rewrite first_resize. reflexivity. Qed.

(** The atom [i] of the result is the one of quickjs-atom.h. *)
Definition predefined (rt : JSAtoms) (i : nat) (name : string) : Prop :=
  exists s, obj rt (Z.of_nat i) = Some s /\ str_of s = MkString false (bytes_of name) /\
    atom_type s = Z.min JS_ATOM_TYPE_SYMBOL (init_type (Z.of_nat i)) /\ (init_type (Z.of_nat i) = JS_ATOM_TYPE_PRIVATE <-> hash s = JS_ATOM_HASH_PRIVATE /\ atom_type s = JS_ATOM_TYPE_SYMBOL).

Definition check_predefined (rt : JSAtoms) (i : nat) (name : string) : bool :=
  match obj rt (Z.of_nat i) with
  | Some s => negb (is_wide_char (str_of s)) && bool_decide (chars (str_of s) = bytes_of name) &&
      (atom_type s =? Z.min JS_ATOM_TYPE_SYMBOL (init_type (Z.of_nat i))) &&
      Bool.eqb (init_type (Z.of_nat i) =? JS_ATOM_TYPE_PRIVATE) ((hash s =? JS_ATOM_HASH_PRIVATE) && (atom_type s =? JS_ATOM_TYPE_SYMBOL))
  | None => false
  end.

Lemma check_predefined_spec rt i name : check_predefined rt i name = true -> predefined rt i name.
Proof.
  unfold check_predefined, predefined. destruct (obj rt (Z.of_nat i)) as [s|]; [|discriminate]. intros H.
  apply andb_true_iff in H as [H H4]. apply andb_true_iff in H as [H H3]. apply andb_true_iff in H as [H1 H2].
  apply bool_decide_eq_true in H2. apply negb_true_iff in H1. exists s. split; [reflexivity|]. split; [destruct (str_of s); cbn in *; congruence|].
  split; [apply Z.eqb_eq; exact H3|]. apply eqb_prop in H4. rewrite <- !Z.eqb_eq, H4, andb_true_iff. reflexivity.
Qed.

Definition init_result (r : outcome (JSAtoms * Z)) : bool :=
  match r with
  | Ok (rt, e) => (e =? 0) && (atom_count rt =? JS_ATOM_END) && forallb (fun '(i, name) => check_predefined rt (S i) name) (imap pair js_atom_init)
  | _ => false
  end.

Lemma init_checked : init_result (fst (init_loop js_atom_init 1 empty_table alloc_all)) = true.
Proof. vm_compute. reflexivity. Qed.

Lemma init_rooms : run_room js_atom_init 1 empty_table alloc_all = true.
Proof. vm_compute. reflexivity. Qed.

Lemma init_atoms_spec : exists rt, fst (JS_InitAtoms ∅ alloc_all) = Ok (rt, 0) /\ atoms_ok rt /\ atom_count rt = JS_ATOM_END /\
  forall i name, js_atom_init !! i = Some name -> predefined rt (S i) name.
Proof.
  rewrite init_run. pose proof init_checked as Hc. pose proof (init_loop_ok js_atom_init 1 empty_table alloc_all empty_table_ok init_rooms) as Hok.
  destruct (fst (init_loop js_atom_init 1 empty_table alloc_all)) as [[rt e]|e|]; [|discriminate..]. cbn [init_result] in Hc.
  apply andb_true_iff in Hc as [Hc H3]. apply andb_true_iff in Hc as [H1 H2]. apply Z.eqb_eq in H1 as ->. apply Z.eqb_eq in H2.
  exists rt. split; [reflexivity|]. split; [exact Hok|]. split; [exact H2|]. intros i name Hi. apply check_predefined_spec.
  rewrite List.forallb_forall in H3. apply (H3 (i, name)). apply list_elem_of_In. apply list_elem_of_lookup. exists i. rewrite list_lookup_imap, Hi. reflexivity.
Qed.
