(* ===== verification/Dtoa.v ===== *)
(** Integers to text (dtoa.c): [u32toa], [u64toa], their signed variants and the
    variants with a radix: definitions.

    A function returns the characters it writes to [buf]; the local buffers that are
    filled from their end are [put] (see [BigIntString]), which is [Undefined] when
    they are full.

    The integer conversions of dtoa.c print the digits of the number, without
    leading zeros, inside their local buffers. *)
From stdpp Require Import base tactics list numbers.
From Stdlib Require Import ZArith Lia.
From S2P Require Import Prelude Limbs BigIntString BigIntParse BigIntToString.

Open Scope Z_scope.

(** [digit < 10 ? digit + '0' : digit + 'a' - 10]. *)
Definition digit_of (d : Z) : Z := if d <? 10 then d + 48 else d + 97 - 10.

Fixpoint u32toa_len (n : Z) (l : nat) (s : list Z) : list Z :=
  match l with
  | O => s
  | S l => u32toa_len (n / 10) l (n mod 10 + 48 :: s)
  end.

Fixpoint u64toa_bin_len (n radix_bits : Z) (l : nat) (s : list Z) : list Z :=
  match l with
  | O => s
  | S l =>
      let mask := Z.shiftl 1 radix_bits - 1 in
      u64toa_bin_len (Z.shiftr n radix_bits) radix_bits l (digit_of (Z.land n mask) :: s)
  end.

(** [do ... while (n != 0)] of [u32toa]. *)
Fixpoint u32toa_loop (fuel : nat) (n : Z) (q : Z * list Z) : M (Z * list Z) :=
  match fuel with
  | O => undefined
  | S fuel =>
      q ← put (n mod 10 + 48) q;
      if negb (n / 10 =? 0) then u32toa_loop fuel (n / 10) q else mret q
  end.

Definition u32toa (n : Z) : M (list Z) := '(_, s) ← u32toa_loop 11 n (10, []); mret s.

Definition i32toa (n : Z) : M (list Z) :=
  if 0 <=? n then u32toa n else s ← u32toa (wrap 32 (- wrap 32 n)); mret (45 :: s).

Definition u64toa (n : Z) : M (list Z) :=
  if n <? 0x100000000 then u32toa n
  else
    let n1 := n / 1000000000 in
    let n := n mod 1000000000 in
    q ← (if 0x100000000 <=? n1 then
           let n2 := wrap 32 (n1 / 1000000000) in
           let n1 := n1 mod 1000000000 in
           let q := if 10 <=? n2 then [n2 / 10 + 48; n2 mod 10 + 48] else [n2 + 48] in
           mret (q ++ u32toa_len n1 9 [])
         else u32toa n1);
    mret (q ++ u32toa_len n 9 []).

Definition i64toa (n : Z) : M (list Z) :=
  if 0 <=? n then u64toa n else s ← u64toa (wrap 64 (- wrap 64 n)); mret (45 :: s).

(** [do ... while (n != 0)] of [u64toa_radix]. *)
Fixpoint radix_digits (fuel : nat) (n radix : Z) (q : Z * list Z) : M (Z * list Z) :=
  match fuel with
  | O => undefined
  | S fuel =>
      q ← put (digit_of (n mod radix)) q;
      if negb (n / radix =? 0) then radix_digits fuel (n / radix) radix q else mret q
  end.

(** [w - clz(n)] for [0 < n < 2 ^ w]. *)
Definition bit_length (n : Z) : Z := Z.log2 n + 1.

Definition u64toa_radix (n radix : Z) : M (list Z) :=
  if radix =? 10 then u64toa n
  else if Z.land radix (radix - 1) =? 0 then
    let radix_bits := bit_length radix - 1 in
    let l := if n =? 0 then 1 else (bit_length n + radix_bits - 1) / radix_bits in
    mret (u64toa_bin_len n radix_bits (Z.to_nat l) [])
  else '(_, s) ← radix_digits 42 n radix (41, []); mret s.

Definition i64toa_radix (n radix : Z) : M (list Z) :=
  if 0 <=? n then u64toa_radix n radix else s ← u64toa_radix (wrap 64 (- wrap 64 n)) radix; mret (45 :: s).

(** The character is a decimal digit or a lower case letter. *)
Definition lower_digit (c : Z) : Prop := 48 <= c <= 57 \/ 97 <= c <= 122.

Lemma digit_of_spec d : 0 <= d < 36 -> to_digit (digit_of d) = d /\ lower_digit (digit_of d).
Proof.
  intros Hd. unfold digit_of, to_digit, lower_digit. destruct (Z.ltb_spec d 10).
  - rewrite (proj2 (Z.leb_le 48 _)), (proj2 (Z.leb_le _ 57)) by lia. cbn [andb]. lia.
  - rewrite (proj2 (Z.leb_gt _ 57)), andb_false_r by lia. rewrite (proj2 (Z.leb_gt _ 90)), andb_false_r by lia.
    rewrite (proj2 (Z.leb_le 97 _)), (proj2 (Z.leb_le _ 122)) by lia. cbn [andb]. lia.
Qed.

Lemma digit_of_low d : 0 <= d < 10 -> d + 48 = digit_of d.
Proof. intros H. unfold digit_of. rewrite (proj2 (Z.ltb_lt _ _)) by lia. reflexivity. Qed.

(** [k] digits of [n] in front of [s]. *)
Definition fixed_digits (radix n : Z) (k : nat) (ds : list Z) : Prop :=
  length ds = k /\ valid radix ds /\ Forall lower_digit ds /\ digits_val radix 0 ds = n mod radix ^ Z.of_nat k.

Lemma fixed_snoc radix n k ds : 2 <= radix <= 36 -> 0 <= n -> fixed_digits radix (n / radix) k ds -> fixed_digits radix n (S k) (ds ++ [digit_of (n mod radix)]).
Proof.
  intros Hr Hn (H1 & H2 & H3 & H4). pose proof (Z.mod_pos_bound n radix ltac:(lia)) as Hm. destruct (digit_of_spec (n mod radix) ltac:(lia)) as [Ed El].
  split; [rewrite length_app, H1; simpl; lia|]. split; [apply Forall_app; split; [exact H2|constructor; [lia|constructor]]|].
  split; [apply Forall_app; split; [exact H3|constructor; [exact El|constructor]]|].
  rewrite digits_val_snoc, H4, Ed, Nat2Z.inj_succ, Z.pow_succ_r by lia. rewrite Z.rem_mul_r by (try apply Z.pow_pos_nonneg; lia). ring.
Qed.

Lemma u32toa_len_spec l : forall n s, 0 <= n -> exists ds, u32toa_len n l s = ds ++ s /\ fixed_digits 10 n l ds.
Proof.
  induction l as [|l IH]; intros n s Hn.
  - exists []. split; [reflexivity|]. repeat split; try constructor. rewrite Z.mod_1_r. reflexivity.
  - cbn [u32toa_len]. destruct (IH (n / 10) (n mod 10 + 48 :: s)) as (ds & -> & Hds); [apply Z.div_pos; lia|].
    pose proof (Z.mod_pos_bound n 10 ltac:(lia)). exists (ds ++ [digit_of (n mod 10)]). split; [rewrite <- app_assoc, <- digit_of_low by lia; reflexivity|].
    apply fixed_snoc; [lia|exact Hn|exact Hds].
Qed.

Lemma bin_len_spec b l : 1 <= b <= 5 -> forall n s, 0 <= n -> exists ds, u64toa_bin_len n b l s = ds ++ s /\ fixed_digits (2 ^ b) n l ds.
Proof.
  intros Hb. assert (2 <= 2 ^ b <= 36) as Hr.
  { assert (2 ^ 1 <= 2 ^ b) by (apply Z.pow_le_mono_r; lia). assert (2 ^ b <= 2 ^ 5) by (apply Z.pow_le_mono_r; lia). lia. }
  induction l as [|l IH]; intros n s Hn.
  - exists []. split; [reflexivity|]. repeat split; try constructor. rewrite Z.mod_1_r. reflexivity.
  - cbn [u64toa_bin_len]. rewrite Z.shiftl_1_l, land_mask, Z.shiftr_div_pow2 by lia.
    destruct (IH (n / 2 ^ b) (digit_of (n mod 2 ^ b) :: s)) as (ds & -> & Hds); [apply Z.div_pos; lia|].
    exists (ds ++ [digit_of (n mod 2 ^ b)]). split; [rewrite <- app_assoc; reflexivity|]. apply fixed_snoc; [exact Hr|exact Hn|exact Hds].
Qed.

(** The text of a number: its digits without leading zeros, in lower case. *)
Definition text_of (radix n : Z) (l : list Z) : Prop :=
  Forall lower_digit l /\ (n = 0 /\ l = [48] \/ canonical_digits radix n l).

Definition signed_text (radix n : Z) (l : list Z) : Prop :=
  if n <? 0 then exists ds, l = 45 :: ds /\ text_of radix (- n) ds else text_of radix n l.

(** ** The loops *)

Lemma radix_digits_spec radix : 2 <= radix <= 36 -> forall fuel n room s,
  0 <= n < radix ^ room -> 0 < room -> room < Z.of_nat fuel ->
  exists ds room', radix_digits fuel n radix (room, s) = mret (room', ds ++ s) /\ text_of radix n ds.
Proof.
  intros Hr. induction fuel as [|fuel IH]; intros n room s Hn Hroom Hf; [lia|]. cbn [radix_digits]. rewrite put_room, ret_bind by lia.
  pose proof (Z.mod_pos_bound n radix ltac:(lia)) as Hm. destruct (digit_of_spec (n mod radix) ltac:(lia)) as [Ed El].
  pose proof (Z.div_mod n radix ltac:(lia)) as Hdm. destruct (Z.eqb_spec (n / radix) 0) as [Hz|Hz]; cbn [negb].
  - exists [digit_of (n mod radix)], (room - 1). split; [reflexivity|]. rewrite Hz in Hdm. replace (n mod radix) with n in * by lia.
    split; [constructor; [exact El|constructor]|]. destruct (Z.eq_dec n 0) as [->|Hn0]; [left; auto|right].
    split; [constructor; [lia|constructor]|]. split; [cbn; lia|]. eexists _, []. split; [reflexivity|lia].
  - assert (0 < n / radix) by (pose proof (Z.div_pos n radix); lia).
    assert (1 < room). { destruct (Z_le_gt_dec room 1); [|lia]. replace room with 1 in Hn by lia. rewrite Z.pow_1_r in Hn. rewrite Z.div_small in Hz by lia. lia. }
    destruct (IH (n / radix) (room - 1) (digit_of (n mod radix) :: s)) as (ds & room' & E & Hl & Hc); [|lia|lia|].
    { split; [lia|]. apply Z.div_lt_upper_bound; [lia|]. rewrite <- Z.pow_succ_r by lia. replace (Z.succ (room - 1)) with room by lia. lia. }
    exists (ds ++ [digit_of (n mod radix)]), room'. split; [rewrite E, <- app_assoc; reflexivity|]. split; [apply Forall_app; split; [exact Hl|constructor; [exact El|constructor]]|].
    right. destruct Hc as [[Hc _]|Hc]; [lia|]. replace n with (n / radix * radix + to_digit (digit_of (n mod radix))) at 1 by lia. apply canonical_snoc; [exact Hc|lia].
Qed.

Lemma u32toa_loop_radix fuel : forall n q, 0 <= n -> u32toa_loop fuel n q = radix_digits fuel n 10 q.
Proof.
  induction fuel as [|fuel IH]; intros n q Hn; [reflexivity|]. cbn [u32toa_loop radix_digits]. pose proof (Z.mod_pos_bound n 10 ltac:(lia)).
  rewrite digit_of_low by lia. destruct q as [room s]. unfold put. destruct (0 <? room); [|reflexivity]. rewrite !ret_bind.
  destruct (n / 10 =? 0); [reflexivity|]. apply IH. apply Z.div_pos; lia.
Qed.

Lemma u32toa_spec n : 0 <= n < 10 ^ 10 -> exists ds, u32toa n = mret ds /\ text_of 10 n ds.
Proof.
  intros Hn. unfold u32toa. rewrite u32toa_loop_radix by lia. destruct (radix_digits_spec 10 ltac:(lia) 11 n 10 [] Hn ltac:(lia) ltac:(lia)) as (ds & room' & -> & H).
  rewrite ret_bind, app_nil_r. eauto.
Qed.

(** Fixed digits after the text of a positive number. *)
Lemma text_fixed radix n k a b m : 2 <= radix <= 36 -> 0 < n -> text_of radix n a -> fixed_digits radix m k b -> text_of radix (n * radix ^ Z.of_nat k + m mod radix ^ Z.of_nat k) (a ++ b).
Proof.
  intros Hr Hn [Ha Hc] (H1 & H2 & H3 & H4). destruct Hc as [[Hc _]|(C1 & C2 & c & a' & -> & Hc)]; [lia|].
  split; [apply Forall_app; auto|]. right. split; [apply Forall_app; auto|]. split.
  - rewrite digits_val_app, digits_val_acc, C2, H4. unfold len. rewrite H1. reflexivity.
  - exists c, (a' ++ b). split; [reflexivity|exact Hc].
Qed.

Lemma one_digit n : 0 < n < 10 -> text_of 10 n [n + 48].
Proof.
  intros Hn. rewrite digit_of_low by lia. destruct (digit_of_spec n ltac:(lia)) as [Ed El]. split; [constructor; [exact El|constructor]|]. right.
  split; [constructor; [lia|constructor]|]. split; [cbn; lia|]. eexists _, []. split; [reflexivity|lia].
Qed.

Lemma u64toa_spec n : 0 <= n < 2 ^ 64 -> exists ds, u64toa n = mret ds /\ text_of 10 n ds.
Proof.
  intros Hn. unfold u64toa. destruct (Z.ltb_spec n 0x100000000) as [Hs|Hs]; [apply u32toa_spec; lia|]. cbv zeta.
  set (n1 := n / 1000000000). pose proof (Z.div_mod n 1000000000 ltac:(lia)) as D1. pose proof (Z.mod_pos_bound n 1000000000 ltac:(lia)) as M1. fold n1 in D1.
  assert (Hm : n mod 1000000000 mod 10 ^ 9 = n mod 1000000000) by (rewrite Z.mod_small; lia).
  destruct (u32toa_len_spec 9 (n mod 1000000000) [] ltac:(lia)) as (b & -> & Hb). rewrite app_nil_r.
  assert (exists a, (if 0x100000000 <=? n1
    then mret ((if 10 <=? wrap 32 (n1 / 1000000000) then [wrap 32 (n1 / 1000000000) / 10 + 48; wrap 32 (n1 / 1000000000) mod 10 + 48] else [wrap 32 (n1 / 1000000000) + 48])
               ++ u32toa_len (n1 mod 1000000000) 9 [])
    else u32toa n1) = mret a /\ text_of 10 n1 a) as (a & -> & Ha).
  { destruct (Z.leb_spec 0x100000000 n1) as [H1|H1]; [|apply u32toa_spec; lia].
    pose proof (Z.div_mod n1 1000000000 ltac:(lia)) as D2. pose proof (Z.mod_pos_bound n1 1000000000 ltac:(lia)) as M2. set (n2 := n1 / 1000000000) in *.
    rewrite wrap_small by lia. destruct (u32toa_len_spec 9 (n1 mod 1000000000) [] ltac:(lia)) as (c & -> & Hc). rewrite app_nil_r. eexists. split; [reflexivity|].
    replace n1 with (n2 * 10 ^ Z.of_nat 9 + (n1 mod 1000000000) mod 10 ^ Z.of_nat 9) at 1 by (change (10 ^ Z.of_nat 9) with 1000000000; rewrite (Z.mod_small (n1 mod _)) by lia; lia).
    apply text_fixed; [lia|lia| |exact Hc]. destruct (Z.leb_spec 10 n2) as [H2|H2]; [|apply one_digit; lia].
    pose proof (Z.div_mod n2 10 ltac:(lia)) as D3. pose proof (Z.mod_pos_bound n2 10 ltac:(lia)) as M3.
    replace n2 with (n2 / 10 * 10 ^ Z.of_nat 1 + n2 mod 10 mod 10 ^ Z.of_nat 1) at 1 by (change (10 ^ Z.of_nat 1) with 10; rewrite (Z.mod_small (n2 mod _)) by lia; lia).
    apply (text_fixed 10 (n2 / 10) 1 [n2 / 10 + 48] [n2 mod 10 + 48]); [lia|lia|apply one_digit; lia|].
    rewrite digit_of_low by lia. destruct (digit_of_spec (n2 mod 10) ltac:(lia)) as [Ed El]. split; [reflexivity|]. split; [constructor; [lia|constructor]|].
    split; [constructor; [exact El|constructor]|]. cbn [digits_val]. rewrite Ed. change (10 ^ Z.of_nat 1) with 10. rewrite Z.mod_mod by lia. lia. }
  rewrite ret_bind. eexists. split; [reflexivity|]. replace n with (n1 * 10 ^ Z.of_nat 9 + (n mod 1000000000) mod 10 ^ Z.of_nat 9) at 1.
  - apply text_fixed; [lia|lia|exact Ha|exact Hb].
  - change (10 ^ Z.of_nat 9) with 1000000000. rewrite (Z.mod_small (n mod _)) by lia. lia.
Qed.

(** [ceil(bit_length / b)] digits of [b] bits. *)
Lemma bin_text b n : 1 <= b <= 5 -> 0 <= n -> forall l ds,
  l = (if n =? 0 then 1 else (bit_length n + b - 1) / b) -> fixed_digits (2 ^ b) n (Z.to_nat l) ds -> text_of (2 ^ b) n ds.
Proof.
  intros Hb Hn l ds El (H1 & H2 & H3 & H4). split; [exact H3|]. destruct (Z.eqb_spec n 0) as [->|Hn0].
  - left. split; [reflexivity|]. subst l. destruct ds as [|c [|]]; [discriminate| |discriminate]. cbn in H4. rewrite Z.mod_0_l in H4 by (destruct b; cbn; lia).
    apply Forall_inv in H3. f_equal. unfold to_digit in H4. unfold lower_digit in H3.
    destruct (Z.leb_spec 48 c), (Z.leb_spec c 57); cbn [andb] in H4; [lia|..].
    all: destruct (Z.leb_spec 65 c), (Z.leb_spec c 90); cbn [andb] in H4; try lia; destruct (Z.leb_spec 97 c), (Z.leb_spec c 122); cbn [andb] in H4; lia.
  - right. split; [exact H2|]. assert (Hlog : 2 ^ Z.log2 n <= n < 2 ^ Z.succ (Z.log2 n)) by (apply Z.log2_spec; lia).
    pose proof (Z.log2_nonneg n) as Hl0. unfold bit_length in El.
    pose proof (Z.div_mod (Z.log2 n + 1 + b - 1) b ltac:(lia)) as Hdm. pose proof (Z.mod_pos_bound (Z.log2 n + 1 + b - 1) b ltac:(lia)) as Hmb. rewrite <- El in Hdm.
    assert (Hl1 : 1 <= l) by nia.
    rewrite Z2Nat.id, <- Z.pow_mul_r in H4 by lia.
    assert (n < 2 ^ (b * l)) as Hbig by (apply (Z.lt_le_trans _ (2 ^ Z.succ (Z.log2 n))); [apply Hlog|apply Z.pow_le_mono_r; lia]).
    rewrite Z.mod_small in H4 by lia. split; [exact H4|]. destruct ds as [|c ds]; [cbn in H1; lia|]. exists c, ds. split; [reflexivity|]. intros Hc.
    cbn [digits_val] in H4. rewrite Hc in H4. change (0 * 2 ^ b + 0) with 0 in H4.
    pose proof (digits_val_bounds (2 ^ b) ds) as Hv. rewrite H4 in Hv. assert (len ds = l - 1) as Hlen by (unfold len; simpl in H1; lia). rewrite Hlen, <- Z.pow_mul_r in Hv by lia.
    assert (2 ^ (b * (l - 1)) <= 2 ^ Z.log2 n) by (apply Z.pow_le_mono_r; nia).
    assert (1 < 2 ^ b) by (apply Z.pow_gt_1; lia). apply Forall_inv_tail in H2. specialize (Hv ltac:(assumption) H2). lia.
Qed.

Lemma u64toa_radix_spec n radix : 0 <= n < 2 ^ 64 -> 2 <= radix <= 36 -> exists ds, u64toa_radix n radix = mret ds /\ text_of radix n ds.
Proof.
  intros Hn Hr. unfold u64toa_radix. destruct (Z.eqb_spec radix 10) as [->|H10]; [apply u64toa_spec; exact Hn|].
  destruct (Z.eqb_spec (Z.land radix (radix - 1)) 0) as [Hp|Hp].
  - assert (exists b, 1 <= b <= 5 /\ radix = 2 ^ b) as (b & Hb & ->).
    { assert (exists k : nat, radix = Z.of_nat k /\ (k <= 36)%nat) as (k & -> & Hk) by (exists (Z.to_nat radix); lia).
      do 37 (destruct k as [|k]; [cbn in Hp; (lia || discriminate || (exists 1; split; [lia|reflexivity]) || (exists 2; split; [lia|reflexivity]) ||
        (exists 3; split; [lia|reflexivity]) || (exists 4; split; [lia|reflexivity]) || (exists 5; split; [lia|reflexivity]))|]). lia. }
    assert (bit_length (2 ^ b) - 1 = b) as -> by (unfold bit_length; rewrite Z.log2_pow2 by lia; lia). cbv zeta.
    destruct (bin_len_spec b (Z.to_nat (if n =? 0 then 1 else (bit_length n + b - 1) / b)) Hb n [] ltac:(lia)) as (ds & -> & Hds).
    rewrite app_nil_r. exists ds. split; [reflexivity|]. exact (bin_text b n Hb ltac:(lia) _ ds eq_refl Hds).
  - assert (3 <= radix) by (destruct (Z.eq_dec radix 2) as [->|]; [destruct Hp; reflexivity|lia]).
    assert (3 ^ 41 <= radix ^ 41) by (apply Z.pow_le_mono_l; lia).
    destruct (radix_digits_spec radix Hr 42 n 41 []) as (ds & room' & -> & H'); [|lia|lia|]; [change (2 ^ 64) with 18446744073709551616 in Hn; lia|].
    rewrite ret_bind, app_nil_r. eauto.
Qed.

(** The sign. *)
Lemma neg_wrap w n : 0 < w -> - 2 ^ (w - 1) <= n < 0 -> wrap w (- wrap w n) = - n.
Proof.
  intros Hw Hn. assert (2 ^ w = 2 * 2 ^ (w - 1)) by (rewrite <- Z.pow_succ_r by lia; f_equal; lia).
  unfold wrap. rewrite <- (Z.mod_add n 1) by lia. rewrite (Z.mod_small (n + 1 * 2 ^ w)) by lia.
  rewrite <- (Z.mod_add _ 1) by lia. rewrite Z.mod_small by lia. lia.
Qed.

Lemma signed_spec (f : Z -> M (list Z)) w radix n :
  (forall m, 0 <= m < 2 ^ w -> exists ds, f m = mret ds /\ text_of radix m ds) -> 0 < w -> - 2 ^ (w - 1) <= n < 2 ^ (w - 1) ->
  exists ds, (if 0 <=? n then f n else s ← f (wrap w (- wrap w n)); mret (45 :: s)) = mret ds /\ signed_text radix n ds.
Proof.
  intros Hf Hw Hn. assert (2 ^ w = 2 * 2 ^ (w - 1)) by (rewrite <- Z.pow_succ_r by lia; f_equal; lia).
  unfold signed_text. destruct (Z.leb_spec 0 n), (Z.ltb_spec n 0); try lia.
  - apply Hf. lia.
  - rewrite neg_wrap by lia. destruct (Hf (- n)) as (ds & -> & Hds); [lia|]. exists (45 :: ds). split; [reflexivity|]. eauto.
Qed.

Lemma i64toa_radix_spec n radix : - 2 ^ 63 <= n < 2 ^ 63 -> 2 <= radix <= 36 -> exists ds, i64toa_radix n radix = mret ds /\ signed_text radix n ds.
Proof. intros Hn Hr. apply (signed_spec (fun m => u64toa_radix m radix) 64); [|lia|exact Hn]. intros m Hm. exact (u64toa_radix_spec m radix Hm Hr). Qed.

Lemma i64toa_spec n : - 2 ^ 63 <= n < 2 ^ 63 -> exists ds, i64toa n = mret ds /\ signed_text 10 n ds.
Proof. intros Hn. apply (signed_spec u64toa 64); [apply u64toa_spec|lia|exact Hn]. Qed.

Lemma i32toa_spec n : - 2 ^ 31 <= n < 2 ^ 31 -> exists ds, i32toa n = mret ds /\ signed_text 10 n ds.
Proof. intros Hn. apply (signed_spec u32toa 32); [|lia|exact Hn]. intros m Hm. apply u32toa_spec. lia. Qed.
