(* ===== verification/AtomKeys.v ===== *)
(** Property keys (quickjs.c): atoms of integers and of strings that are integers,
    symbols, and the way back from an atom to its text: definitions.

    Property keys stand for their text: an integer below 2^31 is its own atom, and
    every other string has exactly one atom. *)
From Stdlib Require Import ZArith Lia String.
From S2P Require Import Prelude Cutils Limbs BigIntString BigIntParse BigIntToString JSString Atoms AtomSpecs AtomRemove AtomOps AtomIntern AtomAdd Dtoa.
From stdpp Require Import base tactics list gmap numbers strings.

Open Scope Z_scope.

(** The atom of the text [buf], from the allocation of its string on. *)
Definition atom_of_text (rt : JSAtoms) (buf : list Z) : M (JSAtoms * Z) :=
  '(rt, p) ← js_alloc_string_rt rt (MkString false buf);
  match p with
  | None => mret (rt, JS_ATOM_NULL)
  | Some p => __JS_NewAtom rt (Some p) JS_ATOM_TYPE_STRING
  end.

Definition JS_NewAtomUInt32 (rt : JSAtoms) (n : Z) : M (JSAtoms * Z) :=
  if n <=? JS_ATOM_MAX_INT then mret (rt, __JS_AtomFromUInt32 n)
  else buf ← u32toa n; atom_of_text rt buf.

Definition JS_NewAtomInt64 (rt : JSAtoms) (n : Z) : M (JSAtoms * Z) :=
  if wrap 64 n <=? JS_ATOM_MAX_INT then mret (rt, __JS_AtomFromUInt32 (wrap 32 n))
  else buf ← i64toa n; atom_of_text rt buf.

(** [assert(atom < rt->atom_size)] and the object of the atom. *)
Definition atom_object_of (rt : JSAtoms) (atom : Z) : M (ptr * string_object) :=
  if negb (atom <? wrap 32 (atom_size rt)) then undefined
  else p ← atom_ptr rt atom; s ← str_get rt p; mret (p, s).

Definition JS_AtomIsArrayIndex (rt : JSAtoms) (atom : Z) : M (option Z) :=
  if __JS_AtomIsTaggedInt atom then mret (Some (__JS_AtomToUInt32 atom))
  else
    '(_, s) ← atom_object_of rt atom;
    if atom_type s =? JS_ATOM_TYPE_STRING then
      match is_num_string (str_of s) with
      | Some val => mret (if val =? 2 ^ 32 - 1 then None else Some val)
      | None => mret None
      end
    else mret None.

(** A string or a symbol, with one more reference to its object. *)
Inductive atom_value : Type :=
| VString (p : ptr)
| VSymbol (p : ptr).

Definition dup_object (rt : JSAtoms) (p : ptr) : M JSAtoms :=
  s ← str_get rt p; n ← int_of (str_rc s + 1); mret (str_set rt p (set_rc s n)).

Definition __JS_AtomToValue (rt : JSAtoms) (atom : Z) (force_string : bool) : M (JSAtoms * atom_value) :=
  if __JS_AtomIsTaggedInt atom then
    buf ← u32toa (__JS_AtomToUInt32 atom);
    '(rt, p) ← js_alloc_string_rt rt (MkString false buf);
    match p with Some p => mret (rt, VString p) | None => throw OutOfMemory end
  else
    '(p, s) ← atom_object_of rt atom;
    if atom_type s =? JS_ATOM_TYPE_STRING then rt ← dup_object rt p; mret (rt, VString p)
    else if force_string then
      p ← (if (str_len (str_of s) =? 0) && is_wide_char (str_of s) then atom_ptr rt JS_ATOM_empty_string else mret p);
      rt ← dup_object rt p; mret (rt, VString p)
    else rt ← dup_object rt p; mret (rt, VSymbol p).

Definition JS_AtomToValue (rt : JSAtoms) (atom : Z) : M (JSAtoms * atom_value) := __JS_AtomToValue rt atom false.
Definition JS_AtomToString (rt : JSAtoms) (atom : Z) : M (JSAtoms * atom_value) := __JS_AtomToValue rt atom true.

Inductive JSAtomKindEnum : Type := JS_ATOM_KIND_STRING | JS_ATOM_KIND_SYMBOL | JS_ATOM_KIND_PRIVATE.

Definition JS_AtomGetKind (rt : JSAtoms) (v : Z) : M JSAtomKindEnum :=
  if __JS_AtomIsTaggedInt v then mret JS_ATOM_KIND_STRING
  else
    p ← atom_ptr rt v;
    s ← str_get rt p;
    if atom_type s =? JS_ATOM_TYPE_STRING then mret JS_ATOM_KIND_STRING
    else if atom_type s =? JS_ATOM_TYPE_GLOBAL_SYMBOL then mret JS_ATOM_KIND_SYMBOL
    else if atom_type s =? JS_ATOM_TYPE_SYMBOL then mret (if hash s =? JS_ATOM_HASH_PRIVATE then JS_ATOM_KIND_PRIVATE else JS_ATOM_KIND_SYMBOL)
    else undefined.

Definition JS_NewSymbol (rt : JSAtoms) (p : option ptr) (ty : Z) : M (JSAtoms * ptr) :=
  '(rt, atom) ← __JS_NewAtom rt p ty;
  if atom =? JS_ATOM_NULL then throw OutOfMemory else p ← atom_ptr rt atom; mret (rt, p).

(** ** Decimal strings *)

Lemma is_num_digit c : is_num c = true <-> to_digit c < 10 /\ to_digit c = c - 48.
Proof.
  unfold is_num, to_digit. destruct (Z.leb_spec 48 c), (Z.leb_spec c 57); cbn [andb]; try (split; [discriminate|]; destruct (_ && _); [lia|]; destruct (_ && _); lia). split; [lia|reflexivity].
Qed.

Lemma not_num_digit c : is_num c = false -> 10 <= to_digit c.
Proof.
  unfold is_num, to_digit. intros ->. destruct (Z.leb_spec 65 c), (Z.leb_spec c 90), (Z.leb_spec 97 c), (Z.leb_spec c 122); cbn [andb]; lia.
Qed.

Lemma digits_val_ge acc ds : 0 <= acc -> valid 10 ds -> acc <= digits_val 10 acc ds.
Proof.
  intros Ha Hv. rewrite digits_val_acc. pose proof (digits_val_bounds 10 ds ltac:(lia) Hv). assert (1 <= 10 ^ len ds) by (pose proof (Z.pow_pos_nonneg 10 (len ds)); pose proof (len_nonneg ds); lia). nia.
Qed.

Lemma num_loop_spec l : forall n m, 0 <= n < 2 ^ 32 -> num_loop l n = Some m <-> valid 10 l /\ digits_val 10 n l = m /\ m < 2 ^ 32.
Proof.
  induction l as [|c l IH]; intros n m Hn; cbn [num_loop digits_val].
  - split; [intros [= <-]; split; [constructor|lia]|intros (_ & -> & _); reflexivity].
  - destruct (is_num c) eqn:Hc.
    + pose proof Hc as [Hd Ed]%is_num_digit. rewrite <- Ed. pose proof (to_digit_nonneg c). rewrite wrap_small by lia. rewrite Z.shiftr_div_pow2 by lia.
      destruct (Z.eqb_spec ((n * 10 + to_digit c) / 2 ^ 32) 0) as [Hz|Hz].
      * apply Z.div_small_iff in Hz; [|lia]. rewrite IH by lia. split; [intros (H1 & H2); split; [constructor; [exact Hd|exact H1]|exact H2]|].
        intros (H1 & H2). split; [exact (Forall_inv_tail H1)|exact H2].
      * split; [discriminate|]. intros (H1 & H2 & H3). exfalso. apply Hz, Z.div_small. pose proof (digits_val_ge (n * 10 + to_digit c) l ltac:(lia) (Forall_inv_tail H1)). lia.
    + split; [discriminate|]. intros (H1 & _). apply Forall_inv in H1. apply not_num_digit in Hc. lia.
Qed.

(** The decimal text of a number. *)
Definition decimal (n : Z) (l : list Z) : Prop := n = 0 /\ l = [48] \/ canonical_digits 10 n l.

Lemma canonical_length n l : canonical_digits 10 n l -> 10 ^ (len l - 1) <= n.
Proof.
  intros (Hv & E & c & l' & -> & Hc). cbn [digits_val] in E. rewrite digits_val_acc in E. pose proof (to_digit_nonneg c).
  pose proof (digits_val_bounds 10 l' ltac:(lia) (Forall_inv_tail Hv)). rewrite len_cons. replace (1 + len l' - 1) with (len l') by lia.
  pose proof (len_nonneg l'). assert (0 < 10 ^ len l') by (apply Z.pow_pos_nonneg; lia). nia.
Qed.

Lemma is_num_string_spec s n : is_num_string s = Some n <-> 0 <= n < 2 ^ 32 /\ decimal n (chars s).
Proof.
  unfold is_num_string, str_len, decimal. destruct (chars s) as [|c l] eqn:El.
  - cbn. split; [discriminate|]. intros [_ [[_ H]|(_ & _ & c & l & H & _)]]; discriminate.
  - assert (Hlen : ((len (c :: l) =? 0) || (10 <? len (c :: l))) = (10 <? len (c :: l))) by (rewrite (proj2 (Z.eqb_neq _ _)) by (rewrite len_cons; pose proof (len_nonneg l); lia); reflexivity).
    rewrite Hlen. destruct (Z.ltb_spec 10 (len (c :: l))) as [Hl|Hl].
    + split; [discriminate|]. intros [Hn [[_ [= -> ->]]|Hc]]; [change (len [48]) with 1 in Hl; lia|]. apply canonical_length in Hc.
      assert (10 ^ 10 <= 10 ^ (len (c :: l) - 1)) by (apply Z.pow_le_mono_r; lia). lia.
    + destruct (is_num c) eqn:Hc.
      2: { split; [discriminate|]. apply not_num_digit in Hc. intros [_ [[_ [= -> _]]|(Hv & _)]]; [cbn in Hc; lia|]. apply Forall_inv in Hv. lia. }
      pose proof Hc as [Hd Ed]%is_num_digit. pose proof (to_digit_nonneg c) as H0. destruct (Z.eqb_spec c 48) as [->|Hne].
      * destruct (Z.eqb_spec (len (48 :: l)) 1) as [H1|H1].
        -- rewrite len_cons in H1. assert (l = []) as -> by (destruct l; [reflexivity|rewrite len_cons in H1; pose proof (len_nonneg l); lia]).
           split; [intros [= <-]; split; [lia|left; auto]|]. intros [_ [[-> _]|(_ & _ & c & l & [= <- _] & Hz)]]; [reflexivity|]. destruct Hz. reflexivity.
        -- split; [discriminate|]. intros [_ [[_ [= ->]]|(_ & _ & c & l' & [= <- _] & Hz)]]; [destruct H1; reflexivity|destruct Hz; reflexivity].
      * rewrite num_loop_spec by lia. rewrite <- Ed. split.
        -- intros (H1 & H2 & H3). pose proof (digits_val_ge (to_digit c) l H0 H1). split; [lia|]. right. split; [constructor; [exact Hd|exact H1]|]. split; [exact H2|]. exists c, l. split; [reflexivity|lia].
        -- intros [Hn [[_ [= -> _]]|(H1 & H2 & _)]]; [contradiction|]. split; [exact (Forall_inv_tail H1)|]. split; [exact H2|lia].
Qed.

Lemma digits_inj l : forall l' acc, len l = len l' -> valid 10 l -> valid 10 l' -> digits_val 10 acc l = digits_val 10 acc l' -> l = l'.
Proof.
  induction l as [|c l IH]; intros [|c' l'] acc Hl Hv Hv' E; try reflexivity; rewrite ?len_cons in Hl; try (cbn in Hl; pose proof (len_nonneg l); pose proof (len_nonneg l'); lia; fail).
  - exfalso. change (len []) with 0 in Hl. pose proof (len_nonneg l'). lia.
  - exfalso. change (len []) with 0 in Hl. pose proof (len_nonneg l). lia.
  - assert (len l = len l') as Hl' by lia. cbn [digits_val] in E. pose proof E as E2. rewrite (digits_val_acc 10 _ l), (digits_val_acc 10 _ l'), <- Hl' in E2.
    pose proof (digits_val_bounds 10 l ltac:(lia) (Forall_inv_tail Hv)). pose proof (digits_val_bounds 10 l' ltac:(lia) (Forall_inv_tail Hv')) as Hb. rewrite <- Hl' in Hb. apply Forall_inv in Hv as Hd, Hv' as Hd'.
    assert (to_digit c = to_digit c') as Ed by nia. rewrite Ed in E. f_equal; [|exact (IH l' _ Hl' (Forall_inv_tail Hv) (Forall_inv_tail Hv') E)].
    destruct (is_num c) eqn:Hc; [apply is_num_digit in Hc|apply not_num_digit in Hc; lia]. destruct (is_num c') eqn:Hc'; [apply is_num_digit in Hc'|apply not_num_digit in Hc'; lia]. lia.
Qed.

Lemma canonical_bounds n l : canonical_digits 10 n l -> 10 ^ (len l - 1) <= n < 10 ^ len l.
Proof. intros H. split; [exact (canonical_length n l H)|]. destruct H as (Hv & <- & _). apply (digits_val_bounds 10 l ltac:(lia) Hv). Qed.

(** A number has one decimal text. *)
Lemma decimal_text n l l' : decimal n l -> decimal n l' -> l = l'.
Proof.
  assert (Hpos : forall n l, canonical_digits 10 n l -> 0 < n) by (intros m k H; destruct H as (Hv & E & c & k' & -> & Hc); pose proof (canonical_length m (c :: k') ltac:(split; [exact Hv|]; split; [exact E|]; eauto)) as H; rewrite len_cons in H; pose proof (Z.pow_pos_nonneg 10 (1 + len k' - 1)); pose proof (len_nonneg k'); lia).
  intros [[-> ->]|H] [[H0 ->]|H']; try reflexivity; [pose proof (Hpos _ _ H'); lia|subst n; pose proof (Hpos _ _ H); lia|]. pose proof (canonical_bounds _ _ H) as B. pose proof (canonical_bounds _ _ H') as B'.
  assert (len l = len l') as Hl. { destruct H as (_ & _ & c & k & -> & _), H' as (_ & _ & c' & k' & -> & _). rewrite !len_cons in *. pose proof (len_nonneg k). pose proof (len_nonneg k'). assert (1 + len k - 1 < 1 + len k') by (apply (Z.pow_lt_mono_r_iff 10); lia). assert (1 + len k' - 1 < 1 + len k) by (apply (Z.pow_lt_mono_r_iff 10); lia). lia. }
  destruct H as (Hv & E & _), H' as (Hv' & E' & _). apply (digits_inj l l' 0 Hl Hv Hv'). congruence.
Qed.

Lemma text_decimal n l : text_of 10 n l -> decimal n l.
Proof. intros [_ H]. exact H. Qed.

(** ** Integer atoms *)

Lemma atom_int n : 0 <= n < 2 ^ 31 ->
  __JS_AtomFromUInt32 n = n + 2 ^ 31 /\ __JS_AtomIsTaggedInt (n + 2 ^ 31) = true /\ __JS_AtomToUInt32 (n + 2 ^ 31) = n.
Proof.
  intros Hn. unfold __JS_AtomFromUInt32, __JS_AtomIsTaggedInt, __JS_AtomToUInt32, JS_ATOM_TAG_INT.
  assert (E : Z.lor n (Z.shiftl 1 31) = n + 2 ^ 31) by (rewrite Z.lor_comm, shl_lor_add by lia; lia). split; [exact E|]. split.
  - apply negb_true_iff, Z.eqb_neq. intros H. assert (Z.testbit (Z.land (n + 2 ^ 31) (Z.shiftl 1 31)) 31 = true) as Ht; [|rewrite H, Z.bits_0 in Ht; discriminate].
    rewrite Z.land_spec, <- E, Z.lor_spec. rewrite Z.shiftl_1_l, Z.pow2_bits_true by lia. rewrite orb_true_r. reflexivity.
  - change (2 ^ 32 - 1 - Z.shiftl 1 31) with (2 ^ 31 - 1). rewrite land_mask by lia. rewrite <- (Z.mod_small n (2 ^ 31)) at 2 by lia.
    replace (n + 2 ^ 31) with (n + 1 * 2 ^ 31) by lia. apply Z.mod_add. lia.
Qed.

Lemma small_not_tagged a : 0 <= a < 2 ^ 31 -> __JS_AtomIsTaggedInt a = false.
Proof.
  intros Ha. unfold __JS_AtomIsTaggedInt, JS_ATOM_TAG_INT. apply negb_false_iff, Z.eqb_eq. apply Z.bits_inj'. intros k Hk. rewrite Z.land_spec, Z.bits_0, Z.shiftl_1_l.
  destruct (Z.eq_dec k 31) as [->|Hne]; [|rewrite Z.pow2_bits_false by lia; apply andb_false_r].
  replace (Z.testbit a 31) with false; [reflexivity|]. symmetry. destruct (Z.eq_dec a 0) as [->|]; [apply Z.bits_0|]. apply Z.bits_above_log2; [lia|].
  apply Z.log2_lt_pow2; lia.
Qed.

(** ** The text of a key *)

(** The atom is an integer with that decimal text, or a string atom with those units. *)
Definition key_text (rt : JSAtoms) (a : Z) (u : list Z) : Prop :=
  if __JS_AtomIsTaggedInt a then decimal (__JS_AtomToUInt32 a) u
  else exists s, obj rt a = Some s /\ atom_type s = JS_ATOM_TYPE_STRING /\ chars (str_of s) = u.

(** The integers that have their own atoms are not in the table. *)
Definition no_ints (rt : JSAtoms) : Prop :=
  forall x s n, obj rt x = Some s -> atom_type s = JS_ATOM_TYPE_STRING -> is_num_string (str_of s) = Some n -> JS_ATOM_MAX_INT < n.

Lemma decimal_fun n m u : decimal n u -> decimal m u -> n = m.
Proof.
  intros [[-> ->]|(_ & <- & H1)] [[-> H]|(_ & <- & H2)]; try reflexivity.
  subst u. reflexivity.
Qed.

Lemma tagged_value a : 0 <= a < 2 ^ 32 -> __JS_AtomIsTaggedInt a = true -> 0 <= __JS_AtomToUInt32 a < 2 ^ 31 /\ a = __JS_AtomToUInt32 a + 2 ^ 31.
Proof.
  intros Ha Ht. destruct (Z_lt_le_dec a (2 ^ 31)) as [H|H]; [rewrite small_not_tagged in Ht by lia; discriminate|].
  destruct (atom_int (a - 2 ^ 31) ltac:(lia)) as (_ & _ & E). replace (a - 2 ^ 31 + 2 ^ 31) with a in E by lia. lia.
Qed.

Lemma max_int : JS_ATOM_MAX_INT = 2 ^ 31 - 1.
Proof. reflexivity. Qed.

(** A key has one text. *)
Lemma text_unique rt a u v : key_text rt a u -> key_text rt a v -> u = v.
Proof. unfold key_text. destruct (__JS_AtomIsTaggedInt a); [apply decimal_text|]. intros (s & Hs & _ & <-) (s' & Hs' & _ & <-). congruence. Qed.

(** Every text has one key. *)
Lemma key_unique rt a b u : atoms_ok rt -> no_ints rt -> 0 <= a < 2 ^ 32 -> 0 <= b < 2 ^ 32 -> key_text rt a u -> key_text rt b u -> a = b.
Proof.
  intros [(chs & fr & C) _] Hno Ha Hb. unfold key_text.
  assert (Hmix : forall n x s, decimal n u -> 0 <= n < 2 ^ 31 -> obj rt x = Some s -> atom_type s = JS_ATOM_TYPE_STRING -> chars (str_of s) = u -> False).
  { intros n x s Hd Hn Hs Ht Hu. assert (is_num_string (str_of s) = Some n) as E by (apply is_num_string_spec; rewrite Hu; split; [lia|exact Hd]).
    pose proof (Hno x s n Hs Ht E) as H. rewrite max_int in H. lia. }
  destruct (__JS_AtomIsTaggedInt a) eqn:Ta, (__JS_AtomIsTaggedInt b) eqn:Tb.
  - intros H1 H2. destruct (tagged_value a Ha Ta) as [_ ->], (tagged_value b Hb Tb) as [_ ->]. rewrite (decimal_fun _ _ _ H1 H2). reflexivity.
  - intros H1 (s & Hs & Ht & Hu). destruct (Hmix _ b s H1 (proj1 (tagged_value a Ha Ta)) Hs Ht Hu).
  - intros (s & Hs & Ht & Hu) H2. destruct (Hmix _ a s H2 (proj1 (tagged_value b Hb Tb)) Hs Ht Hu).
  - intros (s & Hs & Ht & Hu) (s' & Hs' & Ht' & Hu'). apply (c_uniq _ _ _ C a b s s' Hs Hs'); [left; exact Ht|congruence|congruence].
Qed.

Lemma obj_range rt x s : atoms_ok rt -> obj rt x = Some s -> 0 <= x < 2 ^ 30 /\ x < atom_size rt /\ atom_size rt < 2 ^ 30.
Proof.
  intros [(chs & fr & C) _] (q & Hq & _)%obj_slot. apply look_range in Hq. pose proof (c_size _ _ _ C). pose proof (c_max _ _ _ C) as Hm.
  change JS_ATOM_MAX with (2 ^ 30 - 1) in Hm. lia.
Qed.

(** Where the string atoms after an operation come from. *)
Lemma settles_source rt rt' str gain x s' :
  atoms_ok rt -> settles rt rt' str gain -> obj rt' x = Some s' -> hashed s' ->
  (exists s, obj rt x = Some s /\ str_of s' = str_of s /\ atom_type s' = atom_type s) \/ exists q, slot rt' x = Some (SAtom q) /\ gain q = 1.
Proof.
  intros [(chs & fr & C) _] [[(chs' & fr' & C') Hok'] _ Hk Ho] Hs' Hh. destruct (obj_slot _ _ _ Hs') as (q & Hq & Hqs).
  destruct (Ho x q Hq) as [Hq0|[->|Hg]]; [|exfalso|right; eauto].
  - left. destruct (c_obj _ _ _ C _ _ Hq0) as (s & Hs & Ht). exists s. split; [rewrite (slot_obj _ _ _ Hq0); exact Hs|].
    destruct (Hk q s Hs) as (s2 & Hs2 & Et & Ha).
    { unfold refs. rewrite Hqs. destruct (Hok' q s' Hqs) as [[Hl _]|(_ & _ & Hn)]; [lia|]. destruct Hn. exists x. exact Hq. }
    assert (s2 = s') as -> by congruence. split; [exact Et|]. apply Ha. lia.
  - destruct (c_null _ _ _ C') as [E0|(s0 & Hs0 & Ht)].
    + apply look_range in Hq. pose proof (c_size _ _ _ C'). lia.
    + assert (s0 = s') as -> by congruence. exact (hashed_not_sym s' Hh Ht).
Qed.

Lemma num_text s s' : chars s = chars s' -> is_num_string s = is_num_string s'.
Proof. intros E. unfold is_num_string, str_len. rewrite E. reflexivity. Qed.

Lemma no_ints_settles rt rt' str gain :
  atoms_ok rt -> settles rt rt' str gain -> no_ints rt ->
  (forall x s' n q, slot rt' x = Some (SAtom q) -> gain q = 1 -> obj rt' x = Some s' -> atom_type s' = JS_ATOM_TYPE_STRING -> is_num_string (str_of s') = Some n -> JS_ATOM_MAX_INT < n) ->
  no_ints rt'.
Proof.
  intros Hok Hset Hno Hg x s' n Hs' Ht Hn. destruct (settles_source rt rt' str gain x s' Hok Hset Hs' (or_introl Ht)) as [(s & Hs & Et & Ea)|(q & Hq & Hq1)].
  - rewrite Et in Hn. apply (Hno x s n Hs); [congruence|exact Hn].
  - exact (Hg x s' n q Hq Hq1 Hs' Ht Hn).
Qed.

Lemma gained_at rt' a x q : atoms_ok rt' -> gained rt' a q = 1 -> slot rt' x = Some (SAtom q) -> x = a.
Proof.
  intros [(chs & fr & C) _]. unfold gained. case_decide as H; [|lia]. intros _ Hx. destruct H as [_ Ha]. exact (c_inj _ _ _ C _ _ _ Hx Ha).
Qed.

Lemma gained_nonneg rt' a q : 0 <= gained rt' a q.
Proof. unfold gained. case_decide; lia. Qed.

(** The result of making a key: the invariants, the references and the text. *)
Definition keyed (G : Prop) (rt : JSAtoms) (str : option ptr) (u : list Z) (r : JSAtoms * Z) : Prop :=
  (exists gain, settles rt (fst r) str gain /\ forall q, 0 <= gain q <= gained (fst r) (snd r) q) /\
  no_ints (fst r) /\ (snd r = 0 -> ~ G) /\ (snd r <> 0 -> 0 <= snd r < 2 ^ 32 /\ key_text (fst r) (snd r) u).

Lemma interns_keyed G rt sp text r :
  atoms_ok rt -> no_ints rt -> (forall n, is_num_string text = Some n -> JS_ATOM_MAX_INT < n) ->
  interns G rt sp JS_ATOM_TYPE_STRING text r -> keyed G rt (Some sp) (chars text) r.
Proof.
  intros Hok Hno Htext. destruct r as [rt' a]. unfold keyed, interns. cbn [fst snd].
  assert (Hkey : forall s', atoms_ok rt' -> obj rt' a = Some s' -> matches JS_ATOM_TYPE_STRING (chars text) s' -> 0 <= a < 2 ^ 32 /\ key_text rt' a (chars text)).
  { intros s' Hok' Hs' [Ht Hu]. destruct (obj_range rt' a s' Hok' Hs') as (Hr & _). split; [lia|]. unfold key_text. rewrite small_not_tagged by lia. eauto. }
  intros [(s0 & Hs0 & [Hm1 Hm2] & H0 & Hset & s' & Hs' & Et & Ea)|[(Hnm & [F1 (s' & Hs' & Et & Ea & _) _] & Hset)|(-> & HG & Hset)]]; cbn [fst snd] in *.
  - pose proof (o_ok _ _ _ _ Hset) as Hok'. split; [exists (fun q => if __JS_AtomIsConst a then 0 else gained rt' a q); split; [exact Hset|]; intros q; pose proof (gained_nonneg rt' a q); destruct (__JS_AtomIsConst a); lia|].
    split; [|split; [intros; contradiction|intros _; apply (Hkey s' Hok' Hs'); split; congruence]].
    apply (no_ints_settles rt rt' _ _ Hok Hset Hno). intros x sx n q Hq Hg Hsx Ht Hn. destruct (__JS_AtomIsConst a); [lia|].
    rewrite (gained_at rt' a x q Hok' Hg Hq) in Hsx. assert (sx = s') as -> by congruence. rewrite Et in Hn. exact (Hno a s0 n Hs0 Hm1 Hn).
  - pose proof (o_ok _ _ _ _ Hset) as Hok'. split; [exists (gained rt' a); split; [exact Hset|]; intros q; pose proof (gained_nonneg rt' a q); lia|].
    split; [|split; [intros; contradiction|intros _; apply (Hkey s' Hok' Hs'); split; congruence]].
    apply (no_ints_settles rt rt' _ _ Hok Hset Hno). intros x sx n q Hq Hg Hsx Ht Hn.
    rewrite (gained_at rt' a x q Hok' Hg Hq) in Hsx. assert (sx = s') as -> by congruence. rewrite Et in Hn. exact (Htext n Hn).
  - split; [exists (fun _ => 0); split; [exact Hset|]; intros q; pose proof (gained_nonneg rt' 0 q); lia|].
    split; [|split; [auto|intros []; reflexivity]]. apply (no_ints_settles rt rt' _ _ Hok Hset Hno). intros; lia.
Qed.

Section Keys.
Context (G : Prop) (E : exn -> Prop) (rt : JSAtoms) (Hok : atoms_ok rt) (Hno : no_ints rt) (Hroom : room rt = true).

Lemma room_obj x s0 : obj rt x = Some s0 -> str_rc s0 < 2 ^ 31 - 1.
Proof. intros (q & _ & Hq)%obj_slot. apply room_spec in Hroom as [_ H]. exact (H q s0 Hq). Qed.

Lemma new_atom_str_spec sp s : strings rt !! sp = Some s -> live rt sp s -> spare rt sp s ->
  gspec G (JS_NewAtomStr rt sp) (keyed G rt (Some sp) (chars (str_of s))) E.
Proof.
  intros Hs Hl Hsp. pose proof (proj1 (room_spec rt Hroom)) as Hsz. unfold JS_NewAtomStr. rewrite (str_get_some _ _ _ Hs), ret_bind.
  assert (Hslow : (forall n, is_num_string (str_of s) = Some n -> JS_ATOM_MAX_INT < n) ->
    gspec G (__JS_NewAtom rt (Some sp) JS_ATOM_TYPE_STRING) (keyed G rt (Some sp) (chars (str_of s))) E).
  { intros Htext. eapply gspec_mono with (E := E); [apply (new_atom_spec G E rt sp s _ Hok Hs Hl Hsp (or_introl eq_refl) Hsz room_obj)| |auto].
    intros r. apply interns_keyed; assumption. }
  destruct (is_num_string (str_of s)) as [n|] eqn:En; [|apply Hslow; discriminate].
  destruct (Z.leb_spec n JS_ATOM_MAX_INT) as [Hn|Hn]; [|apply Hslow; intros m [= <-]; exact Hn]. rewrite max_int in Hn.
  destruct (free_given rt sp (str_of s) Hok ltac:(exists s; auto)) as (rt' & s2 & -> & _ & _ & Hset). rewrite ret_bind. apply gspec_ret.
  apply is_num_string_spec in En as [Hn0 Hd]. destruct (atom_int n ltac:(lia)) as (Ea & Et & Ev). unfold keyed. cbn [fst snd]. rewrite Ea.
  split; [exists (fun _ => 0); split; [exact Hset|]; intros q; pose proof (gained_nonneg rt' (n + 2 ^ 31) q); lia|]. split.
  - apply (no_ints_settles rt rt' _ _ Hok Hset Hno). intros; lia.
  - split; [lia|]. intros _. split; [lia|]. unfold key_text. rewrite Et, Ev. exact Hd.
Qed.

(** A text that is not a small integer. *)
Lemma atom_of_text_spec u : (forall n, is_num_string (MkString false u) = Some n -> JS_ATOM_MAX_INT < n) ->
  gspec G (atom_of_text rt u) (fun r => atoms_ok (fst r) /\ no_ints (fst r) /\ (snd r = 0 -> ~ G) /\ (snd r <> 0 -> 0 <= snd r < 2 ^ 32 /\ key_text (fst r) (snd r) u)) E.
Proof.
  intros Hu. pose proof (room_spec rt Hroom) as [Hsz Hrc]. unfold atom_of_text.
  eapply gspec_bind; [apply (alloc_string_spec G E rt _ Hok)|]. intros [rt1 p]. cbn [fst snd].
  intros [(-> & HG & ->)|(-> & E1 & Hok1 & Gr)]; [apply gspec_ret; cbn [fst snd]; split; [exact Hok|]; split; [exact Hno|]; split; [auto|intros []; reflexivity]|].
  destruct (alloc_plain rt (MkString false u) Hok) as (Hs & Hl & Hsp & _ & Hob). rewrite <- E1 in Hs, Hl, Hsp, Hob.
  assert (Hno1 : no_ints rt1). { intros x sx n Hsx. exact (Hno x sx n (Hob x sx Hsx)). }
  eapply gspec_mono with (E := E); [apply (new_atom_spec G E rt1 _ _ JS_ATOM_TYPE_STRING Hok1 Hs Hl Hsp (or_introl eq_refl))| |auto].
  - rewrite E1. exact Hsz.
  - intros x s0 (q & _ & Hq)%Hob%obj_slot. exact (Hrc q s0 Hq).
  - intros r Hr. destruct (interns_keyed G rt1 _ _ r Hok1 Hno1 Hu Hr) as ((gain & Hset & _) & H2 & H3 & H4). split; [exact (o_ok _ _ _ _ Hset)|]. auto.
Qed.

Lemma new_atom_uint32_spec n : 0 <= n < 2 ^ 32 ->
  gspec G (JS_NewAtomUInt32 rt n) (fun r => atoms_ok (fst r) /\ no_ints (fst r) /\ (snd r = 0 -> ~ G) /\
    (snd r <> 0 -> 0 <= snd r < 2 ^ 32 /\ exists u, decimal n u /\ key_text (fst r) (snd r) u)) E.
Proof.
  intros Hn. destruct (u32toa_spec n ltac:(lia)) as (u & Eu & Hu). apply text_decimal in Hu. unfold JS_NewAtomUInt32.
  destruct (Z.leb_spec n JS_ATOM_MAX_INT) as [Hs|Hs]; rewrite max_int in Hs.
  - apply gspec_ret. cbn [fst snd]. destruct (atom_int n ltac:(lia)) as (-> & Et & Ev). split; [exact Hok|]. split; [exact Hno|]. split; [lia|]. intros _. split; [lia|].
    exists u. split; [exact Hu|]. unfold key_text. rewrite Et, Ev. exact Hu.
  - rewrite Eu, ret_bind. eapply gspec_mono with (E := E); [apply atom_of_text_spec| |auto].
    + intros m Hm. apply is_num_string_spec in Hm as [_ Hm]. rewrite (decimal_fun _ _ _ Hm Hu), max_int. exact Hs.
    + intros r (H1 & H2 & H3 & H4). split; [exact H1|]. split; [exact H2|]. split; [exact H3|]. intros H0. destruct (H4 H0) as [H5 H6]. eauto.
Qed.

(** The decimal text of an integer, with its sign. *)
Definition integer_text (n : Z) (u : list Z) : Prop := if n <? 0 then exists ds, u = 45 :: ds /\ decimal (- n) ds else decimal n u.

Lemma new_atom_int64_spec n : - 2 ^ 63 <= n < 2 ^ 63 ->
  gspec G (JS_NewAtomInt64 rt n) (fun r => atoms_ok (fst r) /\ no_ints (fst r) /\ (snd r = 0 -> ~ G) /\
    (snd r <> 0 -> 0 <= snd r < 2 ^ 32 /\ exists u, integer_text n u /\ key_text (fst r) (snd r) u)) E.
Proof.
  intros Hn. destruct (i64toa_spec n Hn) as (u & Eu & Hu). assert (Ht : integer_text n u).
  { unfold signed_text in Hu. unfold integer_text. destruct (n <? 0); [destruct Hu as (ds & -> & Hd); exists ds; split; [reflexivity|exact (text_decimal _ _ Hd)]|exact (text_decimal _ _ Hu)]. }
  unfold JS_NewAtomInt64. destruct (Z.leb_spec (wrap 64 n) JS_ATOM_MAX_INT) as [Hs|Hs]; rewrite max_int in Hs.
  - assert (H0 : 0 <= n < 2 ^ 31). { destruct (Z_lt_le_dec n 0) as [H|H]; [|rewrite wrap_small in Hs by lia; lia]. replace (wrap 64 n) with (n + 2 ^ 64) in Hs; [lia|]. unfold wrap. rewrite <- (Z.mod_add n 1) by lia. symmetry. apply Z.mod_small. lia. }
    apply gspec_ret. cbn [fst snd]. rewrite (wrap_small 32) by lia. destruct (atom_int n H0) as (-> & Et & Ev). split; [exact Hok|]. split; [exact Hno|]. split; [lia|]. intros _. split; [lia|].
    exists u. split; [exact Ht|]. unfold key_text. rewrite Et, Ev. unfold integer_text in Ht. rewrite (proj2 (Z.ltb_ge n 0)) in Ht by lia. exact Ht.
  - rewrite Eu, ret_bind. eapply gspec_mono with (E := E); [apply atom_of_text_spec| |auto].
    + intros m Hm. apply is_num_string_spec in Hm as [_ Hm]. cbn [chars] in Hm. unfold integer_text in Ht. destruct (Z.ltb_spec n 0) as [H|H]; [exfalso|rewrite (decimal_fun _ _ _ Hm Ht), max_int; rewrite wrap_small in Hs by lia; lia].
      destruct Ht as (ds & -> & _). destruct Hm as [[_ [=]]|(Hv & _)]. apply Forall_inv in Hv. vm_compute in Hv. discriminate.
    + intros r (H1 & H2 & H3 & H4). split; [exact H1|]. split; [exact H2|]. split; [exact H3|]. intros H0. destruct (H4 H0) as [H5 H6]. eauto.
Qed.

(** ** The way back *)

(** A string with the units [u] and one reference more. *)
Definition valued (u : list Z) (r : JSAtoms * atom_value) : Prop :=
  exists p s, snd r = VString p /\ strings (fst r) !! p = Some s /\ chars (str_of s) = u /\ refs (fst r) p = refs rt p + 1 /\
    settles rt (fst r) None (fun q => if decide (q = p) then 1 else 0) /\ no_ints (fst r).

Lemma settles_refl rt' : atoms_ok rt' -> settles rt' rt' None (fun _ => 0).
Proof.
  intros H. split; [exact H|intros q s _; unfold lost; rewrite decide_False by discriminate; lia| |auto]. intros q s Hs _. exists s. split; [exact Hs|]. split; [reflexivity|]. intros _. split; [reflexivity|]. tauto.
Qed.

(** One reference more to an atom. *)
Lemma dup_object_spec a p s : slot rt a = Some (SAtom p) -> strings rt !! p = Some s ->
  dup_object rt p = mret (str_set rt p (set_rc s (str_rc s + 1))) /\ settles rt (str_set rt p (set_rc s (str_rc s + 1))) None (fun q => if decide (q = p) then 1 else 0) /\
  no_ints (str_set rt p (set_rc s (str_rc s + 1))) /\ refs (str_set rt p (set_rc s (str_rc s + 1))) p = refs rt p + 1.
Proof.
  intros Hp Hs. pose proof (proj2 (room_spec rt Hroom) p s Hs) as Hmax. assert (Hrc : 1 <= str_rc s) by (destruct (proj2 Hok p s Hs) as [[H _]|(_ & _ & H)]; [exact H|destruct H; exists a; exact Hp]).
  split; [unfold dup_object; rewrite (str_get_some _ _ _ Hs), ret_bind, int_of_ok by lia; rewrite ret_bind; reflexivity|]. split; [|split].
  - apply (settles_dup rt _ p s None Hs Hrc). apply settles_refl, dup_ok; [exact Hok|exact Hs|exact Hrc|lia].
  - intros x sx n (q & Hq & Hsx)%obj_slot. cbn [strings str_set with_strings] in Hsx. intros Ht Hn. change (slot rt x = Some (SAtom q)) in Hq. destruct (decide (q = p)) as [->|Hne]; [rewrite lookup_insert_eq in Hsx; injection Hsx as <-; apply (Hno x s n); [rewrite (slot_obj _ _ _ Hq); exact Hs|exact Ht|exact Hn]|].
    rewrite lookup_insert_ne in Hsx by congruence. apply (Hno x sx n); [rewrite (slot_obj _ _ _ Hq); exact Hsx|exact Ht|exact Hn].
  - unfold refs. cbn [strings str_set with_strings]. rewrite lookup_insert_eq, Hs. cbn. lia.
Qed.

Lemma object_of_spec a s : obj rt a = Some s -> exists p, slot rt a = Some (SAtom p) /\ strings rt !! p = Some s /\ atom_object_of rt a = mret (p, s) /\ __JS_AtomIsTaggedInt a = false.
Proof.
  intros Hs. destruct (obj_range rt a s Hok Hs) as (H0 & H1 & H2). destruct (obj_slot _ _ _ Hs) as (q & Hq & Hqs). exists q. split; [exact Hq|]. split; [exact Hqs|]. split; [|apply small_not_tagged; lia].
  unfold atom_object_of. rewrite wrap_small, (proj2 (Z.ltb_lt _ _)) by lia. cbn [negb]. rewrite (atom_ptr_slot _ _ _ Hq), ret_bind, (str_get_some _ _ _ Hqs), ret_bind. reflexivity.
Qed.

(** The value of a key is a string with its text. *)
Lemma atom_to_value_spec a u force_string : 0 <= a < 2 ^ 32 -> key_text rt a u -> gspec G (__JS_AtomToValue rt a force_string) (valued u) (fun e => e = OutOfMemory /\ ~ G).
Proof.
  intros Ha Hk. unfold key_text in Hk. unfold __JS_AtomToValue. destruct (__JS_AtomIsTaggedInt a) eqn:Ta.
  - destruct (tagged_value a Ha Ta) as [Hr _]. destruct (u32toa_spec (__JS_AtomToUInt32 a) ltac:(lia)) as (u' & -> & Hu'). apply text_decimal in Hu'. rewrite ret_bind.
    assert (u' = u) as -> by exact (decimal_text _ _ _ Hu' Hk). eapply gspec_bind; [apply (alloc_string_spec G _ rt _ Hok)|]. intros [rt1 p]. cbn [fst snd]. intros [(-> & HG & ->)|(-> & E1 & Hok1 & Gr)]; [apply gspec_throw; auto|]. apply gspec_ret.
    destruct (alloc_plain rt (MkString false u) Hok) as (Hs & _ & _ & Hnt & Hob). rewrite <- E1 in Hs, Hnt, Hob. pose proof (new_ptr_fresh rt) as Hf. eexists _, _. cbn [fst snd]. split; [reflexivity|]. split; [exact Hs|]. split; [reflexivity|]. split; [|split].
    + unfold refs. rewrite Hs, Hf. reflexivity.
    + destruct (grown_settles rt rt1 Hok1 Gr) as [S1 S2 S3 S4]. split; [exact S1| |exact S3|intros j q Hq; destruct (S4 j q Hq) as [|[|]]; auto; lia]. intros q s Hq. rewrite (S2 q s Hq). case_decide; [congruence|reflexivity].
    + intros x sx n Hsx. exact (Hno x sx n (Hob x sx Hsx)).
  - destruct Hk as (s & Hs & Ht & Hu). destruct (object_of_spec a s Hs) as (q & Hq & Hqs & -> & _). rewrite ret_bind, Ht. change (JS_ATOM_TYPE_STRING =? JS_ATOM_TYPE_STRING) with true. cbn iota.
    destruct (dup_object_spec a q s Hq Hqs) as (-> & H1 & H2 & H3). rewrite ret_bind. apply gspec_ret. eexists q, _. cbn [fst snd]. split; [reflexivity|]. split; [apply lookup_insert_eq|]. auto.
Qed.

(** The value of a symbol is the symbol, and its string is its description. *)
Lemma symbol_value_spec a s : obj rt a = Some s -> atom_type s <> JS_ATOM_TYPE_STRING ->
  exists p rt', slot rt a = Some (SAtom p) /\ settles rt rt' None (fun q => if decide (q = p) then 1 else 0) /\
    __JS_AtomToValue rt a false = mret (rt', VSymbol p) /\ (str_of s <> MkString true [] -> __JS_AtomToValue rt a true = mret (rt', VString p)).
Proof.
  intros Hs Ht. destruct (object_of_spec a s Hs) as (q & Hq & Hqs & E1 & Et). destruct (dup_object_spec a q s Hq Hqs) as (Ed & H1 & _ & _). exists q, (str_set rt q (set_rc s (str_rc s + 1))). split; [exact Hq|]. split; [exact H1|].
  unfold __JS_AtomToValue. rewrite Et, E1, !ret_bind, (proj2 (Z.eqb_neq _ _) Ht), Ed, ret_bind. split; [reflexivity|]. intros Hd.
  assert ((str_len (str_of s) =? 0) && is_wide_char (str_of s) = false) as ->; [|rewrite ret_bind, Ed, ret_bind; reflexivity]. destruct (str_of s) as [[|] [|c l]]; try reflexivity. destruct Hd. reflexivity.
Qed.

End Keys.

(** The index of a key. *)
Lemma array_index_spec rt a u : atoms_ok rt -> 0 <= a < 2 ^ 32 -> key_text rt a u ->
  exists r, JS_AtomIsArrayIndex rt a = mret r /\ forall n, r = Some n <-> 0 <= n < 2 ^ 32 - 1 /\ decimal n u.
Proof.
  intros Hok Ha Hk. unfold key_text in Hk. unfold JS_AtomIsArrayIndex. destruct (__JS_AtomIsTaggedInt a) eqn:Ta.
  - destruct (tagged_value a Ha Ta) as [Hr _]. eexists. split; [reflexivity|]. intros n. split; [intros [= <-]; split; [lia|exact Hk]|].
    intros [_ Hd]. f_equal. exact (decimal_fun _ _ _ Hk Hd).
  - destruct Hk as (s & Hs & Ht & Hu). destruct (obj_range rt a s Hok Hs) as (_ & H1 & H2). destruct (obj_slot _ _ _ Hs) as (q & Hq & Hqs).
    unfold atom_object_of. rewrite wrap_small, (proj2 (Z.ltb_lt _ _)) by lia. cbn [negb]. rewrite (atom_ptr_slot _ _ _ Hq), ret_bind, (str_get_some _ _ _ Hqs), !ret_bind.
    rewrite Ht. cbn [Z.eqb JS_ATOM_TYPE_STRING]. change (1 =? 1) with true. cbn iota. destruct (is_num_string (str_of s)) as [v|] eqn:Ev.
    + eexists. split; [reflexivity|]. apply is_num_string_spec in Ev as [Hv Hd]. rewrite Hu in Hd. destruct (Z.eqb_spec v (2 ^ 32 - 1)) as [->|Hne].
      * intros n. split; [discriminate|]. intros [Hn Hd']. pose proof (decimal_fun _ _ _ Hd Hd'). lia.
      * intros n. split; [intros [= <-]; split; [lia|exact Hd]|]. intros [_ Hd']. f_equal. exact (decimal_fun _ _ _ Hd Hd').
    + eexists. split; [reflexivity|]. intros n. split; [discriminate|]. intros [Hn Hd]. assert (is_num_string (str_of s) = Some n) as H'; [|congruence].
      apply is_num_string_spec. rewrite Hu. split; [lia|exact Hd].
Qed.
