(* ===== verification/AtomTheorems.v ===== *)
(** The theorems on the atom table and on property keys, with a witness each.

    [atoms_ok] is the invariant: the free entries form one list, every atom that is
    not a symbol is on the chain of its hash, no two of them have the same type and
    units, and every object has a reference.  [refs rt q] counts the references to
    the object [q], and [keeps rt rt'] says that the objects with references left
    keep their text, type and index. *)
From Stdlib Require Import ZArith Lia String.
From S2P Require Import Prelude Cutils BigIntString JSString Atoms AtomSpecs AtomRemove AtomOps AtomIntern AtomAdd Dtoa AtomKeys.
From stdpp Require Import base tactics list gmap numbers strings.

Open Scope Z_scope.

(** C18: [__JS_NewAtom] interns a string: it keeps the invariant, returns the atom
    with the type and the units of the string if there is one, makes exactly one new
    atom at an unused index otherwise, and fails only when an allocation is refused;
    it takes one reference to the string and gives one to the atom, unless that is
    a predefined one, and afterwards the atom is the only one with these units. *)
Theorem atom_interning rt sp s ty o :
  atoms_ok rt -> room rt = true -> strings rt !! sp = Some s -> live rt sp s -> spare rt sp s ->
  ty = JS_ATOM_TYPE_STRING \/ ty = JS_ATOM_TYPE_GLOBAL_SYMBOL ->
  exists rt' a o', __JS_NewAtom rt (Some sp) ty o = (Ok (rt', a), o') /\ atoms_ok rt' /\ interns (grants o) rt sp ty (str_of s) (rt', a) /\
    (a <> 0 -> forall x s', obj rt' x = Some s' -> (atom_type s' = ty /\ chars (str_of s') = chars (str_of s)) <-> x = a).
Proof.
  intros Hok Hroom Hs Hl Hsp Hty. destruct (room_spec rt Hroom) as [Hsz _].
  pose proof (new_atom_spec (grants o) no_exn rt sp s ty Hok Hs Hl Hsp Hty Hsz (room_obj rt Hroom) o (fun H => H)) as H.
  destruct (__JS_NewAtom rt (Some sp) ty o) as [[[rt' a]|e|] o']; [|contradiction..]. destruct H as [H _]. exists rt', a, o'. split; [reflexivity|].
  assert (Hok' : atoms_ok rt') by (destruct H as [(s0 & _ & _ & _ & [H1 _ _ _] & _)|[(_ & _ & [H1 _ _ _])|(_ & _ & [H1 _ _ _])]]; exact H1).
  split; [exact Hok'|]. split; [exact H|]. intros H0.
  assert (exists sa, obj rt' a = Some sa /\ matches ty (chars (str_of s)) sa) as (sa & Hsa & Hma & Hmb).
  { destruct H as [(s0 & _ & [M1 M2] & _ & _ & s' & Hs' & Et & Ea)|[(_ & [_ (s' & Hs' & Et & Ea & _) _] & _)|(Hz & _)]]; [| |contradiction];
      exists s'; (split; [exact Hs'|split; cbn [snd] in *; congruence]). }
  destruct Hok' as [(chs & fr & C) _]. intros x s' Hs'. split; [|intros ->; assert (s' = sa) as -> by congruence; auto].
  intros [E1 E2]. apply (c_uniq _ _ _ C x a s' sa Hs' Hsa); [unfold hashed; rewrite E1; exact Hty|congruence|congruence].
Qed.

(** a symbol is a new atom each time, with or without a description: its index
    is not the one of another atom, its object has the description, and only a
    refused allocation makes it fail. *)
Theorem atom_symbols_new rt str text ty o :
  atoms_ok rt -> room rt = true -> given rt str text -> ty = JS_ATOM_TYPE_SYMBOL \/ ty = JS_ATOM_TYPE_PRIVATE ->
  exists rt' a o', __JS_NewAtom rt str ty o = (Ok (rt', a), o') /\ settles rt rt' str (gained rt' a) /\
    (a = 0 /\ ~ grants o \/ fresh_atom rt rt' str a JS_ATOM_TYPE_SYMBOL (symbol_hash ty) text).
Proof.
  intros Hok Hroom Hg Hty. destruct (room_spec rt Hroom) as [Hsz _].
  pose proof (new_symbol_spec (grants o) no_exn rt str text ty Hok Hsz Hg Hty o (fun H => H)) as H.
  destruct (__JS_NewAtom rt str ty o) as [[[rt' a]|e|] o']; [|contradiction..]. destruct H as [[H1 H2] _]. exists rt', a, o'. auto.
Qed.

(** C20: [JS_FreeAtom] and [js_free_string] drop one reference and nothing else: the
    invariant holds, every other object is left alone, and the atom leaves the table
    exactly when that was its last reference, so that its entry can be used again. *)
Theorem atom_release rt p s :
  atoms_ok rt -> strings rt !! p = Some s -> live rt p s -> spare rt p s ->
  (exists rt', js_free_string rt p = mret rt' /\ settles rt rt' (Some p) (fun _ => 0) /\ (in_table rt' p <-> in_table rt p /\ 1 < str_rc s)) /\
  (forall i, slot rt i = Some (SAtom p) -> __JS_AtomIsConst i = false -> JS_FreeAtom rt i = js_free_string rt p).
Proof.
  intros Hok Hs Hl Hsp. split.
  - destruct (free_string_spec rt p s Hok Hs Hl Hsp) as (rt' & E & Hok' & D). exists rt'. split; [exact E|].
    split; [exact (dropped_settles rt rt' p s Hok' D Hs (proj1 Hl))|]. split.
    + intros [j Hj]. split; [exists j; exact (d_slot _ _ _ _ D j p Hj)|]. destruct (Z_lt_le_dec 1 (str_rc s)) as [H|H]; [exact H|].
      destruct (d_last _ _ _ _ D H) as [Hn _]. destruct Hn. exists j. exact Hj.
    + intros [[j Hj] H]. exists j. rewrite (proj2 (d_more _ _ _ _ D H)). exact Hj.
  - intros i Hi Hc. destruct Hok as [(chs & fr & C) _]. destruct (c_obj _ _ _ C _ _ Hi) as (s' & Hs' & Ht). assert (s' = s) as -> by congruence.
    unfold JS_FreeAtom, __JS_FreeAtom, js_free_string. rewrite Hc, (atom_ptr_slot _ _ _ Hi), ret_bind, (str_get_some _ _ _ Hs), !ret_bind. cbv zeta.
    cbn [str_rc set_rc atom_type]. rewrite (proj2 (Z.eqb_neq (atom_type s) 0)) by lia. cbn [negb].
    destruct (Z.ltb_spec 0 (str_rc s - 1)), (Z.leb_spec (str_rc s - 1) 0); try lia; reflexivity.
Qed.

(** [JS_InitAtoms] gives every predefined atom the index of its constant: the
    entry [i] is the [i]-th string of quickjs-atom.h with its type, and the table
    satisfies the invariant. *)
Theorem predefined_atoms :
  exists rt, fst (JS_InitAtoms ∅ alloc_all) = Ok (rt, 0) /\ atoms_ok rt /\ atom_count rt = JS_ATOM_END /\
    forall i name, js_atom_init !! i = Some name -> predefined rt (S i) name.
Proof. exact init_atoms_spec. Qed.

(** C21: property keys are faithful to their text: while no count and no size is near its
    limit, [JS_NewAtomStr] on a string, [JS_NewAtomUInt32] and [JS_NewAtomInt64] on a
    number return the key of that text, the integer itself below 2^31, or fail without
    memory; two keys are equal exactly when their texts are; [JS_AtomIsArrayIndex]
    recognises exactly the keys whose text is a number below 2^32 - 1; and
    [__JS_AtomToValue] gives a string with the text of the key back, with one reference
    more and nothing else changed, and for a symbol the symbol or its description. *)
Theorem atom_keys_faithful rt o :
  atoms_ok rt -> no_ints rt -> room rt = true ->
  (forall sp s, strings rt !! sp = Some s -> live rt sp s -> spare rt sp s ->
     exists rt' a o', JS_NewAtomStr rt sp o = (Ok (rt', a), o') /\ keyed (grants o) rt (Some sp) (chars (str_of s)) (rt', a)) /\
  (forall n, 0 <= n < 2 ^ 32 ->
     exists rt' a o', JS_NewAtomUInt32 rt n o = (Ok (rt', a), o') /\ atoms_ok rt' /\ no_ints rt' /\ (a = 0 -> ~ grants o) /\
       (a <> 0 -> 0 <= a < 2 ^ 32 /\ exists u, decimal n u /\ key_text rt' a u)) /\
  (forall n, - 2 ^ 63 <= n < 2 ^ 63 ->
     exists rt' a o', JS_NewAtomInt64 rt n o = (Ok (rt', a), o') /\ atoms_ok rt' /\ no_ints rt' /\ (a = 0 -> ~ grants o) /\
       (a <> 0 -> 0 <= a < 2 ^ 32 /\ exists u, integer_text n u /\ key_text rt' a u)) /\
  (forall a b u v, 0 <= a < 2 ^ 32 -> 0 <= b < 2 ^ 32 -> key_text rt a u -> key_text rt b v -> a = b <-> u = v) /\
  (forall a u, 0 <= a < 2 ^ 32 -> key_text rt a u -> exists r, JS_AtomIsArrayIndex rt a = mret r /\ forall n, r = Some n <-> 0 <= n < 2 ^ 32 - 1 /\ decimal n u) /\
  (forall a u force_string, 0 <= a < 2 ^ 32 -> key_text rt a u ->
     (exists r o', __JS_AtomToValue rt a force_string o = (Ok r, o') /\ valued rt u r) \/
     (exists o', __JS_AtomToValue rt a force_string o = (Throw OutOfMemory, o') /\ ~ grants o)) /\
  (forall a s, obj rt a = Some s -> atom_type s <> JS_ATOM_TYPE_STRING ->
     exists p rt', slot rt a = Some (SAtom p) /\ settles rt rt' None (fun q => if decide (q = p) then 1 else 0) /\
       __JS_AtomToValue rt a false = mret (rt', VSymbol p) /\ (str_of s <> MkString true [] -> __JS_AtomToValue rt a true = mret (rt', VString p))).
Proof.
  intros Hok Hno Hroom. split; [|split; [|split; [|split; [|split; [|split]]]]].
  - intros sp s Hs Hl Hsp. pose proof (new_atom_str_spec (grants o) no_exn rt Hok Hno Hroom sp s Hs Hl Hsp o (fun H => H)) as H.
    destruct (JS_NewAtomStr rt sp o) as [[[rt' a]|e|] o']; [|contradiction..]. destruct H as [H _]. eauto 6.
  - intros n Hn. pose proof (new_atom_uint32_spec (grants o) no_exn rt Hok Hno Hroom n Hn o (fun H => H)) as H.
    destruct (JS_NewAtomUInt32 rt n o) as [[[rt' a]|e|] o']; [|contradiction..]. destruct H as [(H1 & H2 & H3 & H4) _]. exists rt', a, o'. auto.
  - intros n Hn. pose proof (new_atom_int64_spec (grants o) no_exn rt Hok Hno Hroom n Hn o (fun H => H)) as H.
    destruct (JS_NewAtomInt64 rt n o) as [[[rt' a]|e|] o']; [|contradiction..]. destruct H as [(H1 & H2 & H3 & H4) _]. exists rt', a, o'. auto.
  - intros a b u v Ha Hb Hu Hv. split; [intros <-; exact (text_unique rt a u v Hu Hv)|intros <-; exact (key_unique rt a b u Hok Hno Ha Hb Hu Hv)].
  - intros a u Ha. exact (array_index_spec rt a u Hok Ha).
  - intros a u fs Ha Hu. pose proof (atom_to_value_spec (grants o) rt Hok Hno Hroom a u fs Ha Hu o (fun H => H)) as H.
    destruct (__JS_AtomToValue rt a fs o) as [[r|e|] o']; [left; destruct H; eauto|right; destruct H as [-> H]; eauto|contradiction].
  - intros a s. exact (symbol_value_spec rt Hok Hno Hroom a s).
Qed.

(** The sizes of [atom_array], one growth after the other. *)
Definition next_size (n : Z) : Z := Z.max 711 (n * 3 / 2).

(** the limit [JS_ATOM_MAX] never applies: [atom_size * 3] overflows an [int]
    for every size that could exceed the limit when it grows, one of which the
    sequence of sizes reaches. *)
Theorem atom_limit_overflows :
  (forall rt, atom_free_index rt = 0 -> MAX_GROW < atom_size rt <= JS_ATOM_MAX -> grow_atoms rt = undefined) /\
  (forall n, 0 <= n <= MAX_GROW -> next_size n <= JS_ATOM_MAX) /\
  MAX_GROW < Nat.iter 36 next_size 0 <= JS_ATOM_MAX.
Proof.
  split; [|split; [|split; vm_compute; (reflexivity || discriminate)]].
  - intros rt Hf Hs. unfold grow_atoms. rewrite Hf. cbn [Z.eqb]. unfold int_of. unfold MAX_GROW in Hs.
    rewrite (proj2 (Z.ltb_ge _ (2 ^ 31))), andb_false_r by lia. reflexivity.
  - intros n Hn. unfold next_size, MAX_GROW in *. change JS_ATOM_MAX with (2 ^ 30 - 1). pose proof (Z.div_mod (n * 3) 2 ltac:(lia)). pose proof (Z.mod_pos_bound (n * 3) 2 ltac:(lia)). lia.
Qed.

(** ** Witnesses

    The table after [JS_InitAtoms], the atom "foo" made in it, and a plain string. *)
Definition run_or {A} (d : A) (m : M A) : A := match fst (m alloc_all) with Ok a => a | _ => d end.

Definition initial : JSAtoms := fst (run_or (empty_table, 0) (JS_InitAtoms ∅)).

Lemma initial_ok : atoms_ok initial.
Proof.
  unfold initial, run_or. destruct init_atoms_spec as (rt & E & Hok & _). rewrite E. exact Hok.
Qed.

Lemma initial_room : room initial = true.
Proof. vm_compute. reflexivity. Qed.

(** The atom 237, the first one that is not predefined. *)
Definition with_foo : JSAtoms := fst (run_or (empty_table, 0) (__JS_NewAtomInit initial (bytes_of "foo") JS_ATOM_TYPE_STRING)).

Lemma with_foo_ok : atoms_ok with_foo.
Proof.
  pose proof (new_atom_init_ok True no_exn initial (bytes_of "foo") JS_ATOM_TYPE_STRING initial_ok initial_room ltac:(unfold JS_ATOM_TYPE_STRING; lia) alloc_all (fun _ _ => eq_refl)) as H.
  unfold with_foo, run_or. destruct (__JS_NewAtomInit initial (bytes_of "foo") JS_ATOM_TYPE_STRING alloc_all) as [[r|e|] o']; [exact (proj1 H)|contradiction..].
Qed.

(** A plain string "foo" next to it. *)
Definition sample : JSAtoms := str_set with_foo (new_ptr with_foo) (MkStr (MkString false (bytes_of "foo")) 1 0 0 0).

Lemma sample_ok : atoms_ok sample.
Proof. exact (proj1 (alloc_grown with_foo _ with_foo_ok)). Qed.

Lemma sample_room : room sample = true.
Proof. vm_compute. reflexivity. Qed.

Definition sample_plain := alloc_plain with_foo (MkString false (bytes_of "foo")) with_foo_ok.

Lemma atom_interning_witness :
  exists rt' a o', __JS_NewAtom sample (Some (new_ptr with_foo)) JS_ATOM_TYPE_STRING alloc_all = (Ok (rt', a), o') /\ atoms_ok rt' /\
    interns (grants alloc_all) sample (new_ptr with_foo) JS_ATOM_TYPE_STRING (MkString false (bytes_of "foo")) (rt', a) /\
    (a <> 0 -> forall x s', obj rt' x = Some s' -> (atom_type s' = JS_ATOM_TYPE_STRING /\ chars (str_of s') = bytes_of "foo") <-> x = a).
Proof.
  destruct sample_plain as (Hs & Hl & Hsp & _).
  exact (atom_interning sample (new_ptr with_foo) _ JS_ATOM_TYPE_STRING alloc_all sample_ok sample_room Hs Hl Hsp (or_introl eq_refl)).
Defined.

(** The run returns the atom that exists. *)
Example foo_again : snd (run_or (empty_table, 0) (__JS_NewAtom sample (Some (new_ptr with_foo)) JS_ATOM_TYPE_STRING)) = 237.
Proof. vm_compute. reflexivity. Qed.

Lemma atom_symbols_witness :
  exists rt' a o', __JS_NewAtom sample (Some (new_ptr with_foo)) JS_ATOM_TYPE_SYMBOL alloc_all = (Ok (rt', a), o') /\
    settles sample rt' (Some (new_ptr with_foo)) (gained rt' a) /\
    (a = 0 /\ ~ grants alloc_all \/ fresh_atom sample rt' (Some (new_ptr with_foo)) a JS_ATOM_TYPE_SYMBOL (symbol_hash JS_ATOM_TYPE_SYMBOL) (MkString false (bytes_of "foo"))).
Proof.
  destruct sample_plain as (Hs & Hl & Hsp & _).
  apply (atom_symbols_new sample (Some (new_ptr with_foo)) _ JS_ATOM_TYPE_SYMBOL alloc_all sample_ok sample_room); [|left; reflexivity].
  eexists. split; [exact Hs|]. auto.
Defined.

(** The object of the atom "foo". *)
Definition foo_ptr : ptr := match slot with_foo 237 with Some (SAtom p) => p | _ => 1%positive end.
Definition foo_object : string_object := match strings with_foo !! foo_ptr with Some s => s | None => MkStr (MkString false []) 0 0 0 0 end.

Lemma foo_slot : slot with_foo 237 = Some (SAtom foo_ptr).
Proof. vm_compute. reflexivity. Qed.

Lemma foo_entry : strings with_foo !! foo_ptr = Some foo_object.
Proof. vm_compute. reflexivity. Qed.

(** The atom "foo", which is in the table with one reference, is freed and gone. *)
Lemma atom_release_witness :
  in_table with_foo foo_ptr /\ str_rc foo_object = 1 /\
  exists rt', JS_FreeAtom with_foo 237 = mret rt' /\ settles with_foo rt' (Some foo_ptr) (fun _ => 0) /\ ~ in_table rt' foo_ptr.
Proof.
  assert (Hin : in_table with_foo foo_ptr) by (exists 237; exact foo_slot). split; [exact Hin|]. split; [vm_compute; reflexivity|].
  destruct (atom_release with_foo foo_ptr foo_object with_foo_ok foo_entry) as [(rt' & E & Hset & Hiff) Hfree].
  - split; [vm_compute; discriminate|]. intros _. exact Hin.
  - intros i Hi Hc. destruct with_foo_ok as [(chs & fr & C) _]. rewrite (c_inj _ _ _ C i 237 foo_ptr Hi foo_slot) in Hc. vm_compute in Hc. discriminate Hc.
  - exists rt'. rewrite (Hfree 237 foo_slot eq_refl). split; [exact E|]. split; [exact Hset|]. intros [_ H]%Hiff. vm_compute in H. discriminate H.
Defined.

(** The atom "foo" is freed and its entry used for "bar". *)
Example foo_freed :
  run_or (0, 0) (rt ← JS_FreeAtom with_foo 237; '(rt, a) ← __JS_NewAtomInit rt (bytes_of "bar") JS_ATOM_TYPE_STRING; mret (a, atom_count rt)) = (237, 238).
Proof. vm_compute. reflexivity. Qed.

Lemma sample_no_ints : no_ints sample.
Proof.
  assert (forallb (fun i => match obj sample (Z.of_nat i) with
    | Some s => negb (atom_type s =? JS_ATOM_TYPE_STRING) || match is_num_string (str_of s) with Some n => JS_ATOM_MAX_INT <? n | None => true end
    | None => true end) (seq 0 711) = true) as H by (vm_compute; reflexivity).
  rewrite List.forallb_forall in H. intros x s n Hs Ht Hn.
  assert (0 <= x < 711) as Hx by (destruct (obj_slot _ _ _ Hs) as (q & Hq & _); apply look_range in Hq; change (len (atom_array sample)) with 711 in Hq; exact Hq).
  specialize (H (Z.to_nat x) ltac:(apply List.in_seq; lia)). rewrite Z2Nat.id, Hs, Ht, Hn in H by lia. apply Z.ltb_lt. exact H.
Qed.

(** The key of -5, which is a string, and the way back from the key "foo". *)
Lemma atom_keys_witness :
  (exists rt' a o', JS_NewAtomInt64 sample (- 5) alloc_all = (Ok (rt', a), o') /\ atoms_ok rt' /\ no_ints rt' /\ (a = 0 -> ~ grants alloc_all) /\
    (a <> 0 -> 0 <= a < 2 ^ 32 /\ exists u, integer_text (- 5) u /\ key_text rt' a u)) /\
  (exists rt' a o', JS_NewAtomUInt32 sample 4294967295 alloc_all = (Ok (rt', a), o') /\ atoms_ok rt' /\ no_ints rt' /\ (a = 0 -> ~ grants alloc_all) /\
    (a <> 0 -> 0 <= a < 2 ^ 32 /\ exists u, decimal 4294967295 u /\ key_text rt' a u)) /\
  ((exists r o', __JS_AtomToValue sample 237 false alloc_all = (Ok r, o') /\ valued sample (bytes_of "foo") r) \/
   (exists o', __JS_AtomToValue sample 237 false alloc_all = (Throw OutOfMemory, o') /\ ~ grants alloc_all)).
Proof.
  destruct (atom_keys_faithful sample alloc_all sample_ok sample_no_ints sample_room) as (_ & H32 & H64 & _ & _ & Hval & _). split; [apply H64; lia|]. split; [apply H32; lia|]. apply Hval; [lia|].
  assert (slot sample 237 = Some (SAtom foo_ptr)) as Hs by (vm_compute; reflexivity). change (exists s, obj sample 237 = Some s /\ atom_type s = JS_ATOM_TYPE_STRING /\ chars (str_of s) = bytes_of "foo"). exists foo_object. split; [rewrite (slot_obj _ _ _ Hs)|]; vm_compute; auto.
Defined.

(** The text of the key that [JS_NewAtomInt64] makes. *)
Example int64_key : run_or (0, []) ('(rt, a) ← JS_NewAtomInt64 sample (- 5); s ← (p ← atom_ptr rt a; str_get rt p); mret (a, chars (str_of s))) = (238, [45; 53]).
Proof. vm_compute. reflexivity. Qed.

Lemma atom_limit_witness : grow_atoms (MkAtoms ∅ 512 0 800000000 1024 [] [] 0) = undefined.
Proof. apply (proj1 atom_limit_overflows); [reflexivity|split; [reflexivity|discriminate]]. Defined.
