(* ===== verification/DtoaTheorems.v ===== *)
(** The theorem on the integer conversions of dtoa.c, with its witness. *)
From Stdlib Require Import ZArith Lia.
From S2P Require Import Prelude BigIntString BigIntParse BigIntToString Dtoa.
From stdpp Require Import base tactics list numbers.

Open Scope Z_scope.

(** C22: the integer conversions print the canonical text of the number in the
    radix, lower case and without leading zeros, with a minus sign for a negative
    number, and never leave their buffers; for the smallest number of each width the
    negation wraps and the text is still right. *)
Theorem integer_text_correct n radix :
  2 <= radix <= 36 ->
  (0 <= n < 2 ^ 32 -> exists ds, u32toa n = mret ds /\ text_of 10 n ds) /\
  (- 2 ^ 31 <= n < 2 ^ 31 -> exists ds, i32toa n = mret ds /\ signed_text 10 n ds) /\
  (0 <= n < 2 ^ 64 ->
    (exists ds, u64toa n = mret ds /\ text_of 10 n ds) /\
    (exists ds, u64toa_radix n radix = mret ds /\ text_of radix n ds)) /\
  (- 2 ^ 63 <= n < 2 ^ 63 ->
    (exists ds, i64toa n = mret ds /\ signed_text 10 n ds) /\
    (exists ds, i64toa_radix n radix = mret ds /\ signed_text radix n ds)).
Proof.
  intros Hr. split; [intros; apply u32toa_spec; lia|]. split; [apply i32toa_spec|].
  split; intros Hn; (split; [apply u64toa_spec || apply i64toa_spec; exact Hn|apply u64toa_radix_spec || apply i64toa_radix_spec; assumption]).
Qed.

(** The smallest 64-bit integer in radix 36 and in radix 10. *)
Lemma integer_text_witness :
  (exists ds, i64toa (- 2 ^ 63) = mret ds /\ signed_text 10 (- 2 ^ 63) ds) /\
  (exists ds, i64toa_radix (- 2 ^ 63) 36 = mret ds /\ signed_text 36 (- 2 ^ 63) ds).
Proof. apply (integer_text_correct (- 2 ^ 63) 36); lia. Defined.
