(* ===== verification/CharRange.v ===== *)
(** Sets of code points (libunicode.c, libunicode.h): definitions.

    A [CharRange] is an array of points in increasing order; the intervals from the
    even points (included) to the odd ones (excluded) are the set.  [cr_points] is
    the whole block of [cr_size] points, of which the first [cr_len] are in use. *)
From stdpp Require Import base tactics list numbers.
From Stdlib Require Import ZArith Lia.
From S2P Require Import Prelude Cutils Sort.

Open Scope Z_scope.

(** The content of the points that [realloc] adds. *)
Class RawPoints := { raw_point : nat -> Z }.

Definition UINT32_MAX : Z := 2 ^ 32 - 1.

Record CharRange : Type := MkCR {
  cr_len : Z;
  cr_size : Z;
  cr_points : list Z
}.

Inductive CharRangeOpEnum : Type := CR_OP_UNION | CR_OP_INTER | CR_OP_XOR | CR_OP_SUB.

Definition cr_init : CharRange := MkCR 0 0 [].

Section CharRange.
Context `{SC : SizeConfig} `{RP : RawPoints}.

(** [realloc] of the block to [n * sizeof(uint32_t)] bytes. *)
Definition grow_points (t : list Z) (n : Z) : list Z :=
  let n := Z.to_nat (wrap SIZE_BITS (n * 4) / 4) in
  take n t ++ (raw_point <$> seq (length t) (n - length t)).

Definition cr_realloc (cr : CharRange) (size : Z) : M (Z * CharRange) :=
  if cr_size cr <? size then
    t ← int_of (cr_size cr * 3);
    let new_size := Z.max size (t / 2) in
    ok ← try_alloc;
    if negb ok then mret (-1, cr)
    else mret (0, MkCR (cr_len cr) new_size (grow_points (cr_points cr) new_size))
  else mret (0, cr).

Definition cr_copy (cr cr1 : CharRange) : M (Z * CharRange) :=
  '(r, cr) ← cr_realloc cr (cr_len cr1);
  if negb (r =? 0) then mret (-1, cr)
  else
    src ← tab_slice (cr_points cr1) 0 (cr_len cr1);
    t ← tab_blit (cr_points cr) 0 src;
    mret (0, MkCR (cr_len cr1) (cr_size cr) t).

Definition cr_add_point (cr : CharRange) (v : Z) : M (Z * CharRange) :=
  '(r, cr) ← (if cr_size cr <=? cr_len cr then n ← int_of (cr_len cr + 1); cr_realloc cr n else mret (0, cr));
  if negb (r =? 0) then mret (-1, cr)
  else
    t ← tab_set (cr_points cr) (cr_len cr) v;
    mret (0, MkCR (cr_len cr + 1) (cr_size cr) t).

Definition cr_add_interval (cr : CharRange) (c1 c2 : Z) : M (Z * CharRange) :=
  n ← int_of (cr_len cr + 2);
  '(r, cr) ← (if cr_size cr <? n then cr_realloc cr n else mret (0, cr));
  if negb (r =? 0) then mret (-1, cr)
  else
    t ← tab_set (cr_points cr) (cr_len cr) c1;
    t ← tab_set t (cr_len cr + 1) c2;
    mret (0, MkCR (cr_len cr + 2) (cr_size cr) t).

(** [while ((j + 3) < len && pt[j + 1] == pt[j + 2]) j += 2]. *)
Fixpoint compress_run (fuel : nat) (pt : list Z) (len j : Z) : M Z :=
  match fuel with
  | O => undefined
  | S fuel =>
      if j + 3 <? len then
        a ← tab_get pt (j + 1);
        b ← tab_get pt (j + 2);
        if a =? b then compress_run fuel pt len (j + 2) else mret j
      else mret j
  end.

(** [while ((i + 1) < len)] of [cr_compress]. *)
Fixpoint compress_loop (fuel : nat) (pt : list Z) (len i k : Z) : M (list Z * Z) :=
  match fuel with
  | O => undefined
  | S fuel =>
      if i + 1 <? len then
        a ← tab_get pt i;
        b ← tab_get pt (i + 1);
        if a =? b then compress_loop fuel pt len (i + 2) k
        else
          j ← compress_run (length pt) pt len i;
          a ← tab_get pt i;
          pt ← tab_set pt k a;
          b ← tab_get pt (j + 1);
          pt ← tab_set pt (k + 1) b;
          compress_loop fuel pt len (j + 2) (k + 2)
      else mret (pt, k)
  end.

Definition cr_compress (cr : CharRange) : M CharRange :=
  '(pt, k) ← compress_loop (S (length (cr_points cr))) (cr_points cr) (cr_len cr) 0 0;
  mret (MkCR k (cr_size cr) pt).

(** The next point of [a] and [b] in increasing order and the indices after it. *)
Definition next_point (a_pt : list Z) (a_len : Z) (b_pt : list Z) (b_len : Z) (a_idx b_idx : Z) : M (option (Z * Z * Z)) :=
  if (a_idx <? a_len) && (b_idx <? b_len) then
    a ← tab_get a_pt a_idx;
    b ← tab_get b_pt b_idx;
    mret (if a <? b then Some (a, a_idx + 1, b_idx)
          else if a =? b then Some (a, a_idx + 1, b_idx + 1)
          else Some (b, a_idx, b_idx + 1))
  else if a_idx <? a_len then a ← tab_get a_pt a_idx; mret (Some (a, a_idx + 1, b_idx))
  else if b_idx <? b_len then b ← tab_get b_pt b_idx; mret (Some (b, a_idx, b_idx + 1))
  else mret None.

Definition op_status (op : CharRangeOpEnum) (a_idx b_idx : Z) : Z :=
  match op with
  | CR_OP_UNION => Z.lor (Z.land a_idx 1) (Z.land b_idx 1)
  | CR_OP_INTER => Z.land (Z.land a_idx 1) (Z.land b_idx 1)
  | CR_OP_XOR => Z.lxor (Z.land a_idx 1) (Z.land b_idx 1)
  | CR_OP_SUB => Z.land (Z.land a_idx 1) (Z.lxor (Z.land b_idx 1) 1)
  end.

(** [for(;;)] of [cr_op]. *)
Fixpoint op_loop (fuel : nat) (cr : CharRange) (a_pt : list Z) (a_len : Z) (b_pt : list Z) (b_len : Z) (op : CharRangeOpEnum)
    (a_idx b_idx : Z) : M (Z * CharRange) :=
  match fuel with
  | O => undefined
  | S fuel =>
      n ← next_point a_pt a_len b_pt b_len a_idx b_idx;
      match n with
      | None => mret (0, cr)
      | Some (v, a_idx, b_idx) =>
          if negb (op_status op a_idx b_idx =? Z.land (cr_len cr) 1) then
            '(r, cr) ← cr_add_point cr v;
            if negb (r =? 0) then mret (-1, cr)
            else op_loop fuel cr a_pt a_len b_pt b_len op a_idx b_idx
          else op_loop fuel cr a_pt a_len b_pt b_len op a_idx b_idx
      end
  end.

Definition cr_op (cr : CharRange) (a_pt : list Z) (a_len : Z) (b_pt : list Z) (b_len : Z) (op : CharRangeOpEnum) : M (Z * CharRange) :=
  '(r, cr) ← op_loop (S (length a_pt + length b_pt)) cr a_pt a_len b_pt b_len op 0 0;
  if negb (r =? 0) then mret (-1, cr)
  else cr ← cr_compress cr; mret (0, cr).

Definition cr_op1 (cr : CharRange) (b_pt : list Z) (b_len : Z) (op : CharRangeOpEnum) : M (Z * CharRange) :=
  cr_op cr_init (cr_points cr) (cr_len cr) b_pt b_len op.

Definition cr_union_interval (cr : CharRange) (c1 c2 : Z) : M (Z * CharRange) :=
  cr_op1 cr [c1; wrap 32 (c2 + 1)] 2 CR_OP_UNION.

Definition cr_invert (cr : CharRange) : M (Z * CharRange) :=
  let len := cr_len cr in
  n ← int_of (len + 2);
  '(r, cr) ← cr_realloc cr n;
  if negb (r =? 0) then mret (-1, cr)
  else
    src ← tab_slice (cr_points cr) 0 len;
    t ← tab_blit (cr_points cr) 1 src;
    t ← tab_set t 0 0;
    t ← tab_set t (len + 1) UINT32_MAX;
    cr ← cr_compress (MkCR n (cr_size cr) t);
    mret (0, cr).

(** ** Sorting *)

(** The points of an array two by two, and back. *)
Fixpoint to_pairs (l : list Z) : list (Z * Z) :=
  match l with
  | a :: b :: l => (a, b) :: to_pairs l
  | _ => []
  end.

Definition of_pairs (l : list (Z * Z)) : list Z := l ≫= fun '(a, b) => [a; b].

Definition point_cmp (p1 p2 : Z * Z) : M Z :=
  mret (c_bool (fst p2 <? fst p1) - c_bool (fst p1 <? fst p2)).

(** [while (i < cr->len)]: the end of the interval that starts before [i], after
    the intervals that begin inside it. *)
Fixpoint overlap_run (fuel : nat) (pt : list Z) (len i end_ : Z) : M (Z * Z) :=
  match fuel with
  | O => undefined
  | S fuel =>
      if i <? len then
        start1 ← tab_get pt i;
        end1 ← tab_get pt (i + 1);
        if end_ <? start1 then mret (i, end_)
        else if end1 <=? end_ then overlap_run fuel pt len (i + 2) end_
        else overlap_run fuel pt len (i + 2) end1
      else mret (i, end_)
  end.

Fixpoint overlap_loop (fuel : nat) (pt : list Z) (len i j : Z) : M (list Z * Z) :=
  match fuel with
  | O => undefined
  | S fuel =>
      if i <? len then
        start ← tab_get pt i;
        end_ ← tab_get pt (i + 1);
        '(i, end_) ← overlap_run (length pt) pt len (i + 2) end_;
        pt ← tab_set pt j start;
        pt ← tab_set pt (j + 1) end_;
        overlap_loop fuel pt len i (j + 2)
      else mret (pt, j)
  end.

Definition cr_sort_and_remove_overlap (cr : CharRange) : M CharRange :=
  let n := 2 * (cr_len cr / 2) in
  src ← tab_slice (cr_points cr) 0 n;
  ps ← rqsort point_cmp (to_pairs src);
  pt ← tab_blit (cr_points cr) 0 (of_pairs ps);
  '(pt, j) ← overlap_loop (S (length pt)) pt (cr_len cr) 0 0;
  mret (MkCR j (cr_size cr) pt).

End CharRange.
