(* ===== verification/CharRangeOps.v ===== *)
(** Sets of code points: the set of an array of points, the blocks of memory, and
    the set operations of [cr_op].

    Sets of code points: [cr_compress] and the loop of [cr_op]. *)
From Stdlib Require Import ZArith Lia Sorting.Sorted.
From S2P Require Import Prelude Cutils CharRange.
From stdpp Require Import base tactics numbers list.

Open Scope Z_scope.

(** ** The set of an array of points *)

(** A number is in the set when an odd number of points is at or before it. *)
Fixpoint inside (l : list Z) (x : Z) : bool :=
  match l with
  | [] => false
  | p :: l => xorb (p <=? x) (inside l x)
  end.

Notation sorted := (StronglySorted Z.le).
Notation increasing := (StronglySorted Z.lt).

Lemma inside_app a b x : inside (a ++ b) x = xorb (inside a x) (inside b x).
Proof. induction a as [|p a IH]; cbn; [destruct (inside b x); reflexivity|]. rewrite IH, xorb_assoc. reflexivity. Qed.

Lemma odd_S n : Nat.odd (S n) = negb (Nat.odd n).
Proof. rewrite Nat.odd_succ, <- Nat.negb_odd. reflexivity. Qed.

Lemma inside_after l x : Forall (fun p => p <= x) l -> inside l x = Nat.odd (length l).
Proof.
  induction 1 as [|p l Hp _ IH]; [reflexivity|]. cbn [inside length]. rewrite odd_S, IH, (proj2 (Z.leb_le p x) Hp). reflexivity.
Qed.

Lemma inside_before l x : Forall (fun p => x < p) l -> inside l x = false.
Proof. induction 1 as [|p l Hp _ IH]; [reflexivity|]. cbn [inside]. rewrite IH, (proj2 (Z.leb_gt p x) Hp). reflexivity. Qed.

Lemma points_sorted_app (R : Z -> Z -> Prop) a b : StronglySorted R a -> StronglySorted R b -> (forall p q, p ∈ a -> q ∈ b -> R p q) -> StronglySorted R (a ++ b).
Proof.
  intros Ha Hb Hab. induction Ha as [|p a Ha IH Hp]; [exact Hb|]. cbn. constructor.
  - apply IH. intros r q Hr Hq. apply Hab; [right; exact Hr|exact Hq].
  - apply Forall_app. split; [exact Hp|]. apply Forall_forall. intros q Hq. apply Hab; [left|exact Hq].
Qed.

Lemma points_sorted_app_inv (R : Z -> Z -> Prop) a b : StronglySorted R (a ++ b) -> StronglySorted R a /\ StronglySorted R b /\ (forall p q, p ∈ a -> q ∈ b -> R p q).
Proof.
  induction a as [|p a IH]; cbn; intros H; [repeat split; [constructor|exact H|intros p q Hp; inversion Hp]|].
  apply StronglySorted_inv in H. destruct H as [H1 H2]. apply Forall_app in H2. destruct H2 as [H2 H3]. destruct (IH H1) as (I1 & I2 & I3).
  split; [constructor; assumption|]. split; [exact I2|]. intros r q Hr Hq. inversion Hr; subst; [|apply I3; assumption].
  rewrite Forall_forall in H3. apply H3, Hq.
Qed.

(** The intervals of a sorted array. *)
Lemma inside_intervals l x :
  sorted l -> Nat.even (length l) = true ->
  inside l x = true <-> exists i a b, l !! (2 * i)%nat = Some a /\ l !! (2 * i + 1)%nat = Some b /\ a <= x < b.
Proof.
  intros Hs He. assert (exists n, length l = 2 * n)%nat as [n Hn] by (apply Nat.even_spec in He; destruct He as [n ->]; eauto).
  clear He. revert l Hs Hn. induction n as [|n IH]; intros l Hs Hn.
  - destruct l; [|discriminate]. split; [discriminate|]. intros (i & a & b & H & _). rewrite lookup_nil in H. discriminate.
  - destruct l as [|a [|b l]]; [discriminate|cbn in Hn; lia|]. apply StronglySorted_inv in Hs. destruct Hs as [Hs Ha].
    apply StronglySorted_inv in Hs. destruct Hs as [Hs Hb]. cbn [inside]. specialize (IH l Hs ltac:(cbn in Hn; lia)).
    apply Forall_cons in Ha. destruct Ha as [Hab _]. rewrite <- xorb_assoc.
    destruct (Z.leb_spec b x) as [Hbx|Hbx].
    + rewrite (proj2 (Z.leb_le a x)) by lia. change (xorb (xorb true true) (inside l x)) with (inside l x). rewrite IH. split.
      * intros (i & c & d & H1 & H2 & H3). exists (S i), c, d. replace (2 * S i)%nat with (S (S (2 * i))) by lia.
        replace (S (S (2 * i)) + 1)%nat with (S (S (2 * i + 1))) by lia. auto.
      * intros (i & c & d & H1 & H2 & H3). destruct i as [|i]; [cbn in H1, H2; injection H1 as <-; injection H2 as <-; lia|].
        replace (2 * S i)%nat with (S (S (2 * i))) in * by lia. replace (S (S (2 * i)) + 1)%nat with (S (S (2 * i + 1))) in * by lia. eauto 6.
    + rewrite inside_before by (eapply Forall_impl; [exact Hb|]; cbn; intros; lia). rewrite !xorb_false_r. split.
      * intros H%Z.leb_le. exists O, a, b. cbn. auto.
      * intros (i & c & d & H1 & H2 & H3). apply Z.leb_le. destruct i as [|i]; [cbn in H1; injection H1 as <-; lia|].
        replace (2 * S i)%nat with (S (S (2 * i))) in * by lia. cbn in H1. rewrite Forall_forall in Hb. pose proof (Hb c (list_elem_of_lookup_2 _ _ _ H1)). lia.
Qed.

(** An array with strictly increasing points is the only one of its set. *)
Lemma inside_unique a b : increasing a -> increasing b -> (forall x, inside a x = inside b x) -> a = b.
Proof.
  revert b. induction a as [|p a IH]; intros b Ha Hb H.
  - destruct b as [|q b]; [reflexivity|]. apply StronglySorted_inv in Hb. destruct Hb as [_ Hq]. specialize (H q). cbn in H.
    rewrite Z.leb_refl, inside_before in H by exact Hq. discriminate.
  - apply StronglySorted_inv in Ha. destruct Ha as [Ha Hp]. destruct b as [|q b].
    { specialize (H p). cbn in H. rewrite Z.leb_refl, inside_before in H by exact Hp. discriminate. }
    apply StronglySorted_inv in Hb. destruct Hb as [Hb Hq].
    assert (p = q) as <-.
    { destruct (Z.lt_trichotomy p q) as [Hpq|[Hpq|Hpq]]; [|exact Hpq|].
      - specialize (H p). cbn in H. rewrite Z.leb_refl, (proj2 (Z.leb_gt q p)), !inside_before in H by (lia || exact Hp || (eapply Forall_impl; [exact Hq|]; cbn; intros; lia)). discriminate.
      - specialize (H q). cbn in H. rewrite Z.leb_refl, (proj2 (Z.leb_gt p q)), !inside_before in H by (lia || exact Hq || (eapply Forall_impl; [exact Hp|]; cbn; intros; lia)). discriminate. }
    f_equal. apply IH; [exact Ha|exact Hb|]. intros x. specialize (H x). cbn [inside] in H. destruct (p <=? x), (inside a x), (inside b x); cbn in H; congruence.
Qed.

(** ** Blocks *)

Definition content (cr : CharRange) : list Z := take (Z.to_nat (cr_len cr)) (cr_points cr).

(** The block has the size that is recorded and the points in use fit in it. *)
Definition cr_block (cr : CharRange) : Prop :=
  len (cr_points cr) = cr_size cr /\ 0 <= cr_len cr <= cr_size cr /\ cr_size cr < 2 ^ 30.

(** The largest size that can grow, [size * 3] being an [int]. *)
Definition CR_GROW : Z := (2 ^ 31 - 1) / 3.

Lemma content_len cr : cr_block cr -> len (content cr) = cr_len cr.
Proof. intros (H1 & H2 & H3). unfold content, len in *. rewrite length_take. lia. Qed.

Lemma content_split cr : cr_block cr -> exists junk, cr_points cr = content cr ++ junk /\ len junk = cr_size cr - cr_len cr.
Proof.
  intros H. pose proof (content_len cr H) as Hc. destruct H as (H1 & H2 & H3). exists (drop (Z.to_nat (cr_len cr)) (cr_points cr)).
  unfold content. rewrite take_drop. split; [reflexivity|]. unfold len in *. rewrite length_drop. lia.
Qed.

Lemma block_of l junk : len (l ++ junk) < 2 ^ 30 -> cr_block (MkCR (len l) (len (l ++ junk)) (l ++ junk)) /\ content (MkCR (len l) (len (l ++ junk)) (l ++ junk)) = l.
Proof.
  intros H. unfold cr_block, content, len in *. cbn [cr_len cr_size cr_points]. rewrite length_app in *. split; [lia|].
  rewrite Nat2Z.id. apply take_app_length.
Qed.

(** What a failed operation leaves. *)
Definition refused (G : Prop) (q : Z * CharRange) : Prop := fst q = -1 /\ cr_block (snd q) /\ ~ G.

Section Specs.
Context `{SC : SizeConfig} `{RP : RawPoints} (G : Prop).

Lemma grow_points_spec t n : len t <= n < 2 ^ 30 -> exists junk, grow_points t n = t ++ junk /\ len (t ++ junk) = n.
Proof.
  intros Hn. unfold grow_points. pose proof (len_nonneg t).
  assert (wrap SIZE_BITS (n * 4) / 4 = n) as ->.
  { rewrite wrap_small; [apply Z.div_mul; lia|]. destruct size_bits_cases as [-> | ->]; lia. }
  unfold len in *. rewrite take_ge by lia. eexists. split; [reflexivity|]. rewrite length_app, length_fmap, length_seq. lia.
Qed.

Definition resized (n : Z) (cr : CharRange) (q : Z * CharRange) : Prop :=
  fst q = 0 /\ cr_block (snd q) /\ n <= cr_size (snd q) /\ cr_len (snd q) = cr_len cr /\ content (snd q) = content cr /\
  cr_size (snd q) = (if cr_size cr <? n then Z.max n (cr_size cr * 3 / 2) else cr_size cr).

Lemma cr_realloc_spec E cr n :
  cr_block cr -> n < 2 ^ 30 -> (cr_size cr < n -> cr_size cr <= CR_GROW) ->
  gspec G (cr_realloc cr n) (fun q => resized n cr q \/ q = (-1, cr) /\ ~ G) E.
Proof.
  intros Hb Hn Hg. unfold cr_realloc, resized. destruct (Z.ltb_spec (cr_size cr) n) as [Hlt|Hge].
  - specialize (Hg Hlt). pose proof Hb as (H1 & H2 & H3). unfold CR_GROW in Hg. change ((2 ^ 31 - 1) / 3) with 715827882 in Hg.
    unfold int_of. rewrite (proj2 (Z.leb_le _ _)), (proj2 (Z.ltb_lt _ _)) by lia. cbn [andb]. rewrite ret_bind.
    pose proof (Z.div_mod (cr_size cr * 3) 2 ltac:(lia)). pose proof (Z.mod_pos_bound (cr_size cr * 3) 2 ltac:(lia)).
    set (m := Z.max n (cr_size cr * 3 / 2)). assert (cr_size cr <= m < 2 ^ 30) as Hm by (unfold m; lia).
    eapply gspec_bind; [apply gspec_try_alloc|]. intros ok Hok. destruct ok; cbn [negb]; apply gspec_ret.
    + left. destruct (content_split cr Hb) as (junk & Ej & Lj). destruct (grow_points_spec (cr_points cr) m ltac:(lia)) as (junk' & -> & Hl).
      cbn [fst snd cr_size cr_len]. split; [reflexivity|]. unfold cr_block, content. cbn [cr_len cr_size cr_points]. split; [lia|]. split; [unfold m; lia|]. split; [reflexivity|].
      split; [|reflexivity]. apply take_app_le. unfold len in *. lia.
    + right. split; [reflexivity|apply Hok; reflexivity].
  - apply gspec_ret. left. cbn [fst snd]. auto 7.
Qed.

(** Blocks that grew one point at a time. *)
Definition snug (cr : CharRange) : Prop := 2 * cr_size cr <= 3 * cr_len cr + 2.

Definition pushed (l : list Z) (q : Z * CharRange) : Prop :=
  fst q = 0 /\ cr_block (snd q) /\ snug (snd q) /\ content (snd q) = l.

Lemma set_next cr v : cr_block cr -> cr_len cr < cr_size cr -> exists t,
  tab_set (cr_points cr) (cr_len cr) v = mret t /\ cr_block (MkCR (cr_len cr + 1) (cr_size cr) t) /\ content (MkCR (cr_len cr + 1) (cr_size cr) t) = content cr ++ [v].
Proof.
  intros Hb Hl. pose proof (content_len cr Hb) as Hc. destruct (content_split cr Hb) as (junk & Ej & Lj). destruct Hb as (H1 & H2 & H3).
  destruct junk as [|y junk]; [change (len (@nil Z)) with 0 in Lj; lia|]. rewrite Ej, tab_set_app by (symmetry; exact Hc). eexists. split; [reflexivity|].
  rewrite Ej in H1. rewrite len_app, len_cons in H1. destruct (block_of (content cr ++ [v]) junk) as [B1 B2]; [rewrite !len_app; unfold len in *; cbn; lia|].
  rewrite <- app_assoc in B1, B2. cbn [app] in B1, B2. replace (len (content cr ++ [v])) with (cr_len cr + 1) in B1, B2 by (rewrite len_app, Hc; reflexivity).
  replace (len (content cr ++ v :: junk)) with (cr_size cr) in B1, B2 by (rewrite len_app, len_cons; lia). auto.
Qed.

Lemma cr_add_point_spec E cr v :
  cr_block cr -> snug cr -> cr_len cr <= 2 ^ 29 ->
  gspec G (cr_add_point cr v) (fun q => pushed (content cr ++ [v]) q \/ refused G q) E.
Proof.
  intros Hb Hs Hl. unfold cr_add_point. pose proof Hb as (H1 & H2 & H3). eapply gspec_bind with (R := fun q => fst q = 0 /\ cr_block (snd q) /\ snug (MkCR (cr_len cr + 1) (cr_size (snd q)) []) /\ cr_len (snd q) = cr_len cr /\ content (snd q) = content cr /\ cr_len (snd q) < cr_size (snd q) \/ q = (-1, cr) /\ ~ G).
  - destruct (Z.leb_spec (cr_size cr) (cr_len cr)) as [Hf|Hf].
    + unfold int_of. rewrite (proj2 (Z.leb_le _ _)), (proj2 (Z.ltb_lt _ _)) by lia. cbn [andb]. rewrite ret_bind.
      eapply gspec_mono with (E := E); [apply (cr_realloc_spec E cr (cr_len cr + 1) Hb); [lia|unfold CR_GROW; change ((2 ^ 31 - 1) / 3) with 715827882; lia]| |auto].
      intros q [(Q1 & Q2 & Q3 & Q4 & Q5 & Q6)|H]; [left|right; exact H]. rewrite (proj2 (Z.ltb_lt _ _)) in Q6 by lia.
      pose proof (Z.div_mod (cr_size cr * 3) 2 ltac:(lia)). pose proof (Z.mod_pos_bound (cr_size cr * 3) 2 ltac:(lia)).
      split; [exact Q1|]. split; [exact Q2|]. split; [unfold snug; cbn [cr_size cr_len]; lia|]. split; [exact Q4|]. split; [exact Q5|lia].
    + apply gspec_ret. left. cbn [fst snd]. split; [reflexivity|]. split; [exact Hb|]. split; [unfold snug in *; cbn [cr_size cr_len]; lia|]. split; [reflexivity|]. split; [reflexivity|lia].
  - intros [r cr'] [(Q1 & Q2 & Q3 & Q4 & Q5 & Q6)|[[= -> ->] Hn]]; cbn [fst snd] in *.
    + subst r. cbn [Z.eqb negb]. destruct (set_next cr' v Q2 Q6) as (t & -> & B1 & B2). rewrite ret_bind. apply gspec_ret. left.
      split; [reflexivity|]. cbn [snd]. split; [exact B1|]. split; [unfold snug in *; cbn [cr_len cr_size] in *; lia|congruence].
    + cbn [Z.eqb negb]. apply gspec_ret. right. split; [reflexivity|]. split; [exact Hb|exact Hn].
Qed.

End Specs.

(** ** Loops that write to the part of the array they have read *)

Lemma put_two {A} (done mid rest : list A) k x y :
  k = len done -> 2 <= len mid -> exists t1 mid',
    tab_set (done ++ mid ++ rest) k x = mret t1 /\
    (forall i v, k < i -> tab_get (done ++ mid ++ rest) i = mret v -> tab_get t1 i = mret v) /\
    tab_set t1 (k + 1) y = mret ((done ++ [x; y]) ++ mid' ++ rest) /\ len mid' = len mid - 2.
Proof.
  intros -> Hm. destruct mid as [|m0 [|m1 mid']]; [unfold len in Hm; cbn in Hm; lia..|].
  exists (done ++ x :: m1 :: mid' ++ rest), mid'. cbn [app]. split; [apply tab_set_app; reflexivity|]. split.
  - intros i v Hi Hv. pose proof (len_nonneg done). unfold tab_get in *. rewrite (proj2 (Z.leb_le 0 i)) in * by lia. unfold len in Hi.
    rewrite lookup_app_r in * by lia. destruct (Z.to_nat i - length done)%nat as [|n] eqn:En; [lia|]. exact Hv.
  - split; [|rewrite !len_cons; lia]. replace (done ++ x :: m1 :: mid' ++ rest) with ((done ++ [x]) ++ m1 :: mid' ++ rest) by (rewrite <- app_assoc; reflexivity).
    rewrite tab_set_app by (rewrite len_app; reflexivity). rewrite <- !app_assoc. reflexivity.
Qed.

Section Ops.
Context `{SC : SizeConfig} `{RP : RawPoints} (G : Prop).

(** ** cr_compress *)

Lemma even_SS n : Nat.even (S (S n)) = Nat.even n.
Proof. reflexivity. Qed.

Lemma compress_run_spec fuel : forall pre y w junk j n,
  j + 1 = len pre -> n = j + 2 + len w -> Nat.even (length w) = true -> len w < Z.of_nat fuel ->
  exists run y' w',
    compress_run fuel (pre ++ (y :: w) ++ junk) n j = mret (j + len run) /\ y :: w = run ++ y' :: w' /\ Nat.even (length w') = true /\
    (forall x, inside (y :: w) x = inside (y' :: w') x) /\ (forall z, head w' = Some z -> y' <> z).
Proof.
  induction fuel as [|fuel IH]; intros pre y w junk j n Hj Hn He Hf; [pose proof (len_nonneg w); lia|]. cbn [compress_run].
  destruct w as [|z [|u w]]; [|discriminate|].
  - rewrite (proj2 (Z.ltb_ge _ _)) by (unfold len in Hn; cbn in Hn; lia). exists [], y, []. cbn. rewrite Z.add_0_r. repeat split. discriminate.
  - rewrite !len_cons in *. pose proof (len_nonneg w). rewrite (proj2 (Z.ltb_lt _ _)) by lia.
    cbn [app]. rewrite (tab_get_app pre y _ (j + 1)), ret_bind by lia.
    replace (tab_get (pre ++ y :: z :: u :: w ++ junk) (j + 2)) with (mret z : M Z).
    2:{ symmetry. change (pre ++ y :: z :: u :: w ++ junk) with (pre ++ [y] ++ z :: u :: w ++ junk). rewrite app_assoc. apply tab_get_app. rewrite len_app. unfold len in *. cbn. lia. }
    rewrite ret_bind. destruct (Z.eqb_spec y z) as [<-|Hyz].
    + destruct (IH (pre ++ [y; y]) u w junk (j + 2) n) as (run & y' & w' & R1 & R2 & R3 & R4 & R5); [rewrite len_app; unfold len in *; cbn; lia|lia|exact He|lia|].
      rewrite <- app_assoc in R1. cbn [app] in R1. rewrite R1. exists (y :: y :: run), y', w'. rewrite !len_cons. split; [f_equal; lia|]. split; [cbn; rewrite R2; reflexivity|].
      split; [exact R3|]. split; [|exact R5]. intros x. rewrite <- R4. cbn. destruct (y <=? x), (u <=? x), (inside w x); reflexivity.
    + exists [], y, (z :: u :: w). cbn [app]. rewrite Z.add_0_r. repeat split; [exact He|]. intros z' [= <-]. exact Hyz.
Qed.

(** The interval [a, y) that the run of intervals at the start of [a :: b :: rest]
    becomes, before the points [w]. *)
Definition merged (a b : Z) (rest : list Z) (y : Z) (w : list Z) : Prop :=
  a < y /\ sorted w /\ (forall q, q ∈ w -> y < q) /\ Nat.even (length w) = true /\ (length w <= length rest)%nat /\
  (forall x, inside (a :: b :: rest) x = inside (a :: y :: w) x).

Lemma merged_of a b rest run y w :
  sorted (a :: b :: rest) -> a <> b -> b :: rest = run ++ y :: w -> Nat.even (length w) = true ->
  (forall x, inside (b :: rest) x = inside (y :: w) x) -> (forall z, head w = Some z -> y <> z) -> merged a b rest y w.
Proof.
  intros Hs Hne E Hev Hin Hh. apply StronglySorted_inv in Hs. destruct Hs as [Hs Ha]. rewrite E in Hs. apply points_sorted_app_inv in Hs. destruct Hs as (_ & Sw & Hrun).
  apply StronglySorted_inv in Sw. destruct Sw as [Sw Hy]. rewrite Forall_forall in Ha, Hy. split; [|split; [exact Sw|split; [|split; [exact Hev|split]]]].
  - assert (a <= b) by (apply Ha; left). destruct run as [|r run]; [injection E as <- _; lia|]. injection E as <- E.
    assert (b <= y) by (apply Hrun; left). lia.
  - intros q Hq. destruct w as [|z w]; [inversion Hq|]. specialize (Hh z eq_refl). assert (y <= z) by (apply Hy; left).
    apply StronglySorted_inv in Sw. destruct Sw as [_ Sw]. rewrite Forall_forall in Sw. inversion Hq as [|? ? ? Hq']; subst; [lia|]. specialize (Sw q Hq'). lia.
  - apply (f_equal length) in E. rewrite length_app in E. cbn in E. lia.
  - intros x. cbn [inside] in *. rewrite Hin. reflexivity.
Qed.

Lemma merge_step done mid a b rest junk i k n {B} (f : list Z -> Z -> M B) :
  k = len done -> i = len done + len mid -> n = i + len (a :: b :: rest) -> Nat.even (length rest) = true -> sorted (a :: b :: rest) -> a <> b ->
  let pt := done ++ mid ++ (a :: b :: rest) ++ junk in
  exists y w mid' j,
    (j ← compress_run (length pt) pt n i; a ← (mret a : M Z); pt ← tab_set pt k a; b ← tab_get pt (j + 1); pt ← tab_set pt (k + 1) b; f pt j)
    = f ((done ++ [a; y]) ++ mid' ++ w ++ junk) j /\
    j + 2 = len done + 2 + len mid' /\ n = j + 2 + len w /\ merged a b rest y w.
Proof.
  intros Hk Hi Hn He Hs Hne pt. assert (len (a :: b :: rest) = 2 + len rest) as Hl by (rewrite !len_cons; lia).
  assert (pt = (done ++ mid ++ [a]) ++ (b :: rest) ++ junk) as E2 by (unfold pt; rewrite <- !app_assoc; reflexivity).
  destruct (compress_run_spec (length pt) (done ++ mid ++ [a]) b rest junk i n) as (run & y & w & R1 & R2 & R3 & R4 & R5);
    [rewrite !len_app; unfold len in *; cbn; lia|lia|exact He|unfold pt, len; rewrite !length_app; cbn [length]; lia|].
  rewrite <- E2 in R1. rewrite R1, !ret_bind.
  assert (pt = done ++ (mid ++ [a] ++ run ++ [y]) ++ (w ++ junk)) as E3 by (rewrite E2, R2, <- !app_assoc; reflexivity).
  pose proof (len_nonneg run). pose proof (len_nonneg mid).
  destruct (put_two done (mid ++ [a] ++ run ++ [y]) (w ++ junk) k a y) as (t1 & mid' & T1 & T2 & T3 & T4); [exact Hk|rewrite !len_app; unfold len in *; cbn; lia|].
  rewrite <- E3 in T1, T2. rewrite T1, ret_bind. rewrite (T2 (i + len run + 1) y), ret_bind, T3, ret_bind.
  2:{ lia. }
  2:{ rewrite E2, R2, <- (app_assoc run), app_assoc. apply tab_get_app. rewrite !len_app. unfold len in *. cbn. lia. }
  exists y, w, mid', (i + len run). split; [reflexivity|]. apply (f_equal len) in R2 as R2'. rewrite !len_app, !len_cons in *.
  change (len (@nil Z)) with 0 in *. split; [lia|]. split; [lia|]. exact (merged_of a b rest run y w Hs Hne R2 R3 R4 R5).
Qed.

Lemma compress_loop_spec fuel : forall done mid rest junk i k n,
  k = len done -> i = len done + len mid -> n = i + len rest -> Nat.even (length rest) = true -> (length rest < fuel)%nat ->
  increasing done -> sorted rest -> (forall p q, p ∈ done -> q ∈ rest -> p < q) -> Nat.even (length done) = true ->
  exists out tail,
    compress_loop fuel (done ++ mid ++ rest ++ junk) n i k = mret (out ++ tail, len out) /\ len (out ++ tail) = len (done ++ mid ++ rest ++ junk) /\
    increasing out /\ Nat.even (length out) = true /\ (forall x, inside out x = xorb (inside done x) (inside rest x)).
Proof.
  induction fuel as [|fuel IH]; intros done mid rest junk i k n Hk Hi Hn He Hf Hd Hs Hdr Hed; [lia|]. cbn [compress_loop].
  destruct rest as [|a [|b rest]]; [|discriminate|].
  { rewrite (proj2 (Z.ltb_ge _ _)) by (unfold len in Hn; cbn in Hn; lia). exists done, (mid ++ junk). subst k. cbn [app].
    split; [reflexivity|]. split; [reflexivity|]. split; [exact Hd|]. split; [exact Hed|]. intros x. cbn. rewrite xorb_false_r. reflexivity. }
  assert (len (a :: b :: rest) = 2 + len rest) as Hl by (rewrite !len_cons; lia). pose proof (len_nonneg rest). rewrite (proj2 (Z.ltb_lt _ _)) by lia.
  replace (tab_get _ i) with (mret a : M Z) by (symmetry; cbn [app]; rewrite app_assoc; apply tab_get_app; rewrite len_app; lia).
  replace (tab_get _ (i + 1)) with (mret b : M Z)
    by (symmetry; cbn [app]; rewrite app_assoc; change (a :: b :: rest ++ junk) with ([a] ++ b :: rest ++ junk); rewrite app_assoc; apply tab_get_app; rewrite !len_app; unfold len in *; cbn; lia).
  rewrite !ret_bind. destruct (Z.eqb_spec a b) as [<-|Hne].
  - destruct (IH done (mid ++ [a; a]) rest junk (i + 2) k n) as (out & tail & O1 & O2 & O3 & O4 & O5);
      [exact Hk|rewrite len_app; unfold len in *; cbn; lia|lia|exact He|cbn in Hf; lia|exact Hd| | |exact Hed|].
    + apply StronglySorted_inv in Hs. destruct Hs as [Hs _]. apply StronglySorted_inv in Hs. apply Hs.
    + intros p q Hp Hq. apply Hdr; [exact Hp|]. right. right. exact Hq.
    + rewrite <- app_assoc in O1, O2. exists out, tail. split; [exact O1|]. split; [exact O2|]. split; [exact O3|]. split; [exact O4|].
      intros x. rewrite O5. cbn. destruct (a <=? x), (inside rest x), (inside done x); reflexivity.
  - destruct (merge_step done mid a b rest junk i k n (fun pt j => compress_loop fuel pt n (j + 2) (k + 2)) Hk Hi Hn He Hs Hne)
      as (y & w & mid' & j & -> & Ej & En & M1 & M2 & M3 & M4 & M5 & M6).
    destruct (IH (done ++ [a; y]) mid' w junk (j + 2) (k + 2) n) as (out & tail & O1 & O2 & O3 & O4 & O5);
      [rewrite len_app; unfold len in *; cbn; lia|rewrite len_app; unfold len in *; cbn; lia|exact En|exact M4|cbn in Hf; lia| |exact M2| | |].
    + apply points_sorted_app; [exact Hd|repeat constructor; exact M1|]. intros p q Hp Hq. assert (p < a) by (apply Hdr; [exact Hp|left]).
      apply elem_of_cons in Hq. destruct Hq as [->|Hq]; [assumption|]. apply list_elem_of_singleton in Hq. lia.
    + intros p q Hp Hq. specialize (M3 q Hq). apply elem_of_app in Hp. destruct Hp as [Hp|Hp]; [assert (p < a) by (apply Hdr; [exact Hp|left]); lia|].
      apply elem_of_cons in Hp. destruct Hp as [->|Hp]; [lia|]. apply list_elem_of_singleton in Hp. lia.
    + rewrite length_app, Nat.add_comm. exact Hed.
    + exists out, tail. split; [exact O1|]. split; [rewrite O2, !len_app; rewrite !len_cons; change (len (@nil Z)) with 0; lia|]. split; [exact O3|]. split; [exact O4|].
      intros x. rewrite O5, M6, inside_app. cbn [inside]. destruct (inside done x), (a <=? x), (y <=? x), (inside w x); reflexivity.
Qed.

(** The result of an operation: increasing points, as many starts as ends, and the
    set [f]. *)
Definition canonical (f : Z -> bool) (cr : CharRange) : Prop :=
  cr_block cr /\ increasing (content cr) /\ Nat.even (length (content cr)) = true /\ forall x, inside (content cr) x = f x.

Lemma cr_compress_spec cr :
  cr_block cr -> sorted (content cr) -> Nat.even (length (content cr)) = true ->
  exists cr', cr_compress cr = mret cr' /\ canonical (inside (content cr)) cr'.
Proof.
  intros Hb Hs He. pose proof (content_len cr Hb) as Hc. destruct (content_split cr Hb) as (junk & Ej & _). destruct Hb as (H1 & H2 & H3). unfold cr_compress.
  destruct (compress_loop_spec (S (length (cr_points cr))) [] [] (content cr) junk 0 0 (cr_len cr)) as (out & tail & O1 & O2 & O3 & O4 & O5);
    [reflexivity|reflexivity|lia|exact He|rewrite Ej, length_app; lia|constructor|exact Hs|intros p q Hp; inversion Hp|reflexivity|].
  cbn [app] in O1, O2. rewrite <- Ej in O1, O2. rewrite O1, ret_bind. eexists. split; [reflexivity|].
  destruct (block_of out tail) as [B1 B2]; [lia|]. replace (cr_size cr) with (len (out ++ tail)) by lia. split; [exact B1|]. rewrite B2. split; [exact O3|]. split; [exact O4|].
  intros x. rewrite O5. destruct (inside (content cr) x); reflexivity.
Qed.

(** ** cr_op *)

Definition opb (op : CharRangeOpEnum) (a b : bool) : bool :=
  match op with
  | CR_OP_UNION => a || b
  | CR_OP_INTER => a && b
  | CR_OP_XOR => xorb a b
  | CR_OP_SUB => a && negb b
  end.

Lemma land_1_odd (l : list Z) : Z.land (len l) 1 = c_bool (Nat.odd (length l)).
Proof.
  change 1 with (Z.ones 1). rewrite Z.land_ones by lia. unfold len. induction (length l) as [|n IH]; [reflexivity|].
  rewrite odd_S, Nat2Z.inj_succ. change (2 ^ 1) with 2 in *. unfold Z.succ. rewrite Z.add_mod, IH by lia. destruct (Nat.odd n); reflexivity.
Qed.

Lemma op_status_spec op (a b : list Z) : op_status op (len a) (len b) = c_bool (opb op (Nat.odd (length a)) (Nat.odd (length b))).
Proof. unfold op_status. rewrite !land_1_odd. destruct op, (Nat.odd (length a)), (Nat.odd (length b)); reflexivity. Qed.

(** [a1] and [b1] are read, [o] is written, [rest] is left to read. *)
Record op_inv (op : CharRangeOpEnum) (a1 b1 o rest : list Z) : Prop := {
  oi_sorted : sorted o;
  oi_before : forall p q, p ∈ a1 ++ b1 ++ o -> q ∈ rest -> p <= q;
  oi_set : forall x, inside o x = opb op (inside a1 x) (inside b1 x);
  oi_parity : Nat.odd (length o) = opb op (Nat.odd (length a1)) (Nat.odd (length b1));
  oi_len : (length o <= length a1 + length b1)%nat
}.

Definition opt_point (v : Z) (d : list Z) : Prop := d = [] \/ d = [v].

Lemma opt_point_inside v d x : opt_point v d -> x < v -> inside d x = false.
Proof. intros [-> | ->] Hx; [reflexivity|]. cbn. rewrite (proj2 (Z.leb_gt v x) Hx). reflexivity. Qed.

Lemma opt_point_elem v d p : opt_point v d -> p ∈ d -> p = v.
Proof. intros [-> | ->] Hp; [inversion Hp|]. apply list_elem_of_singleton, Hp. Qed.

Lemma op_inv_step op a1 b1 o rest v da db do rest' :
  op_inv op a1 b1 o rest -> v ∈ rest -> (forall q, q ∈ rest' -> q ∈ rest /\ v <= q) ->
  opt_point v da -> opt_point v db -> da ++ db <> [] -> opt_point v do ->
  Nat.odd (length (o ++ do)) = opb op (Nat.odd (length (a1 ++ da))) (Nat.odd (length (b1 ++ db))) ->
  op_inv op (a1 ++ da) (b1 ++ db) (o ++ do) rest'.
Proof.
  intros [S1 S2 S3 S4 S5] Hv Hr Ha Hb Hab Ho Hpar.
  assert (forall p, p ∈ (a1 ++ da) ++ (b1 ++ db) ++ o ++ do -> p <= v) as Hle.
  { intros p Hp. assert (p ∈ a1 ++ b1 ++ o \/ p = v) as [H| ->]; [|apply S2; assumption|lia].
    rewrite !elem_of_app in *. destruct Hp as [[Hp|Hp]|[[Hp|Hp]|[Hp|Hp]]]; auto; right; match goal with O : opt_point v ?d, H : p ∈ ?d |- _ => exact (opt_point_elem v d p O H) end. }
  split; [| | |exact Hpar|].
  - apply points_sorted_app; [exact S1|destruct Ho as [-> | ->]; repeat constructor|]. intros p q Hp Hq. rewrite (opt_point_elem v do q Ho Hq).
    apply S2; [|exact Hv]. rewrite !elem_of_app. auto.
  - intros p q Hp Hq. destruct (Hr q Hq) as [_ H]. specialize (Hle p Hp). lia.
  - intros x. destruct (Z.lt_ge_cases x v) as [Hx|Hx].
    + rewrite !inside_app, (opt_point_inside v da x), (opt_point_inside v db x), (opt_point_inside v do x) by assumption. rewrite !xorb_false_r. apply S3.
    + rewrite !inside_after; [exact Hpar|..]; apply Forall_forall; intros p Hp; (etransitivity; [apply Hle|exact Hx]); rewrite !elem_of_app in *; tauto.
  - rewrite !length_app. destruct Ha as [-> | ->], Hb as [-> | ->], Ho as [-> | ->]; cbn in *; lia || congruence.
Qed.

(** The choice of a point, once its parts are given. *)
Ltac point_facts :=
  repeat (split; [first [reflexivity|left; reflexivity|right; reflexivity|discriminate|rewrite ?app_nil_r, ?len_app; reflexivity]|]).

Lemma next_point_spec a1 a2 ja b1 b2 jb : sorted a2 -> sorted b2 ->
  exists r, next_point (a1 ++ a2 ++ ja) (len (a1 ++ a2)) (b1 ++ b2 ++ jb) (len (b1 ++ b2)) (len a1) (len b1) = mret r /\
    match r with
    | None => a2 = [] /\ b2 = []
    | Some (v, i, j) => exists da a2' db b2', a2 = da ++ a2' /\ b2 = db ++ b2' /\ opt_point v da /\ opt_point v db /\ da ++ db <> [] /\
        i = len (a1 ++ da) /\ j = len (b1 ++ db) /\ forall q, q ∈ a2' ++ b2' -> v <= q
    end.
Proof.
  intros Ha Hb. unfold next_point. rewrite !len_app.
  assert (forall v l, sorted (v :: l) -> forall q, q ∈ l -> v <= q) as Hhd.
  { intros v l H q Hq. apply StronglySorted_inv in H. destruct H as [_ H]. rewrite Forall_forall in H. apply H, Hq. }
  destruct a2 as [|a a2]; [|pose proof (len_nonneg a2)]; (destruct b2 as [|b b2]; [|pose proof (len_nonneg b2)]); rewrite ?len_cons; cbn [app]; change (len (@nil Z)) with 0;
    repeat match goal with |- context [?x <? ?y] => first [rewrite (proj2 (Z.ltb_lt x y)) by lia | rewrite (proj2 (Z.ltb_ge x y)) by lia] end; cbn [andb].
  - eexists. split; [reflexivity|]. split; reflexivity.
  - rewrite tab_get_app, ret_bind by reflexivity. eexists. split; [reflexivity|]. exists [], [], [b], b2. point_facts. intros q Hq. apply (Hhd b b2 Hb q Hq).
  - rewrite tab_get_app, ret_bind by reflexivity. eexists. split; [reflexivity|]. exists [a], a2, [], []. point_facts. intros q Hq. rewrite app_nil_r in Hq. apply (Hhd a a2 Ha q Hq).
  - rewrite !tab_get_app, !ret_bind by reflexivity. eexists. split; [reflexivity|]. destruct (Z.ltb_spec a b) as [Hlt|Hge]; [|destruct (Z.eqb_spec a b) as [<-|Hne]].
    + exists [a], a2, [], (b :: b2). point_facts.
      intros q Hq. apply elem_of_app in Hq. destruct Hq as [Hq|Hq]; [apply (Hhd a a2 Ha q Hq)|]. apply elem_of_cons in Hq. destruct Hq as [->|Hq]; [lia|]. specialize (Hhd b b2 Hb q Hq). lia.
    + exists [a], a2, [a], b2. point_facts.
      intros q Hq. apply elem_of_app in Hq. destruct Hq as [Hq|Hq]; [apply (Hhd a a2 Ha q Hq)|apply (Hhd a b2 Hb q Hq)].
    + exists [], (a :: a2), [b], b2. point_facts.
      intros q Hq. apply elem_of_app in Hq. destruct Hq as [Hq|Hq]; [|apply (Hhd b b2 Hb q Hq)]. apply elem_of_cons in Hq. destruct Hq as [->|Hq]; [lia|]. specialize (Hhd a a2 Ha q Hq). lia.
Qed.

Lemma op_loop_spec E op ja jb fuel : forall cr a1 a2 b1 b2,
  cr_block cr -> snug cr -> op_inv op a1 b1 (content cr) (a2 ++ b2) -> sorted a2 -> sorted b2 ->
  len (a1 ++ a2) + len (b1 ++ b2) <= 2 ^ 29 -> (length a2 + length b2 < fuel)%nat ->
  gspec G (op_loop fuel cr (a1 ++ a2 ++ ja) (len (a1 ++ a2)) (b1 ++ b2 ++ jb) (len (b1 ++ b2)) op (len a1) (len b1))
    (fun q => fst q = 0 /\ cr_block (snd q) /\ op_inv op (a1 ++ a2) (b1 ++ b2) (content (snd q)) [] \/ refused G q) E.
Proof.
  induction fuel as [|fuel IH]; intros cr a1 a2 b1 b2 Hb Hs Hi Sa Sb Hl Hf; [lia|]. cbn [op_loop].
  destruct (next_point_spec a1 a2 ja b1 b2 jb Sa Sb) as (r & -> & Hr). rewrite ret_bind. destruct r as [[[v i] j]|].
  2:{ destruct Hr as [-> ->]. apply gspec_ret. left. rewrite !app_nil_r in *. auto. }
  destruct Hr as (da & a2' & db & b2' & -> & -> & Ha & Hd & Hne & -> & -> & Hq). rewrite op_status_spec.
  assert (forall do cr', cr_block cr' -> snug cr' -> content cr' = content cr ++ do -> opt_point v do ->
      Nat.odd (length (content cr ++ do)) = opb op (Nat.odd (length (a1 ++ da))) (Nat.odd (length (b1 ++ db))) ->
      gspec G (op_loop fuel cr' (a1 ++ (da ++ a2') ++ ja) (len (a1 ++ da ++ a2')) (b1 ++ (db ++ b2') ++ jb) (len (b1 ++ db ++ b2')) op (len (a1 ++ da)) (len (b1 ++ db)))
        (fun q => fst q = 0 /\ cr_block (snd q) /\ op_inv op (a1 ++ da ++ a2') (b1 ++ db ++ b2') (content (snd q)) [] \/ refused G q) E) as Hgo.
  { intros do cr' Hb' Hs' Hc Ho Hpar.
    replace (a1 ++ (da ++ a2') ++ ja) with ((a1 ++ da) ++ a2' ++ ja) by (rewrite <- !app_assoc; reflexivity).
    replace (b1 ++ (db ++ b2') ++ jb) with ((b1 ++ db) ++ b2' ++ jb) by (rewrite <- !app_assoc; reflexivity). rewrite !(app_assoc a1), !(app_assoc b1) in *.
    apply IH; [exact Hb'|exact Hs'| |apply (points_sorted_app_inv Z.le da a2' Sa)|apply (points_sorted_app_inv Z.le db b2' Sb)|exact Hl|].
    - rewrite Hc. apply (op_inv_step op a1 b1 (content cr) ((da ++ a2') ++ db ++ b2') v da db do (a2' ++ b2')); try assumption.
      + rewrite !elem_of_app. destruct Ha as [-> | ->]; [destruct Hd as [-> | ->]; [destruct (Hne eq_refl)|right; left; left]|left; left; left].
      + intros q Hqq. split; [rewrite !elem_of_app in *; tauto|apply Hq, Hqq].
    - rewrite !length_app in Hf. assert (0 < length da + length db)%nat by (destruct da, db; cbn in *; lia || congruence). lia. }
  pose proof (content_len cr Hb) as Hcl. rewrite <- Hcl, land_1_odd.
  destruct (Z.eqb_spec (c_bool (opb op (Nat.odd (length (a1 ++ da))) (Nat.odd (length (b1 ++ db))))) (c_bool (Nat.odd (length (content cr))))) as [Heq|Hneq]; cbn [negb].
  - apply (Hgo [] cr Hb Hs); [rewrite app_nil_r; reflexivity|left; reflexivity|]. rewrite app_nil_r. destruct (opb op _ _), (Nat.odd (length (content cr))); (reflexivity || discriminate).
  - eapply gspec_bind; [apply (cr_add_point_spec G E cr v Hb Hs)|].
    { pose proof (oi_len _ _ _ _ _ Hi). rewrite !len_app in Hl. unfold len in *. lia. }
    intros [r cr'] [(Q1 & Q2 & Q3 & Q4)|Hr]; cbn [fst snd] in *.
    + subst r. cbn [Z.eqb negb]. apply (Hgo [v] cr' Q2 Q3 Q4); [right; reflexivity|]. rewrite length_app, Nat.add_comm. cbn [Nat.add length]. rewrite odd_S.
      destruct (opb op _ _), (Nat.odd (length (content cr))); cbn in *; congruence.
    + destruct Hr as (Q1 & Q2 & Q3). cbn [fst] in Q1. subst r. cbn [Z.eqb negb]. apply gspec_ret. right. split; [reflexivity|]. auto.
Qed.

(** The two arrays of an operation. *)
Definition operands (a b : list Z) : Prop :=
  sorted a /\ sorted b /\ Nat.even (length a) = true /\ Nat.even (length b) = true /\ len a + len b <= 2 ^ 29.

Definition result (f : Z -> bool) (q : Z * CharRange) : Prop := fst q = 0 /\ canonical f (snd q) \/ refused G q.

Lemma cr_op_spec E cr a ja b jb op :
  cr_block cr -> snug cr -> cr_len cr = 0 -> operands a b ->
  gspec G (cr_op cr (a ++ ja) (len a) (b ++ jb) (len b) op) (result (fun x => opb op (inside a x) (inside b x))) E.
Proof.
  intros Hb Hsn H0 (Sa & Sb & Ea & Eb & Hl). unfold cr_op.
  assert (content cr = []) as Hc by (unfold content; rewrite H0; reflexivity).
  eapply gspec_bind; [apply (op_loop_spec E op ja jb (S (length (a ++ ja) + length (b ++ jb))) cr [] a [] b Hb Hsn); try assumption|].
  - rewrite Hc. split; try (constructor || reflexivity); [intros p q Hp; inversion Hp|intros x; destruct op; reflexivity|destruct op; reflexivity].
  - rewrite !length_app. lia.
  - cbn [app]. intros [r cr'] [(Q1 & Q2 & [O1 _ O3 O4 _])|(Q1 & Q2 & Q3)]; cbn [fst snd] in *; subst r; cbn [Z.eqb negb].
    + destruct (cr_compress_spec cr' Q2 O1) as (cr2 & -> & C1 & C2 & C3 & C4).
      { rewrite <- Nat.negb_odd, O4, <- !Nat.negb_even, Ea, Eb. destruct op; reflexivity. }
      rewrite ret_bind. apply gspec_ret. left. split; [reflexivity|]. repeat split; try assumption; try apply C1. intros x. rewrite C4. apply O3.
    + apply gspec_ret. right. split; [reflexivity|]. auto.
Qed.

Lemma init_block : cr_block cr_init /\ snug cr_init.
Proof. unfold cr_block, snug, cr_init, len. cbn [cr_points cr_size cr_len length]. lia. Qed.

Lemma cr_op1_spec E cr b jb op :
  cr_block cr -> operands (content cr) b ->
  gspec G (cr_op1 cr (b ++ jb) (len b) op) (result (fun x => opb op (inside (content cr) x) (inside b x))) E.
Proof.
  intros Hb Ho. destruct (content_split cr Hb) as (ja & Ea & _). unfold cr_op1. rewrite <- (content_len cr Hb), Ea.
  apply cr_op_spec; [apply init_block|apply init_block|reflexivity|exact Ho].
Qed.

End Ops.
