(* ===== verification/CharRangeTheorems.v ===== *)
(** Sets of code points: copies, complements, and the removal of overlaps after
    sorting the intervals.

    The theorems on sets of code points, with a witness each.

    [canonical f cr] says that the points of [cr] are strictly increasing, an even
    number of them, and that they are the set [f]; [refused G q] that the operation
    returned -1 and that some allocation was refused. *)
From Stdlib Require Import ZArith Lia Sorting.Sorted.
From S2P Require Import Prelude Cutils Sort SortSpecs SortTheorems CharRange CharRangeOps.
From stdpp Require Import base tactics numbers sorting list.

Open Scope Z_scope.

Section Sorting.
Context `{SC : SizeConfig} `{RP : RawPoints}.

Section Edits.
Context (G : Prop).

Lemma cr_copy_spec E cr cr1 :
  cr_block cr -> cr_block cr1 -> cr_size cr <= CR_GROW ->
  gspec G (cr_copy cr cr1) (fun q => fst q = 0 /\ cr_block (snd q) /\ content (snd q) = content cr1 \/ refused G q) E.
Proof.
  intros Hb Hb1 Hg. unfold cr_copy. pose proof Hb1 as (A1 & A2 & A3). eapply gspec_bind; [apply (cr_realloc_spec G E cr (cr_len cr1) Hb); [lia|auto]|].
  intros [r cr'] [(Q1 & Q2 & Q3 & _)|[[= -> ->] Hn]]; [|cbn [Z.eqb negb]; apply gspec_ret; right; split; [reflexivity|split; [exact Hb|exact Hn]]].
  cbn [fst snd] in *. subst r. cbn [Z.eqb negb]. destruct (content_split cr1 Hb1) as (junk & Ej & Lj). pose proof (content_len cr1 Hb1) as Hc.
  rewrite Ej. change (content cr1 ++ junk) with ([] ++ content cr1 ++ junk). rewrite tab_slice_app, ret_bind by (reflexivity || lia). destruct Q2 as (B1 & B2 & B3).
  assert (Hl : length (content cr1) = length (take (length (content cr1)) (cr_points cr'))) by (rewrite length_take; unfold len in *; lia).
  rewrite <- (take_drop (length (content cr1)) (cr_points cr')). change (take (length (content cr1)) (cr_points cr') ++ ?d) with ([] ++ take (length (content cr1)) (cr_points cr') ++ d).
  rewrite (tab_blit_app [] _ (content cr1)), ret_bind by (reflexivity || exact Hl). cbn [app]. apply gspec_ret. left. split; [reflexivity|].
  set (d := drop (length (content cr1)) (cr_points cr')). assert (len (content cr1 ++ d) = cr_size cr') as Hd by (unfold d, len in *; rewrite length_app, length_drop; lia).
  destruct (block_of (content cr1) d) as [C1 C2]; [lia|]. rewrite Hc, Hd in C1, C2. auto.
Qed.

Lemma cr_add_interval_spec E cr c1 c2 :
  cr_block cr -> cr_size cr <= CR_GROW ->
  gspec G (cr_add_interval cr c1 c2) (fun q => fst q = 0 /\ cr_block (snd q) /\ content (snd q) = content cr ++ [c1; c2] \/ refused G q) E.
Proof.
  intros Hb Hg. unfold cr_add_interval. pose proof Hb as (A1 & A2 & A3). unfold int_of. rewrite (proj2 (Z.leb_le _ _)), (proj2 (Z.ltb_lt _ _)) by lia. cbn [andb]. rewrite ret_bind.
  eapply gspec_bind with (R := fun q => fst q = 0 /\ cr_block (snd q) /\ cr_len (snd q) = cr_len cr /\ content (snd q) = content cr /\ cr_len cr + 2 <= cr_size (snd q) \/ q = (-1, cr) /\ ~ G).
  - destruct (Z.ltb_spec (cr_size cr) (cr_len cr + 2)); [|apply gspec_ret; left; cbn [fst snd]; auto].
    eapply gspec_mono with (E := E); [apply (cr_realloc_spec G E cr (cr_len cr + 2) Hb); [unfold CR_GROW in Hg; change ((2 ^ 31 - 1) / 3) with 715827882 in Hg; lia|auto]| |auto].
    intros q [(Q1 & Q2 & Q3 & Q4 & Q5 & _)|H']; [left; auto|right; exact H'].
  - intros [r cr'] [(Q1 & Q2 & Q3 & Q4 & Q5)|[[= -> ->] Hn]]; [|cbn [Z.eqb negb]; apply gspec_ret; right; split; [reflexivity|split; [exact Hb|exact Hn]]].
    cbn [fst snd] in *. subst r. cbn [Z.eqb negb]. destruct (set_next cr' c1 Q2) as (t & -> & B1 & B2); [lia|]. rewrite ret_bind.
    destruct (set_next _ c2 B1) as (t2 & T2 & B3 & B4); [cbn; lia|]. cbn [cr_points cr_len cr_size] in T2, B3, B4. rewrite T2, ret_bind. apply gspec_ret. left. split; [reflexivity|].
    replace (cr_len cr' + 1 + 1) with (cr_len cr' + 2) in B3, B4 by lia. split; [exact B3|]. cbn [snd]. rewrite B4, B2, Q4, <- app_assoc. reflexivity.
Qed.

(** The numbers below [UINT32_MAX] that are not in the set. *)
Definition outside (l : list Z) (x : Z) : bool := (0 <=? x) && (x <? UINT32_MAX) && negb (inside l x).

Definition u32_points (l : list Z) : Prop := Forall (fun p => 0 <= p <= UINT32_MAX) l.

Lemma inside_outside l x : u32_points l -> Nat.even (length l) = true -> inside (0 :: l ++ [UINT32_MAX]) x = outside l x.
Proof.
  intros Hl He. unfold outside. cbn [inside]. rewrite inside_app. cbn [inside]. rewrite xorb_false_r.
  destruct (Z.leb_spec 0 x) as [H0|H0]; cbn [andb].
  - rewrite Z.ltb_antisym. destruct (Z.leb_spec UINT32_MAX x) as [H1|H1]; cbn [negb andb].
    + rewrite inside_after by (eapply Forall_impl; [exact Hl|]; cbn; intros; lia). rewrite <- Nat.negb_even, He. reflexivity.
    + destruct (inside l x); reflexivity.
  - rewrite (inside_before l) by (eapply Forall_impl; [exact Hl|]; cbn; intros; lia). rewrite (proj2 (Z.leb_gt _ _)) by (unfold UINT32_MAX; lia). reflexivity.
Qed.

Lemma cr_invert_spec E cr :
  cr_block cr -> cr_size cr <= CR_GROW -> sorted (content cr) -> u32_points (content cr) -> Nat.even (length (content cr)) = true ->
  gspec G (cr_invert cr) (result G (outside (content cr))) E.
Proof.
  intros Hb Hg Hs Hu He. unfold cr_invert. pose proof Hb as (A1 & A2 & A3). unfold int_of. rewrite (proj2 (Z.leb_le _ _)), (proj2 (Z.ltb_lt _ _)) by lia. cbn [andb]. rewrite ret_bind.
  unfold CR_GROW in Hg. change ((2 ^ 31 - 1) / 3) with 715827882 in Hg.
  eapply gspec_bind; [apply (cr_realloc_spec G E cr (cr_len cr + 2) Hb); [lia|intros _; exact Hg]|].
  intros [r cr'] [(Q1 & Q2 & Q3 & Q4 & Q5 & _)|[[= -> ->] Hn]]; [|cbn [Z.eqb negb]; apply gspec_ret; right; split; [reflexivity|split; [exact Hb|exact Hn]]].
  cbn [fst snd] in *. subst r. cbn [Z.eqb negb]. destruct (content_split cr' Q2) as (junk & Ej & Lj). pose proof (content_len cr' Q2) as Hc. rewrite Q5 in *. set (l := content cr) in *.
  rewrite Ej. assert (tab_slice (l ++ junk) 0 (cr_len cr) = mret l) as -> by (apply (tab_slice_app [] l junk); [reflexivity|lia]). rewrite ret_bind.
  assert (exists h w y rest, l ++ junk = [h] ++ w ++ y :: rest /\ length l = length w) as (h & w & y & rest & Eb & Hw).
  { destruct (l ++ junk) as [|h t] eqn:Et; [apply (f_equal len) in Et; rewrite len_app in Et; change (len (@nil Z)) with 0 in Et; lia|].
    assert (length l < length t)%nat as Hlt by (apply (f_equal len) in Et; rewrite len_app, len_cons in Et; unfold len in *; lia).
    destruct (lookup_lt_is_Some_2 t (length l) Hlt) as [y Hy]. exists h, (take (length l) t), y, (drop (S (length l)) t).
    cbn [app]. rewrite take_drop_middle by exact Hy. split; [reflexivity|rewrite length_take; lia]. }
  rewrite Eb, tab_blit_app, ret_bind by (reflexivity || exact Hw). cbn [app].
  assert (tab_set (h :: l ++ y :: rest) 0 0 = mret ((0 :: l) ++ y :: rest)) as -> by (apply (tab_set_app [] h 0 (l ++ y :: rest)); reflexivity). rewrite ret_bind.
  rewrite tab_set_app, ret_bind by (rewrite len_cons; lia). set (l' := 0 :: l ++ [UINT32_MAX]).
  assert (((0 :: l) ++ UINT32_MAX :: rest) = l' ++ rest) as -> by (unfold l'; cbn; rewrite <- app_assoc; reflexivity).
  assert (cr_size cr' = len (l' ++ rest)) as Hsz.
  { destruct Q2 as (B1 & _). rewrite <- B1, Ej, Eb. unfold l', len. cbn. rewrite !length_app. cbn. lia. }
  assert (cr_len cr + 2 = len l') as Hln by (unfold l'; rewrite len_cons, len_app; unfold len in *; cbn; lia).
  rewrite Hsz, Hln. destruct (block_of l' rest) as [B1 B2]; [destruct Q2 as (_ & _ & Q2); lia|].
  destruct (cr_compress_spec _ B1) as (cr2 & -> & C1 & C2 & C3 & C4); [rewrite B2|rewrite B2|].
  - unfold l'. constructor; [apply points_sorted_app; [exact Hs|repeat constructor|]|].
    + intros p q Hp Hq. apply list_elem_of_singleton in Hq. subst q. unfold u32_points in Hu. rewrite Forall_forall in Hu. apply Hu, Hp.
    + apply Forall_app. split; [eapply Forall_impl; [exact Hu|]; cbn; intros; lia|]. repeat constructor. unfold UINT32_MAX. lia.
  - unfold l'. cbn [length]. rewrite length_app, Nat.add_comm. exact He.
  - rewrite ret_bind. apply gspec_ret. left. split; [reflexivity|]. rewrite B2 in C4. repeat split; try assumption; try apply C1. intros x. rewrite C4. apply inside_outside; assumption.
Qed.

Lemma cr_union_interval_spec E cr c1 c2 :
  cr_block cr -> sorted (content cr) -> Nat.even (length (content cr)) = true -> cr_len cr <= 2 ^ 28 -> 0 <= c1 <= c2 -> c2 < UINT32_MAX ->
  gspec G (cr_union_interval cr c1 c2) (result G (fun x => inside (content cr) x || (c1 <=? x) && (x <=? c2))) E.
Proof.
  intros Hb Hs He Hl H1 H2. unfold cr_union_interval. unfold UINT32_MAX in H2. rewrite wrap_small by lia.
  eapply gspec_mono with (E := E); [apply (cr_op1_spec G E cr [c1; c2 + 1] [] CR_OP_UNION Hb)| |auto].
  - rewrite <- (content_len cr Hb) in Hl. repeat split; try assumption; [repeat constructor; lia|]. unfold len in *. cbn [length]. lia.
  - intros q [[Q1 (C1 & C2 & C3 & C4)]|Hr]; [left|right; exact Hr]. split; [exact Q1|]. repeat split; try assumption; try apply C1. intros x. rewrite C4. cbn.
    f_equal. destruct (Z.leb_spec c1 x), (Z.leb_spec (c2 + 1) x), (Z.leb_spec x c2); reflexivity || lia.
Qed.

End Edits.

(** ** cr_sort_and_remove_overlap *)

(** The union of intervals in any order. *)
Definition in_pairs (ps : list (Z * Z)) (x : Z) : bool := existsb (fun p => (fst p <=? x) && (x <? snd p)) ps.

Definition by_start (p q : Z * Z) : Prop := fst p <= fst q.

#[local] Instance by_start_preorder : PreOrder by_start.
Proof. split; unfold by_start; [intros p; lia|intros p q r; lia]. Qed.

Lemma point_cmp_consistent : consistent point_cmp by_start.
Proof.
  intros p q. unfold point_cmp, by_start. apply mspec_ret. destruct (Z.ltb_spec (fst q) (fst p)), (Z.ltb_spec (fst p) (fst q)); cbn; lia.
Qed.

Lemma of_pairs_len ps : len (of_pairs ps) = 2 * len ps.
Proof. induction ps as [|[a b] ps IH]; [reflexivity|]. unfold of_pairs in *. cbn. rewrite !len_cons, IH. lia. Qed.

Lemma to_pairs_of l : Nat.even (length l) = true -> of_pairs (to_pairs l) = l.
Proof.
  intros He. apply Nat.even_spec in He. destruct He as [n Hn]. revert l Hn. induction n as [|n IH]; intros l Hn; [destruct l; [reflexivity|discriminate]|].
  destruct l as [|a [|b l]]; [discriminate|cbn in Hn; lia|]. cbn. f_equal. f_equal. apply IH. cbn in Hn. lia.
Qed.

Lemma in_pairs_perm ps qs x : ps ≡ₚ qs -> in_pairs ps x = in_pairs qs x.
Proof.
  intros H. unfold in_pairs. induction H as [|p l l' _ IH|p q l|l l' l'' _ IH1 _ IH2]; cbn; [reflexivity|rewrite IH; reflexivity| |congruence].
  rewrite !orb_assoc. f_equal. apply orb_comm.
Qed.

Lemma overlap_run_spec fuel : forall pre ps junk i n e s,
  i = len pre -> n = i + 2 * len ps -> (length ps < fuel)%nat -> s < e -> Forall (fun p => s <= fst p) ps -> StronglySorted by_start ps ->
  exists ps1 ps2 e',
    overlap_run fuel (pre ++ of_pairs ps ++ junk) n i e = mret (i + 2 * len ps1, e') /\ ps = ps1 ++ ps2 /\ e <= e' /\
    (forall x, (s <=? x) && (x <? e) || in_pairs ps1 x = (s <=? x) && (x <? e')) /\ (forall p, p ∈ ps2 -> e' < fst p).
Proof.
  induction fuel as [|fuel IH]; intros pre ps junk i n e s Hi Hn Hf Hse Hs Hp; [lia|]. cbn [overlap_run]. destruct ps as [|[a b] ps].
  - rewrite (proj2 (Z.ltb_ge _ _)) by (unfold len in Hn; cbn in Hn; lia). exists [], [], e. change (len (@nil (Z * Z))) with 0. rewrite Z.add_0_r.
    repeat split; [lia|intros x; cbn; apply orb_false_r|intros p Hp'; inversion Hp'].
  - rewrite len_cons in Hn. pose proof (len_nonneg ps). rewrite (proj2 (Z.ltb_lt _ _)) by lia. unfold of_pairs. cbn [mbind list_bind app]. fold (of_pairs ps).
    replace (tab_get _ i) with (mret a : M Z) by (symmetry; apply tab_get_app, Hi).
    replace (tab_get _ (i + 1)) with (mret b : M Z)
      by (symmetry; change (pre ++ a :: b :: of_pairs ps ++ junk) with (pre ++ [a] ++ b :: of_pairs ps ++ junk); rewrite app_assoc; apply tab_get_app; rewrite len_app; unfold len in *; cbn; lia).
    rewrite !ret_bind. apply StronglySorted_inv in Hp. destruct Hp as [Hp Ha]. apply Forall_cons in Hs. destruct Hs as [Hsa Hs]. cbn [fst] in Hsa.
    destruct (Z.ltb_spec e a) as [Hea|Hea].
    { exists [], ((a, b) :: ps), e. change (len (@nil (Z * Z))) with 0. rewrite Z.add_0_r. repeat split; [lia|intros x; cbn; apply orb_false_r|].
      intros p Hin. apply elem_of_cons in Hin. destruct Hin as [->|Hin]; [exact Hea|]. rewrite Forall_forall in Ha. specialize (Ha p Hin). unfold by_start in Ha. cbn in Ha. lia. }
    assert (forall e1, e <= e1 -> (forall x, (s <=? x) && (x <? e) || (a <=? x) && (x <? b) = (s <=? x) && (x <? e1)) ->
      exists ps1 ps2 e', overlap_run fuel (pre ++ a :: b :: of_pairs ps ++ junk) n (i + 2) e1 = mret (i + 2 * len ps1, e') /\ (a, b) :: ps = ps1 ++ ps2 /\ e <= e' /\
        (forall x, (s <=? x) && (x <? e) || in_pairs ps1 x = (s <=? x) && (x <? e')) /\ (forall p, p ∈ ps2 -> e' < fst p)) as Hgo.
    { intros e1 He1 Hset. destruct (IH (pre ++ [a; b]) ps junk (i + 2) n e1 s) as (ps1 & ps2 & e' & R1 & -> & R3 & R4 & R5);
        [rewrite len_app; unfold len in *; cbn; lia|lia|cbn in Hf; lia|lia|exact Hs|exact Hp|]. rewrite <- app_assoc in R1.
      exists ((a, b) :: ps1), ps2, e'. rewrite len_cons. cbn [app] in R1 |- *. rewrite R1. split; [f_equal; f_equal; lia|]. split; [reflexivity|]. split; [lia|]. split; [|exact R5].
      intros x. cbn. rewrite orb_assoc, Hset. apply R4. }
    destruct (Z.leb_spec b e) as [Hbe|Hbe]; apply Hgo; try lia; intros x;
      destruct (Z.leb_spec s x), (Z.ltb_spec x e), (Z.leb_spec a x), (Z.ltb_spec x b); cbn; reflexivity || lia.
Qed.

Lemma overlap_loop_spec fuel : forall done mid ps junk i j n,
  j = len done -> i = len done + len mid -> n = i + 2 * len ps -> (length ps < fuel)%nat -> Nat.even (length done) = true ->
  increasing done -> Forall (fun p => fst p < snd p) ps -> StronglySorted by_start ps -> (forall p q, p ∈ done -> q ∈ ps -> p < fst q) ->
  exists out tail,
    overlap_loop fuel (done ++ mid ++ of_pairs ps ++ junk) n i j = mret (out ++ tail, len out) /\
    len (out ++ tail) = len (done ++ mid ++ of_pairs ps ++ junk) /\ increasing out /\ Nat.even (length out) = true /\
    (forall x, inside out x = xorb (inside done x) (in_pairs ps x)).
Proof.
  induction fuel as [|fuel IH]; intros done mid ps junk i j n Hj Hi Hn Hf Hed Hd Hne Hs Hdp; [lia|]. cbn [overlap_loop]. destruct ps as [|[a b] ps].
  { rewrite (proj2 (Z.ltb_ge _ _)) by (unfold len in Hn; cbn in Hn; lia). exists done, (mid ++ junk). subst j.
    split; [reflexivity|]. split; [reflexivity|]. split; [exact Hd|]. split; [exact Hed|]. intros x. cbn. rewrite xorb_false_r. reflexivity. }
  rewrite len_cons in Hn. pose proof (len_nonneg ps). pose proof (len_nonneg mid). rewrite (proj2 (Z.ltb_lt _ _)) by lia. unfold of_pairs. cbn [mbind list_bind app]. fold (of_pairs ps).
  set (pt := done ++ mid ++ a :: b :: of_pairs ps ++ junk).
  replace (tab_get pt i) with (mret a : M Z) by (symmetry; unfold pt; rewrite app_assoc; apply tab_get_app; rewrite len_app; lia).
  replace (tab_get pt (i + 1)) with (mret b : M Z)
    by (symmetry; unfold pt; rewrite app_assoc; change (a :: b :: of_pairs ps ++ junk) with ([a] ++ b :: of_pairs ps ++ junk); rewrite app_assoc; apply tab_get_app; rewrite !len_app; unfold len in *; cbn; lia).
  rewrite !ret_bind. apply Forall_cons in Hne. destruct Hne as [Hab Hne]. cbn [fst snd] in Hab. apply StronglySorted_inv in Hs. destruct Hs as [Hs Ha].
  destruct (overlap_run_spec (length pt) (done ++ mid ++ [a; b]) ps junk (i + 2) n b a) as (ps1 & ps2 & e & R1 & -> & R3 & R4 & R5);
    [rewrite !len_app; unfold len in *; cbn; lia|lia| |exact Hab|eapply Forall_impl; [exact Ha|]; intros p Hp; exact Hp|exact Hs|].
  { pose proof (of_pairs_len ps) as Hop. unfold pt. rewrite !length_app. cbn. rewrite length_app. unfold len in *. lia. }
  assert (pt = (done ++ mid ++ [a; b]) ++ of_pairs (ps1 ++ ps2) ++ junk) as E1 by (unfold pt; rewrite <- !app_assoc; reflexivity). rewrite <- E1 in R1. rewrite R1, ret_bind.
  assert (of_pairs (ps1 ++ ps2) = of_pairs ps1 ++ of_pairs ps2) as Eop by (unfold of_pairs; apply bind_app).
  assert (pt = done ++ (mid ++ [a; b] ++ of_pairs ps1) ++ of_pairs ps2 ++ junk) as E2 by (rewrite E1, Eop, <- !app_assoc; reflexivity).
  destruct (put_two done (mid ++ [a; b] ++ of_pairs ps1) (of_pairs ps2 ++ junk) j a e) as (t1 & mid' & T1 & _ & T3 & T4); [exact Hj|rewrite !len_app; unfold len in *; cbn; lia|].
  rewrite <- E2 in T1. rewrite T1, ret_bind, T3, ret_bind. pose proof (of_pairs_len ps1) as L1. rewrite !len_app in T4. rewrite len_app in Hn. change (len [a; b]) with 2 in T4.
  destruct (IH (done ++ [a; e]) mid' ps2 junk (i + 2 + 2 * len ps1) (j + 2) n) as (out & tail & O1 & O2 & O3 & O4 & O5).
  - rewrite len_app. change (len [a; e]) with 2. lia.
  - rewrite len_app. change (len [a; e]) with 2. lia.
  - lia.
  - cbn in Hf. rewrite length_app in Hf. lia.
  - rewrite length_app, Nat.add_comm. exact Hed.
  - apply points_sorted_app; [exact Hd|repeat constructor; lia|]. intros p q Hp Hq. assert (p < a) by (apply (Hdp p (a, b)); [exact Hp|left]).
    apply elem_of_cons in Hq. destruct Hq as [->|Hq]; [assumption|]. apply list_elem_of_singleton in Hq. lia.
  - apply Forall_app in Hne. apply Hne.
  - clear -Hs. induction ps1 as [|p ps1 IHp]; [exact Hs|]. apply StronglySorted_inv in Hs. apply IHp, Hs.
  - intros p q Hp Hq. specialize (R5 q Hq). apply elem_of_app in Hp. destruct Hp as [Hp|Hp]; [assert (p < a) by (apply (Hdp p (a, b)); [exact Hp|left]); lia|].
    apply elem_of_cons in Hp. destruct Hp as [->|Hp]; [lia|]. apply list_elem_of_singleton in Hp. lia.
  - exists out, tail. split; [exact O1|]. split; [rewrite O2, E2, !len_app; change (len [a; e]) with 2; change (len [a; b]) with 2; lia|]. split; [exact O3|]. split; [exact O4|].
    intros x. rewrite O5, inside_app. unfold in_pairs at 2. cbn [existsb]. fold (in_pairs (ps1 ++ ps2) x). unfold in_pairs at 2. rewrite existsb_app. fold (in_pairs ps1 x) (in_pairs ps2 x). cbn [fst snd].
    rewrite orb_assoc, R4, xorb_assoc. f_equal. cbn [inside]. rewrite xorb_false_r. destruct (in_pairs ps2 x) eqn:Ei.
    + apply existsb_exists in Ei. destruct Ei as (p & Hp & Hpx). apply list_elem_of_In in Hp. specialize (R5 p Hp). apply andb_true_iff in Hpx. destruct Hpx as [Hpx _].
      apply Z.leb_le in Hpx. rewrite !(proj2 (Z.leb_le _ _)) by lia. cbn. rewrite orb_true_r. reflexivity.
    + rewrite xorb_false_r, orb_false_r, (Z.ltb_antisym e x). destruct (Z.leb_spec a x), (Z.leb_spec e x); reflexivity || lia.
Qed.

Lemma cr_sort_spec cr :
  cr_block cr -> Nat.even (length (content cr)) = true -> Forall (fun p => fst p < snd p) (to_pairs (content cr)) ->
  mspec (cr_sort_and_remove_overlap cr) (canonical (in_pairs (to_pairs (content cr)))) no_exn.
Proof.
  intros Hb He Hne. unfold cr_sort_and_remove_overlap. pose proof (content_len cr Hb) as Hc. destruct (content_split cr Hb) as (junk & Ej & _). set (l := content cr) in *.
  assert (2 * (cr_len cr / 2) = cr_len cr) as ->.
  { rewrite <- Hc. unfold len. apply Nat.even_spec in He. destruct He as [m ->]. replace (Z.of_nat (2 * m)) with (Z.of_nat m * 2) by lia. rewrite Z.div_mul by lia. lia. }
  rewrite Ej. assert (tab_slice (l ++ junk) 0 (cr_len cr) = mret l) as -> by (apply (tab_slice_app [] l junk); [reflexivity|lia]). rewrite ret_bind.
  eapply mspec_bind; [apply (rqsort_spec point_cmp by_start point_cmp_consistent)|]. intros ps [Hp Hs].
  assert (len (of_pairs ps) = len l) as Hlp.
  { rewrite of_pairs_len, <- (to_pairs_of l He), of_pairs_len. unfold len. rewrite (Permutation_length Hp). reflexivity. }
  assert (tab_blit (l ++ junk) 0 (of_pairs ps) = mret (of_pairs ps ++ junk)) as -> by (apply (tab_blit_app [] l (of_pairs ps) junk); [reflexivity|unfold len in Hlp; lia]). rewrite ret_bind.
  destruct (overlap_loop_spec (S (length (of_pairs ps ++ junk))) [] [] ps junk 0 0 (cr_len cr)) as (out & tail & O1 & O2 & O3 & O4 & O5);
    [reflexivity|reflexivity|rewrite of_pairs_len in Hlp; change (len (@nil Z)) with 0; lia| |reflexivity|constructor|rewrite Hp; exact Hne|exact Hs|intros p q Hq; inversion Hq|].
  { pose proof (of_pairs_len ps). rewrite length_app. unfold len in *. lia. }
  cbn [app] in O1, O2. rewrite O1, ret_bind. apply mspec_ret. destruct Hb as (B1 & B2 & B3).
  assert (len (out ++ tail) = cr_size cr) as Hsz by (rewrite O2, len_app, Hlp, <- len_app, <- Ej; exact B1).
  destruct (block_of out tail) as [C1 C2]; [lia|]. rewrite Hsz in C1, C2. split; [exact C1|]. rewrite C2. split; [exact O3|]. split; [exact O4|].
  intros x. rewrite O5. rewrite (in_pairs_perm _ _ x Hp). destruct (in_pairs (to_pairs l) x); reflexivity.
Qed.

End Sorting.

Section Theorems.
Context `{SC : SizeConfig} `{RP : RawPoints}.

(** C25: the operations on sets of code points compute the set: union, intersection,
    symmetric difference and difference ([cr_op1]), complement ([cr_invert]) and the
    addition of an interval ([cr_union_interval]).  The result is canonical, the
    only increasing array of points of that set, and each operation fails only when
    an allocation is refused. *)
Theorem char_range_refines_sets cr b jb op c1 c2 o :
  cr_block cr -> cr_size cr <= CR_GROW -> operands (content cr) b -> u32_points (content cr) -> cr_len cr <= 2 ^ 28 -> 0 <= c1 <= c2 -> c2 < UINT32_MAX ->
  (exists q o', cr_op1 cr (b ++ jb) (len b) op o = (Ok q, o') /\ result (grants o) (fun x => opb op (inside (content cr) x) (inside b x)) q) /\
  (exists q o', cr_invert cr o = (Ok q, o') /\ result (grants o) (outside (content cr)) q) /\
  (exists q o', cr_union_interval cr c1 c2 o = (Ok q, o') /\ result (grants o) (fun x => inside (content cr) x || (c1 <=? x) && (x <=? c2)) q) /\
  (forall f cr1 cr2, canonical f cr1 -> canonical f cr2 -> content cr1 = content cr2).
Proof.
  intros Hb Hg Ho Hu Hl H1 H2. pose proof Ho as (Hs & _ & He & _).
  split; [apply gspec_run, cr_op1_spec; assumption|]. split; [apply gspec_run, cr_invert_spec; assumption|].
  split; [apply gspec_run, cr_union_interval_spec; assumption|]. intros f cr1 cr2 (_ & A1 & _ & A2) (_ & B1 & _ & B2).
  apply inside_unique; [exact A1|exact B1|]. intros x. rewrite A2, B2. reflexivity.
Qed.

(** [cr_sort_and_remove_overlap] turns intervals in any order, overlapping or
    not, into the canonical array of their union, using the sort of cutils.c. *)
Theorem char_range_sort_correct cr :
  cr_block cr -> Nat.even (length (content cr)) = true -> Forall (fun p => fst p < snd p) (to_pairs (content cr)) ->
  mspec (cr_sort_and_remove_overlap cr) (canonical (in_pairs (to_pairs (content cr)))) no_exn.
Proof. apply cr_sort_spec. Qed.

End Theorems.

(** ** Witnesses *)

#[local] Instance size32 : SizeConfig := {| SIZE_BITS := 32; size_bits_cases := or_introl eq_refl |}.
#[local] Instance junk_points : RawPoints := {| raw_point n := Z.of_nat n + 7 |}.

(** The letters a-c, A-F and a-z. *)
Definition lower_upper : CharRange := MkCR 4 6 [65; 71; 97; 100; 3; 1].

Lemma char_range_witness :
  exists q o', cr_op1 lower_upper ([97; 123] ++ [5]) (len [97; 123]) CR_OP_SUB alloc_all = (Ok q, o') /\
    result (grants alloc_all) (fun x => opb CR_OP_SUB (inside (content lower_upper) x) (inside [97; 123] x)) q.
Proof.
  refine (proj1 (char_range_refines_sets lower_upper [97; 123] [5] CR_OP_SUB 0 0 alloc_all _ _ _ _ _ _ _)).
  - split; [reflexivity|split; [split; discriminate|reflexivity]].
  - discriminate.
  - split; [repeat constructor; lia|]. split; [repeat constructor; lia|]. split; [reflexivity|]. split; [reflexivity|discriminate].
  - repeat constructor; unfold UINT32_MAX; lia.
  - discriminate.
  - lia.
  - reflexivity.
Defined.

Example char_range_run : match fst (cr_op1 lower_upper [97; 123] 2 CR_OP_UNION alloc_all) with Ok (r, cr) => (r, content cr) = (0, [65; 71; 97; 123]) | _ => False end.
Proof. vm_compute. reflexivity. Qed.

Definition shuffled : CharRange := MkCR 8 8 [97; 100; 65; 71; 99; 123; 70; 80].

Lemma char_range_sort_witness :
  mspec (cr_sort_and_remove_overlap shuffled) (canonical (in_pairs [(97, 100); (65, 71); (99, 123); (70, 80)])) no_exn.
Proof.
  refine (char_range_sort_correct shuffled _ _ _); [|reflexivity|repeat constructor].
  split; [reflexivity|split; [split; discriminate|reflexivity]].
Defined.

Example char_range_sort_run : match fst (cr_sort_and_remove_overlap shuffled alloc_all) with Ok cr => content cr = [65; 80; 97; 123] | _ => False end.
Proof. vm_compute. reflexivity. Qed.
