(* ===== verification/Shapes.v ===== *)
(** Objects and their shapes (quickjs.c): definitions.

    A [JSShape] is the layout of the properties of an object: an array of property
    entries in the order of their creation, and a hash table over it whose chains go
    through [sp_next] (an index plus one, 0 at the end).  Objects that have the same
    properties can share a shape, which then is in the hash table of shapes.
    [JSShapes] is the part of the runtime these functions work on: the shapes and
    the objects by address, and the table of shapes.

    The functions dup and free atoms, prototypes and property values.  They do not
    depend on the result, so each call is recorded in [events] in the order of the
    code, and what [JS_FreeAtom] and [JS_FreeValue] do belongs to the atom table and
    the garbage collector. *)
From stdpp Require Import base tactics list gmap numbers fin_sets.
From Stdlib Require Import ZArith Lia.
From S2P Require Import Prelude.

Open Scope Z_scope.

Definition sptr : Type := positive.
Definition optr : Type := positive.

(** [atom] is [JS_ATOM_NULL], zero, in the entry of a deleted property. *)
Record JSShapeProperty : Type := MkSP {
  sp_next : Z;
  sp_flags : Z;
  sp_atom : Z
}.

(** The two bit fields of an entry have 26 and 6 bits. *)
Definition entry (next flags atom : Z) : JSShapeProperty := MkSP (wrap 26 next) (wrap 6 flags) atom.

Definition JS_PROP_CONFIGURABLE : Z := 1.
Definition JS_PROP_INITIAL_SIZE : Z := 2.
Definition JS_PROP_INITIAL_HASH_SIZE : Z := 4.

(** [prop_hash] is the table in front of the structure, the entry [-h - 1] of the C
    code being [h] here; [sh_prop] has [prop_size] entries. *)
Record JSShape : Type := MkShape {
  ref_count : Z;
  is_hashed : bool;
  sh_hash : Z;
  prop_hash_mask : Z;
  prop_size : Z;
  prop_count : Z;
  deleted_prop_count : Z;
  shape_hash_next : option sptr;
  proto : option optr;
  sh_prop : list JSShapeProperty;
  prop_hash : list Z
}.

(** The values of properties, the content of fresh memory and the addresses of
    objects, which the hash of a shape starts with. *)
Class ObjectConfig := {
  JSProperty : Type;
  JS_UNDEFINED : JSProperty;
  raw_property : nat -> JSProperty;
  raw_entry : nat -> JSShapeProperty;
  obj_address : optr -> Z;
  pointer_64 : bool
}.

Section Shapes.
Context `{OC : ObjectConfig}.

Record JSObject : Type := MkObj {
  shape : sptr;
  prop : list JSProperty
}.

(** The reference counts the functions change outside of shapes. *)
Inductive event : Type :=
| DupAtom (atom : Z)
| FreeAtom (atom : Z)
| DupProto (p : optr)
| FreeProto (p : optr)
| FreeProperty (v : JSProperty) (flags : Z).

Record JSShapes : Type := MkRT {
  shapes : gmap sptr JSShape;
  objects : gmap optr JSObject;
  shape_hash_bits : Z;
  shape_hash_size : Z;
  shape_hash_count : Z;
  shape_table : list (option sptr);
  events : list event
}.

(** ** Access *)

Definition shape_at (rt : JSShapes) (p : sptr) : M JSShape :=
  match shapes rt !! p with Some sh => mret sh | None => undefined end.

Definition object_at (rt : JSShapes) (o : optr) : M JSObject :=
  match objects rt !! o with Some p => mret p | None => undefined end.

Definition with_shapes (rt : JSShapes) (m : gmap sptr JSShape) : JSShapes :=
  MkRT m (objects rt) (shape_hash_bits rt) (shape_hash_size rt) (shape_hash_count rt) (shape_table rt) (events rt).

Definition put_shape (rt : JSShapes) (p : sptr) (sh : JSShape) : JSShapes := with_shapes rt (<[p := sh]> (shapes rt)).

Definition put_object (rt : JSShapes) (o : optr) (p : JSObject) : JSShapes :=
  MkRT (shapes rt) (<[o := p]> (objects rt)) (shape_hash_bits rt) (shape_hash_size rt) (shape_hash_count rt) (shape_table rt) (events rt).

Definition with_table (rt : JSShapes) (bits size count : Z) (t : list (option sptr)) : JSShapes :=
  MkRT (shapes rt) (objects rt) bits size count t (events rt).

Definition emit (rt : JSShapes) (l : list event) : JSShapes :=
  MkRT (shapes rt) (objects rt) (shape_hash_bits rt) (shape_hash_size rt) (shape_hash_count rt) (shape_table rt) (events rt ++ l).

Definition set_ref (sh : JSShape) (n : Z) : JSShape :=
  MkShape n (is_hashed sh) (sh_hash sh) (prop_hash_mask sh) (prop_size sh) (prop_count sh) (deleted_prop_count sh) (shape_hash_next sh) (proto sh) (sh_prop sh) (prop_hash sh).

Definition set_hashed (sh : JSShape) (b : bool) (h : Z) : JSShape :=
  MkShape (ref_count sh) b h (prop_hash_mask sh) (prop_size sh) (prop_count sh) (deleted_prop_count sh) (shape_hash_next sh) (proto sh) (sh_prop sh) (prop_hash sh).

Definition set_chain (sh : JSShape) (n : option sptr) : JSShape :=
  MkShape (ref_count sh) (is_hashed sh) (sh_hash sh) (prop_hash_mask sh) (prop_size sh) (prop_count sh) (deleted_prop_count sh) n (proto sh) (sh_prop sh) (prop_hash sh).

Definition set_props (sh : JSShape) (count deleted : Z) (ps : list JSShapeProperty) (ht : list Z) : JSShape :=
  MkShape (ref_count sh) (is_hashed sh) (sh_hash sh) (prop_hash_mask sh) (prop_size sh) count deleted (shape_hash_next sh) (proto sh) ps ht.

Definition set_layout (sh : JSShape) (mask size count deleted : Z) (ps : list JSShapeProperty) (ht : list Z) : JSShape :=
  MkShape (ref_count sh) (is_hashed sh) (sh_hash sh) mask size count deleted (shape_hash_next sh) (proto sh) ps ht.

Definition new_sptr (rt : JSShapes) : sptr := fresh (dom (shapes rt) : gset sptr).
Definition new_optr (rt : JSShapes) : optr := fresh (dom (objects rt) : gset optr).

(** ** Hashes of shapes *)

Definition shape_hash (h val : Z) : Z := wrap 32 (wrap 32 (h + val) * 0x9e370001).

Definition get_shape_hash (h hash_bits : Z) : Z := Z.shiftr h (32 - hash_bits).

Definition address (p : option optr) : Z := match p with Some p => obj_address p | None => 0 end.

Definition shape_initial_hash (p : option optr) : Z :=
  let h := shape_hash 1 (wrap 32 (address p)) in
  if pointer_64 then shape_hash h (wrap 32 (Z.shiftr (address p) 32)) else h.

(** ** The table of shapes *)

Definition init_shape_hash (rt : JSShapes) : M (JSShapes * Z) :=
  let size := Z.shiftl 1 4 in
  ok ← try_alloc;
  if negb ok then mret (with_table rt 4 size 0 [], -1)
  else mret (with_table rt 4 size 0 (replicate (Z.to_nat size) None), 0).

(** [for(sh = rt->shape_hash[i]; sh != NULL; sh = sh_next)]. *)
Fixpoint rehash_shapes (fuel : nat) (rt : JSShapes) (bits : Z) (sh : option sptr) (t : list (option sptr)) : M (JSShapes * list (option sptr)) :=
  match sh with
  | None => mret (rt, t)
  | Some p =>
      match fuel with
      | O => undefined
      | S fuel =>
          s ← shape_at rt p;
          let h := get_shape_hash (sh_hash s) bits in
          n ← tab_get t h;
          t ← tab_set t h (Some p);
          rehash_shapes fuel (put_shape rt p (set_chain s n)) bits (shape_hash_next s) t
      end
  end.

Fixpoint rehash_buckets (l : list (option sptr)) (rt : JSShapes) (bits : Z) (t : list (option sptr)) : M (JSShapes * list (option sptr)) :=
  match l with
  | [] => mret (rt, t)
  | b :: l => '(rt, t) ← rehash_shapes (S (size (shapes rt))) rt bits b t; rehash_buckets l rt bits t
  end.

Definition resize_shape_hash (rt : JSShapes) (bits : Z) : M (JSShapes * Z) :=
  let size := Z.shiftl 1 bits in
  ok ← try_alloc;
  if negb ok then mret (rt, -1)
  else
    l ← tab_slice (shape_table rt) 0 (shape_hash_size rt);
    '(rt, t) ← rehash_buckets l rt bits (replicate (Z.to_nat size) None);
    mret (with_table rt bits size (shape_hash_count rt) t, 0).

Definition js_shape_hash_link (rt : JSShapes) (p : sptr) : M JSShapes :=
  sh ← shape_at rt p;
  let h := get_shape_hash (sh_hash sh) (shape_hash_bits rt) in
  n ← tab_get (shape_table rt) h;
  t ← tab_set (shape_table rt) h (Some p);
  mret (with_table (put_shape rt p (set_chain sh n)) (shape_hash_bits rt) (shape_hash_size rt) (shape_hash_count rt + 1) t).

(** [while ( *psh != sh ) psh = &( *psh )->shape_hash_next; *psh = sh->shape_hash_next],
    [psh] being the field of the shape [q]. *)
Fixpoint unlink_shape (fuel : nat) (rt : JSShapes) (q p : sptr) : M JSShapes :=
  match fuel with
  | O => undefined
  | S fuel =>
      s ← shape_at rt q;
      match shape_hash_next s with
      | None => undefined
      | Some q' =>
          if bool_decide (q' = p) then sh ← shape_at rt p; mret (put_shape rt q (set_chain s (shape_hash_next sh)))
          else unlink_shape fuel rt q' p
      end
  end.

Definition js_shape_hash_unlink (rt : JSShapes) (p : sptr) : M JSShapes :=
  sh ← shape_at rt p;
  let h := get_shape_hash (sh_hash sh) (shape_hash_bits rt) in
  b ← tab_get (shape_table rt) h;
  '(rt, t) ←
    match b with
    | None => undefined
    | Some q =>
        if bool_decide (q = p) then t ← tab_set (shape_table rt) h (shape_hash_next sh); mret (rt, t)
        else rt ← unlink_shape (S (size (shapes rt))) rt q p; mret (rt, shape_table rt)
    end;
  mret (with_table rt (shape_hash_bits rt) (shape_hash_size rt) (shape_hash_count rt - 1) t).

Definition opt_event (f : optr -> event) (p : option optr) : list event := match p with Some p => [f p] | None => [] end.

(** ** Shapes *)

Definition js_new_shape_nohash (rt : JSShapes) (pr : option optr) (hash_size size : Z) : M (JSShapes * option sptr) :=
  ok ← try_alloc;
  if negb ok then mret (rt, None)
  else
    let p := new_sptr rt in
    let sh := MkShape 1 false 0 (hash_size - 1) size 0 0 None pr (raw_entry <$> seq 0 (Z.to_nat size)) (replicate (Z.to_nat hash_size) 0) in
    mret (emit (put_shape rt p sh) (opt_event DupProto pr), Some p).

Definition js_new_shape2 (rt : JSShapes) (pr : option optr) (hash_size size : Z) : M (JSShapes * option sptr) :=
  '(rt, _) ← (if shape_hash_size rt <? 2 * (shape_hash_count rt + 1) then resize_shape_hash rt (shape_hash_bits rt + 1) else mret (rt, 0));
  '(rt, q) ← js_new_shape_nohash rt pr hash_size size;
  match q with
  | None => mret (rt, None)
  | Some p =>
      sh ← shape_at rt p;
      rt ← js_shape_hash_link (put_shape rt p (set_hashed sh true (shape_initial_hash pr))) p;
      mret (rt, Some p)
  end.

Definition js_new_shape (rt : JSShapes) (pr : option optr) : M (JSShapes * option sptr) :=
  js_new_shape2 rt pr JS_PROP_INITIAL_HASH_SIZE JS_PROP_INITIAL_SIZE.

Definition js_clone_shape (rt : JSShapes) (p : sptr) : M (JSShapes * option sptr) :=
  sh ← shape_at rt p;
  ok ← try_alloc;
  if negb ok then mret (rt, None)
  else
    let q := new_sptr rt in
    ps ← tab_slice (sh_prop sh) 0 (prop_count sh);
    mret (emit (put_shape rt q (set_hashed (set_ref sh 1) false (sh_hash sh)))
            (opt_event DupProto (proto sh) ++ ((fun e => DupAtom (sp_atom e)) <$> ps)), Some q).

Definition js_dup_shape (rt : JSShapes) (p : sptr) : M JSShapes :=
  sh ← shape_at rt p; mret (put_shape rt p (set_ref sh (ref_count sh + 1))).

Definition js_free_shape0 (rt : JSShapes) (p : sptr) : M JSShapes :=
  sh ← shape_at rt p;
  if negb (ref_count sh =? 0) then undefined
  else
    rt ← (if is_hashed sh then js_shape_hash_unlink rt p else mret rt);
    ps ← tab_slice (sh_prop sh) 0 (prop_count sh);
    mret (emit (with_shapes rt (delete p (shapes rt))) (opt_event FreeProto (proto sh) ++ ((fun e => FreeAtom (sp_atom e)) <$> ps))).

Definition js_free_shape (rt : JSShapes) (p : sptr) : M JSShapes :=
  sh ← shape_at rt p;
  let n := ref_count sh - 1 in
  let rt := put_shape rt p (set_ref sh n) in
  if n <=? 0 then js_free_shape0 rt p else mret rt.

(** ** Property tables *)

(** [while (new_hash_size < new_size) new_hash_size = 2 * new_hash_size]. *)
Fixpoint hash_size_up (fuel : nat) (hash_size size : Z) : M Z :=
  match fuel with
  | O => undefined
  | S fuel => if hash_size <? size then hash_size_up fuel (wrap 32 (2 * hash_size)) size else mret hash_size
  end.

(** [while ((new_hash_size / 2) >= new_size) new_hash_size = new_hash_size / 2]. *)
Fixpoint hash_size_down (fuel : nat) (hash_size size : Z) : M Z :=
  match fuel with
  | O => undefined
  | S fuel => if size <=? hash_size / 2 then hash_size_down fuel (hash_size / 2) size else mret hash_size
  end.

(** The entry [i] at the front of its chain. *)
Definition link_entry (ps : list JSShapeProperty) (ht : list Z) (mask i : Z) (flags atom : Z) : M (list JSShapeProperty * list Z) :=
  let h := Z.land atom mask in
  n ← tab_get ht h;
  ps ← tab_set ps i (entry n flags atom);
  ht ← tab_set ht h (i + 1);
  mret (ps, ht).

(** [for(i = 0, pr = sh->prop; i < sh->prop_count; i++, pr++)] of [resize_properties]. *)
Fixpoint rehash_props (k : nat) (ps : list JSShapeProperty) (ht : list Z) (mask i : Z) : M (list JSShapeProperty * list Z) :=
  match k with
  | O => mret (ps, ht)
  | S k =>
      e ← tab_get ps i;
      '(ps, ht) ← (if negb (sp_atom e =? 0) then link_entry ps ht mask i (sp_flags e) (sp_atom e) else mret (ps, ht));
      rehash_props k ps ht mask (i + 1)
  end.

(** [js_realloc] of the property values to [n] of them. *)
Definition realloc_props (l : list JSProperty) (n : Z) : list JSProperty :=
  take (Z.to_nat n) l ++ (raw_property <$> seq (length l) (Z.to_nat n - length l)).

(** [sh] is the shape, [o] the object whose values are resized with it, if any; the
    shape moves, and the caller stores its new address. *)
Definition resize_properties (rt : JSShapes) (p : sptr) (o : option optr) (count : Z) : M (JSShapes * option sptr) :=
  sh ← shape_at rt p;
  t ← int_of (prop_size sh * 3);
  let new_size := Z.max count (t / 2) in
  '(rt, ok) ←
    match o with
    | None => mret (rt, true)
    | Some o =>
        ob ← object_at rt o;
        ok ← try_alloc;
        if negb ok then mret (rt, false) else mret (put_object rt o (MkObj (shape ob) (realloc_props (prop ob) new_size)), true)
    end;
  if negb ok then mret (rt, None)
  else
    new_hash_size ← hash_size_up 33 (prop_hash_mask sh + 1) new_size;
    ok ← try_alloc;
    if negb ok then mret (rt, None)
    else
      old ← tab_slice (sh_prop sh) 0 (prop_count sh);
      let ps := old ++ (raw_entry <$> seq 0 (Z.to_nat new_size - length old)) in
      '(ps, ht) ←
        (if negb (new_hash_size =? prop_hash_mask sh + 1) then
           rehash_props (Z.to_nat (prop_count sh)) ps (replicate (Z.to_nat new_hash_size) 0) (new_hash_size - 1) 0
         else mret (ps, prop_hash sh));
      let q := new_sptr rt in
      let sh' := set_layout sh (new_hash_size - 1) new_size (prop_count sh) (deleted_prop_count sh) ps ht in
      mret (with_shapes rt (<[q := sh']> (delete p (shapes rt))), Some q).

(** The loop of [compact_properties]: the entries [l] from [i] on, the new entries
    and values at [j]. *)
Fixpoint compact_loop (l : list JSShapeProperty) (ps : list JSShapeProperty) (ht : list Z) (mask i j : Z) (vs : list JSProperty) :
    M (list JSShapeProperty * list Z * list JSProperty * Z) :=
  match l with
  | [] => mret (ps, ht, vs, j)
  | e :: l =>
      if negb (sp_atom e =? 0) then
        '(ps, ht) ← link_entry ps ht mask j (sp_flags e) (sp_atom e);
        v ← tab_get vs i;
        vs ← tab_set vs j v;
        compact_loop l ps ht mask (i + 1) (j + 1) vs
      else compact_loop l ps ht mask (i + 1) j vs
  end.

Definition compact_properties (rt : JSShapes) (o : optr) : M (JSShapes * Z) :=
  ob ← object_at rt o;
  sh ← shape_at rt (shape ob);
  if is_hashed sh then undefined
  else
    let live := prop_count sh - deleted_prop_count sh in
    let new_size := Z.max JS_PROP_INITIAL_SIZE live in
    if prop_size sh <? new_size then undefined
    else
      new_hash_size ← hash_size_down 33 (prop_hash_mask sh + 1) new_size;
      ok ← try_alloc;
      if negb ok then mret (rt, -1)
      else
        old ← tab_slice (sh_prop sh) 0 (prop_count sh);
        '(ps, ht, vs, j) ← compact_loop old (raw_entry <$> seq 0 (Z.to_nat new_size)) (replicate (Z.to_nat new_hash_size) 0) (new_hash_size - 1) 0 0 (prop ob);
        if negb (j =? live) then undefined
        else
          let q := new_sptr rt in
          let sh' := set_layout sh (new_hash_size - 1) new_size j 0 ps ht in
          ok ← try_alloc;
          let vs := if ok : bool then realloc_props vs new_size else vs in
          mret (put_object (with_shapes rt (<[q := sh']> (delete (shape ob) (shapes rt)))) o (MkObj q vs), 0).

(** The new address of the shape, or nothing after a failure, which leaves the
    shape as it was. *)
Definition add_shape_property (rt : JSShapes) (p : sptr) (o : option optr) (atom flags : Z) : M (JSShapes * option sptr) :=
  sh ← shape_at rt p;
  rt ← (if is_hashed sh then js_shape_hash_unlink rt p else mret rt);
  let new_hash := shape_hash (shape_hash (sh_hash sh) atom) flags in
  '(rt, r) ← (if prop_size sh <=? prop_count sh then n ← int_of (prop_count sh + 1); resize_properties rt p o n else mret (rt, Some p));
  match r with
  | None => rt ← (if is_hashed sh then js_shape_hash_link rt p else mret rt); mret (rt, None)
  | Some q =>
      sh ← shape_at rt q;
      rt ← (if is_hashed sh then js_shape_hash_link (put_shape rt q (set_hashed sh true new_hash)) q else mret rt);
      sh ← shape_at rt q;
      '(ps, ht) ← link_entry (sh_prop sh) (prop_hash sh) (prop_hash_mask sh) (prop_count sh) flags atom;
      mret (emit (put_shape rt q (set_props sh (prop_count sh + 1) (deleted_prop_count sh) ps ht)) [DupAtom atom], Some q)
  end.

(** ** Lookups *)

(** The chain of shapes for a prototype. *)
Fixpoint find_proto_loop (fuel : nat) (rt : JSShapes) (h : Z) (pr : option optr) (q : option sptr) : M (option sptr) :=
  match q with
  | None => mret None
  | Some p =>
      match fuel with
      | O => undefined
      | S fuel =>
          s ← shape_at rt p;
          if (sh_hash s =? h) && bool_decide (proto s = pr) && (prop_count s =? 0) then mret (Some p)
          else find_proto_loop fuel rt h pr (shape_hash_next s)
      end
  end.

Definition find_hashed_shape_proto (rt : JSShapes) (pr : option optr) : M (option sptr) :=
  let h := shape_initial_hash pr in
  b ← tab_get (shape_table rt) (get_shape_hash h (shape_hash_bits rt));
  find_proto_loop (S (size (shapes rt))) rt h pr b.

(** [for(i = 0; i < n; i++)]: the same atoms and flags. *)
Fixpoint same_props (k : nat) (l1 l2 : list JSShapeProperty) (i : Z) : M bool :=
  match k with
  | O => mret true
  | S k =>
      a ← tab_get l1 i;
      b ← tab_get l2 i;
      if negb (sp_atom a =? sp_atom b) || negb (sp_flags a =? sp_flags b) then mret false else same_props k l1 l2 (i + 1)
  end.

Fixpoint find_prop_loop (fuel : nat) (rt : JSShapes) (h : Z) (sh : JSShape) (atom flags : Z) (q : option sptr) : M (option sptr) :=
  match q with
  | None => mret None
  | Some p =>
      match fuel with
      | O => undefined
      | S fuel =>
          s ← shape_at rt p;
          found ←
            (if (sh_hash s =? h) && bool_decide (proto s = proto sh) && (prop_count s =? prop_count sh + 1) then
               b ← same_props (Z.to_nat (prop_count sh)) (sh_prop s) (sh_prop sh) 0;
               if b : bool then
                 e ← tab_get (sh_prop s) (prop_count sh);
                 mret (negb (negb (sp_atom e =? atom) || negb (sp_flags e =? flags)))
               else mret false
             else mret false);
          if found : bool then mret (Some p) else find_prop_loop fuel rt h sh atom flags (shape_hash_next s)
      end
  end.

Definition find_hashed_shape_prop (rt : JSShapes) (p : sptr) (atom flags : Z) : M (option sptr) :=
  sh ← shape_at rt p;
  let h := shape_hash (shape_hash (sh_hash sh) atom) flags in
  b ← tab_get (shape_table rt) (get_shape_hash h (shape_hash_bits rt));
  find_prop_loop (S (size (shapes rt))) rt h sh atom flags b.

(** [while (h)]: the index of the entry with the atom. *)
Fixpoint find_entry (fuel : nat) (ps : list JSShapeProperty) (atom h : Z) : M (option Z) :=
  if h =? 0 then mret None
  else
    match fuel with
    | O => undefined
    | S fuel =>
        e ← tab_get ps (h - 1);
        if sp_atom e =? atom then mret (Some (h - 1)) else find_entry fuel ps atom (sp_next e)
    end.

(** The index, the entry and the value of the property. *)
Definition find_own_property (rt : JSShapes) (o : optr) (atom : Z) : M (option (Z * JSShapeProperty * JSProperty)) :=
  ob ← object_at rt o;
  sh ← shape_at rt (shape ob);
  h ← tab_get (prop_hash sh) (Z.land atom (prop_hash_mask sh));
  r ← find_entry (length (sh_prop sh)) (sh_prop sh) atom h;
  match r with
  | None => mret None
  | Some i => e ← tab_get (sh_prop sh) i; v ← tab_get (prop ob) i; mret (Some (i, e, v))
  end.

(** ** Objects *)

(** For the class [JS_CLASS_OBJECT], whose fields are constants; the garbage
    collection that [js_trigger_gc] may start is not part of it. *)
Definition JS_NewObjectFromShape (rt : JSShapes) (p : sptr) : M (JSShapes * option optr) :=
  ok ← try_alloc;
  if negb ok then rt ← js_free_shape rt p; mret (rt, None)
  else
    sh ← shape_at rt p;
    ok ← try_alloc;
    if negb ok then rt ← js_free_shape rt p; mret (rt, None)
    else
      let o := new_optr rt in
      mret (put_object rt o (MkObj p (raw_property <$> seq 0 (Z.to_nat (prop_size sh)))), Some o).

Definition JS_NewObjectProto (rt : JSShapes) (pr : option optr) : M (JSShapes * option optr) :=
  q ← find_hashed_shape_proto rt pr;
  '(rt, q) ← match q with
             | Some p => rt ← js_dup_shape rt p; mret (rt, Some p)
             | None => js_new_shape rt pr
             end;
  match q with
  | None => mret (rt, None)
  | Some p => JS_NewObjectFromShape rt p
  end.

Definition js_shape_prepare_update (rt : JSShapes) (o : optr) : M (JSShapes * Z) :=
  ob ← object_at rt o;
  sh ← shape_at rt (shape ob);
  if is_hashed sh then
    if negb (ref_count sh =? 1) then
      '(rt, q) ← js_clone_shape rt (shape ob);
      match q with
      | None => mret (rt, -1)
      | Some q => rt ← js_free_shape rt (shape ob); mret (put_object rt o (MkObj q (prop ob)), 0)
      end
    else
      rt ← js_shape_hash_unlink rt (shape ob);
      sh ← shape_at rt (shape ob);
      mret (put_shape rt (shape ob) (set_hashed sh false (sh_hash sh)), 0)
  else mret (rt, 0).

(** The index of the new property, whose value is not initialised, or nothing after
    a refused allocation. *)
Definition add_property (rt : JSShapes) (o : optr) (atom flags : Z) : M (JSShapes * option Z) :=
  ob ← object_at rt o;
  sh ← shape_at rt (shape ob);
  r ← (if is_hashed sh then find_hashed_shape_prop rt (shape ob) atom flags else mret None);
  match r with
  | Some q =>
      sh' ← shape_at rt q;
      '(rt, ok) ←
        (if negb (prop_size sh' =? prop_size sh) then
           ok ← try_alloc;
           if negb ok then mret (rt, false)
           else mret (put_object rt o (MkObj (shape ob) (realloc_props (prop ob) (prop_size sh'))), true)
         else mret (rt, true));
      if negb ok then mret (rt, None)
      else
        rt ← js_dup_shape rt q;
        ob' ← object_at rt o;
        rt ← js_free_shape (put_object rt o (MkObj q (prop ob'))) (shape ob);
        mret (rt, Some (prop_count sh' - 1))
  | None =>
      '(rt, ok) ←
        (if is_hashed sh && negb (ref_count sh =? 1) then
           '(rt, q) ← js_clone_shape rt (shape ob);
           match q with
           | None => mret (rt, false)
           | Some q =>
               s ← shape_at rt q;
               rt ← js_shape_hash_link (put_shape rt q (set_hashed s true (sh_hash s))) q;
               rt ← js_free_shape rt (shape ob);
               mret (put_object rt o (MkObj q (prop ob)), true)
           end
         else mret (rt, true));
      if negb ok then mret (rt, None)
      else
        ob ← object_at rt o;
        s ← shape_at rt (shape ob);
        if negb (ref_count s =? 1) then undefined
        else
          '(rt, q) ← add_shape_property rt (shape ob) (Some o) atom flags;
          match q with
          | None => mret (rt, None)
          | Some q =>
              ob ← object_at rt o;
              s ← shape_at rt q;
              mret (put_object rt o (MkObj q (prop ob)), Some (prop_count s - 1))
          end
  end.

(** The walk of [delete_property]: the index of the entry with the atom and of the
    one before it in the chain. *)
Fixpoint find_delete (fuel : nat) (ps : list JSShapeProperty) (atom h : Z) (lpr : option Z) : M (option (Z * option Z)) :=
  if h =? 0 then mret None
  else
    match fuel with
    | O => undefined
    | S fuel =>
        e ← tab_get ps (h - 1);
        if sp_atom e =? atom then mret (Some (h - 1, lpr)) else find_delete fuel ps atom (sp_next e) (Some (h - 1))
    end.

(** For an object that is neither exotic nor the global object. *)
Definition delete_property (rt : JSShapes) (o : optr) (atom : Z) : M (JSShapes * Z) :=
  ob ← object_at rt o;
  sh ← shape_at rt (shape ob);
  let h1 := Z.land atom (prop_hash_mask sh) in
  h ← tab_get (prop_hash sh) h1;
  r ← find_delete (length (sh_prop sh)) (sh_prop sh) atom h None;
  match r with
  | None => mret (rt, 1)
  | Some (i, lpr) =>
      e ← tab_get (sh_prop sh) i;
      if Z.land (sp_flags e) JS_PROP_CONFIGURABLE =? 0 then mret (rt, 0)
      else
        '(rt, r) ← js_shape_prepare_update rt o;
        if negb (r =? 0) then mret (rt, -1)
        else
          ob ← object_at rt o;
          sh ← shape_at rt (shape ob);
          e ← tab_get (sh_prop sh) i;
          '(ps, ht) ←
            match lpr with
            | Some k => l ← tab_get (sh_prop sh) k; ps ← tab_set (sh_prop sh) k (MkSP (sp_next e) (sp_flags l) (sp_atom l)); mret (ps, prop_hash sh)
            | None => ht ← tab_set (prop_hash sh) h1 (sp_next e); mret (sh_prop sh, ht)
            end;
          v ← tab_get (prop ob) i;
          ps ← tab_set ps i (MkSP (sp_next e) 0 0);
          vs ← tab_set (prop ob) i JS_UNDEFINED;
          let deleted := deleted_prop_count sh + 1 in
          let rt := emit (put_object (put_shape rt (shape ob) (set_props sh (prop_count sh) deleted ps ht)) o (MkObj (shape ob) vs))
                      [FreeProperty v (sp_flags e); FreeAtom (sp_atom e)] in
          '(rt, _) ← (if (8 <=? deleted) && (prop_count sh / 2 <=? deleted) then compact_properties rt o else mret (rt, 0));
          mret (rt, 1)
  end.

(** New flags for the property [i]. *)
Definition js_update_property_flags (rt : JSShapes) (o : optr) (i flags : Z) : M (JSShapes * Z) :=
  ob ← object_at rt o;
  sh ← shape_at rt (shape ob);
  e ← tab_get (sh_prop sh) i;
  if negb (flags =? sp_flags e) then
    '(rt, r) ← js_shape_prepare_update rt o;
    if negb (r =? 0) then mret (rt, -1)
    else
      ob ← object_at rt o;
      sh ← shape_at rt (shape ob);
      e ← tab_get (sh_prop sh) i;
      ps ← tab_set (sh_prop sh) i (MkSP (sp_next e) (wrap 6 flags) (sp_atom e));
      mret (put_shape rt (shape ob) (set_props sh (prop_count sh) (deleted_prop_count sh) ps (prop_hash sh)), 0)
  else mret (rt, 0).

(** The store of a value into a property that [find_own_property] or
    [add_property] returned. *)
Definition set_value (rt : JSShapes) (o : optr) (i : Z) (v : JSProperty) : M JSShapes :=
  ob ← object_at rt o;
  vs ← tab_set (prop ob) i v;
  mret (put_object rt o (MkObj (shape ob) vs)).

(** The values and the shape of an object that is freed ([free_object]). *)
Definition free_object (rt : JSShapes) (o : optr) : M JSShapes :=
  ob ← object_at rt o;
  sh ← shape_at rt (shape ob);
  ps ← tab_slice (sh_prop sh) 0 (prop_count sh);
  vs ← tab_slice (prop ob) 0 (prop_count sh);
  let rt := emit rt (zip_with (fun v e => FreeProperty v (sp_flags e)) vs ps) in
  let rt := MkRT (shapes rt) (delete o (objects rt)) (shape_hash_bits rt) (shape_hash_size rt) (shape_hash_count rt) (shape_table rt) (events rt) in
  js_free_shape rt (shape ob).

End Shapes.
