(* ===== verification/ShapeTables.v ===== *)
(** The property table of a shape: its hash chains follow from its entries.

    A chain lists the entries of its bucket from the last to the first, so the head
    of the chain and the links are determined by the atoms of the entries:
    [head_of ps mask h n] is the last of the first [n] entries in bucket [h], plus
    one.  [table_ok] says that the table and the links are these.

    The properties of an object as rows, and what the loops on property tables do
    to them. *)
From Stdlib Require Import ZArith Lia.
From S2P Require Import Prelude Shapes.
From stdpp Require Import base tactics numbers list.

Open Scope Z_scope.

Definition live (e : JSShapeProperty) : bool := negb (sp_atom e =? 0).

(** The entry is in the bucket [h]. *)
Definition in_bucket (mask h : Z) (e : JSShapeProperty) : bool := live e && (Z.land (sp_atom e) mask =? h).

Fixpoint head_of (ps : list JSShapeProperty) (mask h : Z) (n : nat) : Z :=
  match n with
  | O => 0
  | S n =>
      match ps !! n with
      | Some e => if in_bucket mask h e then Z.of_nat n + 1 else head_of ps mask h n
      | None => head_of ps mask h n
      end
  end.

Lemma head_of_range ps mask h n : 0 <= head_of ps mask h n <= Z.of_nat n.
Proof. induction n as [|n IH]; [cbn; lia|]. cbn [head_of]. destruct (ps !! n) as [e|]; [destruct (in_bucket mask h e)|]; lia. Qed.

Lemma head_of_ext ps ps' mask h n :
  (forall i, (i < n)%nat -> sp_atom <$> ps !! i = sp_atom <$> ps' !! i) -> head_of ps mask h n = head_of ps' mask h n.
Proof.
  induction n as [|n IH]; intros H; [reflexivity|]. cbn [head_of]. specialize (H n) as Hn. specialize (IH (fun i Hi => H i ltac:(lia))).
  specialize (Hn ltac:(lia)). destruct (ps !! n) as [e|], (ps' !! n) as [e'|]; try discriminate; [|exact IH].
  cbn in Hn. injection Hn as Hn. unfold in_bucket, live. rewrite Hn, IH. reflexivity.
Qed.

Lemma head_of_skip ps mask h n : (forall e, ps !! n = Some e -> in_bucket mask h e = false) -> head_of ps mask h (S n) = head_of ps mask h n.
Proof. intros H. cbn [head_of]. destruct (ps !! n) as [e|]; [rewrite (H e eq_refl)|]; reflexivity. Qed.

Lemma head_of_here ps mask h n e : ps !! n = Some e -> in_bucket mask h e = true -> head_of ps mask h (S n) = Z.of_nat n + 1.
Proof. intros He Hb. cbn [head_of]. rewrite He, Hb. reflexivity. Qed.

Lemma bucket_cases (ps : list JSShapeProperty) mask h (n : nat) :
  (exists e, ps !! n = Some e /\ in_bucket mask h e = true) \/ (forall e, ps !! n = Some e -> in_bucket mask h e = false).
Proof. destruct (ps !! n) as [e|]; [|right; discriminate]. destruct (in_bucket mask h e) eqn:E; [eauto|right; intros e' [= <-]; exact E]. Qed.

(** What a head says of the entries. *)
Lemma head_of_cases ps mask h n :
  head_of ps mask h n = 0 /\ (forall i e, (i < n)%nat -> ps !! i = Some e -> in_bucket mask h e = false) \/
  exists j e, head_of ps mask h n = Z.of_nat j + 1 /\ (j < n)%nat /\ ps !! j = Some e /\ in_bucket mask h e = true /\
    (forall i e', (j < i < n)%nat -> ps !! i = Some e' -> in_bucket mask h e' = false).
Proof.
  induction n as [|n IH]; [left; split; [reflexivity|intros; lia]|]. destruct (bucket_cases ps mask h n) as [(e & He & Hb)|Hs].
  - right. exists n, e. rewrite (head_of_here _ _ _ _ e He Hb). repeat split; [lia|exact He|exact Hb|intros; lia].
  - rewrite head_of_skip by exact Hs. destruct IH as [[H1 H2]|(j & e & H1 & H2 & H3 & H4 & H5)]; [left|right].
    + split; [exact H1|]. intros i e Hi He. destruct (decide (i = n)) as [->|]; [exact (Hs e He)|apply (H2 i); [lia|exact He]].
    + exists j, e. repeat split; try assumption; [lia|]. intros i e' Hi He'. destruct (decide (i = n)) as [->|]; [exact (Hs e' He')|apply (H5 i); [lia|exact He']].
Qed.

(** Between a head and the bound there is nothing of the bucket. *)
Lemma head_of_shrink ps mask h n m :
  (m <= n)%nat -> (forall i e, (m <= i < n)%nat -> ps !! i = Some e -> in_bucket mask h e = false) -> head_of ps mask h n = head_of ps mask h m.
Proof.
  intros Hmn H. induction n as [|n IH]; [f_equal; lia|]. destruct (decide (m = S n)) as [->|Hne]; [reflexivity|]. cbn [head_of].
  destruct (ps !! n) as [e|] eqn:En; [rewrite (H n e ltac:(lia) En)|]; (apply IH; [lia|]; intros i e' Hi; apply H; lia).
Qed.

Record table_ok (mask : Z) (n : nat) (ps : list JSShapeProperty) (ht : list Z) : Prop := {
  to_mask : exists k, 0 <= k <= 31 /\ mask = 2 ^ k - 1;
  to_len : len ht = mask + 1;
  to_heads : forall h, 0 <= h <= mask -> ht !! Z.to_nat h = Some (head_of ps mask h n);
  to_next : forall i e, (i < n)%nat -> ps !! i = Some e -> live e = true -> sp_next e = head_of ps mask (Z.land (sp_atom e) mask) i
}.

Lemma prop_bucket_range mask n ps ht a : table_ok mask n ps ht -> 0 <= a -> 0 <= Z.land a mask <= mask.
Proof.
  intros [(k & Hk & ->) _ _ _] Ha. rewrite land_mask by lia. pose proof (Z.mod_pos_bound a (2 ^ k) ltac:(apply Z.pow_pos_nonneg; lia)). lia.
Qed.

Lemma table_head mask n ps ht a : table_ok mask n ps ht -> 0 <= a -> tab_get ht (Z.land a mask) = mret (head_of ps mask (Z.land a mask) n).
Proof. intros T Ha. pose proof (prop_bucket_range _ _ _ _ a T Ha). apply tab_get_lookup; [lia|]. apply (to_heads _ _ _ _ T). lia. Qed.

(** ** Lookup *)

(** The first match in the chain is the last entry with the atom. *)
Definition last_with (ps : list JSShapeProperty) (atom : Z) (m : nat) (r : option Z) : Prop :=
  match r with
  | Some i => exists j e, i = Z.of_nat j /\ (j < m)%nat /\ ps !! j = Some e /\ sp_atom e = atom /\ (forall k e', (j < k < m)%nat -> ps !! k = Some e' -> sp_atom e' <> atom)
  | None => forall k e, (k < m)%nat -> ps !! k = Some e -> sp_atom e <> atom
  end.

Lemma in_bucket_atom mask e atom : atom <> 0 -> sp_atom e = atom -> in_bucket mask (Z.land atom mask) e = true.
Proof. intros H0 E. unfold in_bucket, live. rewrite E, Z.eqb_refl, (proj2 (Z.eqb_neq atom 0) H0). reflexivity. Qed.

(** One step along the chain of the atom. *)
Lemma chain_step mask n ps ht atom m :
  table_ok mask n ps ht -> atom <> 0 -> (m <= n)%nat ->
  head_of ps mask (Z.land atom mask) m = 0 /\ last_with ps atom m None \/
  exists j e, head_of ps mask (Z.land atom mask) m = Z.of_nat j + 1 /\ (j < m)%nat /\ ps !! j = Some e /\ in_bucket mask (Z.land atom mask) e = true /\
    sp_next e = head_of ps mask (Z.land atom mask) j /\ (sp_atom e = atom -> last_with ps atom m (Some (Z.of_nat j))) /\
    (sp_atom e <> atom -> forall r, last_with ps atom j r -> last_with ps atom m r).
Proof.
  intros T H0 Hm. destruct (head_of_cases ps mask (Z.land atom mask) m) as [[H1 H2]|(j & e & H1 & H2 & H3 & H4 & H5)]; [left|right].
  - split; [exact H1|]. intros k e Hk He E. specialize (H2 k e Hk He). rewrite (in_bucket_atom mask e atom H0 E) in H2. discriminate.
  - exists j, e. split; [exact H1|]. split; [exact H2|]. split; [exact H3|]. split; [exact H4|].
    unfold in_bucket in H4. apply andb_true_iff in H4. destruct H4 as [Hl Hb]. apply Z.eqb_eq in Hb. split; [rewrite <- Hb; apply (to_next _ _ _ _ T j e); [lia|exact H3|exact Hl]|].
    assert (Hgap : forall k e', (j < k < m)%nat -> ps !! k = Some e' -> sp_atom e' <> atom).
    { intros k e' Hk He' E. specialize (H5 k e' Hk He'). rewrite (in_bucket_atom mask e' atom H0 E) in H5. discriminate. }
    split; [intros E; exists j, e; auto|]. intros E r. destruct r as [i|]; cbn.
    + intros (j' & e' & -> & L1 & L2 & L3 & L4). exists j', e'. repeat split; try assumption; [lia|]. intros k e'' Hk He''.
      destruct (decide (k < j)%nat); [apply (L4 k); [lia|exact He'']|]. destruct (decide (k = j)) as [->|]; [congruence|apply (Hgap k); [lia|exact He'']].
    + intros L k e' Hk He'. destruct (decide (k < j)%nat); [apply (L k); [lia|exact He']|]. destruct (decide (k = j)) as [->|]; [congruence|apply (Hgap k); [lia|exact He']].
Qed.

Lemma find_entry_spec mask n ps ht atom : table_ok mask n ps ht -> atom <> 0 -> forall fuel m,
  (m <= n)%nat -> (m <= fuel)%nat -> exists r, find_entry fuel ps atom (head_of ps mask (Z.land atom mask) m) = mret r /\ last_with ps atom m r.
Proof.
  intros T H0. induction fuel as [|fuel IH]; intros m Hm Hf.
  - assert (m = O) as -> by lia. exists None. split; [reflexivity|]. intros k e Hk. lia.
  - cbn [find_entry]. destruct (chain_step mask n ps ht atom m T H0 Hm) as [[-> L]|(j & e & -> & Hj & He & Hb & Hn & L1 & L2)].
    + exists None. split; [reflexivity|exact L].
    + rewrite (proj2 (Z.eqb_neq _ 0)) by lia. rewrite Z.add_simpl_r. rewrite (tab_get_lookup ps (Z.of_nat j) e), ret_bind by (rewrite ?Nat2Z.id; lia || exact He).
      destruct (Z.eqb_spec (sp_atom e) atom) as [E|E]; [eexists; split; [reflexivity|apply L1, E]|].
      rewrite Hn. destruct (IH j ltac:(lia) ltac:(lia)) as (r & -> & Lr). exists r. split; [reflexivity|apply L2; assumption].
Qed.

(** The entry before [i] in its chain, or its head. *)
Definition pred_of (ps : list JSShapeProperty) (mask h : Z) (n : nat) (i : Z) (lpr : option Z) : Prop :=
  match lpr with
  | None => head_of ps mask h n = i + 1
  | Some k => exists j e, k = Z.of_nat j /\ (j < n)%nat /\ i < k /\ ps !! j = Some e /\ in_bucket mask h e = true /\ head_of ps mask h j = i + 1
  end.

Lemma find_delete_spec mask n ps ht atom : table_ok mask n ps ht -> atom <> 0 -> forall fuel m lpr,
  (m <= n)%nat -> (m <= fuel)%nat ->
  (lpr = None /\ m = n \/ exists e, lpr = Some (Z.of_nat m) /\ (m < n)%nat /\ ps !! m = Some e /\ in_bucket mask (Z.land atom mask) e = true) ->
  exists r, find_delete fuel ps atom (head_of ps mask (Z.land atom mask) m) lpr = mret r /\ last_with ps atom m (fst <$> r) /\
    forall i l, r = Some (i, l) -> pred_of ps mask (Z.land atom mask) n i l.
Proof.
  intros T H0. induction fuel as [|fuel IH]; intros m lpr Hm Hf Hl.
  - assert (m = O) as -> by lia. exists None. split; [reflexivity|]. split; [intros k e Hk; lia|discriminate].
  - cbn [find_delete]. destruct (chain_step mask n ps ht atom m T H0 Hm) as [[-> L]|(j & e & Eh & Hj & He & Hb & Hn & L1 & L2)].
    + exists None. split; [reflexivity|]. split; [exact L|discriminate].
    + rewrite Eh, (proj2 (Z.eqb_neq _ 0)) by lia. rewrite Z.add_simpl_r. rewrite (tab_get_lookup ps (Z.of_nat j) e), ret_bind by (rewrite ?Nat2Z.id; lia || exact He).
      destruct (Z.eqb_spec (sp_atom e) atom) as [E|E].
      * eexists. split; [reflexivity|]. split; [apply L1, E|]. intros i l [= <- <-]. destruct Hl as [[-> ->]|(e' & -> & H1 & H2 & H3)]; [exact Eh|].
        exists m, e'. repeat split; try assumption. lia.
      * rewrite Hn. destruct (IH j (Some (Z.of_nat j)) ltac:(lia) ltac:(lia)) as (r & -> & Lr & Hr); [right; exists e; repeat split; try assumption; lia|].
        exists r. split; [reflexivity|]. split; [apply L2; assumption|exact Hr].
Qed.

(** ** Insertion *)

Lemma atom_insert (ps : list JSShapeProperty) (n : nat) e (i : nat) : (i < n)%nat -> sp_atom <$> ps !! i = sp_atom <$> <[n := e]> ps !! i.
Proof. intros Hi. rewrite list_lookup_insert_ne by lia. reflexivity. Qed.

(** The entry [n], once it is live and linked at the head of its bucket. *)
Lemma table_link mask n ps ht flags atom :
  table_ok mask n ps ht -> (n < length ps)%nat -> 0 < atom ->
  let h := Z.land atom mask in
  table_ok mask (S n) (<[n := MkSP (head_of ps mask h n) flags atom]> ps) (<[Z.to_nat h := Z.of_nat n + 1]> ht).
Proof.
  intros T Hn Ha h. pose proof (prop_bucket_range _ _ _ _ atom T ltac:(lia)) as Hh. set (e := MkSP (head_of ps mask h n) flags atom).
  assert (He : <[n := e]> ps !! n = Some e) by (apply list_lookup_insert_eq; exact Hn).
  pose proof (to_len _ _ _ _ T) as Hl. split; [apply (to_mask _ _ _ _ T)|unfold len in *; rewrite length_insert; exact Hl| |].
  - intros h' Hh'. destruct (decide (h' = h)) as [->|Hne].
    + rewrite (head_of_here _ _ _ _ e He) by (apply in_bucket_atom; [lia|reflexivity]). apply list_lookup_insert_eq. unfold len in Hl. lia.
    + rewrite list_lookup_insert_ne by lia. rewrite head_of_skip.
      * rewrite <- (head_of_ext ps) by (intros i Hi; apply atom_insert; lia). apply (to_heads _ _ _ _ T); lia.
      * intros e' He'. rewrite He in He'. injection He' as <-. unfold in_bucket. cbn. fold h. rewrite (proj2 (Z.eqb_neq h h')) by lia. apply andb_false_r.
  - intros i e' Hi He' Hl'. rewrite <- (head_of_ext ps) by (intros i' Hi'; apply atom_insert; lia). destruct (decide (i = n)) as [->|Hne].
    + rewrite He in He'. injection He' as <-. reflexivity.
    + rewrite list_lookup_insert_ne in He' by lia. apply (to_next _ _ _ _ T); [lia|exact He'|exact Hl'].
Qed.

Lemma table_skip mask n ps ht : table_ok mask n ps ht -> (forall e, ps !! n = Some e -> live e = false) -> table_ok mask (S n) ps ht.
Proof.
  intros T Hd. split; [apply (to_mask _ _ _ _ T)|apply (to_len _ _ _ _ T)| |].
  - intros h Hh. rewrite head_of_skip; [apply (to_heads _ _ _ _ T), Hh|]. intros e He. unfold in_bucket. rewrite (Hd e He). reflexivity.
  - intros i e Hi He Hl. destruct (decide (i = n)) as [->|]; [rewrite (Hd e He) in Hl; discriminate|]. apply (to_next _ _ _ _ T); [lia|exact He|exact Hl].
Qed.

(** Entries from [n] on do not matter. *)
Lemma table_ext mask n ps ps' ht : table_ok mask n ps ht -> (forall i, (i < n)%nat -> ps !! i = ps' !! i) -> table_ok mask n ps' ht.
Proof.
  intros T H. split; [apply (to_mask _ _ _ _ T)|apply (to_len _ _ _ _ T)| |].
  - intros h Hh. rewrite <- (head_of_ext ps) by (intros i Hi; rewrite H by lia; reflexivity). apply (to_heads _ _ _ _ T), Hh.
  - intros i e Hi He Hl. rewrite <- (head_of_ext ps) by (intros j Hj; rewrite H by lia; reflexivity). rewrite <- H in He by lia. apply (to_next _ _ _ _ T); [lia|exact He|exact Hl].
Qed.

Lemma link_entry_spec mask n ps ht flags atom :
  table_ok mask n ps ht -> (n < length ps)%nat -> 0 < atom -> Z.of_nat n < 2 ^ 26 -> 0 <= flags < 64 ->
  let h := Z.land atom mask in
  link_entry ps ht mask (Z.of_nat n) flags atom = mret (<[n := MkSP (head_of ps mask h n) flags atom]> ps, <[Z.to_nat h := Z.of_nat n + 1]> ht).
Proof.
  intros T Hn Ha Hb Hf h. unfold link_entry. cbv zeta. rewrite (table_head _ _ _ _ atom T), ret_bind by lia. fold h.
  pose proof (prop_bucket_range _ _ _ _ atom T ltac:(lia)) as Hh. pose proof (to_len _ _ _ _ T) as Hl. pose proof (head_of_range ps mask h n).
  unfold tab_set. rewrite (proj2 (Z.leb_le 0 (Z.of_nat n))), (proj2 (Z.ltb_lt (Z.of_nat n) _)) by (unfold len; lia). cbn [andb]. rewrite ret_bind, Nat2Z.id.
  fold h in Hh. rewrite (proj2 (Z.leb_le 0 h)), (proj2 (Z.ltb_lt h _)) by lia. cbn [andb]. rewrite ret_bind. unfold entry. rewrite !wrap_small by lia. reflexivity.
Qed.

Lemma table_empty k ps n : 0 <= k <= 31 -> n = Z.to_nat (2 ^ k) -> table_ok (2 ^ k - 1) 0 ps (replicate n 0).
Proof.
  intros Hk ->. assert (0 < 2 ^ k) by (apply Z.pow_pos_nonneg; lia). split; [eauto|rewrite len_replicate; lia| |intros; lia].
  intros h Hh. apply lookup_replicate_2. lia.
Qed.

(** ** Rehashing *)

(** The entries with other links. *)
Definition relinked (ps ps' : list JSShapeProperty) : Prop :=
  length ps' = length ps /\ forall i, (fun e => (sp_atom e, sp_flags e)) <$> ps !! i = (fun e => (sp_atom e, sp_flags e)) <$> ps' !! i.

Definition entry_ok (e : JSShapeProperty) : Prop := 0 <= sp_flags e < 64 /\ 0 <= sp_atom e < 2 ^ 32.

Lemma relinked_insert (ps : list JSShapeProperty) (n : nat) e e' : ps !! n = Some e -> sp_atom e' = sp_atom e -> sp_flags e' = sp_flags e -> relinked ps (<[n := e']> ps).
Proof.
  intros He Ha Hf. split; [apply length_insert|]. intros i. destruct (decide (i = n)) as [->|Hne].
  - rewrite list_lookup_insert_eq by (apply lookup_lt_is_Some; eauto). rewrite He. cbn. rewrite Ha, Hf. reflexivity.
  - rewrite list_lookup_insert_ne by lia. reflexivity.
Qed.

Lemma relinked_trans a b c : relinked a b -> relinked b c -> relinked a c.
Proof. intros [H1 H2] [H3 H4]. split; [congruence|]. intros i. rewrite H2. apply H4. Qed.

Lemma relinked_lookup a b (i : nat) e : relinked a b -> b !! i = Some e -> exists e', a !! i = Some e' /\ sp_atom e' = sp_atom e /\ sp_flags e' = sp_flags e.
Proof. intros [_ H] He. specialize (H i). rewrite He in H. destruct (a !! i) as [e'|]; [|discriminate]. cbn in H. injection H as H1 H2. eauto. Qed.

Lemma rehash_props_spec mask k : forall ps ht n,
  table_ok mask n ps ht -> (n + k <= length ps)%nat -> Z.of_nat (n + k) <= 2 ^ 26 -> (forall i e, (i < n + k)%nat -> ps !! i = Some e -> entry_ok e) ->
  exists ps' ht', rehash_props k ps ht mask (Z.of_nat n) = mret (ps', ht') /\ table_ok mask (n + k) ps' ht' /\ relinked ps ps'.
Proof.
  induction k as [|k IH]; intros ps ht n T Hl Hb He.
  - rewrite Nat.add_0_r. exists ps, ht. split; [reflexivity|]. split; [exact T|]. split; auto.
  - cbn [rehash_props]. destruct (lookup_lt_is_Some_2 ps n ltac:(lia)) as [e Ee]. rewrite (tab_get_lookup ps (Z.of_nat n) e), ret_bind by (rewrite ?Nat2Z.id; lia || exact Ee).
    destruct (He n e ltac:(lia) Ee) as [Hf Ha]. replace (Z.of_nat n + 1) with (Z.of_nat (S n)) by lia. replace (n + S k)%nat with (S n + k)%nat in * by lia.
    destruct (Z.eqb_spec (sp_atom e) 0) as [E0|E0]; cbn [negb].
    + rewrite ret_bind. apply IH; [|lia|lia|exact He]. apply table_skip; [exact T|]. intros e' E'. rewrite Ee in E'. injection E' as <-. unfold live. rewrite E0. reflexivity.
    + rewrite (link_entry_spec mask n), ret_bind by (assumption || lia). set (e' := MkSP _ (sp_flags e) (sp_atom e)).
      assert (R : relinked ps (<[n := e']> ps)) by (apply (relinked_insert ps n e); [exact Ee|reflexivity|reflexivity]).
      destruct (IH (<[n := e']> ps) (<[Z.to_nat (Z.land (sp_atom e) mask) := Z.of_nat n + 1]> ht) (S n)) as (ps' & ht' & E & T' & R').
      * apply table_link; [exact T|lia|lia].
      * rewrite length_insert. lia.
      * lia.
      * intros i e0 Hi H0. destruct (relinked_lookup _ _ _ _ R H0) as (e1 & H1 & H2 & H3). specialize (He i e1 Hi H1). unfold entry_ok in *. rewrite <- H2, <- H3. exact He.
      * exists ps', ht'. split; [exact E|]. split; [exact T'|]. apply (relinked_trans _ _ _ R R').
Qed.

(** ** Deletion from the table *)

Lemma head_of_none ps mask h n i e :
  (i < n)%nat -> ps !! i = Some e -> in_bucket mask h e = true -> Z.of_nat i + 1 <= head_of ps mask h n.
Proof.
  intros Hi He Hb. destruct (head_of_cases ps mask h n) as [[_ H]|(j & e' & -> & H2 & H3 & H4 & H5)]; [rewrite (H i e Hi He) in Hb; discriminate|].
  destruct (decide (j < i)%nat); [rewrite (H5 i e ltac:(lia) He) in Hb; discriminate|lia].
Qed.

Section Unlink.
Context (mask : Z) (n : nat) (ps : list JSShapeProperty) (ht : list Z) (i : nat) (e : JSShapeProperty).
Context (T : table_ok mask n ps ht) (Hi : (i < n)%nat) (Hn : (n <= length ps)%nat) (He : ps !! i = Some e) (Hl : live e = true) (Ha : 0 <= sp_atom e).

Let h := Z.land (sp_atom e) mask.

Local Lemma here : in_bucket mask h e = true.
Proof. unfold in_bucket. rewrite Hl, Z.eqb_refl. reflexivity. Qed.

(** Entries that differ from [ps] by the atom of [i] only. *)
Context (ps' : list JSShapeProperty) (Hps : forall j, j <> i -> sp_atom <$> ps !! j = sp_atom <$> ps' !! j) (Hdead : sp_atom <$> ps' !! i = Some 0).

Local Lemma dead_entry h' e' : ps' !! i = Some e' -> in_bucket mask h' e' = false.
Proof. intros H. rewrite H in Hdead. cbn in Hdead. injection Hdead as H0. unfold in_bucket, live. rewrite H0. reflexivity. Qed.

Local Lemma same_entry h' j : j <> i -> match ps' !! j with Some e' => in_bucket mask h' e' | None => false end = match ps !! j with Some e' => in_bucket mask h' e' | None => false end.
Proof. intros Hj. specialize (Hps j Hj). destruct (ps !! j), (ps' !! j); try discriminate; [|reflexivity]. cbn in Hps. injection Hps as E. unfold in_bucket, live. rewrite E. reflexivity. Qed.

Local Lemma head_step l h' m : head_of l mask h' (S m) = if (match l !! m with Some e' => in_bucket mask h' e' | None => false end : bool) then Z.of_nat m + 1 else head_of l mask h' m.
Proof. cbn [head_of]. destruct (l !! m); reflexivity. Qed.

Local Lemma head_deleted h' m : head_of ps' mask h' m = if head_of ps mask h' m =? Z.of_nat i + 1 then head_of ps mask h' i else head_of ps mask h' m.
Proof.
  induction m as [|m IH]; [cbn [head_of]; rewrite (proj2 (Z.eqb_neq _ _)) by lia; reflexivity|]. rewrite (head_step ps'). destruct (decide (m = i)) as [->|Hne].
  - assert (exists e', ps' !! i = Some e') as [e' E'] by (destruct (ps' !! i); [eauto|discriminate Hdead]). rewrite E', (dead_entry h' e' E'), IH, (head_step ps), He.
    pose proof (head_of_range ps mask h' i). rewrite (proj2 (Z.eqb_neq _ _)) by lia. destruct (in_bucket mask h' e); [rewrite Z.eqb_refl; reflexivity|].
    rewrite (proj2 (Z.eqb_neq _ _)) by lia. reflexivity.
  - rewrite same_entry by exact Hne. rewrite (head_step ps). destruct (match ps !! m with Some e' => in_bucket mask h' e' | None => false end); [|exact IH].
    rewrite (proj2 (Z.eqb_neq _ _)) by lia. reflexivity.
Qed.

Local Lemma head_other h' m : h' <> h -> head_of ps' mask h' m = head_of ps mask h' m.
Proof.
  intros Hh. rewrite head_deleted. destruct (Z.eqb_spec (head_of ps mask h' m) (Z.of_nat i + 1)) as [E|]; [|reflexivity].
  destruct (head_of_cases ps mask h' m) as [[H _]|(j & e' & H & _ & H3 & H4 & _)]; [lia|]. assert (j = i) as -> by lia. rewrite He in H3. injection H3 as <-.
  unfold in_bucket in H4. apply andb_true_iff in H4. destruct H4 as [_ H4]. apply Z.eqb_eq in H4. fold h in H4. congruence.
Qed.

Lemma table_unlink ht' :
  len ht' = len ht ->
  (forall h', 0 <= h' <= mask -> h' <> h -> ht' !! Z.to_nat h' = ht !! Z.to_nat h') -> ht' !! Z.to_nat h = Some (head_of ps' mask h n) ->
  (forall j e', (j < n)%nat -> j <> i -> ps' !! j = Some e' -> live e' = true ->
     sp_next e' = head_of ps' mask (Z.land (sp_atom e') mask) j) ->
  table_ok mask n ps' ht'.
Proof.
  intros L1 L2 L3 L4. split; [apply (to_mask _ _ _ _ T)|rewrite L1; apply (to_len _ _ _ _ T)| |].
  - intros h' Hh'. destruct (decide (h' = h)) as [->|Hne]; [exact L3|]. rewrite L2, head_other by assumption. apply (to_heads _ _ _ _ T), Hh'.
  - intros j e' Hj He' Hl'. destruct (decide (j = i)) as [->|Hne]; [|apply L4; assumption].
    rewrite He' in Hdead. cbn in Hdead. injection Hdead as H0. unfold live in Hl'. rewrite H0 in Hl'. discriminate.
Qed.

(** The link of an entry that is not the one before [i] stays. *)
Lemma next_kept j e' lpr :
  (j < n)%nat -> j <> i -> ps !! j = Some e' -> live e' = true -> pred_of ps mask h n (Z.of_nat i) lpr -> lpr <> Some (Z.of_nat j) ->
  sp_next e' = head_of ps' mask (Z.land (sp_atom e') mask) j.
Proof.
  intros Hj Hne He' Hl' Hp Hnl. rewrite (to_next _ _ _ _ T j e' Hj He' Hl'). destruct (decide (Z.land (sp_atom e') mask = h)) as [Eh|Hh]; [|rewrite head_other by exact Hh; reflexivity].
  rewrite Eh, head_deleted. destruct (Z.eqb_spec (head_of ps mask h j) (Z.of_nat i + 1)) as [E|]; [exfalso|reflexivity].
  assert (Hb : in_bucket mask h e' = true) by (unfold in_bucket; rewrite Hl', Eh, Z.eqb_refl; reflexivity).
  assert (Hij : (i < j)%nat) by (pose proof (head_of_range ps mask h j); lia). destruct lpr as [k|]; cbn in Hp.
  - destruct Hp as (j' & e'' & -> & Hj' & Hik & He'' & Hb'' & Eh''). destruct (decide (j < j')%nat).
    + pose proof (head_of_none ps mask h j' j e' ltac:(assumption) He' Hb). lia.
    + destruct (decide (j = j')) as [->|]; [congruence|]. pose proof (head_of_none ps mask h j j' e'' ltac:(lia) He'' Hb''). lia.
  - pose proof (head_of_none ps mask h n j e' Hj He' Hb). lia.
Qed.

End Unlink.

(** The table after [delete_property] has unlinked and cleared the entry [i]. *)
Lemma table_delete_head mask n ps ht i e :
  table_ok mask n ps ht -> (i < n)%nat -> (n <= length ps)%nat -> ps !! i = Some e -> live e = true -> 0 <= sp_atom e ->
  let h := Z.land (sp_atom e) mask in
  head_of ps mask h n = Z.of_nat i + 1 -> table_ok mask n (<[i := MkSP (sp_next e) 0 0]> ps) (<[Z.to_nat h := sp_next e]> ht).
Proof.
  intros T Hi Hn He Hl Ha h Hp. pose proof (prop_bucket_range _ _ _ _ (sp_atom e) T Ha) as Hh. set (ps' := <[i := _]> ps). pose proof (to_len _ _ _ _ T) as Hlen.
  assert (Hps : forall j, j <> i -> sp_atom <$> ps !! j = sp_atom <$> ps' !! j) by (intros j Hj; unfold ps'; rewrite list_lookup_insert_ne by congruence; reflexivity).
  assert (Hd : sp_atom <$> ps' !! i = Some 0) by (unfold ps'; rewrite list_lookup_insert_eq by lia; reflexivity).
  apply (table_unlink mask n ps ht i e T Hi Hn He ps' Hps Hd).
  - unfold len. rewrite length_insert. reflexivity.
  - intros h' Hh' Hne. apply list_lookup_insert_ne. lia.
  - fold h. rewrite (head_deleted mask n ps i e Hi Hn He ps' Hps Hd), Hp, Z.eqb_refl, (to_next _ _ _ _ T i e Hi He Hl). apply list_lookup_insert_eq. unfold len in Hlen. lia.
  - intros j e' Hj Hji He' Hl'. unfold ps' in He'. rewrite list_lookup_insert_ne in He' by congruence.
    apply (next_kept mask n ps ht i e T Hi Hn He ps' Hps Hd j e' None); try assumption. discriminate.
Qed.

Lemma table_delete_mid mask n ps ht i e k l :
  table_ok mask n ps ht -> (i < n)%nat -> (n <= length ps)%nat -> ps !! i = Some e -> live e = true -> 0 <= sp_atom e ->
  let h := Z.land (sp_atom e) mask in
  pred_of ps mask h n (Z.of_nat i) (Some (Z.of_nat k)) -> ps !! k = Some l ->
  table_ok mask n (<[i := MkSP (sp_next e) 0 0]> (<[k := MkSP (sp_next e) (sp_flags l) (sp_atom l)]> ps)) ht.
Proof.
  intros T Hi Hn He Hl Ha h Hp Hk. destruct Hp as (k' & l' & Ek & Hkn & Hik & Hk' & Hb & Eh). assert (k' = k) as -> by lia. rewrite Hk in Hk'. injection Hk' as <-.
  set (l' := MkSP (sp_next e) (sp_flags l) (sp_atom l)). set (ps' := <[i := _]> _).
  assert (Hki : ps' !! k = Some l') by (unfold ps'; rewrite list_lookup_insert_ne by lia; apply list_lookup_insert_eq; lia).
  assert (Hps : forall j, j <> i -> sp_atom <$> ps !! j = sp_atom <$> ps' !! j).
  { intros j Hj. destruct (decide (j = k)) as [->|]; [rewrite Hk, Hki; reflexivity|]. unfold ps'. rewrite !list_lookup_insert_ne by congruence. reflexivity. }
  assert (Hd : sp_atom <$> ps' !! i = Some 0) by (unfold ps'; rewrite list_lookup_insert_eq by (rewrite length_insert; lia); reflexivity).
  apply (table_unlink mask n ps ht i e T Hi Hn He ps' Hps Hd); [reflexivity|reflexivity| |].
  - fold h. rewrite (head_deleted mask n ps i e Hi Hn He ps' Hps Hd). pose proof (head_of_none ps mask h n k l Hkn Hk Hb).
    rewrite (proj2 (Z.eqb_neq _ _)) by lia. apply (to_heads _ _ _ _ T). apply (prop_bucket_range _ _ _ _ (sp_atom e) T Ha).
  - intros j e' Hj Hji He' Hl'. destruct (decide (j = k)) as [->|Hjk].
    + rewrite Hki in He'. injection He' as <-. unfold l'. cbn [sp_next sp_atom]. unfold in_bucket in Hb. apply andb_true_iff in Hb. destruct Hb as [_ Hb]. apply Z.eqb_eq in Hb.
      rewrite Hb, (head_deleted mask n ps i e Hi Hn He ps' Hps Hd), Eh, Z.eqb_refl. apply (to_next _ _ _ _ T i e Hi He Hl).
    + unfold ps' in He'. rewrite !list_lookup_insert_ne in He' by congruence.
      apply (next_kept mask n ps ht i e T Hi Hn He ps' Hps Hd j e' (Some (Z.of_nat k))); try assumption; [|intros [= E]; lia].
      exists k, l. repeat split; try assumption; lia.
Qed.

(** ** Rows *)

(** The atom, the flags and the value of a property. *)
Definition row_of {V} (e : JSShapeProperty) (v : V) : list (Z * Z * V) := if live e then [(sp_atom e, sp_flags e, v)] else [].

Definition row_at {V} (ps : list JSShapeProperty) (vs : list V) (i : nat) : list (Z * Z * V) :=
  match ps !! i, vs !! i with Some e, Some v => row_of e v | _, _ => [] end.

(** The rows of the first [n] entries, in order. *)
Fixpoint rows {V} (n : nat) (ps : list JSShapeProperty) (vs : list V) : list (Z * Z * V) :=
  match n with
  | O => []
  | S n => rows n ps vs ++ row_at ps vs n
  end.

(** The number of live entries. *)
Fixpoint lives (n : nat) (ps : list JSShapeProperty) : nat :=
  match n with
  | O => O
  | S n => (lives n ps + match ps !! n with Some e => if live e then 1 else 0 | None => 0 end)%nat
  end.

Definition has_atom {V} (a : Z) (r : Z * Z * V) : Prop := fst (fst r) = a.

#[export] Instance has_atom_dec {V} a (r : Z * Z * V) : Decision (has_atom a r) := decide (fst (fst r) = a).

Section Rows.
Context {V : Type}.
Implicit Types (ps : list JSShapeProperty) (vs : list V).

Lemma rows_ext n ps ps' vs vs' : (forall i, (i < n)%nat -> row_at ps vs i = row_at ps' vs' i) -> rows n ps vs = rows n ps' vs'.
Proof. induction n as [|n IH]; intros H; [reflexivity|]. cbn [rows]. rewrite IH, H by (lia || intros; apply H; lia). reflexivity. Qed.

Lemma rows_filter (P : Z * Z * V -> Prop) `{forall r, Decision (P r)} n ps ps' vs vs' :
  (forall i, (i < n)%nat -> row_at ps' vs' i = filter P (row_at ps vs i)) -> rows n ps' vs' = filter P (rows n ps vs).
Proof.
  induction n as [|n IH]; intros Hi; [reflexivity|]. cbn [rows]. rewrite filter_app, IH, Hi by (lia || intros; apply Hi; lia). reflexivity.
Qed.

Lemma rows_elem n ps vs r : r ∈ rows n ps vs <-> exists i e v, (i < n)%nat /\ ps !! i = Some e /\ vs !! i = Some v /\ live e = true /\ r = (sp_atom e, sp_flags e, v).
Proof.
  induction n as [|n IH]; cbn [rows]; [split; [inversion 1|intros (i & e & v & H & _); lia]|]. rewrite elem_of_app, IH. split.
  - intros [(i & e & v & H)|H]; [exists i, e, v; intuition lia|]. unfold row_at, row_of in H. destruct (ps !! n) as [e|] eqn:E, (vs !! n) as [v|] eqn:Ev; try (inversion H; fail).
    destruct (live e) eqn:El; [|inversion H]. apply list_elem_of_singleton in H. exists n, e, v. auto 6.
  - intros (i & e & v & Hi & He & Hv & Hl & ->). destruct (decide (i = n)) as [->|]; [right|left; exists i, e, v; intuition lia].
    unfold row_at, row_of. rewrite He, Hv, Hl. left.
Qed.

Lemma row_at_some ps vs i e v : ps !! i = Some e -> vs !! i = Some v -> row_at ps vs i = row_of e v.
Proof. intros He Hv. unfold row_at. rewrite He, Hv. reflexivity. Qed.

Lemma row_at_relinked ps ps' vs i : relinked ps ps' -> row_at ps' vs i = row_at ps vs i.
Proof.
  intros [_ H]. specialize (H i). unfold row_at, row_of, live. destruct (ps !! i) as [e|], (ps' !! i) as [e'|]; try discriminate; [|reflexivity].
  cbn in H. injection H as H1 H2. rewrite H1, H2. reflexivity.
Qed.

Lemma lives_le n ps : (lives n ps <= n)%nat.
Proof. induction n as [|n IH]; [reflexivity|]. cbn. destruct (ps !! n) as [e|]; [destruct (live e)|]; lia. Qed.

Lemma lives_mono n m ps : (n <= m)%nat -> (lives n ps <= lives m ps)%nat.
Proof. induction 1 as [|m _ IH]; [reflexivity|]. cbn. lia. Qed.

Lemma lives_all n ps : lives n ps = n -> forall i e, (i < n)%nat -> ps !! i = Some e -> live e = true.
Proof.
  induction n as [|n IH]; intros H i e Hi He; [lia|]. cbn in H. pose proof (lives_le n ps). destruct (decide (i = n)) as [->|].
  - rewrite He in H. destruct (live e); [reflexivity|lia].
  - apply (IH ltac:(destruct (ps !! n) as [e'|]; [destruct (live e')|]; lia) i); [lia|exact He].
Qed.

Lemma lives_full n ps : (n <= length ps)%nat -> (forall i e, (i < n)%nat -> ps !! i = Some e -> live e = true) -> lives n ps = n.
Proof.
  induction n as [|n IH]; intros Hl H; [reflexivity|]. cbn. destruct (lookup_lt_is_Some_2 ps n ltac:(lia)) as [e He]. rewrite He, (H n e ltac:(lia) He), IH; [lia|lia|].
  intros i e' Hi. apply H. lia.
Qed.

Lemma lives_ext n ps ps' : (forall i, (i < n)%nat -> sp_atom <$> ps !! i = sp_atom <$> ps' !! i) -> lives n ps = lives n ps'.
Proof.
  induction n as [|n IH]; intros H; [reflexivity|]. cbn. rewrite IH by (intros; apply H; lia). specialize (H n ltac:(lia)).
  destruct (ps !! n), (ps' !! n); try discriminate; [|reflexivity]. cbn in H. injection H as H. unfold live. rewrite H. reflexivity.
Qed.

Lemma lives_delete n ps i e e' : (i < n)%nat -> ps !! i = Some e -> live e = true -> live e' = false -> (lives n (<[i := e']> ps) + 1 = lives n ps)%nat.
Proof.
  intros Hi He Hl Hl'. induction n as [|n IH]; [lia|]. cbn. destruct (decide (i = n)) as [->|Hne].
  - rewrite list_lookup_insert_eq, He, Hl, Hl' by (apply lookup_lt_is_Some; eauto). rewrite (lives_ext n (<[n := e']> ps) ps) by (intros j Hj; rewrite list_lookup_insert_ne by lia; reflexivity). lia.
  - rewrite list_lookup_insert_ne by lia. specialize (IH ltac:(lia)). lia.
Qed.

(** The atoms of the rows are distinct. *)
Definition distinct (n : nat) ps : Prop :=
  forall i j e e', (i < n)%nat -> (j < n)%nat -> ps !! i = Some e -> ps !! j = Some e' -> live e = true -> sp_atom e = sp_atom e' -> i = j.

Lemma rows_unique n ps vs r r' : distinct n ps -> r ∈ rows n ps vs -> r' ∈ rows n ps vs -> fst (fst r) = fst (fst r') -> r = r'.
Proof.
  intros D (i & e & v & H1 & H2 & H3 & H4 & ->)%rows_elem (j & e' & v' & K1 & K2 & K3 & K4 & ->)%rows_elem E. cbn in E.
  assert (i = j) as <- by (apply (D i j e e'); assumption). congruence.
Qed.

End Rows.

(** ** Compaction *)

Lemma compact_loop_spec `{OC : ObjectConfig} mask old (vs0 : list JSProperty) : forall l i ps ht vs,
  l = drop i old -> (i <= length old)%nat -> table_ok mask (lives i old) ps ht ->
  (lives (length old) old <= length ps)%nat -> Z.of_nat (length old) <= 2 ^ 26 -> (length old <= length vs)%nat ->
  (forall k e, old !! k = Some e -> entry_ok e) ->
  rows (lives i old) ps vs = rows i old vs0 -> (forall k, (i <= k)%nat -> vs !! k = vs0 !! k) ->
  (forall k e, (k < lives i old)%nat -> ps !! k = Some e -> live e = true /\ entry_ok e) ->
  exists ps' ht' vs',
    compact_loop l ps ht mask (Z.of_nat i) (Z.of_nat (lives i old)) vs = mret (ps', ht', vs', Z.of_nat (lives (length old) old)) /\
    table_ok mask (lives (length old) old) ps' ht' /\ length ps' = length ps /\ length vs' = length vs /\
    rows (lives (length old) old) ps' vs' = rows (length old) old vs0 /\
    (forall k e, (k < lives (length old) old)%nat -> ps' !! k = Some e -> live e = true /\ entry_ok e).
Proof.
  induction l as [|e l IH]; intros i ps ht vs El Hi T Hsz Hb Hvs Hok Hr Hrest Hlive.
  - assert (i = length old) as -> by (apply (f_equal length) in El; rewrite length_drop in El; cbn in El; lia).
    exists ps, ht, vs. cbn [compact_loop]. auto 8.
  - assert (He : old !! i = Some e) by (rewrite <- (Nat.add_0_r i), <- lookup_drop, <- El; reflexivity).
    assert (Hi' : (i < length old)%nat) by (apply lookup_lt_is_Some; eauto).
    assert (El' : l = drop (S i) old) by (apply (drop_S old e i) in He; rewrite He in El; injection El as ->; reflexivity).
    assert (ES : lives (S i) old = (lives i old + if live e then 1 else 0)%nat) by (cbn; rewrite He; reflexivity).
    assert (Hv : exists v, vs !! i = Some v) by (apply lookup_lt_is_Some; lia). destruct Hv as [v Hv].
    assert (ER : rows (S i) old vs0 = rows i old vs0 ++ row_of e v) by (cbn [rows]; rewrite (row_at_some old vs0 i e v); [reflexivity|exact He|rewrite <- (Hrest i) by lia; exact Hv]).
    pose proof (lives_mono (S i) (length old) old ltac:(lia)) as Hmono. pose proof (lives_le i old). replace (Z.of_nat i + 1) with (Z.of_nat (S i)) in * by lia.
    specialize (IH (S i)). rewrite ER in IH. cbn [compact_loop]. replace (Z.of_nat i + 1) with (Z.of_nat (S i)) by lia. destruct (Hok i e He) as [Hf Ha]. unfold live in ES. unfold row_of, live in IH.
    destruct (Z.eqb_spec (sp_atom e) 0) as [E0|E0]; cbn [negb] in *.
    + rewrite Nat.add_0_r in ES. rewrite ES in IH. rewrite app_nil_r in IH. apply IH; try assumption; try lia; intros k Hk; apply Hrest; lia.
    + set (j := lives i old) in *. assert (Hj : (j < length ps)%nat) by lia.
      rewrite (link_entry_spec mask j), ret_bind by (assumption || lia). rewrite (tab_get_lookup vs (Z.of_nat i) v), ret_bind by (rewrite ?Nat2Z.id; lia || exact Hv).
      unfold tab_set at 1. rewrite (proj2 (Z.leb_le 0 _)), (proj2 (Z.ltb_lt _ _)) by (unfold len; lia). cbn [andb]. rewrite ret_bind, Nat2Z.id.
      set (e' := MkSP _ (sp_flags e) (sp_atom e)). replace (Z.of_nat j + 1) with (Z.of_nat (lives (S i) old)) by lia.
      rewrite <- (length_insert ps j e'), <- (length_insert vs j v). replace (Z.of_nat j + 1) with (Z.of_nat (lives (S i) old)) in * by lia. apply IH; try assumption; try lia.
      * rewrite ES, Nat.add_1_r, Nat2Z.inj_succ. apply (table_link mask j ps ht); [exact T|exact Hj|lia].
      * rewrite length_insert. exact Hsz.
      * rewrite length_insert. exact Hvs.
      * rewrite ES, Nat.add_1_r. cbn [rows]. rewrite (row_at_some _ _ j e' v) by (apply list_lookup_insert_eq; lia). unfold row_of, live. cbn [sp_atom sp_flags e'].
        rewrite (proj2 (Z.eqb_neq _ _) E0). cbn [negb]. rewrite <- Hr. f_equal. apply rows_ext. intros k Hk. unfold row_at. rewrite !list_lookup_insert_ne by lia. reflexivity.
      * intros k Hk. rewrite list_lookup_insert_ne by lia. apply Hrest. lia.
      * intros k e0 Hk Hk0. destruct (decide (k = j)) as [->|Hne].
        -- rewrite list_lookup_insert_eq in Hk0 by lia. injection Hk0 as <-. unfold live, entry_ok, e'. cbn [sp_atom sp_flags]. rewrite (proj2 (Z.eqb_neq _ _) E0). auto.
        -- rewrite list_lookup_insert_ne in Hk0 by lia. apply (Hlive k); [lia|exact Hk0].
Qed.
