(* ===== verification/ShapeChains.v ===== *)
(** The table of shapes: its chains hold a set of shapes, and linking, unlinking
    and resizing change nothing else.

    [core rt] is the shapes without their chain links; [hash_ok rt L] says that the
    chains of the table hold exactly the shapes of [L], each on the chain of its
    hash. *)
From Stdlib Require Import ZArith Lia.
From S2P Require Import Prelude Shapes.
From stdpp Require Import base tactics numbers list gmap fin_sets.

Open Scope Z_scope.

Definition strip (sh : JSShape) : JSShape := set_chain sh None.

Fixpoint chain (m : gmap sptr JSShape) (b : option sptr) (l : list sptr) : Prop :=
  match l with
  | [] => b = None
  | p :: l => b = Some p /\ exists s, m !! p = Some s /\ chain m (shape_hash_next s) l
  end.

Lemma chain_frame m m' b l : (forall p, p ∈ l -> shape_hash_next <$> m !! p = shape_hash_next <$> m' !! p) -> chain m b l -> chain m' b l.
Proof.
  revert b. induction l as [|p l IH]; intros b H; [auto|]. intros [-> (s & Hs & Hc)]. split; [reflexivity|]. specialize (H p) as Hp.
  specialize (Hp ltac:(left)). rewrite Hs in Hp. destruct (m' !! p) as [s'|]; [|discriminate]. cbn in Hp. injection Hp as Hp. exists s'. split; [reflexivity|].
  rewrite <- Hp. apply IH; [|exact Hc]. intros q Hq. apply H. right. exact Hq.
Qed.

Lemma chain_in m b l p : chain m b l -> p ∈ l -> is_Some (m !! p).
Proof.
  revert b. induction l as [|q l IH]; intros b Hc Hp; [inversion Hp|]. destruct Hc as [-> (s & Hs & Hc)]. apply elem_of_cons in Hp. destruct Hp as [->|Hp]; [eauto|apply (IH _ Hc Hp)].
Qed.

Lemma chain_length m b l : chain m b l -> NoDup l -> (length l <= size m)%nat.
Proof.
  intros Hc Hn. rewrite <- (size_list_to_set (C := gset sptr) l Hn), <- size_dom. apply subseteq_size. intros p Hp. apply elem_of_list_to_set in Hp. apply elem_of_dom, (chain_in _ _ _ _ Hc Hp).
Qed.

Section Chains.
Context `{OC : ObjectConfig}.

Definition core (rt : JSShapes) : gmap sptr JSShape := strip <$> shapes rt.

Definition bucket_of (rt : JSShapes) (p : sptr) : option Z := (fun s => get_shape_hash (sh_hash s) (shape_hash_bits rt)) <$> shapes rt !! p.

(** The chain of the bucket [h], in the table [t]. *)
Definition bucket_chain (m : gmap sptr JSShape) (bits : Z) (t : list (option sptr)) (L : gset sptr) (h : Z) : Prop :=
  exists b ch, t !! Z.to_nat h = Some b /\ chain m b ch /\ NoDup ch /\
    forall p, p ∈ ch <-> p ∈ L /\ exists s, m !! p = Some s /\ get_shape_hash (sh_hash s) bits = h.

Record hash_ok (rt : JSShapes) (L : gset sptr) : Prop := {
  ho_bits : 4 <= shape_hash_bits rt <= 30;
  ho_size : shape_hash_size rt = 2 ^ shape_hash_bits rt;
  ho_len : len (shape_table rt) = 2 ^ shape_hash_bits rt;
  ho_chain : forall h, 0 <= h < 2 ^ shape_hash_bits rt -> bucket_chain (shapes rt) (shape_hash_bits rt) (shape_table rt) L h;
  ho_dom : forall p, p ∈ L -> exists s, shapes rt !! p = Some s /\ 0 <= sh_hash s < 2 ^ 32;
  ho_count : shape_hash_count rt = Z.of_nat (size L)
}.

Lemma shape_at_spec rt p s : shapes rt !! p = Some s -> shape_at rt p = mret s.
Proof. intros H. unfold shape_at. rewrite H. reflexivity. Qed.

Lemma hash_bucket_range h bits : 4 <= bits <= 30 -> 0 <= h < 2 ^ 32 -> 0 <= get_shape_hash h bits < 2 ^ bits.
Proof.
  intros Hb Hh. unfold get_shape_hash. pose proof (shiftr_range (32 - bits) 32 h ltac:(lia) Hh). replace (32 - (32 - bits)) with bits in * by lia. lia.
Qed.

(** A change of shapes that keeps the links and hashes of the chained ones. *)
Lemma bucket_chain_frame m m' bits t L h :
  (forall p s, p ∈ L -> m !! p = Some s -> exists s', m' !! p = Some s' /\ shape_hash_next s' = shape_hash_next s /\ sh_hash s' = sh_hash s) ->
  (forall p, p ∈ L -> is_Some (m !! p)) ->
  bucket_chain m bits t L h -> bucket_chain m' bits t L h.
Proof.
  intros Hm Hd (b & ch & Ht & Hc & Hn & Hch). exists b, ch. split; [exact Ht|]. split; [|split; [exact Hn|]].
  - apply (chain_frame m); [|exact Hc]. intros p Hp. apply Hch in Hp. destruct Hp as [Hp (s & Hs & _)]. destruct (Hm p s Hp Hs) as (s' & -> & E & _). rewrite Hs. cbn. rewrite E. reflexivity.
  - intros p. rewrite Hch. split; intros [Hp (s & Hs & Hh)]; (split; [exact Hp|]).
    + destruct (Hm p s Hp Hs) as (s' & Hs' & _ & E). exists s'. rewrite E. auto.
    + destruct (Hd p Hp) as [s0 Hs0]. destruct (Hm p s0 Hp Hs0) as (s' & Hs' & _ & E). rewrite Hs in Hs'. injection Hs' as <-. exists s0. rewrite <- E. auto.
Qed.

Lemma hash_ok_shapes rt m L :
  hash_ok rt L -> (forall p s, p ∈ L -> shapes rt !! p = Some s -> exists s', m !! p = Some s' /\ shape_hash_next s' = shape_hash_next s /\ sh_hash s' = sh_hash s) ->
  hash_ok (with_shapes rt m) L.
Proof.
  intros H Hm. split; cbn; try apply H.
  - intros h Hh. apply (bucket_chain_frame (shapes rt)); [exact Hm| |apply H, Hh]. intros p Hp. destruct (ho_dom _ _ H p Hp) as (s & -> & _). eauto.
  - intros p Hp. destruct (ho_dom _ _ H p Hp) as (s & Hs & Hr). destruct (Hm p s Hp Hs) as (s' & Hs' & _ & E). exists s'. rewrite E. auto.
Qed.

Lemma hash_ok_put rt p sh L :
  hash_ok rt L -> (p ∈ L -> exists s, shapes rt !! p = Some s /\ shape_hash_next sh = shape_hash_next s /\ sh_hash sh = sh_hash s) -> hash_ok (put_shape rt p sh) L.
Proof.
  intros H Hp. apply hash_ok_shapes; [exact H|]. intros q s Hq Hs. destruct (decide (q = p)) as [->|Hne].
  - destruct (Hp Hq) as (s' & Hs' & E1 & E2). rewrite Hs in Hs'. injection Hs' as <-. exists sh. rewrite lookup_insert_eq. auto.
  - exists s. rewrite lookup_insert_ne by congruence. auto.
Qed.

Lemma hash_ok_delete rt p L : hash_ok rt L -> p ∉ L -> hash_ok (with_shapes rt (delete p (shapes rt))) L.
Proof. intros H Hp. apply hash_ok_shapes; [exact H|]. intros q s Hq Hs. exists s. rewrite lookup_delete_ne by congruence. auto. Qed.

Lemma core_put rt p sh : core (put_shape rt p sh) = <[p := strip sh]> (core rt).
Proof. unfold core, put_shape. cbn. apply fmap_insert. Qed.

Lemma core_relink rt p s n : shapes rt !! p = Some s -> core (put_shape rt p (set_chain s n)) = core rt.
Proof.
  intros H. rewrite core_put. apply insert_id. unfold core. rewrite lookup_fmap, H. reflexivity.
Qed.

(** The rest of the runtime. *)
Definition same_rest (rt rt' : JSShapes) : Prop := core rt' = core rt /\ objects rt' = objects rt /\ events rt' = events rt.

Definition table_fields (rt rt' : JSShapes) : Prop :=
  shape_hash_bits rt' = shape_hash_bits rt /\ shape_hash_size rt' = shape_hash_size rt /\ shape_hash_count rt' = shape_hash_count rt /\ shape_table rt' = shape_table rt.

Lemma hash_ok_fields rt rt' L : shapes rt' = shapes rt -> table_fields rt rt' -> hash_ok rt L -> hash_ok rt' L.
Proof.
  intros E (E1 & E2 & E3 & E4) []. split; rewrite ?E, ?E1, ?E2, ?E3, ?E4; assumption.
Qed.

(** ** Linking *)

Lemma link_run rt p s L :
  hash_ok rt L -> shapes rt !! p = Some s -> 0 <= sh_hash s < 2 ^ 32 -> p ∉ L ->
  let h := get_shape_hash (sh_hash s) (shape_hash_bits rt) in
  exists b t, tab_get (shape_table rt) h = mret b /\ tab_set (shape_table rt) h (Some p) = mret t /\
    hash_ok (with_table (put_shape rt p (set_chain s b)) (shape_hash_bits rt) (shape_hash_size rt) (shape_hash_count rt + 1) t) ({[p]} ∪ L).
Proof.
  intros H Hs Hh Hp h. pose proof (hash_bucket_range (sh_hash s) _ (ho_bits _ _ H) Hh) as Hr. fold h in Hr. destruct (ho_chain _ _ H h Hr) as (b & ch & Ht & Hc & Hn & Hch).
  exists b, (<[Z.to_nat h := Some p]> (shape_table rt)). split; [apply tab_get_lookup; [lia|exact Ht]|]. pose proof (ho_len _ _ H) as Hl.
  split; [unfold tab_set; rewrite (proj2 (Z.leb_le 0 h)), (proj2 (Z.ltb_lt h _)) by lia; reflexivity|].
  split; cbn; [apply H|apply H|unfold len in *; rewrite length_insert; apply H| | |rewrite (ho_count _ _ H), size_union, size_singleton by set_solver; lia].
  - set (m := <[p := set_chain s b]> (shapes rt)).
    assert (Hm : forall q s', q ∈ L -> shapes rt !! q = Some s' -> exists s'', m !! q = Some s'' /\ shape_hash_next s'' = shape_hash_next s' /\ sh_hash s'' = sh_hash s').
    { intros q s' Hq Hs'. exists s'. unfold m. rewrite lookup_insert_ne by (intros ->; contradiction). auto. }
    assert (Hd : forall q, q ∈ L -> is_Some (shapes rt !! q)) by (intros q Hq; destruct (ho_dom _ _ H q Hq) as (s' & -> & _); eauto).
    intros h' Hh'. destruct (bucket_chain_frame _ m _ _ _ _ Hm Hd (ho_chain _ _ H h' Hh')) as (b' & ch' & Ht' & Hc' & Hn' & Hch'). destruct (decide (h' = h)) as [->|Hne].
    + exists (Some p), (p :: ch'). rewrite Ht in Ht'. injection Ht' as <-. split; [apply list_lookup_insert_eq; unfold len in Hl; lia|].
      split; [split; [reflexivity|]; exists (set_chain s b); split; [apply lookup_insert_eq|exact Hc']|]. split; [constructor; [rewrite Hch'; tauto|exact Hn']|].
      intros q. rewrite elem_of_cons, Hch'. split; [intros [->|[Hq Hx]]; [|split; [set_solver|exact Hx]]|].
      * split; [set_solver|]. exists (set_chain s b). split; [apply lookup_insert_eq|reflexivity].
      * intros [Hq Hx]. destruct (decide (q = p)); [auto|]. right. split; [set_solver|exact Hx].
    + exists b', ch'. rewrite list_lookup_insert_ne by lia. split; [exact Ht'|]. split; [exact Hc'|]. split; [exact Hn'|]. intros q. rewrite Hch'. split; intros [Hq Hx]; (split; [|exact Hx]); [set_solver|].
      apply elem_of_union in Hq. destruct Hq as [Hq|Hq]; [|exact Hq]. apply elem_of_singleton in Hq. subst q. destruct Hx as (s' & Hs' & E).
      unfold m in Hs'. rewrite lookup_insert_eq in Hs'. injection Hs' as <-. cbn in E. fold h in E. congruence.
  - intros q Hq. apply elem_of_union in Hq. destruct Hq as [Hq|Hq].
    + apply elem_of_singleton in Hq. subst q. exists (set_chain s b). rewrite lookup_insert_eq. auto.
    + destruct (ho_dom _ _ H q Hq) as (s' & Hs' & Hr'). exists s'. rewrite lookup_insert_ne by (intros ->; contradiction). auto.
Qed.

Lemma hash_link_spec rt p s L :
  hash_ok rt L -> shapes rt !! p = Some s -> 0 <= sh_hash s < 2 ^ 32 -> p ∉ L ->
  exists rt', js_shape_hash_link rt p = mret rt' /\ hash_ok rt' ({[p]} ∪ L) /\ same_rest rt rt' /\
    shape_hash_bits rt' = shape_hash_bits rt /\ shape_hash_count rt' = shape_hash_count rt + 1.
Proof.
  intros H Hs Hh Hp. destruct (link_run rt p s L H Hs Hh Hp) as (b & t & E1 & E2 & Hok). unfold js_shape_hash_link. rewrite (shape_at_spec rt p s Hs), ret_bind, E1, ret_bind, E2, ret_bind.
  eexists. split; [reflexivity|]. split; [exact Hok|]. split; [split; [apply (core_relink rt p s b Hs)|split; reflexivity]|split; reflexivity].
Qed.

(** ** Unlinking *)

Lemma unlink_shape_spec rt p sp post fuel : forall q mid,
  shapes rt !! p = Some sp -> chain (shapes rt) (Some q) (q :: mid ++ p :: post) -> NoDup (q :: mid ++ p :: post) -> (length mid < fuel)%nat ->
  exists r sr, unlink_shape fuel rt q p = mret (put_shape rt r (set_chain sr (shape_hash_next sp))) /\ shapes rt !! r = Some sr /\ r ∈ q :: mid /\
    chain (<[r := set_chain sr (shape_hash_next sp)]> (shapes rt)) (Some q) (q :: mid ++ post).
Proof.
  induction fuel as [|fuel IH]; intros q mid Hp [_ (s & Hs & Hc)] Hn Hf; [lia|]. cbn [unlink_shape]. rewrite (shape_at_spec rt q s Hs), ret_bind.
  apply NoDup_cons in Hn. destruct Hn as [Hq Hn]. destruct mid as [|q' mid].
  - destruct Hc as [E (sp' & Hp' & Hc)]. rewrite Hp in Hp'. injection Hp' as <-. rewrite E, bool_decide_eq_true_2 by reflexivity. rewrite (shape_at_spec rt p sp Hp), ret_bind.
    exists q, s. split; [reflexivity|]. split; [exact Hs|]. split; [left|]. cbn [app] in *. split; [reflexivity|]. eexists. split; [apply lookup_insert_eq|]. cbn.
    apply (chain_frame (shapes rt)); [|exact Hc]. intros r Hr. rewrite lookup_insert_ne; [reflexivity|]. intros ->. apply Hq. right. exact Hr.
  - cbn [app] in *. pose proof Hc as Hc'. destruct Hc' as [E _]. rewrite E. rewrite bool_decide_eq_false_2.
    2:{ intros ->. apply NoDup_cons in Hn. apply Hn. apply elem_of_app. right. left. }
    destruct (IH q' mid Hp ltac:(rewrite <- E; exact Hc) Hn ltac:(cbn in Hf; lia)) as (r & sr & R1 & R2 & R3 & R4). exists r, sr. split; [exact R1|]. split; [exact R2|]. split; [right; exact R3|].
    split; [reflexivity|]. exists s. split; [|rewrite E; exact R4]. rewrite lookup_insert_ne; [exact Hs|]. intros ->. apply Hq. apply elem_of_cons in R3.
    apply elem_of_cons. destruct R3 as [->|R3]; [auto|]. right. apply elem_of_app. auto.
Qed.

(** The shapes after a change of links. *)
Lemma strip_next (m : gmap sptr JSShape) (r : sptr) s n (q : sptr) s' : m !! r = Some s -> <[r := set_chain s n]> m !! q = Some s' -> exists s0, m !! q = Some s0 /\ sh_hash s' = sh_hash s0.
Proof.
  intros Hr Hq. destruct (decide (q = r)) as [->|Hne]; [rewrite lookup_insert_eq in Hq; injection Hq as <-; eauto|rewrite lookup_insert_ne in Hq by congruence; eauto].
Qed.

Lemma strip_next' (m : gmap sptr JSShape) (r : sptr) s n (q : sptr) s0 : m !! r = Some s -> m !! q = Some s0 -> exists s', <[r := set_chain s n]> m !! q = Some s' /\ sh_hash s' = sh_hash s0.
Proof.
  intros Hr Hq. destruct (decide (q = r)) as [->|Hne]; [rewrite lookup_insert_eq; rewrite Hr in Hq; injection Hq as <-; eauto|rewrite lookup_insert_ne by congruence; eauto].
Qed.

(** The table without [p], given the new chain of its bucket. *)
Lemma unlink_table rt p L h m t ch :
  hash_ok rt L -> p ∈ L -> 0 <= h < 2 ^ shape_hash_bits rt -> (exists sp, shapes rt !! p = Some sp /\ get_shape_hash (sh_hash sp) (shape_hash_bits rt) = h) ->
  (m = shapes rt \/ exists r sr n, shapes rt !! r = Some sr /\ m = <[r := set_chain sr n]> (shapes rt) /\ get_shape_hash (sh_hash sr) (shape_hash_bits rt) = h) ->
  len t = len (shape_table rt) -> (forall h', 0 <= h' -> h' <> h -> t !! Z.to_nat h' = shape_table rt !! Z.to_nat h') ->
  (exists b, t !! Z.to_nat h = Some b /\ chain m b ch) -> NoDup ch ->
  (forall q, q ∈ ch <-> q <> p /\ q ∈ L /\ exists s, shapes rt !! q = Some s /\ get_shape_hash (sh_hash s) (shape_hash_bits rt) = h) ->
  hash_ok (with_table (with_shapes rt m) (shape_hash_bits rt) (shape_hash_size rt) (shape_hash_count rt - 1) t) (L ∖ {[p]}).
Proof.
  intros H Hp Hh (sp & Hsp & Ehp) Hm Hl Ht (b & Hb & Hc) Hn Hch.
  assert (F1 : forall q s', m !! q = Some s' -> exists s0, shapes rt !! q = Some s0 /\ sh_hash s' = sh_hash s0) by (destruct Hm as [->|(r & sr & n & Hr & -> & _)]; [eauto|intros q s'; apply strip_next, Hr]).
  assert (F2 : forall q s0, shapes rt !! q = Some s0 -> exists s', m !! q = Some s' /\ sh_hash s' = sh_hash s0) by (destruct Hm as [->|(r & sr & n & Hr & -> & _)]; [eauto|intros q s'; apply strip_next', Hr]).
  split; cbn; [apply H|apply H|rewrite Hl; apply H| | |].
  - intros h' Hh'. destruct (decide (h' = h)) as [->|Hne].
    + exists b, ch. split; [exact Hb|]. split; [exact Hc|]. split; [exact Hn|]. intros q. rewrite Hch. split.
      * intros (Hqp & Hq & s & Hs & E). split; [set_solver|]. destruct (F2 q s Hs) as (s' & Hs' & E'). exists s'. rewrite E'. auto.
      * intros (Hq & s' & Hs' & E). destruct (F1 q s' Hs') as (s & Hs & E'). rewrite E' in E. split; [set_solver|]. split; [set_solver|eauto].
    + destruct (ho_chain _ _ H h' Hh') as (b' & ch' & Ht' & Hc' & Hn' & Hch'). exists b', ch'. rewrite Ht by (lia || exact Hne). split; [exact Ht'|]. split.
      * destruct Hm as [->|(r & sr & n & Hr & -> & Er)]; [exact Hc'|]. apply (chain_frame (shapes rt)); [|exact Hc']. intros q Hq. rewrite lookup_insert_ne; [reflexivity|]. intros <-.
        apply Hch' in Hq. destruct Hq as [_ (s & Hs & E)]. congruence.
      * split; [exact Hn'|]. intros q. rewrite Hch'. split.
        -- intros (Hq & s & Hs & E). split; [|destruct (F2 q s Hs) as (s' & Hs' & E'); exists s'; rewrite E'; auto]. apply elem_of_difference. split; [exact Hq|]. rewrite elem_of_singleton. intros ->. congruence.
        -- intros (Hq & s' & Hs' & E). destruct (F1 q s' Hs') as (s & Hs & E'). rewrite E' in E. split; [set_solver|eauto].
  - intros q Hq. destruct (ho_dom _ _ H q ltac:(set_solver)) as (s & Hs & Hr). destruct (F2 q s Hs) as (s' & Hs' & E'). exists s'. rewrite E'. auto.
  - rewrite (ho_count _ _ H), size_difference, size_singleton by set_solver. assert (0 < size L)%nat by (apply Nat.neq_0_lt_0; intros E; apply size_empty_inv in E; set_solver). lia.
Qed.

Lemma unlink_spec rt p L :
  hash_ok rt L -> p ∈ L ->
  exists rt', js_shape_hash_unlink rt p = mret rt' /\ hash_ok rt' (L ∖ {[p]}) /\ same_rest rt rt' /\
    shape_hash_bits rt' = shape_hash_bits rt /\ shape_hash_count rt' = shape_hash_count rt - 1.
Proof.
  intros H Hp. destruct (ho_dom _ _ H p Hp) as (sp & Hsp & Hh). unfold js_shape_hash_unlink. rewrite (shape_at_spec rt p sp Hsp), ret_bind. set (h := get_shape_hash (sh_hash sp) (shape_hash_bits rt)).
  pose proof (hash_bucket_range (sh_hash sp) _ (ho_bits _ _ H) Hh) as Hr. fold h in Hr. destruct (ho_chain _ _ H h Hr) as (b & ch & Ht & Hc & Hn & Hch).
  rewrite (tab_get_lookup _ h b), ret_bind by (lia || exact Ht). pose proof (ho_len _ _ H) as Hl.
  assert (Hin : p ∈ ch) by (apply Hch; split; [exact Hp|]; exists sp; auto). apply list_elem_of_split in Hin. destruct Hin as (pre & post & ->).
  assert (Hrest : forall q, q ∈ pre ++ post <-> q <> p /\ q ∈ L /\ exists s, shapes rt !! q = Some s /\ get_shape_hash (sh_hash s) (shape_hash_bits rt) = h).
  { intros q. specialize (Hch q). rewrite elem_of_app, elem_of_cons in Hch. rewrite elem_of_app. apply NoDup_app in Hn. destruct Hn as (_ & Hn1 & Hn2). apply NoDup_cons in Hn2. destruct Hn2 as [Hn2 _].
    split; [intros Hq; split; [intros ->; destruct Hq as [Hq|Hq]; [apply (Hn1 p Hq); left|contradiction]|apply Hch; tauto]|]. intros [Hqp Hq]. apply Hch in Hq. tauto. }
  assert (Hnd : NoDup (pre ++ post)).
  { apply NoDup_app in Hn. destruct Hn as (N1 & N2 & N3). apply NoDup_cons in N3. apply NoDup_app. split; [exact N1|]. split; [|apply N3]. intros q Hq Hq'. apply (N2 q Hq). right. exact Hq'. }
  destruct pre as [|q pre].
  - destruct Hc as [-> (sp' & Hsp' & Hc)]. rewrite Hsp in Hsp'. injection Hsp' as <-. rewrite bool_decide_eq_true_2 by reflexivity.
    unfold tab_set. rewrite (proj2 (Z.leb_le 0 h)), (proj2 (Z.ltb_lt h _)) by lia. cbn [andb]. rewrite !ret_bind. eexists. split; [reflexivity|].
    split; [|split; [repeat split|split; reflexivity]]. apply (unlink_table rt p L h (shapes rt) _ post); try assumption; [eauto|left; reflexivity|unfold len; rewrite length_insert; reflexivity| |].
    + intros h' Hh' Hne. apply list_lookup_insert_ne. lia.
    + exists (shape_hash_next sp). split; [apply list_lookup_insert_eq; unfold len in Hl; lia|exact Hc].
  - assert (b = Some q) as -> by apply Hc. cbn [app] in *. rewrite bool_decide_eq_false_2 by (intros ->; apply NoDup_cons in Hn; apply Hn, elem_of_app; right; left).
    pose proof (chain_length _ _ _ Hc Hn) as Hcl. cbn in Hcl. rewrite length_app in Hcl.
    destruct (unlink_shape_spec rt p sp post (S (size (shapes rt))) q pre Hsp Hc Hn ltac:(lia)) as (r & sr & -> & Hr' & Hrin & Hc'). rewrite !ret_bind. eexists. split; [reflexivity|].
    split; [|split; [split; [apply (core_relink rt r sr _ Hr')|split; reflexivity]|split; reflexivity]].
    apply (unlink_table rt p L h (<[r := set_chain sr (shape_hash_next sp)]> (shapes rt)) (shape_table rt) (q :: pre ++ post)); try assumption; try reflexivity; [eauto| |eauto].
    right. exists r, sr, (shape_hash_next sp). split; [exact Hr'|]. split; [reflexivity|]. assert (r ∈ q :: pre ++ p :: post) as Hrc by (apply elem_of_cons in Hrin; apply elem_of_cons; destruct Hrin; [auto|right; apply elem_of_app; auto]).
    apply Hch in Hrc. destruct Hrc as [_ (s & Hs & E)]. congruence.
Qed.

(** ** Resizing *)

(** The runtime with the table under construction. *)
Definition building (rt : JSShapes) (bits : Z) (t : list (option sptr)) (D : gset sptr) : JSShapes :=
  with_table rt bits (2 ^ bits) (Z.of_nat (size D)) t.

Lemma rehash_shapes_spec bits fuel : forall rt b l t D,
  hash_ok (building rt bits t D) D -> chain (shapes rt) b l -> NoDup l -> (forall p, p ∈ l -> p ∉ D) -> (length l <= fuel)%nat ->
  (forall p s, p ∈ l -> shapes rt !! p = Some s -> 0 <= sh_hash s < 2 ^ 32) ->
  exists rt' t', rehash_shapes fuel rt bits b t = mret (rt', t') /\ hash_ok (building rt' bits t' (list_to_set l ∪ D)) (list_to_set l ∪ D) /\
    same_rest rt rt' /\ table_fields rt rt' /\ forall q, q ∉ l -> shapes rt' !! q = shapes rt !! q.
Proof.
  induction fuel as [|fuel IH]; intros rt b l t D H Hc Hn Hd Hf Hr; (destruct l as [|p l]; [|try (cbn in Hf; lia)]).
  1,2: cbn in Hc; subst b; exists rt, t; split; [reflexivity|]; replace (list_to_set [] ∪ D) with D by (cbn; set_solver); repeat split; exact H || apply H.
  destruct Hc as [-> (s & Hs & Hc)]. cbn [rehash_shapes]. rewrite (shape_at_spec rt p s Hs), ret_bind. apply NoDup_cons in Hn. destruct Hn as [Hp Hn].
  destruct (link_run (building rt bits t D) p s D H Hs (Hr p s ltac:(left) Hs) (Hd p ltac:(left))) as (n & t' & E1 & E2 & Hok). cbn in E1, E2. rewrite E1, ret_bind, E2, ret_bind.
  destruct (IH (put_shape rt p (set_chain s n)) (shape_hash_next s) l t' ({[p]} ∪ D)) as (rt' & t'' & -> & K1 & (K2 & K3 & K4) & K5 & K6).
  - unfold building. rewrite size_union, size_singleton, Nat2Z.inj_add, Z.add_comm by (apply disjoint_singleton_l, Hd; left). exact Hok.
  - apply (chain_frame (shapes rt)); [|exact Hc]. intros q Hq. cbn. rewrite lookup_insert_ne by (intros ->; contradiction). reflexivity.
  - exact Hn.
  - intros q Hq. rewrite elem_of_union, elem_of_singleton. intros [->|Hq']; [contradiction|]. apply (Hd q); [right; exact Hq|exact Hq'].
  - cbn in Hf. lia.
  - intros q s' Hq Hs'. cbn in Hs'. rewrite lookup_insert_ne in Hs' by (intros ->; contradiction). apply (Hr q s'); [right; exact Hq|exact Hs'].
  - exists rt', t''. split; [reflexivity|]. replace (list_to_set (p :: l) ∪ D) with (list_to_set l ∪ ({[p]} ∪ D)) by (cbn; set_solver). split; [exact K1|].
    split; [split; [rewrite K2; apply (core_relink rt p s n Hs)|split; [exact K3|exact K4]]|]. split; [exact K5|].
    intros q Hq. rewrite K6 by (intros Hq'; apply Hq; right; exact Hq'). cbn. apply lookup_insert_ne. intros ->. apply Hq. left.
Qed.

(** The shapes of the first [n] buckets. *)
Definition below (rt : JSShapes) (L : gset sptr) (n : Z) : gset sptr :=
  filter (fun p => default n (bucket_of rt p) < n) L.

Lemma below_step rt L h ch :
  (forall p, p ∈ ch <-> p ∈ L /\ exists s, shapes rt !! p = Some s /\ get_shape_hash (sh_hash s) (shape_hash_bits rt) = h) ->
  list_to_set ch ∪ below rt L h = below rt L (h + 1).
Proof.
  intros Hch. apply set_eq. intros p. unfold below. rewrite elem_of_union, elem_of_list_to_set, Hch, !elem_of_filter. unfold bucket_of.
  split; [intros [[Hp (s & Hs & E)]|[Hb Hp]]|intros [Hb Hp]].
  - rewrite Hs. cbn. split; [lia|exact Hp].
  - destruct (shapes rt !! p) as [s|]; [cbn in *; split; [lia|exact Hp]|cbn in Hb; lia].
  - destruct (shapes rt !! p) as [s|] eqn:Hs; [cbn in Hb|cbn in Hb; lia]. destruct (decide (get_shape_hash (sh_hash s) (shape_hash_bits rt) = h)); [left; eauto|right]. cbn. split; [lia|exact Hp].
Qed.

Lemma rehash_buckets_spec rt L bits : hash_ok rt L -> forall l i cur t,
  l = drop i (shape_table rt) -> (i <= length (shape_table rt))%nat -> let D := below rt L (Z.of_nat i) in
  hash_ok (building cur bits t D) D -> same_rest rt cur -> table_fields rt cur -> (forall q, q ∈ L -> q ∉ D -> shapes cur !! q = shapes rt !! q) ->
  exists rt' t', rehash_buckets l cur bits t = mret (rt', t') /\ hash_ok (building rt' bits t' L) L /\ same_rest rt rt' /\ table_fields rt rt'.
Proof.
  intros H. pose proof (ho_len _ _ H) as Hlen. unfold len in Hlen. induction l as [|b l IH]; intros i cur t El Hi D Hok (S1 & S2 & S3) Htf Hfr.
  - assert (i = length (shape_table rt)) as -> by (apply (f_equal length) in El; rewrite length_drop in El; cbn in El; lia). exists cur, t. split; [reflexivity|].
    assert (HD : D = L); [|rewrite HD in Hok; split; [exact Hok|split; [repeat split; assumption|exact Htf]]]. apply set_eq. intros p. unfold D, below. rewrite elem_of_filter. split; [tauto|]. intros Hp. split; [|exact Hp].
    destruct (ho_dom _ _ H p Hp) as (s & Hs & Hr). unfold bucket_of. rewrite Hs. cbn. pose proof (hash_bucket_range (sh_hash s) _ (ho_bits _ _ H) Hr). lia.
  - assert (Hb : shape_table rt !! i = Some b) by (rewrite <- (Nat.add_0_r i), <- lookup_drop, <- El; reflexivity).
    assert (Hi' : (i < length (shape_table rt))%nat) by (apply lookup_lt_is_Some; eauto).
    destruct (ho_chain _ _ H (Z.of_nat i) ltac:(lia)) as (b' & ch & Hb' & Hc & Hn & Hch). rewrite Nat2Z.id, Hb in Hb'. injection Hb' as <-.
    assert (Hnd : forall p, p ∈ ch -> p ∉ D).
    { intros p Hp. apply Hch in Hp. destruct Hp as [Hp (s & Hs & E)]. unfold D, below. rewrite elem_of_filter. unfold bucket_of. rewrite Hs. cbn. lia. }
    assert (Hsame : forall p, p ∈ ch -> shapes cur !! p = shapes rt !! p) by (intros p Hp; apply Hfr; [apply Hch, Hp|apply Hnd, Hp]).
    cbn [rehash_buckets]. assert (Hcc : chain (shapes cur) b ch) by (apply (chain_frame (shapes rt)); [intros p Hp; rewrite Hsame by exact Hp; reflexivity|exact Hc]).
    destruct (rehash_shapes_spec bits (S (size (shapes cur))) cur b ch t D Hok Hcc Hn Hnd) as (cur' & t' & -> & K1 & (K2 & K3 & K4) & (K5 & K6 & K7 & K8) & K9).
    + pose proof (chain_length _ _ _ Hcc Hn). lia.
    + intros p s Hp Hs. rewrite Hsame in Hs by exact Hp. destruct (ho_dom _ _ H p) as (s' & Hs' & Hr); [apply Hch, Hp|]. congruence.
    + rewrite ret_bind. destruct Htf as (F1 & F2 & F3 & F4). pose proof (below_step rt L (Z.of_nat i) ch Hch) as Eb. fold D in Eb. rewrite Eb in K1. replace (Z.of_nat i + 1) with (Z.of_nat (S i)) in * by lia.
      apply (IH (S i) cur' t'); [apply (drop_S _ _ _) in Hb; rewrite Hb in El; injection El as ->; reflexivity|lia|exact K1|repeat split; congruence|repeat split; congruence|].
      intros q Hq Hnb. rewrite <- Eb in Hnb. rewrite K9 by (intros Hq'; apply Hnb, elem_of_union; left; apply elem_of_list_to_set, Hq'). apply Hfr; [exact Hq|]. intros HD. apply Hnb, elem_of_union. right. exact HD.
Qed.

Lemma building_empty rt bits : 4 <= bits <= 30 -> hash_ok (building rt bits (replicate (Z.to_nat (2 ^ bits)) None) ∅) ∅.
Proof.
  intros Hb. assert (0 < 2 ^ bits) by (apply Z.pow_pos_nonneg; lia). split; cbn; [exact Hb|reflexivity|rewrite len_replicate; lia| |set_solver|rewrite size_empty; reflexivity].
  intros h Hh. exists None, []. split; [apply lookup_replicate_2; lia|]. split; [reflexivity|]. split; [constructor|]. intros p. set_solver.
Qed.

Lemma resize_shapes_spec (G : Prop) E rt L :
  hash_ok rt L -> shape_hash_bits rt <= 29 ->
  gspec G (resize_shape_hash rt (shape_hash_bits rt + 1))
    (fun q => hash_ok (fst q) L /\ same_rest rt (fst q) /\ shape_hash_count (fst q) = shape_hash_count rt /\
              (shape_hash_bits (fst q) = shape_hash_bits rt \/ shape_hash_bits (fst q) = shape_hash_bits rt + 1)) E.
Proof.
  intros H Hb. pose proof (ho_bits _ _ H) as Hb4. unfold resize_shape_hash. eapply gspec_bind; [apply gspec_try_alloc|]. intros ok _. destruct ok; cbn [negb]; [|apply gspec_ret; cbn; split; [exact H|]; repeat split; auto].
  rewrite Z.shiftl_1_l. unfold tab_slice. rewrite (ho_size _ _ H), <- (ho_len _ _ H). pose proof (len_nonneg (shape_table rt)).
  rewrite !(proj2 (Z.leb_le _ _)) by lia. cbn [andb]. rewrite ret_bind. change (Z.to_nat 0) with 0%nat. unfold len. rewrite Nat2Z.id, drop_0, firstn_all.
  assert (E0 : below rt L (Z.of_nat 0) = ∅).
  { apply set_eq. intros p. unfold below. rewrite elem_of_filter. split; [|set_solver]. intros [Hl Hp]. destruct (ho_dom _ _ H p Hp) as (s & Hs & Hr). unfold bucket_of in Hl. rewrite Hs in Hl. cbn in Hl.
    pose proof (hash_bucket_range (sh_hash s) _ Hb4 Hr). lia. }
  destruct (rehash_buckets_spec rt L (shape_hash_bits rt + 1) H (shape_table rt) 0 rt (replicate (Z.to_nat (2 ^ (shape_hash_bits rt + 1))) None)) as (rt' & t' & -> & K1 & K2 & K3);
    [reflexivity|lia|rewrite E0; apply building_empty; lia|repeat split|repeat split|reflexivity|].
  rewrite ret_bind. apply gspec_ret. cbn [fst]. destruct K3 as (F1 & F2 & F3 & F4). split; [|split; [exact K2|split; [exact F3|right; reflexivity]]].
  unfold building in K1. replace (shape_hash_count rt') with (Z.of_nat (size L)) by (rewrite F3; symmetry; apply (ho_count _ _ H)). exact K1.
Qed.

(** ** Searches *)

(** A search along a chain finds the first shape with the property. *)
Lemma chain_find rt (P : JSShape -> bool) (loop : nat -> option sptr -> M (option sptr)) :
  (forall fuel, loop fuel None = mret None) ->
  (forall fuel p s, shapes rt !! p = Some s -> loop (S fuel) (Some p) = if P s then mret (Some p) else loop fuel (shape_hash_next s)) ->
  forall fuel b l, chain (shapes rt) b l -> (length l <= fuel)%nat ->
  exists r, loop fuel b = mret r /\
    match r with
    | Some p => exists s, p ∈ l /\ shapes rt !! p = Some s /\ P s = true
    | None => forall p s, p ∈ l -> shapes rt !! p = Some s -> P s = false
    end.
Proof.
  intros H0 HS. induction fuel as [|fuel IH]; intros b l Hc Hf; (destruct l as [|p l]; [|try (cbn in Hf; lia)]).
  1,2: cbn in Hc; subst b; rewrite H0; exists None; split; [reflexivity|intros p s Hp; inversion Hp].
  destruct Hc as [-> (s & Hs & Hc)]. rewrite (HS fuel p s Hs). destruct (P s) eqn:E.
  - exists (Some p). split; [reflexivity|]. exists s. split; [left|auto].
  - destruct (IH _ l Hc ltac:(cbn in Hf; lia)) as (r & -> & Hr). exists r. split; [reflexivity|]. destruct r as [q|].
    + destruct Hr as (s' & H1 & H2). exists s'. split; [right; exact H1|exact H2].
    + intros q s' Hq Hs'. apply elem_of_cons in Hq. destruct Hq as [->|Hq]; [congruence|exact (Hr q s' Hq Hs')].
Qed.

End Chains.
