(* ===== verification/ShapeRefs.v ===== *)
(** The invariant of objects and shapes.

    [core_ok ext C O]: every shape of [C] is well formed, every object of [O] has a
    shape with room for its properties, and the count of a shape is the number of
    objects that have it plus the references [ext] held elsewhere.  An operation
    that moves an object from one shape to another works on [O] without the object,
    whose reference is then one of [ext].

    The operations that create, share and free shapes keep the invariant. *)
From Stdlib Require Import ZArith Lia.
From S2P Require Import Prelude Shapes ShapeTables ShapeChains.
From stdpp Require Import base tactics numbers list gmap fin_sets.

Open Scope Z_scope.

Definition num (sh : JSShape) : nat := Z.to_nat (prop_count sh).

(** The hash of the first [n] entries. *)
Fixpoint hash_props (h : Z) (n : nat) (ps : list JSShapeProperty) : Z :=
  match n with
  | O => h
  | S n => match ps !! n with
           | Some e => shape_hash (shape_hash (hash_props h n ps) (sp_atom e)) (sp_flags e)
           | None => hash_props h n ps
           end
  end.

Lemma hash_props_ext h n ps ps' :
  (forall i, (i < n)%nat -> (fun e => (sp_atom e, sp_flags e)) <$> ps !! i = (fun e => (sp_atom e, sp_flags e)) <$> ps' !! i) -> hash_props h n ps = hash_props h n ps'.
Proof.
  induction n as [|n IH]; intros H; [reflexivity|]. cbn. rewrite IH by (intros; apply H; lia). specialize (H n ltac:(lia)).
  destruct (ps !! n), (ps' !! n); try discriminate; [|reflexivity]. cbn in H. injection H as H1 H2. rewrite H1, H2. reflexivity.
Qed.

Section Heap.
Context `{OC : ObjectConfig}.

Record shape_ok (sh : JSShape) : Prop := {
  so_count : 0 <= prop_count sh <= prop_size sh;
  so_small : prop_count sh < 2 ^ 26;
  so_size : JS_PROP_INITIAL_SIZE <= prop_size sh <= 2 ^ 27;
  so_len : len (sh_prop sh) = prop_size sh;
  so_mask : prop_hash_mask sh < 2 ^ 30;
  so_table : table_ok (prop_hash_mask sh) (num sh) (sh_prop sh) (prop_hash sh);
  so_entries : forall i e, (i < num sh)%nat -> sh_prop sh !! i = Some e -> entry_ok e;
  so_distinct : distinct (num sh) (sh_prop sh);
  so_deleted : deleted_prop_count sh = prop_count sh - Z.of_nat (lives (num sh) (sh_prop sh));
  so_hash : 0 <= sh_hash sh < 2 ^ 32;
  so_hashed : is_hashed sh = true -> deleted_prop_count sh = 0 /\ sh_hash sh = hash_props (shape_initial_hash (proto sh)) (num sh) (sh_prop sh);
  so_private : is_hashed sh = false -> ref_count sh = 1
}.

Lemma shape_ok_strip sh : shape_ok sh <-> shape_ok (strip sh).
Proof. split; intros []; split; assumption. Qed.

(** The same shape but for its count, its chain and its place in the table. *)
Lemma shape_ok_ref sh n : shape_ok sh -> (is_hashed sh = false -> n = 1) -> shape_ok (set_ref sh n).
Proof. intros [] Hn; split; assumption. Qed.

Lemma shape_ok_unhashed sh : shape_ok sh -> ref_count sh = 1 -> shape_ok (set_hashed sh false (sh_hash sh)).
Proof. intros [] Hr; split; try assumption; [discriminate|intros _; exact Hr]. Qed.

Lemma num_len sh : shape_ok sh -> (num sh <= length (sh_prop sh))%nat.
Proof. intros H. pose proof (so_count _ H). pose proof (so_len _ H). unfold num, len in *. lia. Qed.

(** ** References *)

Definition holders (O : gmap optr JSObject) (p : sptr) : nat := size (filter (fun kv => shape kv.2 = p) O).

Definition one (b : bool) : nat := if b then 1%nat else 0%nat.

Lemma holders_insert O o ob p : O !! o = None -> holders (<[o := ob]> O) p = (holders O p + one (bool_decide (shape ob = p)))%nat.
Proof.
  intros Ho. unfold holders. rewrite map_filter_insert. cbn. case_decide as Hd.
  - rewrite bool_decide_eq_true_2 by exact Hd. rewrite map_size_insert_None; [cbn; lia|]. apply map_lookup_filter_None. left. exact Ho.
  - rewrite bool_decide_eq_false_2 by exact Hd. rewrite map_filter_delete, delete_id; [cbn; lia|]. apply map_lookup_filter_None. left. exact Ho.
Qed.

Lemma holders_delete O o ob p : O !! o = Some ob -> holders O p = (holders (delete o O) p + one (bool_decide (shape ob = p)))%nat.
Proof. intros Ho. rewrite <- (insert_delete_id O o ob Ho) at 1. apply holders_insert. apply lookup_delete_eq. Qed.

Lemma holders_none O p : holders O p = 0%nat -> forall o ob, O !! o = Some ob -> shape ob <> p.
Proof. intros H o ob Ho E. rewrite (holders_delete O o ob p Ho), bool_decide_eq_true_2 in H by exact E. cbn in H. lia. Qed.

Definition upd (ext : sptr -> Z) (p : sptr) (d : Z) : sptr -> Z := fun q => if bool_decide (q = p) then ext q + d else ext q.

Lemma upd_eq ext p d : upd ext p d p = ext p + d.
Proof. unfold upd. rewrite bool_decide_eq_true_2 by reflexivity. reflexivity. Qed.

Lemma upd_ne ext p d q : q <> p -> upd ext p d q = ext q.
Proof. intros H. unfold upd. rewrite bool_decide_eq_false_2 by exact H. reflexivity. Qed.

Record core_ok (ext : sptr -> Z) (C : gmap sptr JSShape) (O : gmap optr JSObject) : Prop := {
  co_shape : forall p sh, C !! p = Some sh -> shape_ok sh;
  co_obj : forall o ob, O !! o = Some ob -> exists sh, C !! shape ob = Some sh /\ prop_size sh <= len (prop ob);
  co_refs : forall p sh, C !! p = Some sh -> ref_count sh = Z.of_nat (holders O p) + ext p /\ 1 <= ref_count sh;
  co_pos : forall p, 0 <= ext p;
  co_ext : forall p, 0 < ext p -> is_Some (C !! p)
}.

Lemma core_ok_ext ext ext' C O : (forall p, ext p = ext' p) -> core_ok ext C O -> core_ok ext' C O.
Proof. intros E []. split; try assumption; intros p; rewrite <- ?E; auto. Qed.

(** Taking an object out, and putting it back with another shape. *)
Lemma core_open ext C O o ob : core_ok ext C O -> O !! o = Some ob -> core_ok (upd ext (shape ob) 1) C (delete o O).
Proof.
  intros H Ho. split; [apply H| | | |].
  - intros o' ob' Ho'. apply lookup_delete_Some in Ho'. apply (co_obj _ _ _ H o'), Ho'.
  - intros p sh Hp. destruct (co_refs _ _ _ H p sh Hp) as [E E']. split; [|exact E']. rewrite E, (holders_delete O o ob p Ho). unfold upd.
    destruct (decide (p = shape ob)) as [->|Hne]; [rewrite !bool_decide_eq_true_2 by reflexivity; cbn; lia|].
    rewrite !bool_decide_eq_false_2 by congruence. cbn. lia.
  - intros p. pose proof (co_pos _ _ _ H p). unfold upd. case_bool_decide; lia.
  - intros p. unfold upd. case_bool_decide as E; [|apply H]. subst p. intros _. destruct (co_obj _ _ _ H o ob Ho) as (sh & -> & _). eauto.
Qed.

Lemma core_close ext C O o q vs sh :
  core_ok ext C (delete o O) -> C !! q = Some sh -> 1 <= ext q -> prop_size sh <= len vs -> core_ok (upd ext q (-1)) C (<[o := MkObj q vs]> O).
Proof.
  intros H Hq He Hl. rewrite <- insert_delete_eq. split; [apply H| | | |].
  - intros o' ob' Ho'. apply lookup_insert_Some in Ho'. destruct Ho' as [[<- <-]|[_ Ho']]; [exists sh; auto|apply (co_obj _ _ _ H o' ob' Ho')].
  - intros p sh' Hp. destruct (co_refs _ _ _ H p sh' Hp) as [E E']. split; [|exact E']. rewrite E, holders_insert by apply lookup_delete_eq. unfold upd. cbn.
    destruct (decide (p = q)) as [->|Hne]; [rewrite !bool_decide_eq_true_2 by reflexivity; cbn; lia|rewrite !bool_decide_eq_false_2 by congruence; cbn; lia].
  - intros p. pose proof (co_pos _ _ _ H p). unfold upd. case_bool_decide; [subst; lia|lia].
  - intros p. unfold upd. case_bool_decide as E; [|apply H]. subst p. eauto.
Qed.

(** ** Changes of one shape *)

Lemma core_new ext C O q sh :
  core_ok ext C O -> C !! q = None -> shape_ok sh -> ref_count sh = 1 -> core_ok (upd ext q 1) (<[q := sh]> C) O.
Proof.
  intros H Hq Hs Hr. assert (E0 : ext q = 0) by (pose proof (co_pos _ _ _ H q); destruct (decide (0 < ext q)) as [Hp|]; [apply (co_ext _ _ _ H) in Hp; rewrite Hq in Hp; destruct Hp; discriminate|lia]).
  assert (H0 : holders O q = 0%nat).
  { unfold holders. apply map_size_empty_iff, map_empty. intros o. apply map_lookup_filter_None. right. intros ob Ho E. cbn in E. destruct (co_obj _ _ _ H o ob Ho) as (sh' & Hs' & _). congruence. }
  split.
  - intros p sh' Hp. apply lookup_insert_Some in Hp. destruct Hp as [[_ <-]|[_ Hp]]; [exact Hs|apply (co_shape _ _ _ H p sh' Hp)].
  - intros o ob Ho. destruct (co_obj _ _ _ H o ob Ho) as (sh' & Hs' & Hl). exists sh'. split; [|exact Hl]. rewrite lookup_insert_ne; [exact Hs'|congruence].
  - intros p sh' Hp. apply lookup_insert_Some in Hp. unfold upd. destruct Hp as [[<- <-]|[Hne Hp]].
    + rewrite bool_decide_eq_true_2, H0, E0, Hr by reflexivity. lia.
    + rewrite bool_decide_eq_false_2 by congruence. apply (co_refs _ _ _ H p sh' Hp).
  - intros p. pose proof (co_pos _ _ _ H p). unfold upd. case_bool_decide; lia.
  - intros p. unfold upd. case_bool_decide as E; [subst; rewrite lookup_insert_eq; eauto|]. rewrite lookup_insert_ne by congruence. apply H.
Qed.

(** A shape changed in place. *)
Lemma core_update ext C O p sh sh' d :
  core_ok ext C O -> C !! p = Some sh -> shape_ok sh' -> prop_size sh' = prop_size sh -> ref_count sh' = ref_count sh + d -> 0 <= ext p + d -> 1 <= ref_count sh' ->
  core_ok (upd ext p d) (<[p := sh']> C) O.
Proof.
  intros H Hp Hs Hz Hr He H1. split.
  - intros q s Hq. apply lookup_insert_Some in Hq. destruct Hq as [[_ <-]|[_ Hq]]; [exact Hs|apply (co_shape _ _ _ H q s Hq)].
  - intros o ob Ho. destruct (co_obj _ _ _ H o ob Ho) as (s & Hs' & Hl). destruct (decide (shape ob = p)) as [E|Hne].
    + rewrite E in *. rewrite Hp in Hs'. injection Hs' as <-. exists sh'. rewrite lookup_insert_eq, Hz. auto.
    + exists s. rewrite lookup_insert_ne by congruence. auto.
  - intros q s Hq. apply lookup_insert_Some in Hq. unfold upd. destruct Hq as [[<- <-]|[Hne Hq]].
    + rewrite bool_decide_eq_true_2 by reflexivity. destruct (co_refs _ _ _ H p sh Hp). lia.
    + rewrite bool_decide_eq_false_2 by congruence. apply (co_refs _ _ _ H q s Hq).
  - intros q. pose proof (co_pos _ _ _ H q). unfold upd. case_bool_decide; [subst; lia|lia].
  - intros q. unfold upd. case_bool_decide as E; [subst; rewrite lookup_insert_eq; eauto|]. rewrite lookup_insert_ne by congruence. apply H.
Qed.

(** A shape that loses its last reference. *)
Lemma core_drop ext C O p sh : core_ok ext C O -> C !! p = Some sh -> ref_count sh = 1 -> 1 <= ext p -> core_ok (upd ext p (-1)) (delete p C) O /\ holders O p = 0%nat /\ ext p = 1.
Proof.
  intros H Hp Hr He. destruct (co_refs _ _ _ H p sh Hp) as [E _]. assert (H0 : holders O p = 0%nat) by lia. split; [|lia]. split.
  - intros q s Hq. apply lookup_delete_Some in Hq. apply (co_shape _ _ _ H q), Hq.
  - intros o ob Ho. destruct (co_obj _ _ _ H o ob Ho) as (s & Hs & Hl). exists s. rewrite lookup_delete_ne by (intros E'; apply (holders_none O p H0 o ob Ho); auto). auto.
  - intros q s Hq. apply lookup_delete_Some in Hq. destruct Hq as [Hne Hq]. rewrite upd_ne by congruence. apply (co_refs _ _ _ H q s Hq).
  - intros q. pose proof (co_pos _ _ _ H q). unfold upd. case_bool_decide; [subst; lia|lia].
  - intros q. unfold upd. case_bool_decide as E'; [subst; lia|]. rewrite lookup_delete_ne by congruence. apply H.
Qed.

(** A shape that only its holder outside of [O] has, at a new address. *)
Lemma core_move ext C O p q sh sh' :
  core_ok ext C O -> C !! p = Some sh -> ref_count sh = 1 -> 1 <= ext p -> C !! q = None -> shape_ok sh' -> ref_count sh' = 1 ->
  core_ok (upd (upd ext p (-1)) q 1) (<[q := sh']> (delete p C)) O.
Proof.
  intros H Hp Hr He Hq Hs Hr'. apply core_new; [apply (core_drop ext C O p sh H Hp Hr He)| |exact Hs|exact Hr'].
  rewrite lookup_delete_ne by congruence. exact Hq.
Qed.

(** ** Views

    The prototype of an object and its properties in order. *)

Definition view_of (C : gmap sptr JSShape) (ob : JSObject) : option optr * list (Z * Z * JSProperty) :=
  match C !! shape ob with Some sh => (proto sh, rows (num sh) (sh_prop sh) (prop ob)) | None => (None, []) end.

Definition views_kept (C C' : gmap sptr JSShape) (O : gmap optr JSObject) : Prop := forall o ob, O !! o = Some ob -> view_of C' ob = view_of C ob.

Lemma views_trans C1 C2 C3 O : views_kept C1 C2 O -> views_kept C2 C3 O -> views_kept C1 C3 O.
Proof. intros H1 H2 o ob Ho. rewrite (H2 o ob Ho). apply (H1 o ob Ho). Qed.

Lemma views_insert C O p sh sh' :
  C !! p = Some sh -> proto sh' = proto sh -> (forall vs, rows (num sh') (sh_prop sh') vs = rows (num sh) (sh_prop sh) (vs : list JSProperty)) -> views_kept C (<[p := sh']> C) O.
Proof.
  intros Hp Hpr Hv o ob Ho. unfold view_of. destruct (decide (shape ob = p)) as [->|Hne]; [rewrite lookup_insert_eq, Hp, Hpr, Hv; reflexivity|rewrite lookup_insert_ne by congruence; reflexivity].
Qed.

Lemma views_away C C' O ext : core_ok ext C O -> (forall p, holders O p <> 0%nat -> C' !! p = C !! p) -> views_kept C C' O.
Proof.
  intros H Hp o ob Ho. unfold view_of. rewrite Hp; [reflexivity|]. rewrite (holders_delete O o ob _ Ho), bool_decide_eq_true_2 by reflexivity. cbn. lia.
Qed.

(** ** The table *)

Definition hashed (C : gmap sptr JSShape) : gset sptr := dom (filter (fun kv => is_hashed kv.2 = true) C).

Lemma elem_of_hashed C p : p ∈ hashed C <-> exists sh, C !! p = Some sh /\ is_hashed sh = true.
Proof.
  unfold hashed. rewrite elem_of_dom. split.
  - intros [sh H]. apply map_lookup_filter_Some in H. exists sh. exact H.
  - intros (sh & H). exists sh. apply map_lookup_filter_Some. exact H.
Qed.

Definition inv (ext : sptr -> Z) (rt : JSShapes) (O : gmap optr JSObject) : Prop := core_ok ext (core rt) O /\ hash_ok rt (hashed (core rt)).

Lemma core_lookup rt p sh : core rt !! p = Some sh -> exists s, shapes rt !! p = Some s /\ sh = strip s.
Proof. unfold core. rewrite lookup_fmap. intros H. destruct (shapes rt !! p) as [s|]; [|discriminate]. injection H as <-. eauto. Qed.

Lemma lookup_core rt p s : shapes rt !! p = Some s -> core rt !! p = Some (strip s).
Proof. intros H. unfold core. rewrite lookup_fmap, H. reflexivity. Qed.

Lemma new_sptr_fresh rt : core rt !! new_sptr rt = None.
Proof. unfold core. rewrite lookup_fmap. assert (shapes rt !! new_sptr rt = None) as ->; [|reflexivity]. apply not_elem_of_dom. apply is_fresh. Qed.

End Heap.

Section Refs.
Context `{OC : ObjectConfig}.
Implicit Types (rt : JSShapes) (O : gmap optr JSObject).

(** ** Sets of hashed shapes *)

Lemma hashed_insert C p sh' :
  hashed (<[p := sh']> C) = if is_hashed sh' then {[p]} ∪ hashed C else hashed C ∖ {[p]}.
Proof.
  apply set_eq. intros q. rewrite elem_of_hashed. destruct (is_hashed sh') eqn:E; [rewrite elem_of_union, elem_of_singleton|rewrite elem_of_difference, elem_of_singleton]; rewrite elem_of_hashed.
  - split; [intros (s & Hs & Hh); apply lookup_insert_Some in Hs; destruct Hs as [[<- _]|[_ Hs]]; eauto|].
    intros [->|(s & Hs & Hh)]; [exists sh'; rewrite lookup_insert_eq; auto|]. destruct (decide (q = p)) as [->|]; [exists sh'; rewrite lookup_insert_eq; auto|exists s; rewrite lookup_insert_ne by congruence; auto].
  - split; [intros (s & Hs & Hh); apply lookup_insert_Some in Hs; destruct Hs as [[<- <-]|[Hne Hs]]; [congruence|]; split; [eauto|congruence]|].
    intros [(s & Hs & Hh) Hne]. exists s. rewrite lookup_insert_ne by congruence. auto.
Qed.

Lemma hashed_delete C p : hashed (delete p C) = hashed C ∖ {[p]}.
Proof.
  apply set_eq. intros q. rewrite elem_of_difference, elem_of_singleton, !elem_of_hashed. split.
  - intros (s & Hs & Hh). apply lookup_delete_Some in Hs. destruct Hs as [Hne Hs]. split; [eauto|congruence].
  - intros [(s & Hs & Hh) Hne]. exists s. rewrite lookup_delete_ne by congruence. auto.
Qed.

Lemma not_hashed rt p : (forall s, shapes rt !! p = Some s -> is_hashed s = false) -> p ∉ hashed (core rt).
Proof. intros H Hp. apply elem_of_hashed in Hp. destruct Hp as (sh & Hs & Hh). apply core_lookup in Hs. destruct Hs as (s & Hs & ->). cbn in Hh. rewrite (H s Hs) in Hh. discriminate. Qed.

Lemma is_hashed_in rt p s : shapes rt !! p = Some s -> is_hashed s = true -> p ∈ hashed (core rt).
Proof. intros Hs Hh. apply elem_of_hashed. exists (strip s). split; [apply lookup_core, Hs|exact Hh]. Qed.

(** A change that keeps the place of the shape in the table. *)
Lemma table_put rt p s s' :
  hash_ok rt (hashed (core rt)) -> shapes rt !! p = Some s -> shape_hash_next s' = shape_hash_next s -> sh_hash s' = sh_hash s -> is_hashed s' = is_hashed s ->
  hash_ok (put_shape rt p s') (hashed (core (put_shape rt p s'))).
Proof.
  intros H Hs E1 E2 E3. assert (hashed (core (put_shape rt p s')) = hashed (core rt)) as ->; [|apply hash_ok_put; [exact H|]; intros _; eauto].
  rewrite core_put, hashed_insert. cbn. rewrite E3. destruct (is_hashed s) eqn:E.
  - pose proof (is_hashed_in rt p s Hs E). set_solver.
  - assert (p ∉ hashed (core rt)) by (apply not_hashed; intros s0 Hs0; congruence). set_solver.
Qed.

(** A change of a shape that is not in the table. *)
Lemma table_put_free rt p s' L :
  hash_ok rt L -> p ∉ L -> L = hashed (core rt) ∖ {[p]} -> is_hashed s' = false -> hash_ok (put_shape rt p s') (hashed (core (put_shape rt p s'))).
Proof.
  intros H Hp EL Hh. rewrite core_put, hashed_insert. cbn. rewrite Hh, <- EL. apply hash_ok_put; [exact H|]. intros Hp'. contradiction.
Qed.

(** ** The size of the tables

    [room k rt]: [k] more shapes and properties fit in the bounds of the C code. *)
Definition room (k : Z) (rt : JSShapes) : Prop :=
  k < 2 ^ 26 /\ shape_hash_bits rt <= 29 /\ shape_hash_count rt + k <= 2 ^ 27 /\ forall p sh, core rt !! p = Some sh -> prop_count sh + k < 2 ^ 26.

Definition steps (d : Z) (rt rt' : JSShapes) : Prop := forall k, 0 <= k -> room (k + d) rt -> room k rt'.

Lemma room_mono k k' rt : k' <= k -> room k rt -> room k' rt.
Proof. intros Hk (H0 & H1 & H2 & H3). split; [lia|]. split; [exact H1|]. split; [lia|]. intros p sh Hp. specialize (H3 p sh Hp). lia. Qed.

Lemma steps_trans a b rt1 rt2 rt3 : 0 <= b -> steps a rt1 rt2 -> steps b rt2 rt3 -> steps (a + b) rt1 rt3.
Proof. intros Hb H1 H2 k Hk Hr. apply H2; [exact Hk|]. apply H1; [lia|]. replace (k + b + a) with (k + (a + b)) by lia. exact Hr. Qed.

Lemma steps_refl rt : steps 0 rt rt.
Proof. intros k Hk Hr. replace k with (k + 0) by lia. exact Hr. Qed.

Lemma steps_mono a b rt rt' : a <= b -> steps a rt rt' -> steps b rt rt'.
Proof. intros Hab H k Hk Hr. apply H; [exact Hk|]. apply (room_mono (k + b)); [lia|exact Hr]. Qed.

(** The table fields and the shapes that matter for [room]. *)
Lemma steps_of d rt rt' :
  0 <= d -> shape_hash_bits rt' = shape_hash_bits rt -> shape_hash_count rt' <= shape_hash_count rt + d ->
  (forall p sh', core rt' !! p = Some sh' -> prop_count sh' <= d \/ exists q sh, core rt !! q = Some sh /\ prop_count sh' <= prop_count sh + d) -> steps d rt rt'.
Proof.
  intros Hd E1 E2 E3 k Hk (H0 & H1 & H2 & H3). split; [lia|]. split; [lia|]. split; [lia|]. intros p sh' Hp. destruct (E3 p sh' Hp) as [Hle|(q & sh & Hq & Hle)]; [lia|]. specialize (H3 q sh Hq). lia.
Qed.

Lemma steps_insert rt rt' p sh sh' :
  shape_hash_bits rt' = shape_hash_bits rt -> shape_hash_count rt' <= shape_hash_count rt -> core rt' = <[p := sh']> (core rt) ->
  core rt !! p = Some sh -> prop_count sh' <= prop_count sh -> steps 0 rt rt'.
Proof.
  intros E1 E2 E3 Hp Hc. apply steps_of; [lia|exact E1|lia|]. intros q s Hq. rewrite E3 in Hq. apply lookup_insert_Some in Hq. right.
  destruct Hq as [[<- <-]|[_ Hq]]; [exists p, sh; split; [exact Hp|lia]|exists q, s; split; [exact Hq|lia]].
Qed.

(** ** Counts *)

Lemma set_ref_core rt p s n : core (put_shape rt p (set_ref s n)) = <[p := set_ref (strip s) n]> (core rt).
Proof. rewrite core_put. reflexivity. Qed.

Lemma dup_shape_spec ext rt O p s :
  inv ext rt O -> shapes rt !! p = Some s -> is_hashed s = true ->
  let rt' := put_shape rt p (set_ref s (ref_count s + 1)) in
  js_dup_shape rt p = mret rt' /\ inv (upd ext p 1) rt' O /\ views_kept (core rt) (core rt') O /\ steps 0 rt rt'.
Proof.
  intros [HC HT] Hs Hh rt'. unfold js_dup_shape. rewrite (shape_at_spec rt p s Hs), ret_bind. split; [reflexivity|].
  pose proof (lookup_core rt p s Hs) as Hc. destruct (co_refs _ _ _ HC p _ Hc) as [_ H1]. cbn in H1. pose proof (co_pos _ _ _ HC p). split; [split|split].
  - unfold rt'. rewrite set_ref_core. apply (core_update ext _ O p (strip s)); [exact HC|exact Hc|apply shape_ok_ref; [apply (co_shape _ _ _ HC p), Hc|cbn; congruence]|reflexivity|reflexivity|lia|cbn; lia].
  - apply (table_put rt p s); auto.
  - unfold rt'. rewrite set_ref_core. apply (views_insert _ _ p (strip s)); [exact Hc|reflexivity|reflexivity].
  - apply (steps_insert rt rt' p (strip s) (set_ref (strip s) (ref_count s + 1))); [reflexivity|cbn; lia|apply set_ref_core|exact Hc|cbn; lia].
Qed.

Lemma free_shape_spec ext rt O p :
  inv ext rt O -> 1 <= ext p ->
  exists rt', js_free_shape rt p = mret rt' /\ inv (upd ext p (-1)) rt' O /\ objects rt' = objects rt /\ views_kept (core rt) (core rt') O /\ steps 0 rt rt' /\
    (forall q, q <> p -> core rt' !! q = core rt !! q).
Proof.
  intros [HC HT] He. destruct (co_ext _ _ _ HC p ltac:(lia)) as [sh Hc]. apply core_lookup in Hc as Hs. destruct Hs as (s & Hs & ->).
  destruct (co_refs _ _ _ HC p _ Hc) as [Er Hr1]. cbn in Er, Hr1. unfold js_free_shape. rewrite (shape_at_spec rt p s Hs), ret_bind.
  set (n := ref_count s - 1). set (rt1 := put_shape rt p (set_ref s n)).
  assert (C1 : core rt1 = <[p := set_ref (strip s) n]> (core rt)) by apply set_ref_core.
  assert (T1 : hash_ok rt1 (hashed (core rt1))) by (apply (table_put rt p s); auto).
  destruct (Z.leb_spec n 0) as [Hn|Hn].
  - unfold js_free_shape0. assert (Hs1 : shapes rt1 !! p = Some (set_ref s n)) by apply lookup_insert_eq. rewrite (shape_at_spec rt1 p _ Hs1), ret_bind. cbn [ref_count is_hashed sh_prop prop_count proto set_ref].
    rewrite (proj2 (Z.eqb_eq n 0)) by (unfold n; lia). cbn [negb].
    assert (exists rt2, (if is_hashed s then js_shape_hash_unlink rt1 p else mret rt1) = mret rt2 /\ hash_ok rt2 (hashed (core rt1) ∖ {[p]}) /\ same_rest rt1 rt2 /\
        shape_hash_bits rt2 = shape_hash_bits rt1 /\ shape_hash_count rt2 <= shape_hash_count rt1) as (rt2 & -> & T2 & (R1 & R2 & R3) & F1 & F2).
    { destruct (is_hashed s) eqn:E.
      - destruct (unlink_spec rt1 p _ T1 (is_hashed_in rt1 p _ Hs1 E)) as (rt2 & K1 & K2 & K3 & K4 & K5). exists rt2. repeat (split; [assumption|]). lia.
      - exists rt1. split; [reflexivity|]. assert (p ∉ hashed (core rt1)) by (apply not_hashed; intros s0 Hs0; rewrite Hs1 in Hs0; injection Hs0 as <-; exact E).
        replace (hashed (core rt1) ∖ {[p]}) with (hashed (core rt1)) by set_solver. repeat split; try apply T1. lia. }
    rewrite ret_bind. pose proof (co_shape _ _ _ HC p _ Hc) as Hok. pose proof (so_count _ Hok) as Hcnt. pose proof (so_len _ Hok) as Hlen. cbn in Hcnt, Hlen.
    unfold tab_slice. rewrite !(proj2 (Z.leb_le _ _)) by lia. cbn [andb]. rewrite ret_bind. eexists. split; [reflexivity|].
    set (rt3 := emit _ _). assert (C3 : core rt3 = delete p (core rt)).
    { unfold rt3, core. cbn. rewrite fmap_delete. fold (core rt2). rewrite R1, C1, delete_insert_eq. reflexivity. }
    destruct (core_drop ext (core rt) O p (strip s) HC Hc) as (D1 & D2 & D3); [cbn; unfold n in *; lia|exact He|].
    split; [split|split; [exact R2|split; [|split]]].
    + rewrite C3. exact D1.
    + rewrite C3, hashed_delete. assert (hashed (core rt1) ∖ {[p]} = hashed (core rt) ∖ {[p]}) as <- by (rewrite C1, hashed_insert; cbn; destruct (is_hashed s); set_solver).
      apply (hash_ok_fields (with_shapes rt2 (delete p (shapes rt2)))); [reflexivity|repeat split|]. apply (hash_ok_delete rt2 p); [exact T2|set_solver].
    + rewrite C3. apply (views_away _ _ _ ext HC). intros q Hq. apply lookup_delete_ne. congruence.
    + apply steps_of; [lia|exact F1|cbn; change (shape_hash_count rt1) with (shape_hash_count rt) in F2; lia|]. intros q sh' Hq. rewrite C3 in Hq. apply lookup_delete_Some in Hq. right. exists q, sh'. split; [apply Hq|lia].
    + intros q Hq. rewrite C3. apply lookup_delete_ne. congruence.
  - exists rt1. split; [reflexivity|]. split; [split|split; [reflexivity|split; [|split]]].
    + rewrite C1. apply (core_update ext _ O p (strip s)); [exact HC|exact Hc|apply shape_ok_ref; [apply (co_shape _ _ _ HC p), Hc|intros Hh; pose proof (so_private _ (co_shape _ _ _ HC p _ Hc) Hh); cbn in *; lia]|reflexivity|cbn; unfold n; lia|lia|cbn; lia].
    + exact T1.
    + rewrite C1. apply (views_insert _ _ p (strip s)); [exact Hc|reflexivity|reflexivity].
    + apply (steps_insert rt rt1 p (strip s) (set_ref (strip s) n)); [reflexivity|cbn; lia|exact C1|exact Hc|cbn; lia].
    + intros q Hq. rewrite C1. apply lookup_insert_ne. congruence.
Qed.

(** ** New shapes *)

Lemma empty_shape_ok pr k hs size :
  0 <= k <= 29 -> hs = 2 ^ k -> JS_PROP_INITIAL_SIZE <= size <= 2 ^ 27 ->
  shape_ok (MkShape 1 false 0 (hs - 1) size 0 0 None pr (raw_entry <$> seq 0 (Z.to_nat size)) (replicate (Z.to_nat hs) 0)).
Proof.
  intros Hk -> Hs. unfold JS_PROP_INITIAL_SIZE in Hs. split; unfold num; cbn [prop_count prop_size sh_prop prop_hash_mask prop_hash deleted_prop_count sh_hash is_hashed proto]; change (Z.to_nat 0) with 0%nat; try lia.
  - exact Hs.
  - unfold len. rewrite length_fmap, length_seq. lia.
  - assert (2 ^ k <= 2 ^ 29) by (apply Z.pow_le_mono_r; lia). lia.
  - apply (table_empty k); [lia|reflexivity].
  - intros i j e e' Hi. lia.
  - reflexivity.
  - reflexivity.
Qed.

(** What the creation of the shape [p] leaves. *)
Definition made (G : Prop) (ext : sptr -> Z) (rt : JSShapes) O (d : Z) (P : JSShape -> Prop) (q : JSShapes * option sptr) : Prop :=
  objects (fst q) = objects rt /\ views_kept (core rt) (core (fst q)) O /\ steps d rt (fst q) /\
  match snd q with
  | None => ~ G /\ inv ext (fst q) O
  | Some p => inv (upd ext p 1) (fst q) O /\ exists s, shapes (fst q) !! p = Some s /\ ref_count s = 1 /\ P s
  end.

(** A shape at a new address that is not in the table. *)
Lemma insert_new ext rt O s rt' :
  inv ext rt O -> shape_ok s -> ref_count s = 1 -> is_hashed s = false -> let p := new_sptr rt in
  shapes rt' = <[p := s]> (shapes rt) -> table_fields rt rt' -> (prop_count s <= 0 \/ exists q sh, core rt !! q = Some sh /\ prop_count s <= prop_count sh) ->
  inv (upd ext p 1) rt' O /\ views_kept (core rt) (core rt') O /\ steps 0 rt rt' /\ shapes rt' !! p = Some s.
Proof.
  intros [HC HT] Hok Hr Hh p Es Tf Hcnt. pose proof (new_sptr_fresh rt) as Hf. fold p in Hf. assert (EC : core rt' = <[p := strip s]> (core rt)) by (unfold core; rewrite Es, fmap_insert; reflexivity).
  assert (Hnp : p ∉ hashed (core rt)) by (intros Hp; apply elem_of_hashed in Hp; destruct Hp as (sh & Hs & _); congruence).
  split; [split|split; [|split]].
  - rewrite EC. apply core_new; [exact HC|exact Hf|apply (proj1 (shape_ok_strip s)), Hok|exact Hr].
  - rewrite EC, hashed_insert. cbn. rewrite Hh. replace (hashed (core rt) ∖ {[p]}) with (hashed (core rt)) by set_solver.
    apply (hash_ok_fields (put_shape rt p s)); [exact Es|exact Tf|]. apply hash_ok_put; [exact HT|]. intros Hp. contradiction.
  - apply (views_away _ _ _ ext HC). intros q Hq. rewrite EC. apply lookup_insert_ne. intros <-. apply Hq. unfold holders. apply map_size_empty_iff, map_empty. intros o. apply map_lookup_filter_None.
    right. intros ob Ho E. cbn in E. destruct (co_obj _ _ _ HC o ob Ho) as (sh & Hs & _). congruence.
  - destruct Tf as (F1 & _ & F3 & _). apply steps_of; [lia|exact F1|lia|]. intros q sh Hq. rewrite EC in Hq. apply lookup_insert_Some in Hq.
    destruct Hq as [[_ <-]|[_ Hq]]; [cbn; destruct Hcnt as [Hc|(q' & sh & Hq' & Hc)]; [left; lia|right; exists q', sh; split; [exact Hq'|lia]]|right; exists q, sh; split; [exact Hq|lia]].
  - rewrite Es. apply lookup_insert_eq.
Qed.

Section Alloc.
Context (G : Prop) (E : exn -> Prop).

Lemma new_nohash_spec ext rt O pr k hs size :
  inv ext rt O -> 0 <= k <= 29 -> hs = 2 ^ k -> JS_PROP_INITIAL_SIZE <= size <= 2 ^ 27 ->
  gspec G (js_new_shape_nohash rt pr hs size)
    (fun q => made G ext rt O 0 (fun s => proto s = pr /\ prop_count s = 0 /\ is_hashed s = false /\ shape_ok s) q /\ table_fields rt (fst q) /\
              forall p, snd q = Some p -> core rt !! p = None) E.
Proof.
  intros Hi Hk Eh Hs. unfold js_new_shape_nohash. eapply gspec_bind; [apply gspec_try_alloc|]. intros ok Hok. destruct ok; cbn [negb]; apply gspec_ret.
  - set (s := MkShape _ _ _ _ _ _ _ _ _ _ _). pose proof (empty_shape_ok pr k hs size Hk Eh Hs) as Hso. fold s in Hso.
    destruct (insert_new ext rt O s (emit (put_shape rt (new_sptr rt) s) (opt_event DupProto pr)) Hi Hso eq_refl eq_refl) as (K1 & K2 & K3 & K4); [reflexivity|repeat split|left; cbn; lia|].
    split; [|split; [repeat split|intros p [= <-]; apply new_sptr_fresh]]. split; [reflexivity|]. split; [exact K2|]. split; [exact K3|]. cbn [snd fst]. split; [exact K1|]. exists s. auto 7.
  - split; [|split; [repeat split|discriminate]]. split; [reflexivity|]. split; [intros o ob Ho; reflexivity|]. split; [apply steps_refl|]. split; [apply Hok; reflexivity|exact Hi].
Qed.

Lemma clone_spec ext rt O p s :
  inv ext rt O -> shapes rt !! p = Some s ->
  gspec G (js_clone_shape rt p)
    (fun q => made G ext rt O 0 (fun s' => s' = set_hashed (set_ref s 1) false (sh_hash s)) q /\ table_fields rt (fst q) /\
              (forall r, snd q = Some r -> core rt !! r = None /\ shapes (fst q) !! p = Some s) /\ (snd q = None -> fst q = rt)) E.
Proof.
  intros Hi Hs. unfold js_clone_shape. rewrite (shape_at_spec rt p s Hs), ret_bind. eapply gspec_bind; [apply gspec_try_alloc|]. intros ok Hok. destruct ok; cbn [negb].
  - pose proof Hi as [HC _]. pose proof (co_shape _ _ _ HC p _ (lookup_core rt p s Hs)) as Hso. pose proof (so_count _ Hso) as H1. pose proof (so_len _ Hso) as H2. cbn in H1, H2.
    unfold tab_slice. rewrite !(proj2 (Z.leb_le _ _)) by lia. cbn [andb]. rewrite ret_bind. apply gspec_ret. set (s' := set_hashed (set_ref s 1) false (sh_hash s)). set (rt' := emit _ _).
    destruct (insert_new ext rt O s' rt' Hi) as (K1 & K2 & K3 & K4);
      [apply (shape_ok_unhashed (set_ref s 1)); [apply shape_ok_ref; [apply (proj2 (shape_ok_strip s)), Hso|reflexivity]|reflexivity]|reflexivity|reflexivity|reflexivity|repeat split|right; exists p, (strip s); split; [apply lookup_core, Hs|cbn; lia]|].
    split; [|split; [repeat split|split; [intros r [= <-]; split; [apply new_sptr_fresh|]|discriminate]]].
    + split; [reflexivity|]. split; [exact K2|]. split; [exact K3|]. split; [exact K1|]. exists s'. auto.
    + cbn. rewrite lookup_insert_ne; [exact Hs|]. intros Ep. pose proof (new_sptr_fresh rt) as Hf. rewrite Ep, (lookup_core rt p s Hs) in Hf. discriminate.
  - apply gspec_ret. split; [|split; [repeat split|split; [discriminate|reflexivity]]]. split; [reflexivity|]. split; [intros o ob Ho; reflexivity|]. split; [apply steps_refl|]. split; [apply Hok; reflexivity|exact Hi].
Qed.

(** A shape that is put into the table with the hash [h]. *)
Lemma link_shape_spec ext rt O p s h :
  inv ext rt O -> shapes rt !! p = Some s -> is_hashed s = false -> shape_ok (set_hashed s true h) ->
  exists rt', js_shape_hash_link (put_shape rt p (set_hashed s true h)) p = mret rt' /\ inv ext rt' O /\ objects rt' = objects rt /\
    core rt' = <[p := strip (set_hashed s true h)]> (core rt) /\ views_kept (core rt) (core rt') O /\ steps 1 rt rt'.
Proof.
  intros [HC HT] Hs Hh Hok. set (rt1 := put_shape rt p (set_hashed s true h)). pose proof (lookup_core rt p s Hs) as Hc.
  assert (Hnp : p ∉ hashed (core rt)) by (apply not_hashed; intros s0 Hs0; congruence).
  assert (T1 : hash_ok rt1 (hashed (core rt))) by (apply hash_ok_put; [exact HT|intros Hp; contradiction]).
  destruct (hash_link_spec rt1 p (set_hashed s true h) (hashed (core rt)) T1) as (rt' & E1 & T2 & (R1 & R2 & R3) & F1 & F2); [apply lookup_insert_eq|apply (so_hash _ Hok)|exact Hnp|].
  assert (EC : core rt' = <[p := strip (set_hashed s true h)]> (core rt)) by (rewrite R1; apply core_put). exists rt'. split; [exact E1|]. split; [split|split; [exact R2|split; [exact EC|split]]].
  - rewrite EC. apply (core_ok_ext (upd ext p 0)); [intros q; unfold upd; case_bool_decide; lia|]. destruct (co_refs _ _ _ HC p _ Hc) as [_ Hr].
    apply (core_update ext _ O p (strip s)); [exact HC|exact Hc|apply (proj1 (shape_ok_strip _)), Hok|reflexivity|cbn; lia|pose proof (co_pos _ _ _ HC p); lia|exact Hr].
  - rewrite EC, hashed_insert. exact T2.
  - rewrite EC. apply (views_insert _ _ p (strip s)); [exact Hc|reflexivity|reflexivity].
  - apply steps_of; [lia|rewrite F1; reflexivity|rewrite F2; cbn; lia|]. intros q sh Hq. right. rewrite EC in Hq. apply lookup_insert_Some in Hq.
    destruct Hq as [[<- <-]|[_ Hq]]; [exists p, (strip s); split; [exact Hc|cbn; lia]|exists q, sh; split; [exact Hq|lia]].
Qed.

End Alloc.
End Refs.
