(* ===== verification/ShapeAdd.v ===== *)
(** Growing the property array of a shape that is about to change.

    Adding a property to a shape. *)
From Stdlib Require Import ZArith Lia.
From S2P Require Import Prelude Shapes ShapeTables ShapeChains ShapeRefs.
From stdpp Require Import base tactics numbers list gmap fin_sets.

Open Scope Z_scope.

Notation key e := (sp_atom e, sp_flags e).

(** The same atoms and flags in the first [n] entries. *)
Definition same_keys (n : nat) (ps ps' : list JSShapeProperty) : Prop :=
  forall i, (i < n)%nat -> (fun e => key e) <$> ps !! i = (fun e => key e) <$> ps' !! i.

Lemma same_keys_atoms n ps ps' i : same_keys n ps ps' -> (i < n)%nat -> sp_atom <$> ps !! i = sp_atom <$> ps' !! i.
Proof. intros H Hi. specialize (H i Hi). destruct (ps !! i), (ps' !! i); try discriminate; [cbn in *; congruence|reflexivity]. Qed.

Lemma same_keys_lookup n ps ps' i e : same_keys n ps ps' -> (i < n)%nat -> ps' !! i = Some e -> exists e', ps !! i = Some e' /\ sp_atom e' = sp_atom e /\ sp_flags e' = sp_flags e.
Proof. intros H Hi He. specialize (H i Hi). rewrite He in H. destruct (ps !! i) as [e'|]; [|discriminate]. cbn in H. injection H as H1 H2. eauto. Qed.

Lemma same_keys_rows {V} n ps ps' (vs : list V) : same_keys n ps ps' -> rows n ps' vs = rows n ps vs.
Proof.
  intros H. apply rows_ext. intros i Hi. specialize (H i Hi). unfold row_at, row_of, live. destruct (ps !! i) as [e|], (ps' !! i) as [e'|]; try discriminate; [|reflexivity].
  cbn in H. injection H as H1 H2. rewrite H1, H2. reflexivity.
Qed.

(** One more entry. *)
Lemma rows_push {V} n ps ps' (vs vs' : list V) atom flags v :
  same_keys n ps ps' -> (forall i, (i < n)%nat -> vs' !! i = vs !! i) -> (fun e => key e) <$> ps' !! n = Some (atom, flags) -> vs' !! n = Some v -> atom <> 0 ->
  rows (S n) ps' vs' = rows n ps vs ++ [(atom, flags, v)].
Proof.
  intros K Hvs Ee Hv Ha. cbn [rows]. f_equal.
  - rewrite (same_keys_rows _ _ _ _ K). apply rows_ext. intros i Hi. unfold row_at. rewrite Hvs by exact Hi. reflexivity.
  - unfold row_at, row_of, live. rewrite Hv. destruct (ps' !! n) as [e|]; [|discriminate]. cbn in Ee. injection Ee as E1 E2. rewrite E1, E2, (proj2 (Z.eqb_neq atom 0)) by exact Ha. reflexivity.
Qed.

Section Grow.
Context `{OC : ObjectConfig}.
Implicit Types (rt : JSShapes) (O : gmap optr JSObject).

Lemma regrown_ok s mask size ps ht :
  shape_ok s -> JS_PROP_INITIAL_SIZE <= size <= 2 ^ 27 -> prop_count s <= size -> len ps = size -> mask < 2 ^ 30 -> table_ok mask (num s) ps ht -> same_keys (num s) (sh_prop s) ps ->
  shape_ok (set_layout s mask size (prop_count s) (deleted_prop_count s) ps ht).
Proof.
  intros Hok Hs Hc Hl Hm T K. pose proof (so_count _ Hok). split; unfold num in *; cbn [prop_count prop_size sh_prop prop_hash_mask prop_hash deleted_prop_count sh_hash is_hashed proto set_layout]; try assumption; try apply Hok; try lia.
  - intros i e Hi He. destruct (same_keys_lookup _ _ _ _ _ K Hi He) as (e' & He' & E1 & E2). unfold entry_ok. rewrite <- E1, <- E2. apply (so_entries _ Hok i e' Hi He').
  - intros i j e e' Hi Hj He He' Hl' Ea. destruct (same_keys_lookup _ _ _ _ _ K Hi He) as (e1 & H1 & A1 & _). destruct (same_keys_lookup _ _ _ _ _ K Hj He') as (e2 & H2 & A2 & _).
    apply (so_distinct _ Hok i j e1 e2); try assumption; [unfold live in *; rewrite A1; exact Hl'|congruence].
  - rewrite (so_deleted _ Hok). do 2 f_equal. apply lives_ext. intros i Hi. apply (same_keys_atoms _ _ _ _ K Hi).
  - intros Hh. destruct (so_hashed _ Hok Hh) as [D1 D2]. split; [exact D1|]. rewrite D2. apply hash_props_ext. exact K.
Qed.

Lemma hash_size_up_spec size fuel : forall k, 0 <= k <= 30 -> size <= 2 ^ 27 -> 28 - k < Z.of_nat fuel -> (0 < fuel)%nat ->
  exists k', hash_size_up fuel (2 ^ k) size = mret (2 ^ k') /\ k <= k' <= 30 /\ (k' = k \/ k' <= 27) /\ size <= 2 ^ k'.
Proof.
  induction fuel as [|fuel IH]; intros k Hk Hs Hf Hf0; [lia|]. cbn [hash_size_up]. destruct (Z.ltb_spec (2 ^ k) size) as [Hlt|Hge]; [|exists k; auto with lia].
  assert (k < 27) by (apply (Z.pow_lt_mono_r_iff 2); lia). assert (E : 2 * 2 ^ k = 2 ^ (k + 1)) by (rewrite Z.pow_add_r by lia; lia).
  assert (2 ^ (k + 1) <= 2 ^ 27) by (apply Z.pow_le_mono_r; lia). rewrite E, wrap_small by lia.
  destruct (IH (k + 1)) as (k' & -> & H1 & H2 & H3); [lia|lia|lia|lia|]. exists k'. split; [reflexivity|]. split; [lia|]. split; [right; lia|exact H3].
Qed.

(** The shape [p], which is not in the table, with room for one more property. *)
Definition loose (ext : sptr -> Z) rt O p : Prop := core_ok ext (core rt) O /\ hash_ok rt (hashed (core rt) ∖ {[p]}).

(** The values of an object that keep the first ones. *)
Definition extended (n : Z) (vs vs' : list JSProperty) : Prop := n <= len vs' /\ forall i, Z.of_nat i < n -> (i < length vs)%nat -> vs' !! i = vs !! i.

Definition regrown (s s' : JSShape) : Prop :=
  shape_ok s' /\ ref_count s' = ref_count s /\ is_hashed s' = is_hashed s /\ sh_hash s' = sh_hash s /\ proto s' = proto s /\
  prop_count s' = prop_count s /\ prop_count s < prop_size s' /\ same_keys (num s) (sh_prop s) (sh_prop s').

Lemma realloc_extended vs n m : 0 <= n -> m <= n -> extended m vs (realloc_props vs n) /\ len (realloc_props vs n) = n.
Proof.
  intros Hn Hm. unfold realloc_props. assert (len (take (Z.to_nat n) vs ++ (raw_property <$> seq (length vs) (Z.to_nat n - length vs))) = n) as Hl by (unfold len; rewrite length_app, length_take, length_fmap, length_seq; lia).
  split; [|exact Hl]. split; [lia|]. intros i Hi Hv. rewrite lookup_app_l by (rewrite length_take; lia). apply lookup_take_lt. lia.
Qed.

(** What [resize_properties] leaves: the values of the object may have moved even if
    it fails. *)
Definition resized_props (G : Prop) ext rt O p s (o : option optr) (q : JSShapes * option sptr) : Prop :=
  shape_hash_bits (fst q) = shape_hash_bits rt /\ shape_hash_count (fst q) = shape_hash_count rt /\
  (forall o', Some o' <> o -> objects (fst q) !! o' = objects rt !! o') /\
  match snd q with
  | None => ~ G /\ shapes (fst q) = shapes rt /\ loose ext (fst q) O p /\
      (forall o' ob, o = Some o' -> objects rt !! o' = Some ob -> exists vs, objects (fst q) !! o' = Some (MkObj (shape ob) vs) /\ (prop_size s <= len (prop ob) -> extended (prop_size s) (prop ob) vs))
  | Some r => exists s', shapes (fst q) = <[r := s']> (delete p (shapes rt)) /\ core rt !! r = None /\ regrown s s' /\ loose (upd (upd ext p (-1)) r 1) (fst q) O r /\
      (forall o' ob, o = Some o' -> objects rt !! o' = Some ob -> exists vs, objects (fst q) !! o' = Some (MkObj (shape ob) vs) /\ (prop_size s <= len (prop ob) -> extended (prop_size s') (prop ob) vs))
  end.

Lemma regrow_table s new_size k k' :
  shape_ok s -> prop_hash_mask s = 2 ^ k - 1 -> 0 <= k <= k' -> k' <= 30 -> (k' = k \/ k' <= 27) -> prop_count s <= new_size ->
  let ps := take (num s) (sh_prop s) ++ (raw_entry <$> seq 0 (Z.to_nat new_size - length (take (num s) (sh_prop s)))) in
  exists ps' ht, (if negb (2 ^ k' =? prop_hash_mask s + 1) then rehash_props (Z.to_nat (prop_count s)) ps (replicate (Z.to_nat (2 ^ k')) 0) (2 ^ k' - 1) 0 else mret (ps, prop_hash s)) = mret (ps', ht) /\
    table_ok (2 ^ k' - 1) (num s) ps' ht /\ len ps' = new_size /\ same_keys (num s) (sh_prop s) ps'.
Proof.
  intros Hs Em Hk Hk' Hkk Hn ps. pose proof (so_count _ Hs). pose proof (so_small _ Hs). pose proof (num_len s Hs) as Hnl.
  assert (Lt : length (take (num s) (sh_prop s)) = num s) by (rewrite length_take; lia). assert (Ln : Z.of_nat (num s) = prop_count s) by (unfold num; lia).
  assert (Lp : len ps = new_size) by (unfold ps, len; rewrite length_app, Lt, length_fmap, length_seq; lia).
  assert (Lk : forall i, (i < num s)%nat -> ps !! i = sh_prop s !! i) by (intros i Hi; unfold ps; rewrite lookup_app_l by lia; apply lookup_take_lt; lia).
  assert (K : same_keys (num s) (sh_prop s) ps) by (intros i Hi; rewrite Lk by exact Hi; reflexivity).
  rewrite Em. replace (2 ^ k - 1 + 1) with (2 ^ k) by lia. destruct (Z.eqb_spec (2 ^ k') (2 ^ k)) as [E|Hne]; cbn [negb].
  - exists ps, (prop_hash s). split; [reflexivity|]. split; [|split; [exact Lp|exact K]]. rewrite E, <- Em. apply (table_ext _ _ (sh_prop s)); [apply (so_table _ Hs)|]. intros i Hi. symmetry. apply Lk, Hi.
  - fold (num s). destruct (rehash_props_spec (2 ^ k' - 1) (num s) ps (replicate (Z.to_nat (2 ^ k')) 0) 0) as (ps' & ht & E1 & T & R);
      [apply (table_empty k'); [lia|reflexivity]|unfold len in Lp; lia|lia|intros i e Hi He; rewrite Lk in He by exact Hi; apply (so_entries _ Hs i e Hi He)|].
    exists ps', ht. split; [exact E1|]. split; [exact T|]. destruct R as [R1 R2]. split; [unfold len in *; lia|]. intros i Hi. rewrite (K i Hi). apply R2.
Qed.

Lemma resize_properties_spec (G : Prop) E ext rt O p s o :
  loose ext rt O p -> shapes rt !! p = Some s -> ref_count s = 1 -> 1 <= ext p -> prop_count s = prop_size s -> prop_count s + 1 < 2 ^ 26 ->
  (forall o', o = Some o' -> is_Some (objects rt !! o')) ->
  gspec G (resize_properties rt p o (prop_count s + 1)) (resized_props G ext rt O p s o) E.
Proof.
  intros [HC HT] Hs Hr He Hfull Hc Ho. pose proof (lookup_core rt p s Hs) as Hcs. pose proof (proj2 (shape_ok_strip s) (co_shape _ _ _ HC p _ Hcs)) as Hok.
  pose proof (so_size _ Hok) as Hsz. unfold JS_PROP_INITIAL_SIZE in Hsz. unfold resize_properties. rewrite (shape_at_spec rt p s Hs), ret_bind.
  unfold int_of. rewrite (proj2 (Z.leb_le _ _)), (proj2 (Z.ltb_lt _ _)) by lia. cbn [andb]. rewrite ret_bind.
  set (new_size := Z.max (prop_count s + 1) (prop_size s * 3 / 2)). pose proof (Z.div_mod (prop_size s * 3) 2 ltac:(lia)). pose proof (Z.mod_pos_bound (prop_size s * 3) 2 ltac:(lia)).
  assert (Hns : prop_count s + 1 <= new_size <= 2 ^ 27) by (unfold new_size; lia).
  eapply gspec_bind with (R := fun q => shapes (fst q) = shapes rt /\ table_fields rt (fst q) /\ (forall o', Some o' <> o -> objects (fst q) !! o' = objects rt !! o') /\ (snd q = false -> ~ G) /\
    (forall o' ob, o = Some o' -> objects rt !! o' = Some ob -> exists vs, objects (fst q) !! o' = Some (MkObj (shape ob) vs) /\ (prop_size s <= len (prop ob) -> extended (if snd q then new_size else prop_size s) (prop ob) vs))).
  { destruct o as [o|]; [|apply gspec_ret; cbn; repeat split; auto; discriminate]. destruct (Ho o eq_refl) as [ob Hob]. unfold object_at. rewrite Hob, ret_bind.
    eapply gspec_bind; [apply gspec_try_alloc|]. intros ok Hgr. destruct ok; cbn [negb]; apply gspec_ret; cbn [fst snd].
    - split; [reflexivity|]. split; [repeat split|]. split; [intros o' Hne; apply lookup_insert_ne; congruence|]. split; [discriminate|]. intros o' ob' [= <-] Hob'. rewrite Hob in Hob'. injection Hob' as <-.
      eexists. split; [apply lookup_insert_eq|]. intros _. apply realloc_extended; lia.
    - split; [reflexivity|]. split; [repeat split|]. split; [auto|]. split; [auto|]. intros o' ob' [= <-] Hob'. rewrite Hob in Hob'. injection Hob' as <-. exists (prop ob). split; [destruct ob; exact Hob|]. intros Hl. split; [exact Hl|auto]. }
  intros [rt1 ok] (S1 & Tf & S2 & S3 & S4). cbn [fst snd] in *. pose proof Tf as (F1 & F2 & F3 & F4).
  assert (C1 : core rt1 = core rt) by (unfold core; rewrite S1; reflexivity).
  assert (L1 : loose ext rt1 O p) by (split; rewrite C1; [exact HC|apply (hash_ok_fields rt); assumption]).
  destruct ok; cbn [negb].
  2:{ apply gspec_ret. split; [exact F1|]. split; [exact F3|]. split; [exact S2|]. cbn [snd fst]. split; [apply S3; reflexivity|]. split; [exact S1|]. split; [exact L1|exact S4]. }
  destruct (to_mask _ _ _ _ (so_table _ Hok)) as (k & Hk & Em). pose proof (so_mask _ Hok) as Hm. assert (k <= 30) by (apply (Z.pow_le_mono_r_iff 2); lia).
  rewrite Em. replace (2 ^ k - 1 + 1) with (2 ^ k) by lia. destruct (hash_size_up_spec new_size 33 k ltac:(lia) ltac:(lia) ltac:(lia) ltac:(lia)) as (k' & -> & K1 & K2 & K3). rewrite ret_bind.
  eapply gspec_bind; [apply gspec_try_alloc|]. intros ok2 Hgr. destruct ok2; cbn [negb].
  2:{ apply gspec_ret. split; [exact F1|]. split; [exact F3|]. split; [exact S2|]. cbn [snd fst]. split; [apply Hgr; reflexivity|]. split; [exact S1|]. split; [exact L1|].
      intros o' ob Eo Hob. destruct (S4 o' ob Eo Hob) as (vs & V1 & V2). exists vs. split; [exact V1|]. intros Hl. destruct (V2 Hl) as [V3 V4]. split; [lia|]. intros i Hi. apply V4. lia. }
  pose proof (so_len _ Hok) as Hlen. pose proof (so_count _ Hok) as Hcnt. unfold tab_slice. rewrite !(proj2 (Z.leb_le _ _)) by lia. cbn [andb]. rewrite ret_bind. change (Z.to_nat 0) with 0%nat. rewrite drop_0. fold (num s).
  destruct (regrow_table s new_size k k' Hok Em ltac:(lia) ltac:(lia) K2 ltac:(lia)) as (ps' & ht & E2 & T & Lp & Ky). replace (2 ^ k) with (prop_hash_mask s + 1) by lia. fold (num s) in E2. rewrite E2, ret_bind.
  apply gspec_ret. set (s' := set_layout s (2 ^ k' - 1) new_size (prop_count s) (deleted_prop_count s) ps' ht). set (r := new_sptr rt1).
  assert (Hr0 : core rt !! r = None) by (rewrite <- C1; apply new_sptr_fresh).
  assert (2 ^ k' <= 2 ^ 30) by (apply Z.pow_le_mono_r; lia).
  assert (Hok' : shape_ok s') by (apply regrown_ok; try assumption; [unfold JS_PROP_INITIAL_SIZE; lia|lia|lia]).
  split; [exact F1|]. split; [exact F3|]. split; [exact S2|]. cbn [snd fst]. exists s'. split; [cbn; rewrite S1; reflexivity|]. split; [exact Hr0|]. split; [unfold regrown; cbn; auto 10 with lia|]. split; [|exact S4].
  split.
  - unfold core. cbn. rewrite fmap_insert, fmap_delete. fold (core rt1). rewrite C1. apply (core_move ext _ _ p r (strip s)); try assumption. apply (proj1 (shape_ok_strip s')), Hok'.
  - set (rt2 := with_shapes rt1 (<[r := s']> (delete p (shapes rt1)))). assert (core rt2 = <[r := strip s']> (delete p (core rt))) as -> by (unfold core, rt2; cbn; rewrite fmap_insert, fmap_delete, S1; reflexivity).
    rewrite hashed_insert, hashed_delete. assert (r ∉ hashed (core rt)) by (intros Hp; apply elem_of_hashed in Hp; destruct Hp as (sh & Hh & _); congruence).
    replace ((if is_hashed (strip s') then {[r]} ∪ hashed (core rt) ∖ {[p]} else (hashed (core rt) ∖ {[p]}) ∖ {[r]}) ∖ {[r]}) with (hashed (core rt) ∖ {[p]}) by (destruct (is_hashed (strip s')); set_solver).
    apply hash_ok_shapes; [destruct L1 as [_ L1]; rewrite C1 in L1; exact L1|]. intros q sq Hq Hsq. exists sq. rewrite lookup_insert_ne, lookup_delete_ne; [auto|set_solver|]. intros <-.
    apply elem_of_difference in Hq. destruct Hq as [Hq _]. contradiction.
Qed.

End Grow.

Section Add.
Context `{OC : ObjectConfig}.
Implicit Types (rt : JSShapes) (O : gmap optr JSObject).

(** An atom that is not the one of a property. *)
Definition fresh_atom (s : JSShape) (atom : Z) : Prop := 0 < atom < 2 ^ 32 /\ forall i e, (i < num s)%nat -> sh_prop s !! i = Some e -> sp_atom e <> atom.

Definition extra (s : JSShape) (atom flags : Z) (h : Z) : JSShape :=
  let b := Z.land atom (prop_hash_mask s) in
  set_props (set_hashed s (is_hashed s) h) (prop_count s + 1) (deleted_prop_count s)
    (<[num s := MkSP (head_of (sh_prop s) (prop_hash_mask s) b (num s)) flags atom]> (sh_prop s)) (<[Z.to_nat b := prop_count s + 1]> (prop_hash s)).

Lemma extra_num s atom flags h : shape_ok s -> num (extra s atom flags h) = S (num s).
Proof. intros Hok. pose proof (so_count _ Hok). unfold num. cbn. lia. Qed.

Lemma extra_entry s atom flags h : shape_ok s -> prop_count s < prop_size s ->
  (fun e => key e) <$> sh_prop (extra s atom flags h) !! num s = Some (atom, flags) /\ same_keys (num s) (sh_prop s) (sh_prop (extra s atom flags h)).
Proof.
  intros Hok Hs. pose proof (so_count _ Hok). pose proof (so_len _ Hok). cbn. split.
  - rewrite list_lookup_insert_eq by (unfold num, len in *; lia). reflexivity.
  - intros i Hi. rewrite list_lookup_insert_ne by lia. reflexivity.
Qed.

Lemma extra_ok s atom flags h :
  shape_ok s -> prop_count s < prop_size s -> prop_count s + 1 < 2 ^ 26 -> fresh_atom s atom -> 0 <= flags < 64 -> 0 <= h < 2 ^ 32 ->
  (is_hashed s = true -> h = shape_hash (shape_hash (sh_hash s) atom) flags) -> shape_ok (extra s atom flags h).
Proof.
  intros Hok Hs Hc [Ha Hfr] Hf Hh Hhash. pose proof (so_count _ Hok) as H1. pose proof (so_len _ Hok) as Hlen. pose proof (extra_num s atom flags h Hok) as En.
  assert (Hn : (num s < length (sh_prop s))%nat) by (unfold num, len in *; lia). destruct (extra_entry s atom flags h Hok Hs) as [Ee Ek].
  set (ps := sh_prop (extra s atom flags h)) in *. assert (exists e, ps !! num s = Some e /\ sp_atom e = atom /\ sp_flags e = flags) as (e & He & Ea & Ef).
  { destruct (ps !! num s) as [e|]; [|discriminate]. cbn in Ee. injection Ee as <- <-. eauto. }
  assert (Hl : live e = true) by (unfold live; rewrite Ea, (proj2 (Z.eqb_neq atom 0)) by lia; reflexivity).
  assert (Lv : lives (S (num s)) ps = S (lives (num s) (sh_prop s))).
  { cbn [lives]. rewrite He, Hl, Nat.add_1_r. f_equal. apply lives_ext. intros i Hi. symmetry. apply (same_keys_atoms _ _ _ _ Ek Hi). }
  assert (Hold : forall i e', (i < num s)%nat -> ps !! i = Some e' -> exists e0, sh_prop s !! i = Some e0 /\ sp_atom e0 = sp_atom e' /\ sp_flags e0 = sp_flags e').
  { intros i e' Hi He'. exact (same_keys_lookup _ _ _ _ _ Ek Hi He'). }
  split; rewrite ?En; fold ps; try apply Hok; try (cbn; lia).
  - cbn. unfold len in *. rewrite length_insert. exact Hlen.
  - cbn [prop_hash_mask prop_hash extra set_props set_hashed]. replace (prop_count s + 1) with (Z.of_nat (num s) + 1) by (unfold num; lia). apply (table_link _ _ _ _ _ atom (so_table _ Hok) Hn). lia.
  - intros i e' Hi He'. destruct (decide (i = num s)) as [->|]; [rewrite He in He'; injection He' as <-; unfold entry_ok; lia|].
    destruct (Hold i e' ltac:(lia) He') as (e0 & H0 & E1 & E2). unfold entry_ok. rewrite <- E1, <- E2. apply (so_entries _ Hok i e0); [lia|exact H0].
  - intros i j e1 e2 Hi Hj H2 H3 Hl1 E12. destruct (decide (i = num s)) as [->|Hi'], (decide (j = num s)) as [->|Hj']; [reflexivity| | |].
    + rewrite He in H2. injection H2 as <-. destruct (Hold j e2 ltac:(lia) H3) as (e0 & H0 & E1 & _). destruct (Hfr j e0 ltac:(lia) H0). congruence.
    + rewrite He in H3. injection H3 as <-. destruct (Hold i e1 ltac:(lia) H2) as (e0 & H0 & E1 & _). destruct (Hfr i e0 ltac:(lia) H0). congruence.
    + destruct (Hold i e1 ltac:(lia) H2) as (a & A1 & A2 & _). destruct (Hold j e2 ltac:(lia) H3) as (b & B1 & B2 & _).
      apply (so_distinct _ Hok i j a b); try lia; try assumption; try congruence; unfold live in *; rewrite A2; exact Hl1.
  - rewrite Lv. cbn [deleted_prop_count prop_count extra set_props]. rewrite (so_deleted _ Hok). lia.
  - cbn [is_hashed extra set_props set_hashed sh_hash deleted_prop_count proto]. intros Hs'. destruct (so_hashed _ Hok Hs') as [D1 D2]. split; [exact D1|].
    rewrite (Hhash Hs'), D2. cbn [hash_props]. rewrite He, Ea, Ef. do 2 f_equal. apply hash_props_ext. exact Ek.
Qed.

(** The rows of an object whose shape got one more property. *)
Lemma extra_rows s atom flags h (vs vs' : list JSProperty) :
  shape_ok s -> prop_count s < prop_size s -> fresh_atom s atom -> prop_size s <= len vs' -> prop_count s <= len vs -> (forall i, (i < num s)%nat -> vs' !! i = vs !! i) ->
  exists v, vs' !! num s = Some v /\ rows (num (extra s atom flags h)) (sh_prop (extra s atom flags h)) vs' = rows (num s) (sh_prop s) vs ++ [(atom, flags, v)].
Proof.
  intros Hok Hs [Ha _] Hl Hl' Hvs. pose proof (so_count _ Hok). rewrite (extra_num _ _ _ _ Hok). destruct (extra_entry s atom flags h Hok Hs) as [Ee Ek]. set (ps := sh_prop (extra s atom flags h)) in *.
  destruct (lookup_lt_is_Some_2 vs' (num s)) as [v Hv]; [unfold num, len in *; lia|]. exists v. split; [exact Hv|]. apply rows_push; [exact Ek|exact Hvs|exact Ee|exact Hv|lia].
Qed.

Lemma shape_hash_range h v : 0 <= shape_hash h v < 2 ^ 32.
Proof. apply wrap_range. lia. Qed.

(** ** add_shape_property *)

(** Taking the shape out of the table. *)
Lemma unlink_loose ext rt O p s :
  inv ext rt O -> shapes rt !! p = Some s ->
  exists rt', (if is_hashed s then js_shape_hash_unlink rt p else mret rt) = mret rt' /\ loose ext rt' O p /\ core rt' = core rt /\ objects rt' = objects rt /\
    shape_hash_bits rt' = shape_hash_bits rt /\ shape_hash_count rt' = shape_hash_count rt - c_bool (is_hashed s).
Proof.
  intros [HC HT] Hs. destruct (is_hashed s) eqn:E.
  - destruct (unlink_spec rt p _ HT (is_hashed_in rt p s Hs E)) as (rt' & K1 & K2 & (R1 & R2 & R3) & K4 & K5). exists rt'. split; [exact K1|]. split; [split; rewrite R1; assumption|]. auto.
  - exists rt. split; [reflexivity|]. assert (p ∉ hashed (core rt)) by (apply not_hashed; intros s0 Hs0; congruence).
    split; [split; [exact HC|replace (hashed (core rt) ∖ {[p]}) with (hashed (core rt)) by set_solver; exact HT]|]. cbn. auto with lia.
Qed.

(** The shape [q] with one more property, back in the table if it was there. *)
Lemma push_spec ext rt O q s atom flags new_hash :
  loose ext rt O q -> shapes rt !! q = Some s -> ref_count s = 1 -> 1 <= ext q -> prop_count s < prop_size s -> prop_count s + 1 < 2 ^ 26 -> fresh_atom s atom -> 0 <= flags < 64 ->
  new_hash = shape_hash (shape_hash (sh_hash s) atom) flags ->
  exists rt' h, (rt ← (if is_hashed s then js_shape_hash_link (put_shape rt q (set_hashed s true new_hash)) q else mret rt);
             sh ← shape_at rt q;
             '(ps, ht) ← link_entry (sh_prop sh) (prop_hash sh) (prop_hash_mask sh) (prop_count sh) flags atom;
             mret (emit (put_shape rt q (set_props sh (prop_count sh + 1) (deleted_prop_count sh) ps ht)) [DupAtom atom], Some q)) = mret (rt', Some q) /\
    inv ext rt' O /\ objects rt' = objects rt /\ core rt' = <[q := strip (extra s atom flags h)]> (core rt) /\ shape_ok (extra s atom flags h) /\
    shape_hash_bits rt' = shape_hash_bits rt /\ shape_hash_count rt' = shape_hash_count rt + c_bool (is_hashed s).
Proof.
  intros [HC HT] Hs Hr He Hz Hc Hfr Hf ->. set (nh := shape_hash (shape_hash (sh_hash s) atom) flags). pose proof (lookup_core rt q s Hs) as Hcs. pose proof (proj2 (shape_ok_strip s) (co_shape _ _ _ HC q _ Hcs)) as Hok.
  set (h := if is_hashed s then nh else sh_hash s).
  assert (exists rt1 n, (if is_hashed s then js_shape_hash_link (put_shape rt q (set_hashed s true nh)) q else mret rt) = mret rt1 /\ shapes rt1 !! q = Some (set_chain (set_hashed s (is_hashed s) h) n) /\
      objects rt1 = objects rt /\ (forall sh, core (put_shape rt1 q sh) = <[q := strip sh]> (core rt)) /\
      hash_ok rt1 (if is_hashed s then {[q]} ∪ hashed (core rt) ∖ {[q]} else hashed (core rt) ∖ {[q]}) /\
      shape_hash_bits rt1 = shape_hash_bits rt /\ shape_hash_count rt1 = shape_hash_count rt + c_bool (is_hashed s)) as (rt1 & n & E1 & S1 & O1 & C1 & T1 & F1 & F2).
  { unfold h. destruct (is_hashed s) eqn:Eh.
    - set (rt0 := put_shape rt q (set_hashed s true nh)). assert (T0 : hash_ok rt0 (hashed (core rt) ∖ {[q]})) by (apply hash_ok_put; [exact HT|set_solver]).
      destruct (hash_link_spec rt0 q (set_hashed s true nh) _ T0) as (rt1 & K1 & K2 & (R1 & R2 & R3) & K4 & K5); [apply lookup_insert_eq|apply shape_hash_range|set_solver|].
      assert (core rt1 !! q = Some (strip (set_hashed s true nh))) as Hq by (rewrite R1; unfold rt0; rewrite core_put; apply lookup_insert_eq).
      apply core_lookup in Hq. destruct Hq as (s1 & Hs1 & E1). exists rt1, (shape_hash_next s1). split; [exact K1|]. split; [rewrite Hs1; f_equal; destruct s1; unfold strip, set_chain, set_hashed in *; cbn in *; injection E1; intros; subst; reflexivity|].
      split; [exact R2|]. split; [|split; [exact K2|split; [exact K4|exact K5]]]. intros sh. rewrite core_put, R1. unfold rt0. rewrite core_put, insert_insert_eq. reflexivity.
    - exists rt, (shape_hash_next s). split; [reflexivity|]. split; [rewrite Hs; f_equal; destruct s; cbn in *; subst; reflexivity|]. split; [reflexivity|]. split; [intros sh; apply core_put|]. cbn. auto with lia. }
  rewrite E1, ret_bind. rewrite (shape_at_spec rt1 q _ S1), ret_bind. cbn [sh_prop prop_hash prop_hash_mask prop_count deleted_prop_count set_chain set_hashed].
  pose proof (so_count _ Hok). pose proof (so_len _ Hok) as Hlen. assert (Ln : Z.of_nat (num s) = prop_count s) by (unfold num; lia).
  pose proof (link_entry_spec _ _ _ _ flags atom (so_table _ Hok) ltac:(unfold len in *; lia) ltac:(apply Hfr) ltac:(lia) Hf) as EL. cbv zeta in EL. rewrite Ln in EL. rewrite EL, ret_bind. eexists _, h. split; [reflexivity|]. set (rt2 := emit _ _).
  assert (Hh : 0 <= h < 2 ^ 32) by (unfold h; destruct (is_hashed s); [apply shape_hash_range|apply (so_hash _ Hok)]).
  assert (Hok' : shape_ok (extra s atom flags h)) by (apply extra_ok; try assumption; unfold h; intros ->; reflexivity).
  assert (C2 : core rt2 = <[q := strip (extra s atom flags h)]> (core rt)).
  { change (core rt2) with (core (put_shape rt1 q (set_props (set_chain (set_hashed s (is_hashed s) h) n) (prop_count s + 1) (deleted_prop_count s)
      (<[num s := MkSP (head_of (sh_prop s) (prop_hash_mask s) (Z.land atom (prop_hash_mask s)) (num s)) flags atom]> (sh_prop s)) (<[Z.to_nat (Z.land atom (prop_hash_mask s)) := prop_count s + 1]> (prop_hash s))))).
    rewrite C1. reflexivity. }
  split; [split|split; [exact O1|split; [exact C2|split; [exact Hok'|split; [exact F1|exact F2]]]]].
  - rewrite C2. apply (core_ok_ext (upd ext q 0)); [intros r; unfold upd; case_bool_decide; lia|].
    apply (core_update ext _ O q (strip s)); [exact HC|exact Hcs|apply (proj1 (shape_ok_strip _)), Hok'|reflexivity|cbn; lia|lia|cbn; lia].
  - rewrite C2, hashed_insert. change (is_hashed (strip (extra s atom flags h))) with (is_hashed s).
    apply (hash_ok_fields (put_shape rt1 q (set_props (set_chain (set_hashed s (is_hashed s) h) n) (prop_count s + 1) (deleted_prop_count s)
      (<[num s := MkSP (head_of (sh_prop s) (prop_hash_mask s) (Z.land atom (prop_hash_mask s)) (num s)) flags atom]> (sh_prop s)) (<[Z.to_nat (Z.land atom (prop_hash_mask s)) := prop_count s + 1]> (prop_hash s))))); [reflexivity|repeat split|].
    replace (if is_hashed s then {[q]} ∪ hashed (core rt) else hashed (core rt) ∖ {[q]}) with (if is_hashed s then {[q]} ∪ hashed (core rt) ∖ {[q]} else hashed (core rt) ∖ {[q]}).
    + apply hash_ok_put; [exact T1|]. intros _. eexists. split; [exact S1|]. split; reflexivity.
    + destruct (is_hashed s); [|reflexivity]. apply set_eq. intros x. rewrite !elem_of_union, elem_of_difference, !elem_of_singleton. destruct (decide (x = q)); tauto.
Qed.

(** The objects of [O] have no shape at an address without one, or whose only
    reference is elsewhere. *)
Lemma holders_absent ext C O p : core_ok ext C O -> C !! p = None -> holders O p = 0%nat.
Proof.
  intros H Hp. unfold holders. apply map_size_empty_iff, map_empty. intros o. apply map_lookup_filter_None. right. intros ob Ho E. cbn in E.
  destruct (co_obj _ _ _ H o ob Ho) as (sh & Hs & _). congruence.
Qed.

Lemma holders_unshared ext C O p sh : core_ok ext C O -> C !! p = Some sh -> ref_count sh = 1 -> 1 <= ext p -> holders O p = 0%nat /\ ext p = 1.
Proof. intros H Hp Hr He. destruct (co_refs _ _ _ H p sh Hp). lia. Qed.

(** What [add_shape_property] leaves for the object [o], whose shape was [s]. *)
Definition added_prop (G : Prop) ext rt O p s o ob atom flags (q : JSShapes * option sptr) : Prop :=
  (forall o', o' <> o -> objects (fst q) !! o' = objects rt !! o') /\ views_kept (core rt) (core (fst q)) O /\ steps 1 rt (fst q) /\
  match snd q with
  | None => ~ G /\ inv ext (fst q) O /\ core (fst q) = core rt /\ exists vs, objects (fst q) !! o = Some (MkObj (shape ob) vs) /\ extended (prop_size s) (prop ob) vs
  | Some r => exists s0 h vs, core (fst q) !! r = Some (strip (extra s0 atom flags h)) /\ shape_ok s0 /\ prop_count s0 = prop_count s /\ proto s0 = proto s /\ prop_count s0 < prop_size s0 /\
      same_keys (num s) (sh_prop s) (sh_prop s0) /\ inv (upd (upd ext p (-1)) r 1) (fst q) O /\
      objects (fst q) !! o = Some (MkObj (shape ob) vs) /\ extended (prop_size s0) (prop ob) vs
  end.

Lemma fresh_atom_keys s s0 atom : fresh_atom s atom -> num s0 = num s -> same_keys (num s) (sh_prop s) (sh_prop s0) -> fresh_atom s0 atom.
Proof.
  intros [Ha Hf] En K. split; [exact Ha|]. intros i e Hi He. rewrite En in Hi. destruct (same_keys_lookup _ _ _ _ _ K Hi He) as (e' & He' & E & _). rewrite <- E. apply (Hf i e' Hi He').
Qed.

(** The end of [add_shape_property], once the shape is at [r] with a free entry. *)
Lemma add_finish G E ext rt O p s o ob atom flags rt2 r s0 vs :
  core_ok ext (core rt) O -> core rt !! p = Some (strip s) -> ref_count s = 1 -> 1 <= ext p -> prop_count s + 1 < 2 ^ 26 -> fresh_atom s atom -> 0 <= flags < 64 ->
  shapes rt2 !! r = Some s0 -> (r = p \/ core rt !! r = None) -> core rt2 = <[r := strip s0]> (delete p (core rt)) -> shape_ok s0 -> ref_count s0 = 1 -> is_hashed s0 = is_hashed s -> sh_hash s0 = sh_hash s ->
  prop_count s0 = prop_count s -> proto s0 = proto s -> prop_count s0 < prop_size s0 -> same_keys (num s) (sh_prop s) (sh_prop s0) -> loose (upd (upd ext p (-1)) r 1) rt2 O r ->
  shape_hash_bits rt2 = shape_hash_bits rt -> shape_hash_count rt2 = shape_hash_count rt - c_bool (is_hashed s) ->
  (forall o', o' <> o -> objects rt2 !! o' = objects rt !! o') -> objects rt2 !! o = Some (MkObj (shape ob) vs) -> extended (prop_size s0) (prop ob) vs ->
  gspec G (sh ← shape_at rt2 r;
           rt ← (if is_hashed sh then js_shape_hash_link (put_shape rt2 r (set_hashed sh true (shape_hash (shape_hash (sh_hash s) atom) flags))) r else mret rt2);
           sh ← shape_at rt r;
           '(ps, ht) ← link_entry (sh_prop sh) (prop_hash sh) (prop_hash_mask sh) (prop_count sh) flags atom;
           mret (emit (put_shape rt r (set_props sh (prop_count sh + 1) (deleted_prop_count sh) ps ht)) [DupAtom atom], Some r))
    (added_prop G ext rt O p s o ob atom flags) E.
Proof.
  intros HC Hp Hr He Hc Hfr Hf Hs0 Hrp EC Hok Hr0 Eh Esh Ec Epr Hz K HL F1 F2 Ho1 Ho2 Hx. rewrite (shape_at_spec rt2 r s0 Hs0), ret_bind.
  assert (En : num s0 = num s) by (unfold num; rewrite Ec; reflexivity). destruct (holders_unshared ext _ O p _ HC Hp Hr He) as [Hh0 _].
  assert (1 <= upd (upd ext p (-1)) r 1 r) by (rewrite upd_eq; pose proof (co_pos _ _ _ (proj1 HL) r) as Hps; rewrite upd_eq in Hps; unfold upd in *; case_bool_decide; [subst; lia|pose proof (co_pos _ _ _ HC r); lia]).
  destruct (push_spec _ rt2 O r s0 atom flags _ HL Hs0 Hr0 ltac:(assumption) Hz ltac:(lia) (fresh_atom_keys s s0 atom Hfr En K) Hf (f_equal (fun x => shape_hash (shape_hash x atom) flags) (eq_sym Esh)))
    as (rt' & h & -> & I' & Ob' & C' & Hok' & B' & N'). apply gspec_ret.
  assert (EC' : core rt' = <[r := strip (extra s0 atom flags h)]> (delete p (core rt))) by (rewrite C', EC, insert_insert_eq; reflexivity).
  split; [intros o' Hne; cbn [fst]; rewrite Ob'; apply Ho1, Hne|]. split; [|split].
  - apply (views_away _ _ _ ext HC). intros q Hq. cbn [fst]. rewrite EC'. assert (q <> p) by congruence.
    assert (q <> r) by (destruct Hrp as [->|Hrn]; [assumption|intros ->; rewrite (holders_absent ext _ O r HC Hrn) in Hq; congruence]). rewrite lookup_insert_ne, lookup_delete_ne by congruence. reflexivity.
  - apply steps_of; [lia|cbn [fst]; congruence|cbn [fst]; rewrite N', F2, Eh; lia|]. intros q sh Hq. cbn [fst] in Hq. rewrite EC' in Hq. apply lookup_insert_Some in Hq. right.
    destruct Hq as [[_ <-]|[_ Hq]]; [exists p, (strip s); split; [exact Hp|cbn; lia]|]. apply lookup_delete_Some in Hq. exists q, sh. split; [apply Hq|lia].
  - cbn [snd fst]. exists s0, h, vs. split; [rewrite EC'; apply lookup_insert_eq|]. repeat (split; [assumption|]). split; [rewrite Ob'; exact Ho2|exact Hx].
Qed.

Lemma add_shape_property_spec G E ext rt O p s o ob atom flags :
  inv ext rt O -> shapes rt !! p = Some s -> ref_count s = 1 -> 1 <= ext p -> objects rt !! o = Some ob -> prop_size s <= len (prop ob) ->
  prop_count s + 1 < 2 ^ 26 -> fresh_atom s atom -> 0 <= flags < 64 ->
  gspec G (add_shape_property rt p (Some o) atom flags) (added_prop G ext rt O p s o ob atom flags) E.
Proof.
  intros Hi Hs Hr He Ho Hl Hc Hfr Hf. pose proof Hi as [HC HT]. pose proof (lookup_core rt p s Hs) as Hcs. pose proof (proj2 (shape_ok_strip s) (co_shape _ _ _ HC p _ Hcs)) as Hok.
  unfold add_shape_property. rewrite (shape_at_spec rt p s Hs), ret_bind. destruct (unlink_loose ext rt O p s Hi Hs) as (rt1 & -> & L1 & C1 & O1 & B1 & N1). rewrite ret_bind.
  assert (Hcs1 : core rt1 !! p = Some (strip s)) by (rewrite C1; exact Hcs). apply core_lookup in Hcs1. destruct Hcs1 as (s1 & Hs1 & E1). pose proof (so_count _ Hok) as Hcnt.
  assert (Hok1 : shape_ok s1) by (apply (proj2 (shape_ok_strip s1)); rewrite <- E1; apply (proj1 (shape_ok_strip s)), Hok).
  assert (P1 : prop_count s1 = prop_count s /\ prop_size s1 = prop_size s /\ sh_prop s1 = sh_prop s /\ ref_count s1 = ref_count s /\ is_hashed s1 = is_hashed s /\ sh_hash s1 = sh_hash s /\ proto s1 = proto s).
  { apply (f_equal (fun x => (prop_count x, prop_size x, sh_prop x, ref_count x, is_hashed x, sh_hash x, proto x))) in E1. cbn in E1. injection E1 as -> -> -> -> -> -> ->. repeat split. }
  destruct P1 as (P1 & P2 & P3 & P4 & P5 & P6 & P7). assert (Hself : forall x, upd (upd ext p (-1)) p 1 x = ext x) by (intros x; unfold upd; case_bool_decide; lia).
  destruct (Z.leb_spec (prop_size s) (prop_count s)) as [Hfull|Hroom].
  - unfold int_of. rewrite (proj2 (Z.leb_le _ _)), (proj2 (Z.ltb_lt _ _)) by lia. cbn [andb]. rewrite ret_bind. rewrite <- P1.
    eapply gspec_bind; [apply (resize_properties_spec G E ext rt1 O p s1 (Some o) L1 Hs1); [lia|exact He|lia|lia|intros o' [= <-]; rewrite O1; eauto]|].
    intros [rt2 r] (F1 & F2 & F3 & F4). cbn [fst snd] in *. destruct r as [r|].
    + destruct F4 as (s' & S2 & Hr0 & (R1 & R2 & R3 & R4 & R5 & R6 & R7 & R8) & L2 & V). destruct (V o ob eq_refl ltac:(rewrite O1; exact Ho)) as (vs & V1 & V2).
      apply (add_finish G E ext rt O p s o ob atom flags rt2 r s' vs); try assumption; try congruence; try lia.
      * rewrite S2. apply lookup_insert_eq.
      * right. rewrite <- C1. exact Hr0.
      * unfold core. rewrite S2, fmap_insert, fmap_delete. fold (core rt1). rewrite C1. reflexivity.
      * rewrite <- P3. unfold num in *. rewrite <- P1. exact R8.
      * intros o' Hne. rewrite F3 by congruence. rewrite O1. reflexivity.
      * apply V2. lia.
    + destruct F4 as (Hg & S2 & [L2 L3] & V). destruct (V o ob eq_refl ltac:(rewrite O1; exact Ho)) as (vs & V1 & V2). specialize (V2 ltac:(lia)). rewrite P2 in V2.
      assert (C2 : core rt2 = core rt) by (unfold core; rewrite S2; exact C1).
      assert (exists rt', (if is_hashed s then js_shape_hash_link rt2 p else mret rt2) = mret rt' /\ inv ext rt' O /\ core rt' = core rt /\ objects rt' = objects rt2 /\
          shape_hash_bits rt' = shape_hash_bits rt /\ shape_hash_count rt' = shape_hash_count rt) as (rt' & -> & I' & C' & O' & B' & N').
      { destruct (is_hashed s) eqn:Eh.
        - destruct (hash_link_spec rt2 p s1 _ L3) as (rt' & K1 & K2 & (R1 & R2 & R3) & K4 & K5); [rewrite S2; exact Hs1|apply (so_hash _ Hok1)|set_solver|]. exists rt'. split; [exact K1|].
          assert (p ∈ hashed (core rt)) by (apply (is_hashed_in rt p s Hs Eh)). cbn in N1. split; [|split; [congruence|split; [exact R2|split; [congruence|lia]]]]. split; [rewrite R1; exact L2|].
          rewrite R1, C2. rewrite C2 in K2. replace ({[p]} ∪ hashed (core rt) ∖ {[p]}) with (hashed (core rt)) in K2; [exact K2|]. apply set_eq. intros x. rewrite elem_of_union, elem_of_difference, !elem_of_singleton. destruct (decide (x = p)) as [->|]; tauto.
        - exists rt2. split; [reflexivity|]. cbn in N1. assert (p ∉ hashed (core rt2)) by (rewrite C2; apply not_hashed; intros s2 Hs2; congruence).
          replace (hashed (core rt2) ∖ {[p]}) with (hashed (core rt2)) in L3 by set_solver. split; [split; assumption|]. split; [exact C2|]. split; [reflexivity|]. split; [congruence|lia]. }
      rewrite ret_bind. apply gspec_ret. split; [intros o' Hne; cbn [fst]; rewrite O', F3 by congruence; rewrite O1; reflexivity|]. split; [intros o' ob' _; cbn [fst]; rewrite C'; reflexivity|].
      split; [apply steps_of; [lia|exact B'|cbn [fst]; lia|intros q sh Hq; right; cbn [fst] in Hq; rewrite C' in Hq; exists q, sh; split; [exact Hq|lia]]|].
      cbn [snd fst]. split; [exact Hg|]. split; [exact I'|]. split; [exact C'|]. exists vs. split; [rewrite O'; exact V1|exact V2].
  - rewrite ret_bind. apply (add_finish G E ext rt O p s o ob atom flags rt1 p s1 (prop ob)); try assumption; try congruence; try lia.
    + rewrite C1, <- E1, insert_delete_eq. symmetry. apply insert_id, Hcs.
    + destruct L1 as [L1 L2]. split; [apply (core_ok_ext ext); [intros x; rewrite Hself; reflexivity|exact L1]|exact L2].
    + rewrite O1, Ho. destruct ob; reflexivity.
    + split; [lia|]. auto.
Qed.

End Add.
