(* ===== verification/ShapeObjects.v ===== *)
(** Lookups: the own property of an object, and a shape in the table.

    Objects: their creation, and the exclusive shape an object gets before its
    properties change. *)
From Stdlib Require Import ZArith Lia.
From S2P Require Import Prelude Shapes ShapeTables ShapeChains ShapeRefs ShapeAdd.
From stdpp Require Import base tactics numbers list gmap fin_sets.

Open Scope Z_scope.

Section Find.
Context `{OC : ObjectConfig}.
Implicit Types (rt : JSShapes) (O : gmap optr JSObject).

(** The prototypes and the rows of all objects: what the shapes stand for. *)
Definition model (rt : JSShapes) : gmap optr (option optr * list (Z * Z * JSProperty)) := view_of (core rt) <$> objects rt.

Definition heap (ext : sptr -> Z) (rt : JSShapes) : Prop := inv ext rt (objects rt).

Lemma model_lookup rt o ob : objects rt !! o = Some ob -> model rt !! o = Some (view_of (core rt) ob).
Proof. intros H. unfold model. rewrite lookup_fmap, H. reflexivity. Qed.

Lemma object_at_spec rt o ob : objects rt !! o = Some ob -> object_at rt o = mret ob.
Proof. intros H. unfold object_at. rewrite H. reflexivity. Qed.

(** The shape of an object. *)
Lemma heap_shape ext rt o ob : heap ext rt -> objects rt !! o = Some ob ->
  exists s, shapes rt !! shape ob = Some s /\ shape_ok s /\ prop_size s <= len (prop ob) /\ view_of (core rt) ob = (proto s, rows (num s) (sh_prop s) (prop ob)).
Proof.
  intros [HC _] Ho. destruct (co_obj _ _ _ HC o ob Ho) as (sh & Hs & Hl). pose proof (co_shape _ _ _ HC _ _ Hs) as Hok. pose proof Hs as Hc. apply core_lookup in Hs. destruct Hs as (s & Hs & ->).
  exists s. split; [exact Hs|]. split; [apply (proj2 (shape_ok_strip s)), Hok|]. split; [exact Hl|]. unfold view_of. rewrite Hc. reflexivity.
Qed.

(** ** Own properties *)

(** The row of an entry. *)
Lemma row_in s (vs : list JSProperty) i e v : (i < num s)%nat -> sh_prop s !! i = Some e -> vs !! i = Some v -> live e = true -> (sp_atom e, sp_flags e, v) ∈ rows (num s) (sh_prop s) vs.
Proof. intros. apply rows_elem. exists i, e, v. auto. Qed.

Lemma value_at s (vs : list JSProperty) i : shape_ok s -> prop_size s <= len vs -> (i < num s)%nat -> exists v, vs !! i = Some v.
Proof. intros Hok Hl Hi. pose proof (so_count _ Hok). apply lookup_lt_is_Some. unfold num, len in *. lia. Qed.

Lemma find_own_property_spec ext rt o ob s atom :
  heap ext rt -> objects rt !! o = Some ob -> shapes rt !! shape ob = Some s -> shape_ok s -> prop_size s <= len (prop ob) -> 0 < atom ->
  exists r, find_own_property rt o atom = mret r /\
    match r with
    | Some (i, e, v) => exists j, i = Z.of_nat j /\ (j < num s)%nat /\ sh_prop s !! j = Some e /\ prop ob !! j = Some v /\ sp_atom e = atom
    | None => forall j e, (j < num s)%nat -> sh_prop s !! j = Some e -> sp_atom e <> atom
    end.
Proof.
  intros Hh Ho Hs Hok Hl Ha. unfold find_own_property. rewrite (object_at_spec rt o ob Ho), ret_bind, (shape_at_spec rt _ s Hs), ret_bind, (table_head _ _ _ _ atom (so_table _ Hok)), ret_bind by lia.
  pose proof (num_len s Hok). destruct (find_entry_spec _ _ _ _ atom (so_table _ Hok) ltac:(lia) (length (sh_prop s)) (num s) ltac:(lia) ltac:(lia)) as (r & -> & Hr). rewrite ret_bind. destruct r as [i|].
  - destruct Hr as (j & e & -> & Hj & He & Ea & _). rewrite (tab_get_lookup _ _ e), ret_bind by (rewrite ?Nat2Z.id; lia || exact He). destruct (value_at s (prop ob) j Hok Hl Hj) as [v Hv].
    rewrite (tab_get_lookup _ _ v), ret_bind by (rewrite ?Nat2Z.id; lia || exact Hv). eexists. split; [reflexivity|]. exists j. auto.
  - eexists. split; [reflexivity|]. exact Hr.
Qed.

(** ** Shapes *)

Definition key_at (ps : list JSShapeProperty) (i : nat) : option (Z * Z) := (fun e => key e) <$> ps !! i.

Fixpoint keysb (k : nat) (l1 l2 : list JSShapeProperty) (i : nat) : bool :=
  match k with
  | O => true
  | S k => bool_decide (key_at l1 i = key_at l2 i) && keysb k l1 l2 (S i)
  end.

Lemma keysb_spec k l1 l2 i : keysb k l1 l2 i = true <-> forall j, (i <= j < i + k)%nat -> key_at l1 j = key_at l2 j.
Proof.
  revert i. induction k as [|k IH]; intros i; cbn; [split; [intros; lia|reflexivity]|]. rewrite andb_true_iff, bool_decide_eq_true, IH. split.
  - intros [H1 H2] j Hj. destruct (decide (j = i)) as [->|]; [exact H1|apply H2; lia].
  - intros H. split; [apply H; lia|]. intros j Hj. apply H. lia.
Qed.

Lemma same_props_spec k l1 l2 i : (i + k <= length l1)%nat -> (i + k <= length l2)%nat -> same_props k l1 l2 (Z.of_nat i) = mret (keysb k l1 l2 i).
Proof.
  revert i. induction k as [|k IH]; intros i H1 H2; [reflexivity|]. cbn [same_props keysb]. destruct (lookup_lt_is_Some_2 l1 i ltac:(lia)) as [a Ha], (lookup_lt_is_Some_2 l2 i ltac:(lia)) as [b Hb].
  rewrite (tab_get_lookup l1 _ a), ret_bind, (tab_get_lookup l2 _ b), ret_bind by (rewrite ?Nat2Z.id; lia || assumption). unfold key_at. rewrite Ha, Hb. cbn [fmap option_fmap option_map].
  replace (Z.of_nat i + 1) with (Z.of_nat (S i)) by lia. destruct (Z.eqb_spec (sp_atom a) (sp_atom b)) as [E1|E1], (Z.eqb_spec (sp_flags a) (sp_flags b)) as [E2|E2]; cbn [negb orb].
  1: rewrite bool_decide_eq_true_2 by congruence; cbn [andb]; apply IH; lia.
  all: rewrite bool_decide_eq_false_2 by congruence; reflexivity.
Qed.

(** [s'] has the properties of [s] and one more. *)
Definition matchb (s s' : JSShape) (atom flags : Z) : bool :=
  (sh_hash s' =? shape_hash (shape_hash (sh_hash s) atom) flags) && bool_decide (proto s' = proto s) && (prop_count s' =? prop_count s + 1) &&
  (keysb (num s) (sh_prop s') (sh_prop s) 0 && bool_decide (key_at (sh_prop s') (num s) = Some (atom, flags))).

Lemma matchb_keys s s' atom flags : shape_ok s -> matchb s s' atom flags = true ->
  prop_count s' = prop_count s + 1 /\ proto s' = proto s /\ same_keys (num s) (sh_prop s) (sh_prop s') /\ key_at (sh_prop s') (num s) = Some (atom, flags).
Proof.
  intros Hok H. unfold matchb in H. rewrite !andb_true_iff, !bool_decide_eq_true, keysb_spec, !Z.eqb_eq in H. destruct H as (((_ & H1) & H2) & H3 & H4).
  split; [exact H2|]. split; [exact H1|]. split; [|exact H4]. intros i Hi. symmetry. apply (H3 i). lia.
Qed.

Lemma find_prop_step rt s atom flags fuel q s' :
  shapes rt !! q = Some s' -> shape_ok s -> shape_ok s' ->
  find_prop_loop (S fuel) rt (shape_hash (shape_hash (sh_hash s) atom) flags) s atom flags (Some q) =
  if matchb s s' atom flags then mret (Some q) else find_prop_loop fuel rt (shape_hash (shape_hash (sh_hash s) atom) flags) s atom flags (shape_hash_next s').
Proof.
  intros Hs Hok Hok'. cbn [find_prop_loop]. rewrite (shape_at_spec rt q s' Hs), ret_bind. unfold matchb. pose proof (so_count _ Hok). pose proof (num_len s Hok). pose proof (num_len s' Hok').
  destruct ((sh_hash s' =? _) && bool_decide (proto s' = proto s) && (prop_count s' =? prop_count s + 1)) eqn:E; [|rewrite !ret_bind; reflexivity].
  apply andb_true_iff in E. destruct E as [_ E]. apply Z.eqb_eq in E. assert (En : num s' = S (num s)) by (unfold num; lia). fold (num s).
  change 0 with (Z.of_nat 0) at 1. rewrite same_props_spec, ret_bind by lia. cbn [andb]. destruct (keysb (num s) (sh_prop s') (sh_prop s) 0); [|rewrite !ret_bind; reflexivity].
  destruct (lookup_lt_is_Some_2 (sh_prop s') (num s) ltac:(lia)) as [e He]. replace (prop_count s) with (Z.of_nat (num s)) by (unfold num; lia). rewrite (tab_get_lookup _ _ e), !ret_bind by (rewrite ?Nat2Z.id; lia || exact He).
  unfold key_at. rewrite He. cbn [fmap option_fmap option_map]. destruct (Z.eqb_spec (sp_atom e) atom) as [E1|E1], (Z.eqb_spec (sp_flags e) flags) as [E2|E2]; cbn [negb orb].
  1: rewrite bool_decide_eq_true_2 by congruence; reflexivity.
  all: rewrite bool_decide_eq_false_2 by congruence; reflexivity.
Qed.

(** The shapes of the table with the hash [h] are on its chain. *)
Lemma hash_chain ext rt O h : inv ext rt O -> 0 <= h < 2 ^ 32 ->
  exists b ch, tab_get (shape_table rt) (get_shape_hash h (shape_hash_bits rt)) = mret b /\ chain (shapes rt) b ch /\ (length ch <= S (size (shapes rt)))%nat /\
    (forall q, q ∈ ch -> exists s, shapes rt !! q = Some s /\ is_hashed s = true) /\
    (forall q s, shapes rt !! q = Some s -> is_hashed s = true -> sh_hash s = h -> q ∈ ch).
Proof.
  intros [HC HT] Hh. pose proof (hash_bucket_range h _ (ho_bits _ _ HT) Hh) as Hr. destruct (ho_chain _ _ HT _ Hr) as (b & ch & Ht & Hc & Hn & Hch). exists b, ch.
  split; [apply tab_get_lookup; [lia|exact Ht]|]. split; [exact Hc|]. split; [pose proof (chain_length _ _ _ Hc Hn); lia|]. split.
  - intros q Hq. apply Hch in Hq. destruct Hq as [Hq _]. apply elem_of_hashed in Hq. destruct Hq as (sh & Hs & Hh'). apply core_lookup in Hs. destruct Hs as (s & Hs & ->). eauto.
  - intros q s Hs Hh' E. apply Hch. split; [apply (is_hashed_in rt q s Hs Hh')|]. exists s. rewrite E. auto.
Qed.

Lemma find_hashed_prop_spec ext rt O p s atom flags :
  inv ext rt O -> shapes rt !! p = Some s -> is_hashed s = true -> shape_ok s ->
  exists r, find_hashed_shape_prop rt p atom flags = mret r /\
    match r with
    | Some q => exists s', shapes rt !! q = Some s' /\ is_hashed s' = true /\ matchb s s' atom flags = true
    | None => forall q s', shapes rt !! q = Some s' -> is_hashed s' = true -> matchb s s' atom flags = false
    end.
Proof.
  intros Hi Hs Hh Hok. unfold find_hashed_shape_prop. rewrite (shape_at_spec rt p s Hs), ret_bind. set (h := shape_hash (shape_hash (sh_hash s) atom) flags).
  destruct (hash_chain ext rt O h Hi (shape_hash_range _ _)) as (b & ch & -> & Hc & Hl & H1 & H2). rewrite ret_bind.
  assert (Hall : forall q s', shapes rt !! q = Some s' -> shape_ok s') by (intros q s' Hq; apply (proj2 (shape_ok_strip s')), (co_shape _ _ _ (proj1 Hi) q), lookup_core, Hq).
  destruct (chain_find rt (fun s' => matchb s s' atom flags) (fun fuel q => find_prop_loop fuel rt h s atom flags q)) with (fuel := S (size (shapes rt))) (b := b) (l := ch) as (r & E & Hr);
    [intros []; reflexivity|intros fuel q s' Hq; apply find_prop_step; [exact Hq|exact Hok|apply (Hall q s' Hq)]|exact Hc|exact Hl|].
  exists r. split; [exact E|]. destruct r as [q|].
  - destruct Hr as (s' & Hq & Hs' & Hm). destruct (H1 q Hq) as (s0 & Hs0 & Hh0). rewrite Hs' in Hs0. injection Hs0 as <-. eauto.
  - intros q s' Hs' Hh'. destruct (matchb s s' atom flags) eqn:Em; [|reflexivity]. rewrite (Hr q s') in Em; [discriminate| |exact Hs']. apply (H2 q s' Hs' Hh').
    unfold matchb in Em. rewrite !andb_true_iff, Z.eqb_eq in Em. apply Em.
Qed.

(** An empty shape for the prototype. *)
Lemma find_hashed_proto_spec ext rt O pr :
  inv ext rt O -> exists r, find_hashed_shape_proto rt pr = mret r /\
    match r with
    | Some q => exists s, shapes rt !! q = Some s /\ is_hashed s = true /\ proto s = pr /\ prop_count s = 0
    | None => forall q s, shapes rt !! q = Some s -> is_hashed s = true -> proto s = pr -> prop_count s <> 0
    end.
Proof.
  intros Hi. unfold find_hashed_shape_proto. set (h := shape_initial_hash pr).
  assert (Hh : 0 <= h < 2 ^ 32) by (unfold h, shape_initial_hash; destruct pointer_64; apply shape_hash_range).
  destruct (hash_chain ext rt O h Hi Hh) as (b & ch & -> & Hc & Hl & H1 & H2). rewrite ret_bind.
  destruct (chain_find rt (fun s => (sh_hash s =? h) && bool_decide (proto s = pr) && (prop_count s =? 0)) (fun fuel q => find_proto_loop fuel rt h pr q)) with (fuel := S (size (shapes rt))) (b := b) (l := ch) as (r & E & Hr);
    [intros []; reflexivity|intros fuel q s Hq; cbn [find_proto_loop]; rewrite (shape_at_spec rt q s Hq), ret_bind; reflexivity|exact Hc|exact Hl|].
  exists r. split; [exact E|]. destruct r as [q|].
  - destruct Hr as (s & Hq & Hs & Hm). rewrite !andb_true_iff, bool_decide_eq_true, !Z.eqb_eq in Hm. destruct (H1 q Hq) as (s0 & Hs0 & Hh0). rewrite Hs in Hs0. injection Hs0 as <-. exists s. tauto.
  - intros q s Hs Hhs Hp Hc0. pose proof (proj2 (shape_ok_strip s) (co_shape _ _ _ (proj1 Hi) q _ (lookup_core rt q s Hs))) as Hok.
    assert (Eh : sh_hash s = h). { destruct (so_hashed _ Hok Hhs) as [_ ->]. unfold num. rewrite Hc0, Hp. reflexivity. }
    specialize (Hr q s (H2 q s Hs Hhs Eh) Hs). rewrite Eh, Z.eqb_refl, bool_decide_eq_true_2, Hc0 in Hr by exact Hp. discriminate.
Qed.

End Find.

Section Objects.
Context `{OC : ObjectConfig}.
Implicit Types (rt : JSShapes) (O : gmap optr JSObject).

(** ** One object taken out of the heap and put back *)

Lemma heap_open ext rt o ob : heap ext rt -> objects rt !! o = Some ob -> inv (upd ext (shape ob) 1) rt (delete o (objects rt)).
Proof. intros [HC HT] Ho. split; [apply core_open; assumption|exact HT]. Qed.

Lemma inv_ext ext ext' rt O : (forall x, ext x = ext' x) -> inv ext rt O -> inv ext' rt O.
Proof. intros He [HC HT]. split; [apply (core_ok_ext ext); assumption|exact HT]. Qed.

Lemma delete_agree {A} (o : optr) (m m' : gmap optr A) : (forall o', o' <> o -> m !! o' = m' !! o') -> delete o m = delete o m'.
Proof. intros H. apply map_eq. intros i. destruct (decide (i = o)) as [->|]; [rewrite !lookup_delete_eq; reflexivity|rewrite !lookup_delete_ne by congruence; apply H; assumption]. Qed.

Lemma put_object_id rt o ob : objects rt !! o = Some ob -> put_object rt o ob = rt.
Proof. intros H. unfold put_object. rewrite insert_id by exact H. destruct rt; reflexivity. Qed.

Lemma heap_close ext ext1 rt0 rt o q vs s :
  inv ext1 rt (delete o (objects rt0)) -> (forall x, ext1 x = upd ext q 1 x) -> (forall o', o' <> o -> objects rt !! o' = objects rt0 !! o') ->
  views_kept (core rt0) (core rt) (delete o (objects rt0)) -> core rt !! q = Some (strip s) -> prop_size s <= len vs -> 0 <= ext q ->
  let rt' := put_object rt o (MkObj q vs) in
  heap ext rt' /\ model rt' = <[o := (proto s, rows (num s) (sh_prop s) vs)]> (model rt0).
Proof.
  intros [HC HT] He Ho Hv Hq Hl Hp rt'. split; [split; [|apply (hash_ok_fields rt); [reflexivity|repeat split|exact HT]]|].
  - change (core rt') with (core rt). apply (core_ok_ext (upd ext1 q (-1))); [intros x; unfold upd in *; specialize (He x); case_bool_decide; lia|].
    apply (core_close ext1 _ (objects rt) o q vs (strip s)); [rewrite (delete_agree o _ _ Ho); exact HC|exact Hq|rewrite He, upd_eq; lia|exact Hl].
  - apply map_eq. intros i. unfold model. cbn. rewrite lookup_fmap. destruct (decide (i = o)) as [->|Hne].
    + rewrite !lookup_insert_eq. change (Some (view_of (core rt) (MkObj q vs)) = Some (proto s, rows (num s) (sh_prop s) vs)). unfold view_of. cbn [shape prop]. rewrite Hq. reflexivity.
    + rewrite !lookup_insert_ne, lookup_fmap, Ho by congruence. destruct (objects rt0 !! i) as [ob|] eqn:Ei; [|reflexivity]. cbn. f_equal. apply (Hv i ob). rewrite lookup_delete_ne by congruence. exact Ei.
Qed.

(** Operations that keep the objects and their views. *)
Lemma model_kept rt rt' : objects rt' = objects rt -> views_kept (core rt) (core rt') (objects rt) -> model rt' = model rt.
Proof. intros E0 Hv. unfold model. rewrite E0. apply map_fmap_ext. intros o ob Ho. apply (Hv o ob Ho). Qed.

Lemma heap_ext_pos ext rt q : heap ext rt -> 0 <= ext q.
Proof. intros [HC _]. apply (co_pos _ _ _ HC). Qed.

Section Alloc.
Context (G : Prop) (E : exn -> Prop).

(** ** New shapes in the table *)

Lemma grow_table_spec ext rt O :
  inv ext rt O -> room 1 rt ->
  gspec G (if shape_hash_size rt <? 2 * (shape_hash_count rt + 1) then resize_shape_hash rt (shape_hash_bits rt + 1) else mret (rt, 0))
    (fun q => inv ext (fst q) O /\ core (fst q) = core rt /\ objects (fst q) = objects rt /\ steps 1 rt (fst q)) E.
Proof.
  intros [HC HT] (H0 & H1 & H2 & H3). destruct (Z.ltb_spec (shape_hash_size rt) (2 * (shape_hash_count rt + 1))) as [Hlt|_];
    [|apply gspec_ret; split; [split; assumption|]; split; [reflexivity|]; split; [reflexivity|apply (steps_mono 0); [lia|apply steps_refl]]].
  eapply gspec_mono; [apply (resize_shapes_spec G E rt _ HT H1)| |auto]. intros [rt' r] (K1 & (R1 & R2 & R3) & K3 & K4). cbn [fst] in *. split; [split; rewrite R1; assumption|]. split; [exact R1|]. split; [exact R2|].
  intros k Hk (L0 & L1 & L2 & L3). rewrite (ho_size _ _ HT) in Hlt. assert (shape_hash_bits rt < 28) by (apply (Z.pow_lt_mono_r_iff 2); lia).
  split; [lia|]. split; [lia|]. split; [lia|]. intros p sh Hp. rewrite R1 in Hp. specialize (L3 p sh Hp). lia.
Qed.

Lemma new_shape_spec ext rt O pr :
  inv ext rt O -> room 1 rt ->
  gspec G (js_new_shape rt pr) (made G ext rt O 2 (fun s => proto s = pr /\ prop_count s = 0 /\ is_hashed s = true)) E.
Proof.
  intros Hi Hr. unfold js_new_shape, js_new_shape2. eapply gspec_bind; [apply (grow_table_spec ext rt O Hi Hr)|]. intros [rt1 z] (I1 & C1 & O1 & S1). cbn [fst] in *.
  eapply gspec_bind; [apply (new_nohash_spec G E ext rt1 O pr 2 JS_PROP_INITIAL_HASH_SIZE JS_PROP_INITIAL_SIZE I1); [lia|reflexivity|cbv; split; discriminate]|].
  intros [rt2 q] ((O2 & V2 & S2 & M2) & T2 & N2). cbn [fst snd] in *. rewrite C1 in V2. assert (S12 : steps 1 rt rt2) by (apply (steps_trans 1 0 rt rt1); [lia|exact S1|exact S2]).
  destruct q as [p|].
  - destruct M2 as (I2 & s & Hs & Hrc & Hpr & Hc & Hh & Hok). rewrite (shape_at_spec rt2 p s Hs), ret_bind.
    destruct (link_shape_spec _ rt2 O p s (shape_initial_hash pr) I2 Hs Hh) as (rt3 & -> & I3 & O3 & C3 & V3 & S3).
    { split; try apply Hok; [unfold shape_initial_hash; destruct pointer_64; apply shape_hash_range| |discriminate].
      intros _. cbn [set_hashed deleted_prop_count sh_hash proto num prop_count sh_prop]. rewrite (so_deleted _ Hok). unfold num. cbn [set_hashed prop_count]. rewrite Hc, Hpr. split; reflexivity. }
    rewrite ret_bind. apply gspec_ret. split; [cbn; congruence|]. split; [apply (views_trans _ (core rt2)); assumption|]. split; [apply (steps_trans 1 1 rt rt2); [lia|exact S12|exact S3]|].
    cbn [snd fst]. split; [exact I3|]. assert (Hc3 : core rt3 !! p = Some (strip (set_hashed s true (shape_initial_hash pr)))) by (rewrite C3; apply lookup_insert_eq).
    apply core_lookup in Hc3. destruct Hc3 as (s3 & Hs3 & E3). exists s3. split; [exact Hs3|].
    apply (f_equal (fun x => (ref_count x, proto x, prop_count x, is_hashed x))) in E3. cbn in E3. injection E3 as <- <- <- <-. auto.
  - apply gspec_ret. split; [cbn; congruence|]. split; [exact V2|]. split; [apply (steps_mono 1); [lia|exact S12]|]. exact M2.
Qed.

(** ** New objects *)

(** What an operation that makes an object leaves. *)
Definition new_object ext rt (d : Z) (pr : option optr) (q : JSShapes * option optr) : Prop :=
  heap ext (fst q) /\ steps d rt (fst q) /\
  match snd q with
  | None => ~ G /\ model (fst q) = model rt
  | Some o => model rt !! o = None /\ model (fst q) = <[o := (pr, [])]> (model rt)
  end.

Lemma steps_same rt rt' : shapes rt' = shapes rt -> table_fields rt rt' -> steps 0 rt rt'.
Proof. intros Es (F1 & _ & F3 & _). apply steps_of; [lia|exact F1|lia|]. intros p sh Hp. right. exists p, sh. unfold core in *. rewrite Es in Hp. split; [exact Hp|lia]. Qed.

Lemma model_absent rt o : objects rt !! o = None -> model rt !! o = None.
Proof. intros H. unfold model. rewrite lookup_fmap, H. reflexivity. Qed.

Lemma new_from_shape_spec ext rt p s :
  heap (upd ext p 1) rt -> shapes rt !! p = Some s -> prop_count s = 0 -> 0 <= ext p ->
  gspec G (JS_NewObjectFromShape rt p) (new_object ext rt 0 (proto s)) E.
Proof.
  intros Hh Hs Hc He. unfold JS_NewObjectFromShape. assert (Hfail : ~ G -> gspec G (rt ← js_free_shape rt p; mret (rt, None)) (new_object ext rt 0 (proto s)) E).
  { intros Hg. destruct (free_shape_spec _ rt _ p Hh ltac:(rewrite upd_eq; lia)) as (rt' & -> & I' & O' & V' & S' & _). rewrite ret_bind. apply gspec_ret. split; [|split; [exact S'|]].
    - unfold heap. cbn [fst]. rewrite O'. revert I'. apply inv_ext. intros x. unfold upd. case_bool_decide; lia.
    - cbn. split; [exact Hg|]. apply model_kept; assumption. }
  eapply gspec_bind; [apply gspec_try_alloc|]. intros ok Hok. destruct ok; cbn [negb]; [|apply Hfail, Hok; reflexivity]. rewrite (shape_at_spec rt p s Hs), ret_bind.
  eapply gspec_bind; [apply gspec_try_alloc|]. intros ok Hok2. destruct ok; cbn [negb]; [|apply Hfail, Hok2; reflexivity]. apply gspec_ret. set (o := new_optr rt).
  assert (Ho : objects rt !! o = None) by (apply not_elem_of_dom, is_fresh). pose proof (co_shape _ _ _ (proj1 Hh) p _ (lookup_core rt p s Hs)) as Hso. pose proof (so_size _ Hso) as Hsz. cbn in Hsz. unfold JS_PROP_INITIAL_SIZE in Hsz.
  assert (Hdel : delete o (objects rt) = objects rt) by (apply delete_id, Ho).
  destruct (heap_close ext (upd ext p 1) rt rt o p (raw_property <$> seq 0 (Z.to_nat (prop_size s))) s) as [K1 K2]; try assumption; try reflexivity; [rewrite Hdel; exact Hh|intros o' ob' _; reflexivity|apply lookup_core, Hs|unfold len; rewrite length_fmap, length_seq; lia|].
  split; [exact K1|]. split; [apply steps_same; [reflexivity|repeat split]|]. cbn [snd fst]. split; [apply model_absent, Ho|]. rewrite K2. unfold num. rewrite Hc. reflexivity.
Qed.

Lemma new_object_spec ext rt pr : heap ext rt -> room 1 rt -> gspec G (JS_NewObjectProto rt pr) (new_object ext rt 2 pr) E.
Proof.
  intros Hh Hr. unfold JS_NewObjectProto. destruct (find_hashed_proto_spec ext rt (objects rt) pr Hh) as (r & -> & Hf). rewrite ret_bind.
  eapply gspec_bind with (R := fun q => objects (fst q) = objects rt /\ views_kept (core rt) (core (fst q)) (objects rt) /\ steps 2 rt (fst q) /\
    match snd q with
    | None => ~ G /\ inv ext (fst q) (objects rt)
    | Some p => inv (upd ext p 1) (fst q) (objects rt) /\ exists s, shapes (fst q) !! p = Some s /\ proto s = pr /\ prop_count s = 0
    end).
  - destruct r as [p|].
    + destruct Hf as (s & Hs & Hhs & Hpr & Hc). destruct (dup_shape_spec ext rt _ p s Hh Hs Hhs) as (-> & I1 & V1 & S1). rewrite ret_bind. apply gspec_ret. cbn [fst snd].
      split; [reflexivity|]. split; [exact V1|]. split; [apply (steps_mono 0); [lia|exact S1]|]. split; [exact I1|]. exists (set_ref s (ref_count s + 1)). split; [apply lookup_insert_eq|]. auto.
    + eapply gspec_mono; [apply (new_shape_spec ext rt _ pr Hh Hr)| |auto]. intros q (O1 & V1 & S1 & M1). split; [exact O1|]. split; [exact V1|]. split; [exact S1|].
      destruct (snd q) as [p|]; [|exact M1]. destruct M1 as (I1 & s & Hs & _ & Hpr & Hc & _). eauto.
  - intros [rt1 [p|]] (O1 & V1 & S1 & M1); cbn [fst snd] in *.
    + destruct M1 as (I1 & s & Hs & Hpr & Hc). rewrite <- O1 in I1.
      eapply gspec_mono; [apply (new_from_shape_spec ext rt1 p s I1 Hs Hc), (heap_ext_pos ext rt), Hh| |auto]. intros q (K1 & K2 & K3). rewrite Hpr in K3. rewrite (model_kept rt rt1 O1 V1) in K3.
      split; [exact K1|]. split; [apply (steps_trans 2 0 rt rt1); [lia|exact S1|exact K2]|exact K3].
    + destruct M1 as (Hg & I1). apply gspec_ret. split; [unfold heap; cbn [fst]; rewrite O1; exact I1|]. split; [exact S1|]. cbn. split; [exact Hg|]. apply model_kept; assumption.
Qed.

End Alloc.
End Objects.
