(* ===== verification/ShapeUpdate.v ===== *)
(** An object with a shape of its own: [js_shape_prepare_update] and
    [add_property].

    Deleting properties: [delete_property] and [compact_properties]. *)
From Stdlib Require Import ZArith Lia.
From S2P Require Import Prelude Shapes ShapeTables ShapeChains ShapeRefs ShapeAdd ShapeObjects.
From stdpp Require Import base tactics numbers list gmap fin_sets.

Open Scope Z_scope.

(** What a shape says of its properties. *)
Definition layout (s : JSShape) : Z * Z * Z * Z * option optr * list JSShapeProperty * list Z :=
  (prop_hash_mask s, prop_size s, prop_count s, deleted_prop_count s, proto s, sh_prop s, prop_hash s).

Section Update.
Context `{OC : ObjectConfig}.
Implicit Types (rt : JSShapes) (O : gmap optr JSObject).

Lemma layout_view s s' (vs : list JSProperty) : layout s' = layout s -> (proto s', rows (num s') (sh_prop s') vs) = (proto s, rows (num s) (sh_prop s) vs) /\ prop_size s' = prop_size s.
Proof. intros [= _ H1 H2 _ H3 H4 _]. unfold num. rewrite H1, H2, H3, H4. auto. Qed.

(** The object [o] goes over to the shape [q], which has the same properties. *)
Lemma swap_spec ext rt rt1 d o ob q s0 s :
  heap ext rt -> objects rt !! o = Some ob -> shapes rt !! shape ob = Some s0 -> layout s = layout s0 -> prop_size s0 <= len (prop ob) -> objects rt1 = objects rt ->
  inv (upd (upd ext (shape ob) 1) q 1) rt1 (delete o (objects rt)) ->
  views_kept (core rt) (core rt1) (delete o (objects rt)) -> steps d rt rt1 -> core rt1 !! q = Some (strip s) -> q <> shape ob ->
  exists rt2, js_free_shape rt1 (shape ob) = mret rt2 /\
    let rt' := put_object rt2 o (MkObj q (prop ob)) in heap ext rt' /\ model rt' = model rt /\ steps d rt rt' /\ core rt' !! q = Some (strip s).
Proof.
  intros Hh Ho Hs0 Hlay Hl O1 I1 V1 S1 Hq Hne. pose proof (heap_ext_pos ext rt (shape ob) Hh) as Hp. destruct (layout_view s s0 (prop ob) (eq_sym Hlay)) as [Ev Ez].
  destruct (free_shape_spec _ rt1 _ (shape ob) I1) as (rt2 & -> & I2 & O2 & V2 & S2 & C2); [rewrite upd_ne, upd_eq by congruence; lia|]. exists rt2. split; [reflexivity|].
  assert (Hq2 : core rt2 !! q = Some (strip s)) by (rewrite C2 by exact Hne; exact Hq).
  destruct (heap_close ext _ rt rt2 o q (prop ob) s I2) as [K1 K2]; [|intros o' _; congruence|apply (views_trans _ (core rt1)); assumption|exact Hq2|lia|apply (heap_ext_pos ext rt q Hh)|].
  { intros x. unfold upd. repeat case_bool_decide; lia. }
  split; [exact K1|]. split; [|split; [|exact Hq2]].
  - rewrite K2, <- Ev. apply insert_id. destruct (heap_shape ext rt o ob Hh Ho) as (s1 & Hs1 & _ & _ & E1). rewrite Hs0 in Hs1. injection Hs1 as <-. rewrite (model_lookup rt o ob Ho), E1. reflexivity.
  - replace d with (d + 0) by lia. apply (steps_trans d 0 rt rt1); [lia|exact S1|]. intros k Hk Hr. apply (S2 k Hk) in Hr. exact Hr.
Qed.

Lemma strip_layout s s' : strip s = strip s' -> layout s = layout s' /\ is_hashed s = is_hashed s' /\ ref_count s = ref_count s' /\ sh_hash s = sh_hash s'.
Proof.
  intros H. change (layout (strip s) = layout (strip s') /\ is_hashed (strip s) = is_hashed (strip s') /\ ref_count (strip s) = ref_count (strip s') /\ sh_hash (strip s) = sh_hash (strip s')). rewrite H. auto.
Qed.

(** The object [o] has the same properties as before and the shape [s']. *)
Definition own_shape rt o ob s (P : JSShape -> Prop) : Prop :=
  exists p s', objects rt !! o = Some (MkObj p (prop ob)) /\ shapes rt !! p = Some s' /\ layout s' = layout s /\ ref_count s' = 1 /\ P s'.

Lemma own_shape_intro rt o ob s q s' (P : JSShape -> Prop) :
  objects rt !! o = Some (MkObj q (prop ob)) -> core rt !! q = Some (strip s') -> layout s' = layout s -> ref_count s' = 1 -> (forall x, strip x = strip s' -> P x) -> own_shape rt o ob s P.
Proof.
  intros Ho Hq Hl Hr HP. apply core_lookup in Hq. destruct Hq as (x & Hx & Ex). destruct (strip_layout s' x Ex) as (H1 & H2 & H3 & _). exists q, x. split; [exact Ho|]. split; [exact Hx|]. split; [congruence|]. split; [congruence|]. apply HP. congruence.
Qed.

Section Alloc.
Context (G : Prop) (E : exn -> Prop).

(** ** js_shape_prepare_update *)

Lemma unhash_spec ext rt o ob s :
  heap ext rt -> objects rt !! o = Some ob -> shapes rt !! shape ob = Some s -> is_hashed s = true -> ref_count s = 1 ->
  exists rt', (rt ← js_shape_hash_unlink rt (shape ob); sh ← shape_at rt (shape ob); mret (put_shape rt (shape ob) (set_hashed sh false (sh_hash sh)), 0)) = mret (rt', 0) /\
    heap ext rt' /\ model rt' = model rt /\ steps 0 rt rt' /\ own_shape rt' o ob s (fun s' => is_hashed s' = false).
Proof.
  intros Hh Ho Hs Hb Hr. destruct (unlink_loose ext rt _ (shape ob) s Hh Hs) as (rt1 & E1 & [HC1 HT1] & C1 & O1 & B1 & N1). rewrite Hb in E1. rewrite E1, ret_bind.
  assert (Hc1 : core rt1 !! shape ob = Some (strip s)) by (rewrite C1; apply lookup_core, Hs). pose proof Hc1 as Hx. apply core_lookup in Hx. destruct Hx as (s1 & Hs1 & Es1). destruct (strip_layout _ _ Es1) as (L1 & L2 & L3 & L4).
  rewrite (shape_at_spec rt1 _ s1 Hs1), ret_bind. set (s' := set_hashed s1 false (sh_hash s1)). set (rt' := put_shape rt1 (shape ob) s'). eexists. split; [reflexivity|].
  assert (Hok : shape_ok s1) by (apply (proj2 (shape_ok_strip s1)); rewrite <- Es1; apply (co_shape _ _ _ HC1 (shape ob)), Hc1).
  assert (C' : core rt' = <[shape ob := strip s']> (core rt)) by (unfold rt'; rewrite core_put, C1; reflexivity).
  assert (Hv : views_kept (core rt) (core rt') (objects rt)) by (rewrite C'; apply (views_insert _ _ (shape ob) (strip s1)); [rewrite <- C1, <- Es1; exact Hc1|reflexivity|reflexivity]).
  split; [split|split; [apply model_kept; assumption|split]].
  - rewrite C', <- C1. change (objects rt') with (objects rt1). rewrite O1. apply (core_ok_ext (upd ext (shape ob) 0)); [intros x; unfold upd; case_bool_decide; lia|].
    apply (core_update ext _ _ (shape ob) (strip s1)); [exact HC1|rewrite <- Es1; exact Hc1|apply (proj1 (shape_ok_strip s')), shape_ok_unhashed; [exact Hok|congruence]|reflexivity|cbn; lia|pose proof (heap_ext_pos ext rt (shape ob) Hh); lia|cbn; lia].
  - apply (table_put_free rt1 (shape ob) s' _ HT1); [set_solver|reflexivity|reflexivity].
  - apply (steps_insert rt rt' (shape ob) (strip s1) (strip s')); [exact B1|change (shape_hash_count rt') with (shape_hash_count rt1); destruct (is_hashed s); cbn in N1; lia|exact C'|rewrite <- C1, <- Es1; exact Hc1|cbn; lia].
  - exists (shape ob), s'. change (objects rt') with (objects rt1). rewrite O1. split; [destruct ob; exact Ho|]. split; [apply lookup_insert_eq|]. split; [symmetry; exact L1|]. split; [cbn; congruence|reflexivity].
Qed.

Definition prepared ext rt o ob s (q : JSShapes * Z) : Prop :=
  heap ext (fst q) /\ model (fst q) = model rt /\ steps 0 rt (fst q) /\ (snd q = 0 /\ own_shape (fst q) o ob s (fun s' => is_hashed s' = false) \/ snd q = -1 /\ ~ G).

Lemma prepare_update_spec ext rt o ob s :
  heap ext rt -> objects rt !! o = Some ob -> shapes rt !! shape ob = Some s -> gspec G (js_shape_prepare_update rt o) (prepared ext rt o ob s) E.
Proof.
  intros Hh Ho Hs. unfold js_shape_prepare_update. rewrite (object_at_spec rt o ob Ho), ret_bind, (shape_at_spec rt _ s Hs), ret_bind. destruct (heap_shape ext rt o ob Hh Ho) as (s0 & Hs0 & Hok & Hl & Ev). rewrite Hs in Hs0. injection Hs0 as <-.
  destruct (is_hashed s) eqn:Hb.
  2:{ apply gspec_ret. split; [exact Hh|]. split; [reflexivity|]. split; [apply steps_refl|]. left. split; [reflexivity|]. exists (shape ob), s. split; [destruct ob; exact Ho|]. pose proof (so_private _ Hok Hb). auto. }
  destruct (Z.eqb_spec (ref_count s) 1) as [Hr|Hr]; cbn [negb].
  { destruct (unhash_spec ext rt o ob s Hh Ho Hs Hb Hr) as (rt' & -> & K1 & K2 & K3 & K4). apply gspec_ret. split; [exact K1|]. split; [exact K2|]. split; [exact K3|]. left. auto. }
  pose proof (heap_open ext rt o ob Hh Ho) as HO. eapply gspec_bind; [apply (clone_spec G E _ rt _ (shape ob) s HO Hs)|]. intros [rt1 q] ((O1 & V1 & S1 & M1) & T1 & N1 & F1). cbn [fst snd] in *. destruct q as [q|].
  - destruct M1 as (I1 & s1 & Hs1 & Hr1 & ->). destruct (N1 q eq_refl) as [Hf1 Hp1]. assert (Hne : q <> shape ob) by (intros ->; rewrite (lookup_core rt _ s Hs) in Hf1; discriminate).
    destruct (swap_spec ext rt rt1 0 o ob q s (set_hashed (set_ref s 1) false (sh_hash s)) Hh Ho Hs eq_refl Hl O1 I1 V1 S1 (lookup_core rt1 q _ Hs1) Hne) as (rt2 & -> & K1 & K2 & K3 & K4). rewrite ret_bind. apply gspec_ret.
    split; [exact K1|]. split; [exact K2|]. split; [exact K3|]. left. split; [reflexivity|].
    apply (own_shape_intro _ o ob s q _ _ (lookup_insert_eq _ _ _) K4); [reflexivity|reflexivity|]. intros x Hx. apply strip_layout in Hx. apply Hx.
  - destruct M1 as (Hg & _). rewrite (F1 eq_refl) in *. apply gspec_ret. split; [exact Hh|]. split; [reflexivity|]. split; [exact S1|]. right. auto.
Qed.

(** ** add_property *)

(** [i] is the index of the property [atom] of [o]. *)
Definition prop_index rt o (i atom : Z) : Prop :=
  exists ob s j e, objects rt !! o = Some ob /\ shapes rt !! shape ob = Some s /\ i = Z.of_nat j /\ (j < num s)%nat /\ sh_prop s !! j = Some e /\ sp_atom e = atom.

Lemma prop_index_intro rt o q vs s n atom flags :
  objects rt !! o = Some (MkObj q vs) -> core rt !! q = Some (strip s) -> prop_count s = Z.of_nat n + 1 -> (fun e => key e) <$> sh_prop s !! n = Some (atom, flags) -> prop_index rt o (Z.of_nat n) atom.
Proof.
  intros Ho Hq Hn He. apply core_lookup in Hq. destruct Hq as (x & Hx & Ex). apply strip_layout in Ex. destruct Ex as ([= _ _ E1 _ _ E2 _] & _). destruct (sh_prop s !! n) as [e|] eqn:Ee; [|discriminate]. cbn in He. injection He as E3 E4.
  exists (MkObj q vs), x, n, e. split; [exact Ho|]. split; [exact Hx|]. split; [reflexivity|]. split; [unfold num; lia|]. split; [congruence|exact E3].
Qed.

Definition added ext rt (d : Z) o pr l atom flags (q : JSShapes * option Z) : Prop :=
  heap ext (fst q) /\ steps d rt (fst q) /\
  match snd q with
  | None => ~ G /\ model (fst q) = model rt
  | Some i => prop_index (fst q) o i atom /\ exists v, model (fst q) = <[o := (pr, l ++ [(atom, flags, v)])]> (model rt)
  end.

Lemma inv_fields ext rt rt' O : shapes rt' = shapes rt -> table_fields rt rt' -> inv ext rt O -> inv ext rt' O.
Proof. intros Es Tf [HC HT]. unfold inv, core. rewrite Es. split; [exact HC|]. apply (hash_ok_fields rt); assumption. Qed.

(** The object takes over the shape [q], which has one property more. *)
Lemma take_shape_spec ext rt rt1 o ob s q s' vs atom flags :
  heap ext rt -> objects rt !! o = Some ob -> shapes rt !! shape ob = Some s -> shape_ok s -> shapes rt !! q = Some s' -> is_hashed s' = true -> matchb s s' atom flags = true -> fresh_atom s atom ->
  prop_size s <= len (prop ob) -> shapes rt1 = shapes rt -> table_fields rt rt1 -> (forall o', o' <> o -> objects rt1 !! o' = objects rt !! o') -> objects rt1 !! o = Some (MkObj (shape ob) vs) -> extended (prop_size s') (prop ob) vs ->
  gspec G (rt ← js_dup_shape rt1 q; ob' ← object_at rt o; rt ← js_free_shape (put_object rt o (MkObj q (prop ob'))) (shape ob); mret (rt, Some (prop_count s' - 1)))
    (added ext rt 0 o (proto s) (rows (num s) (sh_prop s) (prop ob)) atom flags) E.
Proof.
  intros Hh Ho Hs Hok Hq Hhq Hm [Ha _] Hl S1 T1 O1 O1' [X1 X2]. destruct (matchb_keys s s' atom flags Hok Hm) as (M1 & M2 & M3 & M4). pose proof (so_count _ Hok) as Hcnt.
  assert (Hn : prop_count s = Z.of_nat (num s)) by (unfold num; lia). assert (Hok' : shape_ok s') by (apply (proj2 (shape_ok_strip s')), (co_shape _ _ _ (proj1 Hh) q), lookup_core, Hq). pose proof (so_count _ Hok') as Hcnt'.
  assert (Hne : q <> shape ob) by (intros ->; rewrite Hs in Hq; injection Hq as <-; lia). pose proof (inv_fields _ rt rt1 _ S1 T1 (heap_open ext rt o ob Hh Ho)) as I1.
  assert (Hq1 : shapes rt1 !! q = Some s') by (rewrite S1; exact Hq). destruct (dup_shape_spec _ rt1 _ q s' I1 Hq1 Hhq) as (-> & I2 & V2 & S2). rewrite ret_bind. set (rt2 := put_shape rt1 q _) in *.
  assert (C1 : core rt1 = core rt) by (unfold core; rewrite S1; reflexivity). rewrite (object_at_spec rt2 o (MkObj (shape ob) vs) O1'), ret_bind. cbn [prop].
  assert (Hq2 : core rt2 !! q = Some (strip (set_ref s' (ref_count s' + 1)))) by (apply lookup_core, lookup_insert_eq).
  destruct (heap_close (upd ext (shape ob) 1) _ rt rt2 o q vs (set_ref s' (ref_count s' + 1)) I2) as [K1 K2]; [reflexivity|exact O1|rewrite <- C1; exact V2|exact Hq2|exact X1|rewrite upd_ne by exact Hne; apply (heap_ext_pos ext rt q Hh)|].
  set (rt3 := put_object rt2 o (MkObj q vs)) in *. pose proof (heap_ext_pos ext rt (shape ob) Hh) as Hp. destruct (free_shape_spec _ rt3 _ (shape ob) K1 ltac:(rewrite upd_eq; lia)) as (rt4 & -> & I4 & O4 & V4 & S4 & C4).
  rewrite ret_bind. apply gspec_ret. split; [|split]; cbn [fst].
  - unfold heap. rewrite O4. revert I4. apply inv_ext. intros x. unfold upd. case_bool_decide; lia.
  - apply (steps_trans 0 0 rt rt3); [lia| |exact S4]. apply (steps_trans 0 0 rt rt1); [lia|apply steps_same; assumption|exact S2].
  - cbn [snd]. assert (num s' = S (num s)) as Hns by (unfold num; lia). destruct (value_at s' vs (num s) Hok' X1 ltac:(lia)) as [v Hv]. split.
    + replace (prop_count s' - 1) with (Z.of_nat (num s)) by lia. apply (prop_index_intro rt4 o q vs (set_ref s' (ref_count s' + 1)) (num s) atom flags); [rewrite O4; apply lookup_insert_eq|rewrite C4 by exact Hne; exact Hq2|cbn; lia|exact M4].
    + exists v. rewrite (model_kept rt3 rt4 O4 V4), K2. cbn [proto set_ref sh_prop]. change (num (set_ref s' (ref_count s' + 1))) with (num s'). rewrite M2, Hns.
      rewrite (rows_push (num s) (sh_prop s) (sh_prop s') (prop ob) vs atom flags v); [reflexivity|exact M3|intros i Hi; apply X2; unfold len in *; lia|exact M4|exact Hv|lia].
Qed.

(** A shared shape is copied first; the copy is in the table too. *)
Definition unshared ext rt o ob s (q : JSShapes * bool) : Prop :=
  heap ext (fst q) /\ model (fst q) = model rt /\ steps 1 rt (fst q) /\ (if snd q then own_shape (fst q) o ob s (fun _ => True) else ~ G).

Lemma unshare_spec ext rt o ob s :
  heap ext rt -> objects rt !! o = Some ob -> shapes rt !! shape ob = Some s -> shape_ok s -> prop_size s <= len (prop ob) ->
  gspec G (if is_hashed s && negb (ref_count s =? 1) then
             '(rt, q) ← js_clone_shape rt (shape ob);
             match q with
             | None => mret (rt, false)
             | Some q =>
                 s ← shape_at rt q;
                 rt ← js_shape_hash_link (put_shape rt q (set_hashed s true (sh_hash s))) q;
                 rt ← js_free_shape rt (shape ob);
                 mret (put_object rt o (MkObj q (prop ob)), true)
             end
           else mret (rt, true)) (unshared ext rt o ob s) E.
Proof.
  intros Hh Ho Hs Hok Hl. destruct (is_hashed s && negb (ref_count s =? 1)) eqn:Eb.
  - apply andb_true_iff in Eb. destruct Eb as [Hb _]. pose proof (heap_open ext rt o ob Hh Ho) as HO. eapply gspec_bind; [apply (clone_spec G E _ rt _ (shape ob) s HO Hs)|].
    intros [rt1 q] ((O1 & V1 & S1 & M1) & T1 & N1 & F1). cbn [fst snd] in *. destruct q as [q|].
    + destruct M1 as (I1 & s1 & Hs1 & Hr1 & E1). destruct (N1 q eq_refl) as [Hf1 Hp1]. assert (Hne : q <> shape ob) by (intros ->; rewrite (lookup_core rt _ s Hs) in Hf1; discriminate).
      rewrite (shape_at_spec rt1 q s1 Hs1), ret_bind. assert (E2 : set_hashed s1 true (sh_hash s1) = set_ref s 1) by (rewrite E1; destruct s; cbn in *; subst; reflexivity).
      destruct (link_shape_spec _ rt1 _ q s1 (sh_hash s1) I1 Hs1) as (rt2 & -> & I2 & O2 & C2 & V2 & S2); [rewrite E1; reflexivity|rewrite E2; apply shape_ok_ref; [exact Hok|reflexivity]|].
      rewrite ret_bind. rewrite E2 in C2. assert (Hq2 : core rt2 !! q = Some (strip (set_ref s 1))) by (rewrite C2; apply lookup_insert_eq).
      destruct (swap_spec ext rt rt2 1 o ob q s (set_ref s 1) Hh Ho Hs eq_refl Hl) as (rt3 & -> & K1 & K2 & K3 & K4);
        [congruence|exact I2|apply (views_trans _ (core rt1)); assumption|apply (steps_trans 0 1 rt rt1); [lia|exact S1|exact S2]|exact Hq2|exact Hne|].
      rewrite ret_bind. apply gspec_ret. split; [exact K1|]. split; [exact K2|]. split; [exact K3|]. apply (own_shape_intro _ o ob s q _ _ (lookup_insert_eq _ _ _) K4); auto.
    + destruct M1 as (Hg & _). rewrite (F1 eq_refl) in *. apply gspec_ret. split; [exact Hh|]. split; [reflexivity|]. split; [apply (steps_mono 0); [lia|exact S1]|exact Hg].
  - apply gspec_ret. split; [exact Hh|]. split; [reflexivity|]. split; [apply (steps_mono 0); [lia|apply steps_refl]|]. exists (shape ob), s. split; [destruct ob; exact Ho|]. split; [exact Hs|]. split; [reflexivity|]. split; [|exact I].
    destruct (is_hashed s) eqn:Eh; [|apply (so_private _ Hok Eh)]. cbn in Eb. destruct (Z.eqb_spec (ref_count s) 1); [assumption|discriminate].
Qed.

(** The shape of the object gets one property more. *)
Lemma extend_spec ext rt o p vs s atom flags :
  heap ext rt -> objects rt !! o = Some (MkObj p vs) -> shapes rt !! p = Some s -> ref_count s = 1 -> prop_count s + 1 < 2 ^ 26 -> fresh_atom s atom -> 0 <= flags < 64 ->
  gspec G ('(rt, q) ← add_shape_property rt p (Some o) atom flags;
           match q with
           | None => mret (rt, None)
           | Some q => ob ← object_at rt o; s ← shape_at rt q; mret (put_object rt o (MkObj q (prop ob)), Some (prop_count s - 1))
           end) (added ext rt 1 o (proto s) (rows (num s) (sh_prop s) vs) atom flags) E.
Proof.
  intros Hh Ho Hs Hr Hc Hfr Hf. destruct (heap_shape ext rt o _ Hh Ho) as (s0 & Hs0 & Hok & Hl & Ev). cbn [shape prop] in *. rewrite Hs in Hs0. injection Hs0 as <-. pose proof (so_count _ Hok) as Hcnt. pose proof (heap_ext_pos ext rt p Hh) as Hp.
  eapply gspec_bind; [apply (add_shape_property_spec G E (upd ext p 1) rt _ p s o (MkObj p vs) atom flags (heap_open ext rt o _ Hh Ho) Hs Hr); try assumption; rewrite upd_eq; lia|].
  intros [rt1 q] (O1 & V1 & S1 & M1). cbn [fst snd shape prop] in *. destruct q as [q|].
  - destruct M1 as (s0 & h & vs' & Hq & Hok0 & Ec & Epr & Hz & K & I1 & Ho1 & X1 & X2). rewrite (object_at_spec rt1 o _ Ho1), ret_bind. cbn [prop].
    pose proof Hq as Hx. apply core_lookup in Hx. destruct Hx as (s1 & Hs1 & Es1). rewrite (shape_at_spec rt1 q s1 Hs1), ret_bind. apply gspec_ret. assert (En : num s0 = num s) by (unfold num; rewrite Ec; reflexivity).
    assert (Hc1 : prop_count s1 = prop_count s0 + 1) by (apply (f_equal prop_count) in Es1; cbn in Es1; lia).
    destruct (heap_close ext _ rt rt1 o q vs' (extra s0 atom flags h) I1) as [K1 K2]; [intros x; unfold upd; repeat case_bool_decide; lia|exact O1|exact V1|exact Hq|exact X1|apply (heap_ext_pos ext rt q Hh)|].
    split; [exact K1|]. split; [exact S1|]. cbn [fst snd]. split.
    + replace (prop_count s1 - 1) with (Z.of_nat (num s0)) by (unfold num; lia). apply (prop_index_intro _ o q vs' (extra s0 atom flags h) (num s0) atom flags); [apply lookup_insert_eq|exact Hq|cbn; unfold num; lia|apply (extra_entry s0 atom flags h Hok0 Hz)].
    + destruct (extra_rows s0 atom flags h vs vs' Hok0 Hz (fresh_atom_keys s s0 atom Hfr En K) X1) as (v & Hv & Er); [unfold len in *; lia|intros i Hi; apply X2; unfold num, len in *; lia|].
      exists v. rewrite K2, Er. change (proto (extra s0 atom flags h)) with (proto s0). rewrite Epr, En, (same_keys_rows _ _ _ _ K). reflexivity.
  - destruct M1 as (Hg & I1 & C1 & vs' & Ho1 & X1 & X2). apply gspec_ret.
    destruct (heap_close ext _ rt rt1 o p vs' s I1) as [K1 K2]; [reflexivity|exact O1|exact V1|rewrite C1; apply lookup_core, Hs|exact X1|exact Hp|]. rewrite (put_object_id rt1 o _ Ho1) in K1, K2.
    split; [exact K1|]. split; [exact S1|]. cbn [snd fst]. split; [exact Hg|]. rewrite K2. apply insert_id. rewrite (model_lookup rt o _ Ho), Ev. do 2 f_equal. apply rows_ext. intros i Hi. unfold row_at. rewrite X2; [reflexivity| |]; unfold num, len in *; lia.
Qed.

Lemma add_property_spec ext rt o ob s atom flags :
  heap ext rt -> objects rt !! o = Some ob -> shapes rt !! shape ob = Some s -> fresh_atom s atom -> 0 <= flags < 64 -> room 2 rt ->
  gspec G (add_property rt o atom flags) (added ext rt 2 o (proto s) (rows (num s) (sh_prop s) (prop ob)) atom flags) E.
Proof.
  intros Hh Ho Hs Hfr Hf Hroom. destruct (heap_shape ext rt o ob Hh Ho) as (s0 & Hs0 & Hok & Hl & Ev). rewrite Hs in Hs0. injection Hs0 as <-.
  unfold add_property. rewrite (object_at_spec rt o ob Ho), ret_bind, (shape_at_spec rt _ s Hs), ret_bind.
  assert (exists r, (if is_hashed s then find_hashed_shape_prop rt (shape ob) atom flags else mret None) = mret r /\ (forall q, r = Some q -> exists s', shapes rt !! q = Some s' /\ is_hashed s' = true /\ matchb s s' atom flags = true)) as (r & -> & Hr).
  { destruct (is_hashed s) eqn:Hb; [|exists None; split; [reflexivity|discriminate]]. destruct (find_hashed_prop_spec ext rt _ (shape ob) s atom flags Hh Hs Hb Hok) as (r & -> & Hr). exists r. split; [reflexivity|]. intros q ->. exact Hr. }
  rewrite ret_bind. destruct r as [q|].
  - destruct (Hr q eq_refl) as (s' & Hq & Hhq & Hm). rewrite (shape_at_spec rt q s' Hq), ret_bind. assert (Hok' : shape_ok s') by (apply (proj2 (shape_ok_strip s')), (co_shape _ _ _ (proj1 Hh) q), lookup_core, Hq). pose proof (so_size _ Hok') as Hsz. unfold JS_PROP_INITIAL_SIZE in Hsz.
    eapply gspec_bind with (R := fun x : JSShapes * bool => if snd x then shapes (fst x) = shapes rt /\ table_fields rt (fst x) /\ (forall o', o' <> o -> objects (fst x) !! o' = objects rt !! o') /\
        exists vs, objects (fst x) !! o = Some (MkObj (shape ob) vs) /\ extended (prop_size s') (prop ob) vs else fst x = rt /\ ~ G).
    + destruct (Z.eqb_spec (prop_size s') (prop_size s)) as [Ez|Ez]; cbn [negb].
      * apply gspec_ret. cbn. repeat (split; [reflexivity || (repeat split)|]). exists (prop ob). split; [destruct ob; exact Ho|]. split; [lia|auto].
      * eapply gspec_bind; [apply gspec_try_alloc|]. intros ok Hg. destruct ok; cbn [negb]; apply gspec_ret; cbn [fst snd]; [|auto].
        split; [reflexivity|]. split; [repeat split|]. split; [intros o' Hne; apply lookup_insert_ne; congruence|]. eexists. split; [apply lookup_insert_eq|]. apply realloc_extended; lia.
    + intros [rt1 ok] H1. cbn [fst snd] in H1. destruct ok; cbn [negb].
      * destruct H1 as (S1 & T1 & O1 & vs & Hv & Hx). eapply gspec_mono; [apply (take_shape_spec ext rt rt1 o ob s q s' vs atom flags); assumption| |auto].
        intros x (K1 & K2 & K3). split; [exact K1|]. split; [apply (steps_mono 0); [lia|exact K2]|exact K3].
      * destruct H1 as [-> Hg]. apply gspec_ret. split; [exact Hh|]. split; [apply (steps_mono 0); [lia|apply steps_refl]|]. split; [exact Hg|reflexivity].
  - eapply gspec_bind; [apply (unshare_spec ext rt o ob s); assumption|]. intros [rt1 ok] (K1 & K2 & K3 & K4). cbn [fst snd] in *. destruct ok; cbn [negb].
    + destruct K4 as (p & s1 & Ho1 & Hs1 & L1 & Hr1 & _). rewrite (object_at_spec rt1 o _ Ho1), ret_bind. cbn [shape]. rewrite (shape_at_spec rt1 p s1 Hs1), ret_bind, Hr1. cbn [Z.eqb Pos.eqb negb].
      destruct (layout_view s s1 (prop ob) L1) as [Ev1 _]. injection L1 as L1 L2 L3 L4 L5 L6 L7. assert (Hfr1 : fresh_atom s1 atom) by (unfold fresh_atom, num; rewrite L6, L3; exact Hfr).
      destruct Hroom as (_ & _ & _ & Hroom). specialize (Hroom _ _ (lookup_core rt _ s Hs)). cbn in Hroom.
      eapply gspec_mono; [apply (extend_spec ext rt1 o p (prop ob) s1 atom flags K1 Ho1 Hs1 Hr1); [lia|exact Hfr1|exact Hf]| |auto].
      injection Ev1 as -> ->. intros x (J1 & J2 & J3). rewrite K2 in J3. split; [exact J1|]. split; [apply (steps_trans 1 1 rt rt1); [lia|exact K3|exact J2]|exact J3].
    + apply gspec_ret. split; [exact K1|]. split; [apply (steps_mono 1); [lia|exact K3]|]. split; [exact K4|exact K2].
Qed.

End Alloc.
End Update.

(** ** Rows of live entries *)

Section Live.
Context {V : Type} (ps : list JSShapeProperty) (vs : list V).

Lemma rows_length n : (forall i, (i < n)%nat -> exists e v, ps !! i = Some e /\ vs !! i = Some v /\ live e = true) -> length (rows n ps vs) = n.
Proof.
  induction n as [|n IH]; intros H; [reflexivity|]. destruct (H n ltac:(lia)) as (e & v & He & Hv & Hl). cbn [rows]. rewrite length_app, IH by (intros; apply H; lia).
  rewrite (row_at_some ps vs n e v He Hv). unfold row_of. rewrite Hl. cbn. lia.
Qed.

Lemma rows_lookup n k e v :
  (forall i, (i < n)%nat -> exists e v, ps !! i = Some e /\ vs !! i = Some v /\ live e = true) -> (k < n)%nat -> ps !! k = Some e -> vs !! k = Some v -> rows n ps vs !! k = Some (sp_atom e, sp_flags e, v).
Proof.
  induction n as [|n IH]; intros H Hk He Hv; [lia|]. cbn [rows]. assert (Hn : length (rows n ps vs) = n) by (apply rows_length; intros; apply H; lia). destruct (decide (k = n)) as [->|].
  - rewrite lookup_app_r, Hn, Nat.sub_diag by lia. rewrite (row_at_some ps vs n e v He Hv). destruct (H n ltac:(lia)) as (e' & v' & He' & _ & Hl). rewrite He in He'. injection He' as <-. unfold row_of. rewrite Hl. reflexivity.
  - rewrite lookup_app_l by lia. apply IH; [intros; apply H; lia|lia|exact He|exact Hv].
Qed.

Lemma distinct_nodup n : distinct n ps -> NoDup ((fun r => fst (fst r)) <$> rows n ps vs).
Proof.
  induction n as [|n IH]; intros D; [constructor|]. cbn [rows]. rewrite fmap_app. apply NoDup_app. split; [apply IH; intros i j e e' Hi Hj; apply D; lia|]. split.
  - intros a Ha Hb. apply list_elem_of_fmap in Ha, Hb. destruct Ha as (r & -> & Hr), Hb as (r' & E' & Hr'). apply rows_elem in Hr. destruct Hr as (i & e & v & Hi & He & Hv & Hl & ->). cbn in E'.
    unfold row_at, row_of in Hr'. destruct (ps !! n) as [e'|] eqn:En, (vs !! n) as [v'|]; try (inversion Hr'; fail). destruct (live e'); [|inversion Hr']. apply list_elem_of_singleton in Hr'. subst r'. cbn in E'.
    specialize (D i n e e' ltac:(lia) ltac:(lia) He En Hl E'). lia.
  - unfold row_at, row_of. destruct (ps !! n) as [e|], (vs !! n) as [v|]; try constructor. destruct (live e); [apply NoDup_singleton|constructor].
Qed.

Lemma nodup_distinct n :
  (forall i, (i < n)%nat -> exists e v, ps !! i = Some e /\ vs !! i = Some v /\ live e = true) -> NoDup ((fun r => fst (fst r)) <$> rows n ps vs) -> distinct n ps.
Proof.
  intros H Hd i j e e' Hi Hj He He' _ Ea. destruct (H i Hi) as (? & v & _ & Hv & _), (H j Hj) as (? & v' & _ & Hv' & _). eapply (NoDup_lookup _ _ _ (sp_atom e) Hd).
  - rewrite list_lookup_fmap, (rows_lookup n i e v H Hi He Hv). reflexivity.
  - rewrite list_lookup_fmap, (rows_lookup n j e' v' H Hj He' Hv'), Ea. reflexivity.
Qed.

End Live.

Lemma hash_size_down_spec size fuel : forall k, 0 <= k <= 30 -> 1 <= size -> k < Z.of_nat fuel -> exists k', hash_size_down fuel (2 ^ k) size = mret (2 ^ k') /\ 0 <= k' <= k.
Proof.
  induction fuel as [|fuel IH]; intros k Hk Hs Hf; [lia|]. cbn [hash_size_down]. destruct (Z.leb_spec size (2 ^ k / 2)) as [Hle|]; [|exists k; auto with lia].
  assert (k <> 0) by (intros ->; change (2 ^ 0 / 2) with 0 in Hle; lia). assert (Eq : 2 ^ k / 2 = 2 ^ (k - 1)) by (replace k with (k - 1 + 1) at 1 by lia; rewrite Z.pow_add_r, Z.div_mul by lia; reflexivity).
  rewrite Eq. destruct (IH (k - 1) ltac:(lia) Hs ltac:(lia)) as (k' & -> & H'). exists k'. split; [reflexivity|lia].
Qed.

Section Delete.
Context `{OC : ObjectConfig}.
Implicit Types (rt : JSShapes) (O : gmap optr JSObject).

(** ** The shape without the entry [i] *)

Definition cleared (i : nat) (ps ps' : list JSShapeProperty) : Prop :=
  length ps' = length ps /\ (forall j, j <> i -> (fun e => key e) <$> ps !! j = (fun e => key e) <$> ps' !! j) /\ exists n, ps' !! i = Some (MkSP n 0 0).

Lemma cleared_ok s i e ps' ht' :
  shape_ok s -> is_hashed s = false -> (i < num s)%nat -> sh_prop s !! i = Some e -> live e = true -> cleared i (sh_prop s) ps' -> table_ok (prop_hash_mask s) (num s) ps' ht' ->
  shape_ok (set_props s (prop_count s) (deleted_prop_count s + 1) ps' ht').
Proof.
  intros Hok Hh Hi He Hl (L & K & n & Hn) T. assert (Kl : forall j e', j <> i -> ps' !! j = Some e' -> exists e0, sh_prop s !! j = Some e0 /\ sp_atom e0 = sp_atom e' /\ sp_flags e0 = sp_flags e').
  { intros j e' Hne He'. specialize (K j Hne). rewrite He' in K. destruct (sh_prop s !! j) as [e0|]; [|discriminate]. cbn in K. injection K as K1 K2. eauto. }
  split; unfold num in *; cbn [prop_count prop_size sh_prop prop_hash_mask prop_hash deleted_prop_count sh_hash is_hashed proto set_props ref_count]; try assumption; try apply Hok; try congruence.
  - rewrite <- (so_len _ Hok). unfold len. rewrite L. reflexivity.
  - intros j e' Hj He'. destruct (decide (j = i)) as [->|Hne]; [rewrite Hn in He'; injection He' as <-; unfold entry_ok; cbn; lia|].
    destruct (Kl j e' Hne He') as (e0 & H0 & E1 & E2). unfold entry_ok. rewrite <- E1, <- E2. apply (so_entries _ Hok j e0 Hj H0).
  - intros j k e1 e2 Hj Hk H1 H2 Hl1 E12. destruct (decide (j = i)) as [->|Hj']; [rewrite Hn in H1; injection H1 as <-; discriminate|]. destruct (Kl j e1 Hj' H1) as (a & A1 & A2 & _).
    destruct (decide (k = i)) as [->|Hk']; [rewrite Hn in H2; injection H2 as <-; unfold live in Hl1; rewrite E12 in Hl1; discriminate|]. destruct (Kl k e2 Hk' H2) as (b & B1 & B2 & _).
    apply (so_distinct _ Hok j k a b); try assumption; [unfold live in *; rewrite A2; exact Hl1|congruence].
  - rewrite (so_deleted _ Hok). unfold num. pose proof (lives_delete _ (sh_prop s) i e (MkSP n 0 0) Hi He Hl eq_refl) as D. rewrite (lives_ext _ ps' (<[i := MkSP n 0 0]> (sh_prop s))); [lia|].
    intros j Hj. destruct (decide (j = i)) as [->|Hne]; [rewrite Hn, list_lookup_insert_eq by (apply lookup_lt_is_Some; eauto); reflexivity|]. rewrite list_lookup_insert_ne by congruence.
    specialize (K j Hne). destruct (sh_prop s !! j), (ps' !! j); try discriminate; [cbn in *; congruence|reflexivity].
Qed.

Lemma cleared_rows s i e ps' (vs : list JSProperty) u :
  shape_ok s -> prop_size s <= len vs -> (i < num s)%nat -> sh_prop s !! i = Some e -> live e = true -> cleared i (sh_prop s) ps' ->
  rows (num s) ps' (<[i := u]> vs) = filter (fun r => ~ has_atom (sp_atom e) r) (rows (num s) (sh_prop s) vs).
Proof.
  intros Hok Hvs Hi He Hl (L & K & n & Hn). apply rows_filter. intros j Hj. destruct (value_at s vs j Hok Hvs Hj) as [v Hv]. destruct (decide (j = i)) as [->|Hne].
  - rewrite (row_at_some _ _ i e v He Hv). unfold row_at. rewrite Hn, list_lookup_insert_eq by (apply lookup_lt_is_Some; eauto). unfold row_of. rewrite Hl. cbn [live sp_atom Z.eqb negb].
    rewrite filter_cons_False by (intros Hx; apply Hx; reflexivity). reflexivity.
  - unfold row_at. rewrite list_lookup_insert_ne, Hv by congruence. specialize (K j Hne). destruct (sh_prop s !! j) as [e0|] eqn:E0, (ps' !! j) as [e'|]; try discriminate; [|reflexivity]. cbn in K. injection K as K1 K2.
    unfold row_of, live. rewrite <- K1, <- K2. destruct (Z.eqb_spec (sp_atom e0) 0) as [|N0]; [reflexivity|]. cbn [negb]. rewrite filter_cons_True; [reflexivity|].
    unfold has_atom. cbn. intros E1. apply Hne. symmetry. apply (so_distinct _ Hok i j e e0); try assumption. congruence.
Qed.

(** The links of [delete_property]. *)
Lemma unlink_entry s i e lpr :
  shape_ok s -> (i < num s)%nat -> sh_prop s !! i = Some e -> live e = true -> pred_of (sh_prop s) (prop_hash_mask s) (Z.land (sp_atom e) (prop_hash_mask s)) (num s) (Z.of_nat i) lpr ->
  exists ps1 ht1,
    match lpr with
    | Some k => l ← tab_get (sh_prop s) k; ps ← tab_set (sh_prop s) k (MkSP (sp_next e) (sp_flags l) (sp_atom l)); mret (ps, prop_hash s)
    | None => ht ← tab_set (prop_hash s) (Z.land (sp_atom e) (prop_hash_mask s)) (sp_next e); mret (sh_prop s, ht)
    end = mret (ps1, ht1) /\ length ps1 = length (sh_prop s) /\
    table_ok (prop_hash_mask s) (num s) (<[i := MkSP (sp_next e) 0 0]> ps1) ht1 /\ cleared i (sh_prop s) (<[i := MkSP (sp_next e) 0 0]> ps1).
Proof.
  intros Hok Hi He Hl Hp. destruct (so_entries _ Hok i e Hi He) as [_ [Ha _]]. pose proof (num_len s Hok) as Hnl. pose proof (so_table _ Hok) as T. destruct lpr as [k|].
  - pose proof Hp as (j & l & -> & Hj & Hij & Hlk & _). rewrite (tab_get_lookup _ _ l), ret_bind by (rewrite ?Nat2Z.id; lia || exact Hlk).
    unfold tab_set. rewrite (proj2 (Z.leb_le 0 _)), (proj2 (Z.ltb_lt _ _)) by (unfold len; lia). cbn [andb]. rewrite ret_bind, Nat2Z.id. eexists _, _. split; [reflexivity|]. split; [apply length_insert|].
    split; [apply (table_delete_mid _ _ _ _ i e j l T); assumption|]. split; [rewrite !length_insert; reflexivity|]. split; [|eexists; apply list_lookup_insert_eq; rewrite length_insert; lia].
    intros j' Hne. rewrite list_lookup_insert_ne by congruence. destruct (decide (j' = j)) as [->|]; [rewrite list_lookup_insert_eq, Hlk by lia; reflexivity|rewrite list_lookup_insert_ne by congruence; reflexivity].
  - pose proof (prop_bucket_range _ _ _ _ (sp_atom e) T Ha) as Hb. pose proof (to_len _ _ _ _ T) as Hlen. unfold tab_set. rewrite (proj2 (Z.leb_le 0 _)), (proj2 (Z.ltb_lt _ _)) by lia. cbn [andb]. rewrite ret_bind.
    eexists _, _. split; [reflexivity|]. split; [reflexivity|]. split; [apply (table_delete_head _ _ _ _ i e T); assumption|]. split; [rewrite length_insert; reflexivity|].
    split; [|eexists; apply list_lookup_insert_eq; lia]. intros j' Hne. rewrite list_lookup_insert_ne by congruence. reflexivity.
Qed.

(** ** An object and the shape only it has *)

Section Own.
Context (ext : sptr -> Z) (rt : JSShapes) (o : optr) (p : sptr) (vs : list JSProperty) (s : JSShape).
Context (Hh : heap ext rt) (Ho : objects rt !! o = Some (MkObj p vs)) (Hs : shapes rt !! p = Some s) (Hb : is_hashed s = false).

Lemma own_ok : shape_ok s /\ prop_size s <= len vs /\ ref_count s = 1 /\ model rt !! o = Some (proto s, rows (num s) (sh_prop s) vs).
Proof.
  destruct (heap_shape ext rt o _ Hh Ho) as (s0 & Hs0 & Hok & Hl & Ev). cbn [shape prop] in *. rewrite Hs in Hs0. injection Hs0 as <-. rewrite (model_lookup rt o _ Ho), Ev. pose proof (so_private _ Hok Hb). auto.
Qed.

Local Lemma own_free : p ∉ hashed (core rt) /\ holders (delete o (objects rt)) p = 0%nat.
Proof.
  split; [apply not_hashed; congruence|]. destruct own_ok as (_ & _ & Hr & _). pose proof (heap_ext_pos ext rt p Hh).
  eapply (holders_unshared _ _ _ p (strip s) (proj1 (heap_open ext rt o _ Hh Ho)) (lookup_core rt p s Hs) Hr). cbn [shape]. rewrite upd_eq. lia.
Qed.

(** The shape changes in place. *)
Lemma own_update s' vs' rt' :
  shape_ok s' -> is_hashed s' = false -> prop_size s' = prop_size s -> prop_count s' <= prop_count s -> prop_size s <= len vs' ->
  shapes rt' = <[p := s']> (shapes rt) -> table_fields rt rt' -> objects rt' = <[o := MkObj p vs']> (objects rt) ->
  heap ext rt' /\ steps 0 rt rt' /\ model rt' = <[o := (proto s', rows (num s') (sh_prop s') vs')]> (model rt).
Proof.
  intros Hok' Hb' Hz Hc Hl' Es Tf Eo. destruct own_ok as (Hok & Hl & Hr & _), own_free as [Hp H0]. pose proof (so_private _ Hok' Hb') as Hr'. pose proof (heap_open ext rt o _ Hh Ho) as [HC HT]. cbn [shape] in *. pose proof (heap_ext_pos ext rt p Hh).
  assert (C' : core rt' = <[p := strip s']> (core rt)) by (unfold core; rewrite Es, fmap_insert; reflexivity). pose proof (lookup_core rt p s Hs) as Hcs.
  assert (I' : inv (upd ext p 1) rt' (delete o (objects rt))).
  { split.
    - rewrite C'. apply (core_ok_ext (upd (upd ext p 1) p 0)); [intros x; unfold upd; case_bool_decide; lia|]. apply (core_update _ _ _ p (strip s)); [exact HC|exact Hcs|apply (proj1 (shape_ok_strip s')), Hok'|exact Hz|cbn; lia|rewrite upd_eq; lia|cbn; lia].
    - assert (C'' : core (put_shape rt p s') = core rt') by (rewrite C'; apply core_put). rewrite <- C''. apply (hash_ok_fields (put_shape rt p s')); [exact Es|exact Tf|]. apply (table_put_free rt p s' _ HT); [exact Hp|set_solver|exact Hb']. }
  destruct (heap_close ext _ rt rt' o p vs' s' I') as [K1 K2]; [reflexivity|intros o' Hne; rewrite Eo; apply lookup_insert_ne; congruence| |rewrite C'; apply lookup_insert_eq|lia|lia|].
  - rewrite C'. apply (views_away _ _ _ _ HC). intros q Hq. apply lookup_insert_ne. congruence.
  - rewrite put_object_id in K1, K2 by (rewrite Eo; apply lookup_insert_eq). split; [exact K1|]. split; [|exact K2]. destruct Tf as (F1 & _ & F3 & _). apply (steps_insert rt rt' p (strip s) (strip s')); [exact F1|lia|exact C'|exact Hcs|exact Hc].
Qed.

(** The shape moves. *)
Lemma own_move q s' vs' rt' :
  core rt !! q = None -> shape_ok s' -> is_hashed s' = false -> prop_count s' <= prop_count s -> prop_size s' <= len vs' ->
  shapes rt' = <[q := s']> (delete p (shapes rt)) -> table_fields rt rt' -> objects rt' = <[o := MkObj q vs']> (objects rt) ->
  heap ext rt' /\ steps 0 rt rt' /\ model rt' = <[o := (proto s', rows (num s') (sh_prop s') vs')]> (model rt).
Proof.
  intros Hq Hok' Hb' Hc Hl' Es Tf Eo. destruct own_ok as (Hok & Hl & Hr & _), own_free as [Hp H0]. pose proof (so_private _ Hok' Hb') as Hr'. pose proof (heap_open ext rt o _ Hh Ho) as [HC HT]. cbn [shape] in *.
  pose proof (heap_ext_pos ext rt p Hh). pose proof (heap_ext_pos ext rt q Hh).
  assert (C' : core rt' = <[q := strip s']> (delete p (core rt))) by (unfold core; rewrite Es, fmap_insert, fmap_delete; reflexivity). pose proof (lookup_core rt p s Hs) as Hcs. assert (Hqp : q <> p) by congruence.
  assert (Hnq : q ∉ hashed (core rt)) by (intros Hx; apply elem_of_hashed in Hx; destruct Hx as (sh & Hx & _); congruence).
  assert (I' : inv (upd ext q 1) rt' (delete o (objects rt))).
  { split.
    - rewrite C'. apply (core_ok_ext (upd (upd (upd ext p 1) p (-1)) q 1)); [intros x; unfold upd; repeat case_bool_decide; lia|].
      apply (core_move _ _ _ p q (strip s)); [exact HC|exact Hcs|exact Hr|rewrite upd_eq; lia|exact Hq|apply (proj1 (shape_ok_strip s')), Hok'|exact Hr'].
    - rewrite C', hashed_insert, hashed_delete. cbn [is_hashed strip]. change (is_hashed (strip s')) with (is_hashed s'). rewrite Hb'. replace ((hashed (core rt) ∖ {[p]}) ∖ {[q]}) with (hashed (core rt)) by set_solver.
      apply (hash_ok_fields (with_shapes rt (<[q := s']> (delete p (shapes rt))))); [exact Es|exact Tf|]. apply hash_ok_shapes; [exact HT|]. intros x sx Hx Hsx. exists sx. rewrite lookup_insert_ne, lookup_delete_ne by congruence. auto. }
  destruct (heap_close ext _ rt rt' o q vs' s' I') as [K1 K2]; [reflexivity|intros o' Hne; rewrite Eo; apply lookup_insert_ne; congruence| |rewrite C'; apply lookup_insert_eq|lia|lia|].
  - rewrite C'. apply (views_away _ _ _ _ HC). intros x Hx. assert (x <> q) by (intros ->; rewrite (holders_absent _ _ _ q HC Hq) in Hx; congruence). rewrite lookup_insert_ne, lookup_delete_ne by congruence. reflexivity.
  - rewrite put_object_id in K1, K2 by (rewrite Eo; apply lookup_insert_eq). split; [exact K1|]. split; [|exact K2]. destruct Tf as (F1 & _ & F3 & _). apply steps_of; [lia|exact F1|lia|].
    intros x sh Hx. rewrite C' in Hx. right. apply lookup_insert_Some in Hx. destruct Hx as [[_ <-]|[_ Hx]]; [exists p, (strip s); split; [exact Hcs|cbn; lia]|]. apply lookup_delete_Some in Hx. exists x, sh. split; [apply Hx|lia].
Qed.

End Own.

(** ** compact_properties *)

(** The new table and values. *)
Lemma compact_table s k k' (vs : list JSProperty) :
  shape_ok s -> is_hashed s = false -> prop_size s <= len vs -> prop_hash_mask s = 2 ^ k - 1 -> 0 <= k' <= k -> k <= 30 ->
  let live := Z.of_nat (lives (num s) (sh_prop s)) in
  let new_size := Z.max JS_PROP_INITIAL_SIZE live in
  exists ps ht vs',
    compact_loop (take (num s) (sh_prop s)) (raw_entry <$> seq 0 (Z.to_nat new_size)) (replicate (Z.to_nat (2 ^ k')) 0) (2 ^ k' - 1) 0 0 vs = mret (ps, ht, vs', live) /\
    length vs' = length vs /\ shape_ok (set_layout s (2 ^ k' - 1) new_size live 0 ps ht) /\ rows (Z.to_nat live) ps vs' = rows (num s) (sh_prop s) vs.
Proof.
  intros Hok Hb Hl Em Hk Hk30 live new_size. pose proof (num_len s Hok) as Hnl. pose proof (so_count _ Hok) as Hcnt. pose proof (so_small _ Hok) as Hsm. pose proof (so_size _ Hok) as Hsz. pose proof (so_len _ Hok) as Hlen.
  set (old := take (num s) (sh_prop s)). assert (Lo : length old = num s) by (unfold old; rewrite length_take; lia). assert (Hold : forall i, (i < num s)%nat -> old !! i = sh_prop s !! i) by (intros i Hi; apply lookup_take_lt, Hi).
  assert (Ll : lives (length old) old = lives (num s) (sh_prop s)) by (rewrite Lo; apply lives_ext; intros i Hi; rewrite Hold by exact Hi; reflexivity).
  assert (Er : rows (length old) old vs = rows (num s) (sh_prop s) vs) by (rewrite Lo; apply rows_ext; intros i Hi; unfold row_at; rewrite Hold by exact Hi; reflexivity).
  pose proof (lives_le (num s) (sh_prop s)) as Hle. unfold JS_PROP_INITIAL_SIZE in *. assert (Hns : live <= new_size <= prop_size s) by (unfold new_size, live; unfold num in *; lia).
  assert (Hlp : length (raw_entry <$> seq 0 (Z.to_nat new_size)) = Z.to_nat new_size) by (rewrite length_fmap, length_seq; reflexivity).
  destruct (compact_loop_spec (2 ^ k' - 1) old vs old 0 (raw_entry <$> seq 0 (Z.to_nat new_size)) (replicate (Z.to_nat (2 ^ k')) 0) vs) as (ps & ht & vs' & E1 & T & L1 & L2 & R & A);
    [reflexivity|lia|apply table_empty; [lia|reflexivity]|rewrite Ll, Hlp; unfold live in Hns; lia|unfold num in *; lia|unfold num, len in *; lia| |reflexivity|reflexivity|intros j e Hj; cbn in Hj; lia|].
  { intros j e Hj. assert (j < num s)%nat by (rewrite <- Lo; apply lookup_lt_is_Some; eauto). rewrite Hold in Hj by assumption. apply (so_entries _ Hok j e); assumption. }
  rewrite Ll in *. rewrite Er in R. fold live in E1. exists ps, ht, vs'. split; [exact E1|]. split; [exact L2|]. assert (En : Z.to_nat live = lives (num s) (sh_prop s)) by (unfold live; lia). rewrite En. split; [|exact R].
  assert (2 ^ k' <= 2 ^ k) by (apply Z.pow_le_mono_r; lia). assert (2 ^ k <= 2 ^ 30) by (apply Z.pow_le_mono_r; lia).
  assert (Hall : forall i, (i < lives (num s) (sh_prop s))%nat -> exists e v, ps !! i = Some e /\ vs' !! i = Some v /\ ShapeTables.live e = true).
  { intros i Hi. destruct (lookup_lt_is_Some_2 ps i) as [e He]; [unfold live in Hns; lia|]. destruct (lookup_lt_is_Some_2 vs' i) as [v Hv]; [unfold num, len in *; lia|]. exists e, v. split; [exact He|]. split; [exact Hv|]. apply (A i e Hi He). }
  split; unfold num; cbn [prop_count prop_size sh_prop prop_hash_mask prop_hash deleted_prop_count sh_hash is_hashed proto set_layout ref_count]; rewrite ?En; try apply Hok; try assumption; try congruence; try lia.
  - unfold num in *. lia.
  - unfold JS_PROP_INITIAL_SIZE. lia.
  - unfold len. lia.
  - intros i e Hi He. apply (A i e Hi He).
  - apply (nodup_distinct ps vs' _ Hall). rewrite R. apply distinct_nodup, (so_distinct _ Hok).
  - rewrite lives_full; [unfold live; lia|unfold live in Hns; lia|]. intros i e Hi He. apply (A i e Hi He).
Qed.

Lemma compact_properties_spec (G : Prop) E ext rt o p vs s :
  heap ext rt -> objects rt !! o = Some (MkObj p vs) -> shapes rt !! p = Some s -> is_hashed s = false ->
  gspec G (compact_properties rt o) (fun q => heap ext (fst q) /\ steps 0 rt (fst q) /\ model (fst q) = model rt) E.
Proof.
  intros Hh Ho Hs Hb. destruct (own_ok ext rt o p vs s Hh Ho Hs Hb) as (Hok & Hl & Hr & Hm). pose proof (so_count _ Hok) as Hcnt. pose proof (so_size _ Hok) as Hsz. pose proof (so_len _ Hok) as Hlen. pose proof (lives_le (num s) (sh_prop s)) as Hle.
  assert (Hlv : prop_count s - deleted_prop_count s = Z.of_nat (lives (num s) (sh_prop s))) by (rewrite (so_deleted _ Hok); lia).
  unfold compact_properties. rewrite (object_at_spec rt o _ Ho), ret_bind. cbn [shape prop]. rewrite (shape_at_spec rt p s Hs), ret_bind, Hb. cbv zeta. rewrite Hlv.
  unfold JS_PROP_INITIAL_SIZE in Hsz. set (new_size := Z.max JS_PROP_INITIAL_SIZE (Z.of_nat (lives (num s) (sh_prop s)))). assert (Hns : 2 <= new_size <= prop_size s) by (unfold new_size, JS_PROP_INITIAL_SIZE, num in *; lia).
  rewrite (proj2 (Z.ltb_ge (prop_size s) new_size)) by lia. destruct (to_mask _ _ _ _ (so_table _ Hok)) as (k & Hk & Em). pose proof (so_mask _ Hok) as Hmk. assert (k <= 30) by (apply (Z.pow_le_mono_r_iff 2); lia).
  rewrite Em. replace (2 ^ k - 1 + 1) with (2 ^ k) by lia. destruct (hash_size_down_spec new_size 33 k ltac:(lia) ltac:(lia) ltac:(lia)) as (k' & -> & Hk'). rewrite ret_bind.
  eapply gspec_bind; [apply gspec_try_alloc|]. intros ok _. destruct ok; cbn [negb]; [|apply gspec_ret; split; [exact Hh|]; split; [apply steps_refl|reflexivity]].
  unfold tab_slice. rewrite !(proj2 (Z.leb_le _ _)) by lia. cbn [andb]. rewrite ret_bind. change (Z.to_nat 0) with 0%nat. rewrite drop_0. fold (num s).
  destruct (compact_table s k k' vs Hok Hb Hl Em Hk' ltac:(lia)) as (ps & ht & vs' & E1 & L & Hok' & R). cbv zeta in E1, Hok'. fold new_size in E1, Hok'. rewrite E1, ret_bind, Z.eqb_refl. cbn [negb].
  eapply gspec_bind; [apply gspec_try_alloc|]. intros ok _. apply gspec_ret. cbn [fst]. set (s' := set_layout _ _ _ _ _ _ _) in *. set (vs2 := if ok then realloc_props vs' new_size else vs').
  assert (Hx : extended new_size vs' vs2). { unfold vs2. destruct ok; [apply realloc_extended; lia|]. split; [unfold len in *; lia|auto]. } destruct Hx as [X1 X2].
  destruct (own_move ext rt o p vs s Hh Ho Hs Hb (new_sptr rt) s' vs2 (put_object (with_shapes rt (<[new_sptr rt := s']> (delete p (shapes rt)))) o (MkObj (new_sptr rt) vs2)) (new_sptr_fresh rt) Hok' Hb) as (K1 & K2 & K3);
    [cbn; unfold num in *; lia|exact X1|reflexivity|repeat split|reflexivity|].
  split; [exact K1|]. split; [exact K2|]. rewrite K3. apply insert_id. rewrite Hm. do 2 f_equal. rewrite <- R. unfold num at 2. cbn [s' set_layout proto sh_prop prop_count]. symmetry. apply rows_ext. intros i Hi. unfold row_at. rewrite X2; [reflexivity| |]; unfold new_size, num, len in *; lia.
Qed.

End Delete.
