(* ===== verification/ShapeProps.v ===== *)
(** The operations on the properties of an object, seen on its rows.

    Sequences of operations on objects against objects as ordered maps.

    The abstract state has, for every object, its prototype and its properties in
    the order of their creation; it knows nothing of shapes.  [astep] is one
    operation on it.  [run1] is the same operation on shapes: it looks the property
    up before it adds one, as the callers of [add_property] do. *)
From Stdlib Require Import ZArith Lia.
From S2P Require Import Prelude Shapes ShapeTables ShapeChains ShapeRefs ShapeAdd ShapeObjects ShapeUpdate.
From stdpp Require Import base tactics numbers list gmap fin_sets.

Open Scope Z_scope.

(** ** Rows *)

Section Rows.
Context {V : Type}.

Definition get_row (atom : Z) (l : list (Z * Z * V)) : option (Z * V) := (fun r => (snd (fst r), snd r)) <$> list_find (has_atom atom) l ≫= (fun x => Some (snd x)).

Definition set_row (atom : Z) (v : V) (l : list (Z * Z * V)) : list (Z * Z * V) := (fun r => if decide (has_atom atom r) then (fst r, v) else r) <$> l.

Definition set_row_flags (atom flags : Z) (l : list (Z * Z * V)) : list (Z * Z * V) := (fun r => if decide (has_atom atom r) then (fst (fst r), flags, snd r) else r) <$> l.

Definition drop_row (atom : Z) (l : list (Z * Z * V)) : list (Z * Z * V) := filter (fun r => ~ has_atom atom r) l.

(** A property that is not configurable stays. *)
Definition deletable (atom : Z) (l : list (Z * Z * V)) : Prop := Forall (fun r => has_atom atom r -> Z.land (snd (fst r)) JS_PROP_CONFIGURABLE <> 0) l.

Lemma rows_map (f : Z * Z * V -> Z * Z * V) n ps ps' (vs vs' : list V) : (forall i, (i < n)%nat -> row_at ps' vs' i = f <$> row_at ps vs i) -> rows n ps' vs' = f <$> rows n ps vs.
Proof. induction n as [|n IH]; intros H; [reflexivity|]. cbn [rows]. rewrite fmap_app, IH, H by (lia || intros; apply H; lia). reflexivity. Qed.

Lemma rows_absent n ps (vs : list V) atom : (forall i e, (i < n)%nat -> ps !! i = Some e -> sp_atom e <> atom) -> Forall (fun r => ~ has_atom atom r) (rows n ps vs).
Proof. intros H. apply Forall_forall. intros r Hr. apply rows_elem in Hr. destruct Hr as (i & e & v & Hi & He & _ & _ & ->). apply (H i e Hi He). Qed.

Lemma drop_absent atom l : Forall (fun r => ~ has_atom atom r) l -> drop_row atom l = l.
Proof. induction 1 as [|r l Hr _ IH]; [reflexivity|]. unfold drop_row. rewrite filter_cons_True by exact Hr. f_equal. exact IH. Qed.

Lemma set_row_push atom flags v v0 l : Forall (fun r => ~ has_atom atom r) l -> set_row atom v (l ++ [(atom, flags, v0)]) = l ++ [(atom, flags, v)].
Proof.
  intros H. unfold set_row. rewrite fmap_app. f_equal; [|cbn; rewrite decide_True by reflexivity; reflexivity].
  induction H as [|r l Hr _ IH]; [reflexivity|]. cbn. rewrite decide_False by exact Hr. f_equal. exact IH.
Qed.

Lemma get_row_absent atom l : Forall (fun r => ~ has_atom atom r) l -> get_row atom l = None.
Proof. intros H. unfold get_row. rewrite (proj2 (list_find_None (has_atom atom) l) H). reflexivity. Qed.

Lemma get_row_in atom l r : (forall r', r' ∈ l -> has_atom atom r' -> r' = r) -> r ∈ l -> has_atom atom r -> get_row atom l = Some (snd (fst r), snd r).
Proof.
  intros Hu Hr Ha. unfold get_row. destruct (list_find (has_atom atom) l) as [[i r']|] eqn:E.
  - apply list_find_Some in E. destruct E as (E1 & E2 & _). cbn. rewrite (Hu r'); [reflexivity|apply (list_elem_of_lookup_2 _ _ _ E1)|exact E2].
  - apply list_find_None in E. rewrite Forall_forall in E. destruct (E r Hr Ha).
Qed.

End Rows.

Section Props.
Context `{OC : ObjectConfig}.
Implicit Types (rt : JSShapes) (O : gmap optr JSObject).

(** ** Lookup *)

Lemma model_shape ext rt o pr l : heap ext rt -> model rt !! o = Some (pr, l) ->
  exists ob s, objects rt !! o = Some ob /\ shapes rt !! shape ob = Some s /\ shape_ok s /\ prop_size s <= len (prop ob) /\ pr = proto s /\ l = rows (num s) (sh_prop s) (prop ob).
Proof.
  intros Hh Hm. unfold model in Hm. rewrite lookup_fmap in Hm. destruct (objects rt !! o) as [ob|] eqn:Ho; [|discriminate]. cbn in Hm. injection Hm as Hm. destruct (heap_shape ext rt o ob Hh Ho) as (s & Hs & Hok & Hl & Ev).
  exists ob, s. rewrite Ev in Hm. injection Hm as -> ->. auto 7.
Qed.

Lemma lookup_spec ext rt o pr l atom :
  heap ext rt -> model rt !! o = Some (pr, l) -> 0 < atom ->
  exists r, find_own_property rt o atom = mret r /\ (fun x => (sp_flags (snd (fst x)), snd x)) <$> r = get_row atom l /\
    match r with Some (i, _, _) => prop_index rt o i atom | None => Forall (fun r => ~ has_atom atom r) l end.
Proof.
  intros Hh Hm Ha. destruct (model_shape ext rt o pr l Hh Hm) as (ob & s & Ho & Hs & Hok & Hl & -> & ->). destruct (find_own_property_spec ext rt o ob s atom Hh Ho Hs Hok Hl Ha) as (r & -> & Hr). exists r. split; [reflexivity|]. destruct r as [[[i e] v]|].
  - destruct Hr as (j & -> & Hj & He & Hv & Ea). assert (Hlive : live e = true) by (unfold live; rewrite Ea, (proj2 (Z.eqb_neq atom 0)) by lia; reflexivity). split.
    + cbn. symmetry. apply (get_row_in atom _ (sp_atom e, sp_flags e, v)); [|apply (row_in s (prop ob) j e v Hj He Hv Hlive)|exact Ea].
      intros r' Hr' Ha'. apply (rows_unique _ _ _ _ _ (so_distinct _ Hok) Hr' (row_in s (prop ob) j e v Hj He Hv Hlive)). cbn. unfold has_atom in Ha'. congruence.
    + exists ob, s, j, e. auto 8.
  - pose proof (rows_absent (num s) (sh_prop s) (prop ob) atom Hr) as Hab. split; [|exact Hab]. symmetry. apply get_row_absent, Hab.
Qed.

(** ** Values *)

Lemma set_value_spec ext rt o i atom pr l v :
  heap ext rt -> model rt !! o = Some (pr, l) -> prop_index rt o i atom -> atom <> 0 ->
  exists rt', set_value rt o i v = mret rt' /\ heap ext rt' /\ steps 0 rt rt' /\ model rt' = <[o := (pr, set_row atom v l)]> (model rt).
Proof.
  intros Hh Hm (ob & s & j & e & Ho & Hs & -> & Hj & He & Ea) Ha. destruct (model_shape ext rt o pr l Hh Hm) as (ob' & s' & Ho' & Hs' & Hok & Hl & -> & ->). rewrite Ho in Ho'. injection Ho' as <-. rewrite Hs in Hs'. injection Hs' as <-.
  destruct (value_at s (prop ob) j Hok Hl Hj) as [w Hw]. assert (j < length (prop ob))%nat by (apply lookup_lt_is_Some; eauto).
  unfold set_value. rewrite (object_at_spec rt o ob Ho), ret_bind. unfold tab_set. rewrite (proj2 (Z.leb_le 0 _)), (proj2 (Z.ltb_lt _ _)) by (unfold len; lia). cbn [andb]. rewrite ret_bind, Nat2Z.id. eexists. split; [reflexivity|].
  destruct (heap_close ext (upd ext (shape ob) 1) rt rt o (shape ob) (<[j := v]> (prop ob)) s (heap_open ext rt o ob Hh Ho)) as [K1 K2]; [reflexivity|reflexivity|intros ? ? _; reflexivity|apply lookup_core, Hs|unfold len in *; rewrite length_insert; exact Hl|apply (heap_ext_pos ext rt _ Hh)|].
  split; [exact K1|]. split; [apply steps_same; [reflexivity|repeat split]|]. rewrite K2. do 2 f_equal. apply rows_map. intros k Hk. destruct (decide (k = j)) as [->|Hne].
  - rewrite (row_at_some _ _ j e v He) by (apply list_lookup_insert_eq; assumption). rewrite (row_at_some _ _ j e w He Hw). unfold row_of, live. rewrite Ea, (proj2 (Z.eqb_neq atom 0)) by exact Ha. cbn. rewrite decide_True by reflexivity. reflexivity.
  - unfold row_at. rewrite list_lookup_insert_ne by congruence. destruct (sh_prop s !! k) as [e'|] eqn:Ek, (prop ob !! k) as [v'|]; try reflexivity. unfold row_of. destruct (live e') eqn:El; [|reflexivity]. cbn. rewrite decide_False; [reflexivity|].
    unfold has_atom. cbn. intros E'. apply Hne. apply (so_distinct _ Hok k j e' e); try assumption. congruence.
Qed.

(** ** Objects that go *)

Lemma free_object_spec ext rt o pr l :
  heap ext rt -> model rt !! o = Some (pr, l) -> exists rt', free_object rt o = mret rt' /\ heap ext rt' /\ steps 0 rt rt' /\ model rt' = delete o (model rt).
Proof.
  intros Hh Hm. destruct (model_shape ext rt o pr l Hh Hm) as (ob & s & Ho & Hs & Hok & Hl & _ & _). pose proof (so_count _ Hok) as Hc. pose proof (so_len _ Hok) as Hlen. unfold free_object. rewrite (object_at_spec rt o ob Ho), ret_bind, (shape_at_spec rt _ s Hs), ret_bind.
  unfold tab_slice. rewrite !(proj2 (Z.leb_le _ _)) by lia. cbn [andb]. rewrite !ret_bind. cbv zeta. set (rt1 := MkRT _ _ _ _ _ _ _). pose proof (heap_ext_pos ext rt (shape ob) Hh).
  assert (I1 : inv (upd ext (shape ob) 1) rt1 (delete o (objects rt))) by (apply (inv_fields _ rt); [reflexivity|repeat split|apply heap_open; assumption]).
  destruct (free_shape_spec _ rt1 _ (shape ob) I1 ltac:(rewrite upd_eq; lia)) as (rt' & -> & I2 & O2 & V2 & S2 & _). exists rt'. split; [reflexivity|]. split; [|split].
  - unfold heap. rewrite O2. revert I2. apply inv_ext. intros x. unfold upd. case_bool_decide; lia.
  - apply (steps_trans 0 0 rt rt1); [lia|apply steps_same; [reflexivity|repeat split]|exact S2].
  - rewrite (model_kept rt1 rt' O2 V2). unfold model. cbn. rewrite fmap_delete. reflexivity.
Qed.

Section Alloc.
Context (G : Prop) (E : exn -> Prop).

(** ** delete_property *)

Definition removed ext rt o pr l atom (q : JSShapes * Z) : Prop :=
  heap ext (fst q) /\ steps 0 rt (fst q) /\
  (snd q = 1 /\ deletable atom l /\ model (fst q) = <[o := (pr, drop_row atom l)]> (model rt) \/
   snd q = 0 /\ ~ deletable atom l /\ model (fst q) = model rt \/ snd q = -1 /\ ~ G /\ model (fst q) = model rt).

Lemma deletable_at s (vs : list JSProperty) j e atom :
  shape_ok s -> prop_size s <= len vs -> (j < num s)%nat -> sh_prop s !! j = Some e -> live e = true -> sp_atom e = atom ->
  deletable atom (rows (num s) (sh_prop s) vs) <-> Z.land (sp_flags e) JS_PROP_CONFIGURABLE <> 0.
Proof.
  intros Hok Hl Hj He Hlive Ea. destruct (value_at s vs j Hok Hl Hj) as [v Hv]. pose proof (row_in s vs j e v Hj He Hv Hlive) as Hrow. unfold deletable. rewrite Forall_forall. split.
  - intros Hd. apply (Hd _ Hrow Ea).
  - intros Hf r Hr Ha'. assert (r = (sp_atom e, sp_flags e, v)) as -> by (apply (rows_unique _ _ _ _ _ (so_distinct _ Hok) Hr Hrow); unfold has_atom in Ha'; cbn; congruence). exact Hf.
Qed.

Lemma delete_property_spec ext rt o pr l atom :
  heap ext rt -> model rt !! o = Some (pr, l) -> 0 < atom -> gspec G (delete_property rt o atom) (removed ext rt o pr l atom) E.
Proof.
  intros Hh Hm Ha. destruct (model_shape ext rt o pr l Hh Hm) as (ob & s & Ho & Hs & Hok & Hl & -> & ->). unfold delete_property. rewrite (object_at_spec rt o ob Ho), ret_bind, (shape_at_spec rt _ s Hs), ret_bind. cbv zeta.
  rewrite (table_head _ _ _ _ atom (so_table _ Hok)), ret_bind by lia. pose proof (num_len s Hok) as Hnl.
  destruct (find_delete_spec _ _ _ _ atom (so_table _ Hok) ltac:(lia) (length (sh_prop s)) (num s) None ltac:(lia) ltac:(lia)) as (r & -> & Hr & Hp); [left; auto|]. rewrite ret_bind. destruct r as [[i lpr]|].
  2:{ pose proof (rows_absent (num s) (sh_prop s) (prop ob) atom Hr) as Hab. apply gspec_ret. split; [exact Hh|]. split; [apply steps_refl|]. left. split; [reflexivity|]. split; [apply (Forall_impl _ _ _ Hab); intros r H1 H2; contradiction|].
      rewrite (drop_absent _ _ Hab). symmetry. apply insert_id, Hm. }
  cbn [fmap option_fmap option_map fst last_with] in Hr. destruct Hr as (j & e & -> & Hj & He & Ea & _). specialize (Hp _ _ eq_refl). rewrite (tab_get_lookup _ _ e), ret_bind by (rewrite ?Nat2Z.id; lia || exact He).
  assert (Hlive : live e = true) by (unfold live; rewrite Ea, (proj2 (Z.eqb_neq atom 0)) by lia; reflexivity). destruct (value_at s (prop ob) j Hok Hl Hj) as [v Hv].
  destruct (Z.eqb_spec (Z.land (sp_flags e) JS_PROP_CONFIGURABLE) 0) as [Hf|Hf].
  { apply gspec_ret. split; [exact Hh|]. split; [apply steps_refl|]. right. left. split; [reflexivity|]. split; [|reflexivity]. intros Hd. apply (deletable_at s (prop ob) j e atom); assumption. }
  assert (Hdel : deletable atom (rows (num s) (sh_prop s) (prop ob))) by (apply (deletable_at s (prop ob) j e atom); assumption).
  eapply gspec_bind; [apply (prepare_update_spec G E ext rt o ob s Hh Ho Hs)|]. intros [rt1 z] (K1 & K2 & K3 & K4). cbn [fst snd] in *. destruct K4 as [[-> K4]|[-> Hg]]; cbn [Z.eqb Pos.eqb negb].
  2:{ apply gspec_ret. split; [exact K1|]. split; [exact K3|]. right. right. auto. }
  destruct K4 as (p & s1 & Ho1 & Hs1 & L1 & Hr1 & Hb1). rewrite (object_at_spec rt1 o _ Ho1), ret_bind. cbn [shape prop]. rewrite (shape_at_spec rt1 p s1 Hs1), ret_bind.
  destruct (own_ok ext rt1 o p (prop ob) s1 K1 Ho1 Hs1 Hb1) as (Hok1 & Hl1 & _ & _). injection L1 as L1 L2 L3 L4 L5 L6 L7. assert (En : num s1 = num s) by (unfold num; congruence).
  assert (He1 : sh_prop s1 !! j = Some e) by congruence. rewrite (tab_get_lookup _ _ e), ret_bind by (rewrite ?Nat2Z.id; lia || exact He1).
  destruct (unlink_entry s1 j e lpr Hok1) as (ps1 & ht1 & E1 & Lp & T1 & Cl); [lia|exact He1|exact Hlive|rewrite L6, L1, En, Ea; exact Hp|]. rewrite <- L1, <- Ea. rewrite E1, ret_bind.
  rewrite (tab_get_lookup _ _ v), ret_bind by (rewrite ?Nat2Z.id; lia || exact Hv). pose proof (num_len s1 Hok1) as Hnl1. assert (j < length (prop ob))%nat by (apply lookup_lt_is_Some; eauto).
  unfold tab_set. rewrite !(proj2 (Z.leb_le 0 _)), !(proj2 (Z.ltb_lt _ _)) by (unfold len; lia). cbn [andb]. rewrite !ret_bind, Nat2Z.id.
  set (ps' := <[j := _]> ps1) in *. set (vs' := <[j := JS_UNDEFINED]> (prop ob)). set (s2 := set_props s1 (prop_count s1) (deleted_prop_count s1 + 1) ps' ht1). set (rt2 := emit _ _).
  pose proof (cleared_ok s1 j e ps' ht1 Hok1 Hb1 ltac:(lia) He1 Hlive Cl T1) as Hok2. fold s2 in Hok2.
  destruct (own_update ext rt1 o p (prop ob) s1 K1 Ho1 Hs1 Hb1 s2 vs' rt2 Hok2 Hb1) as (J1 & J2 & J3); [reflexivity|reflexivity|unfold vs', len in *; rewrite length_insert; exact Hl1|reflexivity|repeat split|reflexivity|].
  assert (Em : model rt2 = <[o := (proto s, drop_row atom (rows (num s) (sh_prop s) (prop ob)))]> (model rt)).
  { rewrite J3, K2. change (proto s2) with (proto s1). change (num s2) with (num s1). change (sh_prop s2) with ps'. unfold vs'. rewrite (cleared_rows s1 j e ps' (prop ob) JS_UNDEFINED Hok1 Hl1 ltac:(lia) He1 Hlive Cl), L5, En, L6, Ea. reflexivity. }
  eapply gspec_bind with (R := fun q => heap ext (fst q) /\ steps 0 rt2 (fst q) /\ model (fst q) = model rt2).
  - destruct ((8 <=? deleted_prop_count s1 + 1) && _); [|apply gspec_ret; split; [exact J1|]; split; [apply steps_refl|reflexivity]].
    apply (compact_properties_spec G E ext rt2 o p vs' s2 J1); [apply lookup_insert_eq|apply lookup_insert_eq|exact Hb1].
  - intros [rt3 z] (M1 & M2 & M3). cbn [fst] in *. apply gspec_ret. split; [exact M1|]. split; [apply (steps_trans 0 0 rt rt2); [lia|apply (steps_trans 0 0 rt rt1); [lia|exact K3|exact J2]|exact M2]|].
    left. split; [reflexivity|]. split; [rewrite Ea; exact Hdel|]. cbn [fst]. congruence.
Qed.

(** ** js_update_property_flags *)

Lemma table_flags mask n ps ht j e flags : table_ok mask n ps ht -> ps !! j = Some e -> table_ok mask n (<[j := MkSP (sp_next e) flags (sp_atom e)]> ps) ht.
Proof.
  intros T He. assert (Hj : (j < length ps)%nat) by (apply lookup_lt_is_Some; eauto). set (ps' := <[j := _]> ps).
  assert (Hat : forall i, sp_atom <$> ps !! i = sp_atom <$> ps' !! i) by (intros i; unfold ps'; destruct (decide (i = j)) as [->|]; [rewrite list_lookup_insert_eq, He by exact Hj; reflexivity|rewrite list_lookup_insert_ne by congruence; reflexivity]).
  split; [apply (to_mask _ _ _ _ T)|apply (to_len _ _ _ _ T)| |].
  - intros h Hh. rewrite <- (head_of_ext ps) by (intros i Hi; apply Hat). apply (to_heads _ _ _ _ T), Hh.
  - intros i e' Hi He' Hl'. rewrite <- (head_of_ext ps) by (intros k Hk; apply Hat). unfold ps' in He'. destruct (decide (i = j)) as [->|Hne].
    + rewrite list_lookup_insert_eq in He' by exact Hj. injection He' as <-. apply (to_next _ _ _ _ T j e Hi He Hl').
    + rewrite list_lookup_insert_ne in He' by congruence. apply (to_next _ _ _ _ T i e' Hi He' Hl').
Qed.

Lemma flags_ok s j e flags :
  shape_ok s -> is_hashed s = false -> sh_prop s !! j = Some e -> 0 <= flags < 64 ->
  shape_ok (set_props s (prop_count s) (deleted_prop_count s) (<[j := MkSP (sp_next e) flags (sp_atom e)]> (sh_prop s)) (prop_hash s)).
Proof.
  intros Hok Hb He Hf. assert (Hj : (j < length (sh_prop s))%nat) by (apply lookup_lt_is_Some; eauto). set (ps' := <[j := _]> (sh_prop s)).
  assert (Hat : forall i e', ps' !! i = Some e' -> exists e0, sh_prop s !! i = Some e0 /\ sp_atom e' = sp_atom e0 /\ (i <> j -> e' = e0) /\ (i = j -> sp_flags e' = flags)).
  { intros i e' Hi. unfold ps' in Hi. destruct (decide (i = j)) as [->|Hne]; [rewrite list_lookup_insert_eq in Hi by exact Hj; injection Hi as <-; exists e; split; [exact He|]; split; [reflexivity|]; split; [congruence|reflexivity]|].
    rewrite list_lookup_insert_ne in Hi by congruence. exists e'. split; [exact Hi|]. split; [reflexivity|]. split; [reflexivity|congruence]. }
  split; unfold num; cbn [prop_count prop_size sh_prop prop_hash_mask prop_hash deleted_prop_count sh_hash is_hashed proto set_props ref_count]; fold (num s); try apply Hok; try congruence.
  - rewrite <- (so_len _ Hok). unfold len, ps'. rewrite length_insert. reflexivity.
  - apply table_flags; [apply Hok|exact He].
  - intros i e' Hi He'. destruct (Hat i e' He') as (e0 & H0 & E1 & E2 & E3). pose proof (so_entries _ Hok i e0 Hi H0) as [F1 F2]. unfold entry_ok. rewrite E1. split; [|exact F2]. destruct (decide (i = j)) as [Ej|Hne]; [rewrite (E3 Ej); exact Hf|rewrite (E2 Hne); exact F1].
  - intros i k e1 e2 Hi Hk H1 H2 Hl E12. destruct (Hat i e1 H1) as (a & A1 & A2 & _), (Hat k e2 H2) as (b & B1 & B2 & _). apply (so_distinct _ Hok i k a b); try assumption; [unfold live in *; rewrite <- A2; exact Hl|congruence].
  - rewrite (so_deleted _ Hok). do 2 f_equal. apply lives_ext. intros i Hi. unfold ps'. destruct (decide (i = j)) as [->|]; [rewrite list_lookup_insert_eq, He by exact Hj; reflexivity|rewrite list_lookup_insert_ne by congruence; reflexivity].
Qed.

Definition flagged ext rt o pr l atom flags (q : JSShapes * Z) : Prop :=
  heap ext (fst q) /\ steps 0 rt (fst q) /\
  (snd q = 0 /\ model (fst q) = <[o := (pr, set_row_flags atom flags l)]> (model rt) \/ snd q = -1 /\ ~ G /\ model (fst q) = model rt).

(** The rows with other flags for the entry [j]. *)
Lemma flags_rows s (vs : list JSProperty) j e flags :
  shape_ok s -> prop_size s <= len vs -> (j < num s)%nat -> sh_prop s !! j = Some e -> live e = true ->
  rows (num s) (<[j := MkSP (sp_next e) flags (sp_atom e)]> (sh_prop s)) vs = set_row_flags (sp_atom e) flags (rows (num s) (sh_prop s) vs).
Proof.
  intros Hok Hl Hj He Hlive. assert (Hj' : (j < length (sh_prop s))%nat) by (apply lookup_lt_is_Some; eauto). apply rows_map. intros k Hk. destruct (value_at s vs k Hok Hl Hk) as [v Hv]. destruct (decide (k = j)) as [->|Hne].
  - rewrite (row_at_some _ _ j _ v (list_lookup_insert_eq _ _ _ Hj') Hv), (row_at_some _ _ j e v He Hv). unfold row_of. change (live (MkSP (sp_next e) flags (sp_atom e))) with (live e). rewrite Hlive. cbn. rewrite decide_True by reflexivity. reflexivity.
  - unfold row_at. rewrite list_lookup_insert_ne, Hv by congruence. destruct (sh_prop s !! k) as [e'|] eqn:Ek; [|reflexivity]. unfold row_of. destruct (live e') eqn:El; [|reflexivity]. cbn. rewrite decide_False; [reflexivity|].
    unfold has_atom. cbn. intros E'. apply Hne. apply (so_distinct _ Hok k j e' e); assumption.
Qed.

Lemma update_flags_spec ext rt o i atom pr l flags :
  heap ext rt -> model rt !! o = Some (pr, l) -> prop_index rt o i atom -> 0 < atom -> 0 <= flags < 64 ->
  gspec G (js_update_property_flags rt o i flags) (flagged ext rt o pr l atom flags) E.
Proof.
  intros Hh Hm (ob & s & j & e & Ho & Hs & -> & Hj & He & Ea) Ha Hf. destruct (model_shape ext rt o pr l Hh Hm) as (ob' & s' & Ho' & Hs' & Hok & Hl & -> & ->). rewrite Ho in Ho'. injection Ho' as <-. rewrite Hs in Hs'. injection Hs' as <-.
  assert (Hlive : live e = true) by (unfold live; rewrite Ea, (proj2 (Z.eqb_neq atom 0)) by lia; reflexivity). unfold js_update_property_flags. rewrite (object_at_spec rt o ob Ho), ret_bind, (shape_at_spec rt _ s Hs), ret_bind.
  rewrite (tab_get_lookup _ _ e), ret_bind by (rewrite ?Nat2Z.id; lia || exact He). subst atom. destruct (Z.eqb_spec flags (sp_flags e)) as [->|Hne]; cbn [negb].
  { apply gspec_ret. split; [exact Hh|]. split; [apply steps_refl|]. left. split; [reflexivity|]. rewrite <- (flags_rows s (prop ob) j e (sp_flags e)) by assumption. rewrite list_insert_id by (destruct e; exact He). symmetry. apply insert_id, Hm. }
  eapply gspec_bind; [apply (prepare_update_spec G E ext rt o ob s Hh Ho Hs)|]. intros [rt1 z] (K1 & K2 & K3 & K4). cbn [fst snd] in *. destruct K4 as [[-> K4]|[-> Hg]]; cbn [Z.eqb Pos.eqb negb].
  2:{ apply gspec_ret. split; [exact K1|]. split; [exact K3|]. right. auto. }
  destruct K4 as (p & s1 & Ho1 & Hs1 & L1 & Hr1 & Hb1). rewrite (object_at_spec rt1 o _ Ho1), ret_bind. cbn [shape prop]. rewrite (shape_at_spec rt1 p s1 Hs1), ret_bind.
  destruct (own_ok ext rt1 o p (prop ob) s1 K1 Ho1 Hs1 Hb1) as (Hok1 & Hl1 & _ & _). injection L1 as L1 L2 L3 L4 L5 L6 L7. assert (En : num s1 = num s) by (unfold num; congruence).
  assert (He1 : sh_prop s1 !! j = Some e) by congruence. assert (Hj' : (j < length (sh_prop s1))%nat) by (apply lookup_lt_is_Some; eauto). rewrite (tab_get_lookup _ _ e), ret_bind by (rewrite ?Nat2Z.id; lia || exact He1).
  unfold tab_set. rewrite (proj2 (Z.leb_le 0 _)), (proj2 (Z.ltb_lt _ _)) by (unfold len; lia). cbn [andb]. rewrite ret_bind, Nat2Z.id. apply gspec_ret. rewrite wrap_small by lia.
  pose proof (flags_ok s1 j e flags Hok1 Hb1 He1 Hf) as Hok2. set (s2 := set_props _ _ _ _ _) in *.
  destruct (own_update ext rt1 o p (prop ob) s1 K1 Ho1 Hs1 Hb1 s2 (prop ob) (put_shape rt1 p s2) Hok2 Hb1) as (J1 & J2 & J3); [reflexivity|reflexivity|exact Hl1|reflexivity|repeat split|symmetry; apply insert_id, Ho1|].
  split; [exact J1|]. split; [apply (steps_trans 0 0 rt rt1); [lia|exact K3|exact J2]|]. left. split; [reflexivity|]. cbn [fst]. rewrite J3, K2. change (proto s2) with (proto s1). change (num s2) with (num s1). cbn [s2 set_props sh_prop].
  rewrite (flags_rows s1 (prop ob) j e flags) by (assumption || lia). rewrite L5, En, L6. reflexivity.
Qed.

End Alloc.
End Props.

Section Run.
Context `{OC : ObjectConfig}.
Implicit Types (rt : JSShapes).

Inductive command : Type :=
| CNew (pr : option optr)
| CGet (o : optr) (atom : Z)
| CPut (o : optr) (atom flags : Z) (v : JSProperty)
| CFlags (o : optr) (atom flags : Z)
| CDelete (o : optr) (atom : Z)
| CFree (o : optr).

Inductive answer : Type :=
| ANew (o : optr)
| AValue (v : option (Z * JSProperty))
| ADone
| AKept
| AUnknown
| ANoMemory.

(** ** The operations on ordered maps *)

Definition table : Type := gmap optr (option optr * list (Z * Z * JSProperty)).

Definition put_row (atom flags : Z) (v : JSProperty) (l : list (Z * Z * JSProperty)) : list (Z * Z * JSProperty) :=
  match get_row atom l with Some _ => set_row atom v l | None => l ++ [(atom, flags, v)] end.

(** [G]: every allocation is granted. *)
Inductive astep (G : Prop) (m : table) : command -> answer -> table -> Prop :=
| a_new pr o : m !! o = None -> astep G m (CNew pr) (ANew o) (<[o := (pr, [])]> m)
| a_get o atom pr l : m !! o = Some (pr, l) -> astep G m (CGet o atom) (AValue (get_row atom l)) m
| a_put o atom flags v pr l : m !! o = Some (pr, l) -> astep G m (CPut o atom flags v) ADone (<[o := (pr, put_row atom flags v l)]> m)
| a_flags o atom flags pr l : m !! o = Some (pr, l) -> is_Some (get_row atom l) -> astep G m (CFlags o atom flags) ADone (<[o := (pr, set_row_flags atom flags l)]> m)
| a_flags_none o atom flags pr l : m !! o = Some (pr, l) -> get_row atom l = None -> astep G m (CFlags o atom flags) AKept m
| a_delete o atom pr l : m !! o = Some (pr, l) -> deletable atom l -> astep G m (CDelete o atom) ADone (<[o := (pr, drop_row atom l)]> m)
| a_kept o atom pr l : m !! o = Some (pr, l) -> ~ deletable atom l -> astep G m (CDelete o atom) AKept m
| a_free o pr l : m !! o = Some (pr, l) -> astep G m (CFree o) ADone (delete o m)
| a_unknown c o : m !! o = None -> (exists atom, c = CGet o atom) \/ (exists atom flags v, c = CPut o atom flags v) \/ (exists atom flags, c = CFlags o atom flags) \/ (exists atom, c = CDelete o atom) \/ c = CFree o -> astep G m c AUnknown m
| a_memory c : ~ G -> astep G m c ANoMemory m.

Inductive asteps (G : Prop) : table -> list command -> list answer -> table -> Prop :=
| as_nil m : asteps G m [] [] m
| as_cons m m' m'' c cs a l : astep G m c a m' -> asteps G m' cs l m'' -> asteps G m (c :: cs) (a :: l) m''.

(** ** The operations on shapes *)

Definition put (rt : JSShapes) (o : optr) (atom flags : Z) (v : JSProperty) : M (JSShapes * answer) :=
  r ← find_own_property rt o atom;
  match r with
  | Some (i, _, _) => rt ← set_value rt o i v; mret (rt, ADone)
  | None =>
      '(rt, r) ← add_property rt o atom flags;
      match r with
      | None => mret (rt, ANoMemory)
      | Some i => rt ← set_value rt o i v; mret (rt, ADone)
      end
  end.

Definition reflag (rt : JSShapes) (o : optr) (atom flags : Z) : M (JSShapes * answer) :=
  r ← find_own_property rt o atom;
  match r with
  | Some (i, _, _) => '(rt, r) ← js_update_property_flags rt o i flags; mret (rt, if r =? 0 then ADone else ANoMemory)
  | None => mret (rt, AKept)
  end.

Definition known (rt : JSShapes) (o : optr) (k : M (JSShapes * answer)) : M (JSShapes * answer) :=
  match objects rt !! o with Some _ => k | None => mret (rt, AUnknown) end.

Definition run1 (rt : JSShapes) (c : command) : M (JSShapes * answer) :=
  match c with
  | CNew pr => '(rt, r) ← JS_NewObjectProto rt pr; mret (rt, match r with Some o => ANew o | None => ANoMemory end)
  | CGet o atom => known rt o (r ← find_own_property rt o atom; mret (rt, AValue ((fun x => (sp_flags (snd (fst x)), snd x)) <$> r)))
  | CPut o atom flags v => known rt o (put rt o atom flags v)
  | CFlags o atom flags => known rt o (reflag rt o atom flags)
  | CDelete o atom => known rt o ('(rt, r) ← delete_property rt o atom; mret (rt, if r =? 1 then ADone else if r =? 0 then AKept else ANoMemory))
  | CFree o => known rt o (rt ← free_object rt o; mret (rt, ADone))
  end.

Fixpoint run (rt : JSShapes) (cs : list command) : M (JSShapes * list answer) :=
  match cs with
  | [] => mret (rt, [])
  | c :: cs => '(rt, a) ← run1 rt c; '(rt, l) ← run rt cs; mret (rt, a :: l)
  end.

Definition empty_runtime : JSShapes := MkRT ∅ ∅ 0 0 0 [] [].

(** A runtime without objects, then the operations. *)
Definition start (cs : list command) : M (option (JSShapes * list answer)) :=
  '(rt, r) ← init_shape_hash empty_runtime;
  if r =? 0 then x ← run rt cs; mret (Some x) else mret None.

(** Atoms are 32-bit numbers other than [JS_ATOM_NULL], flags have 6 bits. *)
Definition command_ok (c : command) : Prop :=
  match c with
  | CNew _ | CFree _ => True
  | CGet _ atom | CDelete _ atom => 0 < atom < 2 ^ 32
  | CPut _ atom flags _ | CFlags _ atom flags => 0 < atom < 2 ^ 32 /\ 0 <= flags < 64
  end.

(** ** The simulation *)

Section Alloc.
Context (G : Prop) (E : exn -> Prop).

Definition simulated ext rt c (q : JSShapes * answer) : Prop := heap ext (fst q) /\ steps 2 rt (fst q) /\ astep G (model rt) c (snd q) (model (fst q)).

Lemma steps_two d rt rt' : 0 <= d <= 2 -> steps d rt rt' -> steps 2 rt rt'.
Proof. intros Hd. apply steps_mono. lia. Qed.

Lemma fresh_of_rows s vs atom : shape_ok s -> prop_size s <= len vs -> 0 < atom < 2 ^ 32 -> Forall (fun r => ~ has_atom atom r) (rows (num s) (sh_prop s) (vs : list JSProperty)) -> fresh_atom s atom.
Proof.
  intros Hok Hl Ha H. split; [exact Ha|]. intros i e Hi He Ea. destruct (value_at s vs i Hok Hl Hi) as [v Hv]. rewrite Forall_forall in H. apply (H (sp_atom e, sp_flags e, v)); [|exact Ea].
  apply (row_in s vs i e v Hi He Hv). unfold live. rewrite Ea, (proj2 (Z.eqb_neq atom 0)) by lia. reflexivity.
Qed.

Lemma put_spec ext rt o atom flags v pr l :
  heap ext rt -> room 2 rt -> model rt !! o = Some (pr, l) -> 0 < atom < 2 ^ 32 -> 0 <= flags < 64 -> gspec G (put rt o atom flags v) (simulated ext rt (CPut o atom flags v)) E.
Proof.
  intros Hh Hr Hm Ha Hf. unfold put. destruct (lookup_spec ext rt o pr l atom Hh Hm ltac:(lia)) as (r & -> & Hg & Hi). rewrite ret_bind. destruct r as [[[i e] w]|].
  - destruct (set_value_spec ext rt o i atom pr l v Hh Hm Hi ltac:(lia)) as (rt' & -> & K1 & K2 & K3). rewrite ret_bind. apply gspec_ret. split; [exact K1|]. split; [apply (steps_two 0); [lia|exact K2]|]. cbn [fst snd]. rewrite K3.
    replace (set_row atom v l) with (put_row atom flags v l) by (unfold put_row; rewrite <- Hg; reflexivity). constructor. exact Hm.
  - destruct (model_shape ext rt o pr l Hh Hm) as (ob & s & Ho & Hs & Hok & Hl & -> & ->). pose proof (fresh_of_rows s (prop ob) atom Hok Hl Ha Hi) as Hfr.
    eapply gspec_bind; [apply (add_property_spec G E ext rt o ob s atom flags Hh Ho Hs Hfr Hf Hr)|]. intros [rt1 [i|]] (K1 & K2 & K3); cbn [fst snd] in *.
    + destruct K3 as (Ki & w & Km). assert (Hm1 : model rt1 !! o = Some (proto s, rows (num s) (sh_prop s) (prop ob) ++ [(atom, flags, w)])) by (rewrite Km; apply lookup_insert_eq).
      destruct (set_value_spec ext rt1 o i atom _ _ v K1 Hm1 Ki ltac:(lia)) as (rt2 & -> & J1 & J2 & J3). rewrite ret_bind. apply gspec_ret. split; [exact J1|]. split; [apply (steps_trans 2 0 rt rt1); [lia|exact K2|exact J2]|].
      cbn [fst snd]. rewrite J3, Km, insert_insert_eq, (set_row_push atom flags v w) by exact Hi.
      replace (_ ++ [(atom, flags, v)]) with (put_row atom flags v (rows (num s) (sh_prop s) (prop ob))) by (unfold put_row; rewrite <- Hg; reflexivity). constructor. exact Hm.
    + destruct K3 as [Hn Km]. apply gspec_ret. split; [exact K1|]. split; [exact K2|]. cbn [fst snd]. rewrite Km. constructor. exact Hn.
Qed.

Lemma reflag_spec ext rt o atom flags pr l :
  heap ext rt -> model rt !! o = Some (pr, l) -> 0 < atom < 2 ^ 32 -> 0 <= flags < 64 -> gspec G (reflag rt o atom flags) (simulated ext rt (CFlags o atom flags)) E.
Proof.
  intros Hh Hm Ha Hf. unfold reflag. destruct (lookup_spec ext rt o pr l atom Hh Hm ltac:(lia)) as (r & -> & Hg & Hi). rewrite ret_bind. destruct r as [[[i e] w]|].
  - eapply gspec_bind; [apply (update_flags_spec G E ext rt o i atom pr l flags Hh Hm Hi ltac:(lia) Hf)|]. intros [rt1 z] (K1 & K2 & K3). cbn [fst snd] in *. apply gspec_ret. split; [exact K1|]. split; [apply (steps_two 0); [lia|exact K2]|]. cbn [fst snd].
    destruct K3 as [[-> ->]|(-> & Hn & ->)]; cbn; [|constructor; exact Hn]. constructor; [exact Hm|]. rewrite <- Hg. eauto.
  - apply gspec_ret. split; [exact Hh|]. split; [apply (steps_two 0); [lia|apply steps_refl]|]. eapply a_flags_none; [exact Hm|symmetry; exact Hg].
Qed.

(** The command [c] on the object [o], which may not exist. *)
Lemma known_spec ext rt o c k :
  heap ext rt -> (exists atom, c = CGet o atom) \/ (exists atom flags v, c = CPut o atom flags v) \/ (exists atom flags, c = CFlags o atom flags) \/ (exists atom, c = CDelete o atom) \/ c = CFree o ->
  (forall pr l, model rt !! o = Some (pr, l) -> gspec G k (simulated ext rt c) E) -> gspec G (known rt o k) (simulated ext rt c) E.
Proof.
  intros Hh Hc Hk. unfold known. destruct (objects rt !! o) as [ob|] eqn:Ho.
  - pose proof (model_lookup rt o ob Ho) as Hm. destruct (view_of (core rt) ob) as [pr l]. apply (Hk pr l Hm).
  - apply gspec_ret. split; [exact Hh|]. split; [apply (steps_two 0); [lia|apply steps_refl]|]. apply (a_unknown G _ c o); [apply model_absent, Ho|exact Hc].
Qed.

Lemma run1_spec ext rt c : heap ext rt -> room 2 rt -> command_ok c -> gspec G (run1 rt c) (simulated ext rt c) E.
Proof.
  intros Hh Hr Hc. destruct c as [pr|o atom|o atom flags v|o atom flags|o atom|o]; cbn [run1 command_ok] in *.
  - eapply gspec_bind; [apply (new_object_spec G E ext rt pr Hh), (room_mono 2 1 rt); [lia|exact Hr]|]. intros [rt' r] (K1 & K2 & K3). cbn [fst snd] in *. apply gspec_ret. split; [exact K1|]. split; [exact K2|].
    cbn [fst snd]. destruct r as [o|]; destruct K3 as [K3 ->]; constructor; exact K3.
  - apply known_spec; [exact Hh|eauto|]. intros pr l Hm. destruct (lookup_spec ext rt o pr l atom Hh Hm ltac:(lia)) as (r & -> & Hg & _). rewrite ret_bind. apply gspec_ret. split; [exact Hh|]. split; [apply (steps_two 0); [lia|apply steps_refl]|]. cbn [snd fst]. rewrite Hg. econstructor. exact Hm.
  - apply known_spec; [exact Hh|eauto 7|]. intros pr l Hm. apply (put_spec ext rt o atom flags v pr l); tauto.
  - apply known_spec; [exact Hh|eauto 7|]. intros pr l Hm. apply (reflag_spec ext rt o atom flags pr l); tauto.
  - apply known_spec; [exact Hh|eauto 7|]. intros pr l Hm. eapply gspec_bind; [apply (delete_property_spec G E ext rt o pr l atom Hh Hm); lia|]. intros [rt' r] (K1 & K2 & K3). cbn [fst snd] in *. apply gspec_ret. split; [exact K1|]. split; [apply (steps_two 0); [lia|exact K2]|].
    cbn [fst snd]. destruct K3 as [(-> & Hd & ->)|[(-> & Hd & ->)|(-> & Hd & ->)]]; cbn; [apply a_delete; assumption|apply (a_kept G _ o atom pr l); assumption|constructor; exact Hd].
  - apply known_spec; [exact Hh|eauto 7|]. intros pr l Hm. destruct (free_object_spec ext rt o pr l Hh Hm) as (rt' & -> & K1 & K2 & K3). rewrite ret_bind. apply gspec_ret. split; [exact K1|]. split; [apply (steps_two 0); [lia|exact K2]|]. cbn [fst snd]. rewrite K3. econstructor. exact Hm.
Qed.

Lemma run_spec ext cs : forall rt, heap ext rt -> room (2 * len cs) rt -> Forall command_ok cs ->
  gspec G (run rt cs) (fun q => heap ext (fst q) /\ asteps G (model rt) cs (snd q) (model (fst q))) E.
Proof.
  induction cs as [|c cs IH]; intros rt Hh Hr Hcs; cbn [run]; [apply gspec_ret; split; [exact Hh|constructor]|]. apply Forall_cons in Hcs. destruct Hcs as [Hc Hcs].
  assert (El : 2 * len (c :: cs) = 2 * len cs + 2) by (unfold len; cbn [length]; lia). pose proof (len_nonneg cs). rewrite El in Hr.
  eapply gspec_bind; [apply (run1_spec ext rt c Hh); [apply (room_mono (2 * len cs + 2)); [lia|exact Hr]|exact Hc]|]. intros [rt1 a] (K1 & K2 & K3). cbn [fst snd] in *.
  eapply gspec_bind; [apply (IH rt1 K1); [apply K2; [lia|exact Hr]|exact Hcs]|]. intros [rt2 l] (J1 & J2). cbn [fst snd] in *. apply gspec_ret. split; [exact J1|]. cbn [snd]. econstructor; [exact K3|exact J2].
Qed.

Lemma init_spec : gspec G (init_shape_hash empty_runtime) (fun q => snd q = 0 /\ heap (fun _ => 0) (fst q) /\ model (fst q) = ∅ /\ (forall k, 0 <= k < 2 ^ 26 -> room k (fst q)) \/ snd q = -1 /\ ~ G) E.
Proof.
  unfold init_shape_hash. eapply gspec_bind; [apply gspec_try_alloc|]. intros ok Hok. destruct ok; cbn [negb]; apply gspec_ret; [left|right; auto]. split; [reflexivity|]. cbn [fst]. set (rt := with_table _ _ _ _ _).
  assert (C : core rt = ∅) by (unfold core, rt; cbn; apply fmap_empty). assert (Hh : hashed (core rt) = ∅) by (rewrite C; reflexivity). split; [|split].
  - split.
    { change (objects rt) with (∅ : gmap optr JSObject). rewrite C. split; [intros p sh Hx; rewrite lookup_empty in Hx; discriminate|intros o ob Hx; rewrite lookup_empty in Hx; discriminate|intros p sh Hx; rewrite lookup_empty in Hx; discriminate|intros p; lia|intros p Hp; lia]. }
    rewrite Hh. split; [cbn; lia|reflexivity|reflexivity| |set_solver|reflexivity].
    intros h Hr. change (0 <= h < 16) in Hr. exists None, []. split; [change (replicate 16 (@None sptr) !! Z.to_nat h = Some None); apply lookup_replicate_2; lia|]. split; [constructor|]. split; [constructor|]. intros p. set_solver.
  - unfold model, rt. cbn. apply fmap_empty.
  - intros k Hk. split; [lia|]. split; [cbn; lia|]. split; [cbn; lia|]. intros p sh Hp. rewrite C in Hp. rewrite lookup_empty in Hp. discriminate.
Qed.

End Alloc.
End Run.
