(* ===== verification/ShapeTheorems.v ===== *)
(** The theorems on objects and shapes, with a witness each.

    [start cs] makes a runtime and runs the operations [cs]; [model rt] is, for
    every object, its prototype and its properties in order; [heap] is the invariant
    of objects, shapes and the table of shapes; [asteps] are the operations on
    ordered maps. *)
From Stdlib Require Import ZArith Lia.
From S2P Require Import Prelude Shapes ShapeTables ShapeChains ShapeRefs ShapeAdd ShapeObjects ShapeUpdate ShapeProps.
From stdpp Require Import base tactics numbers list gmap fin_sets.

Open Scope Z_scope.

(** The properties of a shape, in order. *)
Definition keys (s : JSShape) : list (Z * Z) := (fun e => key e) <$> take (num s) (sh_prop s).

(** The first index that does not fit the 26 bits of [hash_next]. *)
Definition next_limit : Z := 2 ^ 26.

Section Theorems.
Context `{OC : ObjectConfig}.
Implicit Types (rt : JSShapes).

Lemma keys_lookup s i : shape_ok s -> (i < num s)%nat -> keys s !! i = key_at (sh_prop s) i.
Proof. intros Hok Hi. unfold keys, key_at. rewrite list_lookup_fmap, lookup_take_lt by exact Hi. reflexivity. Qed.

Lemma keys_length s : shape_ok s -> length (keys s) = num s.
Proof. intros Hok. pose proof (num_len s Hok). unfold keys. rewrite length_fmap, length_take. lia. Qed.

(** A shape that extends another one by a property matches: its hash is a function
    of its prototype and properties. *)
Lemma matchb_iff s s' atom flags :
  shape_ok s -> shape_ok s' -> is_hashed s = true -> is_hashed s' = true ->
  matchb s s' atom flags = true <-> proto s' = proto s /\ keys s' = keys s ++ [(atom, flags)].
Proof.
  intros Hok Hok' Hb Hb'. pose proof (so_count _ Hok) as Hc. pose proof (so_count _ Hok') as Hc'. split.
  - intros Hm. destruct (matchb_keys s s' atom flags Hok Hm) as (H1 & H2 & H3 & H4). split; [exact H2|]. assert (En : num s' = S (num s)) by (unfold num; lia). apply (list_eq_same_length _ _ (S (num s))).
    + rewrite length_app, keys_length by exact Hok. cbn. lia.
    + rewrite keys_length by exact Hok'. exact En.
    + intros i x y Hi Hx Hy. rewrite keys_lookup in Hx by (assumption || lia). destruct (decide (i = num s)) as [->|].
      * rewrite lookup_app_r, keys_length, Nat.sub_diag in Hy by (try rewrite keys_length; auto). cbn in Hy. congruence.
      * rewrite lookup_app_l, keys_lookup in Hy by (rewrite ?keys_length by exact Hok; assumption || lia). specialize (H3 i ltac:(lia)). unfold key_at in *. congruence.
  - intros [H2 Hk]. assert (En : num s' = S (num s)) by (apply (f_equal length) in Hk; rewrite length_app, !keys_length in Hk by assumption; cbn in Hk; lia).
    assert (K : forall i, (i < num s)%nat -> key_at (sh_prop s') i = key_at (sh_prop s) i).
    { intros i Hi. rewrite <- !keys_lookup by (assumption || lia). rewrite Hk, lookup_app_l by (rewrite keys_length; assumption). reflexivity. }
    assert (KN : key_at (sh_prop s') (num s) = Some (atom, flags)).
    { rewrite <- keys_lookup by (assumption || lia). rewrite Hk, lookup_app_r, keys_length, Nat.sub_diag by (try rewrite keys_length; auto). reflexivity. }
    unfold matchb. rewrite !andb_true_iff, !bool_decide_eq_true, keysb_spec, !Z.eqb_eq. split; [split; [split; [|exact H2]|unfold num in *; lia]|split; [|exact KN]].
    + destruct (so_hashed _ Hok Hb) as [_ ->], (so_hashed _ Hok' Hb') as [_ ->]. rewrite En. cbn [hash_props]. unfold key_at in KN. destruct (sh_prop s' !! num s) as [e|]; [|discriminate]. cbn in KN. injection KN as -> ->.
      rewrite H2. do 2 f_equal. apply hash_props_ext. intros i Hi. apply (K i Hi).
    + intros j Hj. apply K. lia.
Qed.

Lemma start_spec (G : Prop) E cs : Forall command_ok cs -> 2 * len cs < 2 ^ 26 ->
  gspec G (start cs) (fun r => match r with None => ~ G | Some (rt, l) => heap (fun _ => 0) rt /\ asteps G ∅ cs l (model rt) end) E.
Proof.
  intros Hc Hl. unfold start. eapply gspec_bind; [apply (init_spec G E)|]. intros [rt z] H. cbn [fst snd] in H. pose proof (len_nonneg cs). destruct H as [(-> & Hh & Hm & Hr)|[-> Hg]]; cbn [Z.eqb Pos.eqb]; [|apply gspec_ret; exact Hg].
  eapply gspec_bind; [apply (run_spec G E (fun _ => 0) cs rt Hh); [apply Hr; lia|exact Hc]|]. intros [rt' l] (K1 & K2). cbn [fst snd] in *. apply gspec_ret. rewrite Hm in K2. auto.
Qed.

(** C1: objects with shared shapes refine ordered maps.  From a new runtime, every
    sequence of fewer than 2^25 creations, lookups, definitions, changes of flags,
    deletions and releases, on any number of objects that share shapes or not,
    returns, keeps the invariant of the shapes and of their table, and gives every
    object exactly the prototype and the properties, in order, that the same
    sequence gives to ordered maps; an operation fails only when an allocation is
    refused, and then changes no object. *)
Theorem objects_refine_maps cs o :
  Forall command_ok cs -> 2 * len cs < 2 ^ 26 ->
  exists r o', start cs o = (Ok r, o') /\
    match r with
    | None => ~ grants o
    | Some (rt, l) => heap (fun _ => 0) rt /\ asteps (grants o) ∅ cs l (model rt)
    end.
Proof. intros Hc Hl. apply gspec_run, start_spec; assumption. Qed.

(** C4: the table of shapes is complete: [find_hashed_shape_prop] finds a shape with
    the prototype and the properties of the given one and the new property, and
    returns [NULL] only when the table has none; the same for the empty shape of a
    prototype ([find_hashed_shape_proto]). *)
Theorem shape_table_complete ext rt p s atom flags pr :
  heap ext rt -> shapes rt !! p = Some s -> is_hashed s = true ->
  (exists r, find_hashed_shape_prop rt p atom flags = mret r /\
     match r with
     | Some q => exists s', shapes rt !! q = Some s' /\ is_hashed s' = true /\ proto s' = proto s /\ keys s' = keys s ++ [(atom, flags)]
     | None => forall q s', shapes rt !! q = Some s' -> is_hashed s' = true -> ~ (proto s' = proto s /\ keys s' = keys s ++ [(atom, flags)])
     end) /\
  (exists r, find_hashed_shape_proto rt pr = mret r /\
     match r with
     | Some q => exists s', shapes rt !! q = Some s' /\ is_hashed s' = true /\ proto s' = pr /\ prop_count s' = 0
     | None => forall q s', shapes rt !! q = Some s' -> is_hashed s' = true -> proto s' = pr -> prop_count s' <> 0
     end).
Proof.
  intros Hh Hs Hb. split; [|apply (find_hashed_proto_spec ext rt _ pr Hh)].
  assert (Hall : forall q s', shapes rt !! q = Some s' -> shape_ok s') by (intros q s' Hq; apply (proj2 (shape_ok_strip s')), (co_shape _ _ _ (proj1 Hh) q), lookup_core, Hq).
  destruct (find_hashed_prop_spec ext rt _ p s atom flags Hh Hs Hb (Hall p s Hs)) as (r & E1 & Hr). exists r. split; [exact E1|]. destruct r as [q|].
  - destruct Hr as (s' & Hq & Hb' & Hm). exists s'. split; [exact Hq|]. split; [exact Hb'|]. apply (matchb_iff s s' atom flags (Hall p s Hs) (Hall q s' Hq) Hb Hb'), Hm.
  - intros q s' Hq Hb' Hk. apply (matchb_iff s s' atom flags (Hall p s Hs) (Hall q s' Hq) Hb Hb') in Hk. rewrite (Hr q s' Hq Hb') in Hk. discriminate.
Qed.

End Theorems.

(** The chain of a bucket is cut once the index of its head does not fit the bit
    field [hash_next]: a property defined before is no longer found. *)
Theorem property_link_truncated ps mask ht e flags atom :
  next_limit < len ps -> ps !! Z.to_nat (next_limit - 1) = Some e -> Z.land atom mask = Z.land (sp_atom e) mask -> atom <> sp_atom e ->
  0 <= Z.land atom mask -> ht !! Z.to_nat (Z.land atom mask) = Some next_limit ->
  exists ps' ht', link_entry ps ht mask next_limit flags atom = mret (ps', ht') /\
    ps' !! Z.to_nat (next_limit - 1) = Some e /\ ht' !! Z.to_nat (Z.land (sp_atom e) mask) = Some (next_limit + 1) /\
    forall fuel, find_entry (S (S fuel)) ps' (sp_atom e) (next_limit + 1) = mret None.
Proof.
  intros Hl He Eb Hne Hb Hh. unfold link_entry. cbv zeta. assert (Hn : 1 < next_limit) by reflexivity. assert (Hw : wrap 26 next_limit = 0) by reflexivity.
  assert (Hlt : (Z.to_nat (Z.land atom mask) < length ht)%nat) by (apply lookup_lt_is_Some; eauto). assert (Hln : (Z.to_nat next_limit < length ps)%nat) by (unfold len in Hl; lia).
  rewrite (tab_get_lookup ht _ _ Hb Hh), ret_bind. unfold tab_set. rewrite (proj2 (Z.leb_le 0 next_limit)), (proj2 (Z.ltb_lt next_limit (len ps))) by lia. cbn [andb]. rewrite ret_bind.
  rewrite (proj2 (Z.leb_le 0 (Z.land atom mask)) Hb), (proj2 (Z.ltb_lt (Z.land atom mask) (len ht))) by (unfold len; lia). cbn [andb]. rewrite ret_bind. eexists _, _. split; [reflexivity|].
  split; [rewrite list_lookup_insert_ne by lia; exact He|]. split; [rewrite <- Eb; apply list_lookup_insert_eq, Hlt|]. intros fuel. cbn [find_entry]. rewrite (proj2 (Z.eqb_neq (next_limit + 1) 0)) by lia.
  replace (next_limit + 1 - 1) with next_limit by lia. rewrite (tab_get_lookup _ next_limit (entry next_limit flags atom)), ret_bind by (lia || apply list_lookup_insert_eq, Hln).
  cbn [sp_atom sp_next entry]. rewrite (proj2 (Z.eqb_neq atom (sp_atom e)) Hne), Hw. reflexivity.
Qed.

(** ** Witnesses *)

#[local] Instance demo_config : ObjectConfig := {|
  JSProperty := Z;
  JS_UNDEFINED := 0;
  raw_property n := Z.of_nat n;
  raw_entry n := MkSP 77 3 (Z.of_nat n + 5);
  obj_address p := 4096 + 64 * Z.pos p;
  pointer_64 := true
|}.

(** Two objects with the same two properties; then the second one loses the first
    property and gets another. *)
Definition demo_twins : list command :=
  [CNew None; CNew None; CPut 1%positive 100 7 11; CPut 2%positive 100 7 21; CPut 1%positive 104 7 12; CPut 2%positive 104 7 22].
Definition demo_commands : list command := demo_twins ++ [CDelete 2%positive 100; CPut 2%positive 108 7 23; CGet 1%positive 100; CGet 2%positive 100; CGet 2%positive 108; CFree 1%positive].

Definition demo_rt : JSShapes := match start demo_twins alloc_all with (Ok (Some (rt, _)), _) => rt | _ => empty_runtime end.

(** The twins share one shape, which is in the table with two references. *)
Example twins_share_shape :
  (shape <$> objects demo_rt !! 1%positive) = (shape <$> objects demo_rt !! 2%positive) /\
  (match objects demo_rt !! 1%positive with Some ob => (fun s => (ref_count s, is_hashed s, keys s)) <$> shapes demo_rt !! shape ob | None => None end) = Some (2, true, [(100, 7); (104, 7)]).
Proof. vm_compute. auto. Qed.

Lemma demo_ok : Forall command_ok demo_commands.
Proof. repeat constructor; cbn; lia. Qed.

Lemma objects_refine_witness :
  exists r o', start demo_commands alloc_all = (Ok r, o') /\
    match r with
    | None => ~ grants alloc_all
    | Some (rt, l) => heap (fun _ => 0) rt /\ asteps (grants alloc_all) ∅ demo_commands l (model rt)
    end.
Proof. refine (objects_refine_maps demo_commands alloc_all demo_ok _). reflexivity. Defined.

Lemma demo_heap : heap (fun _ => 0) demo_rt.
Proof.
  assert (Hc : Forall command_ok demo_twins) by (repeat constructor; cbn; lia).
  destruct (gspec_run _ _ alloc_all (start_spec (grants alloc_all) no_exn demo_twins Hc ltac:(reflexivity))) as (r & o' & E1 & H).
  unfold demo_rt. rewrite E1. destruct r as [[rt l]|]; [apply H|]. destruct H. intros n. reflexivity.
Qed.

(** The shape of the twins and the empty shape, which is in the table no more. *)
Definition demo_ptr : sptr := match objects demo_rt !! 1%positive with Some ob => shape ob | None => 1%positive end.
Definition demo_shape : JSShape := match shapes demo_rt !! demo_ptr with Some s => s | None => MkShape 0 false 0 0 0 0 0 None None [] [] end.

Lemma shape_table_witness :
  exists r, find_hashed_shape_prop demo_rt demo_ptr 108 7 = mret r /\
     match r with
     | Some q => exists s', shapes demo_rt !! q = Some s' /\ is_hashed s' = true /\ proto s' = proto demo_shape /\ keys s' = keys demo_shape ++ [(108, 7)]
     | None => forall q s', shapes demo_rt !! q = Some s' -> is_hashed s' = true -> ~ (proto s' = proto demo_shape /\ keys s' = keys demo_shape ++ [(108, 7)])
     end.
Proof.
  refine (proj1 (shape_table_complete (fun _ => 0) demo_rt demo_ptr demo_shape 108 7 None demo_heap _ _)); vm_compute; reflexivity.
Defined.

(** An object with one bucket and 2^26 properties that are all called 5: the next
    one hides them. *)
Lemma property_link_witness :
  let ps := replicate (Z.to_nat (next_limit + 1)) (MkSP 0 7 5) in
  exists ps' ht', link_entry ps [next_limit] 0 next_limit 7 9 = mret (ps', ht') /\
    ps' !! Z.to_nat (next_limit - 1) = Some (MkSP 0 7 5) /\ ht' !! Z.to_nat (Z.land (sp_atom (MkSP 0 7 5)) 0) = Some (next_limit + 1) /\
    forall fuel, find_entry (S (S fuel)) ps' (sp_atom (MkSP 0 7 5)) (next_limit + 1) = mret None.
Proof.
  intros ps. assert (Hn : 1 < next_limit) by reflexivity. apply (property_link_truncated ps 0 [next_limit] (MkSP 0 7 5) 7 9).
  - unfold ps. rewrite len_replicate. lia.
  - apply lookup_replicate_2. lia.
  - reflexivity.
  - discriminate.
  - discriminate.
  - reflexivity.
Qed.
