(* ===== verification/Promise.v ===== *)
(** Promises and the queue of jobs (quickjs.c, hako.c): definitions.

    A promise is pending, fulfilled or rejected, with the reactions that wait for it.
    A pair of resolving functions shares the flag [already_resolved].  Jobs are run
    in the order of the queue; a job calls JavaScript code, which may call resolving
    functions, make promises, add reactions and queue jobs.

    JavaScript code is the type [user]: the calls into this component that a piece
    of code makes, each followed by what it does with the answer.  What the functions
    and the getters of the program do is the parameter [behave], [then_of]. *)
From Stdlib Require Import ZArith Lia.
From S2P Require Import Prelude.
From stdpp Require Import base tactics numbers list gmap fin_sets.

Open Scope Z_scope.

Definition pptr : Type := positive.

(** [VResolving sr is_reject]: a resolving function, [sr] being its
    [JSPromiseFunctionDataResolved]. *)
Inductive JSValue : Type :=
| VUndefined
| VBool (b : bool)
| VPrimitive (n : Z)
| VObject (n : positive)
| VFunction (n : positive)
| VPromise (p : pptr)
| VResolving (sr : pptr) (is_reject : bool).

#[export] Instance JSValue_eq_dec : EqDecision JSValue.
Proof. solve_decision. Defined.

Definition JS_IsUndefined (v : JSValue) : bool := bool_decide (v = VUndefined).
Definition JS_IsObject (v : JSValue) : bool := match v with VObject _ | VFunction _ | VPromise _ | VResolving _ _ => true | _ => false end.
Definition JS_IsFunction (v : JSValue) : bool := match v with VFunction _ | VResolving _ _ => true | _ => false end.

(** The result of a call: a value or an exception. *)
Inductive completion : Type :=
| Normal (v : JSValue)
| Exception (v : JSValue).

Inductive JSPromiseStateEnum : Type := JS_PROMISE_PENDING | JS_PROMISE_FULFILLED | JS_PROMISE_REJECTED.

#[export] Instance JSPromiseStateEnum_eq_dec : EqDecision JSPromiseStateEnum.
Proof. solve_decision. Defined.

Record JSPromiseReactionData : Type := MkReaction {
  resolving_funcs : JSValue * JSValue;
  handler : JSValue
}.

(** The reactions to fulfilment and to rejection. *)
Record JSPromiseData : Type := MkPromise {
  promise_state : JSPromiseStateEnum;
  promise_reactions : list JSPromiseReactionData * list JSPromiseReactionData;
  is_handled : bool;
  promise_result : JSValue
}.

(** The promise and the flag of a pair of resolving functions. *)
Record JSPromiseFunctionData : Type := MkFunctions {
  fd_promise : pptr;
  already_resolved : bool
}.

Inductive JSJobFunc : Type := promise_reaction_job | js_promise_resolve_thenable_job | js_microtask_job.

Record JSJobEntry : Type := MkJob {
  job_func : JSJobFunc;
  job_argv : list JSValue
}.

(** [tracked]: the calls of [host_promise_rejection_tracker].  [calls] counts the
    calls of JavaScript code, so that the same function can behave differently each
    time. *)
Record JSRuntime : Type := MkRuntime {
  promises : gmap pptr JSPromiseData;
  functions : gmap pptr JSPromiseFunctionData;
  job_list : list JSJobEntry;
  tracked : list (pptr * JSValue * bool);
  calls : nat
}.

(** What a piece of JavaScript code does: it returns, calls a resolving function
    ([getter] being what the read of [then] does), evaluates [new Promise], calls
    [then], awaits, or queues a microtask.  Calls of other functions are part of the
    code. *)
Inductive user : Type :=
| UReturn (c : completion)
| UCall (f : JSValue) (argv : list JSValue) (getter : user) (k : completion -> user)
| UConstruct (executor : JSValue) (body : JSValue -> JSValue -> user) (k : completion -> user)
| UThen (promise on_fulfilled on_rejected : JSValue) (k : completion -> user)
| UAwait (promise on_fulfilled on_rejected : JSValue) (k : completion -> user)
| UMicrotask (f : JSValue) (k : completion -> user).

(** [behave n f this argv]: the code that the [n]th call runs; [then_of n v]: the code
    that reads the property [then] of [v]; the errors the engine throws. *)
Class PromiseHost := {
  behave : nat -> JSValue -> JSValue -> list JSValue -> user;
  then_of : nat -> JSValue -> user;
  has_tracker : bool;
  type_error : JSValue;
  global_obj : JSValue;
  out_of_memory : JSValue
}.

Section Promise.
Context `{PH : PromiseHost}.

(** ** State *)

Definition put_promise (rt : JSRuntime) (p : pptr) (s : JSPromiseData) : JSRuntime := MkRuntime (<[p := s]> (promises rt)) (functions rt) (job_list rt) (tracked rt) (calls rt).
Definition put_functions (rt : JSRuntime) (sr : pptr) (s : JSPromiseFunctionData) : JSRuntime := MkRuntime (promises rt) (<[sr := s]> (functions rt)) (job_list rt) (tracked rt) (calls rt).
Definition put_jobs (rt : JSRuntime) (l : list JSJobEntry) : JSRuntime := MkRuntime (promises rt) (functions rt) l (tracked rt) (calls rt).
Definition track (rt : JSRuntime) (p : pptr) (v : JSValue) (handled : bool) : JSRuntime :=
  MkRuntime (promises rt) (functions rt) (job_list rt) (tracked rt ++ (if has_tracker then [(p, v, handled)] else [])) (calls rt).
Definition count_call (rt : JSRuntime) : JSRuntime := MkRuntime (promises rt) (functions rt) (job_list rt) (tracked rt) (S (calls rt)).

Definition new_promise_ptr (rt : JSRuntime) : pptr := fresh (dom (promises rt) : gset pptr).
Definition new_function_ptr (rt : JSRuntime) : pptr := fresh (dom (functions rt) : gset pptr).

Definition reactions_of (s : JSPromiseData) (is_reject : bool) : list JSPromiseReactionData := if is_reject then snd (promise_reactions s) else fst (promise_reactions s).

(** ** The queue *)

Definition JS_EnqueueJob (rt : JSRuntime) (f : JSJobFunc) (argv : list JSValue) : M (JSRuntime * Z) :=
  ok ← try_alloc;
  if negb ok then mret (rt, -1) else mret (put_jobs rt (job_list rt ++ [MkJob f argv]), 0).

Definition JS_IsJobPending (rt : JSRuntime) : bool := negb (bool_decide (job_list rt = [])).

(** ** Settling a promise *)

Definition reaction_args (rd : JSPromiseReactionData) (is_reject : bool) (value : JSValue) : list JSValue :=
  [fst (resolving_funcs rd); snd (resolving_funcs rd); handler rd; VBool is_reject; value].

(** [list_for_each_safe] on the reactions; the result of [JS_EnqueueJob] is not
    used. *)
Fixpoint enqueue_reactions (rt : JSRuntime) (l : list JSPromiseReactionData) (is_reject : bool) (value : JSValue) : M JSRuntime :=
  match l with
  | [] => mret rt
  | rd :: l => '(rt, _) ← JS_EnqueueJob rt promise_reaction_job (reaction_args rd is_reject value); enqueue_reactions rt l is_reject value
  end.

Definition fulfill_or_reject_promise (rt : JSRuntime) (p : pptr) (value : JSValue) (is_reject : bool) : M JSRuntime :=
  match promises rt !! p with
  | None => mret rt
  | Some s =>
      if negb (bool_decide (promise_state s = JS_PROMISE_PENDING)) then mret rt
      else
        let state := if is_reject then JS_PROMISE_REJECTED else JS_PROMISE_FULFILLED in
        let rt := put_promise rt p (MkPromise state ([], []) (is_handled s) value) in
        let rt := if is_reject && negb (is_handled s) then track rt p value false else rt in
        enqueue_reactions rt (reactions_of s is_reject) is_reject value
  end.

Definition reject_promise (rt : JSRuntime) (p : pptr) (value : JSValue) : M JSRuntime := fulfill_or_reject_promise rt p value true.

(** ** Resolving functions *)

(** The loop makes two function objects, each with its data. *)
Definition js_create_resolving_functions (rt : JSRuntime) (p : pptr) : M (JSRuntime * option pptr) :=
  ok ← try_alloc;
  if negb ok then mret (rt, None)
  else
    ok ← try_alloc;
    if negb ok then mret (rt, None)
    else
      ok ← try_alloc;
      if negb ok then mret (rt, None)
      else
        ok ← try_alloc;
        if negb ok then mret (rt, None)
        else
          ok ← try_alloc;
          if negb ok then mret (rt, None)
          else
            let sr := new_function_ptr rt in
            mret (put_functions rt sr (MkFunctions p false), Some sr).

(** [getter] reads the property [then] of the resolution. *)
Definition js_promise_resolve_function_call (rt : JSRuntime) (sr : pptr) (s : JSPromiseFunctionData) (is_reject : bool) (argv : list JSValue)
    (getter : JSRuntime -> M (JSRuntime * completion)) : M (JSRuntime * completion) :=
  if already_resolved s then mret (rt, Normal VUndefined)
  else
    let rt := put_functions rt sr (MkFunctions (fd_promise s) true) in
    let resolution := match argv with v :: _ => v | [] => VUndefined end in
    if is_reject || negb (JS_IsObject resolution) then
      rt ← fulfill_or_reject_promise rt (fd_promise s) resolution is_reject; mret (rt, Normal VUndefined)
    else if bool_decide (resolution = VPromise (fd_promise s)) then
      rt ← reject_promise rt (fd_promise s) type_error; mret (rt, Normal VUndefined)
    else
      '(rt, c) ← getter rt;
      match c with
      | Exception error => rt ← reject_promise rt (fd_promise s) error; mret (rt, Normal VUndefined)
      | Normal v =>
          if negb (JS_IsFunction v) then
            rt ← fulfill_or_reject_promise rt (fd_promise s) resolution is_reject; mret (rt, Normal VUndefined)
          else
            '(rt, _) ← JS_EnqueueJob rt js_promise_resolve_thenable_job [VPromise (fd_promise s); resolution; v];
            mret (rt, Normal VUndefined)
      end.

(** [JS_Call] on a resolving function. *)
Definition call_resolving (rt : JSRuntime) (f : JSValue) (argv : list JSValue) (getter : JSRuntime -> M (JSRuntime * completion)) : M (JSRuntime * completion) :=
  match f with
  | VResolving sr is_reject =>
      match functions rt !! sr with
      | Some s => js_promise_resolve_function_call rt sr s is_reject argv getter
      | None => mret (rt, Exception type_error)
      end
  | _ => mret (rt, Exception type_error)
  end.

(** ** New promises *)

(** [body] is the call of the executor with the two resolving functions. *)
Definition js_promise_constructor (rt : JSRuntime) (executor : JSValue) (body : JSRuntime -> JSValue -> JSValue -> M (JSRuntime * completion)) : M (JSRuntime * completion) :=
  if negb (JS_IsFunction executor) then mret (rt, Exception type_error)
  else
    ok ← try_alloc;
    if negb ok then mret (rt, Exception out_of_memory)
    else
      ok ← try_alloc;
      if negb ok then mret (rt, Exception out_of_memory)
      else
        let p := new_promise_ptr rt in
        let rt' := put_promise rt p (MkPromise JS_PROMISE_PENDING ([], []) false VUndefined) in
        '(rt', r) ← js_create_resolving_functions rt' p;
        match r with
        | None => mret (rt, Exception out_of_memory)
        | Some sr =>
            '(rt, ret) ← body rt' (VResolving sr false) (VResolving sr true);
            match ret with
            | Normal _ => mret (rt, Normal (VPromise p))
            | Exception error =>
                '(rt, ret2) ← call_resolving rt (VResolving sr true) [error] (fun rt => mret (rt, Normal VUndefined));
                match ret2 with
                | Normal _ => mret (rt, Normal (VPromise p))
                | Exception e => mret (rt, Exception e)
                end
            end
        end.

(** [js_new_promise_capability] for the constructor [Promise]: the executor
    [js_promise_executor] stores the resolving functions. *)
Definition JS_NewPromiseCapability (rt : JSRuntime) : M (JSRuntime * option (pptr * pptr)) :=
  ok ← try_alloc;
  if negb ok then mret (rt, None)
  else
    ok ← try_alloc;
    if negb ok then mret (rt, None)
    else
      ok ← try_alloc;
      if negb ok then mret (rt, None)
      else
        let p := new_promise_ptr rt in
        '(rt', r) ← js_create_resolving_functions (put_promise rt p (MkPromise JS_PROMISE_PENDING ([], []) false VUndefined)) p;
        match r with
        | None => mret (rt, None)
        | Some sr => mret (rt', Some (p, sr))
        end.

(** ** Reactions *)

Definition handler_of (v : JSValue) : JSValue := if negb (JS_IsFunction v) then VUndefined else v.

Definition perform_promise_then (rt : JSRuntime) (p : pptr) (s : JSPromiseData) (on_fulfilled on_rejected : JSValue) (cap : JSValue * JSValue) : M (JSRuntime * Z) :=
  ok ← try_alloc;
  if negb ok then mret (rt, -1)
  else
    ok ← try_alloc;
    if negb ok then mret (rt, -1)
    else
      let rd0 := MkReaction cap (handler_of on_fulfilled) in
      let rd1 := MkReaction cap (handler_of on_rejected) in
      match promise_state s with
      | JS_PROMISE_PENDING =>
          mret (put_promise rt p (MkPromise JS_PROMISE_PENDING (fst (promise_reactions s) ++ [rd0], snd (promise_reactions s) ++ [rd1]) true (promise_result s)), 0)
      | state =>
          let is_reject := bool_decide (state = JS_PROMISE_REJECTED) in
          let rt := if is_reject && negb (is_handled s) then track rt p (promise_result s) true else rt in
          let rd := if is_reject : bool then rd1 else rd0 in
          '(rt, _) ← JS_EnqueueJob rt promise_reaction_job (reaction_args rd is_reject (promise_result s));
          mret (put_promise rt p (MkPromise (promise_state s) (promise_reactions s) true (promise_result s)), 0)
      end.

Definition promise_data (rt : JSRuntime) (v : JSValue) : option (pptr * JSPromiseData) :=
  match v with VPromise p => (fun s => (p, s)) <$> promises rt !! p | _ => None end.

(** For a promise whose species constructor is [Promise]. *)
Definition js_promise_then (rt : JSRuntime) (this on_fulfilled on_rejected : JSValue) : M (JSRuntime * completion) :=
  match promise_data rt this with
  | None => mret (rt, Exception type_error)
  | Some (p, _) =>
      '(rt, r) ← JS_NewPromiseCapability rt;
      match r with
      | None => mret (rt, Exception out_of_memory)
      | Some (q, sr) =>
          match promises rt !! p with
          | None => undefined
          | Some s =>
              '(rt, ret) ← perform_promise_then rt p s on_fulfilled on_rejected (VResolving sr false, VResolving sr true);
              if negb (ret =? 0) then mret (rt, Exception out_of_memory) else mret (rt, Normal (VPromise q))
          end
      end
  end.

(** [perform_promise_then] without a result promise, as [await] uses it. *)
Definition await_then (rt : JSRuntime) (this on_fulfilled on_rejected : JSValue) : M (JSRuntime * completion) :=
  match promise_data rt this with
  | None => mret (rt, Exception type_error)
  | Some (p, s) =>
      '(rt, ret) ← perform_promise_then rt p s on_fulfilled on_rejected (VUndefined, VUndefined);
      if negb (ret =? 0) then mret (rt, Exception out_of_memory) else mret (rt, Normal VUndefined)
  end.

Definition js_global_queueMicrotask (rt : JSRuntime) (f : JSValue) : M (JSRuntime * completion) :=
  if negb (JS_IsFunction f) then mret (rt, Exception type_error)
  else
    '(rt, r) ← JS_EnqueueJob rt js_microtask_job [f];
    if negb (r =? 0) then mret (rt, Exception out_of_memory) else mret (rt, Normal VUndefined).

(** ** JavaScript code *)

Fixpoint exec (u : user) (rt : JSRuntime) : M (JSRuntime * completion) :=
  match u with
  | UReturn c => mret (rt, c)
  | UCall f argv getter k => '(rt, c) ← call_resolving rt f argv (fun rt => exec getter rt); exec (k c) rt
  | UConstruct executor body k => '(rt, c) ← js_promise_constructor rt executor (fun rt resolve reject => exec (body resolve reject) rt); exec (k c) rt
  | UThen promise on_fulfilled on_rejected k => '(rt, c) ← js_promise_then rt promise on_fulfilled on_rejected; exec (k c) rt
  | UAwait promise on_fulfilled on_rejected k => '(rt, c) ← await_then rt promise on_fulfilled on_rejected; exec (k c) rt
  | UMicrotask f k => '(rt, c) ← js_global_queueMicrotask rt f; exec (k c) rt
  end.

(** [JS_Call] from a job. *)
Definition JS_Call (rt : JSRuntime) (f this : JSValue) (argv : list JSValue) : M (JSRuntime * completion) :=
  let n := calls rt in
  let rt := count_call rt in
  match f with
  | VFunction _ => exec (behave n f this argv) rt
  | _ => call_resolving rt f argv (exec (then_of n (match argv with v :: _ => v | [] => VUndefined end)))
  end.

(** ** Jobs *)

Definition JS_ToBool (v : JSValue) : bool := match v with VBool b => b | VUndefined => false | VPrimitive n => negb (n =? 0) | _ => true end.

Definition reaction_run (rt : JSRuntime) (argv : list JSValue) : M (JSRuntime * completion) :=
  match argv with
  | [func0; func1; h; r; arg] =>
      '(rt, res) ←
        (if JS_IsUndefined h then mret (rt, if JS_ToBool r then Exception arg else Normal arg)
         else JS_Call rt h VUndefined [arg]);
      let '(func, v) := match res with Normal v => (func0, v) | Exception v => (func1, v) end in
      if negb (JS_IsUndefined func) then JS_Call rt func VUndefined [v] else mret (rt, Normal VUndefined)
  | _ => undefined
  end.

Definition thenable_run (rt : JSRuntime) (argv : list JSValue) : M (JSRuntime * completion) :=
  match argv with
  | [VPromise p; thenable; v_then] =>
      '(rt, r) ← js_create_resolving_functions rt p;
      match r with
      | None => mret (rt, Exception out_of_memory)
      | Some sr =>
          '(rt, res) ← JS_Call rt v_then thenable [VResolving sr false; VResolving sr true];
          match res with
          | Exception error => JS_Call rt (VResolving sr true) VUndefined [error]
          | Normal v => mret (rt, Normal v)
          end
      end
  | _ => undefined
  end.

Definition microtask_run (rt : JSRuntime) (argv : list JSValue) : M (JSRuntime * completion) :=
  match argv with
  | [f] => JS_Call rt f global_obj []
  | _ => undefined
  end.

Definition run_job (rt : JSRuntime) (e : JSJobEntry) : M (JSRuntime * completion) :=
  match job_func e with
  | promise_reaction_job => reaction_run rt (job_argv e)
  | js_promise_resolve_thenable_job => thenable_run rt (job_argv e)
  | js_microtask_job => microtask_run rt (job_argv e)
  end.

(** The result and the job that ran. *)
Definition JS_ExecutePendingJob (rt : JSRuntime) : M (JSRuntime * Z * option JSJobEntry) :=
  match job_list rt with
  | [] => mret (rt, 0, None)
  | e :: l =>
      '(rt, res) ← run_job (put_jobs rt l) e;
      mret (rt, match res with Exception _ => -1 | Normal _ => 1 end, Some e)
  end.

(** [while (executed != maxJobsToExecute && status == 1)]; the fuel bounds the
    number of rounds. *)
Fixpoint hako_loop (fuel : nat) (rt : JSRuntime) (max executed status : Z) : M (JSRuntime * Z) :=
  if negb (executed =? max) && (status =? 1) then
    match fuel with
    | O => undefined
    | S fuel =>
        '(rt, status, _) ← JS_ExecutePendingJob rt;
        if status =? -1 then mret (rt, -1)
        else hako_loop fuel rt max (if status =? 1 then executed + 1 else executed) status
    end
  else mret (rt, executed).

Definition HAKO_ExecutePendingJob (fuel : nat) (rt : JSRuntime) (max : Z) : M (JSRuntime * Z) := hako_loop fuel rt max 0 1.

End Promise.
