(* ===== verification/PromiseOps.v ===== *)
(** The invariant of promises: at most one pair of resolving functions or one queued
    thenable job can still settle a pending promise, and none a settled one; every
    operation on promises, any JavaScript code and every job keep it.

    [claims rt p] counts what can settle [p] or has settled it.  The invariant [ok]
    bounds it by one; [later] is what any piece of JavaScript code does to the
    state: settled promises stay as they are, pending ones keep their reactions, flags
    stay set, claims do not grow and jobs are only added at the end of the queue. *)
From Stdlib Require Import ZArith Lia.
From S2P Require Import Prelude Promise.
From stdpp Require Import base tactics numbers list gmap fin_sets.

Open Scope Z_scope.

Section Specs.
Context `{PH : PromiseHost}.
Implicit Types (rt : JSRuntime) (fs : gmap pptr JSPromiseFunctionData).

(** ** Claims *)

Definition settled (s : JSPromiseData) : bool := negb (bool_decide (promise_state s = JS_PROMISE_PENDING)).

Definition open_pair (p : pptr) (f : JSPromiseFunctionData) : Prop := fd_promise f = p /\ already_resolved f = false.

#[export] Instance open_pair_dec p f : Decision (open_pair p f).
Proof. unfold open_pair. apply _. Defined.

Definition open_pairs fs (p : pptr) : nat := size (filter (fun kv => open_pair p kv.2) fs).

Definition thenable_for (p : pptr) (e : JSJobEntry) : Prop :=
  job_func e = js_promise_resolve_thenable_job /\ head (job_argv e) = Some (VPromise p).

#[export] Instance JSJobFunc_eq_dec : EqDecision JSJobFunc.
Proof. solve_decision. Defined.

#[export] Instance thenable_for_dec p e : Decision (thenable_for p e).
Proof. unfold thenable_for. apply _. Defined.

Definition open_jobs (l : list JSJobEntry) (p : pptr) : nat := length (filter (thenable_for p) l).

Definition settled_at (m : gmap pptr JSPromiseData) (p : pptr) : nat := match m !! p with Some s => if settled s then 1%nat else 0%nat | None => 0%nat end.

Definition claims rt (p : pptr) : nat := (open_pairs (functions rt) p + open_jobs (job_list rt) p + settled_at (promises rt) p)%nat.

Definition unit_if (b : bool) : nat := if b then 1%nat else 0%nat.

Lemma open_pairs_insert fs sr f p : fs !! sr = None -> open_pairs (<[sr := f]> fs) p = (open_pairs fs p + unit_if (bool_decide (open_pair p f)))%nat.
Proof.
  intros Hn. unfold open_pairs. rewrite map_filter_insert. cbn. case_decide as Hd.
  - rewrite bool_decide_eq_true_2 by exact Hd. rewrite map_size_insert_None; [cbn; lia|]. apply map_lookup_filter_None. left. exact Hn.
  - rewrite bool_decide_eq_false_2 by exact Hd. rewrite map_filter_delete, delete_id; [cbn; lia|]. apply map_lookup_filter_None. left. exact Hn.
Qed.

Lemma open_pairs_delete fs sr f p : fs !! sr = Some f -> open_pairs fs p = (open_pairs (delete sr fs) p + unit_if (bool_decide (open_pair p f)))%nat.
Proof. intros H. rewrite <- (insert_delete_id fs sr f H) at 1. apply open_pairs_insert, lookup_delete_eq. Qed.

(** A pair that is used up. *)
Lemma open_pairs_use fs sr f p : fs !! sr = Some f -> already_resolved f = false ->
  (open_pairs (<[sr := MkFunctions (fd_promise f) true]> fs) p + unit_if (bool_decide (fd_promise f = p)))%nat = open_pairs fs p.
Proof.
  intros H Ha. rewrite (open_pairs_delete fs sr f p H), <- (insert_delete_eq fs), open_pairs_insert by apply lookup_delete_eq.
  rewrite (bool_decide_eq_false_2 (open_pair p (MkFunctions (fd_promise f) true))) by (intros [_ Hx]; discriminate).
  assert (bool_decide (open_pair p f) = bool_decide (fd_promise f = p)) as -> by (apply bool_decide_ext; unfold open_pair; tauto). cbn. lia.
Qed.

Lemma open_jobs_app l l' p : open_jobs (l ++ l') p = (open_jobs l p + open_jobs l' p)%nat.
Proof. unfold open_jobs. rewrite filter_app, length_app. reflexivity. Qed.

Lemma open_jobs_one e p : open_jobs [e] p = unit_if (bool_decide (thenable_for p e)).
Proof. unfold open_jobs. rewrite filter_cons. case_decide as Hd; [rewrite bool_decide_eq_true_2 by exact Hd|rewrite bool_decide_eq_false_2 by exact Hd]; reflexivity. Qed.

(** ** The invariant *)

Definition job_ok (m : gmap pptr JSPromiseData) (e : JSJobEntry) : Prop :=
  match job_func e with
  | promise_reaction_job => length (job_argv e) = 5%nat
  | js_promise_resolve_thenable_job => exists p v w, job_argv e = [VPromise p; v; w] /\ is_Some (m !! p)
  | js_microtask_job => length (job_argv e) = 1%nat
  end.

Record ok rt : Prop := {
  ok_claims : forall p s, promises rt !! p = Some s -> (claims rt p <= 1)%nat;
  ok_owner : forall sr f, functions rt !! sr = Some f -> is_Some (promises rt !! fd_promise f);
  ok_jobs : Forall (job_ok (promises rt)) (job_list rt);
  ok_settled : forall p s, promises rt !! p = Some s -> settled s = true -> promise_reactions s = ([], [])
}.

(** [x]: a promise whose claims may grow. *)
Record later (x : option pptr) rt rt' : Prop := {
  la_promises : forall p s, promises rt !! p = Some s ->
    exists s', promises rt' !! p = Some s' /\ (settled s = true -> promise_state s' = promise_state s /\ promise_result s' = promise_result s);
  la_functions : forall sr f, functions rt !! sr = Some f -> exists f', functions rt' !! sr = Some f' /\ fd_promise f' = fd_promise f /\ (already_resolved f = true -> already_resolved f' = true);
  la_claims : forall p s, promises rt !! p = Some s -> Some p <> x -> (claims rt' p <= claims rt p)%nat;
  la_jobs : exists l, job_list rt' = job_list rt ++ l;
  la_reactions : forall p s s', promises rt !! p = Some s -> promises rt' !! p = Some s' -> settled s' = false -> forall r, reactions_of s r `prefix_of` reactions_of s' r
}.

Lemma same_reactions (m : gmap pptr JSPromiseData) p s s' : m !! p = Some s -> m !! p = Some s' -> settled s' = false -> forall r, reactions_of s r `prefix_of` reactions_of s' r.
Proof. intros H H' _ r. rewrite H in H'. injection H' as <-. reflexivity. Qed.

Lemma later_refl x rt : later x rt rt.
Proof. split; [eauto|eauto|auto|exists []; rewrite app_nil_r; reflexivity|apply same_reactions]. Qed.

Lemma settled_eq s s' : promise_state s' = promise_state s -> settled s' = settled s.
Proof. intros H. unfold settled. rewrite H. reflexivity. Qed.

Lemma later_trans x rt1 rt2 rt3 : later x rt1 rt2 -> later x rt2 rt3 -> later x rt1 rt3.
Proof.
  intros [A1 A2 A3 [l A4] A5] [B1 B2 B3 [l' B4] B5]. split.
  - intros p s Hp. destruct (A1 p s Hp) as (s2 & H2 & E2). destruct (B1 p s2 H2) as (s3 & H3 & E3). exists s3. split; [exact H3|]. intros Hs. destruct (E2 Hs) as [E4 E5].
    destruct (E3 (eq_trans (settled_eq _ _ E4) Hs)) as [E6 E7]. split; congruence.
  - intros sr f Hf. destruct (A2 sr f Hf) as (f2 & H2 & E2 & E2'). destruct (B2 sr f2 H2) as (f3 & H3 & E3 & E3'). exists f3. split; [exact H3|]. split; [congruence|auto].
  - intros p s Hp Hx. destruct (A1 p s Hp) as (s2 & H2 & _). specialize (A3 p s Hp Hx). specialize (B3 p s2 H2 Hx). lia.
  - exists (l ++ l'). rewrite B4, A4, app_assoc. reflexivity.
  - intros p s s3 Hp H3 Hs r. destruct (A1 p s Hp) as (s2 & H2 & _). destruct (B1 p s2 H2) as (s3' & H3' & E3). rewrite H3 in H3'. injection H3' as <-.
    transitivity (reactions_of s2 r); [apply (A5 p s s2 Hp H2)|apply (B5 p s2 s3 H2 H3 Hs)]. destruct (settled s2) eqn:E2; [|reflexivity]. rewrite <- (settled_eq s2 s3), Hs in E2 by apply E3, eq_refl. discriminate.
Qed.

Lemma later_some x rt rt' : later None rt rt' -> later x rt rt'.
Proof. intros [A1 A2 A3 A4 A5]. split; [exact A1|exact A2| |exact A4|exact A5]. intros p s Hp _. apply (A3 p s Hp). discriminate. Qed.

(** The claim that [p] had is used. *)
Lemma later_spend p rt rt' : later (Some p) rt rt' -> ok rt' -> (claims rt p = 1)%nat -> later None rt rt'.
Proof.
  intros [A1 A2 A3 A4 A5] Hok Hc. split; [exact A1|exact A2| |exact A4|exact A5]. intros q s Hq _. destruct (decide (q = p)) as [->|Hne]; [|apply (A3 q s Hq); congruence].
  destruct (A1 p s Hq) as (s' & Hs' & _). pose proof (ok_claims _ Hok p s' Hs'). lia.
Qed.

Lemma job_ok_mono m m' e : (forall p, is_Some (m !! p) -> is_Some (m' !! p)) -> job_ok m e -> job_ok m' e.
Proof. intros H. unfold job_ok. destruct (job_func e); auto. intros (p & v & w & E & Hp). exists p, v, w. auto. Qed.

Lemma jobs_ok_mono m m' l : (forall p, is_Some (m !! p) -> is_Some (m' !! p)) -> Forall (job_ok m) l -> Forall (job_ok m') l.
Proof. intros H Hl. apply (Forall_impl _ _ _ Hl). intros e. apply job_ok_mono, H. Qed.

Lemma insert_is_some {A} (m : gmap pptr A) p x : forall q, is_Some (m !! q) -> is_Some (<[p := x]> m !! q).
Proof. intros q Hq. apply lookup_insert_is_Some. destruct (decide (p = q)); auto. Qed.

(** The parts of the state that are not counted. *)
Lemma ok_same rt rt' : promises rt' = promises rt -> functions rt' = functions rt -> job_list rt' = job_list rt -> ok rt -> ok rt' /\ later None rt rt'.
Proof.
  intros E1 E2 E3 [H1 H2 H3 H4]. assert (Ec : forall p, claims rt' p = claims rt p) by (intros p; unfold claims; rewrite E1, E2, E3; reflexivity). split.
  - split; rewrite ?E1, ?E2, ?E3; try assumption. intros p s Hp. rewrite Ec. apply (H1 p s Hp).
  - split; [intros p s Hp; exists s; rewrite E1; auto|intros sr f Hf; exists f; rewrite E2; auto|intros p s _ _; rewrite Ec; lia|exists []; rewrite E3, app_nil_r; reflexivity|rewrite E1; apply same_reactions].
Qed.

(** A new job that is not a thenable job. *)
Lemma ok_add_job rt e : ok rt -> job_ok (promises rt) e -> job_func e <> js_promise_resolve_thenable_job ->
  let rt' := put_jobs rt (job_list rt ++ [e]) in ok rt' /\ later None rt rt'.
Proof.
  intros Hok He Hne rt'. pose proof Hok as [H1 H2 H3 H4]. assert (Ec : forall p, claims rt' p = claims rt p).
  { intros p. unfold claims. unfold rt'. cbn [functions job_list promises put_promise put_jobs put_functions]. rewrite open_jobs_app, open_jobs_one, bool_decide_eq_false_2 by (intros [Hx _]; congruence). cbn. lia. }
  split; [split; [intros p s Hp; rewrite Ec; apply (H1 p s Hp)|exact H2|apply Forall_app; auto|exact H4]|].
  split; [eauto|eauto|intros p s _ _; rewrite Ec; lia|exists [e]; reflexivity|apply same_reactions].
Qed.

(** A promise in another state with the same claim. *)
Lemma ok_put_promise rt p s s' : ok rt -> promises rt !! p = Some s -> promise_state s' = promise_state s -> promise_result s' = promise_result s -> (settled s' = true -> promise_reactions s' = ([], [])) -> (forall r, reactions_of s r `prefix_of` reactions_of s' r) ->
  let rt' := put_promise rt p s' in ok rt' /\ later None rt rt'.
Proof.
  intros [H1 H2 H3 H4] Hp Es Er Hr Hx rt'. assert (Ec : forall q, claims rt' q = claims rt q).
  { intros q. unfold claims, settled_at. unfold rt'. cbn [functions job_list promises put_promise put_jobs put_functions]. destruct (decide (q = p)) as [->|Hne]; [rewrite lookup_insert_eq, Hp, (settled_eq s s' Es)|rewrite lookup_insert_ne by congruence]; reflexivity. }
  split.
  - split; cbn.
    + intros q t Hq. rewrite Ec. apply lookup_insert_Some in Hq. destruct Hq as [[<- _]|[_ Hq]]; [apply (H1 p s Hp)|apply (H1 q t Hq)].
    + intros sr f Hf. apply insert_is_some, (H2 sr f Hf).
    + apply (jobs_ok_mono _ _ _ (insert_is_some _ _ _) H3).
    + intros q t Hq. apply lookup_insert_Some in Hq. destruct Hq as [[_ <-]|[_ Hq]]; [exact Hr|apply (H4 q t Hq)].
  - split; cbn.
    + intros q t Hq. destruct (decide (q = p)) as [->|Hne]; [exists s'; rewrite lookup_insert_eq; split; [reflexivity|]; rewrite Hp in Hq; injection Hq as <-; auto|exists t; rewrite lookup_insert_ne by congruence; auto].
    + eauto.
    + intros q t _ _. rewrite Ec. lia.
    + exists []. rewrite app_nil_r. reflexivity.
    + intros q t t' Hq Hq'. apply lookup_insert_Some in Hq' as [[<- <-]|[_ Hq']]; [|exact (same_reactions _ q t t' Hq Hq')]. rewrite Hp in Hq. injection Hq as <-. auto.
Qed.

(** A pending promise without claims is settled. *)
Lemma ok_settle rt p s s' : ok rt -> promises rt !! p = Some s -> claims rt p = 0%nat -> settled s' = true -> promise_reactions s' = ([], []) ->
  let rt' := put_promise rt p s' in ok rt' /\ later (Some p) rt rt'.
Proof.
  intros [H1 H2 H3 H4] Hp Hc Hs Hr rt'. assert (Hs0 : settled s = false) by (unfold claims, settled_at in Hc; rewrite Hp in Hc; destruct (settled s); [lia|reflexivity]).
  assert (Ec : forall q, q <> p -> claims rt' q = claims rt q) by (intros q Hne; unfold claims, settled_at; unfold rt'; cbn [functions job_list promises put_promise put_jobs put_functions]; rewrite lookup_insert_ne by congruence; reflexivity).
  assert (Ep : claims rt' p = 1%nat) by (unfold claims, settled_at in *; unfold rt'; cbn [functions job_list promises put_promise put_jobs put_functions]; rewrite lookup_insert_eq, Hs; lia). split.
  - split; cbn.
    + intros q t Hq. destruct (decide (q = p)) as [->|Hne]; [lia|]. rewrite Ec by exact Hne. rewrite lookup_insert_ne in Hq by congruence. apply (H1 q t Hq).
    + intros sr f Hf. apply insert_is_some, (H2 sr f Hf).
    + apply (jobs_ok_mono _ _ _ (insert_is_some _ _ _) H3).
    + intros q t Hq. apply lookup_insert_Some in Hq. destruct Hq as [[_ <-]|[_ Hq]]; [auto|apply (H4 q t Hq)].
  - split; cbn.
    + intros q t Hq. destruct (decide (q = p)) as [->|Hne]; [exists s'; rewrite lookup_insert_eq; split; [reflexivity|]; rewrite Hp in Hq; injection Hq as <-; congruence|exists t; rewrite lookup_insert_ne by congruence; auto].
    + eauto.
    + intros q t Hq Hx. rewrite Ec by congruence. lia.
    + exists []. rewrite app_nil_r. reflexivity.
    + intros q t t' Hq Hq'. apply lookup_insert_Some in Hq' as [[<- <-]|[_ Hq']]; [congruence|exact (same_reactions _ q t t' Hq Hq')].
Qed.

(** A promise that does not exist yet. *)
Lemma claims_absent rt p : ok rt -> promises rt !! p = None -> claims rt p = 0%nat.
Proof.
  intros Hok Hp. unfold claims, settled_at. rewrite Hp. assert (open_pairs (functions rt) p = 0%nat) as ->.
  { unfold open_pairs. apply map_size_empty_iff, map_empty. intros sr. apply map_lookup_filter_None. right. intros f Hf [Hx _]. cbn in Hx. destruct (ok_owner _ Hok sr f Hf) as [s Hs]. congruence. }
  assert (open_jobs (job_list rt) p = 0%nat) as ->; [|reflexivity]. unfold open_jobs. pose proof (ok_jobs _ Hok) as HJ. induction HJ as [|e l He _ IH]; [reflexivity|]. rewrite filter_cons_False; [exact IH|].
  intros [Hf Ha]. unfold job_ok in He. rewrite Hf in He. destruct He as (q & v & w & E & [s Hs]). rewrite E in Ha. cbn in Ha. injection Ha as ->. congruence.
Qed.

Lemma later_new x p rt rt1 rt2 : later None rt rt1 -> later (Some p) rt1 rt2 -> promises rt !! p = None -> later x rt rt2.
Proof.
  intros H1 H2 Hp. apply later_some. pose proof (later_trans (Some p) _ _ _ (later_some _ _ _ H1) H2) as [A1 A2 A3 A4 A5]. split; [exact A1|exact A2| |exact A4|exact A5]. intros q s Hq _. apply (A3 q s Hq). congruence.
Qed.

Definition fresh_promise : JSPromiseData := MkPromise JS_PROMISE_PENDING ([], []) false VUndefined.

Lemma ok_new_promise rt p : ok rt -> promises rt !! p = None -> let rt' := put_promise rt p fresh_promise in ok rt' /\ later None rt rt' /\ claims rt' p = 0%nat.
Proof.
  intros Hok Hp rt'. pose proof Hok as [H1 H2 H3 H4]. pose proof (claims_absent rt p Hok Hp) as Hc. assert (Ec : forall q, claims rt' q = claims rt q).
  { intros q. unfold claims, settled_at. unfold rt'. cbn [functions job_list promises put_promise]. destruct (decide (q = p)) as [->|Hne]; [rewrite lookup_insert_eq, Hp|rewrite lookup_insert_ne by congruence]; reflexivity. }
  split; [|split; [|rewrite Ec; exact Hc]].
  - split; cbn.
    + intros q t Hq. rewrite Ec. destruct (decide (q = p)) as [->|Hne]; [lia|]. rewrite lookup_insert_ne in Hq by congruence. apply (H1 q t Hq).
    + intros sr f Hf. apply insert_is_some, (H2 sr f Hf).
    + apply (jobs_ok_mono _ _ _ (insert_is_some _ _ _) H3).
    + intros q t Hq. apply lookup_insert_Some in Hq. destruct Hq as [[_ <-]|[_ Hq]]; [discriminate|apply (H4 q t Hq)].
  - split; cbn; [|eauto|intros q t _ _; rewrite Ec; lia|exists []; rewrite app_nil_r; reflexivity|].
    + intros q t Hq. exists t. rewrite lookup_insert_ne by congruence. auto.
    + intros q t t' Hq Hq'. rewrite lookup_insert_ne in Hq' by congruence. exact (same_reactions _ q t t' Hq Hq').
Qed.

Lemma new_function_fresh rt : functions rt !! new_function_ptr rt = None.
Proof. apply (not_elem_of_dom (D := gset pptr)). unfold new_function_ptr. apply is_fresh. Qed.

Lemma new_promise_fresh rt : promises rt !! new_promise_ptr rt = None.
Proof. apply (not_elem_of_dom (D := gset pptr)). unfold new_promise_ptr. apply is_fresh. Qed.

(** A new pair of resolving functions. *)
Lemma ok_new_pair rt p s sr : ok rt -> promises rt !! p = Some s -> claims rt p = 0%nat -> functions rt !! sr = None ->
  let rt' := put_functions rt sr (MkFunctions p false) in ok rt' /\ later (Some p) rt rt' /\ claims rt' p = 1%nat.
Proof.
  intros [H1 H2 H3 H4] Hp Hc Hn rt'. assert (Ec : forall q, claims rt' q = (claims rt q + unit_if (bool_decide (open_pair q (MkFunctions p false))))%nat).
  { intros q. unfold claims, rt'. cbn [functions job_list promises put_functions]. rewrite open_pairs_insert by exact Hn. lia. }
  assert (Eq : forall q, q <> p -> claims rt' q = claims rt q) by (intros q Hne; rewrite Ec, bool_decide_eq_false_2 by (intros [Hx _]; cbn in Hx; congruence); cbn; lia).
  assert (Ep : claims rt' p = 1%nat) by (rewrite Ec, bool_decide_eq_true_2 by (split; reflexivity); cbn; lia). split; [|split; [|exact Ep]].
  - split; cbn; [|intros sr' f Hf; apply lookup_insert_Some in Hf; destruct Hf as [[_ <-]|[_ Hf]]; [cbn; eauto|apply (H2 sr' f Hf)]|exact H3|exact H4].
    intros q t Hq. destruct (decide (q = p)) as [->|Hne]; [lia|rewrite Eq by exact Hne; apply (H1 q t Hq)].
  - split; cbn; [eauto| |intros q t Hq Hx; rewrite Eq by congruence; lia|exists []; rewrite app_nil_r; reflexivity|apply same_reactions].
    intros sr' f Hf. exists f. rewrite lookup_insert_ne by congruence. auto.
Qed.

(** A pair that is used: it was the only claim on its promise, which is pending. *)
Lemma ok_use_pair rt sr f : ok rt -> functions rt !! sr = Some f -> already_resolved f = false ->
  let rt' := put_functions rt sr (MkFunctions (fd_promise f) true) in
  ok rt' /\ later None rt rt' /\ claims rt (fd_promise f) = 1%nat /\ claims rt' (fd_promise f) = 0%nat /\ exists s, promises rt !! fd_promise f = Some s /\ promise_state s = JS_PROMISE_PENDING.
Proof.
  intros [H1 H2 H3 H4] Hf Ha rt'. set (p := fd_promise f) in *. destruct (H2 sr f Hf) as [s Hs]. fold p in Hs. pose proof (H1 p s Hs) as Hle.
  assert (Ec : forall q, (claims rt' q + unit_if (bool_decide (p = q)))%nat = claims rt q) by (intros q; unfold claims, rt'; cbn [functions job_list promises put_functions]; pose proof (open_pairs_use (functions rt) sr f q Hf Ha) as Hu; fold p in Hu; lia).
  pose proof (Ec p) as Ep. rewrite bool_decide_eq_true_2 in Ep by reflexivity. cbn in Ep.
  assert (Hp : promise_state s = JS_PROMISE_PENDING). { unfold claims, settled_at in Ep. change (promises rt') with (promises rt) in Ep. rewrite Hs in Ep. unfold claims, settled_at in Hle. rewrite Hs in Hle. unfold settled in *. destruct (bool_decide_reflect (promise_state s = JS_PROMISE_PENDING)); [assumption|]. cbn in *. lia. }
  split; [|split; [|split; [lia|split; [lia|eauto]]]].
  - split; cbn; [intros q t Hq; pose proof (Ec q); pose proof (H1 q t Hq); lia|intros sr' g Hg; apply lookup_insert_Some in Hg; destruct Hg as [[_ <-]|[_ Hg]]; [cbn; eauto|apply (H2 sr' g Hg)]|exact H3|exact H4].
  - split; cbn; [eauto| |intros q t _ _; pose proof (Ec q); lia|exists []; rewrite app_nil_r; reflexivity|apply same_reactions].
    intros sr' g Hg. destruct (decide (sr' = sr)) as [->|Hne]; [exists (MkFunctions p true); rewrite lookup_insert_eq; split; [reflexivity|]; rewrite Hf in Hg; injection Hg as <-; auto|exists g; rewrite lookup_insert_ne by congruence; auto].
Qed.

(** ** The operations *)

Section Alloc.
Context (G : Prop) (E : exn -> Prop).

Definition fine rt {A} (q : JSRuntime * A) : Prop := ok (fst q) /\ later None rt (fst q).

Lemma fine_refl rt {A} (a : A) : ok rt -> fine rt (rt, a).
Proof. intros H. split; [exact H|apply later_refl]. Qed.

Lemma fine_trans rt rt1 {A} (q : JSRuntime * A) : later None rt rt1 -> fine rt1 q -> fine rt q.
Proof. intros H [K1 K2]. split; [exact K1|apply (later_trans None rt rt1); assumption]. Qed.

Definition enqueued rt e (q : JSRuntime * Z) : Prop := fst q = put_jobs rt (job_list rt ++ [e]) /\ snd q = 0 \/ fst q = rt /\ snd q = -1 /\ ~ G.

Lemma enqueue_spec rt f argv : gspec G (JS_EnqueueJob rt f argv) (enqueued rt (MkJob f argv)) E.
Proof. unfold JS_EnqueueJob. eapply gspec_bind; [apply gspec_try_alloc|]. intros okb Hg. destruct okb; cbn [negb]; apply gspec_ret; [left; auto|right; auto]. Qed.

(** Jobs that are not thenable jobs. *)
Lemma enqueue_fine rt e q : ok rt -> job_ok (promises rt) e -> job_func e <> js_promise_resolve_thenable_job -> enqueued rt e q -> fine rt q.
Proof. intros Hok He Hne [[Eq _]|(Eq & _)]; unfold fine; rewrite Eq; [apply (ok_add_job rt e Hok He Hne)|split; [exact Hok|apply later_refl]]. Qed.

Definition reaction_job (is_reject : bool) (v : JSValue) (rd : JSPromiseReactionData) : JSJobEntry := MkJob promise_reaction_job (reaction_args rd is_reject v).

Lemma enqueue_reactions_spec l r v : forall rt, ok rt ->
  gspec G (enqueue_reactions rt l r v) (fun rt' => ok rt' /\ later None rt rt' /\ promises rt' = promises rt /\ functions rt' = functions rt /\ (G -> job_list rt' = job_list rt ++ (reaction_job r v <$> l))) E.
Proof.
  induction l as [|rd l IH]; intros rt Hok; cbn [enqueue_reactions]; [apply gspec_ret; split; [exact Hok|]; split; [apply later_refl|]; rewrite app_nil_r; auto|].
  eapply gspec_bind; [apply enqueue_spec|]. intros [rt1 z] H1. pose proof (enqueue_fine rt (reaction_job r v rd) _ Hok (eq_refl : length (reaction_args rd r v) = 5%nat) ltac:(discriminate) H1) as [K1 K2]. cbn [fst] in *.
  eapply gspec_mono; [apply (IH rt1 K1)| |auto]. intros rt' (J1 & J2 & J3 & J4 & J5). split; [exact J1|]. split; [apply (later_trans None rt rt1); assumption|].
  destruct H1 as [[Eq _]|(Eq & _ & Hg)]; cbn [fst] in Eq; subst rt1; [|split; [exact J3|]; split; [exact J4|]; intros HG; contradiction].
  split; [exact J3|]. split; [exact J4|]. intros HG. rewrite (J5 HG). cbn. rewrite <- app_assoc. reflexivity.
Qed.

Definition settled_as (is_reject : bool) (v : JSValue) (s : JSPromiseData) : JSPromiseData :=
  MkPromise (if is_reject then JS_PROMISE_REJECTED else JS_PROMISE_FULFILLED) ([], []) (is_handled s) v.

Lemma track_fine rt p v h (b : bool) : ok rt -> ok (if b then track rt p v h else rt) /\ later None rt (if b then track rt p v h else rt) /\
  promises (if b then track rt p v h else rt) = promises rt /\ functions (if b then track rt p v h else rt) = functions rt /\ job_list (if b then track rt p v h else rt) = job_list rt.
Proof. intros Hok. destruct b; [destruct (ok_same rt (track rt p v h)); auto|]. split; [exact Hok|]. split; [apply later_refl|auto]. Qed.

Lemma fulfill_spec rt p s v r : ok rt -> promises rt !! p = Some s -> claims rt p = 0%nat ->
  gspec G (fulfill_or_reject_promise rt p v r)
    (fun rt' => ok rt' /\ later (Some p) rt rt' /\ promises rt' = <[p := settled_as r v s]> (promises rt) /\ functions rt' = functions rt /\
                (G -> job_list rt' = job_list rt ++ (reaction_job r v <$> reactions_of s r))) E.
Proof.
  intros Hok Hp Hc. assert (Hs : promise_state s = JS_PROMISE_PENDING).
  { unfold claims, settled_at in Hc. rewrite Hp in Hc. unfold settled in Hc. destruct (bool_decide_reflect (promise_state s = JS_PROMISE_PENDING)); [assumption|]. cbn in Hc. lia. }
  unfold fulfill_or_reject_promise. rewrite Hp, bool_decide_eq_true_2 by exact Hs. cbn [negb]. cbv zeta. fold (settled_as r v s).
  destruct (ok_settle rt p s (settled_as r v s) Hok Hp Hc) as [K1 K2]; [unfold settled, settled_as; destruct r; reflexivity|reflexivity|].
  destruct (track_fine _ p v false (r && negb (is_handled s)) K1) as (T1 & T2 & T3 & T4 & T5). set (rt1 := if r && negb (is_handled s) then _ else _) in *.
  eapply gspec_mono; [apply (enqueue_reactions_spec _ r v rt1 T1)| |auto]. intros rt' (J1 & J2 & J3 & J4 & J5). split; [exact J1|].
  split; [apply (later_trans _ _ _ _ K2), later_some, (later_trans _ _ _ _ T2 J2)|]. split; [rewrite J3; exact T3|]. split; [rewrite J4; exact T4|]. intros HG. rewrite (J5 HG), T5. reflexivity.
Qed.

Lemma create_spec rt p s : ok rt -> promises rt !! p = Some s -> claims rt p = 0%nat ->
  gspec G (js_create_resolving_functions rt p)
    (fun q => match snd q with
              | None => fst q = rt /\ ~ G
              | Some sr => ok (fst q) /\ later (Some p) rt (fst q) /\ functions rt !! sr = None /\ fst q = put_functions rt sr (MkFunctions p false)
              end) E.
Proof.
  intros Hok Hp Hc. unfold js_create_resolving_functions. do 5 (eapply gspec_bind; [apply gspec_try_alloc|]; let b := fresh "b" in let Hg := fresh "Hg" in intros b Hg; destruct b; cbn [negb]; [clear Hg|apply gspec_ret; cbn; auto]).
  apply gspec_ret. cbn [fst snd]. pose proof (new_function_fresh rt) as Hn. destruct (ok_new_pair rt p s _ Hok Hp Hc Hn) as (K1 & K2 & _). auto.
Qed.

End Alloc.
End Specs.

Section Ops.
Context `{PH : PromiseHost} (G : Prop) (E : exn -> Prop).
Implicit Types (rt : JSRuntime).

(** The queue gets a thenable job for a promise without claims. *)
Lemma ok_thenable rt p s v w : ok rt -> promises rt !! p = Some s -> claims rt p = 0%nat ->
  let rt' := put_jobs rt (job_list rt ++ [MkJob js_promise_resolve_thenable_job [VPromise p; v; w]]) in ok rt' /\ later (Some p) rt rt'.
Proof.
  intros [H1 H2 H3 H4] Hp Hc rt'. set (e := MkJob js_promise_resolve_thenable_job [VPromise p; v; w]).
  assert (Ec : forall q, claims rt' q = (claims rt q + unit_if (bool_decide (thenable_for q e)))%nat) by (intros q; unfold claims, rt'; cbn [functions job_list promises put_jobs]; rewrite open_jobs_app; fold e; rewrite open_jobs_one; lia).
  assert (Eq : forall q, q <> p -> claims rt' q = claims rt q) by (intros q Hne; rewrite Ec, bool_decide_eq_false_2 by (intros [_ Hx]; cbn in Hx; congruence); cbn; lia).
  assert (Ep : claims rt' p = 1%nat) by (rewrite Ec, bool_decide_eq_true_2 by (split; reflexivity); cbn; lia). split.
  - split; cbn; [|exact H2| |exact H4]; [intros q t Hq; destruct (decide (q = p)) as [->|Hne]; [lia|rewrite Eq by exact Hne; apply (H1 q t Hq)]|].
    apply Forall_app. split; [exact H3|]. constructor; [|constructor]. exists p, v, w. split; [reflexivity|eauto].
  - split; cbn; [eauto|eauto|intros q t Hq Hx; rewrite Eq by congruence; lia|exists [e]; reflexivity|apply same_reactions].
Qed.

Definition keeps (m : JSRuntime -> M (JSRuntime * completion)) : Prop := forall rt, ok rt -> gspec G (m rt) (fine rt) E.

Lemma keeps_bind (m : JSRuntime -> M (JSRuntime * completion)) f rt : ok rt -> gspec G (m rt) (fine rt) E -> (forall c, keeps (f c)) -> gspec G ('(rt, c) ← m rt; f c rt) (fine rt) E.
Proof.
  intros Hok Hm Hf. eapply gspec_bind; [exact Hm|]. intros [rt1 c] [K1 K2]. cbn [fst] in *. eapply gspec_mono; [apply (Hf c rt1 K1)| |auto]. intros q. apply fine_trans, K2.
Qed.

(** ** Resolving functions *)

(** The promise [p], which no claim was left on, is settled. *)
Lemma settle_spec rt p v r (a : completion) : ok rt -> is_Some (promises rt !! p) -> claims rt p = 0%nat ->
  gspec G (rt ← fulfill_or_reject_promise rt p v r; mret (rt, a)) (fun q => ok (fst q) /\ later (Some p) rt (fst q)) E.
Proof.
  intros Hok [s Hp] Hc. eapply gspec_bind; [apply (fulfill_spec G E rt p s v r Hok Hp Hc)|]. intros rt' (K1 & K2 & _). apply gspec_ret. auto.
Qed.

Lemma resolve_call_spec rt sr f r argv getter : ok rt -> functions rt !! sr = Some f -> keeps getter ->
  gspec G (js_promise_resolve_function_call rt sr f r argv getter) (fine rt) E.
Proof.
  intros Hok Hf Hg. unfold js_promise_resolve_function_call. destruct (already_resolved f) eqn:Ha; [apply gspec_ret, fine_refl, Hok|].
  destruct (ok_use_pair rt sr f Hok Hf Ha) as (K1 & K2 & K3 & K4 & s & Hs & _). cbv zeta. set (rt1 := put_functions rt sr _) in *. set (p := fd_promise f) in *. assert (Hp1 : is_Some (promises rt1 !! p)) by eauto.
  assert (Hspend : forall rt2, ok rt2 -> later (Some p) rt1 rt2 -> later None rt rt2) by (intros rt2 J1 J2; apply (later_spend p); [apply (later_trans _ _ rt1); [apply later_some, K2|exact J2]|exact J1|exact K3]).
  assert (Hsettle : forall rt2 v r', ok rt2 -> later None rt1 rt2 -> gspec G (rt ← fulfill_or_reject_promise rt2 p v r'; mret (rt, Normal VUndefined)) (fine rt) E).
  { intros rt2 v r' J1 J2. destruct Hp1 as [s1 Hs1]. destruct (la_promises _ _ _ J2 p s1 Hs1) as (s2 & Hs2 & _). pose proof (la_claims _ _ _ J2 p s1 Hs1 ltac:(discriminate)). eapply gspec_mono; [apply (settle_spec rt2 p v r'); [exact J1|eauto|lia]| |auto].
    intros q [L1 L2]. split; [exact L1|]. apply Hspend; [exact L1|]. apply (later_trans _ _ rt2); [apply later_some, J2|exact L2]. }
  set (resolution := match argv with [] => _ | _ => _ end). destruct (r || negb (JS_IsObject resolution)); [apply (Hsettle rt1); [exact K1|apply later_refl]|].
  destruct (bool_decide (resolution = VPromise p)); [apply (Hsettle rt1); [exact K1|apply later_refl]|].
  eapply gspec_bind; [apply (Hg rt1 K1)|]. intros [rt2 c] [J1 J2]. cbn [fst] in *. destruct c as [v|v]; [|apply Hsettle; assumption]. destruct (JS_IsFunction v); cbn [negb]; [|apply Hsettle; assumption].
  destruct Hp1 as [s1 Hs1]. destruct (la_promises _ _ _ J2 p s1 Hs1) as (s2 & Hs2 & _). pose proof (la_claims _ _ _ J2 p s1 Hs1 ltac:(discriminate)).
  eapply gspec_bind; [apply enqueue_spec|]. intros [rt3 z] [[Eq _]|(Eq & _)]; cbn [fst] in Eq; subst rt3; apply gspec_ret.
  - destruct (ok_thenable rt2 p s2 resolution v J1 Hs2 ltac:(lia)) as [L1 L2]. split; [exact L1|]. apply Hspend; [exact L1|]. apply (later_trans _ _ rt2); [apply later_some, J2|exact L2].
  - split; [exact J1|]. apply (later_trans None rt rt1); assumption.
Qed.

Lemma call_resolving_spec f argv getter : keeps getter -> keeps (fun rt => call_resolving rt f argv getter).
Proof.
  intros Hg rt Hok. unfold call_resolving. destruct f as [| | | | | |sr r]; try (apply gspec_ret, fine_refl, Hok). destruct (functions rt !! sr) as [f|] eqn:Hf; [|apply gspec_ret, fine_refl, Hok].
  apply resolve_call_spec; assumption.
Qed.

Lemma keeps_ret c : keeps (fun rt => mret (rt, c)).
Proof. intros rt Hok. apply gspec_ret, fine_refl, Hok. Qed.

(** ** New promises *)

(** The promise and the resolving functions of a constructor or capability. *)
Lemma new_promise_spec rt : ok rt -> let p := new_promise_ptr rt in
  gspec G (js_create_resolving_functions (put_promise rt p fresh_promise) p)
    (fun q => match snd q with
              | None => ~ G
              | Some sr => ok (fst q) /\ later None rt (fst q) /\ promises (fst q) = <[p := fresh_promise]> (promises rt) /\ functions (fst q) !! sr = Some (MkFunctions p false)
              end) E.
Proof.
  intros Hok p. pose proof (new_promise_fresh rt) as Hn. fold p in Hn. destruct (ok_new_promise rt p Hok Hn) as (K1 & K2 & K3).
  eapply gspec_mono; [apply (create_spec G E _ p fresh_promise K1); [apply lookup_insert_eq|exact K3]| |auto]. intros [rt1 r] H. cbn [fst snd] in *. destruct r as [sr|]; [|apply H].
  destruct H as (J1 & J2 & J3 & ->). split; [exact J1|]. split; [apply (later_new _ p _ _ _ K2 J2 Hn)|]. split; [reflexivity|apply lookup_insert_eq].
Qed.

Lemma constructor_spec executor body : (forall a b, keeps (fun rt => body rt a b)) -> keeps (fun rt => js_promise_constructor rt executor body).
Proof.
  intros Hb rt Hok. unfold js_promise_constructor. destruct (JS_IsFunction executor); cbn [negb]; [|apply keeps_ret, Hok].
  do 2 (eapply gspec_bind; [apply gspec_try_alloc|]; let b := fresh "b" in intros b _; destruct b; cbn [negb]; [|apply keeps_ret, Hok]). cbv zeta. fold fresh_promise.
  eapply gspec_bind; [apply (new_promise_spec rt Hok)|]. intros [rt1 r] H. cbn [fst snd] in *. destruct r as [sr|]; [|apply keeps_ret, Hok]. destruct H as (K1 & K2 & _ & _).
  eapply gspec_bind; [apply (Hb _ _ rt1 K1)|]. intros [rt2 ret] [J1 J2]. cbn [fst] in *. pose proof (later_trans None _ _ _ K2 J2) as K3. destruct ret as [v|v]; [apply gspec_ret; split; assumption|].
  eapply gspec_bind; [apply (call_resolving_spec (VResolving sr true) [v] _ (keeps_ret (Normal VUndefined)) rt2 J1)|]. intros [rt3 ret2] [L1 L2]. cbn [fst] in *.
  destruct ret2; apply gspec_ret; (split; [exact L1|apply (later_trans None rt rt2); assumption]).
Qed.

Lemma capability_spec rt : ok rt ->
  gspec G (JS_NewPromiseCapability rt) (fun q => fine rt q /\ match snd q with
    | None => ~ G
    | Some (p, sr) => promises rt !! p = None /\ promises (fst q) = <[p := fresh_promise]> (promises rt) /\ functions (fst q) !! sr = Some (MkFunctions p false)
    end) E.
Proof.
  intros Hok. unfold JS_NewPromiseCapability. do 3 (eapply gspec_bind; [apply gspec_try_alloc|]; let b := fresh "b" in let Hg := fresh "Hg" in intros b Hg; destruct b; cbn [negb]; [clear Hg|apply gspec_ret; split; [apply fine_refl, Hok|apply Hg; reflexivity]]).
  cbv zeta. fold fresh_promise. eapply gspec_bind; [apply (new_promise_spec rt Hok)|]. intros [rt1 r] H. cbn [fst snd] in *. destruct r as [sr|]; apply gspec_ret; [|split; [apply fine_refl, Hok|exact H]].
  destruct H as (K1 & K2 & K3 & K4). split; [split; assumption|]. split; [apply new_promise_fresh|]. split; assumption.
Qed.

(** ** Reactions *)

(** A settled promise queues its reaction at once. *)
Lemma then_settled_spec rt p s rd r (b : bool) : ok rt -> promises rt !! p = Some s -> settled s = true ->
  gspec G ('(rt, _) ← JS_EnqueueJob (if b then track rt p (promise_result s) true else rt) promise_reaction_job (reaction_args rd r (promise_result s));
           mret (put_promise rt p (MkPromise (promise_state s) (promise_reactions s) true (promise_result s)), 0))
    (fun q => fine rt q /\ snd q = 0 /\ promises (fst q) = <[p := MkPromise (promise_state s) (promise_reactions s) true (promise_result s)]> (promises rt) /\ functions (fst q) = functions rt /\
              (G -> job_list (fst q) = job_list rt ++ [reaction_job r (promise_result s) rd])) E.
Proof.
  intros Hok Hp Hs. destruct (track_fine rt p (promise_result s) true b Hok) as (T1 & T2 & T3 & T4 & T5). set (rt1 := if b then _ else _) in *.
  eapply gspec_bind; [apply enqueue_spec|]. intros [rt2 z] H. pose proof (enqueue_fine G rt1 (reaction_job r (promise_result s) rd) _ T1 (eq_refl : length (reaction_args rd r (promise_result s)) = 5%nat) ltac:(discriminate) H) as [K1 K2]. cbn [fst] in *.
  assert (P2 : promises rt2 = promises rt) by (destruct H as [[Eq _]|(Eq & _)]; cbn [fst] in Eq; subst rt2; exact T3). assert (F2 : functions rt2 = functions rt) by (destruct H as [[Eq _]|(Eq & _)]; cbn [fst] in Eq; subst rt2; exact T4).
  apply gspec_ret. destruct (ok_put_promise rt2 p s (MkPromise (promise_state s) (promise_reactions s) true (promise_result s)) K1) as [L1 L2]; [rewrite P2; exact Hp|reflexivity|reflexivity|intros _; apply (ok_settled _ Hok p s Hp Hs)|intros r'; unfold reactions_of; reflexivity|].
  split; [split; [exact L1|apply (later_trans None _ _ _ T2), (later_trans None _ _ _ K2 L2)]|]. split; [reflexivity|]. cbn [fst]. split; [cbn; rewrite P2; reflexivity|]. split; [exact F2|].
  intros HG. destruct H as [[Eq _]|(_ & _ & Hg)]; [|contradiction]. cbn [fst] in Eq. subst rt2. cbn. rewrite T5. reflexivity.
Qed.

(** The reaction that a [then] adds. *)
Definition added_reaction (r : bool) (h0 h1 : JSValue) (cap : JSValue * JSValue) : JSPromiseReactionData := MkReaction cap (handler_of (if r then h1 else h0)).

Definition then_done rt p s h0 h1 cap (q : JSRuntime * Z) : Prop :=
  snd q = 0 /\ functions (fst q) = functions rt /\
  match promise_state s with
  | JS_PROMISE_PENDING =>
      promises (fst q) = <[p := MkPromise JS_PROMISE_PENDING (fst (promise_reactions s) ++ [added_reaction false h0 h1 cap], snd (promise_reactions s) ++ [added_reaction true h0 h1 cap]) true (promise_result s)]> (promises rt) /\
      job_list (fst q) = job_list rt
  | state =>
      promises (fst q) = <[p := MkPromise state (promise_reactions s) true (promise_result s)]> (promises rt) /\
      (G -> job_list (fst q) = job_list rt ++ [let r := bool_decide (state = JS_PROMISE_REJECTED) in reaction_job r (promise_result s) (added_reaction r h0 h1 cap)])
  end.

Lemma perform_then_spec rt p s h0 h1 cap : ok rt -> promises rt !! p = Some s ->
  gspec G (perform_promise_then rt p s h0 h1 cap) (fun q => fine rt q /\ (then_done rt p s h0 h1 cap q \/ fst q = rt /\ snd q = -1 /\ ~ G)) E.
Proof.
  intros Hok Hp. unfold perform_promise_then. do 2 (eapply gspec_bind; [apply gspec_try_alloc|]; let b := fresh "b" in let Hg := fresh "Hg" in intros b Hg; destruct b; cbn [negb]; [clear Hg|apply gspec_ret; split; [apply fine_refl, Hok|]; right; cbn; auto]). cbv zeta.
  unfold then_done. destruct (promise_state s) eqn:Es.
  - apply gspec_ret. destruct (ok_put_promise rt p s (MkPromise JS_PROMISE_PENDING (fst (promise_reactions s) ++ [added_reaction false h0 h1 cap], snd (promise_reactions s) ++ [added_reaction true h0 h1 cap]) true (promise_result s)) Hok Hp) as [K1 K2]; [rewrite Es; reflexivity|reflexivity|discriminate|intros r; unfold reactions_of; destruct r; apply prefix_app_r; reflexivity|].
    split; [split; assumption|]. left. cbn. auto.
  - change (bool_decide (JS_PROMISE_FULFILLED = JS_PROMISE_REJECTED)) with false. cbn [andb].
    pose proof (then_settled_spec rt p s (added_reaction false h0 h1 cap) false false Hok Hp) as H. rewrite Es in H. eapply gspec_mono; [apply H; unfold settled; rewrite Es; reflexivity| |auto].
    intros q (K1 & K2 & K3 & K4 & K5). split; [exact K1|]. left. auto.
  - change (bool_decide (JS_PROMISE_REJECTED = JS_PROMISE_REJECTED)) with true. cbn [andb].
    pose proof (then_settled_spec rt p s (added_reaction true h0 h1 cap) true (negb (is_handled s)) Hok Hp) as H. rewrite Es in H. eapply gspec_mono; [apply H; unfold settled; rewrite Es; reflexivity| |auto].
    intros q (K1 & K2 & K3 & K4 & K5). split; [exact K1|]. left. auto.
Qed.

Lemma then_spec this h0 h1 : keeps (fun rt => js_promise_then rt this h0 h1).
Proof.
  intros rt Hok. unfold js_promise_then, promise_data. destruct this as [| | | | |p|]; try (apply keeps_ret, Hok). destruct (promises rt !! p) as [s|] eqn:Hp; [|apply keeps_ret, Hok]. cbn [fmap option_fmap option_map].
  eapply gspec_bind; [apply (capability_spec rt Hok)|]. intros [rt1 r] [[K1 K2] H]. cbn [fst snd] in *. destruct r as [[q sr]|]; [|apply gspec_ret; split; assumption].
  destruct (la_promises _ _ _ K2 p s Hp) as (s1 & Hs1 & _). rewrite Hs1. eapply gspec_bind; [apply (perform_then_spec rt1 p s1 h0 h1 _ K1 Hs1)|]. intros [rt2 z] [[J1 J2] _]. cbn [fst] in *.
  destruct (negb (z =? 0)); apply gspec_ret; (split; [exact J1|apply (later_trans None rt rt1); assumption]).
Qed.

Lemma await_spec this h0 h1 : keeps (fun rt => await_then rt this h0 h1).
Proof.
  intros rt Hok. unfold await_then, promise_data. destruct this as [| | | | |p|]; try (apply keeps_ret, Hok). destruct (promises rt !! p) as [s|] eqn:Hp; [|apply keeps_ret, Hok]. cbn [fmap option_fmap option_map].
  eapply gspec_bind; [apply (perform_then_spec rt p s h0 h1 _ Hok Hp)|]. intros [rt1 z] [[K1 K2] _]. cbn [fst] in *. destruct (negb (z =? 0)); apply gspec_ret; split; assumption.
Qed.

Lemma microtask_spec f : keeps (fun rt => js_global_queueMicrotask rt f).
Proof.
  intros rt Hok. unfold js_global_queueMicrotask. destruct (JS_IsFunction f); cbn [negb]; [|apply keeps_ret, Hok]. eapply gspec_bind; [apply enqueue_spec|]. intros [rt1 z] H.
  pose proof (enqueue_fine G rt (MkJob js_microtask_job [f]) _ Hok (eq_refl : length [f] = 1%nat) ltac:(discriminate) H) as [K1 K2]. cbn [fst] in *. destruct (negb (z =? 0)); apply gspec_ret; split; assumption.
Qed.

(** ** JavaScript code *)

Lemma exec_spec u : keeps (exec u).
Proof.
  induction u as [c|f argv getter IHg k IHk|executor body IHb k IHk|p h0 h1 k IHk|p h0 h1 k IHk|f k IHk]; intros rt Hok; cbn [exec].
  - apply keeps_ret, Hok.
  - apply (keeps_bind (fun rt => call_resolving rt f argv (fun rt => exec getter rt)) (fun c => exec (k c)) rt Hok); [apply call_resolving_spec; assumption|exact IHk].
  - apply (keeps_bind (fun rt => js_promise_constructor rt executor (fun rt a b => exec (body a b) rt)) (fun c => exec (k c)) rt Hok); [apply constructor_spec; assumption|exact IHk].
  - apply (keeps_bind (fun rt => js_promise_then rt p h0 h1) (fun c => exec (k c)) rt Hok); [apply then_spec, Hok|exact IHk].
  - apply (keeps_bind (fun rt => await_then rt p h0 h1) (fun c => exec (k c)) rt Hok); [apply await_spec, Hok|exact IHk].
  - apply (keeps_bind (fun rt => js_global_queueMicrotask rt f) (fun c => exec (k c)) rt Hok); [apply microtask_spec, Hok|exact IHk].
Qed.

Lemma JS_Call_spec f this argv : keeps (fun rt => JS_Call rt f this argv).
Proof.
  intros rt Hok. unfold JS_Call. cbv zeta. destruct (ok_same rt (count_call rt)) as [K1 K2]; try reflexivity; [exact Hok|].
  destruct f; (apply (gspec_mono G _ (fine (count_call rt)) _ E E); [|intros q; apply fine_trans, K2|auto]); first [exact (exec_spec _ _ K1) | exact (call_resolving_spec _ _ _ (exec_spec _) _ K1)].
Qed.

(** ** Jobs *)

Lemma reaction_run_spec argv : length argv = 5%nat -> keeps (fun rt => reaction_run rt argv).
Proof.
  intros Hl rt Hok. destruct argv as [|f0 [|f1 [|h [|r [|arg [|]]]]]]; try discriminate. cbn [reaction_run].
  eapply gspec_bind with (R := fine rt); [destruct (JS_IsUndefined h); [apply keeps_ret, Hok|apply JS_Call_spec, Hok]|]. intros [rt1 res] [K1 K2]. cbn [fst] in *. destruct res as [v|v]; cbn.
  all: match goal with |- context [negb (JS_IsUndefined ?f)] => destruct (negb (JS_IsUndefined f)) end; [eapply gspec_mono; [apply (JS_Call_spec _ _ _ rt1 K1)|intros q; apply fine_trans, K2|auto]|apply gspec_ret; split; assumption].
Qed.

Lemma thenable_run_spec rt p v w s : ok rt -> promises rt !! p = Some s -> claims rt p = 0%nat ->
  gspec G (thenable_run rt [VPromise p; v; w]) (fun q => ok (fst q) /\ later (Some p) rt (fst q)) E.
Proof.
  intros Hok Hp Hc. cbn [thenable_run]. eapply gspec_bind; [apply (create_spec G E rt p s Hok Hp Hc)|]. intros [rt1 r] H. cbn [fst snd] in *. destruct r as [sr|]; [|destruct H as [-> _]; apply gspec_ret; split; [exact Hok|apply later_refl]].
  destruct H as (K1 & K2 & _ & _). eapply gspec_bind; [apply (JS_Call_spec w v _ rt1 K1)|]. intros [rt2 res] [J1 J2]. cbn [fst] in *. pose proof (later_trans _ _ _ _ K2 (later_some _ _ _ J2)) as K3.
  destruct res as [x|x]; [apply gspec_ret; split; assumption|]. eapply gspec_mono; [apply (JS_Call_spec (VResolving sr true) VUndefined [x] rt2 J1)| |auto]. intros q [L1 L2]. split; [exact L1|]. apply (later_trans _ _ _ _ K3 (later_some _ _ _ L2)).
Qed.

(** The queue without its first job. *)
Lemma ok_pop rt e l : ok rt -> job_list rt = e :: l -> let rt' := put_jobs rt l in
  ok rt' /\ job_ok (promises rt) e /\ (forall p, claims rt p = (claims rt' p + unit_if (bool_decide (thenable_for p e)))%nat).
Proof.
  intros [H1 H2 H3 H4] El rt'. rewrite El in H3. apply Forall_cons in H3. destruct H3 as [He Hl].
  assert (Ec : forall p, claims rt p = (claims rt' p + unit_if (bool_decide (thenable_for p e)))%nat).
  { intros p. unfold claims, rt'. cbn [functions job_list promises put_jobs]. rewrite El. change (e :: l) with ([e] ++ l). rewrite open_jobs_app, open_jobs_one. lia. }
  split; [|split; [exact He|exact Ec]]. split; cbn; [intros p s Hp; pose proof (Ec p); pose proof (H1 p s Hp); lia|exact H2|exact Hl|exact H4].
Qed.

(** One job: it keeps the invariant, the jobs it queues come after the others. *)
Lemma run_job_spec rt e l : ok rt -> job_list rt = e :: l ->
  gspec G (run_job (put_jobs rt l) e)
    (fun q => ok (fst q) /\ (exists l', job_list (fst q) = l ++ l') /\
              (forall p s, promises rt !! p = Some s -> exists s', promises (fst q) !! p = Some s' /\ (settled s = true -> promise_state s' = promise_state s /\ promise_result s' = promise_result s)) /\
              (forall sr f, functions rt !! sr = Some f -> exists f', functions (fst q) !! sr = Some f' /\ fd_promise f' = fd_promise f /\ (already_resolved f = true -> already_resolved f' = true))) E.
Proof.
  intros Hok El. destruct (ok_pop rt e l Hok El) as (K1 & He & Ec). set (rt1 := put_jobs rt l) in *.
  assert (Hx : forall x (q : JSRuntime * completion), ok (fst q) /\ later x rt1 (fst q) -> ok (fst q) /\ (exists l', job_list (fst q) = l ++ l') /\
    (forall p s, promises rt !! p = Some s -> exists s', promises (fst q) !! p = Some s' /\ (settled s = true -> promise_state s' = promise_state s /\ promise_result s' = promise_result s)) /\
    (forall sr f, functions rt !! sr = Some f -> exists f', functions (fst q) !! sr = Some f' /\ fd_promise f' = fd_promise f /\ (already_resolved f = true -> already_resolved f' = true))) by (intros x q [J1 [A1 A2 A3 A4 A5]]; auto).
  unfold run_job. unfold job_ok in He. destruct e as [fn argv]. cbn [job_func job_argv] in *. destruct fn.
  - eapply gspec_mono; [apply (reaction_run_spec argv He rt1 K1)|apply (Hx None)|auto].
  - destruct He as (p & v & w & -> & [s Hs]). specialize (Ec p). rewrite bool_decide_eq_true_2 in Ec by (split; reflexivity). cbn in Ec. pose proof (ok_claims _ Hok p s Hs).
    eapply gspec_mono; [apply (thenable_run_spec rt1 p v w s K1 Hs); lia|apply (Hx (Some p))|auto].
  - destruct argv as [|f [|]]; try discriminate. cbn [microtask_run]. eapply gspec_mono; [apply (JS_Call_spec f global_obj [] rt1 K1)|apply (Hx None)|auto].
Qed.

End Ops.
