(* ===== verification/PromiseTheorems.v ===== *)
(** The theorems on promises and jobs, with a witness each.

    [program u n] runs the code [u] in a new runtime and then [n] jobs; [behave] and
    [then_of], what the functions of the program do, are arbitrary. *)
From Stdlib Require Import ZArith Lia.
From S2P Require Import Prelude Promise PromiseOps.
From stdpp Require Import base tactics numbers list gmap fin_sets.

Open Scope Z_scope.

Section Theorems.
Context `{PH : PromiseHost}.
Implicit Types (rt : JSRuntime).

Definition initial_runtime : JSRuntime := MkRuntime ∅ ∅ [] [] 0.

(** [n] calls of [JS_ExecutePendingJob], with the jobs they ran. *)
Fixpoint execute (n : nat) (rt : JSRuntime) : M (JSRuntime * list JSJobEntry) :=
  match n with
  | O => mret (rt, [])
  | S n =>
      '(rt, _, e) ← JS_ExecutePendingJob rt;
      '(rt, l) ← execute n rt;
      mret (rt, match e with Some e => e :: l | None => l end)
  end.

Definition program (u : user) (n : nat) : M (JSRuntime * list JSJobEntry) := '(rt, _) ← exec u initial_runtime; execute n rt.

(** Settled promises stay as they are. *)
Definition kept rt rt' : Prop := forall p s, promises rt !! p = Some s -> settled s = true ->
  exists s', promises rt' !! p = Some s' /\ promise_state s' = promise_state s /\ promise_result s' = promise_result s.

Lemma initial_runtime_ok : ok initial_runtime.
Proof. split; [intros p s H|intros sr f H|constructor|intros p s H]; cbn in H; rewrite lookup_empty in H; discriminate. Qed.

Lemma kept_trans rt1 rt2 rt3 : kept rt1 rt2 -> kept rt2 rt3 -> kept rt1 rt3.
Proof. intros H1 H2 p s Hp Hs. destruct (H1 p s Hp Hs) as (s2 & K1 & K2 & K3). destruct (H2 p s2 K1 (eq_trans (settled_eq _ _ K2) Hs)) as (s3 & L1 & L2 & L3). exists s3. split; [exact L1|]. split; congruence. Qed.

Lemma execute_job_spec (G : Prop) E rt e l : ok rt -> job_list rt = e :: l ->
  gspec G (JS_ExecutePendingJob rt) (fun x => snd x = Some e /\ ok (fst (fst x)) /\ kept rt (fst (fst x)) /\ exists l', job_list (fst (fst x)) = l ++ l') E.
Proof.
  intros Hok El. unfold JS_ExecutePendingJob. rewrite El. eapply gspec_bind; [apply (run_job_spec G E rt e l Hok El)|]. intros [rt1 res] (K1 & K2 & K3 & _). cbn [fst] in *. apply gspec_ret. cbn [fst snd].
  split; [reflexivity|]. split; [exact K1|]. split; [|exact K2]. intros p s Hp Hs. destruct (K3 p s Hp) as (s' & A & B). exists s'. split; [exact A|apply B, Hs].
Qed.

Lemma execute_spec (G : Prop) E n : forall rt, ok rt ->
  gspec G (execute n rt) (fun q => ok (fst q) /\ kept rt (fst q) /\ exists l, job_list rt ++ l = snd q ++ job_list (fst q) /\ (n <= length (job_list rt) -> length (snd q) = n)%nat) E.
Proof.
  induction n as [|n IH]; intros rt Hok; cbn [execute]; [apply gspec_ret; split; [exact Hok|]; split; [intros p s Hp _; eauto|]; exists []; rewrite app_nil_r; auto|].
  destruct (job_list rt) as [|e l] eqn:El.
  - unfold JS_ExecutePendingJob. rewrite El, ret_bind. eapply gspec_bind; [apply (IH rt Hok)|]. intros [rt1 l1] (K1 & K2 & l & K3 & _). cbn [fst snd] in *. apply gspec_ret. split; [exact K1|]. split; [exact K2|]. exists l. rewrite El in K3. split; [exact K3|cbn; lia].
  - eapply gspec_bind; [apply (execute_job_spec G E rt e l Hok El)|]. intros [[rt1 z] oe] (Eo & K1 & K3 & l' & K2). cbn [fst snd] in *. subst oe.
    eapply gspec_bind; [apply (IH rt1 K1)|]. intros [rt2 l2] (J1 & J2 & l3 & J3 & J4). cbn [fst snd] in *. apply gspec_ret. split; [exact J1|]. split; [apply (kept_trans rt rt1); assumption|].
    exists (l' ++ l3). cbn [fst snd]. rewrite K2 in J3, J4. split; [cbn; rewrite <- J3, <- app_assoc; reflexivity|]. cbn [length]. intros Hn. f_equal. apply J4. rewrite length_app. lia.
Qed.

Lemma program_spec (G : Prop) E u n : gspec G (program u n) (fun q => ok (fst q)) E.
Proof.
  unfold program. eapply gspec_bind; [apply (exec_spec G E u initial_runtime initial_runtime_ok)|]. intros [rt c] [K1 _]. cbn [fst] in *. eapply gspec_mono; [apply (execute_spec G E n rt K1)| |auto]. intros q [H _]. exact H.
Qed.

(** An unused pair of resolving functions can settle its promise, and is the only
    one that can. *)
Lemma ok_unused rt sr f : ok rt -> functions rt !! sr = Some f -> already_resolved f = false ->
  (exists s, promises rt !! fd_promise f = Some s /\ promise_state s = JS_PROMISE_PENDING) /\
  forall sr' f', functions rt !! sr' = Some f' -> already_resolved f' = false -> fd_promise f' = fd_promise f -> sr' = sr.
Proof.
  intros Hok Hf Ha. destruct (ok_use_pair rt sr f Hok Hf Ha) as (_ & _ & Hc & _ & Hs). split; [exact Hs|]. intros sr' f' Hf' Ha' Ep. destruct (decide (sr' = sr)) as [E|Hne]; [exact E|exfalso].
  unfold claims in Hc. rewrite (open_pairs_delete _ sr f (fd_promise f) Hf), (open_pairs_delete (delete sr (functions rt)) sr' f' (fd_promise f)) in Hc by (rewrite lookup_delete_ne by congruence; exact Hf').
  rewrite !bool_decide_eq_true_2 in Hc by (split; assumption || reflexivity). cbn in Hc. lia.
Qed.

(** C5: whatever the program does, a promise is settled at most once.  In every
    state reached by a program and any number of jobs, an unused pair of resolving
    functions belongs to a pending promise and no other unused pair does, so that
    the test of [fulfill_or_reject_promise] for a settled promise never succeeds;
    and however many jobs follow, a settled promise keeps its state and its
    result. *)
Theorem promises_settle_once u n m o :
  exists rt l o1, program u n o = (Ok (rt, l), o1) /\
    (forall sr f, functions rt !! sr = Some f -> already_resolved f = false ->
       (exists s, promises rt !! fd_promise f = Some s /\ promise_state s = JS_PROMISE_PENDING) /\
       forall sr' f', functions rt !! sr' = Some f' -> already_resolved f' = false -> fd_promise f' = fd_promise f -> sr' = sr) /\
    exists rt' l' o2, execute m rt o1 = (Ok (rt', l'), o2) /\
      forall p s, promises rt !! p = Some s -> promise_state s <> JS_PROMISE_PENDING ->
        exists s', promises rt' !! p = Some s' /\ promise_state s' = promise_state s /\ promise_result s' = promise_result s.
Proof.
  destruct (gspec_run _ _ o (program_spec (grants o) no_exn u n)) as ([rt l] & o1 & E1 & Hok). cbn [fst] in Hok. exists rt, l, o1. split; [exact E1|]. split; [intros sr f; apply ok_unused, Hok|].
  destruct (gspec_run _ _ o1 (execute_spec (grants o1) no_exn m rt Hok)) as ([rt' l'] & o2 & E2 & _ & Hk & _). exists rt', l', o2. split; [exact E2|]. intros p s Hp Hs. apply (Hk p s Hp).
  unfold settled. rewrite bool_decide_eq_false_2 by exact Hs. reflexivity.
Qed.

(** C10: every job that is queued is run, in the order of the queue: in every state
    reached by a program and any number of jobs, the job with [k] jobs before it is
    the one that the [k+1]th following call of [JS_ExecutePendingJob] runs, whatever
    the jobs before it do; what they queue comes after the jobs that wait. *)
Theorem jobs_run_in_order u n o rt l o1 before e after :
  program u n o = (Ok (rt, l), o1) -> job_list rt = before ++ e :: after ->
  exists rt' queued o2, execute (S (length before)) rt o1 = (Ok (rt', before ++ [e]), o2) /\ job_list rt' = after ++ queued.
Proof.
  intros E1 El. destruct (gspec_run _ _ o (program_spec (grants o) no_exn u n)) as (q & o' & E1' & Hok). rewrite E1 in E1'. injection E1' as <- <-. cbn [fst] in Hok.
  destruct (gspec_run _ _ o1 (execute_spec (grants o1) no_exn (S (length before)) rt Hok)) as ([rt' ran] & o2 & E2 & _ & _ & queued & Hq & Hn). cbn [fst snd] in *.
  rewrite El, length_app in Hn. specialize (Hn ltac:(cbn; lia)). rewrite El in Hq. assert (Er : ran = before ++ [e] /\ job_list rt' = after ++ queued).
  { assert (Hs : (before ++ [e]) ++ (after ++ queued) = ran ++ job_list rt') by (rewrite <- Hq, <- !app_assoc; reflexivity). apply app_inj_1 in Hs; [destruct Hs; auto|]. rewrite length_app, Hn. cbn. lia. }
  destruct Er as [-> Er]. exists rt', queued, o2. auto.
Qed.

(** ** The order of the reactions *)

(** [then] with each of the handlers. *)
Fixpoint then_all (rt : JSRuntime) (p : pptr) (ts : list (JSValue * JSValue * (JSValue * JSValue))) : M JSRuntime :=
  match ts with
  | [] => mret rt
  | (h0, h1, cap) :: ts =>
      match promises rt !! p with
      | Some s => '(rt, _) ← perform_promise_then rt p s h0 h1 cap; then_all rt p ts
      | None => undefined
      end
  end.

Definition reactions (r : bool) (ts : list (JSValue * JSValue * (JSValue * JSValue))) : list JSPromiseReactionData :=
  (fun t => added_reaction r (fst (fst t)) (snd (fst t)) (snd t)) <$> ts.

(** What [then_all] does to the promise and the queue. *)
Definition thens (s s' : JSPromiseData) (jobs jobs' : list JSJobEntry) ts : Prop :=
  promise_state s' = promise_state s /\ promise_result s' = promise_result s /\
  match promise_state s with
  | JS_PROMISE_PENDING => jobs' = jobs /\ forall r, reactions_of s' r = reactions_of s r ++ reactions r ts
  | state => let r := bool_decide (state = JS_PROMISE_REJECTED) in jobs' = jobs ++ (reaction_job r (promise_result s) <$> reactions r ts)
  end.

Lemma then_all_spec (G : Prop) E p ts : forall rt s, ok rt -> promises rt !! p = Some s ->
  gspec G (then_all rt p ts) (fun rt' => ok rt' /\ later None rt rt' /\ (G -> functions rt' = functions rt /\ exists s', promises rt' !! p = Some s' /\ thens s s' (job_list rt) (job_list rt') ts)) E.
Proof.
  induction ts as [|[[h0 h1] cap] ts IH]; intros rt s Hok Hp; cbn [then_all].
  - apply gspec_ret. split; [exact Hok|]. split; [apply later_refl|]. intros _. split; [reflexivity|]. exists s. split; [exact Hp|]. split; [reflexivity|]. split; [reflexivity|].
    destruct (promise_state s); cbn; rewrite ?app_nil_r; auto. split; [reflexivity|]. intros r. rewrite app_nil_r. reflexivity.
  - rewrite Hp. eapply gspec_bind; [apply (perform_then_spec G E rt p s h0 h1 cap Hok Hp)|]. intros [rt1 z] [[K1 K2] Hd]. cbn [fst] in *. destruct (la_promises _ _ _ K2 p s Hp) as (s1 & Hs1 & _).
    eapply gspec_mono; [apply (IH rt1 s1 K1 Hs1)| |auto]. intros rt' (J1 & J2 & J3). split; [exact J1|]. split; [apply (later_trans None rt rt1); assumption|]. intros HG. destruct Hd as [Hd|(_ & _ & Hg)]; [|contradiction].
    destruct Hd as (_ & F1 & Hd). cbn [fst snd] in *. destruct (J3 HG) as (F2 & s' & Hs' & T1 & T2 & T3). split; [congruence|]. exists s'. split; [exact Hs'|]. unfold thens. destruct (promise_state s) eqn:Es; destruct Hd as [Pd Jd].
    all: rewrite Pd, lookup_insert_eq in Hs1; injection Hs1 as <-; cbn [promise_state promise_result] in *; split; [exact T1|]; split; [exact T2|].
    + destruct T3 as [-> T3]. split; [exact Jd|]. intros r. rewrite T3. unfold reactions_of. cbn. destruct r; rewrite <- app_assoc; reflexivity.
    + rewrite T3, (Jd HG). cbn. rewrite <- app_assoc. reflexivity.
    + rewrite T3, (Jd HG). cbn. rewrite <- app_assoc. reflexivity.
Qed.

(** [then] calls, one call of a resolving function, more [then] calls, and a second
    call of one of the functions. *)
Definition settle_between (rt : JSRuntime) (p sr : pptr) (r r2 : bool) (v v2 : JSValue) (ts1 ts2 : list (JSValue * JSValue * (JSValue * JSValue))) : M JSRuntime :=
  rt ← then_all rt p ts1;
  '(rt, _) ← JS_Call rt (VResolving sr r) VUndefined [v];
  rt ← then_all rt p ts2;
  '(rt, _) ← JS_Call rt (VResolving sr r2) VUndefined [v2];
  mret rt.

(** What a call of a resolving function decides for its promise: to settle it, or to
    follow an object that has a method [then]. *)
Inductive fate : Type :=
| Settles (is_reject : bool) (value : JSValue)
| Follows (v_then : JSValue).

(** [then] is read from objects that are not the promise itself. *)
Definition reads_then (p : pptr) (r : bool) (v : JSValue) : bool := negb r && JS_IsObject v && negb (bool_decide (v = VPromise p)).

(** [c]: what the read of [then] gave. *)
Definition fate_of (p : pptr) (r : bool) (v : JSValue) (c : completion) : fate :=
  if negb (reads_then p r v) then (if r || negb (JS_IsObject v) then Settles r v else Settles true type_error)
  else match c with
       | Exception error => Settles true error
       | Normal v_then => if JS_IsFunction v_then then Follows v_then else Settles false v
       end.

(** [settle_between] as far as the read of [then] in the first call. *)
Definition until_read (rt : JSRuntime) (p sr : pptr) (r : bool) (v : JSValue) (ts1 : list (JSValue * JSValue * (JSValue * JSValue))) : M (JSRuntime * completion) :=
  rt ← then_all rt p ts1;
  let used := put_functions (count_call rt) sr (MkFunctions p true) in
  if reads_then p r v then exec (then_of (calls rt) v) used else mret (used, Normal VUndefined).

(** The rest of the first call. *)
Definition conclude (rt : JSRuntime) (p : pptr) (v : JSValue) (f : fate) : M (JSRuntime * completion) :=
  match f with
  | Settles is_reject value => rt ← fulfill_or_reject_promise rt p value is_reject; mret (rt, Normal VUndefined)
  | Follows v_then => '(rt, _) ← JS_EnqueueJob rt js_promise_resolve_thenable_job [VPromise p; v; v_then]; mret (rt, Normal VUndefined)
  end.

Lemma gspec_granted {A} (m : M A) (Q : A -> Prop) o : gspec (grants o) m Q no_exn -> grants o -> exists a o', m o = (Ok a, o') /\ Q a /\ grants o'.
Proof. intros H Hg. specialize (H o (fun x => x)). destruct (m o) as [[a|e|] o']; [|contradiction..]. exists a, o'. destruct H. auto. Qed.

Lemma JS_Call_fate rt p sr r v (o : allocator) : functions rt !! sr = Some (MkFunctions p false) ->
  JS_Call rt (VResolving sr r) VUndefined [v] o =
  ('(rt, c) ← (let used := put_functions (count_call rt) sr (MkFunctions p true) in if reads_then p r v then exec (then_of (calls rt) v) used else mret (used, Normal VUndefined)); conclude rt p v (fate_of p r v c)) o.
Proof.
  intros Hf. unfold JS_Call, call_resolving. change (functions (count_call rt)) with (functions rt). rewrite Hf. unfold js_promise_resolve_function_call, fate_of, reads_then. cbn [already_resolved fd_promise]. cbv zeta.
  destruct r; [reflexivity|]. destruct (JS_IsObject v); cbn [negb andb orb]; [|reflexivity]. destruct (bool_decide (v = VPromise p)); cbn [negb]; [reflexivity|].
  unfold mbind, M_bind. destruct (exec _ _ o) as [[[rt1 c]|e|] o1]; try reflexivity. destruct c as [w|w]; [|reflexivity]. destruct (JS_IsFunction w); reflexivity.
Qed.

Lemma pending_claims rt p s : promises rt !! p = Some s -> claims rt p = 0%nat -> promise_state s = JS_PROMISE_PENDING.
Proof. intros Hp Hc. unfold claims, settled_at in Hc. rewrite Hp in Hc. unfold settled in Hc. destruct (bool_decide_reflect (promise_state s = JS_PROMISE_PENDING)); [assumption|]. cbn in Hc. lia. Qed.

(** Nothing but adding reactions and jobs can happen before the call decides. *)
Lemma until_read_spec rt p s sr r v ts1 o : ok rt -> grants o -> promises rt !! p = Some s -> functions rt !! sr = Some (MkFunctions p false) ->
  exists rt1 rtg c o1 og sg, then_all rt p ts1 o = (Ok rt1, o1) /\ functions rt1 !! sr = Some (MkFunctions p false) /\ until_read rt p sr r v ts1 o = (Ok (rtg, c), og) /\ grants og /\
    ok rtg /\ claims rtg p = 0%nat /\ functions rtg !! sr = Some (MkFunctions p true) /\ promises rtg !! p = Some sg /\
    (exists l, job_list rtg = job_list rt ++ l) /\ (forall r', reactions_of s r' ++ reactions r' ts1 `prefix_of` reactions_of sg r') /\
    (forall c', reads_then p r v = false \/ (forall n, then_of n v = UReturn c') -> (reads_then p r v = true -> c = c') /\ job_list rtg = job_list rt /\ forall r', reactions_of sg r' = reactions_of s r' ++ reactions r' ts1).
Proof.
  intros Hok HG Hp Hf. assert (Hpend : promise_state s = JS_PROMISE_PENDING) by (destruct (ok_unused rt sr _ Hok Hf eq_refl) as [(s0 & Hs0 & E0) _]; cbn in Hs0; congruence).
  destruct (gspec_granted _ _ o (then_all_spec (grants o) no_exn p ts1 rt s Hok Hp) HG) as (rt1 & o1 & E1 & (K1 & K2 & K3) & HG1). destruct (K3 HG) as (F1 & s1 & Hs1 & T1 & T2 & T3). rewrite Hpend in T1, T3. destruct T3 as [Ej Er]. rewrite <- F1 in Hf.
  destruct (ok_same rt1 (count_call rt1)) as [C1 C2]; try reflexivity; [exact K1|]. destruct (ok_use_pair (count_call rt1) sr _ C1 Hf eq_refl) as (U1 & U2 & U3 & U4 & _). cbn [fd_promise] in *. set (used := put_functions (count_call rt1) sr (MkFunctions p true)) in *.
  assert (Hg : exists rtg c og, (if reads_then p r v then exec (then_of (calls rt1) v) used else mret (used, Normal VUndefined)) o1 = (Ok (rtg, c), og) /\ fine used (rtg, c) /\ grants og /\
    forall c', reads_then p r v = false \/ (forall n, then_of n v = UReturn c') -> (reads_then p r v = true -> c = c') /\ rtg = used).
  { destruct (reads_then p r v); [|exists used, (Normal VUndefined), o1; split; [reflexivity|]; split; [apply fine_refl, U1|]; split; [exact HG1|]; intros c' _; split; [discriminate|reflexivity]].
    destruct (gspec_granted _ _ o1 (exec_spec (grants o1) no_exn (then_of (calls rt1) v) used U1) HG1) as ([rtg c] & og & Eg & Hfine & HGg). exists rtg, c, og. repeat (split; [assumption|]). intros c' [|Hc]; [discriminate|]. rewrite Hc in Eg. cbn in Eg. injection Eg as <- <- _. auto. }
  destruct Hg as (rtg & c & og & Eg & [G1 G2] & HGg & Hq). cbn [fst] in *. destruct (la_promises _ _ _ G2 p s1 Hs1) as (sg & Hsg & _). pose proof (la_claims _ _ _ G2 p s1 Hs1 ltac:(discriminate)) as Hcl. assert (Hc0 : claims rtg p = 0%nat) by lia.
  exists rt1, rtg, c, o1, og, sg. split; [exact E1|]. split; [exact Hf|]. split; [unfold until_read, mbind, M_bind; rewrite E1; exact Eg|]. repeat (split; [assumption|]). split; [|split; [exact Hsg|split; [|split]]].
  - destruct (la_functions _ _ _ G2 sr (MkFunctions p true) (lookup_insert_eq _ _ _)) as ([q b] & Hb & E2 & E3). cbn [fd_promise already_resolved] in *. rewrite E2, (E3 eq_refl) in Hb. exact Hb.
  - destruct (la_jobs _ _ _ G2) as [l El]. exists l. rewrite El. cbn. rewrite Ej. reflexivity.
  - intros r'. rewrite <- Er. apply (la_reactions _ _ _ G2 p s1 sg Hs1 Hsg). unfold settled. rewrite bool_decide_eq_true_2 by exact (pending_claims rtg p sg Hsg Hc0). reflexivity.
  - intros c' Hc. destruct (Hq c' Hc) as [E2 ->]. split; [exact E2|]. split; [exact Ej|]. change (promises used) with (promises rt1) in Hsg. rewrite Hs1 in Hsg. injection Hsg as <-. exact Er.
Qed.

(** What the first call decides is done, and the rest changes nothing about it. *)
Definition decided (p : pptr) (v : JSValue) (sg : JSPromiseData) (rtg rt' : JSRuntime) (ts2 : list (JSValue * JSValue * (JSValue * JSValue))) (f : fate) : Prop :=
  exists s', promises rt' !! p = Some s' /\
    match f with
    | Settles is_reject value =>
        promise_state s' = (if is_reject then JS_PROMISE_REJECTED else JS_PROMISE_FULFILLED) /\ promise_result s' = value /\
        job_list rt' = job_list rtg ++ (reaction_job is_reject value <$> reactions_of sg is_reject ++ reactions is_reject ts2)
    | Follows v_then =>
        promise_state s' = JS_PROMISE_PENDING /\ (forall r', reactions_of s' r' = reactions_of sg r' ++ reactions r' ts2) /\
        job_list rt' = job_list rtg ++ [MkJob js_promise_resolve_thenable_job [VPromise p; v; v_then]]
    end.

Lemma conclude_spec (G : Prop) rt p sr v s f : G -> ok rt -> claims rt p = 0%nat -> functions rt !! sr = Some (MkFunctions p true) -> promises rt !! p = Some s ->
  gspec G (conclude rt p v f) (fun q => ok (fst q) /\ functions (fst q) = functions rt /\
    match f with
    | Settles r w => promises (fst q) !! p = Some (settled_as r w s) /\ job_list (fst q) = job_list rt ++ (reaction_job r w <$> reactions_of s r)
    | Follows t => promises (fst q) !! p = Some s /\ job_list (fst q) = job_list rt ++ [MkJob js_promise_resolve_thenable_job [VPromise p; v; t]]
    end) no_exn.
Proof.
  intros HG Hok Hc Hf Hp. destruct f as [r w|t]; cbn [conclude].
  - eapply gspec_bind; [apply (fulfill_spec G no_exn rt p s w r Hok Hp Hc)|]. intros rt1 (J1 & _ & J3 & J4 & J5). apply gspec_ret. cbn [fst]. split; [exact J1|]. split; [exact J4|]. rewrite J3. split; [apply lookup_insert_eq|exact (J5 HG)].
  - eapply gspec_bind; [apply (enqueue_spec G no_exn)|]. intros [rt1 z] [[Eq _]|(_ & _ & Hn)]; [|contradiction]. cbn [fst] in Eq. subst rt1. apply gspec_ret. cbn [fst]. destruct (ok_thenable rt p s v t Hok Hp Hc) as [L1 _]. auto.
Qed.

(** C11: for a program whose allocations are all granted, every reaction to a promise is
    queued exactly once, in the order of the [then] calls, whether the [then] came
    before or after the call that settles it.  [then] calls, a first call of a
    resolving function with [v], more [then] calls and a second call of a resolving
    function lead to what the first call decides, whatever the second one is given:
    a rejection or a value that is not an object settles the promise with [v]; the
    promise itself rejects it with a type error; an object whose [then] throws rejects
    it with the exception, one whose [then] is not a function fulfils it with [v], and
    one whose [then] is a function leaves it pending with its reactions, and one job
    that calls that function is queued.  The read of [then] may run code, which can
    only add jobs and reactions; without such code the jobs and the reactions before
    the decision are exactly those of the [then] calls. *)
Theorem reactions_queued_once rt p s sr r r2 v v2 ts1 ts2 o :
  ok rt -> grants o -> promises rt !! p = Some s -> functions rt !! sr = Some (MkFunctions p false) ->
  exists rtg c og sg rt' o',
    until_read rt p sr r v ts1 o = (Ok (rtg, c), og) /\ promises rtg !! p = Some sg /\ promise_state sg = JS_PROMISE_PENDING /\
    (exists l, job_list rtg = job_list rt ++ l) /\ (forall r', reactions_of s r' ++ reactions r' ts1 `prefix_of` reactions_of sg r') /\
    (forall c', reads_then p r v = false \/ (forall n, then_of n v = UReturn c') -> (reads_then p r v = true -> c = c') /\ job_list rtg = job_list rt /\ forall r', reactions_of sg r' = reactions_of s r' ++ reactions r' ts1) /\
    settle_between rt p sr r r2 v v2 ts1 ts2 o = (Ok rt', o') /\ decided p v sg rtg rt' ts2 (fate_of p r v c).
Proof.
  intros Hok HG Hp Hf. destruct (until_read_spec rt p s sr r v ts1 o Hok HG Hp Hf) as (rt1 & rtg & c & o1 & og & sg & E1 & Hf1 & Eg & HGg & G1 & G2 & G3 & G4 & G5 & G6 & G7).
  pose proof (pending_claims rtg p sg G4 G2) as Hpend. set (f := fate_of p r v c). set (rest := rt ← ('(rt, _) ← conclude rtg p v f; then_all rt p ts2); '(rt, _) ← JS_Call rt (VResolving sr r2) VUndefined [v2]; mret rt).
  assert (Hrest : gspec (grants og) rest (fun rt' => decided p v sg rtg rt' ts2 f) no_exn).
  { apply gspec_bind with (R := fun rt3 => functions rt3 !! sr = Some (MkFunctions p true) /\ decided p v sg rtg rt3 ts2 f).
    - eapply gspec_bind; [apply (conclude_spec (grants og) rtg p sr v sg f HGg G1 G2 G3 G4)|]. intros [rt2 c2] (J1 & J2 & J3). cbn [fst] in *. assert (Hs2 : exists s2, promises rt2 !! p = Some s2) by (destruct f; destruct J3; eauto). destruct Hs2 as [s2 Hs2].
      eapply gspec_mono; [apply (then_all_spec (grants og) no_exn p ts2 rt2 s2 J1 Hs2)| |auto]. intros rt3 (_ & _ & L3). destruct (L3 HGg) as (F3 & s3 & Hs3 & U1 & U2 & U3). split; [rewrite F3, J2; exact G3|]. exists s3. split; [exact Hs3|]. unfold thens in *.
      destruct f as [r' w|t]; destruct J3 as [J3 J4]; rewrite Hs2 in J3; injection J3 as ->; [|rewrite Hpend in U1, U3; rewrite J4 in U3; destruct U3; auto].
      split; [exact U1|]. split; [exact U2|]. assert (Hjobs : job_list rt3 = job_list rt2 ++ (reaction_job r' w <$> reactions r' ts2)) by (destruct r'; exact U3). rewrite Hjobs, J4, fmap_app, <- app_assoc. reflexivity.
    - intros rt3 [Hf3 Hd]. unfold JS_Call, call_resolving. change (functions (count_call rt3)) with (functions rt3). rewrite Hf3. unfold js_promise_resolve_function_call. cbn [already_resolved]. rewrite ret_bind. apply gspec_ret. exact Hd. }
  destruct (gspec_run rest _ og Hrest) as (rt' & o' & Er & Hd). exists rtg, c, og, sg, rt', o'. repeat (split; [assumption|]). split; [|exact Hd].
  unfold until_read in Eg. unfold settle_between, rest, mbind, M_bind in *. rewrite E1 in *. rewrite (JS_Call_fate rt1 p sr r v o1 Hf1). unfold mbind, M_bind. cbv zeta in *. rewrite Eg. fold f. revert Er. destruct (conclude rtg p v f og) as [[[]| |]]; exact (fun H => H).
Qed.

End Theorems.

(** With the limit 0 [HAKO_ExecutePendingJob] runs no job, whatever the queue. *)
Lemma hako_zero_runs_nothing `{PH : PromiseHost} fuel rt : HAKO_ExecutePendingJob fuel rt 0 = mret (rt, 0).
Proof. destruct fuel; reflexivity. Qed.

(** A reaction is lost when [JS_EnqueueJob] fails: the promise is settled, its
    reactions are gone and no job runs them. *)
Lemma reaction_lost_without_memory `{PH : PromiseHost} rt p s v (o : allocator) :
  promises rt !! p = Some s -> promise_state s = JS_PROMISE_PENDING -> length (fst (promise_reactions s)) = 1%nat -> o 0%nat = false ->
  exists rt' o', fulfill_or_reject_promise rt p v false o = (Ok rt', o') /\ job_list rt' = job_list rt /\ promises rt' !! p = Some (settled_as false v s).
Proof.
  intros Hp Hs Hl Ho. destruct (fst (promise_reactions s)) as [|rd [|]] eqn:Er; try discriminate. unfold fulfill_or_reject_promise. rewrite Hp, bool_decide_eq_true_2 by exact Hs. unfold reactions_of. rewrite Er. cbn [negb andb enqueue_reactions].
  unfold JS_EnqueueJob, try_alloc, mbind, M_bind, mret, M_ret. rewrite Ho. eexists _, _. split; [reflexivity|]. split; [reflexivity|]. apply lookup_insert_eq.
Qed.

(** ** Witnesses *)

(** Every function queues the function 9 as a microtask; the object 5 has a method [then],
    the function 4. *)
#[local] Instance demo_host : PromiseHost := {|
  behave n f this argv := UMicrotask (VFunction 9) (fun _ => UReturn (Normal (VPrimitive (Z.of_nat n))));
  then_of n v := UReturn (Normal (if bool_decide (v = VObject 5) then VFunction 4 else VUndefined));
  has_tracker := true;
  type_error := VObject 1;
  global_obj := VObject 2;
  out_of_memory := VObject 3
|}.

Definition done : completion -> user := fun _ => UReturn (Normal VUndefined).

(** A promise that is fulfilled with 5 and has two reactions. *)
Definition demo_fulfilled : user :=
  UConstruct (VFunction 1) (fun resolve _ => UCall resolve [VPrimitive 5] (UReturn (Normal VUndefined)) done)
    (fun c => match c with Normal p => UThen p (VFunction 2) VUndefined (fun _ => UThen p (VFunction 3) VUndefined done) | _ => UReturn c end).

(** A pending promise. *)
Definition demo_pending : user := UConstruct (VFunction 1) (fun _ _ => UReturn (Normal VUndefined)) done.

Definition state_after (u : user) : JSRuntime := match program u 0 alloc_all with (Ok (rt, _), _) => rt | _ => initial_runtime end.

Example demo_runs : job_func <$> job_list (state_after demo_fulfilled) = [promise_reaction_job; promise_reaction_job].
Proof. vm_compute. reflexivity. Qed.

Lemma promises_settle_witness :
  exists rt l o1, program demo_fulfilled 2 alloc_all = (Ok (rt, l), o1) /\
    (forall sr f, functions rt !! sr = Some f -> already_resolved f = false ->
       (exists s, promises rt !! fd_promise f = Some s /\ promise_state s = JS_PROMISE_PENDING) /\
       forall sr' f', functions rt !! sr' = Some f' -> already_resolved f' = false -> fd_promise f' = fd_promise f -> sr' = sr) /\
    exists rt' l' o2, execute 3 rt o1 = (Ok (rt', l'), o2) /\
      forall p s, promises rt !! p = Some s -> promise_state s <> JS_PROMISE_PENDING ->
        exists s', promises rt' !! p = Some s' /\ promise_state s' = promise_state s /\ promise_result s' = promise_result s.
Proof. exact (promises_settle_once demo_fulfilled 2 3 alloc_all). Defined.

Definition demo_job (f : positive) (sr : positive) : JSJobEntry := MkJob promise_reaction_job [VResolving sr false; VResolving sr true; VFunction f; VBool false; VPrimitive 5].

Lemma jobs_order_witness :
  exists rt' queued o2, execute 2 (state_after demo_fulfilled) (snd (program demo_fulfilled 0 alloc_all)) = (Ok (rt', [demo_job 2%positive 2%positive; demo_job 3%positive 3%positive]), o2) /\ job_list rt' = [] ++ queued.
Proof. refine (jobs_run_in_order demo_fulfilled 0 alloc_all (state_after demo_fulfilled) [] _ [demo_job 2%positive 2%positive] (demo_job 3%positive 3%positive) [] _ _); vm_compute; reflexivity. Defined.

Lemma demo_pending_ok : ok (state_after demo_pending).
Proof.
  destruct (gspec_run _ _ alloc_all (program_spec (grants alloc_all) no_exn demo_pending 0)) as ([rt l] & o' & E1 & H). unfold state_after. rewrite E1. exact H.
Qed.

Definition demo_thens (f : positive) : list (JSValue * JSValue * (JSValue * JSValue)) := [(VFunction f, VUndefined, (VUndefined, VUndefined))].

(** The promise is fulfilled with 7, and in the second run follows the object 5. *)
Lemma reactions_once_witness :
  (exists rt' o', settle_between (state_after demo_pending) 1%positive 1%positive false true (VPrimitive 7) (VPrimitive 8) (demo_thens 2) (demo_thens 3) alloc_all = (Ok rt', o') /\
    job_list rt' = reaction_job false (VPrimitive 7) <$> reactions false (demo_thens 2) ++ reactions false (demo_thens 3) /\
    exists s', promises rt' !! 1%positive = Some s' /\ promise_state s' = JS_PROMISE_FULFILLED /\ promise_result s' = VPrimitive 7) /\
  (exists rt' o', settle_between (state_after demo_pending) 1%positive 1%positive false false (VObject 5) (VPrimitive 8) (demo_thens 2) (demo_thens 3) alloc_all = (Ok rt', o') /\
    job_list rt' = [MkJob js_promise_resolve_thenable_job [VPromise 1%positive; VObject 5; VFunction 4]] /\
    exists s', promises rt' !! 1%positive = Some s' /\ promise_state s' = JS_PROMISE_PENDING /\ reactions_of s' false = reactions false (demo_thens 2) ++ reactions false (demo_thens 3)).
Proof.
  assert (Hg : grants alloc_all) by (intros n; reflexivity). split.
  - destruct (reactions_queued_once (state_after demo_pending) 1%positive fresh_promise 1%positive false true (VPrimitive 7) (VPrimitive 8) (demo_thens 2) (demo_thens 3) alloc_all demo_pending_ok Hg ltac:(vm_compute; reflexivity) ltac:(vm_compute; reflexivity)) as (rtg & c & og & sg & rt' & o' & _ & _ & _ & _ & _ & Hq & Hs & s' & Hs' & Hst & Hres & Hj).
    destruct (Hq (Normal VUndefined) (or_introl eq_refl)) as (_ & Ej & Er). exists rt', o'. split; [exact Hs|]. rewrite Hj, Ej, Er. split; [vm_compute; reflexivity|]. exists s'. auto.
  - destruct (reactions_queued_once (state_after demo_pending) 1%positive fresh_promise 1%positive false false (VObject 5) (VPrimitive 8) (demo_thens 2) (demo_thens 3) alloc_all demo_pending_ok Hg ltac:(vm_compute; reflexivity) ltac:(vm_compute; reflexivity)) as (rtg & c & og & sg & rt' & o' & _ & _ & _ & _ & _ & Hq & Hs & s' & Hs' & Hd).
    destruct (Hq (Normal (VFunction 4)) (or_intror (fun _ => eq_refl))) as (Ec & Ej & Er). rewrite (Ec eq_refl) in Hd. destruct Hd as (Hst & Hre & Hj). exists rt', o'. split; [exact Hs|]. rewrite Hj, Ej. split; [vm_compute; reflexivity|]. exists s'. rewrite Hre, Er. auto.
Defined.
