(* ===== verification/Maps.v ===== *)
(** Map and Set objects (quickjs.c): definitions.

    A map keeps its records on a list, in the order of their insertion, and the
    records that are not deleted on the chains of a hash table.  An iterator, and a
    running [forEach], stands on a record and holds a reference to it; a record that
    is deleted meanwhile stays on the list, marked [empty], until nothing stands on
    it.

    [JSMapWorld] is one map with the iterators and the [forEach] calls that stand on
    it.  Records are named by the order of their allocation; the address of a record
    that was freed is not in [heap], and an operation that reads or writes there has
    no result ([None]).  JavaScript code runs between the operations, and within
    [forEach] and [getOrInsertComputed], which are therefore cut at the call.

    Freeing a value may free the last reference to an iterator.  Which iterators go
    with a value is up to the program, so that [JS_FreeValue] takes it as the
    argument [released]. *)
From Stdlib Require Import ZArith Lia.
From S2P Require Import Prelude.
From stdpp Require Import base tactics numbers gmap list.

Open Scope Z_scope.

Notation rid := nat (only parsing).

(** The values, their hash and their comparison. *)
Class MapKeys := {
  value : Type;
  v_undefined : value;
  map_normalize_key : value -> value;
  map_hash_key : value -> Z -> Z;
  js_same_value_zero : value -> value -> bool
}.

Inductive JSIteratorKindEnum : Type := JS_ITERATOR_KIND_KEY | JS_ITERATOR_KIND_VALUE | JS_ITERATOR_KIND_KEY_AND_VALUE.

Section Maps.
Context `{MK : MapKeys}.

Record JSMapRecord : Type := MkRec {
  mr_ref_count : Z;
  mr_empty : bool;
  hash_next : option rid;
  key : value;
  mr_value : value
}.

(** [next_rid]: the number of records allocated so far; [is_set]: the class of the
    object, Map or Set. *)
Record JSMapState : Type := MkMap {
  is_set : bool;
  heap : gmap rid JSMapRecord;
  records : list rid;
  record_count : Z;
  hash_table : list (option rid);
  hash_bits : Z;
  hash_size : Z;
  record_count_threshold : Z;
  next_rid : nat
}.

(** [it_obj]: the iterator still refers to the map. *)
Record JSMapIteratorData : Type := MkIter {
  it_obj : bool;
  it_kind : JSIteratorKindEnum;
  cur_record : option rid
}.

(** A [forEach] whose callback runs: the record it has locked and the values it has
    duplicated for the call. *)
Record forEach_frame : Type := MkFrame {
  fr_record : rid;
  fr_key : value;
  fr_value : value
}.

Record JSMapWorld : Type := MkWorld {
  map_state : JSMapState;
  iterators : list (option JSMapIteratorData);
  frames : list (option forEach_frame)
}.

(** ** State *)

Definition set_heap (s : JSMapState) (h : gmap rid JSMapRecord) : JSMapState :=
  MkMap (is_set s) h (records s) (record_count s) (hash_table s) (hash_bits s) (hash_size s) (record_count_threshold s) (next_rid s).
Definition set_records (s : JSMapState) (l : list rid) : JSMapState :=
  MkMap (is_set s) (heap s) l (record_count s) (hash_table s) (hash_bits s) (hash_size s) (record_count_threshold s) (next_rid s).
Definition set_count (s : JSMapState) (n : Z) : JSMapState :=
  MkMap (is_set s) (heap s) (records s) n (hash_table s) (hash_bits s) (hash_size s) (record_count_threshold s) (next_rid s).
Definition set_table (s : JSMapState) (t : list (option rid)) : JSMapState :=
  MkMap (is_set s) (heap s) (records s) (record_count s) t (hash_bits s) (hash_size s) (record_count_threshold s) (next_rid s).
Definition put_rec (s : JSMapState) (r : rid) (mr : JSMapRecord) : JSMapState := set_heap s (<[r := mr]> (heap s)).

Definition set_ref_count (mr : JSMapRecord) (n : Z) : JSMapRecord := MkRec n (mr_empty mr) (hash_next mr) (key mr) (mr_value mr).
Definition set_next (mr : JSMapRecord) (n : option rid) : JSMapRecord := MkRec (mr_ref_count mr) (mr_empty mr) n (key mr) (mr_value mr).
Definition set_value (mr : JSMapRecord) (v : value) : JSMapRecord := MkRec (mr_ref_count mr) (mr_empty mr) (hash_next mr) (key mr) v.

Definition with_map (w : JSMapWorld) (s : JSMapState) : JSMapWorld := MkWorld s (iterators w) (frames w).
Definition put_iterator (w : JSMapWorld) (i : nat) (o : option JSMapIteratorData) : JSMapWorld := MkWorld (map_state w) (<[i := o]> (iterators w)) (frames w).
Definition put_frame (w : JSMapWorld) (f : nat) (o : option forEach_frame) : JSMapWorld := MkWorld (map_state w) (iterators w) (<[f := o]> (frames w)).

(** [el->next] for the record [r] on the list: [Some None] is the head of the list. *)
Fixpoint link_next (r : rid) (l : list rid) : option (option rid) :=
  match l with
  | [] => None
  | x :: l => if decide (x = r) then Some (head l) else link_next r l
  end.

(** [list_del] and [js_free_rt]. *)
Definition free_record (s : JSMapState) (r : rid) : JSMapState :=
  set_records (set_heap s (delete r (heap s))) (filter (fun x => x <> r) (records s)).

(** The state [js_map_constructor] makes. *)
Definition new_map (set : bool) : JSMapState := MkMap set ∅ [] 0 (replicate 2 None) 1 2 4 0.

(** ** The hash table *)

Fixpoint find_record_loop (fuel : nat) (h : gmap rid JSMapRecord) (k : value) (mr : option rid) : option (option rid) :=
  match fuel with
  | O => None
  | S fuel =>
      match mr with
      | None => Some None
      | Some r =>
          rec ← h !! r;
          if mr_empty rec then find_record_loop fuel h k (hash_next rec)
          else if js_same_value_zero (key rec) k then Some (Some r)
          else find_record_loop fuel h k (hash_next rec)
      end
  end.

Definition map_find_record (s : JSMapState) (k : value) : option (option rid) :=
  b ← hash_table s !! Z.to_nat (map_hash_key k (hash_bits s));
  find_record_loop (S (size (heap s))) (heap s) k b.

(** The loop of [map_hash_resize] over the list of records. *)
Fixpoint resize_loop (bits : Z) (l : list rid) (h : gmap rid JSMapRecord) (t : list (option rid)) : option (gmap rid JSMapRecord * list (option rid)) :=
  match l with
  | [] => Some (h, t)
  | r :: l =>
      rec ← h !! r;
      if mr_empty rec then resize_loop bits l h t
      else
        let i := Z.to_nat (map_hash_key (key rec) bits) in
        b ← t !! i;
        resize_loop bits l (<[r := set_next rec b]> h) (<[i := Some r]> t)
  end.

(** [realloc_ok]: the answer of [js_realloc]. *)
Definition map_hash_resize (realloc_ok : bool) (s : JSMapState) : option JSMapState :=
  let new_hash_bits := Z.min (hash_bits s + 1) 31 in
  let new_hash_size := wrap 32 (Z.shiftl 1 new_hash_bits) in
  if negb realloc_ok then Some s
  else
    ht ← resize_loop new_hash_bits (records s) (heap s) (replicate (Z.to_nat new_hash_size) None);
    Some (MkMap (is_set s) ht.1 (records s) (record_count s) ht.2 new_hash_bits new_hash_size (wrap 32 (new_hash_size * 2)) (next_rid s)).

(** The new record, [None] when [js_malloc] fails.  Its value is set by the caller;
    until then it is not read. *)
Definition map_add_record (malloc_ok realloc_ok : bool) (s : JSMapState) (k : value) : option (option rid * JSMapState) :=
  if negb malloc_ok then Some (None, s)
  else
    let r := next_rid s in
    let i := Z.to_nat (map_hash_key k (hash_bits s)) in
    b ← hash_table s !! i;
    let s' := MkMap (is_set s) (<[r := MkRec 1 false b k v_undefined]> (heap s)) (records s ++ [r]) (wrap 32 (record_count s + 1))
                (<[i := Some r]> (hash_table s)) (hash_bits s) (hash_size s) (record_count_threshold s) (S r) in
    s' ← (if record_count_threshold s' <=? record_count s' then map_hash_resize realloc_ok s' else Some s');
    Some (Some r, s').

(** ** References *)

Definition map_decref_record (w : JSMapWorld) (r : rid) : option JSMapWorld :=
  let s := map_state w in
  rec ← heap s !! r;
  let n := mr_ref_count rec - 1 in
  if n =? 0 then (if mr_empty rec then Some (with_map w (free_record s r)) else None)
  else Some (with_map w (put_rec s r (set_ref_count rec n))).

Definition js_map_iterator_finalizer (w : JSMapWorld) (i : nat) : option JSMapWorld :=
  match iterators w !! i with
  | Some (Some it) =>
      w' ← (match cur_record it with
            | Some r => if it_obj it then map_decref_record w r else Some w
            | None => Some w
            end);
      Some (put_iterator w' i None)
  | _ => Some w
  end.

Fixpoint finalize (w : JSMapWorld) (l : list nat) : option JSMapWorld :=
  match l with [] => Some w | i :: l => w' ← js_map_iterator_finalizer w i; finalize w' l end.

Section Release.
Context (released : value -> list nat).

Definition JS_FreeValue (w : JSMapWorld) (v : value) : option JSMapWorld := finalize w (released v).

(** The record is no longer in the hash table. *)
Definition map_delete_record_internal (w : JSMapWorld) (r : rid) : option JSMapWorld :=
  mr ← heap (map_state w) !! r;
  if mr_empty mr then Some w
  else
    w ← JS_FreeValue w (key mr);
    mr ← heap (map_state w) !! r;
    w ← JS_FreeValue w (mr_value mr);
    mr ← heap (map_state w) !! r;
    let s := map_state w in
    let n := mr_ref_count mr - 1 in
    let s' := if n =? 0 then free_record s r else put_rec s r (MkRec n true (hash_next mr) v_undefined v_undefined) in
    Some (with_map w (set_count s' (wrap 32 (record_count s - 1)))).

(** The link that is rewritten when a record leaves its chain: the slot of the
    table, or the record before it. *)
Inductive link : Type := LSlot (i : nat) | LRec (r : rid).

Definition set_link (s : JSMapState) (p : link) (n : option rid) : option JSMapState :=
  match p with
  | LSlot i => Some (set_table s (<[i := n]> (hash_table s)))
  | LRec r => rec ← heap s !! r; Some (put_rec s r (set_next rec n))
  end.

(** The loop of [map_delete_record]: the record of the key and the link to it. *)
Fixpoint delete_loop (fuel : nat) (h : gmap rid JSMapRecord) (k : value) (pmr : link) (mr : option rid) : option (option (link * rid)) :=
  match fuel with
  | O => None
  | S fuel =>
      match mr with
      | None => Some None
      | Some r =>
          rec ← h !! r;
          if mr_empty rec then delete_loop fuel h k (LRec r) (hash_next rec)
          else if js_same_value_zero (key rec) k then Some (Some (pmr, r))
          else delete_loop fuel h k (LRec r) (hash_next rec)
      end
  end.

Definition map_delete_record (w : JSMapWorld) (k0 : value) : option (bool * JSMapWorld) :=
  let k := map_normalize_key k0 in
  let s := map_state w in
  let i := Z.to_nat (map_hash_key k (hash_bits s)) in
  b ← hash_table s !! i;
  found ← delete_loop (S (size (heap s))) (heap s) k (LSlot i) b;
  match found with
  | None => Some (false, w)
  | Some (pmr, r) =>
      mr ← heap s !! r;
      s ← set_link s pmr (hash_next mr);
      w ← map_delete_record_internal (with_map w s) r;
      Some (true, w)
  end.

(** ** Methods *)

Inductive map_result : Type :=
| RThis
| RException
| RUndefined
| RValue (v : value)
| RBool (b : bool)
| RSize (n : Z)
| RIterator (i : nat)
| RItem (k : option value) (v : option value)
| RDone
| RCall (f : nat) (k v : value)
| RCallKey (k : value).

Definition js_map_set (malloc_ok realloc_ok : bool) (w : JSMapWorld) (k0 v0 : value) : option (map_result * JSMapWorld) :=
  let s := map_state w in
  let k := map_normalize_key k0 in
  let v := if is_set s then v_undefined else v0 in
  found ← map_find_record s k;
  match found with
  | Some r =>
      mr ← heap s !! r;
      w ← JS_FreeValue w (mr_value mr);
      mr ← heap (map_state w) !! r;
      Some (RThis, with_map w (put_rec (map_state w) r (set_value mr v)))
  | None =>
      rs ← map_add_record malloc_ok realloc_ok s k;
      match rs with
      | (None, s) => Some (RException, with_map w s)
      | (Some r, s) => mr ← heap s !! r; Some (RThis, with_map w (put_rec s r (set_value mr v)))
      end
  end.

Definition js_map_get (w : JSMapWorld) (k0 : value) : option (map_result * JSMapWorld) :=
  found ← map_find_record (map_state w) (map_normalize_key k0);
  match found with
  | None => Some (RUndefined, w)
  | Some r => mr ← heap (map_state w) !! r; Some (RValue (mr_value mr), w)
  end.

Definition js_map_has (w : JSMapWorld) (k0 : value) : option (map_result * JSMapWorld) :=
  found ← map_find_record (map_state w) (map_normalize_key k0);
  Some (RBool (match found with Some _ => true | None => false end), w).

Definition js_map_delete (w : JSMapWorld) (k0 : value) : option (map_result * JSMapWorld) :=
  bw ← map_delete_record w k0; Some (RBool bw.1, bw.2).

(** [list_for_each_safe]: the next element is read before the current one is deleted. *)
Fixpoint clear_loop (fuel : nat) (w : JSMapWorld) (el : option rid) : option JSMapWorld :=
  match fuel with
  | O => None
  | S fuel =>
      match el with
      | None => Some w
      | Some r =>
          el1 ← link_next r (records (map_state w));
          w ← map_delete_record_internal w r;
          clear_loop fuel w el1
      end
  end.

Definition js_map_clear (w : JSMapWorld) : option (map_result * JSMapWorld) :=
  let s := map_state w in
  let w := with_map w (set_table s (replicate (Z.to_nat (hash_size s)) None)) in
  w ← clear_loop (S (length (records s))) w (head (records s));
  Some (RUndefined, w).

Definition js_map_get_size (w : JSMapWorld) : option (map_result * JSMapWorld) := Some (RSize (record_count (map_state w)), w).

(** [getOrInsert]: inserts the value when the key is missing. *)
Definition map_insert_new (malloc_ok realloc_ok : bool) (w : JSMapWorld) (k v : value) : option (map_result * JSMapWorld) :=
  rs ← map_add_record malloc_ok realloc_ok (map_state w) k;
  match rs with
  | (None, s) => w ← JS_FreeValue (with_map w s) v; Some (RException, w)
  | (Some r, s) => mr ← heap s !! r; Some (RValue v, with_map w (put_rec s r (set_value mr v)))
  end.

Definition js_map_getOrInsert (malloc_ok realloc_ok : bool) (w : JSMapWorld) (k0 v : value) : option (map_result * JSMapWorld) :=
  let k := map_normalize_key k0 in
  found ← map_find_record (map_state w) k;
  match found with
  | None => map_insert_new malloc_ok realloc_ok w k v
  | Some r => mr ← heap (map_state w) !! r; Some (RValue (mr_value mr), w)
  end.

(** [getOrInsertComputed] up to the call of the function with the key, and from its
    result [v] on. *)
Definition getOrInsertComputed_call (w : JSMapWorld) (k0 : value) : option (map_result * JSMapWorld) :=
  let k := map_normalize_key k0 in
  found ← map_find_record (map_state w) k;
  match found with
  | None => Some (RCallKey k, w)
  | Some r => mr ← heap (map_state w) !! r; Some (RValue (mr_value mr), w)
  end.

Definition getOrInsertComputed_return (malloc_ok realloc_ok : bool) (w : JSMapWorld) (k v : value) : option (map_result * JSMapWorld) :=
  bw ← map_delete_record w k;
  map_insert_new malloc_ok realloc_ok bw.2 k v.

(** ** Iteration *)

(** The loop that skips the records marked [empty]. *)
Fixpoint next_live (fuel : nat) (s : JSMapState) (el : option rid) : option (option rid) :=
  match fuel with
  | O => None
  | S fuel =>
      match el with
      | None => Some None
      | Some r =>
          mr ← heap s !! r;
          if mr_empty mr then (el ← link_next r (records s); next_live fuel s el) else Some (Some r)
      end
  end.

(** [mr->ref_count++]. *)
Definition lock_record (w : JSMapWorld) (r : rid) (mr : JSMapRecord) : JSMapWorld :=
  with_map w (put_rec (map_state w) r (set_ref_count mr (mr_ref_count mr + 1))).

(** The loop of [js_map_forEach] from [el] to the next call of the function. *)
Definition forEach_continue (w : JSMapWorld) (el : option rid) : option (map_result * JSMapWorld) :=
  let s := map_state w in
  el ← next_live (S (length (records s))) s el;
  match el with
  | None => Some (RUndefined, w)
  | Some r =>
      mr ← heap s !! r;
      let v := if is_set s then key mr else mr_value mr in
      let w := lock_record w r mr in
      Some (RCall (length (frames w)) (key mr) v, MkWorld (map_state w) (iterators w) (frames w ++ [Some (MkFrame r (key mr) v)]))
  end.

(** [callable]: the result of [check_function]. *)
Definition js_map_forEach (callable : bool) (w : JSMapWorld) : option (map_result * JSMapWorld) :=
  if negb callable then Some (RException, w) else forEach_continue w (head (records (map_state w))).

(** The call [f] of the function returns [ret], or throws ([None]). *)
Definition forEach_return (w : JSMapWorld) (f : nat) (ret : option value) : option (map_result * JSMapWorld) :=
  match frames w !! f with
  | Some (Some fr) =>
      let r := fr_record fr in
      w ← JS_FreeValue w (fr_value fr);
      w ← (if is_set (map_state w) then Some w else JS_FreeValue w (fr_key fr));
      el ← link_next r (records (map_state w));
      w ← map_decref_record w r;
      let w := put_frame w f None in
      match ret with
      | None => Some (RException, w)
      | Some v => w ← JS_FreeValue w v; forEach_continue w el
      end
  | _ => Some (RUndefined, w)
  end.

(** [alloc_ok]: the iterator object and its data could be allocated. *)
Definition js_create_map_iterator (alloc_ok : bool) (w : JSMapWorld) (kind : JSIteratorKindEnum) : option (map_result * JSMapWorld) :=
  if negb alloc_ok then Some (RException, w)
  else Some (RIterator (length (iterators w)), MkWorld (map_state w) (iterators w ++ [Some (MkIter true kind None)]) (frames w)).

Definition iterator_item (kind : JSIteratorKindEnum) (set : bool) (k v : value) : map_result :=
  let v := if set then k else v in
  match kind with
  | JS_ITERATOR_KIND_KEY => RItem (Some k) None
  | JS_ITERATOR_KIND_VALUE => RItem None (Some v)
  | JS_ITERATOR_KIND_KEY_AND_VALUE => RItem (Some k) (Some v)
  end.

Definition js_map_iterator_next (w : JSMapWorld) (i : nat) : option (map_result * JSMapWorld) :=
  match iterators w !! i with
  | Some (Some it) =>
      if negb (it_obj it) then Some (RDone, w)
      else
        elw ← (match cur_record it with
               | None => Some (head (records (map_state w)), w)
               | Some r => el ← link_next r (records (map_state w)); w ← map_decref_record w r; Some (el, w)
               end);
        let w := elw.2 in
        el ← next_live (S (length (records (map_state w)))) (map_state w) elw.1;
        match el with
        | None => Some (RDone, put_iterator w i (Some (MkIter false (it_kind it) None)))
        | Some r =>
            mr ← heap (map_state w) !! r;
            let w := lock_record w r mr in
            Some (iterator_item (it_kind it) (is_set (map_state w)) (key mr) (mr_value mr), put_iterator w i (Some (MkIter true (it_kind it) (Some r))))
        end
  | _ => Some (RException, w)
  end.

(** ** Programs *)

(** What JavaScript code and the engine do to a map, one step at a time.  The flags
    are the answers of the allocator. *)
Inductive map_event : Type :=
| EvSet (k v : value) (malloc_ok realloc_ok : bool)
| EvGet (k : value)
| EvHas (k : value)
| EvDelete (k : value)
| EvClear
| EvSize
| EvGetOrInsert (k v : value) (malloc_ok realloc_ok : bool)
| EvComputedCall (k : value)
| EvComputedReturn (k v : value) (malloc_ok realloc_ok : bool)
| EvIterator (kind : JSIteratorKindEnum) (alloc_ok : bool)
| EvNext (i : nat)
| EvDrop (i : nat)
| EvForEach (callable : bool)
| EvForEachReturn (f : nat) (ret : option value).

Definition map_step (w : JSMapWorld) (e : map_event) : option (map_result * JSMapWorld) :=
  match e with
  | EvSet k v mok rok => js_map_set mok rok w k v
  | EvGet k => js_map_get w k
  | EvHas k => js_map_has w k
  | EvDelete k => js_map_delete w k
  | EvClear => js_map_clear w
  | EvSize => js_map_get_size w
  | EvGetOrInsert k v mok rok => js_map_getOrInsert mok rok w k v
  | EvComputedCall k => getOrInsertComputed_call w k
  | EvComputedReturn k v mok rok => getOrInsertComputed_return mok rok w (map_normalize_key k) v
  | EvIterator kind ok => js_create_map_iterator ok w kind
  | EvNext i => js_map_iterator_next w i
  | EvDrop i => w ← js_map_iterator_finalizer w i; Some (RUndefined, w)
  | EvForEach callable => js_map_forEach callable w
  | EvForEachReturn f ret => forEach_return w f ret
  end.

End Release.

(** Each step comes with the iterators that go with the values it frees. *)
Fixpoint map_run (w : JSMapWorld) (es : list ((value -> list nat) * map_event)) : option (list map_result * JSMapWorld) :=
  match es with
  | [] => Some ([], w)
  | (rel, e) :: es => rw ← map_step rel w e; rsw ← map_run rw.2 es; Some (rw.1 :: rsw.1, rsw.2)
  end.

Definition new_world (set : bool) : JSMapWorld := MkWorld (new_map set) [] [].

End Maps.
