(* ===== verification/MapSpecs.v ===== *)
(** Map and Set objects: the abstract map and the invariant of the records.

    [mapdata] is the list of entries of a Map as the language defines it: an entry is
    appended at the end, a deleted entry leaves a hole and the list never shrinks, and
    an iterator is a position in the list.  [abs] reads it off the records: the record
    [r], if it is there and not empty, is the entry number [r].

    [core s r] is what a record means, [refs_ok] that the records on the list are the
    allocated ones and their reference counts the number of holders, [chains_ok] that
    the chains of the hash table hold a set of records, [data_ok] that no two entries
    have the same key. *)
From Stdlib Require Import ZArith Lia Sorting.Sorted.
From S2P Require Import Prelude Maps.
From stdpp Require Import base tactics numbers gmap list.

Open Scope Z_scope.

(** What the comparison and the hash promise, on keys that are in canonical form. *)
Class MapKeyLaws `{MK : MapKeys} := {
  valid_key : value -> Prop;
  canonical : value -> Prop;
  normalize_canonical k : valid_key k -> canonical (map_normalize_key k);
  canonical_valid k : canonical k -> valid_key k;
  normalize_id k : canonical k -> map_normalize_key k = k;
  same_refl a : canonical a -> js_same_value_zero a a = true;
  same_sym a b : canonical a -> canonical b -> js_same_value_zero a b = true -> js_same_value_zero b a = true;
  same_trans a b c : canonical a -> canonical b -> canonical c -> js_same_value_zero a b = true -> js_same_value_zero b c = true -> js_same_value_zero a c = true;
  same_hash a b n : canonical a -> canonical b -> 1 <= n <= 31 -> js_same_value_zero a b = true -> map_hash_key a n = map_hash_key b n;
  hash_range a n : canonical a -> 1 <= n <= 31 -> 0 <= map_hash_key a n < 2 ^ n
}.

(** ** Lists *)

Lemma sum_insert {A} (f : A -> nat) l i x y : l !! i = Some x -> (sum_list_with f (<[i := y]> l) + f x = sum_list_with f l + f y)%nat.
Proof.
  revert i. induction l as [|z l IH]; intros i H; [discriminate H|]. destruct i as [|i]; simpl in *; [injection H as ->; lia|]. specialize (IH i H). lia.
Qed.

Lemma sum_app {A} (f : A -> nat) l k : sum_list_with f (l ++ k) = (sum_list_with f l + sum_list_with f k)%nat.
Proof. induction l as [|z l IH]; cbn; [reflexivity|]. rewrite IH. lia. Qed.

Lemma sum_ge {A} (f : A -> nat) l i x : l !! i = Some x -> (f x <= sum_list_with f l)%nat.
Proof. revert i. induction l as [|z l IH]; intros i H; [discriminate|]. destruct i as [|i]; cbn in *; [injection H as ->; lia|]. specialize (IH i H). lia. Qed.

Lemma sum_pos {A} (f : A -> nat) l : (0 < sum_list_with f l)%nat -> exists i x, l !! i = Some x /\ (0 < f x)%nat.
Proof.
  induction l as [|z l IH]; cbn; [lia|]. intros H. destruct (f z) eqn:E; [|exists 0%nat, z; split; [reflexivity|lia]].
  destruct (IH ltac:(lia)) as (i & x & Hi & Hx). exists (S i), x. auto.
Qed.

Lemma sum_ext {A} (f g : A -> nat) l : (forall x, x ∈ l -> f x = g x) -> sum_list_with f l = sum_list_with g l.
Proof. induction l as [|z l IH]; intros H; cbn; [reflexivity|]. rewrite H, IH; [reflexivity|intros x Hx; apply H; right; exact Hx|left]. Qed.

Definition increasing (l : list nat) : Prop := StronglySorted lt l.

Lemma increasing_app l k : increasing (l ++ k) <-> increasing l /\ increasing k /\ forall x y, x ∈ l -> y ∈ k -> (x < y)%nat.
Proof.
  unfold increasing. induction l as [|z l IH]; cbn.
  - split; [intros H; repeat split; [constructor|exact H|intros x y Hx; inversion Hx]|tauto].
  - split.
    + intros H. inversion H as [|? ? H1 H2]; subst. apply IH in H1 as (H1 & H3 & H4). rewrite Forall_forall in H2. split; [constructor; [exact H1|]|split; [exact H3|]].
      * apply Forall_forall. intros x Hx. apply H2, elem_of_app. auto.
      * intros x y Hx Hy. apply elem_of_cons in Hx as [->|Hx]; [apply H2, elem_of_app; auto|auto].
    + intros (H1 & H2 & H3). inversion H1 as [|? ? H4 H5]; subst. constructor; [apply IH; repeat split; auto; intros x y Hx; apply H3; right; exact Hx|].
      rewrite Forall_forall in *. intros x Hx. apply elem_of_app in Hx as [Hx|Hx]; [auto|]. apply H3; [left|exact Hx].
Qed.

Lemma increasing_snoc l x : increasing l -> (forall y, y ∈ l -> (y < x)%nat) -> increasing (l ++ [x]).
Proof. intros H Hx. apply increasing_app. split; [exact H|]. split; [repeat constructor|]. intros y z Hy Hz. apply list_elem_of_singleton in Hz as ->. auto. Qed.

Lemma increasing_filter (P : nat -> Prop) `{forall x, Decision (P x)} l : increasing l -> increasing (filter P l).
Proof.
  unfold increasing. induction l as [|z l IH]; intros Hl; [constructor|]. inversion Hl as [|? ? H1 H2]; subst. rewrite filter_cons. destruct (decide (P z)); [|auto].
  constructor; [auto|]. rewrite Forall_forall in *. intros x Hx. apply list_elem_of_filter in Hx. apply H2, Hx.
Qed.

Lemma increasing_NoDup l : increasing l -> NoDup l.
Proof. unfold increasing. induction 1 as [|z l H IH H2]; constructor; [|exact IH]. rewrite Forall_forall in H2. intros Hz. specialize (H2 _ Hz). lia. Qed.

Lemma increasing_ext l k : increasing l -> increasing k -> (forall x, x ∈ l <-> x ∈ k) -> l = k.
Proof.
  intros Hl. revert k. induction Hl as [|z l Hl IH Hz]; intros k Hk E.
  - destruct k as [|y k]; [reflexivity|]. exfalso. assert (y ∈ @nil nat) as Hy by (apply E; left). inversion Hy.
  - rewrite Forall_forall in Hz. destruct Hk as [|y k Hk Hy]; [exfalso; assert (z ∈ @nil nat) as H by (apply E; left); inversion H|]. rewrite Forall_forall in Hy.
    assert (y = z) as ->.
    { assert (y ∈ z :: l) as H1 by (apply E; left). assert (z ∈ y :: k) as H2 by (apply E; left). apply elem_of_cons in H1 as [|H1]; [assumption|]. apply elem_of_cons in H2 as [|H2]; [auto|].
      specialize (Hz _ H1). specialize (Hy _ H2). lia. }
    f_equal. apply IH; [exact Hk|]. intros x. specialize (E x). rewrite !elem_of_cons in E. split; intros Hx.
    + destruct (proj1 E (or_intror Hx)) as [->|]; [specialize (Hz _ Hx); lia|assumption].
    + destruct (proj2 E (or_intror Hx)) as [->|]; [specialize (Hy _ Hx); lia|assumption].
Qed.

Lemma link_next_app r l k : r ∉ l -> link_next r (l ++ r :: k) = Some (head k).
Proof.
  induction l as [|x l IH]; intros H; cbn; [rewrite decide_True by reflexivity; reflexivity|]. rewrite decide_False by (intros ->; apply H; left). apply IH. intros Hr. apply H. right. exact Hr.
Qed.

Lemma filter_same (r : nat) (l : list nat) : r ∉ l -> filter (fun x => x <> r) l = l.
Proof.
  induction l as [|x l IH]; intros H; [reflexivity|]. rewrite filter_cons, decide_True by (intros ->; apply H; left). f_equal. apply IH. intros Hr. apply H. right. exact Hr.
Qed.

Lemma filter_out (r : nat) (l k : list nat) : r ∉ l -> r ∉ k -> filter (fun x => x <> r) (l ++ r :: k) = l ++ k.
Proof.
  intros Hl Hk. rewrite filter_app, filter_cons. rewrite decide_False by tauto. rewrite !filter_same by assumption. reflexivity.
Qed.

(** ** The abstract map *)

Section Abstract.
Context `{MK : MapKeys}.

Notation entries := (list (option (value * value))) (only parsing).

Record mapdata : Type := MkData {
  d_set : bool;
  d_entries : entries;
  d_cursors : list (option (JSIteratorKindEnum * option nat));
  d_calls : list (option (nat * value * value))
}.

Fixpoint find_key (k : value) (l : entries) : option nat :=
  match l with
  | [] => None
  | Some (k', _) :: l' => if js_same_value_zero k' k then Some 0%nat else S <$> find_key k l'
  | None :: l' => S <$> find_key k l'
  end.

Fixpoint first_entry (l : entries) : option (nat * value * value) :=
  match l with
  | [] => None
  | Some (k, v) :: _ => Some (0%nat, k, v)
  | None :: l' => (fun e => (S e.1.1, e.1.2, e.2)) <$> first_entry l'
  end.

(** The first entry at the position [n] or after it. *)
Definition next_entry (n : nat) (l : entries) : option (nat * value * value) := (fun e => ((n + e.1.1)%nat, e.1.2, e.2)) <$> first_entry (skipn n l).

Definition live_count (l : entries) : nat := sum_list_with (fun o => if o is Some _ then 1%nat else 0%nat) l.

Definition drop_iters (l : list nat) {A} (cs : list (option A)) : list (option A) := fold_left (fun cs i => <[i := None]> cs) l cs.

Definition with_entries (a : mapdata) (l : entries) : mapdata := MkData (d_set a) l (d_cursors a) (d_calls a).
Definition dropping (a : mapdata) (l : list nat) : mapdata := MkData (d_set a) (d_entries a) (drop_iters l (d_cursors a)) (d_calls a).
Definition with_cursor (a : mapdata) (i : nat) (c : option (JSIteratorKindEnum * option nat)) : mapdata := MkData (d_set a) (d_entries a) (<[i := c]> (d_cursors a)) (d_calls a).
Definition with_call (a : mapdata) (f : nat) (c : option (nat * value * value)) : mapdata := MkData (d_set a) (d_entries a) (d_cursors a) (<[f := c]> (d_calls a)).

Section Steps.
Context (released : value -> list nat).

Definition spec_delete (a : mapdata) (k : value) : bool * mapdata :=
  match find_key k (d_entries a) with
  | Some i =>
      match d_entries a !! i with
      | Some (Some (k', v')) => (true, dropping (with_entries a (<[i := None]> (d_entries a))) (released k' ++ released v'))
      | _ => (false, a)
      end
  | None => (false, a)
  end.

Definition spec_insert (malloc_ok : bool) (a : mapdata) (k v : value) : map_result * mapdata :=
  if malloc_ok then (RValue v, with_entries a (d_entries a ++ [Some (k, v)])) else (RException, dropping a (released v)).

Definition spec_value (a : mapdata) (k : value) (missing : map_result * mapdata) : map_result * mapdata :=
  match find_key k (d_entries a) with
  | Some i => match d_entries a !! i with Some (Some (_, v)) => (RValue v, a) | _ => missing end
  | None => missing
  end.

Definition spec_set (malloc_ok : bool) (a : mapdata) (k v : value) : map_result * mapdata :=
  match find_key k (d_entries a) with
  | Some i =>
      match d_entries a !! i with
      | Some (Some (k', v')) => (RThis, dropping (with_entries a (<[i := Some (k', v)]> (d_entries a))) (released v'))
      | _ => (RException, a)
      end
  | None => if malloc_ok then (RThis, with_entries a (d_entries a ++ [Some (k, v)])) else (RException, a)
  end.

Definition entry_releases (o : option (value * value)) : list nat := match o with Some (k, v) => released k ++ released v | None => [] end.

Definition spec_clear (a : mapdata) : mapdata :=
  dropping (with_entries a (replicate (length (d_entries a)) None)) (concat (entry_releases <$> d_entries a)).

Definition spec_continue (a : mapdata) (n : nat) : map_result * mapdata :=
  match next_entry n (d_entries a) with
  | None => (RUndefined, a)
  | Some (j, k, v) =>
      let v := if d_set a then k else v in
      (RCall (length (d_calls a)) k v, MkData (d_set a) (d_entries a) (d_cursors a) (d_calls a ++ [Some (j, k, v)]))
  end.

Definition spec_return (a : mapdata) (f : nat) (ret : option value) : map_result * mapdata :=
  match d_calls a !! f with
  | Some (Some (j, k, v)) =>
      let a := with_call (dropping a (released v ++ (if d_set a then [] else released k))) f None in
      match ret with
      | None => (RException, a)
      | Some r => spec_continue (dropping a (released r)) (S j)
      end
  | _ => (RUndefined, a)
  end.

Definition spec_next (a : mapdata) (i : nat) : map_result * mapdata :=
  match d_cursors a !! i with
  | Some (Some (kind, None)) => (RDone, a)
  | Some (Some (kind, Some n)) =>
      match next_entry n (d_entries a) with
      | None => (RDone, with_cursor a i (Some (kind, None)))
      | Some (j, k, v) => (iterator_item kind (d_set a) k v, with_cursor a i (Some (kind, Some (S j))))
      end
  | _ => (RException, a)
  end.

Definition spec_step (a : mapdata) (e : map_event) : map_result * mapdata :=
  match e with
  | EvSet k v mok _ => spec_set mok a (map_normalize_key k) (if d_set a then v_undefined else v)
  | EvGet k => spec_value a (map_normalize_key k) (RUndefined, a)
  | EvHas k => (RBool (bool_decide (is_Some (find_key (map_normalize_key k) (d_entries a)))), a)
  | EvDelete k => let '(b, a) := spec_delete a (map_normalize_key k) in (RBool b, a)
  | EvClear => (RUndefined, spec_clear a)
  | EvSize => (RSize (wrap 32 (Z.of_nat (live_count (d_entries a)))), a)
  | EvGetOrInsert k v mok _ => spec_value a (map_normalize_key k) (spec_insert mok a (map_normalize_key k) v)
  | EvComputedCall k => spec_value a (map_normalize_key k) (RCallKey (map_normalize_key k), a)
  | EvComputedReturn k v mok _ => spec_insert mok (spec_delete a (map_normalize_key k)).2 (map_normalize_key k) v
  | EvIterator kind ok => if ok : bool then (RIterator (length (d_cursors a)), MkData (d_set a) (d_entries a) (d_cursors a ++ [Some (kind, Some 0%nat)]) (d_calls a)) else (RException, a)
  | EvNext i => spec_next a i
  | EvDrop i => (RUndefined, dropping a [i])
  | EvForEach callable => if callable : bool then spec_continue a 0 else (RException, a)
  | EvForEachReturn f ret => spec_return a f ret
  end.

End Steps.

Fixpoint spec_run (a : mapdata) (es : list ((value -> list nat) * map_event)) : list map_result * mapdata :=
  match es with
  | [] => ([], a)
  | (rel, e) :: es => let '(r, a) := spec_step rel a e in let '(rs, a) := spec_run a es in (r :: rs, a)
  end.

(** ** What the records stand for *)

Definition core (h : gmap rid JSMapRecord) (r : rid) : option (value * value * option rid) :=
  match h !! r with Some mr => if mr_empty mr then None else Some (key mr, mr_value mr, hash_next mr) | None => None end.

Definition entries_of (s : JSMapState) : entries := (fun r => fst <$> core (heap s) r) <$> seq 0 (next_rid s).

Definition cursor_of (it : JSMapIteratorData) : JSIteratorKindEnum * option nat :=
  (it_kind it, if it_obj it then Some (match cur_record it with Some r => S r | None => 0%nat end) else None).

Definition call_of (fr : forEach_frame) : nat * value * value := (fr_record fr, fr_key fr, fr_value fr).

Definition abs (w : JSMapWorld) : mapdata :=
  MkData (is_set (map_state w)) (entries_of (map_state w)) (option_map cursor_of <$> iterators w) (option_map call_of <$> frames w).

(** ** The abstract search *)

Lemma find_entry_some k l i : find_key k l = Some i -> exists k' v, l !! i = Some (Some (k', v)) /\ js_same_value_zero k' k = true.
Proof.
  revert i. induction l as [|[[k' v]|] l IH]; intros i H; cbn in H; [discriminate| |].
  - destruct (js_same_value_zero k' k) eqn:E; [injection H as <-; eauto|]. destruct (find_key k l) as [j|]; [|discriminate]. injection H as <-. apply (IH j eq_refl).
  - destruct (find_key k l) as [j|]; [|discriminate]. injection H as <-. apply (IH j eq_refl).
Qed.

Lemma find_entry_none k l i k' v : find_key k l = None -> l !! i = Some (Some (k', v)) -> js_same_value_zero k' k = false.
Proof.
  revert i. induction l as [|[[k1 v1]|] l IH]; intros i H Hi; cbn in H; [discriminate| |].
  - destruct (js_same_value_zero k1 k) eqn:E; [discriminate|]. destruct (find_key k l) as [j|]; [discriminate|]. destruct i as [|i]; cbn in Hi; [injection Hi as -> ->; exact E|]. apply (IH i eq_refl Hi).
  - destruct (find_key k l) as [j|]; [discriminate|]. destruct i as [|i]; cbn in Hi; [discriminate|]. apply (IH i eq_refl Hi).
Qed.

Lemma next_entry_none n l : (forall i e, (n <= i)%nat -> l !! i <> Some (Some e)) -> next_entry n l = None.
Proof.
  intros H. unfold next_entry. assert (forall i e, skipn n l !! i <> Some (Some e)) as H' by (intros i e; rewrite lookup_drop; apply H; lia). revert H'. generalize (skipn n l). clear.
  intros l H. assert (first_entry l = None) as ->; [|reflexivity]. induction l as [|[[k v]|] l IH]; [reflexivity|exfalso; apply (H 0%nat (k, v)); reflexivity|]. cbn. rewrite IH; [reflexivity|]. intros i e. apply (H (S i)).
Qed.

Lemma next_entry_some n l j k v : (n <= j)%nat -> l !! j = Some (Some (k, v)) -> (forall i e, (n <= i < j)%nat -> l !! i <> Some (Some e)) -> next_entry n l = Some (j, k, v).
Proof.
  intros Hj Hl H. unfold next_entry. assert (skipn n l !! (j - n)%nat = Some (Some (k, v))) as Hl' by (rewrite lookup_drop; replace (n + (j - n))%nat with j by lia; exact Hl). replace j with (n + (j - n))%nat at 1 by lia.
  assert (forall i e, (i < j - n)%nat -> skipn n l !! i <> Some (Some e)) as H' by (intros i e Hi; rewrite lookup_drop; apply H; lia). revert Hl' H'. generalize (skipn n l) (j - n)%nat. clear.
  intros l i Hl H. assert (first_entry l = Some (i, k, v)) as ->; [|reflexivity]. revert i Hl H. induction l as [|[[k1 v1]|] l IH]; intros i Hl H; [discriminate| |].
  - destruct i as [|i]; [injection Hl as -> ->; reflexivity|]. exfalso. apply (H 0%nat (k1, v1)); [lia|reflexivity].
  - destruct i as [|i]; [discriminate|]. cbn. rewrite (IH i); [reflexivity|exact Hl|]. intros x e Hx. apply (H (S x)). lia.
Qed.

Lemma entries_lookup s r : entries_of s !! r = if decide (r < next_rid s)%nat then Some (fst <$> core (heap s) r) else None.
Proof.
  unfold entries_of. rewrite list_lookup_fmap. destruct (decide (r < next_rid s)%nat) as [H|H]; [rewrite lookup_seq_lt by exact H; reflexivity|]. rewrite lookup_seq_ge by lia. reflexivity.
Qed.

Lemma entries_length s : length (entries_of s) = next_rid s.
Proof. unfold entries_of. rewrite length_fmap, length_seq. reflexivity. Qed.

(** A change of one record is a change of one entry. *)
Lemma entries_update s s' r : next_rid s' = next_rid s -> (r < next_rid s)%nat -> (forall x, x <> r -> fst <$> core (heap s') x = fst <$> core (heap s) x) -> entries_of s' = <[r := fst <$> core (heap s') r]> (entries_of s).
Proof.
  intros En Hr Hx. apply list_eq. intros x. destruct (decide (x = r)) as [->|Hne].
  - rewrite list_lookup_insert_eq by (rewrite entries_length; exact Hr). rewrite entries_lookup, decide_True by lia. reflexivity.
  - rewrite list_lookup_insert_ne by congruence. rewrite !entries_lookup, En. destruct (decide _); [rewrite Hx by exact Hne|]; reflexivity.
Qed.

Lemma entries_ext s s' : next_rid s' = next_rid s -> (forall x, fst <$> core (heap s') x = fst <$> core (heap s) x) -> entries_of s' = entries_of s.
Proof. intros En Hx. unfold entries_of. rewrite En. apply list_fmap_ext. intros i x _. apply Hx. Qed.

Lemma entries_snoc s s' c : next_rid s' = S (next_rid s) -> core (heap s') (next_rid s) = c -> (forall x, (x < next_rid s)%nat -> fst <$> core (heap s') x = fst <$> core (heap s) x) -> entries_of s' = entries_of s ++ [fst <$> c].
Proof.
  intros En Hc Hx. unfold entries_of. rewrite En, seq_S, fmap_app. f_equal; [|cbn; rewrite Hc; reflexivity]. apply list_fmap_ext. intros i x Hi. apply lookup_seq in Hi as [-> Hi]. apply Hx. exact Hi.
Qed.

Lemma live_count_insert l i e o : l !! i = Some (Some e) -> (live_count (<[i := o]> l) + 1 = live_count l + (if o is Some _ then 1 else 0))%nat.
Proof. intros H. exact (sum_insert _ l i (Some e) o H). Qed.

Lemma drop_iters_app {A} l k (cs : list (option A)) : drop_iters (l ++ k) cs = drop_iters k (drop_iters l cs).
Proof. apply fold_left_app. Qed.

Lemma drop_iters_length {A} l (cs : list (option A)) : length (drop_iters l cs) = length cs.
Proof. revert cs. induction l as [|i l IH]; intros cs; [reflexivity|]. cbn. fold (drop_iters l (<[i := None]> cs)). rewrite IH. apply length_insert. Qed.

Lemma drop_iters_fmap {A B} (f : A -> B) l (cs : list (option A)) : option_map f <$> drop_iters l cs = drop_iters l (option_map f <$> cs).
Proof. revert cs. induction l as [|i l IH]; intros cs; [reflexivity|]. unfold drop_iters in *. cbn [fold_left]. rewrite IH, list_fmap_insert. reflexivity. Qed.

End Abstract.
