(* ===== verification/MapOps.v ===== *)
(** Map and Set objects: the invariant and the operations on records.

    Linking, unlinking and resizing keep [chains_ok]; locking, releasing and deleting
    a record keep [refs_ok]; neither changes what the other is about. *)
From Stdlib Require Import ZArith Lia Sorting.Sorted.
From S2P Require Import Prelude Maps MapSpecs.
From stdpp Require Import base tactics numbers gmap list.

Open Scope Z_scope.

Section Records.
Context `{ML : MapKeyLaws}.

(** ** References *)

Definition alive (mr : JSMapRecord) : nat := if mr_empty mr then 0%nat else 1%nat.

(** [H r]: how many iterators and calls stand on [r]. *)
Record refs_ok (H : rid -> nat) (s : JSMapState) : Prop := {
  ro_sorted : increasing (records s);
  ro_range : forall r, r ∈ records s -> (r < next_rid s)%nat;
  ro_dom : forall r, r ∈ records s <-> is_Some (heap s !! r);
  ro_count : forall r mr, heap s !! r = Some mr -> mr_ref_count mr = Z.of_nat (alive mr + H r) /\ (0 < alive mr + H r)%nat;
  ro_held : forall r, (0 < H r)%nat -> is_Some (heap s !! r)
}.

Definition one (r x : rid) : nat := if decide (x = r) then 1%nat else 0%nat.

Lemma one_eq r : one r r = 1%nat.
Proof. unfold one. rewrite decide_True by reflexivity. reflexivity. Qed.

Lemma one_ne r x : x <> r -> one r x = 0%nat.
Proof. unfold one. intros H. rewrite decide_False by exact H. reflexivity. Qed.

Lemma refs_ok_ext H H' s : (forall x, H x = H' x) -> refs_ok H s -> refs_ok H' s.
Proof.
  intros E []. split; auto; [intros r mr Hm; rewrite <- E; auto|intros r; rewrite <- E; auto].
Qed.

(** The fields that the operations on references leave alone. *)
Record same_table (s s' : JSMapState) : Prop := {
  st_set : is_set s' = is_set s;
  st_table : hash_table s' = hash_table s;
  st_bits : hash_bits s' = hash_bits s;
  st_size : hash_size s' = hash_size s;
  st_threshold : record_count_threshold s' = record_count_threshold s;
  st_next : next_rid s' = next_rid s
}.

Lemma same_table_refl s : same_table s s.
Proof. split; reflexivity. Qed.

Lemma same_table_trans s1 s2 s3 : same_table s1 s2 -> same_table s2 s3 -> same_table s1 s3.
Proof. intros [] []. split; congruence. Qed.

(** Records may have been freed, but none that is not empty. *)
Record kept (s s' : JSMapState) : Prop := {
  kp_table : same_table s s';
  kp_count : record_count s' = record_count s;
  kp_core : forall x, core (heap s') x = core (heap s) x;
  kp_dom : forall x, is_Some (heap s' !! x) -> is_Some (heap s !! x)
}.

Lemma kept_refl s : kept s s.
Proof. split; auto using same_table_refl. Qed.

Lemma record_kept_trans s1 s2 s3 : kept s1 s2 -> kept s2 s3 -> kept s1 s3.
Proof. intros [] []. split; [eauto using same_table_trans|congruence|intros x; congruence|auto]. Qed.

Lemma core_some h r k v n : core h r = Some (k, v, n) <-> exists mr, h !! r = Some mr /\ mr_empty mr = false /\ key mr = k /\ mr_value mr = v /\ hash_next mr = n.
Proof.
  unfold core. split.
  - intros H. destruct (h !! r) as [mr|]; [|discriminate]. exists mr. destruct (mr_empty mr); [discriminate|]. injection H as <- <- <-. auto.
  - intros (mr & -> & -> & <- & <- & <-). reflexivity.
Qed.

Lemma core_none h r mr : h !! r = Some mr -> core h r = None -> mr_empty mr = true.
Proof. unfold core. intros ->. destruct (mr_empty mr); [reflexivity|discriminate]. Qed.

Lemma core_insert_eq h r mr : core (<[r := mr]> h) r = if mr_empty mr then None else Some (key mr, mr_value mr, hash_next mr).
Proof. unfold core. rewrite lookup_insert_eq. reflexivity. Qed.

Lemma core_insert_ne h r mr x : x <> r -> core (<[r := mr]> h) x = core h x.
Proof. intros H. unfold core. rewrite lookup_insert_ne by congruence. reflexivity. Qed.

Lemma core_delete_ne h r x : x <> r -> core (delete r h) x = core h x.
Proof. intros H. unfold core. rewrite lookup_delete_ne by congruence. reflexivity. Qed.

Lemma core_delete_eq h r : core (delete r h) r = None.
Proof. unfold core. rewrite lookup_delete_eq. reflexivity. Qed.

(** Rewriting one allocated record. *)
Lemma refs_ok_put H H' s r mr mr' :
  refs_ok H s -> heap s !! r = Some mr -> (forall x, x <> r -> H' x = H x) ->
  mr_ref_count mr' = Z.of_nat (alive mr' + H' r) -> (0 < alive mr' + H' r)%nat -> refs_ok H' (put_rec s r mr').
Proof.
  intros [] Hr E Hc Hp. split; cbn; auto.
  - intros x. rewrite ro_dom0. destruct (decide (x = r)) as [->|Hne]; [rewrite lookup_insert_eq, Hr; split; eauto|rewrite lookup_insert_ne by congruence; reflexivity].
  - intros x m Hx. destruct (decide (x = r)) as [->|Hne]; [rewrite lookup_insert_eq in Hx; injection Hx as <-; auto|]. rewrite lookup_insert_ne in Hx by congruence. rewrite E by exact Hne. auto.
  - intros x Hx. destruct (decide (x = r)) as [->|Hne]; [rewrite lookup_insert_eq; eauto|]. rewrite lookup_insert_ne by congruence. rewrite E in Hx by exact Hne. auto.
Qed.

Lemma records_split H s r : refs_ok H s -> is_Some (heap s !! r) -> exists l k, records s = l ++ r :: k /\ r ∉ l /\ r ∉ k /\ link_next r (records s) = Some (head k).
Proof.
  intros Hs Hr. apply (ro_dom _ _ Hs) in Hr. apply list_elem_of_split in Hr as (l & k & E). exists l, k. pose proof (increasing_NoDup _ (ro_sorted _ _ Hs)) as Hn. rewrite E in *.
  apply NoDup_app in Hn as (_ & Hn & Hk). apply NoDup_cons in Hk as [Hk _]. assert (r ∉ l) as Hl by (intros Hx; apply (Hn r Hx); left). auto using link_next_app.
Qed.

Lemma refs_ok_free H H' s r : refs_ok H s -> (forall x, x <> r -> H' x = H x) -> H' r = 0%nat -> refs_ok H' (free_record s r).
Proof.
  intros [] E Hr. split; cbn.
  - apply increasing_filter. exact ro_sorted0.
  - intros x Hx. apply list_elem_of_filter in Hx. apply ro_range0, Hx.
  - intros x. rewrite list_elem_of_filter, ro_dom0. destruct (decide (x = r)) as [->|Hne].
    + rewrite lookup_delete_eq. split; [tauto|intros [? ?]; discriminate].
    + rewrite lookup_delete_ne by congruence. tauto.
  - intros x mr Hx. apply lookup_delete_Some in Hx as [Hne Hx]. rewrite E by congruence. auto.
  - intros x Hx. destruct (decide (x = r)) as [->|Hne]; [lia|]. rewrite E in Hx by exact Hne. rewrite lookup_delete_ne by congruence. auto.
Qed.

(** Giving a reference back: the record goes when it was deleted and this was the last. *)
Lemma decref_spec H w r :
  refs_ok H (map_state w) -> (0 < H r)%nat ->
  exists s', map_decref_record w r = Some (with_map w s') /\ refs_ok (fun x => (H x - one r x)%nat) s' /\ kept (map_state w) s' /\
    (forall x, is_Some (heap (map_state w) !! x) -> is_Some (heap s' !! x) \/ (x = r /\ core (heap (map_state w)) r = None)).
Proof.
  intros Hs Hr. destruct (ro_held _ _ Hs r Hr) as [mr Hm]. destruct (ro_count _ _ Hs r mr Hm) as [Hc _].
  assert (forall x, x <> r -> (H x - one r x = H x)%nat) as Hne by (intros x Hx; rewrite one_ne by exact Hx; lia).
  unfold map_decref_record. rewrite Hm. cbn [mbind option_bind]. destruct (Z.eqb_spec (mr_ref_count mr - 1) 0) as [E|E].
  - assert (mr_empty mr = true) as Hem by (unfold alive in Hc; destruct (mr_empty mr); [reflexivity|lia]). rewrite Hem. exists (free_record (map_state w) r). unfold alive in Hc. rewrite Hem in Hc.
    assert (core (heap (map_state w)) r = None) as Hcr by (unfold core; rewrite Hm, Hem; reflexivity).
    split; [reflexivity|]. split; [|split].
    + apply (refs_ok_free H); [exact Hs|exact Hne|]. rewrite one_eq. lia.
    + split; cbn; auto; [split; reflexivity| |].
      * intros x. destruct (decide (x = r)) as [->|Hx]; [rewrite core_delete_eq, Hcr; reflexivity|apply core_delete_ne, Hx].
      * intros x [m Hx]. apply lookup_delete_Some in Hx as [_ Hx]. eauto.
    + intros x [m Hx]. destruct (decide (x = r)) as [->|Hx']; [auto|left]. cbn. rewrite lookup_delete_ne by congruence. eauto.
  - eexists. split; [reflexivity|]. split; [|split].
    + apply (refs_ok_put H _ _ _ mr); [exact Hs|exact Hm|exact Hne| |]; rewrite one_eq; unfold alive in *; cbn; destruct (mr_empty mr); lia.
    + split; cbn; auto; [split; reflexivity| |].
      * intros x. destruct (decide (x = r)) as [->|Hx]; [|apply core_insert_ne, Hx]. rewrite core_insert_eq. unfold core. rewrite Hm. reflexivity.
      * intros x. destruct (decide (x = r)) as [->|Hx]; [rewrite Hm; eauto|]. rewrite lookup_insert_ne by congruence. auto.
    + intros x [m Hx]. left. cbn. destruct (decide (x = r)) as [->|Hx']; [rewrite lookup_insert_eq; eauto|]. rewrite lookup_insert_ne by congruence. eauto.
Qed.

Lemma core_lock h r mr n : h !! r = Some mr -> forall x, core (<[r := set_ref_count mr n]> h) x = core h x.
Proof. intros Hm x. destruct (decide (x = r)) as [->|Hx]; [|apply core_insert_ne, Hx]. rewrite core_insert_eq. unfold core. rewrite Hm. reflexivity. Qed.

Lemma lock_spec H s r mr :
  refs_ok H s -> heap s !! r = Some mr -> let s' := put_rec s r (set_ref_count mr (mr_ref_count mr + 1)) in
  refs_ok (fun x => (H x + one r x)%nat) s' /\ kept s s'.
Proof.
  intros Hs Hm s'. destruct (ro_count _ _ Hs r mr Hm) as [Hc _]. split.
  - apply (refs_ok_put H _ _ _ mr); [exact Hs|exact Hm|intros x Hx; rewrite one_ne by exact Hx; lia| |]; rewrite one_eq; unfold alive in *; cbn; destruct (mr_empty mr); lia.
  - split; cbn; auto; [split; reflexivity|apply core_lock, Hm|]. intros x. destruct (decide (x = r)) as [->|Hx]; [rewrite Hm; eauto|]. rewrite lookup_insert_ne by congruence. auto.
Qed.

(** ** Iterators *)

Definition holds_it (r : rid) (o : option JSMapIteratorData) : nat :=
  match o with Some it => if it_obj it then match cur_record it with Some x => one x r | None => 0%nat end else 0%nat | None => 0%nat end.
Definition holds_fr (r : rid) (o : option forEach_frame) : nat := match o with Some fr => one (fr_record fr) r | None => 0%nat end.
Definition holders (w : JSMapWorld) (r : rid) : nat := (sum_list_with (holds_it r) (iterators w) + sum_list_with (holds_fr r) (frames w))%nat.

Definition stands_on (w : JSMapWorld) (i : nat) (r : rid) : Prop :=
  exists it, iterators w !! i = Some (Some it) /\ it_obj it = true /\ cur_record it = Some r.

Lemma finalizer_spec E w i :
  refs_ok (fun x => (holders w x + E x)%nat) (map_state w) ->
  exists s', js_map_iterator_finalizer w i = Some (MkWorld s' (<[i := None]> (iterators w)) (frames w)) /\
    refs_ok (fun x => (holders (MkWorld s' (<[i := None]> (iterators w)) (frames w)) x + E x)%nat) s' /\ kept (map_state w) s' /\
    (forall x, is_Some (heap (map_state w) !! x) -> is_Some (heap s' !! x) \/ (stands_on w i x /\ core (heap (map_state w)) x = None)).
Proof.
  intros Hs. unfold js_map_iterator_finalizer. destruct (iterators w !! i) as [[it|]|] eqn:Hi.
  - assert (forall s' x, (holders (MkWorld s' (<[i := None]> (iterators w)) (frames w)) x + holds_it x (Some it) = holders w x)%nat) as Hh.
    { intros s' x. unfold holders. cbn [iterators frames]. pose proof (sum_insert (holds_it x) _ i _ None Hi) as H. cbn [holds_it] in *. lia. }
    assert (holds_none : (forall x, holds_it x (Some it) = 0%nat) -> exists s', Some (put_iterator w i None) = Some (MkWorld s' (<[i := None]> (iterators w)) (frames w)) /\
      refs_ok (fun x => (holders (MkWorld s' (<[i := None]> (iterators w)) (frames w)) x + E x)%nat) s' /\ kept (map_state w) s' /\
      (forall x, is_Some (heap (map_state w) !! x) -> is_Some (heap s' !! x) \/ (stands_on w i x /\ core (heap (map_state w)) x = None))).
    { intros H0. exists (map_state w). split; [reflexivity|]. split; [|split; [apply kept_refl|auto]]. revert Hs. apply refs_ok_ext. intros x. specialize (Hh (map_state w) x). rewrite H0 in Hh. lia. }
    destruct (cur_record it) as [r|] eqn:Hr; [destruct (it_obj it) eqn:Ho|]; cbn [mbind option_bind].
    + assert (forall x, holds_it x (Some it) = one r x) as H1 by (intros x; cbn; rewrite Ho, Hr; reflexivity).
      destruct (decref_spec _ w r Hs) as (s' & -> & H2 & H3 & H4); [specialize (Hh (map_state w) r); rewrite H1, one_eq in Hh; lia|]. cbn [mbind option_bind].
      exists s'. split; [reflexivity|]. split; [|split; [exact H3|]].
      * revert H2. apply refs_ok_ext. intros x. specialize (Hh s' x). rewrite H1 in Hh. lia.
      * intros x Hx. destruct (H4 x Hx) as [|[-> Hc]]; [auto|right]. split; [exists it; auto|exact Hc].
    + apply holds_none. intros x. cbn. rewrite Ho. reflexivity.
    + apply holds_none. intros x. cbn. rewrite Hr. destruct (it_obj it); reflexivity.
  - exists (map_state w). rewrite (list_insert_id _ _ _ Hi). destruct w. split; [reflexivity|]. split; [exact Hs|]. split; [apply kept_refl|auto].
  - exists (map_state w). rewrite list_insert_ge by (apply lookup_ge_None; exact Hi). destruct w. split; [reflexivity|]. split; [exact Hs|]. split; [apply kept_refl|auto].
Qed.

Lemma finalize_spec E w l :
  refs_ok (fun x => (holders w x + E x)%nat) (map_state w) ->
  exists w', finalize w l = Some w' /\ iterators w' = drop_iters l (iterators w) /\ frames w' = frames w /\
    refs_ok (fun x => (holders w' x + E x)%nat) (map_state w') /\ kept (map_state w) (map_state w') /\
    (forall x, is_Some (heap (map_state w) !! x) -> is_Some (heap (map_state w') !! x) \/ (exists i, i ∈ l /\ stands_on w i x /\ core (heap (map_state w)) x = None)).
Proof.
  revert w. induction l as [|i l IH]; intros w Hs; cbn [finalize].
  - exists w. split; [reflexivity|]. split; [reflexivity|]. split; [reflexivity|]. split; [exact Hs|]. split; [apply kept_refl|auto].
  - destruct (finalizer_spec E w i Hs) as (s' & -> & H2 & H3 & H4). cbn [mbind option_bind]. destruct (IH _ H2) as (w' & E1 & E2 & E3 & H5 & H6 & H7).
    exists w'. split; [exact E1|]. split; [exact E2|]. split; [exact E3|]. split; [exact H5|]. split; [eapply record_kept_trans; eassumption|].
    intros x Hx. destruct (H4 x Hx) as [H8|[H8 H9]]; [|right; exists i; split; [left|auto]]. destruct (H7 x H8) as [|(j & Hj & (it & Hi & Ho & Hc) & Hx')]; [auto|].
    right. exists j. split; [right; exact Hj|]. cbn in Hi. split; [|rewrite <- (kp_core _ _ H3 x); exact Hx'].
    exists it. split; [|auto]. destruct (decide (i = j)) as [->|Hne]; [|rewrite list_lookup_insert_ne in Hi by exact Hne; exact Hi].
    destruct (decide (j < length (iterators w))%nat) as [Hl|Hl]; [rewrite list_lookup_insert_eq in Hi by exact Hl; discriminate|rewrite list_insert_ge in Hi by lia; exact Hi].
Qed.

Lemma drop_iters_some {A} l (cs : list (option A)) i x : drop_iters l cs !! i = Some (Some x) -> cs !! i = Some (Some x).
Proof.
  revert cs. induction l as [|j l IH]; intros cs H; [exact H|]. apply IH in H. destruct (decide (j = i)) as [->|Hne]; [|rewrite list_lookup_insert_ne in H by exact Hne; exact H].
  destruct (decide (i < length cs)%nat) as [Hl|Hl]; [rewrite list_lookup_insert_eq in H by exact Hl; discriminate|rewrite list_insert_ge in H by lia; exact H].
Qed.

Lemma stands_on_drop w w' l i x : iterators w' = drop_iters l (iterators w) -> stands_on w' i x -> stands_on w i x.
Proof. intros E (it & Hi & H). exists it. split; [|exact H]. rewrite E in Hi. eapply drop_iters_some. exact Hi. Qed.

Section Release.
Context (released : value -> list nat).

(** Freeing two values, one after the other. *)
Lemma free_two E w a b :
  refs_ok (fun x => (holders w x + E x)%nat) (map_state w) ->
  exists w1 w', JS_FreeValue released w a = Some w1 /\ JS_FreeValue released w1 b = Some w' /\
    kept (map_state w) (map_state w1) /\ refs_ok (fun x => (holders w1 x + E x)%nat) (map_state w1) /\
    iterators w' = drop_iters (released a ++ released b) (iterators w) /\ frames w' = frames w /\
    refs_ok (fun x => (holders w' x + E x)%nat) (map_state w') /\ kept (map_state w) (map_state w') /\
    (forall x, is_Some (heap (map_state w) !! x) -> is_Some (heap (map_state w') !! x) \/ (exists i, i ∈ released a ++ released b /\ stands_on w i x /\ core (heap (map_state w)) x = None)).
Proof.
  intros Hs. destruct (finalize_spec E w (released a) Hs) as (w1 & E1 & I1 & F1 & R1 & K1 & D1). destruct (finalize_spec E w1 (released b) R1) as (w' & E2 & I2 & F2 & R2 & K2 & D2).
  exists w1, w'. split; [exact E1|]. split; [exact E2|]. split; [exact K1|]. split; [exact R1|]. split; [rewrite drop_iters_app, <- I1; exact I2|]. split; [congruence|]. split; [exact R2|].
  split; [eapply record_kept_trans; eassumption|]. intros x Hx. setoid_rewrite elem_of_app. destruct (D1 x Hx) as [H|(i & Hi & H)]; [|right; eauto].
  destruct (D2 x H) as [|(i & Hi & Ho & Hc)]; [auto|]. right. exists i. split; [auto|]. split; [eapply stands_on_drop; eassumption|]. rewrite <- (kp_core _ _ K1 x). exact Hc.
Qed.

Lemma delete_internal_spec E w r k v n :
  refs_ok (fun x => (holders w x + E x)%nat) (map_state w) -> core (heap (map_state w)) r = Some (k, v, n) ->
  exists w', map_delete_record_internal released w r = Some w' /\ iterators w' = drop_iters (released k ++ released v) (iterators w) /\ frames w' = frames w /\
    refs_ok (fun x => (holders w' x + E x)%nat) (map_state w') /\ same_table (map_state w) (map_state w') /\
    record_count (map_state w') = wrap 32 (record_count (map_state w) - 1) /\
    core (heap (map_state w')) r = None /\ (forall x, x <> r -> core (heap (map_state w')) x = core (heap (map_state w)) x) /\
    (forall x, is_Some (heap (map_state w') !! x) -> is_Some (heap (map_state w) !! x)) /\
    (forall x, x <> r -> is_Some (heap (map_state w) !! x) -> is_Some (heap (map_state w') !! x) \/
       (exists i, i ∈ released k ++ released v /\ stands_on w i x /\ core (heap (map_state w)) x = None)).
Proof.
  intros Hs Hr. destruct (free_two E w k v Hs) as (w1 & w2 & E1 & E2 & K1 & R1 & I2 & F2 & R2 & K2 & D2).
  apply core_some in Hr as Hr'. destruct Hr' as (mr & Hm & He & <- & <- & <-).
  assert (exists m1, heap (map_state w1) !! r = Some m1 /\ mr_value m1 = mr_value mr) as (m1 & Hm1 & Hv1).
  { rewrite <- (kp_core _ _ K1 r) in Hr. apply core_some in Hr as (m1 & ? & _ & _ & ? & _). eauto. }
  assert (exists m2, heap (map_state w2) !! r = Some m2 /\ mr_empty m2 = false) as (m2 & Hm2 & He2).
  { rewrite <- (kp_core _ _ K2 r) in Hr. apply core_some in Hr as (m2 & ? & ? & _). eauto. }
  destruct (ro_count _ _ R2 r m2 Hm2) as [Hc2 _]. unfold alive in Hc2. rewrite He2 in Hc2.
  unfold map_delete_record_internal. rewrite Hm. cbn [mbind option_bind]. rewrite He, E1. cbn [mbind option_bind]. rewrite Hm1. cbn [mbind option_bind]. rewrite Hv1, E2. cbn [mbind option_bind]. rewrite Hm2. cbn [mbind option_bind].
  eexists. split; [reflexivity|]. cbn [iterators frames with_map map_state]. split; [exact I2|]. split; [exact F2|].
  destruct K2 as [T2 N2 C2 X2]. destruct (Z.eqb_spec (mr_ref_count m2 - 1) 0) as [E0|E0].
  - assert (holders w2 r + E r = 0)%nat by lia. split; [|split; [|split; [|split; [|split; [|split]]]]]; cbn; [|destruct T2; split; assumption|rewrite N2; reflexivity| | | |].
    + apply (refs_ok_free _ (fun x => (holders w2 x + E x)%nat) _ r R2) in H; [|reflexivity]. destruct H. split; assumption.
    + apply core_delete_eq.
    + intros x Hx. rewrite core_delete_ne by exact Hx. apply C2.
    + intros x [m Hx]. apply lookup_delete_Some in Hx as [_ Hx]. eauto.
    + intros x Hx Hs'. rewrite lookup_delete_ne by congruence. auto.
  - split; [|split; [|split; [|split; [|split; [|split]]]]]; cbn; [|destruct T2; split; assumption|rewrite N2; reflexivity| | | |].
    + assert (refs_ok (fun x => (holders w2 x + E x)%nat) (put_rec (map_state w2) r (MkRec (mr_ref_count m2 - 1) true (hash_next m2) v_undefined v_undefined))) as Hp.
      { apply (refs_ok_put (fun x => (holders w2 x + E x)%nat) _ _ _ m2); [exact R2|exact Hm2|reflexivity| |]; cbn; lia. }
      destruct Hp. split; assumption.
    + rewrite core_insert_eq. reflexivity.
    + intros x Hx. rewrite core_insert_ne by exact Hx. apply C2.
    + intros x. destruct (decide (x = r)) as [->|Hx]; [rewrite Hm; eauto|]. rewrite lookup_insert_ne by congruence. auto.
    + intros x Hx Hs'. rewrite lookup_insert_ne by congruence. auto.
Qed.

End Release.

(** ** Walking the list *)

Lemma next_live_skip s l z k fuel :
  records s = l ++ z ++ k -> NoDup (records s) -> (forall x, x ∈ z -> exists mr, heap s !! x = Some mr /\ mr_empty mr = true) ->
  next_live (length z + fuel) s (head (z ++ k)) = next_live fuel s (head k).
Proof.
  revert l. induction z as [|x z IH]; intros l E Hn Hz; [reflexivity|]. cbn. destruct (Hz x ltac:(left)) as (mr & -> & He). cbn [mbind option_bind]. rewrite He.
  rewrite E in Hn |- *. cbn in *. apply NoDup_app in Hn as Hn'. destruct Hn' as (_ & Hd & _). rewrite link_next_app by (intros Hx; apply (Hd x Hx); left). cbn [mbind option_bind].
  apply (IH (l ++ [x])); [rewrite <- app_assoc; exact E|rewrite E; exact Hn|]. intros y Hy. apply Hz. right. exact Hy.
Qed.

Lemma split_live s k : (forall x, x ∈ k -> is_Some (heap s !! x)) ->
  (forall x, x ∈ k -> exists mr, heap s !! x = Some mr /\ mr_empty mr = true) \/
  (exists z r k', k = z ++ r :: k' /\ (forall x, x ∈ z -> exists mr, heap s !! x = Some mr /\ mr_empty mr = true) /\ exists e, core (heap s) r = Some e).
Proof.
  induction k as [|x k IH]; intros H; [left; intros x Hx; inversion Hx|]. destruct (H x ltac:(left)) as [mr Hm]. destruct (mr_empty mr) eqn:He.
  - destruct IH as [IH|(z & r & k' & -> & Hz & Hr)]; [intros y Hy; apply H; right; exact Hy| |].
    + left. intros y Hy. apply elem_of_cons in Hy as [->|Hy]; eauto.
    + right. exists (x :: z), r, k'. split; [reflexivity|]. split; [|exact Hr]. intros y Hy. apply elem_of_cons in Hy as [->|Hy]; eauto.
  - right. exists [], x, k. split; [reflexivity|]. split; [intros y Hy; inversion Hy|]. unfold core. rewrite Hm, He. eauto.
Qed.

(** From any place of the list, the next record that is not empty is the next entry. *)
Lemma next_live_spec H s l k n :
  refs_ok H s -> records s = l ++ k -> (forall x, x ∈ l -> (x < n)%nat) -> (forall x, x ∈ k -> (n <= x)%nat) ->
  (next_live (S (length (records s))) s (head k) = Some None /\ next_entry n (entries_of s) = None) \/
  (exists r key v nx, next_live (S (length (records s))) s (head k) = Some (Some r) /\ core (heap s) r = Some (key, v, nx) /\ next_entry n (entries_of s) = Some (r, key, v)).
Proof.
  intros Hs E Hl Hk. pose proof (increasing_NoDup _ (ro_sorted _ _ Hs)) as Hn.
  assert (forall x, x ∈ k -> is_Some (heap s !! x)) as Hin by (intros x Hx; apply (ro_dom _ _ Hs); rewrite E; apply elem_of_app; auto).
  assert (Hent : forall i e, entries_of s !! i = Some (Some e) -> (n <= i)%nat -> i ∈ k /\ exists e', core (heap s) i = Some e').
  { intros i e Hi Hni. rewrite entries_lookup in Hi. destruct (decide _); [|discriminate]. destruct (core (heap s) i) as [[[k1 v1] n1]|] eqn:Hc; [|discriminate]. split; [|eauto].
    apply core_some in Hc as (mr & Hm & _). assert (i ∈ records s) as Hr by (apply (ro_dom _ _ Hs); eauto). rewrite E in Hr. apply elem_of_app in Hr as [Hr|Hr]; [specialize (Hl _ Hr); lia|exact Hr]. }
  destruct (split_live s k Hin) as [Hz|(z & r & k' & -> & Hz & [[[key v] nx] Hr])].
  - left. split.
    + pose proof (next_live_skip s l k [] (S (length (records s)) - length k)) as Hsk. rewrite !app_nil_r in Hsk. rewrite E, length_app in *. replace (S (length l + length k))%nat with (length k + (S (length l + length k) - length k))%nat at 1 by lia.
      rewrite Hsk; [|reflexivity|exact Hn|exact Hz]. replace (S (length l + length k) - length k)%nat with (S (length l)) by lia. reflexivity.
    + apply next_entry_none. intros i e Hi He. destruct (Hent i e He Hi) as [Hx [e' Hc]]. destruct (Hz i Hx) as (mr & Hm & Hem). unfold core in Hc. rewrite Hm, Hem in Hc. discriminate.
  - right. exists r, key, v, nx. split; [|split; [exact Hr|]].
    + pose proof (next_live_skip s l z (r :: k') (S (length (records s)) - length z)) as Hsk. rewrite E, !length_app in *. cbn [length] in *.
      replace (S (length l + (length z + S (length k'))))%nat with (length z + (S (length l + (length z + S (length k'))) - length z))%nat at 1 by lia.
      rewrite Hsk; [|reflexivity|exact Hn|exact Hz]. replace (S (length l + (length z + S (length k'))) - length z)%nat with (S (length l + S (length k'))) by lia. cbn.
      apply core_some in Hr as (mr & -> & He & _). cbn [mbind option_bind]. rewrite He. reflexivity.
    + assert (r ∈ records s) as Hrr by (rewrite E, !elem_of_app; right; right; left). apply next_entry_some.
      * apply Hk, elem_of_app. right. left.
      * rewrite entries_lookup, decide_True by (apply (ro_range _ _ Hs), Hrr). rewrite Hr. reflexivity.
      * intros i e Hi He. destruct (Hent i e He ltac:(lia)) as [Hx [e' Hc]]. apply elem_of_app in Hx as [Hx|Hx]; [destruct (Hz i Hx) as (mr & Hm & Hem); unfold core in Hc; rewrite Hm, Hem in Hc; discriminate|].
        pose proof (ro_sorted _ _ Hs) as Hsort. rewrite E in Hsort. apply increasing_app in Hsort as (_ & Hsort & _). apply increasing_app in Hsort as (_ & Hsort & _).
        apply elem_of_cons in Hx as [->|Hx]; [lia|]. change (r :: k') with ([r] ++ k') in Hsort. apply increasing_app in Hsort as (_ & _ & Hlt). specialize (Hlt r i ltac:(left) Hx). lia.
Qed.

(** ** Chains *)

Notation cores := (rid -> option (value * value * option rid)) (only parsing).

Fixpoint chain (c : cores) (b : option rid) (l : list rid) : Prop :=
  match l with
  | [] => b = None
  | r :: l => b = Some r /\ exists k v n, c r = Some (k, v, n) /\ chain c n l
  end.

(** The key and the link of a record. *)
Definition linkage (e : value * value * option rid) : value * option rid := (e.1.1, e.2).

Lemma record_chain_frame c c' b l : (forall r, r ∈ l -> linkage <$> c' r = linkage <$> c r) -> chain c b l -> chain c' b l.
Proof.
  revert b. induction l as [|r l IH]; intros b H; [auto|]. intros [-> (k & v & n & Hc & Hl)]. split; [reflexivity|]. specialize (H r) as Hr. specialize (Hr ltac:(left)). rewrite Hc in Hr.
  destruct (c' r) as [[[k' v'] n']|]; [|discriminate]. cbn in Hr. injection Hr as -> ->. exists k, v', n. split; [reflexivity|]. apply IH; [|exact Hl]. intros x Hx. apply H. right. exact Hx.
Qed.

Lemma record_chain_in c b l r : chain c b l -> r ∈ l -> is_Some (c r).
Proof.
  revert b. induction l as [|x l IH]; intros b Hc Hr; [inversion Hr|]. destruct Hc as [-> (k & v & n & Hx & Hc)]. apply elem_of_cons in Hr as [->|Hr]; [eauto|eapply IH; eassumption].
Qed.

Lemma record_chain_length h b l : chain (core h) b l -> NoDup l -> (length l <= size h)%nat.
Proof.
  intros Hc Hn. rewrite <- (size_list_to_set (C := gset rid) l Hn), <- size_dom. apply subseteq_size. intros r Hr. apply elem_of_list_to_set in Hr. destruct (record_chain_in _ _ _ _ Hc Hr) as [[[k v] n] H].
  apply core_some in H as (mr & H & _). apply elem_of_dom. eauto.
Qed.

Definition map_bucket (c : cores) (bits : Z) (t : list (option rid)) (L : rid -> Prop) (h : Z) : Prop :=
  exists b ch, t !! Z.to_nat h = Some b /\ chain c b ch /\ NoDup ch /\ forall r, r ∈ ch <-> L r /\ exists k v n, c r = Some (k, v, n) /\ map_hash_key k bits = h.

(** The chains of the table [t] hold the records of [L] that are not empty. *)
Record chains_ok (c : cores) (bits : Z) (t : list (option rid)) (L : rid -> Prop) : Prop := {
  co_bits : 1 <= bits <= 31;
  co_length : length t = Z.to_nat (2 ^ bits);
  co_bucket : forall h, 0 <= h < 2 ^ bits -> map_bucket c bits t L h
}.

Lemma bucket_frame c c' bits t L h : (forall x, L x -> linkage <$> c' x = linkage <$> c x) -> map_bucket c bits t L h -> map_bucket c' bits t L h.
Proof.
  intros H (b & ch & Ht & Hc & Hn & Hch). exists b, ch. split; [exact Ht|]. split; [apply (record_chain_frame c); [|exact Hc]; intros r Hr; apply Hch in Hr; apply H, Hr|]. split; [exact Hn|].
  intros r. rewrite Hch. split; intros [HL (k & v & n & E & Hh)]; (split; [exact HL|]); specialize (H r HL); rewrite E in H.
  - destruct (c' r) as [[[k' v'] n']|]; [|discriminate]. cbn in H. injection H as -> ->. eauto.
  - destruct (c r) as [[[k' v'] n']|]; [|discriminate]. cbn in H. injection H as -> ->. eauto.
Qed.

Lemma chains_frame c c' bits t L : (forall x, L x -> linkage <$> c' x = linkage <$> c x) -> chains_ok c bits t L -> chains_ok c' bits t L.
Proof. intros H []. split; [assumption|assumption|]. intros h Hh. eapply bucket_frame; eauto. Qed.

Lemma chains_ok_L c bits t L L' : (forall x, is_Some (c x) -> L x <-> L' x) -> chains_ok c bits t L -> chains_ok c bits t L'.
Proof.
  intros H []. split; [assumption|assumption|]. intros h Hh. destruct (co_bucket0 h Hh) as (b & ch & Ht & Hc & Hn & Hch). exists b, ch. split; [exact Ht|]. split; [exact Hc|]. split; [exact Hn|].
  intros r. rewrite Hch. split; intros [HL (k & v & n & E & Hx)]; (split; [apply (H r); eauto|eauto 6]).
Qed.

Lemma chains_empty c bits L : 1 <= bits <= 31 -> (forall x, is_Some (c x) -> ~ L x) -> chains_ok c bits (replicate (Z.to_nat (2 ^ bits)) None) L.
Proof.
  intros Hb HL. split; [exact Hb|apply length_replicate|]. intros h Hh. exists None, []. split; [apply lookup_replicate_2; lia|]. split; [reflexivity|]. split; [constructor|].
  intros r. split; [intros Hr; inversion Hr|]. intros [Hr (k & v & n & E & _)]. exfalso. apply (HL r); eauto.
Qed.

Lemma hash_index k bits : canonical k -> 1 <= bits <= 31 -> 0 <= map_hash_key k bits < 2 ^ bits.
Proof. apply hash_range. Qed.

(** Linking a record in front of its chain. *)
Lemma chains_link c c' bits t L r k v b :
  chains_ok c bits t L -> ~ L r -> canonical k -> t !! Z.to_nat (map_hash_key k bits) = Some b -> c' r = Some (k, v, b) -> (forall x, x <> r -> c' x = c x) ->
  chains_ok c' bits (<[Z.to_nat (map_hash_key k bits) := Some r]> t) (fun x => L x \/ x = r).
Proof.
  intros [Hb Hl Hbk] Hr Hk Ht Hc Hx. pose proof (hash_index k bits Hk Hb) as Hi. set (i := map_hash_key k bits) in *. split; [exact Hb|rewrite length_insert; exact Hl|]. intros h Hh.
  assert (forall x, L x -> linkage <$> c' x = linkage <$> c x) as Hf by (intros x HL; rewrite Hx by (intros ->; contradiction); reflexivity).
  destruct (bucket_frame _ _ _ _ _ _ Hf (Hbk h Hh)) as (b' & ch & Ht' & Hch & Hn & Hin). destruct (decide (h = i)) as [->|Hne].
  - rewrite Ht in Ht'. injection Ht' as <-. exists (Some r), (r :: ch). split; [apply list_lookup_insert_eq; lia|]. split; [split; [reflexivity|]; eauto|].
    split; [constructor; [rewrite Hin; tauto|exact Hn]|]. intros x. rewrite elem_of_cons, Hin. split.
    + intros [->|[HL He]]; [split; [auto|eauto 6]|auto].
    + intros [[HL| ->] He]; auto.
  - exists b', ch. split; [rewrite list_lookup_insert_ne by lia; exact Ht'|]. split; [exact Hch|]. split; [exact Hn|]. intros x. rewrite Hin. split; [tauto|].
    intros [[HL| ->] (k' & v' & n' & E & Hh')]; [eauto 8|]. rewrite Hc in E. injection E as <- <- <-. contradiction Hne. auto.
Qed.

(** ** Searching *)

Definition link_after (p : link) (pre : list rid) : link := match last pre with Some x => LRec x | None => p end.

Lemma link_after_cons p x pre : link_after p (x :: pre) = link_after (LRec x) pre.
Proof. unfold link_after. destruct pre as [|y pre]; [reflexivity|]. cbn [last]. destruct (last (y :: pre)) eqn:E; [reflexivity|]. apply last_None in E. discriminate. Qed.

Lemma delete_loop_spec fuel h k p b ch :
  chain (core h) b ch -> (length ch < fuel)%nat ->
  (exists pre r post k' v n, ch = pre ++ r :: post /\ core h r = Some (k', v, n) /\ js_same_value_zero k' k = true /\ delete_loop fuel h k p b = Some (Some (link_after p pre, r))) \/
  (delete_loop fuel h k p b = Some None /\ forall r k' v n, r ∈ ch -> core h r = Some (k', v, n) -> js_same_value_zero k' k = false).
Proof.
  revert fuel p b. induction ch as [|r ch IH]; intros fuel p b Hc Hf; (destruct fuel as [|fuel]; [cbn in Hf; lia|]); cbn [delete_loop].
  - cbn in Hc. subst b. right. split; [reflexivity|]. intros r k' v n Hr. inversion Hr.
  - destruct Hc as [-> (k' & v & n & Hr & Hc)]. apply core_some in Hr as Hr'. destruct Hr' as (mr & Hm & He & Ek & _ & En). rewrite Hm. cbn [mbind option_bind]. rewrite He, Ek, En.
    destruct (js_same_value_zero k' k) eqn:Hs; [left; exists [], r, ch, k', v, n; auto|].
    destruct (IH fuel (LRec r) n Hc ltac:(cbn in Hf; lia)) as [(pre & x & post & k1 & v1 & n1 & -> & Hx & Hs1 & Hd)|[Hd Hn]].
    + left. exists (r :: pre), x, post, k1, v1, n1. rewrite link_after_cons. auto.
    + right. split; [exact Hd|]. intros x k1 v1 n1 Hx Hx'. apply elem_of_cons in Hx as [->|Hx]; [rewrite Hr in Hx'; injection Hx' as <- <- <-; exact Hs|eapply Hn; eassumption].
Qed.

Lemma find_loop_delete fuel h k p b : find_record_loop fuel h k b = option_map (option_map snd) (delete_loop fuel h k p b).
Proof.
  revert p b. induction fuel as [|fuel IH]; intros p b; [reflexivity|]. cbn. destruct b as [r|]; [|reflexivity]. destruct (h !! r) as [mr|]; [|reflexivity]. cbn [mbind option_bind].
  destruct (mr_empty mr); [apply IH|]. destruct (js_same_value_zero (key mr) k); [reflexivity|apply IH].
Qed.

(** ** Entries *)

Record data_ok (s : JSMapState) : Prop := {
  da_canonical : forall r k v n, core (heap s) r = Some (k, v, n) -> canonical k;
  da_unique : forall r1 r2 k1 v1 n1 k2 v2 n2, core (heap s) r1 = Some (k1, v1, n1) -> core (heap s) r2 = Some (k2, v2, n2) -> js_same_value_zero k1 k2 = true -> r1 = r2;
  da_count : record_count s = wrap 32 (Z.of_nat (live_count (entries_of s)));
  da_range : forall r, is_Some (core (heap s) r) -> (r < next_rid s)%nat
}.

Definition all_ok (s : JSMapState) : Prop := chains_ok (core (heap s)) (hash_bits s) (hash_table s) (fun _ => True) /\ hash_size s = 2 ^ hash_bits s /\ data_ok s.

(** What the search along the chain of a key finds: the record of the key, which is
    the entry the abstract map finds. *)
Lemma search_spec s k i b :
  all_ok s -> canonical k -> i = map_hash_key k (hash_bits s) -> hash_table s !! Z.to_nat i = Some b ->
  (exists pre r post k' v n, chain (core (heap s)) b (pre ++ r :: post) /\ NoDup (pre ++ r :: post) /\
     (forall x, x ∈ pre ++ r :: post <-> exists kx vx nx, core (heap s) x = Some (kx, vx, nx) /\ map_hash_key kx (hash_bits s) = i) /\
     core (heap s) r = Some (k', v, n) /\ js_same_value_zero k' k = true /\
     delete_loop (S (size (heap s))) (heap s) k (LSlot (Z.to_nat i)) b = Some (Some (link_after (LSlot (Z.to_nat i)) pre, r)) /\ find_key k (entries_of s) = Some r) \/
  (delete_loop (S (size (heap s))) (heap s) k (LSlot (Z.to_nat i)) b = Some None /\ find_key k (entries_of s) = None).
Proof.
  intros (Hch & _ & Hd) Hk -> Hb. pose proof (co_bits _ _ _ _ Hch) as Hbits. destruct (co_bucket _ _ _ _ Hch _ (hash_index k _ Hk Hbits)) as (b' & ch & Ht & Hc & Hn & Hin). rewrite Hb in Ht. injection Ht as <-.
  pose proof (record_chain_length _ _ _ Hc Hn) as Hlen. destruct (delete_loop_spec (S (size (heap s))) (heap s) k (LSlot (Z.to_nat (map_hash_key k (hash_bits s)))) b ch Hc ltac:(lia)) as [(pre & r & post & k' & v & n & -> & Hr & Hs & Hdl)|[Hdl Hno]].
  - left. exists pre, r, post, k', v, n. split; [exact Hc|]. split; [exact Hn|]. split; [intros x; rewrite Hin; tauto|]. split; [exact Hr|]. split; [exact Hs|]. split; [exact Hdl|].
    destruct (find_key k (entries_of s)) as [j|] eqn:Hf.
    + apply find_entry_some in Hf as (k1 & v1 & Hj & Hs1). rewrite entries_lookup in Hj. destruct (decide _); [|discriminate]. destruct (core (heap s) j) as [[[k2 v2] n2]|] eqn:Hcj; [|discriminate]. cbn in Hj. injection Hj as -> ->.
      f_equal. pose proof (da_canonical _ Hd _ _ _ _ Hcj). pose proof (da_canonical _ Hd _ _ _ _ Hr). eapply (da_unique _ Hd); [exact Hcj|exact Hr|]. eapply same_trans; [| | |exact Hs1|]; auto. apply same_sym; auto.
    + pose proof (da_range _ Hd r ltac:(eauto)) as Hlt. pose proof (find_entry_none _ _ r k' v Hf) as Hfn. rewrite entries_lookup, decide_True, Hr in Hfn by exact Hlt. rewrite Hfn in Hs by reflexivity. discriminate.
  - right. split; [exact Hdl|]. destruct (find_key k (entries_of s)) as [j|] eqn:Hf; [|reflexivity]. exfalso. apply find_entry_some in Hf as (k1 & v1 & Hj & Hs1). rewrite entries_lookup in Hj. destruct (decide _); [|discriminate].
    destruct (core (heap s) j) as [[[k2 v2] n2]|] eqn:Hcj; [|discriminate]. cbn in Hj. injection Hj as -> ->. pose proof (da_canonical _ Hd _ _ _ _ Hcj). rewrite (Hno j k1 v1 n2) in Hs1; [discriminate| |exact Hcj].
    apply Hin. split; [exact I|]. exists k1, v1, n2. split; [exact Hcj|]. apply same_hash; auto.
Qed.

Lemma slot_some s k : all_ok s -> canonical k -> exists b, hash_table s !! Z.to_nat (map_hash_key k (hash_bits s)) = Some b.
Proof. intros (Hch & _) Hk. destruct (co_bucket _ _ _ _ Hch _ (hash_index k _ Hk (co_bits _ _ _ _ Hch))) as (b & ch & Ht & _). eauto. Qed.

Lemma find_record_spec s k : all_ok s -> canonical k ->
  (exists r k' v n, map_find_record s k = Some (Some r) /\ find_key k (entries_of s) = Some r /\ core (heap s) r = Some (k', v, n)) \/
  (map_find_record s k = Some None /\ find_key k (entries_of s) = None).
Proof.
  intros Hs Hk. destruct (slot_some s k Hs Hk) as [b Hb]. unfold map_find_record. rewrite Hb. cbn [mbind option_bind]. rewrite (find_loop_delete _ _ _ (LSlot (Z.to_nat (map_hash_key k (hash_bits s))))).
  destruct (search_spec s k _ b Hs Hk eq_refl Hb) as [(pre & r & post & k' & v & n & _ & _ & _ & Hr & _ & -> & Hf)|[-> Hf]]; [left|right]; [exists r, k', v, n|]; auto.
Qed.

(** ** Relinking *)

Definition refs_view (mr : JSMapRecord) : Z * bool * value * value := (mr_ref_count mr, mr_empty mr, key mr, mr_value mr).

(** Only links and the table have changed. *)
Record relinked (s s' : JSMapState) : Prop := {
  re_set : is_set s' = is_set s;
  re_records : records s' = records s;
  re_count : record_count s' = record_count s;
  re_next : next_rid s' = next_rid s;
  re_heap : forall x, refs_view <$> heap s' !! x = refs_view <$> heap s !! x
}.

Lemma view_none (h h' : gmap rid JSMapRecord) x : refs_view <$> h' !! x = refs_view <$> h !! x -> (is_Some (h' !! x) <-> is_Some (h !! x)).
Proof. intros E. rewrite <- !(fmap_is_Some refs_view), E. reflexivity. Qed.

Lemma view_core (h h' : gmap rid JSMapRecord) x : refs_view <$> h' !! x = refs_view <$> h !! x -> fst <$> core h' x = fst <$> core h x.
Proof. unfold core. destruct (h' !! x) as [m'|], (h !! x) as [m|]; cbn; intros E; try discriminate; [|reflexivity]. unfold refs_view in E. injection E as _ -> -> ->. destruct (mr_empty m); reflexivity. Qed.

Lemma relinked_refs H s s' : relinked s s' -> refs_ok H s -> refs_ok H s'.
Proof.
  intros [] []. split; rewrite ?re_records0, ?re_next0; auto.
  - intros r. rewrite ro_dom0. symmetry. apply view_none, re_heap0.
  - intros r mr Hr. specialize (re_heap0 r). rewrite Hr in re_heap0. destruct (heap s !! r) as [m|] eqn:Hm; [|discriminate]. cbn in re_heap0. unfold refs_view in re_heap0. injection re_heap0 as -> He _ _. unfold alive. rewrite He. apply (ro_count0 r m Hm).
  - intros r Hr. apply (view_none _ _ _ (re_heap0 r)). auto.
Qed.

Lemma relinked_entries s s' : relinked s s' -> entries_of s' = entries_of s.
Proof. intros []. apply entries_ext; [assumption|]. intros x. apply view_core. auto. Qed.

Lemma core_fst (h h' : gmap rid JSMapRecord) r k v n : (fst <$> core h' r = fst <$> core h r) -> core h' r = Some (k, v, n) -> exists n', core h r = Some (k, v, n').
Proof. intros E H. rewrite H in E. destruct (core h r) as [[[k' v'] n']|]; [|discriminate]. cbn in E. injection E as <- <-. eauto. Qed.

Lemma relinked_data s s' : relinked s s' -> data_ok s -> data_ok s'.
Proof.
  intros Hr Hd. pose proof (relinked_entries _ _ Hr) as He. destruct Hr, Hd. split.
  - intros r k v n Hc. destruct (core_fst _ _ _ _ _ _ (view_core _ _ _ (re_heap0 r)) Hc) as [n' Hc']. eauto.
  - intros r1 r2 k1 v1 n1 k2 v2 n2 H1 H2. destruct (core_fst _ _ _ _ _ _ (view_core _ _ _ (re_heap0 r1)) H1) as [n1' H1']. destruct (core_fst _ _ _ _ _ _ (view_core _ _ _ (re_heap0 r2)) H2) as [n2' H2']. eauto.
  - rewrite He, re_count0. exact da_count0.
  - intros r [[[k v] n] Hc]. destruct (core_fst _ _ _ _ _ _ (view_core _ _ _ (re_heap0 r)) Hc) as [n' Hc']. rewrite re_next0. eauto.
Qed.

Lemma relinked_put s r mr n : heap s !! r = Some mr -> relinked s (put_rec s r (set_next mr n)).
Proof.
  intros Hm. split; try reflexivity. intros x. cbn. destruct (decide (x = r)) as [->|Hx]; [rewrite lookup_insert_eq, Hm; reflexivity|rewrite lookup_insert_ne by congruence; reflexivity].
Qed.

Lemma record_chain_unlink c c' b pre x r post kx vx kr vr n0 n :
  chain c b (pre ++ x :: r :: post) -> NoDup (pre ++ x :: r :: post) -> c x = Some (kx, vx, n0) -> c r = Some (kr, vr, n) -> c' x = Some (kx, vx, n) -> (forall y, y <> x -> c' y = c y) ->
  chain c' b (pre ++ x :: post).
Proof.
  intros Hc Hn Hx Hr Hx' Hy. revert b Hc Hn. induction pre as [|y pre IH]; intros b Hc Hn; cbn in *.
  - destruct Hc as [-> (k1 & v1 & n1 & Hx1 & Hc)]. destruct Hc as [_ (k2 & v2 & n2 & Hr2 & Hc)]. split; [reflexivity|]. exists kx, vx, n. split; [exact Hx'|]. rewrite Hr in Hr2. injection Hr2 as <- <- <-.
    apply (record_chain_frame c); [|exact Hc]. intros z Hz. rewrite Hy; [reflexivity|]. intros ->. apply NoDup_cons in Hn as [Hn _]. apply Hn. right. exact Hz.
  - destruct Hc as [-> (k1 & v1 & n1 & Hy1 & Hc)]. apply NoDup_cons in Hn as [Hn1 Hn]. split; [reflexivity|]. exists k1, v1, n1. split; [|auto]. rewrite Hy; [exact Hy1|]. intros ->. apply Hn1, elem_of_app. right. left.
Qed.

(** Taking a record out of its chain. *)
Lemma record_unlink_spec s k i b pre r post kr vr n :
  all_ok s -> canonical k -> i = map_hash_key k (hash_bits s) -> hash_table s !! Z.to_nat i = Some b ->
  chain (core (heap s)) b (pre ++ r :: post) -> NoDup (pre ++ r :: post) ->
  (forall x, x ∈ pre ++ r :: post <-> exists kx vx nx, core (heap s) x = Some (kx, vx, nx) /\ map_hash_key kx (hash_bits s) = i) ->
  core (heap s) r = Some (kr, vr, n) ->
  exists s1, set_link s (link_after (LSlot (Z.to_nat i)) pre) n = Some s1 /\ relinked s s1 /\ hash_bits s1 = hash_bits s /\ hash_size s1 = hash_size s /\
    chains_ok (core (heap s1)) (hash_bits s1) (hash_table s1) (fun x => x <> r) /\ exists n', core (heap s1) r = Some (kr, vr, n').
Proof.
  intros (Hch & Hsz & Hd) Hk -> Hb Hc Hn Hin Hr. set (i := map_hash_key k (hash_bits s)) in *. pose proof (hash_index k _ Hk (co_bits _ _ _ _ Hch)) as Hi. fold i in Hi. destruct Hch as [Hbits Hlen Hbk].
  assert (Hmem : forall y, y ∈ pre ++ post <-> y <> r /\ exists kx vx nx, core (heap s) y = Some (kx, vx, nx) /\ map_hash_key kx (hash_bits s) = i).
  { intros y. rewrite <- Hin. apply NoDup_app in Hn as (_ & Hn1 & Hn2). apply NoDup_cons in Hn2 as [Hn2 _]. rewrite !elem_of_app, elem_of_cons. split; [|tauto].
    intros [H|H]; (split; [intros ->|auto]); [apply (Hn1 r H); left|contradiction]. }
  assert (Hn' : NoDup (pre ++ post)) by (apply NoDup_app in Hn as (H1 & H2 & H3); apply NoDup_cons in H3 as [_ H3]; apply NoDup_app; split; [exact H1|split; [intros y Hy Hy'; apply (H2 y Hy); right; exact Hy'|exact H3]]).
  destruct (last pre) as [x|] eqn:Hlast; unfold link_after; rewrite Hlast; cbn [set_link].
  - apply last_Some in Hlast as [pre' ->]. rewrite <- app_assoc in *. cbn [app] in *. assert (exists kx vx nx, core (heap s) x = Some (kx, vx, nx) /\ map_hash_key kx (hash_bits s) = i) as (kx & vx & nx & Hx & Hhx).
    { apply Hin, elem_of_app. right. left. }
    apply core_some in Hx as Hx'. destruct Hx' as (mx & Hmx & Hex & Ekx & Evx & Enx). rewrite Hmx. cbn [mbind option_bind]. eexists. split; [reflexivity|]. split; [apply relinked_put, Hmx|]. cbn. split; [reflexivity|]. split; [reflexivity|].
    assert (Hne : r <> x) by (intros ->; apply NoDup_app in Hn as (_ & _ & Hn2); apply NoDup_cons in Hn2 as [Hn2 _]; apply Hn2; left).
    assert (Hcx : core (<[x := set_next mx n]> (heap s)) x = Some (kx, vx, n)) by (rewrite core_insert_eq; cbn; rewrite Hex, Ekx, Evx; reflexivity).
    split; [|exists n; rewrite core_insert_ne by exact Hne; exact Hr]. split; [exact Hbits|exact Hlen|]. intros h Hh. destruct (decide (h = i)) as [->|Hnh].
    + exists b, (pre' ++ x :: post). split; [exact Hb|]. split; [eapply record_chain_unlink; [exact Hc|exact Hn|exact Hx|exact Hr|exact Hcx|]; intros y Hy; apply core_insert_ne, Hy|]. split; [exact Hn'|].
      intros y. rewrite Hmem. destruct (decide (y = x)) as [->|Hy]; [|rewrite core_insert_ne by exact Hy; reflexivity]. rewrite Hcx, Hx. split; intros [H (k1 & v1 & n1 & E & Hh1)]; injection E as <- <- <-; eauto 8.
    + destruct (Hbk h Hh) as (b1 & ch1 & Ht1 & Hc1 & Hn1 & Hin1). exists b1, ch1. split; [exact Ht1|].
      assert (Hxin : forall y, y ∈ ch1 -> y <> x) by (intros y Hy ->; apply Hin1 in Hy as [_ (k1 & v1 & n1 & E & Hh1)]; rewrite Hx in E; injection E as <- <- <-; congruence).
      split; [apply (record_chain_frame (core (heap s))); [|exact Hc1]; intros y Hy; rewrite core_insert_ne by (apply Hxin, Hy); reflexivity|]. split; [exact Hn1|].
      intros y. rewrite Hin1. destruct (decide (y = x)) as [->|Hy].
      * rewrite Hcx, Hx. split; intros [_ (k1 & v1 & n1 & E & Hh1)]; injection E as <- <- <-; congruence.
      * rewrite core_insert_ne by exact Hy. split; intros [_ (k1 & v1 & n1 & E & Hh1)]; (split; [|eauto 6]); [|exact I]. intros ->. rewrite Hr in E. injection E as <- <- <-.
        assert (r ∈ pre' ++ x :: r :: post) as Hrin by (rewrite elem_of_app, !elem_of_cons; auto). apply Hin in Hrin as (k2 & v2 & n2 & E2 & Hh2). rewrite Hr in E2. injection E2 as <- <- <-. congruence.
  - apply last_None in Hlast as ->. cbn [app] in *. destruct Hc as [-> (k1 & v1 & n1 & Hr1 & Hc)]. rewrite Hr in Hr1. injection Hr1 as <- <- <-. eexists. split; [reflexivity|].
    split; [split; reflexivity|]. cbn. split; [reflexivity|]. split; [reflexivity|]. split; [|exists n; exact Hr]. split; [exact Hbits|rewrite length_insert; exact Hlen|]. intros h Hh. destruct (decide (h = i)) as [->|Hnh].
    + exists n, post. split; [apply list_lookup_insert_eq; lia|]. split; [exact Hc|]. split; [exact Hn'|]. intros y. apply Hmem.
    + destruct (Hbk h Hh) as (b1 & ch1 & Ht1 & Hc1 & Hn1 & Hin1). exists b1, ch1. split; [rewrite list_lookup_insert_ne by lia; exact Ht1|]. split; [exact Hc1|]. split; [exact Hn1|].
      intros y. rewrite Hin1. split; intros [_ (k1 & v1 & n1 & E & Hh1)]; (split; [|eauto 6]); [|exact I]. intros ->. rewrite Hr in E. injection E as <- <- <-.
      assert (r ∈ r :: post) as Hrin by left. apply Hin in Hrin as (k2 & v2 & n2 & E2 & Hh2). rewrite Hr in E2. injection E2 as <- <- <-. congruence.
Qed.

(** ** Resizing and adding *)

Lemma resize_loop_spec bits l : forall dn h t,
  NoDup (dn ++ l) -> (forall r, r ∈ l -> exists mr, h !! r = Some mr /\ (mr_empty mr = false -> canonical (key mr))) -> chains_ok (core h) bits t (fun r => r ∈ dn) ->
  exists h' t', resize_loop bits l h t = Some (h', t') /\ chains_ok (core h') bits t' (fun r => r ∈ dn ++ l) /\ forall x, refs_view <$> h' !! x = refs_view <$> h !! x.
Proof.
  induction l as [|r l IH]; intros dn h t Hn Hl Hc; cbn [resize_loop].
  - exists h, t. rewrite app_nil_r. auto.
  - destruct (Hl r ltac:(left)) as (mr & Hm & Hk). rewrite Hm. cbn [mbind option_bind]. change (r :: l) with ([r] ++ l) in Hn. rewrite app_assoc in Hn. change (r :: l) with ([r] ++ l). rewrite app_assoc.
    assert (r ∉ dn) as Hrd by (apply NoDup_app in Hn as (Hn & _ & _); apply NoDup_app in Hn as (_ & Hn & _); intros Hr; apply (Hn r Hr); left). destruct (mr_empty mr) eqn:He.
    + apply IH; [exact Hn|intros x Hx; apply Hl; right; exact Hx|]. revert Hc. apply chains_ok_L. intros x [e Hx]. rewrite elem_of_app, list_elem_of_singleton. split; [auto|]. intros [| ->]; [assumption|]. unfold core in Hx. rewrite Hm, He in Hx. discriminate.
    + destruct (co_bucket _ _ _ _ Hc _ (hash_index (key mr) bits (Hk eq_refl) (co_bits _ _ _ _ Hc))) as (b & _ & Hb & _). rewrite Hb. cbn [mbind option_bind].
      destruct (IH (dn ++ [r]) (<[r := set_next mr b]> h) (<[Z.to_nat (map_hash_key (key mr) bits) := Some r]> t)) as (h' & t' & E & Hc' & Hv); [exact Hn| | |].
      * intros x Hx. destruct (Hl x ltac:(right; exact Hx)) as (mx & Hmx & Hkx). exists mx. rewrite lookup_insert_ne; [auto|]. intros <-. apply NoDup_app in Hn as (_ & Hn & _). apply (Hn r); [apply elem_of_app; right; left|exact Hx].
      * eapply chains_ok_L; [|eapply (chains_link _ _ bits t _ r (key mr) (mr_value mr) b Hc Hrd (Hk eq_refl) Hb)].
        -- intros x _. rewrite elem_of_app, list_elem_of_singleton. reflexivity.
        -- rewrite core_insert_eq. cbn. rewrite He. reflexivity.
        -- intros x Hx. apply core_insert_ne, Hx.
      * exists h', t'. split; [exact E|]. split; [exact Hc'|]. intros x. rewrite Hv. destruct (decide (x = r)) as [->|Hx]; [rewrite lookup_insert_eq, Hm; reflexivity|rewrite lookup_insert_ne by congruence; reflexivity].
Qed.

Lemma resize_spec H ok s : refs_ok H s -> all_ok s -> exists s', map_hash_resize ok s = Some s' /\ relinked s s' /\ all_ok s'.
Proof.
  intros Hs (Hch & Hsz & Hd). unfold map_hash_resize. destruct ok; cbn [negb]; [|exists s; split; [reflexivity|]; split; [split; reflexivity|split; auto]].
  set (nb := Z.min (hash_bits s + 1) 31). pose proof (co_bits _ _ _ _ Hch) as Hb. assert (1 <= nb <= 31) as Hnb by (unfold nb; lia).
  assert (wrap 32 (Z.shiftl 1 nb) = 2 ^ nb) as ->. { rewrite Z.shiftl_1_l. apply wrap_small. split; [lia|]. apply Z.pow_lt_mono_r; lia. }
  destruct (resize_loop_spec nb (records s) [] (heap s) (replicate (Z.to_nat (2 ^ nb)) None)) as (h' & t' & E & Hc & Hv).
  - apply increasing_NoDup, (ro_sorted _ _ Hs).
  - intros r Hr. apply (ro_dom _ _ Hs) in Hr as [mr Hm]. exists mr. split; [exact Hm|]. intros He. apply (da_canonical _ Hd r (key mr) (mr_value mr) (hash_next mr)). unfold core. rewrite Hm, He. reflexivity.
  - apply chains_empty; [exact Hnb|]. intros x _ Hx. inversion Hx.
  - rewrite E. cbn [mbind option_bind]. eexists. split; [reflexivity|]. cbn [fst snd].
    match goal with |- relinked _ ?x /\ _ => assert (relinked s x) as Hre by (split; auto) end. split; [exact Hre|]. split; [|split; [reflexivity|apply (relinked_data s); assumption]].
    cbn. revert Hc. apply chains_ok_L. intros x [[[k v] n] Hx]. cbn. split; [auto|]. intros _. apply core_some in Hx as (mr & Hm & _). apply (ro_dom _ _ Hs), (view_none _ _ _ (Hv x)). eauto.
Qed.

Lemma add_record_spec H rok s k :
  refs_ok H s -> all_ok s -> canonical k -> find_key k (entries_of s) = None ->
  exists s' n, map_add_record true rok s k = Some (Some (next_rid s), s') /\ is_set s' = is_set s /\ refs_ok H s' /\ all_ok s' /\
    entries_of s' = entries_of s ++ [Some (k, v_undefined)] /\ core (heap s') (next_rid s) = Some (k, v_undefined, n).
Proof.
  intros Hs Ha Hk Hf. destruct (slot_some s k Ha Hk) as [b Hb]. destruct Ha as (Hch & Hsz & Hd). unfold map_add_record. cbn [negb]. rewrite Hb. cbn [mbind option_bind]. set (r := next_rid s). set (h := <[r := MkRec 1 false b k v_undefined]> (heap s)).
  assert (Hnr : heap s !! r = None). { destruct (heap s !! r) as [mr|] eqn:Hm; [|reflexivity]. assert (r ∈ records s) as Hr by (apply (ro_dom _ _ Hs); eauto). apply (ro_range _ _ Hs) in Hr. unfold r in Hr. lia. }
  assert (HHr : H r = 0%nat). { destruct (H r) eqn:E; [reflexivity|]. destruct (ro_held _ _ Hs r ltac:(lia)) as [mr Hm]. congruence. }
  assert (Hcr : core h r = Some (k, v_undefined, b)) by (unfold h; rewrite core_insert_eq; reflexivity).
  assert (Hcx : forall x, x <> r -> core h x = core (heap s) x) by (intros x Hx; apply core_insert_ne, Hx).
  assert (Hcn : core (heap s) r = None) by (unfold core; rewrite Hnr; reflexivity).
  match goal with |- context [record_count_threshold ?x <=? _] => set (s' := x) end.
  assert (He : entries_of s' = entries_of s ++ [Some (k, v_undefined)]).
  { apply (entries_snoc s s' (Some (k, v_undefined, b))); [reflexivity|exact Hcr|]. intros x Hx. cbn. fold h. rewrite Hcx by (unfold r; lia). reflexivity. }
  assert (Hr' : refs_ok H s').
  { destruct Hs. split; cbn; fold h r.
    - apply increasing_snoc; [assumption|]. intros y Hy. apply ro_range0, Hy.
    - intros x Hx. apply elem_of_app in Hx as [Hx|Hx]; [specialize (ro_range0 x Hx)|apply list_elem_of_singleton in Hx as ->]; unfold r in *; lia.
    - intros x. rewrite elem_of_app, ro_dom0, list_elem_of_singleton. unfold h. destruct (decide (x = r)) as [->|Hx]; [rewrite lookup_insert_eq; split; eauto|rewrite lookup_insert_ne by congruence; tauto].
    - intros x mr Hx. unfold h in Hx. destruct (decide (x = r)) as [->|Hne]; [rewrite lookup_insert_eq in Hx; injection Hx as <-; rewrite HHr; cbn; lia|rewrite lookup_insert_ne in Hx by congruence; auto].
    - intros x Hx. unfold h. destruct (decide (x = r)) as [->|Hne]; [lia|rewrite lookup_insert_ne by congruence; auto]. }
  assert (Hfresh : forall x kx vx nx, x <> r -> core h x = Some (kx, vx, nx) -> js_same_value_zero kx k = false).
  { intros x kx vx nx Hx Hc. rewrite Hcx in Hc by exact Hx. apply (find_entry_none k (entries_of s) x kx vx Hf). rewrite entries_lookup, decide_True, Hc by (apply (da_range _ Hd); eauto). reflexivity. }
  assert (Ha' : all_ok s').
  { split; [|split; [exact Hsz|split]]; [cbn; fold h|cbn; fold h|cbn; fold h| |cbn; fold h].
    - eapply chains_ok_L; [|eapply (chains_link _ _ _ _ (fun x => x <> r) r k v_undefined b)]; [| |tauto|exact Hk|exact Hb|exact Hcr|exact Hcx].
      + intros x _. cbn. destruct (decide (x = r)); tauto.
      + revert Hch. apply chains_ok_L. intros x [e Hx]. split; [|auto]. intros _ ->. congruence.
    - intros x kx vx nx Hx. destruct (decide (x = r)) as [->|Hne]; [rewrite Hcr in Hx; injection Hx as <- <- <-; exact Hk|]. rewrite Hcx in Hx by exact Hne. eapply (da_canonical _ Hd). exact Hx.
    - intros x y k1 v1 n1 k2 v2 n2 Hx Hy Hsame. destruct (decide (x = r)) as [->|Hxr], (decide (y = r)) as [->|Hyr]; [reflexivity| | |].
      + exfalso. pose proof (Hfresh _ _ _ _ Hyr Hy) as Hno. rewrite Hcr in Hx. injection Hx as <- <- <-. rewrite Hcx in Hy by exact Hyr. apply same_sym in Hsame; [congruence|exact Hk|]. eapply (da_canonical _ Hd). exact Hy.
      + exfalso. pose proof (Hfresh _ _ _ _ Hxr Hx) as Hno. rewrite Hcr in Hy. injection Hy as <- <- <-. congruence.
      + rewrite Hcx in Hx, Hy by assumption. eapply (da_unique _ Hd); eassumption.
    - change (record_count s') with (wrap 32 (record_count s + 1)). rewrite He. unfold live_count. rewrite sum_app. cbn [sum_list_with]. rewrite (da_count _ Hd). unfold wrap. rewrite Zplus_mod_idemp_l. f_equal. unfold live_count. lia.
    - intros x Hx. destruct (decide (x = r)) as [->|Hne]; [lia|]. rewrite Hcx in Hx by exact Hne. apply (da_range _ Hd) in Hx. fold r in Hx. lia. }
  destruct (record_count_threshold s' <=? record_count s') eqn:Ht.
  - destruct (resize_spec H rok s' Hr' Ha') as (s2 & E & Hre & Ha2). rewrite E. cbn [mbind option_bind]. pose proof (view_core _ _ _ (re_heap _ _ Hre r)) as Hv. cbn in Hv. fold h in Hv. rewrite Hcr in Hv. destruct (core (heap s2) r) as [[[k2 v2] n2]|] eqn:Hc2; [|discriminate]. cbn in Hv. injection Hv as -> ->.
    exists s2, n2. split; [reflexivity|]. split; [apply (re_set _ _ Hre)|]. split; [eapply relinked_refs; eassumption|]. split; [exact Ha2|]. split; [rewrite (relinked_entries _ _ Hre); exact He|exact Hc2].
  - cbn [mbind option_bind]. exists s', b. split; [reflexivity|]. split; [reflexivity|]. auto.
Qed.

(** Storing a value in a record. *)
Lemma value_spec H s r k v0 n v :
  refs_ok H s -> all_ok s -> core (heap s) r = Some (k, v0, n) ->
  exists mr, heap s !! r = Some mr /\ let s' := put_rec s r (set_value mr v) in refs_ok H s' /\ all_ok s' /\ entries_of s' = <[r := Some (k, v)]> (entries_of s).
Proof.
  intros Hs (Hch & Hsz & Hd) Hc. apply core_some in Hc as Hc'. destruct Hc' as (mr & Hm & He & Ek & Ev & En). exists mr. split; [exact Hm|]. intros s'.
  assert (Hcr : core (heap s') r = Some (k, v, n)) by (unfold s'; cbn; rewrite core_insert_eq; cbn; rewrite He, Ek, En; reflexivity).
  assert (Hcx : forall x, x <> r -> core (heap s') x = core (heap s) x) by (intros x Hx; apply core_insert_ne, Hx).
  assert (Hlt : (r < next_rid s)%nat) by (apply (da_range _ Hd); eauto).
  assert (Hent : entries_of s' = <[r := Some (k, v)]> (entries_of s)). { rewrite (entries_update s s' r); [rewrite Hcr; reflexivity|reflexivity|exact Hlt|]. intros x Hx. rewrite Hcx by exact Hx. reflexivity. }
  assert (Hkey : forall x kx vx nx, core (heap s') x = Some (kx, vx, nx) -> exists vy, core (heap s) x = Some (kx, vy, nx)).
  { intros x kx vx nx Hx. destruct (decide (x = r)) as [->|Hne]; [rewrite Hcr in Hx; injection Hx as <- <- <-; eauto|rewrite Hcx in Hx by exact Hne; eauto]. }
  split; [|split; [split; [|split; [exact Hsz|split]]|exact Hent]].
  - destruct (ro_count _ _ Hs r mr Hm). apply (refs_ok_put H _ _ _ mr); auto.
  - apply (chains_frame (core (heap s))); [|exact Hch]. intros x _. destruct (decide (x = r)) as [->|Hne]; [rewrite Hcr, Hc; reflexivity|rewrite Hcx by exact Hne; reflexivity].
  - intros x kx vx nx Hx. destruct (Hkey _ _ _ _ Hx) as [vy Hy]. eapply (da_canonical _ Hd). exact Hy.
  - intros x y k1 v1 n1 k2 v2 n2 Hx Hy. destruct (Hkey _ _ _ _ Hx) as [vx Hx'], (Hkey _ _ _ _ Hy) as [vy Hy']. eapply (da_unique _ Hd); eassumption.
  - rewrite Hent. assert (entries_of s !! r = Some (Some (k, v0))) as Hl by (rewrite entries_lookup, decide_True, Hc by exact Hlt; reflexivity). pose proof (live_count_insert _ _ _ (Some (k, v)) Hl) as Hlc. cbn iota in Hlc. change (record_count s') with (record_count s). rewrite (da_count _ Hd). do 2 f_equal. lia.
  - intros x [[[kx vx] nx] Hx]. destruct (Hkey _ _ _ _ Hx) as [vy Hy]. apply (da_range _ Hd). eauto.
Qed.

End Records.
