(* ===== verification/MapSteps.v ===== *)
(** Map and Set objects: every operation does what the abstract map does.

    [wf w]: the invariant of a map with its iterators and calls.  For each operation a
    lemma says that it has a result (no freed record is used), keeps [wf], and that
    [abs] of the state and the result are those of [spec_step]. *)
From Stdlib Require Import ZArith Lia Sorting.Sorted.
From S2P Require Import Prelude Maps MapSpecs MapOps.
From stdpp Require Import base tactics numbers gmap list.

Open Scope Z_scope.

Section Steps.
Context `{ML : MapKeyLaws}.

Definition nothing (r : rid) : nat := 0%nat.

Definition wf (w : JSMapWorld) : Prop := refs_ok (fun x => (holders w x + nothing x)%nat) (map_state w) /\ all_ok (map_state w).

Lemma kept_entries s s' : kept s s' -> entries_of s' = entries_of s.
Proof. intros [[] _ Hc _]. apply entries_ext; [assumption|]. intros x. rewrite Hc. reflexivity. Qed.

Lemma kept_all s s' : kept s s' -> all_ok s -> all_ok s'.
Proof.
  intros K (Hch & Hsz & Hd). pose proof (kept_entries _ _ K) as He. destruct K as [[] Hn Hc _]. split; [|split; [congruence|split]].
  - rewrite st_bits, st_table. apply (chains_frame (core (heap s))); [|exact Hch]. intros x _. rewrite Hc. reflexivity.
  - intros r k v n. rewrite Hc. apply (da_canonical _ Hd).
  - intros r1 r2 k1 v1 n1 k2 v2 n2. rewrite !Hc. apply (da_unique _ Hd).
  - rewrite Hn, He. apply (da_count _ Hd).
  - intros r. rewrite Hc, st_next. apply (da_range _ Hd).
Qed.

Lemma abs_dropping w w' l : is_set (map_state w') = is_set (map_state w) -> entries_of (map_state w') = entries_of (map_state w) ->
  iterators w' = drop_iters l (iterators w) -> frames w' = frames w -> abs w' = dropping (abs w) l.
Proof. intros E1 E2 E3 E4. unfold abs, dropping. cbn. rewrite E1, E2, E3, E4, drop_iters_fmap. reflexivity. Qed.

Section Release.
Context (released : value -> list nat).

(** [realizes m r]: the computation has the result [r] describes, in a good state. *)
Definition realizes (m : option (map_result * JSMapWorld)) (r : map_result * mapdata) : Prop :=
  exists res w', m = Some (res, w') /\ wf w' /\ r = (res, abs w').

Lemma finalize_step w l :
  wf w -> exists w', finalize w l = Some w' /\ wf w' /\ abs w' = dropping (abs w) l /\ kept (map_state w) (map_state w') /\
    iterators w' = drop_iters l (iterators w) /\ frames w' = frames w /\
    (forall x, is_Some (heap (map_state w) !! x) -> is_Some (heap (map_state w') !! x) \/ (exists i, i ∈ l /\ stands_on w i x /\ core (heap (map_state w)) x = None)).
Proof.
  intros [Hr Ha]. destruct (finalize_spec nothing w l Hr) as (w' & E & Ei & Ef & Hr' & K & D). exists w'. split; [exact E|]. split; [split; [exact Hr'|eapply kept_all; eassumption]|].
  split; [apply abs_dropping; [apply K|apply kept_entries, K|exact Ei|exact Ef]|]. auto.
Qed.

Lemma free_step w v :
  wf w -> exists w', JS_FreeValue released w v = Some w' /\ wf w' /\ abs w' = dropping (abs w) (released v) /\ kept (map_state w) (map_state w') /\
    iterators w' = drop_iters (released v) (iterators w) /\ frames w' = frames w /\
    (forall x, is_Some (heap (map_state w) !! x) -> is_Some (heap (map_state w') !! x) \/ (exists i, i ∈ released v /\ stands_on w i x /\ core (heap (map_state w)) x = None)).
Proof. intros Hw. apply finalize_step, Hw. Qed.

Lemma wf_map w s : refs_ok (fun x => (holders w x + nothing x)%nat) s -> all_ok s -> wf (with_map w s).
Proof. intros Hr Ha. split; [exact Hr|exact Ha]. Qed.

Lemma entry_at w r k v n : wf w -> core (heap (map_state w)) r = Some (k, v, n) -> d_entries (abs w) !! r = Some (Some (k, v)).
Proof. intros [_ (_ & _ & Hd)] Hc. cbn. rewrite entries_lookup, decide_True, Hc by (apply (da_range _ Hd); eauto). reflexivity. Qed.

Lemma core_heap h r k v n : core h r = Some (k, v, n) -> exists mr, h !! r = Some mr /\ mr_value mr = v.
Proof. intros H. apply core_some in H as (mr & Hm & _ & _ & Hv & _). eauto. Qed.

(** ** Reading *)

Lemma value_step w k (miss : option (map_result * JSMapWorld)) missing :
  wf w -> canonical k -> (find_key k (d_entries (abs w)) = None -> realizes miss missing) ->
  realizes (found ← map_find_record (map_state w) k; match found with None => miss | Some r => mr ← heap (map_state w) !! r; Some (RValue (mr_value mr), w) end) (spec_value (abs w) k missing).
Proof.
  intros Hw Hk Hm. unfold spec_value. destruct (find_record_spec _ k (proj2 Hw) Hk) as [(r & k' & v & n & -> & Hf & Hc)|[-> Hf]]; change (entries_of (map_state w)) with (d_entries (abs w)) in Hf; rewrite Hf; cbn [mbind option_bind].
  - destruct (core_heap _ _ _ _ _ Hc) as (mr & -> & Ev). cbn [mbind option_bind]. rewrite (entry_at w r k' v n Hw Hc). exists (RValue v), w. rewrite Ev. auto.
  - auto.
Qed.

Lemma get_step w k : wf w -> valid_key k -> realizes (js_map_get w k) (spec_value (abs w) (map_normalize_key k) (RUndefined, abs w)).
Proof. intros Hw Hk. apply value_step; [exact Hw|apply normalize_canonical, Hk|]. intros _. exists RUndefined, w. auto. Qed.

Lemma has_step w k : wf w -> valid_key k -> realizes (js_map_has w k) (spec_step released (abs w) (EvHas k)).
Proof.
  intros Hw Hk. unfold js_map_has. cbn [spec_step]. destruct (find_record_spec _ _ (proj2 Hw) (normalize_canonical k Hk)) as [(r & k' & v & n & -> & Hf & Hc)|[-> Hf]]; change (entries_of (map_state w)) with (d_entries (abs w)) in Hf; rewrite Hf; cbn [mbind option_bind].
  - exists (RBool true), w. split; [reflexivity|]. split; [exact Hw|]. rewrite bool_decide_true by eauto. reflexivity.
  - exists (RBool false), w. split; [reflexivity|]. split; [exact Hw|]. rewrite bool_decide_false by (intros [? ?]; discriminate). reflexivity.
Qed.

Lemma size_step w : wf w -> realizes (js_map_get_size w) (spec_step released (abs w) EvSize).
Proof. intros Hw. exists (RSize (record_count (map_state w))), w. split; [reflexivity|]. split; [exact Hw|]. destruct Hw as [_ (_ & _ & Hd)]. cbn. rewrite (da_count _ Hd). reflexivity. Qed.

(** ** Writing *)

Lemma insert_step mok rok w k v : wf w -> canonical k -> find_key k (d_entries (abs w)) = None ->
  mok = true -> exists r s mr, map_add_record mok rok (map_state w) k = Some (Some r, s) /\ heap s !! r = Some mr /\
    wf (with_map w (put_rec s r (set_value mr v))) /\ abs (with_map w (put_rec s r (set_value mr v))) = with_entries (abs w) (d_entries (abs w) ++ [Some (k, v)]).
Proof.
  intros [Hr Ha] Hk Hf ->. destruct (add_record_spec _ rok _ k Hr Ha Hk Hf) as (s & n & E & Es & Hr' & Ha' & He & Hc). destruct (value_spec _ s _ k v_undefined n v Hr' Ha' Hc) as (mr & Hm & Hr2 & Ha2 & He2).
  exists (next_rid (map_state w)), s, mr. split; [exact E|]. split; [exact Hm|]. split; [apply wf_map; assumption|]. unfold abs, with_entries. cbn [map_state with_map iterators frames is_set put_rec set_heap d_set d_entries d_cursors d_calls].
  change (entries_of (set_heap s (<[next_rid (map_state w) := set_value mr v]> (heap s)))) with (entries_of (put_rec s (next_rid (map_state w)) (set_value mr v))). rewrite He2, He, Es. f_equal.
  rewrite <- (entries_length (map_state w)) at 1. rewrite <- (Nat.add_0_r (length _)). rewrite insert_app_r. reflexivity.
Qed.

Lemma set_step mok rok w k v : wf w -> valid_key k -> realizes (js_map_set released mok rok w k v) (spec_step released (abs w) (EvSet k v mok rok)).
Proof.
  intros Hw Hk. unfold js_map_set. cbn [spec_step]. unfold spec_set. cbn [abs d_set]. set (v' := if is_set (map_state w) then v_undefined else v). pose proof (normalize_canonical k Hk) as Hk'. set (k' := map_normalize_key k) in *.
  destruct (find_record_spec _ k' (proj2 Hw) Hk') as [(r & k1 & v1 & n & -> & Hf & Hc)|[-> Hf]]; change (entries_of (map_state w)) with (d_entries (abs w)) in Hf; fold (abs w); rewrite Hf; cbn [mbind option_bind].
  - destruct (core_heap _ _ _ _ _ Hc) as (mr & -> & Ev). cbn [mbind option_bind]. rewrite Ev, (entry_at w r _ _ _ Hw Hc). destruct (free_step w v1 Hw) as (w1 & -> & Hw1 & Ea & K & _). cbn [mbind option_bind].
    pose proof Hc as Hc1. rewrite <- (kp_core _ _ K r) in Hc1. destruct (value_spec _ _ r k1 v1 n v' (proj1 Hw1) (proj2 Hw1) Hc1) as (m1 & -> & Hr2 & Ha2 & He2). cbn [mbind option_bind].
    eexists _, _. split; [reflexivity|]. split; [apply wf_map; assumption|]. f_equal. unfold abs, dropping, with_entries in *. cbn [map_state with_map iterators frames d_set d_entries d_cursors d_calls] in *. injection Ea as E1 E2 E3 E4. rewrite He2, E2, E3, E4, <- E1. reflexivity.
  - destruct mok.
    + destruct (insert_step true rok w k' v' Hw Hk' Hf eq_refl) as (r & s & mr & -> & Hm & Hw2 & Ea). cbn [mbind option_bind]. rewrite Hm. cbn [mbind option_bind]. eexists _, _. split; [reflexivity|]. split; [exact Hw2|]. rewrite Ea. reflexivity.
    + cbn. eexists _, _. split; [reflexivity|]. destruct w. split; [exact Hw|reflexivity].
Qed.

Lemma insert_new_step mok rok w k v : wf w -> canonical k -> find_key k (d_entries (abs w)) = None ->
  realizes (map_insert_new released mok rok w k v) (spec_insert released mok (abs w) k v).
Proof.
  intros Hw Hk Hf. unfold map_insert_new, spec_insert. destruct mok.
  - destruct (insert_step true rok w k v Hw Hk Hf eq_refl) as (r & s & mr & -> & Hm & Hw2 & Ea). cbn [mbind option_bind]. rewrite Hm. cbn [mbind option_bind]. eexists _, _. split; [reflexivity|]. split; [exact Hw2|]. rewrite Ea. reflexivity.
  - cbn. replace (with_map w (map_state w)) with w by (destruct w; reflexivity). destruct (free_step w v Hw) as (w1 & -> & Hw1 & Ea & _). cbn [mbind option_bind]. eexists _, _. split; [reflexivity|]. split; [exact Hw1|]. rewrite Ea. reflexivity.
Qed.

(** The table and the entries after a record was deleted. *)
Lemma deleted_data s s' r e :
  data_ok s -> core (heap s) r = Some e -> same_table s s' -> record_count s' = wrap 32 (record_count s - 1) ->
  core (heap s') r = None -> (forall x, x <> r -> core (heap s') x = core (heap s) x) -> data_ok s' /\ entries_of s' = <[r := None]> (entries_of s).
Proof.
  intros Hd Hr [] Hn Hc Hx. pose proof (da_range _ Hd r ltac:(eauto)) as Hlt.
  assert (entries_of s' = <[r := None]> (entries_of s)) as He. { rewrite (entries_update s s' r); [rewrite Hc; reflexivity|assumption|exact Hlt|]. intros x Hne. rewrite Hx by exact Hne. reflexivity. }
  split; [|exact He]. assert (forall x k v n, core (heap s') x = Some (k, v, n) -> core (heap s) x = Some (k, v, n)) as Hs.
  { intros x k v n Hcx. destruct (decide (x = r)) as [->|Hne]; [congruence|]. rewrite <- Hx by exact Hne. exact Hcx. }
  split.
  - intros x k v n Hcx. eapply (da_canonical _ Hd), Hs, Hcx.
  - intros x y k1 v1 n1 k2 v2 n2 H1 H2. eapply (da_unique _ Hd); apply Hs; eassumption.
  - rewrite Hn, He, (da_count _ Hd). destruct e as [[k v] n]. assert (entries_of s !! r = Some (Some (k, v))) as Hl by (rewrite entries_lookup, decide_True, Hr by exact Hlt; reflexivity).
    pose proof (live_count_insert _ _ _ None Hl) as Hlc. cbn iota in Hlc. unfold wrap. rewrite Zminus_mod_idemp_l. f_equal. lia.
  - intros x [[[k v] n] Hcx]. rewrite st_next. apply (da_range _ Hd). eauto.
Qed.

Lemma delete_step w k0 : wf w -> valid_key k0 -> let k := map_normalize_key k0 in
  exists b w', map_delete_record released w k0 = Some (b, w') /\ wf w' /\ spec_delete released (abs w) k = (b, abs w') /\ find_key k (d_entries (abs w')) = None.
Proof.
  intros Hw Hv k. pose proof (normalize_canonical k0 Hv) as Hk. fold k in Hk. unfold map_delete_record. fold k. destruct (slot_some _ k (proj2 Hw) Hk) as [b Hb]. rewrite Hb. cbn [mbind option_bind]. unfold spec_delete. cbn [abs d_entries].
  destruct (search_spec _ k _ b (proj2 Hw) Hk eq_refl Hb) as [(pre & r & post & kr & vr & n & Hch & Hn & Hin & Hr & Hs & -> & Hf)|[-> Hf]]; cbn [mbind option_bind]; rewrite Hf.
  - destruct (record_unlink_spec _ k _ b pre r post kr vr n (proj2 Hw) Hk eq_refl Hb Hch Hn Hin Hr) as (s1 & Hl & Hre & Hbits & Hsize & Hc1 & n' & Hr1).
    apply core_some in Hr as Hm. destruct Hm as (mr & Hm & _ & _ & _ & En). rewrite Hm. cbn [mbind option_bind]. rewrite En, Hl. cbn [mbind option_bind].
    destruct (delete_internal_spec released nothing (with_map w s1) r kr vr n') as (w' & -> & Ei & Ef & Hr' & T & Hcnt & Hcr & Hcx & _); [apply (relinked_refs _ _ _ Hre), Hw|exact Hr1|]. cbn [mbind option_bind with_map map_state] in *.
    destruct Hw as [Hw (Hch0 & Hsz & Hd)]. pose proof (relinked_data _ _ Hre Hd) as Hd1. destruct (deleted_data s1 _ r _ Hd1 Hr1 T Hcnt Hcr Hcx) as [Hd' He'].
    exists true, w'. split; [reflexivity|]. split; [|split].
    + split; [exact Hr'|]. destruct T. split; [|split; [congruence|exact Hd']]. rewrite st_bits, st_table. eapply chains_ok_L; [|apply (chains_frame (core (heap s1))); [|exact Hc1]].
      * intros x [e Hx]. split; [auto|]. intros _ ->. congruence.
      * intros x Hx. rewrite Hcx by exact Hx. reflexivity.
    + rewrite (entries_lookup (map_state w) r), decide_True, Hr by (apply (da_range _ Hd); eauto). cbn [fmap option_fmap option_map fst]. f_equal. unfold dropping, with_entries, abs. cbn. rewrite He', (relinked_entries _ _ Hre), Ei, Ef, (st_set _ _ T), (re_set _ _ Hre), drop_iters_fmap. reflexivity.
    + cbn. destruct (find_key k (entries_of (map_state w'))) as [j|] eqn:Hj; [|reflexivity]. exfalso. apply find_entry_some in Hj as (kj & vj & Hj & Hsj). rewrite He' in Hj. destruct (decide (j = r)) as [->|Hne].
      * rewrite list_lookup_insert_eq in Hj by (rewrite entries_length, (re_next _ _ Hre); apply (da_range _ Hd); eauto). discriminate.
      * rewrite list_lookup_insert_ne in Hj by congruence. rewrite (relinked_entries _ _ Hre), entries_lookup in Hj. destruct (decide _); [|discriminate]. destruct (core (heap (map_state w)) j) as [[[k2 v2] n2]|] eqn:Hcj; [|discriminate]. cbn in Hj. injection Hj as -> ->.
        apply Hne. pose proof (da_canonical _ Hd _ _ _ _ Hcj). pose proof (da_canonical _ Hd _ _ _ _ Hr). eapply (da_unique _ Hd); [exact Hcj|exact Hr|]. eapply same_trans; [| | |exact Hsj|]; auto. apply same_sym; auto.
  - exists false, w. split; [reflexivity|]. split; [exact Hw|]. split; [reflexivity|]. exact Hf.
Qed.

(** ** Clearing *)

(** Freeing the value of an entry does not finalize an iterator that stands on a
    deleted record of [k]. *)
Definition quiet (w : JSMapWorld) (k : list rid) (l : list nat) : Prop :=
  forall i y, i ∈ l -> y ∈ k -> stands_on w i y -> is_Some (core (heap (map_state w)) y).

Definition releases (h : gmap rid JSMapRecord) (k : list rid) : list nat := concat ((fun r => entry_releases released (fst <$> core h r)) <$> k).

Definition clearing (w : JSMapWorld) : Prop :=
  refs_ok (fun x => (holders w x + nothing x)%nat) (map_state w) /\ chains_ok (core (heap (map_state w))) (hash_bits (map_state w)) (hash_table (map_state w)) (fun _ => False) /\ data_ok (map_state w).

Lemma clearing_refs w : clearing w -> refs_ok (fun x => (holders w x + nothing x)%nat) (map_state w).
Proof. intros H. apply H. Qed.

(** A part of the list that stays. *)
Lemma keep_suffix H H' s s' l k :
  refs_ok H s -> refs_ok H' s' -> records s = l ++ k -> (forall x, is_Some (heap s' !! x) -> is_Some (heap s !! x)) -> (forall x, x ∈ k -> is_Some (heap s' !! x)) ->
  exists l', records s' = l' ++ k /\ forall x, x ∈ l' -> x ∈ l.
Proof.
  intros Hs Hs' E Hd Hk. exists (filter (fun x => x ∉ k) (records s')). pose proof (ro_sorted _ _ Hs) as Hsort. rewrite E in Hsort. apply increasing_app in Hsort as (H1 & H2 & H3).
  assert (Hin : forall x, x ∈ filter (fun x => x ∉ k) (records s') -> x ∈ l).
  { intros x Hx. apply list_elem_of_filter in Hx as [Hx1 Hx2]. apply (ro_dom _ _ Hs'), Hd, (ro_dom _ _ Hs) in Hx2. rewrite E, elem_of_app in Hx2. tauto. }
  split; [|exact Hin]. apply increasing_ext; [apply Hs'| |].
  - apply increasing_app. split; [apply increasing_filter, Hs'|]. split; [exact H2|]. auto.
  - intros x. rewrite elem_of_app, list_elem_of_filter. split; [intros Hx; destruct (decide (x ∈ k)); auto|]. intros [[_ Hx]|Hx]; [exact Hx|]. apply (ro_dom _ _ Hs'), Hk, Hx.
Qed.

Lemma clear_loop_spec k : forall l w fuel,
  clearing w -> records (map_state w) = l ++ k -> (forall x, x ∈ l -> core (heap (map_state w)) x = None) -> quiet w k (releases (heap (map_state w)) k) -> (length k < fuel)%nat ->
  exists w', clear_loop released fuel w (head k) = Some w' /\ clearing w' /\ (forall x, core (heap (map_state w')) x = None) /\
    iterators w' = drop_iters (releases (heap (map_state w)) k) (iterators w) /\ frames w' = frames w /\ same_table (map_state w) (map_state w').
Proof.
  induction k as [|r k IH]; intros l w fuel Hw E Hl Hq Hf; (destruct fuel as [|fuel]; [cbn in Hf; lia|]); cbn [clear_loop head].
  - exists w. split; [reflexivity|]. split; [exact Hw|]. split; [|split; [reflexivity|split; [reflexivity|apply same_table_refl]]]. intros x. destruct (core (heap (map_state w)) x) as [[[k v] n]|] eqn:Hx; [|reflexivity].
    apply core_some in Hx as Hx'. destruct Hx' as (mr & Hm & _). rewrite <- Hx. apply Hl. rewrite <- (app_nil_r l), <- E. apply (ro_dom _ _ (clearing_refs w Hw)). eauto.
  - assert (is_Some (heap (map_state w) !! r)) as [mr Hm] by (apply (ro_dom _ _ (clearing_refs w Hw)); rewrite E, elem_of_app; right; left). pose proof (increasing_NoDup _ (ro_sorted _ _ (clearing_refs w Hw))) as Hn.
    rewrite E in Hn. apply NoDup_app in Hn as (_ & Hn1 & Hn2). apply NoDup_cons in Hn2 as [Hn2 _]. rewrite E, link_next_app by (intros Hr; apply (Hn1 r Hr); left). cbn [mbind option_bind].
    destruct (core (heap (map_state w)) r) as [[[kr vr] n]|] eqn:Hr.
    + destruct Hw as (Hrefs & Hch & Hd). destruct (delete_internal_spec released nothing w r kr vr n Hrefs Hr) as (w' & -> & Ei & Ef & Hrefs' & T & Hcnt & Hcr & Hcx & Hdom & Hkeep). cbn [mbind option_bind].
      assert (Hrel : releases (heap (map_state w)) (r :: k) = (released kr ++ released vr) ++ releases (heap (map_state w)) k) by (unfold releases; cbn; rewrite Hr; reflexivity).
      assert (Hrel' : releases (heap (map_state w')) k = releases (heap (map_state w)) k).
      { unfold releases. f_equal. apply list_fmap_ext. intros i x Hx. rewrite Hcx; [reflexivity|]. intros ->. apply Hn2. apply list_elem_of_lookup. eauto. }
      assert (Hstay : forall x, x ∈ k -> is_Some (heap (map_state w') !! x)).
      { intros x Hx. destruct (Hkeep x) as [H|(i & Hi & Ho & Hc)]; [intros ->; contradiction|apply (ro_dom _ _ Hrefs); rewrite E, elem_of_app; right; right; exact Hx|exact H|].
        exfalso. destruct (Hq i x) as [e He]; [rewrite Hrel; apply elem_of_app; auto|right; exact Hx|exact Ho|congruence]. }
      destruct (keep_suffix _ _ _ _ (l ++ [r]) k Hrefs Hrefs') as (l' & E' & Hl'); [rewrite <- app_assoc; exact E|exact Hdom|exact Hstay|].
      assert (Hw' : clearing w').
      { split; [exact Hrefs'|]. destruct (deleted_data _ _ r _ Hd Hr T Hcnt Hcr Hcx) as [Hd' _]. split; [|exact Hd']. destruct T. rewrite st_bits, st_table. apply (chains_frame (core (heap (map_state w)))); [tauto|exact Hch]. }
      destruct (IH l' w' fuel Hw' E') as (w2 & E2 & Hw2 & Hc2 & Hi2 & Hf2 & T2).
      * intros x Hx. apply Hl', elem_of_app in Hx as [Hx|Hx]; [|apply list_elem_of_singleton in Hx as ->; exact Hcr]. destruct (decide (x = r)) as [->|Hne]; [exact Hcr|]. rewrite Hcx by exact Hne. auto.
      * rewrite Hrel'. intros i y Hi Hy Ho. rewrite Hcx by (intros ->; contradiction). apply (Hq i y); [rewrite Hrel; apply elem_of_app; auto|right; exact Hy|eapply stands_on_drop; eassumption].
      * cbn in Hf. lia.
      * exists w2. split; [exact E2|]. split; [exact Hw2|]. split; [exact Hc2|]. split; [rewrite Hi2, Hrel', Hrel, drop_iters_app, Ei; reflexivity|]. split; [congruence|eapply same_table_trans; eassumption].
    + unfold map_delete_record_internal. rewrite Hm. cbn [mbind option_bind]. rewrite (core_none _ _ _ Hm Hr). assert (Hrel : releases (heap (map_state w)) (r :: k) = releases (heap (map_state w)) k) by (unfold releases; cbn; rewrite Hr; reflexivity). rewrite Hrel in *.
      apply (IH (l ++ [r])); [exact Hw|rewrite <- app_assoc; exact E| | |cbn in Hf; lia].
      * intros x Hx. apply elem_of_app in Hx as [Hx|Hx]; [auto|apply list_elem_of_singleton in Hx as ->; exact Hr].
      * intros i y Hi Hy. apply Hq; [exact Hi|right; exact Hy].
Qed.

(** The records in order release the same iterators as the entries in order. *)
Lemma concat_seq {A} (f : nat -> list A) l : forall n m, increasing l -> (forall x, x ∈ l -> (n <= x < n + m)%nat) -> (forall x, (n <= x < n + m)%nat -> x ∉ l -> f x = []) -> concat (f <$> seq n m) = concat (f <$> l).
Proof.
  induction l as [|r l IH]; intros n m Hi Hr Hf.
  - assert (forall m n, (forall x, (n <= x < n + m)%nat -> f x = []) -> concat (f <$> seq n m) = []) as Hz.
    { clear. induction m as [|m IH]; intros n H; [reflexivity|]. cbn. rewrite H by lia. apply IH. intros x Hx. apply H. lia. }
    apply Hz. intros x Hx. apply Hf; [exact Hx|]. intros Hy. inversion Hy.
  - revert n Hr Hf. induction m as [|m IHm]; intros n Hr Hf; [specialize (Hr r ltac:(left)); lia|]. cbn [seq fmap list_fmap concat]. unfold increasing in Hi. inversion Hi as [|? ? Hi1 Hi2]; subst. rewrite Forall_forall in Hi2. destruct (decide (n = r)) as [->|Hne].
    + cbn. f_equal. apply IH; [exact Hi1| |].
      * intros x Hx. specialize (Hi2 x Hx). specialize (Hr x ltac:(right; exact Hx)). lia.
      * intros x Hx Hxl. apply Hf; [lia|]. intros Hy. apply elem_of_cons in Hy as [->|Hy]; [lia|contradiction].
    + rewrite (Hf n); [|lia|]. 2: { intros Hy. apply elem_of_cons in Hy as [->|Hy]; [contradiction|]. specialize (Hi2 n Hy). specialize (Hr r ltac:(left)). lia. }
      cbn [app]. change (concat (f <$> seq (S n) m) = concat (f <$> r :: l)). apply IHm.
      * intros x Hx. pose proof (Hr x Hx). assert (x <> n); [|lia]. intros ->. apply elem_of_cons in Hx as [->|Hx]; [contradiction|]. specialize (Hi2 n Hx). specialize (Hr r ltac:(left)). lia.
      * intros x Hx. apply Hf. lia.
Qed.

Lemma releases_entries H s : refs_ok H s -> concat (entry_releases released <$> entries_of s) = releases (heap s) (records s).
Proof.
  intros Hs. unfold entries_of, releases. rewrite <- list_fmap_compose. apply concat_seq; [apply Hs|intros x Hx; split; [lia|apply (ro_range _ _ Hs x Hx)]|].
  intros x _ Hx. unfold compose, core. destruct (heap s !! x) as [mr|] eqn:Hm; [|reflexivity]. exfalso. apply Hx, (ro_dom _ _ Hs). eauto.
Qed.

Lemma clear_step w : wf w -> quiet w (records (map_state w)) (concat (entry_releases released <$> entries_of (map_state w))) -> realizes (js_map_clear released w) (spec_step released (abs w) EvClear).
Proof.
  intros [Hr (Hch & Hsz & Hd)] Hq. unfold js_map_clear. rewrite (releases_entries _ _ Hr) in Hq. set (w0 := with_map w (set_table (map_state w) (replicate (Z.to_nat (hash_size (map_state w))) None))).
  destruct (clear_loop_spec (records (map_state w)) [] w0 (S (length (records (map_state w))))) as (w' & E & (Hr' & Hch' & Hd') & Hc' & Ei & Ef & T).
  - split; [|split].
    + destruct Hr. split; assumption.
    + cbn. rewrite Hsz. apply chains_empty; [apply Hch|tauto].
    + destruct Hd. split; assumption.
  - reflexivity.
  - intros x Hx. inversion Hx.
  - exact Hq.
  - lia.
  - cbn [map_state with_map w0] in *. rewrite E. cbn [mbind option_bind]. exists RUndefined, w'. split; [reflexivity|]. split.
    + split; [exact Hr'|]. split; [|split; [|exact Hd']]; [|destruct T; cbn in *; congruence]. eapply chains_ok_L; [|exact Hch']. intros x [e Hx]. rewrite Hc' in Hx. discriminate.
    + cbn [spec_step]. f_equal. unfold spec_clear, dropping, with_entries, abs. cbn [d_set d_entries d_cursors d_calls]. rewrite (releases_entries _ _ Hr), Ei, Ef, drop_iters_fmap, (st_set _ _ T). f_equal. unfold entries_of. rewrite (st_next _ _ T). cbn [next_rid set_table with_map map_state w0].
      rewrite length_fmap, length_seq. apply list_eq. intros x. rewrite list_lookup_fmap. destruct (decide (x < next_rid (map_state w))%nat) as [Hx|Hx].
      * rewrite lookup_seq_lt by exact Hx. cbn. rewrite Hc'. rewrite lookup_replicate_2 by exact Hx. reflexivity.
      * rewrite lookup_seq_ge by lia. cbn. apply lookup_replicate_None. lia.
Qed.

(** ** Iterating *)

Lemma create_step ok w kind : wf w -> realizes (js_create_map_iterator ok w kind) (spec_step released (abs w) (EvIterator kind ok)).
Proof.
  intros [Hr Ha]. unfold js_create_map_iterator. destruct ok; cbn [negb spec_step]; [|exists RException, w; split; [reflexivity|]; split; [split; assumption|reflexivity]].
  eexists _, _. split; [reflexivity|]. split.
  - split; [|exact Ha]. revert Hr. apply refs_ok_ext. intros x. unfold holders. cbn [iterators frames]. rewrite sum_app. cbn. lia.
  - unfold abs. cbn [iterators frames map_state d_set d_entries d_cursors d_calls]. rewrite fmap_app, length_fmap. reflexivity.
Qed.

Lemma holders_iter w s' i it o x : iterators w !! i = Some it -> (holders (put_iterator (with_map w s') i o) x + holds_it x it = holders w x + holds_it x o)%nat.
Proof. intros Hi. unfold holders. cbn [iterators frames put_iterator with_map]. pose proof (sum_insert (holds_it x) _ i it o Hi). lia. Qed.

Lemma abs_iter w s' i it : is_set s' = is_set (map_state w) -> entries_of s' = entries_of (map_state w) -> abs (put_iterator (with_map w s') i (Some it)) = with_cursor (abs w) i (Some (cursor_of it)).
Proof. intros E1 E2. unfold abs, with_cursor. cbn [put_iterator with_map map_state iterators frames d_set d_entries d_cursors d_calls]. rewrite E1, E2, list_fmap_insert. reflexivity. Qed.

(** The iterator has given up its record and looks for the next one. *)
Lemma advance_step w s' i it l k n :
  iterators w !! i = Some (Some it) -> refs_ok (fun x => (holders w x - holds_it x (Some it))%nat) s' -> all_ok s' -> is_set s' = is_set (map_state w) -> entries_of s' = entries_of (map_state w) ->
  records s' = l ++ k -> (forall x, x ∈ l -> (x < n)%nat) -> (forall x, x ∈ k -> (n <= x)%nat) ->
  realizes (el ← next_live (S (length (records s'))) s' (head k);
            match el with
            | None => Some (RDone, put_iterator (with_map w s') i (Some (MkIter false (it_kind it) None)))
            | Some r =>
                mr ← heap s' !! r;
                let w := lock_record (with_map w s') r mr in
                Some (iterator_item (it_kind it) (is_set (map_state w)) (key mr) (mr_value mr), put_iterator w i (Some (MkIter true (it_kind it) (Some r))))
            end)
    (match next_entry n (d_entries (abs w)) with
     | None => (RDone, with_cursor (abs w) i (Some (it_kind it, None)))
     | Some (j, k, v) => (iterator_item (it_kind it) (d_set (abs w)) k v, with_cursor (abs w) i (Some (it_kind it, Some (S j))))
     end).
Proof.
  intros Hi Hr Ha Es Ee E Hl Hk. cbn [abs d_entries d_set]. fold (abs w). rewrite <- Ee. assert (Hge : forall x, (holds_it x (Some it) <= holders w x)%nat) by (intros x; unfold holders; pose proof (sum_ge (holds_it x) _ i _ Hi); lia).
  destruct (next_live_spec _ s' l k n Hr E Hl Hk) as [[-> ->]|(r & kr & vr & nx & -> & Hc & ->)]; cbn [mbind option_bind].
  - eexists _, _. split; [reflexivity|]. split.
    + split; [|exact Ha]. revert Hr. apply refs_ok_ext. intros x. pose proof (holders_iter w s' i (Some it) (Some (MkIter false (it_kind it) None)) x Hi) as Hh. specialize (Hge x). unfold nothing. cbn [holds_it it_obj] in *. lia.
    + rewrite (abs_iter w s' i _ Es Ee). reflexivity.
  - apply core_some in Hc as Hc'. destruct Hc' as (mr & Hm & _ & Ek & Ev & _). rewrite Hm. cbn [mbind option_bind]. destruct (lock_spec _ s' r mr Hr Hm) as [Hr' K]. eexists _, _. split; [reflexivity|]. split.
    + split; [|apply (kept_all s' _ K Ha)]. revert Hr'. apply refs_ok_ext. intros x. pose proof (holders_iter w (put_rec s' r (set_ref_count mr (mr_ref_count mr + 1))) i (Some it) (Some (MkIter true (it_kind it) (Some r))) x Hi) as Hh. specialize (Hge x). unfold nothing.
      change (lock_record (with_map w s') r mr) with (with_map w (put_rec s' r (set_ref_count mr (mr_ref_count mr + 1)))). cbn [holds_it it_obj cur_record] in *. lia.
    + change (lock_record (with_map w s') r mr) with (with_map w (put_rec s' r (set_ref_count mr (mr_ref_count mr + 1)))). rewrite abs_iter; [|exact Es|rewrite (kept_entries _ _ K); exact Ee]. cbn [map_state with_map is_set put_rec set_heap]. rewrite Ek, Ev, Es. reflexivity.
Qed.

(** The records on both sides of one of them. *)
Lemma split_bounds H s l r k : refs_ok H s -> records s = l ++ r :: k -> (forall x, x ∈ l ++ [r] -> (x < S r)%nat) /\ (forall x, x ∈ k -> (S r <= x)%nat).
Proof.
  intros Hs E. pose proof (ro_sorted _ _ Hs) as Hsort. rewrite E in Hsort. apply increasing_app in Hsort as (_ & H2 & H3). change (r :: k) with ([r] ++ k) in H2. apply increasing_app in H2 as (_ & _ & H4). split.
  - intros x Hx. apply elem_of_app in Hx as [Hx|Hx]; [specialize (H3 x r Hx ltac:(left)); lia|apply list_elem_of_singleton in Hx as ->; lia].
  - intros x Hx. specialize (H4 r x ltac:(left) Hx). lia.
Qed.

(** Stepping off a record: the rest of the list is still there. *)
Lemma leave_spec w r :
  wf w -> (0 < holders w r)%nat ->
  exists l k s', link_next r (records (map_state w)) = Some (head k) /\ map_decref_record w r = Some (with_map w s') /\ refs_ok (fun x => (holders w x - one r x)%nat) s' /\ all_ok s' /\ kept (map_state w) s' /\
    records s' = l ++ k /\ (forall x, x ∈ l -> (x < S r)%nat) /\ (forall x, x ∈ k -> (S r <= x)%nat).
Proof.
  intros [Hr Ha] Hh. destruct (ro_held _ _ Hr r) as [mr Hm]; [unfold nothing; lia|]. destruct (records_split _ _ r Hr ltac:(eauto)) as (l & k & E & Hl & Hk & Hn). destruct (decref_spec _ w r Hr) as (s' & Ed & Hr' & K & D); [unfold nothing; lia|].
  destruct (split_bounds _ _ _ _ _ Hr E) as [B1 B2]. destruct (keep_suffix _ _ _ s' (l ++ [r]) k Hr Hr') as (l' & E' & Hl').
  - rewrite <- app_assoc. exact E.
  - apply K.
  - intros x Hx. destruct (D x) as [|[-> _]]; [apply (ro_dom _ _ Hr); rewrite E, elem_of_app; right; right; exact Hx|assumption|contradiction].
  - exists l', k, s'. split; [exact Hn|]. split; [exact Ed|]. split; [revert Hr'; apply refs_ok_ext; intros x; unfold nothing; lia|]. split; [eapply kept_all; eassumption|]. split; [exact K|]. split; [exact E'|]. auto.
Qed.

Lemma next_step w i : wf w -> realizes (js_map_iterator_next w i) (spec_step released (abs w) (EvNext i)).
Proof.
  intros Hw. unfold js_map_iterator_next. cbn [spec_step]. unfold spec_next. replace (d_cursors (abs w) !! i) with (option_map cursor_of <$> iterators w !! i) by (cbn; rewrite list_lookup_fmap; reflexivity).
  destruct (iterators w !! i) as [[it|]|] eqn:Hi; cbn [fmap option_fmap option_map]; [|exists RException, w; auto|exists RException, w; auto].
  unfold cursor_of. destruct (it_obj it) eqn:Ho; cbn [negb]; [|exists RDone, w; auto]. destruct (cur_record it) as [r|] eqn:Hc.
  - destruct (leave_spec w r Hw) as (l & k & s' & -> & -> & Hr' & Ha' & K & E & Hl & Hk). { unfold holders. pose proof (sum_ge (holds_it r) _ i _ Hi) as H. cbn [holds_it] in H. rewrite Ho, Hc, one_eq in H. lia. }
    cbn [mbind option_bind fst snd with_map map_state]. apply (advance_step w s' i it l k (S r) Hi); auto; [|apply K|apply kept_entries, K].
    revert Hr'. apply refs_ok_ext. intros x. cbn [holds_it]. rewrite Ho, Hc. reflexivity.
  - cbn [mbind option_bind fst snd]. pose proof (advance_step w (map_state w) i it [] (records (map_state w)) 0 Hi) as H. replace (with_map w (map_state w)) with w in H by (destruct w; reflexivity). apply H; auto; [|apply Hw| |lia].
    + destruct Hw as [Hr _]. revert Hr. apply refs_ok_ext. intros x. cbn [holds_it]. rewrite Ho, Hc. unfold nothing. lia.
    + intros x Hx. inversion Hx.
Qed.

Lemma continue_step w l k n : wf w -> records (map_state w) = l ++ k -> (forall x, x ∈ l -> (x < n)%nat) -> (forall x, x ∈ k -> (n <= x)%nat) -> realizes (forEach_continue w (head k)) (spec_continue (abs w) n).
Proof.
  intros Hw E Hl Hk. pose proof Hw as [Hr Ha]. unfold forEach_continue, spec_continue. cbn [abs d_entries]. fold (abs w). destruct (next_live_spec _ _ l k n Hr E Hl Hk) as [[-> ->]|(r & kr & vr & nx & -> & Hc & ->)]; cbn [mbind option_bind].
  - exists RUndefined, w. auto.
  - apply core_some in Hc as Hc'. destruct Hc' as (mr & Hm & _ & Ek & Ev & _). rewrite Hm. cbn [mbind option_bind]. destruct (lock_spec _ _ r mr Hr Hm) as [Hr' K]. eexists _, _. split; [reflexivity|]. split.
    + split; [|apply (kept_all _ _ K Ha)]. revert Hr'. apply refs_ok_ext. intros x. unfold holders. cbn [iterators frames lock_record with_map]. rewrite sum_app. cbn [sum_list_with holds_fr fr_record]. lia.
    + unfold abs. cbn [iterators frames lock_record with_map map_state d_set d_entries d_cursors d_calls]. rewrite (kept_entries _ _ K), fmap_app, length_fmap, Ek, Ev. reflexivity.
Qed.

Lemma forEach_step callable w : wf w -> realizes (js_map_forEach callable w) (spec_step released (abs w) (EvForEach callable)).
Proof.
  intros Hw. unfold js_map_forEach. destruct callable; cbn [negb spec_step]; [|exists RException, w; auto]. apply (continue_step w [] (records (map_state w))); [exact Hw|reflexivity| |lia]. intros x Hx. inversion Hx.
Qed.

Lemma dropping_nil a : dropping a [] = a.
Proof. destruct a. reflexivity. Qed.

Lemma dropping_app a l k : dropping (dropping a l) k = dropping a (l ++ k).
Proof. unfold dropping. cbn. rewrite drop_iters_app. reflexivity. Qed.

Lemma return_step w f ret :
  wf w -> (forall v i y, ret = Some v -> i ∈ released v -> stands_on w i y -> is_Some (core (heap (map_state w)) y)) ->
  realizes (forEach_return released w f ret) (spec_step released (abs w) (EvForEachReturn f ret)).
Proof.
  intros Hw Hq. unfold forEach_return. cbn [spec_step]. unfold spec_return. replace (d_calls (abs w) !! f) with (option_map call_of <$> frames w !! f) by (cbn; rewrite list_lookup_fmap; reflexivity).
  destruct (frames w !! f) as [[fr|]|] eqn:Hf; cbn [fmap option_fmap option_map]; [|exists RUndefined, w; auto|exists RUndefined, w; auto]. unfold call_of. set (r := fr_record fr).
  destruct (free_step w (fr_value fr) Hw) as (w1 & -> & Hw1 & Ea1 & K1 & Ei1 & Ef1 & _). cbn [mbind option_bind].
  assert (exists w2 l2, (if is_set (map_state w1) then Some w1 else JS_FreeValue released w1 (fr_key fr)) = Some w2 /\ wf w2 /\ abs w2 = dropping (abs w) (released (fr_value fr) ++ (if d_set (abs w) then [] else released (fr_key fr))) /\ kept (map_state w) (map_state w2) /\ frames w2 = frames w /\ iterators w2 = drop_iters l2 (iterators w)) as (w2 & l2 & -> & Hw2 & Ea2 & K2 & Ef2 & Ei2).
  { replace (d_set (abs w)) with (is_set (map_state w1)) by (cbn; apply K1). destruct (is_set (map_state w1)).
    - exists w1, (released (fr_value fr)). rewrite app_nil_r. auto 10.
    - destruct (free_step w1 (fr_key fr) Hw1) as (w2 & E2 & Hw2 & Ea2 & K2 & Ei2 & Ef2 & _). exists w2, (released (fr_value fr) ++ released (fr_key fr)). split; [exact E2|]. split; [exact Hw2|]. split; [rewrite Ea2, Ea1; apply dropping_app|].
      split; [eapply record_kept_trans; eassumption|]. split; [congruence|]. rewrite Ei2, Ei1, drop_iters_app. reflexivity. }
  cbn [mbind option_bind]. rewrite <- Ea2. assert (Hf2 : frames w2 !! f = Some (Some fr)) by (rewrite Ef2; exact Hf).
  destruct (leave_spec w2 r Hw2) as (l & k & s' & -> & Ed & Hr' & Ha' & K & E & Hl & Hk). { unfold holders. pose proof (sum_ge (holds_fr r) _ f _ Hf2) as H. cbn [holds_fr] in H. unfold r in *. rewrite one_eq in H. lia. }
  cbn [mbind option_bind]. rewrite Ed. cbn [mbind option_bind]. set (w3 := put_frame (with_map w2 s') f None).
  assert (Hw3 : wf w3).
  { split; [|exact Ha']. revert Hr'. apply refs_ok_ext. intros x. unfold holders, nothing. cbn [iterators frames w3 put_frame with_map]. pose proof (sum_insert (holds_fr x) _ f _ None Hf2) as H. cbn [holds_fr] in H. fold r in H. lia. }
  assert (Ea3 : abs w3 = with_call (abs w2) f None).
  { unfold abs, with_call. cbn [w3 put_frame with_map map_state iterators frames d_set d_entries d_cursors d_calls]. rewrite (st_set _ _ (kp_table _ _ K)), (kept_entries _ _ K), list_fmap_insert. reflexivity. }
  rewrite <- Ea3. destruct ret as [v|]; [|exists RException, w3; auto].
  destruct (free_step w3 v Hw3) as (w4 & -> & Hw4 & Ea4 & K4 & _ & _ & D4). cbn [mbind option_bind]. rewrite <- Ea4.
  destruct (keep_suffix _ _ _ (map_state w4) l k (proj1 Hw3) (proj1 Hw4) E) as (l' & E4 & Hl'); [apply K4| |].
  - intros x Hx. destruct (D4 x) as [|(i & Hi & Ho & Hc)]; [apply (ro_dom _ _ (proj1 Hw3)); cbn [w3 put_frame with_map map_state]; rewrite E, elem_of_app; auto|assumption|]. exfalso.
    destruct (Hq v i x eq_refl Hi) as [e He]; [|rewrite (kp_core _ _ K), (kp_core _ _ K2), He in Hc; discriminate]. destruct Ho as (it & Hit & Ho). exists it. split; [|exact Ho]. cbn in Hit. rewrite Ei2 in Hit. eapply drop_iters_some. exact Hit.
  - apply (continue_step w4 l' k (S r)); auto.
Qed.

End Release.
End Steps.
