(* ===== verification/MapKeys.v ===== *)
(** Map and Set objects: the keys of the engine.

    [map_value] is a value as a key: a number, boolean, null or undefined of
    [Numbers], a string or rope, a symbol or an object (by its address).  The
    comparison and the hash are the code's; [key_repr] is what they depend on, and
    the instance at the end gives the laws the map relies on. *)
From Stdlib Require Import ZArith Lia.
From S2P Require Import Prelude Float64 Limbs LimbSpecs BigInt BigIntMul BigIntPow BigIntString BigIntToString Numbers NumberSpecs Operators.
From S2P Require Import Cutils JSString StringBuffers JSStringSpecs Rope RopeBalance RopeSpecs Atoms Maps MapSpecs.
From stdpp Require Import base tactics numbers list.

Open Scope Z_scope.

Inductive map_value : Type :=
| KNumber (v : JSValue)
| KString (s : JSRope)
| KSymbol (p : Z)
| KObject (p : Z).

(** The tags, of 32 bits. *)
Definition TAG_BIG_INT : Z := wrap 32 (-9).
Definition TAG_SYMBOL : Z := wrap 32 (-8).
Definition TAG_STRING : Z := wrap 32 (-7).
Definition TAG_OBJECT : Z := wrap 32 (-1).
Definition TAG_BOOL : Z := 1.
Definition TAG_FLOAT64 : Z := 8.

Definition HASH_MUL32 : Z := 0x61C88647.
Definition HASH_MUL64 : Z := 0x61C8864680B583EB.

Definition map_hash32 (a hash_bits : Z) : Z := Z.shiftr (wrap 32 (a * HASH_MUL32)) (32 - hash_bits).
Definition map_hash64 (a hash_bits : Z) : Z := Z.shiftr (wrap 64 (a * HASH_MUL64)) (64 - hash_bits).

Fixpoint hash_string_rope (v : JSRope) (h : Z) : Z :=
  match v with RStr p => hash_string p h | RRope _ _ _ l r => hash_string_rope r (hash_string_rope l h) end.

(** [d1 == d2] on float64 numbers that are not NaN. *)
Definition float64_eq (d1 d2 : Z) : bool := float64_scaled d1 =? float64_scaled d2.

(** [js_string_eq] and [js_string_rope_compare] do not allocate or throw. *)
Definition run_pure {A} (d : A) (m : M A) : A := match m alloc_all with (Ok a, _) => a | _ => d end.

(** The build option [JS_PTR64]. *)
Class PointerConfig := { JS_PTR64 : bool }.

Section Keys.
Context `{LC : LimbConfig} `{PC : PointerConfig}.

Definition map_hash_pointer (a hash_bits : Z) : Z := if JS_PTR64 then map_hash64 a hash_bits else map_hash32 a hash_bits.

Definition normalize_key (k : map_value) : map_value :=
  match k with
  | KNumber (JS_TAG_FLOAT64 d) => if float64_eq d 0 then KNumber (JS_NewInt32 0) else k
  | _ => k
  end.

Definition hash_float64 (d hash_bits : Z) : Z := map_hash64 (Z.lxor d TAG_FLOAT64) hash_bits.

(** The loop over the limbs, from the most significant one. *)
Definition hash_bigint (p : JSBigInt) (hash_bits : Z) : Z :=
  map_hash32 (Z.lxor (fold_left (fun h limb => wrap 32 (h * 263 + limb)) (rev (tab p)) 1) TAG_BIG_INT) hash_bits.

Definition hash_key (k : map_value) (hash_bits : Z) : Z :=
  match k with
  | KNumber (JS_TAG_BOOL v) => map_hash32 (Z.lxor v TAG_BOOL) hash_bits
  | KString (RStr p) => map_hash32 (Z.lxor (hash_string p 0) TAG_STRING) hash_bits
  | KString s => map_hash32 (Z.lxor (hash_string_rope s 0) TAG_STRING) hash_bits
  | KObject p => map_hash_pointer (Z.lxor p TAG_OBJECT) hash_bits
  | KSymbol p => map_hash_pointer (Z.lxor p TAG_SYMBOL) hash_bits
  | KNumber (JS_TAG_INT v) => hash_float64 (float64_round v) hash_bits
  | KNumber (JS_TAG_FLOAT64 d) => hash_float64 (if isnan d then JS_FLOAT64_NAN else d) hash_bits
  | KNumber (JS_TAG_SHORT_BIG_INT v) => hash_bigint (js_bigint_set_short v) hash_bits
  | KNumber (JS_TAG_BIG_INT p) => hash_bigint p hash_bits
  | _ => 0
  end.

(** The mode [JS_EQ_SAME_VALUE_ZERO] of the label [number_test]. *)
Definition number_test (d1 d2 : Z) : bool := if isnan d1 || isnan d2 then eqb (isnan d1) (isnan d2) else float64_eq d1 d2.

Definition number_operand (v : JSValue) : option Z :=
  match v with JS_TAG_INT v => Some (float64_round v) | JS_TAG_FLOAT64 d => Some d | _ => None end.

Definition bigint_key (v : JSValue) : option JSBigInt :=
  match v with JS_TAG_SHORT_BIG_INT v => Some (js_bigint_set_short v) | JS_TAG_BIG_INT p => Some p | _ => None end.

(** [js_strict_eq2] in that mode. *)
Definition same_value_zero (op1 op2 : map_value) : bool :=
  match op1, op2 with
  | KNumber v1, KNumber v2 =>
      match v1, v2 with
      | JS_TAG_BOOL b1, JS_TAG_BOOL b2 => b1 =? b2
      | JS_TAG_NULL, JS_TAG_NULL | JS_TAG_UNDEFINED, JS_TAG_UNDEFINED => true
      | _, _ =>
          match number_operand v1, number_operand v2 with
          | Some d1, Some d2 => number_test d1 d2
          | _, _ => match bigint_key v1, bigint_key v2 with Some p1, Some p2 => js_bigint_cmp p1 p2 =? 0 | _, _ => false end
          end
      end
  | KString (RStr p1), KString (RStr p2) => run_pure false (js_string_eq p1 p2)
  | KString s1, KString s2 => run_pure 1 (js_string_rope_compare s1 s2 true) =? 0
  | KSymbol p1, KSymbol p2 | KObject p1, KObject p2 => p1 =? p2
  | _, _ => false
  end.

#[export] Instance engine_keys : MapKeys := {|
  value := map_value;
  v_undefined := KNumber JS_TAG_UNDEFINED;
  map_normalize_key := normalize_key;
  map_hash_key := hash_key;
  js_same_value_zero := same_value_zero
|}.

(** ** The laws *)

(** What a key stands for: NaN is one number, an integer is a float64. *)
Inductive key_repr : Type :=
| ReprNull | ReprUndefined
| ReprBool (b : Z)
| ReprNumber (d : Z)
| ReprBigInt (p : JSBigInt)
| ReprString (units : list Z)
| ReprSymbol (p : Z)
| ReprObject (p : Z).

Definition repr (k : map_value) : key_repr :=
  match k with
  | KNumber JS_TAG_NULL => ReprNull
  | KNumber JS_TAG_UNDEFINED => ReprUndefined
  | KNumber (JS_TAG_BOOL b) => ReprBool b
  | KNumber (JS_TAG_INT v) => ReprNumber (float64_round v)
  | KNumber (JS_TAG_FLOAT64 d) => ReprNumber (if isnan d then JS_FLOAT64_NAN else d)
  | KNumber (JS_TAG_SHORT_BIG_INT v) => ReprBigInt (js_bigint_set_short v)
  | KNumber (JS_TAG_BIG_INT p) => ReprBigInt p
  | KString s => ReprString (rope_units s)
  | KSymbol p => ReprSymbol p
  | KObject p => ReprObject p
  end.

Definition valid_value (k : map_value) : Prop :=
  match k with
  | KNumber (JS_TAG_INT v) => - 2 ^ 31 <= v < 2 ^ 31
  | KNumber (JS_TAG_FLOAT64 d) => 0 <= d < 2 ^ 64
  | KNumber (JS_TAG_SHORT_BIG_INT v) => - 2 ^ (JS_LIMB_BITS - 1) <= v < 2 ^ (JS_LIMB_BITS - 1)
  | KNumber (JS_TAG_BIG_INT p) => bi_norm p
  | KString s => rope_ok s
  | _ => True
  end.

(** Neither zero as a float64. *)
Definition canonical_key (k : map_value) : Prop :=
  valid_value k /\ match k with KNumber (JS_TAG_FLOAT64 d) => float64_eq d 0 = false | _ => True end.

Lemma normalize_key_canonical k : valid_value k -> canonical_key (normalize_key k).
Proof.
  intros H. destruct k as [[v|v| | |d|v|p]|s|p|p].
  5: { unfold normalize_key. destruct (float64_eq d 0) eqn:E; [split; [|exact I]|split; [exact H|exact E]].
    change (- 2 ^ 31 <= swrap 32 0 < 2 ^ 31). rewrite swrap_small; lia. }
  all: split; [exact H|exact I].
Qed.

Lemma normalize_key_id k : canonical_key k -> normalize_key k = k.
Proof. intros [_ H]. destruct k as [[v|v| | |d|v|p]|s|p|p].
  5: { unfold normalize_key. rewrite H. reflexivity. }
  all: reflexivity. Qed.

Lemma scaled_inj m1 e1 m2 e2 : 0 <= m1 < 2 ^ 52 -> 0 <= m2 < 2 ^ 52 -> 0 <= e1 -> 0 <= e2 ->
  (if e1 =? 0 then m1 else (m1 + 2 ^ 52) * 2 ^ (e1 - 1)) = (if e2 =? 0 then m2 else (m2 + 2 ^ 52) * 2 ^ (e2 - 1)) -> m1 = m2 /\ e1 = e2.
Proof.
  intros Hm1 Hm2 He1 He2. assert (Hbig : forall m e, 0 <= m -> 0 < e -> 2 ^ 52 <= (m + 2 ^ 52) * 2 ^ (e - 1)) by (intros m e Hm He; pose proof (scale_pos (e - 1) ltac:(lia)); nia).
  assert (Hlt : forall m m' e e', 0 <= m < 2 ^ 52 -> 0 <= m' < 2 ^ 52 -> 0 < e < e' -> (m + 2 ^ 52) * 2 ^ (e - 1) < (m' + 2 ^ 52) * 2 ^ (e' - 1)).
  { intros m m' e e' Hm Hm' He. replace (e' - 1) with (Z.succ (e - 1) + (e' - e - 1)) by lia. rewrite Z.pow_add_r, Z.pow_succ_r by lia. pose proof (scale_pos (e - 1) ltac:(lia)). pose proof (scale_pos (e' - e - 1) ltac:(lia)).
    set (p := 2 ^ (e - 1)) in *. set (q := 2 ^ (e' - e - 1)) in *. assert ((m + 2 ^ 52) * p < 2 ^ 53 * p) by nia. assert (2 ^ 53 * p <= 2 ^ 53 * p * q) by nia. nia. }
  destruct (Z.eqb_spec e1 0) as [->|N1], (Z.eqb_spec e2 0) as [->|N2]; intros E.
  - auto.
  - specialize (Hbig m2 e2 ltac:(lia) ltac:(lia)). lia.
  - specialize (Hbig m1 e1 ltac:(lia) ltac:(lia)). lia.
  - destruct (Z.lt_trichotomy e1 e2) as [H|[->|H]].
    + specialize (Hlt m1 m2 e1 e2 Hm1 Hm2 ltac:(lia)). lia.
    + split; [|reflexivity]. pose proof (scale_pos (e2 - 1) ltac:(lia)). apply Z.mul_cancel_r in E; lia.
    + specialize (Hlt m2 m1 e2 e1 Hm2 Hm1 ltac:(lia)). lia.
Qed.

Lemma float64_pattern d : 0 <= d < 2 ^ 64 -> d = float64_sign d * 2 ^ 63 + float64_exp d * 2 ^ 52 + float64_mant d.
Proof.
  intros Hd. unfold float64_sign, float64_exp, float64_mant. rewrite !land_mask, !Z.shiftr_div_pow2 by lia.
  pose proof (Z.div_mod d (2 ^ 52) ltac:(lia)) as E. pose proof (Z.div_mod (d / 2 ^ 52) (2 ^ 11) ltac:(lia)) as E2. rewrite Z.div_div in E2 by lia. change (2 ^ 52 * 2 ^ 11) with (2 ^ 63) in E2. lia.
Qed.

(** Two numbers that are equal, and not zero with a sign, have the same pattern. *)
Lemma float64_eq_inj d1 d2 : 0 <= d1 < 2 ^ 64 -> 0 <= d2 < 2 ^ 64 -> (float64_scaled d1 = 0 -> d1 = 0) -> (float64_scaled d2 = 0 -> d2 = 0) -> float64_scaled d1 = float64_scaled d2 -> d1 = d2.
Proof.
  intros H1 H2 Z1 Z2 E. destruct (float64_fields d1 H1) as (S1 & E1 & M1), (float64_fields d2 H2) as (S2 & E2 & M2). pose proof (scaled_abs_nonneg d1 H1). pose proof (scaled_abs_nonneg d2 H2).
  destruct (Z.eq_dec (float64_scaled d1) 0) as [Hz|Hz]; [rewrite Z1, Z2 by congruence; reflexivity|].
  assert (float64_sign d1 = float64_sign d2 /\ float64_scaled_abs d1 = float64_scaled_abs d2) as [Es Ea].
  { unfold float64_scaled, signed in *. destruct S1 as [S1|S1], S2 as [S2|S2]; rewrite S1, S2 in *; cbn [Z.eqb] in *; lia. }
  unfold float64_scaled_abs in Ea. destruct (scaled_inj _ _ _ _ M1 M2 (proj1 E1) (proj1 E2) Ea) as [Em Ee].
  rewrite (float64_pattern d1 H1), (float64_pattern d2 H2), Es, Ee, Em. reflexivity.
Qed.

(** The pattern of a number that is a key. *)
Definition good_number (d : Z) : Prop := 0 <= d < 2 ^ 64 /\ (float64_scaled d = 0 -> d = 0).

Lemma int_good v : - 2 ^ 31 <= v < 2 ^ 31 -> good_number (float64_round v) /\ isnan (float64_round v) = false.
Proof.
  intros Hv. destruct (float64_round_exact v) as (Hr & Hf & Hs); [lia|]. split; [split; [exact Hr|]|].
  - rewrite Hs. intros E. assert (v = 0) as -> by lia. reflexivity.
  - unfold isfinite in Hf. unfold isnan. destruct (float64_exp (float64_round v) =? 2047); [discriminate|reflexivity].
Qed.

Lemma number_test_repr d1 d2 : good_number d1 -> good_number d2 ->
  number_test d1 d2 = bool_decide ((if isnan d1 then JS_FLOAT64_NAN else d1) = (if isnan d2 then JS_FLOAT64_NAN else d2)).
Proof.
  intros [R1 Z1] [R2 Z2]. unfold number_test. assert (Hnan : forall d, isnan d = false -> d <> JS_FLOAT64_NAN) by (intros d Hd ->; vm_compute in Hd; discriminate).
  destruct (isnan d1) eqn:N1, (isnan d2) eqn:N2; cbn [orb eqb].
  - rewrite bool_decide_true; reflexivity.
  - rewrite bool_decide_false; [reflexivity|]. intros E. apply (Hnan d2 N2). auto.
  - rewrite bool_decide_false; [reflexivity|]. apply Hnan, N1.
  - unfold float64_eq. destruct (Z.eqb_spec (float64_scaled d1) (float64_scaled d2)) as [E|E]; [rewrite bool_decide_true; [reflexivity|apply float64_eq_inj; assumption]|rewrite bool_decide_false; [reflexivity|congruence]].
Qed.

#[local] Instance key_repr_eq_dec : EqDecision key_repr.
Proof. intros a b. unfold Decision. assert (EqDecision JSBigInt) by (intros [x] [y]; destruct (decide (x = y)); [left|right]; congruence). solve_decision. Defined.

Lemma bigint_key_repr p1 p2 : bi_norm p1 -> bi_norm p2 -> (js_bigint_cmp p1 p2 =? 0) = true <-> p1 = p2.
Proof.
  intros H1 H2. rewrite js_bigint_cmp_spec by assumption. rewrite Z.eqb_eq. split; [intros E; apply norm_unique; [assumption|assumption|lia]|intros ->; rewrite Z.sub_diag; reflexivity].
Qed.

Lemma string_key_repr s1 s2 : rope_ok s1 -> rope_ok s2 -> same_value_zero (KString s1) (KString s2) = true <-> rope_units s1 = rope_units s2.
Proof.
  intros H1 H2. assert (Hc : (run_pure 1 (js_string_rope_compare s1 s2 true) =? 0) = true <-> rope_units s1 = rope_units s2).
  { destruct (rope_compare_spec s1 s2 true H1 H2) as (r & -> & Hr & _). unfold run_pure. cbn. rewrite Z.eqb_eq. exact Hr. }
  destruct s1 as [p1|l1 w1 d1 a1 b1], s2 as [p2|l2 w2 d2 a2 b2]; try exact Hc. cbn [same_value_zero rope_units]. rewrite string_eq_spec. unfold run_pure. cbn. apply bool_decide_eq_true.
Qed.

Lemma short_norm v : - 2 ^ (JS_LIMB_BITS - 1) <= v < 2 ^ (JS_LIMB_BITS - 1) -> bi_norm (js_bigint_set_short v).
Proof. intros H. apply js_bigint_set_si_spec, H. Qed.

Lemma float_good d : 0 <= d < 2 ^ 64 -> float64_eq d 0 = false -> good_number d.
Proof. intros Hd Hz. split; [exact Hd|]. intros E. unfold float64_eq in Hz. rewrite E in Hz. discriminate. Qed.

(** The comparison is the equality of what the keys stand for. *)
Lemma same_repr a b : canonical_key a -> canonical_key b -> same_value_zero a b = true <-> repr a = repr b.
Proof.
  intros [Va Ca] [Vb Cb].
  assert (Hn : forall d1 d2 x y, good_number d1 -> good_number d2 -> x = (if isnan d1 then JS_FLOAT64_NAN else d1) -> y = (if isnan d2 then JS_FLOAT64_NAN else d2) -> number_test d1 d2 = true <-> ReprNumber x = ReprNumber y).
  { intros d1 d2 x y H1 H2 -> ->. rewrite number_test_repr by assumption. rewrite bool_decide_eq_true. split; congruence. }
  assert (Hb : forall p1 p2, bi_norm p1 -> bi_norm p2 -> (js_bigint_cmp p1 p2 =? 0) = true <-> ReprBigInt p1 = ReprBigInt p2) by (intros p1 p2 H1 H2; rewrite bigint_key_repr by assumption; split; congruence).
  destruct a as [va|sa|pa|pa], b as [vb|sb|pb|pb]; try (destruct va); try (destruct vb); cbn [repr]; try (split; [discriminate|discriminate]); try (split; [destruct sa; discriminate|discriminate]); try (split; reflexivity);
    try (cbn [same_value_zero]; rewrite Z.eqb_eq; split; congruence).
  - cbn. destruct (int_good _ Va) as [G1 N1], (int_good _ Vb) as [G2 N2]. apply Hn; rewrite ?N1, ?N2; auto.
  - cbn. destruct (int_good _ Va) as [G1 N1]. apply Hn; rewrite ?N1; auto using float_good.
  - cbn. destruct (int_good _ Vb) as [G2 N2]. apply Hn; rewrite ?N2; auto using float_good.
  - cbn. apply Hn; auto using float_good.
  - cbn. apply Hb; auto using short_norm.
  - cbn. apply Hb; auto using short_norm.
  - cbn. apply Hb; auto using short_norm.
  - cbn. apply Hb; auto using short_norm.
  - rewrite string_key_repr by assumption. split; congruence.
Qed.

Definition hash_repr (r : key_repr) (n : Z) : Z :=
  match r with
  | ReprNull | ReprUndefined => 0
  | ReprBool b => map_hash32 (Z.lxor b TAG_BOOL) n
  | ReprNumber d => hash_float64 d n
  | ReprBigInt p => hash_bigint p n
  | ReprString u => map_hash32 (Z.lxor (hash_units u 0) TAG_STRING) n
  | ReprSymbol p => map_hash_pointer (Z.lxor p TAG_SYMBOL) n
  | ReprObject p => map_hash_pointer (Z.lxor p TAG_OBJECT) n
  end.

Lemma hash_rope_units s h : hash_string_rope s h = hash_units (rope_units s) h.
Proof. revert h. induction s as [p|l w d a IHa b IHb]; intros h; cbn; [reflexivity|]. rewrite IHa, IHb. unfold hash_units. rewrite fold_left_app. reflexivity. Qed.

(** The hash depends on nothing else. *)
Lemma hash_key_repr k n : hash_key k n = hash_repr (repr k) n.
Proof. destruct k as [[]|[]| |]; try reflexivity. cbn [hash_key repr hash_repr]. rewrite hash_rope_units. reflexivity. Qed.

Lemma hash_key_range k n : 1 <= n <= 31 -> 0 <= hash_key k n < 2 ^ n.
Proof.
  intros Hn. assert (H32 : forall a, 0 <= map_hash32 a n < 2 ^ n).
  { intros a. unfold map_hash32. pose proof (shiftr_range (32 - n) 32 (wrap 32 (a * HASH_MUL32)) ltac:(lia) (wrap_range 32 _ ltac:(lia))) as H. replace (32 - (32 - n)) with n in H by lia. exact H. }
  assert (H64 : forall a, 0 <= map_hash64 a n < 2 ^ n).
  { intros a. unfold map_hash64. pose proof (shiftr_range (64 - n) 64 (wrap 64 (a * HASH_MUL64)) ltac:(lia) (wrap_range 64 _ ltac:(lia))) as H. replace (64 - (64 - n)) with n in H by lia. exact H. }
  assert (Hp : forall a, 0 <= map_hash_pointer a n < 2 ^ n) by (intros a; unfold map_hash_pointer; destruct JS_PTR64; auto).
  rewrite hash_key_repr. pose proof (scale_pos n ltac:(lia)). destruct (repr k); cbn [hash_repr]; unfold hash_float64, hash_bigint; auto; lia.
Qed.

#[export] Instance engine_key_laws : MapKeyLaws := {|
  valid_key := valid_value;
  canonical := canonical_key;
  normalize_canonical := normalize_key_canonical;
  canonical_valid := fun k H => proj1 H;
  normalize_id := normalize_key_id;
  same_refl := fun a Ha => proj2 (same_repr a a Ha Ha) eq_refl;
  same_sym := fun a b Ha Hb H => proj2 (same_repr b a Hb Ha) (eq_sym (proj1 (same_repr a b Ha Hb) H));
  same_trans := fun a b c Ha Hb Hc H1 H2 => proj2 (same_repr a c Ha Hc) (eq_trans (proj1 (same_repr a b Ha Hb) H1) (proj1 (same_repr b c Hb Hc) H2));
  same_hash := fun a b n Ha Hb Hn H => eq_trans (hash_key_repr a n) (eq_trans (f_equal (fun r => hash_repr r n) (proj1 (same_repr a b Ha Hb) H)) (eq_sym (hash_key_repr b n)));
  hash_range := fun a n Ha Hn => hash_key_range a n Hn
|}.

End Keys.
