(* ===== verification/MapTheorems.v ===== *)
(** Map and Set objects: theorems.

    A program is any sequence of the steps of [map_event]: the methods of the map,
    iterators that advance or go away, and [forEach] calls that start and return, in
    any order.  [tame]: in [clear], and when the function of a [forEach] returns, the
    values that are freed do not hold the last reference to an iterator that stands
    on a deleted entry. *)
From Stdlib Require Import ZArith Lia Sorting.Sorted.
From S2P Require Import Prelude Limbs Numbers Maps MapSpecs MapOps MapSteps MapKeys.
From stdpp Require Import base tactics numbers gmap list.

Open Scope Z_scope.

Section Programs.
Context `{ML : MapKeyLaws}.

Definition valid_event (e : map_event) : Prop :=
  match e with
  | EvSet k _ _ _ | EvGet k | EvHas k | EvDelete k | EvGetOrInsert k _ _ _ | EvComputedCall k | EvComputedReturn k _ _ _ => valid_key k
  | _ => True
  end.

Definition tame_iterator (a : mapdata) (i : nat) : bool :=
  match d_cursors a !! i with
  | Some (Some (_, Some (S y))) => match d_entries a !! y with Some (Some _) => true | _ => false end
  | _ => true
  end.

Definition tame (released : value -> list nat) (a : mapdata) (e : map_event) : bool :=
  match e with
  | EvClear => forallb (tame_iterator a) (concat (entry_releases released <$> d_entries a))
  | EvForEachReturn _ (Some v) => forallb (tame_iterator a) (released v)
  | _ => true
  end.

Fixpoint tame_run (a : mapdata) (es : list ((value -> list nat) * map_event)) : bool :=
  match es with [] => true | (rel, e) :: es => tame rel a e && tame_run (spec_step rel a e).2 es end.

Definition new_data (set : bool) : mapdata := MkData set [] [] [].

Lemma tame_stands w l i y : forallb (tame_iterator (abs w)) l = true -> i ∈ l -> stands_on w i y -> is_Some (core (heap (map_state w)) y).
Proof.
  intros Ht Hi (it & Hit & Ho & Hc). rewrite forallb_forall in Ht. specialize (Ht i (proj1 (list_elem_of_In _ _) Hi)). unfold tame_iterator in Ht. cbn [abs d_cursors] in Ht. rewrite list_lookup_fmap, Hit in Ht.
  unfold cursor_of in Ht. cbn in Ht. rewrite Ho, Hc in Ht. rewrite entries_lookup in Ht. destruct (decide _); [|discriminate]. destruct (core (heap (map_state w)) y); [eauto|discriminate].
Qed.

(** Every step of the implementation is the step of the abstract map. *)
Lemma step_refines rel w e : wf w -> valid_event e -> tame rel (abs w) e = true -> realizes (map_step rel w e) (spec_step rel (abs w) e).
Proof.
  intros Hw Hv Ht. destruct e; cbn [map_step valid_event] in *.
  - apply set_step, Hv. exact Hw.
  - apply get_step, Hv. exact Hw.
  - apply has_step, Hv. exact Hw.
  - unfold js_map_delete. cbn [spec_step]. destruct (delete_step rel w k Hw Hv) as (b & w' & -> & Hw' & -> & _). cbn [mbind option_bind]. exists (RBool b), w'. auto.
  - apply clear_step; [exact Hw|]. intros i y Hi _ Ho. eapply tame_stands; [exact Ht|exact Hi|exact Ho].
  - apply size_step. exact Hw.
  - apply value_step; [exact Hw|apply normalize_canonical, Hv|]. intros Hf. apply insert_new_step; [exact Hw|apply normalize_canonical, Hv|exact Hf].
  - apply value_step; [exact Hw|apply normalize_canonical, Hv|]. intros _. exists (RCallKey (map_normalize_key k)), w. auto.
  - unfold getOrInsertComputed_return. pose proof (normalize_canonical k Hv) as Hk. destruct (delete_step rel w (map_normalize_key k) Hw (canonical_valid _ Hk)) as (b & w' & -> & Hw' & Hs & Hf). rewrite (normalize_id _ Hk) in *. cbn [mbind option_bind spec_step]. rewrite Hs. apply insert_new_step; assumption.
  - apply create_step. exact Hw.
  - apply next_step. exact Hw.
  - cbn [spec_step]. destruct (finalize_step w [i] Hw) as (w' & E & Hw' & Ea & _). cbn [finalize] in E. destruct (js_map_iterator_finalizer w i) as [w1|]; [|discriminate]. cbn [mbind option_bind] in *. injection E as ->. rewrite <- Ea. exists RUndefined, w'. auto.
  - apply forEach_step. exact Hw.
  - apply return_step; [exact Hw|]. intros v i y -> Hi Ho. eapply tame_stands; [exact Ht|exact Hi|exact Ho].
Qed.

Lemma new_wf set : wf (new_world set).
Proof.
  split; [split; cbn|split; [|split; [reflexivity|split; cbn]]].
  - constructor.
  - intros r Hr. inversion Hr.
  - intros r. rewrite lookup_empty. split; [intros Hr; inversion Hr|intros [? ?]; discriminate].
  - intros r mr. rewrite lookup_empty. discriminate.
  - intros r. unfold holders, nothing. cbn. lia.
  - apply (chains_empty _ 1); [lia|]. intros x [e Hx]. discriminate.
  - intros r k v n. unfold core. rewrite lookup_empty. discriminate.
  - intros r1 r2 k1 v1 n1 k2 v2 n2. unfold core. rewrite lookup_empty. discriminate.
  - reflexivity.
  - intros r. unfold core. rewrite lookup_empty. intros [? ?]. discriminate.
Qed.

Lemma run_refines es : forall w, wf w -> Forall (fun e => valid_event e.2) es -> tame_run (abs w) es = true ->
  exists w', map_run w es = Some ((spec_run (abs w) es).1, w') /\ wf w' /\ abs w' = (spec_run (abs w) es).2.
Proof.
  induction es as [|[rel e] es IH]; intros w Hw Hv Ht; cbn [map_run spec_run tame_run] in *.
  - exists w. auto.
  - apply Forall_cons in Hv as [Hv1 Hv2]. cbn in Hv1. apply andb_prop in Ht as [Ht1 Ht2]. destruct (step_refines rel w e Hw Hv1 Ht1) as (r & w1 & -> & Hw1 & Es). rewrite Es in Ht2 |- *. cbn [mbind option_bind fst snd] in *.
    destruct (IH w1 Hw1 Hv2 Ht2) as (w' & -> & Hw' & Ea). cbn [mbind option_bind fst snd]. destruct (spec_run (abs w1) es) as [rs a']. exists w'. auto.
Qed.

(** ** Memory *)

Lemma one_sum l y : NoDup l -> (sum_list_with (fun r => one y r) l <= 1)%nat.
Proof.
  induction 1 as [|x l Hx Hl IH]; cbn; [lia|]. unfold one at 1. destruct (decide (x = y)) as [->|Hne]; [|lia].
  enough (sum_list_with (fun r => one y r) l = 0)%nat by lia. clear IH Hl. induction l as [|z l IH]; [reflexivity|]. cbn. rewrite one_ne by (intros ->; apply Hx; left). apply IH. intros Hy. apply Hx. right. exact Hy.
Qed.

Lemma holders_sum {A} (holds : rid -> A -> nat) (os : list A) l : (forall o, (sum_list_with (fun r => holds r o) l <= 1)%nat) -> (sum_list_with (fun r => sum_list_with (holds r) os) l <= length os)%nat.
Proof.
  intros H. induction os as [|o os IH]; cbn [sum_list_with length].
  - assert (sum_list_with (fun _ : rid => 0%nat) l = 0%nat) as ->; [|lia]. clear. induction l as [|x l IH]; [reflexivity|]. cbn. exact IH.
  - specialize (H o). assert (sum_list_with (fun r => (holds r o + sum_list_with (holds r) os)%nat) l = (sum_list_with (fun r => holds r o) l + sum_list_with (fun r => sum_list_with (holds r) os) l)%nat) as ->; [|lia].
    clear. induction l as [|x l IH]; [reflexivity|]. cbn. lia.
Qed.

Lemma sum_le {A} (f g : A -> nat) l : (forall x, x ∈ l -> (f x <= g x)%nat) -> (sum_list_with f l <= sum_list_with g l)%nat.
Proof. induction l as [|x l IH]; intros H; cbn; [lia|]. pose proof (H x ltac:(left)). specialize (IH (fun y Hy => H y ltac:(right; exact Hy))). lia. Qed.

Lemma sum_plus {A} (f g : A -> nat) l : sum_list_with (fun x => (f x + g x)%nat) l = (sum_list_with f l + sum_list_with g l)%nat.
Proof. induction l as [|x l IH]; cbn; lia. Qed.

(** The records that are allocated are the entries and those that something stands on. *)
Lemma records_bounded w : wf w -> (length (records (map_state w)) <= live_count (d_entries (abs w)) + length (iterators w) + length (frames w))%nat.
Proof.
  intros [Hr (_ & _ & Hd)]. set (s := map_state w) in *. pose proof (increasing_NoDup _ (ro_sorted _ _ Hr)) as Hn.
  set (lv := fun r => if core (heap s) r is Some _ then 1%nat else 0%nat).
  assert (H1 : (length (records s) <= sum_list_with (fun r => (lv r + holders w r)%nat) (records s))%nat).
  { transitivity (sum_list_with (fun _ => 1%nat) (records s)); [clear; induction (records s) as [|x l IH]; cbn; lia|]. apply sum_le. intros r Hx. apply (ro_dom _ _ Hr) in Hx as [mr Hm]. destruct (ro_count _ _ Hr r mr Hm) as [_ Hp].
    unfold lv, core. rewrite Hm. unfold alive, nothing in Hp. destruct (mr_empty mr); lia. }
  assert (H2 : (sum_list_with lv (records s) <= live_count (entries_of s))%nat).
  { unfold live_count, entries_of. generalize (ro_range _ _ Hr) Hn. generalize (records s) (next_rid s). clear. intros l n Hlt Hn.
    assert (H : forall m k, NoDup k -> (forall x, x ∈ k -> (x < m)%nat) -> (sum_list_with lv k <= sum_list_with (fun o : option (value * value) => if o is Some _ then 1%nat else 0%nat) ((fun r => fst <$> core (heap s) r) <$> seq 0 m))%nat); [|apply H; assumption].
    clear. induction m as [|m IH]; intros k Hn Hk.
    - destruct k as [|x k]; [cbn; lia|]. specialize (Hk x ltac:(left)). lia.
    - rewrite seq_S, fmap_app, sum_app. cbn [Nat.add fmap list_fmap sum_list_with]. specialize (IH (filter (fun x => x <> m) k) (NoDup_filter _ _ Hn)).
      assert (Hle : (sum_list_with lv k <= sum_list_with lv (filter (fun x => x <> m) k) + lv m)%nat).
      { clear - Hn. induction k as [|x k IH]; [cbn; lia|]. apply NoDup_cons in Hn as [Hx Hn]. rewrite filter_cons. destruct (decide (x <> m)) as [Hne|He]; cbn [sum_list_with]; [specialize (IH Hn); lia|].
        assert (x = m) as -> by (destruct (decide (x = m)); tauto). rewrite filter_same by exact Hx. lia. }
      assert ((if fst <$> core (heap s) m is Some _ then 1 else 0) = lv m)%nat as Hlv by (unfold lv; destruct (core (heap s) m) as [[? ?]|]; reflexivity).
      rewrite Hlv. assert (forall x, x ∈ filter (fun x => x <> m) k -> (x < m)%nat) as Hf; [|specialize (IH Hf); lia]. intros x Hx. apply list_elem_of_filter in Hx as [Hx1 Hx2]. specialize (Hk x Hx2). lia. }
  rewrite sum_plus in H1. unfold holders in H1. rewrite sum_plus in H1.
  assert (Hz : forall l : list rid, (sum_list_with (fun _ => 0%nat) l <= 1)%nat) by (induction l; cbn; lia).
  pose proof (holders_sum holds_it (iterators w) (records s)) as H3. pose proof (holders_sum holds_fr (frames w) (records s)) as H4. cbn [abs d_entries]. fold s.
  assert (H3' : forall o, (sum_list_with (fun r => holds_it r o) (records s) <= 1)%nat).
  { intros [it|]; [|apply Hz]. cbn. destruct (it_obj it); [|apply Hz]. destruct (cur_record it); [apply one_sum, Hn|apply Hz]. }
  assert (H4' : forall o, (sum_list_with (fun r => holds_fr r o) (records s) <= 1)%nat) by (intros [fr|]; [apply one_sum, Hn|apply Hz]).
  specialize (H3 H3'). specialize (H4 H4'). lia.
Qed.

(** ** Iteration *)

Lemma first_entry_spec l : match first_entry l with
  | None => forall i e, l !! i <> Some (Some e)
  | Some (j, k, v) => l !! j = Some (Some (k, v)) /\ forall i e, (i < j)%nat -> l !! i <> Some (Some e)
  end.
Proof.
  induction l as [|[[k v]|] l IH]; cbn.
  - intros i e. rewrite lookup_nil. discriminate.
  - split; [reflexivity|]. intros i e Hi. lia.
  - destruct (first_entry l) as [[[j k] v]|]; cbn; [destruct IH as [IH1 IH2]; split; [exact IH1|]|]; intros [|i] e; try discriminate; cbn; [intros Hi; apply IH2; lia|apply IH].
Qed.

Lemma next_entry_spec n l : match next_entry n l with
  | None => forall i e, (n <= i)%nat -> l !! i <> Some (Some e)
  | Some (j, k, v) => (n <= j)%nat /\ l !! j = Some (Some (k, v)) /\ forall i e, (n <= i < j)%nat -> l !! i <> Some (Some e)
  end.
Proof.
  unfold next_entry. pose proof (first_entry_spec (drop n l)) as H. destruct (first_entry (drop n l)) as [[[j k] v]|]; cbn.
  - destruct H as [H1 H2]. rewrite lookup_drop in H1. split; [lia|]. split; [exact H1|]. intros i e Hi. specialize (H2 (i - n)%nat e ltac:(lia)). rewrite lookup_drop in H2. replace (n + (i - n))%nat with i in H2 by lia. exact H2.
  - intros i e Hi. specialize (H (i - n)%nat e). rewrite lookup_drop in H. replace (n + (i - n))%nat with i in H by lia. exact H.
Qed.

Lemma drop_iters_lookup {A} l (cs : list (option A)) i c : cs !! i = Some c -> drop_iters l cs !! i = Some c \/ drop_iters l cs !! i = Some None.
Proof.
  revert cs c. induction l as [|j l IH]; intros cs c H; [auto|]. change (drop_iters (j :: l) cs) with (drop_iters l (<[j := None]> cs)). destruct (decide (j = i)) as [->|Hne].
  - right. destruct (IH (<[i := None]> cs) None); [apply list_lookup_insert_eq; eapply lookup_lt_Some; exact H|assumption|assumption].
  - apply IH. rewrite list_lookup_insert_ne by exact Hne. exact H.
Qed.

Lemma continue_cursors a n : d_cursors (spec_continue a n).2 = d_cursors a.
Proof. unfold spec_continue. destruct (next_entry n (d_entries a)) as [[[j k] v]|]; reflexivity. Qed.

Definition spared (c : option (JSIteratorKindEnum * option nat)) (o : option (option (JSIteratorKindEnum * option nat))) : Prop := o = Some c \/ o = Some None.

Lemma spared_drop l cs i c : spared c (cs !! i) -> spared c (drop_iters l cs !! i).
Proof. intros [H|H]; destruct (drop_iters_lookup l _ _ _ H); unfold spared; auto. Qed.

Lemma delete_spared rel a k i c : spared c (d_cursors a !! i) -> spared c (d_cursors (spec_delete rel a k).2 !! i).
Proof.
  intros H. unfold spec_delete. destruct (find_key k (d_entries a)) as [j|]; [|exact H]. destruct (d_entries a !! j) as [[[k' v']|]|]; [|exact H|exact H]. apply spared_drop. exact H.
Qed.

Lemma insert_spared rel mok a k v i c : spared c (d_cursors a !! i) -> spared c (d_cursors (spec_insert rel mok a k v).2 !! i).
Proof. intros H. unfold spec_insert. destruct mok; [exact H|]. apply spared_drop. exact H. Qed.

Lemma value_spared a k m i c : spared c (d_cursors a !! i) -> spared c (d_cursors m.2 !! i) -> spared c (d_cursors (spec_value a k m).2 !! i).
Proof. intros H Hm. unfold spec_value. destruct (find_key k (d_entries a)) as [j|]; [|exact Hm]. destruct (d_entries a !! j) as [[[k' v']|]|]; assumption. Qed.

(** A step other than [next] of an iterator leaves it alone or removes it. *)
Lemma cursor_other rel a e i c : d_cursors a !! i = Some c -> e <> EvNext i -> spared c (d_cursors (spec_step rel a e).2 !! i).
Proof.
  intros Hc He. assert (Hs : spared c (d_cursors a !! i)) by (left; exact Hc). destruct e; cbn [spec_step snd]; auto using value_spared, insert_spared, delete_spared.
  - unfold spec_set. destruct (find_key _ _) as [j|]; [|destruct malloc_ok; exact Hs]. destruct (d_entries a !! j) as [[[k' v']|]|]; [apply spared_drop|..]; exact Hs.
  - pose proof (delete_spared rel a (map_normalize_key k) i c Hs) as H. destruct (spec_delete rel a (map_normalize_key k)). exact H.
  - apply spared_drop. exact Hs.
  - destruct alloc_ok; [|exact Hs]. left. cbn. rewrite lookup_app_l; [exact Hc|]. eapply lookup_lt_Some. exact Hc.
  - left. unfold spec_next. destruct (d_cursors a !! i0) as [[[kind [n|]]|]|] eqn:Hi; try exact Hc. destruct (next_entry n (d_entries a)) as [[[j k] v]|]; cbn; rewrite list_lookup_insert_ne by congruence; exact Hc.
  - apply (spared_drop [i0]). exact Hs.
  - destruct callable; [rewrite continue_cursors|]; exact Hs.
  - unfold spec_return. destruct (d_calls a !! f) as [[[[j k] v]|]|]; [|exact Hs|exact Hs]. destruct ret as [r|]; cbn [snd]; [rewrite continue_cursors; apply spared_drop|]; apply spared_drop; exact Hs.
Qed.

Lemma is_next e i : e = EvNext i \/ e <> EvNext i.
Proof. destruct e; try (right; discriminate). destruct (decide (i0 = i)) as [->|Hne]; [left; reflexivity|right; congruence]. Qed.

(** The entry an iterator has just visited. *)
Definition visited (a : mapdata) (i : nat) : list nat := match d_cursors a !! i with Some (Some (_, Some (S y))) => [y] | _ => [] end.

Fixpoint spec_visits (i : nat) (a : mapdata) (es : list ((value -> list nat) * map_event)) : list nat :=
  match es with
  | [] => []
  | (rel, e) :: es => let a' := (spec_step rel a e).2 in (match e with EvNext j => if decide (j = i) then visited a' i else [] | _ => [] end) ++ spec_visits i a' es
  end.

Fixpoint spec_stays (r : nat) (a : mapdata) (es : list ((value -> list nat) * map_event)) : Prop :=
  match es with
  | [] => True
  | (rel, e) :: es => (exists x, d_entries a !! r = Some (Some x)) /\ spec_stays r (spec_step rel a e).2 es
  end.

Definition at_end (c : option (option (JSIteratorKindEnum * option nat))) : Prop := match c with Some (Some (_, None)) | Some None => True | _ => False end.

(** An iterator at the end, or that is gone, stays so and visits nothing. *)
Lemma end_step rel a e i : at_end (d_cursors a !! i) ->
  at_end (d_cursors (spec_step rel a e).2 !! i) /\ (d_cursors a !! i = Some None -> d_cursors (spec_step rel a e).2 !! i = Some None).
Proof.
  intros He. destruct (is_next e i) as [->|Hne].
  - assert (d_cursors (spec_step rel a (EvNext i)).2 = d_cursors a) as ->; [|auto]. cbn [spec_step]. unfold spec_next. destruct (d_cursors a !! i) as [[[kind [n|]]|]|]; reflexivity || destruct He.
  - destruct (d_cursors a !! i) as [c|] eqn:Hc; [|destruct He]. destruct (cursor_other rel a e i c Hc Hne) as [-> | ->]; auto. split; [exact I|auto].
Qed.

Lemma end_visited a i : at_end (d_cursors a !! i) -> visited a i = [].
Proof. unfold visited. destruct (d_cursors a !! i) as [[[kind [n|]]|]|]; intros []; reflexivity. Qed.

Lemma end_visits i es : forall a, at_end (d_cursors a !! i) ->
  spec_visits i a es = [] /\ (d_cursors a !! i = Some None -> d_cursors (spec_run a es).2 !! i = Some None).
Proof.
  induction es as [|[rel e] es IH]; intros a Hc; cbn [spec_visits spec_run]; [auto|]. destruct (end_step rel a e i Hc) as [H1 H2]. destruct (IH _ H1) as [H3 H4]. rewrite H3, app_nil_r. split.
  - destruct e; try reflexivity. destruct (decide (i0 = i)); [apply end_visited, H1|reflexivity].
  - intros H. specialize (H4 (H2 H)). destruct (spec_step rel a e) as [r a']. cbn [snd] in *. destruct (spec_run a' es). exact H4.
Qed.

Lemma spec_visits_spec i es : forall a kind n, d_cursors a !! i = Some (Some (kind, Some n)) ->
  increasing (spec_visits i a es) /\ (forall r, r ∈ spec_visits i a es -> (n <= r)%nat) /\
  (forall r kind', (n <= r)%nat -> spec_stays r a es -> d_cursors (spec_run a es).2 !! i = Some (Some (kind', None)) -> r ∈ spec_visits i a es).
Proof.
  induction es as [|[rel e] es IH]; intros a kind n Hc.
  - cbn. split; [constructor|]. split; [intros r Hr; inversion Hr|]. intros r kind' _ _ H. congruence.
  - assert (Hrun : (spec_run a ((rel, e) :: es)).2 = (spec_run (spec_step rel a e).2 es).2). { cbn [spec_run]. destruct (spec_step rel a e) as [x a']. cbn [snd]. destruct (spec_run a' es). reflexivity. }
    rewrite Hrun. cbn [spec_visits spec_stays]. destruct (is_next e i) as [->|Hne].
    + rewrite decide_True by reflexivity. unfold visited. cbn [spec_step]. unfold spec_next. rewrite Hc. pose proof (next_entry_spec n (d_entries a)) as Hn. pose proof (lookup_lt_Some _ _ _ Hc) as Hlt.
      destruct (next_entry n (d_entries a)) as [[[j k] v]|]; cbn [snd with_cursor d_cursors]; rewrite list_lookup_insert_eq by exact Hlt; cbn [app].
      * destruct Hn as (Hj1 & Hj2 & Hj3). match goal with |- context [spec_visits i ?x es] => set (a' := x) end. destruct (IH a' kind (S j)) as (H1 & H2 & H3); [apply list_lookup_insert_eq; exact Hlt|]. split; [|split].
        -- apply (increasing_app [j]). split; [repeat constructor|]. split; [exact H1|]. intros x y Hx Hy. apply list_elem_of_singleton in Hx as ->. specialize (H2 y Hy). lia.
        -- intros r Hr. apply elem_of_cons in Hr as [->|Hr]; [exact Hj1|]. specialize (H2 r Hr). lia.
        -- intros r kind' Hr [[x Hx] Hst] Hend. apply elem_of_cons. destruct (decide (r = j)) as [->|Hrj]; [auto|]. right. apply (H3 r kind'); [|exact Hst|exact Hend]. assert (~ (r < j)%nat); [|lia]. intros Hl. apply (Hj3 r x); [lia|exact Hx].
      * match goal with |- context [spec_visits i ?x es] => set (a' := x) end. destruct (end_visits i es a') as [-> _]; [cbn; rewrite list_lookup_insert_eq by exact Hlt; exact I|]. split; [constructor|]. split; [intros r Hr; inversion Hr|].
        intros r kind' Hr [[x Hx] _] _. exfalso. apply (Hn r x Hr Hx).
    + assert (match e with EvNext j => if decide (j = i) then visited (spec_step rel a e).2 i else [] | _ => [] end = []) as -> by (destruct e; try reflexivity; rewrite decide_False by congruence; reflexivity). cbn [app].
      destruct (cursor_other rel a e i _ Hc Hne) as [Hc'|Hc'].
      * destruct (IH _ kind n Hc') as (H1 & H2 & H3). split; [exact H1|]. split; [exact H2|]. intros r kind' Hr [_ Hst]. apply H3; assumption.
      * destruct (end_visits i es (spec_step rel a e).2) as [-> Hgone]; [rewrite Hc'; exact I|]. split; [constructor|]. split; [intros r Hr; inversion Hr|]. intros r kind' _ _ Hend. rewrite (Hgone Hc') in Hend. discriminate.
Qed.

(** The same for the records of the implementation. *)
Definition stopped_on (w : JSMapWorld) (i : nat) : list rid :=
  match iterators w !! i with Some (Some it) => if it_obj it then match cur_record it with Some r => [r] | None => [] end else [] | _ => [] end.

Fixpoint visits (i : nat) (w : JSMapWorld) (es : list ((value -> list nat) * map_event)) : list rid :=
  match es with
  | [] => []
  | (rel, e) :: es =>
      match map_step rel w e with
      | Some (_, w') => (match e with EvNext j => if decide (j = i) then stopped_on w' i else [] | _ => [] end) ++ visits i w' es
      | None => []
      end
  end.

Definition in_map (r : rid) (w : JSMapWorld) : bool := match heap (map_state w) !! r with Some mr => negb (mr_empty mr) | None => false end.

Fixpoint stays (r : rid) (w : JSMapWorld) (es : list ((value -> list nat) * map_event)) : bool :=
  match es with
  | [] => true
  | (rel, e) :: es => in_map r w && match map_step rel w e with Some (_, w') => stays r w' es | None => true end
  end.

Definition finished (w : JSMapWorld) (i : nat) : bool := match iterators w !! i with Some (Some it) => negb (it_obj it) | _ => false end.

Lemma visited_abs w i : visited (abs w) i = stopped_on w i.
Proof.
  unfold visited, stopped_on. cbn [abs d_cursors]. rewrite list_lookup_fmap. destruct (iterators w !! i) as [[it|]|]; cbn; [|reflexivity|reflexivity]. destruct (it_obj it); [|reflexivity]. destruct (cur_record it); reflexivity.
Qed.

Lemma visits_abs i es : forall w, wf w -> Forall (fun e => valid_event e.2) es -> tame_run (abs w) es = true -> spec_visits i (abs w) es = visits i w es.
Proof.
  induction es as [|[rel e] es IH]; intros w Hw Hv Ht; [reflexivity|]. cbn [spec_visits visits tame_run] in *. apply Forall_cons in Hv as [Hv1 Hv2]. apply andb_prop in Ht as [Ht1 Ht2].
  destruct (step_refines rel w e Hw Hv1 Ht1) as (r & w1 & -> & Hw1 & Es). rewrite Es in Ht2 |- *. cbn [snd] in *. rewrite visited_abs, (IH w1 Hw1 Hv2 Ht2). reflexivity.
Qed.

Lemma in_map_abs w r : wf w -> in_map r w = true -> exists x, d_entries (abs w) !! r = Some (Some x).
Proof.
  unfold in_map. intros Hw H. destruct (heap (map_state w) !! r) as [mr|] eqn:Hm; [|discriminate]. apply negb_true_iff in H as He. exists (key mr, mr_value mr). apply (entry_at w r _ _ (hash_next mr) Hw). apply core_some. eauto 8.
Qed.

Lemma stays_abs r es : forall w, wf w -> Forall (fun e => valid_event e.2) es -> tame_run (abs w) es = true -> stays r w es = true -> spec_stays r (abs w) es.
Proof.
  induction es as [|[rel e] es IH]; intros w Hw Hv Ht Hs; [exact I|]. cbn [spec_stays stays tame_run] in *. apply Forall_cons in Hv as [Hv1 Hv2]. apply andb_prop in Ht as [Ht1 Ht2]. apply andb_prop in Hs as [Hs1 Hs2].
  destruct (step_refines rel w e Hw Hv1 Ht1) as (x & w1 & E & Hw1 & Es). rewrite E in Hs2. rewrite Es in Ht2 |- *. cbn [snd] in *. split; [apply in_map_abs; assumption|]. apply IH; assumption.
Qed.

(** From where it stands, an iterator visits records in the order of the list, and
    every record that is in the map until it has finished. *)
Lemma iteration_spec w es i it rs w' :
  wf w -> Forall (fun e => valid_event e.2) es -> tame_run (abs w) es = true -> iterators w !! i = Some (Some it) -> it_obj it = true -> map_run w es = Some (rs, w') ->
  increasing (visits i w es) /\
  forall r, (match cur_record it with Some c => c < r | None => True end)%nat -> stays r w es = true -> finished w' i = true -> r ∈ visits i w es.
Proof.
  intros Hw Hv Ht Hi Ho Hrun. destruct (run_refines es w Hw Hv Ht) as (w1 & E & Hw1 & Ea). rewrite Hrun in E. injection E as -> <-.
  destruct (spec_visits_spec i es (abs w) (it_kind it) (match cur_record it with Some r => S r | None => 0%nat end)) as (H1 & H2 & H3); [cbn; rewrite list_lookup_fmap, Hi; cbn; unfold cursor_of; rewrite Ho; reflexivity|].
  rewrite (visits_abs i es w Hw Hv Ht) in *. split; [exact H1|]. unfold finished. intros r Hr Hs Hf. destruct (iterators w' !! i) as [[it'|]|] eqn:Hi'; [|discriminate|discriminate]. apply negb_true_iff in Hf as Ho'. apply (H3 r (it_kind it')); [destruct (cur_record it); lia|apply stays_abs; assumption|].
  rewrite <- Ea. cbn. rewrite list_lookup_fmap, Hi'. cbn. unfold cursor_of. rewrite Ho'. reflexivity.
Qed.

Lemma tame_app l k : forall a, tame_run a (l ++ k) = tame_run a l && tame_run (spec_run a l).2 k.
Proof.
  induction l as [|[rel e] l IH]; intros a; [reflexivity|]. cbn [app tame_run spec_run]. rewrite IH, <- andb_assoc. destruct (spec_step rel a e) as [r a']. cbn [snd]. destruct (spec_run a' l). reflexivity.
Qed.

(** ** Freed records *)

Lemma sum_zero_insert {A} (f : A -> nat) l i x y : l !! i = Some x -> f y = 0%nat -> (sum_list_with f (<[i := y]> l) + f x = sum_list_with f l)%nat.
Proof. intros H E. pose proof (sum_insert f l i x y H). lia. Qed.

(** An iterator that holds the only reference to a deleted record takes it away. *)
Lemma last_holder (w w' : JSMapWorld) i y : refs_ok (fun x => (holders w' x + nothing x)%nat) (map_state w') -> stands_on w i y -> holders w y = 1%nat -> frames w' = frames w ->
  (exists l, i ∈ l /\ iterators w' = drop_iters l (iterators w)) -> core (heap (map_state w')) y = None -> y ∉ records (map_state w').
Proof.
  intros Hr (it & Hi & Ho & Hc) Hh Ef (l & Hl & Ei) Hy Hin. apply (ro_dom _ _ Hr) in Hin as [mr Hm]. destruct (ro_count _ _ Hr y mr Hm) as [_ Hp]. unfold alive in Hp. rewrite (core_none _ _ _ Hm Hy) in Hp.
  assert (holders w' y = 0)%nat; [|unfold nothing in Hp; lia]. unfold holders in *. rewrite Ef, Ei. pose proof (sum_ge (holds_it y) _ i _ Hi) as Hge. cbn [holds_it] in Hge. rewrite Ho, Hc, one_eq in Hge.
  assert (H0 : forall l cs, i ∈ l -> (sum_list_with (holds_it y) (drop_iters l cs) + (match cs !! i with Some o => holds_it y o | None => 0 end) <= sum_list_with (holds_it y) cs)%nat).
  { clear. assert (Hle : forall l cs, (sum_list_with (holds_it y) (drop_iters l cs) <= sum_list_with (holds_it y) cs)%nat).
    { induction l as [|j l IH]; intros cs; [cbn; lia|]. change (drop_iters (j :: l) cs) with (drop_iters l (<[j := None]> cs)). specialize (IH (<[j := None]> cs)). destruct (cs !! j) as [o|] eqn:Hj; [pose proof (sum_zero_insert (holds_it y) _ j o None Hj eq_refl); lia|].
      rewrite (list_insert_ge cs) in * by (apply lookup_ge_None; exact Hj). lia. }
    induction l as [|j l IH]; intros cs Hl; [inversion Hl|]. change (drop_iters (j :: l) cs) with (drop_iters l (<[j := None]> cs)). destruct (decide (j = i)) as [->|Hne].
    - specialize (Hle l (<[i := None]> cs)). destruct (cs !! i) as [o|] eqn:Hi; [pose proof (sum_zero_insert (holds_it y) _ i o None Hi eq_refl); lia|]. rewrite (list_insert_ge cs) in * by (apply lookup_ge_None; exact Hi). lia.
    - apply elem_of_cons in Hl as [->|Hl]; [contradiction|]. specialize (IH (<[j := None]> cs) Hl). rewrite list_lookup_insert_ne in IH by exact Hne. destruct (cs !! j) as [o|] eqn:Hj; [pose proof (sum_zero_insert (holds_it y) _ j o None Hj eq_refl); lia|].
      rewrite (list_insert_ge cs) in * by (apply lookup_ge_None; exact Hj). lia. }
  specialize (H0 l (iterators w) Hl). rewrite Hi in H0. cbn [holds_it] in H0. rewrite Ho, Hc, one_eq in H0. lia.
Qed.

Lemma list_next_none r l : r ∉ l -> link_next r l = None.
Proof. induction l as [|x l IH]; intros H; cbn; [reflexivity|]. rewrite decide_False by (intros ->; apply H; left). apply IH. intros Hr. apply H. right. exact Hr. Qed.

(** [js_map_clear] goes on to a record that was freed with the value before it. *)
Lemma clear_freed rel w i r y k kr vr n :
  wf w -> records (map_state w) = r :: y :: k -> core (heap (map_state w)) r = Some (kr, vr, n) -> core (heap (map_state w)) y = None ->
  i ∈ rel kr ++ rel vr -> stands_on w i y -> holders w y = 1%nat -> js_map_clear rel w = None.
Proof.
  intros [Hr Ha] E Hcr Hcy Hi Ho Hh. unfold js_map_clear. rewrite E. cbn [length head]. set (w0 := with_map w _). cbn [clear_loop]. change (records (map_state w0)) with (records (map_state w)). rewrite E. cbn [link_next]. rewrite decide_True by reflexivity. cbn [mbind option_bind head].
  assert (Hr0 : refs_ok (fun x => (holders w0 x + nothing x)%nat) (map_state w0)) by (destruct Hr; split; assumption).
  destruct (delete_internal_spec rel nothing w0 r kr vr n Hr0 Hcr) as (w' & -> & Ei & Ef & Hr' & _ & _ & _ & Hx & _ & _). cbn [mbind option_bind].
  rewrite list_next_none; [reflexivity|]. apply (last_holder w w' i y); auto; [eauto|]. rewrite Hx; [exact Hcy|]. intros ->. congruence.
Qed.

End Programs.

(** ** Theorems *)

Section Theorems.
Context `{ML : MapKeyLaws}.

(** C3: every program that is [tame], of methods, iterators and [forEach] calls in any
    order and whatever the allocator answers, runs on the records without touching a
    freed one, and its results are those of the abstract map: a list of entries in
    the order of insertion, with iterators as positions in it.  The records that
    remain allocated are at most the entries and one for each iterator and call. *)
Theorem maps_refine_entries set es :
  Forall (fun e => valid_event e.2) es -> tame_run (new_data set) es = true ->
  exists w, map_run (new_world set) es = Some ((spec_run (new_data set) es).1, w) /\ abs w = (spec_run (new_data set) es).2 /\
    (length (records (map_state w)) <= live_count (d_entries (abs w)) + length (iterators w) + length (frames w))%nat.
Proof.
  intros Hv Ht. destruct (run_refines es (new_world set) (new_wf set) Hv Ht) as (w & E & Hw & Ea). exists w. split; [exact E|]. split; [exact Ea|]. apply records_bounded, Hw.
Qed.

(** C6: whatever is inserted and deleted while an iterator is in use, it visits records
    in the order of insertion, none twice, and every record after its position that
    stays in the map until it has finished. *)
Theorem map_iteration_complete set es0 es i it rs0 w rs w' :
  Forall (fun e => valid_event e.2) (es0 ++ es) -> tame_run (new_data set) (es0 ++ es) = true ->
  map_run (new_world set) es0 = Some (rs0, w) -> iterators w !! i = Some (Some it) -> it_obj it = true -> map_run w es = Some (rs, w') ->
  increasing (visits i w es) /\
  forall r, (match cur_record it with Some c => c < r | None => True end)%nat -> stays r w es = true -> finished w' i = true -> r ∈ visits i w es.
Proof.
  intros Hv Ht E0 Hi Ho E. apply Forall_app in Hv as [Hv0 Hv]. rewrite tame_app in Ht. apply andb_prop in Ht as [Ht0 Ht].
  destruct (run_refines es0 (new_world set) (new_wf set) Hv0 Ht0) as (w1 & E1 & Hw1 & Ea). rewrite E0 in E1. injection E1 as -> <-. change (abs (new_world set)) with (new_data set) in Ea. rewrite <- Ea in Ht. eapply iteration_spec; eassumption.
Qed.

(** When the first record of a map holds the last reference to an iterator that
    stands on the next record, and that record is deleted, [clear] reads the next
    record after it was freed. *)
Theorem map_clear_uses_freed_record set es rs w rel i r y k kr vr n :
  Forall (fun e => valid_event e.2) es -> tame_run (new_data set) es = true -> map_run (new_world set) es = Some (rs, w) ->
  records (map_state w) = r :: y :: k -> core (heap (map_state w)) r = Some (kr, vr, n) -> core (heap (map_state w)) y = None ->
  i ∈ rel kr ++ rel vr -> stands_on w i y -> holders w y = 1%nat -> js_map_clear rel w = None.
Proof.
  intros Hv Ht E. destruct (run_refines es (new_world set) (new_wf set) Hv Ht) as (w1 & E1 & Hw1 & Ea). rewrite E in E1. injection E1 as -> <-. intros. eapply clear_freed; eassumption.
Qed.

End Theorems.

(** C14: on the values of the engine, two keys are the same when they stand for the same
    value: NaN equals NaN, an integer equals the float64 of its value, the zeros are
    equal, a string equals a rope with its units, a short BigInt equals a BigInt; and
    then they have the same hash, which is an index of the table. *)
Theorem map_keys_by_value `{LC : LimbConfig} `{PC : PointerConfig} a b n :
  valid_value a -> valid_value b -> 1 <= n <= 31 ->
  let a := normalize_key a in let b := normalize_key b in
  (same_value_zero a b = true <-> repr a = repr b) /\ (same_value_zero a b = true -> hash_key a n = hash_key b n) /\ 0 <= hash_key a n < 2 ^ n.
Proof.
  intros Ha Hb Hn a' b'. pose proof (normalize_key_canonical a Ha) as Ca. pose proof (normalize_key_canonical b Hb) as Cb. split; [apply same_repr; assumption|]. split; [apply (same_hash (MapKeyLaws := engine_key_laws)); assumption|apply hash_key_range, Hn].
Qed.

(** ** Examples *)

Section Examples.
#[local] Existing Instance limb64.
#[local] Instance ptr64 : PointerConfig := {| JS_PTR64 := true |}.

Definition num (v : Z) : value := KNumber (JS_TAG_INT v).
Definition nothing_released (v : value) : list nat := [].
(** The object at the address 77 is the first iterator, with no other reference. *)
Definition iterator_released (v : value) : list nat := match (v : map_value) with KObject 77 => [0%nat] | _ => [] end.
Definition quietly (es : list map_event) : list ((value -> list nat) * map_event) := (fun e => (nothing_released, e)) <$> es.
Definition set_event (k v : Z) : map_event := EvSet (num k) (num v) true true.

Definition demo_start : list ((value -> list nat) * map_event) :=
  quietly [set_event 1 10; set_event 2 20; set_event 3 30; EvIterator JS_ITERATOR_KIND_KEY true].

(** The iterator moves, the entries 2 and 1 are deleted, 4 and 5 are added. *)
Definition demo_go : list ((value -> list nat) * map_event) :=
  quietly [EvNext 0; EvDelete (num 2); EvDelete (num 1); set_event 4 40; set_event 5 50; EvForEach true; EvNext 0; EvNext 0; EvForEachReturn 0 (Some (num 0)); EvNext 0; EvNext 0; EvSize].

Definition after (w : JSMapWorld) (es : list ((value -> list nat) * map_event)) : JSMapWorld := match map_run w es with Some (_, w) => w | None => w end.
Definition demo_world : JSMapWorld := after (new_world false) demo_start.
Definition demo_final : JSMapWorld := after demo_world demo_go.

Lemma run_some w es : (if map_run w es is Some _ then true else false) = true -> exists rs, map_run w es = Some (rs, after w es).
Proof. unfold after. destruct (map_run w es) as [[rs w']|]; [eauto|discriminate]. Qed.

Lemma demo_valid : Forall (fun e => valid_event e.2) (demo_start ++ demo_go).
Proof. repeat constructor; vm_compute; discriminate. Qed.

Lemma maps_refine_witness :
  exists w, map_run (new_world false) (demo_start ++ demo_go) = Some ((spec_run (new_data false) (demo_start ++ demo_go)).1, w) /\ abs w = (spec_run (new_data false) (demo_start ++ demo_go)).2 /\
    (length (records (map_state w)) <= live_count (d_entries (abs w)) + length (iterators w) + length (frames w))%nat.
Proof. apply (maps_refine_entries false (demo_start ++ demo_go)); [exact demo_valid|vm_compute; reflexivity]. Defined.

(** The iterator has visited the entries 1, 3, 4 and 5; the third record stays. *)
Lemma map_iteration_witness : visits 0 demo_world demo_go = [0; 2; 3; 4]%nat /\ increasing (visits 0 demo_world demo_go) /\ 2%nat ∈ visits 0 demo_world demo_go.
Proof.
  assert (Ht : tame_run (new_data false) (demo_start ++ demo_go) = true) by (vm_compute; reflexivity).
  destruct (run_some (new_world false) demo_start) as [rs0 E0]; [vm_compute; reflexivity|]. destruct (run_some demo_world demo_go) as [rs E]; [vm_compute; reflexivity|].
  pose proof (map_iteration_complete (ML := engine_key_laws) false demo_start demo_go 0 (MkIter true JS_ITERATOR_KIND_KEY None) rs0 demo_world rs demo_final demo_valid Ht E0 ltac:(vm_compute; reflexivity) eq_refl E) as H.
  split; [vm_compute; reflexivity|]. split; [exact (proj1 H)|]. apply (proj2 H 2%nat); [exact I|vm_compute; reflexivity|vm_compute; reflexivity].
Defined.

(** Two entries; the iterator stands on the second, which is deleted; the iterator is
    then stored in the first and has no other reference. *)
Definition demo_clear : list ((value -> list nat) * map_event) :=
  quietly [set_event 1 10; set_event 2 20; EvIterator JS_ITERATOR_KIND_KEY true; EvNext 0; EvNext 0; EvDelete (num 2); EvSet (num 1) (KObject 77) true true].
Definition demo_clear_world : JSMapWorld := after (new_world false) demo_clear.

Lemma map_clear_witness : js_map_clear iterator_released demo_clear_world = None.
Proof.
  destruct (run_some (new_world false) demo_clear) as [rs E]; [vm_compute; reflexivity|]. assert (Hv : Forall (fun e => valid_event e.2) demo_clear) by (repeat constructor; vm_compute; discriminate).
  refine (map_clear_uses_freed_record (ML := engine_key_laws) false demo_clear rs demo_clear_world iterator_released 0 0%nat 1%nat [] (num 1) (KObject 77) None Hv _ E _ _ _ _ _ _); try (vm_compute; reflexivity).
  - vm_compute. left.
  - exists (MkIter true JS_ITERATOR_KIND_KEY (Some 1%nat)). vm_compute. auto.
Defined.

(** [forEach] has the same fault: the function deletes the record after the current
    one and returns the iterator that stands on it. *)
Lemma forEach_uses_freed_record :
  map_run (new_world false) (quietly [set_event 1 10; set_event 2 20; EvForEach true; EvIterator JS_ITERATOR_KIND_KEY true; EvNext 0; EvNext 0; EvDelete (num 2)] ++ [(iterator_released, EvForEachReturn 0 (Some (KObject 77)))]) = None.
Proof.
  match goal with |- ?x = None => assert ((if x is Some _ then true else false) = false) as H by (vm_compute; reflexivity); destruct x; [discriminate H|reflexivity] end.
Qed.

Lemma map_keys_witness : let a := KNumber (JS_TAG_INT 1) in let b := KNumber (JS_TAG_FLOAT64 (1023 * 2 ^ 52)) in hash_key a 5 = hash_key b 5.
Proof. refine (proj1 (proj2 (map_keys_by_value (KNumber (JS_TAG_INT 1)) (KNumber (JS_TAG_FLOAT64 (1023 * 2 ^ 52))) 5 _ _ _)) _); [vm_compute; split; congruence|vm_compute; split; congruence|lia|vm_compute; reflexivity]. Defined.

End Examples.
