(* ===== verification/Date.v ===== *)
(** Dates and Date.parse (quickjs.c): definitions.

    A time value is a number of milliseconds since 1970, or NaN ([None]); the fields of
    a date are year, month from 0, day from 1, hours, minutes, seconds, milliseconds,
    day of the week and offset in minutes.  The C code keeps both as [double] with an
    integral value.  [exact] marks each of its [double] operations: their result is the
    exact integer up to [2^53], and the model has no result beyond.

    A string that is parsed is the list of the bytes of the buffer [sp], the NUL
    included; a position is an index in it.  A read outside the buffer, and a loop that
    runs out of fuel, has no result ([None]); [FALSE] is the inner [None] or [false]. *)
From Stdlib Require Import ZArith Lia Ascii String.
From S2P Require Import Prelude Float64.
From stdpp Require Import base tactics numbers option list.

Open Scope Z_scope.

(** [getTimezoneOffset]: minutes from local time to UTC, as the system has it; time zones
    are within a day of UTC. *)
Class TimeZone := {
  getTimezoneOffset : Z -> Z;
  timezone_bounded t : Z.abs (getTimezoneOffset t) <= 1500
}.

Definition time : Type := option Z.

Definition exact (x : Z) : option Z := if Z.abs x <=? 2 ^ 53 then Some x else None.

(** ** The calendar *)

Definition math_mod (a b : Z) : Z := let m := Z.rem a b in m + c_bool (m <? 0) * b.
Definition floor_div (a b : Z) : Z := let m := Z.rem a b in Z.quot (a - (m + c_bool (m <? 0) * b)) b.

Definition days_from_year (y : Z) : Z := 365 * (y - 1970) + floor_div (y - 1969) 4 - floor_div (y - 1901) 100 + floor_div (y - 1601) 400.
Definition days_in_year (y : Z) : Z := 365 + c_bool (Z.rem y 4 =? 0) - c_bool (Z.rem y 100 =? 0) + c_bool (Z.rem y 400 =? 0).

(** The loop of [year_from_days]; what it adds to [d1] before the next round is
    overwritten there. *)
Fixpoint year_loop (fuel : nat) (d y : Z) : option (Z * Z) :=
  match fuel with
  | O => None
  | S fuel =>
      let d1 := d - days_from_year y in
      if d1 <? 0 then year_loop fuel d (y - 1)
      else if d1 <? days_in_year y then Some (y, d1)
      else year_loop fuel d (y + 1)
  end.

(** The year and the days in it. *)
Definition year_from_days (d : Z) : option (Z * Z) := year_loop 2 d (floor_div (d * 10000) 3652425 + 1970).

Definition month_days : list Z := [31; 28; 31; 30; 31; 30; 31; 31; 30; 31; 30; 31].

(** The days of the month [i], [md] being the entry of the table. *)
Definition month_length (md i y : Z) : Z := md + (if i =? 1 then days_in_year y - 365 else 0).

Fixpoint month_loop (l : list Z) (i y days : Z) : Z * Z :=
  match l with
  | [] => (i, days)
  | md :: l => let md := month_length md i y in if days <? md then (i, days) else month_loop l (i + 1) y (days - md)
  end.

Fixpoint add_months (l : list Z) (i y days : Z) : Z :=
  match l with [] => days | md :: l => add_months l (i + 1) y (days + month_length md i y) end.

Section Date.
Context `{TZ : TimeZone}.

(** [None]: the time value is NaN and is not replaced ([FALSE]). *)
Definition get_date_fields (dval : time) (is_local force : bool) : option (option (list Z)) :=
  let fields d tz :=
    let h := math_mod d 86400000 in
    let days := Z.quot (d - h) 86400000 in
    let ms := Z.rem h 1000 in
    let h := Z.quot (h - ms) 1000 in
    let s := Z.rem h 60 in
    let h := Z.quot (h - s) 60 in
    let m := Z.rem h 60 in
    let h := Z.quot (h - m) 60 in
    let wd := math_mod (days + 4) 7 in
    yd ← year_from_days days;
    let '(i, days) := month_loop (take 11 month_days) 0 yd.1 yd.2 in
    Some (Some [yd.1; i; days + 1; h; m; s; ms; wd; tz]) in
  match dval with
  | None => if force then fields 0 0 else Some None
  | Some d => if is_local then let tz := - getTimezoneOffset d in fields (d + tz * 60000) tz else fields d 0
  end.

Definition time_clip (t : Z) : time := if (-8640000000000000 <=? t) && (t <=? 8640000000000000) then Some t else None.

(** [floor(m / 12)] rounds to the integral quotient for [m] up to [2^49]. *)
Definition set_date_fields (fields : list Z) (is_local : bool) : option time :=
  let y := fields !!! 0%nat in
  let m := fields !!! 1%nat in
  let dt := fields !!! 2%nat in
  if negb (Z.abs m <=? 2 ^ 49) then None
  else
    ym ← exact (y + m / 12);
    let mn := Z.rem m 12 in
    let mn := if mn <? 0 then mn + 12 else mn in
    if (ym <? -271821) || (275760 <? ym) then Some None
    else
      let days := add_months (take (Z.to_nat mn) month_days) 0 ym (days_from_year ym) in
      day ← exact (days + dt);
      day ← exact (day - 1);
      time ← exact (fields !!! 3%nat * 3600000);
      temp ← exact (fields !!! 4%nat * 60000);
      time ← exact (time + temp);
      temp ← exact (fields !!! 5%nat * 1000);
      time ← exact (time + temp);
      time ← exact (time + fields !!! 6%nat);
      temp ← exact (day * 86400000);
      tv ← exact (temp + time);
      tv ← (if is_local : bool then exact (tv + getTimezoneOffset tv * 60000) else Some tv);
      Some (time_clip tv).

(** The loop over the fields, which are patterns of [double] here. *)
Fixpoint check_fields (i : nat) (l : list Z) : option (list Z) :=
  match l with
  | [] => Some []
  | a :: l =>
      if negb (isfinite a) then None
      else
        let f := float64_trunc a in
        let f := match i with O => if (0 <=? f) && (f <? 100) then f + 1900 else f | S _ => f end in
        l ← check_fields (S i) l; Some (f :: l)
  end.

Definition set_date_fields_checked (fields : list Z) (is_local : bool) : option time :=
  match check_fields 0 fields with None => Some None | Some fields => set_date_fields fields is_local end.

(** [Date.UTC]: [argv] as numbers. *)
Definition js_Date_UTC (argv : list Z) : option time :=
  if decide (argv = []) then Some None
  else
    let argv := take 7 argv in
    set_date_fields_checked (argv ++ drop (length argv) [0; 0; float64_round 1; 0; 0; 0; 0]) false.

(** ** Methods of a date with the time value [this] *)

(** The result is a number, NaN as [None]. *)
Definition get_date_field (this : time) (magic : Z) : option (option Z) :=
  let is_local := negb (Z.land magic 0x0F =? 0) in
  let n := Z.to_nat (Z.land (Z.shiftr magic 4) 0x0F) in
  res ← get_date_fields this is_local false;
  match res with
  | None => Some None
  | Some fields => let fields := if negb (Z.land magic 0x100 =? 0) then <[0%nat := fields !!! 0%nat - 1900]> fields else fields in Some (Some (fields !!! n))
  end.

(** The arguments of a setter, numbers as patterns: the fields from [first] on and
    whether all are finite. *)
Fixpoint take_args (argv : list Z) (n first : nat) (fields : list Z) (res : bool) : list Z * bool :=
  match n, argv with
  | S n, a :: argv => take_args argv n (S first) (<[first := float64_trunc a]> fields) (res && isfinite a)
  | _, _ => (fields, res)
  end.

(** The new time value of the date, which is also the result. *)
Definition set_date_field (this : time) (argv : list Z) (magic : Z) : option time :=
  let first_field := Z.to_nat (Z.land (Z.shiftr magic 8) 0x0F) in
  let end_field := Z.to_nat (Z.land (Z.shiftr magic 4) 0x0F) in
  let is_local := negb (Z.land magic 0x0F =? 0) in
  res ← get_date_fields this is_local (Nat.eqb first_field 0);
  match res with
  | None => Some this
  | Some fields =>
      let '(fields, res) := take_args argv (Nat.min (length argv) (end_field - first_field)) first_field fields true in
      if res && negb (Nat.eqb (length argv) 0) then set_date_fields fields is_local else Some None
  end.

Definition js_date_setTime (v : Z) : time := if isfinite v then time_clip (float64_trunc v) else None.

(** ** Printing *)

Definition cstr (s : string) : list Z := (fun c => Z.of_N (N_of_ascii c)) <$> list_ascii_of_string s.

Fixpoint decimal (fuel : nat) (n : Z) : list Z :=
  match fuel with
  | O => []
  | S fuel => if n <? 10 then [48 + n] else decimal fuel (n / 10) ++ [48 + n mod 10]
  end.

(** [%0<w>d] of a number that is not negative. *)
Definition zero_padded (w : nat) (n : Z) : list Z := let l := decimal (S (Z.to_nat (Z.log2 n))) n in replicate (w - length l) 48 ++ l.

Definition format_d (w : nat) (n : Z) : list Z := if n <? 0 then 45 :: zero_padded (w - 1) (- n) else zero_padded w n.
Definition format_plus_d (w : nat) (n : Z) : list Z := (if n <? 0 then 45 else 43) :: zero_padded (w - 1) (Z.abs n).

Definition month_names : list (list Z) := cstr <$> ["Jan"; "Feb"; "Mar"; "Apr"; "May"; "Jun"; "Jul"; "Aug"; "Sep"; "Oct"; "Nov"; "Dec"]%string.
Definition day_names : list (list Z) := cstr <$> ["Sun"; "Mon"; "Tue"; "Wed"; "Thu"; "Fri"; "Sat"]%string.

Definition format_year (y : Z) : list Z := format_d (4 + Z.to_nat (c_bool (y <? 0))) y.

Definition date_part (fmt part y mon d wd : Z) : list Z :=
  let name := month_names !!! Z.to_nat mon in
  let wday := day_names !!! Z.to_nat wd in
  match fmt with
  | 0 => wday ++ cstr ", " ++ format_d 2 d ++ cstr " " ++ name ++ cstr " " ++ format_year y ++ cstr " "
  | 1 => wday ++ cstr " " ++ name ++ cstr " " ++ format_d 2 d ++ cstr " " ++ format_year y ++ (if part =? 3 then cstr " " else [])
  | 2 => (if (0 <=? y) && (y <=? 9999) then format_d 4 y else format_plus_d 7 y) ++ cstr "-" ++ format_d 2 (mon + 1) ++ cstr "-" ++ format_d 2 d ++ cstr "T"
  | _ => format_d 2 (mon + 1) ++ cstr "/" ++ format_d 2 d ++ cstr "/" ++ format_year y ++ (if part =? 3 then cstr ", " else [])
  end.

Definition time_part (fmt h m s ms tz : Z) : list Z :=
  match fmt with
  | 0 => format_d 2 h ++ cstr ":" ++ format_d 2 m ++ cstr ":" ++ format_d 2 s ++ cstr " GMT"
  | 1 => format_d 2 h ++ cstr ":" ++ format_d 2 m ++ cstr ":" ++ format_d 2 s ++ cstr " GMT" ++ (if tz <? 0 then cstr "-" else cstr "+") ++
         format_d 2 (Z.quot (Z.abs tz) 60) ++ format_d 2 (Z.rem (Z.abs tz) 60)
  | 2 => format_d 2 h ++ cstr ":" ++ format_d 2 m ++ cstr ":" ++ format_d 2 s ++ cstr "." ++ format_d 3 ms ++ cstr "Z"
  | _ => format_d 2 (Z.rem (h + 11) 12 + 1) ++ cstr ":" ++ format_d 2 m ++ cstr ":" ++ format_d 2 s ++ cstr " " ++ (if h <? 12 then cstr "A" else cstr "P") ++ cstr "M"
  end.

Definition err_date_nan : exn := RangeError "Date value is NaN".

Definition get_date_string (this : time) (magic : Z) : M (list Z) :=
  let fmt := Z.land (Z.shiftr magic 4) 0x0F in
  let part := Z.land magic 0x0F in
  match get_date_fields this (negb (Z.land fmt 1 =? 0)) false with
  | None => undefined
  | Some None => if fmt =? 2 then throw err_date_nan else mret (cstr "Invalid Date")
  | Some (Some f) =>
      mret ((if negb (Z.land part 1 =? 0) then date_part fmt part (f !!! 0%nat) (f !!! 1%nat) (f !!! 2%nat) (f !!! 7%nat) else []) ++
            (if negb (Z.land part 2 =? 0) then time_part fmt (f !!! 3%nat) (f !!! 4%nat) (f !!! 5%nat) (f !!! 6%nat) (f !!! 8%nat) else []))
  end.

End Date.

Section Parse.
Context (sp : list Z).

Definition string_skip_char (p : nat) (c : Z) : option (bool * nat) :=
  x ← sp !! p; Some (if x =? c then (true, S p) else (false, p)).

(** [while (P(c = sp[p])) p++], the result being the position and [c]. *)
Fixpoint skip_while (P : Z -> bool) (fuel : nat) (p : nat) : option (nat * Z) :=
  match fuel with
  | O => None
  | S fuel => c ← sp !! p; if P c then skip_while P fuel (S p) else Some (p, c)
  end.

Definition string_skip_spaces (p : nat) : option (nat * Z) := skip_while (fun c => c =? 32) (length sp) p.
Definition string_skip_separators (p : nat) : option (nat * Z) := skip_while (fun c => (c =? 45) || (c =? 47) || (c =? 46) || (c =? 44)) (length sp) p.
(** [strchr] also finds the NUL that ends the list. *)
Definition string_skip_until (p : nat) (stoplist : list Z) : option (nat * Z) := skip_while (fun c => negb (existsb (Z.eqb c) (stoplist ++ [0]))) (length sp) p.

Definition is_digit (c : Z) : bool := (48 <=? c) && (c <=? 57).

(** [Some None]: more than nine digits. *)
Fixpoint digits_loop (fuel : nat) (p p_start max_digits : nat) (v : Z) : option (option (Z * nat)) :=
  match fuel with
  | O => None
  | S fuel =>
      c ← sp !! p;
      if is_digit c then
        if 100000000 <=? v then Some None
        else
          let v := v * 10 + c - 48 in
          if Nat.eqb (S p - p_start) max_digits then Some (Some (v, S p)) else digits_loop fuel (S p) p_start max_digits v
      else Some (Some (v, p))
  end.

Definition string_get_digits (p min_digits max_digits : nat) : option (option (Z * nat)) :=
  r ← digits_loop (length sp) p p max_digits 0;
  match r with
  | None => Some None
  | Some (v, p') => Some (if Nat.ltb (p' - p) min_digits then None else Some (v, p'))
  end.

Fixpoint ms_loop (fuel : nat) (p p_start : nat) (mul ms : Z) : option (Z * nat) :=
  match fuel with
  | O => None
  | S fuel =>
      c ← sp !! p;
      if is_digit c then
        let ms := ms + (c - 48) * mul in
        if Nat.eqb (S p - p_start) 9 then Some (ms, S p) else ms_loop fuel (S p) p_start (mul / 10) ms
      else Some (ms, p)
  end.

(** The new value and position, if a fraction is there. *)
Definition string_get_milliseconds (p : nat) (val : Z) : option (Z * nat) :=
  c ← sp !! p;
  if (c =? 46) || (c =? 44) then
    r ← ms_loop (length sp) (S p) (S p) 100 0;
    Some (if Nat.ltb (S p) r.2 then r else (val, p))
  else Some (val, p).

Definition upper_ascii (c : Z) : Z := if (97 <=? c) && (c <=? 122) then c - 97 + 65 else c.

(** [while (n > 4) { n -= 2; hh /= 100; }] *)
Fixpoint strip_pairs (fuel : nat) (n hh : Z) : Z * Z :=
  match fuel with
  | O => (n, hh)
  | S fuel => if 4 <? n then strip_pairs fuel (n - 2) (hh / 100) else (n, hh)
  end.

Definition string_get_tzoffset (p : nat) (strict : bool) : option (option (Z * nat)) :=
  sgn ← sp !! p;
  if (sgn =? 43) || (sgn =? 45) then
    r ← string_get_digits (S p) 1 0;
    match r with
    | None => Some None
    | Some (hh, p1) =>
        let n := Z.of_nat (p1 - S p) in
        if strict && negb (n =? 2) && negb (n =? 4) then Some None
        else
          let '(n, hh) := strip_pairs (p1 - S p) n hh in
          hm ← (if 2 <? n then Some (Some (hh / 100, hh mod 100, p1))
                else
                  b ← string_skip_char p1 58;
                  if b.1 : bool then
                    m ← string_get_digits b.2 2 2;
                    Some (match m with None => None | Some (mm, p2) => Some (hh, mm, p2) end)
                  else Some (if strict then None else Some (hh, 0, p1)));
          Some (match hm with
                | None => None
                | Some (hh, mm, p) =>
                    if (23 <? hh) || (59 <? mm) then None
                    else let tz := hh * 60 + mm in Some (if negb (sgn =? 43) then - tz else tz, p)
                end)
    end
  else if negb (sgn =? 90) then Some None else Some (Some (0, S p)).

(** The bytes of [s] at the position, without case. *)
Fixpoint string_match (p : nat) (s : list Z) : option (option nat) :=
  match s with
  | [] => Some (Some p)
  | c :: s => x ← sp !! p; if negb (upper_ascii x =? upper_ascii c) then Some None else string_match (S p) s
  end.

(** The names have three characters; the comparison stops at the third. *)
Fixpoint find_abbrev (p : nat) (names : list (list Z)) (n : Z) : option (option Z) :=
  match names with
  | [] => Some None
  | name :: names => r ← string_match p name; match r with Some _ => Some (Some n) | None => find_abbrev p names (n + 1) end
  end.

(** The number of the month from 1, and the position after it. *)
Definition string_get_month (p : nat) : option (option (Z * nat)) :=
  r ← find_abbrev p month_names 0; Some (match r with None => None | Some n => Some (n + 1, (p + 3)%nat) end).

(** ** The format of toISOString *)

(** The fields, [*is_local], and the result. *)
Definition iso_result : Type := list Z * bool * bool.

Definition iso_false (fields : list Z) (is_local : bool) : option iso_result := Some (fields, is_local, false).

(** From the time zone on. *)
Definition iso_zone (fields : list Z) (is_local : bool) (p : nat) : option iso_result :=
  c ← sp !! p;
  if negb (c =? 0) then
    r ← string_get_tzoffset p true;
    match r with
    | None => iso_false fields false
    | Some (tz, p) => c ← sp !! p; Some (<[8%nat := tz]> fields, false, c =? 0)
    end
  else Some (fields, is_local, true).

(** From the optional time on. *)
Definition iso_time (fields : list Z) (p : nat) : option iso_result :=
  t ← string_skip_char p 84;
  if t.1 : bool then
    let reject := Some (<[3%nat := 100]> fields, true, true) in
    r ← string_get_digits t.2 2 2;
    match r with
    | None => reject
    | Some (h, p) =>
        let fields := <[3%nat := h]> fields in
        b ← string_skip_char p 58;
        if negb b.1 then Some (<[3%nat := 100]> fields, true, true)
        else
          r ← string_get_digits b.2 2 2;
          match r with
          | None => Some (<[3%nat := 100]> fields, true, true)
          | Some (m, p) =>
              let fields := <[4%nat := m]> fields in
              b ← string_skip_char p 58;
              if b.1 : bool then
                r ← string_get_digits b.2 2 2;
                match r with
                | None => iso_false fields true
                | Some (s, p) =>
                    let fields := <[5%nat := s]> fields in
                    r ← string_get_milliseconds p (fields !!! 6%nat);
                    iso_zone (<[6%nat := r.1]> fields) true r.2
                end
              else iso_zone fields true p
          end
    end
  else iso_zone fields false p.

(** From the optional month on. *)
Definition iso_month (fields : list Z) (p : nat) : option iso_result :=
  b ← string_skip_char p 45;
  if b.1 : bool then
    r ← string_get_digits b.2 2 2;
    match r with
    | None => iso_false fields false
    | Some (m, p) =>
        if m <? 1 then iso_false (<[1%nat := m]> fields) false
        else
          let fields := <[1%nat := m - 1]> fields in
          b ← string_skip_char p 45;
          if b.1 : bool then
            r ← string_get_digits b.2 2 2;
            match r with
            | None => iso_false fields false
            | Some (d, p) => if d <? 1 then iso_false (<[2%nat := d]> fields) false else iso_time (<[2%nat := d]> fields) p
            end
          else iso_time fields p
    end
  else iso_time fields p.

Definition js_date_parse_isostring : option iso_result :=
  let fields := [0; 0; 1; 0; 0; 0; 0; 0; 0] in
  sgn ← sp !! 0%nat;
  if (sgn =? 45) || (sgn =? 43) then
    r ← string_get_digits 1 6 6;
    match r with
    | None => iso_false fields false
    | Some (y, p) =>
        if (sgn =? 45) && (y =? 0) then iso_false fields false
        else iso_month (<[0%nat := if sgn =? 45 then - y else y]> fields) p
    end
  else
    r ← string_get_digits 0 4 4;
    match r with
    | None => iso_false fields false
    | Some (y, p) => iso_month (<[0%nat := y]> fields) p
    end.

(** ** Other formats *)

Definition js_tzabbr : list (list Z * Z) :=
  [(cstr "GMT", 0); (cstr "UTC", 0); (cstr "UT", 0); (cstr "Z", 0); (cstr "EDT", -4 * 60); (cstr "EST", -5 * 60); (cstr "CDT", -5 * 60); (cstr "CST", -6 * 60); (cstr "MDT", -6 * 60); (cstr "MST", -7 * 60);
   (cstr "PDT", -7 * 60); (cstr "PST", -8 * 60); (cstr "WET", 0 * 60); (cstr "WEST", 1 * 60); (cstr "CET", 1 * 60); (cstr "CEST", 2 * 60); (cstr "EET", 2 * 60); (cstr "EEST", 3 * 60)].

Fixpoint tzabbr_loop (p : nat) (l : list (list Z * Z)) : option (option (Z * nat)) :=
  match l with
  | [] => Some None
  | (name, off) :: l => r ← string_match p name; match r with Some p' => Some (Some (off, p')) | None => tzabbr_loop p l end
  end.

Definition string_get_tzabbr (p : nat) : option (option (Z * nat)) := tzabbr_loop p js_tzabbr.

Record other_state : Type := MkOther {
  o_pos : nat;
  o_fields : list Z;
  o_local : bool;
  has_year : bool;
  has_mon : bool;
  has_time : bool;
  num : list Z
}.

Definition at_pos (st : other_state) (p : nat) : other_state := MkOther p (o_fields st) (o_local st) (has_year st) (has_mon st) (has_time st) (num st).
Definition set_field (st : other_state) (i : nat) (v : Z) : other_state := MkOther (o_pos st) (<[i := v]> (o_fields st)) (o_local st) (has_year st) (has_mon st) (has_time st) (num st).
Definition set_year (st : other_state) (v : Z) : other_state := MkOther (o_pos st) (<[0%nat := v]> (o_fields st)) (o_local st) true (has_mon st) (has_time st) (num st).
Definition set_offset (st : other_state) (v : Z) : other_state := MkOther (o_pos st) (<[8%nat := v]> (o_fields st)) false (has_year st) (has_mon st) (has_time st) (num st).
Definition set_mon (st : other_state) (v : Z) : other_state := MkOther (o_pos st) (<[1%nat := v]> (o_fields st)) (o_local st) (has_year st) true (has_time st) (num st).
Definition set_has_time (st : other_state) : other_state := MkOther (o_pos st) (o_fields st) (o_local st) (has_year st) (has_mon st) true (num st).
Definition push_num (st : other_state) (v : Z) : other_state := MkOther (o_pos st) (o_fields st) (o_local st) (has_year st) (has_mon st) (has_time st) (num st ++ [v]).

(** A round of the loop: [return FALSE], or the next state, after the separators
    unless the round ends in [continue]. *)
Inductive round : Type := RFail | RNext (st : other_state) | RContinue (st : other_state).

(** A year of two digits. *)
Definition full_year (val : Z) : Z := val + c_bool (val <? 100) * 1900 + c_bool (val <? 50) * 100.

(** The time after its hours and the colon. *)
Definition other_time (st : other_state) (val : Z) (p : nat) : option round :=
  let st := set_field st 3 val in
  r ← string_get_digits p 1 2;
  match r with
  | None => Some RFail
  | Some (m, p) =>
      let st := set_field st 4 m in
      b ← string_skip_char p 58;
      st ← (if b.1 : bool then
              r ← string_get_digits b.2 1 2;
              match r with
              | None => Some None
              | Some (s, p) =>
                  let st := set_field st 5 s in
                  ms ← string_get_milliseconds p (o_fields st !!! 6%nat);
                  Some (Some (at_pos (set_field st 6 ms.1) ms.2))
              end
            else Some (Some (at_pos st p)));
      match st with
      | None => Some RFail
      | Some st =>
          let st := set_has_time st in
          c ← sp !! o_pos st;
          if (c =? 43) || (c =? 45) then
            r ← string_get_tzoffset (o_pos st) false;
            Some (RNext (match r with Some (tz, p) => at_pos (set_offset st tz) p | None => st end))
          else Some (RNext st)
      end
  end.

(** A number that is not followed by a colon. *)
Definition other_number (st : other_state) (val : Z) (p_start p : nat) : round :=
  if Nat.ltb 2 (p - p_start) && negb (has_year st) then RNext (at_pos (set_year st val) p)
  else if ((val <? 1) || (31 <? val)) && negb (has_year st) then RNext (at_pos (set_year st (full_year val)) p)
  else if Nat.eqb (length (num st)) 3 then RFail
  else RNext (at_pos (push_num st val) p).

(** The parenthesized phrase; the fuel is the length of the buffer. *)
Fixpoint skip_paren (fuel : nat) (p : nat) (level : Z) : option (nat * Z) :=
  match fuel with
  | O => None
  | S fuel =>
      c ← sp !! p;
      if c =? 0 then Some (p, level)
      else
        let level := level + c_bool (c =? 40) - c_bool (c =? 41) in
        if level =? 0 then Some (S p, level) else skip_paren fuel (S p) level
  end.

Definition other_sign (st : other_state) (c : Z) : option round :=
  let p := o_pos st in
  r ← (if has_time st then string_get_tzoffset p false else Some None);
  match r with
  | Some (tz, p) => Some (RNext (at_pos (set_offset st tz) p))
  | None =>
      r ← string_get_digits (S p) 1 0;
      match r with
      | None => Some (RNext (at_pos st (S p)))
      | Some (val, p) =>
          if (c =? 45) && (val =? 0) then Some RFail
          else Some (RNext (at_pos (set_year st (if c =? 45 then - val else val)) p))
      end
  end.

Definition b2z (b : bool) : Z := c_bool b.

(** What is neither a sign nor a number. *)
Definition other_word (st : other_state) (c : Z) : option round :=
  let p := o_pos st in
  mon ← string_get_month p;
  match mon with
  | Some (n, p) => u ← string_skip_until p (cstr "0123456789 -/("); Some (RNext (at_pos (set_mon st n) u.1))
  | None =>
      pm ← (if has_time st then string_match p (cstr "PM") else Some None);
      match pm with
      | Some p => Some (RContinue (at_pos (if o_fields st !!! 3%nat <? 12 then set_field st 3 (o_fields st !!! 3%nat + 12) else st) p))
      | None =>
          am ← (if has_time st then string_match p (cstr "AM") else Some None);
          match am with
          | Some p => Some (RContinue (at_pos (if o_fields st !!! 3%nat =? 12 then set_field st 3 (o_fields st !!! 3%nat - 12) else st) p))
          | None =>
              tz ← string_get_tzabbr p;
              match tz with
              | Some (off, p) => Some (RContinue (at_pos (set_offset st off) p))
              | None =>
                  if c =? 40 then
                    r ← skip_paren (length sp) p 0;
                    Some (if 0 <? r.2 then RFail else RNext (at_pos st r.1))
                  else if c =? 41 then Some RFail
                  else if negb (b2z (has_year st) + b2z (has_mon st) + b2z (has_time st) + Z.of_nat (length (num st)) =? 0) then Some RFail
                  else u ← string_skip_until p (cstr " -/("); Some (RNext (at_pos st u.1))
              end
          end
      end
  end.

Definition other_round (st : other_state) : option round :=
  let p_start := o_pos st in
  c ← sp !! p_start;
  if (c =? 43) || (c =? 45) then other_sign st c
  else
    r ← string_get_digits p_start 1 0;
    match r with
    | Some (val, p) =>
        b ← string_skip_char p 58;
        if b.1 : bool then other_time st val b.2 else Some (other_number st val p_start p)
    | None => other_word st c
    end.

(** The loop; [Some None] is [return FALSE]. *)
Fixpoint other_loop (fuel : nat) (st : other_state) : option (option other_state) :=
  match fuel with
  | O => None
  | S fuel =>
      s ← string_skip_spaces (o_pos st);
      let st := at_pos st s.1 in
      if s.2 =? 0 then Some (Some st)
      else
        r ← other_round st;
        match r with
        | RFail => Some None
        | RContinue st => other_loop fuel st
        | RNext st => u ← string_skip_separators (o_pos st); other_loop fuel (at_pos st u.1)
        end
  end.

(** The numbers that were neither year nor time, given their places; the month is
    counted from 1 before the last line. *)
Definition place_numbers (st : other_state) : option (list Z) :=
  let f := o_fields st in
  match num st with
  | [] => if has_year st then Some f else None
  | [a] => Some (if has_mon st then <[2%nat := a]> f else <[1%nat := a]> f)
  | [a; b] =>
      Some (if has_year st then <[2%nat := b]> (<[1%nat := a]> f)
            else if has_mon st then <[2%nat := a]> (<[0%nat := full_year b]> f)
            else <[2%nat := b]> (<[1%nat := a]> f))
  | [a; b; c] => Some (<[2%nat := b]> (<[1%nat := a]> (<[0%nat := full_year c]> f)))
  | _ => None
  end.

(** The fields and [*is_local], if the result is [TRUE]. *)
Definition js_date_parse_otherstring : option (option (list Z * bool)) :=
  r ← other_loop (length sp) (MkOther 0 [2001; 1; 1; 0; 0; 0; 0; 0; 0] true false false false []);
  match r with
  | None => Some None
  | Some st =>
      if 3 <? Z.of_nat (length (num st)) + b2z (has_year st) + b2z (has_mon st) then Some None
      else
        Some (match place_numbers st with
              | None => None
              | Some f => if (f !!! 1%nat <? 1) || (f !!! 2%nat <? 1) then None else Some (<[1%nat := f !!! 1%nat - 1]> f, o_local st)
              end)
  end.

End Parse.

Section DateParse.
Context `{TZ : TimeZone}.

(** The string as an array of bytes, and the NUL. *)
Definition parse_buffer (s : list Z) : list Z := ((fun c => if 255 <? c then (if c =? 0x2212 then 45 else 120) else c) <$> take 127 s) ++ [0].

Definition field_max : list Z := [0; 11; 31; 24; 59; 59].

Definition fields_valid (f : list Z) : bool :=
  forallb (fun i => negb (field_max !!! i <? f !!! i)) [1; 2; 3; 4; 5]%nat &&
  negb ((f !!! 3%nat =? 24) && negb (Z.lor (Z.lor (f !!! 4%nat) (f !!! 5%nat)) (f !!! 6%nat) =? 0)).

(** The result is a number, NaN as [None]. *)
Definition js_Date_parse (s : list Z) : option (option Z) :=
  let sp := parse_buffer s in
  iso ← js_date_parse_isostring sp;
  r ← (let '(fields, is_local, ok) := iso in if ok : bool then Some (Some (fields, is_local)) else js_date_parse_otherstring sp);
  match r with
  | None => Some None
  | Some (fields, is_local) =>
      if fields_valid fields then
        d ← set_date_fields (take 7 fields) is_local;
        match d with
        | None => Some None
        | Some d => d ← exact (d - fields !!! 8%nat * 60000); Some (Some d)
        end
      else Some None
  end.

End DateParse.
