(* ===== verification/DateSpecs.v ===== *)
(** Dates: the calendar and the fields of a time value.

    [civil y i dd]: the day [dd] (from 0) of the month [i] (from 0) of the year [y] in
    the Gregorian calendar; [day_number] its number from 1970-01-01. *)
From Stdlib Require Import ZArith Lia.
From S2P Require Import Prelude Float64 Date.
From stdpp Require Import base tactics numbers option list.

Open Scope Z_scope.

(** ** The calendar *)

Lemma rem_mod a b : 0 < b -> Z.rem a b + c_bool (Z.rem a b <? 0) * b = a mod b.
Proof.
  intros Hb. pose proof (Z.quot_rem' a b) as E. pose proof (Z.rem_bound_abs a b ltac:(lia)) as Ha. destruct (Z.ltb_spec (Z.rem a b) 0); cbn [c_bool].
  - apply (Z.mod_unique_pos _ _ (Z.quot a b - 1)); lia.
  - apply (Z.mod_unique_pos _ _ (Z.quot a b)); lia.
Qed.

Lemma math_mod_spec a b : 0 < b -> math_mod a b = a mod b.
Proof. intros Hb. apply rem_mod, Hb. Qed.

Lemma quot_exact a b q : b <> 0 -> a = b * q -> Z.quot a b = q.
Proof. intros Hb ->. rewrite Z.mul_comm. apply Z.quot_mul, Hb. Qed.

Lemma floor_div_spec a b : 0 < b -> floor_div a b = a / b.
Proof. intros Hb. unfold floor_div. rewrite rem_mod by exact Hb. apply quot_exact; [lia|]. pose proof (Z.div_mod a b ltac:(lia)). lia. Qed.

Lemma rem_zero y b : 0 < b -> (Z.rem y b =? 0) = (y mod b =? 0).
Proof.
  intros Hb. pose proof (rem_mod y b Hb) as H. pose proof (Z.mod_pos_bound y b Hb). pose proof (Z.rem_bound_abs y b ltac:(lia)).
  destruct (Z.ltb_spec (Z.rem y b) 0); cbn [c_bool] in H; destruct (Z.eqb_spec (Z.rem y b) 0), (Z.eqb_spec (y mod b) 0); lia.
Qed.

Definition leap (y : Z) : bool := (y mod 4 =? 0) && (negb (y mod 100 =? 0) || (y mod 400 =? 0)).

Lemma days_in_year_spec y : days_in_year y = if leap y then 366 else 365.
Proof.
  unfold days_in_year, leap. rewrite !rem_zero by lia. destruct (Z.eqb_spec (y mod 4) 0), (Z.eqb_spec (y mod 100) 0), (Z.eqb_spec (y mod 400) 0); cbn [c_bool andb orb negb]; try reflexivity; exfalso; Z.div_mod_to_equations; lia.
Qed.

Lemma days_from_year_succ y : days_from_year (y + 1) = days_from_year y + days_in_year y.
Proof.
  unfold days_from_year, days_in_year. rewrite !floor_div_spec, !rem_zero by lia.
  assert ((y + 1 - 1969) / 4 = (y - 1969) / 4 + c_bool ((y - 1968) mod 4 =? 0)) as H4 by (destruct (Z.eqb_spec ((y - 1968) mod 4) 0); cbn [c_bool]; Z.div_mod_to_equations; lia).
  assert ((y + 1 - 1901) / 100 = (y - 1901) / 100 + c_bool ((y - 1900) mod 100 =? 0)) as H100 by (destruct (Z.eqb_spec ((y - 1900) mod 100) 0); cbn [c_bool]; Z.div_mod_to_equations; lia).
  assert ((y + 1 - 1601) / 400 = (y - 1601) / 400 + c_bool ((y - 1600) mod 400 =? 0)) as H400 by (destruct (Z.eqb_spec ((y - 1600) mod 400) 0); cbn [c_bool]; Z.div_mod_to_equations; lia).
  replace ((y - 1968) mod 4) with (y mod 4) in H4 by (Z.div_mod_to_equations; lia). replace ((y - 1900) mod 100) with (y mod 100) in H100 by (Z.div_mod_to_equations; lia). replace ((y - 1600) mod 400) with (y mod 400) in H400 by (Z.div_mod_to_equations; lia).
  lia.
Qed.

(** The average year has 365.2425 days. *)
Lemma days_from_year_bounds y : -12650 <= 10000 * days_from_year y - 3652425 * (y - 1970) <= 14725.
Proof. unfold days_from_year. rewrite !floor_div_spec by lia. Z.div_mod_to_equations. lia. Qed.

Lemma days_in_year_range y : 365 <= days_in_year y <= 366.
Proof. rewrite days_in_year_spec. destruct (leap y); lia. Qed.

Lemma days_from_year_mono y z : y < z -> days_from_year y + days_in_year y <= days_from_year z.
Proof.
  intros H. rewrite <- days_from_year_succ. assert (Hk : forall k, 0 <= k -> days_from_year (y + 1) <= days_from_year (y + 1 + k)).
  { apply natlike_ind; [rewrite Z.add_0_r; lia|]. intros k Hk IH. replace (y + 1 + Z.succ k) with ((y + 1 + k) + 1) by lia. rewrite (days_from_year_succ (y + 1 + k)). pose proof (days_in_year_range (y + 1 + k)). lia. }
  specialize (Hk (z - (y + 1)) ltac:(lia)). replace (y + 1 + (z - (y + 1))) with z in Hk by lia. exact Hk.
Qed.

(** Two rounds are enough: the first guess is off by one year at most. *)
Lemma year_from_days_spec d : exists y r, year_from_days d = Some (y, r) /\ d = days_from_year y + r /\ 0 <= r < days_in_year y.
Proof.
  unfold year_from_days. rewrite floor_div_spec by lia. set (y := d * 10000 / 3652425 + 1970). assert (3652425 * (y - 1970) <= 10000 * d < 3652425 * (y - 1970) + 3652425) as Hy by (unfold y; Z.div_mod_to_equations; lia). clearbody y.
  cbn [year_loop]. pose proof (days_from_year_succ y) as S0. pose proof (days_from_year_succ (y - 1)) as S1. pose proof (days_from_year_succ (y + 1)) as S2. replace (y - 1 + 1) with y in S1 by lia.
  pose proof (days_from_year_bounds (y - 1)) as B1. pose proof (days_from_year_bounds (y + 1 + 1)) as B2.
  destruct (Z.ltb_spec (d - days_from_year y) 0).
  - exists (y - 1), (d - days_from_year (y - 1)). rewrite (proj2 (Z.ltb_ge _ _)), (proj2 (Z.ltb_lt _ _)) by lia. split; [reflexivity|lia].
  - destruct (Z.ltb_spec (d - days_from_year y) (days_in_year y)); [exists y, (d - days_from_year y); split; [reflexivity|lia]|].
    exists (y + 1), (d - days_from_year (y + 1)). rewrite (proj2 (Z.ltb_ge _ _)), (proj2 (Z.ltb_lt _ _)) by lia. split; [reflexivity|lia].
Qed.

Lemma year_from_days_unique y r : 0 <= r < days_in_year y -> year_from_days (days_from_year y + r) = Some (y, r).
Proof.
  intros Hr. destruct (year_from_days_spec (days_from_year y + r)) as (y' & r' & E & Hd & Hr'). rewrite E. assert (y' = y) as ->; [|do 2 f_equal; lia].
  destruct (Z.lt_trichotomy y' y) as [H|[H|H]]; [|exact H|]; pose proof (days_from_year_mono _ _ H); lia.
Qed.

(** ** Months *)

Definition month_len (y i : Z) : Z := month_length (month_days !!! Z.to_nat i) i y.

Definition civil (y i dd : Z) : Prop := 0 <= i <= 11 /\ 0 <= dd < month_len y i.

(** The days of the months before [i]. *)
Definition days_before (y i : Z) : Z := add_months (take (Z.to_nat i) month_days) 0 y 0.

Definition day_number (y i dd : Z) : Z := days_from_year y + days_before y i + dd.

Lemma add_months_shift l i y x : add_months l i y x = x + add_months l i y 0.
Proof. revert i x. induction l as [|md l IH]; intros i x; cbn; [lia|]. rewrite IH, (IH (i + 1) (0 + month_length md i y)). lia. Qed.

Lemma month_cases i : 0 <= i <= 11 -> i = 0 \/ i = 1 \/ i = 2 \/ i = 3 \/ i = 4 \/ i = 5 \/ i = 6 \/ i = 7 \/ i = 8 \/ i = 9 \/ i = 10 \/ i = 11.
Proof. lia. Qed.

Ltac month_case H := apply month_cases in H; destruct H as [-> | [-> | [-> | [-> | [-> | [-> | [-> | [-> | [-> | [-> | [-> | ->]]]]]]]]]]].

(** Indices of tables that are literals. *)
Ltac nat_literals :=
  repeat match goal with
    | |- context [Z.to_nat ?c] => let v := eval vm_compute in (Z.to_nat c) in progress change (Z.to_nat c) with v
    | H : context [Z.to_nat ?c] |- _ => let v := eval vm_compute in (Z.to_nat c) in progress change (Z.to_nat c) with v in H
    end.

Ltac closed_test t := let v := eval vm_compute in t in lazymatch v with true => change t with true in * | false => change t with false in * end.
Ltac test_literals :=
  repeat match goal with
    | |- context [?a =? ?b] => closed_test (a =? b)
    | |- context [?a <? ?b] => closed_test (a <? b)
    | H : context [?a =? ?b] |- _ => closed_test (a =? b)
    | H : context [?a <? ?b] |- _ => closed_test (a <? b)
    end; cbv iota in *.

(** Reduces the tables and tests of one month. *)
Ltac month_tables := nat_literals; cbn [lookup_total list_lookup_total] in *; test_literals.

Lemma days_before_table y i : 0 <= i <= 11 -> days_before y i = [0; 31; 59; 90; 120; 151; 181; 212; 243; 273; 304; 334] !!! Z.to_nat i + (if 1 <? i then days_in_year y - 365 else 0).
Proof. intros H. unfold days_before. month_case H; nat_literals; cbn [month_days take add_months lookup_total list_lookup_total]; unfold month_length; test_literals; lia. Qed.

Lemma month_len_table y i : 0 <= i <= 11 -> month_len y i = [31; 28; 31; 30; 31; 30; 31; 31; 30; 31; 30; 31] !!! Z.to_nat i + (if i =? 1 then days_in_year y - 365 else 0).
Proof. intros H. month_case H; reflexivity. Qed.

Lemma days_before_bound y i dd : civil y i dd -> 0 <= days_before y i + dd < days_in_year y.
Proof.
  intros [Hi Hd]. rewrite days_before_table by exact Hi. rewrite month_len_table in Hd by exact Hi. pose proof (days_in_year_range y). month_case Hi; month_tables; lia.
Qed.

Lemma month_length_ge md i y : md <= month_length md i y.
Proof. unfold month_length. pose proof (days_in_year_range y). destruct (i =? 1); lia. Qed.

Lemma add_months_nonneg l i y : Forall (fun md => 0 <= md) l -> 0 <= add_months l i y 0.
Proof.
  intros H. revert i. induction H as [|md l Hm H IH]; intros i; cbn [add_months]; [lia|]. rewrite add_months_shift. pose proof (month_length_ge md i y). specialize (IH (i + 1)). lia.
Qed.

(** The loop undoes the sum of the months before [k]. *)
Lemma month_loop_add l y : Forall (fun md => 0 <= md) l -> forall k i dd, (k <= length l)%nat -> 0 <= dd -> (forall md, l !! k = Some md -> dd < month_length md (i + Z.of_nat k) y) ->
  month_loop l i y (add_months (take k l) i y 0 + dd) = (i + Z.of_nat k, dd).
Proof.
  induction 1 as [|md l Hm H IH]; intros k i dd Hk Hd Hdd; (destruct k as [|k]; [cbn [take add_months]|cbn [length] in Hk; try lia; cbn [take add_months]]); cbn [month_loop].
  - f_equal; lia.
  - specialize (Hdd md eq_refl). rewrite Z.add_0_r in Hdd. rewrite (proj2 (Z.ltb_lt _ _)) by lia. f_equal; lia.
  - rewrite add_months_shift. pose proof (add_months_nonneg (take k l) (i + 1) y (Forall_take _ _ _ H)). pose proof (month_length_ge md i y). rewrite (proj2 (Z.ltb_ge _ _)) by lia.
    replace (0 + month_length md i y + add_months (take k l) (i + 1) y 0 + dd - month_length md i y) with (add_months (take k l) (i + 1) y 0 + dd) by lia. rewrite IH; [f_equal; lia|lia|exact Hd|].
    intros md' Hmd. specialize (Hdd md' Hmd). replace (i + 1 + Z.of_nat k) with (i + Z.of_nat (S k)) by lia. exact Hdd.
Qed.

(** The loop over the months finds the one of the day. *)
Lemma month_loop_civil y i dd : civil y i dd -> month_loop (take 11 month_days) 0 y (days_before y i + dd) = (i, dd).
Proof.
  intros [Hi Hd]. unfold days_before. replace (take (Z.to_nat i) month_days) with (take (Z.to_nat i) (take 11 month_days)) by (rewrite take_take; f_equal; lia).
  rewrite month_loop_add; [f_equal; lia|repeat constructor; lia|rewrite length_take; cbn; lia|lia|].
  intros md Hmd. apply lookup_take_Some in Hmd as [Hmd _]. unfold month_len in Hd. rewrite (list_lookup_total_correct _ _ _ Hmd) in Hd. replace (0 + Z.of_nat (Z.to_nat i)) with i by lia. lia.
Qed.

Lemma month_loop_spec y r : 0 <= r < days_in_year y -> exists i dd, civil y i dd /\ r = days_before y i + dd.
Proof.
  intros Hr. pose proof (days_in_year_range y) as Hy.
  assert (H : forall i, 0 <= i <= 11 -> days_before y i <= r -> (i < 11 -> r < days_before y (i + 1)) -> exists j dd, civil y j dd /\ r = days_before y j + dd).
  { intros i Hi H1 H2. exists i, (r - days_before y i). split; [|lia]. split; [exact Hi|]. split; [lia|]. rewrite month_len_table by exact Hi. destruct (Z.eq_dec i 11) as [->|Hne].
    - rewrite days_before_table in * by lia. month_tables. lia.
    - specialize (H2 ltac:(lia)). rewrite (days_before_table y (i + 1)) in H2 by lia. rewrite (days_before_table y i) by lia. month_case Hi; month_tables; lia. }
  assert (Hs : forall n, (n <= 11)%nat -> days_before y (Z.of_nat n) <= r -> exists j dd, civil y j dd /\ r = days_before y j + dd).
  { intros n Hn. remember (11 - n)%nat as k eqn:Ek. revert n Hn Ek. induction k as [|k IH]; intros n Hn Ek Hle.
    - apply (H (Z.of_nat n)); [lia|exact Hle|lia].
    - destruct (Z.le_gt_cases (days_before y (Z.of_nat (S n))) r) as [Hc|Hc]; [apply (IH (S n)); [lia|lia|exact Hc]|]. apply (H (Z.of_nat n)); [lia|exact Hle|]. intros _. replace (Z.of_nat n + 1) with (Z.of_nat (S n)) by lia. exact Hc. }
  apply (Hs 0%nat); [lia|]. rewrite days_before_table by lia. month_tables. lia.
Qed.

(** Every day is the day of a month of a year. *)
Lemma day_civil d : exists y i dd, civil y i dd /\ d = day_number y i dd.
Proof.
  destruct (year_from_days_spec d) as (y & r & _ & Hd & Hr). destruct (month_loop_spec y r Hr) as (i & dd & Hc & ->). exists y, i, dd. split; [exact Hc|]. unfold day_number. lia.
Qed.

Lemma year_of_civil y i dd : civil y i dd -> year_from_days (day_number y i dd) = Some (y, days_before y i + dd).
Proof. intros H. unfold day_number. rewrite <- Z.add_assoc. apply year_from_days_unique, days_before_bound, H. Qed.

(** The years of the time values. *)
Lemma year_range y i dd : civil y i dd -> -100000001 <= day_number y i dd <= 100000001 -> -271821 <= y <= 275760.
Proof.
  intros Hc Hd. pose proof (days_before_bound y i dd Hc) as Hb. pose proof (days_from_year_bounds y) as B1. pose proof (days_from_year_bounds (y + 1)) as B2. rewrite days_from_year_succ in B2. unfold day_number in Hd. lia.
Qed.

(** ** Fields *)

(** The milliseconds of a day. *)
Definition day_ms (h m s ms : Z) : Z := h * 3600000 + m * 60000 + s * 1000 + ms.
Definition clock (h m s ms : Z) : Prop := 0 <= h < 24 /\ 0 <= m < 60 /\ 0 <= s < 60 /\ 0 <= ms < 1000.

Lemma day_ms_range h m s ms : clock h m s ms -> 0 <= day_ms h m s ms < 86400000.
Proof. unfold clock, day_ms. lia. Qed.

Lemma clock_exists t : 0 <= t < 86400000 -> exists h m s ms, clock h m s ms /\ t = day_ms h m s ms.
Proof.
  intros Ht. exists (t / 3600000), (t / 60000 mod 60), (t / 1000 mod 60), (t mod 1000). unfold clock, day_ms. Z.div_mod_to_equations. lia.
Qed.

(** What each step of [get_date_fields] finds. *)
Lemma clock_fields h m s ms (t := day_ms h m s ms) : clock h m s ms ->
  Z.rem t 1000 = ms /\ Z.quot (t - ms) 1000 = (h * 60 + m) * 60 + s /\ Z.rem ((h * 60 + m) * 60 + s) 60 = s /\
  Z.quot ((h * 60 + m) * 60 + s - s) 60 = h * 60 + m /\ Z.rem (h * 60 + m) 60 = m /\ Z.quot (h * 60 + m - m) 60 = h.
Proof.
  intros (Hh & Hm & Hs & Hms). unfold t, day_ms. rewrite !Z.rem_mod_nonneg by lia. repeat split; try (apply quot_exact; lia).
  - symmetry. apply (Z.mod_unique_pos _ _ ((h * 60 + m) * 60 + s)); lia.
  - symmetry. apply (Z.mod_unique_pos _ _ (h * 60 + m)); lia.
  - symmetry. apply (Z.mod_unique_pos _ _ h); lia.
Qed.

Definition time_value (y i dd h m s ms : Z) : Z := day_number y i dd * 86400000 + day_ms h m s ms.

Definition fields_of (y i dd h m s ms tz : Z) : list Z := [y; i; dd + 1; h; m; s; ms; (day_number y i dd + 4) mod 7; tz].

Lemma time_value_exists t : exists y i dd h m s ms, civil y i dd /\ clock h m s ms /\ t = time_value y i dd h m s ms.
Proof.
  destruct (clock_exists (t mod 86400000)) as (h & m & s & ms & Hk & Ht); [apply Z.mod_pos_bound; lia|]. destruct (day_civil (t / 86400000)) as (y & i & dd & Hc & Hd). exists y, i, dd, h, m, s, ms. split; [exact Hc|]. split; [exact Hk|].
  unfold time_value. rewrite <- Hd, <- Ht. pose proof (Z.div_mod t 86400000 ltac:(lia)). lia.
Qed.

Section Fields.
Context `{TZ : TimeZone}.

Lemma get_fields_spec (dval : time) (loc force : bool) y i dd h m s ms :
  civil y i dd -> clock h m s ms ->
  (let tz := if loc then - getTimezoneOffset (match dval with Some t => t | None => 0 end) else 0 in
   match dval with Some t => t + tz * 60000 = time_value y i dd h m s ms | None => False end) ->
  get_date_fields dval loc force = Some (Some (fields_of y i dd h m s ms (if loc then - getTimezoneOffset (match dval with Some t => t | None => 0 end) else 0))).
Proof.
  intros Hc Hk. destruct dval as [t|]; [|intros []]. cbv zeta. pose proof (day_ms_range _ _ _ _ Hk) as Hr. destruct (clock_fields h m s ms Hk) as (F1 & F2 & F3 & F4 & F5 & F6). intros Ht.
  assert (H : forall d tz, d = time_value y i dd h m s ms ->
    (yd ← year_from_days (Z.quot (d - math_mod d 86400000) 86400000); let '(j, days) := month_loop (take 11 month_days) 0 yd.1 yd.2 in
     Some (Some [yd.1; j; days + 1; Z.quot (Z.quot (Z.quot (math_mod d 86400000 - Z.rem (math_mod d 86400000) 1000) 1000 - Z.rem (Z.quot (math_mod d 86400000 - Z.rem (math_mod d 86400000) 1000) 1000) 60) 60
        - Z.rem (Z.quot (Z.quot (math_mod d 86400000 - Z.rem (math_mod d 86400000) 1000) 1000 - Z.rem (Z.quot (math_mod d 86400000 - Z.rem (math_mod d 86400000) 1000) 1000) 60) 60) 60) 60;
        Z.rem (Z.quot (Z.quot (math_mod d 86400000 - Z.rem (math_mod d 86400000) 1000) 1000 - Z.rem (Z.quot (math_mod d 86400000 - Z.rem (math_mod d 86400000) 1000) 1000) 60) 60) 60;
        Z.rem (Z.quot (math_mod d 86400000 - Z.rem (math_mod d 86400000) 1000) 1000) 60; Z.rem (math_mod d 86400000) 1000; math_mod (Z.quot (d - math_mod d 86400000) 86400000 + 4) 7; tz]))
    = Some (Some (fields_of y i dd h m s ms tz))).
  { intros d tz ->. rewrite !math_mod_spec by lia. assert (time_value y i dd h m s ms mod 86400000 = day_ms h m s ms) as -> by (symmetry; apply (Z.mod_unique_pos _ _ (day_number y i dd)); [exact Hr|unfold time_value; lia]).
    assert (Z.quot (time_value y i dd h m s ms - day_ms h m s ms) 86400000 = day_number y i dd) as -> by (apply quot_exact; [lia|unfold time_value; lia]).
    rewrite F1, F2, F3, F4, F5, F6. rewrite (year_of_civil y i dd Hc). cbn [mbind option_bind fst snd]. rewrite (month_loop_civil y i dd Hc). reflexivity. }
  unfold get_date_fields. destruct loc; apply H; lia.
Qed.

Lemma exact_spec x : Z.abs x <= 2 ^ 53 -> exact x = Some x.
Proof. intros H. unfold exact. rewrite (proj2 (Z.leb_le _ _)) by exact H. reflexivity. Qed.

Lemma exact_bind {B} x (f : Z -> option B) : Z.abs x <= 9007199254740992 -> (exact x ≫= f) = f x.
Proof. intros H. rewrite exact_spec by exact H. reflexivity. Qed.

(** Minutes from local time to UTC, as [set_date_fields] adds them. *)
Definition local_offset (loc : bool) (tv : Z) : Z := if loc then getTimezoneOffset tv else 0.

(** The fields of a date of the range give its time value; days and clock fields may
    be outside theirs. *)
Lemma set_fields_spec (loc : bool) y i dt h m s ms rest (tv := time_value y i (dt - 1) h m s ms) :
  -271821 <= y <= 275760 -> 0 <= i <= 11 -> Z.abs dt <= 1000 -> Z.abs h <= 1000 -> Z.abs m <= 1000 -> Z.abs s <= 1000 -> Z.abs ms <= 1000 ->
  set_date_fields (y :: i :: dt :: h :: m :: s :: ms :: rest) loc = Some (time_clip (tv + local_offset loc tv * 60000)).
Proof.
  intros Hy Hi Hdt Hh Hm Hs Hms. unfold set_date_fields. cbn [lookup_total list_lookup_total negb]. rewrite (proj2 (Z.leb_le (Z.abs i) (2 ^ 49))) by lia. cbn [negb].
  replace (i / 12) with 0 by (symmetry; apply Z.div_small; lia). rewrite Z.add_0_r, exact_bind by lia. rewrite (Z.rem_small i 12) by lia. rewrite (proj2 (Z.ltb_ge i 0)) by lia.
  rewrite (proj2 (Z.ltb_ge y _)), (proj2 (Z.ltb_ge 275760 y)) by lia. cbn [orb]. rewrite add_months_shift. fold (days_before y i).
  assert (Z.abs (days_from_year y + days_before y i) <= 100001000) as Hd. { pose proof (days_from_year_bounds y). rewrite days_before_table by exact Hi. pose proof (days_in_year_range y). month_case Hi; month_tables; lia. }
  unfold tv, time_value, day_ms, day_number. set (n := days_from_year y + days_before y i) in *. clearbody n. do 10 (rewrite exact_bind by lia).
  assert ((n + dt - 1) * 86400000 + (h * 3600000 + m * 60000 + s * 1000 + ms) = (n + (dt - 1)) * 86400000 + (h * 3600000 + m * 60000 + s * 1000 + ms)) as -> by lia.
  set (t := (n + (dt - 1)) * 86400000 + (h * 3600000 + m * 60000 + s * 1000 + ms)). assert (Z.abs t <= 8900000000000000) as Ht by (unfold t; lia). clearbody t. destruct loc; cbn [local_offset].
  - pose proof (timezone_bounded t). rewrite exact_bind by lia. reflexivity.
  - cbn [mbind option_bind]. rewrite Z.add_0_r. reflexivity.
Qed.

(** A year outside the range of time values gives NaN. *)
Lemma set_fields_far (loc : bool) y i rest : (y < -271821 \/ 275760 < y) -> Z.abs y <= 2 ^ 52 -> 0 <= i <= 11 -> set_date_fields (y :: i :: rest) loc = Some None.
Proof.
  intros Hy Hb Hi. unfold set_date_fields. cbn [lookup_total list_lookup_total]. rewrite (proj2 (Z.leb_le (Z.abs i) (2 ^ 49))) by lia. cbn [negb].
  replace (i / 12) with 0 by (symmetry; apply Z.div_small; lia). rewrite Z.add_0_r, exact_bind by lia.
  destruct (Z.ltb_spec y (-271821)); [reflexivity|]. destruct (Z.ltb_spec 275760 y); [reflexivity|lia].
Qed.

End Fields.
