(* ===== verification/DateParseSpecs.v ===== *)
(** Date.parse: reading stays in the buffer, loops end, and digits that were printed
    are read back.

    [nul n]: the first NUL of the buffer is at [n].  The lemmas on the scanning
    functions say that from a position up to [n] they give a position up to [n]. *)
From Stdlib Require Import ZArith Lia String.
From S2P Require Import Prelude Date.
From stdpp Require Import base tactics numbers option list.

Open Scope Z_scope.

Section Scan.
Context (sp : list Z) (n : nat).

Definition nul : Prop := sp !! n = Some 0 /\ forall i c, sp !! i = Some c -> (i < n)%nat -> c <> 0.

Hypothesis Hn : nul.

Lemma nul_length : (n < length sp)%nat.
Proof. eapply lookup_lt_Some. apply Hn. Qed.

Lemma read p : (p <= n)%nat -> exists c, sp !! p = Some c /\ (c <> 0 -> (p < n)%nat).
Proof.
  intros Hp. pose proof nul_length. destruct (lookup_lt_is_Some_2 sp p ltac:(lia)) as [c Hc]. exists c. split; [exact Hc|]. intros Hz. assert (p <> n); [|lia]. intros ->. destruct Hn as [H0 _]. congruence.
Qed.

Lemma read_inner p c : sp !! p = Some c -> (p < n)%nat -> c <> 0.
Proof. apply Hn. Qed.

Lemma skip_char_ok p c : (p <= n)%nat -> c <> 0 -> exists b p', string_skip_char sp p c = Some (b, p') /\ (p <= p' <= n)%nat.
Proof.
  intros Hp Hc. destruct (read p Hp) as (x & Hx & Hlt). unfold string_skip_char. rewrite Hx. cbn [mbind option_bind]. destruct (Z.eqb_spec x c) as [->|]; eexists _, _; (split; [reflexivity|]); [specialize (Hlt Hc)|]; lia.
Qed.

Lemma skip_while_ok P fuel p : P 0 = false -> (p <= n)%nat -> (n - p < fuel)%nat ->
  exists p' c, skip_while sp P fuel p = Some (p', c) /\ (p <= p' <= n)%nat /\ sp !! p' = Some c /\ P c = false /\ (forall x, sp !! p = Some x -> P x = true -> (p < p')%nat).
Proof.
  intros HP. revert p. induction fuel as [|fuel IH]; intros p Hp Hf; [lia|]. destruct (read p Hp) as (c & Hc & Hlt). cbn [skip_while]. rewrite Hc. cbn [mbind option_bind]. destruct (P c) eqn:E.
  - assert (c <> 0) as Hz by (intros ->; congruence). specialize (Hlt Hz). destruct (IH (S p) ltac:(lia) ltac:(lia)) as (p' & c' & E' & H1 & H2 & H3 & _). exists p', c'. split; [exact E'|]. split; [lia|]. split; [exact H2|]. split; [exact H3|]. intros _ _ _. lia.
  - exists p, c. split; [reflexivity|]. split; [lia|]. split; [exact Hc|]. split; [exact E|]. intros x Hx. congruence.
Qed.

Lemma digit_nonzero c : is_digit c = true -> c <> 0 /\ 0 <= c - 48 <= 9.
Proof. unfold is_digit. intros H. apply andb_prop in H as [H1 H2]. apply Z.leb_le in H1, H2. lia. Qed.

Lemma digits_loop_ok fuel p p_start mx v : (p <= n)%nat -> (n - p < fuel)%nat -> 0 <= v < 1000000000 ->
  exists r, digits_loop sp fuel p p_start mx v = Some r /\ forall v' p', r = Some (v', p') -> (p <= p' <= n)%nat /\ 0 <= v' < 1000000000.
Proof.
  revert p v. induction fuel as [|fuel IH]; intros p v Hp Hf Hv; [lia|]. destruct (read p Hp) as (c & Hc & Hlt). cbn [digits_loop]. rewrite Hc. cbn [mbind option_bind]. destruct (is_digit c) eqn:E.
  - destruct (digit_nonzero c E) as [Hz Hd]. specialize (Hlt Hz). destruct (Z.leb_spec 100000000 v); [eexists; split; [reflexivity|]; intros v' p' [=]|]. destruct (Nat.eqb _ mx).
    + eexists. split; [reflexivity|]. intros v' p' [= <- <-]. lia.
    + destruct (IH (S p) (v * 10 + c - 48) ltac:(lia) ltac:(lia) ltac:(lia)) as (r & Er & Hr). exists r. split; [exact Er|]. intros v' p' Hvp. specialize (Hr v' p' Hvp). lia.
  - eexists. split; [reflexivity|]. intros v' p' [= <- <-]. lia.
Qed.

Lemma get_digits_ok p mn mx : (p <= n)%nat -> exists r, string_get_digits sp p mn mx = Some r /\ forall v p', r = Some (v, p') -> (p + mn <= p' <= n)%nat /\ 0 <= v < 1000000000.
Proof.
  intros Hp. unfold string_get_digits. pose proof nul_length. destruct (digits_loop_ok (length sp) p p mx 0 Hp ltac:(lia) ltac:(lia)) as (r & -> & Hr). cbn [mbind option_bind]. destruct r as [[v p']|]; [|eexists; split; [reflexivity|]; intros v p' [=]].
  specialize (Hr v p' eq_refl). eexists. split; [reflexivity|]. intros v0 p0. destruct (Nat.ltb_spec (p' - p) mn); [intros [=]|]. intros [= <- <-]. lia.
Qed.

Definition mul_ok (mul ms : Z) : Prop := 0 <= ms /\ ((mul = 100 /\ ms = 0) \/ (mul = 10 /\ ms <= 900) \/ (mul = 1 /\ ms <= 990) \/ (mul = 0 /\ ms <= 999)).

Lemma mul_step mul ms c : mul_ok mul ms -> is_digit c = true -> mul_ok (mul / 10) (ms + (c - 48) * mul).
Proof.
  intros (H0 & H) Hc. apply digit_nonzero in Hc as [_ Hc]. split; [destruct H as [[-> _]|[[-> _]|[[-> _]|[-> _]]]]; lia|].
  destruct H as [[-> ->]|[[-> H]|[[-> H]|[-> H]]]]; [right; left|right; right; left|right; right; right|right; right; right]; (split; [reflexivity|lia]).
Qed.

Lemma ms_loop_ok fuel p p_start mul ms : (p <= n)%nat -> (n - p < fuel)%nat -> mul_ok mul ms -> exists ms' p', ms_loop sp fuel p p_start mul ms = Some (ms', p') /\ (p <= p' <= n)%nat /\ 0 <= ms' <= 999.
Proof.
  revert p mul ms. induction fuel as [|fuel IH]; intros p mul ms Hp Hf Hm; [lia|]. destruct (read p Hp) as (c & Hc & Hlt). cbn [ms_loop]. rewrite Hc. cbn [mbind option_bind].
  assert (forall mul ms, mul_ok mul ms -> 0 <= ms <= 999) as Hb by (intros ? ? (? & [[_ ?]|[[_ ?]|[[_ ?]|[_ ?]]]]); lia). destruct (is_digit c) eqn:E.
  - specialize (Hlt (proj1 (digit_nonzero c E))). pose proof (mul_step _ _ _ Hm E) as Hm'. destruct (Nat.eqb _ 9).
    + eexists _, _. split; [reflexivity|]. split; [lia|]. eapply Hb, Hm'.
    + destruct (IH (S p) _ _ ltac:(lia) ltac:(lia) Hm') as (ms' & p' & E' & Hp' & Hms). exists ms', p'. split; [exact E'|]. split; [lia|exact Hms].
  - exists ms, p. split; [reflexivity|]. split; [lia|]. eapply Hb, Hm.
Qed.

Lemma milliseconds_ok p val : (p <= n)%nat -> 0 <= val <= 999 -> exists ms p', string_get_milliseconds sp p val = Some (ms, p') /\ (p <= p' <= n)%nat /\ 0 <= ms <= 999.
Proof.
  intros Hp Hv. destruct (read p Hp) as (c & Hc & Hlt). unfold string_get_milliseconds. rewrite Hc. cbn [mbind option_bind]. destruct (_ || _) eqn:E; [|exists val, p; split; [reflexivity|lia]].
  assert (c <> 0) as Hz by (intros ->; discriminate). specialize (Hlt Hz). pose proof nul_length. destruct (ms_loop_ok (length sp) (S p) (S p) 100 0) as (ms & p' & -> & Hp' & Hms); [lia|lia|split; [lia|auto]|]. cbn [mbind option_bind fst snd].
  destruct (Nat.ltb (S p) p'); eexists _, _; (split; [reflexivity|lia]).
Qed.

Lemma strip_pairs_ok fuel k hh : 0 <= hh < 1000000000 -> let r := strip_pairs fuel k hh in 0 <= r.2 < 1000000000.
Proof.
  revert k hh. induction fuel as [|fuel IH]; intros k hh Hh; [exact Hh|]. cbn. destruct (4 <? k); [apply IH|exact Hh]. split; [apply Z.div_pos; lia|]. apply Z.div_lt_upper_bound; lia.
Qed.

Lemma tzoffset_ok p strict : (p < n)%nat -> exists r, string_get_tzoffset sp p strict = Some r /\ forall tz p', r = Some (tz, p') -> (p < p' <= n)%nat /\ Z.abs tz <= 1439.
Proof.
  intros Hp. destruct (read p ltac:(lia)) as (c & Hc & _). unfold string_get_tzoffset. rewrite Hc. cbn [mbind option_bind]. destruct (_ || _) eqn:Es.
  - destruct (get_digits_ok (S p) 1 0 ltac:(lia)) as (r & -> & Hr). cbn [mbind option_bind]. destruct r as [[hh p1]|]; [|eexists; split; [reflexivity|]; intros tz p' [=]]. destruct (Hr hh p1 eq_refl) as [Hp1 Hh].
    destruct (_ && _); [eexists; split; [reflexivity|]; intros tz p' [=]|]. pose proof (strip_pairs_ok (p1 - S p) (Z.of_nat (p1 - S p)) hh Hh) as Hst. destruct (strip_pairs _ _ hh) as [k h]. cbn [fst snd] in Hst. cbv zeta in Hst.
    assert (Hfin : forall (hm : option (Z * Z * nat)), (forall a b q, hm = Some (a, b, q) -> 0 <= a /\ 0 <= b /\ (p < q <= n)%nat) ->
      exists r, Some (match hm with None => None | Some (hh, mm, p) => if (23 <? hh) || (59 <? mm) then None else let tz := hh * 60 + mm in Some (if negb (c =? 43) then - tz else tz, p) end) = Some r /\ forall tz p', r = Some (tz, p') -> (p < p' <= n)%nat /\ Z.abs tz <= 1439).
    { intros hm Hhm. eexists. split; [reflexivity|]. intros tz p' E. destruct hm as [[[a b] q]|]; [|discriminate]. destruct (Hhm a b q eq_refl) as (Ha & Hb & Hq). destruct (Z.ltb_spec 23 a); [discriminate|]. destruct (Z.ltb_spec 59 b); [discriminate|]. cbn [orb] in E.
      destruct (negb (c =? 43)); injection E as <- <-; lia. }
    destruct (2 <? k).
    + cbn [mbind option_bind]. apply (Hfin (Some (h / 100, h mod 100, p1))). intros a b q [= <- <- <-]. split; [apply Z.div_pos; lia|]. split; [apply Z.mod_pos_bound; lia|lia].
    + destruct (skip_char_ok p1 58 ltac:(lia) ltac:(lia)) as (b & p2 & -> & Hp2). cbn [mbind option_bind fst snd]. destruct b.
      * destruct (get_digits_ok p2 2 2 ltac:(lia)) as (r2 & -> & Hr2). cbn [mbind option_bind]. apply (Hfin (match r2 with None => None | Some (mm, p2) => Some (h, mm, p2) end)). destruct r2 as [[mm p3]|]; intros a b q; [|discriminate]. intros [= <- <- <-]. destruct (Hr2 mm p3 eq_refl). lia.
      * cbn [mbind option_bind]. apply (Hfin (if strict then None else Some (h, 0, p1))). destruct strict; intros a b q; [discriminate|]. intros [= <- <- <-]. lia.
  - destruct (negb (c =? 90)); eexists; (split; [reflexivity|]); [discriminate|]. intros tz p' [= <- <-]. lia.
Qed.

Lemma upper_nonzero c : c <> 0 -> upper_ascii c <> 0.
Proof. unfold upper_ascii. intros H. destruct (_ && _) eqn:E; [|exact H]. apply andb_prop in E as [E1 E2]. apply Z.leb_le in E1, E2. lia. Qed.

Lemma match_ok s p : (p <= n)%nat -> Forall (fun c => c <> 0) s -> exists r, string_match sp p s = Some r /\ forall p', r = Some p' -> (p' = p + length s)%nat /\ (p' <= n)%nat.
Proof.
  intros Hp Hs. revert p Hp. induction Hs as [|c s Hc Hs IH]; intros p Hp; cbn [string_match].
  - eexists. split; [reflexivity|]. intros p' [= <-]. cbn. lia.
  - destruct (read p Hp) as (x & Hx & Hlt). rewrite Hx. cbn [mbind option_bind]. destruct (Z.eqb_spec (upper_ascii x) (upper_ascii c)) as [E|E]; cbn [negb]; [|eexists; split; [reflexivity|]; intros p' [=]].
    assert (x <> 0) as Hz by (intros ->; symmetry in E; exact (upper_nonzero c Hc E)). specialize (Hlt Hz). destruct (IH (S p) ltac:(lia)) as (r & -> & Hr). exists r. split; [reflexivity|]. intros p' Hp'. specialize (Hr p' Hp'). cbn. lia.
Qed.

Lemma find_abbrev_ok names p k : (p <= n)%nat -> 0 <= k -> Forall (fun s => Forall (fun c => c <> 0) s /\ length s = 3%nat) names ->
  exists r, find_abbrev sp p names k = Some r /\ forall i, r = Some i -> (p + 3 <= n)%nat /\ k <= i < k + Z.of_nat (length names).
Proof.
  intros Hp Hk H. revert k Hk. induction H as [|s names [Hs Hl] H IH]; intros k Hk; cbn [find_abbrev]; [eexists; split; [reflexivity|]; intros i [=]|].
  destruct (match_ok s p Hp Hs) as (r & -> & Hr). cbn [mbind option_bind]. destruct r as [p'|].
  - eexists. split; [reflexivity|]. intros i [= <-]. destruct (Hr p' eq_refl). cbn [length]. lia.
  - destruct (IH (k + 1) ltac:(lia)) as (r & -> & Hr'). exists r. split; [reflexivity|]. intros i Hi. destruct (Hr' i Hi). cbn [length]. lia.
Qed.

Lemma get_month_ok p : (p <= n)%nat -> exists r, string_get_month sp p = Some r /\ forall m p', r = Some (m, p') -> (p < p' <= n)%nat /\ 1 <= m <= 12.
Proof.
  intros Hp. unfold string_get_month. destruct (find_abbrev_ok month_names p 0 Hp ltac:(lia)) as (r & -> & Hr); [repeat (constructor; [split; [repeat constructor; discriminate|reflexivity]|]); constructor|].
  cbn [mbind option_bind]. eexists. split; [reflexivity|]. intros m p' E. destruct r as [k|]; [|discriminate]. destruct (Hr k eq_refl) as [H1 H2]. injection E as <- <-. change (Z.of_nat (length month_names)) with 12 in H2. lia.
Qed.

Lemma tzabbr_ok p : (p <= n)%nat -> exists r, string_get_tzabbr sp p = Some r /\ forall tz p', r = Some (tz, p') -> (p < p' <= n)%nat /\ Z.abs tz <= 1439.
Proof.
  intros Hp. unfold string_get_tzabbr. assert (H : Forall (fun e : list Z * Z => Forall (fun c => c <> 0) e.1 /\ (0 < length e.1)%nat /\ Z.abs e.2 <= 1439) js_tzabbr).
  { repeat (constructor; [split; [repeat constructor; discriminate|split; [cbn; lia|cbn; lia]]|]). constructor. }
  induction H as [|[s off] l (Hs & Hl & Ho) H IH]; cbn [tzabbr_loop]; [eexists; split; [reflexivity|]; intros tz p' [=]|]. destruct (match_ok s p Hp Hs) as (r & -> & Hr). cbn [mbind option_bind]. destruct r as [p1|]; [|exact IH].
  eexists. split; [reflexivity|]. intros tz p' [= <- <-]. destruct (Hr p1 eq_refl). cbn [fst snd] in *. lia.
Qed.

Lemma skip_paren_ok fuel p level : (p <= n)%nat -> (n - p < fuel)%nat -> exists p' l, skip_paren sp fuel p level = Some (p', l) /\ (p <= p' <= n)%nat /\ (forall c, sp !! p = Some c -> c <> 0 -> (p < p')%nat).
Proof.
  revert p level. induction fuel as [|fuel IH]; intros p level Hp Hf; [lia|]. destruct (read p Hp) as (c & Hc & Hlt). cbn [skip_paren]. rewrite Hc. cbn [mbind option_bind]. destruct (Z.eqb_spec c 0) as [->|Hz].
  - exists p, level. split; [reflexivity|]. split; [lia|]. intros c Hc'. congruence.
  - specialize (Hlt Hz). destruct (_ =? 0); [eexists _, _; split; [reflexivity|]; split; [lia|intros; lia]|]. destruct (IH (S p) (level + c_bool (c =? 40) - c_bool (c =? 41)) ltac:(lia) ltac:(lia)) as (p' & l & E & Hp' & _). exists p', l. split; [exact E|]. split; [lia|]. intros; lia.
Qed.

(** ** The fields stay in range *)

Definition field_range (i : nat) (v : Z) : Prop :=
  match i with 0%nat => Z.abs v <= 2000000000 | 6%nat => 0 <= v <= 999 | 8%nat => Z.abs v <= 1439 | _ => 0 <= v <= 1000000000 end.

Definition fields_ok (f : list Z) : Prop := length f = 9%nat /\ forall i v, f !! i = Some v -> field_range i v.

Lemma fields_set f i v : fields_ok f -> field_range i v -> fields_ok (<[i := v]> f).
Proof.
  intros [Hl Hf] Hv. split; [rewrite length_insert; exact Hl|]. intros j w Hj. apply list_lookup_insert_Some in Hj as [(-> & -> & _)|[_ Hj]]; [exact Hv|]. exact (Hf j w Hj).
Qed.

Lemma fields_get f i : fields_ok f -> (i < 9)%nat -> field_range i (f !!! i).
Proof. intros [Hl Hf] Hi. destruct (lookup_lt_is_Some_2 f i ltac:(lia)) as [v Hv]. rewrite (list_lookup_total_correct _ _ _ Hv). exact (Hf i v Hv). Qed.

Lemma start_ok y m d : field_range 0 y -> field_range 1 m -> field_range 2 d -> fields_ok [y; m; d; 0; 0; 0; 0; 0; 0].
Proof.
  intros Hy Hm Hd. split; [reflexivity|]. intros i v Hi. do 9 (destruct i as [|i]; [injection Hi as <-; first [exact Hy|exact Hm|exact Hd|cbn; lia]|]). discriminate Hi.
Qed.

End Scan.

(** Calls of the scanning functions, one after the other. *)
Ltac scan H :=
  match goal with
  | |- context [string_skip_char ?sp ?p ?c] => let E := fresh in destruct (skip_char_ok _ _ H p c ltac:(lia) ltac:(lia)) as ([|] & ? & E & ?); rewrite E; clear E
  | |- context [string_get_digits ?sp ?p ?a ?b] => let r := fresh in let E := fresh in let K := fresh in
      destruct (get_digits_ok _ _ H p a b ltac:(lia)) as (r & E & K); rewrite E; clear E; destruct r as [[? ?]|]; [pose proof (K _ _ eq_refl)|]; clear K
  | |- context [string_get_tzoffset ?sp ?p ?b] => let r := fresh in let E := fresh in let K := fresh in
      destruct (tzoffset_ok _ _ H p b ltac:(lia)) as (r & E & K); rewrite E; clear E; destruct r as [[? ?]|]; [pose proof (K _ _ eq_refl)|]; clear K
  | |- context [string_get_milliseconds ?sp ?p ?v] => let E := fresh in destruct (milliseconds_ok _ _ H p v) as (? & ? & E & ? & ?); [lia| |rewrite E; clear E]
  end; cbn [mbind option_bind fst snd negb].

Ltac in_range := repeat first [assumption | apply fields_set]; cbn [field_range]; try lia.

Section Iso.
Context (sp : list Z) (n : nat) (Hn : nul sp n).

Definition iso_good (r : option iso_result) : Prop := exists f loc b, r = Some (f, loc, b) /\ fields_ok f.

Lemma iso_good_intro f loc b : fields_ok f -> iso_good (Some (f, loc, b)).
Proof. intros H. exists f, loc, b. auto. Qed.

Lemma iso_zone_ok f loc p : fields_ok f -> (p <= n)%nat -> iso_good (iso_zone sp f loc p).
Proof.
  intros Hf Hp. unfold iso_zone. destruct (read _ _ Hn p Hp) as (c & Hc & Hlt). rewrite Hc. cbn [mbind option_bind]. destruct (Z.eqb_spec c 0) as [->|Hz]; cbn [negb]; [apply iso_good_intro, Hf|].
  specialize (Hlt Hz). scan Hn; [|apply iso_good_intro, Hf]. destruct (read _ _ Hn n0 ltac:(lia)) as (c' & -> & _). apply iso_good_intro. in_range.
Qed.

Lemma iso_time_ok f p : fields_ok f -> (p <= n)%nat -> iso_good (iso_time sp f p).
Proof.
  intros Hf Hp. unfold iso_time. scan Hn; [|apply iso_zone_ok; [exact Hf|lia]]. scan Hn; [|apply iso_good_intro; in_range].
  scan Hn; [|apply iso_good_intro; in_range]. scan Hn; [|apply iso_good_intro; in_range]. scan Hn; [|apply iso_zone_ok; [in_range|lia]].
  scan Hn; [|apply iso_good_intro; in_range]. scan Hn; [apply (fields_get _ 6); [in_range|lia]|]. apply iso_zone_ok; [in_range|lia].
Qed.

Lemma iso_month_ok f p : fields_ok f -> (p <= n)%nat -> iso_good (iso_month sp f p).
Proof.
  intros Hf Hp. unfold iso_month. scan Hn; [|apply iso_time_ok; [exact Hf|lia]]. scan Hn; [|apply iso_good_intro; in_range].
  destruct (Z.ltb_spec z 1); [apply iso_good_intro; in_range|]. scan Hn; [|apply iso_time_ok; [in_range|lia]]. scan Hn; [|apply iso_good_intro; in_range].
  destruct (z0 <? 1); [apply iso_good_intro; in_range|]. apply iso_time_ok; [in_range|lia].
Qed.

Lemma isostring_ok : iso_good (js_date_parse_isostring sp).
Proof.
  pose proof (start_ok 0 0 1 ltac:(cbn; lia) ltac:(cbn; lia) ltac:(cbn; lia)) as H0. unfold js_date_parse_isostring. destruct (read _ _ Hn 0%nat ltac:(lia)) as (c & -> & Hlt). cbn [mbind option_bind].
  destruct (_ || _) eqn:E.
  - assert (c <> 0) as Hz by (intros ->; discriminate). specialize (Hlt Hz). scan Hn; [|apply iso_good_intro, H0]. destruct (_ && _); [apply iso_good_intro, H0|]. apply iso_month_ok; [apply fields_set; [exact H0|]; cbn; destruct (c =? 45); lia|lia].
  - scan Hn; [|apply iso_good_intro, H0]. apply iso_month_ok; [in_range|lia].
Qed.

End Iso.

(** ** The other formats *)

Section Other.
Context (sp : list Z) (n : nat) (Hn : nul sp n).

Record state_ok (st : other_state) : Prop := {
  ok_pos : (o_pos st <= n)%nat;
  ok_fields : fields_ok (o_fields st);
  ok_count : (length (num st) <= 3)%nat;
  ok_num : Forall (fun v => 0 <= v <= 1000000000) (num st)
}.

Hint Constructors state_ok : core.

Lemma ok_at st p : state_ok st -> (p <= n)%nat -> state_ok (at_pos st p).
Proof. intros []. auto. Qed.

Lemma ok_set st i v : state_ok st -> field_range i v -> state_ok (set_field st i v).
Proof. intros []. constructor; cbn; auto using fields_set. Qed.

Lemma ok_year st v : state_ok st -> field_range 0 v -> state_ok (set_year st v).
Proof. intros []. constructor; cbn; auto using fields_set. Qed.

Lemma ok_mon st v : state_ok st -> field_range 1 v -> state_ok (set_mon st v).
Proof. intros []. constructor; cbn; auto using fields_set. Qed.

Lemma ok_offset st v : state_ok st -> field_range 8 v -> state_ok (set_offset st v).
Proof. intros []. constructor; cbn; auto using fields_set. Qed.

Lemma ok_time st : state_ok st -> state_ok (set_has_time st).
Proof. intros []. auto. Qed.

(** What a round that starts at [p] gives: the state is good and the position is
    further, or at a slash that will be skipped. *)
Definition round_ok (p : nat) (r : option round) : Prop :=
  exists x, r = Some x /\
  match x with
  | RFail => True
  | RNext st => state_ok st /\ (p < o_pos st \/ o_pos st = p /\ sp !! p = Some 47%Z)%nat
  | RContinue st => state_ok st /\ (p < o_pos st)%nat
  end.

Lemma round_fail p : round_ok p (Some RFail).
Proof. exists RFail. auto. Qed.

Lemma round_next p st : state_ok st -> (p < o_pos st)%nat -> round_ok p (Some (RNext st)).
Proof. intros H Hp. exists (RNext st). auto. Qed.

Lemma round_continue p st : state_ok st -> (p < o_pos st)%nat -> round_ok p (Some (RContinue st)).
Proof. intros H Hp. exists (RContinue st). auto. Qed.

Ltac state := repeat first [assumption | apply ok_at | apply ok_set | apply ok_year | apply ok_mon | apply ok_offset | apply ok_time]; cbn [field_range o_pos at_pos set_field set_year set_mon set_offset set_has_time push_num]; try lia.

Lemma other_time_ok st val q p : state_ok st -> 0 <= val < 1000000000 -> (q < p <= n)%nat -> round_ok q (other_time sp st val p).
Proof.
  intros Hst Hv Hp. unfold other_time. assert (state_ok (set_field st 3 val)) as H1 by state. scan Hn; [|apply round_fail]. assert (state_ok (set_field (set_field st 3 val) 4 z)) as H2 by state.
  set (st2 := set_field (set_field st 3 val) 4 z) in *. clearbody st2.
  assert (Hend : forall st, state_ok st -> (q < o_pos st)%nat ->
    round_ok q (let st := set_has_time st in c ← sp !! o_pos st; if (c =? 43) || (c =? 45) then r ← string_get_tzoffset sp (o_pos st) false; Some (RNext (match r with Some (tz, p) => at_pos (set_offset st tz) p | None => st end)) else Some (RNext st))).
  { intros st' Hst' Hq. pose proof (ok_pos _ Hst') as Hpos. cbv zeta. cbn [set_has_time o_pos]. destruct (read _ _ Hn (o_pos st') Hpos) as (c & -> & Hlt). cbn [mbind option_bind]. destruct (_ || _) eqn:E; [|apply round_next; state].
    assert (c <> 0) as Hz by (intros ->; discriminate). specialize (Hlt Hz). scan Hn; apply round_next; state. }
  scan Hn; [|apply Hend; state]. scan Hn; [|apply round_fail]. assert (state_ok (set_field st2 5 z0)) as Hst3 by state.
  scan Hn; [exact (fields_get _ 6 (ok_fields _ Hst3) ltac:(lia))|]. apply Hend; state.
Qed.

Lemma full_year_range v : 0 <= v <= 1000000000 -> Z.abs (full_year v) <= 2000000000.
Proof. intros H. unfold full_year. destruct (v <? 100), (v <? 50); cbn [c_bool]; lia. Qed.

Lemma other_number_ok st val p_start p : state_ok st -> 0 <= val < 1000000000 -> (p_start < p <= n)%nat -> round_ok p_start (Some (other_number st val p_start p)).
Proof.
  intros Hst Hv Hp. unfold other_number. destruct (_ && _); [apply round_next; state|]. destruct (_ && _); [apply round_next; state; apply full_year_range; lia|]. destruct (Nat.eqb_spec (length (num st)) 3); [apply round_fail|].
  apply round_next; state. destruct Hst as [H1 H2 H3 H4]. constructor; cbn; [exact H1|exact H2|rewrite length_app; cbn; lia|apply Forall_app; split; [exact H4|repeat constructor; lia]].
Qed.

Lemma other_sign_ok st c : state_ok st -> (o_pos st < n)%nat -> round_ok (o_pos st) (other_sign sp st c).
Proof.
  intros Hst Hp. unfold other_sign.
  assert (Hy : round_ok (o_pos st) (r ← string_get_digits sp (S (o_pos st)) 1 0; match r with None => Some (RNext (at_pos st (S (o_pos st)))) | Some (val, p) => if (c =? 45) && (val =? 0) then Some RFail else Some (RNext (at_pos (set_year st (if c =? 45 then - val else val)) p)) end)).
  { scan Hn; [|apply round_next; state]. destruct (_ && _); [apply round_fail|]. apply round_next; state. destruct (c =? 45); lia. }
  destruct (has_time st); [|exact Hy]. destruct (tzoffset_ok sp n Hn (o_pos st) false Hp) as (r & -> & Hr). cbn [mbind option_bind]. destruct r as [[tz p]|]; [|exact Hy]. destruct (Hr _ _ eq_refl). apply round_next; state.
Qed.

Lemma skip_until_ok p l : (p <= n)%nat -> exists p' c, string_skip_until sp p l = Some (p', c) /\ (p <= p' <= n)%nat /\ (forall x, sp !! p = Some x -> existsb (Z.eqb x) (l ++ [0]) = false -> (p < p')%nat).
Proof.
  intros Hp. pose proof (nul_length _ _ Hn). destruct (skip_while_ok sp n Hn (fun c => negb (existsb (Z.eqb c) (l ++ [0]))) (length sp) p) as (p' & c & E & H1 & _ & _ & H2); [rewrite existsb_app; cbn; rewrite orb_true_r; reflexivity|exact Hp|lia|].
  exists p', c. split; [exact E|]. split; [exact H1|]. intros x Hx Hl. apply (H2 x Hx). rewrite Hl. reflexivity.
Qed.

Lemma word_match_ok p (b : bool) s : (p <= n)%nat -> Forall (fun c => c <> 0) s -> (0 < length s)%nat -> exists r, (if b then string_match sp p s else Some None) = Some r /\ forall p', r = Some p' -> (p < p' <= n)%nat.
Proof.
  intros Hp Hs Hl. destruct b; [|exists None; split; [reflexivity|intros ? [=]]]. destruct (match_ok sp n Hn s p Hp Hs) as (r & -> & Hr). exists r. split; [reflexivity|]. intros p' E. specialize (Hr p' E). lia.
Qed.

Lemma other_word_ok st c : state_ok st -> sp !! o_pos st = Some c -> c <> 0 -> c <> 32 -> c <> 45 -> round_ok (o_pos st) (other_word sp st c).
Proof.
  intros Hst Hc Hz Hsp Hmin. pose proof (ok_pos _ Hst) as Hp. pose proof (fields_get _ 3 (ok_fields _ Hst) ltac:(lia)) as H3. cbn [field_range] in H3. unfold other_word.
  destruct (get_month_ok sp n Hn _ Hp) as (mon & -> & Hmon). cbn [mbind option_bind]. destruct mon as [[m p1]|].
  { destruct (Hmon _ _ eq_refl) as [Hp1 Hm]. destruct (skip_until_ok p1 (cstr "0123456789 -/("%string) ltac:(lia)) as (p' & c' & -> & Hp' & _). cbn [mbind option_bind fst]. apply round_next; state. }
  destruct (word_match_ok (o_pos st) (has_time st) (cstr "PM"%string) Hp) as (pm & -> & Hpm); [repeat constructor; discriminate|cbn; lia|]. cbn [mbind option_bind]. destruct pm as [p1|].
  { specialize (Hpm p1 eq_refl). destruct (Z.ltb_spec (o_fields st !!! 3%nat) 12); apply round_continue; state. }
  destruct (word_match_ok (o_pos st) (has_time st) (cstr "AM"%string) Hp) as (am & -> & Ham); [repeat constructor; discriminate|cbn; lia|]. cbn [mbind option_bind]. destruct am as [p1|].
  { specialize (Ham p1 eq_refl). destruct (Z.eqb_spec (o_fields st !!! 3%nat) 12); apply round_continue; state. }
  destruct (tzabbr_ok sp n Hn _ Hp) as (tz & -> & Htz). cbn [mbind option_bind]. destruct tz as [[off p1]|]; [destruct (Htz _ _ eq_refl); apply round_continue; state|].
  destruct (Z.eqb_spec c 40) as [->|H40].
  { pose proof (nul_length _ _ Hn). destruct (skip_paren_ok sp n Hn (length sp) (o_pos st) 0 Hp ltac:(lia)) as (p' & l & -> & Hp' & Hs). cbn [mbind option_bind fst snd]. specialize (Hs _ Hc Hz). destruct (0 <? l); [apply round_fail|]. apply round_next; state. }
  destruct (c =? 41); [apply round_fail|]. destruct (negb _); [apply round_fail|]. destruct (skip_until_ok (o_pos st) (cstr " -/("%string) Hp) as (p' & c' & -> & Hp' & Hs). cbn [mbind option_bind fst]. exists (RNext (at_pos st p')). split; [reflexivity|]. split; [state|]. cbn [at_pos o_pos].
  destruct (Z.eq_dec c 47) as [->|H47]; [destruct (Nat.eq_dec p' (o_pos st)); [right; auto|left; lia]|]. left. apply (Hs c Hc). change (cstr " -/("%string ++ [0]) with [32; 45; 47; 40; 0]. cbn [existsb].
  rewrite (proj2 (Z.eqb_neq c 32) Hsp), (proj2 (Z.eqb_neq c 45) Hmin), (proj2 (Z.eqb_neq c 47) H47), (proj2 (Z.eqb_neq c 40) H40), (proj2 (Z.eqb_neq c 0) Hz). reflexivity.
Qed.

Lemma other_round_ok st c : state_ok st -> sp !! o_pos st = Some c -> c <> 0 -> c <> 32 -> round_ok (o_pos st) (other_round sp st).
Proof.
  intros Hst Hc Hz Hsp. pose proof (ok_pos _ Hst) as Hp. unfold other_round. rewrite Hc. cbn [mbind option_bind].
  assert ((o_pos st < n)%nat) as Hlt by (destruct (read _ _ Hn _ Hp) as (c' & Hc' & Hl); apply Hl; congruence).
  destruct (Z.eqb_spec c 43) as [->|]; [apply other_sign_ok; assumption|]. destruct (Z.eqb_spec c 45) as [->|]; [apply other_sign_ok; assumption|]. cbn [orb].
  scan Hn; [|apply other_word_ok; assumption]. scan Hn; [apply other_time_ok; [exact Hst|lia|lia]|apply other_number_ok; [exact Hst|lia|lia]].
Qed.

Lemma other_loop_ok fuel st : state_ok st -> (n - o_pos st < fuel)%nat -> exists r, other_loop sp fuel st = Some r /\ forall st', r = Some st' -> state_ok st'.
Proof.
  revert st. induction fuel as [|fuel IH]; intros st Hst Hf; [lia|]. pose proof (nul_length _ _ Hn) as Hlen. cbn [other_loop].
  destruct (skip_while_ok sp n Hn (fun c => c =? 32) (length sp) (o_pos st) eq_refl (ok_pos _ Hst) ltac:(lia)) as (p & c & E & Hp & Hc & Hns & _). unfold string_skip_spaces. rewrite E. cbn [mbind option_bind fst snd].
  assert (state_ok (at_pos st p)) as Hst' by state. destruct (Z.eqb_spec c 0) as [->|Hz]; [exists (Some (at_pos st p)); split; [reflexivity|]; intros st' [= <-]; exact Hst'|].
  apply Z.eqb_neq in Hns. destruct (other_round_ok (at_pos st p) c Hst' Hc Hz Hns) as (r & -> & Hr). cbn [mbind option_bind]. cbn [at_pos o_pos] in Hr. destruct r as [|st1|st1]; [exists None; split; [reflexivity|]; intros ? [=]| |].
  - destruct Hr as [Hst1 Hpos]. pose proof (ok_pos _ Hst1) as Hp1. destruct (skip_while_ok sp n Hn (fun c => (c =? 45) || (c =? 47) || (c =? 46) || (c =? 44)) (length sp) (o_pos st1) eq_refl Hp1 ltac:(lia)) as (p' & c' & E' & Hp' & _ & _ & Hs). unfold string_skip_separators. rewrite E'. cbn [mbind option_bind fst].
    assert ((p < p')%nat) as Hlt. { destruct Hpos as [Hpos|[Hpos H47]]; [lia|]. rewrite <- Hpos in H47. specialize (Hs 47 H47 eq_refl). lia. }
    apply IH; [state|]. cbn [at_pos o_pos]. lia.
  - destruct Hr as [Hst1 Hpos]. pose proof (ok_pos _ Hst1). apply IH; [exact Hst1|lia].
Qed.

Lemma place_numbers_ok st f : state_ok st -> place_numbers st = Some f -> fields_ok f.
Proof.
  intros [_ Hf _ Hnum]. unfold place_numbers. destruct (num st) as [|a [|b [|c [|d l]]]]; repeat (apply Forall_cons_1 in Hnum as [? Hnum]).
  - destruct (has_year st); intros [= <-]. exact Hf.
  - destruct (has_mon st); intros [= <-]; in_range.
  - destruct (has_year st); [|destruct (has_mon st)]; intros [= <-]; in_range. apply full_year_range; lia.
  - intros [= <-]. in_range. apply full_year_range; lia.
  - discriminate.
Qed.

Lemma otherstring_ok : exists r, js_date_parse_otherstring sp = Some r /\ forall f loc, r = Some (f, loc) -> fields_ok f.
Proof.
  unfold js_date_parse_otherstring. pose proof (nul_length _ _ Hn). destruct (other_loop_ok (length sp) (MkOther 0 [2001; 1; 1; 0; 0; 0; 0; 0; 0] true false false false [])) as (r & -> & Hr).
  { constructor; cbn; [lia|apply start_ok; cbn; lia|lia|constructor]. } { cbn. lia. }
  cbn [mbind option_bind]. destruct r as [st|]; [|exists None; split; [reflexivity|intros ? ? [=]]]. specialize (Hr st eq_refl). destruct (3 <? _); [exists None; split; [reflexivity|intros ? ? [=]]|].
  eexists. split; [reflexivity|]. intros f loc E. destruct (place_numbers st) as [f0|] eqn:Ep; [|discriminate]. pose proof (place_numbers_ok _ _ Hr Ep) as Hf. pose proof (fields_get _ 1 Hf ltac:(lia)) as H1. cbn [field_range] in H1.
  destruct (Z.ltb_spec (f0 !!! 1%nat) 1); [discriminate|]. destruct (f0 !!! 2%nat <? 1); [discriminate|]. injection E as <- <-. in_range.
Qed.

End Other.
