(* ===== verification/DateTheorems.v ===== *)
(** Dates: the calendar is counted right, fields and time values are inverse, what
    [toISOString] prints is parsed back, and [Date.parse] ends on every string. *)
From Stdlib Require Import ZArith Lia String.
From S2P Require Import Prelude Float64 Date DateSpecs DateParseSpecs.
From stdpp Require Import base tactics numbers option list.

Open Scope Z_scope.

Definition MAX_TIME : Z := 8640000000000000.

Lemma time_clip_in t : Z.abs t <= MAX_TIME -> time_clip t = Some t.
Proof. unfold MAX_TIME, time_clip. intros H. rewrite (proj2 (Z.leb_le _ _)), (proj2 (Z.leb_le _ _)) by lia. reflexivity. Qed.

Lemma time_value_year y i dd h m s ms : civil y i dd -> clock h m s ms -> Z.abs (time_value y i dd h m s ms) <= MAX_TIME -> -271821 <= y <= 275760.
Proof. unfold MAX_TIME, time_value. intros Hc Hk H. pose proof (day_ms_range _ _ _ _ Hk). apply (year_range _ _ _ Hc). lia. Qed.

Lemma month_len_range y i : 0 <= i <= 11 -> 28 <= month_len y i <= 31.
Proof. intros H. rewrite month_len_table by exact H. pose proof (days_in_year_range y). month_case H; month_tables; lia. Qed.

(** ** The calendar *)

(** The next day of year, month from 0 and day from 1, by the rule of leap years. *)
Definition last_day (y i : Z) : Z := if (i =? 1) && leap y then 29 else month_days !!! Z.to_nat i.

Definition next_day (y i d : Z) : Z * Z * Z := if d <? last_day y i then (y, i, d + 1) else if i <? 11 then (y, i + 1, 1) else (y + 1, 0, 1).

Lemma last_day_len y i : last_day y i = month_len y i \/ ~ 0 <= i <= 11.
Proof.
  destruct (decide (0 <= i <= 11)) as [H|H]; [left|auto]. unfold last_day. rewrite month_len_table, days_in_year_spec by exact H. destruct (leap y); month_case H; reflexivity.
Qed.

Lemma day_number_next y i dd : civil y i dd -> let '(y', i', d') := next_day y i (dd + 1) in civil y' i' (d' - 1) /\ day_number y' i' (d' - 1) = day_number y i dd + 1.
Proof.
  intros [Hi Hd]. unfold next_day. destruct (last_day_len y i) as [->|]; [|tauto]. destruct (Z.ltb_spec (dd + 1) (month_len y i)).
  { unfold civil, day_number. replace (dd + 1 + 1 - 1) with (dd + 1) by lia. lia. }
  assert (dd = month_len y i - 1) as -> by lia. unfold civil, day_number. destruct (Z.ltb_spec i 11).
  - pose proof (month_len_range y (i + 1) ltac:(lia)). split; [lia|]. rewrite !days_before_table, month_len_table by lia. clear Hd H H1. assert (0 <= i <= 11) as Hi' by lia. month_case Hi'; try lia; month_tables; lia.
  - assert (i = 11) as -> by lia. pose proof (month_len_range (y + 1) 0 ltac:(lia)). split; [lia|]. rewrite days_from_year_succ, !days_before_table, month_len_table by lia. month_tables. lia.
Qed.

(** ** Digits that were printed are read back *)

(** The number digits denote, after [v]. *)
Definition digits_value (v : Z) (l : list Z) : Z := fold_left (fun v c => v * 10 + c - 48) l v.

Definition digit_list (l : list Z) : Prop := Forall (fun c => 48 <= c <= 57) l.

Lemma digit_test c : 48 <= c <= 57 -> is_digit c = true.
Proof. intros H. unfold is_digit. rewrite (proj2 (Z.leb_le _ _)), (proj2 (Z.leb_le _ _)) by lia. reflexivity. Qed.

Lemma digits_value_app v a b : digits_value v (a ++ b) = digits_value (digits_value v a) b.
Proof. apply fold_left_app. Qed.

Lemma decimal_spec fuel n : 0 <= n < 2 ^ Z.of_nat fuel -> digit_list (decimal fuel n) /\ digits_value 0 (decimal fuel n) = n.
Proof.
  revert n. induction fuel as [|fuel IH]; intros n Hn; [change (2 ^ Z.of_nat 0) with 1 in Hn; split; [constructor|cbn; lia]|]. cbn [decimal]. destruct (Z.ltb_spec n 10).
  - split; [repeat constructor; lia|]. cbn. lia.
  - rewrite Nat2Z.inj_succ, Z.pow_succ_r in Hn by lia. destruct (IH (n / 10)) as [Hd Hv]; [split; [apply Z.div_pos; lia|apply Z.div_lt_upper_bound; lia]|]. pose proof (Z.mod_pos_bound n 10 eq_refl). split; [apply Forall_app; split; [exact Hd|repeat constructor; lia]|].
    rewrite digits_value_app, Hv. cbn. pose proof (Z.div_mod n 10 ltac:(lia)). lia.
Qed.

Lemma decimal_length fuel w n : (0 < w)%nat -> 0 <= n < 10 ^ Z.of_nat w -> (length (decimal fuel n) <= w)%nat.
Proof.
  revert w n. induction fuel as [|fuel IH]; intros w n Hw Hn; cbn [decimal]; [cbn; lia|]. destruct (Z.ltb_spec n 10); [cbn; lia|]. rewrite length_app. cbn [length].
  destruct w as [|[|w]]; [lia|change (10 ^ Z.of_nat 1) with 10 in Hn; lia|]. rewrite (Nat2Z.inj_succ (S w)), Z.pow_succ_r in Hn by lia. specialize (IH (S w) (n / 10) ltac:(lia)). enough (0 <= n / 10 < 10 ^ Z.of_nat (S w)) by (specialize (IH H0); lia).
  split; [apply Z.div_pos; lia|apply Z.div_lt_upper_bound; lia].
Qed.

Lemma zeros_value k : digits_value 0 (replicate k 48) = 0.
Proof. induction k as [|k IH]; [reflexivity|]. exact IH. Qed.

(** [%0<w>d] of a number of at most [w] digits has [w] digits and its value. *)
Lemma zero_padded_spec w n : (0 < w)%nat -> 0 <= n < 10 ^ Z.of_nat w -> length (zero_padded w n) = w /\ digit_list (zero_padded w n) /\ digits_value 0 (zero_padded w n) = n.
Proof.
  intros Hw Hn. unfold zero_padded. cbv zeta. pose proof (decimal_length (S (Z.to_nat (Z.log2 n))) w n Hw Hn) as Hl. destruct (decimal_spec (S (Z.to_nat (Z.log2 n))) n) as [Hd Hv].
  { split; [lia|]. pose proof (Z.log2_nonneg n). destruct (Z.eq_dec n 0) as [->|]; [reflexivity|]. replace (Z.of_nat (S (Z.to_nat (Z.log2 n)))) with (Z.succ (Z.log2 n)) by lia. apply Z.log2_spec. lia. }
  split; [rewrite length_app, length_replicate; lia|]. split; [apply Forall_app; split; [apply Forall_replicate; lia|exact Hd]|]. rewrite digits_value_app, zeros_value. exact Hv.
Qed.

(** The rest of the buffer at a position. *)
Definition at_rest (sp : list Z) (p : nat) (l : list Z) : Prop := drop p sp = l.

Lemma at_read sp p c l : at_rest sp p (c :: l) -> sp !! p = Some c /\ at_rest sp (S p) l.
Proof.
  unfold at_rest. intros H. split; [rewrite <- (Nat.add_0_r p), <- lookup_drop, H; reflexivity|]. replace (S p) with (p + 1)%nat by lia. rewrite <- drop_drop, H. reflexivity.
Qed.

Lemma at_length sp p l : at_rest sp p l -> (length l <= length sp)%nat.
Proof. intros <-. rewrite length_drop. lia. Qed.

Lemma skip_char_at sp p c l : at_rest sp p (c :: l) -> string_skip_char sp p c = Some (true, S p) /\ at_rest sp (S p) l.
Proof. intros H. apply at_read in H as [H H']. unfold string_skip_char. rewrite H. cbn [mbind option_bind]. rewrite Z.eqb_refl. auto. Qed.

Lemma digits_loop_at sp l rest fuel p p_start v : l <> [] -> digit_list l -> at_rest sp p (l ++ rest) -> (length l <= fuel)%nat -> (p_start <= p)%nat -> 0 <= v -> (v + 1) * 10 ^ Z.of_nat (length l) <= 1000000000 ->
  digits_loop sp fuel p p_start (p - p_start + length l) v = Some (Some (digits_value v l, (p + length l)%nat)) /\ at_rest sp (p + length l) rest.
Proof.
  intros Hne Hd. revert fuel p v Hne. induction Hd as [|c l Hc Hd IH]; intros fuel p v Hne Hat Hf Hp Hv Hb; [congruence|]. destruct fuel as [|fuel]; [cbn in Hf; lia|]. apply at_read in Hat as [Hr Hat]. cbn [digits_loop length]. rewrite Hr. cbn [mbind option_bind]. rewrite digit_test by exact Hc.
  cbn [length] in Hb, Hf. rewrite Nat2Z.inj_succ, Z.pow_succ_r in Hb by lia. pose proof (Z.pow_pos_nonneg 10 (Z.of_nat (length l)) eq_refl ltac:(lia)) as H10.
  assert (v < 100000000) as Hv8 by nia. rewrite (proj2 (Z.leb_gt _ _)) by exact Hv8. destruct l as [|d l].
  - cbn [length]. rewrite (proj2 (Nat.eqb_eq _ _)) by lia. split; [do 3 f_equal; lia|]. replace (p + 1)%nat with (S p) by lia. exact Hat.
  - rewrite (proj2 (Nat.eqb_neq _ _)) by (cbn; lia). destruct (IH fuel (S p) (v * 10 + c - 48)) as [E Hat']; [discriminate|exact Hat|lia|lia|lia|nia|]. replace (S p - p_start + length (d :: l))%nat with (p - p_start + S (length (d :: l)))%nat in E by lia. rewrite E.
    replace (S p + length (d :: l))%nat with (p + S (length (d :: l)))%nat in * by lia. split; [reflexivity|exact Hat'].
Qed.

(** Reading the digits of a number of [w] digits. *)
Lemma read_padded sp p w n rest : (0 < w <= 8)%nat -> 0 <= n < 10 ^ Z.of_nat w -> at_rest sp p (zero_padded w n ++ rest) ->
  string_get_digits sp p w w = Some (Some (n, (p + w)%nat)) /\ at_rest sp (p + w) rest.
Proof.
  intros Hw Hn Hat. destruct (zero_padded_spec w n ltac:(lia) Hn) as (Hl & Hd & Hv). pose proof (at_length _ _ _ Hat) as Hlen. rewrite length_app in Hlen. destruct (digits_loop_at sp (zero_padded w n) rest (length sp) p p 0) as [E Hat'].
  - intros E. rewrite E in Hl. cbn in Hl. lia. - exact Hd. - exact Hat. - lia. - lia. - lia.
  - rewrite Hl. pose proof (Z.pow_le_mono_r 10 (Z.of_nat w) 9 eq_refl ltac:(lia)). change (10 ^ 9) with 1000000000 in H. lia.
  - rewrite Hl in *. rewrite Nat.sub_diag in E. cbn [Nat.add] in E. unfold string_get_digits. rewrite E. cbn [mbind option_bind]. rewrite Hv. replace (p + w - p)%nat with w by lia. rewrite Nat.ltb_irrefl. auto.
Qed.

(** The milliseconds, before the letter of the zone. *)
Lemma read_ms sp p ms val : 0 <= ms <= 999 -> at_rest sp p (46 :: zero_padded 3 ms ++ [90; 0]) ->
  string_get_milliseconds sp p val = Some (ms, (p + 4)%nat) /\ at_rest sp (p + 4) [90; 0].
Proof.
  intros Hms Hat. destruct (zero_padded_spec 3 ms ltac:(lia) ltac:(cbn; lia)) as (Hl & Hd & Hv). destruct (zero_padded 3 ms) as [|a [|b [|c [|? ?]]]]; try discriminate Hl. apply Forall_cons in Hd as [Ha Hd]. apply Forall_cons in Hd as [Hb Hd]. apply Forall_cons in Hd as [Hc _].
  cbn in Hv. pose proof (at_length _ _ _ Hat) as Hlen. cbn in Hlen. apply at_read in Hat as [Hdot Hat]. unfold string_get_milliseconds. rewrite Hdot. cbn [mbind option_bind]. change ((46 =? 46) || (46 =? 44)) with true. cbv iota.
  cbn [app] in Hat. apply at_read in Hat as [H1 Hat]. apply at_read in Hat as [H2 Hat]. apply at_read in Hat as [H3 Hat]. pose proof Hat as Hend. apply at_read in Hat as [H4 _]. remember (length sp) as fuel eqn:Ef. clear Ef. do 4 (destruct fuel as [|fuel]; [lia|]). cbn [ms_loop]. rewrite H1. cbn [mbind option_bind]. rewrite digit_test by exact Ha. rewrite (proj2 (Nat.eqb_neq _ _)) by lia.
  rewrite H2. cbn [mbind option_bind]. rewrite digit_test by exact Hb. rewrite (proj2 (Nat.eqb_neq _ _)) by lia. rewrite H3. cbn [mbind option_bind]. rewrite digit_test by exact Hc. rewrite (proj2 (Nat.eqb_neq _ _)) by lia. rewrite H4. cbn [mbind option_bind]. change (is_digit 90) with false. cbv iota. cbn [mbind option_bind fst snd].
  rewrite (proj2 (Nat.ltb_lt _ _)) by lia. change (100 / 10) with 10. change (10 / 10) with 1. split; [do 2 f_equal; lia|]. replace (p + 4)%nat with (S (S (S (S p)))) by lia. exact Hend.
Qed.

Section Dates.
Context `{TZ : TimeZone}.

Lemma utc_fields y i dd h m s ms (force : bool) : civil y i dd -> clock h m s ms ->
  get_date_fields (Some (time_value y i dd h m s ms)) false force = Some (Some (fields_of y i dd h m s ms 0)).
Proof. intros Hc Hk. apply (get_fields_spec (Some _) false force); [exact Hc|exact Hk|cbv zeta; lia]. Qed.

(** The fields as the methods of Date give them. *)
Inductive date_fields_valid : list Z -> Prop :=
| fields_valid_intro y i d h m s ms wd :
    0 <= i <= 11 -> 1 <= d <= last_day y i -> 0 <= h <= 23 -> 0 <= m <= 59 -> 0 <= s <= 59 -> 0 <= ms <= 999 -> 0 <= wd <= 6 ->
    date_fields_valid [y; i; d; h; m; s; ms; wd; 0].

(** C12: [get_date_fields] and [set_date_fields] are inverse on UTC dates: every time
    value within 8.64e15 milliseconds of 1970 has the fields of a Gregorian date and a
    time of day, from which it is computed again; and the fields of every Gregorian date
    in that range and time of day give a time value that has these fields. *)
Theorem date_fields_roundtrip :
  (forall t, Z.abs t <= MAX_TIME -> exists f, get_date_fields (Some t) false false = Some (Some f) /\ date_fields_valid f /\ set_date_fields f false = Some (Some t)) /\
  (forall y i d h m s ms t, 0 <= i <= 11 -> 1 <= d <= last_day y i -> clock h m s ms -> -271821 <= y <= 275760 ->
     set_date_fields [y; i; d; h; m; s; ms] false = Some (Some t) ->
     exists wd, get_date_fields (Some t) false false = Some (Some [y; i; d; h; m; s; ms; wd; 0])).
Proof.
  split.
  - intros t Ht. destruct (time_value_exists t) as (y & i & dd & h & m & s & ms & Hc & Hk & ->). pose proof (time_value_year _ _ _ _ _ _ _ Hc Hk Ht) as Hy. exists (fields_of y i dd h m s ms 0). split; [apply utc_fields; assumption|].
    destruct Hc as [Hi Hd]. pose proof Hk as (Hh & Hm & Hs & Hms). pose proof (month_len_range y i Hi). split.
    + constructor; try lia; [|pose proof (Z.mod_pos_bound (day_number y i dd + 4) 7 eq_refl); lia]. destruct (last_day_len y i) as [->|]; [lia|tauto].
    + unfold fields_of. rewrite set_fields_spec by lia. replace (dd + 1 - 1) with dd by lia. cbn [local_offset]. rewrite Z.add_0_r, time_clip_in by exact Ht. reflexivity.
  - intros y i d h m s ms t Hi Hd Hk Hy. destruct (last_day_len y i) as [El|]; [rewrite El in Hd|tauto]. pose proof (month_len_range y i Hi). pose proof Hk as (Hh & Hm & Hs & Hms). rewrite set_fields_spec by lia. cbn [local_offset]. rewrite Z.add_0_r. unfold time_clip. destruct (_ && _); [|discriminate]. intros [= <-].
    eexists. rewrite utc_fields by (unfold civil; auto with lia). unfold fields_of. replace (d - 1 + 1) with d by lia. reflexivity.
Qed.

(** C19: the calendar of [get_date_fields] is the Gregorian one: 1970-01-01 is a
    Thursday, and a day after any time the date is the next one by the rule of leap
    years, the day of the week is the next and the time of day is the same. *)
Theorem calendar_advances :
  get_date_fields (Some 0) false false = Some (Some [1970; 0; 1; 0; 0; 0; 0; 4; 0]) /\
  forall t, exists y i d h m s ms wd,
    get_date_fields (Some t) false false = Some (Some [y; i; d; h; m; s; ms; wd; 0]) /\
    let '(y', i', d') := next_day y i d in
    get_date_fields (Some (t + 86400000)) false false = Some (Some [y'; i'; d'; h; m; s; ms; (wd + 1) mod 7; 0]).
Proof.
  split; [vm_compute; reflexivity|]. intros t. destruct (time_value_exists t) as (y & i & dd & h & m & s & ms & Hc & Hk & ->). exists y, i, (dd + 1), h, m, s, ms, ((day_number y i dd + 4) mod 7).
  split; [apply utc_fields; assumption|]. pose proof (day_number_next y i dd Hc) as Hn. destruct (next_day y i (dd + 1)) as [[y' i'] d']. destruct Hn as [Hc' Hd'].
  replace (time_value y i dd h m s ms + 86400000) with (time_value y' i' (d' - 1) h m s ms) by (unfold time_value; lia). rewrite utc_fields by assumption. unfold fields_of. rewrite Hd'. replace (d' - 1 + 1) with d' by lia.
  rewrite Zplus_mod_idemp_l. replace (day_number y i dd + 4 + 1) with (day_number y i dd + 1 + 4) by lia. reflexivity.
Qed.

(** ** Date.parse ends *)

(** The buffer has a NUL. *)
Lemma nul_exists l : exists n, nul (l ++ [0]) n /\ (n <= length l)%nat.
Proof.
  induction l as [|c l (n & [H0 Hn] & Hl)]; [exists 0%nat; split; [split; [reflexivity|intros i c _ Hi; lia]|reflexivity]|].
  destruct (Z.eq_dec c 0) as [->|Hc]; [exists 0%nat; split; [split; [reflexivity|intros i c _ Hi; lia]|cbn; lia]|].
  exists (S n). split; [|cbn; lia]. split; [exact H0|]. intros [|i] x Hx Hi; [injection Hx as <-; exact Hc|]. apply (Hn i x Hx). lia.
Qed.

Lemma valid_ranges f : fields_ok f -> fields_valid f = true -> exists y i d h m s ms wd tz,
  f = [y; i; d; h; m; s; ms; wd; tz] /\ Z.abs y <= 2000000000 /\ 0 <= i <= 11 /\ 0 <= d <= 31 /\ 0 <= h <= 24 /\ 0 <= m <= 59 /\ 0 <= s <= 59 /\ 0 <= ms <= 999 /\ Z.abs tz <= 1439.
Proof.
  intros [Hl Hf]. do 9 (destruct f as [|? f]; [discriminate Hl|]). destruct f; [|discriminate Hl]. unfold fields_valid, field_max. cbn [forallb lookup_total list_lookup_total]. intros H. apply andb_prop in H as [H _].
  repeat match goal with H : _ && _ = true |- _ => apply andb_prop in H as [? H] | H : negb _ = true |- _ => apply negb_true_iff, Z.ltb_ge in H end.
  repeat match goal with |- exists _, _ => eexists end. split; [reflexivity|]. pose proof (Hf 0%nat _ eq_refl). pose proof (Hf 1%nat _ eq_refl). pose proof (Hf 2%nat _ eq_refl). pose proof (Hf 3%nat _ eq_refl). pose proof (Hf 4%nat _ eq_refl).
  pose proof (Hf 5%nat _ eq_refl). pose proof (Hf 6%nat _ eq_refl). pose proof (Hf 8%nat _ eq_refl). cbn [field_range] in *. lia.
Qed.

(** The time value [Date.parse] computes from fields that are valid. *)
Lemma parse_fields_ok f loc : fields_ok f -> fields_valid f = true ->
  exists d, set_date_fields (take 7 f) loc = Some d /\ forall v, d = Some v -> Z.abs v <= MAX_TIME /\ exact (v - f !!! 8%nat * 60000) = Some (v - f !!! 8%nat * 60000).
Proof.
  intros Hf Hv. destruct (valid_ranges f Hf Hv) as (y & i & d & h & m & s & ms & wd & tz & -> & Hy & Hi & Hd & Hh & Hm & Hs & Hms & Htz). cbn [take lookup_total list_lookup_total].
  assert (Hex : forall v, Z.abs v <= MAX_TIME -> exact (v - tz * 60000) = Some (v - tz * 60000)) by (unfold MAX_TIME; intros v Hv'; apply exact_spec; lia).
  destruct (decide (-271821 <= y <= 275760)) as [Hr|Hr].
  - eexists. rewrite set_fields_spec by lia. split; [reflexivity|]. unfold time_clip. intros v E. destruct (_ && _) eqn:Ec; [|discriminate]. injection E as <-. apply andb_prop in Ec as [E1 E2]. apply Z.leb_le in E1, E2. split; [unfold MAX_TIME; lia|]. apply Hex. unfold MAX_TIME. lia.
  - exists None. rewrite set_fields_far by lia. split; [reflexivity|]. intros v [=].
Qed.

(** C13: [Date.parse] is total: on every string it reads only the buffer up to its NUL,
    its loops end, every number stays exact, and the result is NaN or a time value that
    a zone offset of less than a day may take out of the range of time values. *)
Theorem date_parse_total s : exists r, js_Date_parse s = Some r /\ forall v, r = Some v -> Z.abs v <= MAX_TIME + 1439 * 60000.
Proof.
  unfold js_Date_parse, parse_buffer. destruct (nul_exists ((fun c => if 255 <? c then (if c =? 0x2212 then 45 else 120) else c) <$> take 127 s)) as (n & Hn & _). destruct (isostring_ok _ _ Hn) as (f & loc & b & -> & Hf). cbn [mbind option_bind].
  assert (H : exists r, (if b : bool then Some (Some (f, loc)) else js_date_parse_otherstring (((fun c => if 255 <? c then (if c =? 0x2212 then 45 else 120) else c) <$> take 127 s) ++ [0])) = Some r /\ forall f loc, r = Some (f, loc) -> fields_ok f).
  { destruct b; [eexists; split; [reflexivity|]; intros f' loc' [= <- <-]; exact Hf|]. exact (otherstring_ok _ _ Hn). }
  destruct H as (r & -> & Hr). cbn [mbind option_bind]. destruct r as [[f' loc']|]; [|eexists; split; [reflexivity|]; intros ? [=]]. specialize (Hr _ _ eq_refl).
  destruct (fields_valid f') eqn:Ev; [|eexists; split; [reflexivity|]; intros ? [=]]. destruct (parse_fields_ok f' loc' Hr Ev) as (d & -> & Hd). cbn [mbind option_bind]. destruct d as [d|]; [|eexists; split; [reflexivity|]; intros ? [=]].
  destruct (Hd d eq_refl) as [Hb ->]. eexists. split; [reflexivity|]. intros v [= <-]. pose proof (fields_get _ 8 Hr ltac:(lia)) as H8. cbn [field_range] in H8. unfold MAX_TIME in *. lia.
Qed.

(** [Date.parse] subtracts the zone offset after the check of the range: a string
    gives a number that is no time value, and the string of a valid time, an hour before
    the end of the range, gives NaN because its local time is past the end. *)
Theorem date_parse_clips_early :
  js_Date_parse (cstr "+275760-09-13T00:00:00-23:59") = Some (Some (MAX_TIME + 1439 * 60000)) /\
  js_Date_parse (cstr "+275760-09-13T00:30:00+01:00") = Some None /\ js_Date_parse (cstr "+275760-09-12T23:30:00Z") = Some (Some (MAX_TIME - 1800000)).
Proof. repeat split; vm_compute; reflexivity. Qed.

(** ** toISOString and back *)

(** What follows the year. *)
Definition iso_rest (i d h m s ms : Z) (rest : list Z) : list Z :=
  45 :: zero_padded 2 (i + 1) ++ 45 :: zero_padded 2 d ++ 84 :: zero_padded 2 h ++ 58 :: zero_padded 2 m ++ 58 :: zero_padded 2 s ++ 46 :: zero_padded 3 ms ++ 90 :: rest.

Definition iso_year (y : Z) : list Z := if (0 <=? y) && (y <=? 9999) then zero_padded 4 y else (if y <? 0 then 45 else 43) :: zero_padded 6 (Z.abs y).

Lemma iso_month_at sp p y i d h m s ms : 0 <= i <= 11 -> 1 <= d <= 31 -> clock h m s ms -> at_rest sp p (iso_rest i d h m s ms [0]) ->
  iso_month sp [y; 0; 1; 0; 0; 0; 0; 0; 0] p = Some ([y; i; d; h; m; s; ms; 0; 0], false, true).
Proof.
  intros Hi Hd (Hh & Hm & Hs & Hms) Hat. unfold iso_rest in Hat.
  apply skip_char_at in Hat as [E1 Hat]. apply read_padded in Hat as [E2 Hat]; [|lia|change (10 ^ Z.of_nat 2) with 100; lia]. apply skip_char_at in Hat as [E3 Hat]. apply read_padded in Hat as [E4 Hat]; [|lia|change (10 ^ Z.of_nat 2) with 100; lia].
  apply skip_char_at in Hat as [E5 Hat]. apply read_padded in Hat as [E6 Hat]; [|lia|change (10 ^ Z.of_nat 2) with 100; lia]. apply skip_char_at in Hat as [E7 Hat]. apply read_padded in Hat as [E8 Hat]; [|lia|change (10 ^ Z.of_nat 2) with 100; lia].
  apply skip_char_at in Hat as [E9 Hat]. apply read_padded in Hat as [E10 Hat]; [|lia|change (10 ^ Z.of_nat 2) with 100; lia]. apply (read_ms _ _ _ 0) in Hat as [E11 Hat]; [|lia]. apply at_read in Hat as [E12 Hat]. apply at_read in Hat as [E13 _].
  unfold iso_month. rewrite E1. cbn [mbind option_bind fst snd]. rewrite E2. cbn [mbind option_bind]. rewrite (proj2 (Z.ltb_ge _ _)) by lia. rewrite E3. cbn [mbind option_bind fst snd]. rewrite E4. cbn [mbind option_bind]. rewrite (proj2 (Z.ltb_ge _ _)) by lia.
  unfold iso_time. rewrite E5. cbn [mbind option_bind fst snd]. rewrite E6. cbn [mbind option_bind]. rewrite E7. cbn [mbind option_bind fst snd negb]. rewrite E8. cbn [mbind option_bind]. rewrite E9. cbn [mbind option_bind fst snd]. rewrite E10. cbn [mbind option_bind insert list_insert lookup_total list_lookup_total].
  rewrite E11. cbn [mbind option_bind fst snd]. unfold iso_zone. rewrite E12. cbn [mbind option_bind]. change (negb (90 =? 0)) with true. cbv iota. unfold string_get_tzoffset. rewrite E12. cbn [mbind option_bind]. change ((90 =? 43) || (90 =? 45)) with false. change (negb (90 =? 90)) with false. cbv iota.
  cbn [mbind option_bind]. rewrite E13. cbn [mbind option_bind insert list_insert]. replace (i + 1 - 1) with i by lia. reflexivity.
Qed.

Lemma isostring_at y i d h m s ms : Z.abs y <= 999999 -> 0 <= i <= 11 -> 1 <= d <= 31 -> clock h m s ms ->
  js_date_parse_isostring (iso_year y ++ iso_rest i d h m s ms [0]) = Some ([y; i; d; h; m; s; ms; 0; 0], false, true).
Proof.
  intros Hy Hi Hd Hk. unfold iso_year, js_date_parse_isostring. set (rest := iso_rest i d h m s ms [0]). destruct (Z.leb_spec 0 y) as [H0|H0], (Z.leb_spec y 9999) as [H9|H9]; cbn [andb]; try lia.
  1: { destruct (zero_padded_spec 4 y ltac:(lia) ltac:(change (10 ^ Z.of_nat 4) with 10000; lia)) as (Hl & Hdg & _). destruct (read_padded (zero_padded 4 y ++ rest) 0 4 y rest ltac:(lia) ltac:(change (10 ^ Z.of_nat 4) with 10000; lia) eq_refl) as [E Hat].
    destruct (zero_padded 4 y) as [|c l]; [discriminate Hl|]. apply Forall_cons in Hdg as [Hc _]. cbn [lookup list_lookup app mbind option_bind] in *. rewrite (proj2 (Z.eqb_neq c 45)), (proj2 (Z.eqb_neq c 43)) by lia. cbn [orb]. rewrite E. cbn [mbind option_bind insert list_insert]. apply iso_month_at; assumption. }
  all: destruct (Z.ltb_spec y 0) as [Hn|Hn]; try lia; cbn [app lookup list_lookup mbind option_bind].
  all: change ((43 =? 45) || (43 =? 43)) with true; change ((45 =? 45) || (45 =? 43)) with true; change (43 =? 45) with false; change (45 =? 45) with true; cbv iota; cbn [andb].
  all: match goal with |- context [string_get_digits (?c :: _)] => destruct (read_padded (c :: zero_padded 6 (Z.abs y) ++ rest) 1 6 (Z.abs y) rest ltac:(lia) ltac:(change (10 ^ Z.of_nat 6) with 1000000; lia) eq_refl) as [-> Hat] end; cbn [mbind option_bind insert list_insert].
  - replace (Z.abs y) with y by lia. replace (Z.abs y) with y in Hat by lia. apply iso_month_at; assumption.
  - rewrite (proj2 (Z.eqb_neq _ _)) by lia. replace (- Z.abs y) with y by lia. apply iso_month_at; assumption.
Qed.

Lemma parse_buffer_id s : (length s <= 127)%nat -> Forall (fun c => c <= 255) s -> parse_buffer s = s ++ [0].
Proof.
  intros Hl Hs. unfold parse_buffer. rewrite take_ge by exact Hl. f_equal. rewrite <- (list_fmap_id s) at 2. apply list_fmap_ext. intros i c Hc. rewrite (proj2 (Z.ltb_ge _ _)); [reflexivity|]. exact (proj1 (Forall_lookup _ s) Hs i c Hc).
Qed.

Lemma padded_small w n : (0 < w)%nat -> 0 <= n < 10 ^ Z.of_nat w -> Forall (fun c => c <= 255) (zero_padded w n) /\ length (zero_padded w n) = w.
Proof. intros Hw Hn. destruct (zero_padded_spec w n Hw Hn) as (Hl & Hd & _). split; [|exact Hl]. eapply Forall_impl; [exact Hd|]. cbn. lia. Qed.

Lemma iso_buffer y i d h m s ms : Z.abs y <= 999999 -> 0 <= i <= 11 -> 1 <= d <= 31 -> clock h m s ms ->
  parse_buffer (iso_year y ++ iso_rest i d h m s ms []) = iso_year y ++ iso_rest i d h m s ms [0].
Proof.
  intros Hy Hi Hd (Hh & Hm & Hs & Hms). assert (H2 : forall n, 0 <= n <= 99 -> Forall (fun c => c <= 255) (zero_padded 2 n) /\ length (zero_padded 2 n) = 2%nat) by (intros n Hn; apply padded_small; [lia|change (10 ^ Z.of_nat 2) with 100; lia]).
  destruct (padded_small 3 ms ltac:(lia) ltac:(change (10 ^ Z.of_nat 3) with 1000; lia)) as [F3 L3]. destruct (H2 (i + 1)) as [F1 L1]; [lia|]. destruct (H2 d) as [F4 L4]; [lia|]. destruct (H2 h) as [F5 L5]; [lia|]. destruct (H2 m) as [F6 L6]; [lia|]. destruct (H2 s) as [F7 L7]; [lia|].
  assert (Hyr : Forall (fun c => c <= 255) (iso_year y) /\ (length (iso_year y) <= 7)%nat).
  { unfold iso_year. destruct (Z.leb_spec 0 y), (Z.leb_spec y 9999); cbn [andb].
    1: destruct (padded_small 4 y ltac:(lia) ltac:(change (10 ^ Z.of_nat 4) with 10000; lia)) as [F ->]; split; [exact F|lia].
    all: destruct (padded_small 6 (Z.abs y) ltac:(lia) ltac:(change (10 ^ Z.of_nat 6) with 1000000; lia)) as [F L]; cbn [length]; rewrite L; split; [constructor; [destruct (y <? 0); lia|exact F]|lia]. }
  destruct Hyr as [F0 L0]. rewrite parse_buffer_id.
  - unfold iso_rest. repeat (first [rewrite <- app_assoc | rewrite <- app_comm_cons]; f_equal). 
  - unfold iso_rest. repeat first [rewrite length_app | progress cbn [length]]. lia.
  - unfold iso_rest. apply Forall_app. split; [exact F0|]. repeat first [assumption | apply Forall_cons; split; [lia|] | apply Forall_app; split | apply Forall_nil; exact I].
Qed.

Lemma iso_string_spec y i d h m s ms wd : 0 <= i <= 11 -> 1 <= d <= 31 -> clock h m s ms ->
  date_part 2 3 y i d wd ++ time_part 2 h m s ms 0 = iso_year y ++ iso_rest i d h m s ms [].
Proof.
  intros Hi Hd (Hh & Hm & Hs & Hms). assert (H : forall w n, 0 <= n -> format_d w n = zero_padded w n) by (intros w n Hn; unfold format_d; rewrite (proj2 (Z.ltb_ge n 0)) by exact Hn; reflexivity).
  unfold date_part, time_part, iso_year, iso_rest. rewrite (H 2%nat (i + 1)), (H 2%nat d), (H 2%nat h), (H 2%nat m), (H 2%nat s), (H 3%nat ms) by lia.
  destruct (Z.leb_spec 0 y); [rewrite (H 4%nat y) by lia|]; rewrite <- !app_assoc; reflexivity.
Qed.

(** C7: [toISOString] and [Date.parse] round trip: every time value is printed, and the
    string printed is parsed to the same time value. *)
Theorem iso_roundtrip t : Z.abs t <= MAX_TIME -> exists s, get_date_string (Some t) 0x23 = mret s /\ js_Date_parse s = Some (Some t).
Proof.
  intros Ht. destruct (time_value_exists t) as (y & i & dd & h & m & s & ms & Hc & Hk & ->). pose proof (time_value_year _ _ _ _ _ _ _ Hc Hk Ht) as Hy. destruct Hc as [Hi Hd] eqn:Ec. clear Ec. pose proof (month_len_range y i Hi) as Hl. pose proof Hk as (Hh & Hm & Hs & Hms).
  eexists. split.
  - unfold get_date_string. change (Z.land (Z.shiftr 0x23 4) 0x0F) with 2. change (Z.land 0x23 0x0F) with 3. change (negb (Z.land 2 1 =? 0)) with false. rewrite utc_fields by assumption. unfold fields_of. cbn [lookup_total list_lookup_total]. change (negb (Z.land 3 1 =? 0)) with true. change (negb (Z.land 3 2 =? 0)) with true. cbv iota.
    rewrite iso_string_spec by (assumption || lia). reflexivity.
  - unfold js_Date_parse. rewrite iso_buffer by (assumption || lia). rewrite isostring_at by (assumption || lia). cbn [mbind option_bind].
    unfold fields_valid, field_max. cbn [forallb lookup_total list_lookup_total]. rewrite !(proj2 (Z.ltb_ge _ _)) by lia. rewrite (proj2 (Z.eqb_neq h 24)) by lia. cbn [negb andb take].
    rewrite set_fields_spec by lia. cbn [local_offset mbind option_bind]. replace (dd + 1 - 1) with dd by lia. rewrite Z.add_0_r, time_clip_in by exact Ht. unfold MAX_TIME in Ht. rewrite exact_bind by lia. do 2 f_equal. lia.
Qed.

End Dates.

(** ** Instances *)

(** Two hours east of UTC. *)
#[refine] Instance east_zone : TimeZone := {| getTimezoneOffset _ := -120 |}.
Proof. intros _. lia. Defined.

(** 2024-02-29T23:59:59.999Z, and the last day of February. *)
Lemma date_fields_witness : exists wd, get_date_fields (Some 1709251199999) false false = Some (Some [2024; 1; 29; 23; 59; 59; 999; wd; 0]).
Proof.
  apply (proj2 date_fields_roundtrip 2024 1 29 23 59 59 999 1709251199999); [lia|split; [lia|vm_compute; discriminate]|unfold clock; lia|lia|vm_compute; reflexivity].
Defined.

(** The first time value. *)
Lemma iso_roundtrip_witness : exists s, get_date_string (Some (-8640000000000000)) 0x23 = mret s /\ js_Date_parse s = Some (Some (-8640000000000000)).
Proof. apply (iso_roundtrip (-8640000000000000)). vm_compute. discriminate. Defined.
