(* ===== verification/LreExec.v ===== *)
(** The matcher of regular expressions and its code generator (libregexp.c):
    definitions.

    [lre_exec_backtrack] runs bytecode against a buffer of characters, with a stack of
    states to come back to.  [reop] is an instruction with its operands, [decode] reads
    one, [step] is one round of the switch, and [round] and [run] are the loop with the
    stack of states; [CRecurse] is the inner loop at the label [recurse].

    A pointer into the buffer or the bytecode is an index.  Reading outside, a failed
    assert, an unknown opcode and a stack of the program that is too small have no
    result ([None], [Bad]).  The call with [no_recurse] of a simple quantifier runs
    code that leaves the stack of the program as it is; other code has no result
    there.

    [regex] is what the parser has read; [emit] is the code it appends while it reads it,
    in the direction of the characters, as instructions; [assemble] gives the bytes.
    The jumps are relative, so that inserting an instruction before a piece of code does
    not change it.  Memory errors of the buffer end the compilation and are not
    modelled. *)
From Stdlib Require Import ZArith Lia.
From S2P Require Import Prelude Cutils.
From stdpp Require Import base tactics numbers option list.

Open Scope Z_scope.

(** Case folding, and the answers of the host to a poll and to a reallocation, counted
    from the start of the match; the width of [StackInt]. *)
Class LreHost := {
  lre_canonicalize : Z -> bool -> Z;
  lre_check_timeout : nat -> bool;
  lre_realloc_ok : nat -> bool;
  StackInt_bits : Z;
  StackInt_wide : 32 <= StackInt_bits
}.

Definition INT32_MAX : Z := 2147483647.
Definition INTERRUPT_COUNTER_INIT : Z := 10000.

(** ** Instructions *)

Inductive reop : Type :=
| REOP_char (ignore_case wide : bool) (val : Z)
| REOP_dot
| REOP_any
| REOP_line_start (m : bool)
| REOP_line_end (m : bool)
| REOP_goto (val : Z)
| REOP_split (next_first : bool) (val : Z)
| REOP_match
| REOP_save (end_ : bool) (val : Z)
| REOP_save_reset (val val2 : Z)
| REOP_loop (val : Z)
| REOP_push_i32 (val : Z)
| REOP_drop
| REOP_word_boundary (not ignore_case : bool)
| REOP_back_reference (backward ignore_case : bool) (val : Z)
| REOP_range (ignore_case wide : bool) (ranges : list (Z * Z))
| REOP_lookahead (negative : bool) (val : Z)
| REOP_push_char_pos
| REOP_check_advance
| REOP_prev
| REOP_simple_greedy_quant (next_pos quant_min quant_max char_count : Z).

Definition bool_bit (b : bool) (base : Z) : Z := base + c_bool b.

Definition opcode (op : reop) : Z :=
  match op with
  | REOP_char i false _ => bool_bit i 1
  | REOP_char i true _ => bool_bit i 3
  | REOP_dot => 5
  | REOP_any => 6
  | REOP_line_start m => bool_bit m 7
  | REOP_line_end m => bool_bit m 9
  | REOP_goto _ => 11
  | REOP_split next _ => bool_bit next 12
  | REOP_match => 14
  | REOP_save e _ => bool_bit e 15
  | REOP_save_reset _ _ => 17
  | REOP_loop _ => 18
  | REOP_push_i32 _ => 19
  | REOP_drop => 20
  | REOP_word_boundary n i => bool_bit i (21 + 2 * c_bool n)
  | REOP_back_reference b i _ => bool_bit i (25 + 2 * c_bool b)
  | REOP_range i false _ => bool_bit i 29
  | REOP_range i true _ => bool_bit i 31
  | REOP_lookahead n _ => bool_bit n 33
  | REOP_push_char_pos => 35
  | REOP_check_advance => 36
  | REOP_prev => 37
  | REOP_simple_greedy_quant _ _ _ _ => 38
  end.

Section Code.
Context (bc : list Z).

(** Little-endian, at a position. *)
Definition get_bytes (n pos : nat) : option Z := if (pos + n <=? length bc)%nat then Some (le_value (take n (drop pos bc))) else None.
Definition get_u8_at : nat -> option Z := get_bytes 1.
Definition get_u16_at : nat -> option Z := get_bytes 2.
Definition get_u32_at : nat -> option Z := get_bytes 4.

Fixpoint get_ranges (w n pos : nat) : option (list (Z * Z)) :=
  match n with
  | O => Some []
  | S n => low ← get_bytes w pos; high ← get_bytes w (pos + w); l ← get_ranges w n (pos + 2 * w); Some ((low, high) :: l)
  end.

(** The instruction at [pos] and the position after it. *)
Definition decode (pos : nat) : option (reop * nat) :=
  o ← get_u8_at pos;
  let p := S pos in
  let op0 op := Some (op, p) in
  let op32 (f : Z -> reop) := v ← get_u32_at p; Some (f v, p + 4)%nat in
  let op8 (f : Z -> reop) := v ← get_u8_at p; Some (f v, S p) in
  let oprange (w : nat) (f : list (Z * Z) -> reop) := n ← get_u16_at p; l ← get_ranges w (Z.to_nat n) (p + 2); Some (f l, p + 2 + 2 * w * Z.to_nat n)%nat in
  match o with
  | 1 => v ← get_u16_at p; Some (REOP_char false false v, p + 2)%nat
  | 2 => v ← get_u16_at p; Some (REOP_char true false v, p + 2)%nat
  | 3 => op32 (REOP_char false true)
  | 4 => op32 (REOP_char true true)
  | 5 => op0 REOP_dot
  | 6 => op0 REOP_any
  | 7 => op0 (REOP_line_start false)
  | 8 => op0 (REOP_line_start true)
  | 9 => op0 (REOP_line_end false)
  | 10 => op0 (REOP_line_end true)
  | 11 => op32 REOP_goto
  | 12 => op32 (REOP_split false)
  | 13 => op32 (REOP_split true)
  | 14 => op0 REOP_match
  | 15 => op8 (REOP_save false)
  | 16 => op8 (REOP_save true)
  | 17 => v ← get_u8_at p; v2 ← get_u8_at (S p); Some (REOP_save_reset v v2, p + 2)%nat
  | 18 => op32 REOP_loop
  | 19 => op32 REOP_push_i32
  | 20 => op0 REOP_drop
  | 21 => op0 (REOP_word_boundary false false)
  | 22 => op0 (REOP_word_boundary false true)
  | 23 => op0 (REOP_word_boundary true false)
  | 24 => op0 (REOP_word_boundary true true)
  | 25 => op8 (REOP_back_reference false false)
  | 26 => op8 (REOP_back_reference false true)
  | 27 => op8 (REOP_back_reference true false)
  | 28 => op8 (REOP_back_reference true true)
  | 29 => oprange 2%nat (REOP_range false false)
  | 30 => oprange 2%nat (REOP_range true false)
  | 31 => oprange 4%nat (REOP_range false true)
  | 32 => oprange 4%nat (REOP_range true true)
  | 33 => op32 (REOP_lookahead false)
  | 34 => op32 (REOP_lookahead true)
  | 35 => op0 REOP_push_char_pos
  | 36 => op0 REOP_check_advance
  | 37 => op0 REOP_prev
  | 38 => a ← get_u32_at p; b ← get_u32_at (p + 4); c ← get_u32_at (p + 8); d ← get_u32_at (p + 12); Some (REOP_simple_greedy_quant a b c d, p + 16)%nat
  | _ => None
  end.

End Code.

(** [pc + (int)val]. *)
Definition jump (pos : nat) (val : Z) : option nat := let q := Z.of_nat pos + swrap 32 val in if q <? 0 then None else Some (Z.to_nat q).

(** ** Characters *)

Definition is_line_terminator (c : Z) : bool := (c =? 10) || (c =? 13) || (c =? 0x2028) || (c =? 0x2029).
Definition is_word_char (c : Z) : bool := ((48 <=? c) && (c <=? 57)) || ((97 <=? c) && (c <=? 122)) || ((65 <=? c) && (c <=? 90)) || (c =? 95).

(** The buffer: its units, and [cbuf_type]: 0 for 8-bit units, 1 for 16-bit units, 2 for
    16-bit units with surrogate pairs. *)
Section Chars.
Context (cbuf : list Z) (cbuf_type : Z).

(** [GET_CHAR] with the end [cbuf_end]: the character and the position after it. *)
Definition GET_CHAR (cptr cbuf_end : nat) : option (Z * nat) :=
  c ← cbuf !! cptr;
  if is_hi_surrogate c && (cbuf_type =? 2) && (S cptr <? cbuf_end)%nat then
    d ← cbuf !! S cptr;
    if is_lo_surrogate d then Some (from_surrogate c d, S (S cptr)) else Some (c, S cptr)
  else Some (c, S cptr).

Definition PEEK_CHAR (cptr cbuf_end : nat) : option Z := cp ← GET_CHAR cptr cbuf_end; Some cp.1.

(** [GET_PREV_CHAR] with the start [cbuf_start]. *)
Definition GET_PREV_CHAR (cptr cbuf_start : nat) : option (Z * nat) :=
  match cptr with
  | O => None
  | S p =>
      c ← cbuf !! p;
      if is_lo_surrogate c && (cbuf_type =? 2) && (cbuf_start <? p)%nat then
        d ← cbuf !! pred p;
        if is_hi_surrogate d then Some (from_surrogate d c, pred p) else Some (c, p)
      else Some (c, p)
  end.

Definition PEEK_PREV_CHAR (cptr cbuf_start : nat) : option Z := cp ← GET_PREV_CHAR cptr cbuf_start; Some cp.1.
Definition PREV_CHAR (cptr cbuf_start : nat) : option nat := cp ← GET_PREV_CHAR cptr cbuf_start; Some cp.2.

Fixpoint prev_chars (n : nat) (cptr : nat) : option nat :=
  match n with O => Some cptr | S n => p ← PREV_CHAR cptr 0; prev_chars n p end.

End Chars.

(** The binary search of [REOP_range], the ranges being read from the bytecode;
    [idx_max - 1] wraps. *)
Fixpoint range_loop (fuel : nat) (l : list (Z * Z)) (c idx_min idx_max : Z) : option bool :=
  match fuel with
  | O => None
  | S fuel =>
      if idx_min <=? idx_max then
        let idx := wrap 32 (idx_min + idx_max) / 2 in
        r ← l !! Z.to_nat idx;
        if c <? r.1 then range_loop fuel l c idx_min (wrap 32 (idx - 1))
        else if r.2 <? c then range_loop fuel l c (idx + 1) idx_max
        else Some true
      else Some false
  end.

Definition range_test (wide : bool) (l : list (Z * Z)) (c : Z) : option bool :=
  first ← head l;
  lst ← last l;
  if c <? first.1 then Some false
  else if negb wide && (0xffff <=? c) && (lst.2 =? 0xffff) then Some true
  else if lst.2 <? c then Some false
  else range_loop (S (length l)) l c 0 (Z.of_nat (length l) - 1).

(** ** States *)

(** Where a thread is: [capture] has two positions for each capture, [stack] its top at
    the head. *)
Record config : Type := MkConfig {
  pc : nat;
  cptr : nat;
  capture : list (option nat);
  stack : list Z
}.

Inductive REExecStateEnum : Type := RE_EXEC_STATE_SPLIT | RE_EXEC_STATE_LOOKAHEAD | RE_EXEC_STATE_NEGATIVE_LOOKAHEAD | RE_EXEC_STATE_GREEDY_QUANT.

Record REExecState : Type := MkState {
  rs_type : REExecStateEnum;
  rs_count : Z;
  rs_config : config
}.

(** What changes in [REExecContext]; [calls] counts the questions to the host. *)
Record REExecContext : Type := MkContext {
  interrupt_counter : Z;
  state_stack : list REExecState;
  state_stack_size : Z;
  calls : nat
}.

Definition at_pc (c : config) (p : nat) : config := MkConfig p (cptr c) (capture c) (stack c).
Definition at_cptr (c : config) (p : nat) : config := MkConfig (pc c) p (capture c) (stack c).
Definition with_capture (c : config) (l : list (option nat)) : config := MkConfig (pc c) (cptr c) l (stack c).
Definition with_stack (c : config) (l : list Z) : config := MkConfig (pc c) (cptr c) (capture c) l.

(** What a round of the switch does: go on, [goto no_match], [REOP_match], push a state
    and go on, a jump that polls, or the loop of a simple quantifier with its body and
    what follows it. *)
Inductive action : Type :=
| ANext (c : config)
| AFail
| AMatch
| APush (c : config) (ty : REExecStateEnum) (rs : config)
| APoll (c : config)
| AQuant (body next : nat) (quant_min quant_max : Z).

(** The fixed part of [REExecContext] and the bytecode. *)
Record program : Type := MkProgram {
  bc_buf : list Z;
  cbuf : list Z;
  cbuf_type : Z;
  capture_count : Z;
  stack_size_max : nat;
  is_unicode : bool
}.

Section Exec.
Context `{LH : LreHost} (s : program).

Definition cbuf_end : nat := length (cbuf s).
Definition get_char (p e : nat) : option (Z * nat) := GET_CHAR (cbuf s) (cbuf_type s) p e.
Definition get_prev_char (p b : nat) : option (Z * nat) := GET_PREV_CHAR (cbuf s) (cbuf_type s) p b.
Definition fold_case (ignore_case : bool) (c : Z) : Z := if ignore_case then lre_canonicalize c (is_unicode s) else c.

(** [GET_CHAR] of the next character, unless the test for the end of the buffer holds,
    and a test of it. *)
Definition test_char (at_end : bool) (c : config) (next : nat) (test : Z -> option bool) : option action :=
  if at_end then Some AFail
  else
    cp ← get_char (cptr c) cbuf_end;
    b ← test cp.1;
    Some (if b : bool then ANext (MkConfig next cp.2 (capture c) (stack c)) else AFail).

(** The loops of a back reference. *)
Fixpoint backref_loop (fuel : nat) (ic : bool) (cptr1 cptr1_end cptr : nat) : option (option nat) :=
  match fuel with
  | O => None
  | S fuel =>
      if (cptr1 <? cptr1_end)%nat then
        if (cbuf_end <=? cptr)%nat then Some None
        else
          c1 ← get_char cptr1 cptr1_end;
          c2 ← get_char cptr cbuf_end;
          if negb (fold_case ic c1.1 =? fold_case ic c2.1) then Some None else backref_loop fuel ic c1.2 cptr1_end c2.2
      else Some (Some cptr)
  end.

Fixpoint backward_backref_loop (fuel : nat) (ic : bool) (cptr1 cptr1_start cptr : nat) : option (option nat) :=
  match fuel with
  | O => None
  | S fuel =>
      if (cptr1_start <? cptr1)%nat then
        if Nat.eqb cptr 0 then Some None
        else
          c1 ← get_prev_char cptr1 cptr1_start;
          c2 ← get_prev_char cptr 0;
          if negb (fold_case ic c1.1 =? fold_case ic c2.1) then Some None else backward_backref_loop fuel ic c1.2 cptr1_start c2.2
      else Some (Some cptr)
  end.

Definition capture_at (l : list (option nat)) (i : Z) : option nat := match l !! Z.to_nat i with Some (Some p) => Some p | _ => None end.

(** [while (val <= val2)] of [REOP_save_reset]. *)
Definition reset_captures (l : list (option nat)) (val val2 : Z) : list (option nat) :=
  imap (fun i x => if (2 * val <=? Z.of_nat i) && (Z.of_nat i <? 2 * val2 + 2) then None else x) l.

(** The character before or at a position, for a word boundary. *)
Definition word_before (ic : bool) (p : nat) : option bool :=
  if Nat.eqb p 0 then Some false else c ← PEEK_PREV_CHAR (cbuf s) (cbuf_type s) p 0; Some (is_word_char (fold_case ic c)).
Definition word_at (ic : bool) (p : nat) : option bool :=
  if (cbuf_end <=? p)%nat then Some false else c ← PEEK_CHAR (cbuf s) (cbuf_type s) p cbuf_end; Some (is_word_char (fold_case ic c)).

Definition back_reference (backward ic : bool) (val : Z) (c : config) (next : nat) : option action :=
  if capture_count s <=? val then Some AFail
  else
    match capture_at (capture c) (2 * val), capture_at (capture c) (2 * val + 1) with
    | Some cptr1_start, Some cptr1_end =>
        r ← (if backward then backward_backref_loop (S cptr1_end) ic cptr1_end cptr1_start (cptr c)
             else backref_loop (S cptr1_end) ic cptr1_start cptr1_end (cptr c));
        Some (match r with None => AFail | Some p => ANext (MkConfig next p (capture c) (stack c)) end)
    | _, _ => Some (ANext (at_pc c next))
    end.

Definition push_value (c : config) (v : Z) (next : nat) : option action :=
  if (length (stack c) <? stack_size_max s)%nat then Some (ANext (MkConfig next (cptr c) (capture c) (v :: stack c))) else None.

(** One round: the instruction [op], and the position [next] after it. *)
Definition exec_op (c : config) (op : reop) (next : nat) : option action :=
  match op with
  | REOP_char ic _ val => test_char (cbuf_end <=? cptr c)%nat c next (fun x => Some (val =? fold_case ic x))
  | REOP_dot => test_char (Nat.eqb (cptr c) cbuf_end) c next (fun x => Some (negb (is_line_terminator x)))
  | REOP_any => test_char (Nat.eqb (cptr c) cbuf_end) c next (fun _ => Some true)
  | REOP_range ic wide l => test_char (cbuf_end <=? cptr c)%nat c next (fun x => range_test wide l (fold_case ic x))
  | REOP_line_start m =>
      if Nat.eqb (cptr c) 0 then Some (ANext (at_pc c next))
      else if negb m then Some AFail
      else x ← PEEK_PREV_CHAR (cbuf s) (cbuf_type s) (cptr c) 0; Some (if is_line_terminator x then ANext (at_pc c next) else AFail)
  | REOP_line_end m =>
      if Nat.eqb (cptr c) cbuf_end then Some (ANext (at_pc c next))
      else if negb m then Some AFail
      else x ← PEEK_CHAR (cbuf s) (cbuf_type s) (cptr c) cbuf_end; Some (if is_line_terminator x then ANext (at_pc c next) else AFail)
  | REOP_goto val => p ← jump next val; Some (APoll (at_pc c p))
  | REOP_split next_first val =>
      p ← jump next val;
      Some (if next_first then APush (at_pc c next) RE_EXEC_STATE_SPLIT (at_pc c p) else APush (at_pc c p) RE_EXEC_STATE_SPLIT (at_pc c next))
  | REOP_lookahead negative val =>
      p ← jump next val;
      Some (APush (at_pc c next) (if negative then RE_EXEC_STATE_NEGATIVE_LOOKAHEAD else RE_EXEC_STATE_LOOKAHEAD) (at_pc c p))
  | REOP_match => Some AMatch
  | REOP_save e val => if val <? capture_count s then Some (ANext (MkConfig next (cptr c) (<[Z.to_nat (2 * val + c_bool e) := Some (cptr c)]> (capture c)) (stack c))) else None
  | REOP_save_reset val val2 => if val2 <? capture_count s then Some (ANext (MkConfig next (cptr c) (reset_captures (capture c) val val2) (stack c))) else None
  | REOP_push_i32 val => push_value c val next
  | REOP_drop => match stack c with [] => None | _ :: l => Some (ANext (MkConfig next (cptr c) (capture c) l)) end
  | REOP_loop val =>
      match stack c with
      | [] => None
      | n :: l =>
          let n := wrap StackInt_bits (n - 1) in
          let c := with_stack c (n :: l) in
          if negb (n =? 0) then p ← jump next val; Some (APoll (at_pc c p)) else Some (ANext (at_pc c next))
      end
  | REOP_push_char_pos => push_value c (Z.of_nat (cptr c)) next
  | REOP_check_advance =>
      match stack c with
      | [] => None
      | p :: l => Some (if p =? Z.of_nat (cptr c) then AFail else ANext (MkConfig next (cptr c) (capture c) l))
      end
  | REOP_word_boundary n ic =>
      v1 ← word_before ic (cptr c);
      v2 ← word_at ic (cptr c);
      Some (if xorb (xorb v1 v2) (negb n) then AFail else ANext (at_pc c next))
  | REOP_back_reference backward ic val => back_reference backward ic val c next
  | REOP_prev => if Nat.eqb (cptr c) 0 then Some AFail else p ← PREV_CHAR (cbuf s) (cbuf_type s) (cptr c) 0; Some (ANext (MkConfig next p (capture c) (stack c)))
  | REOP_simple_greedy_quant next_pos quant_min quant_max _ => p ← jump next next_pos; Some (AQuant next p quant_min quant_max)
  end.

Definition step (c : config) : option action := opn ← decode (bc_buf s) (pc c); exec_op c opn.1 opn.2.

(** ** The context *)

(** [lre_poll_timeout]: the context, and whether the host asks to stop. *)
Definition lre_poll_timeout (x : REExecContext) : REExecContext * bool :=
  let n := interrupt_counter x - 1 in
  if n <=? 0 then (MkContext INTERRUPT_COUNTER_INIT (state_stack x) (state_stack_size x) (S (calls x)), lre_check_timeout (calls x))
  else (MkContext n (state_stack x) (state_stack_size x) (calls x), false).

Definition set_states (x : REExecContext) (l : list REExecState) : REExecContext := MkContext (interrupt_counter x) l (state_stack_size x) (calls x).

(** [None]: the write of the new state would be outside; [Some None]: no memory. *)
Definition push_state (x : REExecContext) (ty : REExecStateEnum) (count : Z) (c : config) : option (option REExecContext) :=
  let n := Z.of_nat (length (state_stack x)) in
  let new_size := let k := state_stack_size x * 3 / 2 in if k <? 8 then 8 else k in
  let grow := state_stack_size x <? n + 1 in
  if grow && negb (lre_realloc_ok (calls x)) then Some None
  else
    let x := if grow then MkContext (interrupt_counter x) (state_stack x) new_size (S (calls x)) else x in
    if n <? state_stack_size x then Some (Some (set_states x (MkState ty count c :: state_stack x))) else None.

(** ** The loop *)

Inductive re_result : Type := LRE_RET_MATCH | LRE_RET_NO_MATCH | LRE_RET_TIMEOUT | LRE_RET_MEMORY_ERROR.

(** Out of fuel, an error of the model, or the result with what the arrays and the
    context hold. *)
Inductive outcome : Type := Fuel | Bad | Done (r : re_result) (x : REExecContext) (c : config).

(** A point of the computation: the head of the loop, the loop at [recurse] with [ret],
    and the loop of a simple quantifier with [q]. *)
Inductive comp : Type :=
| CExec (no_recurse : bool) (x : REExecContext) (c : config)
| CRecurse (x : REExecContext) (ret : bool) (c : config)
| CQuant (no_recurse : bool) (x : REExecContext) (c : config) (body next : nat) (quant_min quant_max q : Z).

(** [rs->pc + 12] of a simple quantifier. *)
Definition quant_char_count (p : nat) : option nat := n ← get_u32_at (bc_buf s) (p + 12); Some (Z.to_nat n).
Definition quant_next (p : nat) : option nat := n ← get_u32_at (bc_buf s) p; jump (p + 16) n.

(** The rounds take what comes after as [go].  [recurse_round]: the state on the top of
    the stack, for the result [ret] of the code that has run on it. *)
Definition recurse_round (go : comp -> outcome) (x : REExecContext) (ret : bool) (c : config) : outcome :=
  match state_stack x with
  | [] => Done (if ret then LRE_RET_MATCH else LRE_RET_NO_MATCH) x c
  | rs :: l =>
      let popped := set_states x l in
      match rs_type rs with
      | RE_EXEC_STATE_SPLIT => if ret then go (CRecurse popped ret c) else go (CExec false popped (rs_config rs))
      | RE_EXEC_STATE_GREEDY_QUANT =>
          if ret then go (CRecurse popped ret c)
          else
            match (n ← quant_char_count (pc (rs_config rs)); p ← prev_chars (cbuf s) (cbuf_type s) n (cptr (rs_config rs)); next ← quant_next (pc (rs_config rs)); Some (p, next)) with
            | None => Bad
            | Some (p, next) =>
                let count := rs_count rs - 1 in
                let x := if count =? 0 then popped else set_states x (MkState RE_EXEC_STATE_GREEDY_QUANT count (at_cptr (rs_config rs) p) :: l) in
                go (CExec false x (at_pc (at_cptr (rs_config rs) p) next))
            end
      | RE_EXEC_STATE_LOOKAHEAD => if ret then go (CExec false popped (with_capture (rs_config rs) (capture c))) else go (CRecurse popped false c)
      | RE_EXEC_STATE_NEGATIVE_LOOKAHEAD => if ret then go (CRecurse popped false c) else go (CExec false popped (rs_config rs))
      end
  end.

(** The end of a simple quantifier that has matched [q] times. *)
Definition quant_finish (go : comp -> outcome) (nr : bool) (x : REExecContext) (c : config) (body next : nat) (quant_min q : Z) : outcome :=
  if q <? quant_min then (if nr then Done LRE_RET_NO_MATCH x c else go (CRecurse x false c))
  else if quant_min <? q then
    match push_state x RE_EXEC_STATE_GREEDY_QUANT (q - quant_min) (at_pc c (body - 16)) with
    | None => Bad
    | Some None => Done LRE_RET_MEMORY_ERROR x c
    | Some (Some x) => go (CExec nr x (at_pc c next))
    end
  else go (CExec nr x (at_pc c next)).

Definition round (go : comp -> outcome) (k : comp) : outcome :=
  match k with
  | CExec nr x c =>
      match step c with
      | None => Bad
      | Some (ANext c) => go (CExec nr x c)
      | Some AFail => if nr then Done LRE_RET_NO_MATCH x c else go (CRecurse x false c)
      | Some AMatch => if nr then Done LRE_RET_MATCH x c else go (CRecurse x true c)
      | Some (APush c ty rs) =>
          match push_state x ty 0 rs with
          | None => Bad
          | Some None => Done LRE_RET_MEMORY_ERROR x c
          | Some (Some x) => go (CExec nr x c)
          end
      | Some (APoll c) => let xs := lre_poll_timeout x in if xs.2 : bool then Done LRE_RET_TIMEOUT xs.1 c else go (CExec nr xs.1 c)
      | Some (AQuant body next mn mx) => go (CQuant nr x c body next mn mx 0)
      end
  | CRecurse x ret c => let xs := lre_poll_timeout x in if xs.2 : bool then Done LRE_RET_TIMEOUT xs.1 c else recurse_round go xs.1 ret c
  | CQuant nr x c body next mn mx q =>
      let xs := lre_poll_timeout x in
      if xs.2 : bool then Done LRE_RET_TIMEOUT xs.1 c
      else
        match go (CExec true xs.1 (at_pc c body)) with
        | Fuel => Fuel
        | Bad => Bad
        | Done LRE_RET_TIMEOUT x c => Done LRE_RET_TIMEOUT x c
        | Done LRE_RET_MEMORY_ERROR x c => Done LRE_RET_MEMORY_ERROR x c
        | Done LRE_RET_NO_MATCH x c' => if decide (stack c' = stack c) then quant_finish go nr x (with_capture c (capture c')) body next mn q else Bad
        | Done LRE_RET_MATCH x c' =>
            if decide (stack c' = stack c) then
              let c := with_capture (at_cptr c (cptr c')) (capture c') in
              if (mx <=? q + 1) && negb (mx =? INT32_MAX) then quant_finish go nr x c body next mn (q + 1) else go (CQuant nr x c body next mn mx (q + 1))
            else Bad
        end
  end.

Fixpoint run (fuel : nat) (k : comp) : outcome := match fuel with O => Fuel | S fuel => round (run fuel) k end.

End Exec.

(** ** Bytes *)

Definition encode_ranges (w : nat) (l : list (Z * Z)) : list Z := flat_map (fun r => le_bytes w r.1 ++ le_bytes w r.2) l.

Definition operands (op : reop) : list Z :=
  match op with
  | REOP_char _ false v => le_bytes 2 v
  | REOP_char _ true v | REOP_goto v | REOP_split _ v | REOP_loop v | REOP_push_i32 v | REOP_lookahead _ v => le_bytes 4 v
  | REOP_save _ v | REOP_back_reference _ _ v => le_bytes 1 v
  | REOP_save_reset v v2 => le_bytes 1 v ++ le_bytes 1 v2
  | REOP_range _ wide l => let w := if wide then 4%nat else 2%nat in le_bytes 2 (Z.of_nat (length l)) ++ encode_ranges w l
  | REOP_simple_greedy_quant a b c d => le_bytes 4 a ++ le_bytes 4 b ++ le_bytes 4 c ++ le_bytes 4 d
  | _ => []
  end.

(** [re_emit_op] and its variants, as the bytes they append. *)
Definition re_emit_op (op : reop) : list Z := opcode op :: operands op.
Definition assemble (l : list reop) : list Z := flat_map re_emit_op l.

(** ** Scanning of emitted code *)

(** The characters that a simple atom has, [None] where a simple quantifier cannot be
    used. *)
Fixpoint simple_loop (fuel : nat) (bc : list Z) (pos : nat) (count : Z) : option Z :=
  if (length bc <=? pos)%nat then Some count
  else
    match fuel with
    | O => None
    | S fuel =>
        '(op, next) ← decode bc pos;
        match op with
        | REOP_range _ _ _ | REOP_char _ _ _ | REOP_dot | REOP_any => simple_loop fuel bc next (count + 1)
        | REOP_line_start _ | REOP_line_end _ | REOP_word_boundary _ _ => simple_loop fuel bc next count
        | _ => None
        end
    end.

Definition re_is_simple_quantifier (bc : list Z) : Z := match simple_loop (length bc) bc 0 0 with Some n => n | None => -1 end.

Fixpoint advance_loop (fuel : nat) (bc : list Z) (pos : nat) (ret : bool) : bool :=
  if (length bc <=? pos)%nat then ret
  else
    match fuel with
    | O => true
    | S fuel =>
        match decode bc pos with
        | None => true
        | Some (op, next) =>
            match op with
            | REOP_range _ _ _ | REOP_char _ _ _ | REOP_dot | REOP_any => advance_loop fuel bc next false
            | REOP_line_start _ | REOP_line_end _ | REOP_push_i32 _ | REOP_push_char_pos | REOP_drop | REOP_word_boundary _ _ | REOP_prev
            | REOP_save _ _ | REOP_save_reset _ _ | REOP_back_reference _ _ _ => advance_loop fuel bc next ret
            | _ => true
            end
        end
    end.

Definition re_need_check_advance (bc : list Z) : bool := advance_loop (length bc) bc 0 true.

Definition STACK_SIZE_MAX : Z := 255.

(** [Some (-1)]: too many nested quantifiers; [None]: a failed assert. *)
Fixpoint stack_loop (fuel : nat) (bc : list Z) (pos : nat) (stack_size stack_size_max : Z) : option Z :=
  if (length bc <=? pos)%nat then Some stack_size_max
  else
    match fuel with
    | O => None
    | S fuel =>
        '(op, next) ← decode bc pos;
        match op with
        | REOP_push_i32 _ | REOP_push_char_pos =>
            let n := stack_size + 1 in
            if (stack_size_max <? n) && (STACK_SIZE_MAX <? n) then Some (-1) else stack_loop fuel bc next n (Z.max n stack_size_max)
        | REOP_drop | REOP_check_advance => if 0 <? stack_size then stack_loop fuel bc next (stack_size - 1) stack_size_max else None
        | _ => stack_loop fuel bc next stack_size stack_size_max
        end
    end.

Definition compute_stack_size (bc : list Z) : option Z := stack_loop (length bc) bc 0 0 0.

(** ** Terms *)

Inductive regex : Type :=
| REmpty
| RChar (op : reop)
| RAssert (op : reop)
| RBackref (ignore_case : bool) (n : Z)
| RCat (a b : regex)
| RAlt (a b : regex)
| RGroup (a : regex)
| RLook (negative behind : bool) (a : regex)
| RQuant (a : regex) (quant_min quant_max : Z) (greedy : bool).

(** The number of bytes of some instructions. *)
Definition code_size (l : list reop) : Z := len (assemble l).

(** The quantifier of the atom [atom], with [capture_count] before and after it. *)
Definition emit_quantifier (atom : list reop) (last_capture_count capture_count quant_min quant_max : Z) (greedy : bool) : list reop :=
  let n := code_size atom in
  let count := re_is_simple_quantifier (assemble atom) in
  if greedy && (0 <? quant_max) && (0 <? count) then [REOP_simple_greedy_quant (n + 1) quant_min quant_max count] ++ atom ++ [REOP_match]
  else
    let add_zero_advance_check := re_need_check_advance (assemble atom) in
    let k := 2 * c_bool add_zero_advance_check in
    let body := if add_zero_advance_check then [REOP_push_char_pos] ++ atom ++ [REOP_check_advance] else atom in
    let repeat m := [REOP_push_i32 m; REOP_split greedy (n + 5 + k)] ++ body ++ [REOP_loop (- (n + k + 10)); REOP_drop] in
    let star := [REOP_split greedy (n + 5 + k)] ++ body ++ [REOP_goto (- (n + k + 10))] in
    if quant_min =? 0 then
      (if last_capture_count =? capture_count then [] else [REOP_save_reset last_capture_count (capture_count - 1)]) ++
      (if quant_max =? 0 then []
       else if quant_max =? 1 then [REOP_split greedy (n + k)] ++ body
       else if quant_max =? INT32_MAX then star
       else repeat quant_max)
    else if (quant_min =? 1) && (quant_max =? INT32_MAX) && negb add_zero_advance_check then atom ++ [REOP_split (negb greedy) (- (n + 5))]
    else
      (if quant_min =? 1 then atom else [REOP_push_i32 quant_min] ++ atom ++ [REOP_loop (- (n + 5)); REOP_drop]) ++
      (if quant_max =? INT32_MAX then star else if quant_min <? quant_max then repeat (quant_max - quant_min) else []).

(** The code of a term, of an alternative or of a disjunction, read with [capture_count]
    groups before it, and the count after it.  Backwards the terms of an alternative are
    put in the opposite order. *)
Fixpoint emit (is_backward_dir : bool) (r : regex) (capture_count : Z) : list reop * Z :=
  match r with
  | REmpty => ([], capture_count)
  | RChar op => (if is_backward_dir then [REOP_prev; op; REOP_prev] else [op], capture_count)
  | RAssert op => ([op], capture_count)
  | RBackref ic n => ([REOP_back_reference is_backward_dir ic n], capture_count)
  | RCat a b =>
      let '(ca, cc) := emit is_backward_dir a capture_count in
      let '(cb, cc) := emit is_backward_dir b cc in
      (if is_backward_dir then cb ++ ca else ca ++ cb, cc)
  | RAlt a b =>
      let '(ca, cc) := emit is_backward_dir a capture_count in
      let '(cb, cc) := emit is_backward_dir b cc in
      ([REOP_split true (code_size ca + 5)] ++ ca ++ [REOP_goto (code_size cb)] ++ cb, cc)
  | RGroup a =>
      let '(ca, cc) := emit is_backward_dir a (capture_count + 1) in
      ([REOP_save is_backward_dir capture_count] ++ ca ++ [REOP_save (negb is_backward_dir) capture_count], cc)
  | RLook negative behind a =>
      let '(ca, cc) := emit behind a capture_count in
      ([REOP_lookahead negative (code_size ca + 1)] ++ ca ++ [REOP_match], cc)
  | RQuant a quant_min quant_max greedy =>
      let '(ca, cc) := emit is_backward_dir a capture_count in
      (emit_quantifier ca capture_count cc quant_min quant_max greedy, cc)
  end.

(** ** The compiled expression *)

Definition RE_HEADER_LEN : nat := 8.

Definition LRE_FLAG_UNICODE : Z := 16.
Definition LRE_FLAG_STICKY : Z := 32.
Definition LRE_FLAG_UNICODE_SETS : Z := 256.
Definition is_sticky (re_flags : Z) : bool := negb (Z.land re_flags LRE_FLAG_STICKY =? 0).

Definition re_code (sticky : bool) (r : regex) : list reop :=
  (if sticky then [] else [REOP_split false 6; REOP_any; REOP_goto (-11)]) ++
  [REOP_save false 0] ++ (emit false r 1).1 ++ [REOP_save true 0; REOP_match].

(** What [lre_compile] makes of it; [None] where it reports too many quantifiers.  The
    names of groups, which follow the code, are not modelled. *)
Definition lre_compile (re_flags : Z) (r : regex) : option (list Z) :=
  let code := assemble (re_code (is_sticky re_flags) r) in
  n ← compute_stack_size code;
  if n <? 0 then None else Some (le_bytes 2 re_flags ++ [(emit false r 1).2; n] ++ le_bytes 4 (len code) ++ code).

Section LreExec.
Context `{LH : LreHost}.

(** The fixed part of the context that [lre_exec] makes. *)
Definition exec_context (bc : list Z) (chars : list Z) (ty : Z) : option program :=
  re_flags ← get_u16_at bc 0;
  count ← get_u8_at bc 2;
  stack ← get_u8_at bc 3;
  let unicode := negb (Z.land re_flags (Z.lor LRE_FLAG_UNICODE LRE_FLAG_UNICODE_SETS) =? 0) in
  Some (MkProgram (drop RE_HEADER_LEN bc) chars (if (ty =? 1) && unicode then 2 else ty) count (Z.to_nat stack) unicode).

(** The start, moved back out of a surrogate pair. *)
Definition start_position (s : program) (cindex : nat) : option nat :=
  if (0 <? cindex)%nat && (cindex <? cbuf_end s)%nat && (cbuf_type s =? 2) then
    c ← cbuf s !! cindex;
    d ← cbuf s !! pred cindex;
    Some (if is_lo_surrogate c && is_hi_surrogate d then pred cindex else cindex)
  else Some cindex.

Definition start_context : REExecContext := MkContext INTERRUPT_COUNTER_INIT [] 0 0.

Definition lre_exec (fuel : nat) (bc : list Z) (chars : list Z) (cindex : nat) (ty : Z) : outcome :=
  match (s ← exec_context bc chars ty; p ← start_position s cindex; Some (s, p)) with
  | None => Bad
  | Some (s, p) => run s fuel (CExec false start_context (MkConfig 0 p (replicate (Z.to_nat (2 * capture_count s)) None) []))
  end.

End LreExec.
