(* ===== verification/LreSpecs.v ===== *)
(** The matcher of regular expressions: the stack of states implements backtracking.

    [eval c o]: what a recursive search gives from the configuration [c], the first
    configuration at [REOP_match] in the order of the choices or nothing.  The machine
    [run] goes from [c] to the label [recurse] with the outcome of [eval] and the stack
    of states it started with, unless the host stops it. *)
From Stdlib Require Import ZArith Lia.
From S2P Require Import Prelude Cutils LreExec.
From stdpp Require Import base tactics numbers option list.

Open Scope Z_scope.

Section Eval.
Context `{LH : LreHost} (s : program).

(** Code without choices, up to [REOP_match] or to a failure. *)
Inductive straight : config -> bool -> config -> Prop :=
| straight_next c c' b z : step s c = Some (ANext c') -> straight c' b z -> straight c b z
| straight_fail c : step s c = Some AFail -> straight c false c
| straight_match c : step s c = Some AMatch -> straight c true c.

(** The loop of a simple quantifier with [q] characters so far. *)
Inductive iters (body : nat) (mx : Z) : config -> Z -> config -> Z -> Prop :=
| iters_stop c q z : straight (at_pc c body) false z -> capture z = capture c -> stack z = stack c -> iters body mx c q c q
| iters_full c q z : straight (at_pc c body) true z -> capture z = capture c -> stack z = stack c ->
    (mx <=? q + 1) && negb (mx =? INT32_MAX) = true -> iters body mx c q (at_cptr c (cptr z)) (q + 1)
| iters_more c q z c' q' : straight (at_pc c body) true z -> capture z = capture c -> stack z = stack c ->
    (mx <=? q + 1) && negb (mx =? INT32_MAX) = false -> iters body mx (at_cptr c (cptr z)) (q + 1) c' q' -> iters body mx c q c' q'.

Inductive eval : config -> option config -> Prop :=
| eval_next c c' o : step s c = Some (ANext c') -> eval c' o -> eval c o
| eval_poll c c' o : step s c = Some (APoll c') -> eval c' o -> eval c o
| eval_fail c : step s c = Some AFail -> eval c None
| eval_match c : step s c = Some AMatch -> eval c (Some c)
| eval_split_hit c c1 c2 z : step s c = Some (APush c1 RE_EXEC_STATE_SPLIT c2) -> eval c1 (Some z) -> eval c (Some z)
| eval_split_miss c c1 c2 o : step s c = Some (APush c1 RE_EXEC_STATE_SPLIT c2) -> eval c1 None -> eval c2 o -> eval c o
| eval_ahead c c1 c2 z o : step s c = Some (APush c1 RE_EXEC_STATE_LOOKAHEAD c2) -> eval c1 (Some z) -> eval (with_capture c2 (capture z)) o -> eval c o
| eval_ahead_fail c c1 c2 : step s c = Some (APush c1 RE_EXEC_STATE_LOOKAHEAD c2) -> eval c1 None -> eval c None
| eval_not_ahead c c1 c2 o : step s c = Some (APush c1 RE_EXEC_STATE_NEGATIVE_LOOKAHEAD c2) -> eval c1 None -> eval c2 o -> eval c o
| eval_not_ahead_fail c c1 c2 z : step s c = Some (APush c1 RE_EXEC_STATE_NEGATIVE_LOOKAHEAD c2) -> eval c1 (Some z) -> eval c None
| eval_quant_few c body next mn mx c' q : step s c = Some (AQuant body next mn mx) -> iters body mx c 0 c' q -> q < mn -> eval c None
| eval_quant c body next mn mx cc c' q o : step s c = Some (AQuant body next mn mx) -> iters body mx c 0 c' q -> mn <= q ->
    quant_char_count s (body - 16) = Some cc -> quant_next s (body - 16) = Some next -> back next cc c' (q - mn) o -> eval c o
(** After the loop, with [k] characters that can be given back. *)
with back : nat -> nat -> config -> Z -> option config -> Prop :=
| back_hit next cc c k z : 0 <= k -> eval (at_pc c next) (Some z) -> back next cc c k (Some z)
| back_last next cc c : eval (at_pc c next) None -> back next cc c 0 None
| back_more next cc c k p o : 0 < k -> eval (at_pc c next) None -> prev_chars (cbuf s) (cbuf_type s) cc (cptr c) = Some p -> back next cc (at_cptr c p) (k - 1) o -> back next cc c k o.

Scheme eval_mut := Minimality for eval Sort Prop with back_mut := Minimality for back Sort Prop.

(** ** Fuel *)

Lemma round_more (f g : comp -> outcome) k : (forall k, f k <> Fuel -> g k = f k) -> round s f k <> Fuel -> round s g k = round s f k.
Proof.
  intros H. unfold round, recurse_round, quant_finish.
  repeat first [ progress intros | apply H; assumption
    | match goal with
      | H : f ?k <> Fuel |- _ => idtac
      | |- context [match f ?k with _ => _ end] => let E := fresh in assert (f k <> Fuel -> g k = f k) as E by apply H; destruct (f k); [congruence|rewrite E by congruence|rewrite E by congruence]; clear E
      | |- context [match ?x with _ => _ end] => lazymatch x with context [f] => fail | context [g] => fail | _ => destruct x eqn:? end
      end | congruence ].
Qed.

Lemma run_more fuel k : run s fuel k <> Fuel -> run s (S fuel) k = run s fuel k.
Proof. revert k. induction fuel as [|fuel IH]; intros k H; [destruct (H eq_refl)|]. apply round_more; [exact IH|exact H]. Qed.

Lemma run_le fuel fuel' k : (fuel <= fuel')%nat -> run s fuel k <> Fuel -> run s fuel' k = run s fuel k.
Proof. induction 1 as [|n Hn IH]; intros H; [reflexivity|]. rewrite run_more; [apply IH, H|]. rewrite (IH H). exact H. Qed.

(** ** From one point of the computation to another *)

(** What [b] ends with, [a] ends with. *)
Definition leads (a b : comp) : Prop := forall fuel, run s fuel b <> Fuel -> exists fuel', run s fuel' a = run s fuel b.

(** The host was asked and said to stop, or refused memory. *)
Definition host_stop (r : re_result) : Prop :=
  (r = LRE_RET_TIMEOUT /\ exists n, lre_check_timeout n = true) \/ (r = LRE_RET_MEMORY_ERROR /\ exists n, lre_realloc_ok n = false).

Definition stopped (a : comp) : Prop := exists fuel r x c, run s fuel a = Done r x c /\ host_stop r.

Lemma leads_refl a : leads a a.
Proof. intros fuel H. exists fuel. reflexivity. Qed.

Lemma leads_trans a b c : leads a b -> leads b c -> leads a c.
Proof. intros Hab Hbc fuel H. destruct (Hbc fuel H) as (f1 & E1). destruct (Hab f1) as (f2 & E2); [congruence|]. exists f2. congruence. Qed.

Lemma leads_round a b : (forall go, round s go a = go b) -> leads a b.
Proof. intros H fuel _. exists (S fuel). cbn [run]. apply H. Qed.

Lemma stopped_leads a b : leads a b -> stopped b -> stopped a.
Proof. intros Hab (fuel & r & x & c & E & Hr). destruct (Hab fuel) as (f & Ef); [congruence|]. exists f, r, x, c. split; [congruence|exact Hr]. Qed.

Lemma stopped_round a r x c : (forall go, round s go a = Done r x c) -> host_stop r -> stopped a.
Proof. intros H Hr. exists 1%nat, r, x, c. split; [cbn [run]; apply H|exact Hr]. Qed.

(** ** The context *)

Record ctx_ok (x : REExecContext) : Prop := {
  ctx_room : Z.of_nat (length (state_stack x)) <= state_stack_size x;
  ctx_size : state_stack_size x = 0 \/ 8 <= state_stack_size x
}.

Lemma poll_spec x : ctx_ok x -> ctx_ok (lre_poll_timeout x).1 /\ state_stack (lre_poll_timeout x).1 = state_stack x /\ ((lre_poll_timeout x).2 = true -> host_stop LRE_RET_TIMEOUT).
Proof.
  intros [H1 H2]. unfold lre_poll_timeout. destruct (_ <=? 0); cbn; (split; [split; assumption|]); (split; [reflexivity|]); [|discriminate]. intros H. left. split; [reflexivity|]. eexists. exact H.
Qed.

Lemma push_state_spec x ty n c : ctx_ok x ->
  (push_state x ty n c = Some None /\ host_stop LRE_RET_MEMORY_ERROR) \/ exists x', push_state x ty n c = Some (Some x') /\ ctx_ok x' /\ state_stack x' = MkState ty n c :: state_stack x.
Proof.
  intros [H1 H2]. unfold push_state. destruct (Z.ltb_spec (state_stack_size x) (Z.of_nat (length (state_stack x)) + 1)) as [Hg|Hg]; cbn [andb].
  - destruct (lre_realloc_ok (calls x)) eqn:Er; cbn [negb]; [|left; split; [reflexivity|]; right; split; [reflexivity|]; eexists; exact Er]. right. set (k := state_stack_size x * 3 / 2). cbn [state_stack_size].
    assert (Hk : let m := if k <? 8 then 8 else k in state_stack_size x < m /\ 8 <= m). { cbv zeta. pose proof (Z.div_mod (state_stack_size x * 3) 2 ltac:(lia)) as Hd. fold k in Hd. pose proof (Z.mod_pos_bound (state_stack_size x * 3) 2 eq_refl). destruct (Z.ltb_spec k 8); lia. }
    cbv zeta in Hk. rewrite (proj2 (Z.ltb_lt _ _)) by lia. eexists. split; [reflexivity|]. split; [split; cbn [state_stack state_stack_size set_states length]; lia|reflexivity].
  - right. rewrite (proj2 (Z.ltb_lt _ _)) by lia. eexists. split; [reflexivity|]. split; [split; cbn [state_stack state_stack_size set_states length]; lia|reflexivity].
Qed.

Lemma set_states_ok x rs l : ctx_ok x -> state_stack x = rs :: l -> forall l', (length l' <= S (length l))%nat -> ctx_ok (set_states x l').
Proof. intros [H1 H2] E l' Hl. rewrite E in H1. cbn [length] in H1. split; cbn; [lia|exact H2]. Qed.

(** ** The machine follows [eval] *)

Definition hit (o : option config) : bool := match o with Some _ => true | None => false end.

(** The computation comes to [recurse] with the outcome [o] and the states [ss]. *)
Definition ends (k : comp) (ss : list REExecState) (o : option config) : Prop :=
  stopped k \/ exists x z, ctx_ok x /\ state_stack x = ss /\ (forall y, o = Some y -> z = y) /\ leads k (CRecurse x (hit o) z).

(** It goes on at [f x], for a context with the states [ss]. *)
Definition goes (k : comp) (ss : list REExecState) (f : REExecContext -> comp) : Prop := stopped k \/ exists x, ctx_ok x /\ state_stack x = ss /\ leads k (f x).

Lemma ends_goes k ss f ss' o : goes k ss f -> (forall x, ctx_ok x -> state_stack x = ss -> ends (f x) ss' o) -> ends k ss' o.
Proof.
  intros [H|(x & Hx & Es & Hl)] Hf; [left; exact H|]. destruct (Hf x Hx Es) as [H|(x' & z & Hx' & Es' & Hz & Hl')]; [left; exact (stopped_leads _ _ Hl H)|].
  right. exists x', z. split; [exact Hx'|]. split; [exact Es'|]. split; [exact Hz|]. exact (leads_trans _ _ _ Hl Hl').
Qed.

Lemma goes_leads k k' ss f : leads k k' -> goes k' ss f -> goes k ss f.
Proof. intros H [Hs|(x & Hx & Es & Hl)]; [left; exact (stopped_leads _ _ H Hs)|]. right. exists x. split; [exact Hx|]. split; [exact Es|]. exact (leads_trans _ _ _ H Hl). Qed.

Lemma goes_trans k ss f ss' g : goes k ss f -> (forall x, ctx_ok x -> state_stack x = ss -> goes (f x) ss' g) -> goes k ss' g.
Proof. intros [H|(x & Hx & Es & Hl)] Hf; [left; exact H|]. exact (goes_leads _ _ _ _ Hl (Hf x Hx Es)). Qed.

Lemma ends_goes_recurse k ss (o : option config) ss' o' : ends k ss o ->
  (forall x z, ctx_ok x -> state_stack x = ss -> (forall y, o = Some y -> z = y) -> ends (CRecurse x (hit o) z) ss' o') -> ends k ss' o'.
Proof.
  intros [H|(x & z & Hx & Es & Hz & Hl)] Hf; [left; exact H|]. apply (ends_goes k ss (fun x => CRecurse x (hit o) z)); [right; exists x; split; [exact Hx|]; split; [exact Es|exact Hl]|]. intros x' Hx' Es'. apply Hf; assumption.
Qed.

Lemma ends_here x ss o z : ctx_ok x -> state_stack x = ss -> (forall y, o = Some y -> z = y) -> ends (CRecurse x (hit o) z) ss o.
Proof. intros Hx Es Hz. right. exists x, z. split; [exact Hx|]. split; [exact Es|]. split; [exact Hz|apply leads_refl]. Qed.

(** A round that polls first. *)
Lemma goes_poll k x c ss f (rest : (comp -> outcome) -> REExecContext -> outcome) :
  (forall go, round s go k = let xs := lre_poll_timeout x in if xs.2 then Done LRE_RET_TIMEOUT xs.1 c else rest go xs.1) ->
  ctx_ok x -> (forall x', ctx_ok x' -> state_stack x' = state_stack x -> exists x'', ctx_ok x'' /\ state_stack x'' = ss /\ forall go, rest go x' = go (f x'')) -> goes k ss f.
Proof.
  intros Hk Hx Hrest. destruct (poll_spec x Hx) as (Hp & Es & Hstop). destruct (lre_poll_timeout x) as [x1 [|]] eqn:E; cbn [fst snd] in *.
  - left. apply (stopped_round _ LRE_RET_TIMEOUT x1 c); [exact Hk|exact (Hstop eq_refl)].
  - destruct (Hrest x1 Hp Es) as (x2 & Hx2 & Es2 & Hgo). right. exists x2. split; [exact Hx2|]. split; [exact Es2|]. apply leads_round. intros go. rewrite Hk. apply Hgo.
Qed.

(** A round that pushes a state. *)
Lemma goes_push k x ty n rs c f (rest : (comp -> outcome) -> option (option REExecContext) -> outcome) :
  (forall go, round s go k = rest go (push_state x ty n rs)) -> (forall go, rest go (Some None) = Done LRE_RET_MEMORY_ERROR x c) -> (forall go x', rest go (Some (Some x')) = go (f x')) ->
  ctx_ok x -> goes k (MkState ty n rs :: state_stack x) f.
Proof.
  intros Hk Hnone Hsome Hx. destruct (push_state_spec x ty n rs Hx) as [[E Hs]|(x' & E & Hx' & Es)].
  - left. apply (stopped_round _ LRE_RET_MEMORY_ERROR x c); [intros go; rewrite Hk, E; apply Hnone|exact Hs].
  - right. exists x'. split; [exact Hx'|]. split; [exact Es|]. apply leads_round. intros go. rewrite Hk, E. apply Hsome.
Qed.

(** The state on the top is popped. *)
Lemma goes_pop x ret c rs l f : ctx_ok x -> state_stack x = rs :: l -> (forall go x', state_stack x' = rs :: l -> recurse_round s go x' ret c = go (f (set_states x' l))) -> goes (CRecurse x ret c) l f.
Proof.
  intros Hx E Hr. apply (goes_poll _ x c l f (fun go x' => recurse_round s go x' ret c)); [reflexivity|exact Hx|]. intros x' Hx' E'. exists (set_states x' l). rewrite E in E'. split; [apply (set_states_ok _ _ _ Hx' E'); lia|]. split; [reflexivity|]. intros go. apply Hr, E'.
Qed.

Ltac popped := intros ? ? ?Es; unfold recurse_round; rewrite Es; reflexivity.

Lemma pop_split_true x c n r l : ctx_ok x -> state_stack x = MkState RE_EXEC_STATE_SPLIT n r :: l -> goes (CRecurse x true c) l (fun x => CRecurse x true c).
Proof. intros Hx E. apply (goes_pop _ _ _ _ _ _ Hx E). popped. Qed.

Lemma pop_split_false x c n r l : ctx_ok x -> state_stack x = MkState RE_EXEC_STATE_SPLIT n r :: l -> goes (CRecurse x false c) l (fun x => CExec false x r).
Proof. intros Hx E. apply (goes_pop _ _ _ _ _ _ Hx E). popped. Qed.

Lemma pop_ahead x b c n r l : ctx_ok x -> state_stack x = MkState RE_EXEC_STATE_LOOKAHEAD n r :: l -> goes (CRecurse x b c) l (fun x => if b then CExec false x (with_capture r (capture c)) else CRecurse x false c).
Proof. intros Hx E. apply (goes_pop _ _ _ _ _ _ Hx E). destruct b; popped. Qed.

Lemma pop_not_ahead x b c n r l : ctx_ok x -> state_stack x = MkState RE_EXEC_STATE_NEGATIVE_LOOKAHEAD n r :: l -> goes (CRecurse x b c) l (fun x => if b then CRecurse x false c else CExec false x r).
Proof. intros Hx E. apply (goes_pop _ _ _ _ _ _ Hx E). destruct b; popped. Qed.

Lemma pop_quant_true x c n r l : ctx_ok x -> state_stack x = MkState RE_EXEC_STATE_GREEDY_QUANT n r :: l -> goes (CRecurse x true c) l (fun x => CRecurse x true c).
Proof. intros Hx E. apply (goes_pop _ _ _ _ _ _ Hx E). popped. Qed.

(** Characters that can be given back, as states. *)
Definition back_states (k : Z) (r : config) (l : list REExecState) : list REExecState := if k =? 0 then l else MkState RE_EXEC_STATE_GREEDY_QUANT k r :: l.

Lemma pop_quant_false x c k r l n p next : ctx_ok x -> state_stack x = MkState RE_EXEC_STATE_GREEDY_QUANT k r :: l ->
  quant_char_count s (pc r) = Some n -> prev_chars (cbuf s) (cbuf_type s) n (cptr r) = Some p -> quant_next s (pc r) = Some next ->
  goes (CRecurse x false c) (back_states (k - 1) (at_cptr r p) l) (fun x => CExec false x (at_pc (at_cptr r p) next)).
Proof.
  intros Hx E En Ep Ex. apply (goes_poll _ x c _ _ (fun go x' => recurse_round s go x' false c)); [reflexivity|exact Hx|]. intros x' Hx' E'. rewrite E in E'. unfold back_states, recurse_round. rewrite E'. cbn [rs_type rs_config rs_count]. rewrite En. cbn [mbind option_bind]. rewrite Ep. cbn [mbind option_bind]. rewrite Ex. cbn [mbind option_bind].
  eexists. split; [|split; [|intros go; reflexivity]]; destruct (k - 1 =? 0); try reflexivity; apply (set_states_ok _ _ _ Hx' E'); cbn; lia.
Qed.

Lemma straight_run c b z : straight c b z -> forall x, exists fuel, run s fuel (CExec true x c) = Done (if b then LRE_RET_MATCH else LRE_RET_NO_MATCH) x z.
Proof.
  induction 1 as [c c' b z E _ IH|c E|c E]; intros x.
  - destruct (IH x) as (fuel & Hf). exists (S fuel). cbn [run round]. rewrite E. exact Hf.
  - exists 1%nat. cbn [run round]. rewrite E. reflexivity.
  - exists 1%nat. cbn [run round]. rewrite E. reflexivity.
Qed.

Lemma finish_le fuel fuel' nr x c body next mn q : (fuel <= fuel')%nat -> quant_finish (run s fuel) nr x c body next mn q <> Fuel ->
  quant_finish (run s fuel') nr x c body next mn q = quant_finish (run s fuel) nr x c body next mn q.
Proof.
  intros Hle. unfold quant_finish. destruct (q <? mn); [destruct nr; [reflexivity|apply run_le, Hle]|]. destruct (mn <? q); [|apply run_le, Hle]. destruct (push_state _ _ _ _) as [[?|]|]; [apply run_le, Hle|reflexivity|reflexivity].
Qed.

(** The loop of a simple quantifier comes to its end. *)
Definition finishes (k : comp) (ss : list REExecState) (c : config) (body next : nat) (mn q : Z) : Prop :=
  stopped k \/ exists x, ctx_ok x /\ state_stack x = ss /\
    forall fuel, quant_finish (run s fuel) false x c body next mn q <> Fuel -> exists fuel', run s fuel' k = quant_finish (run s fuel) false x c body next mn q.

Lemma iters_run body mx c q c' q' : iters body mx c q c' q' -> forall next mn x, ctx_ok x -> finishes (CQuant false x c body next mn mx q) (state_stack x) c' body next mn q'.
Proof.
  induction 1 as [c q z Hs Ec Es|c q z Hs Ec Es Hfull|c q z c' q' Hs Ec Es Hfull _ IH]; intros next mn x Hx; destruct (poll_spec x Hx) as (Hp & Ex & Hstop);
    (destruct (lre_poll_timeout x).2 eqn:E2; [left; apply (stopped_round _ LRE_RET_TIMEOUT (lre_poll_timeout x).1 c); [intros go; cbn [round]; rewrite E2; reflexivity|exact (Hstop eq_refl)]|]);
    set (x1 := (lre_poll_timeout x).1) in *; destruct (straight_run _ _ _ Hs x1) as (f1 & E1).
  - right. exists x1. split; [exact Hp|]. split; [exact Ex|]. intros fuel Hf. exists (S (f1 + fuel)). cbn [run round]. rewrite E2. fold x1. rewrite (run_le f1 (f1 + fuel)) by (lia || congruence). rewrite E1. rewrite decide_True by exact Es.
    replace (with_capture c (capture z)) with c by (rewrite Ec; destruct c; reflexivity). apply finish_le; [lia|exact Hf].
  - right. exists x1. split; [exact Hp|]. split; [exact Ex|]. intros fuel Hf. exists (S (f1 + fuel)). cbn [run round]. rewrite E2. fold x1. rewrite (run_le f1 (f1 + fuel)) by (lia || congruence). rewrite E1. rewrite decide_True by exact Es.
    cbv zeta. rewrite Hfull. replace (with_capture (at_cptr c (cptr z)) (capture z)) with (at_cptr c (cptr z)) by (rewrite Ec; destruct c; reflexivity). apply finish_le; [lia|exact Hf].
  - assert (Hl : leads (CQuant false x c body next mn mx q) (CQuant false x1 (at_cptr c (cptr z)) body next mn mx (q + 1))).
    { intros fuel Hf. exists (S (f1 + fuel)). cbn [run round]. rewrite E2. fold x1. rewrite (run_le f1 (f1 + fuel)) by (lia || congruence). rewrite E1. rewrite decide_True by exact Es. cbv zeta. rewrite Hfull.
      replace (with_capture (at_cptr c (cptr z)) (capture z)) with (at_cptr c (cptr z)) by (rewrite Ec; destruct c; reflexivity). apply run_le; [lia|exact Hf]. }
    destruct (IH next mn x1 Hp) as [Hst|(x2 & Hx2 & Ex2 & Hf2)]; [left; exact (stopped_leads _ _ Hl Hst)|]. right. exists x2. split; [exact Hx2|]. split; [congruence|]. intros fuel Hf. destruct (Hf2 fuel Hf) as (f3 & E3). destruct (Hl f3) as (f4 & E4); [congruence|]. exists f4. congruence.
Qed.

(** The end of the loop is what follows it, on the states of what can be given back. *)
Lemma finish_goes k ss c body next mn q : finishes k ss c body next mn q -> mn <= q -> goes k (back_states (q - mn) (at_pc c (body - 16)) ss) (fun x => CExec false x (at_pc c next)).
Proof.
  intros [H|(x & Hx & Ex & Hf)] Hq; [left; exact H|]. unfold quant_finish in Hf. rewrite (proj2 (Z.ltb_ge _ _)) in Hf by exact Hq. unfold back_states. destruct (Z.ltb_spec mn q).
  - rewrite (proj2 (Z.eqb_neq _ _)) by lia. destruct (push_state_spec x RE_EXEC_STATE_GREEDY_QUANT (q - mn) (at_pc c (body - 16)) Hx) as [[E Hs]|(x' & E & Hx' & Es)]; rewrite E in Hf.
    + left. destruct (Hf 1%nat) as (f & Ef); [discriminate|]. exists f, LRE_RET_MEMORY_ERROR, x, c. split; [exact Ef|exact Hs].
    + right. exists x'. split; [exact Hx'|]. split; [congruence|]. exact Hf.
  - rewrite (proj2 (Z.eqb_eq _ _)) by lia. right. exists x. split; [exact Hx|]. split; [exact Ex|]. exact Hf.
Qed.

Lemma finish_few k ss c body next mn q : finishes k ss c body next mn q -> q < mn -> ends k ss None.
Proof.
  intros [H|(x & Hx & Ex & Hf)] Hq; [left; exact H|]. unfold quant_finish in Hf. rewrite (proj2 (Z.ltb_lt _ _)) in Hf by exact Hq. right. exists x, c. split; [exact Hx|]. split; [exact Ex|]. split; [intros ? [=]|exact Hf].
Qed.

Lemma exec_leads x c c' : step s c = Some (ANext c') -> leads (CExec false x c) (CExec false x c').
Proof. intros E. apply leads_round. intros go. cbn [round]. rewrite E. reflexivity. Qed.

Lemma exec_quant x c body next mn mx : step s c = Some (AQuant body next mn mx) -> leads (CExec false x c) (CQuant false x c body next mn mx 0).
Proof. intros E. apply leads_round. intros go. cbn [round]. rewrite E. reflexivity. Qed.

Lemma ends_leads k k' ss o : leads k k' -> ends k' ss o -> ends k ss o.
Proof.
  intros Hl [H|(x & z & Hx & Es & Hz & Hl')]; [left; exact (stopped_leads _ _ Hl H)|]. right. exists x, z. split; [exact Hx|]. split; [exact Es|]. split; [exact Hz|exact (leads_trans _ _ _ Hl Hl')].
Qed.

Lemma exec_push x c c1 ty c2 : ctx_ok x -> step s c = Some (APush c1 ty c2) -> goes (CExec false x c) (MkState ty 0 c2 :: state_stack x) (fun x => CExec false x c1).
Proof.
  intros Hx E. apply (goes_push _ x ty 0 c2 c1 _ (fun go r => match r with None => Bad | Some None => Done LRE_RET_MEMORY_ERROR x c1 | Some (Some x) => go (CExec false x c1) end)); [|reflexivity|reflexivity|exact Hx].
  intros go. cbn [round]. rewrite E. reflexivity.
Qed.

Lemma exec_poll x c c' : ctx_ok x -> step s c = Some (APoll c') -> goes (CExec false x c) (state_stack x) (fun x => CExec false x c').
Proof.
  intros Hx E. apply (goes_poll _ x c' _ _ (fun go x' => go (CExec false x' c'))); [intros go; cbn [round]; rewrite E; reflexivity|exact Hx|]. intros x' Hx' E'. exists x'. auto.
Qed.

(** The machine implements the search: from any context it comes to [recurse] with the
    outcome of [eval] and the stack of states it had. *)
Lemma eval_run c o : eval c o -> forall x, ctx_ok x -> ends (CExec false x c) (state_stack x) o.
Proof.
  intros H. induction H as [c c' o E _ IH|c c' o E _ IH|c E|c E|c c1 c2 z E _ IH|c c1 c2 o E _ IH1 _ IH2|c c1 c2 z o E _ IH1 _ IH2|c c1 c2 E _ IH|c c1 c2 o E _ IH1 _ IH2|c c1 c2 z E _ IH|c body next mn mx c' q E Hit Hq|c body next mn mx cc c' q o E Hit Hq Hcc Hnext _ IH
    |next cc c k z Hk _ IH|next cc c _ IH|next cc c k p o Hk _ IH1 Hp _ IH2]
    using eval_mut with (P0 := fun next cc c k o => forall body x l, quant_char_count s (body - 16) = Some cc -> quant_next s (body - 16) = Some next -> ctx_ok x -> state_stack x = back_states k (at_pc c (body - 16)) l -> ends (CExec false x (at_pc c next)) l o).
  - intros x Hx. apply (ends_leads _ _ _ _ (exec_leads x c c' E)), IH, Hx.
  - intros x Hx. apply (ends_goes _ _ _ _ _ (exec_poll x c c' Hx E)). intros x' Hx' <-. apply IH, Hx'.
  - intros x Hx. right. exists x, c. split; [exact Hx|]. split; [reflexivity|]. split; [intros ? [=]|]. apply leads_round. intros go. cbn [round]. rewrite E. reflexivity.
  - intros x Hx. right. exists x, c. split; [exact Hx|]. split; [reflexivity|]. split; [intros ? [=]; assumption|]. apply leads_round. intros go. cbn [round]. rewrite E. reflexivity.
  - intros x Hx. apply (ends_goes _ _ _ _ _ (exec_push x c c1 _ c2 Hx E)). intros x' Hx' E'. apply (ends_goes_recurse _ _ _ _ _ (IH x' Hx')). intros x2 z2 Hx2 E2 Hz. rewrite E' in E2. apply (ends_goes _ _ _ _ _ (pop_split_true x2 z2 _ _ _ Hx2 E2)). intros x3 Hx3 E3. exact (ends_here x3 _ (Some z) z2 Hx3 E3 Hz).
  - intros x Hx. apply (ends_goes _ _ _ _ _ (exec_push x c c1 _ c2 Hx E)). intros x' Hx' E'. apply (ends_goes_recurse _ _ _ _ _ (IH1 x' Hx')). intros x2 z2 Hx2 E2 _. rewrite E' in E2. apply (ends_goes _ _ _ _ _ (pop_split_false x2 z2 _ _ _ Hx2 E2)). intros x3 Hx3 <-. apply IH2, Hx3.
  - intros x Hx. apply (ends_goes _ _ _ _ _ (exec_push x c c1 _ c2 Hx E)). intros x' Hx' E'. apply (ends_goes_recurse _ _ _ _ _ (IH1 x' Hx')). intros x2 z2 Hx2 E2 Hz. rewrite E' in E2. rewrite (Hz z eq_refl). apply (ends_goes _ _ _ _ _ (pop_ahead x2 true z _ _ _ Hx2 E2)). intros x3 Hx3 <-. apply IH2, Hx3.
  - intros x Hx. apply (ends_goes _ _ _ _ _ (exec_push x c c1 _ c2 Hx E)). intros x' Hx' E'. apply (ends_goes_recurse _ _ _ _ _ (IH x' Hx')). intros x2 z2 Hx2 E2 _. rewrite E' in E2. apply (ends_goes _ _ _ _ _ (pop_ahead x2 false z2 _ _ _ Hx2 E2)). intros x3 Hx3 E3. apply (ends_here x3 _ None z2 Hx3 E3). intros ? [=].
  - intros x Hx. apply (ends_goes _ _ _ _ _ (exec_push x c c1 _ c2 Hx E)). intros x' Hx' E'. apply (ends_goes_recurse _ _ _ _ _ (IH1 x' Hx')). intros x2 z2 Hx2 E2 _. rewrite E' in E2. apply (ends_goes _ _ _ _ _ (pop_not_ahead x2 false z2 _ _ _ Hx2 E2)). intros x3 Hx3 <-. apply IH2, Hx3.
  - intros x Hx. apply (ends_goes _ _ _ _ _ (exec_push x c c1 _ c2 Hx E)). intros x' Hx' E'. apply (ends_goes_recurse _ _ _ _ _ (IH x' Hx')). intros x2 z2 Hx2 E2 _. rewrite E' in E2. apply (ends_goes _ _ _ _ _ (pop_not_ahead x2 true z2 _ _ _ Hx2 E2)). intros x3 Hx3 E3. apply (ends_here x3 _ None z2 Hx3 E3). intros ? [=].
  - intros x Hx. apply (ends_leads _ _ _ _ (exec_quant x c _ _ _ _ E)). exact (finish_few _ _ _ _ _ _ _ (iters_run _ _ _ _ _ _ Hit next mn x Hx) Hq).
  - intros x Hx. apply (ends_leads _ _ _ _ (exec_quant x c _ _ _ _ E)). apply (ends_goes _ _ _ _ _ (finish_goes _ _ _ _ _ _ _ (iters_run _ _ _ _ _ _ Hit next mn x Hx) Hq)). intros x' Hx' E'. apply (IH body x' _ Hcc Hnext Hx' E').
  - intros body x l Hcc Hnext Hx E. apply (ends_goes_recurse _ _ _ _ _ (IH x Hx)). intros x2 z2 Hx2 E2 Hz. rewrite E in E2. unfold back_states in E2. destruct (k =? 0); [exact (ends_here x2 _ (Some z) z2 Hx2 E2 Hz)|].
    apply (ends_goes _ _ _ _ _ (pop_quant_true x2 z2 _ _ _ Hx2 E2)). intros x3 Hx3 E3. exact (ends_here x3 _ (Some z) z2 Hx3 E3 Hz).
  - intros body x l Hcc Hnext Hx E. cbn [back_states Z.eqb] in E. rewrite <- E. apply IH, Hx.
  - intros body x l Hcc Hnext Hx E. apply (ends_goes_recurse _ _ _ _ _ (IH1 x Hx)). intros x2 z2 Hx2 E2 _. rewrite E in E2. unfold back_states in E2. rewrite (proj2 (Z.eqb_neq _ _)) in E2 by lia.
    apply (ends_goes _ _ _ _ _ (pop_quant_false x2 z2 _ _ _ cc p next Hx2 E2 Hcc Hp Hnext)). intros x3 Hx3 E3. exact (IH2 body x3 l Hcc Hnext Hx3 E3).
Qed.

End Eval.
