(* ===== verification/LreDen.v ===== *)
(** What a regular expression matches.

    [den] gives the matches of a term from a position, with the captures, in the order of
    preference of the language: the order in which a backtracking search finds them.  Two
    points follow the code and not the language: captures of an earlier round of a
    quantifier are kept in the next one, and case folding is whatever [lre_canonicalize]
    does with the character of the string.

    A position is a [boundary] if it is not inside a surrogate pair; reading a character
    forwards and backwards are inverse on boundaries. *)
From Stdlib Require Import ZArith Lia.
From S2P Require Import Prelude Cutils Utf8 LreExec.
From stdpp Require Import base tactics numbers option list.

Open Scope Z_scope.

(** A position and the captures. *)
Notation thread := (nat * list (option nat))%type.

Section Den.
Context `{LH : LreHost} (s : program).

(** ** Characters *)

Definition boundary (p : nat) : Prop :=
  (p <= length (cbuf s))%nat /\
  (cbuf_type s = 2 -> forall q c d, p = S q -> cbuf s !! q = Some c -> cbuf s !! p = Some d -> is_hi_surrogate c = true -> is_lo_surrogate d = true -> False).

Lemma hi_not_lo c : is_hi_surrogate c = true -> is_lo_surrogate c = false.
Proof. unfold is_hi_surrogate, is_lo_surrogate. intros H. apply Z.eqb_eq in H. rewrite H. reflexivity. Qed.

Lemma get_char_boundary p : boundary p -> (p < length (cbuf s))%nat ->
  exists c p', get_char s p (cbuf_end s) = Some (c, p') /\ boundary p' /\ (p < p')%nat /\ get_prev_char s p' 0 = Some (c, p).
Proof.
  intros [Hle Hb] Hlt. destruct (lookup_lt_is_Some_2 (cbuf s) p Hlt) as [c Hc]. unfold get_char, get_prev_char, GET_CHAR, cbuf_end. rewrite Hc. cbn [mbind option_bind].
  assert (Hone : forall (Hn : ~ (cbuf_type s = 2 /\ is_hi_surrogate c = true /\ exists d, cbuf s !! S p = Some d /\ is_lo_surrogate d = true)), boundary (S p) /\ GET_PREV_CHAR (cbuf s) (cbuf_type s) (S p) 0 = Some (c, p)).
  { intros Hn. split.
    - split; [lia|]. intros H2 q c' d Hq Hc' Hd Hhi Hlo. injection Hq as <-. apply Hn. rewrite Hc in Hc'. injection Hc' as <-. eauto.
    - unfold GET_PREV_CHAR. rewrite Hc. cbn [mbind option_bind]. destruct (is_lo_surrogate c) eqn:El; [|reflexivity]. destruct (Z.eqb_spec (cbuf_type s) 2) as [H2|]; [|reflexivity]. destruct (Nat.ltb_spec 0 p); [|reflexivity]. cbn [andb]. destruct p as [|q]; [lia|]. cbn [pred].
      destruct (lookup_lt_is_Some_2 (cbuf s) q ltac:(lia)) as [d Hd]. rewrite Hd. cbn [mbind option_bind]. destruct (is_hi_surrogate d) eqn:Ed; [|reflexivity]. destruct (Hb H2 q d c eq_refl Hd Hc Ed El). }
  destruct (is_hi_surrogate c && (cbuf_type s =? 2) && (S p <? length (cbuf s))%nat) eqn:E.
  - apply andb_prop in E as [E El]. apply andb_prop in E as [Eh E2]. apply Nat.ltb_lt in El. apply Z.eqb_eq in E2. destruct (lookup_lt_is_Some_2 (cbuf s) (S p) El) as [d Hd]. rewrite Hd. cbn [mbind option_bind]. destruct (is_lo_surrogate d) eqn:Ed.
    + eexists _, _. split; [reflexivity|]. split; [|split; [lia|]].
      * split; [lia|]. intros _ q c' d' Hq Hc' Hd' Hhi _. injection Hq as <-. rewrite Hd in Hc'. injection Hc' as <-. rewrite (hi_not_lo d Hhi) in Ed. discriminate.
      * unfold GET_PREV_CHAR. rewrite Hd. cbn [mbind option_bind pred]. rewrite Ed, E2. cbn [andb Z.eqb]. change (Pos.eqb 2 2) with true. cbv iota. rewrite (proj2 (Nat.ltb_lt _ _)) by lia. rewrite Hc. cbn [mbind option_bind]. rewrite Eh. reflexivity.
    + eexists _, _. split; [reflexivity|]. destruct Hone as [Hb' Hp]; [intros (_ & _ & d' & Hd' & Hlo); congruence|]. split; [exact Hb'|]. split; [lia|exact Hp].
  - eexists _, _. split; [reflexivity|]. destruct Hone as [Hb' Hp]; [|split; [exact Hb'|split; [lia|exact Hp]]].
    intros (H2 & Hhi & d & Hd & _). rewrite Hhi, H2 in E. cbn [andb Z.eqb] in E. change (Pos.eqb 2 2) with true in E. apply Nat.ltb_ge in E. apply lookup_lt_Some in Hd. lia.
Qed.

Lemma get_prev_boundary p : boundary p -> (0 < p)%nat ->
  exists c p', get_prev_char s p 0 = Some (c, p') /\ boundary p' /\ (p' < p)%nat /\ get_char s p' (cbuf_end s) = Some (c, p).
Proof.
  intros [Hle Hb] Hp. destruct p as [|q]; [lia|]. destruct (lookup_lt_is_Some_2 (cbuf s) q ltac:(lia)) as [c Hc]. unfold get_char, get_prev_char, GET_PREV_CHAR, cbuf_end. rewrite Hc. cbn [mbind option_bind].
  destruct (is_lo_surrogate c && (cbuf_type s =? 2) && (0 <? q)%nat) eqn:E.
  - apply andb_prop in E as [E Eq]. apply andb_prop in E as [El E2]. apply Nat.ltb_lt in Eq. apply Z.eqb_eq in E2. destruct q as [|r]; [lia|]. cbn [pred]. destruct (lookup_lt_is_Some_2 (cbuf s) r ltac:(lia)) as [d Hd]. rewrite Hd. cbn [mbind option_bind]. destruct (is_hi_surrogate d) eqn:Ed.
    + eexists _, _. split; [reflexivity|]. split; [|split; [lia|]].
      * split; [lia|]. intros _ q c' d' Hq Hc' Hd' Hhi Hlo. rewrite Hd in Hd'. injection Hd' as <-. rewrite (hi_not_lo d Ed) in Hlo. discriminate.
      * unfold GET_CHAR. rewrite Hd. cbn [mbind option_bind]. rewrite Ed, E2. rewrite (proj2 (Nat.ltb_lt _ _)) by lia. cbn [andb Z.eqb]. change (Pos.eqb 2 2) with true. cbv iota. rewrite Hc. cbn [mbind option_bind]. rewrite El. reflexivity.
    + eexists _, _. split; [reflexivity|]. split; [|split; [lia|]].
      * split; [lia|]. intros _ q c' d' Hq Hc' Hd' Hhi _. injection Hq as <-. rewrite Hd in Hc'. injection Hc' as <-. congruence.
      * unfold GET_CHAR. rewrite Hc. cbn [mbind option_bind]. destruct (is_hi_surrogate c) eqn:Eh; [rewrite (hi_not_lo c Eh) in El; discriminate|]. reflexivity.
  - eexists _, _. split; [reflexivity|]. split; [|split; [lia|]].
    + split; [lia|]. intros H2 r c' d' Hq Hc' Hd' Hhi Hlo. rewrite Hq in *. rewrite Hc in Hd'. injection Hd' as <-. rewrite Hlo, H2 in E. cbn in E. discriminate.
    + unfold GET_CHAR. rewrite Hc. cbn [mbind option_bind]. destruct (is_hi_surrogate c && (cbuf_type s =? 2) && (S q <? length (cbuf s))%nat) eqn:E3; [|reflexivity].
      apply andb_prop in E3 as [E3 El]. apply andb_prop in E3 as [Eh E2]. apply Nat.ltb_lt in El. apply Z.eqb_eq in E2. destruct (lookup_lt_is_Some_2 (cbuf s) (S q) El) as [d Hd]. rewrite Hd. cbn [mbind option_bind]. destruct (is_lo_surrogate d) eqn:Ed; [|reflexivity]. destruct (Hb E2 q c d eq_refl Hc Hd Eh Ed).
Qed.

(** ** Terms *)

(** The character test of an instruction; the end 0xffff of a 16-bit class stands for
    every character from there on. *)
Definition char_test (op : reop) (c : Z) : bool :=
  match op with
  | REOP_char ic _ val => val =? fold_case s ic c
  | REOP_dot => negb (is_line_terminator c)
  | REOP_any => true
  | REOP_range ic wide l => let c := fold_case s ic c in existsb (fun r => (r.1 <=? c) && ((c <=? r.2) || (negb wide && (r.2 =? 0xffff) && (0xffff <=? c)))) l
  | _ => false
  end.

(** The next character in the direction of the match. *)
Definition char_den (bwd : bool) (op : reop) (x : thread) : list thread :=
  let r := if bwd then (if Nat.eqb x.1 0 then None else get_prev_char s x.1 0) else (if (cbuf_end s <=? x.1)%nat then None else get_char s x.1 (cbuf_end s)) in
  match r with Some (c, p) => if char_test op c then [(p, x.2)] else [] | None => [] end.

Definition word_test (r : option (Z * nat)) (ic : bool) : bool := match r with Some (c, _) => is_word_char (fold_case s ic c) | None => false end.
Definition char_before (p : nat) : option (Z * nat) := if Nat.eqb p 0 then None else get_prev_char s p 0.
Definition char_after (p : nat) : option (Z * nat) := if (cbuf_end s <=? p)%nat then None else get_char s p (cbuf_end s).

Definition assert_test (op : reop) (p : nat) : bool :=
  match op with
  | REOP_line_start m => match char_before p with None => true | Some (c, _) => m && is_line_terminator c end
  | REOP_line_end m => match char_after p with None => true | Some (c, _) => m && is_line_terminator c end
  | REOP_word_boundary n ic => eqb (xorb (word_test (char_before p) ic) (word_test (char_after p) ic)) (negb n)
  | _ => false
  end.

(** A back reference to a group that has not matched is empty. *)
Definition backref_den (bwd ic : bool) (n : Z) (x : thread) : list thread :=
  match capture_at x.2 (2 * n), capture_at x.2 (2 * n + 1) with
  | Some a, Some b =>
      match (if bwd then backward_backref_loop s (S b) ic b a x.1 else backref_loop s (S b) ic a b x.1) with
      | Some (Some p) => [(p, x.2)]
      | _ => []
      end
  | _, _ => [x]
  end.

Definition set_capture (x : thread) (i : Z) : thread := (x.1, <[Z.to_nat i := Some x.1]> x.2).

Fixpoint times (d : thread -> list thread) (n : nat) (x : thread) : list thread :=
  match n with O => [x] | S n => flat_map (times d n) (d x) end.

(** At most [n] more rounds, each of which has to advance. *)
Fixpoint upto (d : thread -> list thread) (greedy : bool) (n : nat) (x : thread) : list thread :=
  match n with
  | O => [x]
  | S n =>
      let more := flat_map (fun y : thread => if Nat.eqb y.1 x.1 then [] else upto d greedy n y) (d x) in
      if greedy then more ++ [x] else x :: more
  end.

Fixpoint groups (r : regex) : Z :=
  match r with
  | RGroup a => 1 + groups a
  | RCat a b | RAlt a b => groups a + groups b
  | RLook _ _ a | RQuant a _ _ _ => groups a
  | _ => 0
  end.

(** Infinitely many rounds: each one moves the position. *)
Definition rounds (quant_min quant_max : Z) : nat := if quant_max =? INT32_MAX then S (length (cbuf s)) else Z.to_nat (quant_max - quant_min).

Fixpoint den (bwd : bool) (r : regex) (cc : Z) (x : thread) : list thread :=
  match r with
  | REmpty => [x]
  | RChar op => char_den bwd op x
  | RAssert op => if assert_test op x.1 then [x] else []
  | RBackref ic n => backref_den bwd ic n x
  | RCat a b =>
      if bwd then flat_map (den bwd a cc) (den bwd b (cc + groups a) x) else flat_map (den bwd b (cc + groups a)) (den bwd a cc x)
  | RAlt a b => den bwd a cc x ++ den bwd b (cc + groups a) x
  | RGroup a => map (fun y => set_capture y (2 * cc + c_bool (negb bwd))) (den bwd a (cc + 1) (set_capture x (2 * cc + c_bool bwd)))
  | RLook negative behind a =>
      match den behind a cc x with
      | [] => if negative then [x] else []
      | y :: _ => if negative then [] else [(x.1, y.2)]
      end
  | RQuant a quant_min quant_max greedy =>
      let x := if quant_min =? 0 then (x.1, if 0 <? groups a then reset_captures x.2 cc (cc + groups a - 1) else x.2) else x in
      flat_map (upto (den bwd a cc) greedy (rounds quant_min quant_max)) (times (den bwd a cc) (Z.to_nat quant_min) x)
  end.

(** The matches of the whole expression from a position on: at the position itself, and
    unless it is sticky at the next ones. *)
Fixpoint search (fuel : nat) (r : regex) (sticky : bool) (x : thread) : list thread :=
  map (fun y => set_capture y 1) (den false r 1 (set_capture x 0)) ++
  match fuel with
  | O => []
  | S fuel => if sticky then [] else match char_after x.1 with Some (_, p) => search fuel r sticky (p, x.2) | None => [] end
  end.

(** ** Well-formed expressions *)

Fixpoint ranges_sorted (low : Z) (l : list (Z * Z)) : bool :=
  match l with [] => true | (a, b) :: l => (low <=? a) && (a <=? b) && ranges_sorted (b + 1) l end.

(** The operands of a character: they fit, and the ranges of a class are in order. *)
Definition char_ok (op : reop) : bool :=
  match op with
  | REOP_char _ wide v => (0 <=? v) && (v <? (if wide then 2 ^ 32 else 2 ^ 16))
  | REOP_dot | REOP_any => true
  | REOP_range _ wide l => (0 <? Z.of_nat (length l)) && (Z.of_nat (length l) <? 2 ^ 16) && ranges_sorted 0 l && forallb (fun r => r.2 <? (if wide then 2 ^ 32 else 2 ^ 16)) l
  | _ => false
  end.

Definition assert_ok (op : reop) : bool := match op with REOP_line_start _ | REOP_line_end _ | REOP_word_boundary _ _ => true | _ => false end.

(** With [count] captures in all. *)
Fixpoint regex_ok (count : Z) (r : regex) : bool :=
  match r with
  | REmpty => true
  | RChar op => char_ok op
  | RAssert op => assert_ok op
  | RBackref _ n => (0 <=? n) && (n <? count)
  | RCat a b | RAlt a b => regex_ok count a && regex_ok count b
  | RGroup a | RLook _ _ a => regex_ok count a
  | RQuant a mn mx _ => regex_ok count a && (0 <=? mn) && (mn <=? mx) && (mx <=? INT32_MAX)
  end.

(** ** The threads of a match *)

Record thread_ok (x : thread) : Prop := {
  thread_pos : boundary x.1;
  thread_captures : Z.of_nat (length x.2) = 2 * capture_count s;
  thread_bounds : forall i p, x.2 !! i = Some (Some p) -> boundary p
}.

(** From [x] to [y] the position moves in the direction of the match. *)
Definition moves (bwd : bool) (x y : thread) : Prop := if bwd then (y.1 <= x.1)%nat else (x.1 <= y.1)%nat.

Lemma moves_refl bwd x : moves bwd x x.
Proof. destruct bwd; cbn; lia. Qed.

Lemma moves_trans bwd x y z : moves bwd x y -> moves bwd y z -> moves bwd x z.
Proof. destruct bwd; cbn; lia. Qed.

Lemma thread_at x p : thread_ok x -> boundary p -> thread_ok (p, x.2).
Proof. intros [H1 H2 H3] Hp. split; assumption. Qed.

Lemma thread_set x i : thread_ok x -> thread_ok (set_capture x i).
Proof.
  intros [H1 H2 H3]. split; cbn; [exact H1|rewrite length_insert; exact H2|]. intros j p Hj. apply list_lookup_insert_Some in Hj as [(_ & E & _)|[_ Hj]]; [injection E as <-; exact H1|exact (H3 j p Hj)].
Qed.

Lemma thread_reset x a b : thread_ok x -> thread_ok (x.1, reset_captures x.2 a b).
Proof.
  intros [H1 H2 H3]. split; cbn; [exact H1|unfold reset_captures; rewrite length_imap; exact H2|]. intros j p Hj. unfold reset_captures in Hj. rewrite list_lookup_imap in Hj. destruct (x.2 !! j) as [v|] eqn:E; [|discriminate]. cbn in Hj. destruct (_ && _); [discriminate|]. injection Hj as ->. exact (H3 j p E).
Qed.

Lemma capture_bound x i p : thread_ok x -> capture_at x.2 i = Some p -> boundary p.
Proof. intros [_ _ H]. unfold capture_at. destruct (x.2 !! Z.to_nat i) as [[q|]|] eqn:E; try discriminate. intros [= <-]. exact (H _ _ E). Qed.

(** Reading up to a boundary is reading. *)
Lemma get_char_end p e : boundary e -> (p < e)%nat -> get_char s p e = get_char s p (cbuf_end s).
Proof.
  intros [He Hb] Hp. unfold get_char, GET_CHAR, cbuf_end. destruct (lookup_lt_is_Some_2 (cbuf s) p ltac:(lia)) as [c Hc]. rewrite Hc. cbn [mbind option_bind]. destruct (is_hi_surrogate c) eqn:Eh; [|reflexivity]. destruct (Z.eqb_spec (cbuf_type s) 2) as [H2|]; [|reflexivity]. cbn [andb].
  destruct (Nat.ltb_spec (S p) e); [rewrite (proj2 (Nat.ltb_lt _ _)) by lia; reflexivity|]. assert (e = S p) as -> by lia. destruct (Nat.ltb_spec (S p) (length (cbuf s))) as [Hl|]; [|reflexivity].
  destruct (lookup_lt_is_Some_2 (cbuf s) (S p) Hl) as [d Hd]. rewrite Hd. cbn [mbind option_bind]. destruct (is_lo_surrogate d) eqn:El; [|reflexivity]. destruct (Hb H2 p c d eq_refl Hc Hd Eh El).
Qed.

Lemma get_prev_start p b : boundary b -> (b < p)%nat -> (p <= length (cbuf s))%nat -> get_prev_char s p b = get_prev_char s p 0.
Proof.
  intros [He Hb] Hp Hl. unfold get_prev_char, GET_PREV_CHAR. destruct p as [|q]; [lia|]. destruct (lookup_lt_is_Some_2 (cbuf s) q ltac:(lia)) as [c Hc]. rewrite Hc. cbn [mbind option_bind]. destruct (is_lo_surrogate c) eqn:El; [|reflexivity]. destruct (Z.eqb_spec (cbuf_type s) 2) as [H2|]; [|reflexivity]. cbn [andb].
  destruct (Nat.ltb_spec b q); [rewrite (proj2 (Nat.ltb_lt _ _)) by lia; reflexivity|]. assert (q = b) as -> by lia. destruct (Nat.ltb_spec 0 b) as [H0|]; [|reflexivity]. destruct b as [|r]; [lia|]. cbn [pred].
  destruct (lookup_lt_is_Some_2 (cbuf s) r ltac:(lia)) as [d Hd]. rewrite Hd. cbn [mbind option_bind]. destruct (is_hi_surrogate d) eqn:Eh; [|reflexivity]. destruct (Hb H2 r d c eq_refl Hd Hc Eh El).
Qed.

(** A step of [get_char] does not pass a boundary. *)
Lemma get_char_before p e c p' : boundary e -> (p < e)%nat -> get_char s p (cbuf_end s) = Some (c, p') -> (p' <= e)%nat.
Proof.
  intros He Hp E. rewrite <- (get_char_end p e He Hp) in E. unfold get_char, GET_CHAR in E. destruct (cbuf s !! p); [|discriminate]. cbn [mbind option_bind] in E. destruct (_ && _) eqn:Eb; [|injection E as _ <-; lia]. apply andb_prop in Eb as [_ Eb]. apply Nat.ltb_lt in Eb.
  destruct (cbuf s !! S p); [|discriminate]. cbn [mbind option_bind] in E. destruct (is_lo_surrogate _); injection E as _ <-; lia.
Qed.

Lemma get_prev_after p b c p' : boundary b -> (b < p)%nat -> (p <= length (cbuf s))%nat -> get_prev_char s p 0 = Some (c, p') -> (b <= p')%nat.
Proof.
  intros Hb Hp Hl E. rewrite <- (get_prev_start p b Hb Hp Hl) in E. unfold get_prev_char, GET_PREV_CHAR in E. destruct p as [|q]; [lia|]. destruct (cbuf s !! q); [|discriminate]. cbn [mbind option_bind] in E. destruct (_ && _) eqn:Eb; [|injection E as _ <-; lia]. apply andb_prop in Eb as [_ Eb]. apply Nat.ltb_lt in Eb.
  destruct (cbuf s !! pred q); [|discriminate]. cbn [mbind option_bind] in E. destruct (is_hi_surrogate _); injection E as _ <-; lia.
Qed.

Lemma backref_loop_ok fuel ic a e p : boundary a -> boundary e -> boundary p -> (e - a < fuel)%nat ->
  exists r, backref_loop s fuel ic a e p = Some r /\ forall q, r = Some q -> boundary q /\ (p <= q)%nat.
Proof.
  revert a p. induction fuel as [|fuel IH]; intros a p Ha He Hp Hf; [lia|]. cbn [backref_loop]. destruct (Nat.ltb_spec a e); [|exists (Some p); split; [reflexivity|]; intros q [= <-]; auto].
  destruct (Nat.leb_spec (cbuf_end s) p) as [|Hpe]; [exists None; split; [reflexivity|intros q [=]]|]. rewrite (get_char_end a e He H). pose proof (proj1 He).
  destruct (get_char_boundary a Ha ltac:(lia)) as (c1 & a' & E1 & Ha' & Hlt & _). pose proof (get_char_before _ _ _ _ He H E1). rewrite E1. cbn [mbind option_bind]. destruct (get_char_boundary p Hp Hpe) as (c2 & p' & E2 & Hp' & Hlt2 & _). rewrite E2. cbn [mbind option_bind fst snd].
  destruct (negb _); [exists None; split; [reflexivity|intros q [=]]|]. destruct (IH a' p' Ha' He Hp' ltac:(lia)) as (r & Er & Hr). exists r. split; [exact Er|]. intros q Hq. destruct (Hr q Hq). split; [assumption|lia].
Qed.

Lemma backward_backref_loop_ok fuel ic e a p : boundary a -> boundary e -> boundary p -> (e - a < fuel)%nat ->
  exists r, backward_backref_loop s fuel ic e a p = Some r /\ forall q, r = Some q -> boundary q /\ (q <= p)%nat.
Proof.
  revert e p. induction fuel as [|fuel IH]; intros e p Ha He Hp Hf; [lia|]. cbn [backward_backref_loop]. destruct (Nat.ltb_spec a e); [|exists (Some p); split; [reflexivity|]; intros q [= <-]; auto].
  destruct (Nat.eqb_spec p 0) as [|Hp0]; [exists None; split; [reflexivity|intros q [=]]|]. pose proof (proj1 He). rewrite (get_prev_start e a Ha H ltac:(lia)).
  destruct (get_prev_boundary e He ltac:(lia)) as (c1 & e' & E1 & He' & Hlt & _). pose proof (get_prev_after _ _ _ _ Ha H ltac:(lia) E1). rewrite E1. cbn [mbind option_bind]. destruct (get_prev_boundary p Hp ltac:(lia)) as (c2 & p' & E2 & Hp' & Hlt2 & _). rewrite E2. cbn [mbind option_bind fst snd].
  destruct (negb _); [exists None; split; [reflexivity|intros q [=]]|]. destruct (IH e' p' Ha He' Hp' ltac:(lia)) as (r & Er & Hr). exists r. split; [exact Er|]. intros q Hq. destruct (Hr q Hq). split; [assumption|lia].
Qed.

(** Matches are threads further on. *)
Definition sound (bwd : bool) (d : thread -> list thread) : Prop := forall x y, thread_ok x -> y ∈ d x -> thread_ok y /\ moves bwd x y.

Lemma sound_id bwd : sound bwd (fun x => [x]).
Proof. intros x y Hx Hy. apply list_elem_of_singleton in Hy as ->. split; [exact Hx|apply moves_refl]. Qed.

Lemma elem_of_flat_map {A B} (f : A -> list B) l y : y ∈ flat_map f l <-> exists x, x ∈ l /\ y ∈ f x.
Proof. rewrite list_elem_of_In, in_flat_map. setoid_rewrite list_elem_of_In. tauto. Qed.

Lemma sound_seq bwd d e : sound bwd d -> sound bwd e -> sound bwd (fun x => flat_map e (d x)).
Proof.
  intros Hd He x y Hx Hy. apply elem_of_flat_map in Hy as (z & Hz & Hy). destruct (Hd x z Hx Hz) as [Hz' Hm]. destruct (He z y Hz' Hy) as [Hy' Hm']. split; [exact Hy'|exact (moves_trans _ _ _ _ Hm Hm')].
Qed.

Lemma sound_times bwd d n : sound bwd d -> sound bwd (times d n).
Proof. intros Hd. induction n as [|n IH]; [apply sound_id|]. apply (sound_seq bwd d (times d n) Hd IH). Qed.

Lemma sound_upto bwd d greedy n : sound bwd d -> sound bwd (upto d greedy n).
Proof.
  intros Hd. induction n as [|n IH]; [apply sound_id|]. assert (Hm : sound bwd (fun x => flat_map (fun y : thread => if Nat.eqb y.1 x.1 then [] else upto d greedy n y) (d x))).
  { intros x y Hx Hy. apply elem_of_flat_map in Hy as (z & Hz & Hy). destruct (Nat.eqb z.1 x.1); [inversion Hy|]. destruct (Hd x z Hx Hz) as [Hz' Hmv]. destruct (IH z y Hz' Hy) as [Hy' Hm']. split; [exact Hy'|exact (moves_trans _ _ _ _ Hmv Hm')]. }
  intros x y Hx Hy. cbn [upto] in Hy. destruct greedy; [apply elem_of_app in Hy as [Hy|Hy]; [exact (Hm x y Hx Hy)|apply (sound_id bwd x y Hx Hy)]|]. apply elem_of_cons in Hy as [->|Hy]; [split; [exact Hx|apply moves_refl]|exact (Hm x y Hx Hy)].
Qed.

Lemma sound_char bwd op : sound bwd (char_den bwd op).
Proof.
  intros x y Hx Hy. pose proof (thread_pos _ Hx) as Hb. unfold char_den in Hy. destruct bwd.
  - destruct (Nat.eqb_spec x.1 0); [inversion Hy|]. destruct (get_prev_boundary x.1 Hb ltac:(lia)) as (c & p' & E & Hp' & Hlt & _). rewrite E in Hy. destruct (char_test op c); [|inversion Hy]. apply list_elem_of_singleton in Hy as ->. split; [apply thread_at; assumption|cbn; lia].
  - destruct (Nat.leb_spec (cbuf_end s) x.1) as [|Hl]; [inversion Hy|]. destruct (get_char_boundary x.1 Hb Hl) as (c & p' & E & Hp' & Hlt & _). rewrite E in Hy. destruct (char_test op c); [|inversion Hy]. apply list_elem_of_singleton in Hy as ->. split; [apply thread_at; assumption|cbn; lia].
Qed.

Lemma sound_backref bwd ic n : sound bwd (backref_den bwd ic n).
Proof.
  intros x y Hx Hy. unfold backref_den in Hy. destruct (capture_at x.2 (2 * n)) as [a|] eqn:Ea; [|apply (sound_id bwd x y Hx Hy)]. destruct (capture_at x.2 (2 * n + 1)) as [b|] eqn:Eb; [|apply (sound_id bwd x y Hx Hy)].
  pose proof (capture_bound _ _ _ Hx Ea) as Ha. pose proof (capture_bound _ _ _ Hx Eb) as Hb. pose proof (thread_pos _ Hx) as Hp. destruct bwd.
  - destruct (backward_backref_loop_ok (S b) ic b a x.1 Ha Hb Hp ltac:(lia)) as (r & E & Hr). rewrite E in Hy. destruct r as [q|]; [|inversion Hy]. apply list_elem_of_singleton in Hy as ->. destruct (Hr q eq_refl). split; [apply thread_at; assumption|cbn; lia].
  - destruct (backref_loop_ok (S b) ic a b x.1 Ha Hb Hp ltac:(lia)) as (r & E & Hr). rewrite E in Hy. destruct r as [q|]; [|inversion Hy]. apply list_elem_of_singleton in Hy as ->. destruct (Hr q eq_refl). split; [apply thread_at; assumption|cbn; lia].
Qed.

Lemma den_sound r : forall bwd cc, sound bwd (den bwd r cc).
Proof.
  induction r as [|op|op|ic n|a IHa b IHb|a IHa b IHb|a IHa|neg behind a IHa|a IHa mn mx greedy]; intros bwd cc; cbn [den].
  - apply sound_id.
  - apply sound_char.
  - intros x y Hx Hy. destruct (assert_test op x.1); [apply (sound_id bwd x y Hx Hy)|inversion Hy].
  - apply sound_backref.
  - destruct bwd; [exact (sound_seq true _ _ (IHb true _) (IHa true _))|exact (sound_seq false _ _ (IHa false _) (IHb false _))].
  - intros x y Hx Hy. apply elem_of_app in Hy as [Hy|Hy]; [exact (IHa bwd cc x y Hx Hy)|exact (IHb bwd _ x y Hx Hy)].
  - intros x y Hx Hy. apply list_elem_of_fmap in Hy as (z & -> & Hz). destruct (IHa bwd (cc + 1) _ z (thread_set x _ Hx) Hz) as [Hz' Hm]. split; [apply thread_set, Hz'|exact Hm].
  - intros x y Hx Hy. destruct (den behind a cc x) as [|z l] eqn:E.
    + destruct neg; [apply (sound_id bwd x y Hx Hy)|inversion Hy].
    + destruct neg; [inversion Hy|]. apply list_elem_of_singleton in Hy as ->. destruct (IHa behind cc x z Hx) as [[_ Hc Hb] _]; [rewrite E; left|]. split; [split; [exact (thread_pos _ Hx)|exact Hc|exact Hb]|apply (moves_refl bwd x)].
  - intros x y Hx Hy. assert (Hs : sound bwd (fun x => flat_map (upto (den bwd a cc) greedy (rounds mn mx)) (times (den bwd a cc) (Z.to_nat mn) x))) by (apply (sound_seq bwd (times _ _)); [apply sound_times, IHa|apply sound_upto, IHa]).
    destruct (mn =? 0); [|exact (Hs x y Hx Hy)]. refine (Hs (x.1, _) y _ Hy). destruct (0 <? groups a); [apply thread_reset, Hx|]. destruct x; exact Hx.
Qed.

End Den.
