(* ===== verification/LreCode.v ===== *)
(** Emitted code is read back: instructions, jumps and the scans over code. *)
From Stdlib Require Import ZArith Lia.
From S2P Require Import Prelude Cutils LreExec.
From stdpp Require Import base tactics numbers option list.

Open Scope Z_scope.

(** ** Bytes *)

Lemma get_bytes_at pre n v post : get_bytes (pre ++ le_bytes n v ++ post) n (length pre) = Some (v mod 256 ^ Z.of_nat n).
Proof.
  unfold get_bytes. rewrite (proj2 (Nat.leb_le _ _)) by (rewrite !length_app, le_bytes_length; lia). rewrite drop_app_length. rewrite (take_app_le (le_bytes n v)) by (rewrite le_bytes_length; lia). rewrite take_ge by (rewrite le_bytes_length; lia). rewrite le_value_bytes. reflexivity.
Qed.

(** [code_at bc p c]: the code [c] is at [p]. *)
Definition code_at (bc : list Z) (p : nat) (c : list Z) : Prop := exists pre post, bc = pre ++ c ++ post /\ length pre = p.

Lemma code_at_left bc p a b : code_at bc p (a ++ b) -> code_at bc p a.
Proof. intros (pre & post & -> & Hp). exists pre, (b ++ post). rewrite <- !app_assoc. auto. Qed.

Lemma code_at_right bc p a b : code_at bc p (a ++ b) -> code_at bc (p + length a) b.
Proof. intros (pre & post & -> & Hp). exists (pre ++ a), post. rewrite <- !app_assoc, length_app. auto. Qed.

Lemma code_at_length bc p c : code_at bc p c -> (p + length c <= length bc)%nat.
Proof. intros (pre & post & -> & <-). rewrite !length_app. lia. Qed.

Lemma code_bytes bc p n v : code_at bc p (le_bytes n v) -> get_bytes bc n p = Some (v mod 256 ^ Z.of_nat n).
Proof. intros (pre & post & -> & <-). apply get_bytes_at. Qed.

Lemma code_opcode bc p o l : code_at bc p (o :: l) -> 0 <= o < 256 -> get_u8_at bc p = Some o.
Proof.
  intros H Ho. unfold get_u8_at. replace o with (o mod 256 ^ Z.of_nat 1) by (apply Z.mod_small; exact Ho). apply code_bytes. cbn [le_bytes]. rewrite Z.mod_small by exact Ho. exact (code_at_left bc p [o] l H).
Qed.

Lemma code_tail bc p o l : code_at bc p (o :: l) -> code_at bc (S p) l.
Proof. intros H. replace (S p) with (p + length [o])%nat by (cbn; lia). exact (code_at_right bc p [o] l H). Qed.

(** ** Instructions *)

Definition range_operand (w : nat) (r : Z * Z) : Prop := 0 <= r.1 < 256 ^ Z.of_nat w /\ 0 <= r.2 < 256 ^ Z.of_nat w.

(** Operands that fit; jumps are read back modulo 2^32. *)
Definition op_ok (op : reop) : Prop :=
  match op with
  | REOP_char _ wide v => 0 <= v < (if wide then 2 ^ 32 else 2 ^ 16)
  | REOP_save _ v | REOP_back_reference _ _ v => 0 <= v < 256
  | REOP_save_reset v v2 => 0 <= v < 256 /\ 0 <= v2 < 256
  | REOP_push_i32 v => 0 <= v < 2 ^ 32
  | REOP_range _ wide l => Z.of_nat (length l) < 2 ^ 16 /\ Forall (range_operand (if wide then 4 else 2)) l
  | REOP_simple_greedy_quant a b c d => 0 <= a < 2 ^ 32 /\ 0 <= b < 2 ^ 32 /\ 0 <= c < 2 ^ 32 /\ 0 <= d < 2 ^ 32
  | _ => True
  end.

Definition read_back (op : reop) : reop :=
  match op with
  | REOP_goto v => REOP_goto (v mod 2 ^ 32)
  | REOP_split b v => REOP_split b (v mod 2 ^ 32)
  | REOP_loop v => REOP_loop (v mod 2 ^ 32)
  | REOP_lookahead b v => REOP_lookahead b (v mod 2 ^ 32)
  | _ => op
  end.

Lemma ranges_at bc w l p : Forall (range_operand w) l -> code_at bc p (encode_ranges w l) -> get_ranges bc w (length l) p = Some l.
Proof.
  intros H. revert p. induction H as [|[a b] l [Ha Hb] H IH]; intros p Hc; [reflexivity|]. cbn [encode_ranges flat_map fst snd length get_ranges] in *. fold (encode_ranges w l) in Hc. rewrite <- app_assoc in Hc.
  rewrite (code_bytes _ _ _ _ (code_at_left _ _ _ _ Hc)). apply code_at_right in Hc. rewrite le_bytes_length in Hc. cbn [mbind option_bind]. rewrite (code_bytes _ _ _ _ (code_at_left _ _ _ _ Hc)). apply code_at_right in Hc. rewrite le_bytes_length in Hc. cbn [mbind option_bind].
  replace (p + w + w)%nat with (p + 2 * w)%nat in Hc by lia. rewrite (IH _ Hc). cbn [mbind option_bind]. rewrite !Z.mod_small by assumption. reflexivity.
Qed.

Lemma encode_ranges_length w l : length (encode_ranges w l) = (2 * w * length l)%nat.
Proof. induction l as [|r l IH]; [cbn; lia|]. unfold encode_ranges in *. cbn [flat_map length]. rewrite !length_app, !le_bytes_length, IH. lia. Qed.

Ltac read_operand Hc :=
  first [ rewrite (code_bytes _ _ _ _ Hc) | rewrite (code_bytes _ _ _ _ (code_at_left _ _ _ _ Hc)); apply code_at_right in Hc; rewrite le_bytes_length, ?Nat.add_1_r in Hc; rewrite <- ?Nat.add_assoc in Hc; change (4 + 4)%nat with 8%nat in Hc; change (8 + 4)%nat with 12%nat in Hc ];
  cbn [mbind option_bind].

Lemma opcode_range op : 0 <= opcode op < 39.
Proof. destruct op; unfold opcode, bool_bit; repeat match goal with b : bool |- _ => destruct b end; cbn; lia. Qed.

Lemma decode_op bc p op : op_ok op -> code_at bc p (re_emit_op op) -> decode bc p = Some (read_back op, (p + length (re_emit_op op))%nat).
Proof.
  intros Hok Hc. unfold re_emit_op in Hc. unfold decode. rewrite (code_opcode bc p (opcode op) (operands op) Hc) by (pose proof (opcode_range op); lia).
  apply code_tail in Hc. cbn [mbind option_bind]. unfold re_emit_op. cbn [length].
  assert (Hw : forall w ic l, w = 2%nat \/ w = 4%nat -> Z.of_nat (length l) < 2 ^ 16 -> Forall (range_operand w) l -> forall wide, code_at bc (S p) (le_bytes 2 (Z.of_nat (length l)) ++ encode_ranges w l) ->
    (n ← get_u16_at bc (S p); l ← get_ranges bc w (Z.to_nat n) (S p + 2); Some (REOP_range ic wide l, S p + 2 + 2 * w * Z.to_nat n)%nat) = Some (REOP_range ic wide l, p + S (length (le_bytes 2 (Z.of_nat (length l)) ++ encode_ranges w l)))%nat).
  { intros w ic l _ Hl Hr wide Hcr. unfold get_u16_at. read_operand Hcr. rewrite Z.mod_small by (change (256 ^ Z.of_nat 2) with (2 ^ 16); lia). rewrite Nat2Z.id, (ranges_at _ _ _ _ Hr Hcr). cbn [mbind option_bind]. rewrite length_app, le_bytes_length, encode_ranges_length. do 2 f_equal. lia. }
  destruct op as [ic wide v| | |m|m|v|next v| |e v|v v2|v|v| |n ic|b ic v|ic wide l|n v| | | |q1 q2 q3 q4]; cbn [op_ok operands] in Hok, Hc;
    try (destruct wide); try (destruct ic); try (destruct m); try (destruct next); try (destruct e); try (destruct n); try (destruct b); match goal with |- context [opcode ?o] => let v := eval vm_compute in (opcode o) in change (opcode o) with v end; cbv iota; cbn [operands length app];
    try (rewrite Nat.add_1_r; reflexivity);
    try (apply Hw; [auto|tauto|tauto|exact Hc]);
    unfold get_u8_at, get_u16_at, get_u32_at; repeat read_operand Hc; repeat rewrite length_app; rewrite ?le_bytes_length; rewrite ?Z.mod_small by (change (256 ^ Z.of_nat 4) with (2 ^ 32); change (256 ^ Z.of_nat 2) with (2 ^ 16); change (256 ^ Z.of_nat 1) with 256; tauto || lia); cbn [read_back]; change (256 ^ Z.of_nat 4) with (2 ^ 32); do 2 f_equal; lia.
Qed.

Lemma assemble_app a b : assemble (a ++ b) = assemble a ++ assemble b.
Proof. apply flat_map_app. Qed.

Lemma assemble_length l : (length l <= length (assemble l))%nat.
Proof. induction l as [|op l IH]; [cbn; lia|]. change (assemble (op :: l)) with (re_emit_op op ++ assemble l). rewrite length_app. unfold re_emit_op. cbn [length]. lia. Qed.

Lemma code_size_app a b : code_size (a ++ b) = code_size a + code_size b.
Proof. unfold code_size, len. rewrite assemble_app, length_app. lia. Qed.

Lemma code_size_nonneg l : 0 <= code_size l.
Proof. unfold code_size, len. lia. Qed.

(** ** Scans *)

Definition op_simple (op : reop) : option Z :=
  match op with
  | REOP_range _ _ _ | REOP_char _ _ _ | REOP_dot | REOP_any => Some 1
  | REOP_line_start _ | REOP_line_end _ | REOP_word_boundary _ _ => Some 0
  | _ => None
  end.

Fixpoint scan_simple (l : list reop) : option Z :=
  match l with [] => Some 0 | op :: l => n ← op_simple op; m ← scan_simple l; Some (n + m) end.

(** Whether a character is read, [None] if the scan gives up. *)
Definition op_advance (op : reop) : option bool :=
  match op with
  | REOP_range _ _ _ | REOP_char _ _ _ | REOP_dot | REOP_any => Some true
  | REOP_line_start _ | REOP_line_end _ | REOP_push_i32 _ | REOP_push_char_pos | REOP_drop | REOP_word_boundary _ _ | REOP_prev
  | REOP_save _ _ | REOP_save_reset _ _ | REOP_back_reference _ _ _ => Some false
  | _ => None
  end.

Fixpoint scan_advance (l : list reop) : option bool :=
  match l with [] => Some false | op :: l => b ← op_advance op; c ← scan_advance l; Some (b || c) end.

(** The effect on the stack, and the highest point that the stack comes to. *)
Definition op_push (op : reop) : Z := match op with REOP_push_i32 _ | REOP_push_char_pos => 1 | REOP_drop | REOP_check_advance => -1 | _ => 0 end.

Fixpoint drift (l : list reop) : Z := match l with [] => 0 | op :: l => op_push op + drift l end.
Fixpoint peak (l : list reop) : Z := match l with [] => 0 | op :: l => Z.max 0 (op_push op + peak l) end.

Lemma drift_app a b : drift (a ++ b) = drift a + drift b.
Proof. induction a as [|op a IH]; cbn [drift app]; lia. Qed.

Lemma peak_nonneg l : 0 <= peak l.
Proof. destruct l; cbn [peak]; lia. Qed.

Lemma peak_app a b : peak (a ++ b) = Z.max (peak a) (drift a + peak b).
Proof. induction a as [|op a IH]; cbn [peak drift app]; [pose proof (peak_nonneg b); lia|]. rewrite IH. lia. Qed.

(** One instruction of assembled code is scanned. *)
Lemma decode_next pre op l : op_ok op -> decode (assemble pre ++ assemble (op :: l)) (length (assemble pre)) = Some (read_back op, length (assemble (pre ++ [op]))).
Proof.
  intros Hok. rewrite (decode_op _ _ op Hok).
  - rewrite assemble_app, length_app. unfold assemble at 3. cbn [flat_map]. rewrite app_nil_r. reflexivity.
  - exists (assemble pre), (assemble l). split; reflexivity.
Qed.

Lemma scan_end pre : (length (assemble pre) <=? length (assemble pre))%nat = true.
Proof. apply Nat.leb_refl. Qed.

Lemma scan_more pre op l : (length (assemble pre ++ assemble (op :: l)) <=? length (assemble pre))%nat = false.
Proof. apply Nat.leb_gt. rewrite length_app. change (assemble (op :: l)) with (re_emit_op op ++ assemble l). rewrite length_app. unfold re_emit_op. cbn [length]. lia. Qed.

Lemma scan_step pre op l : assemble pre ++ assemble (op :: l) = assemble (pre ++ [op]) ++ assemble l.
Proof. rewrite assemble_app, <- app_assoc. f_equal. unfold assemble. cbn [flat_map]. rewrite app_nil_r. reflexivity. Qed.

Lemma simple_loop_ops l : forall fuel pre count, (length l <= fuel)%nat -> Forall op_ok l ->
  simple_loop fuel (assemble pre ++ assemble l) (length (assemble pre)) count = (n ← scan_simple l; Some (count + n)).
Proof.
  induction l as [|op l IH]; intros fuel pre count Hf Hok.
  - unfold assemble at 2. cbn [flat_map]. rewrite app_nil_r. destruct fuel; cbn [simple_loop]; rewrite scan_end; cbn; f_equal; lia.
  - inversion Hok as [|? ? Hop Hl]; subst. destruct fuel as [|fuel]; [cbn in Hf; lia|]. cbn [simple_loop]. rewrite scan_more, (decode_next _ _ _ Hop), scan_step. cbn [mbind option_bind scan_simple].
    assert (Hgo : forall c, simple_loop fuel (assemble (pre ++ [op]) ++ assemble l) (length (assemble (pre ++ [op]))) c = (n ← scan_simple l; Some (c + n))) by (intros c; apply IH; [cbn in Hf; lia|exact Hl]).
    destruct op; cbn [read_back op_simple mbind option_bind]; try reflexivity; rewrite Hgo; destruct (scan_simple l); cbn; try reflexivity; f_equal; lia.
Qed.

Lemma re_is_simple_quantifier_ops l : Forall op_ok l -> re_is_simple_quantifier (assemble l) = match scan_simple l with Some n => n | None => -1 end.
Proof.
  intros H. unfold re_is_simple_quantifier. pose proof (simple_loop_ops l (length (assemble l)) [] 0 (assemble_length l) H) as E. cbn [assemble flat_map app length] in E. rewrite E. destruct (scan_simple l); reflexivity.
Qed.

Lemma advance_loop_ops l : forall fuel pre ret, (length l <= fuel)%nat -> Forall op_ok l ->
  advance_loop fuel (assemble pre ++ assemble l) (length (assemble pre)) ret = match scan_advance l with None => true | Some b => ret && negb b end.
Proof.
  induction l as [|op l IH]; intros fuel pre ret Hf Hok.
  - unfold assemble at 2. cbn [flat_map]. rewrite app_nil_r. destruct fuel; cbn [advance_loop]; rewrite scan_end; destruct ret; reflexivity.
  - inversion Hok as [|? ? Hop Hl]; subst. destruct fuel as [|fuel]; [cbn in Hf; lia|]. cbn [advance_loop]. rewrite scan_more, (decode_next _ _ _ Hop), scan_step. cbn [mbind option_bind scan_advance].
    assert (Hgo : forall c, advance_loop fuel (assemble (pre ++ [op]) ++ assemble l) (length (assemble (pre ++ [op]))) c = match scan_advance l with None => true | Some b => c && negb b end) by (intros c; apply IH; [cbn in Hf; lia|exact Hl]).
    destruct op; cbn [read_back op_advance mbind option_bind]; try reflexivity; rewrite Hgo; destruct (scan_advance l) as [[|]|]; destruct ret; reflexivity.
Qed.

Lemma re_need_check_advance_ops l : Forall op_ok l -> re_need_check_advance (assemble l) = match scan_advance l with Some true => false | _ => true end.
Proof.
  intros H. unfold re_need_check_advance. pose proof (advance_loop_ops l (length (assemble l)) [] true (assemble_length l) H) as E. cbn [assemble flat_map app length] in E. rewrite E. destruct (scan_advance l) as [[|]|]; reflexivity.
Qed.

Lemma stack_loop_ops l : forall fuel pre sz mx n, (length l <= fuel)%nat -> Forall op_ok l -> sz <= mx <= STACK_SIZE_MAX ->
  stack_loop fuel (assemble pre ++ assemble l) (length (assemble pre)) sz mx = Some n -> 0 <= n -> n = Z.max mx (sz + peak l) /\ n <= STACK_SIZE_MAX.
Proof.
  induction l as [|op l IH]; intros fuel pre sz mx n Hf Hok Hs E Hn.
  - revert E. unfold assemble at 2. cbn [flat_map]. rewrite app_nil_r. destruct fuel; cbn [stack_loop]; rewrite scan_end; intros [= <-]; cbn [peak]; lia.
  - inversion Hok as [|? ? Hop Hl]; subst. destruct fuel as [|fuel]; [cbn in Hf; lia|]. cbn [stack_loop] in E. rewrite scan_more, (decode_next _ _ _ Hop), scan_step in E. cbn [mbind option_bind] in E.
    pose proof (fun sz mx => IH fuel (pre ++ [op]) sz mx n ltac:(cbn in Hf; lia) Hl) as Hgo. pose proof (peak_nonneg l). cbn [peak].
    destruct op; cbn [read_back op_push] in E |- *;
      try (destruct (Hgo sz mx Hs E Hn); lia);
      try (destruct (_ && _) eqn:Eb in E; [injection E as <-; lia|]; destruct (Hgo (sz + 1) (Z.max (sz + 1) mx)) as [-> ?]; [|exact E|exact Hn|lia]; apply andb_false_iff in Eb; rewrite !Z.ltb_ge in Eb; lia);
      try (destruct (0 <? sz) eqn:Eb in E; [|discriminate]; apply Z.ltb_lt in Eb; destruct (Hgo (sz - 1) mx) as [-> ?]; [lia|exact E|exact Hn|lia]).
Qed.

Lemma compute_stack_size_ops l n : Forall op_ok l -> compute_stack_size (assemble l) = Some n -> 0 <= n -> n = peak l /\ n <= STACK_SIZE_MAX.
Proof.
  intros H E Hn. unfold compute_stack_size in E. pose proof (stack_loop_ops l (length (assemble l)) [] 0 0 n (assemble_length l) H) as Hs. cbn [assemble flat_map app length] in Hs. pose proof (peak_nonneg l). destruct Hs as [-> ?]; [unfold STACK_SIZE_MAX; lia|exact E|exact Hn|]. split; lia.
Qed.
