(* ===== verification/LreSteps.v ===== *)
(** One instruction at a time: what each instruction of emitted code does to a thread,
    and sequences of code.

    [runs p q st d]: the code from [p] to [q], with [st] on the stack, gives a thread the
    matches [d] in their order: if [o] is the first outcome of [q] on the matches, then
    it is the outcome of [p]. *)
From Stdlib Require Import ZArith Lia.
From S2P Require Import Prelude Cutils LreExec LreSpecs LreDen LreCode.
From stdpp Require Import base tactics numbers option list.

Open Scope Z_scope.

(** ** The first success *)

(** [k] is the outcome for one element: the outcome for a list of choices. *)
Inductive first {A R : Type} (k : A -> option R -> Prop) : list A -> option R -> Prop :=
| first_nil : first k [] None
| first_hit y l z : k y (Some z) -> first k (y :: l) (Some z)
| first_miss y l o : k y None -> first k l o -> first k (y :: l) o.

Section First.
Context {A B R : Type}.
Implicit Types k : A -> option R -> Prop.

Lemma first_mono k k' l o : (forall y o, y ∈ l -> k y o -> k' y o) -> first k l o -> first k' l o.
Proof.
  intros H Hf. induction Hf as [|y l z Hk|y l o Hk _ IH]; [constructor|apply first_hit, H; [left|exact Hk]|apply first_miss; [apply H; [left|exact Hk]|apply IH]]. intros y' o' Hy. apply H. right. exact Hy.
Qed.

Lemma first_single k y o : first k [y] o -> k y o.
Proof. intros H. inversion H as [|? ? ? Hk|? ? ? Hk Hf]; subst; [exact Hk|]. inversion Hf; subst. exact Hk. Qed.

Lemma first_app k l1 l2 o : first k (l1 ++ l2) o -> (exists z, o = Some z /\ first k l1 (Some z)) \/ (first k l1 None /\ first k l2 o).
Proof.
  induction l1 as [|y l1 IH]; cbn [app]; intros H; [right; split; [constructor|exact H]|]. inversion H as [|? ? z Hk|? ? ? Hk Hf]; subst.
  - left. exists z. split; [reflexivity|apply first_hit, Hk].
  - destruct (IH Hf) as [(z & -> & Hz)|[Hn Hf2]]; [left; exists z; split; [reflexivity|apply first_miss; assumption]|right; split; [apply first_miss; assumption|exact Hf2]].
Qed.

Lemma first_flat_map k (e : B -> list A) l o : first k (flat_map e l) o -> first (fun y => first k (e y)) l o.
Proof.
  revert o. induction l as [|y l IH]; cbn [flat_map]; intros o H; [inversion H; subst; constructor|]. destruct (first_app _ _ _ _ H) as [(z & -> & Hz)|[Hn Hf]]; [apply first_hit, Hz|apply first_miss; [exact Hn|apply IH, Hf]].
Qed.

Lemma first_map k (f : B -> A) l o : first k (map f l) o -> first (fun y => k (f y)) l o.
Proof.
  revert o. induction l as [|y l IH]; cbn [map]; intros o H; inversion H as [|? ? ? Hk|? ? ? Hk Hf]; subst; [constructor|apply first_hit, Hk|apply first_miss; [exact Hk|apply IH, Hf]].
Qed.

(** Without a success there is none, and with one it is a success of an element. *)
Lemma first_total k l : (forall y, exists o, k y o) -> exists o, first k l o.
Proof.
  intros H. induction l as [|y l (o & IH)]; [exists None; constructor|]. destruct (H y) as [[z|] Hy]; [exists (Some z); apply first_hit, Hy|exists o; apply first_miss; assumption].
Qed.

End First.

(** ** Ranges *)

Lemma ranges_sorted_at l : forall low i a b, ranges_sorted low l = true -> l !! i = Some (a, b) -> low <= a <= b /\ (forall j a' b', (j < i)%nat -> l !! j = Some (a', b') -> b' < a) /\ (forall j a' b', (i < j)%nat -> l !! j = Some (a', b') -> b < a').
Proof.
  induction l as [|[x y] l IH]; intros low i a b Hs Hi; [discriminate|]. cbn [ranges_sorted] in Hs. apply andb_prop in Hs as [Hxy Hs]. apply andb_prop in Hxy as [Hx Hy]. apply Z.leb_le in Hx, Hy. destruct i as [|i]; cbn in Hi.
  - injection Hi as <- <-. split; [lia|]. split; [intros; lia|]. intros [|j] a' b' Hj Hl; [lia|]. destruct (IH _ _ _ _ Hs Hl). lia.
  - destruct (IH _ _ _ _ Hs Hi) as (H1 & H2 & H3). split; [lia|]. split.
    + intros [|j] a' b' Hj Hl; [cbn in Hl; injection Hl as <- <-; lia|]. exact (H2 j a' b' ltac:(lia) Hl).
    + intros [|j] a' b' Hj Hl; [lia|]. exact (H3 j a' b' ltac:(lia) Hl).
Qed.

Definition in_ranges (l : list (Z * Z)) (c : Z) : bool := existsb (fun r => (r.1 <=? c) && (c <=? r.2)) l.

Lemma in_ranges_true l c i a b : l !! i = Some (a, b) -> a <= c <= b -> in_ranges l c = true.
Proof. intros Hi Hc. apply existsb_exists. exists (a, b). split; [apply list_elem_of_In, (list_elem_of_lookup_2 _ _ _ Hi)|]. cbn. apply andb_true_intro. split; apply Z.leb_le; lia. Qed.

Lemma in_ranges_false l c : (forall i a b, l !! i = Some (a, b) -> c < a \/ b < c) -> in_ranges l c = false.
Proof.
  intros H. apply not_true_iff_false. intros E. apply existsb_exists in E as ([a b] & Hin & E). apply list_elem_of_In, list_elem_of_lookup in Hin as (i & Hi). apply andb_prop in E as [E1 E2]. apply Z.leb_le in E1, E2. cbn in E1, E2. destruct (H i a b Hi); lia.
Qed.

(** The binary search: the ranges before [mn] are under [c], the ranges from [mx] on are
    over it. *)
Lemma range_loop_spec l c : forall fuel mn mx, ranges_sorted 0 l = true -> Z.of_nat (length l) < 2 ^ 16 ->
  (forall r, head l = Some r -> r.1 <= c) -> 0 <= mn -> mn - 1 <= mx < Z.of_nat (length l) -> mx - mn + 1 < Z.of_nat fuel ->
  (forall i a b, l !! i = Some (a, b) -> Z.of_nat i < mn -> b < c) -> (forall i a b, l !! i = Some (a, b) -> mx < Z.of_nat i -> c < a) ->
  range_loop fuel l c mn mx = Some (in_ranges l c).
Proof.
  induction fuel as [|fuel IH]; intros mn mx Hs Hlen Hhead Hmn Hmx Hf Hlo Hhi; [lia|]. cbn [range_loop]. destruct (Z.leb_spec mn mx) as [Hle|Hgt].
  - pose proof (Z.mod_small (mn + mx) (2 ^ 32) ltac:(lia)) as Hw. change (wrap 32 (mn + mx)) with ((mn + mx) mod 2 ^ 32). rewrite Hw. set (idx := (mn + mx) / 2). assert (Hi : mn <= idx <= mx) by (pose proof (Z.div_mod (mn + mx) 2 ltac:(lia)) as Hd; fold idx in Hd; pose proof (Z.mod_pos_bound (mn + mx) 2 eq_refl); lia).
    destruct (lookup_lt_is_Some_2 l (Z.to_nat idx) ltac:(lia)) as [[a b] Hab]. rewrite Hab. cbn [mbind option_bind fst snd]. destruct (ranges_sorted_at _ _ _ _ _ Hs Hab) as (H1 & H2 & H3).
    destruct (Z.ltb_spec c a) as [Hc|Hc]; [|destruct (Z.ltb_spec b c) as [Hc2|Hc2]].
    + assert (Hp : 0 < idx). { destruct (Z.eq_dec idx 0) as [E0|]; [|lia]. rewrite E0 in Hab. destruct l as [|r l']; [discriminate|]. cbn in Hab. injection Hab as ->. specialize (Hhead _ eq_refl). cbn in Hhead. lia. }
      change (wrap 32 (idx - 1)) with ((idx - 1) mod 2 ^ 32). rewrite Z.mod_small by lia. apply IH; try assumption; try lia. intros i a' b' Hl Hlt. destruct (Z.eq_dec (Z.of_nat i) idx) as [E|]; [replace i with (Z.to_nat idx) in Hl by lia; rewrite Hab in Hl; injection Hl as <- <-; exact Hc|]. pose proof (H3 i a' b' ltac:(lia) Hl). lia.
    + apply IH; try assumption; try lia. intros i a' b' Hl Hlt. destruct (Z.eq_dec (Z.of_nat i) idx) as [E|]; [replace i with (Z.to_nat idx) in Hl by lia; rewrite Hab in Hl; injection Hl as <- <-; exact Hc2|]. pose proof (H2 i a' b' ltac:(lia) Hl). lia.
    + rewrite (in_ranges_true l c _ _ _ Hab) by lia. reflexivity.
  - f_equal. symmetry. apply in_ranges_false. intros i a b Hi. destruct (Z.lt_ge_cases (Z.of_nat i) mn); [right|left]; [exact (Hlo i a b Hi H)|exact (Hhi i a b Hi ltac:(lia))].
Qed.

Lemma range_test_spec ic wide l c : char_ok (REOP_range ic wide l) = true ->
  range_test wide l c = Some (existsb (fun r => (r.1 <=? c) && ((c <=? r.2) || (negb wide && (r.2 =? 0xffff) && (0xffff <=? c)))) l).
Proof.
  cbn [char_ok]. intros H. apply andb_prop in H as [H Hb]. apply andb_prop in H as [H Hs]. apply andb_prop in H as [H0 Hl]. apply Z.ltb_lt in H0, Hl. unfold range_test.
  destruct l as [|[a0 b0] l0] eqn:El; [cbn in H0; lia|]. rewrite <- El in *. destruct (last l) as [[a1 b1]|] eqn:Elast; [|apply last_None in Elast; subst; discriminate]. assert (Eh : head l = Some (a0, b0)) by (rewrite El; reflexivity). rewrite Eh. cbn [mbind option_bind fst snd].
  rewrite last_lookup in Elast. assert (Hfirst : l !! 0%nat = Some (a0, b0)) by (rewrite El; reflexivity).
  assert (Hall : forall i a b, l !! i = Some (a, b) -> a0 <= a /\ b <= b1 /\ a <= b). { intros i a b Hi. destruct (ranges_sorted_at _ _ _ _ _ Hs Hi) as (H1 & H2 & _). destruct (ranges_sorted_at _ _ _ _ _ Hs Elast) as (H4 & H5 & _). split; [|split; [|lia]].
    - destruct i; [rewrite Hfirst in Hi; injection Hi as <- <-; lia|]. destruct (ranges_sorted_at _ _ _ _ _ Hs Hfirst) as (H7 & _). pose proof (H2 0%nat _ _ ltac:(lia) Hfirst). lia.
    - destruct (Nat.eq_dec i (pred (length l))) as [->|]; [rewrite Elast in Hi; injection Hi as <- <-; lia|]. apply lookup_lt_Some in Hi as Hlt. pose proof (H5 i _ _ ltac:(lia) Hi). lia. }
  assert (Hmax : negb wide = true -> b1 <= 0xffff). { intros Hw. rewrite forallb_forall in Hb. specialize (Hb (a1, b1) ltac:(apply list_elem_of_In, (list_elem_of_lookup_2 _ _ _ Elast))). destruct wide; [discriminate|]. apply Z.ltb_lt in Hb. cbn in Hb. lia. }
  set (f := fun r : Z * Z => _). assert (Hf : forall v, v = true \/ v = false) by (intros [|]; auto).
  assert (Hfalse : (forall i a b, l !! i = Some (a, b) -> f (a, b) = false) -> existsb f l = false). { intros Hno. apply not_true_iff_false. intros E. apply existsb_exists in E as ([a b] & Hin & E). apply list_elem_of_In, list_elem_of_lookup in Hin as (i & Hi). rewrite (Hno i a b Hi) in E. discriminate. }
  destruct (Z.ltb_spec c a0) as [Hc|Hc].
  - f_equal. symmetry. apply Hfalse. intros i a b Hi. unfold f. cbn [fst snd]. destruct (Hall i a b Hi). rewrite (proj2 (Z.leb_gt _ _)) by lia. reflexivity.
  - destruct (negb wide && (0xffff <=? c) && (b1 =? 0xffff)) eqn:Ew.
    + f_equal. symmetry. apply existsb_exists. exists (a1, b1). split; [apply list_elem_of_In, (list_elem_of_lookup_2 _ _ _ Elast)|]. apply andb_prop in Ew as [Ew E1]. apply andb_prop in Ew as [Ew Ec]. unfold f. cbn [fst snd]. rewrite Ew, E1, Ec. destruct (Hall _ _ _ Elast) as (_ & _ & ?). apply Z.leb_le in Ec. apply Z.eqb_eq in E1. rewrite (proj2 (Z.leb_le a1 c)) by lia. apply orb_true_r.
    + assert (Hsame : existsb f l = in_ranges l c).
      { unfold in_ranges. apply eq_true_iff_eq. rewrite !existsb_exists. split; intros ([a b] & Hin & E); exists (a, b); (split; [exact Hin|]); unfold f in *; cbn [fst snd] in *.
        - apply andb_prop in E as [E1 E2]. rewrite E1. apply orb_prop in E2 as [E2|E2]; [exact E2|]. apply andb_prop in E2 as [E2 E3]. apply andb_prop in E2 as [E2 E4]. specialize (Hmax E2). apply Z.eqb_eq in E4. apply list_elem_of_In, list_elem_of_lookup in Hin as (i & Hi). destruct (Hall i a b Hi) as (_ & ? & _). assert (b1 = 0xffff) as Eb by lia. rewrite E2, E3, Eb in Ew. discriminate.
        - apply andb_prop in E as [-> ->]. reflexivity. }
      rewrite Hsame. destruct (Z.ltb_spec b1 c) as [Hc1|Hc1].
      * f_equal. symmetry. apply in_ranges_false. intros i a b Hi. destruct (Hall i a b Hi). lia.
      * apply range_loop_spec; try assumption; try lia.
        -- intros r Hr. rewrite Eh in Hr. injection Hr as <-. exact Hc.
        -- intros i a b Hi Hlt. apply lookup_lt_Some in Hi. lia.
Qed.

(** ** Code at a position *)

Section Steps.
Context `{LH : LreHost} (s : program).

Definition conf (p : nat) (x : thread) (st : list Z) : config := MkConfig p x.1 x.2 st.
Definition at_code (p : nat) (l : list reop) : Prop := code_at (bc_buf s) p (assemble l).
Definition nsize (l : list reop) : nat := length (assemble l).

Lemma nsize_app a b : nsize (a ++ b) = (nsize a + nsize b)%nat.
Proof. unfold nsize. rewrite assemble_app, length_app. reflexivity. Qed.

Lemma nsize_cons op l : nsize (op :: l) = (nsize [op] + nsize l)%nat.
Proof. exact (nsize_app [op] l). Qed.

Lemma code_size_nat l : code_size l = Z.of_nat (nsize l).
Proof. reflexivity. Qed.

Lemma at_code_app p a b : at_code p (a ++ b) -> at_code p a /\ at_code (p + nsize a) b.
Proof. unfold at_code. rewrite assemble_app. intros H. split; [exact (code_at_left _ _ _ _ H)|exact (code_at_right _ _ _ _ H)]. Qed.

Lemma at_code_cons p op l : at_code p (op :: l) -> at_code p [op] /\ at_code (p + nsize [op]) l.
Proof. exact (at_code_app p [op] l). Qed.

Lemma at_code_end p l : at_code p l -> (p + nsize l <= length (bc_buf s))%nat.
Proof. apply code_at_length. Qed.

Lemma step_at p op x st : at_code p [op] -> op_ok op -> step s (conf p x st) = exec_op s (conf p x st) (read_back op) (p + nsize [op]).
Proof.
  intros Hc Hok. unfold at_code, nsize, assemble in *. cbn [flat_map] in *. rewrite app_nil_r in *. unfold step. cbn [pc conf]. rewrite (decode_op _ _ op Hok Hc). reflexivity.
Qed.

Lemma jump_at p q v : Z.of_nat q = Z.of_nat p + v -> - 2 ^ 31 <= v < 2 ^ 31 -> jump p (v mod 2 ^ 32) = Some q.
Proof.
  intros Hq Hv. unfold jump. assert (swrap 32 (v mod 2 ^ 32) = v) as ->. { rewrite swrap_pattern by (try lia; apply Z.mod_pos_bound; reflexivity). change (32 - 1) with 31. destruct (Z.ltb_spec (v mod 2 ^ 32) (2 ^ 31)); pose proof (Z.mod_pos_bound v (2 ^ 32) eq_refl); pose proof (Z.div_mod v (2 ^ 32) ltac:(lia)); nia. }
  rewrite <- Hq. destruct (Z.ltb_spec (Z.of_nat q) 0); [lia|]. rewrite Nat2Z.id. reflexivity.
Qed.

(** ** Instructions without choices *)

(** At most one match, and the instruction goes on with it or fails. *)
Definition steps (p q : nat) (st : list Z) (d : thread -> list thread) : Prop :=
  forall x, thread_ok s x -> match d x with [] => step s (conf p x st) = Some AFail | [y] => step s (conf p x st) = Some (ANext (conf q y st)) | _ => False end.

Definition runs (p q : nat) (st : list Z) (d : thread -> list thread) : Prop :=
  forall x o, thread_ok s x -> first (fun y => eval s (conf q y st)) (d x) o -> eval s (conf p x st) o.

Lemma steps_runs p q st d : steps p q st d -> runs p q st d.
Proof.
  intros H x o Hx Hf. specialize (H x Hx). destruct (d x) as [|y [|]].
  - inversion Hf; subst. apply eval_fail, H.
  - apply first_single in Hf. exact (eval_next _ _ _ _ H Hf).
  - destruct H.
Qed.

(** Matches are threads. *)
Definition keeps (d : thread -> list thread) : Prop := forall x y, thread_ok s x -> y ∈ d x -> thread_ok s y.

Lemma sound_keeps bwd d : sound s bwd d -> keeps d.
Proof. intros H x y Hx Hy. exact (proj1 (H x y Hx Hy)). Qed.

Lemma keeps_seq d e : keeps d -> keeps e -> keeps (fun x => flat_map e (d x)).
Proof. intros Hd He x y Hx Hy. apply elem_of_flat_map in Hy as (z & Hz & Hy). exact (He z y (Hd x z Hx Hz) Hy). Qed.

Lemma runs_seq p q t st d e : keeps d -> runs p q st d -> runs q t st e -> runs p t st (fun x => flat_map e (d x)).
Proof.
  intros Hd Hp Hq x o Hx Hf. apply Hp; [exact Hx|]. apply first_flat_map in Hf. refine (first_mono _ _ _ _ _ Hf). intros y o' Hy Hf'. apply Hq; [exact (Hd x y Hx Hy)|exact Hf'].
Qed.

Lemma runs_ext p q st d e : (forall x, thread_ok s x -> d x = e x) -> runs p q st d -> runs p q st e.
Proof. intros H Hd x o Hx Hf. apply Hd; [exact Hx|]. rewrite H by exact Hx. exact Hf. Qed.

Lemma runs_id p st : runs p p st (fun x => [x]).
Proof. intros x o _ Hf. apply first_single in Hf. exact Hf. Qed.

Lemma char_test_range ic wide l c : char_ok (REOP_range ic wide l) = true -> range_test wide l (fold_case s ic c) = Some (char_test s (REOP_range ic wide l) c).
Proof. apply range_test_spec. Qed.

Lemma char_op_ok op : char_ok op = true -> op_ok op.
Proof.
  destruct op as [ic wide v| | | | | | | | | | | | | | |ic wide l| | | | |]; cbn [char_ok op_ok]; try discriminate; try exact (fun _ => I).
  - intros H. apply andb_prop in H as [H1 H2]. apply Z.leb_le in H1. apply Z.ltb_lt in H2. lia.
  - intros H. apply andb_prop in H as [H Hb]. apply andb_prop in H as [H Hs]. apply andb_prop in H as [_ Hl]. apply Z.ltb_lt in Hl. split; [exact Hl|]. apply Forall_lookup. intros i [a b] Hi. destruct (ranges_sorted_at _ _ _ _ _ Hs Hi) as (H1 & _). rewrite forallb_forall in Hb. specialize (Hb (a, b) ltac:(apply list_elem_of_In, (list_elem_of_lookup_2 _ _ _ Hi))). apply Z.ltb_lt in Hb. cbn in Hb.
    destruct wide; [change (256 ^ Z.of_nat 4) with (2 ^ 32)|change (256 ^ Z.of_nat 2) with (2 ^ 16)]; unfold range_operand; cbn [fst snd]; [change (256 ^ Z.of_nat 4) with (2 ^ 32)|change (256 ^ Z.of_nat 2) with (2 ^ 16)]; lia.
Qed.

Lemma char_steps p op st : char_ok op = true -> at_code p [op] -> steps p (p + nsize [op]) st (char_den s false op).
Proof.
  intros Hok Hc x Hx. rewrite (step_at p op x st Hc (char_op_ok op Hok)).
  assert (Ht : forall e c t, e = (cbuf_end s <=? x.1)%nat -> (forall v, t v = Some (char_test s op v)) -> test_char s e (conf p x st) c t = match char_den s false op x with [] => Some AFail | y :: _ => Some (ANext (conf c y st)) end).
  { intros e c t -> Ht. unfold test_char, char_den. cbn [cptr conf capture stack]. destruct (Nat.leb_spec (cbuf_end s) x.1) as [|Hl]; [reflexivity|]. destruct (get_char_boundary s x.1 (thread_pos _ _ Hx) Hl) as (v & p' & E & _). rewrite E. cbn [mbind option_bind fst snd]. rewrite Ht. cbn [mbind option_bind]. destruct (char_test s op v); reflexivity. }
  assert (He : Nat.eqb x.1 (cbuf_end s) = (cbuf_end s <=? x.1)%nat) by (pose proof (proj1 (thread_pos _ _ Hx)); unfold cbuf_end; destruct (Nat.eqb_spec x.1 (length (cbuf s))); symmetry; [apply Nat.leb_le|apply Nat.leb_gt]; lia).
  assert (Hone : (length (char_den s false op x) <= 1)%nat) by (unfold char_den; destruct (if (cbuf_end s <=? x.1)%nat then None else get_char s x.1 (cbuf_end s)) as [[v p']|]; [destruct (char_test s op v)|]; cbn; lia).
  destruct op as [ic wide v| | | | | | | | | | | | | | |ic wide l| | | | |]; try discriminate Hok; cbn [read_back exec_op];
    (rewrite Ht; [destruct (char_den s false _ x) as [|y [|]]; [reflexivity|reflexivity|cbn in Hone; lia]|exact He || reflexivity|]); intros c; [reflexivity..|apply char_test_range, Hok].
Qed.

(** [REOP_prev]. *)
Definition prev_den (x : thread) : list thread := match char_before s x.1 with Some (_, p) => [(p, x.2)] | None => [] end.

Lemma prev_steps p st : at_code p [REOP_prev] -> steps p (p + 1) st prev_den.
Proof.
  intros Hc x Hx. rewrite (step_at p _ x st Hc I). cbn [read_back exec_op]. unfold prev_den, char_before. change (cptr (conf p x st)) with x.1. destruct (Nat.eqb_spec x.1 0); [reflexivity|]. destruct (get_prev_boundary s x.1 (thread_pos _ _ Hx) ltac:(lia)) as (c & p' & E & _). unfold PREV_CHAR. fold (get_prev_char s x.1 0). rewrite E. reflexivity.
Qed.

Lemma sound_prev : sound s true prev_den.
Proof.
  intros x y Hx Hy. unfold prev_den, char_before in Hy. destruct (Nat.eqb_spec x.1 0); [inversion Hy|]. destruct (get_prev_boundary s x.1 (thread_pos _ _ Hx) ltac:(lia)) as (c & p' & E & Hp' & Hlt & _). rewrite E in Hy. apply list_elem_of_singleton in Hy as ->. split; [apply thread_at; assumption|cbn; lia].
Qed.

(** A character backwards: back, forwards through the test, and back again. *)
Lemma char_back op x : thread_ok s x -> flat_map prev_den (flat_map (char_den s false op) (prev_den x)) = char_den s true op x.
Proof.
  intros Hx. unfold prev_den at 2, char_den at 2, char_before. destruct (Nat.eqb_spec x.1 0); [reflexivity|]. destruct (get_prev_boundary s x.1 (thread_pos _ _ Hx) ltac:(lia)) as (c & p' & E & Hp' & Hlt & E2). rewrite E. cbn [flat_map]. rewrite app_nil_r. unfold char_den. cbn [fst snd]. pose proof (proj1 (thread_pos _ _ Hx)) as Hl. rewrite (proj2 (Nat.leb_gt _ _)) by (unfold cbuf_end; lia). rewrite E2.
  destruct (char_test s op c); [|reflexivity]. cbn [flat_map]. rewrite app_nil_r. unfold prev_den, char_before. cbn [fst snd]. destruct (Nat.eqb_spec x.1 0); [lia|]. rewrite E. reflexivity.
Qed.

Lemma assert_steps p op st : assert_ok op = true -> at_code p [op] -> steps p (p + nsize [op]) st (fun x => if assert_test s op x.1 then [x] else []).
Proof.
  intros Hok Hc x Hx. pose proof (thread_pos _ _ Hx) as Hb. pose proof (proj1 Hb) as Hl.
  assert (Hbef : (x.1 = 0%nat /\ char_before s x.1 = None) \/ (x.1 <> 0%nat /\ exists c p', char_before s x.1 = Some (c, p') /\ PEEK_PREV_CHAR (cbuf s) (cbuf_type s) x.1 0 = Some c)).
  { unfold char_before. destruct (Nat.eqb_spec x.1 0); [left; auto|right]. split; [assumption|]. destruct (get_prev_boundary s x.1 Hb ltac:(lia)) as (c & p' & E & _). exists c, p'. split; [exact E|]. unfold PEEK_PREV_CHAR. fold (get_prev_char s x.1 0). rewrite E. reflexivity. }
  assert (Haft : (x.1 = cbuf_end s /\ char_after s x.1 = None) \/ ((x.1 < cbuf_end s)%nat /\ exists c p', char_after s x.1 = Some (c, p') /\ PEEK_CHAR (cbuf s) (cbuf_type s) x.1 (cbuf_end s) = Some c)).
  { unfold char_after. destruct (Nat.leb_spec (cbuf_end s) x.1) as [|H]; [left; split; [unfold cbuf_end in *; lia|reflexivity]|right]. split; [exact H|]. destruct (get_char_boundary s x.1 Hb H) as (c & p' & E & _). exists c, p'. split; [exact E|]. unfold PEEK_CHAR. fold (get_char s x.1 (cbuf_end s)). rewrite E. reflexivity. }
  destruct op as [| | |m|m| | | | | | | | |n ic| | | | | | |]; try discriminate Hok; rewrite (step_at p _ x st Hc I); cbn [read_back exec_op assert_test].
  - change (cptr (conf p x st)) with x.1. destruct Hbef as [[E ->]|(E & c & p' & -> & ->)]; [rewrite E; reflexivity|]. rewrite (proj2 (Nat.eqb_neq _ _)) by exact E. destruct m; cbn [negb andb mbind option_bind]; [|reflexivity]. destruct (is_line_terminator c); reflexivity.
  - change (cptr (conf p x st)) with x.1. destruct Haft as [[E ->]|(E & c & p' & -> & ->)]; [rewrite E, Nat.eqb_refl; reflexivity|]. rewrite (proj2 (Nat.eqb_neq _ _)) by lia. destruct m; cbn [negb andb mbind option_bind]; [|reflexivity]. destruct (is_line_terminator c); reflexivity.
  - change (cptr (conf p x st)) with x.1. unfold word_before, word_at, word_test.
    destruct Hbef as [[E ->]|(E & c & p' & -> & ->)]; [rewrite (proj2 (Nat.eqb_eq _ _) E)|rewrite (proj2 (Nat.eqb_neq _ _)) by exact E]; (destruct Haft as [[E2 ->]|(E2 & c2 & p2 & -> & ->)]; [rewrite (proj2 (Nat.leb_le _ _)) by lia|rewrite (proj2 (Nat.leb_gt _ _)) by lia]); cbn [mbind option_bind];
      repeat match goal with |- context [is_word_char ?v] => destruct (is_word_char v) end; destruct n; reflexivity.
Qed.

Lemma backref_steps p bwd ic n st : 0 <= n < capture_count s -> capture_count s <= 256 -> at_code p [REOP_back_reference bwd ic n] -> steps p (p + 2) st (backref_den s bwd ic n).
Proof.
  intros Hn Hcc Hc x Hx. rewrite (step_at p _ x st Hc) by (cbn; lia). cbn [read_back exec_op]. unfold back_reference, backref_den. rewrite (proj2 (Z.leb_gt _ _)) by lia. cbn [capture conf cptr].
  destruct (capture_at x.2 (2 * n)) as [a|] eqn:Ea; [|reflexivity]. destruct (capture_at x.2 (2 * n + 1)) as [b|] eqn:Eb; [|reflexivity]. pose proof (capture_bound _ _ _ _ Hx Ea) as Ha. pose proof (capture_bound _ _ _ _ Hx Eb) as Hb. pose proof (thread_pos _ _ Hx) as Hp. destruct bwd.
  - destruct (backward_backref_loop_ok s (S b) ic b a x.1 Ha Hb Hp ltac:(lia)) as (r & E & _). rewrite E. destruct r; reflexivity.
  - destruct (backref_loop_ok s (S b) ic a b x.1 Ha Hb Hp ltac:(lia)) as (r & E & _). rewrite E. destruct r; reflexivity.
Qed.

Lemma save_steps p e n st : 0 <= n < capture_count s -> capture_count s <= 256 -> at_code p [REOP_save e n] -> steps p (p + 2) st (fun x => [set_capture x (2 * n + c_bool e)]).
Proof.
  intros Hn Hcc Hc x Hx. rewrite (step_at p _ x st Hc) by (cbn; lia). cbn [read_back exec_op]. rewrite (proj2 (Z.ltb_lt _ _)) by lia. reflexivity.
Qed.

Lemma reset_steps p a b st : 0 <= a < capture_count s -> 0 <= b < capture_count s -> capture_count s <= 256 -> at_code p [REOP_save_reset a b] -> steps p (p + 3) st (fun x => [(x.1, reset_captures x.2 a b)]).
Proof.
  intros Ha Hb Hcc Hc x Hx. rewrite (step_at p _ x st Hc) by (cbn; lia). cbn [read_back exec_op]. rewrite (proj2 (Z.ltb_lt _ _)) by lia. reflexivity.
Qed.

End Steps.
