(* ===== verification/LreLoops.v ===== *)
(** Choices and loops of emitted code: alternatives, lookaheads, the loops of
    quantifiers, and the simple quantifier: an atom of single characters and assertions,
    matched as often as possible with the positions given back one by one. *)
From Stdlib Require Import ZArith Lia.
From S2P Require Import Prelude Cutils LreExec LreSpecs LreDen LreCode LreSteps.
From stdpp Require Import base tactics numbers option list.

Open Scope Z_scope.

Section Loops.
Context `{LH : LreHost} (s : program).
Hypothesis Hsize : Z.of_nat (length (bc_buf s)) < 2 ^ 31.

Notation conf := LreSteps.conf.
Notation at_code := (LreSteps.at_code s).
Notation runs := (LreSteps.runs s).
Notation first_at q st := (first (fun y : thread => eval s (conf q y st))).

(** A distance inside the code. *)
Lemma distance p op q : at_code p [op] -> (q <= length (bc_buf s))%nat -> - 2 ^ 31 <= Z.of_nat q - Z.of_nat (p + nsize [op]) < 2 ^ 31.
Proof. intros Hc Hq. apply at_code_end in Hc. lia. Qed.

(** ** Single instructions *)

Lemma jump_to p op q v : at_code p [op] -> (q <= length (bc_buf s))%nat -> Z.of_nat q = Z.of_nat (p + nsize [op]) + v -> jump (p + nsize [op]) (v mod 2 ^ 32) = Some q.
Proof. intros Hc Hq E. apply jump_at; [exact E|]. pose proof (distance p op q Hc Hq). lia. Qed.

Lemma goto_step p q v x st : at_code p [REOP_goto v] -> (q <= length (bc_buf s))%nat -> Z.of_nat q = Z.of_nat p + 5 + v -> step s (conf p x st) = Some (APoll (conf q x st)).
Proof. intros Hc Hq E. rewrite (step_at s p _ x st Hc I). cbn [read_back exec_op]. rewrite (jump_to p _ q v Hc Hq) by (change (nsize [REOP_goto v]) with 5%nat; lia). reflexivity. Qed.

Lemma split_step p q v nf x st : at_code p [REOP_split nf v] -> (q <= length (bc_buf s))%nat -> Z.of_nat q = Z.of_nat p + 5 + v ->
  step s (conf p x st) = Some (if nf then APush (conf (p + 5) x st) RE_EXEC_STATE_SPLIT (conf q x st) else APush (conf q x st) RE_EXEC_STATE_SPLIT (conf (p + 5) x st)).
Proof. intros Hc Hq E. rewrite (step_at s p _ x st Hc I). cbn [read_back exec_op]. rewrite (jump_to p _ q v Hc Hq) by (change (nsize [REOP_split nf v]) with 5%nat; lia). reflexivity. Qed.

Lemma push_step p v x st : at_code p [REOP_push_i32 v] -> 0 <= v < 2 ^ 32 -> (length st < stack_size_max s)%nat -> step s (conf p x st) = Some (ANext (conf (p + 5) x (v :: st))).
Proof. intros Hc Hv Hst. rewrite (step_at s p _ x st Hc Hv). cbn [read_back exec_op]. unfold push_value. cbn [stack conf]. rewrite (proj2 (Nat.ltb_lt _ _) Hst). reflexivity. Qed.

Lemma push_pos_step p x st : at_code p [REOP_push_char_pos] -> (length st < stack_size_max s)%nat -> step s (conf p x st) = Some (ANext (conf (p + 1) x (Z.of_nat x.1 :: st))).
Proof. intros Hc Hst. rewrite (step_at s p _ x st Hc I). cbn [read_back exec_op]. unfold push_value. cbn [stack conf]. rewrite (proj2 (Nat.ltb_lt _ _) Hst). reflexivity. Qed.

Lemma drop_step p v x st : at_code p [REOP_drop] -> step s (conf p x (v :: st)) = Some (ANext (conf (p + 1) x st)).
Proof. intros Hc. rewrite (step_at s p _ x _ Hc I). reflexivity. Qed.

Lemma check_step p v x st : at_code p [REOP_check_advance] -> step s (conf p x (Z.of_nat v :: st)) = Some (if Nat.eqb x.1 v then AFail else ANext (conf (p + 1) x st)).
Proof.
  intros Hc. rewrite (step_at s p _ x _ Hc I). cbn [read_back exec_op stack conf cptr]. destruct (Nat.eqb_spec x.1 v) as [->|]; [rewrite Z.eqb_refl; reflexivity|]. rewrite (proj2 (Z.eqb_neq _ _)) by lia. reflexivity.
Qed.

Lemma counter_step p q v n x st : at_code p [REOP_loop v] -> (q <= length (bc_buf s))%nat -> Z.of_nat q = Z.of_nat p + 5 + v -> Z.of_nat n < 2 ^ 31 ->
  step s (conf p x (Z.of_nat (S n) :: st)) = Some (if Nat.eqb n 0 then ANext (conf (p + 5) x (0 :: st)) else APoll (conf q x (Z.of_nat n :: st))).
Proof.
  intros Hc Hq E Hn. rewrite (step_at s p _ x _ Hc I). cbn [read_back exec_op stack conf]. replace (Z.of_nat (S n) - 1) with (Z.of_nat n) by lia. unfold wrap. rewrite Z.mod_small.
  2: { pose proof StackInt_wide. assert (2 ^ 32 <= 2 ^ StackInt_bits) by (apply Z.pow_le_mono_r; lia). lia. }
  destruct n as [|n]; [reflexivity|]. rewrite (proj2 (Z.eqb_neq _ _)) by lia. cbn [negb]. rewrite (jump_to p _ q v Hc Hq) by (change (nsize [REOP_loop v]) with 5%nat; lia). reflexivity.
Qed.

Lemma match_step p x st : at_code p [REOP_match] -> step s (conf p x st) = Some AMatch.
Proof. intros Hc. rewrite (step_at s p _ x _ Hc I). reflexivity. Qed.

(** ** Choices *)

Lemma eval_choice {K : thread -> option config -> Prop} p q v nf x st ln lj o : at_code p [REOP_split nf v] -> (q <= length (bc_buf s))%nat -> Z.of_nat q = Z.of_nat p + 5 + v ->
  first K (if nf then ln ++ lj else lj ++ ln) o ->
  (forall o, first K ln o -> eval s (conf (p + 5) x st) o) -> (forall o, first K lj o -> eval s (conf q x st) o) -> eval s (conf p x st) o.
Proof.
  intros Hc Hq E Hf Hn Hj. pose proof (split_step p q v nf x st Hc Hq E) as Hs.
  destruct nf; (destruct (first_app _ _ _ _ Hf) as [(z & -> & Hz)|[Hno Hf2]]; [eapply eval_split_hit; [exact Hs|auto]|eapply eval_split_miss; [exact Hs|auto|auto]]).
Qed.

Lemma alt_runs p ca cb st da db : at_code p ([REOP_split true (code_size ca + 5)] ++ ca ++ [REOP_goto (code_size cb)] ++ cb) ->
  runs (p + 5) (p + 5 + nsize ca) st da -> runs (p + 10 + nsize ca) (p + 10 + nsize ca + nsize cb) st db ->
  runs p (p + 10 + nsize ca + nsize cb) st (fun x => da x ++ db x).
Proof.
  intros Hc Ha Hb x o Hx Hf. destruct (at_code_app s _ _ _ Hc) as [H1 H2]. destruct (at_code_app s _ _ _ H2) as [H3 H4]. destruct (at_code_app s _ _ _ H4) as [H5 H6]. apply at_code_end in H6 as Hend. change (nsize [REOP_split true (code_size ca + 5)]) with 5%nat in *. change (nsize [REOP_goto (code_size cb)]) with 5%nat in *. rewrite !code_size_nat in *.
  apply (eval_choice p (p + 10 + nsize ca) _ true x st (da x) (db x) o H1 ltac:(lia) ltac:(lia) Hf).
  - intros o' Hf'. apply Ha; [exact Hx|]. refine (first_mono _ _ _ _ _ Hf'). intros y o2 _ Hy. apply (eval_poll _ _ _ _ (goto_step _ (p + 10 + nsize ca + nsize cb) _ _ _ H5 ltac:(lia) ltac:(lia)) Hy).
  - intros o' Hf'. apply Hb; [exact Hx|exact Hf'].
Qed.

Lemma look_runs p neg c st d : at_code p ([REOP_lookahead neg (code_size c + 1)] ++ c ++ [REOP_match]) -> runs (p + 5) (p + 5 + nsize c) st d ->
  runs p (p + 6 + nsize c) st (fun x => match d x with [] => if neg then [x] else [] | y :: _ => if neg then [] else [(x.1, y.2)] end).
Proof.
  intros Hc Hd x o Hx Hf. destruct (at_code_app s _ _ _ Hc) as [H1 H2]. destruct (at_code_app s _ _ _ H2) as [H3 H4]. apply at_code_end in H4 as Hend. change (nsize [REOP_lookahead neg (code_size c + 1)]) with 5%nat in *. change (nsize [REOP_match]) with 1%nat in *. rewrite code_size_nat in *.
  set (ty := if neg then RE_EXEC_STATE_NEGATIVE_LOOKAHEAD else RE_EXEC_STATE_LOOKAHEAD).
  assert (Hs : step s (conf p x st) = Some (APush (conf (p + 5) x st) ty (conf (p + 6 + nsize c) x st))). { rewrite (step_at s p _ x st H1 I). cbn [read_back exec_op]. rewrite (jump_to p _ (p + 6 + nsize c) _ H1) by (try change (nsize [REOP_lookahead neg (Z.of_nat (nsize c) + 1)]) with 5%nat; lia). destruct neg; reflexivity. }
  destruct (d x) as [|y l] eqn:Ed.
  - assert (Hn : eval s (conf (p + 5) x st) None) by (apply Hd; [exact Hx|]; rewrite Ed; constructor). destruct neg; [|inversion Hf; subst; exact (eval_ahead_fail _ _ _ _ Hs Hn)]. apply first_single in Hf. exact (eval_not_ahead _ _ _ _ _ Hs Hn Hf).
  - assert (Hm : eval s (conf (p + 5) x st) (Some (conf (p + 5 + nsize c) y st))) by (apply Hd; [exact Hx|]; rewrite Ed; apply first_hit, eval_match, match_step, H4). destruct neg; [inversion Hf; subst; exact (eval_not_ahead_fail _ _ _ _ _ Hs Hm)|]. apply first_single in Hf. exact (eval_ahead _ _ _ _ _ _ Hs Hm Hf).
Qed.

(** ** Loops *)

(** The matches that have moved. *)
Definition adv (d : thread -> list thread) (x : thread) : list thread := flat_map (fun y : thread => if Nat.eqb y.1 x.1 then [] else [y]) (d x).

Lemma adv_flat d (f : thread -> list thread) x : flat_map (fun y : thread => if Nat.eqb y.1 x.1 then [] else f y) (d x) = flat_map f (adv d x).
Proof. unfold adv. induction (d x) as [|y l IH]; [reflexivity|]. cbn [flat_map]. rewrite flat_map_app, IH. destruct (Nat.eqb y.1 x.1); [reflexivity|]. cbn [flat_map]. rewrite app_nil_r. reflexivity. Qed.

Lemma upto_adv d g n x : upto d g (S n) x = if g then flat_map (upto d g n) (adv d x) ++ [x] else [x] ++ flat_map (upto d g n) (adv d x).
Proof. cbn [upto]. rewrite adv_flat. reflexivity. Qed.

Lemma adv_in d x y : y ∈ adv d x -> y ∈ d x /\ y.1 <> x.1.
Proof. intros H. apply elem_of_flat_map in H as (z & Hz & H). destruct (Nat.eqb_spec z.1 x.1); [inversion H|]. apply list_elem_of_singleton in H as ->. auto. Qed.

Lemma adv_all d x : (forall y, y ∈ d x -> y.1 <> x.1) -> adv d x = d x.
Proof. unfold adv. induction (d x) as [|y l IH]; intros H; [reflexivity|]. cbn [flat_map]. rewrite (proj2 (Nat.eqb_neq _ _)) by (apply H; left). rewrite IH; [reflexivity|]. intros z Hz. apply H. right. exact Hz. Qed.

(** How far the position can move. *)
Definition room (bwd : bool) (x : thread) : nat := if bwd then x.1 else (length (cbuf s) - x.1)%nat.

Lemma adv_room bwd d x y : sound s bwd d -> thread_ok s x -> y ∈ adv d x -> thread_ok s y /\ (room bwd y < room bwd x)%nat.
Proof.
  intros Hd Hx Hy. apply adv_in in Hy as [Hy Hne]. destruct (Hd x y Hx Hy) as [Hy' Hm]. split; [exact Hy'|]. pose proof (proj1 (thread_pos _ _ Hy')). destruct bwd; cbn in *; lia.
Qed.

Lemma room_bound bwd x : thread_ok s x -> (room bwd x < S (length (cbuf s)))%nat.
Proof. intros Hx. pose proof (proj1 (thread_pos _ _ Hx)). destruct bwd; cbn; lia. Qed.

(** The body of a loop with the test of [REOP_check_advance]. *)
Lemma checked_runs p c st d : at_code p ([REOP_push_char_pos] ++ c ++ [REOP_check_advance]) -> (length st < stack_size_max s)%nat -> (forall v, runs (p + 1) (p + 1 + nsize c) (v :: st) d) ->
  runs p (p + 2 + nsize c) st (adv d).
Proof.
  intros Hc Hst Hd x o Hx Hf. destruct (at_code_app s _ _ _ Hc) as [H1 H2]. destruct (at_code_app s _ _ _ H2) as [H3 H4]. change (nsize [REOP_push_char_pos]) with 1%nat in *. apply (eval_next _ _ _ _ (push_pos_step p x st H1 Hst)). apply Hd; [exact Hx|]. apply first_flat_map in Hf. refine (first_mono _ _ _ _ _ Hf). intros y o' _ Hf'.
  pose proof (check_step _ x.1 y st H4) as Hs. destruct (Nat.eqb y.1 x.1); [inversion Hf'; subst; exact (eval_fail _ _ Hs)|]. apply first_single in Hf'. replace (p + 2 + nsize c)%nat with (p + 1 + nsize c + 1)%nat in Hf' by lia. exact (eval_next _ _ _ _ Hs Hf').
Qed.

(** A round of a loop: the body, and [upto] from where it ends. *)
Lemma round_runs p b st st' q d g n x o : runs p b st (adv d) -> thread_ok s x -> first_at q st' (flat_map (upto d g n) (adv d x)) o ->
  (forall y o, y ∈ adv d x -> first_at q st' (upto d g n y) o -> eval s (conf b y st) o) -> eval s (conf p x st) o.
Proof. intros Hb Hx Hf Hgo. apply Hb; [exact Hx|]. apply first_flat_map in Hf. refine (first_mono _ _ _ _ _ Hf). intros y o' Hy Hf'. exact (Hgo y o' Hy Hf'). Qed.

Lemma star_runs bwd p body g v v2 st d : at_code p ([REOP_split g v] ++ body ++ [REOP_goto v2]) -> v = Z.of_nat (nsize body) + 5 -> v2 = - (Z.of_nat (nsize body) + 10) ->
  sound s bwd d -> runs (p + 5) (p + 5 + nsize body) st (adv d) -> runs p (p + 10 + nsize body) st (upto d g (S (length (cbuf s)))).
Proof.
  intros Hc Ev Ev2 Hd Hb. destruct (at_code_app s _ _ _ Hc) as [H1 H2]. destruct (at_code_app s _ _ _ H2) as [H3 H4]. change (nsize [REOP_split g v]) with 5%nat in *. apply at_code_end in H4 as Hend. change (nsize [REOP_goto v2]) with 5%nat in *.
  assert (Hn : forall n x o, thread_ok s x -> (room bwd x < n)%nat -> first_at (p + 10 + nsize body)%nat st (upto d g n x) o -> eval s (conf p x st) o).
  { induction n as [|n IH]; intros x o Hx Hr Hf; [lia|]. rewrite upto_adv in Hf.
    apply (eval_choice p (p + 10 + nsize body) v g x st (flat_map (upto d g n) (adv d x)) [x] o H1 ltac:(lia) ltac:(lia) Hf); [|intros o' Hf'; apply first_single in Hf'; exact Hf'].
    intros o' Hf'. apply (round_runs _ _ _ _ _ _ _ _ _ _ Hb Hx Hf'). intros y o2 Hy Hf2. destruct (adv_room bwd d x y Hd Hx Hy) as [Hy' Hlt]. apply (eval_poll _ _ _ _ (goto_step _ p v2 y st H4 ltac:(lia) ltac:(lia))). apply IH; [exact Hy'|lia|exact Hf2]. }
  intros x o Hx. apply Hn; [exact Hx|apply room_bound, Hx].
Qed.

Lemma plus_runs bwd p c g v st d : at_code p (c ++ [REOP_split (negb g) v]) -> v = - (Z.of_nat (nsize c) + 5) ->
  sound s bwd d -> runs p (p + nsize c) st d -> (forall x, thread_ok s x -> adv d x = d x) -> runs p (p + 5 + nsize c) st (fun x => flat_map (upto d g (S (length (cbuf s)))) (d x)).
Proof.
  intros Hc Ev Hd Hb Hadv. destruct (at_code_app s _ _ _ Hc) as [H1 H2]. apply at_code_end in H2 as Hend. change (nsize [REOP_split (negb g) v]) with 5%nat in *.
  assert (Hb' : runs p (p + nsize c) st (adv d)) by (apply (runs_ext s _ _ _ d); [intros x Hx; symmetry; exact (Hadv x Hx)|exact Hb]).
  assert (Hn : forall n x o, thread_ok s x -> (room bwd x < n)%nat -> first_at (p + 5 + nsize c)%nat st (upto d g n x) o -> eval s (conf (p + nsize c) x st) o).
  { induction n as [|n IH]; intros x o Hx Hr Hf; [lia|]. rewrite upto_adv in Hf.
    assert (Hf2 : first_at (p + 5 + nsize c)%nat st (if negb g then [x] ++ flat_map (upto d g n) (adv d x) else flat_map (upto d g n) (adv d x) ++ [x]) o) by (destruct g; exact Hf).
    apply (eval_choice (p + nsize c) p v (negb g) x st [x] (flat_map (upto d g n) (adv d x)) o H2 ltac:(lia) ltac:(lia) Hf2); [intros o' Hf'; apply first_single in Hf'; replace (p + nsize c + 5)%nat with (p + 5 + nsize c)%nat by lia; exact Hf'|].
    intros o' Hf'. apply (round_runs _ _ _ _ _ _ _ _ _ _ Hb' Hx Hf'). intros y o2 Hy Hf3. destruct (adv_room bwd d x y Hd Hx Hy) as [Hy' Hlt]. apply IH; [exact Hy'|lia|exact Hf3]. }
  intros x o Hx Hf. apply Hb; [exact Hx|]. apply first_flat_map in Hf. refine (first_mono _ _ _ _ _ Hf). intros y o' Hy Hf'. destruct (Hd x y Hx Hy) as [Hy' _]. apply (Hn (S (length (cbuf s)))); [exact Hy'|apply room_bound, Hy'|exact Hf'].
Qed.

(** [?]. *)
Lemma once_runs p body g v st d : at_code p ([REOP_split g v] ++ body) -> v = Z.of_nat (nsize body) -> runs (p + 5) (p + 5 + nsize body) st (adv d) -> runs p (p + 5 + nsize body) st (upto d g 1).
Proof.
  intros Hc Ev Hb x o Hx Hf. destruct (at_code_app s _ _ _ Hc) as [H1 H2]. change (nsize [REOP_split g v]) with 5%nat in *. apply at_code_end in H2 as Hend. rewrite upto_adv in Hf.
  apply (eval_choice p (p + 5 + nsize body) v g x st (flat_map (upto d g 0) (adv d x)) [x] o H1 ltac:(lia) ltac:(lia) Hf); [|intros o' Hf'; apply first_single in Hf'; exact Hf'].
  intros o' Hf'. apply (round_runs _ _ _ _ _ _ _ _ _ _ Hb Hx Hf'). intros y o2 _ Hf2. apply first_single in Hf2. exact Hf2.
Qed.

(** A loop with a counter on the stack: the end of a round with [n] more of them. *)
Lemma loop_end b q v n y st st' o : at_code b ([REOP_loop v] ++ [REOP_drop]) -> (q <= length (bc_buf s))%nat -> Z.of_nat q = Z.of_nat b + 5 + v -> Z.of_nat n < 2 ^ 31 -> st' = Z.of_nat (S n) :: st ->
  (n = 0%nat -> eval s (conf (b + 6) y st) o) -> (n <> 0%nat -> eval s (conf q y (Z.of_nat n :: st)) o) -> eval s (conf b y st') o.
Proof.
  intros Hc Hq Ev Hn -> H0 Hm. destruct (at_code_app s _ _ _ Hc) as [H1 H2]. change (nsize [REOP_loop v]) with 5%nat in H2. pose proof (counter_step b q v n y st H1 Hq Ev Hn) as Hs. destruct (Nat.eqb_spec n 0) as [E|E].
  - apply (eval_next _ _ _ _ Hs). apply (eval_next _ _ _ _ (drop_step _ _ _ _ H2)). replace (b + 5 + 1)%nat with (b + 6)%nat by lia. exact (H0 E).
  - exact (eval_poll _ _ _ _ Hs (Hm E)).
Qed.

Lemma repeat_runs bwd p body g m v v2 st d : at_code p ([REOP_push_i32 m; REOP_split g v] ++ body ++ [REOP_loop v2; REOP_drop]) -> v = Z.of_nat (nsize body) + 5 -> v2 = - (Z.of_nat (nsize body) + 10) ->
  0 < m < 2 ^ 31 -> (length st < stack_size_max s)%nat -> sound s bwd d -> (forall n, runs (p + 10) (p + 10 + nsize body) (n :: st) (adv d)) -> runs p (p + 16 + nsize body) st (upto d g (Z.to_nat m)).
Proof.
  intros Hc Ev Ev2 Hm Hst Hd Hb. destruct (at_code_app s _ [_] _ Hc) as [H0 Hc']. change (nsize [REOP_push_i32 m]) with 5%nat in *. destruct (at_code_app s _ [_] _ Hc') as [H1 H2]. change (nsize [REOP_split g v]) with 5%nat in *. destruct (at_code_app s _ _ _ H2) as [H3 H4]. replace (p + 5 + 5)%nat with (p + 10)%nat in * by lia.
  apply at_code_end in H4 as Hend. change (nsize [REOP_loop v2; REOP_drop]) with 6%nat in *.
  assert (Hdrop : at_code (p + 10 + nsize body + 5) [REOP_drop]) by exact (proj2 (at_code_app s _ [_] _ H4)).
  assert (Hn : forall n x o, Z.of_nat n < 2 ^ 31 -> thread_ok s x -> first_at (p + 16 + nsize body)%nat st (upto d g (S n) x) o -> eval s (conf (p + 5) x (Z.of_nat (S n) :: st)) o).
  { induction n as [n IH] using lt_wf_ind; intros x o Hlt Hx Hf. rewrite upto_adv in Hf.
    apply (eval_choice (p + 5) (p + 15 + nsize body) v g x (Z.of_nat (S n) :: st) (flat_map (upto d g n) (adv d x)) [x] o H1 ltac:(lia) ltac:(lia) Hf).
    - intros o' Hf'. replace (p + 5 + 5)%nat with (p + 10)%nat by lia. apply (round_runs _ _ _ _ _ _ _ _ _ _ (Hb _) Hx Hf'). intros y o2 Hy Hf2. destruct (adv_room bwd d x y Hd Hx Hy) as [Hy' _].
      apply (loop_end _ (p + 5) v2 n y st _ _ H4 ltac:(lia) ltac:(lia) Hlt eq_refl); [intros ->; apply first_single in Hf2; replace (p + 10 + nsize body + 6)%nat with (p + 16 + nsize body)%nat by lia; exact Hf2|]. intros Hne. destruct n as [|n]; [lia|]. apply (IH n); [lia|lia|exact Hy'|exact Hf2].
    - intros o' Hf'. apply first_single in Hf'. replace (p + 15 + nsize body)%nat with (p + 10 + nsize body + 5)%nat by lia. apply (eval_next _ _ _ _ (drop_step _ _ _ _ Hdrop)). replace (p + 10 + nsize body + 5 + 1)%nat with (p + 16 + nsize body)%nat by lia. exact Hf'. }
  intros x o Hx Hf. apply (eval_next _ _ _ _ (push_step p m x st H0 ltac:(lia) Hst)). destruct (Z.to_nat m) as [|n] eqn:En; [lia|]. replace m with (Z.of_nat (S n)) by lia. apply Hn; [lia|exact Hx|exact Hf].
Qed.

Lemma times_runs bwd p c n v st d : at_code p ([REOP_push_i32 n] ++ c ++ [REOP_loop v; REOP_drop]) -> v = - (Z.of_nat (nsize c) + 5) ->
  0 < n < 2 ^ 31 -> (length st < stack_size_max s)%nat -> sound s bwd d -> (forall k, runs (p + 5) (p + 5 + nsize c) (k :: st) d) -> runs p (p + 11 + nsize c) st (times d (Z.to_nat n)).
Proof.
  intros Hc Ev Hm Hst Hd Hb. destruct (at_code_app s _ [_] _ Hc) as [H0 H2]. change (nsize [REOP_push_i32 n]) with 5%nat in *. destruct (at_code_app s _ _ _ H2) as [H3 H4]. apply at_code_end in H4 as Hend. change (nsize [REOP_loop v; REOP_drop]) with 6%nat in *.
  assert (Hn : forall n x o, Z.of_nat n < 2 ^ 31 -> thread_ok s x -> first_at (p + 11 + nsize c)%nat st (times d (S n) x) o -> eval s (conf (p + 5) x (Z.of_nat (S n) :: st)) o).
  { induction n0 as [n0 IH] using lt_wf_ind; intros x o Hlt Hx Hf. cbn [times] in Hf. apply Hb; [exact Hx|]. apply first_flat_map in Hf. refine (first_mono _ _ _ _ _ Hf). intros y o2 Hy Hf2. destruct (Hd x y Hx Hy) as [Hy' _].
    apply (loop_end _ (p + 5) v n0 y st _ _ H4 ltac:(lia) ltac:(lia) Hlt eq_refl); [intros ->; apply first_single in Hf2; replace (p + 5 + nsize c + 6)%nat with (p + 11 + nsize c)%nat by lia; exact Hf2|]. intros Hne. destruct n0 as [|n0]; [lia|]. apply (IH n0); [lia|lia|exact Hy'|exact Hf2]. }
  intros x o Hx Hf. apply (eval_next _ _ _ _ (push_step p n x st H0 ltac:(lia) Hst)). destruct (Z.to_nat n) as [|k] eqn:En; [lia|]. replace n with (Z.of_nat (S k)) by lia. apply Hn; [lia|exact Hx|exact Hf].
Qed.

End Loops.

Section Walks.
Context `{LH : LreHost} (s : program).
Hypothesis Hsize : Z.of_nat (length (bc_buf s)) < 2 ^ 31.

Notation conf := LreSteps.conf.
Notation at_code := (LreSteps.at_code s).
Notation back_chars := (prev_chars (cbuf s) (cbuf_type s)).

(** ** Straight code *)

Lemma prev_chars_add n m p : back_chars (n + m) p = (q ← back_chars n p; back_chars m q).
Proof. revert p. induction n as [|n IH]; intros p; [reflexivity|]. cbn [Nat.add prev_chars]. destruct (PREV_CHAR _ _ p 0) as [q|]; [apply IH|reflexivity]. Qed.

Lemma prev_chars_lt n p q : back_chars n p = Some q -> (q <= p)%nat /\ ((0 < n)%nat -> (q < p)%nat).
Proof.
  revert p. induction n as [|n IH]; intros p; cbn [prev_chars]; [intros [= <-]; lia|]. unfold PREV_CHAR, GET_PREV_CHAR. destruct p as [|p]; [discriminate|]. destruct (cbuf s !! p) as [c|]; [|discriminate]. cbn [mbind option_bind].
  assert (Hgo : forall r, (r <= p)%nat -> back_chars n r = Some q -> (q <= S p)%nat /\ ((0 < S n)%nat -> (q < S p)%nat)) by (intros r Hr H; destruct (IH r H); lia).
  destruct (_ && _); [|intros H; exact (Hgo p (Nat.le_refl p) H)]. destruct (cbuf s !! pred p); [|discriminate]. cbn [mbind option_bind]. destruct (is_hi_surrogate _); intros H; [exact (Hgo (pred p) (Nat.le_pred_l p) H)|exact (Hgo p (Nat.le_refl p) H)].
Qed.

(** From [p] the code fails, or it comes to [q] after [n] characters. *)
Definition walks (p q : nat) (st : list Z) (n : nat) (d : thread -> list thread) : Prop :=
  forall x, thread_ok s x ->
    (d x = [] /\ exists z, straight s (conf p x st) false z /\ capture z = x.2 /\ stack z = st) \/
    (exists y, d x = [y] /\ thread_ok s y /\ y.2 = x.2 /\ back_chars n y.1 = Some x.1 /\ forall b z, straight s (conf q y st) b z -> straight s (conf p x st) b z).

Lemma walks_id p st : walks p p st 0 (fun x => [x]).
Proof. intros x Hx. right. exists x. split; [reflexivity|]. split; [exact Hx|]. auto. Qed.

Lemma walks_ext p q st n d e : (forall x, thread_ok s x -> d x = e x) -> walks p q st n d -> walks p q st n e.
Proof. intros H Hd x Hx. rewrite <- H by exact Hx. exact (Hd x Hx). Qed.

Lemma walks_seq p q t st n m d e : walks p q st n d -> walks q t st m e -> walks p t st (n + m) (fun x => flat_map e (d x)).
Proof.
  intros Hd He x Hx. destruct (Hd x Hx) as [(E & z & Hz & Hc & Hst)|(y & E & Hy & E2 & Hb & Hgo)]; rewrite E; cbn [flat_map]; [left; split; [reflexivity|]; exists z; auto|]. rewrite app_nil_r.
  destruct (He y Hy) as [(E3 & z & Hz & Hc & Hst)|(y' & E3 & Hy' & E4 & Hb' & Hgo')]; rewrite E3.
  - left. split; [reflexivity|]. exists z. split; [exact (Hgo _ _ Hz)|]. split; [congruence|exact Hst].
  - right. exists y'. split; [reflexivity|]. split; [exact Hy'|]. split; [congruence|]. split; [rewrite Nat.add_comm, prev_chars_add, Hb'; exact Hb|]. intros b z Hz. apply Hgo, Hgo', Hz.
Qed.

Lemma char_walks p op st : char_ok op = true -> at_code p [op] -> walks p (p + nsize [op]) st 1 (char_den s false op).
Proof.
  intros Hok Hc x Hx. pose proof (char_steps s p op st Hok Hc x Hx) as Hs. destruct (char_den s false op x) as [|y [|]] eqn:E; [left|right|destruct Hs].
  - split; [reflexivity|]. exists (conf p x st). split; [exact (straight_fail _ _ Hs)|auto].
  - exists y. split; [reflexivity|]. destruct (sound_char s false op x y Hx) as [Hy _]; [rewrite E; left|]. split; [exact Hy|]. unfold char_den in E. destruct (Nat.leb_spec (cbuf_end s) x.1) as [|Hl]; [discriminate|]. destruct (get_char_boundary s x.1 (thread_pos _ _ Hx) Hl) as (c & p' & E1 & _ & _ & E2). rewrite E1 in E. destruct (char_test s op c); [|discriminate]. injection E as <-.
    split; [reflexivity|]. split; [cbn [prev_chars fst]; unfold PREV_CHAR; fold (get_prev_char s p' 0); rewrite E2; reflexivity|]. intros b z Hz. exact (straight_next _ _ _ _ _ Hs Hz).
Qed.

Lemma assert_walks p op st : assert_ok op = true -> at_code p [op] -> walks p (p + nsize [op]) st 0 (fun x => if assert_test s op x.1 then [x] else []).
Proof.
  intros Hok Hc x Hx. pose proof (assert_steps s p op st Hok Hc x Hx) as Hs. cbv beta in Hs. destruct (assert_test s op x.1).
  - right. exists x. split; [reflexivity|]. split; [exact Hx|]. split; [reflexivity|]. split; [reflexivity|]. intros b z Hz. exact (straight_next _ _ _ _ _ Hs Hz).
  - left. split; [reflexivity|]. exists (conf p x st). split; [exact (straight_fail _ _ Hs)|auto].
Qed.

(** ** The loop *)

Section Quant.
Context (p e : nat) (st : list Z) (cc : nat) (mx : Z) (d : thread -> list thread).
Hypothesis Hcc : (0 < cc)%nat.
Hypothesis Hwalk : walks (p + 17) e st cc d.
Hypothesis Hmatch : at_code e [REOP_match].

Notation loops x q y q' := (iters s (p + 17) mx (conf p x st) q (conf p y st) q').

Definition full (q : Z) : Prop := mx <> INT32_MAX /\ mx <= q.

Lemma full_test q : (mx <=? q) && negb (mx =? INT32_MAX) = true <-> full q.
Proof. unfold full. rewrite andb_true_iff, negb_true_iff, Z.leb_le, Z.eqb_neq. tauto. Qed.

(** The loop goes on from [x] and [q] to [y] and [q']. *)
Definition onwards (x : thread) (q : Z) (y : thread) (q' : Z) : Prop := (full q /\ y = x /\ q' = q) \/ (~ full q /\ loops x q y q').

Lemma loop_stops x q : thread_ok s x -> d x = [] -> loops x q x q.
Proof.
  intros Hx E. destruct (Hwalk x Hx) as [(_ & z & Hz & Hc & Hst)|(y & E2 & _)]; [|congruence]. exact (iters_stop s _ _ (conf p x st) q z Hz Hc Hst).
Qed.

Lemma loop_goes x y q z q' : thread_ok s x -> d x = [y] -> onwards y (q + 1) z q' -> loops x q z q'.
Proof.
  intros Hx E H. destruct (Hwalk x Hx) as [(E2 & _)|(y' & E2 & Hy & E3 & _ & Hgo)]; [congruence|]. assert (y' = y) as -> by congruence.
  pose proof (Hgo true _ (straight_match s _ (match_step s e y st Hmatch))) as Hs. replace (conf p y st) with (at_cptr (conf p x st) y.1) in H by (unfold at_cptr, conf; cbn; rewrite E3; reflexivity).
  destruct H as [(Hf & -> & ->)|[Hf H]].
  - replace (conf p y st) with (at_cptr (conf p x st) y.1) by (unfold at_cptr, LreSteps.conf; cbn; rewrite E3; reflexivity). exact (iters_full s _ _ (conf p x st) q _ Hs E3 eq_refl (proj2 (full_test _) Hf)).
  - refine (iters_more s _ _ (conf p x st) q _ _ _ Hs E3 eq_refl _ _); [apply not_true_iff_false; rewrite full_test; exact Hf|]. replace (at_cptr (conf p x st) (cptr (conf e y st))) with (conf p y st) by (unfold at_cptr, LreSteps.conf; cbn; rewrite E3; reflexivity). exact H.
Qed.

(** What can be given back: the threads from [y] back to [x]. *)
Inductive trail : Z -> thread -> list thread -> thread -> Prop :=
| trail_one x : trail 0 x [x] x
| trail_more k y y' l x : back_chars cc y.1 = Some y'.1 -> y'.2 = y.2 -> trail k y' l x -> trail (k + 1) y (y :: l) x.

Lemma trail_snoc k z l y x : trail k z l y -> back_chars cc y.1 = Some x.1 -> x.2 = y.2 -> trail (k + 1) z (l ++ [x]) x.
Proof. induction 1 as [y|k z z' l y Hb E _ IH]; intros Hx E2; [exact (trail_more 0 y x [x] x Hx E2 (trail_one x))|]. cbn [app]. apply (trail_more _ _ z'); auto. Qed.

Lemma trail_nonneg k z l x : trail k z l x -> 0 <= k.
Proof. clear Hcc. induction 1; lia. Qed.

Lemma trail_back next k z l x o : trail k z l x -> first (fun y => eval s (conf next y st)) l o -> back s next cc (conf p z st) k o.
Proof.
  clear Hcc. intros H. revert o. induction H as [x|k z z' l x Hb E Ht IH]; intros o Hf.
  - apply first_single in Hf. destruct o as [c|]; [apply back_hit; [lia|exact Hf]|apply back_last, Hf].
  - apply trail_nonneg in Ht as Hk. inversion Hf as [|? ? c Hc|? ? ? Hn Hf']; subst; [apply back_hit; [lia|exact Hc]|]. apply (back_more s next cc _ _ z'.1); [lia|exact Hn|exact Hb|]. replace (k + 1 - 1) with k by lia.
    replace (at_cptr (conf p z st) z'.1) with (conf p z' st) by (unfold at_cptr, LreSteps.conf; cbn; rewrite E; reflexivity). apply IH, Hf'.
Qed.

Lemma times_loop n : forall x q, thread_ok s x -> mx = INT32_MAX \/ q + Z.of_nat n <= mx ->
  (times d n x = [] /\ exists z q', onwards x q z q' /\ q' < q + Z.of_nat n) \/
  (exists y, times d n x = [y] /\ thread_ok s y /\ forall z q', onwards y (q + Z.of_nat n) z q' -> onwards x q z q').
Proof.
  induction n as [|n IH]; intros x q Hx Hq; cbn [times]; [right; exists x; split; [reflexivity|]; split; [exact Hx|]; intros z q'; rewrite Z.add_0_r; auto|].
  assert (Hnf : ~ full q) by (unfold full; lia). destruct (Hwalk x Hx) as [(E & _)|(y & E & Hy & _)].
  - left. rewrite E. split; [reflexivity|]. exists x, q. split; [right; split; [exact Hnf|apply loop_stops; assumption]|lia].
  - rewrite E. cbn [flat_map]. rewrite app_nil_r. destruct (IH y (q + 1) Hy ltac:(lia)) as [(E2 & z & q' & Ho & Hlt)|(y' & E2 & Hy' & Ho)].
    + left. split; [exact E2|]. exists z, q'. split; [right; split; [exact Hnf|exact (loop_goes _ _ _ _ _ Hx E Ho)]|lia].
    + right. exists y'. split; [exact E2|]. split; [exact Hy'|]. intros z q' H. right. split; [exact Hnf|]. apply (loop_goes _ _ _ _ _ Hx E), Ho. replace (q + 1 + Z.of_nat n) with (q + Z.of_nat (S n)) by lia. exact H.
Qed.

Lemma upto_loop n : forall x q, thread_ok s x -> (mx = INT32_MAX /\ (room s false x < n)%nat) \/ (mx <> INT32_MAX /\ q + Z.of_nat n = mx) ->
  exists z k, onwards x q z (q + k) /\ trail k z (upto d true n x) x.
Proof.
  induction n as [|n IH]; intros x q Hx Hq.
  - destruct Hq as [[_ H]|[H1 H2]]; [lia|]. exists x, 0. split; [left; split; [split; [exact H1|lia]|split; [reflexivity|lia]]|apply trail_one].
  - assert (Hnf : ~ full q) by (unfold full; lia). rewrite upto_adv. destruct (Hwalk x Hx) as [(E & _)|(y & E & Hy & E2 & Hb & _)].
    + exists x, 0. replace (adv d x) with (@nil thread) by (unfold adv; rewrite E; reflexivity). split; [right; split; [exact Hnf|rewrite Z.add_0_r; apply loop_stops; assumption]|apply trail_one].
    + apply prev_chars_lt in Hb as Hlt. pose proof (proj1 (thread_pos _ _ Hy)) as Hyl. assert (Ea : adv d x = [y]) by (unfold adv; rewrite E; cbn [flat_map]; rewrite (proj2 (Nat.eqb_neq _ _)) by lia; reflexivity). rewrite Ea. cbn [flat_map]. rewrite app_nil_r.
      destruct (IH y (q + 1) Hy) as (z & k & Ho & Ht); [cbn [room] in *; lia|]. exists z, (k + 1). split; [|apply (trail_snoc _ _ _ y); auto]. right. split; [exact Hnf|]. apply (loop_goes _ _ _ _ _ Hx E). replace (q + (k + 1)) with (q + 1 + k) by lia. exact Ho.
Qed.

End Quant.

(** ** The instruction *)

Lemma quant_operands p a b c n : at_code p [REOP_simple_greedy_quant a b c n] -> 0 <= n < 2 ^ 32 ->
  get_u32_at (bc_buf s) (p + 1) = Some (a mod 2 ^ 32) /\ quant_char_count s (p + 1) = Some (Z.to_nat n).
Proof.
  unfold LreSteps.at_code, assemble. cbn [flat_map]. rewrite app_nil_r. unfold re_emit_op. cbn [operands]. intros Hc Hn. apply code_tail in Hc. replace (S p) with (p + 1)%nat in Hc by lia. unfold quant_char_count, get_u32_at. split.
  - exact (code_bytes _ _ _ _ (code_at_left _ _ _ _ Hc)).
  - apply code_at_right, code_at_right, code_at_right in Hc. rewrite !le_bytes_length in Hc. replace (p + 1 + 12)%nat with (p + 1 + 4 + 4 + 4)%nat by lia. rewrite (code_bytes _ _ _ _ Hc). cbn [mbind option_bind]. change (256 ^ Z.of_nat 4) with (2 ^ 32). rewrite Z.mod_small by exact Hn. reflexivity.
Qed.

Lemma quant_runs p c mn mx cc st d : at_code p ([REOP_simple_greedy_quant (code_size c + 1) mn mx cc] ++ c ++ [REOP_match]) ->
  0 < cc < 2 ^ 31 -> 0 <= mn <= mx -> 0 < mx <= INT32_MAX -> walks (p + 17) (p + 17 + nsize c) st (Z.to_nat cc) d ->
  LreSteps.runs s p (p + 18 + nsize c) st (fun x => flat_map (upto d true (rounds s mn mx)) (times d (Z.to_nat mn) x)).
Proof.
  intros Hc Hcc Hmn Hmx Hw x o Hx Hf. destruct (at_code_app s _ _ _ Hc) as [H1 H2]. change (nsize [REOP_simple_greedy_quant (code_size c + 1) mn mx cc]) with 17%nat in *. destruct (at_code_app s _ _ _ H2) as [H3 H4]. apply at_code_end in H4 as Hend. change (nsize [REOP_match]) with 1%nat in Hend. pose proof (code_size_nat c) as Ec. unfold INT32_MAX in Hmx.
  destruct (quant_operands p _ _ _ _ H1 ltac:(lia)) as [Hu Hq].
  assert (Hj : jump (p + 17) ((code_size c + 1) mod 2 ^ 32) = Some (p + 18 + nsize c)%nat) by (apply jump_at; lia).
  assert (Hs : step s (conf p x st) = Some (AQuant (p + 17) (p + 18 + nsize c) mn mx)).
  { rewrite (step_at s p _ x st H1) by (cbn; lia). cbn [read_back exec_op]. change (nsize [REOP_simple_greedy_quant (code_size c + 1) mn mx cc]) with 17%nat. rewrite Z.mod_small in Hj by lia. rewrite Hj. reflexivity. }
  assert (Hn : quant_next s (p + 17 - 16) = Some (p + 18 + nsize c)%nat) by (unfold quant_next; replace (p + 17 - 16)%nat with (p + 1)%nat by lia; rewrite Hu; cbn [mbind option_bind]; replace (p + 1 + 16)%nat with (p + 17)%nat by lia; exact Hj).
  assert (Hcount : quant_char_count s (p + 17 - 16) = Some (Z.to_nat cc)) by (replace (p + 17 - 16)%nat with (p + 1)%nat by lia; exact Hq).
  assert (Hcc' : (0 < Z.to_nat cc)%nat) by lia. assert (Hnf : ~ full mx 0) by (unfold full; lia).
  destruct (times_loop p _ st (Z.to_nat cc) mx d Hcc' Hw H4 (Z.to_nat mn) x 0 Hx ltac:(lia)) as [(E & z & q' & [[Hfull _]|[_ Ho]] & Hlt)|(y & E & Hy & Ho)]; try contradiction; rewrite E in Hf.
  - inversion Hf; subst. exact (eval_quant_few _ _ _ _ _ _ _ _ Hs Ho ltac:(lia)).
  - cbn [flat_map] in Hf. rewrite app_nil_r in Hf. destruct (upto_loop p _ st (Z.to_nat cc) mx d Hcc' Hw H4 (rounds s mn mx) y (0 + Z.of_nat (Z.to_nat mn)) Hy) as (z & k & Ho2 & Ht).
    { unfold rounds. destruct (Z.eqb_spec mx INT32_MAX); [left; split; [assumption|apply room_bound, Hy]|right; split; [assumption|lia]]. }
    destruct (Ho _ _ Ho2) as [[Hfull _]|[_ Hl]]; [contradiction|]. apply trail_nonneg in Ht as Hk.
    refine (eval_quant _ _ _ _ _ _ _ _ _ _ Hs Hl _ Hcount Hn _); [lia|]. replace (0 + Z.of_nat (Z.to_nat mn) + k - mn) with k by lia. eapply trail_back; [exact Ht|exact Hf].
Qed.

End Walks.
