(* ===== verification/LreMatch.v ===== *)
(** Emitted code finds the matches of its expression.

    The code of a quantifier is a head for the rounds that are needed and a tail for the
    ones that are allowed ([head_code], [tail_code]); the scans over the code of an atom
    are related to its matches; [emit_runs] is the statement for a whole term. *)
From Stdlib Require Import ZArith Lia.
From S2P Require Import Prelude Cutils LreExec LreSpecs LreDen LreCode LreSteps LreLoops.
From stdpp Require Import base tactics numbers option list.

Open Scope Z_scope.

(** ** Shapes of code *)

Definition code (bwd : bool) (r : regex) (cc : Z) : list reop := (emit bwd r cc).1.

Lemma emit_count bwd r : forall cc, (emit bwd r cc).2 = cc + groups r.
Proof.
  revert bwd. induction r as [|op|op|ic n|a IHa b IHb|a IHa b IHb|a IHa|neg behind a IHa|a IHa mn mx greedy]; intros bwd cc; cbn [emit groups]; try (cbn; lia);
    try (specialize (IHa bwd cc); destruct (emit bwd a cc) as [ca c1]; cbn in IHa; subst c1; try (specialize (IHb bwd (cc + groups a)); destruct (emit bwd b (cc + groups a)); cbn in *; lia); cbn; lia).
  - specialize (IHa bwd (cc + 1)). destruct (emit bwd a (cc + 1)). cbn in *. lia.
  - specialize (IHa behind cc). destruct (emit behind a cc). cbn in *. lia.
Qed.

Ltac emitted := unfold code; cbn [emit]; repeat match goal with |- context [emit ?b ?r ?c] => let E := fresh in pose proof (emit_count b r c) as E; destruct (emit b r c); cbn [fst snd] in E |- *; try subst end; reflexivity.

Lemma code_cat bwd a b cc : code bwd (RCat a b) cc = if bwd then code bwd b (cc + groups a) ++ code bwd a cc else code bwd a cc ++ code bwd b (cc + groups a).
Proof. emitted. Qed.

Lemma code_alt bwd a b cc :
  code bwd (RAlt a b) cc = [REOP_split true (code_size (code bwd a cc) + 5)] ++ code bwd a cc ++ [REOP_goto (code_size (code bwd b (cc + groups a)))] ++ code bwd b (cc + groups a).
Proof. emitted. Qed.

Lemma code_group bwd a cc : code bwd (RGroup a) cc = [REOP_save bwd cc] ++ code bwd a (cc + 1) ++ [REOP_save (negb bwd) cc].
Proof. emitted. Qed.

Lemma code_look bwd neg behind a cc : code bwd (RLook neg behind a) cc = [REOP_lookahead neg (code_size (code behind a cc) + 1)] ++ code behind a cc ++ [REOP_match].
Proof. emitted. Qed.

Lemma code_quant bwd a mn mx g cc : code bwd (RQuant a mn mx g) cc = emit_quantifier (code bwd a cc) cc (cc + groups a) mn mx g.
Proof. emitted. Qed.

Lemma groups_nonneg r : 0 <= groups r.
Proof. induction r; cbn [groups]; lia. Qed.

(** The body of a loop. *)
Definition checked (chk : bool) (atom : list reop) : list reop := if chk then [REOP_push_char_pos] ++ atom ++ [REOP_check_advance] else atom.

Inductive head_code (atom : list reop) (before after : Z) : Z -> list reop -> Prop :=
| head_none : before = after -> head_code atom before after 0 []
| head_reset : before <> after -> head_code atom before after 0 [REOP_save_reset before (after - 1)]
| head_one : head_code atom before after 1 atom
| head_times mn : 1 < mn -> head_code atom before after mn ([REOP_push_i32 mn] ++ atom ++ [REOP_loop (- (code_size atom + 5)); REOP_drop]).

Inductive tail_code (g chk : bool) (atom : list reop) (mn mx : Z) : list reop -> Prop :=
| tail_none : mx = mn -> mx <> INT32_MAX -> tail_code g chk atom mn mx []
| tail_once : mx = mn + 1 -> mx <> INT32_MAX -> tail_code g chk atom mn mx ([REOP_split g (code_size (checked chk atom))] ++ checked chk atom)
| tail_star : mx = INT32_MAX ->
    tail_code g chk atom mn mx ([REOP_split g (code_size (checked chk atom) + 5)] ++ checked chk atom ++ [REOP_goto (- (code_size (checked chk atom) + 10))])
| tail_repeat : mn < mx -> mx <> INT32_MAX ->
    tail_code g chk atom mn mx ([REOP_push_i32 (mx - mn); REOP_split g (code_size (checked chk atom) + 5)] ++ checked chk atom ++ [REOP_loop (- (code_size (checked chk atom) + 10)); REOP_drop]).

(** The code of a quantifier. *)
Inductive quant_code (atom : list reop) (before after mn mx : Z) (g : bool) : list reop -> Prop :=
| quant_simple n : re_is_simple_quantifier (assemble atom) = n -> 0 < n -> 0 < mx -> g = true ->
    quant_code atom before after mn mx g ([REOP_simple_greedy_quant (code_size atom + 1) mn mx n] ++ atom ++ [REOP_match])
| quant_plus : mn = 1 -> mx = INT32_MAX -> re_need_check_advance (assemble atom) = false ->
    quant_code atom before after mn mx g (atom ++ [REOP_split (negb g) (- (code_size atom + 5))])
| quant_general h t : head_code atom before after mn h -> tail_code g (re_need_check_advance (assemble atom)) atom mn mx t -> quant_code atom before after mn mx g (h ++ t).

Lemma checked_size chk atom : code_size (checked chk atom) = code_size atom + 2 * c_bool chk.
Proof. destruct chk; cbn [checked c_bool]; [|lia]. rewrite !code_size_app. change (code_size [REOP_push_char_pos]) with 1. change (code_size [REOP_check_advance]) with 1. lia. Qed.

Lemma emit_quantifier_shape atom before after mn mx g : 0 <= mn <= mx -> mx <= INT32_MAX -> quant_code atom before after mn mx g (emit_quantifier atom before after mn mx g).
Proof.
  intros Hmn Hmx. unfold emit_quantifier. cbv zeta. destruct (g && (0 <? mx) && (0 <? re_is_simple_quantifier (assemble atom))) eqn:Eg.
  { apply andb_prop in Eg as [Eg E2]. apply andb_prop in Eg as [-> E1]. apply Z.ltb_lt in E1, E2. apply quant_simple; auto. }
  clear Eg. set (chk := re_need_check_advance (assemble atom)). set (n := code_size atom).
  change (if chk then [REOP_push_char_pos] ++ atom ++ [REOP_check_advance] else atom) with (checked chk atom). replace (n + 5 + 2 * c_bool chk) with (code_size (checked chk atom) + 5) by (rewrite checked_size; fold n; lia). replace (n + 2 * c_bool chk + 10) with (code_size (checked chk atom) + 10) by (rewrite checked_size; fold n; lia). replace (n + 2 * c_bool chk) with (code_size (checked chk atom)) by (rewrite checked_size; fold n; lia).
  destruct (Z.eqb_spec mn 0) as [E0|N0].
  - subst mn. apply quant_general; [destruct (Z.eqb_spec before after); [apply head_none; assumption|apply head_reset; assumption]|].
    destruct (Z.eqb_spec mx 0) as [->|]; [apply tail_none; [reflexivity|discriminate]|]. destruct (Z.eqb_spec mx 1) as [->|]; [apply tail_once; [reflexivity|discriminate]|]. destruct (Z.eqb_spec mx INT32_MAX); [apply tail_star; assumption|]. replace (REOP_push_i32 mx) with (REOP_push_i32 (mx - 0)) by (f_equal; lia). apply tail_repeat; [lia|assumption].
  - destruct ((mn =? 1) && (mx =? INT32_MAX) && negb chk) eqn:E.
    + apply andb_prop in E as [E Ec]. apply andb_prop in E as [E1 E2]. apply Z.eqb_eq in E1, E2. apply negb_true_iff in Ec. apply quant_plus; assumption.
    + clear E. apply quant_general.
      * destruct (Z.eqb_spec mn 1) as [->|]; [apply head_one|apply head_times; lia].
      * destruct (Z.eqb_spec mx INT32_MAX); [apply tail_star; assumption|]. destruct (Z.ltb_spec mn mx); [apply tail_repeat; assumption|apply tail_none; [lia|assumption]].
Qed.

(** ** The effect on the stack *)

Lemma checked_drift chk atom : drift atom = 0 -> drift (checked chk atom) = 0.
Proof. intros H. destruct chk; cbn [checked]; [|exact H]. rewrite !drift_app, H. reflexivity. Qed.

Lemma quant_drift atom before after mn mx g l : drift atom = 0 -> quant_code atom before after mn mx g l -> drift l = 0.
Proof.
  intros H [n _ _ _ _|_ _ _|h t Hh Ht]; [rewrite !drift_app, H; reflexivity|rewrite drift_app, H; reflexivity|]. rewrite drift_app.
  assert (drift h = 0) as -> by (destruct Hh; rewrite ?drift_app, ?H; reflexivity || exact H). pose proof (checked_drift (re_need_check_advance (assemble atom)) atom H) as Hc. destruct Ht; rewrite ?drift_app, ?Hc; reflexivity.
Qed.

Section Match.
Context `{LH : LreHost} (s : program).

Lemma quant_ok_inv a mn mx g : regex_ok (capture_count s) (RQuant a mn mx g) = true -> regex_ok (capture_count s) a = true /\ 0 <= mn <= mx /\ mx <= INT32_MAX.
Proof. cbn [regex_ok]. intros H. apply andb_prop in H as [H H3]. apply andb_prop in H as [H H2]. apply andb_prop in H as [H H1]. apply Z.leb_le in H1, H2, H3. auto. Qed.

Lemma char_drift op : char_ok op = true -> op_push op = 0.
Proof. destruct op; cbn; try discriminate; reflexivity. Qed.

Lemma code_drift r : forall bwd cc, regex_ok (capture_count s) r = true -> drift (code bwd r cc) = 0.
Proof.
  induction r as [|op|op|ic n|a IHa b IHb|a IHa b IHb|a IHa|neg behind a IHa|a IHa mn mx g]; intros bwd cc Hok.
  - reflexivity.
  - cbn [regex_ok] in Hok. pose proof (char_drift op Hok) as E. unfold code. cbn [emit]. destruct bwd; cbn [fst drift op_push]; lia.
  - cbn [regex_ok] in Hok. unfold code. cbn [emit]. destruct op; try discriminate; reflexivity.
  - reflexivity.
  - cbn [regex_ok] in Hok. apply andb_prop in Hok as [Ha Hb]. rewrite code_cat. destruct bwd; rewrite drift_app, IHa, IHb by assumption; reflexivity.
  - cbn [regex_ok] in Hok. apply andb_prop in Hok as [Ha Hb]. rewrite code_alt, !drift_app, IHa, IHb by assumption. reflexivity.
  - rewrite code_group, !drift_app, IHa by exact Hok. reflexivity.
  - rewrite code_look, !drift_app, IHa by exact Hok. reflexivity.
  - destruct (quant_ok_inv _ _ _ _ Hok) as (Ha & Hmn & Hmx). rewrite code_quant. apply (quant_drift (code bwd a cc) cc (cc + groups a) mn mx g); [apply IHa, Ha|apply emit_quantifier_shape; assumption].
Qed.

(** ** Operands *)

Hypothesis Hcount : capture_count s <= 256.

Lemma scan_simple_le l n : scan_simple l = Some n -> 0 <= n <= Z.of_nat (length l).
Proof.
  revert n. induction l as [|op l IH]; cbn [scan_simple length]; intros n E; [injection E as <-; lia|]. destruct (op_simple op) as [k|] eqn:Eo; [|discriminate]. destruct (scan_simple l) as [m|]; [|discriminate]. cbn in E. injection E as <-. specialize (IH m eq_refl). assert (0 <= k <= 1) by (destruct op; cbn in Eo; try discriminate; injection Eo as <-; lia). lia.
Qed.

Lemma code_size_length l : Z.of_nat (length l) <= code_size l.
Proof. unfold code_size, len. pose proof (assemble_length l). lia. Qed.

Lemma checked_ok chk atom : Forall op_ok atom -> Forall op_ok (checked chk atom).
Proof. intros H. destruct chk; cbn [checked]; [|exact H]. constructor; [exact I|]. apply Forall_app. split; [exact H|]. repeat constructor. Qed.

Lemma checked_size_le chk atom : code_size atom <= code_size (checked chk atom).
Proof. rewrite checked_size. destruct chk; cbn; lia. Qed.

Ltac sizes := rewrite ?code_size_app in *; repeat match goal with |- context [code_size ?l] => lazymatch goal with H : 0 <= code_size l |- _ => fail | _ => pose proof (code_size_nonneg l) end | H : context [code_size ?l] |- _ => lazymatch goal with H : 0 <= code_size l |- _ => fail | _ => pose proof (code_size_nonneg l) end end.

(** The atom is part of the code, or there are no rounds. *)
Lemma quant_atom atom before after mn mx g l : quant_code atom before after mn mx g l -> 0 <= mn <= mx -> (mn = 0 /\ mx = 0) \/ code_size atom <= code_size l.
Proof.
  intros H Hmn. destruct H as [n _ _ _ _|_ _ _|h t Hh Ht]; [right; sizes; lia|right; sizes; lia|]. pose proof (checked_size_le (re_need_check_advance (assemble atom)) atom).
  destruct (Z.eq_dec mx 0); [left; lia|right]. destruct Hh; destruct Ht; sizes; lia.
Qed.

Lemma quant_ops_ok atom before after mn mx g l : quant_code atom before after mn mx g l -> 0 <= mn <= mx -> mx <= INT32_MAX -> 0 <= before <= after -> after <= 256 -> code_size l < 2 ^ 31 ->
  (code_size atom < 2 ^ 31 -> Forall op_ok atom) -> Forall op_ok l.
Proof.
  intros H Hmn Hmx Hb Ha Hl Hat. unfold INT32_MAX in Hmx. destruct (quant_atom _ _ _ _ _ _ _ H Hmn) as [[-> ->]|Hle].
  - destruct H as [n _ _ Hpos _|Hm|h t Hh Ht]; [lia|discriminate|]. apply Forall_app. split; [inversion Hh; subst; repeat constructor; cbn; lia|]. inversion Ht; subst; try lia; try discriminate; constructor.
  - specialize (Hat ltac:(lia)). destruct H as [n En Hn Hpos _|_ _ _|h t Hh Ht].
    + rewrite re_is_simple_quantifier_ops in En by exact Hat. destruct (scan_simple atom) as [k|] eqn:E; [|lia]. subst k. apply scan_simple_le in E. pose proof (code_size_length atom). pose proof (code_size_nonneg atom). repeat (apply Forall_app; split); try exact Hat; repeat constructor; cbn; lia.
    + apply Forall_app. split; [exact Hat|repeat constructor].
    + pose proof (checked_ok (re_need_check_advance (assemble atom)) atom Hat) as Hc. apply Forall_app. split; [destruct Hh|destruct Ht]; repeat (apply Forall_app; split); try assumption; repeat constructor; cbn; lia.
Qed.

Lemma code_ops_ok r : forall bwd cc, regex_ok (capture_count s) r = true -> 0 <= cc -> cc + groups r <= capture_count s -> code_size (code bwd r cc) < 2 ^ 31 -> Forall op_ok (code bwd r cc).
Proof.
  induction r as [|op|op|ic n|a IHa b IHb|a IHa b IHb|a IHa|neg behind a IHa|a IHa mn mx g]; intros bwd cc Hok Hcc Hg Hs; cbn [groups] in Hg; try pose proof (groups_nonneg a); try pose proof (groups_nonneg b).
  - constructor.
  - cbn [regex_ok] in Hok. apply char_op_ok in Hok. unfold code. cbn [emit]. destruct bwd; repeat constructor; exact Hok.
  - cbn [regex_ok] in Hok. unfold code. cbn [emit]. destruct op; try discriminate; repeat constructor.
  - cbn [regex_ok] in Hok. apply andb_prop in Hok as [H1 H2]. apply Z.leb_le in H1. apply Z.ltb_lt in H2. repeat constructor; lia.
  - cbn [regex_ok] in Hok. apply andb_prop in Hok as [Ha Hb]. rewrite code_cat in *. destruct bwd; sizes; apply Forall_app; (split; [apply IHa || apply IHb|apply IHa || apply IHb]; try assumption; lia).
  - cbn [regex_ok] in Hok. apply andb_prop in Hok as [Ha Hb]. rewrite code_alt in *. sizes. repeat (apply Forall_app; split); [repeat constructor|apply IHa; try assumption; lia|repeat constructor|apply IHb; try assumption; lia].
  - rewrite code_group in *. sizes. repeat (apply Forall_app; split); [repeat constructor; lia|apply IHa; try assumption; lia|repeat constructor; lia].
  - rewrite code_look in *. sizes. repeat (apply Forall_app; split); [repeat constructor|apply IHa; try assumption; lia|repeat constructor].
  - destruct (quant_ok_inv _ _ _ _ Hok) as (Ha & Hmn & Hmx). rewrite code_quant in *. apply (quant_ops_ok (code bwd a cc) cc (cc + groups a) mn mx g); try assumption; try lia; [apply emit_quantifier_shape; assumption|]. intros Hs'. apply IHa; try assumption; lia.
Qed.

End Match.

Lemma scan_simple_app a b : scan_simple (a ++ b) = (n ← scan_simple a; m ← scan_simple b; Some (n + m)).
Proof.
  induction a as [|op a IH]; cbn [scan_simple app]; [destruct (scan_simple b); reflexivity|]. rewrite IH. destruct (op_simple op); [|reflexivity]. destruct (scan_simple a); [|reflexivity]. destruct (scan_simple b); [|reflexivity]. cbn. f_equal. lia.
Qed.

Lemma scan_advance_app a b : scan_advance (a ++ b) = (n ← scan_advance a; m ← scan_advance b; Some (n || m)).
Proof.
  induction a as [|op a IH]; cbn [scan_advance app]; [destruct (scan_advance b); reflexivity|]. rewrite IH. destruct (op_advance op) as [[|]|]; [| |reflexivity]; (destruct (scan_advance a) as [[|]|]; [| |reflexivity]); (destruct (scan_advance b) as [[|]|]; reflexivity).
Qed.

Ltac op_sizes := rewrite ?nsize_app, ?(nsize_cons _ (_ :: _)) in *; repeat match goal with
  | |- context [nsize [?op]] => let v := eval vm_compute in (nsize [op]) in change (nsize [op]) with v
  | H : context [nsize [?op]] |- _ => let v := eval vm_compute in (nsize [op]) in change (nsize [op]) with v in H
  end.

Section Runs.
Context `{LH : LreHost} (s : program).
Hypothesis Hsize : Z.of_nat (length (bc_buf s)) < 2 ^ 31.
Hypothesis Hcount : capture_count s <= 256.

Notation conf := LreSteps.conf.
Notation at_code := (LreSteps.at_code s).
Notation runs := (LreSteps.runs s).
Notation walks := (LreLoops.walks s).

Lemma times_one (d : thread -> list thread) x : times d 1 x = d x.
Proof. cbn [times]. induction (d x) as [|y l IH]; [reflexivity|]. cbn [flat_map app]. rewrite IH. reflexivity. Qed.

Lemma upto_none (l : list thread) d g : flat_map (upto d g 0) l = l.
Proof. induction l as [|y l IH]; [reflexivity|]. change (flat_map (upto d g 0) (y :: l)) with (y :: flat_map (upto d g 0) l). rewrite IH. reflexivity. Qed.

Lemma at_code_size p l : at_code p l -> code_size l < 2 ^ 31.
Proof. intros H. apply at_code_end in H. rewrite code_size_nat. lia. Qed.

(** The captures at the start of a quantifier that can have no rounds. *)
Definition restart (mn cc k : Z) (x : thread) : thread := if mn =? 0 then (x.1, if 0 <? k then reset_captures x.2 cc (cc + k - 1) else x.2) else x.

Lemma den_quant bwd a mn mx g cc x :
  den s bwd (RQuant a mn mx g) cc x = flat_map (upto (den s bwd a cc) g (rounds s mn mx)) (times (den s bwd a cc) (Z.to_nat mn) (restart mn cc (groups a) x)).
Proof. reflexivity. Qed.

Lemma restart_ok mn cc k x : thread_ok s x -> thread_ok s (restart mn cc k x) /\ (restart mn cc k x).1 = x.1.
Proof. intros H. unfold restart. destruct (mn =? 0); [|auto]. destruct (0 <? k); [split; [apply thread_reset, H|reflexivity]|]. destruct x; auto. Qed.

Lemma restart_none mn cc k x : mn <> 0 \/ k = 0 -> restart mn cc k x = x.
Proof. intros H. unfold restart. destruct (Z.eqb_spec mn 0); [|reflexivity]. destruct (Z.ltb_spec 0 k); [lia|]. destruct x; reflexivity. Qed.

(** ** Atoms that are simple *)

Lemma quant_code_simple atom before after mn mx g l n : quant_code atom before after mn mx g l -> scan_simple l = Some n ->
  (l = [] /\ mn = 0 /\ mx = 0 /\ before = after) \/ (l = atom /\ mn = 1 /\ mx = 1).
Proof.
  intros H E. destruct H as [k _ _ _ _|_ _ _|h t Hh Ht]; [discriminate|rewrite scan_simple_app in E; destruct (scan_simple atom); discriminate|].
  rewrite scan_simple_app in E. destruct (scan_simple h) as [i|] eqn:Eh; [|discriminate]. destruct (scan_simple t) as [j|] eqn:Et; [|discriminate].
  destruct Ht as [E1 E2|E1 E2|E1|E1 E2]; try discriminate. rewrite app_nil_r. destruct Hh as [E3|E3| |mn E3]; try discriminate; [left; auto|right; auto].
Qed.

Lemma code_simple r : forall bwd cc n, regex_ok (capture_count s) r = true -> scan_simple (code bwd r cc) = Some n ->
  groups r = 0 /\ forall p st, at_code p (code bwd r cc) -> walks p (p + nsize (code bwd r cc)) st (Z.to_nat n) (den s bwd r cc).
Proof.
  induction r as [|op|op|ic k|a IHa b IHb|a IHa b IHb|a IHa|neg behind a IHa|a IHa mn mx g]; intros bwd cc n Hok E.
  - injection E as <-. split; [reflexivity|]. intros p st _. change (nsize (code bwd REmpty cc)) with 0%nat. rewrite Nat.add_0_r. apply walks_id.
  - destruct bwd; [discriminate|]. split; [reflexivity|]. intros p st Hc. cbn [regex_ok] in Hok. assert (n = 1) as -> by (destruct op; try discriminate; injection E as <-; reflexivity). apply char_walks; assumption.
  - split; [reflexivity|]. intros p st Hc. cbn [regex_ok] in Hok. assert (n = 0) as -> by (destruct op; try discriminate; injection E as <-; reflexivity). apply assert_walks; assumption.
  - discriminate.
  - cbn [regex_ok] in Hok. apply andb_prop in Hok as [Ha Hb]. rewrite code_cat in *. cbn [groups den]. destruct bwd; rewrite scan_simple_app in E.
    + destruct (scan_simple (code true b (cc + groups a))) as [m|] eqn:Eb; [|discriminate]. destruct (scan_simple (code true a cc)) as [k|] eqn:Ea; [|discriminate]. injection E as <-. destruct (IHa _ _ _ Ha Ea) as [Ga Wa]. destruct (IHb _ _ _ Hb Eb) as [Gb Wb]. split; [lia|]. intros p st Hc. destruct (at_code_app s _ _ _ Hc) as [Hc1 Hc2]. apply scan_simple_le in Ea, Eb. rewrite nsize_app, Nat.add_assoc, Z2Nat.inj_add by lia. exact (walks_seq s _ _ _ _ _ _ _ _ (Wb _ st Hc1) (Wa _ st Hc2)).
    + destruct (scan_simple (code false a cc)) as [k|] eqn:Ea; [|discriminate]. destruct (scan_simple (code false b (cc + groups a))) as [m|] eqn:Eb; [|discriminate]. injection E as <-. destruct (IHa _ _ _ Ha Ea) as [Ga Wa]. destruct (IHb _ _ _ Hb Eb) as [Gb Wb]. split; [lia|]. intros p st Hc. destruct (at_code_app s _ _ _ Hc) as [Hc1 Hc2]. apply scan_simple_le in Ea, Eb. rewrite nsize_app, Nat.add_assoc, Z2Nat.inj_add by lia. exact (walks_seq s _ _ _ _ _ _ _ _ (Wa _ st Hc1) (Wb _ st Hc2)).
  - rewrite code_alt in E. discriminate.
  - rewrite code_group in E. discriminate.
  - rewrite code_look in E. discriminate.
  - destruct (quant_ok_inv _ _ _ _ _ Hok) as (Ha & Hmn & Hmx). rewrite code_quant in *. pose proof (emit_quantifier_shape (code bwd a cc) cc (cc + groups a) mn mx g Hmn Hmx) as Hq. cbn [groups].
    destruct (quant_code_simple _ _ _ _ _ _ _ _ Hq E) as [(El & -> & -> & Eg)|(El & -> & ->)]; rewrite El in *.
    + injection E as <-. split; [lia|]. intros p st _. change (nsize []) with 0%nat. rewrite Nat.add_0_r. refine (walks_ext s _ _ _ _ _ _ _ (walks_id s p st)). intros x _. rewrite den_quant, restart_none by lia. reflexivity.
    + destruct (IHa _ _ _ Ha E) as [Ga Wa]. split; [exact Ga|]. intros p st Hc. refine (walks_ext s _ _ _ _ _ _ _ (Wa p st Hc)). intros x _. rewrite den_quant, restart_none by lia. change (Z.to_nat 1) with 1%nat. rewrite times_one. change (rounds s 1 1) with 0%nat. rewrite upto_none. reflexivity.
Qed.

(** ** Atoms that always advance *)

Lemma quant_code_advance atom before after mn mx g l : quant_code atom before after mn mx g l -> scan_advance l = Some true -> l = atom /\ mn = 1 /\ mx = 1.
Proof.
  intros H E. destruct H as [k _ _ _ _|_ _ _|h t Hh Ht]; [discriminate|rewrite scan_advance_app in E; destruct (scan_advance atom); discriminate|].
  rewrite scan_advance_app in E. destruct (scan_advance h) as [i|] eqn:Eh; [|discriminate]. destruct (scan_advance t) as [j|] eqn:Et; [|discriminate].
  destruct Ht as [E1 E2|E1 E2|E1|E1 E2]; try discriminate. rewrite app_nil_r in *. destruct Hh as [E3|E3| |mn E3]; try (injection Eh as <-; injection Et as <-; discriminate); [auto|].
  cbn [app scan_advance op_advance mbind option_bind] in Eh. rewrite scan_advance_app in Eh. destruct (scan_advance atom); discriminate.
Qed.

Lemma code_advances r : forall bwd cc, regex_ok (capture_count s) r = true -> scan_advance (code bwd r cc) = Some true -> forall x y, thread_ok s x -> y ∈ den s bwd r cc x -> y.1 <> x.1.
Proof.
  induction r as [|op|op|ic k|a IHa b IHb|a IHa b IHb|a IHa|neg behind a IHa|a IHa mn mx g]; intros bwd cc Hok E x y Hx Hy; cbn [den] in Hy.
  - discriminate.
  - unfold char_den in Hy. pose proof (thread_pos _ _ Hx) as Hb. destruct bwd.
    + destruct (Nat.eqb_spec x.1 0); [inversion Hy|]. destruct (get_prev_boundary s x.1 Hb ltac:(lia)) as (c & p & E1 & _ & Hlt & _). rewrite E1 in Hy. destruct (char_test s op c); [|inversion Hy]. apply list_elem_of_singleton in Hy as ->. cbn. lia.
    + destruct (Nat.leb_spec (cbuf_end s) x.1) as [|Hl]; [inversion Hy|]. destruct (get_char_boundary s x.1 Hb Hl) as (c & p & E1 & _ & Hlt & _). rewrite E1 in Hy. destruct (char_test s op c); [|inversion Hy]. apply list_elem_of_singleton in Hy as ->. cbn. lia.
  - cbn [regex_ok] in Hok. destruct op; discriminate.
  - discriminate.
  - cbn [regex_ok] in Hok. apply andb_prop in Hok as [Ha Hb]. rewrite code_cat in E.
    assert (Hm : scan_advance (code bwd a cc) = Some true \/ scan_advance (code bwd b (cc + groups a)) = Some true) by (destruct bwd; rewrite scan_advance_app in E; destruct (scan_advance (code _ a cc)) as [[|]|]; destruct (scan_advance (code _ b (cc + groups a))) as [[|]|]; try discriminate; auto).
    destruct bwd; apply elem_of_flat_map in Hy as (z & Hz & Hy).
    + destruct (den_sound s b true _ x z Hx Hz) as [Hz' Hm1]. destruct (den_sound s a true _ z y Hz' Hy) as [_ Hm2]. cbn in Hm1, Hm2. destruct Hm as [H|H]; [pose proof (IHa true cc Ha H z y Hz' Hy)|pose proof (IHb true _ Hb H x z Hx Hz)]; lia.
    + destruct (den_sound s a false _ x z Hx Hz) as [Hz' Hm1]. destruct (den_sound s b false _ z y Hz' Hy) as [_ Hm2]. cbn in Hm1, Hm2. destruct Hm as [H|H]; [pose proof (IHa false cc Ha H x z Hx Hz)|pose proof (IHb false _ Hb H z y Hz' Hy)]; lia.
  - rewrite code_alt in E. discriminate.
  - cbn [regex_ok] in Hok. rewrite code_group in E. cbn [app scan_advance op_advance mbind option_bind] in E. rewrite scan_advance_app in E. apply list_elem_of_fmap in Hy as (z & -> & Hz). destruct (scan_advance (code bwd a (cc + 1))) as [[|]|] eqn:Ea; try discriminate. exact (IHa bwd (cc + 1) Hok Ea _ z (thread_set s x _ Hx) Hz).
  - rewrite code_look in E. discriminate.
  - destruct (quant_ok_inv _ _ _ _ _ Hok) as (Ha & Hmn & Hmx). rewrite code_quant in E. destruct (quant_code_advance _ _ _ _ _ _ _ (emit_quantifier_shape (code bwd a cc) cc (cc + groups a) mn mx g Hmn Hmx) E) as (El & -> & ->). rewrite El in E.
    change (1 =? 0) with false in Hy. cbv zeta iota in Hy. change (Z.to_nat 1) with 1%nat in Hy. rewrite times_one in Hy. change (rounds s 1 1) with 0%nat in Hy. rewrite upto_none in Hy. exact (IHa bwd cc Ha E x y Hx Hy).
Qed.

(** ** Quantifiers *)

(** The stack has room for the code. *)
Definition fits (st : list Z) (l : list reop) : Prop := Z.of_nat (length st) + peak l <= Z.of_nat (stack_size_max s).

Ltac peaks := unfold fits in *; rewrite ?peak_app, ?drift_app in *; cbn [peak drift op_push length] in *; rewrite ?peak_app, ?drift_app in *; cbn [peak drift op_push length] in *.

Section Quantifier.
Context (bwd : bool) (atom : list reop) (d : thread -> list thread).
Hypothesis Hok : Forall op_ok atom.
Hypothesis Hdrift : drift atom = 0.
Hypothesis Hsound : sound s bwd d.
Hypothesis Hruns : forall p st, at_code p atom -> fits st atom -> runs p (p + nsize atom) st d.
Hypothesis Hadv : scan_advance atom = Some true -> forall x y, thread_ok s x -> y ∈ d x -> y.1 <> x.1.

Let chk := re_need_check_advance (assemble atom).

Lemma adv_unchecked : chk = false -> forall x, thread_ok s x -> adv d x = d x.
Proof.
  unfold chk. rewrite re_need_check_advance_ops by exact Hok. intros E x Hx. destruct (scan_advance atom) as [[|]|] eqn:Es; try discriminate. apply adv_all. intros y Hy. exact (Hadv eq_refl x y Hx Hy).
Qed.

Lemma body_runs p st : at_code p (checked chk atom) -> fits st (checked chk atom) -> runs p (p + nsize (checked chk atom)) st (adv d).
Proof.
  destruct chk eqn:Ec; cbn [checked]; intros Hc Hf.
  - pose proof (peak_nonneg atom). replace (p + nsize ([REOP_push_char_pos] ++ atom ++ [REOP_check_advance]))%nat with (p + 2 + nsize atom)%nat by (op_sizes; lia). apply checked_runs; [exact Hc|peaks; lia|]. intros v. apply Hruns; [exact (proj1 (at_code_app s _ _ _ (proj2 (at_code_app s _ _ _ Hc))))|peaks; lia].
  - apply (runs_ext s _ _ _ d); [intros x Hx; symmetry; exact (adv_unchecked Ec x Hx)|apply Hruns; assumption].
Qed.

Lemma checked_peak : 0 <= peak (checked chk atom) /\ drift (checked chk atom) = 0.
Proof. split; [apply peak_nonneg|apply checked_drift, Hdrift]. Qed.

Lemma tail_runs g p mn mx st t : tail_code g chk atom mn mx t -> 0 <= mn <= mx -> mx <= INT32_MAX -> at_code p t -> fits st t -> runs p (p + nsize t) st (upto d g (rounds s mn mx)).
Proof.
  intros Ht Hmn Hmx Hc Hf. destruct checked_peak as [Hp Hd]. pose proof (fun p st => body_runs p st) as Hb. unfold rounds, INT32_MAX in *. destruct Ht as [E1 E2|E1 E2|E1|E1 E2]; unfold INT32_MAX in *.
  - rewrite (proj2 (Z.eqb_neq _ _) E2). replace (Z.to_nat (mx - mn)) with 0%nat by lia. change (nsize []) with 0%nat. rewrite Nat.add_0_r. apply runs_id.
  - rewrite (proj2 (Z.eqb_neq _ _) E2). replace (Z.to_nat (mx - mn)) with 1%nat by lia. destruct (at_code_app s _ _ _ Hc) as [H1 H2]. op_sizes. rewrite Nat.add_assoc. apply (once_runs s Hsize p _ g _ st d Hc eq_refl). apply Hb; [exact H2|peaks; lia].
  - rewrite (proj2 (Z.eqb_eq _ _) E1). destruct (at_code_app s _ _ _ Hc) as [H1 H2]. destruct (at_code_app s _ _ _ H2) as [H3 _]. op_sizes. replace (p + (5 + (nsize (checked chk atom) + 5)))%nat with (p + 10 + nsize (checked chk atom))%nat by lia. apply (star_runs s Hsize bwd p _ g _ _ st d Hc); [reflexivity|rewrite code_size_nat; lia|exact Hsound|]. apply Hb; [exact H3|peaks; lia].
  - rewrite (proj2 (Z.eqb_neq _ _) E2). destruct (at_code_app s _ _ _ Hc) as [H1 H2]. destruct (at_code_app s _ _ _ H2) as [H3 _]. op_sizes. replace (p + (5 + 5 + (nsize (checked chk atom) + (5 + 1))))%nat with (p + 16 + nsize (checked chk atom))%nat by lia. replace (p + (5 + 5))%nat with (p + 10)%nat in H3 by lia.
    apply (repeat_runs s Hsize bwd p _ g _ _ _ st d Hc); [reflexivity|rewrite code_size_nat; lia|lia|peaks; lia|exact Hsound|]. intros n. apply Hb; [exact H3|peaks; lia].
Qed.

Lemma head_runs cc k mn p st h : head_code atom cc (cc + k) mn h -> 0 <= cc -> 0 <= k -> cc + k <= capture_count s -> 0 <= mn <= INT32_MAX -> at_code p h -> fits st h ->
  runs p (p + nsize h) st (fun x => times d (Z.to_nat mn) (restart mn cc k x)).
Proof.
  intros Hh Hcc Hk Hcap Hmn Hc Hf. unfold INT32_MAX in Hmn. remember (cc + k) as after eqn:Ea. destruct Hh as [E|E| |mn E].
  - change (nsize []) with 0%nat. rewrite Nat.add_0_r. refine (runs_ext s _ _ _ _ _ _ (runs_id s p st)). intros x _. rewrite restart_none by lia. reflexivity.
  - subst after. refine (runs_ext s _ _ _ _ _ _ (steps_runs s _ _ _ _ (reset_steps s p cc (cc + k - 1) st _ _ Hcount Hc))); [|lia|lia]. intros x _. unfold restart. change (0 =? 0) with true. cbv iota. rewrite (proj2 (Z.ltb_lt 0 k)) by lia. reflexivity.
  - refine (runs_ext s _ _ _ _ _ _ (Hruns p st Hc Hf)). intros x _. rewrite restart_none by lia. change (Z.to_nat 1) with 1%nat. rewrite times_one. reflexivity.
  - destruct (at_code_app s _ _ _ Hc) as [H1 H2]. destruct (at_code_app s _ _ _ H2) as [H3 _]. pose proof (peak_nonneg atom). op_sizes. replace (p + (5 + (nsize atom + (5 + 1))))%nat with (p + 11 + nsize atom)%nat by lia.
    refine (runs_ext s _ _ _ _ _ _ (times_runs s Hsize bwd p atom mn _ st d Hc _ _ _ Hsound _)); [intros x _; rewrite restart_none by lia; reflexivity|reflexivity|lia|peaks; lia|]. intros v. apply Hruns; [exact H3|peaks; lia].
Qed.

Lemma sound_head cc k mn : sound s bwd (fun x => times d (Z.to_nat mn) (restart mn cc k x)).
Proof.
  intros x y Hx Hy. destruct (restart_ok mn cc k x Hx) as [Hr E]. destruct (sound_times s bwd d (Z.to_nat mn) Hsound _ y Hr Hy) as [Hy' Hm]. split; [exact Hy'|]. unfold moves in *. rewrite E in Hm. exact Hm.
Qed.

Lemma quant_code_runs cc k mn mx g p st l : quant_code atom cc (cc + k) mn mx g l -> 0 <= cc -> 0 <= k -> cc + k <= capture_count s -> 0 <= mn <= mx -> mx <= INT32_MAX -> at_code p l -> fits st l ->
  (forall n, scan_simple atom = Some n -> 0 < n -> k = 0 /\ (at_code (p + 17) atom -> walks (p + 17) (p + 17 + nsize atom) st (Z.to_nat n) d)) ->
  runs p (p + nsize l) st (fun x => flat_map (upto d g (rounds s mn mx)) (times d (Z.to_nat mn) (restart mn cc k x))).
Proof.
  intros Hq Hcc Hk Hcap Hmn Hmx Hc Hf Hw. destruct Hq as [n En Hn Hpos Eg|E1 E2 Ec|h t Hh Ht]; [subst g|subst mn mx|].
  - rewrite re_is_simple_quantifier_ops in En by exact Hok. destruct (scan_simple atom) as [i|] eqn:Es; [|lia]. subst i. destruct (Hw n eq_refl Hn) as [-> Hw']. apply scan_simple_le in Es as Hle. pose proof (code_size_length atom). apply at_code_end in Hc as Hend. op_sizes. rewrite code_size_nat in *.
    replace (p + (17 + (nsize atom + 1)))%nat with (p + 18 + nsize atom)%nat by lia. refine (runs_ext s _ _ _ _ _ _ (quant_runs s Hsize p atom mn mx n st d Hc _ Hmn _ (Hw' (proj1 (at_code_app s _ _ _ (proj2 (at_code_app s _ _ _ Hc))))))); [intros x _; rewrite restart_none by lia; reflexivity|lia|lia].
  - destruct (at_code_app s _ _ _ Hc) as [H1 _]. op_sizes. replace (p + (nsize atom + 5))%nat with (p + 5 + nsize atom)%nat by lia. pose proof (peak_nonneg atom).
    refine (runs_ext s _ _ _ _ _ _ (plus_runs s Hsize bwd p atom g _ st d Hc _ Hsound _ (adv_unchecked Ec))); [|rewrite code_size_nat; lia|apply Hruns; [exact H1|peaks; lia]]. intros x _. rewrite restart_none by lia. change (Z.to_nat 1) with 1%nat. rewrite times_one. reflexivity.
  - destruct (at_code_app s _ _ _ Hc) as [H1 H2]. rewrite nsize_app, Nat.add_assoc. assert (Hdh : drift h = 0) by (destruct Hh; rewrite ?drift_app, ?Hdrift; reflexivity || exact Hdrift). pose proof (peak_nonneg h). pose proof (peak_nonneg t).
    assert (Hfh : fits st h /\ fits st t) by (unfold fits in *; rewrite peak_app in Hf; lia). destruct Hfh as [Hfh Hft]. apply (runs_seq s p (p + nsize h) _ st _ _ (sound_keeps s bwd _ (sound_head cc k mn))); [apply head_runs; try assumption; lia|apply tail_runs; assumption].
Qed.

End Quantifier.

(** Without rounds the atom does not matter. *)
Lemma quant_none_runs cc k atom g d p st l : quant_code atom cc (cc + k) 0 0 g l -> 0 <= cc -> 0 <= k -> cc + k <= capture_count s -> at_code p l -> fits st l ->
  runs p (p + nsize l) st (fun x => flat_map (upto d g (rounds s 0 0)) (times d (Z.to_nat 0) (restart 0 cc k x))).
Proof.
  intros Hq Hcc Hk Hcap Hc Hf. assert (Hq' : quant_code [] cc (cc + k) 0 0 g l).
  { destruct Hq as [n _ _ Hpos _|E|h t Hh Ht]; [lia|lia|]. apply quant_general; [inversion Hh; subst; try lia; constructor; assumption|]. inversion Ht; subst; try lia; try discriminate. apply tail_none; assumption. }
  refine (quant_code_runs true [] (fun x => [x]) _ eq_refl (sound_id s true) _ _ cc k 0 0 g p st l Hq' Hcc Hk Hcap _ _ Hc Hf _); try (unfold INT32_MAX; lia).
  - constructor.
  - intros p' st' _ _. change (nsize []) with 0%nat. rewrite Nat.add_0_r. apply runs_id.
  - discriminate.
  - intros n [= <-]. lia.
Qed.

(** ** Terms *)

(** The code of a term finds the matches of the term in their order. *)
Theorem emit_runs r : forall bwd cc p st, regex_ok (capture_count s) r = true -> 0 <= cc -> cc + groups r <= capture_count s -> at_code p (code bwd r cc) -> fits st (code bwd r cc) ->
  runs p (p + nsize (code bwd r cc)) st (den s bwd r cc).
Proof.
  induction r as [|op|op|ic k|a IHa b IHb|a IHa b IHb|a IHa|neg behind a IHa|a IHa mn mx g]; intros bwd cc p st Hok Hcc Hg Hc Hf; cbn [groups] in Hg; try pose proof (groups_nonneg a) as Ga; try pose proof (groups_nonneg b) as Gb.
  - change (nsize (code bwd REmpty cc)) with 0%nat. rewrite Nat.add_0_r. apply runs_id.
  - cbn [regex_ok] in Hok. unfold code in *. cbn [emit fst] in *. destruct bwd; [|exact (steps_runs s _ _ _ _ (char_steps s p op st Hok Hc))]. destruct (at_code_cons s _ _ _ Hc) as [H1 H2]. destruct (at_code_cons s _ _ _ H2) as [H3 H4]. change (nsize [REOP_prev]) with 1%nat in *.
    refine (runs_ext s _ _ _ _ _ (fun x Hx => char_back s op x Hx) _). rewrite !(nsize_cons _ (_ :: _)). change (nsize [REOP_prev]) with 1%nat. rewrite !Nat.add_assoc.
    pose proof (sound_keeps s true _ (sound_prev s)) as Kp. pose proof (sound_keeps s false _ (sound_char s false op)) as Kc.
    apply (runs_seq s p (p + 1 + nsize [op]) _ st _ _ (keeps_seq s _ _ Kp Kc)); [|exact (steps_runs s _ _ _ _ (prev_steps s _ st H4))]. exact (runs_seq s p (p + 1) _ st _ _ Kp (steps_runs s _ _ _ _ (prev_steps s p st H1)) (steps_runs s _ _ _ _ (char_steps s _ op st Hok H3))).
  - cbn [regex_ok] in Hok. exact (steps_runs s _ _ _ _ (assert_steps s p op st Hok Hc)).
  - cbn [regex_ok] in Hok. apply andb_prop in Hok as [H1 H2]. apply Z.leb_le in H1. apply Z.ltb_lt in H2. exact (steps_runs s _ _ _ _ (backref_steps s p bwd ic k st ltac:(lia) Hcount Hc)).
  - cbn [regex_ok] in Hok. apply andb_prop in Hok as [Ha Hb]. rewrite code_cat in *. cbn [den]. pose proof (code_drift s a bwd cc Ha) as Da. pose proof (code_drift s b bwd (cc + groups a) Hb) as Db. pose proof (sound_keeps s bwd _ (den_sound s a bwd cc)) as Ka. pose proof (sound_keeps s bwd _ (den_sound s b bwd (cc + groups a))) as Kb.
    destruct bwd; destruct (at_code_app s _ _ _ Hc) as [H1 H2]; rewrite nsize_app, Nat.add_assoc; unfold fits in *; rewrite peak_app in Hf; [apply (runs_seq s p _ _ st _ _ Kb (IHb true (cc + groups a) p st Hb ltac:(lia) ltac:(lia) H1 ltac:(lia)) (IHa true cc _ st Ha ltac:(lia) ltac:(lia) H2 ltac:(lia)))|apply (runs_seq s p _ _ st _ _ Ka (IHa false cc p st Ha ltac:(lia) ltac:(lia) H1 ltac:(lia)) (IHb false (cc + groups a) _ st Hb ltac:(lia) ltac:(lia) H2 ltac:(lia)))].
  - cbn [regex_ok] in Hok. apply andb_prop in Hok as [Ha Hb]. rewrite code_alt in *. pose proof (code_drift s a bwd cc Ha) as Da. pose proof (code_drift s b bwd (cc + groups a) Hb) as Db. pose proof (peak_nonneg (code bwd a cc)) as Pa. pose proof (peak_nonneg (code bwd b (cc + groups a))) as Pb.
    destruct (at_code_app s _ _ _ Hc) as [_ H2]. destruct (at_code_app s _ _ _ H2) as [H3 H4]. destruct (at_code_app s _ _ _ H4) as [_ H5]. op_sizes. replace (p + (5 + (nsize (code bwd a cc) + (5 + nsize (code bwd b (cc + groups a))))))%nat with (p + 10 + nsize (code bwd a cc) + nsize (code bwd b (cc + groups a)))%nat by lia. replace (p + 5 + nsize (code bwd a cc) + 5)%nat with (p + 10 + nsize (code bwd a cc))%nat in H5 by lia.
    apply (alt_runs s Hsize p _ _ st _ _ Hc); [apply IHa; try assumption; try lia; peaks; lia|apply IHb; try assumption; try lia; peaks; lia].
  - cbn [regex_ok] in Hok. rewrite code_group in *. pose proof (code_drift s a bwd (cc + 1) Hok) as Da. pose proof (peak_nonneg (code bwd a (cc + 1))) as Pa. destruct (at_code_app s _ _ _ Hc) as [H1 H2]. destruct (at_code_app s _ _ _ H2) as [H3 H4]. op_sizes. replace (p + (2 + (nsize (code bwd a (cc + 1)) + 2)))%nat with (p + 2 + nsize (code bwd a (cc + 1)) + 2)%nat by lia.
    pose proof (steps_runs s _ _ _ _ (save_steps s p bwd cc st ltac:(lia) Hcount H1)) as R1. pose proof (IHa bwd (cc + 1) _ st Hok ltac:(lia) ltac:(lia) H3 ltac:(peaks; lia)) as R2. pose proof (steps_runs s _ _ _ _ (save_steps s _ (negb bwd) cc st ltac:(lia) Hcount H4)) as R3.
    assert (K1 : keeps s (fun x => [set_capture x (2 * cc + c_bool bwd)])) by (intros x y Hx Hy; apply list_elem_of_singleton in Hy as ->; apply thread_set, Hx).
    pose proof (runs_seq s _ _ _ st _ _ (keeps_seq s _ _ K1 (sound_keeps s bwd _ (den_sound s a bwd (cc + 1)))) (runs_seq s _ _ _ st _ _ K1 R1 R2) R3) as R. refine (runs_ext s _ _ _ _ _ _ R). intros x _. cbn [flat_map den]. rewrite app_nil_r. induction (den s bwd a (cc + 1) _) as [|y l IH]; [reflexivity|]. cbn [flat_map map app]. rewrite IH. reflexivity.
  - cbn [regex_ok] in Hok. rewrite code_look in *. pose proof (peak_nonneg (code behind a cc)) as Pa. destruct (at_code_app s _ _ _ Hc) as [_ H2]. destruct (at_code_app s _ _ _ H2) as [H3 _]. op_sizes. replace (p + (5 + (nsize (code behind a cc) + 1)))%nat with (p + 6 + nsize (code behind a cc))%nat by lia.
    apply (look_runs s Hsize p neg _ st _ Hc). apply IHa; try assumption. pose proof (code_drift s a behind cc Hok). peaks. lia.
  - destruct (quant_ok_inv _ _ _ _ _ Hok) as (Ha & Hmn & Hmx). rewrite code_quant in *. pose proof (emit_quantifier_shape (code bwd a cc) cc (cc + groups a) mn mx g Hmn Hmx) as Hq. set (l := emit_quantifier _ _ _ _ _ _) in *.
    destruct (quant_atom _ _ _ _ _ _ _ Hq Hmn) as [[-> ->]|Hle].
    + exact (quant_none_runs cc (groups a) _ g _ p st l Hq Hcc Ga Hg Hc Hf).
    + assert (Hops : Forall op_ok (code bwd a cc)) by (apply (code_ops_ok s Hcount); try assumption; pose proof (at_code_size _ _ Hc); lia).
      apply (quant_code_runs bwd (code bwd a cc) (den s bwd a cc) Hops (code_drift s a bwd cc Ha) (den_sound s a bwd cc)) with (mn := mn) (mx := mx); try assumption.
      * intros p' st' Hc' Hf'. apply IHa; assumption.
      * exact (code_advances a bwd cc Ha).
      * intros n En Hn. destruct (code_simple a bwd cc n Ha En) as [Gz Hw]. split; [exact Gz|]. apply Hw.
Qed.

End Runs.
