(* ===== verification/LreTheorems.v ===== *)
(** Theorems about regular expressions: what [lre_exec] gives for a compiled
    expression. *)
From Stdlib Require Import ZArith Lia.
From S2P Require Import Prelude Cutils LreExec LreSpecs LreDen LreCode LreSteps LreLoops LreMatch.
From stdpp Require Import base tactics numbers option list.

Open Scope Z_scope.

Section Find.
Context `{LH : LreHost} (s : program) (r : regex) (sticky : bool).
Hypothesis Hbuf : bc_buf s = assemble (re_code sticky r).
Hypothesis Hsize : Z.of_nat (length (bc_buf s)) < 2 ^ 31.
Hypothesis Hcap : capture_count s = 1 + groups r.
Hypothesis Hcount : capture_count s <= 256.
Hypothesis Hok : regex_ok (capture_count s) r = true.
Hypothesis Hstack : peak (re_code sticky r) <= Z.of_nat (stack_size_max s).

Notation conf := LreSteps.conf.
Notation at_code := (LreSteps.at_code s).

(** The code of the expression between the two [REOP_save]. *)
Definition core_code : list reop := [REOP_save false 0] ++ code false r 1 ++ [REOP_save true 0].
Definition core_den (x : thread) : list thread := map (fun y => set_capture y 1) (den s false r 1 (set_capture x 0)).

Lemma re_code_core : re_code sticky r = (if sticky then [] else [REOP_split false 6; REOP_any; REOP_goto (-11)]) ++ core_code ++ [REOP_match].
Proof. unfold re_code, core_code. rewrite <- !app_assoc. reflexivity. Qed.

Definition core_start : nat := if sticky then 0 else 11.

Lemma code_parts : (sticky = false -> at_code 0 ([REOP_split false 6; REOP_any; REOP_goto (-11)])) /\ at_code core_start core_code /\ at_code (core_start + nsize core_code) [REOP_match].
Proof.
  assert (Hc : at_code 0 (re_code sticky r)) by (exists [], []; rewrite app_nil_r; auto). rewrite re_code_core in Hc. destruct (at_code_app s _ _ _ Hc) as [H1 H2]. destruct (at_code_app s _ _ _ H2) as [H3 H4]. unfold core_start. destruct sticky; (split; [intros E; try discriminate; exact H1|split; [exact H3|exact H4]]).
Qed.

Lemma core_runs : runs s core_start (core_start + nsize core_code) [] core_den.
Proof.
  destruct code_parts as (_ & Hc & _). unfold core_code in Hc. destruct (at_code_app s _ _ _ Hc) as [H1 H2]. destruct (at_code_app s _ _ _ H2) as [H3 H4]. change (nsize [REOP_save false 0]) with 2%nat in *. pose proof (groups_nonneg r) as Hg.
  assert (Hf : fits s [] (code false r 1)). { rewrite re_code_core in Hstack. unfold core_code in Hstack. pose proof (code_drift s r false 1 Hok). pose proof (peak_nonneg (code false r 1)). unfold fits. rewrite !peak_app, !drift_app in Hstack. destruct sticky; cbn [peak drift op_push length] in *; lia. }
  pose proof (steps_runs s _ _ _ _ (save_steps s core_start false 0 [] ltac:(lia) Hcount H1)) as R1. pose proof (emit_runs s Hsize Hcount r false 1 _ [] Hok ltac:(lia) ltac:(lia) H3 Hf) as R2. pose proof (steps_runs s _ _ _ _ (save_steps s _ true 0 [] ltac:(lia) Hcount H4)) as R3.
  assert (K1 : keeps s (fun x => [set_capture x (2 * 0 + c_bool false)])) by (intros x y Hx Hy; apply list_elem_of_singleton in Hy as ->; apply thread_set, Hx).
  pose proof (runs_seq s _ _ _ [] _ _ (keeps_seq s _ _ K1 (sound_keeps s false _ (den_sound s r false 1))) (runs_seq s _ _ _ [] _ _ K1 R1 R2) R3) as R.
  replace (core_start + nsize core_code)%nat with (core_start + 2 + nsize (code false r 1) + 2)%nat by (unfold core_code; rewrite !nsize_app; change (nsize [REOP_save false 0]) with 2%nat; change (nsize [REOP_save true 0]) with 2%nat; lia).
  refine (runs_ext s _ _ _ _ _ _ R). intros x _. cbn [flat_map]. rewrite app_nil_r. unfold core_den. change (2 * 0 + c_bool false) with 0. change (2 * 0 + c_bool true) with 1. induction (den s false r 1 (set_capture x 0)) as [|y l IH]; [reflexivity|]. cbn [flat_map map app]. rewrite IH. reflexivity.
Qed.

(** The search from a position on. *)
Lemma search_runs fuel : forall x o, thread_ok s x -> (room s false x <= fuel)%nat -> first (fun y => eval s (conf (core_start + nsize core_code) y [])) (search s fuel r sticky x) o -> eval s (conf 0 x []) o.
Proof.
  destruct code_parts as (Hpre & _ & _). pose proof core_runs as Hcore. unfold core_start in *. destruct sticky eqn:Es.
  - intros x o Hx _ Hf. apply Hcore; [exact Hx|]. unfold core_den. destruct fuel; cbn [search] in Hf; rewrite app_nil_r in Hf; exact Hf.
  - specialize (Hpre eq_refl). destruct (at_code_cons s _ _ _ Hpre) as [H1 H2]. destruct (at_code_cons s _ _ _ H2) as [H3 H4]. change (nsize [REOP_split false 6]) with 5%nat in *. change (nsize [REOP_any]) with 1%nat in *. change (0 + 5)%nat with 5%nat in *. change (5 + 1)%nat with 6%nat in *.
    apply at_code_end in Hpre as Hend. change (nsize [REOP_split false 6; REOP_any; REOP_goto (-11)]) with 11%nat in Hend. pose proof (char_steps s 5 REOP_any [] eq_refl H3) as Hany. change (5 + nsize [REOP_any])%nat with 6%nat in Hany.
    assert (Ha : forall x : thread, char_den s false REOP_any x = match char_after s x.1 with Some (_, p) => [(p, x.2)] | None => [] end) by (intros x; unfold char_den, char_after; cbn [char_test]; destruct (if (cbuf_end s <=? x.1)%nat then None else _) as [[c p]|]; reflexivity).
    induction fuel as [|fuel IH]; intros x o Hx Hr Hf; cbn [search] in Hf; (eapply (eval_choice s Hsize 0 11 6 false x [] _ _ o H1); [lia|lia|exact Hf| |intros o' Hf'; apply Hcore; [exact Hx|exact Hf']]); intros o' Hf'; apply (steps_runs s _ _ _ _ Hany x o' Hx); rewrite Ha.
    + inversion Hf'; subst. unfold char_after. cbn [room] in Hr. rewrite (proj2 (Nat.leb_le _ _)) by (unfold cbuf_end; lia). constructor.
    + unfold char_after in *. destruct (Nat.leb_spec (cbuf_end s) x.1) as [|Hl]; [inversion Hf'; subst; constructor|]. destruct (get_char_boundary s x.1 (thread_pos _ _ Hx) Hl) as (c & p & E & Hp & Hlt & _). rewrite E in *.
      assert (He : eval s (conf 6 (p, x.2) []) o') by (apply (eval_poll _ _ _ _ (goto_step s Hsize 6 0 (-11) _ [] H4 ltac:(lia) ltac:(lia))); apply IH; [apply thread_at; assumption|cbn [room fst] in *; lia|exact Hf']).
      destruct o'; [apply first_hit, He|apply first_miss; [exact He|constructor]].
Qed.

(** The outcome of the search. *)
Lemma search_eval x : thread_ok s x -> eval s (conf 0 x []) (match search s (length (cbuf s)) r sticky x with [] => None | y :: _ => Some (conf (core_start + nsize core_code) y []) end).
Proof.
  intros Hx. destruct code_parts as (_ & _ & Hm). apply (search_runs (length (cbuf s))); [exact Hx|cbn [room]; lia|]. destruct (search s (length (cbuf s)) r sticky x) as [|y l]; [constructor|]. apply first_hit, eval_match, match_step, Hm.
Qed.

End Find.

Section Machine.
Context `{LH : LreHost}.

Lemma start_context_ok : ctx_ok start_context.
Proof. split; [cbn; lia|left; reflexivity]. Qed.

(** The machine at [recurse] without states left. *)
Lemma ends_done s k o : ends s k [] o ->
  exists fuel res x c, run s fuel k = Done res x c /\ (host_stop res \/ (res = (if hit o then LRE_RET_MATCH else LRE_RET_NO_MATCH) /\ forall z, o = Some z -> c = z)).
Proof.
  intros [(fuel & res & x & c & E & Hs)|(x & z & Hx & Es & Hz & Hl)]; [exists fuel, res, x, c; auto|]. destruct (poll_spec x Hx) as (_ & E1 & Hstop).
  assert (H1 : exists res x' c, run s 1 (CRecurse x (hit o) z) = Done res x' c /\ (host_stop res \/ (res = (if hit o then LRE_RET_MATCH else LRE_RET_NO_MATCH) /\ forall z, o = Some z -> c = z))).
  { cbn [run round]. destruct (lre_poll_timeout x).2; [eexists _, _, _; split; [reflexivity|left; apply Hstop; reflexivity]|]. unfold recurse_round. rewrite E1, Es. eexists _, _, _. split; [reflexivity|]. right. split; [destruct (hit o); reflexivity|exact Hz]. }
  destruct H1 as (res & x' & c & E & Hr). destruct (Hl 1%nat) as (fuel & Ef); [congruence|]. exists fuel, res, x', c. split; [congruence|exact Hr].
Qed.

Lemma run_done_le s fuel fuel' k res x c : (fuel <= fuel')%nat -> run s fuel k = Done res x c -> run s fuel' k = Done res x c.
Proof. intros Hle E. rewrite (run_le s fuel fuel' k Hle); [exact E|congruence]. Qed.

Lemma run_done_unique s fuel fuel' k res x c out : run s fuel k = Done res x c -> run s fuel' k = out -> out <> Fuel -> out = Done res x c.
Proof.
  intros E E' Hn. destruct (Nat.le_ge_cases fuel fuel') as [Hle|Hle]; [rewrite (run_done_le _ _ _ _ _ _ _ Hle E) in E'; congruence|]. rewrite <- E'. rewrite <- (run_le s fuel' fuel k Hle) by congruence. exact E.
Qed.

End Machine.

(** ** The compiled expression *)

Section Compiled.
Context `{LH : LreHost} (re_flags : Z) (r : regex) (bc chars : list Z) (cindex : nat) (ty : Z).
Notation sticky := (is_sticky re_flags).
Hypothesis Hcompile : lre_compile re_flags r = Some bc.
Hypothesis Hok : regex_ok (1 + groups r) r = true.
Hypothesis Hgroups : groups r < 255.
Hypothesis Hlen : Z.of_nat (length bc) < 2 ^ 31.
Hypothesis Hindex : (cindex <= length chars)%nat.

Lemma ops_ok_re_code : code_size (re_code sticky r) < 2 ^ 31 -> Forall op_ok (re_code sticky r).
Proof.
  clear Hcompile Hlen Hindex. intros Hs. pose proof (groups_nonneg r). unfold re_code in *. rewrite !code_size_app in Hs. pose proof (code_size_nonneg (if sticky then [] else [REOP_split false 6; REOP_any; REOP_goto (-11)])). pose proof (code_size_nonneg [REOP_save false 0]). pose proof (code_size_nonneg [REOP_save true 0; REOP_match]).
  repeat (apply Forall_app; split); [destruct sticky; repeat constructor|repeat constructor; lia| |repeat constructor; lia].
  apply (code_ops_ok (MkProgram [] [] 0 (1 + groups r) 0 false)); cbn; try lia; try assumption. change (code_size (code false r 1) < 2 ^ 31). unfold code. lia.
Qed.

Lemma compiled_context : exists s, exec_context bc chars ty = Some s /\ bc_buf s = assemble (re_code sticky r) /\ cbuf s = chars /\ capture_count s = 1 + groups r /\ Z.of_nat (length (bc_buf s)) < 2 ^ 31 /\ peak (re_code sticky r) <= Z.of_nat (stack_size_max s).
Proof.
  pose proof Hcompile as Hcp. unfold lre_compile in Hcp. destruct (compute_stack_size (assemble (re_code sticky r))) as [n|] eqn:En; [|discriminate]. cbn [mbind option_bind] in Hcp. destruct (Z.ltb_spec n 0) as [|Hn]; [discriminate|]. injection Hcp as Hbc. pose proof (groups_nonneg r) as Hg.
  set (cd := assemble (re_code sticky r)) in *. assert (Hl : length bc = (8 + length cd)%nat) by (rewrite <- Hbc; reflexivity).
  destruct (compute_stack_size_ops (re_code sticky r) n) as [-> Hmax]; [apply ops_ok_re_code; unfold code_size, len; fold cd; lia|exact En|exact Hn|]. unfold STACK_SIZE_MAX in Hmax.
  assert (H0 : code_at bc 0 (le_bytes 2 re_flags ++ [(emit false r 1).2; peak (re_code sticky r)] ++ le_bytes 4 (len cd) ++ cd)) by (exists [], []; rewrite app_nil_r; split; [rewrite <- Hbc|]; reflexivity).
  assert (H2 : code_at bc 2 ([(emit false r 1).2; peak (re_code sticky r)] ++ le_bytes 4 (len cd) ++ cd)) by exact (code_at_right _ _ _ _ H0).
  pose proof (emit_count false r 1) as Ec. change (code_at bc 2 ((emit false r 1).2 :: peak (re_code sticky r) :: le_bytes 4 (len cd) ++ cd)) in H2. rewrite Ec in H2.
  unfold exec_context, get_u16_at. rewrite (code_bytes _ _ _ _ (code_at_left _ _ _ _ H0)). cbn [mbind option_bind]. rewrite (code_opcode _ _ _ _ H2) by lia. cbn [mbind option_bind]. pose proof (code_tail _ _ _ _ H2) as H3. rewrite (code_opcode _ _ _ _ H3) by lia. cbn [mbind option_bind].
  assert (Hd : drop RE_HEADER_LEN bc = cd) by (rewrite <- Hbc; reflexivity). rewrite Hd.
  eexists. split; [reflexivity|]. cbn [bc_buf cbuf capture_count stack_size_max]. repeat split; lia.
Qed.

Lemma start_boundary s : cbuf s = chars -> exists p, start_position s cindex = Some p /\ boundary s p /\ (p <= cindex)%nat.
Proof.
  intros Hc. unfold start_position. assert (Hplain : (forall q c d, cindex = S q -> cbuf s !! q = Some c -> cbuf s !! cindex = Some d -> cbuf_type s = 2 -> is_hi_surrogate c = true -> is_lo_surrogate d = true -> False) -> boundary s cindex) by (intros H; split; [rewrite Hc; exact Hindex|intros H2 q c d Eq E1 E2 Hh Hl; exact (H q c d Eq E1 E2 H2 Hh Hl)]).
  destruct ((0 <? cindex)%nat && (cindex <? cbuf_end s)%nat && (cbuf_type s =? 2)) eqn:E.
  - apply andb_prop in E as [E E2]. apply andb_prop in E as [E0 E1]. apply Nat.ltb_lt in E0, E1. unfold cbuf_end in E1. destruct cindex as [|q]; [lia|]. cbn [pred]. destruct (lookup_lt_is_Some_2 (cbuf s) (S q) ltac:(lia)) as [c Ec]. destruct (lookup_lt_is_Some_2 (cbuf s) q ltac:(lia)) as [d Ed]. rewrite Ec, Ed. cbn [mbind option_bind].
    destruct (is_lo_surrogate c && is_hi_surrogate d) eqn:Es.
    + apply andb_prop in Es as [_ Hd]. exists q. split; [reflexivity|]. split; [|lia]. split; [lia|]. intros _ q' c' d' Eq E3 E4 _ Hl. rewrite Ed in E4. injection E4 as <-. rewrite (hi_not_lo d Hd) in Hl. discriminate.
    + exists (S q). split; [reflexivity|]. split; [|lia]. apply Hplain. intros q' c' d' Eq E3 E4 _ Hh Hl. injection Eq as <-. rewrite Ec in E4. rewrite Ed in E3. injection E4 as <-. injection E3 as <-. rewrite Hh, Hl in Es. discriminate.
  - exists cindex. split; [reflexivity|]. split; [|lia]. apply Hplain. intros q c d Eq E1 E2 H2 _ _. rewrite H2 in E. apply lookup_lt_Some in E2. rewrite (proj2 (Nat.ltb_lt 0 cindex)), (proj2 (Nat.ltb_lt cindex _)) in E by (unfold cbuf_end; lia). discriminate.
Qed.

Lemma start_thread s p : capture_count s = 1 + groups r -> boundary s p -> thread_ok s (p, replicate (Z.to_nat (2 * capture_count s)) None).
Proof.
  intros Hc Hp. pose proof (groups_nonneg r). split; [exact Hp|cbn [snd]; rewrite length_replicate; lia|]. intros i q E. cbn [snd] in E. apply lookup_replicate in E as [E _]. discriminate.
Qed.

(** The result for the list of the matches. *)
Definition lre_result (out : outcome) (l : list thread) : Prop :=
  match out with
  | Done LRE_RET_MATCH _ c => head l = Some (cptr c, capture c)
  | Done LRE_RET_NO_MATCH _ _ => l = []
  | Done res _ _ => host_stop res
  | _ => False
  end.

Lemma lre_exec_runs : exists s p fuel, exec_context bc chars ty = Some s /\ cbuf s = chars /\ capture_count s = 1 + groups r /\ start_position s cindex = Some p /\ (p <= cindex)%nat /\
  thread_ok s (p, replicate (Z.to_nat (2 * capture_count s)) None) /\
  forall fuel', (fuel <= fuel')%nat -> lre_exec fuel' bc chars cindex ty = lre_exec fuel bc chars cindex ty /\ lre_result (lre_exec fuel bc chars cindex ty) (search s (length chars) r sticky (p, replicate (Z.to_nat (2 * capture_count s)) None)).
Proof.
  destruct compiled_context as (s & Es & Hb & Hc & Hcap & Hsz & Hst). destruct (start_boundary s Hc) as (p & Ep & Hp & Hle). pose proof (start_thread s p Hcap Hp) as Hx. set (x := (p, replicate (Z.to_nat (2 * capture_count s)) None)) in *.
  assert (Ecap : capture_count s <= 256) by lia. assert (Hok' : regex_ok (capture_count s) r = true) by (rewrite Hcap; exact Hok).
  pose proof (search_eval s r sticky Hb Hsz Hcap Ecap Hok' Hst x Hx) as He. apply (eval_run s) with (x := start_context) in He; [|apply start_context_ok]. cbn [start_context state_stack] in He. destruct (ends_done s _ _ He) as (fuel & res & cx & c & E & Hr).
  assert (Hrun : forall fuel', (fuel <= fuel')%nat -> lre_exec fuel' bc chars cindex ty = Done res cx c). { intros fuel' Hf. unfold lre_exec. rewrite Es. cbn [mbind option_bind]. rewrite Ep. cbn [mbind option_bind]. exact (run_done_le s _ _ _ _ _ _ Hf E). }
  exists s, p, fuel. repeat (split; [assumption|]). intros fuel' Hf. rewrite (Hrun fuel' Hf), (Hrun fuel (Nat.le_refl _)). split; [reflexivity|]. fold x. rewrite Hc in Hr. destruct Hr as [Hs|[-> Hr]].
  - destruct Hs as [[-> Hs]|[-> Hs]]; cbn [lre_result]; [left|right]; auto.
  - destruct (search s (length chars) r sticky x) as [|y l]; cbn [hit lre_result]; [reflexivity|]. rewrite (Hr _ eq_refl). cbn. destruct y; reflexivity.
Qed.

End Compiled.

(** ** Captures *)

Section Captures.
Context `{LH : LreHost} (s : program).

(** The captures before [cc] are the same. *)
Definition frame (cc : Z) (x y : thread) : Prop := forall i, Z.of_nat i < 2 * cc -> y.2 !! i = x.2 !! i.

Definition frames (cc : Z) (d : thread -> list thread) : Prop := forall x y, y ∈ d x -> frame cc x y.

Lemma frames_id cc : frames cc (fun x => [x]).
Proof. intros x y Hy i _. apply list_elem_of_singleton in Hy as ->. reflexivity. Qed.

Lemma frames_seq cc d e : frames cc d -> frames cc e -> frames cc (fun x => flat_map e (d x)).
Proof. intros Hd He x y Hy i Hi. apply elem_of_flat_map in Hy as (z & Hz & Hy). rewrite (He z y Hy i Hi). exact (Hd x z Hz i Hi). Qed.

Lemma frames_times cc d n : frames cc d -> frames cc (times d n).
Proof. intros Hd. induction n as [|n IH]; [apply frames_id|exact (frames_seq cc d (times d n) Hd IH)]. Qed.

Lemma frames_upto cc d g n : frames cc d -> frames cc (upto d g n).
Proof.
  intros Hd. induction n as [|n IH]; [apply frames_id|]. assert (Ha : frames cc (adv d)) by (intros x y Hy; apply adv_in in Hy as [Hy _]; exact (Hd x y Hy)).
  intros x y Hy. rewrite upto_adv in Hy. destruct g; apply elem_of_app in Hy as [Hy|Hy]; first [exact (frames_seq cc (adv d) _ Ha IH x y Hy)|exact (frames_id cc x y Hy)].
Qed.

Lemma captures_set cc x n e : cc <= n -> 0 <= n -> frame cc x (set_capture x (2 * n + c_bool e)).
Proof. intros Hn H0 i Hi. cbn [set_capture snd]. apply list_lookup_insert_ne. destruct e; cbn; lia. Qed.

Lemma frame_reset cc x b : frame cc x (x.1, reset_captures x.2 cc b).
Proof.
  intros i Hi. cbn [snd]. unfold reset_captures. rewrite list_lookup_imap. destruct (x.2 !! i); [|reflexivity]. cbn. rewrite (proj2 (Z.leb_gt _ _)) by lia. reflexivity.
Qed.

Lemma captures_weaken cc cc' x y : cc <= cc' -> frame cc' x y -> frame cc x y.
Proof. intros Hle H i Hi. apply H. lia. Qed.

(** A term sets only its own captures. *)
Lemma den_frames r : forall bwd cc, 0 <= cc -> frames cc (den s bwd r cc).
Proof.
  induction r as [|op|op|ic n|a IHa b IHb|a IHa b IHb|a IHa|neg behind a IHa|a IHa mn mx g]; intros bwd cc Hcc; cbn [den]; try pose proof (groups_nonneg a) as Ga.
  - apply frames_id.
  - intros x y Hy. unfold char_den in Hy. destruct bwd; [destruct (if Nat.eqb x.1 0 then None else _) as [[c p]|]|destruct (if (cbuf_end s <=? x.1)%nat then None else _) as [[c p]|]]; try (inversion Hy; fail); (destruct (char_test s op c); [|inversion Hy]); apply list_elem_of_singleton in Hy as ->; intros i _; reflexivity.
  - intros x y Hy. destruct (assert_test s op x.1); [apply (frames_id cc x y Hy)|inversion Hy].
  - intros x y Hy. unfold backref_den in Hy. destruct (capture_at x.2 (2 * n)); [|apply (frames_id cc x y Hy)]. destruct (capture_at x.2 (2 * n + 1)); [|apply (frames_id cc x y Hy)]. destruct (if bwd then _ else _) as [[p|]|]; try (inversion Hy; fail). apply list_elem_of_singleton in Hy as ->. intros i _. reflexivity.
  - assert (Hb : frames cc (den s bwd b (cc + groups a))) by (intros x y Hy; apply (captures_weaken cc (cc + groups a)); [lia|exact (IHb bwd (cc + groups a) ltac:(lia) x y Hy)]). destruct bwd; [exact (frames_seq cc _ _ Hb (IHa true cc Hcc))|exact (frames_seq cc _ _ (IHa false cc Hcc) Hb)].
  - intros x y Hy. apply elem_of_app in Hy as [Hy|Hy]; [exact (IHa bwd cc Hcc x y Hy)|apply (captures_weaken cc (cc + groups a)); [lia|exact (IHb bwd (cc + groups a) ltac:(lia) x y Hy)]].
  - intros x y Hy. apply list_elem_of_fmap in Hy as (z & -> & Hz). intros i Hi. rewrite (captures_set cc z cc (negb bwd) ltac:(lia) Hcc i Hi). rewrite (IHa bwd (cc + 1) ltac:(lia) _ z Hz i ltac:(lia)). exact (captures_set cc x cc bwd ltac:(lia) Hcc i Hi).
  - intros x y Hy. destruct (den s behind a cc x) as [|z l] eqn:E; destruct neg; try (inversion Hy; fail); [apply (frames_id cc x y Hy)|]. apply list_elem_of_singleton in Hy as ->. intros i Hi. exact (IHa behind cc Hcc x z ltac:(rewrite E; left) i Hi).
  - intros x y Hy i Hi. rewrite (frames_seq cc _ _ (frames_times cc _ (Z.to_nat mn) (IHa bwd cc Hcc)) (frames_upto cc _ g (rounds s mn mx) (IHa bwd cc Hcc)) _ y Hy i Hi). destruct (mn =? 0); [|reflexivity]. cbn [snd]. destruct (0 <? groups a); [exact (frame_reset cc x _ i Hi)|reflexivity].
Qed.

(** A match of the whole expression: its first two captures are its bounds. *)
Lemma search_sound fuel r sticky x y : thread_ok s x -> 0 < capture_count s -> y ∈ search s fuel r sticky x ->
  thread_ok s y /\ exists a, (x.1 <= a)%nat /\ (sticky = true -> a = x.1) /\ y.2 !! 0%nat = Some (Some a) /\ y.2 !! 1%nat = Some (Some y.1) /\ (a <= y.1)%nat.
Proof.
  intros Hx Hcap. assert (Hcore : forall x, thread_ok s x -> y ∈ map (fun y => set_capture y 1) (den s false r 1 (set_capture x 0)) -> thread_ok s y /\ y.2 !! 0%nat = Some (Some x.1) /\ y.2 !! 1%nat = Some (Some y.1) /\ (x.1 <= y.1)%nat).
  { clear x Hx. intros x Hx Hy. apply list_elem_of_fmap in Hy as (z & -> & Hz). destruct (den_sound s r false 1 _ z (thread_set s x 0 Hx) Hz) as [Hz' Hm]. split; [apply thread_set, Hz'|]. pose proof (thread_captures _ _ Hx). pose proof (thread_captures _ _ Hz'). cbn [set_capture snd fst]. split; [|split; [apply list_lookup_insert_eq; change (Z.to_nat 1) with 1%nat; lia|exact Hm]].
    rewrite list_lookup_insert_ne by (change (Z.to_nat 1) with 1%nat; lia). rewrite (den_frames r false 1 ltac:(lia) _ z Hz 0%nat ltac:(lia)). cbn [set_capture snd]. change (Z.to_nat 0) with 0%nat. apply list_lookup_insert_eq. lia. }
  revert x Hx. induction fuel as [|fuel IH]; intros x Hx Hy; cbn [search] in Hy; apply elem_of_app in Hy as [Hy|Hy]; try (destruct (Hcore x Hx Hy) as (H1 & H2 & H3 & H4); split; [exact H1|]; exists x.1; auto; fail); [inversion Hy|].
  destruct sticky; [inversion Hy|]. unfold char_after in Hy. destruct (Nat.leb_spec (cbuf_end s) x.1) as [|Hl]; [inversion Hy|]. destruct (get_char_boundary s x.1 (thread_pos _ _ Hx) Hl) as (c & p & E & Hp & Hlt & _). rewrite E in Hy.
  destruct (IH (p, x.2) (thread_at s x p Hx Hp) Hy) as (H1 & a & H2 & _ & H3). split; [exact H1|]. exists a. cbn [fst] in H2. split; [lia|]. split; [discriminate|exact H3].
Qed.

(** A group has matched or not, with both its captures, and its end is not before its
    start. *)
Definition pair_ok (l : list (option nat)) (n : nat) : Prop :=
  match l !! (2 * n)%nat, l !! S (2 * n) with
  | Some (Some a), Some (Some b) => (a <= b)%nat
  | Some None, Some None => True
  | _, _ => False
  end.

Definition ordered (n : nat) (x : thread) : Prop := thread_ok s x /\ pair_ok x.2 n.

Definition preserves (n : nat) (d : thread -> list thread) : Prop := forall x y, ordered n x -> y ∈ d x -> ordered n y.

Lemma preserves_id n : preserves n (fun x => [x]).
Proof. intros x y Hx Hy. apply list_elem_of_singleton in Hy as ->. exact Hx. Qed.

Lemma preserves_seq n d e : preserves n d -> preserves n e -> preserves n (fun x => flat_map e (d x)).
Proof. intros Hd He x y Hx Hy. apply elem_of_flat_map in Hy as (z & Hz & Hy). exact (He z y (Hd x z Hx Hz) Hy). Qed.

Lemma preserves_times n d k : preserves n d -> preserves n (times d k).
Proof. intros Hd. induction k as [|k IH]; [apply preserves_id|exact (preserves_seq n d (times d k) Hd IH)]. Qed.

Lemma preserves_upto n d g k : preserves n d -> preserves n (upto d g k).
Proof.
  intros Hd. induction k as [|k IH]; [apply preserves_id|]. assert (Ha : preserves n (adv d)) by (intros x y Hx Hy; apply adv_in in Hy as [Hy _]; exact (Hd x y Hx Hy)).
  intros x y Hx Hy. rewrite upto_adv in Hy. destruct g; apply elem_of_app in Hy as [Hy|Hy]; first [exact (preserves_seq n (adv d) _ Ha IH x y Hx Hy)|exact (preserves_id n x y Hx Hy)].
Qed.

(** A term that leaves the captures alone. *)
Lemma preserves_same n bwd d : sound s bwd d -> (forall x y, y ∈ d x -> y.2 = x.2) -> preserves n d.
Proof. intros Hd Hs x y [Hx Hn] Hy. split; [exact (proj1 (Hd x y Hx Hy))|rewrite (Hs x y Hy); exact Hn]. Qed.

Lemma char_same bwd op x y : y ∈ char_den s bwd op x -> y.2 = x.2.
Proof. unfold char_den. destruct bwd; [destruct (if Nat.eqb x.1 0 then None else _) as [[c p]|]|destruct (if (cbuf_end s <=? x.1)%nat then None else _) as [[c p]|]]; try destruct (char_test s op c); intros Hy; try (inversion Hy; fail); apply list_elem_of_singleton in Hy as ->; reflexivity. Qed.

Lemma backref_same bwd ic n x y : y ∈ backref_den s bwd ic n x -> y.2 = x.2.
Proof.
  unfold backref_den. destruct (capture_at x.2 (2 * n)), (capture_at x.2 (2 * n + 1)); try (intros Hy; apply list_elem_of_singleton in Hy as ->; reflexivity).
  destruct (if bwd then _ else _) as [[p|]|]; intros Hy; try (inversion Hy; fail). apply list_elem_of_singleton in Hy as ->. reflexivity.
Qed.

Lemma ordered_reset n x a b : ordered n x -> ordered n (x.1, reset_captures x.2 a b).
Proof.
  intros [Hx Hn]. split; [exact (thread_reset s x a b Hx)|]. unfold pair_ok, reset_captures in *. cbn [snd]. rewrite !list_lookup_imap.
  destruct (x.2 !! (2 * n)%nat) as [u|], (x.2 !! S (2 * n)) as [v|]; cbn [fmap option_fmap option_map]; try contradiction; try (destruct u; contradiction).
  destruct ((2 * a <=? Z.of_nat (2 * n)) && (Z.of_nat (2 * n) <? 2 * b + 2)) eqn:E1, ((2 * a <=? Z.of_nat (S (2 * n))) && (Z.of_nat (S (2 * n)) <? 2 * b + 2)) eqn:E2; try exact I; try exact Hn; exfalso; rewrite ?andb_true_iff, ?andb_false_iff, ?Z.leb_le, ?Z.leb_gt, ?Z.ltb_lt, ?Z.ltb_ge in E1; rewrite ?andb_true_iff, ?andb_false_iff, ?Z.leb_le, ?Z.leb_gt, ?Z.ltb_lt, ?Z.ltb_ge in E2; lia.
Qed.

(** A capture of another group. *)
Lemma pair_other n x m e : 0 <= m -> m <> Z.of_nat n -> pair_ok (set_capture x (2 * m + c_bool e)).2 n <-> pair_ok x.2 n.
Proof. intros H0 Hne. unfold pair_ok. cbn [set_capture snd]. rewrite !list_lookup_insert_ne by (destruct e; cbn; lia). reflexivity. Qed.

(** The two captures of a group, whichever is set first. *)
Lemma pair_set bwd n x z : thread_ok s x -> (Z.of_nat n < capture_count s) -> thread_ok s z -> moves bwd x z -> frame (Z.of_nat n + 1) (set_capture x (2 * Z.of_nat n + c_bool bwd)) z ->
  pair_ok (set_capture z (2 * Z.of_nat n + c_bool (negb bwd))).2 n.
Proof.
  intros [_ Hl _] Hn [_ Hl' _] Hm Hf. unfold pair_ok. cbn [set_capture snd]. destruct bwd; cbn [c_bool negb moves] in *.
  - replace (Z.to_nat (2 * Z.of_nat n + 0)) with (2 * n)%nat by lia. rewrite list_lookup_insert_eq, list_lookup_insert_ne by lia. rewrite (Hf (S (2 * n)) ltac:(lia)). cbn [set_capture snd]. replace (Z.to_nat (2 * Z.of_nat n + 1)) with (S (2 * n)) by lia. rewrite list_lookup_insert_eq by lia. exact Hm.
  - replace (Z.to_nat (2 * Z.of_nat n + 1)) with (S (2 * n)) by lia. rewrite (list_lookup_insert_eq _ (S (2 * n))), list_lookup_insert_ne by lia. rewrite (Hf (2 * n)%nat ltac:(lia)). cbn [set_capture snd]. replace (Z.to_nat (2 * Z.of_nat n + 0)) with (2 * n)%nat by lia. rewrite list_lookup_insert_eq by lia. exact Hm.
Qed.

Lemma ordered_lt n x : ordered n x -> Z.of_nat n < capture_count s.
Proof. intros [[_ Hl _] Hn]. unfold pair_ok in Hn. destruct (x.2 !! S (2 * n)) as [v|] eqn:E; [apply lookup_lt_Some in E; lia|]. destruct (x.2 !! (2 * n)%nat) as [[|]|]; contradiction. Qed.

(** The groups of a term are in order after each of its matches if they were before. *)
Lemma den_ordered n r : forall bwd cc, 0 <= cc -> preserves n (den s bwd r cc).
Proof.
  induction r as [|op|op|ic k|a IHa b IHb|a IHa b IHb|a IHa|neg behind a IHa|a IHa mn mx g]; intros bwd cc Hcc; cbn [den]; try pose proof (groups_nonneg a) as Ga.
  - apply preserves_id.
  - exact (preserves_same n bwd _ (sound_char s bwd op) (char_same bwd op)).
  - intros x y Hx Hy. destruct (assert_test s op x.1); [apply (preserves_id n x y Hx Hy)|inversion Hy].
  - exact (preserves_same n bwd _ (sound_backref s bwd ic k) (backref_same bwd ic k)).
  - destruct bwd; [exact (preserves_seq n _ _ (IHb true (cc + groups a) ltac:(lia)) (IHa true cc Hcc))|exact (preserves_seq n _ _ (IHa false cc Hcc) (IHb false (cc + groups a) ltac:(lia)))].
  - intros x y Hx Hy. apply elem_of_app in Hy as [Hy|Hy]; [exact (IHa bwd cc Hcc x y Hx Hy)|exact (IHb bwd (cc + groups a) ltac:(lia) x y Hx Hy)].
  - intros x y Hx Hy. pose proof (ordered_lt n x Hx) as Hlt. apply list_elem_of_fmap in Hy as (z & -> & Hz). destruct (den_sound s a bwd (cc + 1) _ z (thread_set s x _ (proj1 Hx)) Hz) as [Hz' Hm]. split; [apply thread_set, Hz'|]. destruct (Z.eq_dec cc (Z.of_nat n)) as [->|Hne].
    + exact (pair_set bwd n x z (proj1 Hx) Hlt Hz' Hm (den_frames a bwd (Z.of_nat n + 1) ltac:(lia) _ z Hz)).
    + apply pair_other; [exact Hcc|exact Hne|]. refine (proj2 (IHa bwd (cc + 1) ltac:(lia) _ z _ Hz)). split; [apply thread_set, (proj1 Hx)|apply pair_other; [exact Hcc|exact Hne|exact (proj2 Hx)]].
  - intros x y Hx Hy. destruct (den s behind a cc x) as [|z l] eqn:E; destruct neg; try (inversion Hy; fail); [apply (preserves_id n x y Hx Hy)|]. apply list_elem_of_singleton in Hy as ->. destruct (IHa behind cc Hcc x z Hx ltac:(rewrite E; left)) as [[_ H1 H2] Hp]. split; [split; [exact (thread_pos _ _ (proj1 Hx))|exact H1|exact H2]|exact Hp].
  - intros x y Hx Hy. refine (preserves_seq n _ _ (preserves_times n _ (Z.to_nat mn) (IHa bwd cc Hcc)) (preserves_upto n _ g (rounds s mn mx) (IHa bwd cc Hcc)) _ y _ Hy). destruct (mn =? 0); [|exact Hx]. destruct (0 <? groups a); [exact (ordered_reset n x _ _ Hx)|destruct x; exact Hx].
Qed.

Lemma search_ordered n fuel r sticky x y : ordered n x -> (0 < n)%nat -> y ∈ search s fuel r sticky x -> ordered n y.
Proof.
  intros Hx Hn. assert (Hset : forall x e, ordered n x -> ordered n (set_capture x (2 * 0 + c_bool e))) by (intros z e [H1 H2]; split; [apply thread_set, H1|apply pair_other; [lia|lia|exact H2]]).
  assert (Hcore : forall x, ordered n x -> y ∈ map (fun y => set_capture y 1) (den s false r 1 (set_capture x 0)) -> ordered n y) by (intros z Hz Hy; apply list_elem_of_fmap in Hy as (w & -> & Hw); exact (Hset w true (den_ordered n r false 1 ltac:(lia) _ w (Hset z false Hz) Hw))).
  revert x Hx. induction fuel as [|fuel IH]; intros x Hx Hy; cbn [search] in Hy; apply elem_of_app in Hy as [Hy|Hy]; try exact (Hcore x Hx Hy); [inversion Hy|].
  destruct sticky; [inversion Hy|]. unfold char_after in Hy. destruct (Nat.leb_spec (cbuf_end s) x.1) as [|Hl]; [inversion Hy|]. destruct (get_char_boundary s x.1 (thread_pos _ _ (proj1 Hx)) Hl) as (c & p & E & Hp & _). rewrite E in Hy.
  refine (IH (p, x.2) _ Hy). split; [exact (thread_at s x p (proj1 Hx) Hp)|exact (proj2 Hx)].
Qed.

Lemma pair_start n k : (n < k)%nat -> pair_ok (replicate (2 * k) None) n.
Proof. intros Hn. unfold pair_ok. rewrite !lookup_replicate_2 by lia. exact I. Qed.

End Captures.

(** ** The theorems *)

(** C2: a compiled regular expression run by [lre_exec] comes to an end, with the first
    match of its backtracking semantics and its captures, or with no match if there is
    none; only the host, by a timeout or by refusing memory, makes it end otherwise. *)
Theorem lre_exec_matches `{LreHost} re_flags r bc chars cindex ty :
  lre_compile re_flags r = Some bc -> regex_ok (1 + groups r) r = true -> groups r < 255 -> Z.of_nat (length bc) < 2 ^ 31 -> (cindex <= length chars)%nat ->
  exists s p fuel, exec_context bc chars ty = Some s /\ start_position s cindex = Some p /\
    forall fuel', (fuel <= fuel')%nat -> lre_result (lre_exec fuel' bc chars cindex ty) (search s (length chars) r (is_sticky re_flags) (p, replicate (Z.to_nat (2 * capture_count s)) None)).
Proof.
  intros Hc Hok Hg Hl Hi. destruct (lre_exec_runs re_flags r bc chars cindex ty Hc Hok Hg Hl Hi) as (s & p & fuel & Es & _ & _ & Ep & _ & _ & Hrun). exists s, p, fuel. split; [exact Es|]. split; [exact Ep|]. intros fuel' Hf. destruct (Hrun fuel' Hf) as [-> Hr]. exact Hr.
Qed.

(** C9: a match that [lre_exec] reports lies in the string: it begins at or after the
    start (a sticky one at the start) and not after its end, no capture is outside the
    string or inside a surrogate pair of a unicode match, and every capture group is
    either unset, both its captures being so, or has its start and its end set with the
    start not after the end. *)
Theorem lre_match_valid `{LreHost} re_flags r bc chars cindex ty fuel x c :
  lre_compile re_flags r = Some bc -> regex_ok (1 + groups r) r = true -> groups r < 255 -> Z.of_nat (length bc) < 2 ^ 31 -> (cindex <= length chars)%nat ->
  lre_exec fuel bc chars cindex ty = Done LRE_RET_MATCH x c ->
  exists s p a b, exec_context bc chars ty = Some s /\ start_position s cindex = Some p /\ Z.of_nat (length (capture c)) = 2 * (1 + groups r) /\
    capture c !! 0%nat = Some (Some a) /\ capture c !! 1%nat = Some (Some b) /\ (p <= a <= b)%nat /\ (is_sticky re_flags = true -> a = p) /\ (b <= length chars)%nat /\
    (forall i q, capture c !! i = Some (Some q) -> (q <= length chars)%nat /\ boundary s q) /\
    (forall n, Z.of_nat n < 1 + groups r -> pair_ok (capture c) n).
Proof.
  intros Hc Hok Hg Hl Hi E. destruct (lre_exec_runs re_flags r bc chars cindex ty Hc Hok Hg Hl Hi) as (s & p & fuel0 & Es & Eb & Ecap & Ep & _ & Hx & Hrun). pose proof (groups_nonneg r) as Hn.
  assert (Hmore : lre_exec (Nat.max fuel fuel0) bc chars cindex ty = Done LRE_RET_MATCH x c) by (unfold lre_exec in *; rewrite Es in *; cbn [mbind option_bind] in *; rewrite Ep in *; cbn [mbind option_bind] in *; exact (run_done_le s _ _ _ _ _ _ (Nat.le_max_l _ _) E)).
  destruct (Hrun _ (Nat.le_max_r fuel fuel0)) as [Ef Hr]. rewrite Hmore in Ef. rewrite <- Ef in Hr. cbn [lre_result] in Hr. destruct (search s _ r _ _) as [|y l] eqn:Ey; [discriminate|]. injection Hr as ->.
  destruct (search_sound s (length chars) r (is_sticky re_flags) _ (cptr c, capture c) Hx ltac:(lia)) as ([_ H1 H2] & a & H3 & H4 & H5 & H6 & H7); [rewrite Ey; left|]. cbn [fst snd] in *. assert (Hin : forall i q, capture c !! i = Some (Some q) -> (q <= length chars)%nat /\ boundary s q) by (intros i q Hq; pose proof (H2 i q Hq) as Hb; split; [rewrite <- Eb; exact (proj1 Hb)|exact Hb]).
  exists s, p, a, (cptr c). rewrite H1, Ecap. repeat (split; [first [assumption|lia|reflexivity]|]). split; [exact (proj1 (Hin 1%nat _ H6))|]. split; [exact Hin|]. intros n Hlt. destruct (Nat.eq_dec n 0%nat) as [->|Hn0]; [unfold pair_ok; change (2 * 0)%nat with 0%nat; rewrite H5, H6; exact H7|].
  refine (proj2 (search_ordered s n (length chars) r (is_sticky re_flags) _ (cptr c, capture c) _ ltac:(lia) _)); [|rewrite Ey; left]. split; [exact Hx|]. cbn [snd]. replace (Z.to_nat (2 * capture_count s)) with (2 * Z.to_nat (capture_count s))%nat by lia. apply pair_start. lia.
Qed.

(** C8: whatever the bytecode, the loop with the stack of states implements the
    recursive search: if the search has an outcome, then the loop ends with it, unless
    the host stops it, and it never ends otherwise. *)
Theorem backtracking_refined `{LreHost} s c o : eval s c o ->
  exists fuel res x z, (forall fuel', (fuel <= fuel')%nat -> run s fuel' (CExec false start_context c) = Done res x z) /\
    (host_stop res \/ match o with Some y => res = LRE_RET_MATCH /\ z = y | None => res = LRE_RET_NO_MATCH end).
Proof.
  intros He. destruct (ends_done s _ _ (eval_run s c o He start_context start_context_ok)) as (fuel & res & x & z & E & Hr). exists fuel, res, x, z. split; [intros fuel' Hf; exact (run_done_le s _ _ _ _ _ _ Hf E)|]. destruct Hr as [Hs|[-> Hr]]; [left; exact Hs|right]. destruct o as [y|]; cbn [hit]; [split; [reflexivity|exact (Hr y eq_refl)]|reflexivity].
Qed.

(** C15: the binary search of a character class ends inside its ranges and decides
    membership in them, an end of 0xffff in the 16-bit form standing for all characters
    from there on. *)
Theorem class_search_correct ic wide l c : char_ok (REOP_range ic wide l) = true ->
  exists b, range_test wide l c = Some b /\
    (b = true <-> exists low high, In (low, high) l /\ low <= c /\ (c <= high \/ (wide = false /\ high = 0xffff /\ 0xffff <= c))).
Proof.
  intros Hok. exists (existsb (fun r => (r.1 <=? c) && ((c <=? r.2) || (negb wide && (r.2 =? 0xffff) && (0xffff <=? c)))) l). split; [exact (range_test_spec ic wide l c Hok)|]. rewrite existsb_exists. split.
  - intros ([low high] & Hin & E). exists low, high. cbn [fst snd] in E. rewrite andb_true_iff, orb_true_iff, !andb_true_iff, negb_true_iff, !Z.leb_le, Z.eqb_eq in E. tauto.
  - intros (low & high & Hin & H1 & H2). exists (low, high). split; [exact Hin|]. cbn [fst snd]. rewrite andb_true_iff, orb_true_iff, !andb_true_iff, negb_true_iff, !Z.leb_le, Z.eqb_eq. tauto.
Qed.

(** ** Examples *)

(** A host that never stops a match and folds ASCII letters. *)
Definition demo_host : LreHost := {|
  lre_canonicalize c _ := if (97 <=? c) && (c <=? 122) then c - 32 else c;
  lre_check_timeout _ := false;
  lre_realloc_ok _ := true;
  StackInt_bits := 64;
  StackInt_wide := ltac:(lia)
|}.
#[local] Existing Instance demo_host.

Definition demo_char (c : Z) : regex := RChar (REOP_char false false c).
Definition demo_code (r : regex) : list Z := match lre_compile 0 r with Some bc => bc | None => [] end.

(** A group with any number of [a] and [b], and [c]. *)
Definition demo_regex : regex := RCat (RGroup (RQuant (RAlt (demo_char 97) (demo_char 98)) 0 INT32_MAX true)) (demo_char 99).
Definition demo_text : list Z := [120; 97; 98; 99; 100].

Example demo_matches : exists x z, lre_exec 1000 (demo_code demo_regex) demo_text 0 0 = Done LRE_RET_MATCH x z /\ capture z = [Some 1%nat; Some 4%nat; Some 1%nat; Some 3%nat].
Proof. eexists _, _. split; vm_compute; reflexivity. Qed.

Lemma lre_exec_matches_witness : lre_compile 0 demo_regex = Some (demo_code demo_regex) /\
  exists s p fuel, exec_context (demo_code demo_regex) demo_text 0 = Some s /\ start_position s 0 = Some p /\
    forall fuel', (fuel <= fuel')%nat -> lre_result (lre_exec fuel' (demo_code demo_regex) demo_text 0 0) (search s (length demo_text) demo_regex (is_sticky 0) (p, replicate (Z.to_nat (2 * capture_count s)) None)).
Proof. split; [reflexivity|]. apply (lre_exec_matches 0 demo_regex (demo_code demo_regex) demo_text 0 0); vm_compute; try reflexivity. lia. Defined.

(** Any number of [(a)] or [b], on [ab]: the group keeps what it matched in the first round,
    although the second round does not take part in it. *)
Example captures_kept_between_rounds : exists x z,
  lre_exec 1000 (demo_code (RQuant (RAlt (RGroup (demo_char 97)) (demo_char 98)) 0 INT32_MAX true)) [97; 98] 0 0 = Done LRE_RET_MATCH x z /\
  capture z = [Some 0%nat; Some 2%nat; Some 0%nat; Some 1%nat].
Proof. eexists _, _. split; vm_compute; reflexivity. Qed.

Definition demo_end : REExecContext * config :=
  match lre_exec 1000 (demo_code demo_regex) demo_text 0 0 with Done _ x z => (x, z) | _ => (start_context, MkConfig 0 0 [] []) end.

Lemma lre_match_valid_witness : lre_exec 1000 (demo_code demo_regex) demo_text 0 0 = Done LRE_RET_MATCH demo_end.1 demo_end.2 /\
  exists s p a b, exec_context (demo_code demo_regex) demo_text 0 = Some s /\ start_position s 0 = Some p /\ Z.of_nat (length (capture demo_end.2)) = 2 * (1 + groups demo_regex) /\
    capture demo_end.2 !! 0%nat = Some (Some a) /\ capture demo_end.2 !! 1%nat = Some (Some b) /\ (p <= a <= b)%nat /\ (is_sticky 0 = true -> a = p) /\ (b <= length demo_text)%nat /\
    (forall i q, capture demo_end.2 !! i = Some (Some q) -> (q <= length demo_text)%nat /\ boundary s q) /\
    (forall n, Z.of_nat n < 1 + groups demo_regex -> pair_ok (capture demo_end.2) n).
Proof.
  split; [vm_compute; reflexivity|]. apply (lre_match_valid 0 demo_regex (demo_code demo_regex) demo_text 0 0 1000 demo_end.1 demo_end.2); vm_compute; try reflexivity. lia.
Defined.

(** A choice whose first way fails. *)
Definition demo_program : program := MkProgram (assemble [REOP_split true 3; REOP_char false false 97; REOP_match]) [98] 0 1 0 false.

Lemma backtracking_refined_witness :
  exists fuel res x z, (forall fuel', (fuel <= fuel')%nat -> run demo_program fuel' (CExec false start_context (MkConfig 0 0 [] [])) = Done res x z) /\
    (host_stop res \/ (res = LRE_RET_MATCH /\ z = MkConfig 8 0 [] [])).
Proof.
  apply (backtracking_refined demo_program (MkConfig 0 0 [] []) (Some (MkConfig 8 0 [] []))).
  eapply eval_split_miss; [vm_compute; reflexivity|apply eval_fail; vm_compute; reflexivity|apply eval_match; vm_compute; reflexivity].
Defined.

Lemma class_search_witness : char_ok (REOP_range false false [(48, 57); (65, 0xffff)]) = true /\
  exists b, range_test false [(48, 57); (65, 0xffff)] 0x10000 = Some b /\
    (b = true <-> exists low high, In (low, high) [(48, 57); (65, 0xffff)] /\ low <= 0x10000 /\ (0x10000 <= high \/ (false = false /\ high = 0xffff /\ 0xffff <= 0x10000))).
Proof. split; [reflexivity|]. apply (class_search_correct false); reflexivity. Defined.
